(* ===== verification/_CoqProject ===== *)
-Q . S2P
Prelude.v
MuxAck.v
MuxFec.v
MuxRetransmit.v
MuxFlow.v
MuxFlowControl.v
MuxDrain.v
MuxNegotiation.v
P2PReplay.v
P2PHeader.v
P2PControl.v
P2PState.v
P2PProbe.v
P2PLimiter.v
P2PNat.v
Runtime.v
LeasePool.v
SessionControl.v
SessionRecovery.v
SessionExchanger.v
PacketChecksum.v
PacketFrames.v
PacketFragment.v
PacketMss.v
PacketPathMtu.v
RouteTable.v
PeerRouting.v
FakeIp.v
Ssea.v
SseaSimd.v
Ciphertext.v
Transmission.v
StaticPacket.v
Handshake.v
NoisePsk.v
SpscHandoff.v
TapLane.v
UploadBudget.v
UploadQueue.v
DirectRead.v
VnetCodec.v
GsoCoalescer.v
GsoDelivery.v
TunOutput.v
P2PV2Codec.v
P2POffer.v
P2PV2Channel.v
P2PV2Run.v
WriteQueue.v
IPv6Routes.v
MuxDrr.v
MuxSend.v
MuxSendRun.v
