(* ===== verification/Prelude.v ===== *)
(** * A verification library for the openppp2 runtime

    openppp2 is a virtual Ethernet (VPN) runtime in C++.  A client and a server exchange frames
    over several carriers; a multiplexer ([src/ppp/app/mux]) schedules the frames of many streams
    over those carriers, acknowledges, retransmits and repairs them; a peer-to-peer layer
    ([src/ppp/p2p]) moves traffic off the server onto direct UDP paths; the runtime
    ([src/ppp/app/runtime]) publishes the life cycle of the process; the server leases addresses
    and lets a client resume its session over a new carrier ([src/ppp/app/server],
    [src/ppp/app/protocol]); carriers frame, obfuscate and encrypt what they transport
    ([src/ppp/transmissions], [src/ppp/cryptography]); packets are parsed, fragmented, clamped and
    routed ([src/ppp/net], [src/ppp/app/client]).  This library models the decision logic of these parts, the code
    between the sockets, and proves what makes it correct.

    ** Conventions

    - A [w]-bit unsigned integer is a [Z]; every operation that can leave the range is written
      with its wrap-around ([wrap], [a -[w] b], [a +[w] b]).  A byte buffer is a [list Z] of
      bytes; big-endian words are the shift-and-mask sequences of the source ([be_bytes],
      [get16], [get32], [get64]).
    - A component's state is a [Record]; a method is a function from the state and the arguments
      to the result and the next state; an error is the value the source returns.  Hash maps are
      [gmap]s: the iteration order of an [unordered_map] is an argument where a result depends
      on it.  A method that runs under one mutex is one step; where the source drops the lock in
      between, the critical sections are separate steps ([MuxDrain], [Runtime]).
    - A client's sequence of calls is a list; [run] and [exec] (below) thread the state through
      it, and [StepInvariant] is the interface by which a component hands its invariant to the
      theorems about such sequences.
    - Randomness, cryptography and clocks are arguments.  Allocation failure is not modelled.

    ** Files

    - [Prelude]: machine words, bytes, fixed-size wire records ([SizedRecord] and its laws),
      state machines, sums over maps, tactics and the hint database [openppp2].
    - [MuxAck] ([mux/MuxAckTracker.h]): the range tracker of received sequences and the ACK frame
      codec.  What is acknowledged was received, the tracker stays bounded and loses nothing but
      what it trims, the codec round-trips and rejects malformed frames.  The class [AckReports]
      is what it promises to the sender.
    - [MuxFec] ([mux/MuxFecCodec.h]): XOR parity groups; one lost frame of a group is recovered.
    - [MuxRetransmit] ([mux/MuxRetransmitBuffer.h]): the sender's buffer; byte accounting, exact
      release on ACK, expiry, back-off, takeover of a dead carrier's frames; with [AckReports],
      only frames the peer received are ever released.
    - [MuxFlow] ([mux/MuxFlowReorderBuffer.h], [MuxFlowContextAdmission.h], [MuxRxBackpressure.h],
      [MuxTxBackpressure.h]): reordering and admission policies; a frame admitted by the send
      window is always tracked by the retransmission buffer.
    - [MuxFlowControl] ([mux/MuxTxBackpressure.h], [MuxRxQueueLimit.h], [vmux_skt.cpp],
      [vmux_net.cpp]): XON/XOFF of a stream; sender and receiver agree once the last frame
      arrives, however the frames were reordered or duplicated.
    - [MuxDrain] ([mux/MuxLinkDrainState.h]): write tickets and retirement of a carrier, as a
      step relation with threads interleaving inside [Consume].
    - [MuxNegotiation] ([mux/MuxRuntimeState.h], [MuxCoordinator.cpp] and the handshakes of both
      exchangers): mode negotiation; both ends end up with the same ordering and reliability.
    - [P2PReplay] ([p2p/P2PReplayWindow.h]): the replay window refines an unbounded set of
      accepted extended sequence numbers.
    - [P2PHeader] ([p2p/P2PPacketHeader.h], [P2PDefs.h]), [P2PControl] ([p2p/P2PControlPacket.h]):
      wire formats; round trips, strictness, memory safety of the demultiplexer.
    - [P2PState] ([p2p/P2PState.h], [P2PControlStateMachine.h], [P2PAuthenticatedProbeAck.h],
      [P2PCapabilityGate.h]): the path is Direct only after a fresh authenticated proof.
    - [P2PProbe] ([p2p/P2PProbeCoordinator.cpp]): bounded probing.  [P2PLimiter]
      ([p2p/P2PIngressLimiter.cpp]): a source is never allowed more than its rate and burst.
      [P2PNat] ([p2p/P2PNatClassifier.cpp], [P2PZeroRTTCache.h]): NAT classification and the
      reconnect cache.
    - [Runtime] ([runtime/Runtime*.h]): phase gating, stopping, the teardown pipeline and the
      publication of snapshots under every interleaving of the threads.
    - [LeasePool] ([server/IPv4LeasePool.cpp]): the two maps of the pool are inverse, allocation
      is exact.
    - [SessionControl] ([protocol/SessionResumeAuthenticator.cpp], [VirtualEthernetInformation.cpp],
      [server/VirtualEthernetExchanger.cpp]): resume messages, their hexadecimal form and the
      authenticated transcript.
    - [SessionRecovery] ([server/SessionRecoveryState.h], [SessionResumeEstablishTransaction.cpp],
      [SessionResumeFallbackDecision.h]): the recovery ledger of a session and the resume
      transaction over any implementation of its abstract operations.
    - [SessionExchanger] ([server/VirtualEthernetExchanger.cpp]): the operations of a session that
      arm recovery, suspend a lost carrier and bind a new one, one step per critical section, in any
      order; a publication is traced back to the authenticated begin and commit that allowed it.
    - [PacketChecksum] ([net/native/checksum.h]), [PacketFrames] ([net/packet], [net/native/ip.h],
      [udp.h], [icmp.h]), [PacketFragment] ([net/packet/IPFragment.cpp]): the vector checksum equals
      the scalar one, frames survive serialization, fragments reassemble in any
      order within the life of their group.
    - [PacketMss] ([protocol/VirtualEthernetTcpMss.h], [ipv6/IPv6Packet.h]), [PacketPathMtu]
      ([protocol/VirtualEthernetPathMtu.h] and the packet paths of the client): a SYN leaves with the
      clamped MSS and a valid checksum; an ICMP error lowers the MSS of later connections.
    - [RouteTable] ([net/native/rib.cpp]), [PeerRouting] ([server/PeerRouteAnnouncePolicy.h] and the
      prefix tables of [VirtualEthernetSwitcher.cpp]), [FakeIp] ([client/dns/FakeIpPool.cpp]): the
      forwarding table, and the loader of route text, refine longest-prefix matching over a set of routes
      (a specification by the bits of an address as it is written), peers reach only
      authorised gateways, fake addresses and host names stay in bijection.
    - [Ssea], [SseaSimd] ([cryptography/ssea.cpp], [ssea_simd]), [Ciphertext] ([cryptography/rc4.cpp],
      [Ciphertext.cpp]): the byte codecs and their vector kernels, the stream cipher.  The classes
      [CipherOps] and [CipherLaws] are what a cipher promises to the framing above it; the RC4
      object and the wrapper discharge them.
    - [Transmission], [Handshake] ([transmissions/ITransmission.cpp], [Int128.h]), [StaticPacket]
      ([protocol/VirtualEthernetPacket.cpp]): the framing of a carrier, its handshake, and datagrams,
      proved for any cipher that satisfies the laws: what one end writes the other end reads.
    - [NoisePsk] ([cryptography/noise/NoisePsk.cpp]): the Noise handshake of authenticated carriers over
      the primitives of the class [NoiseCrypto]: the ends agree, what an accepted message binds, and
      which secrets the object still holds in each of its states.
    - [SpscHandoff] ([threading/SpscHandoff.h] and the ingress drain of [client/xtcp/XtcpRuntime.cpp]):
      the ring between serialized producers and one consumer, one step per atomic access in any
      interleaving (the weaker memory orders of the source are not modelled): what is consumed is a
      prefix of what was accepted, and a queued item always has a drain on its way.
    - [TapLane] ([tap/TapLaneEnvelopeQueue.h], [linux/ppp/tap/TapLinux.cpp]): the staging of packets
      read on several lanes: exact accounting, one drain at a time, and a bound on how long a lane waits.
    - [UploadBudget], [UploadQueue] ([protocol/XtcpDirectIo.h], [XtcpDirectUploadQueue.h]): upload
      credit is conserved and its waiters are woken; the queue's counters agree with its contents and
      no backpressure outlives its cause.  The handoff mode of the queue uses the ring as the list that
      [SpscHandoff] proves it to be.
    - [DirectRead] ([protocol/DirectReadWaiterState.h] and the reader of
      [VirtualEthernetTcpipConnection.cpp]): a completion is matched to the read it names, whichever
      of the two comes first.
    - [VnetCodec] ([linux/ppp/tap/TapVnetCodec.h], [tap/TxGsoMetadata.h], [OnInput] of
      [linux/ppp/tap/TapLinux.cpp]), [GsoCoalescer], [GsoDelivery] ([linux/ppp/tap/TapGsoCoalescer.h]):
      the frames of a TUN device with VNET headers.  A super-packet read is cut into valid segments that
      carry its payload; the frames the coalescer writes, read by that input path (a request for a checksum with them), bring
      the packets pushed, none lost or twice, in order, up to the fields that merging may change
      ([same_segment]).  The fuel of the cutting loop is the payload size.
    - [TunOutput] (the output side of [linux/ppp/tap/TapLinux.cpp]): the shared path, the lanes and
      their timers over the coalescer: as long as no write fails the device, every packet whose output
      answered true is written or held.
    - [P2PV2Codec] ([p2p/P2PV2ControlCodec.cpp], [P2PV2DataCodec.cpp]): version 2 of the peer packets,
      over the class [P2PCrypto] of primitives: parsing and serializing control packets are inverse,
      signing and verifying agree, and a datagram opens exactly to what sealing makes it from.
    - [P2POffer] ([p2p/P2PRelayOfferV2.cpp], with [P2PRelayOffer.cpp] and [P2PKeyDerivation.cpp]): the
      offers by which a server introduces two peers: both open their own text to the same offer and
      seed, derive mirrored keys, and no one else's session opens it.
    - [P2PV2Channel] ([p2p/P2PV2Channel.cpp]): the channel between two peers, every method as one step:
      accepting offers, probing, committing a pair, promotion, data, migration, liveness and renewal.
      A null dereference is the outcome [None].
    - [P2PV2Run]: over every sequence of calls within a registration, a sequence number is used for one
      packet only and a payload is delivered once; and a run of two channels in which a late
      acknowledgement makes the responder dereference a null slot.
    - [WriteQueue] ([net/asio/IAsynchronousWriteIoQueue.cpp]): the queue in front of every stream transport,
      one step per critical section, in any interleaving: the packets go out in the order of admission, each
      once; no callback runs twice; no write is forgotten and the queue never stalls.
    - [IPv6Routes] ([ppp/ipv6/IPv6RouteTransaction.cpp], [windows/ppp/ipv6/WindowsIPv6RouteOwner.cpp]): the
      routes of an IPv6 takeover, over an interface with laws ([RouteMutatorLaws]) that the Windows owner
      discharges whatever the system answers: no route it created is forgotten, none is deleted that it does not
      own; and a run in which a retried cleanup deletes the committed pin.
    - [MuxDrr] (the transmit queues of [app/mux/vmux_net.cpp]): the deficit round robin over the connections:
      frames of a connection stay in order, none is forgotten, and the scan finds a frame within its budget of
      turns whenever the ring is not empty.
    - [MuxSend], [MuxSendRun] ([post_internal], [process_tx_all_packets], [retransmit_pending] and the carriers of
      [app/mux/vmux_net.cpp], after the session is established): one event at a time, whatever the carriers
      refuse: the drain loops end, and only when there is nothing to send or no room; the frames of a connection
      are sent for the first time in order and once, and what is sent again was sent before, with its number; in
      the compatible ordering every number given is on one frame that is sent or queued.  Acknowledgements and
      parity frames of this side are posts like others ([SndFeedback]).  The fuel of the loops is the frames, the
      ring and the offered carriers; each turn uses one up.

    ** Bounds and fuel

    Loops are structural on the data they walk or on an iteration count computed from the loop's
    own bound (the address scan of [LeasePool], the two attempts of [SessionRecovery], the 128
    divisions of a 128-bit print in [Handshake]), so every
    definition is total and no theorem is conditional on fuel.  Where a 64-bit counter could wrap
    only after 2^64 steps, the theorem carries that bound as a hypothesis ([Runtime]).

    ** Not modelled

    Sockets, timers, coroutines and strands (asio), OpenSSL, JSON, configuration, platform back
    ends, user interfaces and vendored code.  Left open: the version 1 channel and offers of
    the peers, STUN, DNS responses and the durable fake-IP store, IPv6
    transit policy, the scheduler of [vmux_net.cpp]. *)

From stdpp Require Export base tactics numbers list sets gmap strings fin_maps.
From Stdlib Require Export ZArith Lia.

Global Open Scope Z_scope.

(** * Machine integers

    An unsigned [w]-bit integer of the source is a [Z]; the wrap-around of
    every operation that can leave the range is written out with these. *)
Declare Scope uint_scope.
Delimit Scope uint_scope with uint.

Definition wrap (w x : Z) : Z := x mod 2 ^ w.
Definition is_uint (w x : Z) : Prop := 0 ≤ x < 2 ^ w.

Notation "a -[ w ] b" := (wrap w (a - b)) (at level 50, w at level 0, left associativity) : uint_scope.
Notation "a +[ w ] b" := (wrap w (a + b)) (at level 50, w at level 0, left associativity) : uint_scope.
Global Open Scope uint_scope.

Definition UINT64_MAX : Z := 2 ^ 64 - 1.
Definition SIZE_MAX : Z := 2 ^ 64 - 1.

#[global] Instance is_uint_dec w x : Decision (is_uint w x).
Proof. unfold is_uint. apply _. Defined.

Lemma wrap_range w x : 0 ≤ w → is_uint w (wrap w x).
Proof. intros ?. apply Z.mod_pos_bound. apply Z.pow_pos_nonneg; lia. Qed.

Lemma wrap_small w x : is_uint w x → wrap w x = x.
Proof. apply Z.mod_small. Qed.

Lemma wrap_sub_ge w a b : is_uint w a → is_uint w b → b ≤ a → a -[w] b = a - b.
Proof. unfold is_uint. intros. apply wrap_small. unfold is_uint. lia. Qed.

Lemma wrap_sub_lt w a b : is_uint w a → is_uint w b → a < b → a -[w] b = a - b + 2 ^ w.
Proof.
  unfold is_uint, wrap. intros.
  rewrite <- (Z_mod_plus_full (a - b) 1 (2 ^ w)), Z.mul_1_l.
  apply Z.mod_small. lia.
Qed.

(** * Bytes and big-endian integers

    A byte buffer is a [list Z] whose elements are [is_byte].  [be_bytes n x]
    is the shift-and-mask sequence the serializers write, most significant
    byte first; [be_value] is the shift-and-or loop of the parsers. *)
Abbreviation is_byte := (is_uint 8).
Abbreviation bytes_ok := (Forall is_byte).

Fixpoint be_bytes (n : nat) (x : Z) : list Z :=
  match n with
  | O => []
  | S k => Z.land (Z.shiftr x (8 * Z.of_nat k)) 255 :: be_bytes k x
  end.

Definition be_value (bs : list Z) : Z :=
  fold_left (fun acc b => Z.lor (Z.shiftl acc 8) b) bs 0.

Definition be16 (b0 b1 : Z) : Z := Z.lor (Z.shiftl b0 8) b1.
Definition be32 (b0 b1 b2 b3 : Z) : Z :=
  Z.lor (Z.lor (Z.lor (Z.shiftl b0 24) (Z.shiftl b1 16)) (Z.shiftl b2 8)) b3.

Lemma testbit_high_zero k b i : 0 ≤ b < 2 ^ k → k ≤ i → Z.testbit b i = false.
Proof.
  intros Hb Hi. destruct (Z.lt_ge_cases k 0).
  { rewrite Z.pow_neg_r in Hb by lia. lia. }
  rewrite <- (Z.mod_small b (2 ^ k)) by lia. apply Z.mod_pow2_bits_high. lia.
Qed.

Lemma lor_shift_add a b k : 0 ≤ b < 2 ^ k → Z.lor (Z.shiftl a k) b = a * 2 ^ k + b.
Proof.
  intros Hb. destruct (Z.lt_ge_cases k 0).
  { rewrite Z.pow_neg_r in Hb by lia. lia. }
  pose proof (Z.add_lor_land (Z.shiftl a k) b) as E.
  replace (Z.land (Z.shiftl a k) b) with 0 in E.
  { rewrite Z.shiftl_mul_pow2 in * by lia. lia. }
  symmetry. apply Z.bits_inj'. intros i Hi. rewrite Z.bits_0, Z.land_spec.
  destruct (Z.lt_ge_cases i k).
  - rewrite Z.shiftl_spec_low by lia. done.
  - rewrite (testbit_high_zero k b i) by lia. by rewrite andb_false_r.
Qed.

Lemma land_255 x : Z.land x 255 = x mod 256.
Proof. change 255 with (Z.ones 8). by rewrite Z.land_ones by lia. Qed.

Lemma be_bytes_S n x :
  be_bytes (S n) x = (x / 2 ^ (8 * Z.of_nat n)) mod 256 :: be_bytes n x.
Proof. simpl be_bytes. by rewrite land_255, Z.shiftr_div_pow2 by lia. Qed.

Lemma length_be_bytes n x : length (be_bytes n x) = n.
Proof. induction n; simpl; congruence. Qed.

Lemma bytes_ok_be_bytes n x : bytes_ok (be_bytes n x).
Proof.
  induction n; [constructor|]. rewrite be_bytes_S. constructor; [|done].
  unfold is_uint. change (2 ^ 8) with 256. apply Z.mod_pos_bound. lia.
Qed.

Lemma be_value_app bs cs :
  bytes_ok cs → be_value (bs ++ cs) = be_value bs * 2 ^ (8 * Z.of_nat (length cs)) + be_value cs.
Proof.
  unfold be_value. rewrite fold_left_app.
  generalize (fold_left (λ acc b, Z.lor (Z.shiftl acc 8) b) bs 0) as a.
  induction cs as [|c cs IH] using rev_ind; intros a Hcs.
  - simpl. rewrite Z.mul_1_r. lia.
  - apply Forall_app in Hcs as [Hcs Hc]. rewrite Forall_singleton in Hc.
    rewrite !fold_left_app. simpl. rewrite IH by done.
    rewrite !(lor_shift_add _ c 8) by done.
    rewrite length_app. simpl.
    rewrite Nat2Z.inj_add, Z.mul_add_distr_l, Z.pow_add_r by lia.
    change (2 ^ (8 * Z.of_nat 1)) with (2 ^ 8). ring.
Qed.

Lemma be_value_singleton b : be_value [b] = b.
Proof. unfold be_value. simpl. by rewrite Z.lor_0_l. Qed.

Lemma be_value_cons b bs :
  bytes_ok bs → be_value (b :: bs) = b * 2 ^ (8 * Z.of_nat (length bs)) + be_value bs.
Proof.
  intros. change (b :: bs) with ([b] ++ bs). rewrite be_value_app by done.
  by rewrite be_value_singleton.
Qed.

(** Writing a word and reading it back gives the word, modulo its width. *)
Lemma be_value_bytes_mod n x : be_value (be_bytes n x) = x mod 2 ^ (8 * Z.of_nat n).
Proof.
  induction n as [|n IH]; [by rewrite Z.mod_1_r|].
  rewrite be_bytes_S, be_value_cons, length_be_bytes, IH by apply bytes_ok_be_bytes.
  rewrite Nat2Z.inj_succ. replace (8 * Z.succ (Z.of_nat n)) with (8 * Z.of_nat n + 8) by lia.
  rewrite Z.pow_add_r by lia. change (2 ^ 8) with 256.
  rewrite Z.rem_mul_r by first [lia | apply Z.pow_nonzero; lia]. ring.
Qed.

Lemma be_value_bytes n x : is_uint (8 * Z.of_nat n) x → be_value (be_bytes n x) = x.
Proof. intros. rewrite be_value_bytes_mod. by apply wrap_small. Qed.

Lemma be_value_range bs : bytes_ok bs → is_uint (8 * Z.of_nat (length bs)) (be_value bs).
Proof.
  induction bs as [|b bs IH]; intros H; [unfold is_uint; simpl; cbv; split; congruence|].
  apply Forall_cons in H as [Hb Hbs]. rewrite be_value_cons by done.
  specialize (IH Hbs). unfold is_uint in *. simpl length.
  rewrite Nat2Z.inj_succ, <- Z.add_1_r, Z.mul_add_distr_l, Z.pow_add_r by lia.
  change (2 ^ (8 * 1)) with 256. change (2 ^ 8) with 256 in Hb. nia.
Qed.

(** Adding a multiple of [2 ^ m] does not change a byte below bit [m]. *)
Lemma byte_of_high b v k m :
  0 ≤ k → k + 8 ≤ m → ((b * 2 ^ m + v) / 2 ^ k) mod 256 = (v / 2 ^ k) mod 256.
Proof.
  intros Hk Hm. replace m with ((m - k - 8) + 8 + k) by lia.
  rewrite !Z.pow_add_r by lia. rewrite !Z.mul_assoc.
  rewrite Z.div_add_l by (apply Z.pow_nonzero; lia).
  change (2 ^ 8) with 256. rewrite Z.add_comm. apply Z_mod_plus_full.
Qed.

#[global] Arguments be_bytes : simpl never.
#[global] Arguments be_value : simpl never.
#[global] Arguments wrap : simpl never.

(** Reading a buffer and writing the word back reproduces the buffer. *)
Lemma be_bytes_value bs : bytes_ok bs → be_bytes (length bs) (be_value bs) = bs.
Proof.
  induction bs as [|b bs IH]; intros H; [done|].
  apply Forall_cons in H as [Hb Hbs]. simpl length. rewrite be_bytes_S, be_value_cons by done.
  pose proof (be_value_range bs Hbs) as Hr. unfold is_uint in *. f_equal.
  - rewrite Z.div_add_l by lia. rewrite Z.div_small, Z.add_0_r by done.
    by apply Z.mod_small.
  - transitivity (be_bytes (length bs) (be_value bs)); [|by apply IH]. clear IH.
    remember (be_value bs) as v eqn:E. clear E.
    assert (∀ k, (k ≤ length bs)%nat →
      be_bytes k (b * 2 ^ (8 * Z.of_nat (length bs)) + v) = be_bytes k v) as Hk; [|by apply Hk].
    induction k as [|k IHk]; intros Hle; [done|].
    rewrite !be_bytes_S, IHk by lia. f_equal.
    apply byte_of_high; lia.
Qed.

Lemma be16_value b0 b1 : is_byte b1 → be16 b0 b1 = be_value [b0; b1].
Proof. intros. unfold be16, be_value. simpl. by rewrite Z.lor_0_l. Qed.

Lemma be32_value b0 b1 b2 b3 : be32 b0 b1 b2 b3 = be_value [b0; b1; b2; b3].
Proof.
  unfold be32, be_value. simpl. rewrite Z.lor_0_l.
  by rewrite !Z.shiftl_lor, !Z.shiftl_shiftl by lia.
Qed.

(** [byte_at p i] is the read [p[i]]; [get16], [get32] and [get64] read a
    big-endian word at the start of a buffer. *)
Definition byte_at (p : list Z) (i : nat) : Z := nth i p 0.
Definition get16 (p : list Z) : Z := be16 (byte_at p 0) (byte_at p 1).
Definition get32 (p : list Z) : Z :=
  be32 (byte_at p 0) (byte_at p 1) (byte_at p 2) (byte_at p 3).
Definition get64 (p : list Z) : Z := be_value (take 8 p).

#[global] Arguments byte_at : simpl never.
#[global] Arguments get16 : simpl never.
#[global] Arguments get32 : simpl never.
#[global] Arguments get64 : simpl never.

Lemma get16_value p : (2 ≤ length p)%nat → get16 p = be_value (take 2 p).
Proof.
  intros. destruct p as [|b0 [|b1 p]]; simpl in *; try lia.
  unfold get16, be16, be_value. simpl. by rewrite Z.lor_0_l.
Qed.

Lemma get32_value p : (4 ≤ length p)%nat → get32 p = be_value (take 4 p).
Proof.
  intros. destruct p as [|b0 [|b1 [|b2 [|b3 p]]]]; simpl length in *; try lia.
  unfold get32, byte_at. cbn [nth take]. by rewrite be32_value, take_0.
Qed.

Lemma get16_be_bytes x r : is_uint 16 x → get16 (be_bytes 2 x ++ r) = x.
Proof.
  intros. rewrite get16_value by (rewrite length_app, length_be_bytes; lia).
  rewrite take_app_length' by (by rewrite length_be_bytes). by apply be_value_bytes.
Qed.

Lemma get32_be_bytes x r : is_uint 32 x → get32 (be_bytes 4 x ++ r) = x.
Proof.
  intros. rewrite get32_value by (rewrite length_app, length_be_bytes; lia).
  rewrite take_app_length' by (by rewrite length_be_bytes). by apply be_value_bytes.
Qed.

Lemma get64_be_bytes x r : is_uint 64 x → get64 (be_bytes 8 x ++ r) = x.
Proof.
  intros. unfold get64. rewrite take_app_length' by (by rewrite length_be_bytes).
  by apply be_value_bytes.
Qed.

Lemma bytes_ok_take n p : bytes_ok p → bytes_ok (take n p).
Proof. apply Forall_take. Qed.

Lemma bytes_ok_drop n p : bytes_ok p → bytes_ok (drop n p).
Proof. apply Forall_drop. Qed.

Lemma be_value_take_range n p :
  bytes_ok p → (n ≤ length p)%nat → is_uint (8 * Z.of_nat n) (be_value (take n p)).
Proof.
  intros Hp Hn. pose proof (be_value_range (take n p) (bytes_ok_take n p Hp)) as H.
  by rewrite length_take_le in H.
Qed.

Lemma be_bytes_value_take n p :
  bytes_ok p → (n ≤ length p)%nat → be_bytes n (be_value (take n p)) = take n p.
Proof.
  intros Hp Hn. pose proof (be_bytes_value (take n p) (bytes_ok_take n p Hp)) as H.
  by rewrite length_take_le in H.
Qed.

Lemma byte_at_range p i : bytes_ok p → is_byte (byte_at p i).
Proof.
  intros Hp. unfold byte_at. destruct (nth_in_or_default i p 0) as [Hin| ->].
  - rewrite Forall_forall in Hp. apply Hp. by apply list_elem_of_In.
  - unfold is_uint. lia.
Qed.

Lemma get32_range p : bytes_ok p → (4 ≤ length p)%nat → is_uint 32 (get32 p).
Proof. intros. rewrite get32_value by done. by apply (be_value_take_range 4). Qed.

Lemma get16_range p : bytes_ok p → (2 ≤ length p)%nat → is_uint 16 (get16 p).
Proof. intros. rewrite get16_value by done. by apply (be_value_take_range 2). Qed.

Lemma be_bytes_get32 p : bytes_ok p → (4 ≤ length p)%nat → be_bytes 4 (get32 p) = take 4 p.
Proof. intros. rewrite get32_value by done. by apply be_bytes_value_take. Qed.

Lemma be_bytes_get16 p : bytes_ok p → (2 ≤ length p)%nat → be_bytes 2 (get16 p) = take 2 p.
Proof. intros. rewrite get16_value by done. by apply be_bytes_value_take. Qed.

(** Two consecutive 32-bit words. *)
Lemma pair32_read_write a b r :
  is_uint 32 a → is_uint 32 b →
  get32 ((be_bytes 4 a ++ be_bytes 4 b) ++ r) = a ∧
  get32 (drop 4 ((be_bytes 4 a ++ be_bytes 4 b) ++ r)) = b.
Proof.
  intros. rewrite <- (assoc_L (++)).
  rewrite drop_app_length' by (by rewrite length_be_bytes). by rewrite !get32_be_bytes.
Qed.

Lemma pair32_write_read p :
  bytes_ok p → (8 ≤ length p)%nat →
  be_bytes 4 (get32 p) ++ be_bytes 4 (get32 (drop 4 p)) = take 8 p.
Proof.
  intros. rewrite !be_bytes_get32 by (try apply bytes_ok_drop; rewrite ?length_drop; lia || done).
  by rewrite take_take_drop.
Qed.

(** Fields at fixed offsets: [sub p off n] is the [n] bytes at [off]. *)
Definition sub (p : list Z) (off n : nat) : list Z := take n (drop off p).

Lemma length_sub p off n : (off + n ≤ length p)%nat → length (sub p off n) = n.
Proof. intros. unfold sub. rewrite length_take, length_drop. lia. Qed.

Lemma bytes_ok_sub p off n : bytes_ok p → bytes_ok (sub p off n).
Proof. intros. by apply bytes_ok_take, bytes_ok_drop. Qed.

Lemma drop_skip (a r : list Z) off :
  (length a ≤ off)%nat → drop off (a ++ r) = drop (off - length a) r.
Proof. intros. by rewrite drop_app_ge. Qed.

Lemma sub_skip a r off n : (length a ≤ off)%nat → sub (a ++ r) off n = sub r (off - length a) n.
Proof. intros. unfold sub. by rewrite drop_skip. Qed.

Lemma sub_here a r n : length a = n → sub (a ++ r) 0 n = a.
Proof. intros <-. unfold sub. rewrite drop_0. by rewrite take_app_length. Qed.

Lemma sub_all p n : length p = n → sub p 0 n = p.
Proof. intros <-. unfold sub. rewrite drop_0. by apply take_ge. Qed.

Lemma sub_join p off n m : sub p off n ++ sub p (off + n) m = sub p off (n + m).
Proof. unfold sub. rewrite <- drop_drop. apply take_take_drop. Qed.

Lemma byte_at_skip a r k : (length a ≤ k)%nat → byte_at (a ++ r) k = byte_at r (k - length a).
Proof. intros. unfold byte_at. by apply app_nth2. Qed.

Lemma byte_at_here a r k : (k < length a)%nat → byte_at (a ++ r) k = byte_at a k.
Proof. intros. unfold byte_at. by apply app_nth1. Qed.

Lemma byte_at_head b r : byte_at (b :: r) 0 = b.
Proof. done. Qed.

Lemma sub_byte p k : (k < length p)%nat → [byte_at p k] = sub p k 1.
Proof.
  intros Hk. unfold sub, byte_at. destruct (lookup_lt_is_Some_2 p k Hk) as [b Hb].
  rewrite nth_lookup, Hb. by rewrite (drop_S _ _ _ Hb).
Qed.

Lemma be_bytes_get32_sub p k : bytes_ok p → (k + 4 ≤ length p)%nat → be_bytes 4 (get32 (drop k p)) = sub p k 4.
Proof. intros. apply be_bytes_get32; [by apply bytes_ok_drop|rewrite length_drop; lia]. Qed.

Lemma be_bytes_get16_sub p k : bytes_ok p → (k + 2 ≤ length p)%nat → be_bytes 2 (get16 (drop k p)) = sub p k 2.
Proof. intros. apply be_bytes_get16; [by apply bytes_ok_drop|rewrite length_drop; lia]. Qed.

Lemma be_bytes_get64_sub p k : bytes_ok p → (k + 8 ≤ length p)%nat → be_bytes 8 (get64 (drop k p)) = sub p k 8.
Proof.
  intros. unfold get64. apply be_bytes_value_take; [by apply bytes_ok_drop|rewrite length_drop; lia].
Qed.

Lemma get64_range p : bytes_ok p → (8 ≤ length p)%nat → is_uint 64 (get64 p).
Proof. intros. unfold get64. by apply (be_value_take_range 8). Qed.


(** * Fixed-size wire records

    The interface between a record and the codecs that carry arrays of it:
    what the element codec promises, and the array codecs proved from it. *)
Class SizedRecord (A : Type) := {
  sr_size : nat;
  sr_wf : A → Prop;
  sr_write : A → list Z;
  sr_read : list Z → A
}.

Class SizedRecordLaws (A : Type) `{SizedRecord A} := {
  sr_write_length (a : A) : sr_wf a → length (sr_write a) = sr_size;
  sr_write_bytes (a : A) : sr_wf a → bytes_ok (sr_write a);
  sr_read_write (a : A) (r : list Z) : sr_wf a → sr_read (sr_write a ++ r) = a;
  sr_read_wf (p : list Z) : bytes_ok p → (sr_size ≤ length p)%nat → sr_wf (sr_read p);
  sr_write_read (p : list Z) :
    bytes_ok p → (sr_size ≤ length p)%nat → sr_write (sr_read p) = take sr_size p
}.

Section sized_records.
Context {A : Type} `{SizedRecord A, !SizedRecordLaws A}.

Fixpoint write_many (xs : list A) : list Z :=
  match xs with
  | [] => []
  | x :: xs => sr_write x ++ write_many xs
  end.

Fixpoint read_many (n : nat) (p : list Z) : list A :=
  match n with
  | O => []
  | S n => sr_read p :: read_many n (drop sr_size p)
  end.

Lemma length_write_many xs :
  Forall sr_wf xs → length (write_many xs) = (length xs * sr_size)%nat.
Proof.
  induction 1 as [|x xs Hx _ IH]; [done|].
  simpl. rewrite length_app, sr_write_length, IH by done. lia.
Qed.

Lemma bytes_ok_write_many xs : Forall sr_wf xs → bytes_ok (write_many xs).
Proof.
  induction 1 as [|x xs Hx _ IH]; [constructor|].
  simpl. apply Forall_app. split; [by apply sr_write_bytes|done].
Qed.

Lemma read_write_many xs r :
  Forall sr_wf xs → read_many (length xs) (write_many xs ++ r) = xs.
Proof.
  induction 1 as [|x xs Hx _ IH]; [done|].
  simpl. rewrite <- (assoc_L (++)), sr_read_write by done.
  by rewrite drop_app_length', IH by (by rewrite sr_write_length).
Qed.

Lemma read_many_wf n p :
  bytes_ok p → (n * sr_size ≤ length p)%nat → Forall sr_wf (read_many n p).
Proof.
  revert p. induction n as [|n IH]; intros p Hp Hl; [constructor|]. simpl in *.
  constructor; [apply sr_read_wf; [done|lia]|].
  apply IH; [by apply bytes_ok_drop|rewrite length_drop; lia].
Qed.

Lemma length_read_many n p : length (read_many n p) = n.
Proof. revert p. induction n; intros; simpl; auto. Qed.

Lemma write_read_many n p :
  bytes_ok p → (n * sr_size ≤ length p)%nat →
  write_many (read_many n p) = take (n * sr_size) p.
Proof.
  revert p. induction n as [|n IH]; intros p Hp Hl; [done|]. simpl in *.
  rewrite sr_write_read, IH by (try apply bytes_ok_drop; rewrite ?length_drop; lia || done).
  by rewrite take_take_drop.
Qed.
End sized_records.

(** * Stateful components

    A component is a step function from a state and an operation to a result
    and the next state; [run] is a client's sequence of calls. *)
Section machines.
Context {S E R : Type} (step : S → E → R * S).

Fixpoint run (s : S) (es : list E) : list R * S :=
  match es with
  | [] => ([], s)
  | e :: es =>
      let '(r, s1) := step s e in
      let '(rs, s2) := run s1 es in
      (r :: rs, s2)
  end.

Definition exec (s : S) (es : list E) : S := (run s es).2.

Lemma exec_nil s : exec s [] = s.
Proof. done. Qed.

Lemma exec_cons s e es : exec s (e :: es) = exec (step s e).2 es.
Proof.
  unfold exec. simpl. destruct (step s e) as [r s1]. simpl.
  by destruct (run s1 es).
Qed.

Lemma exec_app s es1 es2 : exec s (es1 ++ es2) = exec (exec s es1) es2.
Proof.
  revert s. induction es1 as [|e es1 IH]; intros; [done|].
  simpl. by rewrite !exec_cons, IH.
Qed.

Lemma exec_snoc s es e : exec s (es ++ [e]) = (step (exec s es) e).2.
Proof. by rewrite exec_app, exec_cons. Qed.

Lemma run_results_cons s e es :
  (run s (e :: es)).1 = (step s e).1 :: (run (step s e).2 es).1.
Proof. simpl. destruct (step s e) as [r s1]. simpl. by destruct (run s1 es). Qed.

Lemma run_results_snoc s es e :
  (run s (es ++ [e])).1 = (run s es).1 ++ [(step (exec s es) e).1].
Proof.
  revert s. induction es as [|e0 es IH]; intros s.
  - rewrite exec_nil. cbn. by destruct (step s e).
  - rewrite <- app_comm_cons, !run_results_cons, exec_cons, IH. done.
Qed.

(** Invariants: a predicate kept by every step whose operation satisfies the
    client's side condition holds after every admissible sequence of calls. *)
Class StepInvariant (V : E → Prop) (I : S → Prop) : Prop :=
  step_invariant s e : V e → I s → I (step s e).2.

Lemma exec_invariant (V : E → Prop) (I : S → Prop) `{!StepInvariant V I} s es :
  I s → Forall V es → I (exec s es).
Proof.
  intros Hs Hes. revert s Hs. induction Hes as [|e es He _ IH]; intros s Hs; [done|].
  rewrite exec_cons. apply IH. by apply step_invariant.
Qed.

(** A relation between a state and its successor that is reflexive and
    transitive holds between the ends of every sequence of calls. *)
Lemma exec_related (V : E → Prop) (I : S → Prop) (Rel : S → S → Prop)
    `{!StepInvariant V I, !PreOrder Rel} s es :
  (∀ s e, V e → I s → Rel s (step s e).2) →
  I s → Forall V es → Rel s (exec s es).
Proof.
  intros Hstep Hs Hes. revert s Hs. induction Hes as [|e es He _ IH]; intros s Hs; [done|].
  rewrite exec_cons. etrans; [by apply Hstep|]. apply IH. by apply step_invariant.
Qed.
End machines.

Lemma mjoin_cons {A} (l : list A) (ls : list (list A)) : mjoin (l :: ls) = l ++ mjoin ls.
Proof. done. Qed.

Lemma default_Some {A} (d x : A) : default d (Some x) = x.
Proof. done. Qed.

(** Filtering depends only on the test's value on the elements. *)
Lemma list_filter_agree {A} (P Q : A → Prop) `{∀ x, Decision (P x), ∀ x, Decision (Q x)} (l : list A) :
  (∀ x, x ∈ l → P x ↔ Q x) → filter P l = filter Q l.
Proof.
  induction l as [|x l IH]; intros Hl; [done|].
  assert (P x ↔ Q x) by (apply Hl, elem_of_cons; by left).
  rewrite !filter_cons, IH by (intros y Hy; apply Hl, elem_of_cons; by right).
  repeat case_decide; tauto || done.
Qed.

Lemma list_filter_none {A} (P : A → Prop) `{∀ x, Decision (P x)} (l : list A) :
  (∀ x, ¬ P x) → filter P l = [].
Proof. intros HP. induction l as [|x l IH]; [done|]. by rewrite filter_cons, decide_False. Qed.

Lemma map_fmap {A B} (f : A → B) (l : list A) : map f l = f <$> l.
Proof. induction l; cbn; by f_equal. Qed.

(** * Sums over finite maps

    The total of the values of a map whose key satisfies a test: the byte
    counters of the buffers are compared with it. *)
Definition map_sum (P : Z → bool) (m : gmap Z Z) : Z :=
  map_fold (λ k v a, (if P k then v else 0) + a) 0 m.

Lemma map_sum_empty P : map_sum P ∅ = 0.
Proof. apply map_fold_empty. Qed.

Lemma map_sum_insert P m k v :
  m !! k = None → map_sum P (<[k:=v]> m) = (if P k then v else 0) + map_sum P m.
Proof. intros. unfold map_sum. rewrite map_fold_insert_L; [done|intros; lia|done]. Qed.

Lemma map_sum_delete P m k v :
  m !! k = Some v → map_sum P m = (if P k then v else 0) + map_sum P (delete k m).
Proof. intros. unfold map_sum. rewrite (map_fold_delete_L _ _ k v); [done|intros; lia|done]. Qed.

Lemma map_sum_nonneg P m : map_Forall (λ _ v, 0 ≤ v) m → 0 ≤ map_sum P m.
Proof.
  induction m as [|k v m Hk IH] using map_ind; intros Hm; [by rewrite map_sum_empty|].
  rewrite map_Forall_insert in Hm by done. destruct Hm as [Hv Hm].
  rewrite map_sum_insert by done. specialize (IH Hm). case_match; lia.
Qed.

Lemma map_sum_le P m :
  map_Forall (λ _ v, 0 ≤ v) m → map_sum P m ≤ map_sum (λ _, true) m.
Proof.
  induction m as [|k v m Hk IH] using map_ind; intros Hm; [by rewrite !map_sum_empty|].
  rewrite map_Forall_insert in Hm by done. destruct Hm as [Hv Hm].
  rewrite !map_sum_insert by done. specialize (IH Hm). case_match; lia.
Qed.

Lemma map_sum_lookup_le P m k v :
  map_Forall (λ _ v, 0 ≤ v) m → m !! k = Some v → P k = true → v ≤ map_sum P m.
Proof.
  intros Hm Hk HP. rewrite (map_sum_delete P m k v) by done. rewrite HP.
  pose proof (map_sum_nonneg P (delete k m) (map_Forall_delete _ _ _ Hm)). lia.
Qed.

Lemma map_sum_zero P m : (∀ k, is_Some (m !! k) → P k = false) → map_sum P m = 0.
Proof.
  induction m as [|k v m Hk IH] using map_ind; intros Hm; [by rewrite map_sum_empty|].
  rewrite map_sum_insert by done. rewrite (Hm k) by (rewrite lookup_insert_eq; eauto).
  rewrite IH; [done|]. intros j Hj. apply Hm.
  destruct (decide (k = j)) as [->|]; [by rewrite Hk in Hj; destruct Hj|].
  by rewrite lookup_insert_ne.
Qed.

(** * Automation *)
Create HintDb openppp2 discriminated.
#[export] Hint Resolve length_be_bytes bytes_ok_be_bytes bytes_ok_take bytes_ok_drop
  byte_at_range wrap_range : openppp2.

(** Splits every [match] and [if] of the goal and its hypotheses. *)
Ltac split_guards := repeat (case_match; simplify_eq/=).

(** Arithmetic over machine words: unfolds the width predicates for [lia]. *)
Ltac uint_lia :=
  unfold is_uint in *;
  change (2 ^ 8) with 256 in *; change (2 ^ 16) with 65536 in *;
  change (2 ^ 32) with 4294967296 in *; change (2 ^ 64) with 18446744073709551616 in *;
  lia.

(** Closes a decidable goal on concrete data by evaluation. *)
Ltac decide_true := refine (bool_decide_eq_true_1 _ _); vm_compute; reflexivity.

(** Turns the boolean tests of the source into propositions; [blia] closes the arithmetic. *)
Ltac bool_props :=
  repeat match goal with
  | H : (_ || _) = true |- _ => apply orb_true_iff in H as [H|H]
  | H : (_ || _) = false |- _ => apply orb_false_iff in H as [? ?]
  | H : (_ && _) = true |- _ => apply andb_true_iff in H as [? ?]
  | H : (_ && _) = false |- _ => apply andb_false_iff in H as [H|H]
  | H : negb _ = true |- _ => apply negb_true_iff in H
  | H : negb _ = false |- _ => apply negb_false_iff in H
  | H : (_ <? _) = true |- _ => apply Z.ltb_lt in H
  | H : (_ <? _) = false |- _ => apply Z.ltb_ge in H
  | H : (_ <=? _) = true |- _ => apply Z.leb_le in H
  | H : (_ <=? _) = false |- _ => apply Z.leb_gt in H
  | H : (_ =? _) = true |- _ => apply Z.eqb_eq in H
  | H : (_ =? _) = false |- _ => apply Z.eqb_neq in H
  | H : bool_decide _ = true |- _ => apply bool_decide_eq_true_1 in H
  | H : bool_decide _ = false |- _ => apply bool_decide_eq_false_1 in H
  end.

Ltac blia := bool_props; lia.

(** Case analysis on the outermost conditional of the goal. *)
Tactic Notation "case_if" "as" ident(E) :=
  match goal with |- context [if ?b then _ else _] => destruct b eqn:E end.

(** Reads a field of a concatenation: skips the segments before its offset. *)
Ltac seg_side := cbn [length]; rewrite ?length_be_bytes; lia.
Ltac seg :=
  repeat match goal with
  | |- context [sub (?a ++ ?r) ?off ?n] => rewrite (sub_skip a r off n) by seg_side
  | |- context [byte_at (?a ++ ?r) ?k] => rewrite (byte_at_skip a r k) by seg_side
  | |- context [byte_at (?a ++ ?r) ?k] => rewrite (byte_at_here a r k) by seg_side
  | |- context [drop ?off (?a ++ ?r)] => rewrite (drop_skip a r off) by seg_side
  end;
  rewrite ?length_be_bytes; cbn [length Nat.sub].
