(* ===== verification/MuxAck.v ===== *)
(** VMUX acknowledgement ranges ([src/ppp/app/mux/MuxAckTracker.h]).

    [AckTracker_Add] records one received sequence number in a sorted list of
    inclusive ranges; [EncodeMuxAckFrame] and [DecodeMuxAckFrame] are the ACK
    frame codec.  The tracker is proved to be a sound (never acknowledges a
    number that was not received), bounded and, below its cap, exact set of
    the received numbers; the codec round trips in both directions. *)

From S2P Require Import Prelude.

(** ** Data and operations *)

Record MuxAckRange := mkAckRange { ar_start : Z; ar_end : Z }.

#[global] Instance MuxAckRange_eq_dec : EqDecision MuxAckRange.
Proof. solve_decision. Defined.

(** The two lambdas of [Add], with the 32-bit subtraction of the source. *)
Definition disjoint_below (seq : Z) (r : MuxAckRange) : bool :=
  (ar_end r <? seq) && (1 <? (seq -[32] ar_end r)).

Definition disjoint_above (seq : Z) (r : MuxAckRange) : bool :=
  (seq <? ar_start r) && (1 <? (ar_start r -[32] seq)).

(** The search loop: the ranges before index [i] and the ranges from [i]. *)
Fixpoint split_below (seq : Z) (rs : list MuxAckRange) : list MuxAckRange * list MuxAckRange :=
  match rs with
  | [] => ([], [])
  | r :: rs' =>
      if disjoint_below seq r
      then let '(b, t) := split_below seq rs' in (r :: b, t)
      else ([], rs)
  end.

(** The loop that absorbs the following ranges that overlap or touch. *)
Fixpoint absorb (r : MuxAckRange) (rest : list MuxAckRange) : list MuxAckRange :=
  match rest with
  | [] => [r]
  | n :: rest' =>
      if (ar_end r <? ar_start n) && (1 <? (ar_start n -[32] ar_end r))
      then r :: n :: rest'
      else absorb (mkAckRange (ar_start r) (if ar_end r <? ar_end n then ar_end n else ar_end r)) rest'
  end.

(** The loop that erases the oldest ranges while there are too many. *)
Fixpoint trim_oldest (max_ranges : nat) (rs : list MuxAckRange) : list MuxAckRange :=
  match rs with
  | [] => []
  | _ :: rs' => if decide (max_ranges < length rs)%nat then trim_oldest max_ranges rs' else rs
  end.

Definition wrap_reset (rs : list MuxAckRange) (seq : Z) : list MuxAckRange :=
  match rs with
  | [] => []
  | f :: _ => if (2147483648 <? (ar_start f -[32] seq)) && (seq <? ar_start f) then [] else rs
  end.

Definition merge_seq (rs : list MuxAckRange) (seq : Z) : list MuxAckRange :=
  let '(below, rest) := split_below seq rs in
  match rest with
  | r :: rest' =>
      if negb (disjoint_above seq r) then
        let r1 := if seq <? ar_start r then mkAckRange seq (ar_end r) else r in
        let r2 := if ar_end r1 <? seq then mkAckRange (ar_start r1) seq else r1 in
        below ++ absorb r2 rest'
      else below ++ mkAckRange seq seq :: r :: rest'
  | [] => below ++ [mkAckRange seq seq]
  end.

Definition AckTracker_Add (rs : list MuxAckRange) (seq : Z) (max_ranges : nat) : list MuxAckRange :=
  let merged := merge_seq (wrap_reset rs seq) seq in
  if decide (0 < max_ranges)%nat then trim_oldest max_ranges merged else merged.

Definition AckTracker_largest (rs : list MuxAckRange) : Z :=
  match last rs with Some r => ar_end r | None => 0 end.

Record MuxAckBlock := mkAckBlock {
  ab_connection_id : Z;
  ab_largest : Z;
  ab_ranges : list MuxAckRange
}.

Definition MuxAckFrameMaxSize (max_blocks max_ranges : nat) : nat :=
  1 + max_blocks * (9 + max_ranges * 8).

#[global] Instance ack_range_record : SizedRecord MuxAckRange := {|
  sr_size := 8;
  sr_wf r := is_uint 32 (ar_start r) ∧ is_uint 32 (ar_end r);
  sr_write r := be_bytes 4 (ar_start r) ++ be_bytes 4 (ar_end r);
  sr_read p := mkAckRange (get32 p) (get32 (drop 4 p))
|}.

Definition ack_range_count (max_ranges_per_block : nat) (b : MuxAckBlock) : nat :=
  if decide (length (ab_ranges b) < max_ranges_per_block)%nat
  then length (ab_ranges b) else max_ranges_per_block.

Definition encode_ack_block (max_ranges_per_block : nat) (b : MuxAckBlock) : list Z :=
  let range_count := ack_range_count max_ranges_per_block b in
  let first := (length (ab_ranges b) - range_count)%nat in
  be_bytes 4 (ab_connection_id b) ++ be_bytes 4 (ab_largest b) ++
  [wrap 8 (Z.of_nat range_count)] ++ write_many (drop first (ab_ranges b)).

#[global] Arguments encode_ack_block : simpl never.

Fixpoint ack_frame_need (max_ranges_per_block : nat) (blocks : list MuxAckBlock) : nat :=
  match blocks with
  | [] => 1
  | b :: bs => ack_frame_need max_ranges_per_block bs + (9 + ack_range_count max_ranges_per_block b * 8)
  end.

(** [None] is the return value 0: the caller must not send. *)
Definition EncodeMuxAckFrame (blocks : list MuxAckBlock) (cap max_ranges_per_block : nat)
    : option (list Z) :=
  if decide (255 < length blocks)%nat then None
  else if decide (cap < ack_frame_need max_ranges_per_block blocks)%nat then None
  else Some (wrap 8 (Z.of_nat (length blocks)) ::
             mjoin (encode_ack_block max_ranges_per_block <$> blocks)).

(** The inner loop of the decoder: the caller has checked that [8 * n] bytes remain. *)
Fixpoint decode_ack_ranges (n : nat) (largest : Z) (p : list Z)
    : option (list MuxAckRange * list Z) :=
  match n with
  | O => Some ([], p)
  | S n =>
      let range := sr_read p : MuxAckRange in
      if (ar_end range <? ar_start range) || (largest <? ar_end range) then None
      else '(rs, rest) ← decode_ack_ranges n largest (drop 8 p); Some (range :: rs, rest)
  end.

Fixpoint decode_ack_blocks (n : nat) (max_ranges : nat) (p : list Z)
    : option (list MuxAckBlock * list Z) :=
  match n with
  | O => Some ([], p)
  | S n =>
      if decide (length p < 9)%nat then None else
      let connection_id := get32 p in
      let largest := get32 (drop 4 p) in
      let range_count := Z.to_nat (byte_at p 8) in
      let p := drop 9 p in
      if decide (range_count = 0 ∨ max_ranges < range_count ∨ length p < range_count * 8)%nat
      then None else
      '(ranges, p) ← decode_ack_ranges range_count largest p;
      '(bs, rest) ← decode_ack_blocks n max_ranges p;
      Some (mkAckBlock connection_id largest ranges :: bs, rest)
  end.

Definition DecodeMuxAckFrame (p : list Z) (max_blocks max_ranges : nat)
    : option (list MuxAckBlock) :=
  match p with
  | [] => None
  | c :: p =>
      let block_count := Z.to_nat c in
      if decide (block_count = 0 ∨ max_blocks < block_count)%nat then None else
      '(bs, rest) ← decode_ack_blocks block_count max_ranges p;
      if decide (length rest ≠ 0)%nat then None else Some bs
  end.

(** ** The tracker as a set of received numbers *)

Definition range_covers (r : MuxAckRange) (x : Z) : Prop := ar_start r ≤ x ≤ ar_end r.
Definition covers (rs : list MuxAckRange) (x : Z) : Prop := Exists (λ r, range_covers r x) rs.

#[global] Instance covers_dec rs x : Decision (covers rs x).
Proof. unfold covers, range_covers. apply _. Defined.

(** Ascending, within 32 bits, and separated by at least one missing number. *)
Fixpoint ranges_from (lo : Z) (rs : list MuxAckRange) : Prop :=
  match rs with
  | [] => True
  | r :: rs => lo ≤ ar_start r ∧ ar_start r ≤ ar_end r ∧ ar_end r < 2 ^ 32 ∧ ranges_from (ar_end r + 2) rs
  end.

Definition tracker_wf (rs : list MuxAckRange) : Prop := ranges_from 0 rs.

#[global] Instance ranges_from_dec lo rs : Decision (ranges_from lo rs).
Proof. revert lo. induction rs; simpl; intros; apply _. Defined.

Lemma ranges_from_weaken lo lo' rs : lo' ≤ lo → ranges_from lo rs → ranges_from lo' rs.
Proof. destruct rs; simpl; [done|]. intros ? (?&?&?&?). split_and!; (lia || done). Qed.

Lemma covers_nil x : covers [] x ↔ False.
Proof. unfold covers. by rewrite Exists_nil. Qed.

Lemma covers_cons r rs x : covers (r :: rs) x ↔ range_covers r x ∨ covers rs x.
Proof. unfold covers. by rewrite Exists_cons. Qed.

Lemma ranges_from_lower lo rs x : ranges_from lo rs → covers rs x → lo ≤ x < 2 ^ 32.
Proof.
  revert lo. induction rs as [|r rs IH]; intros lo; [by rewrite covers_nil|].
  rewrite covers_cons. unfold range_covers. simpl. intros (?&?&?&Hrs) [?|Hx]; [lia|].
  specialize (IH _ Hrs Hx). lia.
Qed.

Lemma disjoint_below_spec seq r :
  is_uint 32 seq → is_uint 32 (ar_end r) → disjoint_below seq r = true ↔ ar_end r + 1 < seq.
Proof.
  intros. unfold disjoint_below.
  destruct (ar_end r <? seq) eqn:E; simpl; [|lia]. rewrite wrap_sub_ge by (done || lia). lia.
Qed.

Lemma disjoint_above_spec seq r :
  is_uint 32 seq → is_uint 32 (ar_start r) → disjoint_above seq r = true ↔ seq + 1 < ar_start r.
Proof.
  intros. unfold disjoint_above.
  destruct (seq <? ar_start r) eqn:E; simpl; [|lia]. rewrite wrap_sub_ge by (done || lia). lia.
Qed.

Lemma absorb_spec r rest k :
  0 ≤ ar_start r ≤ ar_end r → ar_end r < 2 ^ 32 → ar_start r ≤ k → ranges_from k rest →
  ranges_from (ar_start r) (absorb r rest) ∧
  ∀ x, covers (absorb r rest) x ↔ range_covers r x ∨ covers rest x.
Proof.
  revert r k. induction rest as [|n rest IH]; intros r k Hr Hmax Hk Hrest; simpl.
  - split; [lia|]. intros x. rewrite covers_cons, covers_nil. tauto.
  - destruct Hrest as (Hn1&Hn2&Hn3&Hrest).
    destruct (_ && _) eqn:E.
    + assert (ar_end r + 1 < ar_start n).
      { apply andb_true_iff in E as [E1 E2].
        rewrite wrap_sub_ge in E2 by (unfold is_uint; lia). lia. }
      split; [simpl; repeat split; try lia; done|].
      intros x. by rewrite covers_cons.
    + assert (ar_start n ≤ ar_end r + 1).
      { destruct (ar_end r <? ar_start n) eqn:E1; [|lia]. simpl in E.
        rewrite wrap_sub_ge in E by (unfold is_uint; lia). lia. }
      set (e := if ar_end r <? ar_end n then ar_end n else ar_end r).
      assert (e = Z.max (ar_end r) (ar_end n)) as He by (unfold e; case_match; lia).
      destruct (IH (mkAckRange (ar_start r) e) (ar_end n + 2)) as [IH1 IH2]; simpl; try lia; [done|].
      split; [done|]. intros x. rewrite IH2, covers_cons.
      unfold range_covers. simpl. intuition lia.
Qed.

Lemma merge_seq_cons r rs seq :
  merge_seq (r :: rs) seq =
  if disjoint_below seq r then r :: merge_seq rs seq
  else if negb (disjoint_above seq r) then
    let r1 := if seq <? ar_start r then mkAckRange seq (ar_end r) else r in
    absorb (if ar_end r1 <? seq then mkAckRange (ar_start r1) seq else r1) rs
  else mkAckRange seq seq :: r :: rs.
Proof.
  unfold merge_seq. simpl. destruct (disjoint_below seq r); [|done].
  destruct (split_below seq rs) as [b t]. destruct t; [done|]. by case_match.
Qed.

Lemma merge_seq_spec lo rs seq :
  0 ≤ lo ≤ seq → seq < 2 ^ 32 → ranges_from lo rs →
  ranges_from lo (merge_seq rs seq) ∧
  ∀ x, covers (merge_seq rs seq) x ↔ x = seq ∨ covers rs x.
Proof.
  revert lo. induction rs as [|r rs IH]; intros lo Hlo Hseq Hrs.
  - unfold merge_seq. simpl. split; [lia|]. intros x.
    rewrite covers_cons, covers_nil. unfold range_covers. simpl. lia.
  - destruct Hrs as (H1&H2&H3&Hrs).
    assert (is_uint 32 seq) by (unfold is_uint; lia).
    rewrite merge_seq_cons. destruct (disjoint_below seq r) eqn:Eb.
    { apply disjoint_below_spec in Eb; [|done|unfold is_uint; lia].
      destruct (IH (ar_end r + 2)) as [IH1 IH2]; [lia|done|done|].
      split; [simpl; tauto|]. intros x. rewrite !covers_cons, IH2. tauto. }
    assert (seq ≤ ar_end r + 1).
    { apply not_true_iff_false in Eb. rewrite disjoint_below_spec in Eb by (unfold is_uint; lia). lia. }
    destruct (disjoint_above seq r) eqn:Ea; simpl.
    { apply disjoint_above_spec in Ea; [|done|unfold is_uint; lia].
      split; [simpl; repeat split; try lia; done|].
      intros x. rewrite covers_cons. unfold range_covers at 1. simpl. intuition lia. }
    assert (ar_start r ≤ seq + 1).
    { apply not_true_iff_false in Ea. rewrite disjoint_above_spec in Ea by (unfold is_uint; lia). lia. }
    set (r1 := if seq <? ar_start r then _ else _).
    set (r2 := if ar_end r1 <? seq then _ else _).
    assert (ar_start r2 = Z.min seq (ar_start r) ∧ ar_end r2 = Z.max seq (ar_end r)) as [Hs He].
    { unfold r2, r1. destruct (seq <? ar_start r) eqn:E1; simpl;
        [destruct (ar_end r <? seq) eqn:E2|destruct (ar_end r <? seq) eqn:E2]; simpl; lia. }
    destruct (absorb_spec r2 rs (ar_end r + 2)) as [A1 A2]; try lia; [done|].
    split; [eapply ranges_from_weaken; [|exact A1]; lia|].
    intros x. rewrite A2, covers_cons. unfold range_covers. rewrite Hs, He. intuition lia.
Qed.

Lemma wrap_reset_spec rs seq :
  tracker_wf rs →
  tracker_wf (wrap_reset rs seq) ∧ ∀ x, covers (wrap_reset rs seq) x → covers rs x.
Proof.
  unfold wrap_reset. destruct rs as [|f rs]; [done|].
  case_match; [|done]. split; [done|]. intros x. by rewrite covers_nil.
Qed.

Lemma trim_oldest_suffix n rs : ∃ k, trim_oldest n rs = drop k rs.
Proof.
  induction rs as [|r rs [k IH]]; [by exists O|]. simpl. case_decide; [|by exists O].
  exists (S k). done.
Qed.

Lemma length_trim_oldest n rs : length (trim_oldest n rs) = Nat.min n (length rs).
Proof.
  induction rs as [|r rs IH]; simpl; [by rewrite Nat.min_0_r|].
  case_decide; simpl in *; [rewrite IH; lia|lia].
Qed.

Lemma trim_oldest_fits n rs : (length rs ≤ n)%nat → trim_oldest n rs = rs.
Proof. destruct rs; simpl; [done|]. intros. case_decide; [lia|done]. Qed.

Lemma drop_ranges k rs lo :
  ranges_from lo rs → ranges_from lo (drop k rs) ∧ ∀ x, covers (drop k rs) x → covers rs x.
Proof.
  revert k lo. induction rs as [|r rs IH]; intros [|k] lo Hrs; simpl; try done.
  destruct Hrs as (?&?&?&Hrs). destruct (IH k _ Hrs) as [I1 I2]. split.
  - eapply ranges_from_weaken; [|exact I1]. lia.
  - intros x Hx. apply covers_cons. right. auto.
Qed.

(** One [Add]: well-formedness and soundness, whatever the cap and the wrap do. *)
Lemma AckTracker_Add_spec rs seq m :
  tracker_wf rs → is_uint 32 seq →
  tracker_wf (AckTracker_Add rs seq m) ∧
  ∀ x, covers (AckTracker_Add rs seq m) x → x = seq ∨ covers rs x.
Proof.
  intros Hrs Hseq. destruct (wrap_reset_spec rs seq Hrs) as [Hw1 Hw2].
  destruct (merge_seq_spec 0 (wrap_reset rs seq) seq) as [Hm1 Hm2];
    [unfold is_uint in *; lia|unfold is_uint in *; lia|done|].
  assert (∀ x, covers (merge_seq (wrap_reset rs seq) seq) x → x = seq ∨ covers rs x) as Hc.
  { intros x. rewrite Hm2. intros [?|?]; auto. }
  unfold AckTracker_Add. case_decide; [|done].
  destruct (trim_oldest_suffix m (merge_seq (wrap_reset rs seq) seq)) as [k ->].
  destruct (drop_ranges k _ _ Hm1) as [Hd1 Hd2]. split; [done|]. auto.
Qed.

(** A receiver: the tracker after a list of [(seq, max_ranges)] calls. *)
Definition ack_receive (calls : list (Z * nat)) : list MuxAckRange :=
  fold_left (λ rs '(seq, m), AckTracker_Add rs seq m) calls [].

Lemma ack_receive_snoc calls seq m :
  ack_receive (calls ++ [(seq, m)]) = AckTracker_Add (ack_receive calls) seq m.
Proof. unfold ack_receive. by rewrite fold_left_app. Qed.

Definition calls_ok (calls : list (Z * nat)) : Prop := Forall (λ c, is_uint 32 c.1) calls.

Lemma ack_receive_spec calls :
  calls_ok calls →
  tracker_wf (ack_receive calls) ∧ ∀ x, covers (ack_receive calls) x → x ∈ calls.*1.
Proof.
  induction calls as [|[seq m] calls IH] using rev_ind; intros Hok.
  { split; [done|]. intros x Hx. by apply covers_nil in Hx. }
  apply Forall_app in Hok as [Hok Hs]. rewrite Forall_singleton in Hs. simpl in Hs.
  destruct (IH Hok) as [Hwf Hc]. rewrite ack_receive_snoc.
  destruct (AckTracker_Add_spec (ack_receive calls) seq m Hwf Hs) as [A1 A2].
  split; [done|]. intros x Hx. rewrite fmap_app, elem_of_app. simpl.
  rewrite list_elem_of_singleton. destruct (A2 x Hx) as [?|?]; auto.
Qed.

Lemma length_absorb r rest : (length (absorb r rest) ≤ S (length rest))%nat.
Proof.
  revert r. induction rest as [|n rest IH]; intros r; simpl; [lia|].
  case_match; simpl; [lia|]. etrans; [apply IH|lia].
Qed.

Lemma length_merge_seq rs seq : (length (merge_seq rs seq) ≤ S (length rs))%nat.
Proof.
  induction rs as [|r rs IH]; [simpl; lia|]. rewrite merge_seq_cons.
  case_match; [simpl; lia|]. case_match; [|simpl; lia].
  etrans; [apply length_absorb|simpl; lia].
Qed.

Lemma length_wrap_reset rs seq : (length (wrap_reset rs seq) ≤ length rs)%nat.
Proof. unfold wrap_reset. destruct rs; [done|]. case_match; simpl; lia. Qed.

Lemma length_AckTracker_Add rs seq m :
  (length (AckTracker_Add rs seq m) ≤ S (length rs))%nat ∧
  ((0 < m)%nat → (length (AckTracker_Add rs seq m) ≤ m)%nat).
Proof.
  unfold AckTracker_Add. pose proof (length_merge_seq (wrap_reset rs seq) seq).
  pose proof (length_wrap_reset rs seq). case_decide; rewrite ?length_trim_oldest; lia.
Qed.

Lemma length_ack_receive (seqs : list Z) (m : nat) :
  (length (ack_receive ((λ s, (s, m)) <$> seqs)) ≤ length seqs)%nat.
Proof.
  induction seqs as [|s seqs IH] using rev_ind; [done|].
  rewrite fmap_app. simpl. rewrite ack_receive_snoc, length_app. simpl.
  pose proof (length_AckTracker_Add (ack_receive ((λ s, (s, m)) <$> seqs)) s m). lia.
Qed.

(** Within half the sequence space and below the cap, [Add] is set insertion. *)
Lemma AckTracker_Add_exact rs seq m :
  tracker_wf rs → is_uint 32 seq →
  (∀ x, covers rs x → x - seq ≤ 2 ^ 31) →
  (m = 0 ∨ S (length rs) ≤ m)%nat →
  ∀ x, covers (AckTracker_Add rs seq m) x ↔ x = seq ∨ covers rs x.
Proof.
  intros Hwf Hseq Hhalf Hm.
  assert (wrap_reset rs seq = rs) as Hw.
  { unfold wrap_reset. destruct rs as [|f rs]; [done|].
    destruct (seq <? ar_start f) eqn:E; [|by rewrite andb_false_r].
    destruct Hwf as (?&?&?&?).
    assert (ar_start f - seq ≤ 2 ^ 31).
    { apply Hhalf. apply covers_cons. left. unfold range_covers. lia. }
    rewrite wrap_sub_ge by (unfold is_uint in *; lia).
    destruct (2147483648 <? ar_start f - seq) eqn:E2; [lia|done]. }
  unfold AckTracker_Add. rewrite Hw.
  pose proof (length_merge_seq rs seq).
  destruct (merge_seq_spec 0 rs seq) as [_ Hm2]; [unfold is_uint in *; lia..|done|].
  case_decide; [rewrite trim_oldest_fits by lia|]; done.
Qed.

(** C1: the tracker never acknowledges a frame the receiver has not seen: after any
    sequence of [Add] calls, with any caps and through any wrap reset, every number its
    ranges cover is the argument of one of the calls. *)
Theorem ack_tracker_sound calls x :
  calls_ok calls → covers (ack_receive calls) x → x ∈ calls.*1.
Proof. intros Hok. by apply ack_receive_spec. Qed.

Lemma ack_tracker_sound_witness :
  covers (ack_receive [(7, 2%nat); (3, 2%nat); (8, 2%nat); (5, 2%nat)]) 8 ∧
  8 ∈ [(7, 2%nat); (3, 2%nat); (8, 2%nat); (5, 2%nat)].*1.
Proof.
  split; [decide_true|]. apply (ack_tracker_sound _ 8); unfold calls_ok; decide_true.
Defined.

(** The tracker state is well formed (ascending, disjoint, non-adjacent 32-bit ranges)
    and never holds more ranges than the cap of the last call, whatever the peer sends. *)
Theorem ack_tracker_bounded calls seq m :
  calls_ok (calls ++ [(seq, m)]) →
  tracker_wf (ack_receive (calls ++ [(seq, m)])) ∧
  ((0 < m)%nat → (length (ack_receive (calls ++ [(seq, m)])) ≤ m)%nat).
Proof.
  intros Hok. split; [by apply ack_receive_spec|].
  rewrite ack_receive_snoc. apply length_AckTracker_Add.
Qed.

Lemma ack_tracker_bounded_witness :
  (length (ack_receive ([(1%Z, 2); (5%Z, 2)] ++ [(9%Z, 2)])) ≤ 2)%nat.
Proof.
  apply (ack_tracker_bounded [(1, 2%nat); (5, 2%nat)] 9 2); [|lia].
  unfold calls_ok. decide_true.
Defined.

(** As long as the received numbers span at most half of the 32-bit space and there are
    no more calls than the cap, the tracker holds exactly the set of received numbers. *)
Theorem ack_tracker_exact (seqs : list Z) (m : nat) :
  Forall (is_uint 32) seqs →
  (∀ a b, a ∈ seqs → b ∈ seqs → a - b ≤ 2 ^ 31) →
  (m = 0 ∨ length seqs ≤ m)%nat →
  ∀ x, covers (ack_receive ((λ s, (s, m)) <$> seqs)) x ↔ x ∈ seqs.
Proof.
  intros Hu Hhalf Hm.
  induction seqs as [|s seqs IH] using rev_ind.
  { intros x. rewrite covers_nil. split; [done|]. apply not_elem_of_nil. }
  apply Forall_app in Hu as [Hu Hs]. rewrite Forall_singleton in Hs.
  rewrite length_app in Hm. simpl in Hm.
  pose proof (length_ack_receive seqs m) as Hl.
  assert (∀ x, covers (ack_receive ((λ s, (s, m)) <$> seqs)) x ↔ x ∈ seqs) as IH'.
  { apply IH; [done| |lia]. intros a b Ha Hb. apply Hhalf; rewrite elem_of_app; auto. }
  intros x. rewrite fmap_app. simpl. rewrite ack_receive_snoc, AckTracker_Add_exact.
  - rewrite IH', elem_of_app, list_elem_of_singleton. tauto.
  - apply ack_receive_spec. unfold calls_ok. rewrite Forall_fmap. done.
  - done.
  - intros y Hy. apply Hhalf; rewrite elem_of_app; [left; by apply IH'|right]. by apply list_elem_of_singleton.
  - lia.
Qed.

Lemma ack_tracker_exact_witness :
  covers (ack_receive ((λ s, (s, 4%nat)) <$> [4; 9; 5])) 9 ↔ 9 ∈ [4; 9; 5].
Proof.
  apply (ack_tracker_exact [4; 9; 5] 4).
  - decide_true.
  - intros a b Ha Hb. rewrite !elem_of_cons, elem_of_nil in Ha, Hb. lia.
  - right. simpl. lia.
Defined.

(** ** The ACK frame codec *)

#[global] Instance ack_range_record_laws : SizedRecordLaws MuxAckRange.
Proof.
  split; cbn [sr_size sr_wf sr_write sr_read ack_range_record].
  - intros a _. by rewrite length_app, !length_be_bytes.
  - intros a _. apply Forall_app; split; apply bytes_ok_be_bytes.
  - intros [a b] r [??]. cbn [ar_start ar_end] in *. by destruct (pair32_read_write a b r) as [-> ->].
  - intros p Hp Hl. split; apply get32_range; try apply bytes_ok_drop; rewrite ?length_drop; lia || done.
  - intros p Hp Hl. by apply pair32_write_read.
Qed.

Definition ack_range_valid (largest : Z) (r : MuxAckRange) : Prop :=
  0 ≤ ar_start r ∧ ar_start r ≤ ar_end r ∧ ar_end r ≤ largest.

Definition ack_block_valid (b : MuxAckBlock) : Prop :=
  is_uint 32 (ab_connection_id b) ∧ is_uint 32 (ab_largest b) ∧
  ab_ranges b ≠ [] ∧ Forall (ack_range_valid (ab_largest b)) (ab_ranges b).

(** What an encoder capped at [m] ranges per block sends of a block: its newest [m] ranges. *)
Definition newest_ranges (m : nat) (b : MuxAckBlock) : MuxAckBlock :=
  mkAckBlock (ab_connection_id b) (ab_largest b)
    (drop (length (ab_ranges b) - m) (ab_ranges b)).

Lemma ack_range_valid_wf largest r :
  is_uint 32 largest → ack_range_valid largest r → sr_wf r.
Proof. unfold ack_range_valid. simpl. unfold is_uint. lia. Qed.

Lemma Forall_ack_range_wf largest rs :
  is_uint 32 largest → Forall (ack_range_valid largest) rs → Forall sr_wf rs.
Proof. intros Hl H. eapply Forall_impl; [exact H|]. intros r. by apply ack_range_valid_wf. Qed.

Lemma decode_ack_ranges_write largest rs rest :
  is_uint 32 largest → Forall (ack_range_valid largest) rs →
  decode_ack_ranges (length rs) largest (write_many rs ++ rest) = Some (rs, rest).
Proof.
  intros Hl. induction 1 as [|r rs Hr Hrs IH]; [done|].
  pose proof (ack_range_valid_wf _ _ Hl Hr) as Hwf.
  cbn [length decode_ack_ranges write_many]. rewrite <- (assoc_L (++)), sr_read_write by done.
  change 8%nat with (sr_size (A := MuxAckRange)).
  rewrite drop_app_length' by (by rewrite sr_write_length).
  destruct Hr as (?&?&?). destruct (_ || _) eqn:E; [lia|]. by rewrite IH.
Qed.

Lemma ack_range_count_min m b : ack_range_count m b = Nat.min (length (ab_ranges b)) m.
Proof. unfold ack_range_count. case_decide; lia. Qed.

Lemma ab_ranges_newest m b :
  ab_ranges (newest_ranges m b) =
  drop (length (ab_ranges b) - ack_range_count m b) (ab_ranges b).
Proof. simpl. rewrite ack_range_count_min. f_equal. lia. Qed.

Lemma length_ranges_newest m b : length (ab_ranges (newest_ranges m b)) = ack_range_count m b.
Proof. simpl. rewrite length_drop, ack_range_count_min. lia. Qed.

Lemma length_encode_ack_block m b :
  ack_block_valid b → length (encode_ack_block m b) = (9 + ack_range_count m b * 8)%nat.
Proof.
  intros (_&Hl&_&Hrs). unfold encode_ack_block.
  rewrite !length_app, !length_be_bytes, <- ab_ranges_newest.
  rewrite length_write_many, length_ranges_newest; [simpl; lia|].
  eapply Forall_ack_range_wf; [exact Hl|]. simpl. by apply Forall_drop.
Qed.

Lemma decode_ack_blocks_encode m max_ranges blocks rest :
  (0 < m ≤ 255)%nat → (m ≤ max_ranges)%nat → Forall ack_block_valid blocks →
  decode_ack_blocks (length blocks) max_ranges
    (mjoin (encode_ack_block m <$> blocks) ++ rest) =
  Some (newest_ranges m <$> blocks, rest).
Proof.
  intros Hm Hmax. induction 1 as [|b bs Hb Hbs IH]; [done|].
  pose proof (length_encode_ack_block m b Hb) as Hlen.
  destruct Hb as (Hcid&Hlarge&Hne&Hrs).
  rewrite !fmap_cons, mjoin_cons. cbn [length decode_ack_blocks].
  rewrite <- (assoc_L (++)).
  destruct (decide (length _ < 9)%nat) as [Hlt|_]; [rewrite length_app in Hlt; lia|].
  set (tail := mjoin (encode_ack_block m <$> bs) ++ rest).
  assert (encode_ack_block m b ++ tail =
    be_bytes 4 (ab_connection_id b) ++ be_bytes 4 (ab_largest b) ++
    wrap 8 (Z.of_nat (ack_range_count m b)) ::
    write_many (ab_ranges (newest_ranges m b)) ++ tail) as ->.
  { rewrite ab_ranges_newest. unfold encode_ack_block. by rewrite <- !(assoc_L (++)). }
  assert (0 < ack_range_count m b ≤ m)%nat as Hrc.
  { rewrite ack_range_count_min. destruct (ab_ranges b); [done|]. cbn [length]. lia. }
  rewrite get32_be_bytes by done.
  rewrite (drop_app_length' (be_bytes 4 (ab_connection_id b)) _ 4) by done.
  rewrite get32_be_bytes by done.
  assert (byte_at (be_bytes 4 (ab_connection_id b) ++ be_bytes 4 (ab_largest b) ++
    wrap 8 (Z.of_nat (ack_range_count m b)) ::
    write_many (ab_ranges (newest_ranges m b)) ++ tail) 8 = Z.of_nat (ack_range_count m b)) as ->.
  { unfold byte_at. cbn. apply wrap_small. uint_lia. }
  rewrite Nat2Z.id.
  replace (drop 9 _) with (write_many (ab_ranges (newest_ranges m b)) ++ tail) by done.
  assert (is_uint 32 (ab_largest b)) by done.
  assert (Forall (ack_range_valid (ab_largest b)) (ab_ranges (newest_ranges m b))) by
    (simpl; by apply Forall_drop).
  destruct (decide _) as [Hbad|_].
  { rewrite length_app, length_write_many in Hbad by (by eapply Forall_ack_range_wf).
    rewrite length_ranges_newest in Hbad. simpl in Hbad. lia. }
  rewrite <- length_ranges_newest, decode_ack_ranges_write by done.
  cbn [mbind option_bind].
  unfold tail. by rewrite IH.
Qed.

Lemma ack_frame_need_length m bs :
  Forall ack_block_valid bs →
  ack_frame_need m bs = S (length (mjoin (encode_ack_block m <$> bs))).
Proof.
  induction 1 as [|b bs Hb _ IH]; [done|].
  rewrite fmap_cons, mjoin_cons, length_app, length_encode_ack_block by done.
  cbn [ack_frame_need]. lia.
Qed.

Lemma decode_ack_ranges_inv n largest p rs rest :
  bytes_ok p → (n * 8 ≤ length p)%nat →
  decode_ack_ranges n largest p = Some (rs, rest) →
  length rs = n ∧ Forall (ack_range_valid largest) rs ∧ p = write_many rs ++ rest.
Proof.
  revert p rs. induction n as [|n IH]; intros p rs Hp Hl H; simplify_eq/=; [done|].
  destruct (_ || _) eqn:E; [done|].
  destruct (decode_ack_ranges n largest (drop 8 p)) as [[rs' rest']|] eqn:Ed; simplify_eq/=.
  apply IH in Ed as (<-&Hrs&Heq); [|by apply bytes_ok_drop|rewrite length_drop; lia].
  assert (sr_wf (sr_read p : MuxAckRange)) as Hwf by (apply sr_read_wf; simpl; [done|lia]).
  split_and!; [done| |].
  - constructor; [|done]. simpl in *. unfold ack_range_valid, is_uint in *. simpl in *. lia.
  - change (p = (sr_write (sr_read p : MuxAckRange) ++ write_many rs') ++ rest).
    rewrite sr_write_read by (simpl; done || lia).
    by rewrite <- (assoc_L (++)), <- Heq, take_drop.
Qed.

(** The decoder's caps: every range of every block it returns is within them. *)
Definition ack_block_within (max_ranges : nat) (b : MuxAckBlock) : Prop :=
  ack_block_valid b ∧ (length (ab_ranges b) ≤ max_ranges `min` 255)%nat.

Lemma encode_ack_block_exact m b :
  (length (ab_ranges b) ≤ m `min` 255)%nat →
  encode_ack_block m b =
  be_bytes 4 (ab_connection_id b) ++ be_bytes 4 (ab_largest b) ++
  [Z.of_nat (length (ab_ranges b))] ++ write_many (ab_ranges b).
Proof.
  intros. unfold encode_ack_block. rewrite ack_range_count_min.
  rewrite Nat.min_l by lia. rewrite Nat.sub_diag, drop_0.
  by rewrite wrap_small by uint_lia.
Qed.

Lemma decode_ack_blocks_inv n max_ranges p bs rest :
  bytes_ok p → decode_ack_blocks n max_ranges p = Some (bs, rest) →
  length bs = n ∧ Forall (ack_block_within max_ranges) bs ∧
  p = mjoin (encode_ack_block max_ranges <$> bs) ++ rest.
Proof.
  revert p bs. induction n as [|n IH]; intros p bs Hp H; simplify_eq/=; [done|].
  case_decide; [done|]. case_decide as Hrc; [done|].
  set (rc := Z.to_nat (byte_at p 8)) in *. set (p1 := drop 9 p) in *.
  apply bind_Some in H as ([rs p2]&Er&H).
  apply bind_Some in H as ([bs' rest']&Eb&H). injection H as <- ->.
  pose proof (byte_at_range p 8 Hp) as Hb8.
  assert (bytes_ok p1) by by apply bytes_ok_drop.
  apply decode_ack_ranges_inv in Er as (Hlen&Hrs&Hp1); [|done|lia].
  assert (bytes_ok p2) by (eapply Forall_app; rewrite <- Hp1; done).
  apply IH in Eb as (<-&Hbs&Hp2); [|done].
  assert (ack_block_within max_ranges (mkAckBlock (get32 p) (get32 (drop 4 p)) rs)) as Hw.
  { split; [split_and!|]; simpl.
    - apply get32_range; [done|lia].
    - apply get32_range; [by apply bytes_ok_drop|rewrite length_drop; lia].
    - intros ->. simpl in Hlen. lia.
    - done.
    - unfold is_uint in Hb8. change (2 ^ 8) with 256 in Hb8. lia. }
  split; [done|]. split; [by constructor|].
  rewrite fmap_cons, mjoin_cons, encode_ack_block_exact by apply Hw. cbn [ab_connection_id ab_largest ab_ranges].
  rewrite Hlen. unfold rc. rewrite Z2Nat.id by (unfold is_uint in Hb8; lia).
  rewrite !be_bytes_get32 by (try apply bytes_ok_drop; rewrite ?length_drop; done || lia).
  rewrite <- !(assoc_L (++)), <- Hp2, <- Hp1. unfold p1.
  rewrite (assoc_L (++) (take 4 p)), take_take_drop.
  rewrite <- (take_drop 8 p) at 1. f_equal. simpl.
  rewrite <- (take_drop 1 (drop 8 p)), drop_drop. simpl. f_equal.
  destruct p as [|? [|? [|? [|? [|? [|? [|? [|? [|? p]]]]]]]]]; simpl in *; try lia. done.
Qed.

Lemma ack_frame_send blocks cap m max_blocks max_ranges :
  Forall ack_block_valid blocks →
  (0 < length blocks ≤ 255)%nat → (length blocks ≤ max_blocks)%nat →
  (0 < m ≤ 255)%nat → (m ≤ max_ranges)%nat → (ack_frame_need m blocks ≤ cap)%nat →
  ∃ p, EncodeMuxAckFrame blocks cap m = Some p ∧
       DecodeMuxAckFrame p max_blocks max_ranges = Some (newest_ranges m <$> blocks).
Proof.
  intros Hv Hn Hmb Hm Hmr Hcap. unfold EncodeMuxAckFrame.
  rewrite !decide_False by lia. eexists. split; [done|]. unfold DecodeMuxAckFrame.
  rewrite wrap_small by uint_lia. rewrite Nat2Z.id.
  rewrite decide_False by lia.
  rewrite <- (app_nil_r (mjoin _)), decode_ack_blocks_encode by done. done.
Qed.

(** ** What an acknowledgement block promises

    The interface between the receiving side, which builds blocks, the wire, which carries
    them, and the sender's buffer, which releases what they cover. *)
Class AckReports (received : Z → Prop) (b : MuxAckBlock) : Prop := {
  reports_valid : ack_block_valid b;
  reports_sound x : covers (ab_ranges b) x → received x
}.

Lemma ranges_from_largest lo rs r :
  ranges_from lo rs → r ∈ rs → 0 ≤ lo → ack_range_valid (AckTracker_largest rs) r.
Proof.
  unfold AckTracker_largest. revert lo r. induction rs as [|r0 rs IH]; intros lo r Hw Hin Hlo.
  { by apply not_elem_of_nil in Hin. }
  cbn [ranges_from] in Hw. destruct Hw as (?&?&?&Hw).
  destruct rs as [|r1 rs].
  - apply list_elem_of_singleton in Hin as ->. unfold ack_range_valid, is_uint. simpl. lia.
  - assert (last (r0 :: r1 :: rs) = last (r1 :: rs)) as -> by done.
    apply elem_of_cons in Hin as [->|Hin].
    + assert (r1 ∈ r1 :: rs) as Hr1 by (apply elem_of_cons; by left).
      specialize (IH _ _ Hw Hr1 ltac:(lia)). cbn [ranges_from] in Hw.
      unfold ack_range_valid, is_uint in *. lia.
    + apply (IH _ _ Hw Hin). lia.
Qed.

(** The receiver's block over a non-empty tracker. *)
Lemma tracker_reports cid calls :
  is_uint 32 cid → calls_ok calls → ack_receive calls ≠ [] →
  AckReports (λ x, x ∈ calls.*1)
    (mkAckBlock cid (AckTracker_largest (ack_receive calls)) (ack_receive calls)).
Proof.
  intros Hc Hok Hne. destruct (ack_receive_spec calls Hok) as [Hwf Hs].
  assert (∀ r, r ∈ ack_receive calls →
    ack_range_valid (AckTracker_largest (ack_receive calls)) r) as Hv.
  { intros r Hr. eapply ranges_from_largest; [exact Hwf|done|lia]. }
  split; [|done]. split; [done|]. cbn [ab_largest ab_ranges].
  split; [|split; [done|by apply Forall_forall]].
  unfold AckTracker_largest in *. destruct (last (ack_receive calls)) as [r|] eqn:E.
  - pose proof (last_Some_elem_of _ _ E) as Hr. pose proof (Hv r Hr) as (?&?&_).
    apply (ranges_from_lower 0 (ack_receive calls)); [exact Hwf|].
    apply Exists_exists. exists r. split; [done|]. unfold range_covers. lia.
  - by apply last_None in E.
Qed.

(** Dropping the oldest ranges on the wire keeps the promise. *)
#[global] Instance wire_reports P m b :
  TCEq (0 <? m)%nat true → AckReports P b → AckReports P (newest_ranges m b).
Proof.
  intros Hm [(?&?&Hne&Hv) Hs]. split.
  - split; [done|]. split; [done|]. split.
    + intros He. apply (f_equal length) in He. rewrite length_ranges_newest, ack_range_count_min in He.
      apply TCEq_eq, Nat.ltb_lt in Hm. destruct (ab_ranges b); [done|]. cbn [length] in He. lia.
    + rewrite ab_ranges_newest. by apply Forall_drop.
  - intros x Hx. apply Hs. rewrite ab_ranges_newest in Hx. unfold covers in *.
    rewrite <- (take_drop (length (ab_ranges b) - ack_range_count m b) (ab_ranges b)).
    apply Exists_app. by right.
Qed.

(** Sending acknowledgements over the wire loses nothing but the ranges the per-block cap
    leaves out: for valid blocks that fit the caps of both sides and a buffer of the computed
    size, the encoder succeeds and the decoder returns the blocks with their newest ranges. *)
Theorem ack_frame_roundtrip blocks cap m max_blocks max_ranges :
  Forall ack_block_valid blocks →
  (0 < length blocks ≤ 255)%nat → (length blocks ≤ max_blocks)%nat →
  (0 < m ≤ 255)%nat → (m ≤ max_ranges)%nat → (ack_frame_need m blocks ≤ cap)%nat →
  ∃ p, EncodeMuxAckFrame blocks cap m = Some p ∧
       DecodeMuxAckFrame p max_blocks max_ranges = Some (newest_ranges m <$> blocks).
Proof. apply ack_frame_send. Qed.

Lemma ack_frame_roundtrip_witness :
  ∃ p, EncodeMuxAckFrame [mkAckBlock 0 9 [mkAckRange 1 3; mkAckRange 5 9]] 32 2 = Some p ∧
       DecodeMuxAckFrame p 4 4 =
       Some (newest_ranges 2 <$> [mkAckBlock 0 9 [mkAckRange 1 3; mkAckRange 5 9]]).
Proof.
  apply (ack_frame_roundtrip _ 32 2 4 4); try (simpl; lia).
  repeat constructor; simpl; try done; unfold ack_range_valid; simpl; lia.
Defined.

(** C37: the decoder is strict.  Whatever bytes a peer sends, what it accepts is a list of at
    most [max_blocks] blocks with at most [max_ranges] ranges each, every range satisfying
    start <= end <= largest, and the accepted payload is the encoding of those blocks:
    no trailing bytes and no second encoding of the same acknowledgement. *)
Theorem ack_frame_decode_strict p max_blocks max_ranges bs :
  bytes_ok p → DecodeMuxAckFrame p max_blocks max_ranges = Some bs →
  (0 < length bs ≤ max_blocks)%nat ∧
  Forall (ack_block_within max_ranges) bs ∧
  EncodeMuxAckFrame bs (length p) max_ranges = Some p.
Proof.
  unfold DecodeMuxAckFrame. destruct p as [|c p]; [done|]. intros Hp H.
  apply Forall_cons in Hp as [Hc Hp].
  case_decide; [done|].
  destruct (decode_ack_blocks _ _ _) as [[bs' rest]|] eqn:E; simplify_eq/=.
  case_decide as Hrest; simplify_eq/=.
  apply decode_ack_blocks_inv in E as (Hn&Hbs&Hpeq); [|done].
  destruct rest; [|by simpl in Hrest; lia]. rewrite app_nil_r in Hpeq.
  split; [lia|]. split; [done|].
  unfold EncodeMuxAckFrame.
  rewrite decide_False by (unfold is_uint in Hc; change (2 ^ 8) with 256 in Hc; lia).
  rewrite decide_False.
  - rewrite Hn, Z2Nat.id by (unfold is_uint in Hc; lia). rewrite wrap_small by done. congruence.
  - rewrite Hpeq. apply Nat.le_ngt, Nat.eq_le_incl, ack_frame_need_length.
    eapply Forall_impl; [exact Hbs|]. by intros b [? _].
Qed.

Lemma ack_frame_decode_strict_witness :
  EncodeMuxAckFrame [mkAckBlock 7 9 [mkAckRange 5 9]] 18 4 =
  Some [1; 0;0;0;7; 0;0;0;9; 1; 0;0;0;5; 0;0;0;9].
Proof.
  refine (proj2 (proj2 (ack_frame_decode_strict
    [1; 0;0;0;7; 0;0;0;9; 1; 0;0;0;5; 0;0;0;9] 4 4 [mkAckBlock 7 9 [mkAckRange 5 9]] _ _))).
  - decide_true.
  - reflexivity.
Defined.
