(* ===== verification/MuxFec.v ===== *)
(** VMUX forward error correction ([src/ppp/app/mux/MuxFecCodec.h]).

    The encoder folds the frames of a group into one XOR parity block; the
    receiver recovers the single missing frame of a group from the parity and
    the frames it has.  The recovery theorem covers the whole path: add every
    frame, build the payload, parse it, recover. *)

From S2P Require Import Prelude.

(** ** Data and operations *)

Record MuxFecFrameId := mkFecId { fid_connection_id : Z; fid_sequence : Z }.

Record MuxFecEncoder := mkFecEncoder {
  fe_entries : list MuxFecFrameId;
  fe_parity : list Z;
  fe_first_add_tick : Z
}.

Definition FecEncoder_Reset (now : Z) : MuxFecEncoder := mkFecEncoder [] [] now.

(** [parity_[k] ^= block[k]] for every index of the block. *)
Fixpoint xor_into (parity block : list Z) : list Z :=
  match parity, block with
  | x :: parity, y :: block => Z.lxor x y :: xor_into parity block
  | _, [] => parity
  | [], _ => []
  end.

(** Two length bytes, big-endian, followed by the frame. *)
Definition fec_block (frame : list Z) : list Z :=
  let length := Z.of_nat (length frame) in
  Z.land (Z.shiftr length 8) 255 :: Z.land length 255 :: frame.

Definition FecEncoder_Add (e : MuxFecEncoder) (connection_id sequence : Z) (frame : list Z)
    : MuxFecEncoder :=
  let need := (length frame + 2)%nat in
  let parity :=
    match fe_entries e with
    | [] => replicate need 0
    | _ => if decide (length (fe_parity e) < need)%nat
           then fe_parity e ++ replicate (need - length (fe_parity e)) 0
           else fe_parity e
    end in
  mkFecEncoder (fe_entries e ++ [mkFecId connection_id sequence])
               (xor_into parity (fec_block frame)) (fe_first_add_tick e).

Definition FecEncoder_MaxPayloadSize (e : MuxFecEncoder) : nat :=
  1 + length (fe_entries e) * 8 + 2 + length (fe_parity e).

#[global] Instance fec_id_record : SizedRecord MuxFecFrameId := {|
  sr_size := 8;
  sr_wf i := is_uint 32 (fid_connection_id i) ∧ is_uint 32 (fid_sequence i);
  sr_write i := be_bytes 4 (fid_connection_id i) ++ be_bytes 4 (fid_sequence i);
  sr_read p := mkFecId (get32 p) (get32 (drop 4 p))
|}.

(** [None] is the return value 0. *)
Definition FecEncoder_Build (e : MuxFecEncoder) (cap : Z) : option (list Z) :=
  let entries := Z.of_nat (length (fe_entries e)) in
  let parity_len := Z.of_nat (length (fe_parity e)) in
  if (entries =? 0) || (255 <? entries) || (65535 <? parity_len) then None
  else if (cap <? 0) || (cap <? Z.of_nat (FecEncoder_MaxPayloadSize e)) then None
  else Some (wrap 8 entries :: write_many (fe_entries e) ++
             be_bytes 2 parity_len ++ fe_parity e).

Record MuxFecFrameView := mkFecView {
  fv_entries : list MuxFecFrameId;
  fv_parity : list Z
}.

Definition ParseMuxFecFrame (p : list Z) (max_count : Z) : option MuxFecFrameView :=
  match p with
  | [] => None
  | count :: p =>
      let n := Z.to_nat count in
      if (count =? 0) || (max_count <? count) || (Z.of_nat (length p) <? count * 8 + 2) then None
      else
        let entries := read_many n p in
        let p := drop (n * 8) p in
        let parity_len := get16 p in
        let p := drop 2 p in
        if (parity_len <? 3) || negb (parity_len =? Z.of_nat (length p)) then None
        else Some (mkFecView entries p)
  end.

(** The XOR loop over the present frames; [None] is a null or oversized slot. *)
Fixpoint fec_fold (present : list (option (list Z))) (missing_index : nat) (i n : nat)
    (recovered : list Z) : option (list Z) :=
  match n with
  | O => Some recovered
  | S n =>
      if decide (i = missing_index) then fec_fold present missing_index (S i) n recovered
      else match present !! i with
           | Some (Some frame) =>
               if decide (length recovered < length frame + 2)%nat then None
               else fec_fold present missing_index (S i) n (xor_into recovered (fec_block frame))
           | _ => None
           end
  end.

Definition MuxFecRecover (view : MuxFecFrameView) (present : list (option (list Z)))
    (missing_index cap : Z) : option (list Z) :=
  let count := length (fv_entries view) in
  let parity_len := length (fv_parity view) in
  if (missing_index <? 0) || (Z.of_nat count <=? missing_index) || (Z.of_nat parity_len <? 3)
  then None
  else
    recovered ← fec_fold present (Z.to_nat missing_index) 0 count (fv_parity view);
    let recovered_length := be16 (byte_at recovered 0) (byte_at recovered 1) in
    if (recovered_length <=? 0) || (Z.of_nat parity_len <? recovered_length + 2) ||
       (cap <? recovered_length)
    then None
    else Some (take (Z.to_nat recovered_length) (drop 2 recovered)).

(** ** XOR of byte blocks *)

Lemma byte_at_nil i : byte_at [] i = 0.
Proof. unfold byte_at. by destruct i. Qed.

Lemma byte_at_overflow p i : (length p ≤ i)%nat → byte_at p i = 0.
Proof. apply nth_overflow. Qed.

Lemma byte_at_ext p q :
  length p = length q → (∀ i, byte_at p i = byte_at q i) → p = q.
Proof. intros Hl Hi. apply (nth_ext p q 0 0); [done|]. intros. apply Hi. Qed.

Lemma byte_at_app_zeros p n i : byte_at (p ++ replicate n 0) i = byte_at p i.
Proof.
  unfold byte_at. destruct (decide (i < length p)%nat).
  - by rewrite app_nth1.
  - rewrite app_nth2 by lia. rewrite (nth_overflow p) by lia.
    revert n. generalize (i - length p)%nat as k. induction k; intros [|m]; simpl; auto.
Qed.

Lemma byte_at_zeros n i : byte_at (replicate n 0) i = 0.
Proof. rewrite <- (app_nil_l (replicate n 0)), byte_at_app_zeros. apply byte_at_nil. Qed.

Lemma length_xor_into p b : length (xor_into p b) = length p.
Proof. revert b. induction p as [|x p IH]; intros [|y b]; simpl; auto. Qed.

Lemma byte_at_xor_into p b i :
  (length b ≤ length p)%nat → byte_at (xor_into p b) i = Z.lxor (byte_at p i) (byte_at b i).
Proof.
  revert b i. unfold byte_at. induction p as [|x p IH]; intros [|y b] i Hl; simpl in *; try lia.
  - destruct i; by rewrite ?Z.lxor_0_r.
  - destruct i; by rewrite ?Z.lxor_0_r.
  - destruct i; simpl; [done|]. apply IH. lia.
Qed.

Lemma length_fec_block f : length (fec_block f) = (length f + 2)%nat.
Proof. simpl. lia. Qed.

(** The XOR of the [i]-th bytes of a list of blocks. *)
Definition xor_at (i : nat) (blocks : list (list Z)) : Z :=
  fold_right (λ b acc, Z.lxor (byte_at b i) acc) 0 blocks.

Lemma xor_at_app i b1 b2 : xor_at i (b1 ++ b2) = Z.lxor (xor_at i b1) (xor_at i b2).
Proof.
  unfold xor_at. induction b1 as [|b b1 IH]; simpl; [by rewrite Z.lxor_0_l|].
  by rewrite IH, Z.lxor_assoc.
Qed.

Lemma xor_at_snoc i bs b : xor_at i (bs ++ [b]) = Z.lxor (xor_at i bs) (byte_at b i).
Proof. rewrite xor_at_app. unfold xor_at at 2. simpl. by rewrite Z.lxor_0_r. Qed.

(** ** The encoder *)

Abbreviation fec_group := (list (MuxFecFrameId * list Z)).

Definition fec_encode (now : Z) (g : fec_group) : MuxFecEncoder :=
  fold_left (λ e '(id, frame), FecEncoder_Add e (fid_connection_id id) (fid_sequence id) frame)
    g (FecEncoder_Reset now).

(** The longest frame of the group, with its two length bytes. *)
Definition fec_parity_len (g : fec_group) : nat :=
  fold_right (λ p m, Nat.max (length p.2 + 2) m) 0%nat g.

Lemma fec_encode_snoc now g id f :
  fec_encode now (g ++ [(id, f)]) =
  FecEncoder_Add (fec_encode now g) (fid_connection_id id) (fid_sequence id) f.
Proof. unfold fec_encode. by rewrite fold_left_app. Qed.

Lemma fec_parity_len_snoc g p :
  fec_parity_len (g ++ [p]) = Nat.max (fec_parity_len g) (length p.2 + 2).
Proof. unfold fec_parity_len. induction g; simpl; lia. Qed.

Lemma fec_parity_len_elem g p : p ∈ g → (length p.2 + 2 ≤ fec_parity_len g)%nat.
Proof. unfold fec_parity_len. induction 1; simpl; lia. Qed.

Lemma fec_encode_spec now g :
  fe_entries (fec_encode now g) = g.*1 ∧
  length (fe_parity (fec_encode now g)) = fec_parity_len g ∧
  ∀ i, byte_at (fe_parity (fec_encode now g)) i = xor_at i (fec_block <$> g.*2).
Proof.
  induction g as [|[id f] g (IH1&IH2&IH3)] using rev_ind.
  { split; [done|]. split; [done|]. intros i. apply byte_at_nil. }
  rewrite fec_encode_snoc, !fmap_app, fec_parity_len_snoc. simpl.
  set (e := fec_encode now g) in *.
  set (parity := match fe_entries e with [] => _ | _ => _ end).
  assert (length parity = Nat.max (fec_parity_len g) (length f + 2) ∧
          ∀ i, byte_at parity i = xor_at i (fec_block <$> g.*2)) as [Hl Hb].
  { unfold parity. destruct (fe_entries e) as [|x l] eqn:Ee.
    - destruct g; [|done]. rewrite length_replicate. split; [simpl; lia|].
      intros i. rewrite byte_at_zeros. done.
    - case_decide; [|split; [lia|done]]. rewrite length_app, length_replicate.
      split; [lia|]. intros i. by rewrite byte_at_app_zeros. }
  assert (length (fec_block f) ≤ length parity)%nat by (rewrite length_fec_block, Hl; lia).
  split_and!.
  - rewrite IH1. by destruct id.
  - by rewrite length_xor_into.
  - intros i. rewrite byte_at_xor_into, Hb by done. by rewrite xor_at_snoc.
Qed.

#[global] Instance fec_id_record_laws : SizedRecordLaws MuxFecFrameId.
Proof.
  split; cbn [sr_size sr_wf sr_write sr_read fec_id_record].
  - intros a _. by rewrite length_app, !length_be_bytes.
  - intros a _. apply Forall_app; split; apply bytes_ok_be_bytes.
  - intros [a b] r [??]. cbn [fid_connection_id fid_sequence] in *.
    by destruct (pair32_read_write a b r) as [-> ->].
  - intros p Hp Hl. split; apply get32_range; try apply bytes_ok_drop; rewrite ?length_drop; lia || done.
  - intros p Hp Hl. by apply pair32_write_read.
Qed.

(** A group the sender may emit: every frame is non-empty, the count fits one byte and the
    parity length fits two. *)
Definition fec_group_ok (g : fec_group) : Prop :=
  Forall (λ p, sr_wf p.1 ∧ bytes_ok p.2 ∧ p.2 ≠ []) g ∧
  g ≠ [] ∧ Z.of_nat (length g) ≤ 255 ∧ Z.of_nat (fec_parity_len g) ≤ 65535.

#[global] Instance fec_group_ok_dec g : Decision (fec_group_ok g).
Proof. unfold fec_group_ok. simpl. apply _. Defined.

Lemma fec_group_parity_ge3 g : fec_group_ok g → (3 ≤ fec_parity_len g)%nat.
Proof.
  intros (Hg&Hne&_). destruct g as [|[id f] g]; [done|].
  apply Forall_cons in Hg as [(_&_&Hf) _]. simpl in *. destruct f; [done|]. simpl. lia.
Qed.

Lemma fec_build_parse now g bcap max_count :
  fec_group_ok g → Z.of_nat (length g) ≤ max_count →
  Z.of_nat (FecEncoder_MaxPayloadSize (fec_encode now g)) ≤ bcap →
  ∃ payload, FecEncoder_Build (fec_encode now g) bcap = Some payload ∧
    ParseMuxFecFrame payload max_count =
      Some (mkFecView g.*1 (fe_parity (fec_encode now g))).
Proof.
  intros Hok Hmax Hcap. pose proof (fec_group_parity_ge3 g Hok) as H3.
  destruct Hok as (Hg&Hne&H255&Hpl).
  destruct (fec_encode_spec now g) as (He&Hl&_).
  assert (Forall sr_wf g.*1) as Hwf.
  { rewrite Forall_fmap. eapply Forall_impl; [exact Hg|]. by intros p [? _]. }
  assert (0 < length g)%nat by (destruct g; simpl; [done|lia]).
  unfold FecEncoder_Build. rewrite He, Hl, length_fmap.
  destruct (_ || _ || _) eqn:E1; [blia|]. clear E1.
  destruct (_ || _) eqn:E1; [blia|]. clear E1. eexists. split; [done|].
  unfold ParseMuxFecFrame. rewrite wrap_small by uint_lia. rewrite Nat2Z.id.
  assert (length (write_many g.*1) = length g * 8)%nat as Hw.
  { rewrite length_write_many by done. by rewrite length_fmap. }
  rewrite !length_app, length_be_bytes, Hw, Hl.
  destruct (_ || _ || _) eqn:E1; [blia|]. clear E1.
  replace (read_many (length g) _) with (g.*1).
  2:{ rewrite <- (length_fmap fst g). by rewrite read_write_many. }
  rewrite (drop_app_length' (write_many g.*1) _ (length g * 8)) by done.
  rewrite get16_be_bytes by uint_lia.
  rewrite (drop_app_length' (be_bytes 2 _) _ 2) by done. rewrite Hl.
  destruct (_ || _) eqn:E1; [blia|]. done.
Qed.

(** ** Recovery *)

Lemma xor_at_cons k b bs : xor_at k (b :: bs) = Z.lxor (byte_at b k) (xor_at k bs).
Proof. done. Qed.

Lemma lxor_cancel_around x b y : Z.lxor (Z.lxor x (Z.lxor b y)) (Z.lxor x y) = b.
Proof.
  apply Z.bits_inj'. intros n _. rewrite !Z.lxor_spec.
  by destruct (Z.testbit x n), (Z.testbit b n), (Z.testbit y n).
Qed.

(** Cancelling every block but the [m]-th leaves the [m]-th. *)
Lemma xor_at_all_but k blocks m b :
  blocks !! m = Some b →
  Z.lxor (xor_at k blocks) (xor_at k (<[m:=[]]> blocks)) = byte_at b k.
Proof.
  intros Hb. rewrite <- (take_drop_middle blocks m b) at 1 by done.
  rewrite insert_take_drop by (by eapply lookup_lt_Some).
  rewrite !xor_at_app, !xor_at_cons, byte_at_nil, Z.lxor_0_l.
  apply lxor_cancel_around.
Qed.

Lemma fec_fold_spec present frames m n : ∀ i recovered,
  (i + n = length frames)%nat →
  (∀ j f, j ≠ m → frames !! j = Some f → present !! j = Some (Some f)) →
  Forall (λ f, length f + 2 ≤ length recovered)%nat frames →
  ∃ r, fec_fold present m i n recovered = Some r ∧ length r = length recovered ∧
    ∀ k, byte_at r k =
         Z.lxor (byte_at recovered k) (xor_at k (drop i (<[m:=[]]> (fec_block <$> frames)))).
Proof.
  induction n as [|n IH]; intros i recovered Hin Hp Hfit.
  { exists recovered. split; [done|]. split; [done|]. intros k.
    rewrite drop_ge by (rewrite length_insert, length_fmap; lia). symmetry. apply Z.lxor_0_r. }
  destruct (lookup_lt_is_Some_2 frames i) as [f Hf]; [lia|].
  cbn [fec_fold]. case_decide as Him.
  - subst m. destruct (IH (S i) recovered) as (r&Hr1&Hr2&Hr3); [lia|done|done|].
    exists r. split; [done|]. split; [done|]. intros k. rewrite Hr3. f_equal.
    rewrite (drop_S _ [] i) by (apply list_lookup_insert_eq; rewrite length_fmap; lia).
    by rewrite xor_at_cons, byte_at_nil, Z.lxor_0_l.
  - rewrite (Hp i f) by done.
    assert (length f + 2 ≤ length recovered)%nat as Hf2.
    { rewrite Forall_forall in Hfit. apply Hfit. by eapply list_elem_of_lookup_2. }
    rewrite decide_False by lia.
    destruct (IH (S i) (xor_into recovered (fec_block f))) as (r&Hr1&Hr2&Hr3);
      [lia|done|by rewrite length_xor_into|].
    exists r. split; [done|]. split; [by rewrite Hr2, length_xor_into|]. intros k.
    rewrite Hr3, byte_at_xor_into by (rewrite length_fec_block; lia).
    rewrite (drop_S _ (fec_block f) i), xor_at_cons, Z.lxor_assoc; [done|].
    rewrite list_lookup_insert_ne, list_lookup_fmap, Hf by done. done.
Qed.

Lemma fec_block_length_bytes f :
  Z.of_nat (length f) ≤ 65535 →
  be16 (byte_at (fec_block f) 0) (byte_at (fec_block f) 1) = Z.of_nat (length f).
Proof.
  intros H. transitivity (get16 (be_bytes 2 (Z.of_nat (length f)) ++ [])); [done|].
  apply get16_be_bytes. uint_lia.
Qed.

(** A zero-padded block reads back as its frame. *)
Lemma fec_block_payload r f :
  (length f + 2 ≤ length r)%nat → (∀ k, byte_at r k = byte_at (fec_block f) k) →
  take (length f) (drop 2 r) = f.
Proof.
  intros Hl Hk. apply byte_at_ext; [rewrite length_take, length_drop; lia|].
  intros i. destruct (decide (i < length f)%nat).
  - specialize (Hk (2 + i)%nat). unfold byte_at in *.
    rewrite nth_lookup, lookup_take_lt, lookup_drop by done. rewrite nth_lookup in Hk.
    rewrite Hk. done.
  - rewrite !byte_at_overflow; [done|lia|rewrite length_take, length_drop; lia].
Qed.

(** C11: single-loss recovery is exact end to end.  For a group the sender may emit, the built
    payload parses, lists the group's (connection, sequence) ids in order, and from it and the
    other frames [MuxFecRecover] returns exactly the one missing frame. *)
Theorem fec_recovers now g bcap max_count cap m id f present :
  fec_group_ok g → Z.of_nat (length g) ≤ max_count →
  Z.of_nat (FecEncoder_MaxPayloadSize (fec_encode now g)) ≤ bcap →
  g !! m = Some (id, f) → Z.of_nat (length f) ≤ cap →
  (∀ j p, j ≠ m → g !! j = Some p → present !! j = Some (Some p.2)) →
  ∃ payload view,
    FecEncoder_Build (fec_encode now g) bcap = Some payload ∧
    ParseMuxFecFrame payload max_count = Some view ∧
    fv_entries view = g.*1 ∧
    MuxFecRecover view present (Z.of_nat m) cap = Some f.
Proof.
  intros Hok Hmax Hbcap Hm Hcap Hpresent.
  destruct (fec_build_parse now g bcap max_count Hok Hmax Hbcap) as (payload&Hb&Hparse).
  pose proof (fec_group_parity_ge3 g Hok) as H3.
  destruct Hok as (Hg&_&_&Hpl). destruct (fec_encode_spec now g) as (_&Hl&Hx).
  set (parity := fe_parity (fec_encode now g)) in *.
  exists payload, (mkFecView g.*1 parity). split; [done|]. split; [done|]. split; [done|].
  assert (∀ p, p ∈ g → (length p.2 + 2 ≤ length parity)%nat) as Hfit.
  { intros p Hp. rewrite Hl. by apply fec_parity_len_elem. }
  destruct (fec_fold_spec present g.*2 m (length g) 0 parity) as (r&Hr1&Hr2&Hr3).
  - by rewrite length_fmap.
  - intros j fr Hj Hfr. rewrite list_lookup_fmap in Hfr.
    destruct (g !! j) as [p|] eqn:Ep; simplify_eq/=. by apply Hpresent.
  - rewrite Forall_fmap, Forall_forall. intros p Hp. by apply Hfit.
  - assert (∀ k, byte_at r k = byte_at (fec_block f) k) as Hrk.
    { intros k. rewrite Hr3, Hx. apply xor_at_all_but. by rewrite !list_lookup_fmap, Hm. }
    pose proof (lookup_lt_Some _ _ _ Hm) as Hlt.
    assert ((id, f) ∈ g) as Hin by (by eapply list_elem_of_lookup_2).
    pose proof (Hfit _ Hin) as Hff. simpl in Hff.
    rewrite Forall_forall in Hg. destruct (Hg _ Hin) as (_&_&Hne). simpl in Hne.
    unfold MuxFecRecover. cbn [fv_entries fv_parity]. rewrite length_fmap.
    destruct (_ || _ || _) eqn:E; [blia|]. clear E.
    rewrite Nat2Z.id, Hr1. cbn [mbind option_bind].
    rewrite !Hrk, fec_block_length_bytes by lia.
    assert (0 < length f)%nat by (destruct f; simpl; [done|lia]).
    destruct (_ || _ || _) eqn:E; [blia|]. f_equal. rewrite Nat2Z.id.
    apply fec_block_payload; [lia|done].
Qed.

Definition fec_demo : fec_group := [(mkFecId 1 10, [9; 8; 7]); (mkFecId 2 11, [5]); (mkFecId 1 12, [1; 2])].

Lemma fec_recovers_witness :
  ∃ payload view,
    FecEncoder_Build (fec_encode 0 fec_demo) 64 = Some payload ∧
    ParseMuxFecFrame payload 16 = Some view ∧ fv_entries view = fec_demo.*1 ∧
    MuxFecRecover view [Some [9; 8; 7]; None; Some [1; 2]] (Z.of_nat 1) 1500 = Some [5].
Proof.
  apply (fec_recovers 0 fec_demo 64 16 1500 1 (mkFecId 2 11) [5]).
  - decide_true.
  - vm_compute; congruence.
  - vm_compute; congruence.
  - done.
  - vm_compute; congruence.
  - intros [|[|[|j]]] p Hj Hp; simplify_eq/=; done.
Defined.

(** The parity parser is strict: what it accepts names between one and [max_count] 32-bit
    id pairs, carries a parity block of at least three bytes, and is byte for byte the
    serialization of that group, so a truncated or padded payload is refused. *)
Theorem fec_parse_strict p max_count view :
  bytes_ok p → ParseMuxFecFrame p max_count = Some view →
  (0 < Z.of_nat (length (fv_entries view)) ≤ max_count) ∧
  Forall sr_wf (fv_entries view) ∧ (3 ≤ length (fv_parity view))%nat ∧
  p = Z.of_nat (length (fv_entries view)) :: write_many (fv_entries view) ++
      be_bytes 2 (Z.of_nat (length (fv_parity view))) ++ fv_parity view.
Proof.
  unfold ParseMuxFecFrame. destruct p as [|c p]; [done|]. intros Hp.
  apply Forall_cons in Hp as [Hc Hp].
  cbv zeta. case_if as E1; [done|]. case_if as E2; [done|]. intros [= <-].
  cbn [fv_entries fv_parity]. rewrite length_read_many.
  unfold is_uint in Hc. bool_props.
  assert (bytes_ok (drop (Z.to_nat c * 8) p)) by by apply bytes_ok_drop.
  split; [lia|]. split; [apply read_many_wf; [done|simpl; lia]|].
  rewrite !length_drop in *. split; [lia|].
  rewrite Z2Nat.id by lia. f_equal.
  rewrite write_read_many by (simpl; done || lia).
  rewrite <- (take_drop (Z.to_nat c * 8) p) at 1. f_equal.
  set (q := drop (Z.to_nat c * 8) p) in *.
  assert (length q = length p - Z.to_nat c * 8)%nat as Hq by (unfold q; by rewrite length_drop).
  replace (Z.of_nat _) with (get16 q) by lia.
  rewrite be_bytes_get16 by (done || lia). by rewrite take_drop.
Qed.

Lemma fec_parse_strict_witness :
  [1; 0;0;0;1; 0;0;0;2; 0;3; 0;1;7] =
  Z.of_nat 1 :: write_many [mkFecId 1 2] ++ be_bytes 2 (Z.of_nat 3) ++ [0;1;7].
Proof.
  apply (fec_parse_strict [1; 0;0;0;1; 0;0;0;2; 0;3; 0;1;7] 8 (mkFecView [mkFecId 1 2] [0;1;7])).
  - decide_true.
  - reflexivity.
Defined.
