(* ===== verification/MuxRetransmit.v ===== *)
(** VMUX retransmission buffer ([src/ppp/app/mux/MuxRetransmitBuffer.h]).

    Retains every reliably sent frame until an ACK covers it.  [order_] is a
    list of keys, [entries_] and [cid_bytes_] are finite maps and [bytes_] is
    the session byte count.  The iteration order of an [unordered_map] is
    unspecified, so the loops over [entries_] take it as the parameter [iter],
    of which only that it visits every element once is assumed.  An
    [std::list] iterator kept in an entry is modelled by the entry's key,
    which the invariant shows to occur once in [order_]. *)

From S2P Require Import Prelude MuxAck.

(** ** Data *)

Record MuxRtxEntry := mkRtxEntry {
  re_buffer : list Z;
  re_length : Z;
  re_first_sent_tick : Z;
  re_last_sent_tick : Z;
  re_attempts : Z;
  re_fast_rtx_mark : Z;
  re_orig_link_id : Z;
  re_last_link_id : Z
}.

Record MuxRetransmitBuffer := mkRtxBuffer {
  rb_order : list Z;
  rb_entries : gmap Z MuxRtxEntry;
  rb_cid_bytes : gmap Z Z;
  rb_bytes : Z
}.

(** ** Operations *)

Definition Rtx_Key (connection_id sequence : Z) : Z := Z.lor (Z.shiftl connection_id 32) sequence.
Definition Rtx_KeyCid (key : Z) : Z := Z.shiftr key 32.
Definition Rtx_KeySeq (key : Z) : Z := Z.land key 4294967295.

#[global] Arguments Rtx_Key : simpl never.
#[global] Arguments Rtx_KeyCid : simpl never.
#[global] Arguments Rtx_KeySeq : simpl never.

(** [static_cast<std::size_t>(length)]. *)
Definition rtx_size (length : Z) : Z := wrap 64 length.

Definition Rtx_Track (s : MuxRetransmitBuffer) (connection_id sequence : Z) (buffer : list Z)
    (length now byte_cap link_id : Z) : bool * MuxRetransmitBuffer :=
  let key := Rtx_Key connection_id sequence in
  match rb_entries s !! key with
  | Some _ => (true, s)
  | None =>
      if (0 <? byte_cap) && (byte_cap <? (rb_bytes s +[64] rtx_size length)) then (false, s)
      else
        (true, {|
          rb_order := rb_order s ++ [key];
          rb_entries := <[key := mkRtxEntry buffer length now now 0 0 link_id link_id]> (rb_entries s);
          rb_cid_bytes := <[connection_id := default 0 (rb_cid_bytes s !! connection_id) +[64] rtx_size length]>
                            (rb_cid_bytes s);
          rb_bytes := rb_bytes s +[64] rtx_size length |})
  end.

Definition Rtx_ReleaseCidBytes (m : gmap Z Z) (connection_id length : Z) : gmap Z Z :=
  match m !! connection_id with
  | None => m
  | Some v => if v <=? length then delete connection_id m else <[connection_id := v - length]> m
  end.

(** [order_.erase(entry.order)]. *)
Definition erase_order (key : Z) (order : list Z) : list Z := filter (λ k, k ≠ key) order.

Definition ack_range_has (ranges : list MuxAckRange) (seq : Z) : bool :=
  existsb (λ r, (ar_start r <=? seq) && (seq <=? ar_end r)) ranges.

(** Body of the release loop: the running RTT sample and link, and the buffer. *)
Definition rtx_release (connection_id now : Z) (acc : Z * Z * MuxRetransmitBuffer) (key : Z)
    : Z * Z * MuxRetransmitBuffer :=
  let '(rtt_sample, out_link_id, s) := acc in
  match rb_entries s !! key with
  | None => acc
  | Some e =>
      let take_sample := (rtt_sample =? 0) && (re_attempts e =? 0) && (re_first_sent_tick e <=? now) in
      (if take_sample then now - re_first_sent_tick e else rtt_sample,
       if take_sample then re_orig_link_id e else out_link_id,
       {| rb_order := erase_order key (rb_order s);
          rb_entries := delete key (rb_entries s);
          rb_cid_bytes := Rtx_ReleaseCidBytes (rb_cid_bytes s) connection_id (rtx_size (re_length e));
          rb_bytes := rb_bytes s -[64] rtx_size (re_length e) |})
  end.

Definition rtx_set_mark (m : Z) (e : MuxRtxEntry) : MuxRtxEntry :=
  mkRtxEntry (re_buffer e) (re_length e) (re_first_sent_tick e) (re_last_sent_tick e)
    (re_attempts e) m (re_orig_link_id e) (re_last_link_id e).

(** The continue conditions of the fast-retransmit scan, negated. *)
Definition rtx_fast_candidate (connection_id largest now fast_threshold fast_time_threshold : Z)
    (key : Z) (e : MuxRtxEntry) : bool :=
  (Rtx_KeyCid key =? connection_id) &&
  (Rtx_KeySeq key <? largest) &&
  negb ((largest -[32] Rtx_KeySeq key) <? fast_threshold) &&
  negb (re_fast_rtx_mark e =? largest) &&
  negb ((0 <? fast_time_threshold) && (re_first_sent_tick e <=? now) &&
        ((now - re_first_sent_tick e) <? fast_time_threshold)).

#[global] Arguments rtx_fast_candidate : simpl never.

(** [base_pto << min(attempts, 5)], saturating, clamped to [pto_max]. *)
Fixpoint sat_shl (effective : Z) (shift : nat) : Z :=
  match shift with
  | O => effective
  | S n => if (Z.shiftr UINT64_MAX 1) <? effective then UINT64_MAX
           else sat_shl (wrap 64 (Z.shiftl effective 1)) n
  end.

Definition rtx_effective_pto (base_pto pto_max attempts : Z) : Z :=
  let shift := if 5 <? attempts then 5 else attempts in
  let effective := sat_shl base_pto (Z.to_nat shift) in
  if pto_max <? effective then pto_max else effective.

Definition rtx_expired (now base_pto pto_max : Z) (e : MuxRtxEntry) : bool :=
  negb (now <? re_last_sent_tick e) &&
  (rtx_effective_pto base_pto pto_max (re_attempts e) <=? now - re_last_sent_tick e).

Definition rtx_mark_sent (now link_id : Z) (e : MuxRtxEntry) : MuxRtxEntry :=
  mkRtxEntry (re_buffer e) (re_length e) (re_first_sent_tick e) now
    (re_attempts e +[32] 1) (re_fast_rtx_mark e) (re_orig_link_id e) link_id.

Definition Rtx_MarkRetransmitted (s : MuxRetransmitBuffer) (key now link_id : Z) : MuxRetransmitBuffer :=
  match rb_entries s !! key with
  | None => s
  | Some e => mkRtxBuffer (rb_order s) (<[key := rtx_mark_sent now link_id e]> (rb_entries s))
                (rb_cid_bytes s) (rb_bytes s)
  end.

Definition rtx_orphan (e : MuxRtxEntry) : MuxRtxEntry :=
  mkRtxEntry (re_buffer e) (re_length e) (re_first_sent_tick e) 0
    (re_attempts e) (re_fast_rtx_mark e) (re_orig_link_id e) 0.

Definition take_inflight_step (link_id : Z) (acc : list Z * gmap Z MuxRtxEntry) (key : Z)
    : list Z * gmap Z MuxRtxEntry :=
  match acc.2 !! key with
  | None => acc
  | Some e => if negb (re_last_link_id e =? link_id) then acc
              else (acc.1 ++ [key], <[key := rtx_orphan e]> acc.2)
  end.

Definition Rtx_TakeLinkInflight (s : MuxRetransmitBuffer) (link_id : Z) : list Z * MuxRetransmitBuffer :=
  if link_id =? 0 then ([], s)
  else
    let '(out, entries) := fold_left (take_inflight_step link_id) (rb_order s) ([], rb_entries s) in
    (out, mkRtxBuffer (rb_order s) entries (rb_cid_bytes s) (rb_bytes s)).

Definition Rtx_Clear : MuxRetransmitBuffer := mkRtxBuffer [] ∅ ∅ 0.

Definition Rtx_CidBytes (s : MuxRetransmitBuffer) (connection_id : Z) : Z :=
  default 0 (rb_cid_bytes s !! connection_id).

Section iteration.
Variable iter : gmap Z MuxRtxEntry → list (Z * MuxRtxEntry).

Definition rtx_acked (connection_id : Z) (ranges : list MuxAckRange) (m : gmap Z MuxRtxEntry) : list Z :=
  (filter (λ kv, (Rtx_KeyCid kv.1 =? connection_id) && ack_range_has ranges (Rtx_KeySeq kv.1) = true)
    (iter m)).*1.

Definition fast_scan_step (connection_id largest now fast_threshold fast_time_threshold : Z)
    (acc : list Z * gmap Z MuxRtxEntry) (kv : Z * MuxRtxEntry) : list Z * gmap Z MuxRtxEntry :=
  if rtx_fast_candidate connection_id largest now fast_threshold fast_time_threshold kv.1 kv.2
  then (acc.1 ++ [kv.1], <[kv.1 := rtx_set_mark largest kv.2]> acc.2) else acc.

Definition rtx_fast_scan (connection_id largest now fast_threshold fast_time_threshold : Z)
    (m : gmap Z MuxRtxEntry) : list Z * gmap Z MuxRtxEntry :=
  fold_left (fast_scan_step connection_id largest now fast_threshold fast_time_threshold)
    (iter m) ([], m).

(** Returns the RTT sample, the link it is attributed to, the fast-retransmit candidates and
    the buffer. *)
Definition Rtx_Ack (s : MuxRetransmitBuffer) (connection_id largest : Z) (ranges : list MuxAckRange)
    (now fast_threshold fast_time_threshold : Z) : Z * Z * list Z * MuxRetransmitBuffer :=
  let acked := rtx_acked connection_id ranges (rb_entries s) in
  let '(rtt_sample, out_link_id, s1) := fold_left (rtx_release connection_id now) acked (0, 0, s) in
  let '(cands, entries) :=
    rtx_fast_scan connection_id largest now fast_threshold fast_time_threshold (rb_entries s1) in
  (rtt_sample, out_link_id, cands, mkRtxBuffer (rb_order s1) entries (rb_cid_bytes s1) (rb_bytes s1)).

Definition collect_step (now base_pto pto_max : Z) (max_count : nat) (acc : list Z)
    (kv : Z * MuxRtxEntry) : list Z :=
  if decide (max_count ≤ length acc)%nat then acc
  else if rtx_expired now base_pto pto_max kv.2 then acc ++ [kv.1] else acc.

Definition Rtx_CollectExpired (s : MuxRetransmitBuffer) (now base_pto pto_max : Z) (max_count : nat)
    (expired : list Z) : list Z :=
  fold_left (collect_step now base_pto pto_max max_count) (iter (rb_entries s)) expired.

Definition rtx_erase_step (connection_id : Z) (s : MuxRetransmitBuffer) (kv : Z * MuxRtxEntry)
    : MuxRetransmitBuffer :=
  if Rtx_KeyCid kv.1 =? connection_id
  then mkRtxBuffer (erase_order kv.1 (rb_order s)) (delete kv.1 (rb_entries s)) (rb_cid_bytes s)
         (rb_bytes s -[64] rtx_size (re_length kv.2))
  else s.

Definition Rtx_EraseCid (s : MuxRetransmitBuffer) (connection_id : Z) : MuxRetransmitBuffer :=
  fold_left (rtx_erase_step connection_id) (iter (rb_entries s))
    (mkRtxBuffer (rb_order s) (rb_entries s) (delete connection_id (rb_cid_bytes s)) (rb_bytes s)).
End iteration.

(** ** The accounting invariant *)

Abbreviation lengths := (fmap (M := gmap Z) re_length).

Definition rtx_entry_ok (key : Z) (e : MuxRtxEntry) : Prop :=
  is_uint 64 key ∧ 0 ≤ re_length e < 2 ^ 31.

(** [order_] lists the keys of [entries_] once each and [bytes_] is their total length. *)
Record rtx_core (cap : Z) (s : MuxRetransmitBuffer) : Prop := {
  core_nodup : NoDup (rb_order s);
  core_dom k : k ∈ rb_order s ↔ is_Some (rb_entries s !! k);
  core_entries : map_Forall rtx_entry_ok (rb_entries s);
  core_bytes : rb_bytes s = map_sum (λ _, true) (lengths (rb_entries s));
  core_cap : rb_bytes s ≤ cap
}.

Definition cid_test (c k : Z) : bool := Rtx_KeyCid k =? c.

Definition cid_ok (s : MuxRetransmitBuffer) (c : Z) : Prop :=
  Rtx_CidBytes s c = map_sum (cid_test c) (lengths (rb_entries s)).

Definition rtx_inv (cap : Z) (s : MuxRetransmitBuffer) : Prop :=
  rtx_core cap s ∧ ∀ c, cid_ok s c.

Lemma lengths_nonneg m : map_Forall rtx_entry_ok m → map_Forall (λ _ v, 0 ≤ v) (lengths m).
Proof.
  intros Hm k v. rewrite lookup_fmap. intros (e&He&->)%fmap_Some. destruct (Hm k e He) as [_ ?]. lia.
Qed.

Lemma rtx_size_id l : 0 ≤ l < 2 ^ 31 → rtx_size l = l.
Proof. intros. apply wrap_small. uint_lia. Qed.

Lemma core_bytes_range cap s : rtx_core cap s → 0 ≤ rb_bytes s.
Proof.
  intros Hc. rewrite (core_bytes _ _ Hc). apply map_sum_nonneg, lengths_nonneg, Hc.
Qed.

Lemma elem_of_erase_order k key order : k ∈ erase_order key order ↔ k ≠ key ∧ k ∈ order.
Proof. unfold erase_order. by rewrite list_elem_of_filter. Qed.

(** Removing one entry from the order, the map and the byte count keeps the core. *)
Lemma core_drop cap s key e cids :
  cap ≤ 2 ^ 63 → rtx_core cap s → rb_entries s !! key = Some e →
  rtx_core cap (mkRtxBuffer (erase_order key (rb_order s)) (delete key (rb_entries s)) cids
    (rb_bytes s -[64] rtx_size (re_length e))).
Proof.
  intros Hcap Hc He. pose proof (core_entries _ _ Hc key e He) as [_ Hl].
  pose proof (core_bytes_range _ _ Hc) as Hb0. pose proof (core_cap _ _ Hc) as Hb1.
  assert (lengths (rb_entries s) !! key = Some (re_length e)) as Hle by (by rewrite lookup_fmap, He).
  pose proof (map_sum_delete (λ _, true) _ _ _ Hle) as Hsum. cbv beta iota in Hsum.
  assert (map_Forall rtx_entry_ok (delete key (rb_entries s))) as Hd by apply map_Forall_delete, Hc.
  pose proof (map_sum_nonneg (λ _, true) _ (lengths_nonneg _ Hd)) as Hd0. rewrite fmap_delete in Hd0.
  pose proof (core_bytes _ _ Hc) as Hb. rewrite (rtx_size_id (re_length e)) by done.
  rewrite wrap_small by uint_lia.
  split; simpl.
  - apply NoDup_filter, Hc.
  - intros k. rewrite elem_of_erase_order, (core_dom _ _ Hc).
    destruct (decide (key = k)) as [->|].
    + rewrite lookup_delete_eq. split; [tauto|]. by intros [??].
    + rewrite lookup_delete_ne by done. split; [by intros [_ ?]|]. intros ?. split; [congruence|done].
  - done.
  - rewrite fmap_delete. lia.
  - lia.
Qed.

(** Updating entries in place without changing a length keeps both parts. *)
Lemma inv_update cap s m' :
  rtx_inv cap s →
  (∀ k, re_length <$> m' !! k = re_length <$> rb_entries s !! k) →
  rtx_inv cap (mkRtxBuffer (rb_order s) m' (rb_cid_bytes s) (rb_bytes s)).
Proof.
  intros [Hc Hcid] Hm.
  assert (lengths m' = lengths (rb_entries s)) as Heq.
  { apply map_eq. intros k. by rewrite !lookup_fmap. }
  split.
  - split; simpl.
    + apply Hc.
    + intros k. rewrite (core_dom _ _ Hc). specialize (Hm k).
      rewrite <- !(fmap_is_Some re_length). by rewrite Hm.
    + intros k e He. specialize (Hm k). rewrite He in Hm. symmetry in Hm.
      apply fmap_Some in Hm as (e0&He0&Hl).
      destruct (core_entries _ _ Hc k e0 He0) as [??]. split; [done|]. lia.
    + rewrite Heq. apply Hc.
    + apply Hc.
  - intros c. unfold cid_ok. simpl. rewrite Heq. apply Hcid.
Qed.

Lemma CidBytes_release m c l c' :
  0 ≤ l ≤ default 0 (m !! c) →
  default 0 (Rtx_ReleaseCidBytes m c l !! c') =
  default 0 (m !! c') - (if decide (c = c') then l else 0).
Proof.
  intros Hl. unfold Rtx_ReleaseCidBytes. destruct (m !! c) as [v|] eqn:E; simpl in Hl.
  - case_if as Hle; case_decide as Heq; subst; rewrite ?lookup_delete_eq, ?lookup_insert_eq, ?E;
      simpl; try blia; by rewrite ?lookup_delete_ne, ?lookup_insert_ne, Z.sub_0_r by done.
  - case_decide as Heq; subst; rewrite ?E; simpl; lia.
Qed.

(** The release step of [Ack] on a key of the acknowledged space. *)
Lemma inv_release cap s key e :
  cap ≤ 2 ^ 63 → rtx_inv cap s → rb_entries s !! key = Some e →
  rtx_inv cap (mkRtxBuffer (erase_order key (rb_order s)) (delete key (rb_entries s))
    (Rtx_ReleaseCidBytes (rb_cid_bytes s) (Rtx_KeyCid key) (rtx_size (re_length e)))
    (rb_bytes s -[64] rtx_size (re_length e))).
Proof.
  intros Hcap [Hc Hcid] He. split; [by apply core_drop|]. intros c.
  pose proof (core_entries _ _ Hc key e He) as [_ Hl].
  assert (lengths (rb_entries s) !! key = Some (re_length e)) as Hle by (by rewrite lookup_fmap, He).
  assert (re_length e ≤ Rtx_CidBytes s (Rtx_KeyCid key)) as Hge.
  { rewrite (Hcid (Rtx_KeyCid key)). eapply map_sum_lookup_le; [apply lengths_nonneg, Hc|done|].
    unfold cid_test. lia. }
  unfold cid_ok, Rtx_CidBytes in *. cbn [rb_cid_bytes rb_entries].
  rewrite (rtx_size_id (re_length e)) by done. rewrite CidBytes_release by lia.
  rewrite Hcid, (map_sum_delete (cid_test c) _ _ _ Hle), fmap_delete.
  unfold cid_test at 1. destruct (_ =? _) eqn:E; case_decide; bool_props; lia.
Qed.

Lemma fold_release cap cid now keys acc :
  cap ≤ 2 ^ 63 → rtx_inv cap acc.2 → Forall (λ k, Rtx_KeyCid k = cid) keys →
  let s' := (fold_left (rtx_release cid now) keys acc).2 in
  rtx_inv cap s' ∧
  ∀ k, rb_entries s' !! k = if decide (k ∈ keys) then None else rb_entries acc.2 !! k.
Proof.
  intros Hcap Hinv Hk. revert acc Hinv. induction Hk as [|key keys Hkey _ IH]; intros acc Hinv; simpl.
  { done. }
  destruct acc as [[rtt lk] s]. simpl in Hinv.
  destruct (rb_entries s !! key) as [e|] eqn:He.
  - assert (rtx_release cid now (rtt, lk, s) key =
      ((rtx_release cid now (rtt, lk, s) key).1.1, (rtx_release cid now (rtt, lk, s) key).1.2,
       mkRtxBuffer (erase_order key (rb_order s)) (delete key (rb_entries s))
         (Rtx_ReleaseCidBytes (rb_cid_bytes s) (Rtx_KeyCid key) (rtx_size (re_length e)))
         (rb_bytes s -[64] rtx_size (re_length e)))) as ->.
    { unfold rtx_release. rewrite He, <- Hkey. done. }
    match goal with |- context [fold_left _ keys ?a] => destruct (IH a) as [IH1 IH2] end;
      [by apply inv_release|]. split; [exact IH1|].
    intros k. rewrite IH2. cbn [rb_entries snd].
    rewrite (decide_ext _ _ _ _ (elem_of_cons keys k key)). repeat case_decide; try tauto.
    + assert (k = key) as -> by tauto. apply lookup_delete_eq.
    + apply lookup_delete_ne. intros ->. tauto.
  - assert (rtx_release cid now (rtt, lk, s) key = (rtt, lk, s)) as ->
      by (unfold rtx_release; by rewrite He).
    destruct (IH (rtt, lk, s) Hinv) as [IH1 IH2]. split; [exact IH1|].
    intros k. rewrite IH2. cbn [snd].
    rewrite (decide_ext _ _ _ _ (elem_of_cons keys k key)). repeat case_decide; try tauto.
    by assert (k = key) as -> by tauto.
Qed.

Lemma Rtx_Key_spec c q :
  is_uint 32 c → is_uint 32 q →
  is_uint 64 (Rtx_Key c q) ∧ Rtx_KeyCid (Rtx_Key c q) = c ∧ Rtx_KeySeq (Rtx_Key c q) = q.
Proof.
  intros Hc Hq. unfold Rtx_KeyCid, Rtx_KeySeq, Rtx_Key.
  rewrite lor_shift_add by done. unfold is_uint in *.
  split; [change (2 ^ 64) with (2 ^ 32 * 2 ^ 32); nia|]. split.
  - rewrite Z.shiftr_div_pow2, Z.div_add_l by lia. rewrite Z.div_small by done. lia.
  - change 4294967295 with (Z.ones 32). rewrite Z.land_ones by lia.
    rewrite Z.add_comm, Z_mod_plus_full. by apply Z.mod_small.
Qed.

Lemma CidBytes_le cap s c : rtx_inv cap s → 0 ≤ Rtx_CidBytes s c ≤ rb_bytes s.
Proof.
  intros [Hc Hcid]. rewrite (Hcid c), (core_bytes _ _ Hc).
  pose proof (lengths_nonneg _ (core_entries _ _ Hc)) as Hl.
  split; [by apply map_sum_nonneg|by apply map_sum_le].
Qed.

Lemma inv_track cap s cid seq buffer len now byte_cap link :
  cap ≤ 2 ^ 63 → rtx_inv cap s → is_uint 32 cid → is_uint 32 seq →
  0 ≤ len < 2 ^ 31 → 0 < byte_cap ≤ cap →
  rtx_inv cap (Rtx_Track s cid seq buffer len now byte_cap link).2.
Proof.
  intros Hcap Hinv Hcu Hsu Hlen Hbc. unfold Rtx_Track.
  destruct (Rtx_Key_spec cid seq Hcu Hsu) as (Hk64&Hkc&_).
  set (key := Rtx_Key cid seq) in *.
  destruct (rb_entries s !! key) eqn:Hnone; [done|].
  pose proof (core_bytes_range _ _ (proj1 Hinv)) as Hb0. pose proof (core_cap _ _ (proj1 Hinv)) as Hb1.
  pose proof (CidBytes_le cap s cid Hinv) as Hcb.
  rewrite (rtx_size_id len) by done. rewrite (wrap_small 64 (rb_bytes s + len)) by uint_lia.
  case_if as Hfull; [done|]. cbn [snd].
  assert (lengths (rb_entries s) !! key = None) as Hln by (by rewrite lookup_fmap, Hnone).
  destruct Hinv as [Hc Hcid]. split.
  - split; cbn [rb_order rb_entries rb_bytes].
    + apply NoDup_app. split; [apply Hc|]. split; [|apply NoDup_singleton].
      intros k Hk Hk2. apply list_elem_of_singleton in Hk2 as ->.
      apply (core_dom _ _ Hc) in Hk. rewrite Hnone in Hk. by destruct Hk.
    + intros k. rewrite elem_of_app, list_elem_of_singleton, (core_dom _ _ Hc).
      destruct (decide (key = k)) as [<-|Hne].
      * rewrite lookup_insert_eq. split; [eauto|]. by right.
      * rewrite lookup_insert_ne by done. split; [intros [?| ->]; done|by left].
    + apply map_Forall_insert_2; [by split|apply Hc].
    + rewrite fmap_insert, map_sum_insert by done. rewrite (core_bytes _ _ Hc). cbv beta iota.
      cbn [re_length]. lia.
    + bool_props; lia.
  - intros c. specialize (Hcid c). unfold cid_ok, Rtx_CidBytes in *. cbn [rb_cid_bytes rb_entries].
    rewrite fmap_insert, map_sum_insert by done. cbn [re_length]. unfold cid_test at 1. rewrite Hkc.
    destruct (decide (cid = c)) as [<-|Hne].
    + rewrite lookup_insert_eq, Z.eqb_refl. rewrite default_Some. rewrite wrap_small by uint_lia. lia.
    + rewrite lookup_insert_ne by done. destruct (cid =? c) eqn:E; blia.
Qed.

Lemma inv_mark cap s key now link :
  rtx_inv cap s → rtx_inv cap (Rtx_MarkRetransmitted s key now link).
Proof.
  intros Hinv. unfold Rtx_MarkRetransmitted. destruct (rb_entries s !! key) as [e|] eqn:E; [|done].
  apply inv_update; [done|]. intros k. destruct (decide (key = k)) as [<-|Hne].
  - by rewrite lookup_insert_eq, E.
  - by rewrite lookup_insert_ne.
Qed.


(** The orphaning loop over a duplicate-free key list. *)
Lemma take_inflight_fold link order out m :
  NoDup order →
  let r := fold_left (take_inflight_step link) order (out, m) in
  r.1 = out ++ filter (λ k, (λ e, re_last_link_id e =? link) <$> m !! k = Some true) order ∧
  ∀ k, r.2 !! k = if decide (k ∈ order)
                  then (λ e, if re_last_link_id e =? link then rtx_orphan e else e) <$> m !! k
                  else m !! k.
Proof.
  intros Hnd. revert out m. induction Hnd as [|key order Hkey _ IH]; intros out m.
  { cbn [fold_left fst snd]. split; [by rewrite filter_nil, app_nil_r|]. intros k.
    by case_decide as H; [apply not_elem_of_nil in H|]. }
  cbn [fold_left]. rewrite filter_cons.
  set (m1 := (take_inflight_step link (out, m) key).2).
  set (out1 := (take_inflight_step link (out, m) key).1).
  assert (take_inflight_step link (out, m) key = (out1, m1)) as -> by (unfold out1, m1; by destruct (take_inflight_step _ _ _)).
  destruct (IH out1 m1) as [IH1 IH2].
  assert (∀ k, k ≠ key → m1 !! k = m !! k) as Hother.
  { intros k Hne. unfold m1, take_inflight_step. cbn [snd]. destruct (m !! key); [|done].
    case_if as E; [done|]. cbn [snd]. by rewrite lookup_insert_ne by done. }
  assert (m1 !! key = (λ e, if re_last_link_id e =? link then rtx_orphan e else e) <$> m !! key) as Hself.
  { unfold m1, take_inflight_step. cbn [snd]. destruct (m !! key) as [e|] eqn:E; [|done].
    cbn [fmap option_fmap option_map]. destruct (re_last_link_id e =? link) eqn:El; cbn [negb snd].
    - by rewrite lookup_insert_eq.
    - done. }
  assert (out1 = out ++ if decide ((λ e, re_last_link_id e =? link) <$> m !! key = Some true)
                        then [key] else []) as Hout.
  { unfold out1, take_inflight_step. cbn [snd]. destruct (m !! key) as [e|] eqn:E.
    - cbn [fmap option_fmap option_map]. destruct (re_last_link_id e =? link) eqn:El; cbn [negb fst].
      + by rewrite decide_True.
      + rewrite decide_False by done. by rewrite app_nil_r.
    - rewrite decide_False by done. by rewrite app_nil_r. }
  split.
  - cbv zeta in IH1. rewrite IH1, Hout.
    rewrite (list_filter_agree (λ k, (λ e, re_last_link_id e =? link) <$> m1 !! k = Some true)
      (λ k, (λ e, re_last_link_id e =? link) <$> m !! k = Some true)).
    + case_decide; by rewrite <- (assoc_L (++)).
    + intros k Hk. rewrite Hother; [done|]. by intros ->.
  - intros k. rewrite IH2, (decide_ext _ _ _ _ (elem_of_cons order k key)).
    destruct (decide (k = key)) as [->|Hne].
    + rewrite decide_False by done. by rewrite decide_True by (by left).
    + rewrite Hother by done. by repeat case_decide; try tauto.
Qed.

Lemma orphan_length link (m : gmap Z MuxRtxEntry) k :
  re_length <$> ((λ e, if re_last_link_id e =? link then rtx_orphan e else e) <$> m !! k) =
  re_length <$> m !! k.
Proof. destruct (m !! k) as [e|]; [|done]. cbn. by destruct (_ =? _). Qed.

Lemma TakeLinkInflight_spec cap s link :
  rtx_inv cap s → link ≠ 0 →
  let r := Rtx_TakeLinkInflight s link in
  r.1 = filter (λ k, (λ e, re_last_link_id e =? link) <$> rb_entries s !! k = Some true) (rb_order s) ∧
  (∀ k, rb_entries r.2 !! k =
     (λ e, if re_last_link_id e =? link then rtx_orphan e else e) <$> rb_entries s !! k) ∧
  rtx_inv cap r.2.
Proof.
  intros Hinv Hl. unfold Rtx_TakeLinkInflight. rewrite (proj2 (Z.eqb_neq link 0)) by done.
  destruct (take_inflight_fold link (rb_order s) [] (rb_entries s)) as [H1 H2]; [apply Hinv|].
  destruct (fold_left _ _ _) as [out m]. cbn [fst snd rb_entries] in *.
  assert (∀ k, m !! k =
    (λ e, if re_last_link_id e =? link then rtx_orphan e else e) <$> rb_entries s !! k) as Hm.
  { intros k. rewrite H2. case_decide as Hk; [done|].
    rewrite (core_dom _ _ (proj1 Hinv)) in Hk. apply eq_None_not_Some in Hk. by rewrite Hk. }
  split; [done|]. split; [done|]. apply inv_update; [done|]. intros k. rewrite Hm. apply orphan_length.
Qed.

Lemma sat_shl_spec e n :
  is_uint 64 e → sat_shl e n = Z.min UINT64_MAX (e * 2 ^ Z.of_nat n).
Proof.
  revert e. induction n as [|n IH]; intros e He.
  { unfold UINT64_MAX. cbn [sat_shl]. rewrite Z.mul_1_r. uint_lia. }
  cbn [sat_shl]. change (Z.shiftr UINT64_MAX 1) with 9223372036854775807.
  rewrite Nat2Z.inj_succ, Z.pow_succ_r by lia.
  pose proof (Z.pow_pos_nonneg 2 (Z.of_nat n)) as Hpos.
  case_if as E.
  - unfold UINT64_MAX. bool_props. uint_lia || (unfold is_uint in *; nia).
  - rewrite Z.shiftl_mul_pow2 by lia. change (2 ^ 1) with 2.
    rewrite wrap_small by (bool_props; uint_lia). rewrite IH by (bool_props; uint_lia).
    f_equal. lia.
Qed.

(** An orphaned frame is due once the clock has passed the clamp. *)
Lemma orphan_expired e now base_pto pto_max :
  pto_max ≤ now → 0 ≤ now → rtx_expired now base_pto pto_max (rtx_orphan e) = true.
Proof.
  intros Hp Hn. unfold rtx_expired, rtx_orphan. cbn [re_last_sent_tick re_attempts].
  assert (rtx_effective_pto base_pto pto_max (re_attempts e) ≤ pto_max).
  { unfold rtx_effective_pto. cbv zeta. case_if as E; blia. }
  lia.
Qed.

Section iteration_proofs.
Context (iter : gmap Z MuxRtxEntry → list (Z * MuxRtxEntry)).
(** An [unordered_map] loop visits every element exactly once, in some order. *)
Hypothesis iter_perm : ∀ m, iter m ≡ₚ map_to_list m.

Lemma elem_of_iter m k e : (k, e) ∈ iter m ↔ m !! k = Some e.
Proof. rewrite iter_perm. apply elem_of_map_to_list. Qed.

Lemma NoDup_iter_keys m : NoDup (iter m).*1.
Proof. rewrite iter_perm. apply NoDup_fst_map_to_list. Qed.

Lemma elem_of_rtx_acked cid ranges m k :
  k ∈ rtx_acked iter cid ranges m ↔
  Rtx_KeyCid k = cid ∧ ack_range_has ranges (Rtx_KeySeq k) = true ∧ is_Some (m !! k).
Proof.
  unfold rtx_acked. rewrite list_elem_of_fmap. split.
  - intros ([k' e]&->&Hin). apply list_elem_of_filter in Hin as [Ht Hin]. cbn [fst] in *.
    apply elem_of_iter in Hin. bool_props. eauto.
  - intros (Hc&Hr&[e He]). exists (k, e). split; [done|]. apply list_elem_of_filter.
    split; [|by apply elem_of_iter]. cbn [fst]. by rewrite Hr, Hc, Z.eqb_refl.
Qed.

Lemma fast_scan_fold cid largest now ft tt k l (acc : list Z * gmap Z MuxRtxEntry) :
  NoDup l.*1 → (∀ k e, (k, e) ∈ l → acc.2 !! k = Some e) →
  (fold_left (fast_scan_step cid largest now ft tt) l acc).2 !! k =
  if decide (k ∈ l.*1)
  then (λ e, if rtx_fast_candidate cid largest now ft tt k e then rtx_set_mark largest e else e)
         <$> acc.2 !! k
  else acc.2 !! k.
Proof.
  revert acc. induction l as [|[k0 e0] l IH]; intros acc Hnd Hacc; [done|].
  rewrite fmap_cons in *. apply NoDup_cons in Hnd as [Hk0 Hnd].
  assert (acc.2 !! k0 = Some e0) as Hk0a by (apply Hacc, elem_of_cons; by left).
  assert (∀ k1, k1 ≠ k0 →
    (fast_scan_step cid largest now ft tt acc (k0, e0)).2 !! k1 = acc.2 !! k1) as Hother.
  { intros k1 Hne. unfold fast_scan_step. case_if as Hcand; [|done].
    cbn [fst snd]. by rewrite lookup_insert_ne by done. }
  cbn [fold_left fst]. rewrite IH; [|done|].
  - destruct (decide (k = k0)) as [->|Hne].
    + rewrite decide_False by done. rewrite decide_True by (apply elem_of_cons; by left). rewrite Hk0a.
      unfold fast_scan_step. cbn [fst snd fmap option_fmap option_map].
      case_if as Hcand; [apply lookup_insert_eq|done].
    + assert ((k ∈ k0 :: l.*1) ↔ k ∈ l.*1) as Hiff by (rewrite elem_of_cons; tauto).
      rewrite Hother by done. by repeat case_decide; try tauto.
  - intros k1 e1 Hin. rewrite Hother; [apply Hacc, elem_of_cons; by right|].
    intros ->. apply Hk0. apply list_elem_of_fmap. by exists (k0, e1).
Qed.

Lemma fast_scan_spec cid largest now ft tt m k :
  (rtx_fast_scan iter cid largest now ft tt m).2 !! k =
  (λ e, if rtx_fast_candidate cid largest now ft tt k e then rtx_set_mark largest e else e) <$> m !! k.
Proof.
  unfold rtx_fast_scan. rewrite fast_scan_fold; cbn [snd].
  - case_decide as Hin; [done|]. destruct (m !! k) as [e|] eqn:E; [|done]. exfalso. apply Hin.
    apply list_elem_of_fmap. exists (k, e). split; [done|]. by apply elem_of_iter.
  - apply NoDup_iter_keys.
  - intros k1 e1. apply elem_of_iter.
Qed.

(** The entries after [Ack]: exactly the covered entries of the acknowledged space are gone, and
    of the others only the fast-retransmit mark can have changed. *)
Lemma Rtx_Ack_entries cap s cid largest ranges now ft tt :
  cap ≤ 2 ^ 63 → rtx_inv cap s →
  rtx_inv cap (Rtx_Ack iter s cid largest ranges now ft tt).2 ∧
  ∀ k, rb_entries (Rtx_Ack iter s cid largest ranges now ft tt).2 !! k =
    if decide (Rtx_KeyCid k = cid ∧ ack_range_has ranges (Rtx_KeySeq k) = true) then None
    else (λ e, if rtx_fast_candidate cid largest now ft tt k e
               then rtx_set_mark largest e else e) <$> rb_entries s !! k.
Proof.
  intros Hcap Hinv. unfold Rtx_Ack.
  destruct (fold_release cap cid now (rtx_acked iter cid ranges (rb_entries s)) (0, 0, s))
    as [H1 H2]; [done|done|apply Forall_forall; intros k Hk; apply elem_of_rtx_acked in Hk; tauto|].
  destruct (fold_left _ _ _) as [[rtt lk] s1]. cbn [snd] in *.
  pose proof (fast_scan_spec cid largest now ft tt (rb_entries s1)) as Hscan.
  destruct (rtx_fast_scan _ _ _ _ _ _ _) as [cands m']. cbn [snd rb_entries] in *. split.
  - apply inv_update; [done|]. intros k. rewrite Hscan.
    destruct (rb_entries s1 !! k) as [e|]; [|reflexivity].
    cbn [fmap option_fmap option_map]. by destruct (rtx_fast_candidate _ _ _ _ _ _ _).
  - intros k. rewrite Hscan, H2. repeat case_decide; try done.
    + exfalso. apply elem_of_rtx_acked in H. tauto.
    + assert (rb_entries s !! k = None) as ->; [|done].
      apply eq_None_not_Some. intros Hs. apply H. apply elem_of_rtx_acked. tauto.
Qed.
(** The erasing loop: the core and the counters of the other spaces survive every step. *)
Lemma erase_fold cap cid l s :
  cap ≤ 2 ^ 63 → NoDup l.*1 → (∀ k e, (k, e) ∈ l → rb_entries s !! k = Some e) →
  rtx_core cap s → (∀ c, c ≠ cid → cid_ok s c) →
  let s' := fold_left (rtx_erase_step cid) l s in
  rtx_core cap s' ∧ (∀ c, c ≠ cid → cid_ok s' c) ∧ rb_cid_bytes s' = rb_cid_bytes s ∧
  ∀ k, rb_entries s' !! k = if decide (k ∈ l.*1 ∧ Rtx_KeyCid k = cid) then None else rb_entries s !! k.
Proof.
  intros Hcap. revert s. induction l as [|[k0 e0] l IH]; intros s Hnd Hl Hcore Hok; cbn [fold_left].
  { do 3 (split; [done|]). intros k. case_decide as H; [|done].
    destruct H as [H _]. by apply not_elem_of_nil in H. }
  rewrite fmap_cons in *. apply NoDup_cons in Hnd as [Hk0 Hnd].
  assert (rb_entries s !! k0 = Some e0) as He0 by (apply Hl, elem_of_cons; by left).
  assert (∀ k e, (k, e) ∈ l → k ≠ k0) as Hne.
  { intros k e Hin ->. apply Hk0, list_elem_of_fmap. by exists (k0, e). }
  assert (rtx_erase_step cid s (k0, e0) =
    if Rtx_KeyCid k0 =? cid
    then mkRtxBuffer (erase_order k0 (rb_order s)) (delete k0 (rb_entries s)) (rb_cid_bytes s)
           (rb_bytes s -[64] rtx_size (re_length e0))
    else s) as -> by done.
  destruct (Rtx_KeyCid k0 =? cid) eqn:Ec; bool_props.
  - match goal with |- context [fold_left _ l ?s1] => destruct (IH s1) as (H1&H2&H3&H4) end; [done| | | |].
    + intros k e Hin. cbn [rb_entries]. rewrite lookup_delete_ne by (intros ->; by eapply Hne).
      apply Hl, elem_of_cons. by right.
    + by apply core_drop.
    + intros c Hc. specialize (Hok c Hc). unfold cid_ok, Rtx_CidBytes in *. cbn [rb_cid_bytes rb_entries].
      rewrite Hok, fmap_delete, (map_sum_delete (cid_test c) _ k0 (re_length e0)).
      * unfold cid_test at 1. rewrite (proj2 (Z.eqb_neq (Rtx_KeyCid k0) c)) by congruence. lia.
      * by rewrite lookup_fmap, He0.
    + do 3 (split; [done|]). intros k. rewrite H4. cbn [rb_entries].
      destruct (decide (k = k0)) as [->|Hk].
      * rewrite lookup_delete_eq. rewrite decide_False by tauto.
        rewrite decide_True; [done|]. split; [apply elem_of_cons; by left|done].
      * rewrite lookup_delete_ne by done. assert (k ∈ k0 :: l.*1 ↔ k ∈ l.*1) by (rewrite elem_of_cons; tauto).
        by repeat case_decide; try tauto.
  - destruct (IH s) as (H1&H2&H3&H4); [done| |done|done|].
    + intros k e Hin. apply Hl, elem_of_cons. by right.
    + do 3 (split; [done|]). intros k. rewrite H4.
      assert (k ∈ k0 :: l.*1 ↔ k = k0 ∨ k ∈ l.*1) by (rewrite elem_of_cons; tauto).
      repeat case_decide; try tauto. by destruct (decide (k = k0)) as [->|]; tauto.
Qed.

Lemma EraseCid_spec cap s cid :
  cap ≤ 2 ^ 63 → rtx_inv cap s →
  rtx_inv cap (Rtx_EraseCid iter s cid) ∧
  ∀ k, rb_entries (Rtx_EraseCid iter s cid) !! k =
    if decide (Rtx_KeyCid k = cid) then None else rb_entries s !! k.
Proof.
  intros Hcap [Hcore Hok]. unfold Rtx_EraseCid.
  match goal with |- context [fold_left _ ?l ?s1] =>
    destruct (erase_fold cap cid l s1) as (H1&H2&H3&H4) end.
  - done.
  - apply NoDup_iter_keys.
  - intros k e. apply elem_of_iter.
  - destruct Hcore. by split.
  - intros c Hc. specialize (Hok c). unfold cid_ok, Rtx_CidBytes in *. cbn [rb_cid_bytes rb_entries].
    by rewrite lookup_delete_ne by done.
  - assert (∀ k, rb_entries (fold_left (rtx_erase_step cid) (iter (rb_entries s))
        (mkRtxBuffer (rb_order s) (rb_entries s) (delete cid (rb_cid_bytes s)) (rb_bytes s))) !! k =
      if decide (Rtx_KeyCid k = cid) then None else rb_entries s !! k) as Hk.
    { intros k. rewrite H4. cbn [rb_entries]. repeat case_decide; try tauto.
      apply eq_None_not_Some. intros [e He]. apply H. split; [|done].
      apply list_elem_of_fmap. exists (k, e). split; [done|]. by apply elem_of_iter. }
    split; [|done]. split; [done|]. intros c. destruct (decide (c = cid)) as [->|Hc]; [|by apply H2].
    unfold cid_ok, Rtx_CidBytes. rewrite H3. cbn [rb_cid_bytes]. rewrite lookup_delete_eq.
    symmetry. apply map_sum_zero. intros k Hs. unfold cid_test. apply Z.eqb_neq. intros Hck.
    rewrite lookup_fmap, Hk, decide_True in Hs by done. by destruct Hs.
Qed.

(** ** Sequences of calls *)

Inductive RtxOp :=
  | OpTrack (cid seq : Z) (buffer : list Z) (length now byte_cap link : Z)
  | OpAck (cid largest : Z) (ranges : list MuxAckRange) (now fast_threshold fast_time_threshold : Z)
  | OpMarkRetransmitted (key now link : Z)
  | OpTakeLinkInflight (link : Z)
  | OpEraseCid (cid : Z)
  | OpClear.

Definition rtx_step (s : MuxRetransmitBuffer) (op : RtxOp) : unit * MuxRetransmitBuffer :=
  ((), match op with
       | OpTrack cid seq buffer len now byte_cap link => (Rtx_Track s cid seq buffer len now byte_cap link).2
       | OpAck cid largest ranges now ft ftt => (Rtx_Ack iter s cid largest ranges now ft ftt).2
       | OpMarkRetransmitted key now link => Rtx_MarkRetransmitted s key now link
       | OpTakeLinkInflight link => (Rtx_TakeLinkInflight s link).2
       | OpEraseCid cid => Rtx_EraseCid iter s cid
       | OpClear => Rtx_Clear
       end).

(** The arguments are of their C++ types, and [Track] is given a byte cap within [cap]. *)
Definition rtx_op_ok (cap : Z) (op : RtxOp) : Prop :=
  match op with
  | OpTrack cid seq _ len _ byte_cap _ =>
      is_uint 32 cid ∧ is_uint 32 seq ∧ 0 ≤ len < 2 ^ 31 ∧ 0 < byte_cap ≤ cap
  | _ => True
  end.

Lemma inv_clear cap : 0 ≤ cap → rtx_inv cap Rtx_Clear.
Proof.
  intros Hcap. unfold Rtx_Clear. split.
  - split; cbn [rb_order rb_entries rb_bytes].
    + constructor.
    + intros k. rewrite lookup_empty. split; [by intros ?%not_elem_of_nil|by intros [??]].
    + apply map_Forall_empty.
    + by rewrite fmap_empty, map_sum_empty.
    + done.
  - intros c. unfold cid_ok, Rtx_CidBytes. cbn [rb_cid_bytes rb_entries].
    by rewrite lookup_empty, fmap_empty, map_sum_empty.
Qed.

Lemma rtx_step_invariant cap :
  0 ≤ cap ≤ 2 ^ 63 → StepInvariant rtx_step (rtx_op_ok cap) (rtx_inv cap).
Proof.
  intros Hcap s op Hv Hs. destruct op; cbn [rtx_step snd rtx_op_ok] in *.
  - destruct Hv as (?&?&?&?), Hcap. by apply inv_track.
  - destruct Hcap. by apply Rtx_Ack_entries.
  - by apply inv_mark.
  - unfold Rtx_TakeLinkInflight. destruct (link =? 0) eqn:E; [done|].
    pose proof (TakeLinkInflight_spec cap s link Hs ltac:(blia)) as (_&_&H).
    unfold Rtx_TakeLinkInflight in H. by rewrite E in H.
  - destruct Hcap. by apply EraseCid_spec.
  - destruct Hcap. by apply inv_clear.
Qed.
(** What the release loop reports: the first eligible sample. *)
Lemma fold_release_sample cid now keys acc :
  let r := fold_left (rtx_release cid now) keys acc in
  r.1 = acc.1 ∨
  ∃ k e, k ∈ keys ∧ rb_entries acc.2 !! k = Some e ∧ re_attempts e = 0 ∧ re_first_sent_tick e ≤ now ∧
         r.1 = (now - re_first_sent_tick e, re_orig_link_id e).
Proof.
  revert acc. induction keys as [|k0 keys IH]; intros acc; [by left|]. cbn [fold_left]. cbv zeta in *.
  assert (∀ k e, rb_entries (rtx_release cid now acc k0).2 !! k = Some e →
    rb_entries acc.2 !! k = Some e) as Hsub.
  { intros k e. unfold rtx_release. destruct acc as [[rtt lk] s].
    destruct (rb_entries s !! k0) as [e0|]; [|done]. cbn [snd rb_entries].
    intros [_ H]%lookup_delete_Some. done. }
  destruct (IH (rtx_release cid now acc k0)) as [->|(k&e&Hk&He&Ha&Ht&Hr)].
  - unfold rtx_release. destruct acc as [[rtt lk] s]. cbn [fst snd].
    destruct (rb_entries s !! k0) as [e0|] eqn:E0; [|by left]. cbn [fst].
    case_if as Ht; [|by left]. right. exists k0, e0. bool_props.
    split; [apply elem_of_cons; by left|]. repeat split; done || lia.
  - right. exists k, e. split; [apply elem_of_cons; by right|]. eauto.
Qed.

Lemma ack_range_has_covers ranges x : ack_range_has ranges x = true ↔ covers ranges x.
Proof.
  unfold ack_range_has, covers, range_covers. rewrite existsb_exists, Exists_exists.
  split; intros (r&Hin&Hr); exists r; rewrite ?list_elem_of_In in *; split; try done; lia.
Qed.

(** A block that keeps the receiver's promise releases only received frames of its stream. *)
Lemma ack_release_sound received b cap s k e now ft ftt `{!AckReports received b} :
  cap ≤ 2 ^ 63 → rtx_inv cap s → rb_entries s !! k = Some e →
  rb_entries (Rtx_Ack iter s (ab_connection_id b) (ab_largest b) (ab_ranges b) now ft ftt).2 !! k = None →
  Rtx_KeyCid k = ab_connection_id b ∧ received (Rtx_KeySeq k).
Proof.
  intros Hcap Hinv He. destruct (Rtx_Ack_entries cap s (ab_connection_id b) (ab_largest b) (ab_ranges b) now ft ftt)
    as [_ Hk]; [done..|]. rewrite Hk. case_decide as Hd; [|by rewrite He].
  intros _. destruct Hd as [-> Hr]. split; [done|]. by apply reports_sound, ack_range_has_covers.
Qed.

(** Whatever sequence of tracking, acknowledging, retransmitting, link takeover, stream
    erasure and clearing the session performs, the byte accounting is exact: the order list
    names every retained frame once, [bytes_] is the total length of the retained frames and
    within the cap, and each stream's counter is the total of its own frames. *)
Theorem rtx_accounting cap ops :
  0 ≤ cap ≤ 2 ^ 63 → Forall (rtx_op_ok cap) ops →
  let s := exec rtx_step Rtx_Clear ops in
  NoDup (rb_order s) ∧ (∀ k, k ∈ rb_order s ↔ is_Some (rb_entries s !! k)) ∧
  rb_bytes s = map_sum (λ _, true) (re_length <$> rb_entries s) ∧ 0 ≤ rb_bytes s ≤ cap ∧
  ∀ c, Rtx_CidBytes s c = map_sum (λ k, Rtx_KeyCid k =? c) (re_length <$> rb_entries s).
Proof.
  intros Hcap Hops.
  assert (rtx_inv cap (exec rtx_step Rtx_Clear ops)) as [Hc Hcid].
  { pose proof (rtx_step_invariant cap Hcap). destruct Hcap.
    apply (exec_invariant rtx_step (rtx_op_ok cap) (rtx_inv cap)); [by apply inv_clear|done]. }
  pose proof (core_bytes_range _ _ Hc). destruct Hc. eauto 10.
Qed.

(** An acknowledgement removes exactly the retained frames of its stream whose sequence
    lies in one of its ranges; every other frame stays, with its payload, length, ticks,
    attempt count and links unchanged; and a non-zero RTT sample comes from a removed frame
    that was never retransmitted, together with the link that frame was first sent on. *)
Theorem rtx_ack_exact cap s cid largest ranges now ft ftt :
  cap ≤ 2 ^ 63 → rtx_inv cap s →
  let '(rtt, link, cands, s') := Rtx_Ack iter s cid largest ranges now ft ftt in
  (∀ k, Rtx_KeyCid k = cid → ack_range_has ranges (Rtx_KeySeq k) = true → rb_entries s' !! k = None) ∧
  (∀ k e, ¬ (Rtx_KeyCid k = cid ∧ ack_range_has ranges (Rtx_KeySeq k) = true) →
     rb_entries s !! k = Some e →
     rb_entries s' !! k = Some e ∨ rb_entries s' !! k = Some (rtx_set_mark largest e)) ∧
  (∀ k, rb_entries s !! k = None → rb_entries s' !! k = None) ∧
  ((rtt = 0 ∧ link = 0) ∨
   ∃ k e, rb_entries s !! k = Some e ∧ rb_entries s' !! k = None ∧ re_attempts e = 0 ∧
     rtt = now - re_first_sent_tick e ∧ link = re_orig_link_id e).
Proof.
  intros Hcap Hinv. pose proof (Rtx_Ack_entries cap s cid largest ranges now ft ftt Hcap Hinv) as [_ Hk].
  pose proof (fold_release_sample cid now (rtx_acked iter cid ranges (rb_entries s)) (0, 0, s)) as Hsample.
  assert ((Rtx_Ack iter s cid largest ranges now ft ftt).1.1 =
    (fold_left (rtx_release cid now) (rtx_acked iter cid ranges (rb_entries s)) (0, 0, s)).1) as Hfst.
  { unfold Rtx_Ack. destruct (fold_left _ _ _) as [[??]?]. by destruct (rtx_fast_scan _ _ _ _ _ _ _). }
  cbv zeta in Hsample. rewrite <- Hfst in Hsample. clear Hfst.
  destruct (Rtx_Ack iter s cid largest ranges now ft ftt) as [[[rtt link] cands] s'].
  cbn [fst snd] in *. split; [|split; [|split]].
  - intros k Hc Hr. by rewrite Hk, decide_True.
  - intros k e Hn He. rewrite Hk, decide_False, He by done. cbn. destruct (rtx_fast_candidate _ _ _ _ _ _ _); tauto.
  - intros k He. rewrite Hk, He. by case_decide.
  - destruct Hsample as [[= -> ->]|(k&e&Hin&He&Ha&_&[= -> ->])]; [by left|]. right. exists k, e.
    apply elem_of_rtx_acked in Hin as (?&?&_). split; [done|]. split; [|done]. by rewrite Hk, decide_True.
Qed.

(** What [CollectExpired] has gathered over a prefix of the iteration. *)
Lemma collect_fold now base_pto pto_max max_count l acc :
  (length acc ≤ max_count)%nat →
  let r := fold_left (collect_step now base_pto pto_max max_count) l acc in
  r = take max_count (acc ++ (filter (λ kv, rtx_expired now base_pto pto_max kv.2 = true) l).*1).
Proof.
  cbv zeta. revert acc. induction l as [|[k e] l IH]; intros acc Hacc; cbn [fold_left].
  { rewrite filter_nil. cbn. by rewrite app_nil_r, take_ge. }
  unfold collect_step at 2. cbn [fst snd]. rewrite filter_cons. cbn [snd].
  destruct (decide (max_count ≤ length acc)%nat) as [Hfull|Hfull].
  - rewrite IH by done. rewrite !take_app_le by lia. done.
  - destruct (rtx_expired now base_pto pto_max e) eqn:E.
    + rewrite decide_True by done. rewrite fmap_cons, IH by (rewrite length_app; simpl; lia).
      by rewrite <- (assoc_L (++)).
    + by rewrite decide_False, IH by done.
Qed.

Lemma elem_of_expired m now base_pto pto_max k :
  k ∈ (filter (λ kv, rtx_expired now base_pto pto_max kv.2 = true) (iter m)).*1 ↔
  ∃ e, m !! k = Some e ∧ rtx_expired now base_pto pto_max e = true.
Proof.
  rewrite list_elem_of_fmap. split.
  - intros ([k' e]&->&[Hx Hin]%list_elem_of_filter). apply elem_of_iter in Hin. eauto.
  - intros (e&He&Hx). exists (k, e). split; [done|]. apply list_elem_of_filter.
    split; [done|]. by apply elem_of_iter.
Qed.

(** Collecting expired frames returns at most [max_count] distinct retained frames, each
    past its backed-off timeout, and misses none when the budget is not exhausted. *)
Theorem rtx_collect_expired s now base_pto pto_max max_count :
  let r := Rtx_CollectExpired iter s now base_pto pto_max max_count [] in
  let due k := ∃ e, rb_entries s !! k = Some e ∧ rtx_expired now base_pto pto_max e = true in
  NoDup r ∧ (length r ≤ max_count)%nat ∧ (∀ k, k ∈ r → due k) ∧
  ((length r < max_count)%nat → ∀ k, due k → k ∈ r).
Proof.
  cbv zeta. unfold Rtx_CollectExpired. rewrite collect_fold by (simpl; lia). cbn [app].
  set (l := (filter _ (iter (rb_entries s))).*1).
  assert (NoDup l) as Hnd.
  { apply NoDup_fmap_fst.
    - intros k e1 e2 H1 H2. apply list_elem_of_filter in H1 as [_ H1], H2 as [_ H2].
      apply elem_of_iter in H1, H2. congruence.
    - apply NoDup_filter. eapply NoDup_fmap_1, NoDup_iter_keys. }
  split; [eapply sublist_NoDup; [exact Hnd|apply sublist_take]|].
  split; [rewrite length_take; lia|]. split.
  - intros k (i&Hi&_)%elem_of_take. by eapply elem_of_expired, list_elem_of_lookup_2.
  - intros Hlen k Hk. rewrite length_take in Hlen. rewrite take_ge by lia. by apply elem_of_expired.
Qed.

(** C10: end to end, the sender releases only frames the receiver has: when the receiver's
    tracker over [calls] is put in an ACK block, encoded, decoded by the sender and applied,
    the frame goes through and every frame it releases belongs to the stream and was received. *)
Theorem ack_releases_only_received cap s cid calls m max_blocks max_ranges frame_cap now ft ftt :
  cap ≤ 2 ^ 63 → rtx_inv cap s → is_uint 32 cid → calls_ok calls → ack_receive calls ≠ [] →
  (0 < m ≤ 255)%nat → (m ≤ max_ranges)%nat → (0 < max_blocks)%nat →
  let b := mkAckBlock cid (AckTracker_largest (ack_receive calls)) (ack_receive calls) in
  (ack_frame_need m [b] ≤ frame_cap)%nat →
  ∃ p b', EncodeMuxAckFrame [b] frame_cap m = Some p ∧
    DecodeMuxAckFrame p max_blocks max_ranges = Some [b'] ∧
    ∀ k e, rb_entries s !! k = Some e →
      rb_entries (Rtx_Ack iter s (ab_connection_id b') (ab_largest b') (ab_ranges b') now ft ftt).2 !! k = None →
      Rtx_KeyCid k = cid ∧ Rtx_KeySeq k ∈ calls.*1.
Proof.
  intros Hcap Hinv Hc Hok Hne Hm Hmr Hmb b Hneed.
  pose proof (tracker_reports cid calls Hc Hok Hne) as Hb. fold b in Hb.
  destruct (ack_frame_send [b] frame_cap m max_blocks max_ranges) as (p&Hp1&Hp2);
    [constructor; [apply Hb|constructor]|simpl; lia|simpl; lia|done|done|done|].
  exists p, (newest_ranges m b). split; [done|]. split; [done|]. intros k e He Hgone.
  assert (TCEq (0 <? m)%nat true) by (apply TCEq_eq, Nat.ltb_lt; lia).
  by apply (ack_release_sound (λ x, x ∈ calls.*1) (newest_ranges m b) cap s k e now ft ftt).
Qed.
End iteration_proofs.

(** The backed-off timeout is the base timeout doubled [min(attempts, 5)] times, saturated
    at the 64-bit maximum and clamped to [pto_max]: the loop neither wraps nor exceeds its cap. *)
Theorem rtx_backoff base_pto pto_max attempts :
  is_uint 64 base_pto → is_uint 64 pto_max → is_uint 32 attempts →
  rtx_effective_pto base_pto pto_max attempts =
  Z.min pto_max (Z.min UINT64_MAX (base_pto * 2 ^ Z.min attempts 5)).
Proof.
  intros Hb Hp Ha. unfold rtx_effective_pto. cbv zeta.
  assert ((if 5 <? attempts then 5 else attempts) = Z.min attempts 5) as -> by (case_if as E; blia).
  rewrite sat_shl_spec, Z2Nat.id by (unfold is_uint in *; lia || done). case_if as E; blia.
Qed.

(** Link takeover hands each frame over exactly once: it returns the frames whose last
    transmission went out on the dead link, in tracking order; all of them are left unassigned
    and due as soon as the clock reaches the clamp; other frames are untouched; and a second
    takeover of the same link returns nothing. *)
Theorem rtx_takeover_once cap s link :
  rtx_inv cap s → link ≠ 0 →
  let '(out, s') := Rtx_TakeLinkInflight s link in
  NoDup out ∧
  (∀ k, k ∈ out ↔ ∃ e, rb_entries s !! k = Some e ∧ re_last_link_id e = link) ∧
  (∀ k, k ∈ out → ∃ e, rb_entries s' !! k = Some e ∧ re_last_link_id e = 0 ∧
     ∀ now base_pto pto_max, pto_max ≤ now → 0 ≤ now → rtx_expired now base_pto pto_max e = true) ∧
  (∀ k, k ∉ out → rb_entries s' !! k = rb_entries s !! k) ∧
  (Rtx_TakeLinkInflight s' link).1 = [].
Proof.
  intros Hinv Hl. pose proof (TakeLinkInflight_spec cap s link Hinv Hl) as (Hout&Hent&Hinv').
  destruct (Rtx_TakeLinkInflight s link) as [out s'] eqn:Et. cbn [fst snd] in *.
  assert (∀ k, k ∈ out ↔ ∃ e, rb_entries s !! k = Some e ∧ re_last_link_id e = link) as Hin.
  { intros k. rewrite Hout, list_elem_of_filter, (core_dom _ _ (proj1 Hinv)), fmap_Some. split.
    - intros [(e&He&Heq) _]. exists e. split; [done|]. lia.
    - intros (e&He&Heq). split; [|by eexists]. exists e. split; [done|]. lia. }
  split; [rewrite Hout; apply NoDup_filter, Hinv|]. split; [done|]. split; [|split].
  - intros k Hk. apply Hin in Hk as (e&He&Heq). exists (rtx_orphan e).
    rewrite Hent, He. cbn [fmap option_fmap option_map]. rewrite (proj2 (Z.eqb_eq _ _) Heq).
    split; [done|]. split; [done|]. intros now bp pm Hpm Hnow. by apply orphan_expired.
  - intros k Hk. rewrite Hent. destruct (rb_entries s !! k) as [e|] eqn:He; [|done]. cbn [fmap option_fmap option_map].
    destruct (re_last_link_id e =? link) eqn:E; [|done]. destruct Hk. apply Hin. exists e. split; [done|]. lia.
  - pose proof (TakeLinkInflight_spec cap s' link Hinv' Hl) as (->&_&_).
    apply list_filter_none. intros k. rewrite Hent. destruct (rb_entries s !! k) as [e|]; [|done].
    cbn [fmap option_fmap option_map]. destruct (re_last_link_id e =? link) eqn:E;
      cbn [rtx_orphan re_last_link_id fmap option_fmap option_map];
      intros H; apply (inj Some) in H; blia.
Qed.

(** ** Concrete runs *)

Definition rtx_demo_ops : list RtxOp :=
  [OpTrack 1 5 [10; 11] 2 100 1000 3; OpTrack 1 6 [12] 1 110 1000 3; OpTrack 2 5 [13; 14; 15] 3 120 1000 4].

Definition rtx_demo : MuxRetransmitBuffer := exec (rtx_step map_to_list) Rtx_Clear rtx_demo_ops.

Lemma rtx_demo_ok : Forall (rtx_op_ok 1000) rtx_demo_ops.
Proof. repeat constructor; cbn; unfold is_uint; lia. Qed.

Lemma rtx_demo_inv : rtx_inv 1000 rtx_demo.
Proof.
  pose proof (rtx_step_invariant map_to_list (λ m, Permutation_refl _) 1000 ltac:(lia)).
  apply (exec_invariant (rtx_step map_to_list) (rtx_op_ok 1000) (rtx_inv 1000));
    [by apply inv_clear|apply rtx_demo_ok].
Qed.

Lemma rtx_accounting_witness :
  rb_bytes rtx_demo = 6 ∧ Rtx_CidBytes rtx_demo 1 = 3 ∧
  rb_bytes rtx_demo = map_sum (λ _, true) (re_length <$> rb_entries rtx_demo).
Proof.
  split; [vm_compute; reflexivity|]. split; [vm_compute; reflexivity|].
  apply (rtx_accounting map_to_list (λ m, Permutation_refl _) 1000 rtx_demo_ops); [lia|apply rtx_demo_ok].
Defined.

Lemma rtx_ack_exact_witness :
  let s' := (Rtx_Ack map_to_list rtx_demo 1 5 [mkAckRange 0 5] 150 3 0).2 in
  rb_entries s' !! Rtx_Key 1 5 = None ∧ rb_order s' = [Rtx_Key 1 6; Rtx_Key 2 5].
Proof.
  split; [|vm_compute; reflexivity].
  pose proof (rtx_ack_exact map_to_list (λ m, Permutation_refl _) 1000 rtx_demo 1 5 [mkAckRange 0 5]
    150 3 0 ltac:(lia) rtx_demo_inv) as H.
  destruct (Rtx_Ack _ _ _ _ _ _ _ _) as [[[rtt link] cands] s']. apply (proj1 H); reflexivity.
Defined.

Lemma rtx_collect_expired_witness :
  NoDup (Rtx_CollectExpired map_to_list rtx_demo 115 15 1000 8 []) ∧
  Rtx_CollectExpired map_to_list rtx_demo 115 15 1000 8 [] = [Rtx_Key 1 5].
Proof.
  split; [|vm_compute; reflexivity].
  apply (rtx_collect_expired map_to_list (λ m, Permutation_refl _) rtx_demo 115 15 1000 8).
Defined.

Lemma ack_releases_only_received_witness :
  ∃ p b', EncodeMuxAckFrame [mkAckBlock 1 5 [mkAckRange 5 5]] 64 4 = Some p ∧
    DecodeMuxAckFrame p 4 4 = Some [b'] ∧
    ∀ k e, rb_entries rtx_demo !! k = Some e →
      rb_entries (Rtx_Ack map_to_list rtx_demo (ab_connection_id b') (ab_largest b') (ab_ranges b')
        150 3 0).2 !! k = None →
      Rtx_KeyCid k = 1 ∧ Rtx_KeySeq k ∈ [(5, 4%nat)].*1.
Proof.
  refine (ack_releases_only_received map_to_list (λ m, Permutation_refl _) 1000 rtx_demo 1
    [(5, 4%nat)] 4 4 4 64 150 3 0 ltac:(lia) rtx_demo_inv _ _ _ _ _ _ _);
    try lia; try (unfold is_uint; lia); try done.
  - repeat constructor; unfold is_uint; simpl; lia.
  - vm_compute. lia.
Defined.

Lemma rtx_backoff_witness : rtx_effective_pto 200 60000 3 = Z.min 60000 (Z.min UINT64_MAX (200 * 2 ^ Z.min 3 5)).
Proof. apply (rtx_backoff 200 60000 3); unfold is_uint; lia. Defined.

Lemma rtx_takeover_once_witness :
  (Rtx_TakeLinkInflight rtx_demo 3).1 = [Rtx_Key 1 5; Rtx_Key 1 6] ∧
  (Rtx_TakeLinkInflight (Rtx_TakeLinkInflight rtx_demo 3).2 3).1 = [].
Proof.
  split; [vm_compute; reflexivity|].
  pose proof (rtx_takeover_once 1000 rtx_demo 3 rtx_demo_inv ltac:(lia)) as H.
  destruct (Rtx_TakeLinkInflight rtx_demo 3) as [out s']. apply H.
Defined.

(** The loop stops at [max_count] in iteration order, and nothing ties that order to age: with
    an order that visits the younger frame first, the older of two expired frames is left out. *)
Example collect_not_oldest_first :
  let iter := λ m : gmap Z MuxRtxEntry, reverse (map_to_list m) in
  let s := exec (rtx_step iter) Rtx_Clear
    [OpTrack 0 1 [] 1 10 1000 1; OpTrack 0 2 [] 1 500 1000 1] in
  Rtx_CollectExpired map_to_list s 1000 100 60000 1 [] ≠ Rtx_CollectExpired iter s 1000 100 60000 1 [].
Proof. vm_compute. congruence. Qed.
