(* ===== verification/MuxFlow.v ===== *)
(** Per-flow receive buffering and the send and receive windows of the multiplexer
    ([src/ppp/app/mux/MuxFlowReorderBuffer.h], [MuxFlowContextAdmission.h],
    [MuxRxBackpressure.h], [MuxTxBackpressure.h]).

    The reorder buffer's [std::map] is a finite map keyed by sequence number; its payload type
    is the parameter [T].  [std::size_t] quantities are 64-bit. *)

From S2P Require Import Prelude MuxAck MuxRetransmit.

(** ** Reorder buffer *)

Record ReorderEntry (T : Type) := mkReorderEntry { ro_value : T; ro_bytes : Z }.
Arguments mkReorderEntry {T}.
Arguments ro_value {T}.
Arguments ro_bytes {T}.

Record MuxFlowReorderBuffer (T : Type) := mkReorder {
  fr_packets : gmap Z (ReorderEntry T);
  fr_buffered_bytes : Z
}.
Arguments mkReorder {T}.
Arguments fr_packets {T}.
Arguments fr_buffered_bytes {T}.

(** A sequence number counts as future when its forward distance is in [1, 2^31). *)
Definition is_future (reference sequence : Z) : bool :=
  let distance := sequence -[32] reference in
  negb ((distance =? 0) || (2147483648 <=? distance)).

Definition Reorder_TryInsert {T} (b : MuxFlowReorderBuffer T) (sequence reference : Z) (value : T)
    (bytes byte_cap entry_cap : Z) : bool * MuxFlowReorderBuffer T :=
  if negb (is_future reference sequence)
     || bool_decide (is_Some (fr_packets b !! sequence))
     || (entry_cap <=? Z.of_nat (size (fr_packets b)))
     || (byte_cap <? bytes) || ((byte_cap - bytes) <? fr_buffered_bytes b)
  then (false, b)
  else (true, mkReorder (<[sequence := mkReorderEntry value bytes]> (fr_packets b))
                        (fr_buffered_bytes b +[64] bytes)).

Definition Reorder_Take {T} (b : MuxFlowReorderBuffer T) (sequence : Z)
    : option T * MuxFlowReorderBuffer T :=
  match fr_packets b !! sequence with
  | None => (None, b)
  | Some e => (Some (ro_value e),
      mkReorder (delete sequence (fr_packets b)) (fr_buffered_bytes b -[64] ro_bytes e))
  end.

(** [std::map::begin] and [std::map::lower_bound]: the least key, and the least key not below [x]. *)
Fixpoint min_list (l : list Z) : option Z :=
  match l with
  | [] => None
  | k :: l => Some (match min_list l with None => k | Some k' => Z.min k k' end)
  end.

Definition map_begin {A} (m : gmap Z A) : option Z := min_list (map_to_list m).*1.
Definition map_lower_bound {A} (m : gmap Z A) (x : Z) : option Z :=
  min_list (filter (λ k, x ≤ k) (map_to_list m).*1).

Definition Reorder_FirstSequence {T} (b : MuxFlowReorderBuffer T) (reference : Z) : option Z :=
  let packet := match map_lower_bound (fr_packets b) (reference +[32] 1) with
                | Some k => Some k
                | None => map_begin (fr_packets b)
                end in
  match packet with
  | None => None
  | Some k => if is_future reference k then Some k else None
  end.

(** ** Flow context admission *)

Inductive FlowContextAdmission := AllowExisting | AllowCreate | RejectUnknown | RejectCap | RejectZero.

Definition AdmitFlowContext (connection_id : Z) (already_tracked socket_exists : bool)
    (current_contexts context_cap : Z) : FlowContextAdmission :=
  if connection_id =? 0 then RejectZero
  else if already_tracked then AllowExisting
  else if negb socket_exists then RejectUnknown
  else if (0 <? context_cap) && (context_cap <=? current_contexts) then RejectCap
  else AllowCreate.

(** ** Receive-side budget and gap clock *)

Inductive MuxReorderAdmit := ReorderAccept | ReorderAcceptAndPause | ReorderReject.

Definition MuxReorderHardCap (soft_cap hard_factor : Z) : Z :=
  let factor := if hard_factor <? 1 then 1 else hard_factor in
  if SIZE_MAX / factor <? soft_cap then SIZE_MAX else soft_cap * factor.

Definition AdmitReorderBytes (buffered incoming soft_cap hard_factor : Z) : MuxReorderAdmit :=
  if soft_cap =? 0 then ReorderAccept
  else
    let total := if SIZE_MAX - buffered <? incoming then SIZE_MAX else buffered + incoming in
    if total <=? soft_cap then ReorderAccept
    else if total <=? MuxReorderHardCap soft_cap hard_factor then ReorderAcceptAndPause
    else ReorderReject.

Definition MuxReorderShouldResume (buffered soft_cap : Z) : bool :=
  (soft_cap =? 0) || (buffered <=? soft_cap / 2).

Definition MuxPauseWouldStallAll (paused live : Z) : bool := (live =? 0) || (live <=? paused).

Definition MuxGapClockOnBuffered (since now : Z) : Z := if since =? 0 then now else since.

Definition MuxGapClockAfterAdvance (now : Z) (still_buffered : bool) : Z :=
  if still_buffered then now else 0.

Definition MuxGapExpired (since now timeout : Z) : bool :=
  negb (since =? 0) && (since <=? now) && (timeout <? (now - since)).

(** ** Send-side window *)

Inductive MuxTxAdmit := TxSend | TxHoldSession | TxHoldFlow.

Definition MuxTxHardCap (window hard_factor : Z) : Z :=
  let factor := if hard_factor <? 1 then 1 else hard_factor in
  if SIZE_MAX / factor <? window then SIZE_MAX else window * factor.

Definition MuxTxFitsWindow (inflight incoming window : Z) : bool :=
  if (window =? 0) || (inflight =? 0) then true
  else (incoming <=? window) && (inflight <=? (window - incoming)).

Definition AdmitTxFrame (session_inflight flow_inflight incoming session_window flow_window : Z)
    : MuxTxAdmit :=
  if incoming =? 0 then TxSend
  else if negb (MuxTxFitsWindow flow_inflight incoming flow_window) then TxHoldFlow
  else if negb (MuxTxFitsWindow session_inflight incoming session_window) then TxHoldSession
  else TxSend.

Definition MuxTxOverHardCap (inflight incoming window hard_factor : Z) : bool :=
  if window =? 0 then false
  else
    let hard := MuxTxHardCap window hard_factor in
    (hard <? incoming) || ((hard - incoming) <? inflight).

Definition MuxTxShouldCoupleCompletion (session_frames session_high_water : Z) (flow_parked : bool)
    (flow_frames flow_bytes flow_max_frames flow_max_bytes : Z) : bool :=
  if (0 <? session_high_water) && (session_high_water <=? session_frames) then true
  else if flow_parked then true
  else if (0 <? flow_max_frames) && (flow_max_frames / 2 <=? flow_frames) then true
  else (0 <? flow_max_bytes) && (flow_max_bytes / 2 <=? flow_bytes).

Record MuxLinkLoad := mkLinkLoad {
  ll_queued_bytes : Z;
  ll_srtt_ms : Z;
  ll_has_rtt : bool;
  ll_has_credit : bool
}.

Definition kMuxRttTieMarginMs : Z := 10.

(** Whether the candidate [l] replaces the current best [b]. *)
Definition load_beats (l b : MuxLinkLoad) : bool :=
  if negb (ll_queued_bytes l =? ll_queued_bytes b) then ll_queued_bytes l <? ll_queued_bytes b
  else ll_has_rtt l && ll_has_rtt b && ((ll_srtt_ms l +[64] kMuxRttTieMarginMs) <? ll_srtt_ms b).

(** The loop from index [i] on, with the best so far as an index and its load. *)
Fixpoint pick_from (best : option (nat * MuxLinkLoad)) (i : nat) (links : list MuxLinkLoad)
    : option (nat * MuxLinkLoad) :=
  match links with
  | [] => best
  | l :: links =>
      let best' :=
        if negb (ll_has_credit l) then best
        else match best with
             | None => Some (i, l)
             | Some (_, b) => if load_beats l b then Some (i, l) else best
             end in
      pick_from best' (S i) links
  end.

(** The index, or -1. *)
Definition MuxPickLeastLoaded (links : list MuxLinkLoad) : Z :=
  match pick_from None 0 links with Some (i, _) => Z.of_nat i | None => -1 end.

(** [int] arithmetic: defined while [payload * 2] fits 31 bits. *)
Definition MuxPushIsZeroCopy (payload buffer min_payload : Z) : bool :=
  (min_payload <=? payload) && (0 <? payload) && (buffer <=? payload * 2).

(** ** Ordered-map lookups *)

Lemma min_list_spec l :
  match min_list l with
  | None => l = []
  | Some k => k ∈ l ∧ ∀ j, j ∈ l → k ≤ j
  end.
Proof.
  induction l as [|k l IH]; cbn [min_list]; [done|].
  destruct (min_list l) as [k'|] eqn:E.
  - destruct IH as [Hin Hle]. split.
    + destruct (Z.min_spec k k') as [[_ ->]|[_ ->]]; apply elem_of_cons; [by left|by right].
    + intros j [->|Hj]%elem_of_cons; [lia|]. specialize (Hle j Hj). lia.
  - subst. split; [apply elem_of_cons; by left|].
    intros j [->|Hj]%elem_of_cons; [lia|]. by apply not_elem_of_nil in Hj.
Qed.

Lemma elem_of_keys {A} (m : gmap Z A) k : k ∈ (map_to_list m).*1 ↔ is_Some (m !! k).
Proof.
  rewrite list_elem_of_fmap. split.
  - intros ([k' a]&->&Hin). apply elem_of_map_to_list in Hin. by eexists.
  - intros [a Ha]. exists (k, a). split; [done|]. by apply elem_of_map_to_list.
Qed.

Lemma map_lower_bound_spec {A} (m : gmap Z A) x :
  match map_lower_bound m x with
  | None => ∀ k, is_Some (m !! k) → k < x
  | Some k => is_Some (m !! k) ∧ x ≤ k ∧ ∀ j, is_Some (m !! j) → x ≤ j → k ≤ j
  end.
Proof.
  unfold map_lower_bound. set (l := filter (λ k, x ≤ k) (map_to_list m).*1).
  assert (∀ k, k ∈ l ↔ x ≤ k ∧ is_Some (m !! k)) as Hl
    by (intros k; unfold l; by rewrite list_elem_of_filter, elem_of_keys).
  pose proof (min_list_spec l) as H. destruct (min_list l) as [k|].
  - destruct H as [Hk Hle]. apply Hl in Hk as [? ?]. split; [done|]. split; [done|].
    intros j Hj Hx. apply Hle, Hl. done.
  - intros k Hk. destruct (Z.lt_ge_cases k x); [done|]. exfalso.
    apply (not_elem_of_nil k). rewrite <- H. by apply Hl.
Qed.

Lemma map_begin_spec {A} (m : gmap Z A) :
  match map_begin m with
  | None => ∀ k, m !! k = None
  | Some k => is_Some (m !! k) ∧ ∀ j, is_Some (m !! j) → k ≤ j
  end.
Proof.
  unfold map_begin. pose proof (min_list_spec (map_to_list m).*1) as H.
  destruct (min_list _) as [k|].
  - destruct H as [Hk Hle]. apply elem_of_keys in Hk. split; [done|]. intros j Hj. by apply Hle, elem_of_keys.
  - intros k. apply eq_None_not_Some. intros Hk%elem_of_keys. rewrite H in Hk. by apply not_elem_of_nil in Hk.
Qed.

(** Forward distance on the 32-bit circle. *)
Definition fwd (reference k : Z) : Z := k -[32] reference.

Lemma fwd_cases r k :
  is_uint 32 r → is_uint 32 k →
  (r ≤ k ∧ fwd r k = k - r) ∨ (k < r ∧ fwd r k = k - r + 4294967296).
Proof.
  intros. unfold fwd. destruct (Z.le_gt_cases r k); [left|right]; (split; [done|]).
  - by apply wrap_sub_ge.
  - by apply wrap_sub_lt.
Qed.

Lemma is_future_spec r k :
  is_uint 32 r → is_uint 32 k → is_future r k = true ↔ 0 < fwd r k < 2147483648.
Proof.
  intros Hr Hk. pose proof (wrap_range 32 (k - r) ltac:(lia)) as Hw. unfold is_future, fwd.
  unfold is_uint in *. lia.
Qed.

Section reorder.
Context {T : Type}.
Implicit Types b : MuxFlowReorderBuffer T.

Abbreviation entry_bytes := (fmap (M := gmap Z) ro_bytes).

Record reorder_inv (byte_cap entry_cap : Z) (b : MuxFlowReorderBuffer T) : Prop := {
  ro_keys : map_Forall (λ k e, is_uint 32 k ∧ 0 ≤ ro_bytes e) (fr_packets b);
  ro_sum : fr_buffered_bytes b = map_sum (λ _, true) (entry_bytes (fr_packets b));
  ro_bytes_cap : fr_buffered_bytes b ≤ byte_cap;
  ro_entry_cap : Z.of_nat (size (fr_packets b)) ≤ entry_cap
}.

Lemma ro_nonneg bc ec b : reorder_inv bc ec b → map_Forall (λ _ v, 0 ≤ v) (entry_bytes (fr_packets b)).
Proof.
  intros H k v. rewrite lookup_fmap. intros (e&He&->)%fmap_Some. by destruct (ro_keys _ _ _ H k e He).
Qed.

Lemma ro_range bc ec b : reorder_inv bc ec b → 0 ≤ fr_buffered_bytes b.
Proof. intros H. rewrite (ro_sum _ _ _ H). eapply map_sum_nonneg, ro_nonneg, H. Qed.

Lemma TryInsert_true b q r v n bc ec :
  (Reorder_TryInsert b q r v n bc ec).1 = true ↔
  is_future r q = true ∧ fr_packets b !! q = None ∧ Z.of_nat (size (fr_packets b)) < ec ∧
  n ≤ bc ∧ fr_buffered_bytes b ≤ bc - n.
Proof.
  unfold Reorder_TryInsert. case_if as E; cbn [fst].
  - split; [done|]. intros (Hf&Hn&?&?&?). rewrite Hf, Hn in E. rewrite bool_decide_eq_false_2 in E by (by intros [??]).
    cbn [negb orb] in E. blia.
  - split; [|done]. intros _. bool_props.
    match goal with H : ¬ is_Some _ |- _ => apply eq_None_not_Some in H end. repeat split; done || lia.
Qed.

Lemma TryInsert_snd b q r v n bc ec :
  (Reorder_TryInsert b q r v n bc ec).2 =
  if (Reorder_TryInsert b q r v n bc ec).1
  then mkReorder (<[q := mkReorderEntry v n]> (fr_packets b)) (fr_buffered_bytes b +[64] n) else b.
Proof. unfold Reorder_TryInsert. by case_if as E. Qed.

Lemma inv_insert bc ec b q r v n bc' ec' :
  is_uint 64 bc → bc' ≤ bc → ec' ≤ ec → is_uint 32 q → 0 ≤ n → reorder_inv bc ec b →
  reorder_inv bc ec (Reorder_TryInsert b q r v n bc' ec').2.
Proof.
  intros Hbc Hb He Hq Hn Hinv. rewrite TryInsert_snd. case_if as E; [|done].
  apply TryInsert_true in E as (_&Hnone&Hsz&Hle1&Hle2).
  pose proof (ro_range _ _ _ Hinv). rewrite wrap_small by uint_lia.
  split; cbn [fr_packets fr_buffered_bytes].
  - apply map_Forall_insert_2; [done|]. apply Hinv.
  - rewrite fmap_insert, map_sum_insert by (by rewrite lookup_fmap, Hnone).
    rewrite (ro_sum _ _ _ Hinv). cbn [ro_bytes]. lia.
  - lia.
  - rewrite map_size_insert_None by done. lia.
Qed.

Lemma inv_take bc ec b q :
  is_uint 64 bc → reorder_inv bc ec b → reorder_inv bc ec (Reorder_Take b q).2.
Proof.
  intros Hbc Hinv. unfold Reorder_Take. destruct (fr_packets b !! q) as [e|] eqn:E; [|done]. cbn [snd].
  assert (entry_bytes (fr_packets b) !! q = Some (ro_bytes e)) as Hq by (by rewrite lookup_fmap, E).
  pose proof (map_sum_delete (λ _, true) _ _ _ Hq) as Hsum. cbv beta iota in Hsum.
  pose proof (map_sum_nonneg (λ _, true) _ (map_Forall_delete _ _ q (ro_nonneg _ _ _ Hinv))) as Hd.
  destruct (ro_keys _ _ _ Hinv q e E) as [_ He]. pose proof (ro_sum _ _ _ Hinv).
  pose proof (ro_bytes_cap _ _ _ Hinv). rewrite wrap_small by uint_lia.
  split; cbn [fr_packets fr_buffered_bytes].
  - apply map_Forall_delete, Hinv.
  - rewrite fmap_delete. lia.
  - lia.
  - rewrite map_size_delete_Some by (by eexists). pose proof (ro_entry_cap _ _ _ Hinv). lia.
Qed.

Inductive ReorderOp :=
  | OpTryInsert (sequence reference : Z) (value : T) (bytes byte_cap entry_cap : Z)
  | OpTake (sequence : Z).

Definition reorder_step b (op : ReorderOp) : option T * MuxFlowReorderBuffer T :=
  match op with
  | OpTryInsert q r v n bc ec => (None, (Reorder_TryInsert b q r v n bc ec).2)
  | OpTake q => Reorder_Take b q
  end.

Definition reorder_op_ok (byte_cap entry_cap : Z) (op : ReorderOp) : Prop :=
  match op with
  | OpTryInsert q _ _ n bc ec => is_uint 32 q ∧ 0 ≤ n ∧ bc ≤ byte_cap ∧ ec ≤ entry_cap
  | OpTake _ => True
  end.

Definition reorder_empty : MuxFlowReorderBuffer T := mkReorder ∅ 0.

Lemma reorder_empty_inv bc ec : 0 ≤ bc → 0 ≤ ec → reorder_inv bc ec reorder_empty.
Proof.
  intros. split; cbn [fr_packets fr_buffered_bytes reorder_empty].
  - apply map_Forall_empty.
  - by rewrite fmap_empty, map_sum_empty.
  - done.
  - by rewrite map_size_empty.
Qed.

Lemma reorder_step_invariant bc ec :
  is_uint 64 bc → StepInvariant reorder_step (reorder_op_ok bc ec) (reorder_inv bc ec).
Proof.
  intros Hbc b [] Hv Hb; cbn [reorder_step snd].
  - destruct Hv as (?&?&?&?). by apply inv_insert.
  - by apply inv_take.
Qed.

(** Under any sequence of insertions and removals a flow's reorder buffer holds at most
    [entry_cap] packets and at most [byte_cap] bytes, and its byte counter is the exact total
    of the packets it holds, so a hostile sender cannot grow it or make the counter drift. *)
Theorem reorder_bounded bc ec ops :
  is_uint 64 bc → 0 ≤ ec → Forall (reorder_op_ok bc ec) ops →
  let b := exec reorder_step reorder_empty ops in
  fr_buffered_bytes b = map_sum (λ _, true) (ro_bytes <$> fr_packets b) ∧
  0 ≤ fr_buffered_bytes b ≤ bc ∧ Z.of_nat (size (fr_packets b)) ≤ ec.
Proof.
  intros Hbc Hec Hops b.
  assert (reorder_inv bc ec b) as Hinv.
  { pose proof (reorder_step_invariant bc ec Hbc).
    apply (exec_invariant reorder_step (reorder_op_ok bc ec) (reorder_inv bc ec));
      [apply reorder_empty_inv; unfold is_uint in *; lia|done]. }
  pose proof (ro_range _ _ _ Hinv). destruct Hinv. eauto.
Qed.

(** Buffering and later taking a packet is lossless: an accepted packet is the one [Take]
    returns, taking it restores the buffer exactly, and it can be taken only once; packets that
    are not in the future half of the sequence circle, duplicates, and packets over a cap are
    refused and leave the buffer as it was. *)
Theorem reorder_insert_take bc ec b q r v n :
  is_uint 64 bc → 0 ≤ n → reorder_inv bc ec b → is_uint 32 r → is_uint 32 q →
  let '(ok, b') := Reorder_TryInsert b q r v n bc ec in
  (ok = true ↔ 0 < fwd r q < 2147483648 ∧ fr_packets b !! q = None ∧
     Z.of_nat (size (fr_packets b)) < ec ∧ fr_buffered_bytes b + n ≤ bc) ∧
  (ok = false → b' = b) ∧
  (ok = true → Reorder_Take b' q = (Some v, b) ∧ Reorder_Take b q = (None, b)).
Proof.
  intros Hbc Hn Hinv Hr Hq. pose proof (ro_range _ _ _ Hinv) as Hge.
  pose proof (TryInsert_true b q r v n bc ec) as Ht. pose proof (TryInsert_snd b q r v n bc ec) as Hs.
  destruct (Reorder_TryInsert b q r v n bc ec) as [ok b']. cbn [fst snd] in *. rewrite is_future_spec in Ht by done.
  split; [rewrite Ht; intuition lia|]. split; [by intros ->|]. intros ->.
  destruct (proj1 Ht eq_refl) as (_&Hnone&_&_&Hle). subst b'. unfold Reorder_Take.
  cbn [fr_packets fr_buffered_bytes]. rewrite lookup_insert_eq, Hnone. cbn [ro_value ro_bytes].
  split; [|done]. rewrite delete_insert_id by done.
  rewrite (wrap_small 64 (fr_buffered_bytes b + n)) by uint_lia.
  rewrite wrap_small by uint_lia. rewrite Z.add_simpl_r. by destruct b.
Qed.

(** [FirstSequence] finds the next packet to wait for across the 32-bit wrap: it returns a
    buffered sequence in the future half with the least forward distance from the reference,
    and returns nothing only if no buffered sequence is in the future half. *)
Theorem reorder_first_nearest bc ec b r :
  reorder_inv bc ec b → is_uint 32 r →
  match Reorder_FirstSequence b r with
  | Some q => is_Some (fr_packets b !! q) ∧ 0 < fwd r q < 2147483648 ∧
              ∀ k, is_Some (fr_packets b !! k) → 0 < fwd r k → fwd r q ≤ fwd r k
  | None => ∀ k, is_Some (fr_packets b !! k) → ¬ (0 < fwd r k < 2147483648)
  end.
Proof.
  intros Hinv Hr. unfold Reorder_FirstSequence.
  assert (∀ k, is_Some (fr_packets b !! k) → is_uint 32 k) as Hu.
  { intros k [e He]. by destruct (ro_keys _ _ _ Hinv k e He). }
  assert (∃ x, r +[32] 1 = x ∧ (x = r + 1 ∨ (x = 0 ∧ r = 4294967295))) as (x&->&Hx).
  { destruct (decide (r = 4294967295)) as [->|]; [exists 0; split; [done|by right]|].
    exists (r + 1). split; [|by left]. apply wrap_small. uint_lia. }
  assert (∀ k, match map_lower_bound (fr_packets b) x with Some k => Some k
               | None => map_begin (fr_packets b) end = Some k →
    is_Some (fr_packets b !! k) ∧
    ∀ j, is_Some (fr_packets b !! j) → 0 < fwd r j → 0 < fwd r k ∧ fwd r k ≤ fwd r j) as Hmin.
  { pose proof (map_lower_bound_spec (fr_packets b) x) as Hlb. pose proof (map_begin_spec (fr_packets b)) as Hb.
    intros k Hk. destruct (map_lower_bound _ _) as [k'|].
    - injection Hk as ->. destruct Hlb as (Hs&Hxk&Hle). split; [done|]. intros j Hj.
      pose proof (Hu k Hs). specialize (Hle j Hj). pose proof (Hu j Hj).
      pose proof (fwd_cases r k). pose proof (fwd_cases r j). uint_lia.
    - rewrite Hk in Hb. destruct Hb as (Hs&Hle). split; [done|]. intros j Hj.
      pose proof (Hlb j Hj). pose proof (Hlb k Hs). pose proof (Hu k Hs). specialize (Hle j Hj). pose proof (Hu j Hj).
      pose proof (fwd_cases r k). pose proof (fwd_cases r j). uint_lia. }
  destruct (match map_lower_bound _ _ with Some k => Some k | None => _ end) as [k|] eqn:Ek.
  - destruct (Hmin k eq_refl) as [Hs Hk]. pose proof (is_future_spec r k Hr (Hu k Hs)) as Hf.
    destruct (is_future r k).
    + split; [done|]. split; [by apply Hf|]. intros j Hj Hjp. by apply Hk.
    + intros j Hj Hjf. destruct (Hk j Hj) as [? ?]; [lia|].
      assert (false = true) by (apply Hf; lia). done.
  - intros k [e He]. exfalso. pose proof (map_lower_bound_spec (fr_packets b) x) as Hlb.
    pose proof (map_begin_spec (fr_packets b)) as Hb. destruct (map_lower_bound _ _); [done|].
    rewrite Ek in Hb. by rewrite Hb in He.
Qed.
End reorder.

(** ** Choice of carrier *)

Definition credited (links : list MuxLinkLoad) (i : nat) (l : MuxLinkLoad) : Prop :=
  links !! i = Some l ∧ ll_has_credit l = true.

Definition pick_ok (links : list MuxLinkLoad) (best : option (nat * MuxLinkLoad)) : Prop :=
  match best with
  | None => ∀ j l, ¬ credited links j l
  | Some (i, b) => credited links i b ∧
      (∀ j l, credited links j l → ll_queued_bytes b ≤ ll_queued_bytes l) ∧
      ((∀ l, l ∈ links → ll_has_rtt l = false) →
       ∀ j l, credited links j l → (j < i)%nat → ll_queued_bytes b < ll_queued_bytes l)
  end.

Lemma load_beats_spec l b :
  (load_beats l b = true → ll_queued_bytes l ≤ ll_queued_bytes b) ∧
  (load_beats l b = false → ll_queued_bytes b ≤ ll_queued_bytes l) ∧
  (ll_has_rtt l = false → load_beats l b = true → ll_queued_bytes l < ll_queued_bytes b).
Proof.
  unfold load_beats. destruct (ll_queued_bytes l =? ll_queued_bytes b) eqn:E; cbn [negb].
  - split; [blia|]. split; [blia|]. by intros ->.
  - destruct (_ <? _) eqn:E2; split_and?; intros; try done; blia.
Qed.

Lemma credited_snoc links l i x :
  credited (links ++ [l]) i x ↔ credited links i x ∨ (i = length links ∧ x = l ∧ ll_has_credit l = true).
Proof.
  unfold credited. rewrite lookup_snoc_Some. split; [intros [[[??]|[??]] ?]; subst; auto|].
  intros [[H ?]|(->&->&?)]; [|by auto]. split; [|done]. left. split; [|done]. by eapply lookup_lt_Some.
Qed.

Lemma pick_from_ok seen links best :
  pick_ok seen best → pick_ok (seen ++ links) (pick_from best (length seen) links).
Proof.
  revert seen best. induction links as [|l links IH]; intros seen best Hb; cbn [pick_from].
  { by rewrite app_nil_r. }
  replace (S (length seen)) with (length (seen ++ [l])) by (rewrite length_app; simpl; lia).
  rewrite (cons_middle l seen links), (assoc_L (++)). apply IH. clear IH.
  destruct (ll_has_credit l) eqn:Hc; cbn [negb].
  - destruct best as [[i b]|]; cbn [pick_ok] in Hb.
    + destruct Hb as (Hi&Hmin&Hfirst). pose proof (load_beats_spec l b) as (Hb1&Hb2&Hb3).
      destruct (load_beats l b) eqn:Hbeat; cbn [pick_ok].
      * split; [apply credited_snoc; by right|]. split.
        -- intros j x [Hj|(_&->&_)]%credited_snoc; [|lia]. specialize (Hmin j x Hj). specialize (Hb1 eq_refl). lia.
        -- intros Hr j x [Hj|(->&_&_)]%credited_snoc Hlt; [|lia]. specialize (Hmin j x Hj).
           assert (ll_has_rtt l = false) as Hl by (apply Hr, elem_of_app; right; by apply list_elem_of_singleton).
           specialize (Hb3 Hl eq_refl). lia.
      * split; [apply credited_snoc; by left|]. split.
        -- intros j x [Hj|(_&->&_)]%credited_snoc; [by eapply Hmin|]. by apply Hb2.
        -- intros Hr j x [Hj|(->&_&_)]%credited_snoc Hlt.
           ++ eapply Hfirst; [|done|done]. intros y Hy. apply Hr, elem_of_app. by left.
           ++ destruct Hi as [Hi _]. apply lookup_lt_Some in Hi. lia.
    + cbn [pick_ok]. split; [apply credited_snoc; by right|]. split.
      * intros j x [Hj|(_&->&_)]%credited_snoc; [by apply Hb in Hj|lia].
      * intros _ j x [Hj|(->&_&_)]%credited_snoc; [by apply Hb in Hj|lia].
  - destruct best as [[i b]|]; cbn [pick_ok] in *.
    + destruct Hb as (Hi&Hmin&Hfirst). split; [apply credited_snoc; by left|]. split.
      * intros j x [Hj|(_&->&?)]%credited_snoc; [by eapply Hmin|congruence].
      * intros Hr j x [Hj|(_&->&?)]%credited_snoc; [|congruence]. eapply Hfirst; [|done].
        intros y Hy. apply Hr, elem_of_app. by left.
    + intros j x [Hj|(_&->&?)]%credited_snoc; [by apply Hb in Hj|congruence].
Qed.

(** The carrier for the next frame always has credit and no credited carrier has fewer
    bytes in flight; the answer is -1 exactly when no carrier has credit; and without RTT
    information ties go to list order. *)
Theorem pick_least_loaded_best links :
  let r := MuxPickLeastLoaded links in
  (r = -1 ↔ ∀ l, l ∈ links → ll_has_credit l = false) ∧
  (r ≠ -1 → ∃ b, links !! Z.to_nat r = Some b ∧ 0 ≤ r ∧ ll_has_credit b = true ∧
     (∀ l, l ∈ links → ll_has_credit l = true → ll_queued_bytes b ≤ ll_queued_bytes l) ∧
     ((∀ l, l ∈ links → ll_has_rtt l = false) →
      ∀ j l, links !! j = Some l → ll_has_credit l = true → (j < Z.to_nat r)%nat →
        ll_queued_bytes b < ll_queued_bytes l)).
Proof.
  cbv zeta. unfold MuxPickLeastLoaded.
  assert (pick_ok links (pick_from None 0 links)) as H.
  { apply (pick_from_ok [] links None). intros j l [Hj _]. by rewrite lookup_nil in Hj. }
  destruct (pick_from None 0 links) as [[i b]|]; cbn [pick_ok] in H.
  - destruct H as ((Hi&Hc)&Hmin&Hfirst). split.
    + split; [lia|]. intros Hn. rewrite (Hn b) in Hc; [done|]. by eapply list_elem_of_lookup_2.
    + intros _. rewrite Nat2Z.id. exists b. split; [done|]. split; [lia|]. split; [done|]. split.
      * intros l [j Hj]%list_elem_of_lookup_1 Hl. by apply (Hmin j l).
      * intros Hr j l Hj Hl. by apply Hfirst.
  - split; [|done]. split; [|done]. intros _ l [j Hj]%list_elem_of_lookup_1.
    destruct (ll_has_credit l) eqn:E; [|done]. by destruct (H j l).
Qed.

(** ** Windows *)

Lemma hard_cap_ge window factor : is_uint 64 window → window ≤ MuxTxHardCap window factor ≤ SIZE_MAX.
Proof.
  intros Hw. unfold MuxTxHardCap, SIZE_MAX. cbv zeta. set (f := if factor <? 1 then 1 else factor).
  assert (1 ≤ f) by (unfold f; case_if as E; blia).
  case_if as E; bool_props; [uint_lia|].
  assert (window * f ≤ 2 ^ 64 - 1).
  { etrans; [apply Z.mul_le_mono_nonneg_r; [lia|exact E]|]. rewrite Z.mul_comm. apply Z.mul_div_le. lia. }
  split; [|done]. unfold is_uint in *. nia.
Qed.

Lemma fits_window_spec inflight incoming window :
  0 ≤ inflight → incoming ≤ window → 0 < window →
  MuxTxFitsWindow inflight incoming window = true → inflight + incoming ≤ window.
Proof. unfold MuxTxFitsWindow. intros ???. case_if as E; intros ?; blia. Qed.

(** Frames the send window admits are never terminal: if [AdmitTxFrame] lets a frame no
    longer than the windows go, given the retransmit buffer's own counters, then the flow's hard
    bound check passes and [Track] accepts the frame against the session's hard bound, leaving
    the session and the flow within their windows; and an idle sender is never held. *)
Theorem tx_admitted_frame_tracked cap s cid seq buffer len now link session_window flow_window factor :
  cap ≤ 2 ^ 63 → rtx_inv cap s → is_uint 32 cid → is_uint 32 seq → 0 < len < 2 ^ 31 →
  rb_entries s !! Rtx_Key cid seq = None →
  len ≤ session_window ≤ cap → len ≤ flow_window ≤ cap →
  AdmitTxFrame (rb_bytes s) (Rtx_CidBytes s cid) len session_window flow_window = TxSend →
  let '(ok, s') := Rtx_Track s cid seq buffer len now (MuxTxHardCap session_window factor) link in
  MuxTxOverHardCap (Rtx_CidBytes s cid) len flow_window factor = false ∧
  ok = true ∧ rb_bytes s' ≤ session_window ∧ Rtx_CidBytes s' cid ≤ flow_window.
Proof.
  intros Hcap Hinv Hcid Hseq Hlen Hnone Hsw Hfw Hadmit.
  pose proof (core_bytes_range _ _ (proj1 Hinv)) as Hb. pose proof (CidBytes_le cap s cid Hinv) as Hc.
  pose proof (core_cap _ _ (proj1 Hinv)) as Hbc.
  unfold AdmitTxFrame in Hadmit. destruct (len =? 0) eqn:E0; [blia|].
  destruct (MuxTxFitsWindow (Rtx_CidBytes s cid) len flow_window) eqn:Ef; [|done].
  destruct (MuxTxFitsWindow (rb_bytes s) len session_window) eqn:Es; [|done].
  apply fits_window_spec in Ef; [|lia..]. apply fits_window_spec in Es; [|lia..].
  pose proof (hard_cap_ge session_window factor ltac:(uint_lia)) as Hhs.
  pose proof (hard_cap_ge flow_window factor ltac:(uint_lia)) as Hhf.
  unfold Rtx_Track. rewrite Hnone. rewrite (rtx_size_id len) by lia.
  rewrite (wrap_small 64 (rb_bytes s + len)) by uint_lia.
  rewrite (proj2 (Z.ltb_ge (MuxTxHardCap session_window factor) (rb_bytes s + len))) by lia.
  rewrite andb_false_r. split.
  - unfold MuxTxOverHardCap. case_if as E; [done|]. lia.
  - split; [done|]. split; [cbn [rb_bytes]; lia|].
    unfold Rtx_CidBytes in *. cbn [rb_cid_bytes]. rewrite lookup_insert_eq, default_Some.
    rewrite wrap_small by uint_lia. lia.
Qed.

(** An idle session sends a frame of any length. *)
Lemma tx_idle_never_held incoming session_window flow_window :
  AdmitTxFrame 0 0 incoming session_window flow_window = TxSend.
Proof.
  unfold AdmitTxFrame, MuxTxFitsWindow. rewrite Z.eqb_refl, !orb_true_r. by case_if as E.
Qed.

(** The reorder budget's verdicts by total: at most the soft cap, at most the hard cap, above. *)
Lemma admit_reorder_spec buffered incoming soft factor :
  is_uint 64 buffered → is_uint 64 incoming → 0 < soft → buffered + incoming ≤ SIZE_MAX →
  match AdmitReorderBytes buffered incoming soft factor with
  | ReorderAccept => buffered + incoming ≤ soft
  | ReorderAcceptAndPause => soft < buffered + incoming ≤ MuxReorderHardCap soft factor
  | ReorderReject => soft < buffered + incoming ∧ MuxReorderHardCap soft factor < buffered + incoming
  end.
Proof.
  intros Hb Hi Hs Ht. unfold AdmitReorderBytes. destruct (soft =? 0) eqn:E0; [blia|].
  rewrite (proj2 (Z.ltb_ge (SIZE_MAX - buffered) incoming)) by lia.
  destruct (_ <=? soft) eqn:E1; [blia|]. destruct (_ <=? MuxReorderHardCap _ _) eqn:E2; blia.
Qed.

(** ** Concrete runs *)

Definition reorder_demo_ops : list (ReorderOp (T := Z)) :=
  [OpTryInsert 4294967295 4294967290 70 10 100 3; OpTryInsert 2 4294967290 71 20 100 3;
   OpTryInsert 4294967290 4294967290 72 5 100 3; OpTake 2; OpTryInsert 1 4294967290 73 7 100 3].

Definition reorder_demo : MuxFlowReorderBuffer Z := exec reorder_step reorder_empty reorder_demo_ops.

Lemma reorder_demo_ok : Forall (reorder_op_ok 100 3) reorder_demo_ops.
Proof. repeat constructor; cbn; unfold is_uint; lia. Qed.

Lemma reorder_bounded_witness :
  fr_buffered_bytes reorder_demo = 17 ∧
  fr_buffered_bytes reorder_demo = map_sum (λ _, true) (ro_bytes <$> fr_packets reorder_demo).
Proof.
  split; [vm_compute; reflexivity|].
  apply (reorder_bounded 100 3 reorder_demo_ops); [unfold is_uint; lia|lia|apply reorder_demo_ok].
Defined.

Lemma reorder_demo_inv : reorder_inv 100 3 reorder_demo.
Proof.
  pose proof (reorder_step_invariant (T := Z) 100 3 ltac:(unfold is_uint; lia)).
  apply (exec_invariant reorder_step (reorder_op_ok 100 3) (reorder_inv 100 3));
    [apply reorder_empty_inv; lia|apply reorder_demo_ok].
Qed.

Lemma reorder_insert_take_witness :
  Reorder_Take (Reorder_TryInsert reorder_demo 5 4294967290 99 8 100 3).2 5 = (Some 99, reorder_demo).
Proof.
  pose proof (reorder_insert_take 100 3 reorder_demo 5 4294967290 99 8 ltac:(unfold is_uint; lia) ltac:(lia)
    reorder_demo_inv ltac:(unfold is_uint; lia) ltac:(unfold is_uint; lia)) as H.
  assert ((Reorder_TryInsert reorder_demo 5 4294967290 99 8 100 3).1 = true) as E by (vm_compute; reflexivity).
  destruct (Reorder_TryInsert _ _ _ _ _ _ _) as [ok b']. cbn [fst snd] in *. by apply H.
Defined.

Lemma reorder_first_nearest_witness :
  Reorder_FirstSequence reorder_demo 4294967294 = Some 4294967295 ∧
  is_Some (fr_packets reorder_demo !! 4294967295).
Proof.
  assert (Reorder_FirstSequence reorder_demo 4294967294 = Some 4294967295) as E by (vm_compute; reflexivity).
  split; [exact E|].
  pose proof (reorder_first_nearest 100 3 reorder_demo 4294967294 reorder_demo_inv ltac:(unfold is_uint; lia)) as H.
  rewrite E in H. apply H.
Defined.

Lemma tx_admitted_frame_tracked_witness :
  (Rtx_Track rtx_demo 1 7 [1; 2] 2 130 (MuxTxHardCap 100 4) 3).1 = true.
Proof.
  pose proof (tx_admitted_frame_tracked 1000 rtx_demo 1 7 [1; 2] 2 130 3 100 50 4 ltac:(lia) rtx_demo_inv
    ltac:(unfold is_uint; lia) ltac:(unfold is_uint; lia) ltac:(lia) ltac:(vm_compute; reflexivity)
    ltac:(lia) ltac:(lia) ltac:(vm_compute; reflexivity)) as H.
  destruct (Rtx_Track _ _ _ _ _ _ _ _) as [ok s']. apply H.
Defined.
