(* ===== verification/MuxFlowControl.v ===== *)
(** XON/XOFF flow control of a multiplexed stream and the hard limit of its inbound queue
    ([src/ppp/app/mux/MuxTxBackpressure.h], [src/ppp/app/mux/MuxRxQueueLimit.h], and the
    flow-control members of [src/ppp/app/mux/vmux_skt.cpp]).

    The state is the part of [vmux_skt] the two directions of flow control use.  Posting a
    control frame is a call into the session, so the operations return the frame's payload;
    delivering it is [apply_acceleration_frame] on the peer's socket, and a schedule of
    deliveries is any list of payloads.  The backlog is a signed 64-bit counter that stays far
    from its limits, so it is kept as [Z]. *)

From S2P Require Import Prelude.

(** ** Decisions *)

Inductive MuxFlowControlAction := FlowNone | FlowSendXon | FlowSendXoff.

Definition MuxFlowControlNext (peer_running : bool) (backlog threshold : Z) : MuxFlowControlAction :=
  if threshold <? 1 then FlowNone
  else if peer_running then (if threshold <=? backlog then FlowSendXoff else FlowNone)
  else (if backlog <=? Z.quot threshold 2 then FlowSendXon else FlowNone).

(** [static_cast<std::int32_t>] of a 32-bit unsigned difference. *)
Definition to_int32 (x : Z) : Z := if x <? 2147483648 then x else x - 4294967296.

Definition MuxFlowControlIsFresh (have_last : bool) (last version : Z) : bool :=
  if negb have_last then true else 0 <? to_int32 (version -[32] last).

(** ** Inbound queue hard limit *)

Definition kMuxRxQueueHardMaxPackets : Z := 16384.
Definition kMuxRxQueueHardMaxBytesNoFc : Z := Z.shiftl 256 20.

Definition MuxRxQueueHardMaxBytes (soft_congestions : Z) : Z :=
  if soft_congestions <? 1 then kMuxRxQueueHardMaxBytesNoFc else soft_congestions * 2.

Definition MuxRxQueueOverflows (queued_packets queued_bytes incoming_bytes soft_congestions : Z) : bool :=
  if kMuxRxQueueHardMaxPackets <=? queued_packets then true
  else MuxRxQueueHardMaxBytes soft_congestions <?
         queued_bytes + (if 0 <? incoming_bytes then incoming_bytes else 0).

Definition MuxIsNoopPush (payload_size : Z) : bool := payload_size <=? 0.

(** ** The socket's flow-control state *)

Record SktFlow := mkSktFlow {
  sf_rx_acceleration : bool;
  sf_tx_acceleration : bool;
  sf_disposed : bool;
  sf_rx_congestions : Z;
  sf_fc_tx_version : Z;
  sf_fc_rx_version : Z;
  sf_fc_rx_versioned : bool
}.

Definition Skt_new : SktFlow := mkSktFlow true true false 0 0 0 false.

(** The payload [[state][version]] and the socket with the version it stamped. *)
Definition Skt_post_flow_control (st : SktFlow) (state : Z) : list Z * SktFlow :=
  let version := sf_fc_tx_version st +[32] 1 in
  (state :: be_bytes 4 version,
   mkSktFlow (sf_rx_acceleration st) (sf_tx_acceleration st) (sf_disposed st) (sf_rx_congestions st)
     version (sf_fc_rx_version st) (sf_fc_rx_versioned st)).

Definition set_rx_acceleration (st : SktFlow) (on : bool) : SktFlow :=
  mkSktFlow on (sf_tx_acceleration st) (sf_disposed st) (sf_rx_congestions st)
    (sf_fc_tx_version st) (sf_fc_rx_version st) (sf_fc_rx_versioned st).

Definition set_rx_congestions (st : SktFlow) (c : Z) : SktFlow :=
  mkSktFlow (sf_rx_acceleration st) (sf_tx_acceleration st) (sf_disposed st) c
    (sf_fc_tx_version st) (sf_fc_rx_version st) (sf_fc_rx_versioned st).

(** The payloads posted (none or one) and the socket. *)
Definition Skt_rx_congestions (max_congestions : Z) (st : SktFlow) (value : Z) : list (list Z) * SktFlow :=
  if value =? 0 then ([], st)
  else if max_congestions <? 1 then ([], st)
  else
    let c := sf_rx_congestions st + value in
    let st := set_rx_congestions st (if c <? 0 then 0 else c) in
    match MuxFlowControlNext (sf_rx_acceleration st) (sf_rx_congestions st) max_congestions with
    | FlowSendXoff =>
        let '(f, st) := Skt_post_flow_control (set_rx_acceleration st false) 0 in ([f], st)
    | FlowSendXon =>
        let '(f, st) := Skt_post_flow_control (set_rx_acceleration st true) 1 in ([f], st)
    | FlowNone => ([], st)
    end.

(** [tx_acceleration(acceleration, has_version, version)]; the assignment to the flag happens
    unless the socket is disposed. *)
Definition Skt_tx_acceleration (st : SktFlow) (acceleration has_version : bool) (version : Z) : SktFlow :=
  if has_version && negb (MuxFlowControlIsFresh (sf_fc_rx_versioned st) (sf_fc_rx_version st) version)
  then st
  else
    let st := if has_version
              then mkSktFlow (sf_rx_acceleration st) (sf_tx_acceleration st) (sf_disposed st)
                     (sf_rx_congestions st) (sf_fc_tx_version st) version true
              else st in
    if sf_disposed st then st
    else mkSktFlow (sf_rx_acceleration st) acceleration (sf_disposed st) (sf_rx_congestions st)
           (sf_fc_tx_version st) (sf_fc_rx_version st) (sf_fc_rx_versioned st).

(** The [cmd_acceleration] branch of the session's dispatcher. *)
Definition apply_acceleration_frame (st : SktFlow) (buffer : list Z) : SktFlow :=
  let acceleration := if decide (0 < length buffer)%nat then negb (byte_at buffer 0 =? 0) else true in
  if decide (5 ≤ length buffer)%nat
  then Skt_tx_acceleration st acceleration true (get32 (drop 1 buffer))
  else Skt_tx_acceleration st acceleration false 0.

(** ** The receiving side: hysteresis and the posted frames *)

(** A posted payload by its version and state. *)
Definition fc_frame (v : Z) (on : bool) : list Z := (if on then 1 else 0) :: be_bytes 4 v.

Lemma apply_fc_frame st v on :
  is_uint 32 v → apply_acceleration_frame st (fc_frame v on) = Skt_tx_acceleration st on true v.
Proof.
  intros Hv. unfold apply_acceleration_frame, fc_frame. cbn [length].
  rewrite length_be_bytes. rewrite !decide_True by lia. cbn [drop].
  assert (get32 (be_bytes 4 v) = v) as Hg by (rewrite <- (app_nil_r (be_bytes 4 v)); by apply get32_be_bytes).
  rewrite drop_0, Hg.
  unfold byte_at. by destruct on.
Qed.

Record hysteresis (max_congestions : Z) (st : SktFlow) : Prop := {
  hy_nonneg : 0 ≤ sf_rx_congestions st;
  hy_on : sf_rx_acceleration st = true → 1 ≤ max_congestions → sf_rx_congestions st < max_congestions;
  hy_off : sf_rx_acceleration st = false → max_congestions / 2 < sf_rx_congestions st
}.

Lemma rx_congestions_hysteresis m st value :
  hysteresis m st → hysteresis m (Skt_rx_congestions m st value).2.
Proof.
  intros Hst. unfold Skt_rx_congestions. case_if as E0; [done|]. case_if as E1; [done|].
  set (c := if sf_rx_congestions st + value <? 0 then 0 else sf_rx_congestions st + value).
  assert (0 ≤ c) by (unfold c; case_if as Ec; blia).
  unfold MuxFlowControlNext. rewrite E1. cbn [sf_rx_acceleration sf_rx_congestions set_rx_congestions].
  rewrite (Z.quot_div_nonneg m 2) by blia.
  assert (m / 2 < m) by (apply Z.div_lt; blia).
  destruct Hst as [Hn Hon Hoff]. destruct (sf_rx_acceleration st) eqn:Ea; case_if as E2;
    split; cbn [snd Skt_post_flow_control set_rx_acceleration set_rx_congestions sf_rx_acceleration sf_rx_congestions];
    rewrite ?Ea; intros; try done; blia.
Qed.

(** The [n] frames posted so far carry versions [1 .. n] in order. *)
Definition fc_stream (ons : list bool) : list (list Z) :=
  imap (λ i on, fc_frame (Z.of_nat i + 1) on) ons.

Lemma rx_congestions_frames m st value :
  let '(fs, st') := Skt_rx_congestions m st value in
  (fs = [] ∧ sf_rx_acceleration st' = sf_rx_acceleration st ∧ sf_fc_tx_version st' = sf_fc_tx_version st) ∨
  (∃ on, fs = [fc_frame (sf_fc_tx_version st +[32] 1) on] ∧ sf_rx_acceleration st' = on ∧
     sf_fc_tx_version st' = sf_fc_tx_version st +[32] 1).
Proof.
  unfold Skt_rx_congestions. case_if as E0; [by left|]. case_if as E1; [by left|].
  destruct (MuxFlowControlNext _ _ _); cbn.
  - by left.
  - right. by exists true.
  - right. by exists false.
Qed.

Definition rx_run (m : Z) (values : list Z) : list (list Z) * SktFlow :=
  (mjoin (run (Skt_rx_congestions m) Skt_new values).1, exec (Skt_rx_congestions m) Skt_new values).

Lemma rx_run_stream m values :
  Z.of_nat (length (rx_run m values).1) < 2 ^ 31 →
  ∃ ons, (rx_run m values).1 = fc_stream ons ∧
    sf_fc_tx_version (rx_run m values).2 = Z.of_nat (length ons) ∧
    sf_rx_acceleration (rx_run m values).2 = default true (last ons).
Proof.
  induction values as [|value values IH] using rev_ind; intros Hlen.
  { exists []. done. }
  unfold rx_run in *. cbn [fst snd] in *. rewrite run_results_snoc, exec_snoc in *.
  set (st := exec (Skt_rx_congestions m) Skt_new values) in *.
  assert (∀ xs (y : list (list Z)), mjoin (xs ++ [y]) = mjoin xs ++ y) as Hjoin.
  { intros xs y. rewrite join_app. cbn. by rewrite app_nil_r. }
  rewrite Hjoin in *.
  pose proof (rx_congestions_frames m st value) as Hstep.
  destruct (Skt_rx_congestions m st value) as [fs st']. cbn [fst snd] in *.
  rewrite length_app in Hlen. destruct IH as (ons&Hs&Hv&Ha); [lia|].
  destruct Hstep as [(->&Ha'&Hv')|(on&->&Ha'&Hv')].
  - exists ons. rewrite app_nil_r, Hv', Ha'. done.
  - exists (ons ++ [on]). rewrite Hs, Hv', Ha', Hv in *. unfold fc_stream in *.
    rewrite length_imap in Hlen. simpl in Hlen.
    rewrite wrap_small by uint_lia. rewrite imap_app. cbn [imap].
    rewrite length_app, last_snoc. cbn [length]. rewrite Nat.add_0_r. split; [done|]. split; [lia|done].
Qed.

(** ** The sending side: deliveries in any order *)

Lemma fresh_spec last v :
  0 < last < 2 ^ 31 → 0 < v < 2 ^ 31 → MuxFlowControlIsFresh true last v = (last <? v).
Proof.
  intros Hl Hv. unfold MuxFlowControlIsFresh, to_int32. cbn [negb].
  destruct (Z.le_gt_cases last v).
  - rewrite wrap_small by uint_lia. case_if as E; [|blia].
    destruct (last <? v) eqn:E2; [apply Z.ltb_lt|apply Z.ltb_ge]; blia.
  - rewrite wrap_sub_lt by (uint_lia || done). change (2 ^ 32) with 4294967296.
    case_if as E; [blia|]. rewrite (proj2 (Z.ltb_ge last v)) by lia. apply Z.ltb_ge. lia.
Qed.

(** After a non-empty schedule the socket holds the newest delivered version and its state. *)
Lemma deliver_newest l :
  Forall (λ vo : Z * bool, 0 < vo.1 < 2 ^ 31) l → l ≠ [] →
  let st := fold_left apply_acceleration_frame ((λ vo, fc_frame vo.1 vo.2) <$> l) Skt_new in
  sf_disposed st = false ∧ sf_fc_rx_versioned st = true ∧
  ∃ vo, vo ∈ l ∧ sf_fc_rx_version st = vo.1 ∧ sf_tx_acceleration st = vo.2 ∧ ∀ wo, wo ∈ l → wo.1 ≤ vo.1.
Proof.
  induction l as [|[v on] l IH] using rev_ind; intros Hl Hne; [done|]. clear Hne.
  apply Forall_app in Hl as [Hl Hv]. rewrite Forall_singleton in Hv. cbn [fst] in Hv.
  rewrite fmap_app, fold_left_app. cbn [fmap list_fmap fold_left fst snd].
  rewrite apply_fc_frame by uint_lia.
  destruct (decide (l = [])) as [->|Hne].
  { cbn. do 2 (split; [done|]). exists (v, on).
    split; [apply list_elem_of_singleton; done|]. do 2 (split; [done|]).
    by intros wo ->%list_elem_of_singleton. }
  specialize (IH Hl Hne) as (Hd&Hver&[v' on']&Hin&Hrv&Htx&Hmax). cbn [fst snd] in *.
  match goal with |- context [Skt_tx_acceleration ?x _ _ _] => set (st := x) in * end.
  pose proof (proj1 (Forall_forall _ _) Hl _ Hin) as Hv'. cbn [fst] in Hv'.
  unfold Skt_tx_acceleration. rewrite Hver, Hrv, fresh_spec by done. cbn [andb].
  destruct (v' <? v) eqn:E; cbn [negb].
  - cbn [sf_disposed]. rewrite Hd. cbn. do 2 (split; [done|]). exists (v, on).
    split; [apply elem_of_app; right; by apply list_elem_of_singleton|]. do 2 (split; [done|]).
    intros wo [Hwo| ->%list_elem_of_singleton]%elem_of_app; cbn; [|lia]. specialize (Hmax _ Hwo). blia.
  - do 2 (split; [done|]). exists (v', on'). split; [apply elem_of_app; by left|]. do 2 (split; [done|]).
    intros wo [Hwo| ->%list_elem_of_singleton]%elem_of_app; [by apply Hmax|cbn; blia].
Qed.

(** [fc_stream] as version/state pairs. *)
Definition fc_pairs (ons : list bool) : list (Z * bool) := imap (λ i on, (Z.of_nat i + 1, on)) ons.

Lemma fc_stream_pairs ons : fc_stream ons = (λ vo, fc_frame vo.1 vo.2) <$> fc_pairs ons.
Proof. unfold fc_stream, fc_pairs. by rewrite fmap_imap. Qed.

Lemma fc_pairs_newest ons vo :
  vo ∈ fc_pairs ons → (∀ wo, wo ∈ fc_pairs ons → wo.1 ≤ vo.1) → last ons = Some vo.2.
Proof.
  unfold fc_pairs. intros Hin Hmax. apply elem_of_lookup_imap in Hin as (i&on&->&Hi). cbn [fst snd] in *.
  destruct (lookup_lt_is_Some_2 ons (pred (length ons))) as [x Hx].
  { apply lookup_lt_Some in Hi. lia. }
  rewrite last_lookup, Hx. f_equal.
  assert ((Z.of_nat (pred (length ons)) + 1, x) ∈ imap (λ i on, (Z.of_nat i + 1, on)) ons) as Hm%Hmax
    by (apply elem_of_lookup_imap; eauto).
  cbn [fst] in Hm. apply lookup_lt_Some in Hi as Hlt.
  assert (i = pred (length ons)) as -> by lia. congruence.
Qed.

(** Flow control converges whatever the carriers do to the order: when every XON/XOFF the
    receiving socket posted is delivered to the sending socket, in any order and fewer than
    2^31 of them, the sender runs exactly when the receiver last told it to; in particular it
    runs once the backlog is back to half the threshold, and is stopped while the backlog is at
    the threshold. *)
Theorem flow_control_converges m values delivered :
  1 ≤ m → delivered ≡ₚ (rx_run m values).1 → Z.of_nat (length delivered) < 2 ^ 31 →
  let rx := (rx_run m values).2 in
  let peer := fold_left apply_acceleration_frame delivered Skt_new in
  sf_tx_acceleration peer = sf_rx_acceleration rx ∧
  (sf_rx_congestions rx ≤ m / 2 → sf_tx_acceleration peer = true) ∧
  (m ≤ sf_rx_congestions rx → sf_tx_acceleration peer = false).
Proof.
  intros Hm Hperm Hlen rx peer.
  assert (hysteresis m rx) as Hhy.
  { unfold rx, rx_run. cbn [snd]. induction values as [|x xs IH] using rev_ind in rx |- *.
    - rewrite exec_nil. split; cbn; intros; done || lia.
    - rewrite exec_snoc. by apply rx_congestions_hysteresis. }
  assert (sf_tx_acceleration peer = sf_rx_acceleration rx) as Heq.
  { destruct (rx_run_stream m values) as (ons&Hs&_&Ha); [by rewrite <- Hperm|].
    fold rx in Ha. rewrite Hs, fc_stream_pairs, <- map_fmap in Hperm.
    apply Permutation_map_inv in Hperm as (l&Hd&Hl). rewrite Ha. unfold peer. rewrite Hd.
    destruct ons as [|on ons'].
    { apply Permutation_nil in Hl. by subst l. }
    assert (Forall (λ vo : Z * bool, 0 < vo.1 < 2 ^ 31) l) as Hf.
    { apply Forall_forall. intros vo Hvo. rewrite <- Hl in Hvo. unfold fc_pairs in Hvo.
      apply elem_of_lookup_imap in Hvo as (i&o&->&Hi). apply lookup_lt_Some in Hi. cbn [fst].
      rewrite Hd, length_map, <- (Permutation_length Hl) in Hlen. unfold fc_pairs in Hlen.
      rewrite length_imap in Hlen. lia. }
    destruct (deliver_newest l Hf) as (_&_&vo&Hin&_&Htx&Hmax).
    { intros ->. apply Permutation_length in Hl. done. }
    rewrite map_fmap, Htx.
    rewrite (fc_pairs_newest (on :: ons') vo); [done| |].
    - by rewrite Hl.
    - intros wo Hwo. apply Hmax. by rewrite <- Hl. }
  split; [done|]. rewrite Heq. destruct Hhy as [H0 Hon Hoff].
  destruct (sf_rx_acceleration rx); split; intros; try done; exfalso.
  - specialize (Hon eq_refl Hm). lia.
  - specialize (Hoff eq_refl). lia.
Qed.

(** A backlog that crosses the threshold, drains and grows again; the three frames arrive in
    reverse order and the sender still ends up stopped. *)
Lemma flow_control_converges_witness :
  (rx_run 100 [60; 50; -70; 90]).1 = [fc_frame 1 false; fc_frame 2 true; fc_frame 3 false] ∧
  sf_tx_acceleration
    (fold_left apply_acceleration_frame [fc_frame 3 false; fc_frame 2 true; fc_frame 1 false] Skt_new) = false.
Proof.
  assert ((rx_run 100 [60; 50; -70; 90]).1 = [fc_frame 1 false; fc_frame 2 true; fc_frame 3 false]) as E
    by (vm_compute; reflexivity).
  split; [exact E|].
  apply (flow_control_converges 100 [60; 50; -70; 90]); [lia| |cbn; lia|].
  - rewrite E. apply (Permutation_rev [fc_frame 3 false; fc_frame 2 true; fc_frame 1 false]).
  - vm_compute. discriminate.
Defined.

(** A payload the hard limit lets in leaves the inbound queue within its packet and byte caps. *)
Lemma rx_queue_within packets bytes incoming soft :
  MuxRxQueueOverflows packets bytes incoming soft = false →
  packets + 1 ≤ kMuxRxQueueHardMaxPackets ∧
  (0 ≤ incoming → bytes + incoming ≤ MuxRxQueueHardMaxBytes soft).
Proof.
  unfold MuxRxQueueOverflows. case_if as E; [done|]. intros H. split; [blia|].
  intros Hi. destruct (0 <? incoming) eqn:E2; blia.
Qed.
