(* ===== verification/MuxDrain.v ===== *)
(** Write accounting of a retiring carrier link ([src/ppp/app/mux/MuxLinkDrainState.h]).

    The object is shared by threads.  Each atomic action of the code is one function: a whole
    locked region of [mutex_], or the compare-and-swap on a ticket's flag.  [Consume] is two such
    actions, and between them the thread is counted in [ds_claimed]; [drain_step] interleaves the
    actions of any number of threads.  A ticket is its owner's identity and the position of its
    flag in the list of flags the owner has allocated. *)

From S2P Require Import Prelude.

(** ** State and atomic actions *)

Record DrainState := mkDrain {
  ds_id : Z;
  ds_inflight : Z;
  ds_retiring : bool;
  ds_consumed : list bool;
  ds_claimed : nat
}.

(** [WriteTicket]: a default-constructed one is [None]. *)
Abbreviation WriteTicket := (option (Z * nat)).

Definition Drain_new (id : Z) : DrainState := mkDrain id 0 false [] 0.

(** [allocated] is whether [make_shared] succeeds. *)
Definition Drain_BeginWrite (s : DrainState) (allocated : bool) : WriteTicket * DrainState :=
  if ds_retiring s then (None, s)
  else if allocated then
    (Some (ds_id s, length (ds_consumed s)),
     mkDrain (ds_id s) (ds_inflight s +[64] 1) (ds_retiring s) (ds_consumed s ++ [false]) (ds_claimed s))
  else (None, s).

(** The ownership test and the compare-and-swap of [Consume]. *)
Definition Drain_claim (s : DrainState) (ticket : WriteTicket) : bool * DrainState :=
  match ticket with
  | None => (false, s)
  | Some (owner, i) =>
      if negb (owner =? ds_id s) then (false, s)
      else match ds_consumed s !! i with
           | Some false =>
               (true, mkDrain (ds_id s) (ds_inflight s) (ds_retiring s) (<[i := true]> (ds_consumed s))
                        (S (ds_claimed s)))
           | _ => (false, s)
           end
  end.

(** The locked region of [Consume], run by a thread whose compare-and-swap succeeded. *)
Definition Drain_finish (s : DrainState) : bool * DrainState :=
  if ds_inflight s =? 0
  then (false, mkDrain (ds_id s) (ds_inflight s) (ds_retiring s) (ds_consumed s) (pred (ds_claimed s)))
  else (true, mkDrain (ds_id s) (ds_inflight s - 1) (ds_retiring s) (ds_consumed s) (pred (ds_claimed s))).

(** [Consume] by one thread with no other in between. *)
Definition Drain_Consume (s : DrainState) (ticket : WriteTicket) : bool * DrainState :=
  let '(won, s) := Drain_claim s ticket in
  if won then Drain_finish s else (false, s).

Definition Drain_CompleteWrite := Drain_Consume.
Definition Drain_AbortWrite := Drain_Consume.

Definition Drain_BeginRetire (s : DrainState) : DrainState :=
  mkDrain (ds_id s) (ds_inflight s) true (ds_consumed s) (ds_claimed s).

Definition Drain_accepting_writes (s : DrainState) : bool := negb (ds_retiring s).
Definition Drain_reapable (s : DrainState) : bool := ds_retiring s && (ds_inflight s =? 0).

(** ** Interleavings *)

Inductive drain_step : DrainState → DrainState → Prop :=
  | step_begin_write s allocated : drain_step s (Drain_BeginWrite s allocated).2
  | step_claim s ticket : drain_step s (Drain_claim s ticket).2
  | step_finish s : (0 < ds_claimed s)%nat → drain_step s (Drain_finish s).2
  | step_retire s : drain_step s (Drain_BeginRetire s).

(** Tickets whose flag is clear. *)
Definition open_tickets (s : DrainState) : nat := length (filter (λ c, c = false) (ds_consumed s)).

Record drain_inv (s : DrainState) : Prop := {
  di_count : ds_inflight s = Z.of_nat (open_tickets s + ds_claimed s);
  di_claimed : (open_tickets s + ds_claimed s ≤ length (ds_consumed s))%nat
}.

Lemma length_filter_insert (l : list bool) i :
  l !! i = Some false →
  S (length (filter (λ c, c = false) (<[i := true]> l))) = length (filter (λ c, c = false) l).
Proof.
  revert i. induction l as [|b l IH]; intros [|i] Hi; try done.
  - injection Hi as ->. change (<[0%nat := true]> (false :: l)) with (true :: l).
    rewrite !filter_cons. by rewrite decide_False, decide_True by done.
  - change (<[S i := true]> (b :: l)) with (b :: <[i := true]> l).
    rewrite !filter_cons. specialize (IH i Hi). case_decide; cbn [length]; lia.
Qed.

Lemma drain_step_inv s s' :
  drain_step s s' → Z.of_nat (length (ds_consumed s')) < 2 ^ 64 → drain_inv s → drain_inv s'.
Proof.
  intros Hstep Hlen [Hc Hle]. destruct Hstep as [s allocated|s ticket|s Hpos|s].
  - unfold Drain_BeginWrite in *. destruct (ds_retiring s); [done|]. destruct allocated; [|done].
    cbn [snd ds_consumed] in Hlen. rewrite length_app in Hlen. cbn [length] in Hlen.
    split; unfold open_tickets in *; cbn [snd ds_inflight ds_consumed ds_claimed].
    + rewrite Hc, filter_app, length_app, filter_cons, decide_True by done. cbn [length app].
      rewrite filter_nil. cbn [length]. rewrite wrap_small by uint_lia. lia.
    + rewrite filter_app, !length_app, filter_cons, decide_True, filter_nil by done. cbn [length]. lia.
  - unfold Drain_claim. destruct ticket as [[owner i]|]; [|done]. case_if as E; [done|].
    destruct (ds_consumed s !! i) as [[]|] eqn:Ei; [done| |done].
    pose proof (length_filter_insert _ _ Ei). unfold open_tickets in *.
    split; unfold open_tickets; cbn [snd ds_inflight ds_consumed ds_claimed].
    + lia.
    + rewrite length_insert. lia.
  - unfold Drain_finish. case_if as E; bool_props; [lia|].
    split; unfold open_tickets in *; cbn [snd ds_inflight ds_consumed ds_claimed]; lia.
  - by split.
Qed.

Lemma drain_step_grows s s' :
  drain_step s s' → (length (ds_consumed s) ≤ length (ds_consumed s'))%nat.
Proof.
  intros [s0 allocated|s0 ticket|s0 _|s0]; [| | |done].
  - unfold Drain_BeginWrite. destruct (ds_retiring s0), allocated; cbn; rewrite ?length_app; lia.
  - unfold Drain_claim. destruct ticket as [[owner i]|]; [|done]. case_if as E; [done|].
    destruct (ds_consumed s0 !! i) as [[]|]; cbn; rewrite ?length_insert; lia.
  - unfold Drain_finish. by case_if as E.
Qed.

Lemma drain_reachable_inv id s :
  rtc drain_step (Drain_new id) s → Z.of_nat (length (ds_consumed s)) < 2 ^ 64 → drain_inv s.
Proof.
  intros Hr. revert s Hr. apply (rtc_ind_r (λ s, Z.of_nat (length (ds_consumed s)) < 2 ^ 64 → drain_inv s)).
  { intros _. by split. }
  intros s s' _ Hstep IH Hlen. eapply drain_step_inv; [done|done|].
  apply IH. apply drain_step_grows in Hstep. lia.
Qed.

Definition drain_done (s : DrainState) : Prop :=
  ds_retiring s = true ∧ ds_claimed s = 0%nat ∧ Forall (λ c, c = true) (ds_consumed s) ∧ ds_inflight s = 0.

(** A drained link takes no further step that changes it. *)
Lemma drain_done_stable s s' : drain_done s → drain_step s s' → s' = s.
Proof.
  intros (Hr&Hc&Hall&Hi) Hstep. destruct Hstep as [s allocated|s ticket|s Hpos|s].
  - unfold Drain_BeginWrite. by rewrite Hr.
  - unfold Drain_claim. destruct ticket as [[owner i]|]; [|done]. case_if as E; [done|].
    destruct (ds_consumed s !! i) as [[]|] eqn:Ei; [done| |done].
    by apply (Forall_lookup_1 _ _ _ _ Hall) in Ei.
  - lia.
  - destruct s. cbn in *. by subst.
Qed.

Lemma no_open_all_consumed (l : list bool) :
  length (filter (λ c, c = false) l) = 0%nat → Forall (λ c, c = true) l.
Proof.
  induction l as [|[] l IH]; intros H; [constructor| |].
  - rewrite filter_cons, decide_False in H by done. constructor; auto.
  - by rewrite filter_cons, decide_True in H by done.
Qed.

(** Under every interleaving of writers, completions, aborts (each possibly attempted
    several times for the same write) and retirement, [inflight_] is exactly the number of
    writes begun and not yet accounted for, so the guard against decrementing zero never fires. *)
Theorem drain_accounting id s :
  rtc drain_step (Drain_new id) s → Z.of_nat (length (ds_consumed s)) < 2 ^ 64 →
  ds_inflight s = Z.of_nat (open_tickets s + ds_claimed s) ∧
  ((0 < ds_claimed s)%nat → (Drain_finish s).1 = true).
Proof.
  intros Hr Hlen. destruct (drain_reachable_inv id s Hr Hlen) as [Hc _]. split; [done|].
  intros Hpos. unfold Drain_finish. case_if as E; [blia|done].
Qed.

(** A link reported reapable is finished for good: every write it issued has been completed
    or aborted and counted, no thread is still inside the accounting, and whatever any thread
    does next the link stays exactly as it is, so it can be freed. *)
Theorem drain_reapable_final id s s' :
  rtc drain_step (Drain_new id) s → Z.of_nat (length (ds_consumed s)) < 2 ^ 64 →
  Drain_reapable s = true → rtc drain_step s s' →
  Forall (λ c, c = true) (ds_consumed s) ∧ ds_claimed s = 0%nat ∧ s' = s.
Proof.
  intros Hr Hlen Hreap Hr'. destruct (drain_reachable_inv id s Hr Hlen) as [Hc _].
  unfold Drain_reapable in Hreap. bool_props.
  assert (drain_done s) as Hdone.
  { split; [done|]. split; [lia|]. split; [apply no_open_all_consumed; unfold open_tickets in Hc; lia|done]. }
  split; [apply Hdone|]. split; [apply Hdone|].
  induction Hr' as [|s1 s2 s3 Hstep _ IH]; [done|].
  apply (drain_done_stable _ _ Hdone) in Hstep. subst s2. auto.
Qed.

(** Two writes; the first is completed and also aborted by a racing thread, the second begins
    before retirement and completes after it. *)
Definition drain_demo : DrainState :=
  (Drain_CompleteWrite (Drain_BeginRetire
    (Drain_AbortWrite (Drain_CompleteWrite
      (Drain_BeginWrite (Drain_BeginWrite (Drain_new 7) true).2 true).2 (Some (7, 0%nat))).2 (Some (7, 0%nat))).2)
    (Some (7, 1%nat))).2.

Lemma drain_demo_reachable : rtc drain_step (Drain_new 7) drain_demo.
Proof.
  eapply rtc_l; [apply (step_begin_write _ true)|]. eapply rtc_l; [apply (step_begin_write _ true)|].
  eapply rtc_l; [apply (step_claim _ (Some (7, 0%nat)))|]. eapply rtc_l; [apply step_finish; vm_compute; lia|].
  eapply rtc_l; [apply (step_claim _ (Some (7, 0%nat)))|]. eapply rtc_l; [apply step_retire|].
  eapply rtc_l; [apply (step_claim _ (Some (7, 1%nat)))|]. eapply rtc_l; [apply step_finish; vm_compute; lia|].
  apply rtc_refl.
Qed.

Lemma drain_accounting_witness :
  ds_inflight drain_demo = Z.of_nat (open_tickets drain_demo + ds_claimed drain_demo).
Proof. apply (drain_accounting 7 drain_demo drain_demo_reachable). vm_compute. reflexivity. Defined.

Lemma drain_reapable_final_witness :
  Drain_reapable drain_demo = true ∧ (Drain_BeginWrite drain_demo true).2 = drain_demo.
Proof.
  assert (Drain_reapable drain_demo = true) as E by (vm_compute; reflexivity). split; [exact E|].
  apply (drain_reapable_final 7 drain_demo _ drain_demo_reachable); [vm_compute; reflexivity|exact E|].
  apply rtc_once. apply (step_begin_write _ true).
Defined.
