(* ===== verification/MuxNegotiation.v ===== *)
(** Negotiation of the multiplexer's preset, receiver ordering and reliability
    ([src/ppp/app/mux/MuxRuntimeState.h]), the capability bytes of the handshake that carries
    it ([src/ppp/app/client/VEthernetExchanger.cpp], [src/ppp/app/server/VirtualEthernetExchanger.cpp],
    [src/ppp/app/mux/vmux_net.h]) and the owner of the current session
    ([src/ppp/app/mux/MuxCoordinator.cpp]). *)

From S2P Require Import Prelude.

Local Open Scope string_scope.
Local Open Scope Z_scope.

(** ** Runtime state *)

Record MuxRuntimeState := mkMuxState {
  ms_requested_mode : string;
  ms_effective_mode : string;
  ms_receiver_ordering : string;
  ms_scheduler : string;
  ms_pool_policy : string;
  ms_turbo : bool;
  ms_reliability : bool;
  ms_fec : bool;
  ms_active_links : Z;
  ms_fallback_reason : string
}.

Definition str_eq (a b : string) : bool := bool_decide (a = b).

Definition MuxSchedulerName (mode : string) : string :=
  if str_eq mode "stripe" then "round_robin" else "competition".

Definition MuxPoolPolicyName (mode : string) (turbo : bool) : string :=
  if str_eq mode "flow" && turbo then "adaptive" else "fixed".

Definition FillMuxPresentation (s : MuxRuntimeState) : MuxRuntimeState :=
  mkMuxState (ms_requested_mode s) (ms_effective_mode s) (ms_receiver_ordering s)
    (MuxSchedulerName (ms_effective_mode s)) (MuxPoolPolicyName (ms_effective_mode s) (ms_turbo s))
    (ms_turbo s) (ms_reliability s) (ms_fec s) (ms_active_links s) (ms_fallback_reason s).

Definition IsMuxLinkActive (handshake_complete retiring : bool) : bool :=
  handshake_complete && negb retiring.

Definition ModeRequiresFlowV2 (mode : string) (turbo : bool) : bool :=
  str_eq mode "balance" || str_eq mode "stripe" || (str_eq mode "flow" && turbo).

Definition known_mode (mode : string) : bool :=
  str_eq mode "compat" || str_eq mode "flow" || str_eq mode "balance" || str_eq mode "stripe".

Definition missing_reason (local_supports_flow_v2 : bool) : string :=
  if local_supports_flow_v2 then "peer_missing_flow_v2" else "local_missing_flow_v2".

Definition NegotiateMuxRuntimeState (requested_mode : string)
    (local_supports_flow_v2 peer_supports_flow_v2 : bool) (active_links : Z) (turbo : bool)
    (local_reliability peer_reliability local_fec peer_fec peer_requests_flow_v2 : bool)
    : MuxRuntimeState :=
  let turbo1 := turbo && str_eq requested_mode "flow" in
  let reliability := local_reliability && peer_reliability in
  let fec := reliability && local_fec && peer_fec in
  if negb (known_mode requested_mode) then
    FillMuxPresentation (mkMuxState requested_mode "compat" "compat" "" "" false reliability fec
      active_links "unsupported_requested_mode")
  else
    let requires_flow_v2 := ModeRequiresFlowV2 requested_mode turbo1 in
    if requires_flow_v2 && (negb local_supports_flow_v2 || negb peer_supports_flow_v2) &&
       (str_eq requested_mode "balance" || str_eq requested_mode "stripe") then
      FillMuxPresentation (mkMuxState requested_mode "compat" "compat" "" "" false reliability fec
        active_links (missing_reason local_supports_flow_v2))
    else
      let wants_flow_v2 := ModeRequiresFlowV2 requested_mode turbo1 || peer_requests_flow_v2 in
      let uses_flow_v2 := wants_flow_v2 && local_supports_flow_v2 && peer_supports_flow_v2 in
      let reason :=
        if str_eq requested_mode "flow" && turbo1 && negb uses_flow_v2 &&
           (negb local_supports_flow_v2 || negb peer_supports_flow_v2)
        then missing_reason local_supports_flow_v2 else "" in
      FillMuxPresentation (mkMuxState requested_mode requested_mode
        (if uses_flow_v2 then "flow_v2" else "compat") "" "" turbo1 reliability fec
        active_links reason).

Definition ApplyAgreedMuxRuntimeState (requested_mode : string) (agreed_flow_v2 : bool)
    (active_links : Z) (turbo agreed_reliability agreed_fec : bool) : MuxRuntimeState :=
  if negb (known_mode requested_mode) || negb agreed_flow_v2 then
    let s := NegotiateMuxRuntimeState requested_mode true false active_links turbo
               false false false false false in
    mkMuxState (ms_requested_mode s) (ms_effective_mode s) (ms_receiver_ordering s) (ms_scheduler s)
      (ms_pool_policy s) (ms_turbo s) agreed_reliability (agreed_reliability && agreed_fec)
      (ms_active_links s) (ms_fallback_reason s)
  else
    FillMuxPresentation (mkMuxState requested_mode requested_mode "flow_v2" "" ""
      (turbo && str_eq requested_mode "flow") agreed_reliability (agreed_reliability && agreed_fec)
      active_links "").

(** ** Scheduler modes and the handshake's capability byte *)

Inductive mux_mode := mux_mode_compat | mux_mode_flow | mux_mode_balance | mux_mode_stripe.

Definition mode_name (m : mux_mode) : string :=
  match m with
  | mux_mode_flow => "flow"
  | mux_mode_balance => "balance"
  | mux_mode_stripe => "stripe"
  | mux_mode_compat => "compat"
  end.

Definition mode_requires_flow_v2 (m : mux_mode) (turbo : bool) : bool :=
  match m with
  | mux_mode_balance | mux_mode_stripe => true
  | mux_mode_flow => turbo
  | mux_mode_compat => false
  end.

Definition ordering_caps_flow_v2 : Z := 1.
Definition ordering_caps_reliability : Z := 2.
Definition ordering_caps_fec : Z := 4.
Definition ordering_caps_flow_v2_request : Z := 8.

Definition has_cap (caps bit : Z) : bool := negb (Z.land caps bit =? 0).

(** The client's request. *)
Definition client_ordering_caps (mode : mux_mode) (turbo reliability_enabled fec_enabled : bool) : Z :=
  let caps := ordering_caps_flow_v2 in
  let caps := if mode_requires_flow_v2 mode turbo then Z.lor caps ordering_caps_flow_v2_request else caps in
  if reliability_enabled then
    let caps := Z.lor caps ordering_caps_reliability in
    if fec_enabled then Z.lor caps ordering_caps_fec else caps
  else caps.

(** The server's negotiation from the request byte and its own configuration. *)
Definition server_negotiate (mode : mux_mode) (turbo reliability_enabled fec_enabled : bool)
    (links caps : Z) : MuxRuntimeState :=
  NegotiateMuxRuntimeState (mode_name mode) true (has_cap caps ordering_caps_flow_v2) links turbo
    reliability_enabled (has_cap caps ordering_caps_reliability)
    fec_enabled (has_cap caps ordering_caps_fec) (has_cap caps ordering_caps_flow_v2_request).

(** The reply the server echoes from the state it latched. *)
Definition server_agreed_caps (s : MuxRuntimeState) : Z :=
  let caps := if str_eq (ms_receiver_ordering s) "flow_v2" then ordering_caps_flow_v2 else 0 in
  let caps := if ms_reliability s then Z.lor caps ordering_caps_reliability else caps in
  if ms_fec s then Z.lor caps ordering_caps_fec else caps.

(** The client's state from the reply byte. *)
Definition client_apply_reply (mode : mux_mode) (turbo : bool) (links caps : Z) : MuxRuntimeState :=
  ApplyAgreedMuxRuntimeState (mode_name mode) (has_cap caps ordering_caps_flow_v2) links turbo
    (has_cap caps ordering_caps_reliability) (has_cap caps ordering_caps_fec).

(** ** Session owner

    Sessions are named by numbers; the second component lists the sessions on which
    [close_exec] was called. *)
Record MuxCoordinator := mkCoordinator { mc_session : option Z; mc_closed : list Z }.

Definition Coordinator_Replace (c : MuxCoordinator) (session : option Z) : MuxCoordinator :=
  mkCoordinator session (mc_closed c ++ option_list (mc_session c)).

Definition Coordinator_Take (c : MuxCoordinator) : option Z * MuxCoordinator :=
  (mc_session c, mkCoordinator None (mc_closed c)).

Definition Coordinator_ResetIfCurrent (c : MuxCoordinator) (session : option Z) : MuxCoordinator :=
  if decide (mc_session c = session) then mkCoordinator None (mc_closed c) else c.

Definition Coordinator_Stop (c : MuxCoordinator) : MuxCoordinator :=
  let '(session, c) := Coordinator_Take c in
  mkCoordinator (mc_session c) (mc_closed c ++ option_list session).

(** ** Properties *)

(** What a peer relies on in a negotiated state. *)
Record mux_state_ok (s : MuxRuntimeState) : Prop := {
  mok_mode : known_mode (ms_effective_mode s) = true;
  mok_ordering : ms_receiver_ordering s = "flow_v2" ∨ ms_receiver_ordering s = "compat";
  mok_multi : ms_effective_mode s = "balance" ∨ ms_effective_mode s = "stripe" →
              ms_receiver_ordering s = "flow_v2";
  mok_fec : ms_fec s = true → ms_reliability s = true;
  mok_turbo : ms_turbo s = true → ms_effective_mode s = "flow";
  mok_sched : ms_scheduler s = MuxSchedulerName (ms_effective_mode s);
  mok_pool : ms_pool_policy s = MuxPoolPolicyName (ms_effective_mode s) (ms_turbo s);
  mok_fallback : ms_effective_mode s ≠ ms_requested_mode s → ms_fallback_reason s ≠ ""
}.

Lemma str_eq_true a b : str_eq a b = true ↔ a = b.
Proof. apply bool_decide_eq_true. Qed.

(** A known mode is one of the four names. *)
Lemma known_mode_cases mode : known_mode mode = true → ∃ m, mode = mode_name m.
Proof.
  unfold known_mode. rewrite !orb_true_iff, !str_eq_true. intros [[[H|H]|H]|H]; subst.
  - by exists mux_mode_compat.
  - by exists mux_mode_flow.
  - by exists mux_mode_balance.
  - by exists mux_mode_stripe.
Qed.

Lemma negotiate_flags mode l p links turbo lr pr lf pf req :
  let s := NegotiateMuxRuntimeState mode l p links turbo lr pr lf pf req in
  ms_reliability s = lr && pr ∧ ms_fec s = lr && pr && lf && pf.
Proof.
  cbv zeta. unfold NegotiateMuxRuntimeState. destruct (negb _); [done|].
  by destruct (ModeRequiresFlowV2 _ _ && _ && _).
Qed.

(** The scheduling part of the state does not depend on the reliability bits. *)
Definition mux_mode_ok (s : MuxRuntimeState) : bool :=
  known_mode (ms_effective_mode s) &&
  (str_eq (ms_receiver_ordering s) "flow_v2" ||
   (str_eq (ms_receiver_ordering s) "compat" &&
    negb (str_eq (ms_effective_mode s) "balance" || str_eq (ms_effective_mode s) "stripe"))) &&
  (negb (ms_turbo s) || str_eq (ms_effective_mode s) "flow") &&
  str_eq (ms_scheduler s) (MuxSchedulerName (ms_effective_mode s)) &&
  str_eq (ms_pool_policy s) (MuxPoolPolicyName (ms_effective_mode s) (ms_turbo s)) &&
  (str_eq (ms_effective_mode s) (ms_requested_mode s) || negb (str_eq (ms_fallback_reason s) "")).

Lemma mux_mode_ok_spec s :
  mux_mode_ok s = true → (ms_fec s = true → ms_reliability s = true) → mux_state_ok s.
Proof.
  unfold mux_mode_ok. rewrite !andb_true_iff, !orb_true_iff, !andb_true_iff, !negb_true_iff, orb_false_iff.
  unfold str_eq. rewrite !bool_decide_eq_true, !bool_decide_eq_false.
  intros (((((H1&H2)&H3)&H4)&H5)&H6) Hf. split; try done.
  - tauto.
  - intros Hm. destruct H2 as [?|(_&?&?)]; [done|]. destruct Hm; congruence.
  - intros Ht. destruct H3; congruence.
  - intros Hne. destruct H6; congruence.
Qed.

Lemma negotiate_mode_ok mode l p links turbo lr pr lf pf req :
  let s := NegotiateMuxRuntimeState mode l p links turbo lr pr lf pf req in
  mux_mode_ok s = true ∧ (ms_receiver_ordering s = "flow_v2" → l = true ∧ p = true).
Proof.
  cbv zeta. destruct (known_mode mode) eqn:Hk.
  - apply known_mode_cases in Hk as [m ->].
    destruct m, l, p, turbo, req; vm_compute; (split; [done|]); intros; done.
  - unfold NegotiateMuxRuntimeState. rewrite Hk. cbn [negb].
    split; [|done]. unfold mux_mode_ok. cbn. apply orb_true_r.
Qed.

(** Negotiation never produces an unusable session: for any requested preset, including
    unknown ones, and any capability bits, the effective preset is a known one, the multi-link
    presets run only with per-flow ordering, per-flow ordering is used only when both ends
    support it, reliability only when both ends want it, FEC only with reliability, and a
    changed preset always carries a reason. *)
Theorem mux_negotiation_safe mode l p links turbo lr pr lf pf req :
  let s := NegotiateMuxRuntimeState mode l p links turbo lr pr lf pf req in
  mux_state_ok s ∧
  (ms_receiver_ordering s = "flow_v2" → l = true ∧ p = true) ∧
  (ms_reliability s = true ↔ lr = true ∧ pr = true) ∧
  (ms_fec s = true ↔ lr = true ∧ pr = true ∧ lf = true ∧ pf = true).
Proof.
  cbv zeta. pose proof (negotiate_flags mode l p links turbo lr pr lf pf req) as [Hr Hf].
  pose proof (negotiate_mode_ok mode l p links turbo lr pr lf pf req) as [Hm Ho].
  split; [apply mux_mode_ok_spec; [done|]; rewrite Hr, Hf, !andb_true_iff; tauto|].
  split; [done|]. rewrite Hr, Hf, !andb_true_iff. tauto.
Qed.

(** The two ends of the handshake agree.  Whatever presets, turbo flags and reliability
    settings client and server have, the state the client derives from the server's reply has
    the receiver ordering, the reliability and the FEC setting the server latched, and a client
    whose preset needs per-flow ordering gets it. *)
Theorem mux_handshake_agrees cm ct cr cf sm st sr sf links :
  let server := server_negotiate sm st sr sf links (client_ordering_caps cm ct cr cf) in
  let client := client_apply_reply cm ct links (server_agreed_caps server) in
  ms_receiver_ordering client = ms_receiver_ordering server ∧
  ms_reliability client = ms_reliability server ∧ ms_fec client = ms_fec server ∧
  mux_state_ok client ∧ mux_state_ok server ∧
  (mode_requires_flow_v2 cm ct = true →
   ms_receiver_ordering server = "flow_v2" ∧ ms_effective_mode client = mode_name cm).
Proof.
  cbv zeta.
  assert (∀ m b, mux_mode_ok (client_apply_reply cm ct links m) = true ∧
    (ms_fec (client_apply_reply cm ct links b) = true → ms_reliability (client_apply_reply cm ct links b) = true)) as Hc.
  { intros m b. split.
    - unfold client_apply_reply. destruct (has_cap m ordering_caps_flow_v2); destruct cm, ct; vm_compute; done.
    - unfold client_apply_reply, ApplyAgreedMuxRuntimeState. destruct (_ || _); cbn; by intros [? _]%andb_true_iff. }
  set (server := server_negotiate _ _ _ _ _ _).
  assert (mux_state_ok server).
  { apply mux_mode_ok_spec; [apply negotiate_mode_ok|].
    pose proof (negotiate_flags (mode_name sm) true (has_cap (client_ordering_caps cm ct cr cf) ordering_caps_flow_v2)
      links st sr (has_cap (client_ordering_caps cm ct cr cf) ordering_caps_reliability)
      sf (has_cap (client_ordering_caps cm ct cr cf) ordering_caps_fec)
      (has_cap (client_ordering_caps cm ct cr cf) ordering_caps_flow_v2_request)) as [Hr Hf].
    unfold server, server_negotiate. rewrite Hr, Hf, !andb_true_iff. tauto. }
  assert (ms_receiver_ordering (client_apply_reply cm ct links (server_agreed_caps server)) = ms_receiver_ordering server
    ∧ ms_reliability (client_apply_reply cm ct links (server_agreed_caps server)) = ms_reliability server
    ∧ ms_fec (client_apply_reply cm ct links (server_agreed_caps server)) = ms_fec server) as (H1&H2&H3).
  { unfold server. destruct cm, ct, cr, cf, sm, st, sr, sf; vm_compute; done. }
  split; [done|]. split; [done|]. split; [done|].
  split; [apply mux_mode_ok_spec; [apply (Hc _ 0)|apply (Hc 0)]|]. split; [done|].
  intros Hneed.
  assert (implb (mode_requires_flow_v2 cm ct)
    (str_eq (ms_receiver_ordering server) "flow_v2" &&
     str_eq (ms_effective_mode (client_apply_reply cm ct links (server_agreed_caps server))) (mode_name cm)) = true) as Hb
    by (unfold server; destruct cm, ct, cr, cf, sm, st, sr, sf; vm_compute; reflexivity).
  rewrite Hneed in Hb. cbn [implb] in Hb. rewrite andb_true_iff, !str_eq_true in Hb. exact Hb.
Qed.

(** Any older or hostile request byte is answered with capabilities it advertised itself. *)
Lemma server_reply_subset sm st sr sf links caps bit :
  bit ∈ [ordering_caps_flow_v2; ordering_caps_reliability; ordering_caps_fec] →
  has_cap (server_agreed_caps (server_negotiate sm st sr sf links caps)) bit = true → has_cap caps bit = true.
Proof.
  intros Hb. unfold server_negotiate.
  generalize (has_cap caps ordering_caps_flow_v2_request) as q.
  destruct (has_cap caps ordering_caps_flow_v2) eqn:E1, (has_cap caps ordering_caps_reliability) eqn:E2,
    (has_cap caps ordering_caps_fec) eqn:E3; intros q;
    (apply elem_of_cons in Hb as [->|Hb]; [|apply elem_of_cons in Hb as [->|Hb%list_elem_of_singleton]; [|subst]]);
    rewrite ?E1, ?E2, ?E3; try done; destruct sm, st, sr, sf, q; vm_compute; done.
Qed.

Local Close Scope string_scope.

Inductive CoordinatorOp :=
  | OpReplace (session : option Z)
  | OpResetIfCurrent (session : option Z)
  | OpStop.

Definition coordinator_step (c : MuxCoordinator) (op : CoordinatorOp) : unit * MuxCoordinator :=
  ((), match op with
       | OpReplace s => Coordinator_Replace c s
       | OpResetIfCurrent s => Coordinator_ResetIfCurrent c s
       | OpStop => Coordinator_Stop c
       end).

(** A session is closed by the owner at most once: when its installations are distinct, no
    session is in the closed list twice and the current session is not in it. *)
Lemma coordinator_closes_once (ops : list CoordinatorOp) :
  NoDup (omap (λ op, match op with OpReplace s => s | _ => None end) ops) →
  let c := exec coordinator_step (mkCoordinator None []) ops in
  NoDup (mc_closed c ++ option_list (mc_session c)) ∧
  ∀ x, x ∈ mc_closed c ++ option_list (mc_session c) →
       x ∈ omap (λ op, match op with OpReplace s => s | _ => None end) ops.
Proof.
  induction ops as [|op ops IH] using rev_ind; intros Hnd; cbv zeta in *.
  { cbn. split; [constructor|]. intros x Hx. by apply not_elem_of_nil in Hx. }
  rewrite omap_app in Hnd. apply NoDup_app in Hnd as (Hnd&Hdis&_). specialize (IH Hnd) as [IH1 IH2].
  rewrite exec_snoc, omap_app. set (c := exec _ _ ops) in *.
  assert (∀ x, x ∈ mc_closed c → x ∈ mc_closed c ++ option_list (mc_session c)) as Hcl
    by (intros x Hx; apply elem_of_app; by left).
  destruct op as [s|s|]; cbn [coordinator_step snd].
  - destruct s as [s|]; cbn [Coordinator_Replace mc_session mc_closed option_list].
    + split.
      * apply NoDup_app. split; [done|]. split; [|apply NoDup_singleton].
        intros x Hx ->%list_elem_of_singleton. apply (Hdis s); [by apply IH2|]. cbn. apply elem_of_cons. by left.
      * intros x [Hx| ->%list_elem_of_singleton]%elem_of_app; apply elem_of_app; [left; by apply IH2|right].
        cbn. apply elem_of_cons. by left.
    + rewrite app_nil_r. split; [done|]. intros x Hx. apply elem_of_app. left. by apply IH2.
  - unfold Coordinator_ResetIfCurrent. case_decide.
    + cbn [mc_closed mc_session option_list]. rewrite app_nil_r. split; [by apply NoDup_app in IH1 as [? _]|].
      intros x Hx. apply elem_of_app. left. by apply IH2, Hcl.
    + split; [done|]. intros x Hx. apply elem_of_app. left. by apply IH2.
  - cbn. rewrite app_nil_r. split; [done|]. intros x Hx. apply elem_of_app. left. by apply IH2.
Qed.
