(* ===== verification/P2PReplay.v ===== *)
(** Anti-replay window of the peer-to-peer channel ([src/ppp/p2p/P2PReplayWindow.h]).

    The 1024-bit bitmap is a list of 128 bytes; bit [d] says whether the sequence [d] below the
    highest accepted one has been seen.  The shift loops update the array in place, in the order
    of the source.  The window is shown to implement an unbounded specification that remembers
    every accepted sequence number in an extended, non-wrapping numbering. *)

From S2P Require Import Prelude.

(** ** The window *)

Definition REPLAY_BITMAP_SIZE : nat := 128.
Definition REPLAY_WINDOW_SIZE : Z := 1024.
Definition SequenceHalfRange : Z := 2147483648.

Record P2PReplayWindow := mkReplay {
  rw_base : Z;
  rw_bitmap : list Z;
  rw_initialized : bool
}.

Definition Replay_Reset : P2PReplayWindow := mkReplay 0 (replicate REPLAY_BITMAP_SIZE 0) false.

(** [bitmap_[delta / 8] & (1u << (delta % 8))]. *)
Definition bit_set (bitmap : list Z) (delta : nat) : bool :=
  negb (Z.land (byte_at bitmap (delta / 8)) (Z.shiftl 1 (Z.of_nat (delta mod 8))) =? 0).

Definition set_bit (bitmap : list Z) (delta : nat) : list Z :=
  <[(delta / 8)%nat := Z.lor (byte_at bitmap (delta / 8)) (Z.shiftl 1 (Z.of_nat (delta mod 8)))]> bitmap.

Definition Replay_IsDuplicate (w : P2PReplayWindow) (seq : Z) : bool :=
  if negb (rw_initialized w) then false
  else
    let base_seq := wrap 32 (rw_base w) in
    let forward := seq -[32] base_seq in
    if negb (forward =? 0) && (forward <? SequenceHalfRange) then false
    else
      let delta := base_seq -[32] seq in
      if REPLAY_WINDOW_SIZE <=? delta then true
      else bit_set (rw_bitmap w) (Z.to_nat delta).

(** [bitmap_[i] = bitmap_[i - whole_bytes]] for [i] from the last byte down to [whole_bytes]. *)
Definition copy_up (whole_bytes : nat) (bitmap : list Z) : list Z :=
  fold_left (λ b i, <[i := byte_at b (i - whole_bytes)]> b)
    (reverse (seq whole_bytes (REPLAY_BITMAP_SIZE - whole_bytes))) bitmap.

(** [bitmap_[i] = 0] for [i] below [whole_bytes]. *)
Definition clear_low (whole_bytes : nat) (bitmap : list Z) : list Z :=
  fold_left (λ b i, <[i := 0]> b) (seq 0 whole_bytes) bitmap.

(** The carry loop, bytes in ascending order. *)
Fixpoint shift_bits (extra_bits carry : Z) (bitmap : list Z) : list Z :=
  match bitmap with
  | [] => []
  | b :: bitmap =>
      wrap 8 (Z.lor (Z.shiftl b extra_bits) carry) ::
      shift_bits extra_bits (wrap 8 (Z.shiftr b (8 - extra_bits))) bitmap
  end.

Definition ShiftBitmapLeft (n : nat) (bitmap : list Z) : list Z :=
  if decide (n ≤ 0)%nat then bitmap
  else if decide (8 * REPLAY_BITMAP_SIZE ≤ n)%nat then replicate REPLAY_BITMAP_SIZE 0
  else
    let whole_bytes := (n / 8)%nat in
    let extra_bits := (n mod 8)%nat in
    let bitmap := if decide (0 < whole_bytes)%nat then clear_low whole_bytes (copy_up whole_bytes bitmap)
                  else bitmap in
    if decide (0 < extra_bits)%nat then shift_bits (Z.of_nat extra_bits) 0 bitmap else bitmap.

Definition Replay_Accept (w : P2PReplayWindow) (seq : Z) : bool * P2PReplayWindow :=
  if negb (rw_initialized w) then
    (true, mkReplay seq (<[0%nat := 1]> (rw_bitmap w)) true)
  else
    let base_seq := wrap 32 (rw_base w) in
    let forward := seq -[32] base_seq in
    if negb (forward =? 0) && (forward <? SequenceHalfRange) then
      let bitmap := if REPLAY_WINDOW_SIZE <=? forward then replicate REPLAY_BITMAP_SIZE 0
                    else ShiftBitmapLeft (Z.to_nat forward) (rw_bitmap w) in
      (true, mkReplay (rw_base w +[64] forward) (<[0%nat := Z.lor (byte_at bitmap 0) 1]> bitmap) true)
    else
      let delta := base_seq -[32] seq in
      if REPLAY_WINDOW_SIZE <=? delta then (false, w)
      else if bit_set (rw_bitmap w) (Z.to_nat delta) then (false, w)
      else (true, mkReplay (rw_base w) (set_bit (rw_bitmap w) (Z.to_nat delta)) true).

(** ** Specification: an unbounded memory of extended sequence numbers *)

Record ReplaySpec := mkSpec { sp_base : Z; sp_seen : gset Z }.

(** The extended number of a 32-bit sequence next to [base]. *)
Definition extend (base q : Z) : Z :=
  let forward := (q - base) mod 2 ^ 32 in
  if negb (forward =? 0) && (forward <? SequenceHalfRange) then base + forward
  else base - (base - q) mod 2 ^ 32.

Definition spec_accept (s : option ReplaySpec) (q : Z) : bool * option ReplaySpec :=
  match s with
  | None => (true, Some (mkSpec q {[ q ]}))
  | Some s =>
      let x := extend (sp_base s) q in
      if decide (x ∈ sp_seen s) then (false, Some s)
      else if x <=? sp_base s - REPLAY_WINDOW_SIZE then (false, Some s)
      else (true, Some (mkSpec (Z.max (sp_base s) x) ({[ x ]} ∪ sp_seen s)))
  end.

(** ** Bits of the array *)

Definition bm_bit (bitmap : list Z) (d : nat) : bool :=
  Z.testbit (byte_at bitmap (d / 8)) (Z.of_nat (d mod 8)).

Definition bitmap_ok (bitmap : list Z) : Prop := length bitmap = REPLAY_BITMAP_SIZE ∧ bytes_ok bitmap.

Lemma land_one_bit b k : 0 ≤ k → negb (Z.land b (Z.shiftl 1 k) =? 0) = Z.testbit b k.
Proof.
  intros Hk. rewrite Z.shiftl_1_l. destruct (Z.testbit b k) eqn:E.
  - apply negb_true_iff, Z.eqb_neq. intros H. apply (f_equal (λ x, Z.testbit x k)) in H.
    rewrite Z.land_spec, E, Z.pow2_bits_true, Z.bits_0 in H by lia. done.
  - apply negb_false_iff, Z.eqb_eq. apply Z.bits_inj'. intros i Hi. rewrite Z.land_spec, Z.bits_0.
    destruct (decide (i = k)) as [->|]; [by rewrite E|].
    rewrite Z.pow2_bits_false by lia. apply andb_false_r.
Qed.

Lemma bit_set_spec bitmap d : bit_set bitmap d = bm_bit bitmap d.
Proof. apply land_one_bit. lia. Qed.

Lemma byte_at_insert bitmap i j b :
  (i < length bitmap)%nat → byte_at (<[i := b]> bitmap) j = if decide (i = j) then b else byte_at bitmap j.
Proof.
  intros Hi. unfold byte_at. rewrite !nth_lookup. case_decide as E.
  - subst. by rewrite list_lookup_insert_eq by done.
  - by rewrite list_lookup_insert_ne by done.
Qed.

Lemma divmod_eq (a b : nat) : (a / 8 = b / 8)%nat → (a mod 8 = b mod 8)%nat → a = b.
Proof. intros H1 H2. rewrite (Nat.div_mod_eq a 8), (Nat.div_mod_eq b 8). congruence. Qed.

Lemma div8_lt d : (d < 1024)%nat → (d / 8 < 128)%nat.
Proof. intros. apply Nat.Div0.div_lt_upper_bound. lia. Qed.

(** Setting one bit changes that bit only. *)
Lemma bm_bit_set bitmap d k :
  bitmap_ok bitmap → (d < 1024)%nat → bm_bit (set_bit bitmap d) k = bool_decide (k = d) || bm_bit bitmap k.
Proof.
  intros [Hl _] Hd. unfold bm_bit, set_bit.
  rewrite byte_at_insert by (rewrite Hl; by apply div8_lt).
  destruct (decide (d / 8 = k / 8)%nat) as [He|He].
  - rewrite Z.lor_spec, He, Z.shiftl_1_l, Z.pow2_bits_eqb by lia. rewrite orb_comm. f_equal.
    destruct (decide (d mod 8 = k mod 8)%nat) as [Hm|Hm].
    + rewrite bool_decide_eq_true_2 by (symmetry; by apply divmod_eq). apply Z.eqb_eq. lia.
    + rewrite bool_decide_eq_false_2 by congruence. apply Z.eqb_neq. lia.
  - rewrite bool_decide_eq_false_2 by congruence. done.
Qed.

Lemma lor_byte a b : is_byte a → is_byte b → is_byte (Z.lor a b).
Proof.
  intros Ha Hb. assert (Z.lor a b = Z.lor a b mod 2 ^ 8) as ->; [|by apply Z.mod_pos_bound].
  apply Z.bits_inj'. intros i Hi. destruct (Z.lt_ge_cases i 8).
  - by rewrite Z.mod_pow2_bits_low.
  - rewrite Z.mod_pow2_bits_high, Z.lor_spec by lia.
    rewrite !(testbit_high_zero 8) by done. done.
Qed.

Lemma set_bit_ok bitmap d : bitmap_ok bitmap → bitmap_ok (set_bit bitmap d).
Proof.
  intros [Hl Hb]. split; [unfold set_bit; by rewrite length_insert|].
  apply Forall_insert; [done|]. apply lor_byte; [by apply byte_at_range|].
  rewrite Z.shiftl_1_l. unfold is_uint. pose proof (Nat.mod_upper_bound d 8).
  split; [apply Z.pow_nonneg; lia|]. apply Z.pow_lt_mono_r; lia.
Qed.

(** ** The in-place shift *)

(** The copying loop reads only bytes it has not yet overwritten. *)
Lemma copy_up_fold w k m l :
  (0 < w)%nat → (w ≤ k)%nat → length l = REPLAY_BITMAP_SIZE → (k + m = REPLAY_BITMAP_SIZE)%nat →
  let r := fold_left (λ b i, <[i := byte_at b (i - w)]> b) (reverse (seq k m)) l in
  length r = REPLAY_BITMAP_SIZE ∧
  ∀ j, (j < REPLAY_BITMAP_SIZE)%nat → byte_at r j = byte_at l (if decide (k ≤ j)%nat then j - w else j).
Proof.
  intros Hw Hk Hl. revert k Hk. induction m as [|m IH]; intros k Hk Hm; cbv zeta.
  { cbn. split; [done|]. intros j Hj. rewrite decide_False by lia. done. }
  rewrite <- cons_seq, reverse_cons, fold_left_app. cbn [fold_left].
  destruct (IH (S k)) as [IH1 IH2]; [lia|lia|]. cbv zeta in *.
  set (r := fold_left _ _ l) in *. split; [by rewrite length_insert|].
  intros j Hj. rewrite byte_at_insert by lia. case_decide as E.
  - subst j. rewrite IH2 by lia. rewrite decide_False by lia. by rewrite decide_True by lia.
  - rewrite IH2 by done. by repeat case_decide; try lia.
Qed.

Lemma clear_low_fold m l :
  (m ≤ length l)%nat →
  length (clear_low m l) = length l ∧
  ∀ j, byte_at (clear_low m l) j = if decide (j < m)%nat then 0 else byte_at l j.
Proof.
  unfold clear_low. induction m as [|m IH]; intros Hm.
  { split; [done|]. intros j. by rewrite decide_False by lia. }
  rewrite seq_S, fold_left_app. cbn [fold_left]. destruct IH as [IH1 IH2]; [lia|].
  split; [by rewrite length_insert|]. intros j. rewrite byte_at_insert by lia. rewrite IH2.
  repeat case_decide; try done; lia.
Qed.

Lemma shift_bits_length e c l : length (shift_bits e c l) = length l.
Proof. revert c. induction l; intros; cbn [shift_bits length]; auto. Qed.

Lemma shift_bits_ok e c l : bytes_ok (shift_bits e c l).
Proof. revert c. induction l; intros; constructor; auto using wrap_range. by apply wrap_range. Qed.

(** Byte [i] takes its low bits from byte [i - 1]. *)
Lemma shift_bits_byte e c l i :
  (i < length l)%nat →
  byte_at (shift_bits e c l) i =
  wrap 8 (Z.lor (Z.shiftl (byte_at l i) e)
    (match i with O => c | S k => wrap 8 (Z.shiftr (byte_at l k) (8 - e)) end)).
Proof.
  revert c i. induction l as [|b l IH]; intros c [|i] Hi; cbn [length] in Hi; [lia|lia|done|].
  unfold byte_at. cbn [shift_bits nth]. fold (byte_at (shift_bits e (wrap 8 (Z.shiftr b (8 - e))) l) i).
  rewrite IH by lia. unfold byte_at. by destruct i.
Qed.

Lemma shift_bits_bit e l d :
  (0 < e < 8)%nat → bytes_ok l → (d < 8 * length l)%nat →
  bm_bit (shift_bits (Z.of_nat e) 0 l) d = if decide (d < e)%nat then false else bm_bit l (d - e).
Proof.
  intros He Hb Hd. unfold bm_bit. pose proof (Nat.div_mod_eq d 8) as Hdm.
  pose proof (Nat.mod_upper_bound d 8 ltac:(lia)) as Hj. set (i := (d / 8)%nat) in *. set (j := (d mod 8)%nat) in *.
  rewrite shift_bits_byte by lia. unfold wrap. rewrite Z.mod_pow2_bits_low by lia.
  rewrite Z.lor_spec, Z.shiftl_spec by lia.
  assert (∀ k, Z.testbit ((Z.shiftr (byte_at l k) (8 - Z.of_nat e)) mod 2 ^ 8) (Z.of_nat j) =
    Z.testbit (byte_at l k) (Z.of_nat j + (8 - Z.of_nat e))) as Hcarry.
  { intros k. rewrite Z.mod_pow2_bits_low, Z.shiftr_spec by lia. done. }
  destruct (decide (e ≤ j)%nat) as [Hej|Hej].
  - assert (Z.testbit (match i with O => 0 | S k => Z.shiftr (byte_at l k) (8 - Z.of_nat e) mod 2 ^ 8 end)
      (Z.of_nat j) = false) as ->.
    { destruct i as [|k]; [apply Z.bits_0|]. rewrite Hcarry.
      apply (testbit_high_zero 8); [by apply byte_at_range|lia]. }
    rewrite orb_false_r, decide_False by lia.
    assert ((d - e) / 8 = i ∧ (d - e) mod 8 = j - e)%nat as [-> ->].
    { apply (Nat.div_mod_unique 8 _ _ _ _); [apply Nat.mod_upper_bound; lia|lia|].
      rewrite <- Nat.div_mod_eq. lia. }
    f_equal. lia.
  - rewrite Z.testbit_neg_r by lia. rewrite orb_false_l. destruct i as [|k].
    + rewrite Z.bits_0, decide_True by lia. done.
    + rewrite Hcarry, decide_False by lia.
      assert ((d - e) / 8 = k ∧ (d - e) mod 8 = j + 8 - e)%nat as [-> ->].
      { apply (Nat.div_mod_unique 8 _ _ _ _); [apply Nat.mod_upper_bound; lia|lia|].
        rewrite <- Nat.div_mod_eq. lia. }
      f_equal. lia.
Qed.

(** Moving whole bytes moves bits by multiples of eight. *)
Lemma whole_bytes_spec w l :
  (0 < w < REPLAY_BITMAP_SIZE)%nat → bitmap_ok l →
  let r := clear_low w (copy_up w l) in
  bitmap_ok r ∧
  ∀ d, (d < 1024)%nat → bm_bit r d = if decide (d < 8 * w)%nat then false else bm_bit l (d - 8 * w).
Proof.
  intros Hw [Hl Hb]. destruct (copy_up_fold w w (REPLAY_BITMAP_SIZE - w) l) as [Hc1 Hc2];
    [lia|lia|done|lia|]. fold (copy_up w l) in *. cbv zeta in *.
  destruct (clear_low_fold w (copy_up w l)) as [Hz1 Hz2]; [lia|].
  assert (∀ j, (j < REPLAY_BITMAP_SIZE)%nat →
    byte_at (clear_low w (copy_up w l)) j = if decide (j < w)%nat then 0 else byte_at l (j - w)) as Hbyte.
  { intros j Hj. rewrite Hz2. case_decide; [done|]. rewrite Hc2 by done. by rewrite decide_True by lia. }
  split; [split; [lia|]|].
  - apply Forall_lookup_2. intros j b Hjb. pose proof (lookup_lt_Some _ _ _ Hjb) as Hlt.
    specialize (Hbyte j ltac:(lia)). unfold byte_at at 1 in Hbyte. rewrite nth_lookup, Hjb in Hbyte.
    cbn in Hbyte. rewrite Hbyte. case_decide; [unfold is_uint; lia|by apply byte_at_range].
  - intros d Hd. unfold bm_bit. rewrite Hbyte by (by apply div8_lt).
    pose proof (Nat.div_mod_eq d 8) as Hdm. pose proof (Nat.mod_upper_bound d 8 ltac:(lia)) as Hj.
    repeat case_decide; try lia.
    + apply Z.bits_0.
    + assert ((d - 8 * w) / 8 = d / 8 - w ∧ (d - 8 * w) mod 8 = d mod 8)%nat as [-> ->]; [|done].
      apply (Nat.div_mod_unique 8 _ _ _ _); [apply Nat.mod_upper_bound; lia|lia|].
      rewrite <- Nat.div_mod_eq. lia.
Qed.

Lemma bm_bit_zero d : bm_bit (replicate REPLAY_BITMAP_SIZE 0) d = false.
Proof.
  unfold bm_bit, byte_at. rewrite nth_lookup.
  destruct (replicate REPLAY_BITMAP_SIZE 0 !! (d / 8)%nat) as [b|] eqn:E; [|apply Z.bits_0].
  apply lookup_replicate in E as [-> _]. apply Z.bits_0.
Qed.

Lemma zero_bitmap_ok : bitmap_ok (replicate REPLAY_BITMAP_SIZE 0).
Proof. split; [apply length_replicate|]. apply Forall_replicate. unfold is_uint. lia. Qed.

(** The shift moves every bit by [n] and shifts in zeros. *)
Lemma ShiftBitmapLeft_spec n l :
  (n < 1024)%nat → bitmap_ok l →
  bitmap_ok (ShiftBitmapLeft n l) ∧
  ∀ d, (d < 1024)%nat →
    bm_bit (ShiftBitmapLeft n l) d = if decide (d < n)%nat then false else bm_bit l (d - n).
Proof.
  intros Hn Hl. unfold ShiftBitmapLeft. rewrite (decide_False (P := (8 * REPLAY_BITMAP_SIZE ≤ n)%nat)) by (cbn; lia).
  case_decide as Hz.
  { split; [done|]. intros d Hd. rewrite decide_False by lia. f_equal. lia. }
  pose proof (Nat.div_mod_eq n 8) as Hdm. pose proof (Nat.mod_upper_bound n 8 ltac:(lia)) as Hj.
  pose proof (div8_lt n Hn) as Hw. cbv zeta.
  set (l1 := if decide (0 < n / 8)%nat then _ else l).
  assert (bitmap_ok l1 ∧ ∀ d, (d < 1024)%nat →
    bm_bit l1 d = if decide (d < 8 * (n / 8))%nat then false else bm_bit l (d - 8 * (n / 8))) as [H1 H2].
  { unfold l1. case_decide as E; [apply whole_bytes_spec; [unfold REPLAY_BITMAP_SIZE; lia|done]|].
    split; [done|]. intros d Hd. rewrite decide_False by lia. f_equal. lia. }
  case_decide as E.
  - split; [split; [rewrite shift_bits_length; apply H1|apply shift_bits_ok]|].
    intros d Hd. rewrite shift_bits_bit; [|lia|apply H1|rewrite (proj1 H1); cbn; lia].
    case_decide; [by rewrite decide_True by lia|]. rewrite H2 by lia.
    repeat case_decide; try lia; try done. f_equal. lia.
  - split; [done|]. intros d Hd. rewrite H2 by done.
    repeat case_decide; try lia; try done. f_equal. lia.
Qed.

(** ** Refinement *)

Definition replay_rel (w : P2PReplayWindow) (s : option ReplaySpec) : Prop :=
  match s with
  | None => w = Replay_Reset
  | Some s =>
      rw_initialized w = true ∧ rw_base w = sp_base s mod 2 ^ 64 ∧ bitmap_ok (rw_bitmap w) ∧
      (∀ x, x ∈ sp_seen s → x ≤ sp_base s) ∧
      ∀ d, (d < 1024)%nat → bm_bit (rw_bitmap w) d = bool_decide (sp_base s - Z.of_nat d ∈ sp_seen s)
  end.

(** The 32-bit view of the 64-bit base is the 32-bit view of the extended base. *)
Lemma base_mod base : wrap 32 (base mod 2 ^ 64) = base mod 2 ^ 32.
Proof.
  unfold wrap. change (2 ^ 64) with (2 ^ 32 * 2 ^ 32). rewrite Z.rem_mul_r by done.
  rewrite (Z.mul_comm (2 ^ 32)), Z_mod_plus_full. by apply Z.mod_mod.
Qed.

Lemma forward_mod base q : wrap 32 (q - wrap 32 (base mod 2 ^ 64)) = (q - base) mod 2 ^ 32.
Proof. rewrite base_mod. unfold wrap. apply Zminus_mod_idemp_r. Qed.

Lemma delta_mod base q : wrap 32 (wrap 32 (base mod 2 ^ 64) - q) = (base - q) mod 2 ^ 32.
Proof. rewrite base_mod. unfold wrap. apply Zminus_mod_idemp_l. Qed.

Lemma set_bit_zero l : bitmap_ok l → <[0%nat := Z.lor (byte_at l 0) 1]> l = set_bit l 0.
Proof. done. Qed.

Lemma replay_first q w s :
  s = None → replay_rel w s → is_uint 32 q → replay_rel (Replay_Accept w q).2 (spec_accept s q).2.
Proof.
  intros -> Hw Hq. cbn in Hw. subst w.
  assert ((Replay_Accept Replay_Reset q).2 = mkReplay q (set_bit (replicate REPLAY_BITMAP_SIZE 0) 0) true) as -> by done.
  cbn [spec_accept snd replay_rel rw_initialized rw_base rw_bitmap sp_base sp_seen].
  split; [done|]. split; [symmetry; apply Z.mod_small; uint_lia|]. split; [apply set_bit_ok, zero_bitmap_ok|].
  split; [intros x ->%elem_of_singleton; lia|].
  intros d Hd. rewrite bm_bit_set, bm_bit_zero, orb_false_r by (apply zero_bitmap_ok || lia).
  apply bool_decide_ext. rewrite elem_of_singleton. lia.
Qed.

(** Accepting a newer sequence: the bitmap slides and its bit is set. *)
Lemma replay_forward w s f :
  replay_rel w (Some s) → 0 < f < 2 ^ 31 →
  let bitmap := if REPLAY_WINDOW_SIZE <=? f then replicate REPLAY_BITMAP_SIZE 0
                else ShiftBitmapLeft (Z.to_nat f) (rw_bitmap w) in
  replay_rel (mkReplay (rw_base w +[64] f) (set_bit bitmap 0) true)
    (Some (mkSpec (sp_base s + f) ({[ sp_base s + f ]} ∪ sp_seen s))).
Proof.
  intros (Hi&Hb&Hok&Hle&Hbits) Hf bitmap.
  assert (bitmap_ok bitmap ∧ ∀ d, (d < 1024)%nat → bm_bit bitmap d =
    bool_decide (f ≤ Z.of_nat d) && bool_decide (sp_base s + f - Z.of_nat d ∈ sp_seen s)) as [Hbok Hbb].
  { unfold bitmap, REPLAY_WINDOW_SIZE. case_if as E; bool_props.
    - split; [apply zero_bitmap_ok|]. intros d Hd. rewrite bm_bit_zero, bool_decide_eq_false_2 by lia. done.
    - destruct (ShiftBitmapLeft_spec (Z.to_nat f) (rw_bitmap w)) as [H1 H2]; [lia|done|]. split; [done|].
      intros d Hd. rewrite H2 by done. case_decide.
      + by rewrite bool_decide_eq_false_2 by lia.
      + rewrite bool_decide_eq_true_2, Hbits by lia. cbn [andb]. do 2 f_equal.
        apply bool_decide_ext. by replace (sp_base s - Z.of_nat (d - Z.to_nat f)) with (sp_base s + f - Z.of_nat d) by lia. }
  split; [done|]. cbn [rw_base rw_bitmap sp_base sp_seen]. split.
  { rewrite Hb. unfold wrap. apply Zplus_mod_idemp_l. }
  split; [by apply set_bit_ok|]. split.
  { intros x [->%elem_of_singleton|Hx]%elem_of_union; [lia|]. specialize (Hle x Hx). lia. }
  intros d Hd. rewrite bm_bit_set, Hbb by (done || lia).
  rewrite <- bool_decide_and, <- bool_decide_or. apply bool_decide_ext.
  rewrite elem_of_union, elem_of_singleton. split.
  - intros [->|[_ Hx]]; [left; lia|by right].
  - intros [?|Hx]; [left; lia|]. right. split; [|done]. specialize (Hle _ Hx). lia.
Qed.

(** One call: same verdict, related states, and [IsDuplicate] predicts a refusal. *)
Lemma replay_step w s q :
  replay_rel w s → is_uint 32 q →
  (Replay_Accept w q).1 = (spec_accept s q).1 ∧
  replay_rel (Replay_Accept w q).2 (spec_accept s q).2 ∧
  Replay_IsDuplicate w q = negb (Replay_Accept w q).1.
Proof.
  intros Hrel Hq. destruct s as [s|].
  2: { split; [by cbn in Hrel; subst|]. split; [by apply replay_first|]. cbn in Hrel. by subst. }
  pose proof Hrel as (Hi&Hb&Hok&Hle&Hbits). unfold Replay_IsDuplicate, Replay_Accept, spec_accept, extend.
  rewrite Hi, Hb, forward_mod, delta_mod. cbn [negb]. cbv zeta.
  set (f := (q - sp_base s) mod 2 ^ 32). set (d := (sp_base s - q) mod 2 ^ 32).
  assert (0 ≤ d < 2 ^ 32) as Hd by (by apply Z.mod_pos_bound).
  assert (0 ≤ f < 2 ^ 32) as Hf by (by apply Z.mod_pos_bound).
  destruct (negb (f =? 0) && (f <? SequenceHalfRange)) eqn:Ef.
  - unfold SequenceHalfRange in Ef. bool_props.
    rewrite decide_False by (intros Hx; specialize (Hle _ Hx); lia).
    assert ((sp_base s + f <=? sp_base s - REPLAY_WINDOW_SIZE) = false) as ->
      by (apply Z.leb_gt; unfold REPLAY_WINDOW_SIZE; lia).
    cbn [fst snd]. split; [done|]. split; [|done].
    rewrite (Z.max_r (sp_base s) (sp_base s + f)) by lia.
    rewrite <- Hb. apply replay_forward; [done|lia].
  - destruct (REPLAY_WINDOW_SIZE <=? d) eqn:Ed.
    + rewrite (proj2 (Z.leb_le (sp_base s - d) (sp_base s - REPLAY_WINDOW_SIZE))) by blia.
      case_decide; by cbn.
    + assert ((sp_base s - d <=? sp_base s - REPLAY_WINDOW_SIZE) = false) as -> by (apply Z.leb_gt; blia).
      unfold REPLAY_WINDOW_SIZE in Ed. apply Z.leb_gt in Ed.
      rewrite bit_set_spec, Hbits by lia. rewrite Z2Nat.id by lia.
      case_decide as Hin.
      * rewrite bool_decide_eq_true_2 by done. by cbn.
      * rewrite bool_decide_eq_false_2 by done. cbn [fst snd negb]. split; [done|]. split; [|done].
        rewrite (Z.max_l (sp_base s) (sp_base s - d)) by lia.
        split; [done|]. cbn [rw_base rw_bitmap sp_base sp_seen]. split; [done|]. split; [by apply set_bit_ok|].
        split.
        { intros x [->%elem_of_singleton|Hx]%elem_of_union; [lia|by apply Hle]. }
        intros k Hk. rewrite bm_bit_set, Hbits by (done || lia). rewrite <- bool_decide_or.
        apply bool_decide_ext. rewrite elem_of_union, elem_of_singleton. split; (intros [?|?]; [left; lia|by right]).
Qed.

Lemma replay_run_rel w s qs :
  replay_rel w s → Forall (is_uint 32) qs →
  (run Replay_Accept w qs).1 = (run spec_accept s qs).1 ∧
  replay_rel (exec Replay_Accept w qs) (exec spec_accept s qs).
Proof.
  intros Hrel Hqs. revert w s Hrel. induction Hqs as [|q qs Hq _ IH]; intros w s Hrel; [done|].
  destruct (replay_step w s q Hrel Hq) as (H1&H2&_). destruct (IH _ _ H2) as [H3 H4].
  rewrite !run_results_cons, !exec_cons, H1, H3. done.
Qed.

(** C2: the replay window implements its specification: on every sequence of 32-bit sequence
    numbers, across any number of wrap-arounds, the bitmap with its in-place shifts gives
    exactly the verdicts of a memory that keeps every accepted extended number and refuses
    numbers it has seen or that are 1024 or more behind the highest one. *)
Theorem replay_refines qs :
  Forall (is_uint 32) qs →
  (run Replay_Accept Replay_Reset qs).1 = (run spec_accept None qs).1.
Proof. intros Hqs. by apply replay_run_rel. Qed.

(** ** No packet is accepted twice *)

Lemma spec_mono s q s' :
  (spec_accept (Some s) q).2 = Some s' → sp_base s ≤ sp_base s' ∧ sp_seen s ⊆ sp_seen s'.
Proof.
  unfold spec_accept. repeat (case_decide || case_if as E); cbn [snd]; intros [= <-]; cbn [sp_base sp_seen];
    (split; [lia|]); set_solver.
Qed.

Lemma spec_stays s q : (spec_accept (Some s) q).2 ≠ None.
Proof. unfold spec_accept. case_decide; [done|]. by case_if as E. Qed.

Lemma spec_run_mono s qs :
  ∃ s', exec spec_accept (Some s) qs = Some s' ∧ sp_base s ≤ sp_base s' ∧ sp_seen s ⊆ sp_seen s'.
Proof.
  revert s. induction qs as [|q qs IH]; intros s; [exists s; split; [done|]; split; [lia|set_solver]|].
  rewrite exec_cons. destruct (spec_accept (Some s) q).2 as [s1|] eqn:E.
  - destruct (IH s1) as (s'&H1&H2&H3). apply spec_mono in E as [? ?]. exists s'. split; [done|]. split; [lia|set_solver].
  - by apply spec_stays in E.
Qed.

(** Extending a 32-bit number back to one that is at most half the circle behind. *)
Lemma extend_back base x q :
  x mod 2 ^ 32 = q mod 2 ^ 32 → base - 2 ^ 31 ≤ x ≤ base → extend base q = x.
Proof.
  intros Hxq Hx. unfold extend.
  assert ((base - q) mod 2 ^ 32 = base - x) as Hd.
  { rewrite <- Zminus_mod_idemp_r, <- Hxq, Zminus_mod_idemp_r. apply Z.mod_small. lia. }
  assert ((q - base) mod 2 ^ 32 = 0 ∧ x = base ∨ 2 ^ 31 ≤ (q - base) mod 2 ^ 32) as Hf.
  { replace (q - base) with (- (base - q)) by lia. destruct (decide (x = base)) as [->|].
    - left. split; [|done]. rewrite Z.sub_diag in Hd. by apply Z_mod_zero_opp_full.
    - right. rewrite Z_mod_nz_opp_full by lia. lia. }
  unfold SequenceHalfRange. rewrite Hd. destruct Hf as [[-> ->]|Hf].
  - cbn [negb Z.eqb andb]. lia.
  - destruct (_ && _) eqn:E; [|lia]. bool_props. lia.
Qed.

Lemma extend_mod base q : extend base q mod 2 ^ 32 = q mod 2 ^ 32.
Proof.
  unfold extend. destruct (_ && _).
  - rewrite Zplus_mod_idemp_r. f_equal. lia.
  - rewrite Zminus_mod_idemp_r. f_equal. lia.
Qed.

Lemma spec_accepted_recent s q o :
  spec_accept s q = (true, o) →
  ∃ s', o = Some s' ∧ ∃ x, x ∈ sp_seen s' ∧ x mod 2 ^ 32 = q mod 2 ^ 32 ∧
    sp_base s' - 1024 < x ≤ sp_base s'.
Proof.
  unfold spec_accept, REPLAY_WINDOW_SIZE. destruct s as [s|].
  - case_decide; [done|]. case_if as E; [done|]. intros [= <-]. eexists. split; [done|].
    exists (extend (sp_base s) q). cbn [sp_seen sp_base]. split; [set_solver|]. split; [apply extend_mod|blia].
  - intros [= <-]. eexists. split; [done|]. exists q. cbn [sp_seen sp_base]. split; [set_solver|]. split; [done|lia].
Qed.

(** Distance the base has moved, modulo 2^64, between two states of the window. *)
Definition base_advance (w w' : P2PReplayWindow) : Z := rw_base w' -[64] rw_base w.

Lemma spec_advance s q s' :
  (spec_accept (Some s) q).2 = Some s' → sp_base s' - sp_base s < 2 ^ 31.
Proof.
  unfold spec_accept, extend. assert (0 ≤ (sp_base s - q) mod 2 ^ 32) by (by apply Z.mod_pos_bound).
  destruct (negb _ && _) eqn:E; repeat (case_decide || case_if as E1); cbn [snd]; intros [= <-]; cbn [sp_base];
    unfold SequenceHalfRange in E; try lia; bool_props; lia.
Qed.

Lemma spec_run_advance s qs s' :
  exec spec_accept (Some s) qs = Some s' → sp_base s' - sp_base s ≤ Z.of_nat (length qs) * 2 ^ 31.
Proof.
  revert s. induction qs as [|q qs IH]; intros s H; [injection H as <-; lia|].
  rewrite exec_cons in H. destruct (spec_accept (Some s) q).2 as [s1|] eqn:E.
  - apply spec_advance in E. apply IH in H. cbn [length]. lia.
  - by apply spec_stays in E.
Qed.

(** No packet is delivered twice: after a sequence number has been accepted, it is refused
    and reported as a duplicate after any further traffic during which the window's base has
    advanced by at most 2^31 - 1024, that is, until the 32-bit number itself is reused for a
    packet half the circle ahead. *)
Theorem replay_at_most_once prefix q qs :
  Forall (is_uint 32) prefix → is_uint 32 q → Forall (is_uint 32) qs → Z.of_nat (length qs) < 2 ^ 32 →
  let w := exec Replay_Accept Replay_Reset prefix in
  let w1 := (Replay_Accept w q).2 in
  let w2 := exec Replay_Accept w1 qs in
  (Replay_Accept w q).1 = true → base_advance w1 w2 ≤ 2 ^ 31 - 1024 →
  (Replay_Accept w2 q).1 = false ∧ Replay_IsDuplicate w2 q = true.
Proof.
  intros Hp Hq Hqs Hlen w w1 w2 Hacc Hadv.
  destruct (replay_run_rel Replay_Reset None prefix eq_refl Hp) as [_ Hrel]. fold w in Hrel.
  destruct (replay_step w _ q Hrel Hq) as (Hv&Hrel1&_). fold w1 in Hrel1. rewrite Hacc in Hv. symmetry in Hv.
  destruct (spec_accept (exec spec_accept None prefix) q) as [ok o1] eqn:E. cbn [fst snd] in *. subst ok.
  assert (∃ s1, o1 = Some s1 ∧ (∃ x, x ∈ sp_seen s1 ∧ x mod 2 ^ 32 = q mod 2 ^ 32 ∧
    sp_base s1 - 1024 < x ≤ sp_base s1)) as (s1&->&x&Hx&Hxq&Hxb) by (by eapply spec_accepted_recent).
  destruct (spec_run_mono s1 qs) as (s2&Hs2&Hb2&Hsub).
  destruct (replay_run_rel w1 (Some s1) qs Hrel1 Hqs) as [_ Hrel2]. fold w2 in Hrel2. rewrite Hs2 in Hrel2.
  pose proof (spec_run_advance s1 qs s2 Hs2) as Hbound.
  assert (base_advance w1 w2 = sp_base s2 - sp_base s1) as Ha.
  { unfold base_advance. destruct Hrel1 as (_&->&_), Hrel2 as (_&->&_). unfold wrap.
    rewrite <- Zminus_mod. apply Z.mod_small. lia. }
  destruct (replay_step w2 (Some s2) q Hrel2 Hq) as (H1&_&H3). rewrite H3, H1. clear H1 H3.
  assert ((spec_accept (Some s2) q).1 = false) as ->; [|done].
  unfold spec_accept. rewrite (extend_back (sp_base s2) x q) by (done || lia).
  by rewrite decide_True by set_solver.
Qed.

Lemma replay_refines_witness :
  (run Replay_Accept Replay_Reset [4294967290; 3; 4294967290; 5; 4; 4; 4294966000]).1 =
  (run spec_accept None [4294967290; 3; 4294967290; 5; 4; 4; 4294966000]).1.
Proof. apply replay_refines. decide_true. Defined.

Lemma replay_at_most_once_witness :
  (Replay_Accept (exec Replay_Accept Replay_Reset [4294967290; 3; 5; 9]) 3).1 = false.
Proof.
  apply (replay_at_most_once [4294967290] 3 [5; 9]); decide_true.
Defined.
