(* ===== verification/P2PHeader.v ===== *)
(** Packet headers of the peer-to-peer channel and frame coalescing
    ([src/ppp/p2p/P2PPacketHeader.h], with the flags and byte helpers of
    [src/ppp/p2p/P2PDefs.h]).

    A serializer returns the bytes it writes, a parser the header or [None] for [false].  Frames
    inside a coalesced payload are offset/length pairs, as in the source. *)

From S2P Require Import Prelude.

(** ** Flags and byte helpers *)

Definition TIER1_HEADER_SIZE : nat := 48.
Definition TIER2_HEADER_SIZE : nat := 16.
Definition MAX_COALESCED_FRAMES : nat := 16.
Definition MAX_ETHERNET_FRAME_SIZE : nat := 1514.
Definition SESSION_ID_SIZE : nat := 16.
Definition TOKEN_SIZE : nat := 16.

Definition P2P_FLAG_HEARTBEAT_REQ : Z := Z.shiftl 1 0.
Definition P2P_FLAG_HEARTBEAT_ACK : Z := Z.shiftl 1 1.
Definition P2P_FLAG_TIER : Z := Z.shiftl 1 2.
Definition P2P_FLAG_COALESCED : Z := Z.shiftl 1 3.
Definition P2P_FLAG_PROBE_REQ : Z := Z.shiftl 1 4.
Definition P2P_FLAG_PROBE_ACK : Z := Z.shiftl 1 5.

Definition has_flag (flags bit : Z) : bool := negb (Z.land flags bit =? 0).

Definition IsTier1 (flags : Z) : bool := has_flag flags P2P_FLAG_TIER.
Definition IsCoalesced (flags : Z) : bool := has_flag flags P2P_FLAG_COALESCED.
Definition IsHeartbeatReq (flags : Z) : bool := has_flag flags P2P_FLAG_HEARTBEAT_REQ.
Definition IsHeartbeatAck (flags : Z) : bool := has_flag flags P2P_FLAG_HEARTBEAT_ACK.
Definition IsProbeReq (flags : Z) : bool := has_flag flags P2P_FLAG_PROBE_REQ.
Definition IsProbeAck (flags : Z) : bool := has_flag flags P2P_FLAG_PROBE_ACK.

Definition NonceToBytes (nonce : Z) : list Z := be_bytes 8 nonce.
Definition BytesToNonce (buf : list Z) : Z := get64 buf.

(** The two 64-bit halves of a 128-bit identifier, high half first. *)
Definition Int128ToBytes (id : Z) : list Z :=
  be_bytes 8 (wrap 64 (Z.shiftr id 64)) ++ be_bytes 8 (wrap 64 id).

(** The constant-time comparison: every byte pair is folded into [diff]. *)
Definition SessionIdEqual (a b : list Z) : bool :=
  fold_left (λ diff i, Z.lor diff (Z.lxor (byte_at a i) (byte_at b i))) (seq 0 SESSION_ID_SIZE) 0 =? 0.

(** ** Tier 1 *)

Record P2PTier1Header := mkTier1 {
  t1_flags : Z;
  t1_session_id : list Z;
  t1_nonce : Z;
  t1_sequence : Z;
  t1_token : list Z
}.

Definition Tier1_Serialize (h : P2PTier1Header) (bufsz : nat) : option (list Z) :=
  if decide (bufsz < TIER1_HEADER_SIZE)%nat then None
  else Some ([Z.lor (t1_flags h) P2P_FLAG_TIER] ++ [80; 50; 80] ++ t1_session_id h ++
             NonceToBytes (t1_nonce h) ++ be_bytes 4 (t1_sequence h) ++ t1_token h).

Definition Tier1_Parse (buf : list Z) : option P2PTier1Header :=
  if decide (length buf < TIER1_HEADER_SIZE)%nat then None
  else if negb (has_flag (byte_at buf 0) P2P_FLAG_TIER) then None
  else if negb (byte_at buf 1 =? 80) || negb (byte_at buf 2 =? 50) || negb (byte_at buf 3 =? 80) then None
  else Some (mkTier1 (byte_at buf 0) (sub buf 4 SESSION_ID_SIZE) (BytesToNonce (drop 20 buf))
               (get32 (drop 28 buf)) (sub buf 32 TOKEN_SIZE)).

(** ** Tier 2 *)

Record P2PTier2Header := mkTier2 {
  t2_flags : Z;
  t2_channel_id : Z;
  t2_sequence : Z;
  t2_nonce : Z
}.

Definition Tier2_Serialize (h : P2PTier2Header) (bufsz : nat) : option (list Z) :=
  if decide (bufsz < TIER2_HEADER_SIZE)%nat then None
  else Some ([Z.land (t2_flags h) (Z.lxor 255 P2P_FLAG_TIER)] ++ [t2_channel_id h] ++ [0; 0] ++
             be_bytes 4 (t2_sequence h) ++ NonceToBytes (t2_nonce h)).

Definition Tier2_Parse (buf : list Z) : option P2PTier2Header :=
  if decide (length buf < TIER2_HEADER_SIZE)%nat then None
  else if has_flag (byte_at buf 0) P2P_FLAG_TIER then None
  else Some (mkTier2 (byte_at buf 0) (byte_at buf 1) (get32 (drop 4 buf)) (BytesToNonce (drop 8 buf))).

Definition DetectTier (buf : list Z) : Z :=
  if decide (length buf < 1)%nat then 0
  else if has_flag (byte_at buf 0) P2P_FLAG_TIER then 1 else 2.

(** ** Coalesced frames *)

(** The while loop from [offset] on, with [count] frames found; [fuel] bounds the iterations. *)
Fixpoint demux_loop (fuel : nat) (payload : list Z) (max_frames count offset : nat)
    : option (list (nat * nat)) :=
  match fuel with
  | O => None
  | S fuel =>
      if decide (offset + 2 ≤ length payload)%nat then
        if decide (max_frames ≤ count)%nat then None
        else
          let frame_len := Z.to_nat (get16 (drop offset payload)) in
          let offset := (offset + 2)%nat in
          if decide (frame_len = 0 ∨ length payload < offset + frame_len)%nat then None
          else (λ fs, (offset, frame_len) :: fs) <$>
                 demux_loop fuel payload max_frames (S count) (offset + frame_len)
      else if decide (offset = length payload) then Some [] else None
  end.

Definition DemuxCoalescedFrames (payload : list Z) (max_frames : nat) : option (list (nat * nat)) :=
  if decide (length payload = 0 ∨ max_frames = 0)%nat then None
  else demux_loop (S (length payload)) payload max_frames 0 0.

Fixpoint coalesce_loop (frames : list (list Z)) (outsz offset : nat) : option (list Z) :=
  match frames with
  | [] => Some []
  | f :: frames =>
      let flen := length f in
      if decide (flen = 0 ∨ MAX_ETHERNET_FRAME_SIZE < flen)%nat then None
      else if decide (outsz < offset + 2 + flen)%nat then None
      else (λ out, be_bytes 2 (Z.of_nat flen) ++ f ++ out) <$> coalesce_loop frames outsz (offset + 2 + flen)
  end.

Definition CoalesceFrames (frames : list (list Z)) (outsz : nat) : option (list Z) :=
  if decide (outsz = 0)%nat then None
  else if decide (length frames = 0 ∨ MAX_COALESCED_FRAMES < length frames)%nat then None
  else coalesce_loop frames outsz 0.

(** The frames a demultiplexing result points at. *)
Definition slices (payload : list Z) (fs : list (nat * nat)) : list (list Z) :=
  (λ ol, sub payload ol.1 ol.2) <$> fs.

(** ** Flags *)

Lemma has_flag_bit flags k : 0 ≤ k → has_flag flags (Z.shiftl 1 k) = Z.testbit flags k.
Proof.
  intros Hk. unfold has_flag. rewrite Z.shiftl_1_l. destruct (Z.testbit flags k) eqn:E.
  - apply negb_true_iff, Z.eqb_neq. intros H. apply (f_equal (λ x, Z.testbit x k)) in H.
    rewrite Z.land_spec, E, Z.pow2_bits_true, Z.bits_0 in H by lia. done.
  - apply negb_false_iff, Z.eqb_eq. apply Z.bits_inj'. intros i Hi. rewrite Z.land_spec, Z.bits_0.
    destruct (decide (i = k)) as [->|]; [by rewrite E|].
    rewrite Z.pow2_bits_false by lia. apply andb_false_r.
Qed.

Lemma tier_flag_set flags : has_flag (Z.lor flags P2P_FLAG_TIER) P2P_FLAG_TIER = true.
Proof. unfold P2P_FLAG_TIER. rewrite has_flag_bit, Z.lor_spec by lia. apply orb_true_r. Qed.

Lemma tier_flag_clear flags : has_flag (Z.land flags (Z.lxor 255 P2P_FLAG_TIER)) P2P_FLAG_TIER = false.
Proof. unfold P2P_FLAG_TIER. rewrite has_flag_bit, Z.land_spec by lia. apply andb_false_r. Qed.

(** Setting the tier bit of flags that have it changes nothing. *)
Lemma lor_tier_idem flags : has_flag flags P2P_FLAG_TIER = true → Z.lor flags P2P_FLAG_TIER = flags.
Proof.
  unfold P2P_FLAG_TIER. rewrite has_flag_bit by lia. intros H. apply Z.bits_inj'. intros i Hi.
  rewrite Z.lor_spec, Z.shiftl_1_l. destruct (decide (i = 2)) as [->|].
  - by rewrite H.
  - by rewrite Z.pow2_bits_false, orb_false_r by lia.
Qed.

Lemma land_tier_idem flags :
  is_byte flags → has_flag flags P2P_FLAG_TIER = false → Z.land flags (Z.lxor 255 P2P_FLAG_TIER) = flags.
Proof.
  intros Hb. unfold P2P_FLAG_TIER. rewrite has_flag_bit by lia. intros H. apply Z.bits_inj'. intros i Hi.
  rewrite Z.land_spec, Z.lxor_spec, Z.shiftl_1_l. change 255 with (Z.ones 8).
  destruct (Z.lt_ge_cases i 8).
  - rewrite Z.ones_spec_low by lia. destruct (decide (i = 2)) as [->|]; [by rewrite H|].
    rewrite Z.pow2_bits_false by lia. apply andb_true_r.
  - by rewrite (testbit_high_zero 8 flags) by done.
Qed.

(** ** Headers *)

Definition tier1_ok (h : P2PTier1Header) : Prop :=
  is_byte (t1_flags h) ∧ length (t1_session_id h) = SESSION_ID_SIZE ∧ bytes_ok (t1_session_id h) ∧
  is_uint 64 (t1_nonce h) ∧ is_uint 32 (t1_sequence h) ∧
  length (t1_token h) = TOKEN_SIZE ∧ bytes_ok (t1_token h).

Definition tier2_ok (h : P2PTier2Header) : Prop :=
  is_byte (t2_flags h) ∧ is_byte (t2_channel_id h) ∧ is_uint 32 (t2_sequence h) ∧ is_uint 64 (t2_nonce h).

Lemma tier1_length h bufsz p :
  tier1_ok h → Tier1_Serialize h bufsz = Some p → length p = TIER1_HEADER_SIZE.
Proof.
  intros (_&Hs&_&_&_&Ht&_). unfold Tier1_Serialize. case_decide; [done|]. intros <-%(inj Some).
  rewrite !length_app, Hs, Ht. unfold NonceToBytes. by rewrite !length_be_bytes.
Qed.

Lemma tier1_read_write h bufsz p rest :
  tier1_ok h → Tier1_Serialize h bufsz = Some p →
  Tier1_Parse (p ++ rest) =
  Some (mkTier1 (Z.lor (t1_flags h) P2P_FLAG_TIER) (t1_session_id h) (t1_nonce h) (t1_sequence h) (t1_token h)).
Proof.
  intros Hok Hp. pose proof (tier1_length h bufsz p Hok Hp) as Hlen.
  destruct Hok as (_&Hs&_&Hn&Hq&Ht&_). unfold SESSION_ID_SIZE, TOKEN_SIZE in *.
  unfold Tier1_Parse. rewrite decide_False by (rewrite length_app; lia). clear Hlen.
  unfold Tier1_Serialize in Hp. case_decide; [done|]. apply (inj Some) in Hp as <-.
  rewrite <- !(assoc_L (++)). unfold BytesToNonce, NonceToBytes. seg.
  unfold byte_at. cbn [nth Z.eqb negb orb Pos.eqb]. rewrite tier_flag_set. cbn [negb].
  rewrite Hs. cbn [Nat.sub]. rewrite !drop_0.
  rewrite get64_be_bytes, get32_be_bytes by done. rewrite !sub_here by done. done.
Qed.

Lemma tier1_write_read p h :
  bytes_ok p → Tier1_Parse p = Some h →
  tier1_ok h ∧ has_flag (t1_flags h) P2P_FLAG_TIER = true ∧
  Tier1_Serialize h TIER1_HEADER_SIZE = Some (take TIER1_HEADER_SIZE p).
Proof.
  intros Hb. unfold Tier1_Parse. case_decide as Hl; [done|]. case_if as Ef; [done|]. case_if as Em; [done|].
  intros [= <-]. unfold TIER1_HEADER_SIZE, SESSION_ID_SIZE, TOKEN_SIZE, BytesToNonce in *. bool_props.
  split; [|split; [done|]].
  - unfold tier1_ok. cbn [t1_flags t1_session_id t1_nonce t1_sequence t1_token].
    unfold SESSION_ID_SIZE, TOKEN_SIZE. rewrite !length_sub by lia.
    split; [by apply byte_at_range|]. split; [done|]. split; [by apply bytes_ok_sub|].
    split; [apply get64_range; [by apply bytes_ok_drop|rewrite length_drop; lia]|].
    split; [apply get32_range; [by apply bytes_ok_drop|rewrite length_drop; lia]|].
    split; [done|by apply bytes_ok_sub].
  - unfold Tier1_Serialize. rewrite decide_False by (unfold TIER1_HEADER_SIZE; lia). f_equal.
    cbn [t1_flags t1_session_id t1_nonce t1_sequence t1_token]. rewrite lor_tier_idem by done.
    unfold NonceToBytes. rewrite be_bytes_get64_sub, be_bytes_get32_sub by (done || lia).
    assert ([80; 50; 80] = [byte_at p 1] ++ [byte_at p 2] ++ [byte_at p 3]) as -> by (cbn; congruence).
    rewrite !sub_byte by lia. rewrite <- !(assoc_L (++)).
    rewrite (sub_join p 28 4), (sub_join p 20 8), (sub_join p 4 16), (sub_join p 3 1), (sub_join p 2 1),
      (sub_join p 1 1), (sub_join p 0 1). done.
Qed.

Lemma tier2_length h bufsz p :
  Tier2_Serialize h bufsz = Some p → length p = TIER2_HEADER_SIZE.
Proof.
  unfold Tier2_Serialize. case_decide; [done|]. intros <-%(inj Some).
  rewrite !length_app. unfold NonceToBytes. by rewrite !length_be_bytes.
Qed.

Lemma tier2_read_write h bufsz p rest :
  tier2_ok h → Tier2_Serialize h bufsz = Some p →
  Tier2_Parse (p ++ rest) =
  Some (mkTier2 (Z.land (t2_flags h) (Z.lxor 255 P2P_FLAG_TIER)) (t2_channel_id h) (t2_sequence h) (t2_nonce h)).
Proof.
  intros (_&_&Hq&Hn) Hp. pose proof (tier2_length h bufsz p Hp) as Hlen.
  unfold Tier2_Parse. rewrite decide_False by (rewrite length_app; lia). clear Hlen.
  unfold Tier2_Serialize in Hp. case_decide; [done|]. apply (inj Some) in Hp as <-.
  rewrite <- !(assoc_L (++)). unfold BytesToNonce, NonceToBytes. seg.
  unfold byte_at. cbn [nth]. rewrite tier_flag_clear. rewrite !drop_0.
  by rewrite get64_be_bytes, get32_be_bytes by done.
Qed.

(** The tier of a packet is visible in its first byte. *)
Lemma detect_tier_parse p :
  (Tier1_Parse p ≠ None → DetectTier p = 1) ∧ (Tier2_Parse p ≠ None → DetectTier p = 2).
Proof.
  unfold Tier1_Parse, Tier2_Parse, DetectTier, TIER1_HEADER_SIZE, TIER2_HEADER_SIZE.
  destruct (has_flag (byte_at p 0) P2P_FLAG_TIER); cbn [negb]; repeat case_decide; done || lia.
Qed.

(** Both packet headers survive the wire: whatever follows a serialized header in the
    datagram, parsing it gives back every field, with the tier bit forced to the header's tier;
    a packet never parses under both tiers; and a control header that parses re-serializes to
    the very bytes received, with all fields in range. *)
Theorem header_roundtrip :
  (∀ h bufsz rest, tier1_ok h → (TIER1_HEADER_SIZE ≤ bufsz)%nat → ∃ p, Tier1_Serialize h bufsz = Some p ∧
     Tier1_Parse (p ++ rest) = Some (mkTier1 (Z.lor (t1_flags h) P2P_FLAG_TIER) (t1_session_id h)
       (t1_nonce h) (t1_sequence h) (t1_token h))) ∧
  (∀ h bufsz rest, tier2_ok h → (TIER2_HEADER_SIZE ≤ bufsz)%nat → ∃ p, Tier2_Serialize h bufsz = Some p ∧
     Tier2_Parse (p ++ rest) = Some (mkTier2 (Z.land (t2_flags h) (Z.lxor 255 P2P_FLAG_TIER))
       (t2_channel_id h) (t2_sequence h) (t2_nonce h))) ∧
  (∀ p, ¬ (Tier1_Parse p ≠ None ∧ Tier2_Parse p ≠ None)) ∧
  (∀ p h, bytes_ok p → Tier1_Parse p = Some h →
     tier1_ok h ∧ Tier1_Serialize h TIER1_HEADER_SIZE = Some (take TIER1_HEADER_SIZE p)).
Proof.
  split; [|split; [|split]].
  - intros h bufsz rest Hok Hsz. destruct (Tier1_Serialize h bufsz) as [p|] eqn:E.
    + exists p. split; [done|]. by eapply tier1_read_write.
    + unfold Tier1_Serialize in E. case_decide; [lia|done].
  - intros h bufsz rest Hok Hsz. destruct (Tier2_Serialize h bufsz) as [p|] eqn:E.
    + exists p. split; [done|]. by eapply tier2_read_write.
    + unfold Tier2_Serialize in E. case_decide; [lia|done].
  - intros p [H1 H2]. apply detect_tier_parse in H1. apply detect_tier_parse in H2. congruence.
  - intros p h Hb Hp. destruct (tier1_write_read p h Hb Hp) as (?&_&?). done.
Qed.

(** ** Coalescing *)

(** What the loops agree on: length-prefixed frames back to back. *)
Definition framed (frames : list (list Z)) : list Z :=
  mjoin ((λ f, be_bytes 2 (Z.of_nat (length f)) ++ f) <$> frames).

Definition frame_ok (limit : Z) (f : list Z) : Prop := 0 < Z.of_nat (length f) ≤ limit.

Lemma coalesce_loop_spec frames outsz offset :
  coalesce_loop frames outsz offset =
  if decide (Forall (frame_ok (Z.of_nat MAX_ETHERNET_FRAME_SIZE)) frames ∧ (offset + length (framed frames) ≤ outsz)%nat ∨ frames = [])
  then Some (framed frames) else None.
Proof.
  revert offset. induction frames as [|f frames IH]; intros offset; cbn [coalesce_loop].
  { by rewrite decide_True by (by right). }
  assert (framed (f :: frames) = be_bytes 2 (Z.of_nat (length f)) ++ f ++ framed frames) as Hfr.
  { unfold framed. by rewrite fmap_cons, mjoin_cons, (assoc_L (++)). }
  assert (length (framed (f :: frames)) = 2 + length f + length (framed frames))%nat as Hlen
    by (rewrite Hfr, !length_app, length_be_bytes; lia).
  unfold frame_ok in *. case_decide as H1.
  { rewrite decide_False; [done|]. intros [[Hf _]|]; [|done]. apply Forall_cons in Hf as [? _]. lia. }
  case_decide as H2.
  { rewrite decide_False; [done|]. intros [[_ Hf]|]; [lia|done]. }
  rewrite IH. case_decide as H3; cbn [fmap option_fmap option_map].
  - rewrite decide_True; [by rewrite Hfr|]. left. destruct H3 as [[H3 H4]| ->].
    + split; [constructor; [lia|done]|lia].
    + split; [constructor; [lia|constructor]|]. cbn in *. lia.
  - rewrite decide_False; [done|]. intros [[Hf Hle]|]; [|done]. apply Forall_cons in Hf as [_ Hf].
    apply H3. left. split; [done|lia].
Qed.

Lemma framed_cons f frames : framed (f :: frames) = be_bytes 2 (Z.of_nat (length f)) ++ f ++ framed frames.
Proof. unfold framed. by rewrite fmap_cons, mjoin_cons, (assoc_L (++)). Qed.

(** The demultiplexer on a well-framed tail. *)
Lemma demux_framed pre frames fuel max count :
  Forall (frame_ok 65535) frames → (length (framed frames) < fuel)%nat → (count + length frames ≤ max)%nat →
  ∃ fs, demux_loop fuel (pre ++ framed frames) max count (length pre) = Some fs ∧
        slices (pre ++ framed frames) fs = frames.
Proof.
  intros Hok. revert pre fuel count. induction Hok as [|f frames Hf _ IH]; intros pre fuel count Hfuel Hmax.
  { destruct fuel as [|fuel]; [lia|]. cbn [framed fmap list_fmap mjoin list_join] in *.
    exists []. cbn [demux_loop]. rewrite decide_False by (rewrite length_app; cbn; lia).
    by rewrite decide_True by (rewrite length_app; cbn; lia). }
  destruct fuel as [|fuel]; [lia|]. rewrite framed_cons in *. unfold frame_ok in Hf.
  rewrite !length_app, length_be_bytes in Hfuel. cbn [length] in Hmax. cbn [demux_loop].
  rewrite decide_True by (rewrite !length_app, length_be_bytes; lia). rewrite decide_False by lia.
  rewrite drop_app_length, get16_be_bytes, Nat2Z.id by uint_lia.
  rewrite decide_False by (rewrite !length_app, length_be_bytes; lia).
  set (pre' := pre ++ be_bytes 2 (Z.of_nat (length f)) ++ f).
  assert (pre ++ be_bytes 2 (Z.of_nat (length f)) ++ f ++ framed frames = pre' ++ framed frames) as ->
    by (unfold pre'; by rewrite <- !(assoc_L (++))).
  assert (length pre + 2 + length f = length pre')%nat as -> by (unfold pre'; rewrite !length_app, length_be_bytes; lia).
  destruct (IH pre' fuel (S count)) as (fs&->&Hfs); [lia|lia|].
  eexists. split; [done|]. unfold slices in *. rewrite fmap_cons, Hfs. f_equal. cbn [fst snd].
  unfold pre'. rewrite <- !(assoc_L (++)). rewrite sub_skip by lia. rewrite sub_skip by (rewrite length_be_bytes; lia).
  rewrite length_be_bytes. replace (length pre + 2 - length pre - 2)%nat with 0%nat by lia. by apply sub_here.
Qed.

(** Frames found by the demultiplexer tile the rest of the payload. *)
Lemma demux_loop_inv fuel payload max count offset fs :
  bytes_ok payload → (offset ≤ length payload)%nat → demux_loop fuel payload max count offset = Some fs →
  (count + length fs ≤ max ∨ fs = [])%nat ∧
  Forall (λ ol, offset < ol.1 ∧ 0 < ol.2 ∧ ol.1 + ol.2 ≤ length payload)%nat fs ∧
  drop offset payload = framed (slices payload fs).
Proof.
  revert count offset fs. induction fuel as [|fuel IH]; intros count offset fs Hb Hoff H; [done|].
  cbn [demux_loop] in H. case_decide as H1.
  - case_decide as H2; [done|]. case_decide as H3; [done|].
    set (n := Z.to_nat (get16 (drop offset payload))) in *.
    apply fmap_Some in H as (fs'&Hfs&->). apply IH in Hfs as (Hc&Hall&Hd); [|done|lia].
    split; [left; cbn [length]; destruct Hc as [? | ->]; cbn [length]; lia|]. split.
    + constructor; [cbn; lia|]. eapply Forall_impl; [exact Hall|]. intros [o l] (?&?&?). cbn in *. lia.
    + assert (is_uint 16 (get16 (drop offset payload))) as Hn.
      { apply get16_range; [by apply bytes_ok_drop|rewrite length_drop; lia]. }
      unfold slices in *. rewrite fmap_cons, framed_cons, <- Hd. cbn [fst snd].
      rewrite length_sub by lia. unfold n at 1. rewrite Z2Nat.id by (unfold is_uint in Hn; lia).
      rewrite be_bytes_get16_sub by (done || lia).
      unfold sub. rewrite <- !drop_drop, !take_drop. done.
  - case_decide as H2; [|done]. injection H as <-. subst offset. split; [by right|]. split; [constructor|].
    rewrite drop_all. done.
Qed.

(** The loop never stops for lack of fuel: more fuel than bytes left changes nothing. *)
Lemma demux_fuel fuel fuel' payload max count offset :
  (length payload - offset < fuel)%nat → (length payload - offset < fuel')%nat →
  demux_loop fuel payload max count offset = demux_loop fuel' payload max count offset.
Proof.
  revert fuel' count offset. induction fuel as [|fuel IH]; intros [|fuel'] count offset H1 H2; try lia.
  cbn [demux_loop]. repeat case_decide; try done. f_equal. apply IH; lia.
Qed.

(** Coalescing loses nothing: frames that fit are packed into one payload, and the receiver
    with at least as many slots finds exactly those frames, in order. *)
Theorem coalesce_demux_roundtrip frames outsz p max :
  CoalesceFrames frames outsz = Some p → (length frames ≤ max)%nat →
  (length p ≤ outsz)%nat ∧
  ∃ fs, DemuxCoalescedFrames p max = Some fs ∧ slices p fs = frames.
Proof.
  unfold CoalesceFrames. case_decide as H1; [done|]. case_decide as H2; [done|].
  rewrite coalesce_loop_spec. case_decide as H3; [|done]. intros [= <-] Hmax.
  destruct H3 as [[Hf Hle]| ->]; [|cbn in H2; lia]. split; [lia|].
  unfold DemuxCoalescedFrames. destruct frames as [|f frames]; [cbn in H2; lia|].
  rewrite decide_False.
  2: { rewrite framed_cons, !length_app, length_be_bytes. cbn [length] in Hmax. lia. }
  apply (demux_framed [] (f :: frames)); [|lia|done].
  eapply Forall_impl; [exact Hf|]. unfold frame_ok. change (Z.of_nat MAX_ETHERNET_FRAME_SIZE) with 1514. intros; lia.
Qed.

(** The demultiplexer is safe on hostile input: whatever bytes arrive, every frame it
    reports lies inside the payload and is not empty, there are at most [max_frames], and the
    frames with their length prefixes are the whole payload, so no byte is read twice or
    skipped; anything else is refused. *)
Theorem demux_safe p max fs :
  bytes_ok p → DemuxCoalescedFrames p max = Some fs →
  (length fs ≤ max)%nat ∧
  Forall (λ ol, 0 < ol.1 ∧ 0 < ol.2 ∧ ol.1 + ol.2 ≤ length p)%nat fs ∧ p = framed (slices p fs).
Proof.
  intros Hb. unfold DemuxCoalescedFrames. case_decide as H0; [done|]. intros H.
  apply demux_loop_inv in H as (Hc&Hall&Hd); [|done|lia]. rewrite drop_0 in Hd.
  split; [destruct Hc as [| ->]; cbn in *; lia|]. done.
Qed.

Lemma coalesce_demux_roundtrip_witness :
  ∃ fs, DemuxCoalescedFrames [0; 2; 7; 8; 0; 1; 9] 16 = Some fs ∧
        slices [0; 2; 7; 8; 0; 1; 9] fs = [[7; 8]; [9]].
Proof.
  apply (coalesce_demux_roundtrip [[7; 8]; [9]] 100 [0; 2; 7; 8; 0; 1; 9] 16);
    [vm_compute; reflexivity|cbn; lia].
Defined.

Lemma demux_safe_witness :
  [0; 2; 7; 8; 0; 1; 9] = framed (slices [0; 2; 7; 8; 0; 1; 9] [(2, 2); (6, 1)]%nat).
Proof. apply (demux_safe _ 16 [(2, 2); (6, 1)]%nat); [decide_true|vm_compute; reflexivity]. Defined.

(** ** Identifiers *)

Lemma fold_lor_zero a b l acc :
  0 ≤ acc → (∀ i, i ∈ l → 0 ≤ Z.lxor (byte_at a i) (byte_at b i)) →
  fold_left (λ diff i, Z.lor diff (Z.lxor (byte_at a i) (byte_at b i))) l acc = 0 ↔
  acc = 0 ∧ ∀ i, i ∈ l → byte_at a i = byte_at b i.
Proof.
  revert acc. induction l as [|i l IH]; intros acc Hacc Hl; cbn [fold_left].
  { split; [intros ->; split; [done|]; by intros i Hi%not_elem_of_nil|tauto]. }
  assert (0 ≤ Z.lxor (byte_at a i) (byte_at b i)) as Hi by (apply Hl, elem_of_cons; by left).
  rewrite IH; [|by apply Z.lor_nonneg|intros j Hj; apply Hl, elem_of_cons; by right].
  rewrite Z.lor_eq_0_iff, Z.lxor_eq_0_iff. split.
  - intros [[? ?] Heq]. split; [done|]. intros j [->|Hj]%elem_of_cons; auto.
  - intros [? Heq]. split; [split; [done|apply Heq, elem_of_cons; by left]|].
    intros j Hj. apply Heq, elem_of_cons. by right.
Qed.

(** The constant-time comparison decides equality. *)
Lemma session_id_equal_spec a b :
  bytes_ok a → bytes_ok b → length a = SESSION_ID_SIZE → length b = SESSION_ID_SIZE →
  SessionIdEqual a b = true ↔ a = b.
Proof.
  intros Ha Hb Hla Hlb. unfold SessionIdEqual. rewrite Z.eqb_eq, fold_lor_zero; [|lia|].
  - split.
    + intros [_ H]. apply list_eq_same_length with SESSION_ID_SIZE; [done|done|].
      intros i x y Hi Hx Hy. assert (i ∈ seq 0 SESSION_ID_SIZE) as Hs by (apply elem_of_seq; lia).
      specialize (H i Hs). unfold byte_at in H. rewrite !nth_lookup, Hx, Hy in H. done.
    + intros ->. done.
  - intros i _. apply Z.lxor_nonneg. pose proof (byte_at_range a i Ha). pose proof (byte_at_range b i Hb).
    unfold is_uint in *. lia.
Qed.

Definition tier1_demo : P2PTier1Header := mkTier1 16 (replicate 16 171) 77 5 (replicate 16 1).

Lemma header_roundtrip_witness :
  ∃ p, Tier1_Serialize tier1_demo 64 = Some p ∧
    Tier1_Parse (p ++ [1; 2; 3]) = Some (mkTier1 20 (replicate 16 171) 77 5 (replicate 16 1)).
Proof.
  refine (proj1 header_roundtrip tier1_demo 64%nat [1; 2; 3] _ _); [|unfold TIER1_HEADER_SIZE; lia].
  unfold tier1_ok. decide_true.
Defined.
