(* ===== verification/P2PControl.v ===== *)
(** Control packets of the peer-to-peer handshake ([src/ppp/p2p/P2PControlPacket.h]).

    Fixed arrays are byte lists of the declared length; [control_typed] states the lengths and
    ranges the C++ types give.  Parsing reads fields at the offsets of the source. *)

From S2P Require Import Prelude.

(** ** Data *)

Inductive P2PControlType := CtlProbe | CtlProbeAck | CtlMigrateChallenge | CtlMigrateAck.

Definition control_type_byte (t : P2PControlType) : Z :=
  match t with CtlProbe => 1 | CtlProbeAck => 2 | CtlMigrateChallenge => 3 | CtlMigrateAck => 4 end.

#[global] Instance P2PControlType_eq_dec : EqDecision P2PControlType.
Proof. solve_decision. Defined.

Record P2PCandidateEndpoint := mkCandidate {
  ce_address_family : Z;
  ce_address : list Z;
  ce_port : Z
}.

#[global] Instance P2PCandidateEndpoint_eq_dec : EqDecision P2PCandidateEndpoint.
Proof. solve_decision. Defined.

Definition WireSize : nat := 126.
Definition ProbeAckWireSize : nat := WireSize + 32.

Record P2PControlPacket := mkControl {
  cp_version : Z;
  cp_type : P2PControlType;
  cp_offer_hash : list Z;
  cp_sender_role : Z;
  cp_receiver_role : Z;
  cp_direction : Z;
  cp_connection_epoch : list Z;
  cp_source : P2PCandidateEndpoint;
  cp_destination : P2PCandidateEndpoint;
  cp_sequence : Z;
  cp_nonce : list Z;
  cp_ttl_seconds : Z;
  cp_token : list Z;
  cp_probe_transcript_hash : list Z
}.

(** ** Validation *)

Definition all_zero (l : list Z) : bool := forallb (λ b, b =? 0) l.
Definition any_nonzero (l : list Z) : bool := existsb (λ b, negb (b =? 0)) l.

Definition IsCanonicalP2PCandidate (c : P2PCandidateEndpoint) : bool :=
  let a := ce_address c in
  if (negb (ce_address_family c =? 4) && negb (ce_address_family c =? 6)) || (ce_port c =? 0) then false
  else
    let mapped := all_zero (take 10 a) && (byte_at a 10 =? 255) && (byte_at a 11 =? 255) in
    if ce_address_family c =? 4 then mapped && any_nonzero (drop 12 a)
    else if negb (any_nonzero a) || mapped then false
    else
      let loopback := all_zero (take 15 a) && (byte_at a 15 =? 1) in
      let multicast := byte_at a 0 =? 255 in
      let link_local := (byte_at a 0 =? 254) && (Z.land (byte_at a 1) 192 =? 128) in
      let site_local := (byte_at a 0 =? 254) && (Z.land (byte_at a 1) 192 =? 192) in
      let unique_local := Z.land (byte_at a 0) 254 =? 252 in
      negb loopback && negb multicast && negb link_local && negb site_local && negb unique_local.

Definition ValidControlFields (p : P2PControlPacket) : bool :=
  let type := control_type_byte (cp_type p) in
  let is_probe_ack := bool_decide (cp_type p = CtlProbeAck) in
  (cp_version p =? 1) && (1 <=? type) && (type <=? 4) &&
  (cp_sender_role p <=? 1) && (cp_receiver_role p <=? 1) &&
  negb (cp_sender_role p =? cp_receiver_role p) && (cp_direction p =? cp_sender_role p) &&
  (1 <=? cp_ttl_seconds p) && (cp_ttl_seconds p <=? 30) &&
  IsCanonicalP2PCandidate (cp_source p) && IsCanonicalP2PCandidate (cp_destination p) &&
  Bool.eqb is_probe_ack (negb (bool_decide (cp_probe_transcript_hash p = replicate 32 0))).

(** ** Parsing *)

Definition parse_candidate (bytes : list Z) (offset : nat) : P2PCandidateEndpoint :=
  mkCandidate (byte_at bytes offset) (sub bytes (offset + 1) 16) (get16 (drop (offset + 17) bytes)).

Definition ParseCandidate (bytes : list Z) (offset : nat) : option P2PCandidateEndpoint :=
  let c := parse_candidate bytes offset in
  if IsCanonicalP2PCandidate c then Some c else None.

Definition control_type_of_byte (b : Z) : option P2PControlType :=
  if (b <? 1) || (4 <? b) then None
  else if b =? 1 then Some CtlProbe
  else if b =? 2 then Some CtlProbeAck
  else if b =? 3 then Some CtlMigrateChallenge
  else Some CtlMigrateAck.

Definition control_size (t : P2PControlType) : nat :=
  if decide (t = CtlProbeAck) then ProbeAckWireSize else WireSize.

Definition ParseP2PControlPacket (bytes : list Z) : option P2PControlPacket :=
  if decide (length bytes < WireSize)%nat then None
  else if negb (byte_at bytes 0 =? 1) || negb (byte_at bytes 2 =? 0) || negb (byte_at bytes 3 =? 0) then None
  else
    type ← control_type_of_byte (byte_at bytes 1);
    if decide (length bytes ≠ control_size type) then None
    else
      source ← ParseCandidate bytes 55;
      destination ← ParseCandidate bytes 74;
      let parsed := mkControl (byte_at bytes 0) type (sub bytes 4 32) (byte_at bytes 36) (byte_at bytes 37)
        (byte_at bytes 38) (sub bytes 39 16) source destination (get32 (drop 93 bytes)) (sub bytes 97 12)
        (byte_at bytes 109) (sub bytes 110 16)
        (if decide (type = CtlProbeAck) then sub bytes WireSize 32 else replicate 32 0) in
      if ValidControlFields parsed then Some parsed else None.

(** ** Serialization *)

Definition write_candidate (c : P2PCandidateEndpoint) : list Z :=
  [ce_address_family c] ++ ce_address c ++ be_bytes 2 (ce_port c).

Definition SerializeP2PControlPacket (p : P2PControlPacket) : option (list Z) :=
  if negb (ValidControlFields p) then None
  else Some ([cp_version p] ++ [control_type_byte (cp_type p)] ++ [0; 0] ++ cp_offer_hash p ++
    [cp_sender_role p] ++ [cp_receiver_role p] ++ [cp_direction p] ++ cp_connection_epoch p ++
    write_candidate (cp_source p) ++ write_candidate (cp_destination p) ++
    be_bytes 4 (cp_sequence p) ++ cp_nonce p ++ [cp_ttl_seconds p] ++ cp_token p ++
    (if decide (cp_type p = CtlProbeAck) then cp_probe_transcript_hash p else [])).

(** ** Round trips *)

Definition byte_array (n : nat) (l : list Z) : Prop := length l = n ∧ bytes_ok l.

Definition candidate_typed (c : P2PCandidateEndpoint) : Prop :=
  is_byte (ce_address_family c) ∧ byte_array 16 (ce_address c) ∧ is_uint 16 (ce_port c).

(** The ranges of the C++ types. *)
Record control_typed (p : P2PControlPacket) : Prop := {
  ct_version : is_byte (cp_version p);
  ct_offer_hash : byte_array 32 (cp_offer_hash p);
  ct_sender : is_byte (cp_sender_role p);
  ct_receiver : is_byte (cp_receiver_role p);
  ct_direction : is_byte (cp_direction p);
  ct_epoch : byte_array 16 (cp_connection_epoch p);
  ct_source : candidate_typed (cp_source p);
  ct_destination : candidate_typed (cp_destination p);
  ct_sequence : is_uint 32 (cp_sequence p);
  ct_nonce : byte_array 12 (cp_nonce p);
  ct_ttl : is_byte (cp_ttl_seconds p);
  ct_token : byte_array 16 (cp_token p);
  ct_transcript : byte_array 32 (cp_probe_transcript_hash p)
}.

Lemma control_type_roundtrip t : control_type_of_byte (control_type_byte t) = Some t.
Proof. by destruct t. Qed.

Lemma control_type_byte_inv b t : control_type_of_byte b = Some t → control_type_byte t = b.
Proof.
  unfold control_type_of_byte. repeat case_match; intros; simplify_eq; cbn [control_type_byte]; blia.
Qed.

Lemma length_write_candidate c : candidate_typed c → length (write_candidate c) = 19%nat.
Proof. intros (_&[Ha _]&_). unfold write_candidate. by rewrite !length_app, Ha, length_be_bytes. Qed.

Lemma parse_write_candidate c r bytes off :
  candidate_typed c → drop off bytes = write_candidate c ++ r → parse_candidate bytes off = c.
Proof.
  intros (Hf&[Ha _]&Hp) Hd. unfold parse_candidate, sub.
  assert (byte_at bytes off = byte_at (drop off bytes) 0) as ->
    by (unfold byte_at; rewrite !nth_lookup, lookup_drop; do 2 f_equal; lia).
  rewrite <- !drop_drop, Hd. unfold write_candidate. rewrite <- !(assoc_L (++)).
  seg. unfold byte_at. cbn [nth]. rewrite Ha. cbn [Nat.sub]. rewrite !drop_0.
  rewrite take_app_length' by done. rewrite get16_be_bytes by done. by destruct c.
Qed.

Lemma write_parse_candidate bytes off :
  bytes_ok bytes → (off + 19 ≤ length bytes)%nat → write_candidate (parse_candidate bytes off) = sub bytes off 19.
Proof.
  intros Hb Hl. unfold write_candidate, parse_candidate. cbn [ce_address_family ce_address ce_port].
  rewrite sub_byte, be_bytes_get16_sub by (done || lia).
  replace (off + 17)%nat with (off + 1 + 16)%nat by lia. by rewrite (sub_join bytes (off + 1) 16), sub_join.
Qed.

Lemma control_length p bytes :
  control_typed p → SerializeP2PControlPacket p = Some bytes → length bytes = control_size (cp_type p).
Proof.
  intros [? [H1 _] ? ? ? [H2 _] H3 H4 ? [H5 _] ? [H6 _] [H7 _]]. unfold SerializeP2PControlPacket.
  case_if as E; [done|]. intros <-%(inj Some). rewrite !length_app, H1, H2, H5, H6, length_be_bytes.
  rewrite !length_write_candidate by done. unfold control_size, ProbeAckWireSize, WireSize. cbn [length].
  case_decide; [by rewrite H7|done].
Qed.

(** Control packets survive the wire exactly: every packet the serializer accepts is
    parsed back field by field, including the transcript hash that only probe
    acknowledgements carry. *)
Theorem control_parse_serialize p bytes :
  control_typed p → SerializeP2PControlPacket p = Some bytes → ParseP2PControlPacket bytes = Some p.
Proof.
  intros Hok Hs. pose proof (control_length p bytes Hok Hs) as Hlen.
  destruct Hok as [? [H1 _] ? ? ? [H2 _] H3 H4 Hq [H5 _] ? [H6 _] [H7 _]].
  unfold SerializeP2PControlPacket in Hs. destruct (ValidControlFields p) eqn:Hv; [|done]. cbn [negb] in Hs.
  assert (WireSize ≤ control_size (cp_type p))%nat as Hsz
    by (unfold control_size, ProbeAckWireSize; case_decide; lia).
  pose proof (length_write_candidate _ H3) as Hw1. pose proof (length_write_candidate _ H4) as Hw2.
  pose proof Hv as Hfields. unfold ValidControlFields in Hfields. rewrite !andb_true_iff in Hfields.
  destruct Hfields as (((((((((((Hver&_)&_)&_)&_)&_)&_)&_)&_)&Hsrc)&Hdst)&Htr). apply Z.eqb_eq in Hver.
  apply Bool.eqb_prop in Htr.
  apply (inj Some) in Hs. unfold ParseP2PControlPacket. rewrite decide_False by lia.
  assert (byte_at bytes 0 = cp_version p ∧ byte_at bytes 1 = control_type_byte (cp_type p) ∧
    byte_at bytes 2 = 0 ∧ byte_at bytes 3 = 0) as (->&->&->&->) by (rewrite <- Hs; seg; done).
  rewrite Hver. cbn [Z.eqb Pos.eqb negb orb]. rewrite control_type_roundtrip. cbn [mbind option_bind].
  rewrite decide_False by (intros Hne; by apply Hne).
  assert (parse_candidate bytes 55 = cp_source p) as Hpc1.
  { eapply parse_write_candidate; [done|]. rewrite <- Hs. seg. rewrite !H1, !H2. cbn [Nat.sub]. by rewrite drop_0. }
  assert (parse_candidate bytes 74 = cp_destination p) as Hpc2.
  { eapply parse_write_candidate; [done|]. rewrite <- Hs. seg. rewrite !H1, !H2, !Hw1. cbn [Nat.sub]. by rewrite drop_0. }
  unfold ParseCandidate. rewrite Hpc1, Hpc2, Hsrc, Hdst. cbn [mbind option_bind].
  assert (mkControl 1 (cp_type p) (sub bytes 4 32) (byte_at bytes 36) (byte_at bytes 37)
        (byte_at bytes 38) (sub bytes 39 16) (cp_source p) (cp_destination p) (get32 (drop 93 bytes)) (sub bytes 97 12)
        (byte_at bytes 109) (sub bytes 110 16)
        (if decide (cp_type p = CtlProbeAck) then sub bytes WireSize 32 else replicate 32 0) = p) as ->;
    [|by rewrite Hv].
  assert ((if decide (cp_type p = CtlProbeAck) then sub bytes WireSize 32 else replicate 32 0) =
    cp_probe_transcript_hash p) as ->.
  { case_decide as Ht.
    - rewrite <- Hs. unfold WireSize. seg. rewrite !H1, !H2, !Hw1, !Hw2, !H5, !H6. cbn [Nat.sub].
      by apply sub_all.
    - rewrite bool_decide_eq_false_2 in Htr by done. symmetry in Htr. apply negb_false_iff in Htr.
      by apply bool_decide_eq_true_1 in Htr. }
  rewrite <- Hs. seg. rewrite !H1, !H2, !Hw1, !Hw2, !H5. cbn [Nat.sub]. rewrite !drop_0.
  rewrite !sub_here by done. rewrite get32_be_bytes by done. unfold byte_at. cbn [nth].
  destruct p. cbn in *. by subst.
Qed.

(** The control parser is strict and canonical: whatever bytes arrive, what it accepts has
    valid fields (roles distinct, direction the sender's, lifetime of 1 to 30 seconds, canonical
    endpoints, a transcript exactly on probe acknowledgements) and re-serializes to the very
    bytes received, so no two encodings stand for the same packet. *)
Theorem control_serialize_parse bytes p :
  bytes_ok bytes → ParseP2PControlPacket bytes = Some p →
  ValidControlFields p = true ∧ SerializeP2PControlPacket p = Some bytes.
Proof.
  intros Hb. unfold ParseP2PControlPacket. case_decide as Hl; [done|]. case_if as Eh; [done|].
  intros (t&Ht&H)%bind_Some. case_decide as Hsz; [done|].
  apply bind_Some in H as (src&Hsrc&H). apply bind_Some in H as (dst&Hdst&H).
  destruct (ValidControlFields _) eqn:Hv in H; [|done]. apply (inj Some) in H. rewrite H in Hv. split; [done|].
  unfold SerializeP2PControlPacket. rewrite Hv. cbn [negb]. f_equal. rewrite <- H.
  cbn [cp_version cp_type cp_offer_hash cp_sender_role cp_receiver_role cp_direction cp_connection_epoch cp_source
    cp_destination cp_sequence cp_nonce cp_ttl_seconds cp_token cp_probe_transcript_hash].
  unfold ParseCandidate in Hsrc, Hdst.
  destruct (IsCanonicalP2PCandidate (parse_candidate bytes 55)); [|done].
  destruct (IsCanonicalP2PCandidate (parse_candidate bytes 74)); [|done].
  apply (inj Some) in Hsrc, Hdst. subst src dst. apply control_type_byte_inv in Ht as Htb. rewrite Htb.
  unfold WireSize in *. bool_props.
  assert ([0; 0] = [byte_at bytes 2] ++ [byte_at bytes 3]) as -> by (cbn; congruence).
  rewrite !write_parse_candidate by (done || lia). rewrite be_bytes_get32_sub by (done || lia).
  rewrite !sub_byte by lia. rewrite <- !(assoc_L (++)).
  assert (length bytes = if decide (t = CtlProbeAck) then 158 else 126)%nat as Hlen by exact Hsz.
  assert ((if decide (t = CtlProbeAck) then if decide (t = CtlProbeAck) then sub bytes 126 32 else replicate 32 0
    else []) = if decide (t = CtlProbeAck) then sub bytes 126 32 else []) as -> by (by case_decide).
  assert (sub bytes 110 16 ++ (if decide (t = CtlProbeAck) then sub bytes 126 32 else []) =
    sub bytes 110 (length bytes - 110)) as ->.
  { destruct (decide (t = CtlProbeAck)).
    - rewrite (sub_join bytes 110 16). f_equal. lia.
    - rewrite app_nil_r. f_equal. lia. }
  rewrite (sub_join bytes 109 1), (sub_join bytes 97 12), (sub_join bytes 93 4), (sub_join bytes 74 19),
    (sub_join bytes 55 19), (sub_join bytes 39 16), (sub_join bytes 38 1), (sub_join bytes 37 1), (sub_join bytes 36 1),
    (sub_join bytes 4 32), (sub_join bytes 3 1), (sub_join bytes 2 1), (sub_join bytes 1 1), (sub_join bytes 0 1).
  apply sub_all. lia.
Qed.

(** ** Concrete packets *)

Definition mapped_v4 (a b c d : Z) : list Z := replicate 10 0 ++ [255; 255; a; b; c; d].

Definition control_demo : P2PControlPacket :=
  mkControl 1 CtlProbeAck (replicate 32 7) 0 1 0 (replicate 16 9)
    (mkCandidate 4 (mapped_v4 203 0 113 5) 40000) (mkCandidate 4 (mapped_v4 198 51 100 9) 40001)
    66051 (replicate 12 3) 15 (replicate 16 200) (replicate 32 1).

Definition control_demo_bytes : list Z :=
  default [] (SerializeP2PControlPacket control_demo).

Lemma control_demo_typed : control_typed control_demo.
Proof. split; unfold candidate_typed, byte_array; decide_true. Qed.

Lemma control_parse_serialize_witness :
  ParseP2PControlPacket control_demo_bytes = Some control_demo.
Proof. apply (control_parse_serialize _ _ control_demo_typed). vm_compute. reflexivity. Defined.

Lemma control_serialize_parse_witness :
  SerializeP2PControlPacket control_demo = Some control_demo_bytes.
Proof. apply (control_serialize_parse control_demo_bytes control_demo); [decide_true|vm_compute; reflexivity]. Defined.

(** The endpoint filter is narrower than a global-unicast test: the documentation prefix
    2001:db8::/32 and every non-zero IPv4 address, loopback and private ones included, pass. *)
Example canonical_accepts_documentation_prefix :
  IsCanonicalP2PCandidate (mkCandidate 6 ([32; 1; 13; 184] ++ replicate 11 0 ++ [1]) 4500) = true.
Proof. reflexivity. Qed.

Example canonical_accepts_v4_loopback :
  IsCanonicalP2PCandidate (mkCandidate 4 (mapped_v4 127 0 0 1) 4500) = true ∧
  IsCanonicalP2PCandidate (mkCandidate 4 (mapped_v4 10 0 0 1) 4500) = true.
Proof. split; reflexivity. Qed.
