(* ===== verification/P2PState.v ===== *)
(** Peer-to-peer control state machine and its capability gate ([src/ppp/p2p/P2PState.h],
    [P2PControlStateMachine.h], [P2PAuthenticatedProbeAck.h], [P2PCapabilityGate.h], and the
    channel predicates of [P2PDefs.h]).

    The authentication proofs are move-only objects with a validity flag; the factory's proofs
    are the list [ps_proofs] of such flags, and an event names the proof it presents by position,
    so that presenting the same proof twice is expressible. *)

From S2P Require Import Prelude.

Local Open Scope string_scope.
Local Open Scope Z_scope.

(** ** States and names *)

Inductive P2PState :=
  | P2PDisabled | P2PUnavailable | P2PRelay | P2PEligible | P2PProbing | P2PDirect | P2PSuspect
  | P2PFallingBack | P2PFailed.

Inductive P2PFallbackReason :=
  | FbNone | FbTimeout | FbAuthenticationFailure | FbSocketError | FbMigrationFailure.

#[global] Instance P2PState_eq_dec : EqDecision P2PState.
Proof. solve_decision. Defined.
#[global] Instance P2PFallbackReason_eq_dec : EqDecision P2PFallbackReason.
Proof. solve_decision. Defined.

Definition P2PFallbackReason_ToString (reason : P2PFallbackReason) : string :=
  match reason with
  | FbNone => "none"
  | FbTimeout => "timeout"
  | FbAuthenticationFailure => "authentication_failure"
  | FbSocketError => "socket_error"
  | FbMigrationFailure => "migration_failure"
  end.

Definition P2PState_ToString (state : P2PState) : string :=
  match state with
  | P2PDisabled => "disabled"
  | P2PUnavailable => "unavailable"
  | P2PRelay => "relay"
  | P2PEligible => "eligible"
  | P2PProbing => "probing"
  | P2PDirect => "direct"
  | P2PSuspect => "suspect"
  | P2PFallingBack => "falling_back"
  | P2PFailed => "failed"
  end.

Definition ParseP2PState (value : string) : P2PState :=
  if bool_decide (value = "disabled") then P2PDisabled
  else if bool_decide (value = "relay") then P2PRelay
  else if bool_decide (value = "eligible") then P2PEligible
  else if bool_decide (value = "probing") then P2PProbing
  else if bool_decide (value = "direct") then P2PDirect
  else if bool_decide (value = "suspect") then P2PSuspect
  else if bool_decide (value = "falling_back") then P2PFallingBack
  else if bool_decide (value = "failed") then P2PFailed
  else P2PUnavailable.

Definition EffectivePath (state : P2PState) : string :=
  if decide (state = P2PDirect) then "direct" else "relay".

(** ** Channel predicates *)

Inductive P2PChannelState := ChRelay | ChProbing | ChDirect | ChSuspect.

Definition CanProcessAuthenticatedP2PTier2 (state : P2PChannelState) : bool :=
  match state with ChDirect | ChSuspect => true | _ => false end.

Definition CanForwardP2PPayload (state : P2PChannelState) : bool :=
  match state with ChDirect => true | _ => false end.

(** ** Capability gate *)

Record P2PCapabilityDecision := mkDecision {
  cd_allowed : bool;
  cd_state : P2PState;
  cd_reason : string
}.

(** [requested_mode] is [None] for a null pointer. *)
Definition CapabilityGate_Evaluate (experimental_enabled : bool) (requested_mode : option string)
    (authenticated_exporter_available socket_protection_ready authenticated_control_v1_ready : bool)
    : P2PCapabilityDecision :=
  if negb experimental_enabled then mkDecision false P2PDisabled "p2p-disabled"
  else if negb (bool_decide (requested_mode = Some "direct-preferred"))
  then mkDecision false P2PRelay "relay-only"
  else if negb authenticated_exporter_available
  then mkDecision false P2PUnavailable "authenticated-exporter-unavailable"
  else if negb socket_protection_ready
  then mkDecision false P2PUnavailable "socket-protection-unavailable"
  else if negb authenticated_control_v1_ready
  then mkDecision false P2PUnavailable "authenticated-control-v1-unavailable"
  else mkDecision true P2PEligible "eligible".

(** ** The machine *)

Record P2PControlStateMachine := mkMachine {
  sm_state : P2PState;
  sm_fallback_reason : P2PFallbackReason
}.

Definition Machine_new : P2PControlStateMachine := mkMachine P2PRelay FbNone.

Definition EffectivePathFor (state : P2PState) : string :=
  if decide (state = P2PDirect) then "direct" else "relay".

Definition CanForwardDataFor (state : P2PState) : bool := bool_decide (state = P2PDirect).

Definition Machine_Move (m : P2PControlStateMachine) (from to : P2PState) : bool * P2PControlStateMachine :=
  if decide (sm_state m ≠ from) then (false, m) else (true, mkMachine to (sm_fallback_reason m)).

Definition Machine_MarkEligible (m : P2PControlStateMachine) : bool * P2PControlStateMachine :=
  if decide (sm_state m ≠ P2PRelay ∧ sm_state m ≠ P2PUnavailable ∧ sm_state m ≠ P2PFailed) then (false, m)
  else (true, mkMachine P2PEligible FbNone).

Definition Machine_AcceptOffer (m : P2PControlStateMachine) : bool * P2PControlStateMachine :=
  Machine_Move m P2PEligible P2PProbing.

(** [Consume] exchanges the flag with [false]. *)
Definition ProbeAck_Consume (valid : bool) : bool * bool := (valid, false).

(** [AcceptProbeAck(ack)] and [AcceptRecoveryAck(ack)] with a proof whose flag is [valid]: the
    verdict, the machine and the proof's flag afterwards. *)
Definition Machine_AcceptProbeAck (m : P2PControlStateMachine) (valid : bool)
    : bool * P2PControlStateMachine * bool :=
  if decide (sm_state m ≠ P2PProbing) then (false, m, valid)
  else
    let '(ok, valid) := ProbeAck_Consume valid in
    if negb ok then (false, m, valid) else (Machine_Move m P2PProbing P2PDirect, valid).

Definition Machine_MarkSuspect (m : P2PControlStateMachine) : bool * P2PControlStateMachine :=
  Machine_Move m P2PDirect P2PSuspect.

Definition Machine_AcceptRecoveryAck (m : P2PControlStateMachine) (valid : bool)
    : bool * P2PControlStateMachine * bool :=
  if decide (sm_state m ≠ P2PSuspect) then (false, m, valid)
  else
    let '(ok, valid) := ProbeAck_Consume valid in
    if negb ok then (false, m, valid) else (Machine_Move m P2PSuspect P2PDirect, valid).

(** The overloads that take a [bool] refuse always. *)
Definition Machine_AcceptProbeAck_bool (m : P2PControlStateMachine) (_ : bool)
    : bool * P2PControlStateMachine := (false, m).
Definition Machine_AcceptRecoveryAck_bool (m : P2PControlStateMachine) (_ : bool)
    : bool * P2PControlStateMachine := (false, m).

Definition Machine_RecoverFromAuthenticatedData (m : P2PControlStateMachine) : bool * P2PControlStateMachine :=
  Machine_Move m P2PSuspect P2PDirect.

Definition Machine_BeginFallback (m : P2PControlStateMachine) (reason : P2PFallbackReason)
    : bool * P2PControlStateMachine :=
  if decide (reason = FbNone) then (false, m)
  else if decide (sm_state m ≠ P2PEligible ∧ sm_state m ≠ P2PProbing ∧ sm_state m ≠ P2PDirect ∧
                  sm_state m ≠ P2PSuspect) then (false, m)
  else (true, mkMachine P2PFallingBack reason).

Definition Machine_CompleteFallback (m : P2PControlStateMachine) (prerequisites_available : bool)
    : bool * P2PControlStateMachine :=
  if decide (sm_state m ≠ P2PFallingBack) then (false, m)
  else (true, mkMachine (if prerequisites_available then P2PRelay else P2PUnavailable) (sm_fallback_reason m)).

Definition Machine_Disable (m : P2PControlStateMachine) : bool * P2PControlStateMachine :=
  if decide (sm_state m = P2PDisabled) then (false, m)
  else if decide (sm_state m = P2PEligible ∨ sm_state m = P2PProbing ∨ sm_state m = P2PDirect ∨
                  sm_state m = P2PSuspect) then (false, m)
  else (true, mkMachine P2PDisabled (sm_fallback_reason m)).

Local Close Scope string_scope.

(** ** Traces *)

Record P2PSystem := mkSystem { ps_machine : P2PControlStateMachine; ps_proofs : list bool }.

Inductive P2PEvent :=
  | EvCreateProof
  | EvMarkEligible
  | EvAcceptOffer
  | EvProbeAckBool (b : bool)
  | EvProbeAck (proof : nat)
  | EvMarkSuspect
  | EvRecoveryAckBool (b : bool)
  | EvRecoveryAck (proof : nat)
  | EvAuthenticatedData
  | EvBeginFallback (reason : P2PFallbackReason)
  | EvCompleteFallback (prerequisites_available : bool)
  | EvDisable.

Definition with_machine (s : P2PSystem) (r : bool * P2PControlStateMachine) : bool * P2PSystem :=
  (r.1, mkSystem r.2 (ps_proofs s)).

Definition present_proof (s : P2PSystem) (i : nat)
    (accept : P2PControlStateMachine → bool → bool * P2PControlStateMachine * bool) : bool * P2PSystem :=
  match ps_proofs s !! i with
  | None => (false, s)
  | Some valid =>
      let '(ok, m, valid') := accept (ps_machine s) valid in
      (ok, mkSystem m (<[i := valid']> (ps_proofs s)))
  end.

Definition p2p_step (s : P2PSystem) (e : P2PEvent) : bool * P2PSystem :=
  let m := ps_machine s in
  match e with
  | EvCreateProof => (false, mkSystem m (ps_proofs s ++ [true]))
  | EvMarkEligible => with_machine s (Machine_MarkEligible m)
  | EvAcceptOffer => with_machine s (Machine_AcceptOffer m)
  | EvProbeAckBool b => with_machine s (Machine_AcceptProbeAck_bool m b)
  | EvProbeAck i => present_proof s i Machine_AcceptProbeAck
  | EvMarkSuspect => with_machine s (Machine_MarkSuspect m)
  | EvRecoveryAckBool b => with_machine s (Machine_AcceptRecoveryAck_bool m b)
  | EvRecoveryAck i => present_proof s i Machine_AcceptRecoveryAck
  | EvAuthenticatedData => with_machine s (Machine_RecoverFromAuthenticatedData m)
  | EvBeginFallback reason => with_machine s (Machine_BeginFallback m reason)
  | EvCompleteFallback b => with_machine s (Machine_CompleteFallback m b)
  | EvDisable => with_machine s (Machine_Disable m)
  end.

(** The proofs whose presentation succeeded, in order. *)
Definition proof_of (er : P2PEvent * bool) : option nat :=
  match er with
  | (EvProbeAck i, true) | (EvRecoveryAck i, true) => Some i
  | _ => None
  end.

Definition proofs_used (events : list P2PEvent) (results : list bool) : list nat :=
  omap proof_of (zip events results).

(** ** The intended transitions *)

Inductive p2p_edge : P2PState → P2PState → Prop :=
  | edge_eligible s : s = P2PRelay ∨ s = P2PUnavailable ∨ s = P2PFailed → p2p_edge s P2PEligible
  | edge_offer : p2p_edge P2PEligible P2PProbing
  | edge_probe_ack : p2p_edge P2PProbing P2PDirect
  | edge_suspect : p2p_edge P2PDirect P2PSuspect
  | edge_recover : p2p_edge P2PSuspect P2PDirect
  | edge_fallback s :
      s = P2PEligible ∨ s = P2PProbing ∨ s = P2PDirect ∨ s = P2PSuspect → p2p_edge s P2PFallingBack
  | edge_relay : p2p_edge P2PFallingBack P2PRelay
  | edge_unavailable : p2p_edge P2PFallingBack P2PUnavailable
  | edge_disable s :
      s = P2PRelay ∨ s = P2PUnavailable ∨ s = P2PFallingBack ∨ s = P2PFailed → p2p_edge s P2PDisabled.

(** One event: success moves along an edge, failure leaves the machine alone; Direct is entered
    from Probing only by an event that used up a valid proof, and from Suspect only by such an
    event or by authenticated data. *)
Lemma p2p_step_edges s e :
  let '(ok, s') := p2p_step s e in
  (ok = true → p2p_edge (sm_state (ps_machine s)) (sm_state (ps_machine s'))) ∧
  (ok = false → ps_machine s' = ps_machine s) ∧
  (sm_state (ps_machine s) = P2PProbing → sm_state (ps_machine s') = P2PDirect →
     ∃ i, e = EvProbeAck i ∧ ok = true).
Proof.
  destruct s as [[st r] ps]. unfold p2p_step. cbn [ps_machine].
  destruct e; unfold with_machine, present_proof; cbn [ps_proofs ps_machine fst snd];
    try (match goal with |- context [ps !! ?i] => destruct (ps !! i) as [[]|] end);
    try (match goal with b : bool |- _ => destruct b end);
    try (match goal with b : P2PFallbackReason |- _ => destruct b end);
    destruct st; cbn; (split; [|split]); intros; try done; eauto using p2p_edge;
    try (constructor; tauto).
Qed.

Lemma proofs_used_snoc events results e b :
  length events = length results →
  proofs_used (events ++ [e]) (results ++ [b]) = proofs_used events results ++ option_list (proof_of (e, b)).
Proof.
  intros Hl. unfold proofs_used. rewrite zip_with_app by done. by rewrite omap_app.
Qed.

Lemma length_run_results s events : length (run p2p_step s events).1 = length events.
Proof.
  revert s. induction events as [|e es IH]; intros s; [done|]. rewrite run_results_cons. cbn [length]. by rewrite IH.
Qed.

(** What a presented proof can do to the system. *)
Lemma present_proof_spec s i accept :
  accept = Machine_AcceptProbeAck ∨ accept = Machine_AcceptRecoveryAck →
  let '(ok, s') := present_proof s i accept in
  length (ps_proofs s') = length (ps_proofs s) ∧
  (∀ j, ps_proofs s !! j = Some false → ps_proofs s' !! j = Some false) ∧
  (ok = true → ps_proofs s !! i = Some true ∧ ps_proofs s' !! i = Some false).
Proof.
  intros Ha. unfold present_proof. destruct (ps_proofs s !! i) as [v|] eqn:E; [|done].
  assert (∃ ok m v', accept (ps_machine s) v = (ok, m, v') ∧ (ok = true → v = true ∧ v' = false) ∧
    (v = false → v' = false)) as (ok&m&v'&->&Hok&Hv).
  { destruct s as [[st r] ps]. destruct Ha as [->| ->]; destruct st, v; cbn; eexists _, _, _; (split; [done|]); done. }
  cbn [ps_proofs]. split; [apply length_insert|]. pose proof (lookup_lt_Some _ _ _ E) as Hlt. split.
  - intros j Hj. destruct (decide (i = j)) as [->|Hne].
    + rewrite list_lookup_insert_eq by done. rewrite E in Hj. f_equal. apply Hv. congruence.
    + by rewrite list_lookup_insert_ne by done.
  - intros ->. destruct (Hok eq_refl) as [-> ->]. by rewrite list_lookup_insert_eq.
Qed.

Definition direct_like (s : P2PState) : Prop := s = P2PDirect ∨ s = P2PSuspect.

(** Events other than presentations keep the flags that are down, and do not enter Direct from
    outside Direct and Suspect. *)
Lemma other_event_spec s e :
  (∀ i, e ≠ EvProbeAck i) → (∀ i, e ≠ EvRecoveryAck i) →
  let '(ok, s') := p2p_step s e in
  (∀ j, ps_proofs s !! j = Some false → ps_proofs s' !! j = Some false) ∧
  (direct_like (sm_state (ps_machine s')) → direct_like (sm_state (ps_machine s))).
Proof.
  intros H1 H2. destruct s as [[st r] ps]. unfold direct_like.
  destruct e; try (by destruct (H1 proof)); try (by destruct (H2 proof));
    cbn [p2p_step with_machine ps_machine ps_proofs fst snd].
  1: { split; [|done]. intros j Hj. apply lookup_app_l_Some. done. }
  all: split; [done|];
    try (match goal with b : bool |- _ => destruct b end);
    try (match goal with b : P2PFallbackReason |- _ => destruct b end);
    destruct st; cbn; intros [?|?]; try done; auto.
Qed.

(** Direct and Suspect are entered from outside only with a valid proof. *)
Lemma opens_with_proof s e :
  let '(ok, s') := p2p_step s e in
  ¬ direct_like (sm_state (ps_machine s)) → direct_like (sm_state (ps_machine s')) →
  ok = true ∧ ∃ i, e = EvProbeAck i ∧ ps_proofs s !! i = Some true.
Proof.
  destruct s as [[st r] ps]. unfold p2p_step, direct_like. cbn [ps_machine].
  destruct e; unfold with_machine, present_proof; cbn [ps_proofs ps_machine fst snd];
    try (match goal with |- context [ps !! ?i] => destruct (ps !! i) as [[]|] eqn:E end);
    try (match goal with b : bool |- _ => destruct b end);
    try (match goal with b : P2PFallbackReason |- _ => destruct b end);
    destruct st; cbn; intros Hn [Hd|Hd]; try done; try (by destruct Hn; auto); eauto.
Qed.

Lemma p2p_trace_inv events :
  let results := (run p2p_step (mkSystem Machine_new []) events).1 in
  let s := exec p2p_step (mkSystem Machine_new []) events in
  NoDup (proofs_used events results) ∧
  (∀ i, i ∈ proofs_used events results → ps_proofs s !! i = Some false) ∧
  (direct_like (sm_state (ps_machine s)) → proofs_used events results ≠ []).
Proof.
  induction events as [|e events IH] using rev_ind; cbv zeta in *.
  { cbn. split; [constructor|]. split; [intros i Hi; by apply not_elem_of_nil in Hi|]. by intros [?|?]. }
  rewrite run_results_snoc, exec_snoc, proofs_used_snoc by (by rewrite length_run_results).
  set (used := proofs_used events _) in *. set (s := exec _ _ events) in *.
  destruct IH as (Hnd&Hdown&Hdir).
  assert ((∃ i, e = EvProbeAck i) ∨ (∃ i, e = EvRecoveryAck i) ∨
    (∀ i, e ≠ EvProbeAck i) ∧ (∀ i, e ≠ EvRecoveryAck i)) as Hcase.
  { destruct e; eauto; right; right; split; done. }
  assert (∀ i accept, accept = Machine_AcceptProbeAck ∨ accept = Machine_AcceptRecoveryAck →
    let '(ok, s') := present_proof s i accept in
    let used' := used ++ (if ok then [i] else []) in
    NoDup used' ∧ (∀ j, j ∈ used' → ps_proofs s' !! j = Some false)) as Hpres.
  { intros i accept Ha. pose proof (present_proof_spec s i accept Ha) as Hp.
    destruct (present_proof s i accept) as [ok s']. destruct Hp as (_&Hkeep&Hok). destruct ok.
    - destruct (Hok eq_refl) as [Hi Hi']. split.
      + apply NoDup_app. split; [done|]. split; [|apply NoDup_singleton].
        intros j Hj ->%list_elem_of_singleton. apply Hdown in Hj. congruence.
      + intros j [Hj| ->%list_elem_of_singleton]%elem_of_app; [by apply Hkeep, Hdown|done].
    - rewrite app_nil_r. split; [done|]. intros j Hj. by apply Hkeep, Hdown. }
  destruct Hcase as [[i ->]|[[i ->]|[H1 H2]]].
  - specialize (Hpres i Machine_AcceptProbeAck (or_introl eq_refl)). cbn [p2p_step].
    pose proof (p2p_step_edges s (EvProbeAck i)) as He. cbn [p2p_step] in He.
    destruct (present_proof s i Machine_AcceptProbeAck) as [ok s']. cbn [fst snd proof_of].
    destruct Hpres as [Hp1 Hp2], He as (_&He2&_). destruct ok; cbn [option_list] in *.
    + split; [done|]. split; [done|]. intros _. by destruct used.
    + split; [done|]. split; [done|]. rewrite He2 by done. by rewrite app_nil_r.
  - specialize (Hpres i Machine_AcceptRecoveryAck (or_intror eq_refl)). cbn [p2p_step].
    pose proof (p2p_step_edges s (EvRecoveryAck i)) as He. cbn [p2p_step] in He.
    destruct (present_proof s i Machine_AcceptRecoveryAck) as [ok s']. cbn [fst snd proof_of].
    destruct Hpres as [Hp1 Hp2], He as (_&He2&_). destruct ok; cbn [option_list] in *.
    + split; [done|]. split; [done|]. intros _. by destruct used.
    + split; [done|]. split; [done|]. rewrite He2 by done. by rewrite app_nil_r.
  - pose proof (other_event_spec s e H1 H2) as Ho. destruct (p2p_step s e) as [ok s']. cbn [fst snd].
    assert (proof_of (e, ok) = None) as ->.
    { destruct e; try done; [by destruct (H1 proof)|by destruct (H2 proof)]. }
    cbn [option_list]. rewrite app_nil_r. destruct Ho as [Hk Hd]. split; [done|].
    split; [intros j Hj; by apply Hk, Hdown|]. intros Hs. by apply Hdir, Hd.
Qed.

(** C17: a peer-to-peer path is never opened without authentication: in every history of events,
    each authentication proof is accepted at most once; application data may be forwarded exactly in
    Direct; the machine is in Direct or Suspect only if some proof was accepted before, and enters them from
    any other state only by an event that presents a proof not accepted before; and
    every successful event follows an edge of the intended diagram while a refused one changes
    nothing. *)
Theorem p2p_direct_authenticated events :
  let results := (run p2p_step (mkSystem Machine_new []) events).1 in
  let s := exec p2p_step (mkSystem Machine_new []) events in
  NoDup (proofs_used events results) ∧
  (CanForwardDataFor (sm_state (ps_machine s)) = true ↔ sm_state (ps_machine s) = P2PDirect) ∧
  (direct_like (sm_state (ps_machine s)) → proofs_used events results ≠ []) ∧
  ∀ e, let '(ok, s') := p2p_step s e in
    (¬ direct_like (sm_state (ps_machine s)) → direct_like (sm_state (ps_machine s')) →
       ok = true ∧ ∃ i, e = EvProbeAck i ∧ ps_proofs s !! i = Some true ∧ i ∉ proofs_used events results) ∧
    (ok = true → p2p_edge (sm_state (ps_machine s)) (sm_state (ps_machine s'))) ∧
    (ok = false → ps_machine s' = ps_machine s).
Proof.
  cbv zeta. destruct (p2p_trace_inv events) as (H1&H2&H3). cbv zeta in *.
  split; [done|]. split; [unfold CanForwardDataFor; apply bool_decide_eq_true|]. split; [done|]. intros e.
  pose proof (p2p_step_edges (exec p2p_step (mkSystem Machine_new []) events) e) as He.
  pose proof (opens_with_proof (exec p2p_step (mkSystem Machine_new []) events) e) as Ho.
  destruct (p2p_step _ e) as [ok s']. split; [|tauto]. intros Hn Hd. destruct (Ho Hn Hd) as (-> & i & -> & Hp).
  split; [done|]. exists i. split; [done|]. split; [done|]. intros Hi%H2. congruence.
Qed.

(** ** Names and the gate *)

Lemma p2p_state_names_roundtrip s : ParseP2PState (P2PState_ToString s) = s.
Proof. by destruct s. Qed.

(** The gate opens exactly when every precondition holds, and then the state is Eligible. *)
Lemma capability_gate_spec enabled mode exporter protection control :
  let d := CapabilityGate_Evaluate enabled mode exporter protection control in
  (cd_allowed d = true ↔
   enabled = true ∧ mode = Some "direct-preferred"%string ∧ exporter = true ∧ protection = true ∧ control = true) ∧
  (cd_allowed d = true ↔ cd_state d = P2PEligible).
Proof.
  unfold CapabilityGate_Evaluate. destruct enabled; cbn [negb]; [|cbn; intuition done].
  case_bool_decide as Hm; cbn [negb]; [|cbn; intuition done].
  destruct exporter, protection, control; cbn; intuition done.
Qed.
