(* ===== verification/P2PProbe.v ===== *)
(** Probe scheduler of the peer-to-peer handshake ([src/ppp/p2p/P2PProbeCoordinator.cpp]).

    The state is the class's members; the fixed arrays hold [pair_count_] meaningful elements
    and are lists of that length.  A batch of probe tasks is a list.  Times and generations are
    64-bit values. *)

From Stdlib Require Import Sorted.
From S2P Require Import Prelude P2PControl.

(** ** Data *)

Inductive P2PProbeRole := Controlling | Controlled.
Inductive P2PPeerPriority := IPv4First | IPv6First | RelayFirst.

#[global] Instance P2PProbeRole_eq_dec : EqDecision P2PProbeRole.
Proof. solve_decision. Defined.
#[global] Instance P2PPeerPriority_eq_dec : EqDecision P2PPeerPriority.
Proof. solve_decision. Defined.

Definition P2PPeerPriorityName (priority : P2PPeerPriority) : string :=
  match priority with
  | IPv4First => "ipv4-first"
  | IPv6First => "ipv6-first"
  | RelayFirst => "relay-first"
  end%string.

Definition ParseP2PPeerPriority (value : string) : option P2PPeerPriority :=
  if bool_decide (value = "ipv4-first")%string then Some IPv4First
  else if bool_decide (value = "ipv6-first")%string then Some IPv6First
  else if bool_decide (value = "relay-first")%string then Some RelayFirst
  else None.

Record P2PProbeCandidatePair := mkPair { pr_local : P2PCandidateEndpoint; pr_peer : P2PCandidateEndpoint }.

#[global] Instance P2PProbeCandidatePair_eq_dec : EqDecision P2PProbeCandidatePair.
Proof. solve_decision. Defined.

Record P2PProbeTask := mkTask { tk_pair : P2PProbeCandidatePair; tk_pair_index : nat; tk_round : Z }.

Definition MaxPairs : nat := 4.
Definition RetryIntervalMs : Z := 2000.
Definition ProbeWindowMs : Z := 4000.
Definition SetupWindowMs : Z := 10000.

Record P2PProbeCoordinator := mkProbe {
  pc_active : bool;
  pc_timed_out : bool;
  pc_probing_started : bool;
  pc_cancelled : bool;
  pc_role : P2PProbeRole;
  pc_generation : Z;
  pc_started_at_ms : Z;
  pc_setup_deadline_ms : Z;
  pc_deadline_ms : Z;
  pc_pairs : list P2PProbeCandidatePair;
  pc_emitted_rounds : Z;
  pc_nominated_pair : option nat;
  pc_acknowledged_pair : option nat;
  pc_acknowledged_pairs : list bool;
  pc_priority : P2PPeerPriority
}.

Definition Probe_new : P2PProbeCoordinator :=
  mkProbe false false false true Controlling 0 0 0 0 [] 0 None None (replicate MaxPairs false) IPv6First.

(** ** Operations *)

Definition Probe_SetPriority (c : P2PProbeCoordinator) (priority : P2PPeerPriority) : P2PProbeCoordinator :=
  if decide (priority = RelayFirst) then
    mkProbe false false false true (pc_role c) (pc_generation c) (pc_started_at_ms c)
      (pc_setup_deadline_ms c) (pc_deadline_ms c) [] 0 None None (replicate MaxPairs false) priority
  else
    mkProbe (pc_active c) (pc_timed_out c) (pc_probing_started c) (pc_cancelled c) (pc_role c)
      (pc_generation c) (pc_started_at_ms c) (pc_setup_deadline_ms c) (pc_deadline_ms c) (pc_pairs c)
      (pc_emitted_rounds c) (pc_nominated_pair c) (pc_acknowledged_pair c) (pc_acknowledged_pairs c) priority.

(** The inner loop over the peer's candidates; it stops when a fifth pair would be added. *)
Fixpoint pair_inner (local : P2PCandidateEndpoint) (peers : list P2PCandidateEndpoint)
    (pairs : list P2PProbeCandidatePair) : list P2PProbeCandidatePair :=
  match peers with
  | [] => pairs
  | peer :: peers =>
      if negb (ce_address_family local =? ce_address_family peer) then pair_inner local peers pairs
      else if decide (mkPair local peer ∈ pairs) then pair_inner local peers pairs
      else if decide (length pairs = MaxPairs) then pairs
      else pair_inner local peers (pairs ++ [mkPair local peer])
  end.

Fixpoint pair_outer (locals peers : list P2PCandidateEndpoint) (pairs : list P2PProbeCandidatePair)
    : list P2PProbeCandidatePair :=
  match locals with
  | [] => pairs
  | local :: locals =>
      let pairs := pair_inner local peers pairs in
      if decide (length pairs = MaxPairs) then pairs else pair_outer locals peers pairs
  end.

Definition rank (e : P2PCandidateEndpoint) : Z := if ce_address_family e =? 6 then 0 else 1.

Definition family_rank (priority : P2PPeerPriority) (p : P2PProbeCandidatePair) : Z :=
  if decide (priority = IPv4First) then (if ce_address_family (pr_local p) =? 4 then 0 else 1)
  else rank (pr_local p).

Definition pair_less (priority : P2PPeerPriority) (a b : P2PProbeCandidatePair) : bool :=
  if negb (family_rank priority a =? family_rank priority b)
  then family_rank priority a <? family_rank priority b
  else rank (pr_peer a) <? rank (pr_peer b).

(** [std::stable_sort]: insertion before the first element that is greater. *)
Fixpoint stable_insert (priority : P2PPeerPriority) (x : P2PProbeCandidatePair)
    (l : list P2PProbeCandidatePair) : list P2PProbeCandidatePair :=
  match l with
  | [] => [x]
  | y :: l => if pair_less priority x y then x :: y :: l else y :: stable_insert priority x l
  end.

Definition stable_sort (priority : P2PPeerPriority) (l : list P2PProbeCandidatePair)
    : list P2PProbeCandidatePair :=
  fold_left (λ acc x, stable_insert priority x acc) l [].

Definition Probe_Begin (c : P2PProbeCoordinator) (role : P2PProbeRole)
    (local_candidates peer_candidates : list P2PCandidateEndpoint) (now_ms generation : Z)
    : bool * P2PProbeCoordinator :=
  if bool_decide (local_candidates = [] ∨ peer_candidates = []) || (UINT64_MAX - SetupWindowMs <? now_ms)
  then (false, c)
  else if negb (forallb IsCanonicalP2PCandidate local_candidates) then (false, c)
  else if negb (forallb IsCanonicalP2PCandidate peer_candidates) then (false, c)
  else
    let pairs := pair_outer local_candidates peer_candidates [] in
    if decide (pairs = []) then (false, c)
    else if decide (pc_priority c = RelayFirst) then
      (false, mkProbe false false false true role generation now_ms now_ms now_ms [] 0 None None
                (replicate MaxPairs false) (pc_priority c))
    else
      (true, mkProbe true false true false role generation now_ms (now_ms + SetupWindowMs)
               (now_ms + ProbeWindowMs) (stable_sort (pc_priority c) pairs) 0 None None
               (replicate MaxPairs false) (pc_priority c)).

Definition Probe_FindPair (c : P2PProbeCoordinator) (pair : P2PProbeCandidatePair) : option nat :=
  fst <$> list_find (λ p, p = pair) (pc_pairs c).

Definition Probe_Pair (c : P2PProbeCoordinator) (pair_index : nat) : option P2PProbeCandidatePair :=
  pc_pairs c !! pair_index.

Definition acked (c : P2PProbeCoordinator) (i : nat) : bool := default false (pc_acknowledged_pairs c !! i).

Definition set_nominated (c : P2PProbeCoordinator) (i : nat) : P2PProbeCoordinator :=
  mkProbe (pc_active c) (pc_timed_out c) (pc_probing_started c) (pc_cancelled c) (pc_role c) (pc_generation c)
    (pc_started_at_ms c) (pc_setup_deadline_ms c) (pc_deadline_ms c) (pc_pairs c) (pc_emitted_rounds c)
    (Some i) (pc_acknowledged_pair c) (pc_acknowledged_pairs c) (pc_priority c).

Definition set_acknowledged (c : P2PProbeCoordinator) (i : nat) (timed_out : bool) : P2PProbeCoordinator :=
  mkProbe false timed_out (pc_probing_started c) (pc_cancelled c) (pc_role c) (pc_generation c)
    (pc_started_at_ms c) (pc_setup_deadline_ms c) (pc_deadline_ms c) (pc_pairs c) (pc_emitted_rounds c)
    (pc_nominated_pair c) (Some i) (pc_acknowledged_pairs c) (pc_priority c).

Definition Probe_NominateResponderPair (c : P2PProbeCoordinator) (pair : P2PProbeCandidatePair)
    (now_ms generation : Z) : bool * P2PProbeCoordinator :=
  if pc_cancelled c || bool_decide (pc_role c ≠ Controlled) || negb (generation =? pc_generation c) ||
     (now_ms <? pc_started_at_ms c) || (pc_setup_deadline_ms c <=? now_ms) then (false, c)
  else
    match Probe_FindPair c pair with
    | None => (false, c)
    | Some index =>
        match pc_nominated_pair c with
        | Some n => (bool_decide (n = index), c)
        | None =>
            if (pc_deadline_ms c <=? now_ms) && negb (acked c index) then (false, c)
            else
              let c := set_nominated c index in
              (true, if acked c index then set_acknowledged c index false else c)
        end
    end.

Definition set_round (c : P2PProbeCoordinator) (round : Z) : P2PProbeCoordinator :=
  mkProbe (pc_active c) (pc_timed_out c) (pc_probing_started c) (pc_cancelled c) (pc_role c) (pc_generation c)
    (pc_started_at_ms c) (pc_setup_deadline_ms c) (pc_deadline_ms c) (pc_pairs c) round
    (pc_nominated_pair c) (pc_acknowledged_pair c) (pc_acknowledged_pairs c) (pc_priority c).

Definition set_timed_out (c : P2PProbeCoordinator) : P2PProbeCoordinator :=
  mkProbe false true (pc_probing_started c) (pc_cancelled c) (pc_role c) (pc_generation c)
    (pc_started_at_ms c) (pc_setup_deadline_ms c) (pc_deadline_ms c) (pc_pairs c) (pc_emitted_rounds c)
    (pc_nominated_pair c) (pc_acknowledged_pair c) (pc_acknowledged_pairs c) (pc_priority c).

(** The loop over the pairs from index [i] on. *)
Fixpoint tasks_from (c : P2PProbeCoordinator) (round : Z) (i : nat) (pairs : list P2PProbeCandidatePair)
    : list P2PProbeTask :=
  match pairs with
  | [] => []
  | p :: pairs =>
      (if bool_decide (pc_role c = Controlled) && acked c i then [] else [mkTask p i round]) ++
      tasks_from c round (S i) pairs
  end.

(** The tasks of one round. *)
Definition round_tasks (c : P2PProbeCoordinator) (round : Z) : list P2PProbeTask :=
  match pc_role c, pc_nominated_pair c with
  | Controlled, Some n =>
      match pc_pairs c !! n with Some p => [mkTask p n round] | None => [] end
  | _, _ => tasks_from c round 0 (pc_pairs c)
  end.

Definition Probe_Poll (c : P2PProbeCoordinator) (now_ms generation : Z)
    : list P2PProbeTask * P2PProbeCoordinator :=
  if negb (pc_active c) || negb (generation =? pc_generation c) || (now_ms <? pc_started_at_ms c) then ([], c)
  else if pc_deadline_ms c <=? now_ms then ([], set_timed_out c)
  else if negb (pc_probing_started c) then ([], c)
  else
    let round := if RetryIntervalMs <=? (now_ms - pc_started_at_ms c) then 2 else 1 in
    if round <=? pc_emitted_rounds c then ([], c)
    else
      let c := set_round c round in
      (round_tasks c round, c).

Definition set_acked_flag (c : P2PProbeCoordinator) (i : nat) : P2PProbeCoordinator :=
  mkProbe (pc_active c) (pc_timed_out c) (pc_probing_started c) (pc_cancelled c) (pc_role c) (pc_generation c)
    (pc_started_at_ms c) (pc_setup_deadline_ms c) (pc_deadline_ms c) (pc_pairs c) (pc_emitted_rounds c)
    (pc_nominated_pair c) (pc_acknowledged_pair c) (<[i := true]> (pc_acknowledged_pairs c)) (pc_priority c).

Definition Probe_OnAuthenticatedAck (c : P2PProbeCoordinator) (pair_index : nat) (now_ms generation : Z)
    : bool * P2PProbeCoordinator :=
  if negb (pc_active c) || negb (pc_probing_started c) || negb (generation =? pc_generation c) ||
     (now_ms <? pc_started_at_ms c) || (pc_deadline_ms c <=? now_ms) ||
     bool_decide (length (pc_pairs c) ≤ pair_index)%nat || (pc_emitted_rounds c =? 0) ||
     (bool_decide (pc_role c = Controlled) &&
      match pc_nominated_pair c with Some n => negb (bool_decide (n = pair_index)) | None => false end)
  then (false, c)
  else if acked c pair_index then (false, c)
  else
    let c := set_acked_flag c pair_index in
    (true, if bool_decide (pc_role c = Controlling) || bool_decide (pc_nominated_pair c ≠ None)
           then set_acknowledged c pair_index (pc_timed_out c) else c).

Definition Probe_Cancel (c : P2PProbeCoordinator) (generation : Z) : bool * P2PProbeCoordinator :=
  if negb (generation =? pc_generation c) then (false, c)
  else (true, mkProbe false false false true (pc_role c) (pc_generation c) (pc_started_at_ms c)
          (pc_setup_deadline_ms c) (pc_deadline_ms c) [] 0 None None (replicate MaxPairs false) (pc_priority c)).

(** ** Pair selection *)

Definition pair_of (locals peers : list P2PCandidateEndpoint) (p : P2PProbeCandidatePair) : Prop :=
  pr_local p ∈ locals ∧ pr_peer p ∈ peers ∧
  ce_address_family (pr_local p) = ce_address_family (pr_peer p).

Record pairs_ok (locals peers : list P2PCandidateEndpoint) (pairs : list P2PProbeCandidatePair) : Prop := {
  po_nodup : NoDup pairs;
  po_count : (length pairs ≤ MaxPairs)%nat;
  po_from p : p ∈ pairs → pair_of locals peers p
}.

Lemma pair_inner_ok locals peers all local pairs :
  local ∈ locals → (∀ p, p ∈ peers → p ∈ all) → pairs_ok locals all pairs →
  pairs_ok locals all (pair_inner local peers pairs).
Proof.
  intros Hl. revert pairs. induction peers as [|peer peers IH]; intros pairs Hp Hok; [done|]. cbn [pair_inner].
  assert (∀ p, p ∈ peers → p ∈ all) by (intros p ?; apply Hp, elem_of_cons; by right).
  case_if as Ef; [by apply IH|]. case_decide as Hin; [by apply IH|]. case_decide as Hm; [done|].
  apply IH; [done|]. destruct Hok as [H1 H2 H3]. split.
  - apply NoDup_app. split; [done|]. split; [|apply NoDup_singleton]. by intros p Hpp ->%list_elem_of_singleton.
  - rewrite length_app. cbn [length]. unfold MaxPairs in *. lia.
  - intros p [Hpp| ->%list_elem_of_singleton]%elem_of_app; [by apply H3|].
    split; [done|]. split; [apply Hp, elem_of_cons; by left|]. cbn. blia.
Qed.

Lemma pair_outer_ok locals peers all pairs :
  (∀ l, l ∈ locals → l ∈ all) → pairs_ok all peers pairs → pairs_ok all peers (pair_outer locals peers pairs).
Proof.
  revert pairs. induction locals as [|local locals IH]; intros pairs Hl Hok; [done|]. cbn [pair_outer].
  assert (pairs_ok all peers (pair_inner local peers pairs)) by
    (apply pair_inner_ok; [apply Hl, elem_of_cons; by left|done|done]).
  case_decide; [done|]. apply IH; [|done]. intros l ?. apply Hl, elem_of_cons. by right.
Qed.

Lemma stable_insert_perm priority x l : stable_insert priority x l ≡ₚ x :: l.
Proof.
  induction l as [|y l IH]; [done|]. cbn [stable_insert]. case_if as E; [done|]. rewrite IH. apply Permutation_swap.
Qed.

Lemma stable_sort_perm priority l : stable_sort priority l ≡ₚ l.
Proof.
  unfold stable_sort. assert (∀ acc, fold_left (λ acc x, stable_insert priority x acc) l acc ≡ₚ acc ++ l) as H.
  { induction l as [|x l IH]; intros acc; cbn [fold_left]; [by rewrite app_nil_r|].
    rewrite IH, stable_insert_perm. by rewrite <- Permutation_middle. }
  apply (H []).
Qed.

Definition not_after (priority : P2PPeerPriority) (a b : P2PProbeCandidatePair) : Prop :=
  pair_less priority b a = false.

Lemma rank_range e : 0 ≤ rank e ≤ 1.
Proof. unfold rank. case_if as E; lia. Qed.

Lemma not_after_trans priority a b c : not_after priority a b → not_after priority b c → not_after priority a c.
Proof.
  unfold not_after, pair_less. generalize (family_rank priority a), (family_rank priority b), (family_rank priority c).
  intros x y z. destruct (y =? x) eqn:E1, (z =? y) eqn:E2, (z =? x) eqn:E3; cbn [negb]; blia.
Qed.

Lemma stable_insert_sorted priority x l :
  StronglySorted (not_after priority) l → StronglySorted (not_after priority) (stable_insert priority x l).
Proof.
  induction 1 as [|y l Hl IH Hy]; cbn [stable_insert]; [repeat constructor|].
  case_if as E.
  - assert (not_after priority x y) as Hxy.
    { unfold not_after, pair_less in *. destruct (family_rank priority x =? family_rank priority y) eqn:E1;
        rewrite Z.eqb_sym, E1; cbn [negb] in *; blia. }
    constructor; [by constructor|]. constructor; [done|]. eapply Forall_impl; [exact Hy|].
    intros z Hz. by eapply not_after_trans.
  - constructor; [done|]. rewrite stable_insert_perm. by constructor.
Qed.

Lemma stable_sort_sorted priority l : StronglySorted (not_after priority) (stable_sort priority l).
Proof.
  unfold stable_sort. assert (∀ acc, StronglySorted (not_after priority) acc →
    StronglySorted (not_after priority) (fold_left (λ acc x, stable_insert priority x acc) l acc)) as H.
  { induction l as [|x l IH]; intros acc Hacc; cbn [fold_left]; [done|]. by apply IH, stable_insert_sorted. }
  apply H. constructor.
Qed.

(** What a successful [Begin] schedules. *)
Lemma Begin_spec c role locals peers now gen c' :
  Probe_Begin c role locals peers now gen = (true, c') →
  pairs_ok locals peers (pc_pairs c') ∧ pc_pairs c' ≠ [] ∧
  StronglySorted (not_after (pc_priority c)) (pc_pairs c') ∧
  Forall (λ e, IsCanonicalP2PCandidate e = true) (locals ++ peers) ∧
  pc_active c' = true ∧ pc_generation c' = gen ∧ pc_started_at_ms c' = now ∧
  pc_deadline_ms c' = now + ProbeWindowMs ∧ pc_emitted_rounds c' = 0 ∧ pc_role c' = role ∧
  pc_nominated_pair c' = None.
Proof.
  unfold Probe_Begin. case_if as E1; [done|]. case_if as E2; [done|]. case_if as E3; [done|]. cbv zeta.
  set (pairs := pair_outer locals peers []). case_decide as E4; [done|]. case_decide as E5; [done|].
  intros [= <-]. cbn [pc_pairs pc_active pc_generation pc_started_at_ms pc_deadline_ms pc_emitted_rounds pc_role pc_nominated_pair].
  assert (pairs_ok locals peers pairs) as [H1 H2 H3].
  { apply pair_outer_ok; [done|]. split; [constructor|cbn; lia|]. by intros p Hp%not_elem_of_nil. }
  assert (stable_sort (pc_priority c) pairs ≡ₚ pairs) as Hp by apply stable_sort_perm.
  split.
  { split; [by rewrite Hp|by rewrite Hp|]. intros p. rewrite Hp. apply H3. }
  split; [intros Hn; rewrite Hn in Hp; by apply Permutation_nil in Hp|].
  split; [apply stable_sort_sorted|]. split; [|done].
  bool_props. apply Forall_app. rewrite !Forall_forall. split; intros x Hx.
  - rewrite forallb_forall in E2. by apply E2, list_elem_of_In.
  - rewrite forallb_forall in E3. by apply E3, list_elem_of_In.
Qed.

(** ** The probe budget *)

Lemma tasks_from_spec c r i pairs :
  NoDup (tk_pair_index <$> tasks_from c r i pairs) ∧
  ∀ t, t ∈ tasks_from c r i pairs →
    tk_round t = r ∧ (i ≤ tk_pair_index t)%nat ∧ pairs !! (tk_pair_index t - i)%nat = Some (tk_pair t).
Proof.
  revert i. induction pairs as [|p pairs IH]; intros i; cbn [tasks_from].
  { split; [constructor|]. by intros t Ht%not_elem_of_nil. }
  destruct (IH (S i)) as [Hnd Hin].
  assert (∀ t, t ∈ tasks_from c r (S i) pairs →
    tk_round t = r ∧ (i ≤ tk_pair_index t)%nat ∧ (p :: pairs) !! (tk_pair_index t - i)%nat = Some (tk_pair t)) as Hin'.
  { intros t Ht. destruct (Hin t Ht) as (?&?&Hl). split; [done|]. split; [lia|].
    by replace (tk_pair_index t - i)%nat with (S (tk_pair_index t - S i)) by lia. }
  case_if as E; [done|]. rewrite fmap_app. cbn [fmap list_fmap app tk_pair_index]. split.
  - constructor; [|done]. intros (t&Hi&Ht)%list_elem_of_fmap. destruct (Hin t Ht) as (_&?&_). lia.
  - intros t [->|Ht]%elem_of_cons; [|by apply Hin']. cbn [tk_round tk_pair_index tk_pair].
    by rewrite Nat.sub_diag.
Qed.

Lemma round_tasks_spec c r :
  NoDup (tk_pair_index <$> round_tasks c r) ∧
  ∀ t, t ∈ round_tasks c r → tk_round t = r ∧ pc_pairs c !! tk_pair_index t = Some (tk_pair t) ∧
    (pc_role c = Controlled → ∀ n, pc_nominated_pair c = Some n → tk_pair_index t = n).
Proof.
  destruct (tasks_from_spec c r 0 (pc_pairs c)) as [Hnd Hin]. unfold round_tasks.
  destruct (pc_role c), (pc_nominated_pair c) as [n|]; cycle 2.
  { destruct (pc_pairs c !! n) as [p|] eqn:E; cbn [fmap list_fmap].
    - split; [apply NoDup_singleton|]. intros t ->%list_elem_of_singleton. cbn. split; [done|]. split; [done|]. congruence.
    - split; [constructor|]. by intros t Ht%not_elem_of_nil. }
  all: split; [done|]; intros t Ht; destruct (Hin t Ht) as (?&_&Hl); rewrite Nat.sub_0_r in Hl; done.
Qed.

Inductive ProbeOp :=
  | OpPoll (now_ms generation : Z)
  | OpNominate (pair : P2PProbeCandidatePair) (now_ms generation : Z)
  | OpAck (pair_index : nat) (now_ms generation : Z)
  | OpCancel (generation : Z)
  | OpSetPriority (priority : P2PPeerPriority).

Definition probe_step (c : P2PProbeCoordinator) (op : ProbeOp) : list P2PProbeTask * P2PProbeCoordinator :=
  match op with
  | OpPoll now gen => Probe_Poll c now gen
  | OpNominate pp now gen => ([], (Probe_NominateResponderPair c pp now gen).2)
  | OpAck i now gen => ([], (Probe_OnAuthenticatedAck c i now gen).2)
  | OpCancel gen => ([], (Probe_Cancel c gen).2)
  | OpSetPriority p => ([], Probe_SetPriority c p)
  end.

(** What an attempt keeps between [Begin] and the next one. *)
Record attempt (pairs : list P2PProbeCandidatePair) (t0 gen : Z) (c : P2PProbeCoordinator) : Prop := {
  at_pairs : pc_active c = true → pc_pairs c = pairs;
  at_start : pc_started_at_ms c = t0;
  at_deadline : pc_deadline_ms c = t0 + ProbeWindowMs;
  at_gen : pc_generation c = gen
}.

Lemma attempt_step pairs t0 gen c op :
  attempt pairs t0 gen c →
  attempt pairs t0 gen (probe_step c op).2 ∧
  (pc_active (probe_step c op).2 = true →
   pc_active c = true ∧ pc_emitted_rounds c ≤ pc_emitted_rounds (probe_step c op).2).
Proof.
  intros Ha. destruct op as [now g|pp now g|i now g|g|p]; cbn [probe_step snd].
  - unfold Probe_Poll. case_if as E1; [by split|]. case_if as E2; [split; [by destruct Ha|done]|].
    case_if as E3; [by split|]. cbv zeta.
    set (r := if RetryIntervalMs <=? _ then 2 else 1). case_if as E4; [by split|].
    split; [by destruct Ha|]. cbn. split; [done|]. blia.
  - unfold Probe_NominateResponderPair. case_if as E1; [by split|].
    destruct (Probe_FindPair c pp) as [ix|]; [|by split]. destruct (pc_nominated_pair c); [by split|].
    case_if as E2; [by split|]. cbn [snd]. case_if as E3; (split; [by destruct Ha|done]).
  - unfold Probe_OnAuthenticatedAck. case_if as E1; [by split|]. case_if as E2; [by split|]. cbn [snd].
    case_if as E3; (split; [by destruct Ha|done]).
  - unfold Probe_Cancel. case_if as E1; [by split|]. split; [by destruct Ha|done].
  - unfold Probe_SetPriority. case_decide; (split; [by destruct Ha|done]).
Qed.

(** One poll: which tasks it can emit. *)
Lemma poll_spec c now gen :
  let '(ts, c') := Probe_Poll c now gen in
  ts ≠ [] →
  pc_active c = true ∧ gen = pc_generation c ∧ pc_started_at_ms c ≤ now < pc_deadline_ms c ∧
  pc_emitted_rounds c < pc_emitted_rounds c' ∧ pc_active c' = true ∧
  (pc_emitted_rounds c' = 1 ∨ pc_emitted_rounds c' = 2) ∧
  NoDup (tk_pair_index <$> ts) ∧
  ∀ t, t ∈ ts → tk_round t = pc_emitted_rounds c' ∧ pc_pairs c !! tk_pair_index t = Some (tk_pair t).
Proof.
  unfold Probe_Poll. case_if as E1; [done|]. case_if as E2; [done|]. case_if as E3; [done|]. cbv zeta.
  set (r := if RetryIntervalMs <=? _ then 2 else 1).
  assert (r = 1 ∨ r = 2) as Hr by (unfold r; case_if as E; auto).
  case_if as E4; [done|]. intros _. bool_props. cbn [set_round pc_emitted_rounds pc_active].
  destruct (round_tasks_spec (set_round c r) r) as [Hnd Hin].
  split; [done|]. split; [done|]. split; [done|]. split; [done|]. split; [done|]. split; [done|]. split; [done|].
  intros t Ht. destruct (Hin t Ht) as (?&?&_). done.
Qed.

Definition task_id (t : P2PProbeTask) : nat * Z := (tk_pair_index t, tk_round t).

Lemma probe_trace pairs t0 gen c0 ops :
  attempt pairs t0 gen c0 → pc_emitted_rounds c0 = 0 →
  let ts := mjoin (run probe_step c0 ops).1 in
  let c := exec probe_step c0 ops in
  attempt pairs t0 gen c ∧ NoDup (task_id <$> ts) ∧
  (∀ t, t ∈ ts → pairs !! tk_pair_index t = Some (tk_pair t) ∧ (tk_round t = 1 ∨ tk_round t = 2)) ∧
  (pc_active c = true → 0 ≤ pc_emitted_rounds c ∧ ∀ t, t ∈ ts → tk_round t ≤ pc_emitted_rounds c).
Proof.
  intros Ha0 He0. induction ops as [|op ops IH] using rev_ind; cbv zeta in *.
  { cbn. split; [done|]. split; [constructor|]. split; [by intros t Ht%not_elem_of_nil|].
    intros _. split; [lia|]. by intros t Ht%not_elem_of_nil. }
  rewrite run_results_snoc, exec_snoc, join_app. cbn [mjoin list_join]. rewrite app_nil_r.
  destruct IH as (Ha&Hnd&Hts&Hact). set (ts := mjoin _) in *. set (c := exec _ _ ops) in *.
  destruct (attempt_step pairs t0 gen c op Ha) as [Ha' Hmono]. split; [done|].
  destruct (decide ((probe_step c op).1 = [])) as [He|He].
  { rewrite He, app_nil_r. split; [done|]. split; [done|]. intros Hc'. destruct (Hmono Hc') as [Hc Hle].
    destruct (Hact Hc) as [? Hmax]. split; [lia|]. intros t Ht. specialize (Hmax t Ht). lia. }
  destruct op as [now g| | | |]; try done. cbn [probe_step] in *.
  pose proof (poll_spec c now g) as Hp. destruct (Probe_Poll c now g) as [new c']. cbn [fst snd] in *.
  destruct (Hp He) as (Hc&_&_&Hlt&_&Hr&Hnd'&Hnew). destruct (Hact Hc) as [_ Hmax].
  split; [|split].
  - rewrite fmap_app. apply NoDup_app. split; [done|]. split.
    + intros x (t&->&Ht)%list_elem_of_fmap (t'&Heq&Ht')%list_elem_of_fmap.
      injection Heq as _ Heq. destruct (Hnew t' Ht') as [Hrt _]. specialize (Hmax t Ht). lia.
    + apply (NoDup_fmap_1 fst). rewrite <- list_fmap_compose. exact Hnd'.
  - intros t [Ht|Ht]%elem_of_app; [by apply Hts|]. destruct (Hnew t Ht) as [Hrt Hpt].
    rewrite (at_pairs _ _ _ _ Ha Hc) in Hpt. split; [done|]. by rewrite Hrt.
  - intros _. split; [lia|]. intros t [Ht|Ht]%elem_of_app; [specialize (Hmax t Ht); lia|].
    destruct (Hnew t Ht) as [-> _]. lia.
Qed.

(** Distinct (pair, round) identities within the bounds are few. *)
Lemma task_count (n : nat) (l : list (nat * Z)) :
  NoDup l → (∀ x, x ∈ l → (x.1 < n)%nat ∧ (x.2 = 1 ∨ x.2 = 2)) → (length l ≤ 2 * n)%nat.
Proof.
  intros Hnd Hl. set (l1 := (λ i : nat, (i, 1)) <$> seq 0 n). set (l2 := (λ i : nat, (i, 2)) <$> seq 0 n).
  transitivity (length l1 + length l2)%nat.
  - rewrite <- length_app. apply submseteq_length, NoDup_submseteq; [done|].
    intros [i r] Hin. destruct (Hl _ Hin) as [Hi Hr]. cbn in *. apply elem_of_app.
    destruct Hr as [-> | ->]; [left|right]; apply list_elem_of_fmap; exists i; (split; [done|]);
      apply elem_of_seq; lia.
  - unfold l1, l2. rewrite !length_fmap, !length_seq. lia.
Qed.

(** Probing is bounded and well directed: after a successful [Begin], whatever polls,
    acknowledgements, nominations, cancellations and priority changes follow, each selected pair
    is probed at most once per round and in at most two rounds, hence at most eight probes in
    all, only to same-family pairs of validated candidates; and a poll emits nothing outside the
    four-second window, for another generation, or once the attempt is over. *)
Theorem probe_budget c role locals peers t0 gen c0 ops :
  Probe_Begin c role locals peers t0 gen = (true, c0) →
  let ts := mjoin (run probe_step c0 ops).1 in
  let s := exec probe_step c0 ops in
  NoDup (task_id <$> ts) ∧ (length ts ≤ 8)%nat ∧
  (∀ t, t ∈ ts → pair_of locals peers (tk_pair t) ∧ (tk_round t = 1 ∨ tk_round t = 2)) ∧
  ∀ now g, (Probe_Poll s now g).1 ≠ [] → g = gen ∧ t0 ≤ now < t0 + ProbeWindowMs ∧ pc_active s = true.
Proof.
  intros Hb. destruct (Begin_spec _ _ _ _ _ _ _ Hb) as (Hp&_&_&_&_&Hg&Hs&Hd&He&_&_). cbv zeta.
  assert (attempt (pc_pairs c0) t0 gen c0) as Ha by (by split).
  destruct (probe_trace _ _ _ _ ops Ha He) as (Ha'&Hnd&Hts&_). cbv zeta in *.
  set (ts := mjoin _) in *. set (s := exec _ _ ops) in *. split; [done|]. split; [|split].
  - pose proof (po_count _ _ _ Hp) as Hc. unfold MaxPairs in Hc.
    assert (length (task_id <$> ts) ≤ 2 * length (pc_pairs c0))%nat as Hl.
    { apply task_count; [done|]. intros x (t&->&Ht)%list_elem_of_fmap. destruct (Hts t Ht) as [Hl Hr].
      apply lookup_lt_Some in Hl. done. }
    rewrite length_fmap in Hl. lia.
  - intros t Ht. destruct (Hts t Ht) as [Hl Hr]. split; [|done].
    apply (po_from _ _ _ Hp). by eapply list_elem_of_lookup_2.
  - intros now g Hne. pose proof (poll_spec s now g) as Hps. destruct (Probe_Poll s now g) as [new s'].
    destruct (Hps Hne) as (Hact&->&Ht&_). destruct Ha' as [_ H1 H2 H3]. rewrite H1, H2 in Ht. done.
Qed.

Definition probe_demo_local : P2PCandidateEndpoint := mkCandidate 4 (mapped_v4 203 0 113 5) 40000.
Definition probe_demo_peer : P2PCandidateEndpoint := mkCandidate 4 (mapped_v4 198 51 100 9) 40001.

Lemma probe_budget_witness :
  (length (mjoin (run probe_step (Probe_Begin Probe_new Controlled [probe_demo_local] [probe_demo_peer] 1000 7).2
    [OpPoll 1000 7; OpPoll 1500 7; OpPoll 3100 7; OpPoll 3200 6]).1) ≤ 8)%nat.
Proof.
  apply (probe_budget Probe_new Controlled [probe_demo_local] [probe_demo_peer] 1000 7).
  vm_compute. reflexivity.
Defined.

(** ** Nomination *)

Lemma priority_names_roundtrip p : ParseP2PPeerPriority (P2PPeerPriorityName p) = Some p.
Proof. by destruct p. Qed.

(** Replaying a nomination changes nothing; another pair cannot replace the nominated one. *)
Lemma nomination_final c pair now gen n :
  pc_nominated_pair c = Some n → (Probe_NominateResponderPair c pair now gen).2 = c.
Proof.
  intros Hn. unfold Probe_NominateResponderPair. case_if as E; [done|].
  destruct (Probe_FindPair c pair); [|done]. by rewrite Hn.
Qed.
