(* ===== verification/P2PLimiter.v ===== *)
(** Token-bucket limiter for unauthenticated peer-to-peer traffic
    ([src/ppp/p2p/P2PIngressLimiter.cpp]).

    A table is the fixed array of 256 entries, used and unused ones alike; a packet costs 1000
    units.  Addresses are their byte arrays; an unspecified address is all zeros and an
    IPv4-mapped one has the prefix ::ffff, as the address classes of the network library define. *)

From S2P Require Import Prelude.

(** ** Data *)

Definition MaxEntries : nat := 256.
Definition IdleExpiryMs : Z := 60000.
Definition SourcePacketsPerSecond : Z := 4.
Definition SourceBurst : Z := 8.
Definition SessionPacketsPerSecond : Z := 8.
Definition SessionBurst : Z := 16.

Record LimiterEntry := mkEntry {
  le_key : list Z;
  le_refill_at_ms : Z;
  le_seen_at_ms : Z;
  le_tokens : Z;
  le_used : bool
}.

Definition entry_default : LimiterEntry := mkEntry (replicate 16 0) 0 0 0 false.

Record P2PIngressLimiter := mkLimiter {
  li_sources : list LimiterEntry;
  li_sessions : list LimiterEntry
}.

(** ** Operations *)

Definition limiter_expire (now_ms : Z) (e : LimiterEntry) : LimiterEntry :=
  if le_used e && (le_seen_at_ms e <=? now_ms) && (IdleExpiryMs <=? (now_ms - le_seen_at_ms e))
  then entry_default else e.

(** The scan: the last entry of the key and the first unused one. *)
Fixpoint limiter_scan (key : list Z) (i : nat) (table : list LimiterEntry) (matching vacant : option nat)
    : option nat * option nat :=
  match table with
  | [] => (matching, vacant)
  | e :: table =>
      if le_used e && bool_decide (le_key e = key) then limiter_scan key (S i) table (Some i) vacant
      else if negb (le_used e) && bool_decide (vacant = None)
      then limiter_scan key (S i) table matching (Some i)
      else limiter_scan key (S i) table matching vacant
  end.

(** Refill and charge one entry. *)
Definition limiter_charge (e : LimiterEntry) (packets_per_second burst now_ms : Z) : bool * LimiterEntry :=
  let elapsed := if le_refill_at_ms e <=? now_ms then now_ms - le_refill_at_ms e else 0 in
  let capacity := burst * 1000 in
  let refill := Z.min elapsed ((capacity + packets_per_second - 1) / packets_per_second) * packets_per_second in
  let tokens := Z.min capacity (le_tokens e + refill) in
  let refill_at := Z.max (le_refill_at_ms e) now_ms in
  let seen_at := Z.max (le_seen_at_ms e) now_ms in
  if tokens <? 1000 then (false, mkEntry (le_key e) refill_at seen_at tokens (le_used e))
  else (true, mkEntry (le_key e) refill_at seen_at (tokens - 1000) (le_used e)).

Definition Limiter_AllowLocked (table : list LimiterEntry) (key : list Z) (packets_per_second burst now_ms : Z)
    : bool * list LimiterEntry :=
  let table := limiter_expire now_ms <$> table in
  match limiter_scan key 0 table None None with
  | (Some i, _) =>
      let '(ok, e) := limiter_charge (default entry_default (table !! i)) packets_per_second burst now_ms in
      (ok, <[i := e]> table)
  | (None, Some i) =>
      let '(ok, e) := limiter_charge (mkEntry key now_ms now_ms (burst * 1000) true) packets_per_second burst now_ms in
      (ok, <[i := e]> table)
  | (None, None) => (false, table)
  end.

Inductive IpAddress := AddrV4 (bytes : list Z) | AddrV6 (bytes : list Z).

Definition all_zero_bytes (l : list Z) : bool := forallb (λ b, b =? 0) l.

Definition is_v4_mapped (bytes : list Z) : bool :=
  all_zero_bytes (take 10 bytes) && (byte_at bytes 10 =? 255) && (byte_at bytes 11 =? 255).

(** The budget key of a source, [None] when it is refused outright. *)
Definition source_key (source : IpAddress) : option (list Z) :=
  match source with
  | AddrV4 bytes => if all_zero_bytes bytes then None else Some (replicate 10 0 ++ [255; 255] ++ bytes)
  | AddrV6 bytes =>
      if all_zero_bytes bytes then None
      else if is_v4_mapped bytes && all_zero_bytes (drop 12 bytes) then None
      else Some bytes
  end.

Definition Limiter_AllowSource (l : P2PIngressLimiter) (source : IpAddress) (now_ms : Z) : bool * P2PIngressLimiter :=
  match source_key source with
  | None => (false, l)
  | Some key =>
      let '(ok, t) := Limiter_AllowLocked (li_sources l) key SourcePacketsPerSecond SourceBurst now_ms in
      (ok, mkLimiter t (li_sessions l))
  end.

Definition Limiter_AllowSession (l : P2PIngressLimiter) (session : list Z) (now_ms : Z) : bool * P2PIngressLimiter :=
  if all_zero_bytes session then (false, l)
  else
    let '(ok, t) := Limiter_AllowLocked (li_sessions l) session SessionPacketsPerSecond SessionBurst now_ms in
    (ok, mkLimiter (li_sources l) t).

Definition Limiter_Clear : P2PIngressLimiter :=
  mkLimiter (replicate MaxEntries entry_default) (replicate MaxEntries entry_default).

Definition used_entries (table : list LimiterEntry) : nat := length (filter (λ e, le_used e = true) table).

(** Source and session entry counts. *)
Definition Limiter_Snapshot (l : P2PIngressLimiter) : nat * nat :=
  (used_entries (li_sources l), used_entries (li_sessions l)).

(** ** Entries by key *)

(** [e] is a live entry of [key] at position [i]. *)
Definition holds (table : list LimiterEntry) (i : nat) (key : list Z) (e : LimiterEntry) : Prop :=
  table !! i = Some e ∧ le_used e = true ∧ le_key e = key.

Definition unique_keys (table : list LimiterEntry) : Prop :=
  ∀ i j key e f, holds table i key e → holds table j key f → i = j.

Lemma limiter_scan_matching key i table m v :
  match (limiter_scan key i table m v).1 with
  | None => m = None ∧ ∀ j e, ¬ holds table j key e
  | Some k => m = Some k ∧ (∀ j e, ¬ holds table j key e) ∨
              (i ≤ k)%nat ∧ ∃ e, holds table (k - i) key e
  end.
Proof.
  revert i m v. induction table as [|e table IH]; intros i m v; cbn [limiter_scan fst].
  { destruct m as [k|]; [left|]; (split; [done|]); by intros j e [? _]. }
  assert (∀ j f, holds (e :: table) (S j) key f ↔ holds table j key f) as Hcons by done.
  destruct (le_used e && bool_decide (le_key e = key)) eqn:E.
  - bool_props. specialize (IH (S i) (Some i) v). destruct (limiter_scan _ _ _ _ _).1 as [k|].
    + right. destruct IH as [[[= ->] _]|[Hk [f Hf]]].
      * split; [lia|]. exists e. rewrite Nat.sub_diag. done.
      * split; [lia|]. exists f. replace (k - i)%nat with (S (k - S i)) by lia. done.
    + by destruct IH as [? _].
  - assert (∀ f, ¬ holds (e :: table) 0 key f) as H0.
    { intros f ([= ->]&Hu&Hk). rewrite Hu, bool_decide_eq_true_2 in E by done. done. }
    assert (∀ v', match (limiter_scan key (S i) table m v').1 with
      | None => m = None ∧ ∀ j e0, ¬ holds (e :: table) j key e0
      | Some k => m = Some k ∧ (∀ j e0, ¬ holds (e :: table) j key e0) ∨
                  (i ≤ k)%nat ∧ ∃ e0, holds (e :: table) (k - i) key e0 end) as Hall.
    { intros v'. specialize (IH (S i) m v'). destruct (limiter_scan _ _ _ _ _).1 as [k|].
      - destruct IH as [[-> Hn]|[Hk [f Hf]]].
        + left. split; [done|]. intros [|j] f; [apply H0|apply Hn].
        + right. split; [lia|]. exists f. replace (k - i)%nat with (S (k - S i)) by lia. done.
      - destruct IH as [-> Hn]. split; [done|]. intros [|j] f; [apply H0|apply Hn]. }
    destruct (negb (le_used e) && bool_decide (v = None)); apply Hall.
Qed.

Lemma limiter_scan_vacant key i table m v k :
  (limiter_scan key i table m v).2 = Some k →
  v = Some k ∨ (i ≤ k)%nat ∧ ∃ e, table !! (k - i)%nat = Some e ∧ le_used e = false.
Proof.
  revert i m v. induction table as [|e table IH]; intros i m v; cbn [limiter_scan snd]; [by left|].
  assert (∀ v', (v' = Some k ∨ (S i ≤ k)%nat ∧ ∃ f, table !! (k - S i)%nat = Some f ∧ le_used f = false) →
    v' = Some k ∨ (i ≤ k)%nat ∧ ∃ f, (e :: table) !! (k - i)%nat = Some f ∧ le_used f = false) as Hs.
  { intros v' [?|[? [f Hf]]]; [by left|]. right. split; [lia|]. exists f.
    replace (k - i)%nat with (S (k - S i)) by lia. done. }
  case_if as E1; [intros Hx%IH; by apply Hs|]. case_if as E2; [|intros Hx%IH; by apply Hs].
  apply andb_true_iff in E2 as [Hu _]. apply negb_true_iff in Hu. intros [Hx|Hx]%IH.
  - injection Hx as <-. right. split; [lia|]. exists e. rewrite Nat.sub_diag. done.
  - right. destruct Hx as [? [f Hf]]. split; [lia|].
    exists f. by replace (k - i)%nat with (S (k - S i)) by lia.
Qed.

(** ** The potential of a key

    What a key could still spend at time [now]: the refilled tokens of its entry, or a full
    bucket when it has none. *)
Section bucket.
Context (rate burst : Z).
Hypothesis rate_pos : 0 < rate.
Hypothesis burst_pos : 1 ≤ burst.
(** An idle entry is full before it expires. *)
Hypothesis idle_refills : burst * 1000 ≤ rate * IdleExpiryMs.

Definition level (now : Z) (e : LimiterEntry) : Z :=
  Z.min (burst * 1000) (le_tokens e + rate * (now - le_refill_at_ms e)).

Definition entry_ok (now : Z) (e : LimiterEntry) : Prop :=
  le_used e = true → le_refill_at_ms e = le_seen_at_ms e ∧ le_refill_at_ms e ≤ now ∧
    0 ≤ le_tokens e ≤ burst * 1000.

Definition table_ok (now : Z) (table : list LimiterEntry) : Prop :=
  unique_keys table ∧ Forall (entry_ok now) table.

(** [p] bounds what [key] can spend at [now]. *)
Definition potential (now : Z) (table : list LimiterEntry) (key : list Z) (p : Z) : Prop :=
  (∀ i e, holds table i key e → level now e ≤ p) ∧ ((∀ i e, ¬ holds table i key e) → burst * 1000 ≤ p).

Lemma refill_exact e : 0 ≤ e →
  Z.min e ((burst * 1000 + rate - 1) / rate) * rate = e * rate ∨
  burst * 1000 ≤ Z.min e ((burst * 1000 + rate - 1) / rate) * rate ≤ e * rate.
Proof.
  intros He. set (q := (burst * 1000 + rate - 1) / rate).
  assert (burst * 1000 ≤ q * rate).
  { pose proof (Z.mod_pos_bound (burst * 1000 + rate - 1) rate rate_pos).
    pose proof (Z.div_mod (burst * 1000 + rate - 1) rate ltac:(lia)) as Hd. fold q in Hd. lia. }
  destruct (Z.min_spec e q) as [[? ->]|[? ->]]; [by left|]. right. nia.
Qed.

Lemma level_fresh k now s tok u : level now (mkEntry k now s tok u) = Z.min (burst * 1000) tok.
Proof. unfold level. cbn [le_tokens le_refill_at_ms]. f_equal. lia. Qed.

(** Charging an entry at [now]. *)
Lemma charge_spec now e :
  entry_ok now e → le_used e = true →
  let '(ok, e') := limiter_charge e rate burst now in
  le_key e' = le_key e ∧ le_used e' = true ∧ entry_ok now e' ∧
  level now e' + (if ok then 1000 else 0) ≤ level now e.
Proof.
  intros Hok Hu. destruct (Hok Hu) as (Hrs&Hr&Ht). unfold limiter_charge. cbv zeta.
  rewrite (proj2 (Z.leb_le _ _) Hr).
  pose proof (refill_exact (now - le_refill_at_ms e) ltac:(lia)) as Hre.
  set (refill := Z.min _ _ * rate) in *.
  assert (Z.min (burst * 1000) (le_tokens e + refill) = level now e) as Hlev.
  { unfold level. destruct Hre as [-> |[? ?]]; [f_equal; lia|]. rewrite !Z.min_l by nia. done. }
  rewrite Hlev. assert (0 ≤ level now e ≤ burst * 1000) by (unfold level; nia).
  rewrite <- Hrs. rewrite Z.max_r by lia.
  case_if as E; bool_props; cbn [le_key le_used]; (split; [done|]); (split; [done|]);
    rewrite level_fresh; unfold entry_ok; cbn [le_refill_at_ms le_seen_at_ms le_tokens];
    (split; [intros _; lia|]); lia.
Qed.

Lemma level_later now now' e : now ≤ now' → level now' e ≤ level now e + rate * (now' - now).
Proof. intros. unfold level. nia. Qed.

Lemma potential_later now now' table key p :
  now ≤ now' → potential now table key p → potential now' table key (p + rate * (now' - now)).
Proof.
  intros Hle [H1 H2]. split.
  - intros i e Hh. specialize (H1 i e Hh). pose proof (level_later now now' e Hle). lia.
  - intros Hn. specialize (H2 Hn). nia.
Qed.

Lemma holds_expire now table i key e :
  holds (limiter_expire now <$> table) i key e → holds table i key e.
Proof.
  intros (Hl&Hu&Hk). rewrite list_lookup_fmap in Hl. apply fmap_Some in Hl as (e0&He0&->).
  unfold limiter_expire in *. destruct (_ && _); [done|]. done.
Qed.

(** Expiry keeps the invariant and no key gains from it. *)
Lemma expire_ok now table :
  table_ok now table → table_ok now (limiter_expire now <$> table) ∧
  ∀ key p, potential now table key p → potential now (limiter_expire now <$> table) key p.
Proof.
  intros [Hu Hall]. split; [split|].
  - intros i j key e f Hi Hj. eapply Hu; by eapply holds_expire.
  - apply Forall_fmap. eapply Forall_impl; [exact Hall|]. intros e He. cbn. unfold limiter_expire.
    destruct (_ && _); [by intros ?|done].
  - intros key p [H1 H2]. split.
    + intros i e Hh. by eapply H1, holds_expire.
    + intros Hn. destruct (decide (Exists (λ e, le_used e = true ∧ le_key e = key) table)) as [Hex|Hex].
      * apply Exists_exists in Hex as (e&Hin&Hue&Hk). apply list_elem_of_lookup_1 in Hin as [i Hi].
        specialize (H1 i e (conj Hi (conj Hue Hk))).
        assert (limiter_expire now e ≠ e) as Hexp.
        { intros Heq. apply (Hn i e). split; [|done].
          rewrite list_lookup_fmap, Hi. cbn [fmap option_fmap option_map]. by rewrite Heq. }
        unfold limiter_expire in Hexp. destruct (_ && _) eqn:E in Hexp; [|done]. bool_props.
        destruct (proj1 (Forall_lookup _ _) Hall i e Hi Hue) as (Hrs&?&Ht). unfold level in H1.
        unfold IdleExpiryMs in *. rewrite Hrs in H1. nia.
      * apply H2. intros i e (Hi&Hue&Hk). apply Hex, Exists_exists. exists e.
        split; [by eapply list_elem_of_lookup_2|done].
Qed.

(** Replacing position [i], free or of the same key, by a live entry of [key]. *)
Lemma place_ok now table i key e' :
  table_ok now table → (i < length table)%nat → le_used e' = true → le_key e' = key → entry_ok now e' →
  (∀ j f, holds table j key f → j = i) → (∀ f, table !! i = Some f → le_used f = true → le_key f = key) →
  table_ok now (<[i := e']> table) ∧
  (∀ key' p, key' ≠ key → potential now table key' p → potential now (<[i := e']> table) key' p) ∧
  ∀ p, level now e' ≤ p → potential now (<[i := e']> table) key p.
Proof.
  intros [Hu Hall] Hlen Hue Hk Hok Hsame Hfree.
  assert (∀ j k f, holds (<[i := e']> table) j k f → (j = i ∧ f = e' ∧ k = key) ∨ (j ≠ i ∧ holds table j k f)) as Hh.
  { intros j k f (Hl&Hf&Hkf). destruct (decide (i = j)) as [->|Hne].
    - rewrite list_lookup_insert_eq in Hl by done. injection Hl as <-. left. split; [done|]. split; [done|congruence].
    - rewrite list_lookup_insert_ne in Hl by done. right. done. }
  assert (holds (<[i := e']> table) i key e') as Hnew by (split; [by apply list_lookup_insert_eq|done]).
  split; [split|split].
  - intros a b k f g Ha Hb. apply Hh in Ha as [(->&->&->)|(?&Ha)], Hb as [(->&->&?)|(?&Hb)].
    + done.
    + symmetry. by eapply Hsame.
    + subst k. by eapply Hsame.
    + by eapply Hu.
  - by apply Forall_insert.
  - intros k p Hne [H1 H2]. split.
    + intros j f [(_&_&->)|(_&?)]%Hh; [done|by eapply H1].
    + intros Hn. apply H2. intros j f Hj. destruct (decide (j = i)) as [->|Hji].
      * destruct Hj as (Hl&Hfu&Hfk). apply Hne. rewrite <- Hfk. by apply Hfree.
      * apply (Hn j f). destruct Hj as (Hl&Hfu&Hfk). split; [by rewrite list_lookup_insert_ne by done|done].
  - intros p Hp. split.
    + intros j f [(_&->&_)|(Hji&Hj)]%Hh; [done|]. by apply Hsame in Hj.
    + intros Hn. by apply Hn in Hnew.
Qed.

(** One call: the spent units come out of the key's potential. *)
Lemma allow_locked_spec now table key ps :
  table_ok now table → (∀ k, potential now table k (ps k)) →
  let '(ok, table') := Limiter_AllowLocked table key rate burst now in
  table_ok now table' ∧
  ∀ k, potential now table' k (ps k - (if ok && bool_decide (k = key) then 1000 else 0)).
Proof.
  intros Htab Hps. unfold Limiter_AllowLocked. cbv zeta.
  destruct (expire_ok now table Htab) as [Htab1 Hps1]. assert (∀ k, potential now (limiter_expire now <$> table) k (ps k)) as Hps2 by auto.
  clear Hps Hps1 Htab. set (t := limiter_expire now <$> table) in *. clearbody t.
  pose proof (limiter_scan_matching key 0 t None None) as Hm. pose proof (limiter_scan_vacant key 0 t None None) as Hv.
  destruct (limiter_scan key 0 t None None) as [[i|] v]; cbn [fst snd] in *.
  - destruct Hm as [[? _]|[_ [e He]]]; [done|]. rewrite Nat.sub_0_r in He. pose proof He as (Hl&Hu&Hk).
    rewrite Hl, default_Some. pose proof (proj1 (Forall_lookup _ _) (proj2 Htab1) i e Hl) as Hok.
    pose proof (charge_spec now e Hok Hu) as Hc. destruct (limiter_charge e rate burst now) as [ok e'].
    destruct Hc as (Hk'&Hu'&Hok'&Hle).
    destruct (place_ok now t i key e') as (H1&H2&H3); [done|by eapply lookup_lt_Some|done|congruence|done| |congruence|].
    { intros j f Hj. by eapply (proj1 Htab1). }
    split; [done|]. intros k. case_bool_decide as Hkk; subst.
    + rewrite andb_true_r. apply H3. pose proof (proj1 (Hps2 (le_key e)) i e He). lia.
    + rewrite andb_false_r, Z.sub_0_r. by apply H2.
  - destruct Hm as [_ Hn]. destruct v as [i|].
    + destruct (Hv i eq_refl) as [?|[_ [f [Hf Hfu]]]]; [done|]. rewrite Nat.sub_0_r in Hf.
      set (e := mkEntry key now now (burst * 1000) true).
      assert (entry_ok now e) as Hok by (intros _; cbn; lia).
      pose proof (charge_spec now e Hok eq_refl) as Hc. destruct (limiter_charge e rate burst now) as [ok e'].
      destruct Hc as (Hk'&Hu'&Hok'&Hle).
      destruct (place_ok now t i key e') as (H1&H2&H3); [done|by eapply lookup_lt_Some|done|done|done| |congruence|].
      { intros j g Hj. by apply Hn in Hj. }
      split; [done|]. intros k. case_bool_decide as Hkk; subst.
      * rewrite andb_true_r. apply H3. pose proof (proj2 (Hps2 key) Hn).
        assert (level now e = burst * 1000) by (unfold level; cbn; lia). lia.
      * rewrite andb_false_r, Z.sub_0_r. by apply H2.
    + split; [done|]. intros k. by rewrite Z.sub_0_r.
Qed.

Lemma table_ok_later now now' table : now ≤ now' → table_ok now table → table_ok now' table.
Proof.
  intros Hle [Hu Hall]. split; [done|]. eapply Forall_impl; [exact Hall|]. intros e He Hue.
  destruct (He Hue) as (?&?&?). split; [done|]. lia.
Qed.

(** Sequences of calls at non-decreasing times, starting at [t0]. *)
Fixpoint times_from (t0 : Z) (calls : list (list Z * Z)) : Prop :=
  match calls with [] => True | (_, t) :: calls => t0 ≤ t ∧ times_from t calls end.

Definition bucket_step (table : list LimiterEntry) (call : list Z * Z) : bool * list LimiterEntry :=
  Limiter_AllowLocked table call.1 rate burst call.2.

(** Packets of [key] let through. *)
Fixpoint allowed_count (key : list Z) (calls : list (list Z * Z)) (results : list bool) : nat :=
  match calls, results with
  | (k, _) :: calls, r :: results =>
      ((if r && bool_decide (key = k) then 1 else 0) + allowed_count key calls results)%nat
  | _, _ => O
  end.

Fixpoint last_time (t0 : Z) (calls : list (list Z * Z)) : Z :=
  match calls with [] => t0 | (_, t) :: calls => last_time t calls end.


Lemma potential_nonneg now table key p : table_ok now table → potential now table key p → 0 ≤ p.
Proof.
  intros [_ Hall] [H1 H2].
  destruct (decide (Exists (λ e, le_used e = true ∧ le_key e = key) table)) as [Hex|Hex].
  - apply Exists_exists in Hex as (e&Hin&Hue&Hk). apply list_elem_of_lookup_1 in Hin as [i Hi].
    specialize (H1 i e (conj Hi (conj Hue Hk))).
    destruct (proj1 (Forall_lookup _ _) Hall i e Hi Hue) as (_&?&?). unfold level in H1.
    assert (0 ≤ rate * (now - le_refill_at_ms e)) by nia. lia.
  - assert (burst * 1000 ≤ p); [|lia]. apply H2. intros i e (Hi&Hue&Hk). apply Hex, Exists_exists. exists e.
    split; [by eapply list_elem_of_lookup_2|done].
Qed.

Lemma bucket_run t0 table calls key ps :
  table_ok t0 table → (∀ k, potential t0 table k (ps k)) → times_from t0 calls →
  1000 * Z.of_nat (allowed_count key calls (run bucket_step table calls).1) ≤
    ps key + rate * (last_time t0 calls - t0).
Proof.
  revert t0 table ps. induction calls as [|[k t] calls IH]; intros t0 table ps Htab Hps Ht.
  { cbn [allowed_count run fst last_time]. pose proof (potential_nonneg _ _ _ _ Htab (Hps key)). lia. }
  cbn [times_from last_time] in *. destruct Ht as [Hle Ht]. rewrite run_results_cons.
  pose proof (allow_locked_spec t table k (λ k', ps k' + rate * (t - t0)) (table_ok_later _ _ _ Hle Htab)) as Hstep.
  change (bucket_step table (k, t)) with (Limiter_AllowLocked table k rate burst t).
  destruct (Limiter_AllowLocked table k rate burst t) as [ok table']. cbn [fst snd].
  destruct Hstep as [Htab' Hps']; [intros k'; by apply potential_later|].
  specialize (IH t table' _ Htab' Hps' Ht). cbn [allowed_count]. cbv beta in IH.
  destruct (ok && bool_decide (key = k)); lia.
Qed.

Lemma empty_table_ok t0 n : table_ok t0 (replicate n entry_default).
Proof.
  split.
  - intros i j key e f (Hi&Hu&_) _. apply lookup_replicate in Hi as [-> _]. done.
  - apply Forall_replicate. by intros ?.
Qed.

Lemma empty_table_potential t0 n key : potential t0 (replicate n entry_default) key (burst * 1000).
Proof. split; [|lia]. intros i e (Hi&Hu&_). apply lookup_replicate in Hi as [-> _]. done. Qed.
End bucket.

(** ** The limiter *)

(** The calls for which a source reaches its bucket. *)
Definition keyed_calls (calls : list (IpAddress * Z)) : list (list Z * Z) :=
  omap (λ c, (λ k, (k, c.2)) <$> source_key c.1) calls.

Definition source_step (l : P2PIngressLimiter) (call : IpAddress * Z) : bool * P2PIngressLimiter :=
  Limiter_AllowSource l call.1 call.2.

(** Packets let through for the sources that share the budget of [key]. *)
Fixpoint source_allowed (key : list Z) (calls : list (IpAddress * Z)) (results : list bool) : nat :=
  match calls, results with
  | (a, _) :: calls, r :: results =>
      ((if r && bool_decide (source_key a = Some key) then 1 else 0) + source_allowed key calls results)%nat
  | _, _ => O
  end.

Fixpoint source_times (t0 : Z) (calls : list (IpAddress * Z)) : Prop :=
  match calls with [] => True | (_, t) :: calls => t0 ≤ t ∧ source_times t calls end.

Fixpoint source_last (t0 : Z) (calls : list (IpAddress * Z)) : Z :=
  match calls with [] => t0 | (_, t) :: calls => source_last t calls end.

Lemma source_run l key calls t0 :
  source_times t0 calls →
  source_allowed key calls (run source_step l calls).1 =
  allowed_count key (keyed_calls calls) (run (bucket_step SourcePacketsPerSecond SourceBurst) (li_sources l) (keyed_calls calls)).1 ∧
  times_from t0 (keyed_calls calls) ∧ last_time t0 (keyed_calls calls) ≤ source_last t0 calls ∧ t0 ≤ source_last t0 calls.
Proof.
  revert l t0. induction calls as [|[a t] calls IH]; intros l t0 Ht; [cbn; lia|].
  cbn [source_times source_last] in *. destruct Ht as [Hle Ht]. rewrite run_results_cons.
  change (source_step l (a, t)) with (Limiter_AllowSource l a t). unfold Limiter_AllowSource.
  assert (keyed_calls ((a, t) :: calls) =
    match source_key a with Some k => (k, t) :: keyed_calls calls | None => keyed_calls calls end) as ->.
  { unfold keyed_calls. cbn. by destruct (source_key a). }
  destruct (source_key a) as [k|] eqn:E.
  - rewrite run_results_cons.
    change (bucket_step SourcePacketsPerSecond SourceBurst (li_sources l) (k, t))
      with (Limiter_AllowLocked (li_sources l) k SourcePacketsPerSecond SourceBurst t).
    destruct (Limiter_AllowLocked _ _ _ _ _) as [ok tb]. cbn [fst snd].
    destruct (IH (mkLimiter tb (li_sessions l)) t Ht) as (H1&H2&H3&H4). cbn [li_sources] in H1.
    cbn [source_allowed allowed_count times_from last_time]. rewrite E, H1.
    split; [f_equal|split; [done|lia]].
    assert (bool_decide (Some k = Some key) = bool_decide (key = k)) as -> by (apply bool_decide_ext; split; congruence).
    done.
  - cbn [fst snd]. destruct (IH l t Ht) as (H1&H2&H3&H4). cbn [source_allowed]. rewrite H1. cbn [andb].
    split; [done|].
    assert (∀ cs, times_from t cs → times_from t0 cs ∧ last_time t0 cs ≤ Z.max (last_time t cs) t) as Hw.
    { intros [|[k' t'] cs]; cbn; [lia|]. intros [? ?]. split; [split; [lia|done]|lia]. }
    destruct (Hw _ H2) as [? ?]. split; [done|]. lia.
Qed.

(** ** Any period *)

(** Whatever the table, no key can spend more than its bucket at once. *)
Lemma full_potential rate burst now table key : potential rate burst now table key (burst * 1000).
Proof. split; [|lia]. intros i e _. unfold level. lia. Qed.

Lemma bucket_table_ok rate burst t0 table calls :
  0 < rate → 1 ≤ burst → burst * 1000 ≤ rate * IdleExpiryMs → table_ok burst t0 table → times_from t0 calls →
  table_ok burst (last_time t0 calls) (exec (bucket_step rate burst) table calls).
Proof.
  intros Hr Hb Hi. revert t0 table. induction calls as [|[k t] calls IH]; intros t0 table Htab Ht; [done|].
  cbn [times_from last_time] in *. destruct Ht as [Hle Ht]. rewrite exec_cons.
  pose proof (allow_locked_spec rate burst Hr Hb Hi t table k (λ _, burst * 1000) (table_ok_later _ _ _ _ Hle Htab)) as Hstep.
  change (bucket_step rate burst table (k, t)) with (Limiter_AllowLocked table k rate burst t).
  destruct (Limiter_AllowLocked table k rate burst t) as [ok table']. cbn [fst snd].
  apply IH; [|done]. apply Hstep. intros. apply full_potential.
Qed.

Lemma source_exec l calls :
  li_sources (exec source_step l calls) = exec (bucket_step SourcePacketsPerSecond SourceBurst) (li_sources l) (keyed_calls calls).
Proof.
  revert l. induction calls as [|[a t] calls IH]; intros l; [done|]. rewrite exec_cons, IH.
  change (source_step l (a, t)) with (Limiter_AllowSource l a t). unfold Limiter_AllowSource.
  assert (keyed_calls ((a, t) :: calls) =
    match source_key a with Some k => (k, t) :: keyed_calls calls | None => keyed_calls calls end) as ->.
  { unfold keyed_calls. cbn. by destruct (source_key a). }
  destruct (source_key a) as [k|]; [|done]. rewrite exec_cons.
  change (bucket_step SourcePacketsPerSecond SourceBurst (li_sources l) (k, t))
    with (Limiter_AllowLocked (li_sources l) k SourcePacketsPerSecond SourceBurst t).
  by destruct (Limiter_AllowLocked _ _ _ _ _).
Qed.

(** Two addresses of one host: equal, or an IPv4 address and its IPv4-mapped IPv6 form. *)
Definition mapped_form (bytes : list Z) : list Z := replicate 10 0 ++ [255; 255] ++ bytes.
Definition same_host (a b : IpAddress) : bool :=
  match a, b with
  | AddrV4 x, AddrV4 y | AddrV6 x, AddrV6 y => bool_decide (x = y)
  | AddrV4 x, AddrV6 y | AddrV6 y, AddrV4 x => bool_decide (y = mapped_form x)
  end.
(** Packets of a host that were let through. *)
Fixpoint let_through (host : IpAddress) (calls : list (IpAddress * Z)) (results : list bool) : nat :=
  match calls, results with
  | (a, _) :: calls, r :: results => ((if r && same_host host a then 1 else 0) + let_through host calls results)%nat
  | _, _ => O
  end.

Lemma mapped_key x : source_key (AddrV6 (mapped_form x)) = source_key (AddrV4 x).
Proof.
  cbn. rewrite drop_0. fold (all_zero_bytes x). by destruct (all_zero_bytes x).
Qed.
Lemma same_host_key a b : same_host a b = true → source_key b = source_key a.
Proof.
  destruct a as [x|x], b as [y|y]; cbn [same_host]; intros ->%bool_decide_eq_true; first [done|apply mapped_key|symmetry; apply mapped_key].
Qed.

Lemma let_through_key host key calls results :
  source_key host = Some key → (let_through host calls results ≤ source_allowed key calls results)%nat.
Proof.
  intros Hk. revert results. induction calls as [|[a t] calls IH]; intros [|r results]; cbn [let_through source_allowed]; try lia.
  specialize (IH results). destruct (same_host host a) eqn:E; [|rewrite andb_false_r; lia].
  rewrite (same_host_key _ _ E), Hk, bool_decide_eq_true_2 by done. lia.
Qed.
Lemma let_through_none host l calls : source_key host = None → let_through host calls (run source_step l calls).1 = 0%nat.
Proof.
  intros Hk. revert l. induction calls as [|[a t] calls IH]; intros l; [done|]. rewrite run_results_cons. cbn [let_through]. rewrite IH, Nat.add_0_r.
  change (source_step l (a, t)) with (Limiter_AllowSource l a t). destruct (same_host host a) eqn:E; [|by rewrite andb_false_r].
  unfold Limiter_AllowSource. by rewrite (same_host_key _ _ E), Hk.
Qed.

(** C36: no source exceeds its rate, whatever other sources do: with calls at non-decreasing times, after
    any earlier calls since the limiter was cleared, the packets let through for one host over a further
    period are at most the burst of 8 plus 4 per second of the period.  The packets of an IPv4 address and
    those of its IPv4-mapped IPv6 form count together as those of one host, and entry expiry gives nobody
    extra packets. *)
Theorem limiter_rate_bound host before calls t0 t1 :
  source_times t0 before → source_last t0 before ≤ t1 → source_times t1 calls →
  1000 * Z.of_nat (let_through host calls (run source_step (exec source_step Limiter_Clear before) calls).1) ≤
    1000 * SourceBurst + SourcePacketsPerSecond * (source_last t1 calls - t1).
Proof.
  intros Hb Hle Ht. set (l := exec source_step Limiter_Clear before).
  destruct (source_run l [] calls t1 Ht) as (_&_&_&Hlast).
  destruct (source_key host) as [key|] eqn:Ek.
  - destruct (source_run l key calls t1 Ht) as (E&H2&H3&_). pose proof (let_through_key host key calls (run source_step l calls).1 Ek) as Hk.
    rewrite E in Hk. destruct (source_run Limiter_Clear key before t0 Hb) as (_&B2&B3&_).
    assert (table_ok SourceBurst t1 (li_sources l)) as Htab.
    { unfold l. rewrite source_exec. apply (table_ok_later _ (last_time t0 (keyed_calls before))); [lia|].
      apply bucket_table_ok; [done..| |done]. apply empty_table_ok. }
    pose proof (bucket_run SourcePacketsPerSecond SourceBurst ltac:(done) ltac:(done) ltac:(done) t1
      (li_sources l) (keyed_calls calls) key (λ _, SourceBurst * 1000) Htab ltac:(intros; apply full_potential) H2) as Hr.
    cbv beta in Hr. unfold SourceBurst, SourcePacketsPerSecond in *. lia.
  - rewrite let_through_none by done. unfold SourceBurst, SourcePacketsPerSecond in *. lia.
Qed.

(** Ten packets at once from one host, in both forms: eight pass; two and a half seconds later another eight at
    most, whoever came between. *)
Definition limiter_flood : list (IpAddress * Z) :=
  replicate 6 (AddrV4 [192; 0; 2; 1], 5000) ++ replicate 4 (AddrV6 (mapped_form [192; 0; 2; 1]), 5000).
Lemma limiter_rate_bound_witness :
  let host := AddrV4 [192; 0; 2; 1] in
  let_through host limiter_flood (run source_step (exec source_step Limiter_Clear []) limiter_flood).1 = 8%nat ∧
  1000 * Z.of_nat (let_through host limiter_flood (run source_step (exec source_step Limiter_Clear limiter_flood) limiter_flood).1) ≤
    1000 * SourceBurst + SourcePacketsPerSecond * (source_last 5000 limiter_flood - 5000).
Proof.
  split; [vm_compute; reflexivity|]. apply (limiter_rate_bound (AddrV4 [192; 0; 2; 1]) limiter_flood limiter_flood 5000 5000); cbn; lia.
Defined.
