(* ===== verification/P2PNat.v ===== *)
(** NAT classification from relayed traffic ([src/ppp/p2p/P2PNatClassifier.cpp]) and the cache
    for reconnecting to a peer ([src/ppp/p2p/P2PZeroRTTCache.h]).

    Peers are keyed by virtual IP in finite maps; the clock the cache reads is an argument. *)

From S2P Require Import Prelude.

(** ** NAT classifier *)

Inductive NatAddress := NatV4 (ip : Z) | NatV6 (bytes : list Z).

Record NatEndpoint := mkEndpoint { ne_address : NatAddress; ne_port : Z }.

Record P2PNatObservation := mkObservation {
  no_source : NatEndpoint;
  no_destination : NatEndpoint;
  no_timestamp_ms : Z
}.

Inductive P2PNatType := NatUnknown | FullCone | RestrictedCone | PortRestricted | NatSymmetric | UdpBlocked.

#[global] Instance P2PNatType_eq_dec : EqDecision P2PNatType.
Proof. solve_decision. Defined.

Record P2PNatClassification := mkClassification {
  nc_type : P2PNatType;
  nc_confidence : Z;
  nc_stale : bool
}.

Definition MAX_OBSERVATIONS_PER_PEER : nat := 32.
Definition STALE_THRESHOLD_MS : Z := 30000.

Record PeerObservations := mkPeerObs {
  po_observations : list P2PNatObservation;
  po_last_update_ms : Z
}.

Abbreviation NatTable := (gmap Z PeerObservations).

Definition Nat_Observe (peers : NatTable) (peer_virtual_ip : Z) (source destination : NatEndpoint) (now_ms : Z)
    : NatTable :=
  if (peer_virtual_ip =? 0) || (ne_port source =? 0) then peers
  else
    let data := default (mkPeerObs [] 0) (peers !! peer_virtual_ip) in
    let observations := if decide (MAX_OBSERVATIONS_PER_PEER ≤ length (po_observations data))%nat
                        then tail (po_observations data) else po_observations data in
    <[peer_virtual_ip := mkPeerObs (observations ++ [mkObservation source destination now_ms]) now_ms]> peers.

Definition dest_ip (o : P2PNatObservation) : option Z :=
  match ne_address (no_destination o) with NatV4 ip => Some ip | NatV6 _ => None end.

Definition source_ip (o : P2PNatObservation) : option Z :=
  match ne_address (no_source o) with NatV4 ip => Some ip | NatV6 _ => None end.

Definition source_endpoint (o : P2PNatObservation) : option Z :=
  (λ ip, Z.lor (Z.shiftl ip 16) (ne_port (no_source o))) <$> source_ip o.

(** The loop that records the first source port per destination and notices a second one. *)
Definition port_step (acc : gmap Z Z * bool) (o : P2PNatObservation) : gmap Z Z * bool :=
  match dest_ip o, source_ip o with
  | Some d, Some _ =>
      match acc.1 !! d with
      | None => (<[d := ne_port (no_source o)]> acc.1, acc.2)
      | Some p => if negb (p =? ne_port (no_source o)) then (acc.1, true) else acc
      end
  | _, _ => acc
  end.

Definition Nat_Classify (peers : NatTable) (peer_virtual_ip now_ms : Z) : P2PNatClassification :=
  match peers !! peer_virtual_ip with
  | None => mkClassification NatUnknown 0 true
  | Some data =>
      let observations := po_observations data in
      if decide (observations = []) then mkClassification NatUnknown 0 true
      else
        let stale := 5000 <? (now_ms -[64] po_last_update_ms data) in
        let dest_ips : gset Z := list_to_set (omap dest_ip observations) in
        let source_endpoints : gset Z := list_to_set (omap source_endpoint observations) in
        let confidence := Z.of_nat (size dest_ips) in
        let type :=
          if decide (size dest_ips < 2)%nat then NatUnknown
          else if decide (size source_endpoints = 1)%nat then FullCone
          else if (fold_left port_step observations (∅, false)).2 then PortRestricted
          else if decide (size dest_ips < size source_endpoints)%nat then RestrictedCone
          else NatSymmetric in
        mkClassification type confidence stale
  end.

Definition Nat_ShouldAttemptPunch (source_nat dest_nat : P2PNatClassification) : bool :=
  if decide (nc_type source_nat = NatSymmetric ∧ nc_type dest_nat = NatSymmetric) then false
  else if decide (nc_type source_nat = UdpBlocked ∨ nc_type dest_nat = UdpBlocked) then false
  else true.

Definition Nat_Remove (peers : NatTable) (peer_virtual_ip : Z) : NatTable := delete peer_virtual_ip peers.

Definition Nat_PurgeStale (peers : NatTable) (now_ms : Z) : NatTable :=
  filter (λ kv, ¬ STALE_THRESHOLD_MS < (now_ms -[64] po_last_update_ms kv.2)) peers.

(** ** Reconnect cache *)

Record P2PSessionCache := mkSessionCache {
  sc_session_id : Z;
  sc_peer_session_id : Z;
  sc_token_key : list Z;
  sc_peer_endpoint : NatEndpoint;
  sc_cipher : Z;
  sc_cached_at_ms : Z;
  sc_valid : bool
}.

Abbreviation ZeroRTTTable := (gmap Z P2PSessionCache).

Definition ZERO_RTT_TTL_MS : Z := 300 * 1000.

Definition set_cached_at (s : P2PSessionCache) (now : Z) : P2PSessionCache :=
  mkSessionCache (sc_session_id s) (sc_peer_session_id s) (sc_token_key s) (sc_peer_endpoint s) (sc_cipher s) now true.

Definition ZeroRTT_Store (cache : ZeroRTTTable) (virtual_ip : Z) (session : P2PSessionCache) (now : Z) : ZeroRTTTable :=
  if (virtual_ip =? 0) || negb (sc_valid session) then cache
  else <[virtual_ip := set_cached_at session now]> cache.

(** [None] stands for the default-constructed, invalid session. *)
Definition ZeroRTT_Lookup (cache : ZeroRTTTable) (virtual_ip now : Z) : option P2PSessionCache * ZeroRTTTable :=
  match cache !! virtual_ip with
  | None => (None, cache)
  | Some e => if ZERO_RTT_TTL_MS <? (now -[64] sc_cached_at_ms e) then (None, delete virtual_ip cache)
              else (Some e, cache)
  end.

Definition ZeroRTT_Invalidate (cache : ZeroRTTTable) (virtual_ip : Z) : ZeroRTTTable := delete virtual_ip cache.

Definition ZeroRTT_PurgeExpired (cache : ZeroRTTTable) (now : Z) : ZeroRTTTable :=
  filter (λ kv, ¬ ZERO_RTT_TTL_MS < (now -[64] sc_cached_at_ms kv.2)) cache.

Definition ZeroRTT_Clear : ZeroRTTTable := ∅.

(** ** Bounds *)

Definition nat_bounded (peers : NatTable) : Prop :=
  map_Forall (λ _ d, 0 < length (po_observations d) ≤ MAX_OBSERVATIONS_PER_PEER)%nat peers.

(** No peer accumulates more than 32 observations, and the newest one is always kept. *)
Lemma observe_bounded peers ip src dst now :
  nat_bounded peers → nat_bounded (Nat_Observe peers ip src dst now) ∧
  (ip ≠ 0 → ne_port src ≠ 0 → ∃ d, Nat_Observe peers ip src dst now !! ip = Some d ∧
     last (po_observations d) = Some (mkObservation src dst now)).
Proof.
  intros Hb. unfold Nat_Observe. case_if as E; [split; [done|intros; blia]|]. split.
  - apply map_Forall_insert_2; [|done]. cbn [po_observations]. unfold MAX_OBSERVATIONS_PER_PEER in *.
    assert (length (po_observations (default (mkPeerObs [] 0) (peers !! ip))) ≤ 32)%nat as Hl.
    { destruct (peers !! ip) as [d|] eqn:Ed; cbn; [|lia]. destruct (Hb ip d Ed). done. }
    rewrite length_app. cbn [length]. case_decide; [|lia].
    destruct (po_observations _) as [|o os]; cbn [length tail] in *; lia.
  - intros _ _. eexists. split; [apply lookup_insert_eq|]. cbn [po_observations]. apply last_snoc.
Qed.

(** The port loop keeps one port per destination while it notices no second one. *)
Lemma port_loop obs m :
  let r := fold_left port_step obs (m, false) in
  r.2 = false → (∀ d p, m !! d = Some p → r.1 !! d = Some p) ∧
  ∀ o d i, o ∈ obs → dest_ip o = Some d → source_ip o = Some i → r.1 !! d = Some (ne_port (no_source o)).
Proof.
  cbv zeta. assert (∀ obs acc, acc.2 = true → (fold_left port_step obs acc).2 = true) as Hsticky.
  { intros l. induction l as [|o l IH]; intros acc Hacc; [done|]. cbn [fold_left]. apply IH. unfold port_step.
    destruct (dest_ip o), (source_ip o); try done. destruct (acc.1 !! _); [|done]. by case_if as E. }
  revert m. induction obs as [|o obs IH]; intros m Hr.
  { split; [done|]. by intros o d i Ho%not_elem_of_nil. }
  cbn [fold_left] in *.
  assert (∃ m', port_step (m, false) o = (m', false) ∧ (∀ d p, m !! d = Some p → m' !! d = Some p) ∧
    (∀ d i, dest_ip o = Some d → source_ip o = Some i → m' !! d = Some (ne_port (no_source o)))) as (m'&Hs&Hk&Ho).
  { unfold port_step in *. cbn [fst snd] in *.
    destruct (dest_ip o) as [d|], (source_ip o) as [i|]; try (exists m; split; [done|]; split; [done|]; congruence).
    destruct (m !! d) as [p|] eqn:Ed.
    - destruct (p =? ne_port (no_source o)) eqn:Ep; cbn [negb] in *.
      + exists m. split; [done|]. split; [done|]. intros d' i' [= <-] _. rewrite Ed. f_equal. blia.
      + rewrite Hsticky in Hr; done.
    - exists (<[d := ne_port (no_source o)]> m). split; [done|]. split.
      + intros d' p Hd'. rewrite lookup_insert_ne; [done|]. intros ->. congruence.
      + intros d' i' [= <-] _. apply lookup_insert_eq. }
  rewrite Hs in *. destruct (IH m' Hr) as [H1 H2]. split.
  - intros d p Hd. by apply H1, Hk.
  - intros o' d i [->|Hin]%elem_of_cons Hd Hi; [by apply H1, (Ho d i)|by eapply H2].
Qed.

Lemma size_list_to_set_le (l : list Z) : (size (list_to_set l : gset Z) ≤ length l)%nat.
Proof.
  induction l as [|x l IH]; [done|]. cbn [list_to_set length].
  rewrite size_union_alt, size_singleton.
  pose proof (subseteq_size ((list_to_set l : gset Z) ∖ {[x]}) (list_to_set l) ltac:(set_solver)). lia.
Qed.

Lemma size_set_map_le (f : Z → Z) (X : gset Z) : (size (set_map f X : gset Z) ≤ size X)%nat.
Proof. unfold set_map. etrans; [apply size_list_to_set_le|]. by rewrite length_fmap. Qed.


(** With a single external address the classifier never answers RestrictedCone: if every
    observation is IPv4 with the same source IP, a destination that always sees one port adds at
    most one endpoint, so there are not more endpoints than destinations. *)
Lemma restricted_needs_address_change peers ip now data ip0 :
  peers !! ip = Some data →
  Forall (λ o, source_ip o = Some ip0 ∧ is_Some (dest_ip o)) (po_observations data) →
  nc_type (Nat_Classify peers ip now) ≠ RestrictedCone.
Proof.
  intros Hd Hall. unfold Nat_Classify. rewrite Hd. set (obs := po_observations data) in *.
  case_decide as E0; [done|]. cbv zeta. cbn [nc_type]. case_decide as E1; [done|]. case_decide as E2; [done|].
  destruct (fold_left port_step obs (∅, false)).2 eqn:E3; [done|]. case_decide as E4; [|done]. exfalso.
  destruct (port_loop obs ∅ E3) as [_ Hport]. set (m := (fold_left port_step obs (∅, false)).1) in *.
  assert (list_to_set (omap source_endpoint obs) ⊆
    (set_map (λ d, Z.lor (Z.shiftl ip0 16) (default 0 (m !! d))) (list_to_set (omap dest_ip obs) : gset Z) : gset Z)) as Hsub.
  { intros x Hx. apply elem_of_list_to_set, list_elem_of_omap in Hx as (o&Ho&Hx).
    rewrite Forall_forall in Hall. destruct (Hall o Ho) as [Hs [d Hdst]]. unfold source_endpoint in Hx.
    rewrite Hs in Hx. cbn in Hx. injection Hx as <-. apply elem_of_map. exists d.
    split; [by rewrite (Hport o d ip0 Ho Hdst Hs)|]. apply elem_of_list_to_set, list_elem_of_omap. eauto. }
  apply subseteq_size in Hsub.
  pose proof (size_set_map_le (λ d, Z.lor (Z.shiftl ip0 16) (default 0 (m !! d)))
    (list_to_set (omap dest_ip obs) : gset Z)). lia.
Qed.

(** A stored session is found until its lifetime has passed, and never after. *)
Lemma zerortt_store_lookup cache ip session now now' :
  ip ≠ 0 → sc_valid session = true → is_uint 64 now → is_uint 64 now' → now ≤ now' →
  (ZeroRTT_Lookup (ZeroRTT_Store cache ip session now) ip now').1 =
  if now' - now <=? ZERO_RTT_TTL_MS then Some (set_cached_at session now) else None.
Proof.
  intros Hip Hv Hn Hn' Hle. unfold ZeroRTT_Store. rewrite Hv, (proj2 (Z.eqb_neq ip 0)) by done. cbn [orb negb].
  unfold ZeroRTT_Lookup. rewrite lookup_insert_eq. cbn [sc_cached_at_ms set_cached_at].
  rewrite wrap_sub_ge by done. destruct (ZERO_RTT_TTL_MS <? now' - now) eqn:E; cbn [fst].
  - by rewrite (proj2 (Z.leb_gt _ _)) by blia.
  - by rewrite (proj2 (Z.leb_le _ _)) by blia.
Qed.
