(* ===== verification/Runtime.v ===== *)
(** Lifecycle of the client and server runtime ([src/ppp/app/runtime]): the phase and its
    readiness gate, the stop coordinator, the teardown pipeline, the snapshot publisher and
    [RuntimeLifecycle], which composes them.

    Every method of [RuntimeLifecycle] runs a critical section under the lifecycle's mutex and
    then, with that mutex released, hands a copy of the snapshot to the publisher, which takes
    its own mutex.  [Lifecycle_*] below are the critical sections: they return [Return b] (the
    method returns [b] at once) or [Publishing s] (the method goes on to publish [s]).
    [lifecycle_call] is the method called by one thread; [runtime_step] interleaves the
    critical sections and the publications of any number of threads. *)

From S2P Require Import Prelude P2PState MuxNegotiation.

Local Open Scope string_scope.
Local Open Scope Z_scope.

(** ** Phases *)

Inductive RuntimePhase :=
  | PhIdle | PhStarting | PhPreparingHost | PhConnecting | PhHandshaking | PhApplyingPolicy
  | PhConnected | PhReconnecting | PhStopping | PhFailed | PhUnknown.

#[global] Instance RuntimePhase_eq_dec : EqDecision RuntimePhase.
Proof. solve_decision. Defined.

Definition RuntimePhase_ToString (phase : RuntimePhase) : string :=
  match phase with
  | PhIdle => "idle"
  | PhStarting => "starting"
  | PhPreparingHost => "preparing_host"
  | PhConnecting => "connecting"
  | PhHandshaking => "handshaking"
  | PhApplyingPolicy => "applying_policy"
  | PhConnected => "connected"
  | PhReconnecting => "reconnecting"
  | PhStopping => "stopping"
  | PhFailed => "failed"
  | PhUnknown => "unknown"
  end.

Definition ParseRuntimePhase (value : string) : RuntimePhase :=
  if str_eq value "idle" then PhIdle
  else if str_eq value "starting" then PhStarting
  else if str_eq value "preparing_host" then PhPreparingHost
  else if str_eq value "connecting" then PhConnecting
  else if str_eq value "handshaking" then PhHandshaking
  else if str_eq value "applying_policy" then PhApplyingPolicy
  else if str_eq value "connected" then PhConnected
  else if str_eq value "reconnecting" then PhReconnecting
  else if str_eq value "stopping" then PhStopping
  else if str_eq value "failed" then PhFailed
  else if str_eq value "unknown" then PhUnknown
  else PhUnknown.

Local Close Scope string_scope.

(** ** Readiness *)

Record RuntimeReadiness := mkReadiness {
  rd_session : bool;
  rd_adapter : bool;
  rd_route : bool;
  rd_dns : bool;
  rd_policy : bool
}.

Definition Readiness_new : RuntimeReadiness := mkReadiness false false false false false.

Definition IsFullyReady (r : RuntimeReadiness) : bool :=
  rd_session r && rd_adapter r && rd_route r && rd_dns r && rd_policy r.

Record ClientRuntimeReadinessFacts := mkFacts {
  rf_session_established : bool;
  rf_adapter_open : bool;
  rf_route_required : bool;
  rf_route_applied : bool;
  rf_dns_required : bool;
  rf_dns_configured : bool;
  rf_dns_session_active : bool;
  rf_policy_negotiated : bool
}.

Definition BuildClientRuntimeReadiness (f : ClientRuntimeReadinessFacts) : RuntimeReadiness :=
  mkReadiness (rf_session_established f) (rf_adapter_open f)
    (negb (rf_route_required f) || rf_route_applied f)
    (negb (rf_dns_required f) || (rf_dns_configured f && rf_dns_session_active f))
    (rf_policy_negotiated f).

Definition BuildServerRuntimeReadiness (active : bool) : RuntimeReadiness :=
  mkReadiness active active active active active.

Definition GateConnectedPhase (requested : RuntimePhase) (readiness : RuntimeReadiness) : RuntimePhase :=
  if bool_decide (requested = PhConnected) && negb (IsFullyReady readiness)
  then PhApplyingPolicy else requested.

(** ** Snapshots *)

Record RuntimeError := mkError {
  re_code : Z;
  re_severity : string;
  re_retryable : bool;
  re_user_message_key : string;
  re_diagnostic_detail : string
}.

Definition Error_none : RuntimeError := mkError 0 EmptyString false EmptyString EmptyString.

Definition HasError (e : RuntimeError) : bool :=
  negb (re_code e =? 0) || negb (str_eq (re_diagnostic_detail e) EmptyString).

Record RuntimeTraffic := mkTraffic { rt_rx_bytes : Z; rt_tx_bytes : Z }.

Record RuntimePeerSnapshot := mkPeer {
  rp_peer_uuid : string;
  rp_p2p_priority : string;
  rp_virtual_ip : Z;
  rp_state : P2PState;
  rp_effective_path : string;
  rp_has_current : bool;
  rp_has_pending : bool;
  rp_has_previous : bool;
  rp_pending_ready : bool;
  rp_migration_pending : bool;
  rp_generation : Z;
  rp_key_generation : Z;
  rp_key_deadline_ms : Z;
  rp_last_receive_ms : Z;
  rp_local_candidate : string;
  rp_peer_candidate : string
}.

(** [operator==] compares every field, that is, it decides equality. *)
#[global] Instance RuntimePeerSnapshot_eq_dec : EqDecision RuntimePeerSnapshot.
Proof. solve_decision. Defined.

Record RuntimeSnapshot := mkSnapshot {
  rs_schema_version : Z;
  rs_generation : Z;
  rs_monotonic_ms : Z;
  rs_phase : RuntimePhase;
  rs_role : string;
  rs_server : string;
  rs_transport : string;
  rs_capabilities : list string;
  rs_requested_mux_mode : string;
  rs_effective_mux_mode : string;
  rs_mux_receiver_ordering : string;
  rs_mux_scheduler : string;
  rs_mux_pool_policy : string;
  rs_mux_turbo : bool;
  rs_mux_active_links : Z;
  rs_mux_fallback_reason : string;
  rs_p2p_state : P2PState;
  rs_p2p_gate_reason : string;
  rs_peers : list RuntimePeerSnapshot;
  rs_p2p_priority : string;
  rs_traffic : RuntimeTraffic;
  rs_connected_monotonic_ms : Z;
  rs_last_error : RuntimeError
}.

Definition Snapshot_new : RuntimeSnapshot :=
  mkSnapshot 1 0 0 PhIdle EmptyString EmptyString EmptyString [] EmptyString EmptyString EmptyString
    EmptyString EmptyString false 0 EmptyString P2PDisabled EmptyString [] "ipv6-first"%string
    (mkTraffic 0 0) 0 Error_none.

(** Assignments to the fields the lifecycle writes. *)
Definition set_phase (p : RuntimePhase) (s : RuntimeSnapshot) : RuntimeSnapshot :=
  mkSnapshot (rs_schema_version s) (rs_generation s) (rs_monotonic_ms s) p (rs_role s) (rs_server s)
    (rs_transport s) (rs_capabilities s) (rs_requested_mux_mode s) (rs_effective_mux_mode s)
    (rs_mux_receiver_ordering s) (rs_mux_scheduler s) (rs_mux_pool_policy s) (rs_mux_turbo s)
    (rs_mux_active_links s) (rs_mux_fallback_reason s) (rs_p2p_state s) (rs_p2p_gate_reason s)
    (rs_peers s) (rs_p2p_priority s) (rs_traffic s) (rs_connected_monotonic_ms s) (rs_last_error
    s).

Definition set_monotonic (t : Z) (s : RuntimeSnapshot) : RuntimeSnapshot :=
  mkSnapshot (rs_schema_version s) (rs_generation s) t (rs_phase s) (rs_role s) (rs_server s)
    (rs_transport s) (rs_capabilities s) (rs_requested_mux_mode s) (rs_effective_mux_mode s)
    (rs_mux_receiver_ordering s) (rs_mux_scheduler s) (rs_mux_pool_policy s) (rs_mux_turbo s)
    (rs_mux_active_links s) (rs_mux_fallback_reason s) (rs_p2p_state s) (rs_p2p_gate_reason s)
    (rs_peers s) (rs_p2p_priority s) (rs_traffic s) (rs_connected_monotonic_ms s) (rs_last_error
    s).

Definition set_connected_at (t : Z) (s : RuntimeSnapshot) : RuntimeSnapshot :=
  mkSnapshot (rs_schema_version s) (rs_generation s) (rs_monotonic_ms s) (rs_phase s) (rs_role s)
    (rs_server s) (rs_transport s) (rs_capabilities s) (rs_requested_mux_mode s)
    (rs_effective_mux_mode s) (rs_mux_receiver_ordering s) (rs_mux_scheduler s)
    (rs_mux_pool_policy s) (rs_mux_turbo s) (rs_mux_active_links s) (rs_mux_fallback_reason s)
    (rs_p2p_state s) (rs_p2p_gate_reason s) (rs_peers s) (rs_p2p_priority s) (rs_traffic s) t
    (rs_last_error s).

Definition set_generation (g : Z) (s : RuntimeSnapshot) : RuntimeSnapshot :=
  mkSnapshot (rs_schema_version s) g (rs_monotonic_ms s) (rs_phase s) (rs_role s) (rs_server s)
    (rs_transport s) (rs_capabilities s) (rs_requested_mux_mode s) (rs_effective_mux_mode s)
    (rs_mux_receiver_ordering s) (rs_mux_scheduler s) (rs_mux_pool_policy s) (rs_mux_turbo s)
    (rs_mux_active_links s) (rs_mux_fallback_reason s) (rs_p2p_state s) (rs_p2p_gate_reason s)
    (rs_peers s) (rs_p2p_priority s) (rs_traffic s) (rs_connected_monotonic_ms s) (rs_last_error
    s).

Definition set_mux (m : MuxRuntimeState) (s : RuntimeSnapshot) : RuntimeSnapshot :=
  mkSnapshot (rs_schema_version s) (rs_generation s) (rs_monotonic_ms s) (rs_phase s) (rs_role s)
    (rs_server s) (rs_transport s) (rs_capabilities s) (ms_requested_mode m) (ms_effective_mode
    m) (ms_receiver_ordering m) (ms_scheduler m) (ms_pool_policy m) (ms_turbo m)
    (ms_active_links m) (ms_fallback_reason m) (rs_p2p_state s) (rs_p2p_gate_reason s) (rs_peers
    s) (rs_p2p_priority s) (rs_traffic s) (rs_connected_monotonic_ms s) (rs_last_error s).

Definition set_active_links (n : Z) (s : RuntimeSnapshot) : RuntimeSnapshot :=
  mkSnapshot (rs_schema_version s) (rs_generation s) (rs_monotonic_ms s) (rs_phase s) (rs_role s)
    (rs_server s) (rs_transport s) (rs_capabilities s) (rs_requested_mux_mode s)
    (rs_effective_mux_mode s) (rs_mux_receiver_ordering s) (rs_mux_scheduler s)
    (rs_mux_pool_policy s) (rs_mux_turbo s) n (rs_mux_fallback_reason s) (rs_p2p_state s)
    (rs_p2p_gate_reason s) (rs_peers s) (rs_p2p_priority s) (rs_traffic s)
    (rs_connected_monotonic_ms s) (rs_last_error s).

Definition set_p2p (p : P2PState) (reason : string) (s : RuntimeSnapshot) : RuntimeSnapshot :=
  mkSnapshot (rs_schema_version s) (rs_generation s) (rs_monotonic_ms s) (rs_phase s) (rs_role s)
    (rs_server s) (rs_transport s) (rs_capabilities s) (rs_requested_mux_mode s)
    (rs_effective_mux_mode s) (rs_mux_receiver_ordering s) (rs_mux_scheduler s)
    (rs_mux_pool_policy s) (rs_mux_turbo s) (rs_mux_active_links s) (rs_mux_fallback_reason s) p
    reason (rs_peers s) (rs_p2p_priority s) (rs_traffic s) (rs_connected_monotonic_ms s)
    (rs_last_error s).

Definition set_p2p_state (p : P2PState) (s : RuntimeSnapshot) : RuntimeSnapshot :=
  mkSnapshot (rs_schema_version s) (rs_generation s) (rs_monotonic_ms s) (rs_phase s) (rs_role s)
    (rs_server s) (rs_transport s) (rs_capabilities s) (rs_requested_mux_mode s)
    (rs_effective_mux_mode s) (rs_mux_receiver_ordering s) (rs_mux_scheduler s)
    (rs_mux_pool_policy s) (rs_mux_turbo s) (rs_mux_active_links s) (rs_mux_fallback_reason s) p
    (rs_p2p_gate_reason s) (rs_peers s) (rs_p2p_priority s) (rs_traffic s)
    (rs_connected_monotonic_ms s) (rs_last_error s).

Definition set_peers (ps : list RuntimePeerSnapshot) (s : RuntimeSnapshot) : RuntimeSnapshot :=
  mkSnapshot (rs_schema_version s) (rs_generation s) (rs_monotonic_ms s) (rs_phase s) (rs_role s)
    (rs_server s) (rs_transport s) (rs_capabilities s) (rs_requested_mux_mode s)
    (rs_effective_mux_mode s) (rs_mux_receiver_ordering s) (rs_mux_scheduler s)
    (rs_mux_pool_policy s) (rs_mux_turbo s) (rs_mux_active_links s) (rs_mux_fallback_reason s)
    (rs_p2p_state s) (rs_p2p_gate_reason s) ps (rs_p2p_priority s) (rs_traffic s)
    (rs_connected_monotonic_ms s) (rs_last_error s).

Definition set_traffic (t : RuntimeTraffic) (s : RuntimeSnapshot) : RuntimeSnapshot :=
  mkSnapshot (rs_schema_version s) (rs_generation s) (rs_monotonic_ms s) (rs_phase s) (rs_role s)
    (rs_server s) (rs_transport s) (rs_capabilities s) (rs_requested_mux_mode s)
    (rs_effective_mux_mode s) (rs_mux_receiver_ordering s) (rs_mux_scheduler s)
    (rs_mux_pool_policy s) (rs_mux_turbo s) (rs_mux_active_links s) (rs_mux_fallback_reason s)
    (rs_p2p_state s) (rs_p2p_gate_reason s) (rs_peers s) (rs_p2p_priority s) t
    (rs_connected_monotonic_ms s) (rs_last_error s).

Definition set_last_error (e : RuntimeError) (s : RuntimeSnapshot) : RuntimeSnapshot :=
  mkSnapshot (rs_schema_version s) (rs_generation s) (rs_monotonic_ms s) (rs_phase s) (rs_role s)
    (rs_server s) (rs_transport s) (rs_capabilities s) (rs_requested_mux_mode s)
    (rs_effective_mux_mode s) (rs_mux_receiver_ordering s) (rs_mux_scheduler s)
    (rs_mux_pool_policy s) (rs_mux_turbo s) (rs_mux_active_links s) (rs_mux_fallback_reason s)
    (rs_p2p_state s) (rs_p2p_gate_reason s) (rs_peers s) (rs_p2p_priority s) (rs_traffic s)
    (rs_connected_monotonic_ms s) e.

(** The comparison that suppresses a mux update which changes nothing. *)
Definition same_mux (s : RuntimeSnapshot) (m : MuxRuntimeState) : bool :=
  str_eq (rs_requested_mux_mode s) (ms_requested_mode m) &&
  str_eq (rs_effective_mux_mode s) (ms_effective_mode m) &&
  str_eq (rs_mux_receiver_ordering s) (ms_receiver_ordering m) &&
  str_eq (rs_mux_scheduler s) (ms_scheduler m) &&
  str_eq (rs_mux_pool_policy s) (ms_pool_policy m) &&
  Bool.eqb (rs_mux_turbo s) (ms_turbo m) &&
  (rs_mux_active_links s =? ms_active_links m) &&
  str_eq (rs_mux_fallback_reason s) (ms_fallback_reason m).

(** ** Stop coordinator *)

Record RuntimeStopCoordinator := mkStop {
  st_generation : Z;
  st_has_generation : bool;
  st_stopping : bool;
  st_completed : bool;
  st_cleanup_success : bool
}.

Definition Stop_new : RuntimeStopCoordinator := mkStop 0 false false false true.

Definition Stop_BeginGeneration (c : RuntimeStopCoordinator) (generation : Z)
    : bool * RuntimeStopCoordinator :=
  if (generation =? 0) || (st_has_generation c && (generation <=? st_generation c)) then (false, c)
  else (true, mkStop generation true false false true).

Definition Stop_TryBeginStop (c : RuntimeStopCoordinator) (generation : Z)
    : bool * RuntimeStopCoordinator :=
  if negb (st_has_generation c) || negb (generation =? st_generation c) ||
     st_stopping c || st_completed c then (false, c)
  else (true, mkStop (st_generation c) (st_has_generation c) true (st_completed c) (st_cleanup_success c)).

Definition Stop_CompleteStop (c : RuntimeStopCoordinator) (generation : Z) (success : bool)
    : RuntimeStopCoordinator :=
  if negb (st_has_generation c) || negb (generation =? st_generation c) || negb (st_stopping c) then c
  else mkStop (st_generation c) (st_has_generation c) false true success.

Definition Stop_IsStopping (c : RuntimeStopCoordinator) (generation : Z) : bool :=
  st_has_generation c && (generation =? st_generation c) && st_stopping c.

Definition Stop_IsCompleted (c : RuntimeStopCoordinator) (generation : Z) : bool :=
  st_has_generation c && (generation =? st_generation c) && st_completed c.

Definition Stop_WasCleanupSuccessful (c : RuntimeStopCoordinator) (generation : Z) : bool :=
  st_has_generation c && (generation =? st_generation c) && st_completed c && st_cleanup_success c.

(** ** Publisher

    A listener is a callback, named by a number; a null callback is [None].  [Publish] returns
    its result and the callbacks that are invoked with the snapshot. *)

Record RuntimeSnapshotPublisher := mkPublisher {
  pb_latest : RuntimeSnapshot;
  pb_listeners : gmap Z Z;
  pb_next_token : Z;
  pb_has_latest : bool
}.

Definition Publisher_new : RuntimeSnapshotPublisher := mkPublisher Snapshot_new ∅ 1 false.

Definition stale (snapshot latest : RuntimeSnapshot) : bool :=
  (rs_generation snapshot <? rs_generation latest) ||
  ((rs_generation snapshot =? rs_generation latest) &&
   (rs_monotonic_ms snapshot <=? rs_monotonic_ms latest)).

Definition Publisher_Publish (p : RuntimeSnapshotPublisher) (snapshot : RuntimeSnapshot)
    : bool * gmap Z Z * RuntimeSnapshotPublisher :=
  if pb_has_latest p && stale snapshot (pb_latest p) then (false, ∅, p)
  else (true, pb_listeners p, mkPublisher snapshot (pb_listeners p) (pb_next_token p) true).

Definition Publisher_Subscribe (p : RuntimeSnapshotPublisher) (listener : option Z)
    : Z * RuntimeSnapshotPublisher :=
  match listener with
  | None => (0, p)
  | Some l =>
      let token := pb_next_token p in
      let next := token +[64] 1 in
      let '(token, next) := if token =? 0 then (next, next +[64] 1) else (token, next) in
      let listeners :=
        if decide (pb_listeners p !! token = None) then <[token := l]> (pb_listeners p)
        else pb_listeners p in
      (token, mkPublisher (pb_latest p) listeners next (pb_has_latest p))
  end.

Definition Publisher_Unsubscribe (p : RuntimeSnapshotPublisher) (token : Z) : RuntimeSnapshotPublisher :=
  if token =? 0 then p
  else mkPublisher (pb_latest p) (delete token (pb_listeners p)) (pb_next_token p) (pb_has_latest p).

Definition Publisher_GetLatest (p : RuntimeSnapshotPublisher) : RuntimeSnapshot := pb_latest p.

(** ** Lifecycle *)

Record LifecycleCore := mkCore {
  lc_stop : RuntimeStopCoordinator;
  lc_current : RuntimeSnapshot;
  lc_readiness : RuntimeReadiness;
  lc_requested : RuntimePhase;
  lc_generation : Z
}.

Definition Core_new : LifecycleCore := mkCore Stop_new Snapshot_new Readiness_new PhIdle 0.

Inductive LockedResult :=
  | Return (result : bool)
  | Publishing (snapshot : RuntimeSnapshot).

Definition NextTimestamp (current : RuntimeSnapshot) (now : Z) : Z :=
  Z.max now (rs_monotonic_ms current +[64] 1).

Definition StampConnectedAt (current : RuntimeSnapshot) : RuntimeSnapshot :=
  if bool_decide (rs_phase current ≠ PhConnected) then set_connected_at 0 current
  else if rs_connected_monotonic_ms current =? 0
  then set_connected_at (rs_monotonic_ms current) current
  else current.

(** The guard every update shares. *)
Definition rejects (c : LifecycleCore) (generation : Z) : bool :=
  (generation =? 0) || negb (generation =? lc_generation c) ||
  Stop_IsStopping (lc_stop c) generation || Stop_IsCompleted (lc_stop c) generation.

(** The assignments shared by the updates that leave phase and readiness alone. *)
Definition set_current (c : LifecycleCore) (s : RuntimeSnapshot) : LockedResult * LifecycleCore :=
  (Publishing s, mkCore (lc_stop c) s (lc_readiness c) (lc_requested c) (lc_generation c)).

Definition Lifecycle_Begin (c : LifecycleCore) (seed : RuntimeSnapshot) (now : Z)
    : LockedResult * LifecycleCore :=
  let generation := lc_generation c +[64] 1 in
  let stop := (Stop_BeginGeneration (lc_stop c) generation).2 in
  let snapshot :=
    set_connected_at 0 (set_phase PhStarting
      (set_monotonic (NextTimestamp (lc_current c) now) (set_generation generation seed))) in
  (Publishing snapshot, mkCore stop snapshot Readiness_new PhStarting generation).

Definition Lifecycle_Transition (c : LifecycleCore) (generation : Z) (phase : RuntimePhase) (now : Z)
    : LockedResult * LifecycleCore :=
  if rejects c generation then (Return false, c)
  else
    let cur := set_phase (GateConnectedPhase phase (lc_readiness c)) (lc_current c) in
    let cur := StampConnectedAt (set_monotonic (NextTimestamp cur now) cur) in
    (Publishing cur, mkCore (lc_stop c) cur (lc_readiness c) phase (lc_generation c)).

Definition Lifecycle_UpdateReadiness (c : LifecycleCore) (generation : Z) (readiness : RuntimeReadiness)
    (now : Z) : LockedResult * LifecycleCore :=
  if rejects c generation then (Return false, c)
  else
    let cur := lc_current c in
    let cur :=
      if bool_decide (lc_requested c = PhConnected) && bool_decide (rs_phase cur ≠ PhStopping) &&
         bool_decide (rs_phase cur ≠ PhIdle) && bool_decide (rs_phase cur ≠ PhFailed)
      then set_phase (GateConnectedPhase (lc_requested c) readiness) cur else cur in
    let cur := StampConnectedAt (set_monotonic (NextTimestamp cur now) cur) in
    (Publishing cur, mkCore (lc_stop c) cur readiness (lc_requested c) (lc_generation c)).

Definition Lifecycle_UpdateMuxState (c : LifecycleCore) (generation : Z) (state : MuxRuntimeState)
    (now : Z) : LockedResult * LifecycleCore :=
  if rejects c generation then (Return false, c)
  else if same_mux (lc_current c) state then (Return true, c)
  else set_current c (set_monotonic (NextTimestamp (lc_current c) now) (set_mux state (lc_current c))).

Definition Lifecycle_UpdateP2PState (c : LifecycleCore) (generation : Z) (state : P2PState) (now : Z)
    (gate_reason : string) : LockedResult * LifecycleCore :=
  if rejects c generation then (Return false, c)
  else if bool_decide (rs_p2p_state (lc_current c) = state) &&
          str_eq (rs_p2p_gate_reason (lc_current c)) gate_reason then (Return true, c)
  else set_current c
    (set_monotonic (NextTimestamp (lc_current c) now) (set_p2p state gate_reason (lc_current c))).

Definition Lifecycle_UpdateP2PPeers (c : LifecycleCore) (generation : Z)
    (peers : list RuntimePeerSnapshot) (now : Z) : LockedResult * LifecycleCore :=
  if rejects c generation then (Return false, c)
  else if bool_decide (rs_peers (lc_current c) = peers) then (Return true, c)
  else set_current c (set_monotonic (NextTimestamp (lc_current c) now) (set_peers peers (lc_current c))).

Definition Lifecycle_UpdateTraffic (c : LifecycleCore) (generation : Z) (traffic : RuntimeTraffic)
    (now : Z) : LockedResult * LifecycleCore :=
  if rejects c generation then (Return false, c)
  else if (rt_rx_bytes (rs_traffic (lc_current c)) =? rt_rx_bytes traffic) &&
          (rt_tx_bytes (rs_traffic (lc_current c)) =? rt_tx_bytes traffic) then (Return true, c)
  else set_current c (set_monotonic (NextTimestamp (lc_current c) now) (set_traffic traffic (lc_current c))).

Definition p2p_in_use (p : P2PState) : bool :=
  match p with P2PEligible | P2PProbing | P2PDirect | P2PSuspect => true | _ => false end.

Definition Lifecycle_TryBeginStop (c : LifecycleCore) (generation : Z) (now : Z)
    : LockedResult * LifecycleCore :=
  if (generation =? 0) || negb (generation =? lc_generation c) then (Return false, c)
  else
    let '(began, stop) := Stop_TryBeginStop (lc_stop c) generation in
    if negb began then
      (Return false, mkCore stop (lc_current c) (lc_readiness c) (lc_requested c) (lc_generation c))
    else
      let cur := set_phase PhStopping (lc_current c) in
      let cur := if p2p_in_use (rs_p2p_state cur) then set_p2p_state P2PFallingBack cur else cur in
      let cur := StampConnectedAt (set_monotonic (NextTimestamp cur now) cur) in
      (Publishing cur, mkCore stop cur (lc_readiness c) PhStopping (lc_generation c)).

Definition Lifecycle_CompleteStop (c : LifecycleCore) (generation : Z) (success : bool)
    (error : RuntimeError) (now : Z) : LockedResult * LifecycleCore :=
  if (generation =? 0) || negb (generation =? lc_generation c) ||
     negb (Stop_IsStopping (lc_stop c) generation) then (Return false, c)
  else
    let stop := Stop_CompleteStop (lc_stop c) generation success in
    let requested := if success then PhIdle else PhFailed in
    let cur := set_phase requested (lc_current c) in
    let cur := set_active_links 0 cur in
    let cur := set_p2p_state P2PDisabled cur in
    let cur := set_last_error (if success then Error_none else error) cur in
    let cur := StampConnectedAt (set_monotonic (NextTimestamp cur now) cur) in
    (Publishing cur, mkCore stop cur (lc_readiness c) requested (lc_generation c)).

(** The methods that change the lifecycle, as calls with their arguments. *)
Inductive LifecycleCall :=
  | LBegin (seed : RuntimeSnapshot) (now : Z)
  | LTransition (generation : Z) (phase : RuntimePhase) (now : Z)
  | LReadiness (generation : Z) (readiness : RuntimeReadiness) (now : Z)
  | LMux (generation : Z) (state : MuxRuntimeState) (now : Z)
  | LP2P (generation : Z) (state : P2PState) (now : Z) (gate_reason : string)
  | LPeers (generation : Z) (peers : list RuntimePeerSnapshot) (now : Z)
  | LTraffic (generation : Z) (traffic : RuntimeTraffic) (now : Z)
  | LTryBeginStop (generation : Z) (now : Z)
  | LCompleteStop (generation : Z) (success : bool) (error : RuntimeError) (now : Z).

Definition locked (c : LifecycleCore) (e : LifecycleCall) : LockedResult * LifecycleCore :=
  match e with
  | LBegin seed now => Lifecycle_Begin c seed now
  | LTransition g phase now => Lifecycle_Transition c g phase now
  | LReadiness g r now => Lifecycle_UpdateReadiness c g r now
  | LMux g m now => Lifecycle_UpdateMuxState c g m now
  | LP2P g p now reason => Lifecycle_UpdateP2PState c g p now reason
  | LPeers g ps now => Lifecycle_UpdateP2PPeers c g ps now
  | LTraffic g t now => Lifecycle_UpdateTraffic c g t now
  | LTryBeginStop g now => Lifecycle_TryBeginStop c g now
  | LCompleteStop g success error now => Lifecycle_CompleteStop c g success error now
  end.

Definition call_now (e : LifecycleCall) : Z :=
  match e with
  | LBegin _ now | LTransition _ _ now | LReadiness _ _ now | LMux _ _ now | LP2P _ _ now _
  | LPeers _ _ now | LTraffic _ _ now | LTryBeginStop _ now | LCompleteStop _ _ _ now => now
  end.

Definition is_begin (e : LifecycleCall) : bool :=
  match e with LBegin _ _ => true | _ => false end.

(** A whole method, run without interference; [Begin] returns the new generation. *)
Inductive CallResult :=
  | RBool (b : bool)
  | RGeneration (g : Z).

Definition call_result (e : LifecycleCall) (snapshot : RuntimeSnapshot) (published : bool) : CallResult :=
  if is_begin e then RGeneration (rs_generation snapshot) else RBool published.

Definition lifecycle_call (s : LifecycleCore * RuntimeSnapshotPublisher) (e : LifecycleCall)
    : CallResult * (LifecycleCore * RuntimeSnapshotPublisher) :=
  let '(r, c) := locked s.1 e in
  match r with
  | Return b => (RBool b, (c, s.2))
  | Publishing snapshot =>
      let '(published, _, p) := Publisher_Publish s.2 snapshot in
      (call_result e snapshot published, (c, p))
  end.

(** ** Interleavings

    [runtime_reach T n sys] says that [sys] is reached when [n] critical sections have run, in
    any order and with clock readings in [0 .. T], and the snapshots handed over so far have been
    published in any order; [sy_inflight] are those a thread still has to publish. *)

Record RuntimeSystem := mkSystem {
  sy_core : LifecycleCore;
  sy_inflight : list RuntimeSnapshot;
  sy_publisher : RuntimeSnapshotPublisher
}.

Definition System_new : RuntimeSystem := mkSystem Core_new [] Publisher_new.

Inductive runtime_reach (T : Z) : Z → RuntimeSystem → Prop :=
  | reach_init : runtime_reach T 0 System_new
  | reach_return n c c' l p e b :
      runtime_reach T n (mkSystem c l p) → 0 ≤ call_now e ≤ T →
      locked c e = (Return b, c') → runtime_reach T (n + 1) (mkSystem c' l p)
  | reach_update n c c' l p e s :
      runtime_reach T n (mkSystem c l p) → 0 ≤ call_now e ≤ T →
      locked c e = (Publishing s, c') → runtime_reach T (n + 1) (mkSystem c' (s :: l) p)
  | reach_publish n c l1 s l2 p :
      runtime_reach T n (mkSystem c (l1 ++ s :: l2) p) →
      runtime_reach T n (mkSystem c (l1 ++ l2) (Publisher_Publish p s).2)
  | reach_subscribe n c l p listener :
      runtime_reach T n (mkSystem c l p) →
      runtime_reach T n (mkSystem c l (Publisher_Subscribe p listener).2)
  | reach_unsubscribe n c l p token :
      runtime_reach T n (mkSystem c l p) →
      runtime_reach T n (mkSystem c l (Publisher_Unsubscribe p token)).

(** ** Teardown pipeline

    An action is a null function ([None]) or a computation on a world [W] that returns a boolean
    or throws. *)

Inductive RuntimeStopStep := StopNone | StopInput | StopDns | StopExchanger | StopRoute.

Inductive ActionOutcome := Returned (b : bool) | Threw.

Record RuntimeStopResult := mkStopResult {
  sr_success : bool;
  sr_first_failed_step : RuntimeStopStep
}.

Section pipeline.
Context {W : Type}.

Abbreviation StopAction := (option (W → ActionOutcome * W)).

Record RuntimeStopActions := mkStopActions {
  sa_stop_input : StopAction;
  sa_close_dns : StopAction;
  sa_dispose_exchanger : StopAction;
  sa_rollback_route : StopAction
}.

Definition Pipeline_Run (action : StopAction) (step : RuntimeStopStep) (s : RuntimeStopResult * W)
    : RuntimeStopResult * W :=
  let '(result, w) := s in
  let '(success, w) :=
    match action with
    | None => (true, w)
    | Some f => match f w with (Returned b, w) => (b, w) | (Threw, w) => (false, w) end
    end in
  (if negb success && sr_success result then mkStopResult false step else result, w).

Definition Pipeline_Execute (a : RuntimeStopActions) (w : W) : RuntimeStopResult * W :=
  Pipeline_Run (sa_rollback_route a) StopRoute
    (Pipeline_Run (sa_dispose_exchanger a) StopExchanger
      (Pipeline_Run (sa_close_dns a) StopDns
        (Pipeline_Run (sa_stop_input a) StopInput (mkStopResult true StopNone, w)))).

(** The effect and the success of one action. *)
Definition action_effect (action : StopAction) (w : W) : W :=
  match action with None => w | Some f => (f w).2 end.

Definition action_ok (action : StopAction) (w : W) : bool :=
  match action with None => true | Some f => match (f w).1 with Returned b => b | Threw => false end end.

Lemma Pipeline_Run_eq action step result w :
  Pipeline_Run action step (result, w) =
  (if sr_success result && negb (action_ok action w) then mkStopResult false step else result,
   action_effect action w).
Proof.
  unfold Pipeline_Run, action_ok, action_effect.
  destruct action as [f|]; [destruct (f w) as [[b|] w']; cbn|cbn]; rewrite ?andb_true_r, ?andb_false_r; try done.
  by rewrite andb_comm.
Qed.

(** Every action runs, in order, whatever the others return or throw, and the result names the
    first that failed. *)
Lemma pipeline_runs_all a w :
  let w1 := action_effect (sa_stop_input a) w in
  let w2 := action_effect (sa_close_dns a) w1 in
  let w3 := action_effect (sa_dispose_exchanger a) w2 in
  let oks := [action_ok (sa_stop_input a) w; action_ok (sa_close_dns a) w1;
              action_ok (sa_dispose_exchanger a) w2; action_ok (sa_rollback_route a) w3] in
  (Pipeline_Execute a w).2 = action_effect (sa_rollback_route a) w3 ∧
  sr_success (Pipeline_Execute a w).1 = forallb id oks ∧
  sr_first_failed_step (Pipeline_Execute a w).1 =
    match list_find (λ b, b = false) oks with
    | Some (0%nat, _) => StopInput
    | Some (1%nat, _) => StopDns
    | Some (2%nat, _) => StopExchanger
    | Some (3%nat, _) => StopRoute
    | _ => StopNone
    end.
Proof.
  intros w1 w2 w3 oks. unfold Pipeline_Execute. rewrite !Pipeline_Run_eq. cbn [fst snd sr_success].
  split; [done|]. subst oks.
  destruct (action_ok (sa_stop_input a) w), (action_ok (sa_close_dns a) w1) eqn:?,
    (action_ok (sa_dispose_exchanger a) w2) eqn:?, (action_ok (sa_rollback_route a) w3) eqn:?;
    subst w1 w2 w3; by rewrite ?Heqb, ?Heqb0, ?Heqb1.
Qed.
End pipeline.

Lemma phase_parse_print phase : ParseRuntimePhase (RuntimePhase_ToString phase) = phase.
Proof. by destruct phase. Qed.

(** ** Invariant of the critical sections *)

Definition stop_inv (c : LifecycleCore) : Prop :=
  let st := lc_stop c in
  (st_has_generation st = false → lc_generation c = 0 ∧ st_stopping st = false ∧ st_completed st = false) ∧
  (st_has_generation st = true → st_generation st = lc_generation c ∧ 0 < lc_generation c) ∧
  (st_stopping st = true → st_completed st = false ∧ lc_requested c = PhStopping ∧
     p2p_in_use (rs_p2p_state (lc_current c)) = false) ∧
  (st_completed st = true →
     lc_requested c = (if st_cleanup_success st then PhIdle else PhFailed) ∧
     rs_mux_active_links (lc_current c) = 0 ∧ rs_p2p_state (lc_current c) = P2PDisabled ∧
     (st_cleanup_success st = true → rs_last_error (lc_current c) = Error_none)).

Definition stamp_inv (s : RuntimeSnapshot) : Prop :=
  if decide (rs_phase s = PhConnected)
  then 0 < rs_connected_monotonic_ms s ≤ rs_monotonic_ms s
  else rs_connected_monotonic_ms s = 0.

Record core_inv (T n : Z) (c : LifecycleCore) : Prop := {
  ci_generation : 0 ≤ lc_generation c ≤ n;
  ci_ms : 0 ≤ rs_monotonic_ms (lc_current c) ≤ T + n;
  ci_current_generation : rs_generation (lc_current c) = lc_generation c;
  ci_phase : rs_phase (lc_current c) = GateConnectedPhase (lc_requested c) (lc_readiness c);
  ci_stop : stop_inv c;
  ci_stamp : stamp_inv (lc_current c)
}.

Lemma core_inv_new T : 0 ≤ T → core_inv T 0 Core_new.
Proof.
  intros. constructor; cbn; try done; try lia.
Qed.

Lemma core_inv_mono T n m c : n ≤ m → core_inv T n c → core_inv T m c.
Proof. intros ? []. constructor; try done; lia. Qed.

Lemma NextTimestamp_spec T n s now :
  0 ≤ rs_monotonic_ms s ≤ T + n → 0 ≤ now ≤ T → 0 ≤ n → T + n + 1 < 2 ^ 64 →
  rs_monotonic_ms s < NextTimestamp s now ≤ T + (n + 1).
Proof.
  intros. unfold NextTimestamp. rewrite wrap_small by (unfold is_uint; lia). lia.
Qed.

Lemma GateConnectedPhase_not phase r : phase ≠ PhConnected → GateConnectedPhase phase r = phase.
Proof. intros. unfold GateConnectedPhase. by rewrite bool_decide_eq_false_2. Qed.

(** Stamping keeps every other field and establishes the stamp's invariant. *)
Lemma StampConnectedAt_spec s :
  0 < rs_monotonic_ms s → 0 ≤ rs_connected_monotonic_ms s ≤ rs_monotonic_ms s →
  stamp_inv (StampConnectedAt s).
Proof.
  intros Hms Hc. unfold StampConnectedAt, stamp_inv.
  destruct (decide (rs_phase s = PhConnected)) as [Hp|Hp].
  - rewrite bool_decide_eq_false_2 by tauto. destruct (rs_connected_monotonic_ms s =? 0) eqn:E; rewrite decide_True by done; [cbn; lia|].
    apply Z.eqb_neq in E. lia.
  - rewrite bool_decide_eq_true_2 by done. by rewrite decide_False.
Qed.

Lemma StampConnectedAt_fields s :
  let s' := StampConnectedAt s in
  rs_phase s' = rs_phase s ∧ rs_generation s' = rs_generation s ∧
  rs_monotonic_ms s' = rs_monotonic_ms s ∧ rs_p2p_state s' = rs_p2p_state s ∧
  rs_mux_active_links s' = rs_mux_active_links s ∧ rs_last_error s' = rs_last_error s.
Proof. unfold StampConnectedAt. by repeat case_match. Qed.

Lemma stamp_inv_range s :
  0 ≤ rs_monotonic_ms s → stamp_inv s → 0 ≤ rs_connected_monotonic_ms s ≤ rs_monotonic_ms s.
Proof. unfold stamp_inv. case_decide; lia. Qed.

(** What a critical section that publishes does to the clock, the generation and the snapshot. *)
Lemma locked_return c e b c' : locked c e = (Return b, c') → c' = c.
Proof.
  destruct e; cbn [locked]; unfold Lifecycle_Begin, Lifecycle_Transition, Lifecycle_UpdateReadiness,
    Lifecycle_UpdateMuxState, Lifecycle_UpdateP2PState, Lifecycle_UpdateP2PPeers,
    Lifecycle_UpdateTraffic, Lifecycle_TryBeginStop, Lifecycle_CompleteStop, set_current,
    Stop_TryBeginStop; intros; repeat case_match; simplify_eq/=; try done; by destruct c.
Qed.

Lemma rejects_false c g :
  rejects c g = false → g = lc_generation c ∧ 0 ≠ g ∧
  Stop_IsStopping (lc_stop c) g = false ∧ Stop_IsCompleted (lc_stop c) g = false.
Proof.
  unfold rejects. intros H. apply orb_false_iff in H as [H H3].
  apply orb_false_iff in H as [H H2]. apply orb_false_iff in H as [H0 H1].
  apply Z.eqb_neq in H0. apply negb_false_iff, Z.eqb_eq in H1. split_and!; congruence.
Qed.

(** The updates are accepted only while the stop flags are down. *)
Lemma rejects_false_flags T n c g :
  core_inv T n c → rejects c g = false →
  st_stopping (lc_stop c) = false ∧ st_completed (lc_stop c) = false.
Proof.
  intros [_ _ _ _ (Hn & Hh & _ & _) _] (-> & H0 & H1 & H2)%rejects_false.
  destruct (st_has_generation (lc_stop c)) eqn:E; [|naive_solver].
  destruct Hh as [Hg _]; [done|].
  unfold Stop_IsStopping, Stop_IsCompleted in *. rewrite E, Hg, Z.eqb_refl in *. done.
Qed.

(** Clock side conditions of one more call. *)
Definition clock_ok (T n now : Z) : Prop := 0 ≤ now ≤ T ∧ 0 ≤ n ∧ T + n + 1 < 2 ^ 64.

(** The stop record after an accepted update: flags down, generation kept. *)
Lemma stop_inv_flags_down c s r q :
  stop_inv c → st_stopping (lc_stop c) = false → st_completed (lc_stop c) = false →
  stop_inv (mkCore (lc_stop c) s r q (lc_generation c)).
Proof. intros (H1 & H2 & _ & _) E1 E2. split; [exact H1|split; [exact H2|split; cbn; congruence]]. Qed.

(** An update that leaves phase, generation, connection stamp and stop flags alone. *)
Lemma core_inv_set T n c s now :
  core_inv T n c → clock_ok T n now →
  st_stopping (lc_stop c) = false → st_completed (lc_stop c) = false →
  rs_phase s = rs_phase (lc_current c) → rs_generation s = rs_generation (lc_current c) →
  rs_connected_monotonic_ms s = rs_connected_monotonic_ms (lc_current c) →
  rs_monotonic_ms s = NextTimestamp (lc_current c) now →
  core_inv T (n + 1) (set_current c s).2.
Proof.
  intros [Hg Hms Hcg Hp Hs Hst] (Hnow & Hn & Hb) Hf1 Hf2 Ep Eg Ec Em.
  pose proof (NextTimestamp_spec T n (lc_current c) now Hms Hnow Hn Hb) as Hts.
  constructor; cbn.
  - lia.
  - lia.
  - congruence.
  - congruence.
  - by apply stop_inv_flags_down.
  - unfold stamp_inv in *. rewrite Ep, Ec, Em. case_decide; lia.
Qed.

(** An update that ends by stamping the connection time. *)
Lemma core_inv_stamped T n c now st s0 r q :
  core_inv T n c → clock_ok T n now →
  rs_monotonic_ms s0 = rs_monotonic_ms (lc_current c) →
  rs_connected_monotonic_ms s0 = rs_connected_monotonic_ms (lc_current c) →
  rs_generation s0 = lc_generation c → rs_phase s0 = GateConnectedPhase q r →
  let s := StampConnectedAt (set_monotonic (NextTimestamp s0 now) s0) in
  stop_inv (mkCore st s r q (lc_generation c)) →
  core_inv T (n + 1) (mkCore st s r q (lc_generation c)).
Proof.
  intros [Hg Hms Hcg Hp Hs Hst] (Hnow & Hn & Hb) Em Ec Eg Ep s Hstop.
  assert (rs_monotonic_ms s0 < NextTimestamp s0 now ≤ T + (n + 1)) as Hts.
  { apply NextTimestamp_spec; lia. }
  pose proof (stamp_inv_range _ (proj1 Hms) Hst) as Hr.
  destruct (StampConnectedAt_fields (set_monotonic (NextTimestamp s0 now) s0))
    as (F1 & F2 & F3 & _). cbn in F1, F2, F3.
  constructor; cbn [lc_generation lc_current lc_requested lc_readiness]; try done.
  - lia.
  - subst s. rewrite F3. lia.
  - subst s. by rewrite F2.
  - subst s. by rewrite F1.
  - apply StampConnectedAt_spec; cbn; lia.
Qed.

Lemma begin_inv T n c seed now :
  core_inv T n c → clock_ok T n now → n ≤ T + n → core_inv T (n + 1) (Lifecycle_Begin c seed now).2.
Proof.
  intros [Hg Hms Hcg Hp (H1 & H2 & _ & _) Hst] (Hnow & Hn & Hb) HT.
  pose proof (NextTimestamp_spec T n (lc_current c) now Hms Hnow Hn Hb) as Hts.
  assert (lc_generation c +[64] 1 = lc_generation c + 1) as Eg
    by (apply wrap_small; unfold is_uint; lia).
  unfold Lifecycle_Begin. rewrite Eg. unfold Stop_BeginGeneration.
  replace (_ || _) with false; cycle 1.
  { symmetry. apply orb_false_iff. split; [apply Z.eqb_neq; lia|].
    destruct (st_has_generation (lc_stop c)); [|done]. destruct H2; [done|]. apply Z.leb_gt. lia. }
  constructor; cbn; try done; try lia.
  repeat split; cbn; try done; lia.
Qed.

Lemma stop_begin_inv T n c g now :
  core_inv T n c → clock_ok T n now → core_inv T (n + 1) (Lifecycle_TryBeginStop c g now).2.
Proof.
  intros Hc Hk. pose proof Hc as [Hg Hms Hcg Hp (H1 & H2 & _ & _) Hst].
  assert (core_inv T (n + 1) c) as Hc1 by (apply (core_inv_mono T n); [lia|done]).
  unfold Lifecycle_TryBeginStop. case_if as E; [done|]. unfold Stop_TryBeginStop. case_if as E1; cbn [negb snd].
  { by destruct c. }
  apply orb_false_iff in E1 as [E1 Ec]. apply orb_false_iff in E1 as [E1 Es].
  apply orb_false_iff in E1 as [Eh _]. apply negb_false_iff in Eh.
  apply core_inv_stamped; try done; try (by case_match).
  set (s := StampConnectedAt _).
  assert (p2p_in_use (rs_p2p_state s) = false) as Hu.
  { subst s. destruct (StampConnectedAt_fields (set_monotonic (NextTimestamp
      (if p2p_in_use (rs_p2p_state (set_phase PhStopping (lc_current c)))
       then set_p2p_state P2PFallingBack (set_phase PhStopping (lc_current c))
       else set_phase PhStopping (lc_current c)) now)
      (if p2p_in_use (rs_p2p_state (set_phase PhStopping (lc_current c)))
       then set_p2p_state P2PFallingBack (set_phase PhStopping (lc_current c))
       else set_phase PhStopping (lc_current c)))) as (_ & _ & _ & -> & _).
    by case_if as E2. }
  clearbody s. split; [cbn; congruence|split; [intros _; exact (H2 Eh)|split; [done|cbn; congruence]]].
Qed.

Lemma stop_complete_inv T n c g success error now :
  core_inv T n c → clock_ok T n now →
  core_inv T (n + 1) (Lifecycle_CompleteStop c g success error now).2.
Proof.
  intros Hc Hk. pose proof Hc as [Hg Hms Hcg Hp (H1 & H2 & _ & _) Hst].
  assert (core_inv T (n + 1) c) as Hc1 by (apply (core_inv_mono T n); [lia|done]).
  unfold Lifecycle_CompleteStop. case_if as E; [done|].
  apply orb_false_iff in E as [_ E]. apply negb_false_iff in E. unfold Stop_IsStopping in E.
  apply andb_true_iff in E as [E Es]. apply andb_true_iff in E as [Eh Eg].
  unfold Stop_CompleteStop. rewrite Eh, Eg, Es. cbn [negb orb snd].
  apply core_inv_stamped; try done; cbn; [by destruct success|].
  set (s0 := set_last_error _ _).
  destruct (StampConnectedAt_fields (set_monotonic (NextTimestamp s0 now) s0)) as (_ & _ & _ & F4 & F5 & F6).
  set (s := StampConnectedAt _) in *. cbn in F4, F5, F6. clearbody s.
  split; [cbn; congruence|split; [intros _; exact (H2 Eh)|split; [done|]]].
  intros _. cbn. split_and!; try done. intros ->. done.
Qed.

Ltac locked_cases :=
  cbn [locked]; unfold Lifecycle_Transition, Lifecycle_UpdateReadiness, Lifecycle_UpdateMuxState,
    Lifecycle_UpdateP2PState, Lifecycle_UpdateP2PPeers, Lifecycle_UpdateTraffic.

Lemma readiness_phase c r :
  rs_phase (lc_current c) = GateConnectedPhase (lc_requested c) (lc_readiness c) →
  rs_phase (if bool_decide (lc_requested c = PhConnected) && bool_decide (rs_phase (lc_current c) ≠ PhStopping) &&
         bool_decide (rs_phase (lc_current c) ≠ PhIdle) && bool_decide (rs_phase (lc_current c) ≠ PhFailed)
      then set_phase (GateConnectedPhase (lc_requested c) r) (lc_current c) else lc_current c) =
  GateConnectedPhase (lc_requested c) r.
Proof.
  intros Hp. destruct (decide (lc_requested c = PhConnected)) as [E|E].
  - rewrite Hp, E. unfold GateConnectedPhase. by destruct (IsFullyReady (lc_readiness c)).
  - rewrite (bool_decide_eq_false_2 (lc_requested c = _)) by done. cbn [andb].
    by rewrite Hp, !GateConnectedPhase_not.
Qed.

Lemma locked_inv T n c e :
  core_inv T n c → clock_ok T n (call_now e) → core_inv T (n + 1) (locked c e).2.
Proof.
  intros Hc Hk. pose proof Hc as [Hg Hms Hcg Hp Hs Hst].
  assert (core_inv T (n + 1) c) as Hc1 by (apply (core_inv_mono T n); [lia|done]).
  destruct e as [seed now|g ph now|g r now|g m now|g p now reason|g ps now|g t now|g now|g ok err now];
    cbn [call_now] in Hk.
  - apply begin_inv; [done..|]. destruct Hk. lia.
  - locked_cases. case_if as E; [done|]. destruct (rejects_false_flags _ _ _ _ Hc E) as [F1 F2].
    apply core_inv_stamped; try done. by apply (stop_inv_flags_down c).
  - locked_cases. case_if as E; [done|]. destruct (rejects_false_flags _ _ _ _ Hc E) as [F1 F2].
    apply core_inv_stamped; try done; try (by case_match).
    + by apply readiness_phase.
    + by apply (stop_inv_flags_down c).
  - locked_cases. case_if as E; [done|]. destruct (rejects_false_flags _ _ _ _ Hc E) as [F1 F2].
    case_if as E1; [done|]. by apply (core_inv_set T n c _ now).
  - locked_cases. case_if as E; [done|]. destruct (rejects_false_flags _ _ _ _ Hc E) as [F1 F2].
    case_if as E1; [done|]. by apply (core_inv_set T n c _ now).
  - locked_cases. case_if as E; [done|]. destruct (rejects_false_flags _ _ _ _ Hc E) as [F1 F2].
    case_if as E1; [done|]. by apply (core_inv_set T n c _ now).
  - locked_cases. case_if as E; [done|]. destruct (rejects_false_flags _ _ _ _ Hc E) as [F1 F2].
    case_if as E1; [done|]. by apply (core_inv_set T n c _ now).
  - by apply stop_begin_inv.
  - by apply stop_complete_inv.
Qed.

(** A section that publishes hands over its new current snapshot, strictly later than the old
    one and of no earlier generation. *)
Lemma locked_publishing T n c e s c' :
  core_inv T n c → clock_ok T n (call_now e) → locked c e = (Publishing s, c') →
  lc_current c' = s ∧ rs_monotonic_ms (lc_current c) < rs_monotonic_ms s ∧
  rs_generation (lc_current c) ≤ rs_generation s.
Proof.
  intros Hc (Hnow & Hn & Hb) He. pose proof Hc as [Hg Hms Hcg _ _ _].
  assert (∀ s0, rs_monotonic_ms s0 = rs_monotonic_ms (lc_current c) →
    rs_monotonic_ms (lc_current c) < NextTimestamp s0 (call_now e)) as Hts.
  { intros s0 E0. pose proof (NextTimestamp_spec T n s0 (call_now e)). lia. }
  assert (∀ s0, rs_generation s0 = lc_generation c → rs_monotonic_ms s0 = rs_monotonic_ms (lc_current c) →
    let s := StampConnectedAt (set_monotonic (NextTimestamp s0 (call_now e)) s0) in
    rs_monotonic_ms (lc_current c) < rs_monotonic_ms s ∧ rs_generation (lc_current c) ≤ rs_generation s) as Hst.
  { intros s0 E0 E1 s1. subst s1. destruct (StampConnectedAt_fields (set_monotonic (NextTimestamp s0 (call_now e)) s0))
      as (_ & -> & -> & _). cbn. split; [by apply Hts|lia]. }
  destruct e as [seed now|g ph now|g r now|g m now|g p now reason|g ps now|g t now|g now|g ok err now];
    cbn [call_now] in *; revert He; locked_cases;
    unfold Lifecycle_Begin, Lifecycle_TryBeginStop, Lifecycle_CompleteStop, set_current.
  - intros [= <- <-]. split; [done|]. cbn. split; [by apply Hts|].
    rewrite wrap_small by (unfold is_uint; lia). lia.
  - case_if as E; intros [= <- <-]. split; [done|]. by apply Hst.
  - case_if as E; intros [= <- <-]. split; [done|]. apply Hst; by case_match.
  - case_if as E; [done|]. case_if as E1; intros [= <- <-]. split; [done|]. cbn. split; [by apply Hts|lia].
  - case_if as E; [done|]. case_if as E1; intros [= <- <-]. split; [done|]. cbn. split; [by apply Hts|lia].
  - case_if as E; [done|]. case_if as E1; intros [= <- <-]. split; [done|]. cbn. split; [by apply Hts|lia].
  - case_if as E; [done|]. case_if as E1; intros [= <- <-]. split; [done|]. cbn. split; [by apply Hts|lia].
  - case_if as E; [done|]. destruct (Stop_TryBeginStop (lc_stop c) g) as [[] st]; cbn [negb]; intros [= <- <-].
    split; [done|]. apply Hst; by case_match.
  - case_if as E; intros [= <- <-]. split; [done|]. by apply Hst.
Qed.

Lemma exec_core_inv T es :
  0 ≤ T → Forall (λ e, 0 ≤ call_now e ≤ T) es → T + Z.of_nat (length es) < 2 ^ 64 →
  core_inv T (Z.of_nat (length es)) (exec locked Core_new es).
Proof.
  intros HT. induction es as [|e es IH] using rev_ind; intros Hes Hb.
  { by apply core_inv_new. }
  apply Forall_app in Hes as [Hes He]. rewrite Forall_singleton in He.
  rewrite length_app, Nat2Z.inj_add in *. cbn [length] in *. rewrite exec_snoc.
  apply locked_inv; [apply IH; [done|lia]|]. repeat split; lia.
Qed.

(** ** Stopping *)

Definition is_publishing (r : LockedResult) : bool :=
  match r with Publishing _ => true | Return _ => false end.

Lemma stop_flags_has_generation c :
  stop_inv c → st_stopping (lc_stop c) || st_completed (lc_stop c) = true →
  st_has_generation (lc_stop c) = true ∧ st_generation (lc_stop c) = lc_generation c.
Proof.
  intros (H1 & H2 & _) Hf. destruct (st_has_generation (lc_stop c)); [by destruct H2|].
  destruct H1 as (_ & E1 & E2); [done|]. by rewrite E1, E2 in Hf.
Qed.

Lemma rejects_stopped c g :
  stop_inv c → st_stopping (lc_stop c) || st_completed (lc_stop c) = true → rejects c g = true.
Proof.
  intros Hs Hf. destruct (stop_flags_has_generation c Hs Hf) as [Eh Eg].
  unfold rejects, Stop_IsStopping, Stop_IsCompleted. rewrite Eh, Eg.
  destruct (g =? lc_generation c); [|by rewrite orb_true_r]. cbn [andb negb orb].
  rewrite orb_false_r, <- orb_assoc, Hf. apply orb_true_r.
Qed.

(** Once a stop has begun, within the generation only its completion changes anything. *)
Lemma locked_stopped c e :
  stop_inv c → st_stopping (lc_stop c) || st_completed (lc_stop c) = true → is_begin e = false →
  (is_publishing (locked c e).1 = false ∧ (locked c e).2 = c) ∨
  (st_stopping (lc_stop c) = true ∧ is_publishing (locked c e).1 = true ∧
   st_completed (lc_stop (locked c e).2) = true ∧ st_stopping (lc_stop (locked c e).2) = false ∧
   ∃ success error now, e = LCompleteStop (lc_generation c) success error now).
Proof.
  intros Hs Hf Hb. pose proof (λ g, rejects_stopped c g Hs Hf) as Hr.
  destruct e as [seed now|g ph now|g r now|g m now|g p now reason|g ps now|g t now|g now|g ok err now];
    try done; locked_cases; rewrite ?Hr; try (by left).
  - left. unfold Lifecycle_TryBeginStop, Stop_TryBeginStop. case_if as E; [done|].
    rewrite <- orb_assoc, Hf, orb_true_r. cbn. by destruct c.
  - unfold Lifecycle_CompleteStop, Stop_IsStopping, Stop_CompleteStop. case_if as E; [by left|]. right.
    apply orb_false_iff in E as [E E2]. apply orb_false_iff in E as [_ E1].
    apply negb_false_iff, andb_true_iff in E2 as [E2 Es]. apply andb_true_iff in E2 as [Eh Eg].
    rewrite Eh, Eg, Es. cbn. apply negb_false_iff, Z.eqb_eq in E1. subst g. split_and!; eauto.
Qed.

Definition count_publishing (rs : list LockedResult) : nat :=
  length (filter (λ r, is_publishing r = true) rs).

Lemma run_completed c es :
  stop_inv c → st_stopping (lc_stop c) = false → st_completed (lc_stop c) = true →
  Forall (λ e, is_begin e = false) es →
  exec locked c es = c ∧ count_publishing (run locked c es).1 = 0%nat.
Proof.
  intros Hs E1 E2. induction 1 as [|e es He _ IH]; [done|].
  destruct (locked_stopped c e Hs) as [[Hp Hc]|[Hst _]]; [by rewrite E1, E2|done| |congruence].
  rewrite exec_cons, run_results_cons, Hc. destruct IH as [-> IH].
  split; [done|]. unfold count_publishing. rewrite filter_cons, decide_False by congruence. done.
Qed.

(** ** Interleavings *)

(** What a snapshot that is or was in flight satisfies with respect to the current one. *)
Definition older (s cur : RuntimeSnapshot) : Prop :=
  rs_generation s ≤ rs_generation cur ∧ rs_monotonic_ms s ≤ rs_monotonic_ms cur ∧
  (rs_monotonic_ms s = rs_monotonic_ms cur → s = cur).

Record system_inv (T n : Z) (sys : RuntimeSystem) : Prop := {
  si_count : 0 ≤ n;
  si_core : core_inv T n (sy_core sys);
  si_inflight : Forall (λ s, 0 < rs_monotonic_ms s ∧ older s (lc_current (sy_core sys))) (sy_inflight sys);
  si_latest : older (pb_latest (sy_publisher sys)) (lc_current (sy_core sys));
  si_pending : pb_latest (sy_publisher sys) = lc_current (sy_core sys) ∨
    lc_current (sy_core sys) ∈ sy_inflight sys
}.

Lemma publish_latest p s :
  (Publisher_Publish p s).2 = p ∧ pb_has_latest p = true ∧ stale s (pb_latest p) = true ∨
  pb_latest (Publisher_Publish p s).2 = s ∧ (pb_has_latest p = false ∨ stale s (pb_latest p) = false).
Proof.
  unfold Publisher_Publish. destruct (pb_has_latest p), (stale s (pb_latest p)); cbn; tauto.
Qed.

Lemma stale_older s latest cur :
  older s cur → older latest cur → stale s latest = true → s = cur → latest = cur.
Proof.
  intros (H1 & H2 & H3) (H4 & H5 & H6) Hst ->. unfold stale in Hst. bool_props.
  - lia.
  - apply H6. lia.
Qed.

(** Before the first publication nothing has been handed over. *)
Lemma reach_no_latest T n sys :
  runtime_reach T n sys → pb_has_latest (sy_publisher sys) = true ∨
  pb_latest (sy_publisher sys) = Snapshot_new.
Proof.
  induction 1 as [| | | n c l1 s l2 p _ IH | n c l p [f|] _ IH | n c l p tk _ IH]; cbn in *; try tauto.
  - unfold Publisher_Publish. case_match; cbn; [done|by left].
  - by destruct (pb_next_token p =? 0).
  - unfold Publisher_Unsubscribe. by case_match.
Qed.

Lemma older_advance s cur cur' :
  rs_monotonic_ms cur < rs_monotonic_ms cur' → rs_generation cur ≤ rs_generation cur' →
  older s cur → older s cur'.
Proof. intros ? ? (?&?&?). repeat split; lia || (intros; lia). Qed.

Lemma older_refl s : older s s.
Proof. repeat split; lia || done. Qed.

Lemma system_inv_update T n c c' l p e s :
  system_inv T n (mkSystem c l p) → clock_ok T n (call_now e) →
  locked c e = (Publishing s, c') → system_inv T (n + 1) (mkSystem c' (s :: l) p).
Proof.
  intros [Hn Hc Hl Hp Hd] Hk He. cbn in *.
  destruct (locked_publishing T n c e s c' Hc Hk He) as (<- & Hms & Hg).
  pose proof (ci_ms _ _ _ Hc).
  assert (core_inv T (n + 1) c') as Hc'.
  { pose proof (locked_inv T n c e Hc Hk) as Hi. by rewrite He in Hi. }
  constructor; cbn; [lia|done| | |right; apply elem_of_cons; by left].
  - constructor; [split; [lia|apply older_refl]|].
    eapply Forall_impl; [exact Hl|]. intros s [? Ho]. split; [done|]. by apply (older_advance _ (lc_current c)).
  - by apply (older_advance _ (lc_current c)).
Qed.

Lemma system_inv_publish T n c l1 s l2 p :
  (pb_has_latest p = true ∨ pb_latest p = Snapshot_new) →
  system_inv T n (mkSystem c (l1 ++ s :: l2) p) →
  system_inv T n (mkSystem c (l1 ++ l2) (Publisher_Publish p s).2).
Proof.
  intros Hlat [Hn Hc Hl Hp Hd]. cbn in *.
  apply Forall_app in Hl as [Hl1 [[Hs0 Hs] Hl2]%Forall_cons].
  assert (lc_current c ∈ l1 ++ s :: l2 → s ≠ lc_current c → lc_current c ∈ l1 ++ l2) as Hrest.
  { rewrite !elem_of_app, elem_of_cons. intuition congruence. }
  destruct (publish_latest p s) as [(-> & _ & Hst)|[Hpub Hst]].
  - constructor; cbn; [done|done|by apply Forall_app|done|].
    destruct (decide (rs_monotonic_ms s = rs_monotonic_ms (lc_current c))) as [E|E].
    + left. apply (stale_older s); try done. by apply Hs.
    + destruct Hd as [Hd|Hd]; [by left|right]. apply Hrest; [done|congruence].
  - constructor; cbn; rewrite ?Hpub; [done|done|by apply Forall_app|done|].
    destruct (decide (rs_monotonic_ms s = rs_monotonic_ms (lc_current c))) as [E|E]; [left; by apply Hs|].
    right. destruct Hd as [Hd|Hd]; [|apply Hrest; [done|congruence]].
    exfalso. destruct Hs as (Hsg & Hsm & _). rewrite Hd in *.
    destruct Hst as [Hst|Hst].
    + destruct Hlat as [Hlat|Hlat]; [congruence|]. rewrite Hlat in *. cbn in *. lia.
    + unfold stale in Hst. apply orb_false_iff in Hst as [H1 H2]. apply Z.ltb_ge in H1.
      apply andb_false_iff in H2 as [H2|H2]; [apply Z.eqb_neq in H2|apply Z.leb_gt in H2]; lia.
Qed.

Lemma reach_inv T n sys :
  0 ≤ T → runtime_reach T n sys → T + n < 2 ^ 64 → system_inv T n sys.
Proof.
  intros HT. induction 1 as [|n c c' l p e b Hr IH Hnow He|n c c' l p e s Hr IH Hnow He
    |n c l1 s l2 p Hr IH|n c l p listener Hr IH|n c l p token Hr IH]; intros Hb.
  - constructor; cbn; [lia|by apply core_inv_new|constructor|apply older_refl|by left].
  - destruct IH as [Hn Hc Hl Hp Hd]; [lia|]. cbn in *. apply locked_return in He as ->.
    constructor; cbn; try done; [lia|]. apply (core_inv_mono T n); [lia|done].
  - specialize (IH ltac:(lia)). apply (system_inv_update T n c c' l p e); try done.
    repeat split; try lia. by destruct IH.
  - apply system_inv_publish; [by apply (reach_no_latest T n _ Hr)|by apply IH].
  - destruct (IH Hb) as [Hn Hc Hl Hp Hd]. cbn in *.
    destruct listener as [f|]; cbn; [|by constructor].
    destruct (pb_next_token p =? 0); by constructor.
  - destruct (IH Hb) as [Hn Hc Hl Hp Hd]. cbn in *. unfold Publisher_Unsubscribe.
    case_match; by constructor.
Qed.

(** ** Properties *)

(** After any sequence of lifecycle calls with clock readings in [0 .. T] (and no 64-bit
    overflow of the counters), the reported phase is the requested phase passed through the
    readiness gate: the runtime reports Connected exactly when Connected was requested and
    session, adapter, route, DNS and policy are all ready, never during or after a stop of the
    generation; the connection time stamp is non-zero exactly while Connected; and a completed
    stop reports Idle or Failed according to the cleanup, with no mux link and no P2P path. *)
Theorem runtime_phase_gated T es :
  0 ≤ T → Forall (λ e, 0 ≤ call_now e ≤ T) es → T + Z.of_nat (length es) < 2 ^ 64 →
  let c := exec locked Core_new es in
  let s := lc_current c in
  rs_phase s = GateConnectedPhase (lc_requested c) (lc_readiness c) ∧
  (rs_phase s = PhConnected ↔ lc_requested c = PhConnected ∧ IsFullyReady (lc_readiness c) = true) ∧
  (rs_phase s = PhConnected ↔ rs_connected_monotonic_ms s ≠ 0) ∧
  (Stop_IsStopping (lc_stop c) (lc_generation c) = true →
     rs_phase s = PhStopping ∧ p2p_in_use (rs_p2p_state s) = false) ∧
  (Stop_IsCompleted (lc_stop c) (lc_generation c) = true →
     rs_phase s = (if Stop_WasCleanupSuccessful (lc_stop c) (lc_generation c) then PhIdle else PhFailed) ∧
     rs_mux_active_links s = 0 ∧ rs_p2p_state s = P2PDisabled).
Proof.
  intros HT Hes Hb c s. destruct (exec_core_inv T es HT Hes Hb) as [_ _ _ Hp (_ & _ & H3 & H4) Hst].
  fold c in Hp, H3, H4, Hst. fold s in Hp, H3, H4, Hst. split; [done|]. split_and!.
  - rewrite Hp. unfold GateConnectedPhase. destruct (IsFullyReady _), (lc_requested c); cbn; intuition done.
  - unfold stamp_inv in Hst. case_decide; [|tauto]. split; [lia|done].
  - unfold Stop_IsStopping. intros (_ & E)%andb_true_iff. destruct (H3 E) as (_ & Hq & Hu).
    split; [|done]. by rewrite Hp, Hq.
  - unfold Stop_IsCompleted, Stop_WasCleanupSuccessful. intros Hx. rewrite Hx.
    apply andb_true_iff in Hx as [_ E]. destruct (H4 E) as (Hq & ? & ? & _). cbn [andb].
    split; [|done]. rewrite Hp, Hq. by destruct (st_cleanup_success (lc_stop c)).
Qed.

Definition runtime_demo : list LifecycleCall :=
  [LBegin Snapshot_new 10; LTransition 1 PhConnected 12; LReadiness 1 (BuildServerRuntimeReadiness true) 20;
   LP2P 1 P2PDirect 20 EmptyString].

Lemma runtime_phase_gated_witness :
  let c := exec locked Core_new runtime_demo in
  rs_phase (lc_current c) = PhConnected ∧ rs_connected_monotonic_ms (lc_current c) ≠ 0.
Proof.
  assert (Forall (λ e, 0 ≤ call_now e ≤ 100) runtime_demo) as Hn by decide_true.
  destruct (runtime_phase_gated 100 runtime_demo ltac:(lia) Hn ltac:(vm_compute; reflexivity))
    as (_ & H2 & H3 & _).
  split; [by apply H2|]. by apply H3, H2.
Defined.

(** Once the stop of a generation has begun, every further call of that generation leaves
    the lifecycle exactly as it is, except one: the first CompleteStop, which is the only call
    to publish another snapshot.  In particular the stop is neither begun nor completed twice,
    and no late update of phase, readiness, mux, P2P or traffic is applied. *)
Theorem runtime_stop_final T es0 es :
  0 ≤ T → Forall (λ e, 0 ≤ call_now e ≤ T) es0 → T + Z.of_nat (length es0) + 1 < 2 ^ 64 →
  let c := exec locked Core_new es0 in
  Stop_IsStopping (lc_stop c) (lc_generation c) = true →
  Forall (λ e, is_begin e = false ∧ 0 ≤ call_now e ≤ T) es →
  (exec locked c es = c ∧ count_publishing (run locked c es).1 = 0%nat) ∨
  ∃ success error now,
    LCompleteStop (lc_generation c) success error now ∈ es ∧
    exec locked c es = (Lifecycle_CompleteStop c (lc_generation c) success error now).2 ∧
    count_publishing (run locked c es).1 = 1%nat.
Proof.
  intros HT Hes0 Hb1 c Hst Hes. pose proof (exec_core_inv T es0 HT Hes0 ltac:(lia)) as Hc. fold c in Hc.
  apply andb_true_iff in Hst as [_ Hst]. pose proof (ci_stop _ _ _ Hc) as Hs. clearbody c. revert c Hc Hst Hs.
  induction Hes as [|e es [He Hnow] Hes IH]; intros c Hc Hst Hs; [by left|].
  destruct (locked_stopped c e Hs) as [[Hp Hcc]|(_ & Hp & Hk1 & Hk2 & success & error & now & ->)];
    [by rewrite Hst|done| |].
  - rewrite exec_cons, run_results_cons, Hcc. unfold count_publishing.
    rewrite filter_cons, decide_False by congruence. fold (count_publishing (run locked c es).1).
    destruct (IH c Hc Hst Hs) as [IH1|(su & er & nw & Hin & Hx)]; [by left|right].
    exists su, er, nw. split; [|done]. apply elem_of_cons. by right.
  - right. exists success, error, now. split; [apply elem_of_cons; by left|].
    pose proof (locked_inv T _ c (LCompleteStop (lc_generation c) success error now) Hc) as Hc'.
    destruct (run_completed (locked c (LCompleteStop (lc_generation c) success error now)).2 es) as [Hx1 Hx2]; try done.
    { apply (ci_stop _ _ _ (Hc' ltac:(repeat split; cbn in *; lia))). }
    { eapply Forall_impl; [exact Hes|]. by intros ? []. }
    rewrite exec_cons, run_results_cons. split; [exact Hx1|].
    unfold count_publishing. rewrite filter_cons, decide_True by done.
    cbn [length]. f_equal. exact Hx2.
Qed.

Lemma runtime_stop_final_witness :
  let c := exec locked Core_new (runtime_demo ++ [LTryBeginStop 1 30]) in
  let es := [LTransition 1 PhConnected 40; LCompleteStop 1 true Error_none 50;
             LCompleteStop 1 false Error_none 60; LTryBeginStop 1 70] in
  (exec locked c es = c ∧ count_publishing (run locked c es).1 = 0%nat) ∨
  ∃ success error now,
    LCompleteStop (lc_generation c) success error now ∈ es ∧
    exec locked c es = (Lifecycle_CompleteStop c (lc_generation c) success error now).2 ∧
    count_publishing (run locked c es).1 = 1%nat.
Proof.
  apply (runtime_stop_final 100); first [decide_true | lia | vm_compute; reflexivity].
Defined.

(** C34: Whatever the interleaving of the threads' critical sections and publications, the latest
    published snapshot is never ahead of the lifecycle's current one, and as soon as no snapshot
    is in flight the publisher's latest snapshot IS the current one: a publication that is
    overtaken by a newer one is discarded, never the newer one. *)
Theorem runtime_latest_converges T n sys :
  0 ≤ T → runtime_reach T n sys → T + n < 2 ^ 64 →
  let latest := Publisher_GetLatest (sy_publisher sys) in
  let current := lc_current (sy_core sys) in
  rs_generation latest ≤ rs_generation current ∧ rs_monotonic_ms latest ≤ rs_monotonic_ms current ∧
  (sy_inflight sys = [] → latest = current).
Proof.
  intros HT Hr Hb. destruct (reach_inv T n sys HT Hr Hb) as [_ _ _ (Hg & Hm & _) Hd].
  split_and!; [done|done|]. intros E. destruct Hd as [Hd|Hd]; [done|]. rewrite E in Hd. by apply elem_of_nil in Hd.
Qed.

(** The publications of two calls, delivered in the opposite order. *)
Definition overtaken_core1 : LifecycleCore := Eval vm_compute in (Lifecycle_Begin Core_new Snapshot_new 10).2.
Definition overtaken_core2 : LifecycleCore :=
  Eval vm_compute in (Lifecycle_Transition overtaken_core1 1 PhConnecting 10).2.

Lemma overtaken_reach :
  runtime_reach 100 2 (mkSystem overtaken_core2 [] (Publisher_Publish
    (Publisher_Publish Publisher_new (lc_current overtaken_core2)).2 (lc_current overtaken_core1)).2).
Proof.
  apply (reach_publish 100 2 _ [] (lc_current overtaken_core1) []).
  apply (reach_publish 100 2 _ [] (lc_current overtaken_core2) [lc_current overtaken_core1]).
  apply (reach_update 100 1 overtaken_core1 _ _ _ (LTransition 1 PhConnecting 10));
    [|cbn; lia|vm_compute; reflexivity].
  apply (reach_update 100 0 Core_new _ _ _ (LBegin Snapshot_new 10)); [|cbn; lia|vm_compute; reflexivity].
  constructor.
Qed.

Lemma runtime_latest_converges_witness :
  Publisher_GetLatest (Publisher_Publish
    (Publisher_Publish Publisher_new (lc_current overtaken_core2)).2 (lc_current overtaken_core1)).2 =
  lc_current overtaken_core2.
Proof.
  exact (proj2 (proj2 (runtime_latest_converges 100 2 _ ltac:(lia) overtaken_reach ltac:(lia))) eq_refl).
Defined.
