(* ===== verification/LeasePool.v ===== *)
(** Session-scoped IPv4 lease pool of the server ([src/ppp/app/server/IPv4LeasePool.h] and
    [IPv4LeasePool.cpp]).  Addresses are 32-bit words in host order; a session identifier is a
    128-bit word; the two hash maps are finite maps.  Every public method holds the pool's
    mutex throughout, so a call is one step.  Telemetry counters are left out. *)

From S2P Require Import Prelude.

(** ** Data *)

Record LeaseResult := mkLease {
  lr_ok : bool;
  lr_accepted : bool;
  lr_conflict : bool;
  lr_reason : string;
  lr_address : Z;
  lr_gateway : Z;
  lr_mask : Z;
  lr_requested_address : Z
}.

Record IPv4LeasePool := mkPool {
  lp_configured : bool;
  lp_network : Z;
  lp_mask : Z;
  lp_gateway : Z;
  lp_broadcast : Z;
  lp_ip_by_session : gmap Z Z;
  lp_session_by_ip : gmap Z Z
}.

Definition Pool_new : IPv4LeasePool := mkPool false 0 0 0 0 ∅ ∅.

Definition set_leases (p : IPv4LeasePool) (ips sessions : gmap Z Z) : IPv4LeasePool :=
  mkPool (lp_configured p) (lp_network p) (lp_mask p) (lp_gateway p) (lp_broadcast p) ips sessions.

(** ** Operations *)

Definition Pool_Configure (p : IPv4LeasePool) (network mask : Z) : bool * IPv4LeasePool :=
  let gw := network +[32] 1 in
  let bcast := Z.lor network (Z.lxor mask (2 ^ 32 - 1)) in
  if bcast <=? network then (false, mkPool false 0 0 0 0 ∅ ∅)
  else (true, mkPool true network mask gw bcast ∅ ∅).

Definition IsBroadcast (p : IPv4LeasePool) (ip : Z) : bool := ip =? lp_broadcast p.

Definition IsLeasedByOtherSession (p : IPv4LeasePool) (session_id ip : Z) : bool :=
  match lp_session_by_ip p !! ip with
  | None => false
  | Some s => negb (s =? session_id)
  end.

Definition TryLease (p : IPv4LeasePool) (session_id ip : Z) : bool * IPv4LeasePool :=
  match lp_session_by_ip p !! ip with
  | Some s => (s =? session_id, p)
  | None =>
      (true, set_leases p (<[session_id := ip]> (lp_ip_by_session p)) (<[ip := session_id]> (lp_session_by_ip p)))
  end.

Definition ReleaseInternal (p : IPv4LeasePool) (session_id : Z) : IPv4LeasePool :=
  match lp_ip_by_session p !! session_id with
  | None => p
  | Some ip => set_leases p (delete session_id (lp_ip_by_session p)) (delete ip (lp_session_by_ip p))
  end.

Definition MakeAutoSuccess (p : IPv4LeasePool) (ip : Z) : LeaseResult :=
  mkLease true true false EmptyString ip (lp_gateway p) (lp_mask p) 0.

Definition MakeManualSuccess (p : IPv4LeasePool) (ip : Z) : LeaseResult :=
  mkLease true true false EmptyString ip (lp_gateway p) (lp_mask p) ip.

Definition MakeFailure (p : IPv4LeasePool) (reason : string) : LeaseResult :=
  mkLease false false false reason 0 (lp_gateway p) (lp_mask p) 0.

(** The allocation loop from [ip] with [n] iterations left; the caller starts it at the gateway
    with [broadcast - gateway] iterations, the number the loop's bound allows. *)
Fixpoint scan_pool (p : IPv4LeasePool) (session_id : Z) (n : nat) (ip : Z) : LeaseResult * IPv4LeasePool :=
  match n with
  | O => (MakeFailure p "pool-exhausted", p)
  | S n =>
      if ip =? lp_gateway p then scan_pool p session_id n (ip + 1)
      else if ip =? lp_broadcast p then scan_pool p session_id n (ip + 1)
      else if IsLeasedByOtherSession p session_id ip then scan_pool p session_id n (ip + 1)
      else
        let '(leased, p') := TryLease p session_id ip in
        if leased then (MakeAutoSuccess p' ip, p') else scan_pool p' session_id n (ip + 1)
  end.

Definition AcquireAutoInternal (p : IPv4LeasePool) (session_id : Z) : LeaseResult * IPv4LeasePool :=
  scan_pool p session_id (Z.to_nat (lp_broadcast p - lp_gateway p)) (lp_gateway p).

Definition AcquireAuto (p : IPv4LeasePool) (session_id : Z) : LeaseResult * IPv4LeasePool :=
  if negb (lp_configured p) then (MakeFailure p "pool-exhausted", p)
  else
    let p := ReleaseInternal p session_id in
    scan_pool p session_id (Z.to_nat (lp_broadcast p - lp_gateway p)) (lp_gateway p).

(** The fallback of a manual request. *)
Definition reassign (reason : string) (requested : Z) (r : LeaseResult) : LeaseResult :=
  if lr_ok r
  then mkLease (lr_ok r) false true reason (lr_address r) (lr_gateway r) (lr_mask r) requested
  else mkLease (lr_ok r) (lr_accepted r) (lr_conflict r) "pool-exhausted" (lr_address r) (lr_gateway r)
         (lr_mask r) (lr_requested_address r).

Definition AcquireManual (p : IPv4LeasePool) (session_id requested : Z) : LeaseResult * IPv4LeasePool :=
  if negb (lp_configured p) then (MakeFailure p "pool-exhausted", p)
  else
    let p := ReleaseInternal p session_id in
    let ip := requested in
    if IsBroadcast p ip then
      let '(reassigned, p) := AcquireAutoInternal p session_id in
      (reassign "broadcast" requested reassigned, p)
    else if IsLeasedByOtherSession p session_id ip then
      let '(reassigned, p) := AcquireAutoInternal p session_id in
      (reassign "conflict" requested reassigned, p)
    else
      let '(leased, p) := TryLease p session_id ip in
      if leased then (MakeManualSuccess p ip, p)
      else
        let '(reassigned, p) := AcquireAutoInternal p session_id in
        (reassign "conflict" requested reassigned, p).

Definition Pool_Release (p : IPv4LeasePool) (session_id : Z) : IPv4LeasePool :=
  ReleaseInternal p session_id.

Inductive LeaseOp :=
  | LpConfigure (network mask : Z)
  | LpAuto (session_id : Z)
  | LpManual (session_id requested : Z)
  | LpRelease (session_id : Z).

Definition lease_step (p : IPv4LeasePool) (e : LeaseOp) : option LeaseResult * IPv4LeasePool :=
  match e with
  | LpConfigure network mask => (None, (Pool_Configure p network mask).2)
  | LpAuto s => let '(r, p) := AcquireAuto p s in (Some r, p)
  | LpManual s ip => let '(r, p) := AcquireManual p s ip in (Some r, p)
  | LpRelease s => (None, Pool_Release p s)
  end.

(** Arguments in the range of their C++ types. *)
Definition lease_op_ok (e : LeaseOp) : Prop :=
  match e with
  | LpConfigure network mask => is_uint 32 network ∧ is_uint 32 mask
  | LpAuto s | LpRelease s => is_uint 128 s
  | LpManual s ip => is_uint 128 s ∧ is_uint 32 ip
  end.

#[global] Instance lease_op_ok_dec e : Decision (lease_op_ok e).
Proof. destruct e; cbn; apply _. Defined.

(** ** Invariant *)

Record pool_inv (p : IPv4LeasePool) : Prop := {
  pi_inverse s ip : lp_ip_by_session p !! s = Some ip ↔ lp_session_by_ip p !! ip = Some s;
  pi_layout : lp_configured p = true →
    is_uint 32 (lp_network p) ∧ lp_gateway p = lp_network p + 1 ∧
    lp_gateway p ≤ lp_broadcast p ∧ is_uint 32 (lp_broadcast p);
  pi_no_broadcast : lp_session_by_ip p !! lp_broadcast p = None;
  pi_unconfigured : lp_configured p = false → lp_ip_by_session p = ∅
}.

(** An address the automatic allocator may give to [s]. *)
Definition allocatable (p : IPv4LeasePool) (s ip : Z) : Prop :=
  lp_gateway p < ip < lp_broadcast p ∧ ∀ s', lp_ip_by_session p !! s' = Some ip → s' = s.

Lemma release_inv p s : pool_inv p → pool_inv (ReleaseInternal p s).
Proof.
  intros [Hi Hl Hb Hu]. unfold ReleaseInternal.
  destruct (lp_ip_by_session p !! s) as [ip|] eqn:E; [|by constructor].
  constructor; cbn; try done.
  - intros s' ip'. pose proof (proj1 (Hi s ip) E) as E'.
    destruct (decide (s = s')) as [<-|Hs]; destruct (decide (ip = ip')) as [<-|Hip];
      rewrite ?lookup_delete_eq, ?lookup_delete_ne by done; try done.
    + split; [done|]. intros Hx%Hi. congruence.
    + split; [|done]. intros Hx%Hi. congruence.
  - rewrite lookup_delete_None. by right.
  - intros Hc. by rewrite (Hu Hc), delete_empty.
Qed.

Lemma release_ips p s :
  lp_ip_by_session (ReleaseInternal p s) = delete s (lp_ip_by_session p).
Proof.
  unfold ReleaseInternal. destruct (lp_ip_by_session p !! s) eqn:E; [done|].
  by rewrite delete_id.
Qed.

Lemma release_config p s :
  lp_configured (ReleaseInternal p s) = lp_configured p ∧ lp_gateway (ReleaseInternal p s) = lp_gateway p ∧
  lp_broadcast (ReleaseInternal p s) = lp_broadcast p ∧ lp_network (ReleaseInternal p s) = lp_network p ∧
  lp_mask (ReleaseInternal p s) = lp_mask p.
Proof. unfold ReleaseInternal. by case_match. Qed.

(** For a session without a lease, an address is leased by another session or free. *)
Lemma leased_by_other p s ip :
  pool_inv p → lp_ip_by_session p !! s = None →
  IsLeasedByOtherSession p s ip = true ∧ is_Some (lp_session_by_ip p !! ip) ∨
  IsLeasedByOtherSession p s ip = false ∧ lp_session_by_ip p !! ip = None.
Proof.
  intros Hp Hs. unfold IsLeasedByOtherSession. destruct (lp_session_by_ip p !! ip) as [s'|] eqn:E; [left|by right].
  split; [|done]. apply negb_true_iff, Z.eqb_neq. intros ->. apply (pi_inverse _ Hp) in E. congruence.
Qed.

Lemma lease_inv p s ip :
  pool_inv p → lp_configured p = true → lp_ip_by_session p !! s = None →
  lp_session_by_ip p !! ip = None → ip ≠ lp_broadcast p →
  pool_inv (set_leases p (<[s := ip]> (lp_ip_by_session p)) (<[ip := s]> (lp_session_by_ip p))).
Proof.
  intros [Hi Hl Hb Hu] Hc Hs Hip Hne. constructor; cbn; [|done| |congruence].
  - intros s' ip'. destruct (decide (s = s')) as [<-|Hs']; destruct (decide (ip = ip')) as [<-|Hip'];
      rewrite ?lookup_insert_eq, ?lookup_insert_ne by done; try naive_solver.
  - by rewrite lookup_insert_ne.
Qed.

(** The loop finds the first free address of its range, or there is none. *)
Definition leased_pool (p : IPv4LeasePool) (s ip : Z) : IPv4LeasePool :=
  set_leases p (<[s := ip]> (lp_ip_by_session p)) (<[ip := s]> (lp_session_by_ip p)).

Lemma scan_pool_spec p s n ip :
  pool_inv p → lp_ip_by_session p !! s = None → lp_gateway p ≤ ip → ip + Z.of_nat n = lp_broadcast p →
  (∃ a, ip ≤ a < lp_broadcast p ∧ a ≠ lp_gateway p ∧ lp_session_by_ip p !! a = None ∧
     (∀ b, ip ≤ b < a → b ≠ lp_gateway p → is_Some (lp_session_by_ip p !! b)) ∧
     scan_pool p s n ip = (MakeAutoSuccess p a, leased_pool p s a)) ∨
  (∀ b, ip ≤ b < lp_broadcast p → b ≠ lp_gateway p → is_Some (lp_session_by_ip p !! b)) ∧
    scan_pool p s n ip = (MakeFailure p "pool-exhausted", p).
Proof.
  intros Hp Hs. revert ip. induction n as [|n IH]; intros ip Hg Hn.
  { right. split; [lia|done]. }
  cbn [scan_pool]. specialize (IH (ip + 1) ltac:(lia) ltac:(lia)).
  assert (ip = lp_gateway p ∨ is_Some (lp_session_by_ip p !! ip) →
    (∃ a, ip ≤ a < lp_broadcast p ∧ a ≠ lp_gateway p ∧ lp_session_by_ip p !! a = None ∧
     (∀ b, ip ≤ b < a → b ≠ lp_gateway p → is_Some (lp_session_by_ip p !! b)) ∧
     scan_pool p s n (ip + 1) = (MakeAutoSuccess p a, leased_pool p s a)) ∨
    (∀ b, ip ≤ b < lp_broadcast p → b ≠ lp_gateway p → is_Some (lp_session_by_ip p !! b)) ∧
    scan_pool p s n (ip + 1) = (MakeFailure p "pool-exhausted", p)) as Hskip.
  { intros Hip. destruct IH as [(a & ? & ? & ? & Hmin & ?)|[Hall ?]]; [left; exists a|right].
    - split_and!; try done; try lia. intros b Hb Hbg. destruct (decide (b = ip)) as [->|]; [tauto|].
      apply Hmin; [lia|done].
    - split; [|done]. intros b Hb Hbg. destruct (decide (b = ip)) as [->|]; [tauto|]. apply Hall; [lia|done]. }
  case_if as E1; [apply Hskip; left; by apply Z.eqb_eq|]. apply Z.eqb_neq in E1.
  case_if as E2; [apply Z.eqb_eq in E2; lia|].
  destruct (leased_by_other p s ip Hp Hs) as [[E3 Hx]|[E3 Hx]]; rewrite E3; [apply Hskip; by right|].
  unfold TryLease. rewrite Hx. left. exists ip. split_and!; try done; lia.
Qed.

(** The scan as the callers start it, after the session's lease was released. *)
Lemma auto_internal_spec p s :
  pool_inv p → lp_configured p = true → lp_ip_by_session p !! s = None →
  (∃ a, allocatable p s a ∧ lp_session_by_ip p !! a = None ∧ (∀ b, allocatable p s b → a ≤ b) ∧
     AcquireAutoInternal p s = (MakeAutoSuccess p a, leased_pool p s a)) ∨
  (∀ b, ¬ allocatable p s b) ∧ AcquireAutoInternal p s = (MakeFailure p "pool-exhausted", p).
Proof.
  intros Hp Hc Hs. destruct (pi_layout _ Hp Hc) as (_ & _ & Hle & _).
  assert (∀ b, allocatable p s b → lp_session_by_ip p !! b = None) as Hfree.
  { intros b [_ Hb]. apply eq_None_not_Some. intros [s' Hs'].
    apply (pi_inverse _ Hp) in Hs'. pose proof (Hb s' Hs') as ->. congruence. }
  destruct (scan_pool_spec p s (Z.to_nat (lp_broadcast p - lp_gateway p)) (lp_gateway p))
    as [(a & Ha & Hag & Han & Hmin & Heq)|[Hall Heq]]; [done|done|lia|lia|left|right].
  - exists a. split; [split; [lia|by intros s' Hs'%(pi_inverse _ Hp); congruence]|].
    split_and!; try done.
    intros b Hb. destruct (Z.le_gt_cases a b); [done|]. exfalso.
    destruct (Hmin b) as [x Hx]; [destruct Hb; lia|destruct Hb; lia|]. rewrite (Hfree b Hb) in Hx. done.
  - split; [|done]. intros b Hb. destruct (Hall b) as [x Hx]; [destruct Hb; lia|destruct Hb; lia|].
    rewrite (Hfree b Hb) in Hx. done.
Qed.

Lemma auto_internal_inv p s :
  pool_inv p → lp_configured p = true → lp_ip_by_session p !! s = None →
  pool_inv (AcquireAutoInternal p s).2.
Proof.
  intros Hp Hc Hs. destruct (auto_internal_spec p s Hp Hc Hs) as [(a & [Ha _] & Hn & _ & ->)|[_ ->]]; [|done].
  apply lease_inv; try done. lia.
Qed.

(** What is left of the pool when the session's old lease is gone. *)
Lemma released p s :
  pool_inv p → lp_configured p = true →
  pool_inv (ReleaseInternal p s) ∧ lp_configured (ReleaseInternal p s) = true ∧
  lp_ip_by_session (ReleaseInternal p s) !! s = None.
Proof.
  intros Hp Hc. split; [by apply release_inv|]. rewrite release_ips, lookup_delete_eq.
  destruct (release_config p s) as (-> & _). done.
Qed.

Lemma allocatable_release p s ip : allocatable (ReleaseInternal p s) s ip ↔ allocatable p s ip.
Proof.
  unfold allocatable. destruct (release_config p s) as (_ & -> & -> & _). rewrite release_ips.
  split; intros [? H]; (split; [done|]); intros s'; destruct (decide (s' = s)) as [->|]; try done.
  - intros Hs'. apply H. by rewrite lookup_delete_ne.
  - intros Hs'. apply H. by rewrite lookup_delete_ne in Hs'.
Qed.

(** A manual request, case by case. *)
Lemma manual_spec p s requested :
  pool_inv p → lp_configured p = true →
  let q := ReleaseInternal p s in
  let auto := AcquireAutoInternal q s in
  let refused := (requested =? lp_broadcast q) || IsLeasedByOtherSession q s requested in
  (refused = false ∧ lp_session_by_ip q !! requested = None ∧ requested ≠ lp_broadcast q ∧
   AcquireManual p s requested = (MakeManualSuccess q requested, leased_pool q s requested)) ∨
  (refused = true ∧
   AcquireManual p s requested =
     (reassign (if requested =? lp_broadcast q then "broadcast" else "conflict") requested auto.1, auto.2)).
Proof.
  intros Hp Hc q auto refused. destruct (released p s Hp Hc) as (Hq & Hqc & Hqs). fold q in Hq, Hqc, Hqs.
  subst refused. unfold AcquireManual. rewrite Hc. cbn [negb]. fold q. unfold IsBroadcast.
  destruct (requested =? lp_broadcast q) eqn:E1; [right|].
  { fold auto. by destruct auto. }
  destruct (leased_by_other q s requested Hq Hqs) as [[E2 _]|[E2 Hf]]; rewrite E2; [right|left].
  { fold auto. by destruct auto. }
  unfold TryLease. rewrite Hf. split_and!; try done. by apply Z.eqb_neq.
Qed.

#[global] Instance lease_step_inv : StepInvariant lease_step lease_op_ok pool_inv.
Proof.
  intros p e He Hp. destruct e as [net mask|s|s ip|s]; cbn in He |- *.
  - destruct He as [Hn Hm]. unfold Pool_Configure. case_if as E; cbn.
    { constructor; cbn; done. }
    apply Z.leb_gt in E. set (b := Z.lor net _) in *.
    assert (is_uint 32 b) as Hb.
    { subst b. unfold is_uint in *. split; [apply Z.lor_nonneg; split; [lia|apply Z.lxor_nonneg; lia]|].
      apply Z.log2_lt_pow2; [lia|]. rewrite Z.log2_lor by (try apply Z.lxor_nonneg; lia).
      assert (∀ x, 0 ≤ x < 2 ^ 32 → Z.log2 x < 32) as Hlog.
      { intros x Hx. destruct (decide (x = 0)) as [->|]; [done|]. apply Z.log2_lt_pow2; lia. }
      pose proof (Hlog net Hn). pose proof (Z.log2_lxor mask (2 ^ 32 - 1)) as Hx.
      pose proof (Hlog mask Hm). pose proof (Hlog (2 ^ 32 - 1)).
      specialize (Hx ltac:(lia) ltac:(lia)). lia. }
    constructor; cbn; try done. intros _. rewrite wrap_small by (unfold is_uint in *; lia). split_and!; try done; lia.
  - destruct (AcquireAuto p s) as [r p'] eqn:E. cbn. unfold AcquireAuto in E.
    destruct (lp_configured p) eqn:Hc; cbn in E; [|by simplify_eq].
    change (AcquireAutoInternal (ReleaseInternal p s) s = (r, p')) in E.
    destruct (released p s Hp Hc) as (? & ? & ?).
    pose proof (auto_internal_inv (ReleaseInternal p s) s) as H2. rewrite E in H2. by apply H2.
  - destruct He as [_ Hip]. destruct (AcquireManual p s ip) as [r p'] eqn:E. cbn.
    destruct (lp_configured p) eqn:Hc; [|unfold AcquireManual in E; rewrite Hc in E; cbn in E; by simplify_eq].
    destruct (released p s Hp Hc) as (? & ? & ?).
    destruct (manual_spec p s ip Hp Hc) as [(_ & Hf & Hb & Hx)|[_ Hx]]; rewrite E in Hx; simplify_eq.
    + by apply lease_inv.
    + by apply auto_internal_inv.
  - by apply release_inv.
Qed.

Lemma pool_inv_new : pool_inv Pool_new.
Proof. constructor; cbn; done. Qed.

(** After the session's own lease is gone, what is leased is leased to others. *)
Lemma other_session p s ip :
  pool_inv p → lp_configured p = true →
  IsLeasedByOtherSession (ReleaseInternal p s) s ip = true ↔
  ∃ s', s' ≠ s ∧ lp_ip_by_session p !! s' = Some ip.
Proof.
  intros Hp Hc. destruct (released p s Hp Hc) as (Hq & _ & Hqs).
  destruct (leased_by_other _ s ip Hq Hqs) as [[-> [s' Hs']]|[-> Hn]].
  - split; [|done]. intros _. apply (pi_inverse _ Hq) in Hs'. rewrite release_ips in Hs'.
    apply lookup_delete_Some in Hs' as [? ?]. by exists s'.
  - split; [done|]. intros (s' & Hne & Hs').
    assert (lp_session_by_ip (ReleaseInternal p s) !! ip = Some s') as Hx; [|congruence].
    apply (pi_inverse _ Hq). rewrite release_ips. by rewrite lookup_delete_ne.
Qed.

Lemma leased_pool_ips p s ip :
  lp_ip_by_session (leased_pool (ReleaseInternal p s) s ip) = <[s := ip]> (lp_ip_by_session p).
Proof. cbn. by rewrite release_ips, insert_delete_eq. Qed.

Lemma AcquireAuto_eq p s :
  lp_configured p = true → AcquireAuto p s = AcquireAutoInternal (ReleaseInternal p s) s.
Proof. intros Hc. unfold AcquireAuto. by rewrite Hc. Qed.

Lemma acquire_auto_exact p s :
  pool_inv p → lp_configured p = true →
  let r := (AcquireAuto p s).1 in
  let p' := (AcquireAuto p s).2 in
  (lr_ok r = true ↔ ∃ ip, allocatable p s ip) ∧
  (lr_ok r = true →
     allocatable p s (lr_address r) ∧ (∀ ip, allocatable p s ip → lr_address r ≤ ip) ∧
     lp_ip_by_session p' = <[s := lr_address r]> (lp_ip_by_session p)) ∧
  (lr_ok r = false → lr_reason r = "pool-exhausted" ∧ lp_ip_by_session p' = delete s (lp_ip_by_session p)).
Proof.
  intros Hp Hc. destruct (released p s Hp Hc) as (Hq & Hqc & Hqs). rewrite AcquireAuto_eq by done.
  destruct (auto_internal_spec _ s Hq Hqc Hqs) as [(a & Ha & _ & Hmin & ->)|[Hno ->]]; cbn [fst snd].
  - rewrite allocatable_release in Ha. split_and!; [|intros _|done].
    + split; [|done]. eauto.
    + split_and!; [done| |apply leased_pool_ips].
      intros ip Hip. apply Hmin. by rewrite allocatable_release.
  - split_and!; [|done|].
    + split; [done|]. intros [ip Hip]. exfalso. apply (Hno ip). by apply allocatable_release.
    + intros _. split; [done|]. apply release_ips.
Qed.

Lemma acquire_manual_exact p s requested :
  pool_inv p → lp_configured p = true →
  let r := (AcquireAuto p s).1 in
  let rm := (AcquireManual p s requested).1 in
  let pm := (AcquireManual p s requested).2 in
  let refused := requested = lp_broadcast p ∨ ∃ s', s' ≠ s ∧ lp_ip_by_session p !! s' = Some requested in
  (¬ refused → lr_ok rm = true ∧ lr_accepted rm = true ∧ lr_address rm = requested ∧
     lp_ip_by_session pm = <[s := requested]> (lp_ip_by_session p)) ∧
  (refused → pm = (AcquireAuto p s).2 ∧ lr_ok rm = lr_ok r ∧ lr_address rm = lr_address r ∧
     lr_accepted rm = false ∧ lr_conflict rm = lr_ok r ∧
     lr_reason rm = (if lr_ok r then if requested =? lp_broadcast p then "broadcast" else "conflict"
                     else "pool-exhausted")).
Proof.
  intros Hp Hc. pose proof (other_session p s requested Hp Hc) as Hother.
  destruct (released p s Hp Hc) as (Hq & Hqc & Hqs). destruct (release_config p s) as (_ & _ & Eb & _).
  rewrite AcquireAuto_eq by done.
  destruct (manual_spec p s requested Hp Hc) as [(Hr & _ & _ & ->)|[Hr ->]]; rewrite ?Eb in *; cbn [fst snd].
  - apply orb_false_iff in Hr as [Hr1 Hr2]. apply Z.eqb_neq in Hr1. split.
    + intros _. split_and!; try done. apply leased_pool_ips.
    + intros [?|Ho%Hother]; congruence.
  - split.
    + intros Hnr. apply orb_true_iff in Hr as [Hr|Hr]; [apply Z.eqb_eq in Hr|apply Hother in Hr]; tauto.
    + intros _. by destruct (auto_internal_spec _ s Hq Hqc Hqs) as [(a & _ & _ & _ & ->)|[_ ->]].
Qed.

(** ** Properties *)

(** C35: After any sequence of Configure, AcquireAuto, AcquireManual and Release calls the two maps
    of the pool are inverse of each other: a session holds at most one address, no address is
    leased to two sessions, the reverse index never keeps a stale entry; the broadcast address is
    never leased, and an unconfigured pool holds no lease. *)
Theorem lease_pool_exclusive es :
  Forall lease_op_ok es →
  let p := exec lease_step Pool_new es in
  (∀ s ip, lp_ip_by_session p !! s = Some ip ↔ lp_session_by_ip p !! ip = Some s) ∧
  (∀ s1 s2 ip, lp_ip_by_session p !! s1 = Some ip → lp_ip_by_session p !! s2 = Some ip → s1 = s2) ∧
  (∀ s, lp_ip_by_session p !! s ≠ Some (lp_broadcast p)) ∧
  (lp_configured p = false → lp_ip_by_session p = ∅ ∧ lp_session_by_ip p = ∅).
Proof.
  intros Hes p. pose proof (exec_invariant lease_step lease_op_ok pool_inv Pool_new es pool_inv_new Hes) as Hp.
  fold p in Hp. destruct Hp as [Hi _ Hb Hu]. split_and!; [done| | |].
  - intros s1 s2 ip H1%Hi H2%Hi. congruence.
  - intros s Hs%Hi. congruence.
  - intros Hc. split; [by apply Hu|]. apply map_empty. intros ip.
    apply eq_None_not_Some. intros [s Hs%Hi]. by rewrite (Hu Hc) in Hs.
Qed.

Lemma lease_pool_exclusive_witness :
  let p := exec lease_step Pool_new
    [LpConfigure 167772160 4294967288; LpAuto 1; LpManual 2 167772162; LpManual 3 167772163; LpAuto 1; LpRelease 3] in
  (lp_ip_by_session p !! 1 = Some 167772162 ↔ lp_session_by_ip p !! 167772162 = Some 1) ∧
  lp_ip_by_session p !! 2 ≠ Some (lp_broadcast p).
Proof.
  split; apply lease_pool_exclusive; decide_true.
Defined.

(** On a configured pool AcquireAuto succeeds exactly when some address strictly between
    gateway and broadcast is not leased to another session; it then leases the smallest such
    address, moving the session's lease and touching no other one, and otherwise reports
    pool-exhausted with the session's old lease released.  AcquireManual gives the requested
    address exactly when it is neither broadcast nor leased to another session; otherwise it
    behaves as AcquireAuto and reports the refusal as a conflict with its reason. *)
Theorem lease_acquire_exact es s requested :
  Forall lease_op_ok es →
  let p := exec lease_step Pool_new es in
  lp_configured p = true →
  let '(r, p') := AcquireAuto p s in
  let '(rm, pm) := AcquireManual p s requested in
  let refused := requested = lp_broadcast p ∨ ∃ s', s' ≠ s ∧ lp_ip_by_session p !! s' = Some requested in
  (lr_ok r = true ↔ ∃ ip, allocatable p s ip) ∧
  (lr_ok r = true →
     allocatable p s (lr_address r) ∧ (∀ ip, allocatable p s ip → lr_address r ≤ ip) ∧
     lp_ip_by_session p' = <[s := lr_address r]> (lp_ip_by_session p)) ∧
  (lr_ok r = false → lr_reason r = "pool-exhausted" ∧ lp_ip_by_session p' = delete s (lp_ip_by_session p)) ∧
  (¬ refused → lr_ok rm = true ∧ lr_accepted rm = true ∧ lr_address rm = requested ∧
     lp_ip_by_session pm = <[s := requested]> (lp_ip_by_session p)) ∧
  (refused → pm = p' ∧ lr_ok rm = lr_ok r ∧ lr_address rm = lr_address r ∧ lr_accepted rm = false ∧
     lr_conflict rm = lr_ok r ∧
     lr_reason rm = (if lr_ok r then if requested =? lp_broadcast p then "broadcast" else "conflict"
                     else "pool-exhausted")).
Proof.
  intros Hes p Hc.
  pose proof (exec_invariant lease_step lease_op_ok pool_inv Pool_new es pool_inv_new Hes) as Hp. fold p in Hp.
  clearbody p. pose proof (acquire_auto_exact p s Hp Hc) as Ha.
  pose proof (acquire_manual_exact p s requested Hp Hc) as Hm.
  destruct (AcquireAuto p s) as [r p'], (AcquireManual p s requested) as [rm pm]. cbn [fst snd] in *.
  tauto.
Qed.

Lemma lease_acquire_exact_witness :
  let p := exec lease_step Pool_new [LpConfigure 167772160 4294967288; LpManual 2 167772162] in
  let '(r, p') := AcquireAuto p 1 in
  allocatable p 1 (lr_address r) ∧ lp_ip_by_session p' !! 1 = Some 167772163.
Proof.
  pose proof (lease_acquire_exact [LpConfigure 167772160 4294967288; LpManual 2 167772162] 1 167772162
    ltac:(decide_true) eq_refl) as H.
  set (p := exec lease_step Pool_new _) in *.
  destruct (AcquireAuto p 1) as [r p'] eqn:E. destruct (AcquireManual p 1 167772162) as [rm pm].
  destruct H as (_ & H & _). vm_compute in E. injection E as <- <-.
  destruct (H eq_refl) as (H1 & _). split; [exact H1|]. reflexivity.
Defined.
