(* ===== verification/SessionControl.v ===== *)
(** Control messages of session resumption: the hexadecimal encoding of their fields, their
    validity rules ([src/ppp/app/protocol/VirtualEthernetInformation.cpp]), the conversion to and
    from the authenticated fields ([src/ppp/app/server/VirtualEthernetExchanger.cpp]) and the
    authenticated transcript with its proof ([src/ppp/app/protocol/SessionResumeAuthenticator.cpp]).

    OpenSSL's HMAC-SHA256 is a parameter [hmac root transcript], [None] when the call fails. *)

From S2P Require Import Prelude.
From Stdlib Require Import Ascii.

(** ** Data *)

Inductive SessionResumeAction :=
  | ActNone | ActOffer | ActAccepted | ActResumeRequest | ActGenerationSync | ActResumeAccept
  | ActResumeConfirm | ActResumeCommitted | ActReject.

#[global] Instance SessionResumeAction_eq_dec : EqDecision SessionResumeAction.
Proof. solve_decision. Defined.

(** The enumerators' values. *)
Definition action_code (a : SessionResumeAction) : Z :=
  match a with
  | ActNone => 0 | ActOffer => 1 | ActAccepted => 2 | ActResumeRequest => 3 | ActGenerationSync => 4
  | ActResumeAccept => 5 | ActResumeConfirm => 6 | ActResumeCommitted => 7 | ActReject => 8
  end.

Record SessionResumeControl := mkControl {
  sc_version : Z;
  sc_action : SessionResumeAction;
  sc_capabilities : Z;
  sc_session_id : string;
  sc_generation : Z;
  sc_client_nonce : string;
  sc_server_nonce : string;
  sc_candidate_binding : string;
  sc_proof : string;
  sc_reason : string
}.

Definition ProtocolVersion : Z := 1.
Definition CapabilityV1 : Z := 1.
Definition MaximumReasonLength : nat := 64.

Definition Control_Clear : SessionResumeControl :=
  mkControl ProtocolVersion ActNone 0 "" 0 "" "" "" "" "".

Definition Control_HasAny (c : SessionResumeControl) : bool := bool_decide (sc_action c ≠ ActNone).

Record SessionResumeTranscriptFields := mkFields {
  tf_action : SessionResumeAction;
  tf_capabilities : Z;
  tf_session_id : list Z;
  tf_generation : Z;
  tf_client_nonce : list Z;
  tf_server_nonce : list Z;
  tf_candidate_binding : list Z
}.

#[global] Instance TranscriptFields_eq_dec : EqDecision SessionResumeTranscriptFields.
Proof. solve_decision. Defined.

Definition zeros (n : nat) : list Z := replicate n 0.

Definition Fields_new : SessionResumeTranscriptFields :=
  mkFields ActNone 0 (zeros 16) 0 (zeros 32) (zeros 32) (zeros 32).

(** ** Hexadecimal *)

Definition ascii_code (c : ascii) : Z := Z.of_N (N_of_ascii c).

Definition is_lower_hex (c : ascii) : bool :=
  ((48 <=? ascii_code c) && (ascii_code c <=? 57)) || ((97 <=? ascii_code c) && (ascii_code c <=? 102)).

Definition nibble (c : ascii) : option Z :=
  if (48 <=? ascii_code c) && (ascii_code c <=? 57) then Some (ascii_code c - 48)
  else if (97 <=? ascii_code c) && (ascii_code c <=? 102) then Some (ascii_code c - 97 + 10)
  else None.

(** The digit at an index of [0123456789abcdef]. *)
Definition hex_digit (v : Z) : ascii := default "0"%char (String.get (Z.to_nat v) "0123456789abcdef").

Fixpoint EncodeLowerHex (value : list Z) : string :=
  match value with
  | [] => ""
  | b :: value => String (hex_digit (Z.shiftr b 4)) (String (hex_digit (Z.land b 15)) (EncodeLowerHex value))
  end.

Fixpoint decode_pairs (text : string) : option (list Z) :=
  match text with
  | "" => Some []
  | String h (String l text) =>
      match nibble h, nibble l with
      | Some high, Some low =>
          match decode_pairs text with
          | Some bs => Some (Z.lor (Z.shiftl high 4) low :: bs)
          | None => None
          end
      | _, _ => None
      end
  | String _ "" => None
  end.

Definition DecodeLowerHex (size : nat) (text : string) : option (list Z) :=
  if decide (String.length text ≠ (size * 2)%nat) then None else decode_pairs text.

Fixpoint string_forallb (f : ascii → bool) (s : string) : bool :=
  match s with
  | "" => true
  | String c s => f c && string_forallb f s
  end.

Definition IsCanonicalLowerHex (value : string) (length : nat) : bool :=
  bool_decide (String.length value = length) && string_forallb is_lower_hex value.

Definition IsBoundedReasonToken (reason : string) : bool :=
  bool_decide (String.length reason ≤ MaximumReasonLength)%nat &&
  string_forallb (λ c, ((97 <=? ascii_code c) && (ascii_code c <=? 122)) ||
                       ((48 <=? ascii_code c) && (ascii_code c <=? 57)) || (ascii_code c =? 45)) reason.

(** ** Validity of a control *)

Definition is_empty (s : string) : bool := bool_decide (s = "").

Definition Control_Valid (c : SessionResumeControl) : bool :=
  if negb (sc_version c =? ProtocolVersion) || negb (Control_HasAny c) ||
     negb (IsBoundedReasonToken (sc_reason c)) then false
  else
    let identity := (sc_capabilities c =? CapabilityV1) && IsCanonicalLowerHex (sc_session_id c) 32 in
    let client_nonce_valid := IsCanonicalLowerHex (sc_client_nonce c) 64 in
    let server_nonce_valid := IsCanonicalLowerHex (sc_server_nonce c) 64 in
    match sc_action c with
    | ActOffer =>
        identity && (sc_generation c =? 0) && is_empty (sc_client_nonce c) && server_nonce_valid &&
        is_empty (sc_candidate_binding c) && is_empty (sc_proof c) && is_empty (sc_reason c)
    | ActAccepted =>
        identity && (sc_generation c =? 0) && client_nonce_valid && server_nonce_valid &&
        is_empty (sc_candidate_binding c) && IsCanonicalLowerHex (sc_proof c) 64 && is_empty (sc_reason c)
    | ActResumeRequest | ActGenerationSync =>
        identity && client_nonce_valid && is_empty (sc_server_nonce c) &&
        IsCanonicalLowerHex (sc_candidate_binding c) 64 && IsCanonicalLowerHex (sc_proof c) 64 &&
        is_empty (sc_reason c)
    | ActResumeAccept | ActResumeConfirm | ActResumeCommitted =>
        identity && client_nonce_valid && server_nonce_valid &&
        IsCanonicalLowerHex (sc_candidate_binding c) 64 && IsCanonicalLowerHex (sc_proof c) 64 &&
        is_empty (sc_reason c)
    | ActReject =>
        if is_empty (sc_reason c) then false
        else
          let bare := (sc_capabilities c =? 0) && is_empty (sc_session_id c) && (sc_generation c =? 0) &&
            is_empty (sc_client_nonce c) && is_empty (sc_server_nonce c) &&
            is_empty (sc_candidate_binding c) && is_empty (sc_proof c) in
          let authenticated := identity && client_nonce_valid && server_nonce_valid &&
            IsCanonicalLowerHex (sc_candidate_binding c) 64 && IsCanonicalLowerHex (sc_proof c) 64 in
          bare || authenticated
    | ActNone => false
    end.

(** ** Conversion *)

(** The actions whose control carries no server nonce. *)
Definition omits_server_nonce (a : SessionResumeAction) : bool :=
  match a with ActResumeRequest | ActGenerationSync => true | _ => false end.

Definition FillResumeControl (fields : SessionResumeTranscriptFields) (proof : list Z)
    : SessionResumeControl :=
  mkControl ProtocolVersion (tf_action fields) (tf_capabilities fields)
    (EncodeLowerHex (tf_session_id fields)) (tf_generation fields)
    (EncodeLowerHex (tf_client_nonce fields))
    (if omits_server_nonce (tf_action fields) then "" else EncodeLowerHex (tf_server_nonce fields))
    (EncodeLowerHex (tf_candidate_binding fields)) (EncodeLowerHex proof) "".

(** [fields] is the caller's value-initialised object: its server nonce stays zero when the
    control carries none. *)
Definition DecodeResumeControl (control : SessionResumeControl) (expected_action : SessionResumeAction)
    (expected_session_id : list Z) : option (SessionResumeTranscriptFields * list Z) :=
  if negb (Control_Valid control) || negb (is_empty (sc_reason control)) ||
     negb (sc_version control =? ProtocolVersion) ||
     bool_decide (sc_action control ≠ expected_action) ||
     negb (sc_capabilities control =? CapabilityV1) ||
     bool_decide (sc_session_id control ≠ EncodeLowerHex expected_session_id) then None
  else
    match DecodeLowerHex 32 (sc_client_nonce control) with
    | None => None
    | Some client_nonce =>
        match (if is_empty (sc_server_nonce control) then Some (zeros 32)
               else DecodeLowerHex 32 (sc_server_nonce control)) with
        | None => None
        | Some server_nonce =>
            match DecodeLowerHex 32 (sc_candidate_binding control), DecodeLowerHex 32 (sc_proof control) with
            | Some candidate_binding, Some proof =>
                Some (mkFields expected_action (sc_capabilities control) expected_session_id
                        (sc_generation control) client_nonce server_nonce candidate_binding, proof)
            | _, _ => None
            end
        end
    end.

(** ** Transcript and proof *)

Definition SessionResumeTranscriptDomain : list Z :=
  [111; 112; 101; 110; 112; 112; 112; 50; 45; 108; 51; 45;
   114; 111; 97; 109; 105; 110; 103; 45; 118; 49; 0; 0].

Definition IsZero (value : list Z) : bool := fold_left Z.lor value 0 =? 0.

Definition transcript_fields_valid (f : SessionResumeTranscriptFields) : bool :=
  match tf_action f with
  | ActOffer =>
      (tf_capabilities f =? CapabilityV1) && (tf_generation f =? 0) && IsZero (tf_client_nonce f) &&
      IsZero (tf_candidate_binding f)
  | ActAccepted =>
      (tf_capabilities f =? CapabilityV1) && (tf_generation f =? 0) && IsZero (tf_candidate_binding f)
  | ActResumeRequest | ActGenerationSync =>
      (tf_capabilities f =? CapabilityV1) && IsZero (tf_server_nonce f)
  | ActResumeAccept | ActResumeConfirm | ActResumeCommitted => tf_capabilities f =? CapabilityV1
  | ActReject =>
      (tf_capabilities f =? CapabilityV1) ||
      ((tf_capabilities f =? 0) && IsZero (tf_session_id f) && (tf_generation f =? 0) &&
       IsZero (tf_client_nonce f) && IsZero (tf_server_nonce f) && IsZero (tf_candidate_binding f))
  | ActNone => false
  end.

Definition BuildSessionResumeTranscript (f : SessionResumeTranscriptFields) : option (list Z) :=
  let action := action_code (tf_action f) in
  let known_capabilities := Z.land (tf_capabilities f) (Z.lxor (2 ^ 32 - 1) CapabilityV1) =? 0 in
  if negb known_capabilities || negb (transcript_fields_valid f) || (action <? 1) || (8 <? action) then None
  else
    let transcript :=
      SessionResumeTranscriptDomain ++ [ProtocolVersion] ++ [action] ++ be_bytes 4 (tf_capabilities f) ++
      tf_session_id f ++ be_bytes 8 (tf_generation f) ++ tf_client_nonce f ++ tf_server_nonce f ++
      tf_candidate_binding f in
    if decide (length transcript = 150%nat) then Some transcript else None.

Section proofs_of_possession.
Context (hmac : list Z → list Z → option (list Z)).

(** A retained root is [None] while the secret is not set. *)
Definition ComputeSessionResumeProof (retained_root : option (list Z)) (f : SessionResumeTranscriptFields)
    : option (list Z) :=
  match retained_root with
  | None => None
  | Some root =>
      match BuildSessionResumeTranscript f with
      | None => None
      | Some transcript =>
          match hmac root transcript with
          | Some proof => if decide (length proof = 32%nat) then Some proof else None
          | None => None
          end
      end
  end.

Definition VerifySessionResumeProof (retained_root : option (list Z)) (f : SessionResumeTranscriptFields)
    (proof : list Z) : bool :=
  match ComputeSessionResumeProof retained_root f with
  | Some expected => bool_decide (expected = proof)
  | None => false
  end.
End proofs_of_possession.

(** ** Hexadecimal round trips *)

Definition all_nibbles : list Z := seqZ 0 16.

Lemma nibble_hex_digit v : 0 ≤ v < 16 → nibble (hex_digit v) = Some v ∧ is_lower_hex (hex_digit v) = true.
Proof.
  intros Hv. assert (Forall (λ v, nibble (hex_digit v) = Some v ∧ is_lower_hex (hex_digit v) = true) all_nibbles)
    as Hall by decide_true.
  rewrite Forall_forall in Hall. apply Hall. apply elem_of_seqZ. lia.
Qed.

Lemma hex_digit_nibble c v : nibble c = Some v → 0 ≤ v < 16 ∧ hex_digit v = c ∧ is_lower_hex c = true.
Proof.
  assert (∀ c, match nibble c with
    | Some v => bool_decide (0 ≤ v < 16) && bool_decide (hex_digit v = c) && is_lower_hex c
    | None => true end = true) as Hall.
  { intros [[] [] [] [] [] [] [] []]; vm_compute; reflexivity. }
  intros Hv. specialize (Hall c). rewrite Hv in Hall.
  apply andb_true_iff in Hall as [[H1 H2]%andb_true_iff H3].
  by apply bool_decide_eq_true_1 in H1, H2.
Qed.

Lemma byte_nibbles b : is_byte b → 0 ≤ Z.shiftr b 4 < 16 ∧ 0 ≤ Z.land b 15 < 16.
Proof.
  unfold is_uint. change (2 ^ 8) with 256. intros Hb.
  rewrite Z.shiftr_div_pow2 by lia. change (2 ^ 4) with 16.
  change 15 with (Z.ones 4). rewrite Z.land_ones by lia. change (2 ^ 4) with 16.
  split; [|apply Z.mod_pos_bound; lia]. split; [apply Z.div_pos; lia|apply Z.div_lt_upper_bound; lia].
Qed.

Lemma byte_join b : is_byte b → Z.lor (Z.shiftl (Z.shiftr b 4) 4) (Z.land b 15) = b.
Proof.
  intros Hb. pose proof (byte_nibbles b Hb) as [_ H2]. rewrite lor_shift_add by (change (2 ^ 4) with 16; lia).
  rewrite Z.shiftr_div_pow2 by lia. change 15 with (Z.ones 4). rewrite Z.land_ones by lia.
  change (2 ^ 4) with 16. pose proof (Z.div_mod b 16). lia.
Qed.

Lemma nibbles_byte h l :
  0 ≤ h < 16 → 0 ≤ l < 16 →
  let b := Z.lor (Z.shiftl h 4) l in is_byte b ∧ Z.shiftr b 4 = h ∧ Z.land b 15 = l.
Proof.
  intros Hh Hl b. subst b. rewrite lor_shift_add by (change (2 ^ 4) with 16; lia). change (2 ^ 4) with 16.
  split; [unfold is_uint; change (2 ^ 8) with 256; lia|].
  rewrite Z.shiftr_div_pow2 by lia. change 15 with (Z.ones 4). rewrite Z.land_ones by lia. change (2 ^ 4) with 16.
  split; [rewrite Z.div_add_l, Z.div_small by lia; lia|].
  rewrite Z.add_comm, Z_mod_plus_full. apply Z.mod_small. lia.
Qed.

Lemma length_EncodeLowerHex bs : String.length (EncodeLowerHex bs) = (length bs * 2)%nat.
Proof. induction bs as [|b bs IH]; cbn; [done|]. by rewrite IH. Qed.

Lemma decode_encode_pairs bs :
  bytes_ok bs → decode_pairs (EncodeLowerHex bs) = Some bs ∧
  string_forallb is_lower_hex (EncodeLowerHex bs) = true.
Proof.
  induction 1 as [|b bs Hb _ [IH1 IH2]]; [done|].
  destruct (byte_nibbles b Hb) as [Hh Hl].
  destruct (nibble_hex_digit _ Hh) as [E1 E2], (nibble_hex_digit _ Hl) as [E3 E4].
  cbn [EncodeLowerHex decode_pairs string_forallb]. by rewrite E1, E2, E3, E4, IH1, IH2, byte_join.
Qed.

Lemma decode_encode n bs : bytes_ok bs → length bs = n → DecodeLowerHex n (EncodeLowerHex bs) = Some bs.
Proof.
  intros Hbs <-. unfold DecodeLowerHex. rewrite decide_False by (rewrite length_EncodeLowerHex; tauto).
  by apply decode_encode_pairs.
Qed.

Lemma canonical_encode n bs : bytes_ok bs → length bs = n → IsCanonicalLowerHex (EncodeLowerHex bs) (n * 2) = true.
Proof.
  intros Hbs <-. unfold IsCanonicalLowerHex. rewrite length_EncodeLowerHex, bool_decide_eq_true_2 by done.
  by apply decode_encode_pairs.
Qed.

Lemma encode_decode_pairs n text bs :
  (String.length text ≤ n)%nat → decode_pairs text = Some bs →
  EncodeLowerHex bs = text ∧ bytes_ok bs.
Proof.
  revert text bs. induction n as [|n IH]; intros [|h [|l text]] bs Hn; cbn [String.length decode_pairs] in *; try lia; try done.
  - intros [= <-]. by split.
  - intros [= <-]. by split.
  - destruct (nibble h) as [vh|] eqn:Eh; [|done]. destruct (nibble l) as [vl|] eqn:El; [|done].
    destruct (decode_pairs text) as [bs'|] eqn:E; [|done]. intros [= <-].
    destruct (IH text bs') as [IH1 IH2]; [lia|done|].
    apply hex_digit_nibble in Eh as (Hh & Eh & _), El as (Hl & El & _).
    destruct (nibbles_byte vh vl Hh Hl) as (Hb & E1 & E2).
    cbn [EncodeLowerHex]. rewrite E1, E2, Eh, El, IH1. split; [done|by constructor].
Qed.

(** A text decodes to the bytes it encodes and to nothing else. *)
Lemma encode_decode n text bs :
  DecodeLowerHex n text = Some bs → EncodeLowerHex bs = text ∧ bytes_ok bs ∧ length bs = n.
Proof.
  unfold DecodeLowerHex. case_decide as Hn; [done|]. intros H.
  destruct (encode_decode_pairs _ _ _ (le_n _) H) as [<- Hb]. rewrite length_EncodeLowerHex in Hn.
  split_and!; try done. lia.
Qed.

(** ** Transcript and control *)

(** The fixed-size arrays and integer widths of the C++ structure. *)
Record fields_wf (f : SessionResumeTranscriptFields) : Prop := {
  fw_capabilities : is_uint 32 (tf_capabilities f);
  fw_generation : is_uint 64 (tf_generation f);
  fw_session_id : bytes_ok (tf_session_id f) ∧ length (tf_session_id f) = 16%nat;
  fw_client_nonce : bytes_ok (tf_client_nonce f) ∧ length (tf_client_nonce f) = 32%nat;
  fw_server_nonce : bytes_ok (tf_server_nonce f) ∧ length (tf_server_nonce f) = 32%nat;
  fw_candidate : bytes_ok (tf_candidate_binding f) ∧ length (tf_candidate_binding f) = 32%nat
}.

Lemma be_bytes_inj n x y :
  is_uint (8 * Z.of_nat n) x → is_uint (8 * Z.of_nat n) y → be_bytes n x = be_bytes n y → x = y.
Proof. intros Hx Hy E. by rewrite <- (be_value_bytes n x), <- (be_value_bytes n y), E. Qed.

Lemma action_code_inj a b : action_code a = action_code b → a = b.
Proof. by destruct a, b. Qed.

Lemma transcript_inj f g t :
  fields_wf f → fields_wf g →
  BuildSessionResumeTranscript f = Some t → BuildSessionResumeTranscript g = Some t → f = g.
Proof.
  intros [Cf Gf [_ Sf] [_ Nf] [_ Mf] [_ Bf]] [Cg Gg [_ Sg] [_ Ng] [_ Mg] [_ Bg]].
  unfold BuildSessionResumeTranscript. case_match; [done|]. case_decide; [|done]. intros <-%(inj Some).
  case_match; [done|]. case_decide; [|done]. intros E%(inj Some).
  destruct f as [af cf sf gf nf mf bf], g as [ag cg sg gg ng mg bg]. cbn [tf_action tf_capabilities
    tf_session_id tf_generation tf_client_nonce tf_server_nonce tf_candidate_binding] in *.
  apply app_inj_1 in E as [_ E]; [|done]. apply app_inj_1 in E as [_ E]; [|done].
  apply app_inj_1 in E as [Ea E]; [|done]. injection Ea as <-%action_code_inj.
  apply app_inj_1 in E as [Ec%be_bytes_inj E]; [|done|done|by rewrite !length_be_bytes].
  apply app_inj_1 in E as [-> E]; [|congruence].
  apply app_inj_1 in E as [Eg%be_bytes_inj E]; [|done|done|by rewrite !length_be_bytes].
  apply app_inj_1 in E as [-> E]; [|congruence]. apply app_inj_1 in E as [-> ->]; [|congruence].
  by subst.
Qed.

Definition resume_action (a : SessionResumeAction) : bool :=
  match a with
  | ActResumeRequest | ActGenerationSync | ActResumeAccept | ActResumeConfirm | ActResumeCommitted => true
  | _ => false
  end.

(** The fields of a resume message: the server nonce is zero where the control omits it. *)
Definition resume_fields (f : SessionResumeTranscriptFields) : Prop :=
  fields_wf f ∧ resume_action (tf_action f) = true ∧ tf_capabilities f = CapabilityV1 ∧
  (omits_server_nonce (tf_action f) = true → tf_server_nonce f = zeros 32).

Definition proof_wf (p : list Z) : Prop := bytes_ok p ∧ length p = 32%nat.

Lemma encode_nonempty bs n : length bs = S n → is_empty (EncodeLowerHex bs) = false.
Proof. destruct bs; [done|]. intros _. by apply bool_decide_eq_false_2. Qed.

Lemma fill_valid f proof :
  resume_fields f → proof_wf proof → Control_Valid (FillResumeControl f proof) = true.
Proof.
  intros ([_ _ [Hs1 Hs2] [Hc1 Hc2] [Hm1 Hm2] [Hb1 Hb2]] & Ha & Hcap & _) [Hp1 Hp2].
  pose proof (canonical_encode 16 _ Hs1 Hs2) as E1. pose proof (canonical_encode 32 _ Hc1 Hc2) as E2.
  pose proof (canonical_encode 32 _ Hm1 Hm2) as E3. pose proof (canonical_encode 32 _ Hb1 Hb2) as E4.
  pose proof (canonical_encode 32 _ Hp1 Hp2) as E5. cbn [Nat.mul Nat.add] in E1, E2, E3, E4, E5.
  unfold Control_Valid, FillResumeControl, Control_HasAny.
  cbn [sc_version sc_action sc_reason sc_capabilities sc_session_id sc_client_nonce sc_server_nonce
       sc_candidate_binding sc_proof sc_generation].
  rewrite Hcap, E1, E2, E4, E5. destruct (tf_action f); try done; cbn [omits_server_nonce]; rewrite ?E3; done.
Qed.

Lemma decode_fill f proof :
  resume_fields f → proof_wf proof →
  DecodeResumeControl (FillResumeControl f proof) (tf_action f) (tf_session_id f) = Some (f, proof).
Proof.
  intros Hf Hp. pose proof (fill_valid f proof Hf Hp) as Hv.
  destruct Hf as ([_ _ _ [Hc1 Hc2] [Hm1 Hm2] [Hb1 Hb2]] & Ha & Hcap & Hz), Hp as [Hp1 Hp2].
  unfold DecodeResumeControl. rewrite Hv. unfold FillResumeControl.
  cbn [sc_version sc_action sc_reason sc_capabilities sc_session_id sc_client_nonce sc_server_nonce
       sc_candidate_binding sc_proof sc_generation].
  rewrite !bool_decide_eq_false_2 by tauto. rewrite Hcap. cbn [negb orb is_empty Z.eqb].
  replace (_ || _) with false by done.
  rewrite (decode_encode 32 (tf_client_nonce f)), (decode_encode 32 (tf_candidate_binding f)),
    (decode_encode 32 proof) by done.
  destruct (omits_server_nonce (tf_action f)).
  - replace (is_empty "") with true by done. rewrite <- Hz, <- Hcap by done. by destruct f.
  - rewrite (encode_nonempty _ 31), (decode_encode 32 (tf_server_nonce f)) by done. rewrite <- Hcap. by destruct f.
Qed.

(** A valid resume message carries a server nonce exactly when its action calls for one. *)
Lemma valid_server_nonce c :
  Control_Valid c = true → resume_action (sc_action c) = true →
  (if omits_server_nonce (sc_action c) then is_empty (sc_server_nonce c)
   else IsCanonicalLowerHex (sc_server_nonce c) 64) = true.
Proof.
  unfold Control_Valid. intros H Ha. destruct (_ || _) in H; [done|].
  destruct (sc_action c); try done; cbn [omits_server_nonce];
    repeat match goal with H : _ && _ = true |- _ => apply andb_true_iff in H as [H ?] end; done.
Qed.

(** Whatever a receiver decodes is well formed, and encoding it again gives the same message. *)
Lemma decode_wf control action session_id f proof :
  is_uint 64 (sc_generation control) → bytes_ok session_id → length session_id = 16%nat →
  resume_action action = true →
  DecodeResumeControl control action session_id = Some (f, proof) →
  resume_fields f ∧ proof_wf proof ∧ tf_action f = action ∧ tf_session_id f = session_id ∧
  FillResumeControl f proof = control.
Proof.
  intros Hg Hs1 Hs2 Ha. unfold DecodeResumeControl. case_if as E; [done|].
  repeat (apply orb_false_iff in E as [E ?]).
  destruct control as [v a cap sid g cn sn cb pf rs]. cbn [sc_version sc_action sc_reason sc_capabilities
    sc_session_id sc_client_nonce sc_server_nonce sc_candidate_binding sc_proof sc_generation] in *.
  destruct (DecodeLowerHex 32 cn) as [bcn|] eqn:E1; [|done].
  destruct (if is_empty sn then _ else _) as [bsn|] eqn:E2; [|done].
  destruct (DecodeLowerHex 32 cb) as [bcb|] eqn:E3; [|done].
  destruct (DecodeLowerHex 32 pf) as [bpf|] eqn:E4; [|done]. intros [= <- <-].
  apply encode_decode in E1 as (<- & ? & ?), E3 as (<- & ? & ?), E4 as (<- & ? & ?).
  bool_props. subst v cap.
  assert (a = action) as -> by (by destruct (decide (a = action))).
  assert (sid = EncodeLowerHex session_id) as -> by (by destruct (decide (sid = EncodeLowerHex session_id))).
  assert (rs = "") as -> by (by apply (bool_decide_eq_true_1 (rs = ""))).
  assert ((omits_server_nonce action = true ∧ sn = "" ∧ bsn = zeros 32) ∨
    (omits_server_nonce action = false ∧ EncodeLowerHex bsn = sn)) as Hsn.
  { pose proof (valid_server_nonce _ E Ha) as Hv. cbn [sc_action sc_server_nonce] in Hv.
    destruct (omits_server_nonce action).
    - left. apply bool_decide_eq_true_1 in Hv as ->. by injection E2 as <-.
    - right. split; [done|]. destruct (is_empty sn) eqn:Es; [|by apply encode_decode in E2 as (? & _ & _)].
      by apply bool_decide_eq_true_1 in Es as ->. }
  assert (bytes_ok bsn ∧ length bsn = 32%nat) as [? ?].
  { destruct (is_empty sn); [injection E2 as <-; split; [decide_true|done]|].
    by apply encode_decode in E2 as (_ & ? & ?). }
  split_and!; try done.
  - split; [by constructor|]. split_and!; try done.
    cbn. intros Ho. destruct Hsn as [(_ & _ & ->)|[Ho2 _]]; [done|congruence].
  - unfold FillResumeControl. cbn. f_equal. by destruct Hsn as [(-> & -> & _)|[-> ->]].
Qed.

(** For the five resume messages, the control a peer builds from its authenticated fields
    and proof decodes to exactly those fields and that proof, and the receiver's proof check
    accepts it when the sender computed the proof under the same root; conversely whatever the
    receiver decodes is well formed and re-encodes to the very message received.  And the
    authenticated transcript determines every field: no two distinct field sets are covered by
    one proof input. *)
Theorem session_control_authentic (hmac : list Z → list Z → option (list Z)) root f proof :
  resume_fields f → proof_wf proof →
  let control := FillResumeControl f proof in
  DecodeResumeControl control (tf_action f) (tf_session_id f) = Some (f, proof) ∧
  (ComputeSessionResumeProof hmac root f = Some proof →
   ∀ g p, DecodeResumeControl control (tf_action f) (tf_session_id f) = Some (g, p) →
     VerifySessionResumeProof hmac root g p = true) ∧
  (∀ c g p, is_uint 64 (sc_generation c) →
     DecodeResumeControl c (tf_action f) (tf_session_id f) = Some (g, p) → FillResumeControl g p = c) ∧
  (∀ g t, fields_wf g → BuildSessionResumeTranscript f = Some t →
     BuildSessionResumeTranscript g = Some t → g = f).
Proof.
  intros Hf Hp control. pose proof (decode_fill f proof Hf Hp) as Hd. destruct Hf as (Hw & Ha & _).
  split_and!; [done| | |].
  - intros Hc g p Hg. unfold control in Hg. rewrite Hd in Hg. injection Hg as <- <-.
    unfold VerifySessionResumeProof. rewrite Hc. by apply bool_decide_eq_true_2.
  - intros c g p Hu Hg. destruct (fw_session_id _ Hw). by apply decode_wf in Hg as (_ & _ & _ & _ & ?).
  - intros g t Hgw Ht1 Ht2. by apply (transcript_inj g f t).
Qed.

Definition resume_fields_example : SessionResumeTranscriptFields :=
  mkFields ActResumeConfirm CapabilityV1 (replicate 16 7) 5 (replicate 32 171) (replicate 32 9) (replicate 32 255).

#[global] Instance fields_wf_dec f : Decision (fields_wf f).
Proof.
  refine (cast_if (decide (is_uint 32 (tf_capabilities f) ∧ is_uint 64 (tf_generation f) ∧
    (bytes_ok (tf_session_id f) ∧ length (tf_session_id f) = 16%nat) ∧
    (bytes_ok (tf_client_nonce f) ∧ length (tf_client_nonce f) = 32%nat) ∧
    (bytes_ok (tf_server_nonce f) ∧ length (tf_server_nonce f) = 32%nat) ∧
    (bytes_ok (tf_candidate_binding f) ∧ length (tf_candidate_binding f) = 32%nat))));
    [by match goal with H : _ |- _ => destruct H as (?&?&?&?&?&?); constructor end|intros []; tauto].
Defined.

#[global] Instance resume_fields_dec f : Decision (resume_fields f).
Proof. unfold resume_fields. apply _. Defined.

Lemma session_control_authentic_witness :
  DecodeResumeControl (FillResumeControl resume_fields_example (replicate 32 1)) ActResumeConfirm (replicate 16 7) =
    Some (resume_fields_example, replicate 32 1).
Proof.
  apply (session_control_authentic (λ _ _, Some (replicate 32 1)) (Some [1]) resume_fields_example (replicate 32 1));
    [decide_true|split; decide_true].
Defined.
