(* ===== verification/SessionRecovery.v ===== *)
(** Recovery of a server session over a new carrier: the state machine
    ([src/ppp/app/server/SessionRecoveryState.h]), the control transaction of Establish
    ([SessionResumeEstablishTransaction.h] and [.cpp]) and the fallback decision
    ([SessionResumeFallbackDecision.h]).

    The transaction is written against an abstract class of operations, as in the source; here
    it is the type class [EstablishOperations] over a world [W]. *)

From S2P Require Import Prelude SessionControl.

(** ** State machine *)

Inductive RecoveryPhase := RecActive | RecSuspended | RecExpired.

#[global] Instance RecoveryPhase_eq_dec : EqDecision RecoveryPhase.
Proof. solve_decision. Defined.

Record SessionRecoveryState := mkRecovery {
  rv_state : RecoveryPhase;
  rv_generation : Z;
  rv_deadline : Z;
  rv_token : Z
}.

Definition Recovery_new : SessionRecoveryState := mkRecovery RecActive 1 0 0.

(** [now + grace], saturated. *)
Definition saturating_deadline (now grace : Z) : Z :=
  if UINT64_MAX - now <? grace then UINT64_MAX else now + grace.

Definition Recovery_Suspend (s : SessionRecoveryState) (expected_generation now grace : Z)
    : bool * SessionRecoveryState :=
  if bool_decide (rv_state s ≠ RecActive) || negb (rv_generation s =? expected_generation) ||
     negb (rv_token s =? 0) then (false, s)
  else (true, mkRecovery RecSuspended (rv_generation s) (saturating_deadline now grace) (rv_token s)).

Definition CanResume (s : SessionRecoveryState) (expected_generation now : Z) : bool :=
  bool_decide (rv_state s = RecSuspended) && (rv_token s =? 0) &&
  (rv_generation s =? expected_generation) && (now <? rv_deadline s).

Definition ReserveResume (s : SessionRecoveryState) (expected_generation now token : Z)
    : bool * SessionRecoveryState :=
  if (token =? 0) || negb (CanResume s expected_generation now) then (false, s)
  else (true, mkRecovery (rv_state s) (rv_generation s) (rv_deadline s) token).

Definition CanCommitResume (s : SessionRecoveryState) (expected_generation now token : Z) : bool :=
  bool_decide (rv_state s = RecSuspended) && negb (token =? 0) && (rv_token s =? token) &&
  (rv_generation s =? expected_generation) && (now <? rv_deadline s).

Definition CommitResume (s : SessionRecoveryState) (expected_generation now token : Z)
    : bool * SessionRecoveryState :=
  if negb (CanCommitResume s expected_generation now token) || (rv_generation s =? UINT64_MAX)
  then (false, s)
  else (true, mkRecovery RecActive (rv_generation s +[64] 1) 0 0).

Definition MarkResumeCommitted (s : SessionRecoveryState) (token now publish_grace : Z)
    : bool * SessionRecoveryState :=
  if (token =? 0) || negb (rv_token s =? token) || bool_decide (rv_state s ≠ RecSuspended) then (false, s)
  else
    let extended := saturating_deadline now publish_grace in
    (true, mkRecovery (rv_state s) (rv_generation s)
             (if rv_deadline s <? extended then extended else rv_deadline s) (rv_token s)).

Definition Recovery_CancelResume (s : SessionRecoveryState) (token : Z) : bool * SessionRecoveryState :=
  if (token =? 0) || negb (rv_token s =? token) || bool_decide (rv_state s ≠ RecSuspended) then (false, s)
  else (true, mkRecovery (rv_state s) (rv_generation s) (rv_deadline s) 0).

Definition HasResumeReservation (s : SessionRecoveryState) : bool := negb (rv_token s =? 0).

Definition Recovery_IsExpired (s : SessionRecoveryState) (now : Z) : bool * SessionRecoveryState :=
  let s := if bool_decide (rv_state s = RecSuspended) && (rv_deadline s <=? now)
           then mkRecovery RecExpired (rv_generation s) (rv_deadline s) 0 else s in
  (bool_decide (rv_state s = RecExpired), s).

Definition Recovery_IsSuspended (s : SessionRecoveryState) (now : Z) : bool * SessionRecoveryState :=
  let '(expired, s) := Recovery_IsExpired s now in
  (negb expired && bool_decide (rv_state s = RecSuspended), s).

(** The publication runs only after the commit, with the new generation. *)
Definition CommitSessionResumeAndPublish {W} (s : SessionRecoveryState)
    (expected_generation now token : Z) (publication : Z → W → W) (w : W)
    : bool * SessionRecoveryState * W :=
  let '(ok, s) := CommitResume s expected_generation now token in
  if negb ok then (false, s, w) else (true, s, publication (rv_generation s) w).

Inductive RecoveryCall :=
  | RvSuspend (expected_generation now grace : Z)
  | RvReserve (expected_generation now token : Z)
  | RvCommit (expected_generation now token : Z)
  | RvMark (token now publish_grace : Z)
  | RvCancel (token : Z)
  | RvIsExpired (now : Z)
  | RvIsSuspended (now : Z).

Definition recovery_step (s : SessionRecoveryState) (e : RecoveryCall) : bool * SessionRecoveryState :=
  match e with
  | RvSuspend g now grace => Recovery_Suspend s g now grace
  | RvReserve g now token => ReserveResume s g now token
  | RvCommit g now token => CommitResume s g now token
  | RvMark token now grace => MarkResumeCommitted s token now grace
  | RvCancel token => Recovery_CancelResume s token
  | RvIsExpired now => Recovery_IsExpired s now
  | RvIsSuspended now => Recovery_IsSuspended s now
  end.

(** The number of calls of a kind that succeed in a run. *)
Fixpoint successes (P : RecoveryCall → bool) (s : SessionRecoveryState) (es : list RecoveryCall) : Z :=
  match es with
  | [] => 0
  | e :: es =>
      let '(ok, s') := recovery_step s e in
      (if P e && ok then 1 else 0) + successes P s' es
  end.

Definition is_suspend (e : RecoveryCall) : bool := match e with RvSuspend _ _ _ => true | _ => false end.
Definition is_reserve (e : RecoveryCall) : bool := match e with RvReserve _ _ _ => true | _ => false end.
Definition is_commit (e : RecoveryCall) : bool := match e with RvCommit _ _ _ => true | _ => false end.
Definition is_cancel (e : RecoveryCall) : bool := match e with RvCancel _ => true | _ => false end.

Lemma successes_snoc P s es e :
  successes P s (es ++ [e]) =
  successes P s es + (if P e && (recovery_step (exec recovery_step s es) e).1 then 1 else 0).
Proof.
  revert s. induction es as [|e0 es IH]; intros s; cbn [successes app].
  - rewrite exec_nil. destruct (recovery_step s e). cbn. lia.
  - rewrite exec_cons. destruct (recovery_step s e0) as [ok s']. cbn [snd]. rewrite IH. lia.
Qed.

(** The ledger of a run: what was suspended, reserved, committed and cancelled explains the
    current state. *)
Record recovery_inv (su re co ca : Z) (s : SessionRecoveryState) : Prop := {
  rvi_generation : rv_generation s = 1 + co ∧ rv_generation s ≤ UINT64_MAX;
  rvi_suspends : su = co + (if decide (rv_state s = RecActive) then 0 else 1);
  rvi_reserved : if decide (rv_state s = RecExpired)
    then rv_token s = 0 ∧ co + ca ≤ re ≤ co + ca + 1
    else re = co + ca + (if rv_token s =? 0 then 0 else 1);
  rvi_token : rv_token s ≠ 0 → rv_state s = RecSuspended;
  rvi_counts : 0 ≤ co
}.

Lemma CanCommitResume_true s g now token :
  CanCommitResume s g now token = true →
  rv_state s = RecSuspended ∧ token ≠ 0 ∧ rv_token s = token ∧ rv_generation s = g ∧ now < rv_deadline s.
Proof.
  unfold CanCommitResume. rewrite !andb_true_iff, bool_decide_eq_true, negb_true_iff, Z.eqb_neq, !Z.eqb_eq, Z.ltb_lt.
  tauto.
Qed.

Lemma CanResume_true s g now :
  CanResume s g now = true →
  rv_state s = RecSuspended ∧ rv_token s = 0 ∧ rv_generation s = g ∧ now < rv_deadline s.
Proof.
  unfold CanResume. rewrite !andb_true_iff, bool_decide_eq_true, !Z.eqb_eq, Z.ltb_lt. tauto.
Qed.

Definition bonus (b : bool) : Z := if b then 1 else 0.

Lemma expire_inv su re co ca s now :
  recovery_inv su re co ca s → recovery_inv su re co ca (Recovery_IsExpired s now).2.
Proof.
  intros [Hg Hs Hr Ht Hc]. unfold Recovery_IsExpired. cbn [snd]. case_if as E; [|done].
  apply andb_true_iff in E as [E%bool_decide_eq_true_1 _]. constructor; cbn; try done.
  - rewrite decide_False by congruence. by rewrite decide_False in Hs by congruence.
  - rewrite decide_True by done. rewrite decide_False in Hr by congruence. case_match; lia.
Qed.

Lemma recovery_step_inv su re co ca s e :
  recovery_inv su re co ca s →
  let ok := (recovery_step s e).1 in
  recovery_inv (su + bonus (is_suspend e && ok)) (re + bonus (is_reserve e && ok))
    (co + bonus (is_commit e && ok)) (ca + bonus (is_cancel e && ok)) (recovery_step s e).2.
Proof.
  intros Hi. pose proof Hi as [[Hg Hm] Hs Hr Ht Hc].
  destruct e as [g now grace|g now tok|g now tok|tok now grace|tok|now|now]; cbn [recovery_step is_suspend
    is_reserve is_commit is_cancel andb bonus]; rewrite ?Z.add_0_r.
  - unfold Recovery_Suspend. case_if as E; cbn; rewrite ?Z.add_0_r; [done|].
    apply orb_false_iff in E as [E Et%negb_false_iff%Z.eqb_eq]. apply orb_false_iff in E as [Ea _].
    apply bool_decide_eq_false_1, dec_stable in Ea.
    rewrite decide_True in Hs by done. rewrite decide_False in Hr by congruence.
    constructor; cbn; try done. rewrite decide_False by done. lia.
  - unfold ReserveResume. case_if as E; cbn; rewrite ?Z.add_0_r; [done|].
    apply orb_false_iff in E as [E0%Z.eqb_neq E%negb_false_iff].
    apply CanResume_true in E as (Est & Et & _). rewrite Est, Et in *. rewrite decide_False in Hs by done. rewrite decide_False in Hr by done.
    constructor; cbn; rewrite ?Est, ?decide_False by done; try done. apply Z.eqb_neq in E0. rewrite E0. cbn in Hr. lia.
  - unfold CommitResume. case_if as E; cbn; rewrite ?Z.add_0_r; [done|].
    apply orb_false_iff in E as [E%negb_false_iff Eg%Z.eqb_neq].
    apply CanCommitResume_true in E as (Est & E0 & Et & _).
    rewrite Est in *. rewrite decide_False in Hs by done. rewrite decide_False in Hr by done.
    replace (rv_token s =? 0) with false in Hr by (symmetry; apply Z.eqb_neq; congruence).
    unfold UINT64_MAX in *. constructor; cbn; rewrite ?decide_True, ?decide_False by done; try lia.
    rewrite wrap_small by uint_lia. unfold UINT64_MAX. lia.
  - unfold MarkResumeCommitted. case_if as E; cbn; [done|]. by constructor.
  - unfold Recovery_CancelResume. case_if as E; cbn; rewrite ?Z.add_0_r; [done|].
    apply orb_false_iff in E as [E Es%bool_decide_eq_false_1%dec_stable].
    apply orb_false_iff in E as [E0%Z.eqb_neq Et%negb_false_iff%Z.eqb_eq].
    rewrite Es in *. rewrite decide_False in Hs by done. rewrite decide_False in Hr by done.
    replace (rv_token s =? 0) with false in Hr by (symmetry; apply Z.eqb_neq; congruence).
    constructor; cbn; rewrite ?Es, ?decide_False by done; try done. lia.
  - by apply expire_inv.
  - unfold Recovery_IsSuspended. pose proof (expire_inv su re co ca s now Hi) as He.
    by destruct (Recovery_IsExpired s now).
Qed.

Lemma recovery_run_inv es :
  recovery_inv (successes is_suspend Recovery_new es) (successes is_reserve Recovery_new es)
    (successes is_commit Recovery_new es) (successes is_cancel Recovery_new es)
    (exec recovery_step Recovery_new es).
Proof.
  induction es as [|e es IH] using rev_ind.
  { constructor; cbn; try done; unfold UINT64_MAX; lia. }
  rewrite !successes_snoc, exec_snoc. exact (recovery_step_inv _ _ _ _ _ e IH).
Qed.

(** An expired session never changes again and refuses every operation. *)
Lemma expired_absorbing s e :
  rv_state s = RecExpired → rv_token s = 0 → (recovery_step s e).2 = s ∧
  (is_suspend e || is_reserve e || is_commit e || is_cancel e = true → (recovery_step s e).1 = false).
Proof.
  intros Hs Ht. destruct e as [g now grace|g now tok|g now tok|tok now grace|tok|now|now]; cbn.
  - unfold Recovery_Suspend. by rewrite bool_decide_eq_true_2 by congruence.
  - unfold ReserveResume, CanResume. rewrite bool_decide_eq_false_2 by congruence. cbn. by rewrite orb_true_r.
  - unfold CommitResume, CanCommitResume. by rewrite bool_decide_eq_false_2 by congruence.
  - unfold MarkResumeCommitted. rewrite (bool_decide_eq_true_2 (rv_state s ≠ _)) by congruence. by rewrite orb_true_r.
  - unfold Recovery_CancelResume. rewrite (bool_decide_eq_true_2 (rv_state s ≠ _)) by congruence. by rewrite orb_true_r.
  - unfold Recovery_IsExpired. by rewrite bool_decide_eq_false_2 by congruence.
  - unfold Recovery_IsSuspended, Recovery_IsExpired. by rewrite bool_decide_eq_false_2 by congruence.
Qed.

Lemma exec_expired s es :
  rv_state s = RecExpired → rv_token s = 0 →
  exec recovery_step s es = s ∧ successes is_commit s es = 0 ∧ successes is_reserve s es = 0.
Proof.
  intros Hs Ht. induction es as [|e es IH]; [done|]. rewrite exec_cons. cbn [successes].
  destruct (expired_absorbing s e Hs Ht) as [E1 E2]. destruct (recovery_step s e) as [ok s'] eqn:E.
  cbn in E1, E2 |- *. subst s'. destruct IH as (-> & -> & ->). split_and!; try done.
  - destruct (is_commit e) eqn:Ec; [|done]. by rewrite E2 by (rewrite ?orb_true_r; done).
  - destruct (is_reserve e) eqn:Ec; [|done]. by rewrite E2 by (rewrite ?orb_true_r; done).
Qed.

(** ** Establish transaction *)

Inductive BeginStatus := BeginAccepted | BeginGenerationSync | BeginRejected.

Inductive FallbackReason :=
  | FrResumeDisabled | FrIneligibleCarrier | FrLookupMiss | FrBeginRejected | FrOtherResumeFailure.

Inductive FallbackDecision := FallbackFresh | FallbackReject.

Definition DecideSessionResumeFallback (reason : FallbackReason) : FallbackDecision :=
  match reason with FrResumeDisabled => FallbackFresh | _ => FallbackReject end.

Inductive TransactionOutcome := TxResumed | TxRejected | TxPreserveSuspended | TxFatal.

Record TransactionResult := mkTxResult {
  tr_outcome : TransactionOutcome;
  tr_fallback_reason : FallbackReason
}.

Class EstablishOperations (W : Type) := {
  op_ReadControl : W → bool * SessionResumeControl * W;
  op_SendControl : SessionResumeControl → W → bool * W;
  op_Begin : SessionResumeControl → W → BeginStatus * Z * SessionResumeControl * W;
  op_Commit : SessionResumeControl → Z → W → bool * SessionResumeControl * W;
  op_Publish : Z → W → bool * W;
  op_Cancel : Z → W → W
}.

Section transaction.
Context {W : Type} `{!EstablishOperations W}.

(** The part of an attempt that follows an accepted Begin. *)
Definition establish_accepted (token : Z) (response : SessionResumeControl) (result : TransactionResult) (w : W)
    : TransactionResult * W :=
  let '(ok, w) := op_SendControl response w in
  if negb ok then (result, op_Cancel token w)
  else
    let '(ok, confirm, w) := op_ReadControl w in
    if negb ok then (result, op_Cancel token w)
    else
      let '(ok, committed, w) := op_Commit confirm token w in
      if negb ok then (result, op_Cancel token w)
      else
        let '(ok, w) := op_SendControl committed w in
        if negb ok then
          let w := op_Cancel token w in
          (mkTxResult TxPreserveSuspended (tr_fallback_reason result), w)
        else
          let '(ok, w) := op_Publish token w in
          if negb ok then
            let w := op_Cancel token w in
            (mkTxResult TxFatal (tr_fallback_reason result), w)
          else (mkTxResult TxResumed (tr_fallback_reason result), w).

(** The loop [for (attempt = 0; attempt < 2; ++attempt)], with [n] attempts left. *)
Fixpoint establish_loop (n : nat) (attempt : Z) (result : TransactionResult) (w : W) : TransactionResult * W :=
  match n with
  | O => (result, w)
  | S n =>
      let '(ok, request, w) := op_ReadControl w in
      if negb ok then (mkTxResult (tr_outcome result) FrLookupMiss, w)
      else
        let '(status, token, response, w) := op_Begin request w in
        match status with
        | BeginRejected => (mkTxResult (tr_outcome result) FrBeginRejected, w)
        | BeginGenerationSync =>
            let '(sent, w) := op_SendControl response w in
            if negb sent || negb (attempt =? 0) then (result, w)
            else establish_loop n (attempt + 1) result w
        | BeginAccepted => establish_accepted token response result w
        end
  end.

Definition RunSessionResumeEstablishTransaction (w : W) : TransactionResult * W :=
  establish_loop 2 0 (mkTxResult TxRejected FrOtherResumeFailure) w.
End transaction.

(** ** Traces

    Any implementation of the operations, instrumented with the list of the calls made and
    their results, newest first. *)

Inductive EstablishEvent :=
  | EvRead (ok : bool)
  | EvSend (control : SessionResumeControl) (ok : bool)
  | EvBegin (status : BeginStatus) (token : Z) (response : SessionResumeControl)
  | EvCommit (token : Z) (ok : bool) (committed : SessionResumeControl)
  | EvPublish (token : Z) (ok : bool)
  | EvCancel (token : Z).

#[global] Instance traced {W} (ops : EstablishOperations W) : EstablishOperations (W * list EstablishEvent) := {
  op_ReadControl := λ '(w, tr), let '(ok, c, w) := op_ReadControl w in (ok, c, (w, EvRead ok :: tr));
  op_SendControl := λ c '(w, tr), let '(ok, w) := op_SendControl c w in (ok, (w, EvSend c ok :: tr));
  op_Begin := λ c '(w, tr), let '(st, token, r, w) := op_Begin c w in (st, token, r, (w, EvBegin st token r :: tr));
  op_Commit := λ c token '(w, tr),
    let '(ok, r, w) := op_Commit c token w in (ok, r, (w, EvCommit token ok r :: tr));
  op_Publish := λ token '(w, tr), let '(ok, w) := op_Publish token w in (ok, (w, EvPublish token ok :: tr));
  op_Cancel := λ token '(w, tr), (op_Cancel token w, EvCancel token :: tr)
}.

(** Instrumentation changes nothing. *)
Lemma traced_faithful {W} (ops : EstablishOperations W) (w : W) tr :
  let r := RunSessionResumeEstablishTransaction (w, tr) in
  RunSessionResumeEstablishTransaction w = (r.1, r.2.1).
Proof.
  unfold RunSessionResumeEstablishTransaction, establish_loop, establish_accepted.
  cbn [op_ReadControl op_SendControl op_Begin op_Commit op_Publish op_Cancel traced].
  repeat (case_match; simplify_eq/=; try done).
Qed.

Definition is_accept (token : Z) (e : EstablishEvent) : bool :=
  match e with EvBegin BeginAccepted t _ => t =? token | _ => false end.
Definition is_settlement (token : Z) (e : EstablishEvent) : bool :=
  match e with EvCancel t => t =? token | EvPublish t true => t =? token | _ => false end.
Definition is_publish (e : EstablishEvent) : bool := match e with EvPublish _ _ => true | _ => false end.
Definition is_begin_event (e : EstablishEvent) : bool := match e with EvBegin _ _ _ => true | _ => false end.

Definition count_events (P : EstablishEvent → bool) (tr : list EstablishEvent) : nat :=
  length (filter (λ e, P e = true) tr).

Lemma count_events_cons P e tr :
  count_events P (e :: tr) = ((if P e then 1 else 0) + count_events P tr)%nat.
Proof. unfold count_events. rewrite filter_cons. by destruct (P e). Qed.

Lemma count_events_nil P : count_events P [] = 0%nat.
Proof. done. Qed.

Ltac count_trace :=
  rewrite ?count_events_cons, ?count_events_nil; cbn;
  repeat match goal with |- context [?a =? ?b] => destruct (a =? b) end; cbn; lia || done.

(** The shape of a finished trace, newest call first, for each outcome. *)
Definition outcome_shape (outcome : TransactionOutcome) (tr : list EstablishEvent) : Prop :=
  match outcome with
  | TxResumed => ∃ t r c rest,
      tr = EvPublish t true :: EvSend c true :: EvCommit t true c :: EvRead true :: EvSend r true ::
           EvBegin BeginAccepted t r :: rest
  | TxPreserveSuspended => ∃ t c rest, tr = EvCancel t :: EvSend c false :: EvCommit t true c :: rest
  | TxFatal => ∃ t c rest,
      tr = EvCancel t :: EvPublish t false :: EvSend c true :: EvCommit t true c :: rest
  | TxRejected => count_events is_publish tr = 0%nat
  end.

(** The same, read off the trace: a publication that succeeded or failed, and a committed control that could not be sent. *)
Definition published (ok : bool) (tr : list EstablishEvent) : bool :=
  existsb (λ e, match e with EvPublish _ b => Bool.eqb b ok | _ => false end) tr.
Fixpoint committed_unsent (tr : list EstablishEvent) : bool :=
  match tr with
  | [] => false
  | e :: l => match e, l with EvSend _ false, EvCommit _ true _ :: _ => true | _, _ => committed_unsent l end
  end.
Definition outcome_exact (outcome : TransactionOutcome) (tr : list EstablishEvent) : Prop :=
  (outcome = TxResumed ↔ published true tr = true) ∧ (outcome = TxFatal ↔ published false tr = true) ∧
  (outcome = TxPreserveSuspended ↔ committed_unsent tr = true).
Definition untouched (tr : list EstablishEvent) : Prop :=
  published true tr = false ∧ published false tr = false ∧ committed_unsent tr = false.

Section traces.
Context {W : Type} (ops : EstablishOperations W).

(** The shapes of the loop and of the accepted transaction, read off. *)
Lemma establish_accepted_exact token response result (w : W) tr :
  tr_outcome result = TxRejected → untouched tr →
  let r := establish_accepted token response result (w, EvBegin BeginAccepted token response :: tr) in
  outcome_exact (tr_outcome r.1) r.2.2.
Proof.
  intros Hr (H1 & H2 & H3). unfold published in H1, H2. unfold establish_accepted, outcome_exact, published.
  cbn [op_ReadControl op_SendControl op_Begin op_Commit op_Publish op_Cancel traced].
  destruct (op_SendControl response w) as [[] w1]; cbn [negb fst snd]; [|rewrite Hr; cbn; by rewrite H1, H2, H3].
  destruct (op_ReadControl w1) as [[[] confirm] w2]; cbn [negb fst snd]; [|rewrite Hr; cbn; by rewrite H1, H2, H3].
  destruct (op_Commit confirm token w2) as [[[] committed] w3]; cbn [negb fst snd]; [|rewrite Hr; cbn; by rewrite H1, H2, H3].
  destruct (op_SendControl committed w3) as [[] w4]; cbn [negb fst snd tr_outcome]; [|cbn; by rewrite H1, H2].
  destruct (op_Publish token w4) as [[] w5]; cbn; by rewrite ?H1, ?H2, ?H3.
Qed.
Lemma establish_loop_exact n attempt result (w : W) tr :
  tr_outcome result = TxRejected → untouched tr →
  let r := establish_loop n attempt result (w, tr) in outcome_exact (tr_outcome r.1) r.2.2.
Proof.
  revert attempt w tr. induction n as [|n IH]; intros attempt w tr Hr H; cbn [establish_loop].
  { destruct H as (H1 & H2 & H3). unfold outcome_exact, published in *. cbn. by rewrite Hr, H1, H2, H3. }
  cbn [op_ReadControl op_SendControl op_Begin traced].
  destruct (op_ReadControl w) as [[[] request] w1]; cbn [negb fst snd tr_outcome].
  2: { destruct H as (H1 & H2 & H3). unfold outcome_exact, published in *. cbn. by rewrite Hr, H1, H2, H3. }
  destruct (op_Begin request w1) as [[[[] token] response] w2]; cbn [fst snd tr_outcome].
  - by apply establish_accepted_exact.
  - destruct (op_SendControl response w2) as [sent w3].
    assert (untouched (EvSend response sent :: EvBegin BeginGenerationSync token response :: EvRead true :: tr)) as H' by (by destruct sent).
    case_if as E; cbn [fst snd]; [|by apply IH].
    destruct H' as (H1 & H2 & H3). unfold outcome_exact. cbn [tr_outcome]. by rewrite Hr, H1, H2, H3.
  - destruct H as (H1 & H2 & H3). unfold outcome_exact, published in *. cbn. by rewrite Hr, H1, H2, H3.
Qed.

Lemma establish_accepted_trace token response result (w : W) tr :
  tr_outcome result = TxRejected → count_events is_publish tr = 0%nat →
  (∀ t, count_events (is_accept t) tr = count_events (is_settlement t) tr) →
  let r := establish_accepted token response result (w, EvBegin BeginAccepted token response :: tr) in
  outcome_shape (tr_outcome r.1) r.2.2 ∧
  (∀ t, count_events (is_accept t) r.2.2 = count_events (is_settlement t) r.2.2) ∧
  count_events is_begin_event r.2.2 = S (count_events is_begin_event tr).
Proof.
  intros Hr Hp Hs. unfold establish_accepted.
  cbn [op_ReadControl op_SendControl op_Begin op_Commit op_Publish op_Cancel traced].
  destruct (op_SendControl response w) as [[] w1]; cbn [negb fst snd]; cycle 1.
  { rewrite Hr. split_and!; [cbn; count_trace|intros t; specialize (Hs t); count_trace|count_trace]. }
  destruct (op_ReadControl w1) as [[[] confirm] w2]; cbn [negb fst snd]; cycle 1.
  { rewrite Hr. split_and!; [cbn; count_trace|intros t; specialize (Hs t); count_trace|count_trace]. }
  destruct (op_Commit confirm token w2) as [[[] committed] w3]; cbn [negb fst snd]; cycle 1.
  { rewrite Hr. split_and!; [cbn; count_trace|intros t; specialize (Hs t); count_trace|count_trace]. }
  destruct (op_SendControl committed w3) as [[] w4]; cbn [negb fst snd tr_outcome]; cycle 1.
  { split_and!; [cbn; eauto|intros t; specialize (Hs t); count_trace|count_trace]. }
  destruct (op_Publish token w4) as [[] w5]; cbn [negb fst snd tr_outcome].
  - split_and!; [cbn; by eauto 10|intros t; specialize (Hs t); count_trace|count_trace].
  - split_and!; [cbn; eauto|intros t; specialize (Hs t); count_trace|count_trace].
Qed.

Lemma establish_loop_trace n attempt result (w : W) tr :
  tr_outcome result = TxRejected → count_events is_publish tr = 0%nat →
  (∀ t, count_events (is_accept t) tr = count_events (is_settlement t) tr) →
  let r := establish_loop n attempt result (w, tr) in
  outcome_shape (tr_outcome r.1) r.2.2 ∧
  (∀ t, count_events (is_accept t) r.2.2 = count_events (is_settlement t) r.2.2) ∧
  (count_events is_begin_event r.2.2 ≤ n + count_events is_begin_event tr)%nat.
Proof.
  revert attempt w tr. induction n as [|n IH]; intros attempt w tr Hr Hp Hs; cbn [establish_loop].
  { cbn. rewrite Hr. done. }
  cbn [op_ReadControl op_SendControl op_Begin traced].
  destruct (op_ReadControl w) as [[[] request] w1]; cbn [negb fst snd tr_outcome]; cycle 1.
  { rewrite Hr. split_and!; [cbn; count_trace|intros t; specialize (Hs t); count_trace|count_trace]. }
  destruct (op_Begin request w1) as [[[[] token] response] w2]; cbn [fst snd tr_outcome].
  - destruct (establish_accepted_trace token response result w2 (EvRead true :: tr) Hr) as (H1 & H2 & H3).
    { count_trace. }
    { intros t. specialize (Hs t). count_trace. }
    split_and!; [done|done|]. rewrite H3. count_trace.
  - destruct (op_SendControl response w2) as [sent w3]. case_if as E; cbn [fst snd].
    + rewrite Hr. split_and!; [cbn; count_trace|intros t; specialize (Hs t); count_trace|count_trace].
    + edestruct (IH (attempt + 1) w3 (EvSend response sent :: EvBegin BeginGenerationSync token response ::
        EvRead true :: tr) Hr) as (H1 & H2 & H3).
      { count_trace. }
      { intros t. specialize (Hs t). count_trace. }
      split_and!; [done|done|]. revert H3. rewrite !count_events_cons. cbn. lia.
  - rewrite Hr. split_and!; [cbn; count_trace|intros t; specialize (Hs t); count_trace|count_trace].
Qed.
End traces.

(** ** Properties *)

(** For every sequence of calls on a session's recovery state: the carrier generation is one
    plus the number of successful commits; every suspension is either ended by exactly one commit
    or still open; every reservation is settled at most once (commit, cancel or expiry) and at
    most one is outstanding, only while Suspended; and once Expired the state never changes again
    and no later reservation or commit succeeds. *)
Theorem recovery_ledger es :
  let s := exec recovery_step Recovery_new es in
  let n P := successes P Recovery_new es in
  rv_generation s = 1 + n is_commit ∧
  n is_suspend = n is_commit + (if decide (rv_state s = RecActive) then 0 else 1) ∧
  (rv_state s ≠ RecExpired →
     n is_reserve = n is_commit + n is_cancel + (if HasResumeReservation s then 1 else 0)) ∧
  (HasResumeReservation s = true → rv_state s = RecSuspended) ∧
  (rv_state s = RecExpired → ∀ es',
     exec recovery_step s es' = s ∧ successes is_commit s es' = 0 ∧ successes is_reserve s es' = 0).
Proof.
  intros s n. destruct (recovery_run_inv es) as [[Hg _] Hs Hr Ht _]. fold s in Hg, Hs, Hr, Ht.
  unfold HasResumeReservation. split_and!; [done|done| | |].
  - intros He. rewrite decide_False in Hr by done. unfold n. rewrite Hr. by destruct (rv_token s =? 0).
  - intros H%negb_true_iff%Z.eqb_neq. by apply Ht.
  - intros He es'. rewrite decide_True in Hr by done. apply exec_expired; [done|by destruct Hr].
Qed.

(** C33: Whatever the carrier and the exchanger answer, a resume transaction makes at most two
    Begin calls, settles every reservation a Begin accepted exactly once (a successful Publish
    or a Cancel of the same token), and publishes only after the matching Commit succeeded and
    its committed control was sent: the outcome is Resumed if and only if a Publish succeeded, which is the last call,
    PreserveSuspended if and only if the control of a successful Commit could not be sent,
    Fatal if and only if a Publish failed, and a Rejected transaction published nothing. *)
Theorem establish_settles {W} (ops : EstablishOperations W) (w : W) :
  let r := RunSessionResumeEstablishTransaction (w, ([] : list EstablishEvent)) in
  let trace := r.2.2 in
  outcome_shape (tr_outcome r.1) trace ∧
  ((tr_outcome r.1 = TxResumed ↔ published true trace = true) ∧ (tr_outcome r.1 = TxFatal ↔ published false trace = true) ∧
   (tr_outcome r.1 = TxPreserveSuspended ↔ committed_unsent trace = true)) ∧
  (∀ t, count_events (is_accept t) trace = count_events (is_settlement t) trace) ∧
  (count_events is_begin_event trace ≤ 2)%nat.
Proof.
  destruct (establish_loop_trace ops 2 0 (mkTxResult TxRejected FrOtherResumeFailure) w []) as (H1 & H2 & H3); [done..|].
  split; [exact H1|]. split; [by apply (establish_loop_exact ops 2 0 _ w [])|]. split; [exact H2|exact H3].
Qed.
