(* ===== verification/SessionExchanger.v ===== *)
(** Session recovery inside the server's exchanger
    ([src/ppp/app/server/VirtualEthernetExchanger.cpp]): the fresh offer that arms recovery, the
    resume operations that bind a new carrier, the suspension of a lost carrier and finalization.

    Each critical section of [carrier_mutex_] is one step, except that the two of [CommitResume]
    run back to back (the second repeats every check of the first).  A carrier ([ITransmission]) is the
    record of the facts the code reads from it, identified by [ca_id]; the exporter's output, the
    random nonces, the clock and the replacement echo helper are arguments ([None] where the call
    fails).  Configuration is present; traffic statistics, telemetry, mux and static echo are
    left out.  [Finalize] is one step.  [hmac] is OpenSSL's HMAC-SHA256. *)

From S2P Require Import Prelude SessionControl SessionRecovery.

(** ** Carriers *)

Inductive AuthenticatedCarrierKind := KindNone | KindTcp | KindWebSocket | KindTlsWebSocket.
Inductive AuthenticatedCarrierMethod := MethodNone | MethodNoisePskV1 | MethodTlsExporterV1.

#[global] Instance AuthenticatedCarrierKind_eq_dec : EqDecision AuthenticatedCarrierKind.
Proof. solve_decision. Defined.
#[global] Instance AuthenticatedCarrierMethod_eq_dec : EqDecision AuthenticatedCarrierMethod.
Proof. solve_decision. Defined.

Record Carrier := mkCarrier {
  ca_id : Z;
  ca_same_context : bool;
  ca_loopback : bool;
  ca_binding_active : bool;
  ca_has_exporter : bool;
  ca_kind : AuthenticatedCarrierKind;
  ca_method : AuthenticatedCarrierMethod
}.

Definition authenticated_pairing (c : Carrier) : bool :=
  (bool_decide (ca_kind c = KindTlsWebSocket) && bool_decide (ca_method c = MethodTlsExporterV1)) ||
  ((bool_decide (ca_kind c = KindTcp) || bool_decide (ca_kind c = KindWebSocket)) &&
   bool_decide (ca_method c = MethodNoisePskV1)).

Definition IsConfiguredRecoveryCarrier (enabled : bool) (c : Carrier) : bool :=
  if negb enabled || ca_loopback c || negb (ca_binding_active c) || negb (ca_has_exporter c) then false
  else authenticated_pairing c.

Definition IsRecoveryCapableCarrier (enabled : bool) (c : Carrier) : bool :=
  if negb enabled || ca_loopback c then false else authenticated_pairing c.

Definition IsEligibleRecoveryCarrier (enabled : bool) (c : Carrier) : bool :=
  IsConfiguredRecoveryCarrier enabled c.

(** ** State *)

Record Exchanger := mkExchanger {
  xe_disposed : bool;
  xe_session_id : list Z;
  xe_recovery : SessionRecoveryState;
  xe_transmission : option Z;
  xe_retained_root : option (list Z);
  xe_armed : bool;
  xe_pending_root : option (list Z);
  xe_pending_nonce : list Z;
  xe_pending_transmission : option Z;
  xe_pending_deadline : Z;
  xe_attempt_active : bool;
  xe_attempt : SessionResumeTranscriptFields;
  xe_candidate : option Z;
  xe_replacement_echo : option Z;
  xe_echo : option Z;
  xe_relay : option Z;            (* the carrier the datagram manager is bound to *)
  xe_next_token : Z;
  xe_disposed_echoes : list Z
}.

Definition Exchanger_new (session_id : list Z) (carrier : Z) (echo : option Z) : Exchanger :=
  mkExchanger false session_id Recovery_new (Some carrier) None false None (zeros 32) None 0 false
    Fields_new None None echo (Some carrier) 0 [].

(** Assignments to groups of members. *)
Definition set_recovery (x : Exchanger) (r : SessionRecoveryState) : Exchanger :=
  mkExchanger (xe_disposed x) (xe_session_id x) r (xe_transmission x) (xe_retained_root x) (xe_armed x)
    (xe_pending_root x) (xe_pending_nonce x) (xe_pending_transmission x) (xe_pending_deadline x)
    (xe_attempt_active x) (xe_attempt x) (xe_candidate x) (xe_replacement_echo x) (xe_echo x) (xe_relay x)
    (xe_next_token x) (xe_disposed_echoes x).

Definition set_pending (x : Exchanger) (root : option (list Z)) (nonce : list Z) (c : option Z) (deadline : Z)
    : Exchanger :=
  mkExchanger (xe_disposed x) (xe_session_id x) (xe_recovery x) (xe_transmission x) (xe_retained_root x) (xe_armed x)
    root nonce c deadline
    (xe_attempt_active x) (xe_attempt x) (xe_candidate x) (xe_replacement_echo x) (xe_echo x) (xe_relay x)
    (xe_next_token x) (xe_disposed_echoes x).

Definition clear_pending (x : Exchanger) : Exchanger := set_pending x None (zeros 32) None 0.

Definition set_root (x : Exchanger) (root : option (list Z)) (armed : bool) : Exchanger :=
  mkExchanger (xe_disposed x) (xe_session_id x) (xe_recovery x) (xe_transmission x) root armed
    (xe_pending_root x) (xe_pending_nonce x) (xe_pending_transmission x) (xe_pending_deadline x)
    (xe_attempt_active x) (xe_attempt x) (xe_candidate x) (xe_replacement_echo x) (xe_echo x) (xe_relay x)
    (xe_next_token x) (xe_disposed_echoes x).

Definition set_attempt (x : Exchanger) (active : bool) (f : SessionResumeTranscriptFields) (c : option Z) : Exchanger :=
  mkExchanger (xe_disposed x) (xe_session_id x) (xe_recovery x) (xe_transmission x) (xe_retained_root x) (xe_armed x)
    (xe_pending_root x) (xe_pending_nonce x) (xe_pending_transmission x) (xe_pending_deadline x)
    active f c (xe_replacement_echo x) (xe_echo x) (xe_relay x)
    (xe_next_token x) (xe_disposed_echoes x).

(** [resume_attempt_.Clear()] and [resume_candidate_.reset()]. *)
Definition clear_attempt (x : Exchanger) : Exchanger := set_attempt x false Fields_new None.

Definition set_next_token (x : Exchanger) (t : Z) : Exchanger :=
  mkExchanger (xe_disposed x) (xe_session_id x) (xe_recovery x) (xe_transmission x) (xe_retained_root x) (xe_armed x)
    (xe_pending_root x) (xe_pending_nonce x) (xe_pending_transmission x) (xe_pending_deadline x)
    (xe_attempt_active x) (xe_attempt x) (xe_candidate x) (xe_replacement_echo x) (xe_echo x) (xe_relay x)
    t (xe_disposed_echoes x).

Definition set_echoes (x : Exchanger) (replacement echo : option Z) (disposed : list Z) : Exchanger :=
  mkExchanger (xe_disposed x) (xe_session_id x) (xe_recovery x) (xe_transmission x) (xe_retained_root x) (xe_armed x)
    (xe_pending_root x) (xe_pending_nonce x) (xe_pending_transmission x) (xe_pending_deadline x)
    (xe_attempt_active x) (xe_attempt x) (xe_candidate x) replacement echo (xe_relay x)
    (xe_next_token x) disposed.

Definition set_carrier (x : Exchanger) (c relay : option Z) : Exchanger :=
  mkExchanger (xe_disposed x) (xe_session_id x) (xe_recovery x) c (xe_retained_root x) (xe_armed x)
    (xe_pending_root x) (xe_pending_nonce x) (xe_pending_transmission x) (xe_pending_deadline x)
    (xe_attempt_active x) (xe_attempt x) (xe_candidate x) (xe_replacement_echo x) (xe_echo x) relay
    (xe_next_token x) (xe_disposed_echoes x).

Definition set_disposed (x : Exchanger) : Exchanger :=
  mkExchanger true (xe_session_id x) (xe_recovery x) (xe_transmission x) (xe_retained_root x) (xe_armed x)
    (xe_pending_root x) (xe_pending_nonce x) (xe_pending_transmission x) (xe_pending_deadline x)
    (xe_attempt_active x) (xe_attempt x) (xe_candidate x) (xe_replacement_echo x) (xe_echo x) (xe_relay x)
    (xe_next_token x) (xe_disposed_echoes x).

(** Disposing an echo helper, if there is one. *)
Definition dispose_echo (e : option Z) (disposed : list Z) : list Z :=
  match e with Some e => e :: disposed | None => disposed end.

Section exchanger.
Context (hmac : list Z → list Z → option (list Z)) (enabled : bool) (grace_ms : Z).

(** ** Fresh offer *)

(** The guard shared by the operations a new carrier starts. *)
Definition refuses_carrier (x : Exchanger) (c : option Carrier) : bool :=
  match c with
  | None => true
  | Some c => xe_disposed x || negb (ca_same_context c) || negb (IsEligibleRecoveryCarrier enabled c)
  end.

Definition PrepareFreshResumeOffer (x : Exchanger) (c : option Carrier) (root nonce : option (list Z))
    (connect_timeout now : Z) : option SessionResumeControl * Exchanger :=
  if refuses_carrier x c || IsZero (xe_session_id x) then (None, x)
  else
    match c, root, nonce with
    | Some c, Some root, Some nonce =>
        let timeout := Z.max 1 connect_timeout * 1000 in
        let deadline := saturating_deadline now timeout in
        if xe_disposed x || bool_decide (xe_transmission x ≠ Some (ca_id c)) ||
           bool_decide (rv_state (xe_recovery x) ≠ RecActive) || xe_armed x ||
           bool_decide (is_Some (xe_pending_root x)) || bool_decide (is_Some (xe_pending_transmission x)) ||
           xe_attempt_active x
        then (None, x)
        else
          (Some (mkControl ProtocolVersion ActOffer CapabilityV1 (EncodeLowerHex (xe_session_id x)) 0 ""
                   (EncodeLowerHex nonce) "" "" ""),
           set_pending x (Some root) nonce (Some (ca_id c)) deadline)
    | _, _, _ => (None, x)
    end.

Definition decode_accepted (x : Exchanger) (other_extensions : bool) (r : SessionResumeControl)
    : option (SessionResumeTranscriptFields * list Z) :=
  if negb other_extensions && Control_Valid r && (sc_version r =? ProtocolVersion) &&
     bool_decide (sc_action r = ActAccepted) && (sc_capabilities r =? CapabilityV1) &&
     bool_decide (sc_session_id r = EncodeLowerHex (xe_session_id x)) && (sc_generation r =? 0) &&
     is_empty (sc_candidate_binding r) && is_empty (sc_reason r)
  then
    match DecodeLowerHex 32 (sc_client_nonce r), DecodeLowerHex 32 (sc_server_nonce r),
          DecodeLowerHex 32 (sc_proof r) with
    | Some cn, Some sn, Some p =>
        if negb (IsZero cn) && negb (IsZero sn)
        then Some (mkFields ActAccepted (sc_capabilities r) (xe_session_id x) (sc_generation r) cn sn (zeros 32), p)
        else None
    | _, _, _ => None
    end
  else None.

(** The Accepted branch of [OnInformation]. *)
Definition AcceptFreshResume (x : Exchanger) (c : Z) (other_extensions : bool) (r : SessionResumeControl) (now : Z)
    : bool * Exchanger :=
  let verified :=
    match decode_accepted x other_extensions r with
    | Some (f, p) =>
        bool_decide (tf_server_nonce f = xe_pending_nonce x) && VerifySessionResumeProof hmac (xe_pending_root x) f p
    | None => false
    end in
  let ok :=
    negb (xe_disposed x) && bool_decide (xe_transmission x = Some c) &&
    bool_decide (xe_pending_transmission x = Some c) && bool_decide (is_Some (xe_pending_root x)) &&
    negb (bool_decide (is_Some (xe_retained_root x))) && negb (xe_armed x) &&
    negb (xe_pending_deadline x =? 0) && (now <? xe_pending_deadline x) && verified in
  let x' := if ok then set_root x (xe_pending_root x) true else x in
  (ok, if decide (xe_pending_transmission x = Some c) then clear_pending x' else x').

(** The maintenance section of [Update]. *)
Definition ExpireFreshOffer (x : Exchanger) (now : Z) : Exchanger :=
  if negb (xe_pending_deadline x =? 0) && (xe_pending_deadline x <=? now) then clear_pending x else x.

(** A resume request that reaches an established carrier. *)
Definition restart_probe (x : Exchanger) (other_extensions : bool) (r : SessionResumeControl) : bool :=
  negb other_extensions && Control_Valid r && (sc_version r =? ProtocolVersion) &&
  bool_decide (sc_action r = ActResumeRequest) && (sc_capabilities r =? CapabilityV1) &&
  bool_decide (sc_session_id r = EncodeLowerHex (xe_session_id x)) && is_empty (sc_reason r).

(** [OnInformation] on a message with a resume control; [None] when it carries none, and the rest
    of the handler, which leaves this state alone, takes the message. *)
Definition OnResumeInformation (x : Exchanger) (c : Z) (transport_auth other_extensions : bool)
    (r : SessionResumeControl) (now : Z) : option bool * Exchanger :=
  if xe_disposed x || transport_auth then (Some false, x)
  else if negb (Control_HasAny r) then (None, x)
  else if restart_probe x other_extensions r then (Some true, ExpireFreshOffer x now)
  else let '(accepted, x) := AcceptFreshResume x c other_extensions r now in (Some accepted, x).

(** ** Resume *)

Inductive ResumeBeginStatus := ResumeReserved | ResumeGenerationSync | ResumeRejected.

(** [do { ++next_resume_token_; } while (next_resume_token_ == 0);] *)
Definition next_token (t : Z) : Z := if (t +[64] 1) =? 0 then (t +[64] 1) +[64] 1 else t +[64] 1.

Definition BeginResume (x : Exchanger) (c : option Carrier) (request : SessionResumeControl)
    (candidate : list Z) (now : Z) (nonce : option (list Z))
    : ResumeBeginStatus * Z * SessionResumeControl * Exchanger :=
  let rejected x := (ResumeRejected, 0, Control_Clear, x) in
  match c with
  | None => rejected x
  | Some c =>
      if refuses_carrier x (Some c) then rejected x
      else
        match DecodeResumeControl request ActResumeRequest (xe_session_id x) with
        | None => rejected x
        | Some (req, req_proof) =>
            if bool_decide (tf_candidate_binding req ≠ candidate) || negb (IsZero (tf_server_nonce req)) then rejected x
            else if xe_disposed x || negb (xe_armed x) || negb (bool_decide (is_Some (xe_retained_root x))) ||
                    bool_decide (is_Some (xe_transmission x)) || xe_attempt_active x then rejected x
            else
              let '(suspended, recovery) := Recovery_IsSuspended (xe_recovery x) now in
              let x := set_recovery x recovery in
              if negb suspended || negb (VerifySessionResumeProof hmac (xe_retained_root x) req req_proof)
              then rejected x
              else
                let action := if tf_generation req =? rv_generation (xe_recovery x)
                              then ActResumeAccept else ActGenerationSync in
                match (if decide (action = ActResumeAccept) then nonce else Some (zeros 32)) with
                | None => rejected x
                | Some server_nonce =>
                    let f := mkFields action CapabilityV1 (xe_session_id x) (rv_generation (xe_recovery x))
                               (tf_client_nonce req) server_nonce (tf_candidate_binding req) in
                    match ComputeSessionResumeProof hmac (xe_retained_root x) f with
                    | None => rejected x
                    | Some proof =>
                        if decide (action = ActGenerationSync)
                        then (ResumeGenerationSync, 0, FillResumeControl f proof, x)
                        else
                          let token := next_token (xe_next_token x) in
                          let x := set_next_token x token in
                          let '(reserved, recovery) := ReserveResume (xe_recovery x) (tf_generation f) now token in
                          if negb reserved then rejected x
                          else
                            (ResumeReserved, token, FillResumeControl f proof,
                             set_attempt (set_recovery x recovery) true f (Some (ca_id c)))
                    end
                end
        end
  end.

Definition kResumePublishGraceMs : Z := 10000.

(** What both critical sections of [CommitResume] check. *)
Definition commit_matches (x : Exchanger) (c : Carrier) (confirm : SessionResumeTranscriptFields)
    (proof : list Z) (token now : Z) : bool :=
  let accepted := xe_attempt x in
  negb (xe_disposed x) && bool_decide (xe_candidate x = Some (ca_id c)) && xe_attempt_active x &&
  bool_decide (xe_transmission x = None) && bool_decide (xe_replacement_echo x = None) &&
  CanCommitResume (xe_recovery x) (tf_generation accepted) now token &&
  (tf_generation confirm =? tf_generation accepted) &&
  bool_decide (tf_client_nonce confirm = tf_client_nonce accepted) &&
  bool_decide (tf_server_nonce confirm = tf_server_nonce accepted) &&
  bool_decide (tf_candidate_binding confirm = tf_candidate_binding accepted) &&
  VerifySessionResumeProof hmac (xe_retained_root x) confirm proof.

(** The second critical section: prepares the committed control and the replacement echo. *)
Definition commit_prepare (x : Exchanger) (c : Carrier) (confirm : SessionResumeTranscriptFields)
    (proof : list Z) (token now echo : Z) : option SessionResumeControl * Exchanger :=
  let accepted := xe_attempt x in
  if commit_matches x c confirm proof token now && negb (tf_generation accepted =? UINT64_MAX) then
    let f := mkFields ActResumeCommitted (tf_capabilities accepted) (tf_session_id accepted)
               (tf_generation accepted +[64] 1) (tf_client_nonce accepted) (tf_server_nonce accepted)
               (tf_candidate_binding accepted) in
    match ComputeSessionResumeProof hmac (xe_retained_root x) f with
    | None => (None, x)
    | Some committed_proof =>
        let committed := FillResumeControl f committed_proof in
        if negb (Control_Valid committed) then (None, x)
        else
          let '(marked, recovery) := MarkResumeCommitted (xe_recovery x) token now kResumePublishGraceMs in
          if negb marked then (None, x)
          else (Some committed, set_echoes (set_recovery x recovery) (Some echo) (xe_echo x) (xe_disposed_echoes x))
    end
  else (None, x).

(** [echo] is the new helper, [None] when it cannot be made; [clock] is the tick count read
    between the two critical sections. *)
Definition Exchanger_CommitResume (x : Exchanger) (c : option Carrier) (confirm : SessionResumeControl)
    (candidate : list Z) (token now clock : Z) (echo : option Z) : option SessionResumeControl * Exchanger :=
  match c with
  | None => (None, x)
  | Some c =>
      if (token =? 0) || refuses_carrier x (Some c) then (None, x)
      else
        match DecodeResumeControl confirm ActResumeConfirm (xe_session_id x) with
        | None => (None, x)
        | Some (f, p) =>
            if bool_decide (tf_candidate_binding f ≠ candidate) then (None, x)
            else if negb (commit_matches x c f p token now) then (None, x)
            else
              match echo with
              | None => (None, x)
              | Some e =>
                  let '(committed, x') := commit_prepare x c f p token (Z.max now clock) e in
                  match committed with
                  | Some m => (Some m, x')
                  | None => (None, set_echoes x' (xe_replacement_echo x') (xe_echo x') (e :: xe_disposed_echoes x'))
                  end
              end
        end
  end.

Definition PublishCommittedResume (x : Exchanger) (c : option Z) (token now : Z) : bool * Exchanger :=
  match c with
  | None => (false, x)
  | Some c =>
      if (token =? 0) || xe_disposed x then (false, x)
      else
        let accepted := xe_attempt x in
        if negb (xe_disposed x) && bool_decide (xe_candidate x = Some c) && xe_attempt_active x &&
           bool_decide (xe_transmission x = None) && negb (bool_decide (xe_replacement_echo x = None)) &&
           CanCommitResume (xe_recovery x) (tf_generation accepted) now token
        then
          let previous_echo := xe_echo x in
          let '(resumed, recovery, x) :=
            CommitSessionResumeAndPublish (xe_recovery x) (tf_generation accepted) now token
              (λ _ x, clear_attempt (set_carrier
                        (set_echoes x None (xe_replacement_echo x) (xe_disposed_echoes x)) (Some c) (Some c))) x in
          let x := set_recovery x recovery in
          if negb resumed then (false, x)
          else (true, set_echoes x (xe_replacement_echo x) (xe_echo x)
                        (dispose_echo previous_echo (xe_disposed_echoes x)))
        else (false, x)
  end.

Definition Exchanger_CancelResume (x : Exchanger) (c : option Z) (token : Z) : Exchanger :=
  if token =? 0 then x
  else if decide (xe_candidate x = c) then
    let '(cancelled, recovery) := Recovery_CancelResume (xe_recovery x) token in
    let x := set_recovery x recovery in
    if cancelled then
      set_echoes (clear_attempt x) None (xe_echo x) (dispose_echo (xe_replacement_echo x) (xe_disposed_echoes x))
    else x
  else x.

(** ** Loss of the carrier *)

Inductive CarrierError :=
  | TunnelReadFailed | TunnelWriteFailed | SocketDisconnected | SocketReadFailed | SocketWriteFailed
  | SocketTimeout | TcpReceiveFailed | WebSocketClosed | WebSocketReadFailed | WebSocketWriteFailed
  | OtherCarrierError.

Definition is_recoverable_error (e : CarrierError) : bool :=
  match e with OtherCarrierError => false | _ => true end.

Inductive CarrierStopResult := StopSuspended | StopStale | StopTerminal.

(** [c] is the carrier whose run loop ended, never null. *)
Definition OnCarrierStopped (x : Exchanger) (c : Carrier) (generation : Z) (error : CarrierError) (now : Z)
    : CarrierStopResult * Exchanger :=
  let eligible := IsRecoveryCapableCarrier enabled c in
  let grace := if eligible then grace_ms else 0 in
  if negb (rv_generation (xe_recovery x) =? generation) || bool_decide (xe_transmission x ≠ Some (ca_id c))
  then (StopStale, x)
  else
    let guard := xe_disposed x || negb eligible || negb (xe_armed x) ||
                 negb (bool_decide (is_Some (xe_retained_root x))) || xe_attempt_active x ||
                 negb (is_recoverable_error error) in
    let '(suspended, recovery) :=
      if guard then (false, xe_recovery x) else Recovery_Suspend (xe_recovery x) generation now grace in
    let x := set_recovery x recovery in
    if negb suspended
    then (StopTerminal, clear_attempt (clear_pending (set_root x None false)))
    else
      let previous_echo := xe_echo x in
      let x := set_echoes (set_carrier (clear_pending x) None None) (xe_replacement_echo x) None
                 (dispose_echo previous_echo (xe_disposed_echoes x)) in
      (StopSuspended, x).

Definition IsRecoveryExpired (x : Exchanger) (now : Z) : bool * Exchanger :=
  let '(b, r) := Recovery_IsExpired (xe_recovery x) now in (b, set_recovery x r).

Definition Exchanger_IsSuspended (x : Exchanger) (now : Z) : bool * Exchanger :=
  let '(b, r) := Recovery_IsSuspended (xe_recovery x) now in (b, set_recovery x r).

Definition Exchanger_Finalize (x : Exchanger) : Exchanger :=
  if xe_disposed x then x
  else
    let echo := xe_echo x in
    let replacement := xe_replacement_echo x in
    let x := set_carrier (set_disposed x) None None in
    let x := clear_attempt (clear_pending (set_root x None false)) in
    set_echoes x None None (dispose_echo replacement (dispose_echo echo (xe_disposed_echoes x))).

(** ** Sequences of critical sections *)

Inductive XOp :=
  | XPrepare (c : option Carrier) (root nonce : option (list Z)) (connect_timeout now : Z)
  | XInformation (c : Z) (transport_auth other_extensions : bool) (r : SessionResumeControl) (now : Z)
  | XExpireFresh (now : Z)
  | XBegin (c : option Carrier) (request : SessionResumeControl) (candidate : list Z) (now : Z)
      (nonce : option (list Z))
  | XCommit (c : option Carrier) (confirm : SessionResumeControl) (candidate : list Z) (token now clock : Z)
      (echo : option Z)
  | XPublish (c : option Z) (token now : Z)
  | XCancel (c : option Z) (token : Z)
  | XStopped (c : Carrier) (generation : Z) (error : CarrierError) (now : Z)
  | XIsExpired (now : Z)
  | XIsSuspended (now : Z)
  | XFinalize.

Inductive XResult :=
  | XBool (b : bool)
  | XHandled (b : option bool)
  | XControl (m : option SessionResumeControl)
  | XBegun (status : ResumeBeginStatus) (token : Z) (response : SessionResumeControl)
  | XStop (r : CarrierStopResult)
  | XDone.

Definition x_step (x : Exchanger) (e : XOp) : XResult * Exchanger :=
  match e with
  | XPrepare c root nonce timeout now =>
      let '(m, x) := PrepareFreshResumeOffer x c root nonce timeout now in (XControl m, x)
  | XInformation c auth other r now =>
      let '(b, x) := OnResumeInformation x c auth other r now in (XHandled b, x)
  | XExpireFresh now => (XDone, ExpireFreshOffer x now)
  | XBegin c request candidate now nonce =>
      let '(st, token, m, x) := BeginResume x c request candidate now nonce in (XBegun st token m, x)
  | XCommit c confirm candidate token now clock echo =>
      let '(m, x) := Exchanger_CommitResume x c confirm candidate token now clock echo in (XControl m, x)
  | XPublish c token now => let '(b, x) := PublishCommittedResume x c token now in (XBool b, x)
  | XCancel c token => (XDone, Exchanger_CancelResume x c token)
  | XStopped c g error now => let '(r, x) := OnCarrierStopped x c g error now in (XStop r, x)
  | XIsExpired now => let '(b, x) := IsRecoveryExpired x now in (XBool b, x)
  | XIsSuspended now => let '(b, x) := Exchanger_IsSuspended x now in (XBool b, x)
  | XFinalize => (XDone, Exchanger_Finalize x)
  end.

(** ** Invariant *)

(** Members tied together while the exchanger is in use. *)
Record x_inv (x : Exchanger) : Prop := {
  xi_attempt : xe_attempt_active x = true → xe_transmission x = None;
  xi_echo : xe_replacement_echo x ≠ None → xe_attempt_active x = true;
  xi_suspended : rv_state (xe_recovery x) ≠ RecActive → xe_transmission x = None;
  xi_reserved : xe_disposed x = false → rv_token (xe_recovery x) ≠ 0 →
    xe_attempt_active x = true ∧ rv_state (xe_recovery x) = RecSuspended ∧
    tf_generation (xe_attempt x) = rv_generation (xe_recovery x) ∧
    rv_token (xe_recovery x) = xe_next_token x ∧ is_Some (xe_candidate x);
  xi_armed : xe_armed x = true → is_Some (xe_retained_root x)
}.

Lemma x_inv_new sid c echo : x_inv (Exchanger_new sid c echo).
Proof. constructor; cbn; done. Qed.

(** Expiry keeps the invariant: it only drops the reservation. *)
Lemma expire_recovery_inv x now :
  x_inv x → x_inv (set_recovery x (Recovery_IsExpired (xe_recovery x) now).2).
Proof.
  intros [H1 H2 H3 H4 H5]. unfold Recovery_IsExpired. cbn [snd]. case_if as E; [|constructor; cbn; done].
  apply andb_true_iff in E as [E%bool_decide_eq_true_1 _].
  constructor; cbn; try done. intros _. apply H3. congruence.
Qed.

Lemma suspended_snd s now : (Recovery_IsSuspended s now).2 = (Recovery_IsExpired s now).2.
Proof. unfold Recovery_IsSuspended. by destruct (Recovery_IsExpired s now). Qed.

Lemma suspended_fst s now :
  (Recovery_IsSuspended s now).1 = true →
  (Recovery_IsSuspended s now).2 = s ∧ rv_state s = RecSuspended ∧ now < rv_deadline s.
Proof.
  unfold Recovery_IsSuspended, Recovery_IsExpired. case_if as E; cbn [fst snd].
  - by rewrite bool_decide_eq_true_2.
  - intros (_ & Hs%bool_decide_eq_true_1)%andb_true_iff. rewrite Hs in *. split_and!; try done.
    rewrite bool_decide_eq_true_2 in E by done. cbn in E. by apply Z.leb_gt in E.
Qed.

(** A successful reservation, with everything it was granted on. *)
Record begin_granted (x : Exchanger) (c : Carrier) (request : SessionResumeControl) (candidate : list Z)
    (now : Z) (nonce : option (list Z)) (token : Z) (f : SessionResumeTranscriptFields) : Prop := {
  bg_carrier : IsEligibleRecoveryCarrier enabled c = true;
  bg_request : ∃ req proof, DecodeResumeControl request ActResumeRequest (xe_session_id x) = Some (req, proof) ∧
    tf_candidate_binding req = candidate ∧ tf_generation req = rv_generation (xe_recovery x) ∧
    VerifySessionResumeProof hmac (xe_retained_root x) req proof = true;
  bg_idle : xe_transmission x = None ∧ xe_attempt_active x = false ∧ xe_armed x = true;
  bg_state : rv_state (xe_recovery x) = RecSuspended ∧ rv_token (xe_recovery x) = 0 ∧ now < rv_deadline (xe_recovery x);
  bg_fields : tf_generation f = rv_generation (xe_recovery x) ∧ nonce = Some (tf_server_nonce f);
  bg_token : token ≠ 0 ∧ token = next_token (xe_next_token x)
}.

Lemma next_token_nonzero t : next_token t ≠ 0.
Proof.
  unfold next_token. case_if as E; [|by apply Z.eqb_neq].
  apply Z.eqb_eq in E. rewrite E. vm_compute. done.
Qed.

Lemma begin_cases x c request candidate now nonce st token m x' :
  x_inv x → BeginResume x c request candidate now nonce = (st, token, m, x') →
  (∃ f b, c = Some b ∧ st = ResumeReserved ∧ begin_granted x b request candidate now nonce token f ∧
     x' = set_attempt (set_recovery (set_next_token x token)
            (mkRecovery RecSuspended (rv_generation (xe_recovery x)) (rv_deadline (xe_recovery x)) token))
            true f (Some (ca_id b))) ∨
  (st ≠ ResumeReserved ∧ (x' = x ∨ x' = set_recovery x (Recovery_IsExpired (xe_recovery x) now).2)).
Proof.
  intros Hi. unfold BeginResume. destruct c as [c|]; [|intros [= <- _ _ <-]; right; split; [done|by left]].
  case_if as Ec; [intros [= <- _ _ <-]; right; split; [done|by left]|].
  cbn in Ec. apply orb_false_iff in Ec as [Ec Ee%negb_false_iff].
  destruct (DecodeResumeControl _ _ _) as [[req proof]|] eqn:Ed;
    [|intros [= <- _ _ <-]; right; split; [done|by left]].
  case_if as Eb; [intros [= <- _ _ <-]; right; split; [done|by left]|].
  apply orb_false_iff in Eb as [Eb%bool_decide_eq_false_1%dec_stable _].
  case_if as Eg; [intros [= <- _ _ <-]; right; split; [done|by left]|].
  apply orb_false_iff in Eg as [Eg Eact]. apply orb_false_iff in Eg as [Eg Etr%bool_decide_eq_false_1].
  apply orb_false_iff in Eg as [Eg Er%negb_false_iff%bool_decide_eq_true_1].
  apply orb_false_iff in Eg as [Edisp Earm%negb_false_iff].
  pose proof (suspended_snd (xe_recovery x) now) as Es2. pose proof (suspended_fst (xe_recovery x) now) as Es1.
  destruct (Recovery_IsSuspended (xe_recovery x) now) as [susp rec]. cbn [fst snd] in Es1, Es2.
  case_if as Ev; [intros [= <- _ _ <-]; right; split; [done|right; by rewrite <- Es2]|].
  apply orb_false_iff in Ev as [->%negb_false_iff Ev%negb_false_iff].
  destruct (Es1 eq_refl) as (-> & Hsus & Hnow). clear Es1 Es2.
  assert (set_recovery x (xe_recovery x) = x) as Ex by (by destruct x). rewrite Ex in *.
  assert (rv_token (xe_recovery x) = 0) as Htok.
  { destruct (decide (rv_token (xe_recovery x) = 0)) as [|Hne]; [done|].
    destruct (xi_reserved x Hi Edisp Hne) as (? & _). congruence. }
  destruct (tf_generation req =? rv_generation (xe_recovery x)) eqn:Egen; cycle 1.
  { rewrite decide_False by done. destruct (ComputeSessionResumeProof _ _ _); [rewrite decide_True by done|];
      intros [= <- _ _ <-]; (right; split; [done|by left]). }
  apply Z.eqb_eq in Egen.
  destruct (if decide _ then nonce else _) as [sn|] eqn:En;
    [|intros [= <- _ _ <-]; right; split; [done|by left]].
  rewrite decide_True in En by done. subst nonce.
  destruct (ComputeSessionResumeProof _ _ _) as [pr|] eqn:Ep; [|intros [= <- _ _ <-]; right; split; [done|by left]].
  rewrite decide_False by done. unfold ReserveResume, CanResume. cbn [xe_recovery set_next_token tf_generation].
  rewrite (bool_decide_eq_true_2 _ Hsus), Htok, !Z.eqb_refl, (proj2 (Z.ltb_lt _ _) Hnow).
  replace (next_token (xe_next_token x) =? 0) with false by (symmetry; apply Z.eqb_neq, next_token_nonzero).
  cbn [andb negb orb]. intros [= <- <- _ <-]. left. eexists _, c. split_and!; [done|done| |by rewrite Hsus].
  constructor; cbn; try done.
  - exists req, proof. done.
  - split_and!; try done. destruct (xe_transmission x); [|done]. exfalso. by apply Etr.
  - split; [apply next_token_nonzero|done].
Qed.

(** A successful commit, with everything it was granted on. *)
Record commit_granted (x : Exchanger) (c : Carrier) (confirm : SessionResumeControl) (candidate : list Z)
    (token : Z) : Prop := {
  cg_carrier : IsEligibleRecoveryCarrier enabled c = true;
  cg_confirm : ∃ f proof, DecodeResumeControl confirm ActResumeConfirm (xe_session_id x) = Some (f, proof) ∧
    tf_candidate_binding f = candidate ∧ tf_generation f = tf_generation (xe_attempt x) ∧
    tf_client_nonce f = tf_client_nonce (xe_attempt x) ∧ tf_server_nonce f = tf_server_nonce (xe_attempt x) ∧
    tf_candidate_binding f = tf_candidate_binding (xe_attempt x) ∧
    VerifySessionResumeProof hmac (xe_retained_root x) f proof = true;
  cg_attempt : xe_candidate x = Some (ca_id c) ∧ xe_attempt_active x = true ∧ xe_transmission x = None ∧
    xe_disposed x = false;
  cg_token : token ≠ 0 ∧ rv_token (xe_recovery x) = token ∧ rv_state (xe_recovery x) = RecSuspended
}.

Lemma commit_matches_true x c f p token now :
  commit_matches x c f p token now = true →
  xe_disposed x = false ∧ xe_candidate x = Some (ca_id c) ∧ xe_attempt_active x = true ∧ xe_transmission x = None ∧
  xe_replacement_echo x = None ∧
  CanCommitResume (xe_recovery x) (tf_generation (xe_attempt x)) now token = true ∧
  tf_generation f = tf_generation (xe_attempt x) ∧ tf_client_nonce f = tf_client_nonce (xe_attempt x) ∧
  tf_server_nonce f = tf_server_nonce (xe_attempt x) ∧
  tf_candidate_binding f = tf_candidate_binding (xe_attempt x) ∧
  VerifySessionResumeProof hmac (xe_retained_root x) f p = true.
Proof.
  unfold commit_matches. rewrite !andb_true_iff, !bool_decide_eq_true, negb_true_iff, Z.eqb_eq. tauto.
Qed.

(** The checks of the second section imply those of the first at any earlier time, so the first
    can only refuse what the second would refuse. *)
Lemma prepare_implies_check x c f p token now clock :
  now ≤ clock → commit_matches x c f p token clock = true → commit_matches x c f p token now = true.
Proof.
  intros Hle H. unfold commit_matches in *.
  assert (CanCommitResume (xe_recovery x) (tf_generation (xe_attempt x)) clock token = true →
          CanCommitResume (xe_recovery x) (tf_generation (xe_attempt x)) now token = true) as Hc.
  { unfold CanCommitResume. rewrite !andb_true_iff, !Z.ltb_lt. intuition lia. }
  rewrite !andb_true_iff in *. intuition.
Qed.

Definition marked (x : Exchanger) (now : Z) : SessionRecoveryState :=
  mkRecovery (rv_state (xe_recovery x)) (rv_generation (xe_recovery x))
    (let e := saturating_deadline now kResumePublishGraceMs in
     if rv_deadline (xe_recovery x) <? e then e else rv_deadline (xe_recovery x))
    (rv_token (xe_recovery x)).

Lemma commit_cases x c confirm candidate token now clock echo m x' :
  Exchanger_CommitResume x c confirm candidate token now clock echo = (m, x') →
  (∃ b e, c = Some b ∧ is_Some m ∧ commit_granted x b confirm candidate token ∧
     x' = set_echoes (set_recovery x (marked x (Z.max now clock))) (Some e) (xe_echo x) (xe_disposed_echoes x)) ∨
  (m = None ∧ (x' = x ∨ ∃ e, x' = set_echoes x (xe_replacement_echo x) (xe_echo x) (e :: xe_disposed_echoes x))).
Proof.
  unfold Exchanger_CommitResume. destruct c as [c|]; [|intros [= <- <-]; right; auto].
  case_if as Ec; [intros [= <- <-]; right; auto|]. apply orb_false_iff in Ec as [Et%Z.eqb_neq Ec].
  cbn in Ec. apply orb_false_iff in Ec as [_ Ee%negb_false_iff].
  destruct (DecodeResumeControl _ _ _) as [[f p]|] eqn:Ed; [|intros [= <- <-]; right; auto].
  case_if as Eb; [intros [= <- <-]; right; auto|]. apply bool_decide_eq_false_1, dec_stable in Eb.
  case_if as Em; [intros [= <- <-]; right; auto|]. apply negb_false_iff in Em.
  destruct echo as [e|]; [|intros [= <- <-]; right; auto].
  unfold commit_prepare. case_if as Ep; [|intros [= <- <-]; right; eauto].
  apply andb_true_iff in Ep as [Ep _].
  destruct (ComputeSessionResumeProof _ _ _) as [cp|]; [|intros [= <- <-]; right; eauto].
  case_if as Ev; [intros [= <- <-]; right; eauto|].
  destruct (commit_matches_true _ _ _ _ _ _ Em) as (D1 & D2 & D3 & D4 & _ & D5 & D6 & D7 & D8 & D9 & D10).
  apply CanCommitResume_true in D5 as (S1 & S2 & S3 & _).
  unfold MarkResumeCommitted. rewrite S1, S3, Z.eqb_refl, (proj2 (Z.eqb_neq _ _) S2).
  rewrite bool_decide_eq_false_2 by tauto. cbn [negb orb]. intros [= <- <-]. left.
  exists c, e. split_and!; [done|eauto| |unfold marked; by rewrite S1, S3].
  constructor; try done. exists f, p. done.
Qed.

(** A publication: the carrier of the prepared attempt takes over. *)
Lemma publish_cases x c token now b x' :
  PublishCommittedResume x c token now = (b, x') →
  (∃ k, c = Some k ∧ b = true ∧ xe_disposed x = false ∧ xe_candidate x = Some k ∧ xe_attempt_active x = true ∧
     xe_transmission x = None ∧ is_Some (xe_replacement_echo x) ∧ token ≠ 0 ∧
     rv_token (xe_recovery x) = token ∧ rv_state (xe_recovery x) = RecSuspended ∧
     now < rv_deadline (xe_recovery x) ∧ rv_generation (xe_recovery x) ≠ UINT64_MAX ∧
     xe_recovery x' = mkRecovery RecActive (rv_generation (xe_recovery x) +[64] 1) 0 0 ∧
     xe_transmission x' = Some k ∧ xe_relay x' = Some k ∧ xe_echo x' = xe_replacement_echo x ∧
     xe_replacement_echo x' = None ∧ xe_attempt_active x' = false ∧ xe_disposed x' = xe_disposed x ∧
     xe_armed x' = xe_armed x ∧ xe_retained_root x' = xe_retained_root x) ∨
  (b = false ∧ x' = x).
Proof.
  unfold PublishCommittedResume. destruct c as [k|]; [|intros [= <- <-]; by right].
  case_if as E; [intros [= <- <-]; by right|]. apply orb_false_iff in E as [Et%Z.eqb_neq Ed].
  case_if as E1; [|intros [= <- <-]; by right].
  rewrite !andb_true_iff, !bool_decide_eq_true, !negb_true_iff, bool_decide_eq_false in E1.
  destruct E1 as (((((_ & E2) & E3) & E4) & E5) & E6).
  unfold CommitSessionResumeAndPublish, CommitResume. rewrite E6. cbn [negb orb].
  apply CanCommitResume_true in E6 as (S1 & S2 & S3 & S4 & S5).
  destruct (rv_generation (xe_recovery x) =? UINT64_MAX) eqn:Eg; cbn [negb].
  { intros [= <- <-]. right. by destruct x. }
  intros [= <- <-]. left. exists k. apply Z.eqb_neq in Eg. cbn. split_and!; try done.
  destruct (xe_replacement_echo x); [eauto|done].
Qed.

Lemma prepare_inv x c root nonce timeout now :
  x_inv x → x_inv (PrepareFreshResumeOffer x c root nonce timeout now).2.
Proof.
  intros Hi. unfold PrepareFreshResumeOffer. repeat case_match; cbn; try done; destruct Hi; by constructor.
Qed.

Lemma clear_pending_inv x : x_inv x → x_inv (clear_pending x).
Proof. intros []. by constructor. Qed.

Lemma accept_inv x c other r now : x_inv x → x_inv (AcceptFreshResume x c other r now).2.
Proof.
  intros Hi. unfold AcceptFreshResume. set (ok := _ && _ && _ && _ && _ && _ && _ && _ && _). cbn [snd].
  assert (x_inv (if ok then set_root x (xe_pending_root x) true else x)) as Hx.
  { destruct ok eqn:E; [|done]. unfold ok in E. rewrite !andb_true_iff in E.
    destruct E as ((((((_ & Hr) & _) & _) & _) & _) & _). apply bool_decide_eq_true_1 in Hr.
    destruct Hi. constructor; cbn; done. }
  case_decide; [by apply clear_pending_inv|done].
Qed.

Lemma expire_fresh_inv x now : x_inv x → x_inv (ExpireFreshOffer x now).
Proof. intros Hi. unfold ExpireFreshOffer. case_if as E; [by apply clear_pending_inv|done]. Qed.

(** What an information message can do to the state. *)
Lemma information_cases x c auth other r now :
  let x' := (OnResumeInformation x c auth other r now).2 in
  x' = x ∨ x' = ExpireFreshOffer x now ∨ x' = (AcceptFreshResume x c other r now).2.
Proof.
  unfold OnResumeInformation. case_if as E; [by left|]. case_if as E1; [by left|].
  case_if as E2; [by right; left|]. destruct (AcceptFreshResume _ _ _ _ _). by right; right.
Qed.

Lemma begin_resume_inv x c request candidate now nonce :
  x_inv x → x_inv (BeginResume x c request candidate now nonce).2.
Proof.
  intros Hi. destruct (BeginResume _ _ _ _ _ _) as [[[st token] m] x'] eqn:E. cbn.
  apply begin_cases in E as [(f & b & -> & _ & G & ->)|(_ & [->| ->])]; [|done|by apply expire_recovery_inv|done].
  destruct G as [_ _ (T1 & T2 & T3) (S1 & S2 & S3) (F1 & _) (K1 & K2)]. destruct Hi as [H1 H2 H3 H4 H5].
  by constructor.
Qed.

Lemma commit_inv x c confirm candidate token now clock echo :
  x_inv x → x_inv (Exchanger_CommitResume x c confirm candidate token now clock echo).2.
Proof.
  intros Hi. destruct (Exchanger_CommitResume _ _ _ _ _ _ _ _) as [m x'] eqn:E. cbn.
  apply commit_cases in E as [(b & e & -> & _ & G & ->)|(_ & [->|[e ->]])]; [|done|destruct Hi; by constructor].
  destruct G as [_ _ (A1 & A2 & A3 & A4) _]. destruct Hi as [H1 H2 H3 H4 H5]. by constructor.
Qed.

Lemma publish_inv x c token now : x_inv x → x_inv (PublishCommittedResume x c token now).2.
Proof.
  intros Hi. destruct (PublishCommittedResume _ _ _ _) as [b x'] eqn:E. cbn.
  apply publish_cases in E as [(k & -> & -> & D & C & A & T & R & N & K & S & L & M & E1 & E2 & E3 & E4 & E5 & E6 & E7 & E8 & E9)|[_ ->]];
    [|done].
  destruct Hi as [H1 H2 H3 H4 H5]. constructor; rewrite ?E1, ?E5, ?E6; cbn; try done. rewrite E8, E9. done.
Qed.

Lemma cancel_inv x c token : x_inv x → x_inv (Exchanger_CancelResume x c token).
Proof.
  intros Hi. unfold Exchanger_CancelResume. case_if as E; [done|]. case_decide; [|done].
  unfold Recovery_CancelResume. case_if as E1; [by destruct x|]. destruct Hi as [H1 H2 H3 H4 H5].
  constructor; cbn; try done.
Qed.

Lemma stopped_inv x c g error now : x_inv x → x_inv (OnCarrierStopped x c g error now).2.
Proof.
  intros [H1 H2 H3 H4 H5]. unfold OnCarrierStopped. case_if as E; [done|].
  apply orb_false_iff in E as [_ E%bool_decide_eq_false_1%dec_stable].
  assert (xe_attempt_active x = false) as Ha.
  { destruct (xe_attempt_active x); [|done]. rewrite H1 in E by done. done. }
  assert (xe_replacement_echo x = None) as He.
  { destruct (xe_replacement_echo x); [|done]. rewrite Ha in H2. by discriminate H2. }
  assert (xe_disposed x = false → rv_token (xe_recovery x) = 0) as Ht.
  { intros Hd. destruct (decide (rv_token (xe_recovery x) = 0)) as [|Hn]; [done|].
    destruct (H4 Hd Hn). congruence. }
  match goal with |- context [let '(_, _) := ?e in _] => set (sr := e) end.
  assert (sr.2 = xe_recovery x ∧ sr.1 = false ∨
    sr.1 = true ∧ xe_disposed x = false ∧ rv_token sr.2 = rv_token (xe_recovery x)) as Hsr.
  { subst sr. case_if as E1; [by left|]. unfold Recovery_Suspend. case_if as E2; [by left|right].
    repeat (apply orb_false_iff in E1 as [E1 _]). done. }
  clearbody sr. destruct sr as [susp rec]. cbn [fst snd] in Hsr.
  destruct Hsr as [[-> ->]|(-> & Hd & Hr)]; cbn [negb snd].
  - constructor; cbn; try done. intros Hd Hn. by apply Ht in Hd.
  - constructor; cbn; try done. intros _ Hn. specialize (Ht Hd). congruence.
Qed.

Lemma finalize_inv x : x_inv x → x_inv (Exchanger_Finalize x).
Proof. intros Hi. unfold Exchanger_Finalize. case_if as E; [done|]. constructor; cbn; done. Qed.

#[global] Instance x_step_inv : StepInvariant x_step (λ _, True) x_inv.
Proof.
  intros x e _ Hi. destruct e; cbn [x_step].
  - pose proof (prepare_inv x c root nonce connect_timeout now Hi) as H. by destruct (PrepareFreshResumeOffer _ _ _ _ _ _).
  - pose proof (information_cases x c transport_auth other_extensions r now) as H.
    destruct (OnResumeInformation _ _ _ _ _ _) as [b x']. cbn in *.
    destruct H as [->|[->| ->]]; [done|by apply expire_fresh_inv|by apply accept_inv].
  - by apply expire_fresh_inv.
  - pose proof (begin_resume_inv x c request candidate now nonce Hi) as H. by destruct (BeginResume _ _ _ _ _ _) as [[[] ?] ?].
  - pose proof (commit_inv x c confirm candidate token now clock echo Hi) as H.
    by destruct (Exchanger_CommitResume _ _ _ _ _ _ _ _).
  - pose proof (publish_inv x c token now Hi) as H. by destruct (PublishCommittedResume _ _ _ _).
  - by apply cancel_inv.
  - pose proof (stopped_inv x c generation error now Hi) as H. by destruct (OnCarrierStopped _ _ _ _ _).
  - pose proof (expire_recovery_inv x now Hi) as H. unfold IsRecoveryExpired. by destruct (Recovery_IsExpired _ _).
  - pose proof (expire_recovery_inv x now Hi) as H. rewrite <- suspended_snd in H.
    unfold Exchanger_IsSuspended. by destruct (Recovery_IsSuspended _ _).
  - by apply finalize_inv.
Qed.

(** ** History of a reservation *)

Definition granted_in (x0 : Exchanger) (es : list XOp) (k token : Z) : Prop :=
  ∃ es1 es2 b request candidate now nonce f,
    es = es1 ++ XBegin (Some b) request candidate now nonce :: es2 ∧ ca_id b = k ∧
    begin_granted (exec x_step x0 es1) b request candidate now nonce token f.

Definition committed_in (x0 : Exchanger) (es : list XOp) (k token : Z) : Prop :=
  ∃ es1 es2 c confirm candidate now clock echo,
    es = es1 ++ XCommit (Some c) confirm candidate token now clock echo :: es2 ∧ ca_id c = k ∧
    granted_in x0 es1 k token ∧ commit_granted (exec x_step x0 es1) c confirm candidate token.

Lemma granted_in_snoc x0 es e k token : granted_in x0 es k token → granted_in x0 (es ++ [e]) k token.
Proof.
  intros (es1 & es2 & b & request & candidate & now & nonce & f & -> & Hk & Hg).
  exists es1, (es2 ++ [e]), b, request, candidate, now, nonce, f. split; [|done]. by rewrite <- app_assoc.
Qed.

Lemma committed_in_snoc x0 es e k token : committed_in x0 es k token → committed_in x0 (es ++ [e]) k token.
Proof.
  intros (es1 & es2 & c & confirm & candidate & now & clock & echo & -> & Hk & Hg).
  exists es1, (es2 ++ [e]), c, confirm, candidate, now, clock, echo. split; [|done]. by rewrite <- app_assoc.
Qed.

(** A step that neither grants nor commits: an outstanding reservation was there before it. *)
Definition x_frame (x x' : Exchanger) : Prop :=
  xe_disposed x' = false → rv_token (xe_recovery x') ≠ 0 →
  xe_disposed x = false ∧ rv_token (xe_recovery x) = rv_token (xe_recovery x') ∧
  xe_candidate x = xe_candidate x' ∧ (xe_replacement_echo x' ≠ None → xe_replacement_echo x ≠ None).

Lemma x_frame_refl x : x_frame x x.
Proof. by intros ? ?. Qed.

Lemma x_frame_expired x now : x_frame x (set_recovery x (Recovery_IsExpired (xe_recovery x) now).2).
Proof. unfold Recovery_IsExpired. cbn [snd]. case_if as E; intros Hd Ht; cbn in *; done. Qed.

Lemma x_frame_fresh x now : x_frame x (ExpireFreshOffer x now).
Proof. unfold ExpireFreshOffer. case_if as E; by intros ? ?. Qed.

Lemma x_frame_accept x c other r now : x_frame x (AcceptFreshResume x c other r now).2.
Proof.
  unfold AcceptFreshResume. set (ok := _ && _ && _ && _ && _ && _ && _ && _ && _).
  case_decide; destruct ok; by intros ? ?.
Qed.

Lemma x_frame_stopped x c g error now : x_inv x → x_frame x (OnCarrierStopped x c g error now).2.
Proof.
  intros Hi. pose proof Hi as [H1 H2 H3 H4 H5]. unfold OnCarrierStopped. case_if as E; [apply x_frame_refl|].
  apply orb_false_iff in E as [_ E%bool_decide_eq_false_1%dec_stable].
  assert (xe_disposed x = false → rv_token (xe_recovery x) = 0) as Ht.
  { intros Hd. destruct (decide (rv_token (xe_recovery x) = 0)) as [|Hn]; [done|].
    destruct (H4 Hd Hn) as [Ha _]. rewrite H1 in E by done. done. }
  match goal with |- context [let '(_, _) := ?e in _] => set (sr := e) end.
  assert (rv_token sr.2 = rv_token (xe_recovery x)) as Hsr.
  { subst sr. case_if as E1; [done|]. unfold Recovery_Suspend. by case_if as E2. }
  clearbody sr. destruct sr as [susp rec]. cbn [snd] in Hsr.
  case_if as Es; cbn [snd]; intros Hd Hn; cbn in Hd, Hn; rewrite Hsr in Hn; by apply Ht in Hd.
Qed.

Definition grants (x : Exchanger) (e : XOp) : Prop :=
  match (x_step x e).1 with
  | XBegun ResumeReserved _ _ => True
  | XControl (Some _) => match e with XCommit _ _ _ _ _ _ _ => True | _ => False end
  | _ => False
  end.

Lemma x_step_frame x e : x_inv x → ¬ grants x e → x_frame x (x_step x e).2.
Proof.
  intros Hi Hg. unfold grants in Hg. destruct e; cbn [x_step] in *.
  - unfold PrepareFreshResumeOffer. repeat case_match; simplify_eq/=; try apply x_frame_refl; by intros ? ?.
  - pose proof (information_cases x c transport_auth other_extensions r now) as H.
    destruct (OnResumeInformation _ _ _ _ _ _) as [b x']. cbn in *.
    destruct H as [->|[->| ->]]; [apply x_frame_refl|apply x_frame_fresh|apply x_frame_accept].
  - apply x_frame_fresh.
  - destruct (BeginResume _ _ _ _ _ _) as [[[st token] m] x'] eqn:E. cbn in *.
    apply begin_cases in E as [(f & b & -> & -> & _)|(_ & [->| ->])];
      [by destruct Hg|apply x_frame_refl|apply x_frame_expired|done].
  - destruct (Exchanger_CommitResume _ _ _ _ _ _ _ _) as [m x'] eqn:E. cbn in *.
    apply commit_cases in E as [(b & e & -> & [m' ->] & _)|(_ & [->|[e ->]])];
      [by destruct Hg|apply x_frame_refl|by intros ? ?].
  - destruct (PublishCommittedResume _ _ _ _) as [b x'] eqn:E. cbn in *.
    apply publish_cases in E as [(k & _ & _ & _ & _ & _ & _ & _ & _ & _ & _ & _ & _ & Er & _)|[_ ->]];
      [|apply x_frame_refl].
    intros _ Hn. by rewrite Er in Hn.
  - cbn. unfold Exchanger_CancelResume. case_if as E; [apply x_frame_refl|]. case_decide; [|apply x_frame_refl].
    unfold Recovery_CancelResume. case_if as E1; by intros ? ?.
  - pose proof (x_frame_stopped x c generation error now Hi) as H. by destruct (OnCarrierStopped _ _ _ _ _).
  - pose proof (x_frame_expired x now) as H. unfold IsRecoveryExpired. by destruct (Recovery_IsExpired _ _).
  - pose proof (x_frame_expired x now) as H. rewrite <- suspended_snd in H.
    unfold Exchanger_IsSuspended. by destruct (Recovery_IsSuspended _ _).
  - cbn. unfold Exchanger_Finalize. case_if as E; [apply x_frame_refl|]. by intros ? ?.
Qed.

(** Every outstanding reservation was granted to its candidate, and an echo is prepared for it
    only by a commit of the same candidate and token. *)
Definition x_history (x0 : Exchanger) (es : list XOp) : Prop :=
  let x := exec x_step x0 es in
  xe_disposed x = false → rv_token (xe_recovery x) ≠ 0 →
  ∃ k, xe_candidate x = Some k ∧ granted_in x0 es k (rv_token (xe_recovery x)) ∧
    (xe_replacement_echo x ≠ None → committed_in x0 es k (rv_token (xe_recovery x))).

Lemma x_reachable_inv sid k echo es : x_inv (exec x_step (Exchanger_new sid k echo) es).
Proof. apply (exec_invariant x_step (λ _, True) x_inv); [apply x_inv_new|by apply Forall_true]. Qed.

Lemma grants_dec x e : grants x e ∨ ¬ grants x e.
Proof. unfold grants. repeat case_match; auto. Qed.

Lemma x_history_frame x0 es e :
  x_frame (exec x_step x0 es) (x_step (exec x_step x0 es) e).2 → x_history x0 es → x_history x0 (es ++ [e]).
Proof.
  unfold x_history. rewrite exec_snoc. intros Hf IH Hd Ht.
  destruct (Hf Hd Ht) as (Hd' & Htok & Hc & He). rewrite <- Htok in Ht |- *. rewrite <- Hc.
  destruct (IH Hd' Ht) as (k & Hk & Hg & Hcm).
  exists k. split_and!; [done|by apply granted_in_snoc|]. intros Hr. apply committed_in_snoc. auto.
Qed.

Lemma x_history_begin x0 es b request candidate now nonce :
  let x := exec x_step x0 es in
  x_inv x → grants x (XBegin b request candidate now nonce) →
  x_history x0 (es ++ [XBegin b request candidate now nonce]).
Proof.
  intros x Hi Hg. unfold x_history. rewrite exec_snoc. fold x. unfold grants in Hg. cbn [x_step] in *.
  destruct (BeginResume _ _ _ _ _ _) as [[[st token] m] x'] eqn:E. cbn [fst snd] in *.
  destruct (begin_cases _ _ _ _ _ _ _ _ _ _ Hi E) as [(f & c & -> & -> & G & ->)|[Hn _]]; [|by destruct st].
  cbn. intros _ _. exists (ca_id c). split_and!; [done| |].
  - exists es, [], c, request, candidate, now, nonce, f. done.
  - intros He%(xi_echo x Hi). destruct (bg_idle _ _ _ _ _ _ _ _ G). intuition congruence.
Qed.

Lemma x_history_commit x0 es c confirm candidate token now clock echo :
  let x := exec x_step x0 es in let e := XCommit c confirm candidate token now clock echo in
  x_inv x → grants x e → x_history x0 es → x_history x0 (es ++ [e]).
Proof.
  intros x e Hi Hg IH. unfold x_history. rewrite exec_snoc. fold x. unfold grants in Hg. subst e. cbn [x_step] in *.
  destruct (Exchanger_CommitResume _ _ _ _ _ _ _ _) as [m x'] eqn:E. cbn [fst snd] in *.
  destruct (commit_cases _ _ _ _ _ _ _ _ _ _ E) as [(b & e & -> & _ & G & ->)|[-> _]]; [|done].
  pose proof G as [_ _ (C1 & _ & _ & C4) (T1 & T2 & _)]. cbn. intros _ Ht.
  destruct (IH C4 Ht) as (k & Hk & Hgr & _). fold x in Hk, Hgr. rewrite C1 in Hk. injection Hk as <-.
  exists (ca_id b). split_and!; [done|by apply granted_in_snoc|]. intros _. rewrite T2 in *.
  exists es, [], b, confirm, candidate, now, clock, echo. done.
Qed.

Lemma x_history_holds sid k echo es : x_history (Exchanger_new sid k echo) es.
Proof.
  induction es as [|e es IH] using rev_ind; [by intros _ ?|].
  pose proof (x_reachable_inv sid k echo es) as Hi.
  destruct (grants_dec (exec x_step (Exchanger_new sid k echo) es) e) as [Hg|Hn];
    [|by apply x_history_frame, IH; apply x_step_frame].
  destruct e; try by (exfalso; revert Hg; unfold grants; cbn [x_step]; repeat case_match; simplify_eq/=).
  - by apply x_history_begin.
  - by apply x_history_commit.
Qed.

(** ** Generations *)

Definition publishes_in (x : Exchanger) (e : XOp) : Z :=
  match e, (x_step x e).1 with XPublish _ _ _, XBool true => 1 | _, _ => 0 end.

(** The number of successful publications in a run. *)
Fixpoint publications (x : Exchanger) (es : list XOp) : Z :=
  match es with
  | [] => 0
  | e :: es => publishes_in x e + publications (x_step x e).2 es
  end.

Lemma publications_snoc x es e :
  publications x (es ++ [e]) = publications x es + publishes_in (exec x_step x es) e.
Proof.
  revert x. induction es as [|e0 es IH]; intros x; cbn [app publications].
  - rewrite exec_nil. lia.
  - rewrite exec_cons, IH. lia.
Qed.

Definition gen_range (x : Exchanger) : Prop := 1 ≤ rv_generation (xe_recovery x) ≤ UINT64_MAX.

Lemma generation_expired s now : rv_generation (Recovery_IsExpired s now).2 = rv_generation s.
Proof. unfold Recovery_IsExpired. cbn [snd]. by case_if as E. Qed.

Lemma recovery_fresh x now : xe_recovery (ExpireFreshOffer x now) = xe_recovery x.
Proof. unfold ExpireFreshOffer. by case_if as E. Qed.

Lemma recovery_accept x c other r now : xe_recovery (AcceptFreshResume x c other r now).2 = xe_recovery x.
Proof.
  unfold AcceptFreshResume. set (ok := _ && _ && _ && _ && _ && _ && _ && _ && _).
  case_decide; by destruct ok.
Qed.

Lemma generation_stopped x c g error now :
  rv_generation (xe_recovery (OnCarrierStopped x c g error now).2) = rv_generation (xe_recovery x).
Proof.
  unfold OnCarrierStopped, Recovery_Suspend. case_if as E; [done|].
  match goal with |- context [let '(_, _) := ?e in _] => set (sr := e) end.
  assert (rv_generation sr.2 = rv_generation (xe_recovery x)) as H by (subst sr; by repeat case_match).
  destruct sr as [[] rec]; cbn in *; done.
Qed.

(** Only a publication changes the generation, by one. *)
Lemma x_step_generation x e :
  x_inv x → gen_range x →
  rv_generation (xe_recovery (x_step x e).2) = rv_generation (xe_recovery x) + publishes_in x e ∧
  gen_range (x_step x e).2.
Proof.
  intros Hi Hr. unfold publishes_in, gen_range in *.
  cut (rv_generation (xe_recovery (x_step x e).2) = rv_generation (xe_recovery x) +
    (match e, (x_step x e).1 with XPublish _ _ _, XBool true => 1 | _, _ => 0 end) ∧
    rv_generation (xe_recovery (x_step x e).2) ≤ UINT64_MAX).
  { intros [-> H]. repeat case_match; lia. }
  destruct e; cbn [x_step]; rewrite ?Z.add_0_r; cbn [fst snd]; rewrite ?Z.add_0_r.
  - unfold PrepareFreshResumeOffer. repeat case_match; simplify_eq/=; lia.
  - pose proof (information_cases x c transport_auth other_extensions r now) as H.
    destruct (OnResumeInformation _ _ _ _ _ _) as [b x']. cbn [fst snd] in *.
    destruct H as [->|[->| ->]]; rewrite ?recovery_fresh, ?recovery_accept; lia.
  - rewrite recovery_fresh. lia.
  - destruct (BeginResume _ _ _ _ _ _) as [[[st token] m] x'] eqn:E. cbn [fst snd].
    apply begin_cases in E as [(f & b & -> & -> & _ & ->)|(_ & [->| ->])]; [cbn; lia|lia| |done].
    cbn [set_recovery xe_recovery]. rewrite generation_expired. lia.
  - destruct (Exchanger_CommitResume _ _ _ _ _ _ _ _) as [m x'] eqn:E. cbn [fst snd].
    apply commit_cases in E as [(b & e & -> & _ & _ & ->)|(_ & [->|[e ->]])]; cbn; lia.
  - destruct (PublishCommittedResume _ _ _ _) as [b x'] eqn:E. cbn [fst snd].
    apply publish_cases in E
      as [(k & _ & -> & _ & _ & _ & _ & _ & _ & _ & _ & _ & Hm & Er & _)|[-> ->]]; [|lia].
    rewrite Er. cbn [rv_generation]. unfold UINT64_MAX in *. rewrite wrap_small by (unfold is_uint; lia). lia.
  - unfold Exchanger_CancelResume, Recovery_CancelResume. repeat case_match; simplify_eq/=; lia.
  - pose proof (generation_stopped x c generation error now) as H.
    destruct (OnCarrierStopped _ _ _ _ _). cbn [fst snd] in *. lia.
  - unfold IsRecoveryExpired. pose proof (generation_expired (xe_recovery x) now) as H.
    destruct (Recovery_IsExpired _ _). cbn in *. lia.
  - unfold Exchanger_IsSuspended. pose proof (generation_expired (xe_recovery x) now) as H.
    rewrite <- suspended_snd in H. destruct (Recovery_IsSuspended _ _). cbn in *. lia.
  - unfold Exchanger_Finalize. case_if as E; cbn; lia.
Qed.

Lemma x_generation sid k echo es :
  let x := exec x_step (Exchanger_new sid k echo) es in
  rv_generation (xe_recovery x) = 1 + publications (Exchanger_new sid k echo) es ∧ gen_range x.
Proof.
  induction es as [|e es [IH1 IH2]] using rev_ind; cbn zeta; [split; [done|unfold gen_range, UINT64_MAX; cbn; lia]|].
  rewrite exec_snoc, publications_snoc.
  destruct (x_step_generation _ e (x_reachable_inv sid k echo es) IH2) as [-> H]. split; [lia|done].
Qed.

(** ** Property *)

(** C21: Whatever operations an exchanger performed before, and in whatever order, a carrier is
    published only at the end of a complete authenticated resume: some earlier BeginResume
    reserved that very token for that carrier, which was eligible and presented a request whose
    proof verifies under the retained root, for the current generation and the carrier's own
    binding; a later CommitResume of the same carrier and token verified a confirmation that
    repeats the nonces, generation and binding of the attempt; the session had no carrier, and
    the publication makes this one the session's only carrier, spends the reservation, and
    moves the generation to two plus the number of earlier publications, without wrapping. *)
Theorem session_resume_authentic sid k0 echo es k token now :
  let x0 := Exchanger_new sid k0 echo in
  let x := exec x_step x0 es in
  let r := PublishCommittedResume x (Some k) token now in
  r.1 = true →
  committed_in x0 es k token ∧ xe_transmission x = None ∧
  xe_transmission r.2 = Some k ∧ xe_relay r.2 = Some k ∧ xe_attempt_active r.2 = false ∧
  xe_recovery r.2 = mkRecovery RecActive (2 + publications x0 es) 0 0 ∧ 2 + publications x0 es ≤ UINT64_MAX.
Proof.
  intros x0 x r Hr. destruct (PublishCommittedResume x (Some k) token now) as [b x'] eqn:E. subst r.
  cbn [fst snd] in *. subst b. destruct (x_generation sid k0 echo es) as [Hg Hrange]. fold x0 x in Hg, Hrange.
  apply publish_cases in E as [(k' & [= <-] & _ & D & C & A & T & R & N & K & S & L & M & E1 & E2 & E3 & _ & _ & E5 & _)|[? _]];
    [|done].
  destruct (x_history_holds sid k0 echo es D) as (k' & Hk & _ & Hc); [fold x0 x; congruence|].
  fold x0 x in Hk, Hc. rewrite K in Hc. assert (k' = k) as -> by congruence.
  unfold gen_range, UINT64_MAX in *. rewrite wrap_small in E1 by (unfold is_uint; lia).
  split_and!; try done; [apply Hc; by destruct R as [? ->]|rewrite E1; f_equal; lia|lia].
Qed.
End exchanger.

(** ** A complete resume *)

Module Sample.
Definition mac (_ _ : list Z) : option (list Z) := Some (replicate 32 7).
Definition sid : list Z := replicate 16 5.
Definition root : list Z := replicate 32 3.
Definition cn : list Z := replicate 32 1.
Definition sn : list Z := replicate 32 2.
Definition binding : list Z := replicate 32 9.
Definition carrier (k : Z) : Carrier := mkCarrier k true false true true KindTlsWebSocket MethodTlsExporterV1.
Definition fields (a : SessionResumeAction) (client server b : list Z) (g : Z) : SessionResumeTranscriptFields :=
  mkFields a CapabilityV1 sid g client server b.

(** Recovery is armed on carrier 1, which is lost; carrier 2 resumes the session. *)
Definition history : list XOp :=
  [ XPrepare (Some (carrier 1)) (Some root) (Some sn) 10 1000;
    XInformation 1 false false
      (mkControl ProtocolVersion ActAccepted CapabilityV1 (EncodeLowerHex sid) 0 (EncodeLowerHex cn)
         (EncodeLowerHex sn) "" (EncodeLowerHex (replicate 32 7)) "") 2000;
    XStopped (carrier 1) 1 SocketDisconnected 3000;
    XBegin (Some (carrier 2)) (FillResumeControl (fields ActResumeRequest cn (zeros 32) binding 1) (replicate 32 7))
      binding 4000 (Some sn);
    XCommit (Some (carrier 2)) (FillResumeControl (fields ActResumeConfirm cn sn binding 1) (replicate 32 7))
      binding 1 5000 5001 (Some 12) ].
End Sample.

Lemma session_resume_authentic_witness :
  let x := exec (x_step Sample.mac true 60000) (Exchanger_new Sample.sid 1 (Some 11)) Sample.history in
  let r := PublishCommittedResume x (Some 2) 1 6000 in
  r.1 = true ∧ committed_in Sample.mac true 60000 (Exchanger_new Sample.sid 1 (Some 11)) Sample.history 2 1 ∧
  xe_recovery r.2 = mkRecovery RecActive 2 0 0.
Proof.
  split; [vm_compute; reflexivity|].
  destruct (session_resume_authentic Sample.mac true 60000 Sample.sid 1 (Some 11) Sample.history 2 1 6000)
    as (H1 & _ & _ & _ & _ & H2 & _); [vm_compute; reflexivity|].
  split; [exact H1|vm_compute; reflexivity].
Defined.
