(* ===== verification/PacketChecksum.v ===== *)
(** Internet checksums ([src/ppp/net/native/checksum.h], [checksum.cpp]): the scalar and the SSE2
    sums, their complement and the TCP/UDP pseudo-header sum.

    The host is little-endian, as the supported targets are: [ntohs] and [htons] swap the bytes
    of a word, and a 16-bit field is stored low byte first.  A buffer is a list of bytes whose
    length is the [len] argument. *)

From S2P Require Import Prelude.

(** ** Sums *)

(** [ntohs], [htons] and [SWAP_BYTES_IN_WORD]. *)
Definition swap16 (w : Z) : Z := Z.lor (Z.shiftl (Z.land w 255) 8) (Z.shiftr (Z.land w 65280) 8).

(** A 16-bit member written by the host. *)
Definition store16 (w : Z) : list Z := [Z.land w 255; Z.land (Z.shiftr w 8) 255].

(** The loop over pairs of octets and the remaining octet. *)
Fixpoint chksum_loop (acc : Z) (p : list Z) : Z :=
  match p with
  | b0 :: b1 :: p => chksum_loop (acc +[32] be16 b0 b1) p
  | [b] => acc +[32] Z.shiftl b 8
  | [] => acc
  end.

(** The deferred carries: one fold, and a second one when the first overflows 16 bits. *)
Definition add_carries (acc : Z) : Z :=
  let acc := Z.shiftr acc 16 +[32] Z.land acc 65535 in
  if negb (Z.land acc 4294901760 =? 0) then Z.shiftr acc 16 +[32] Z.land acc 65535 else acc.

Definition ip_standard_chksum (p : list Z) : Z := swap16 (wrap 16 (add_carries (chksum_loop 0 p))).

(** *** SSE2 *)

(** A 128-bit register of four 32-bit lanes. *)
Record lanes := mkLanes { lane0 : Z; lane1 : Z; lane2 : Z; lane3 : Z }.

Definition mm_add_epi32 (a b : lanes) : lanes :=
  mkLanes (lane0 a +[32] lane0 b) (lane1 a +[32] lane1 b) (lane2 a +[32] lane2 b) (lane3 a +[32] lane3 b).

(** One 16-bit lane of [words]: its bytes [b0], [b1] shifted, masked and combined. *)
Definition simd_word (b0 b1 : Z) : Z :=
  let chunk := Z.lor b0 (Z.shiftl b1 8) in
  Z.lor (Z.land (wrap 16 (Z.shiftl chunk 8)) 65280) (Z.land (Z.shiftr chunk 8) 255).

(** The low and the high half of [words], widened to 32 bits. *)
Definition simd_low (p : list Z) : lanes :=
  mkLanes (simd_word (byte_at p 0) (byte_at p 1)) (simd_word (byte_at p 2) (byte_at p 3))
          (simd_word (byte_at p 4) (byte_at p 5)) (simd_word (byte_at p 6) (byte_at p 7)).

Definition simd_high (p : list Z) : lanes := simd_low (drop 8 p).

(** [n] blocks of 16 bytes. *)
Fixpoint simd_blocks (n : nat) (accumulator : lanes) (p : list Z) : lanes * list Z :=
  match n with
  | O => (accumulator, p)
  | S n => simd_blocks n (mm_add_epi32 (mm_add_epi32 accumulator (simd_low p)) (simd_high p)) (drop 16 p)
  end.

Definition ip_standard_chksum_simd (p : list Z) : Z :=
  if decide (length p = 0)%nat then 0
  else
    let '(acc, p) :=
      if decide (16 ≤ length p)%nat then
        let '(t, p) := simd_blocks (length p / 16) (mkLanes 0 0 0 0) p in
        (0 +[32] (((lane0 t +[32] lane1 t) +[32] lane2 t) +[32] lane3 t), p)
      else (0, p) in
    let acc := chksum_loop acc p in
    let acc := Z.shiftr acc 16 +[32] Z.land acc 65535 in
    let acc := if 65535 <? acc then Z.shiftr acc 16 +[32] Z.land acc 65535 else acc in
    swap16 (wrap 16 acc).

(** *** Complement and pseudo-header *)

Definition inet_chksum (p : list Z) : Z := wrap 16 (Z.lnot (ip_standard_chksum p)).

Definition FOLD_U32T (u : Z) : Z := Z.shiftr u 16 +[32] Z.land u 65535.

Definition inet_cksum_pseudo_base (p : list Z) (proto acc : Z) : Z :=
  let proto_len := Z.of_nat (length p) in
  let acc := acc +[32] ip_standard_chksum p in
  let acc := FOLD_U32T acc in
  let odd := negb (proto_len mod 2 =? 0) in
  let acc := if odd then swap16 acc else acc in
  let acc := if odd then swap16 acc else acc in
  let acc := acc +[32] swap16 (wrap 16 proto) in
  let acc := acc +[32] swap16 (wrap 16 proto_len) in
  let acc := FOLD_U32T (FOLD_U32T acc) in
  wrap 16 (Z.lnot (Z.land acc 65535)).

Definition inet_chksum_pseudo (p : list Z) (proto src dest : Z) : Z :=
  let acc := Z.land src 65535 in
  let acc := acc +[32] Z.land (Z.shiftr src 16) 65535 in
  let acc := acc +[32] Z.land dest 65535 in
  let acc := acc +[32] Z.land (Z.shiftr dest 16) 65535 in
  inet_cksum_pseudo_base p proto (FOLD_U32T (FOLD_U32T acc)).

(** ** One's complement arithmetic *)

(** The sum of the big-endian words of a buffer, an odd last byte padded with zero. *)
Fixpoint word_sum (p : list Z) : Z :=
  match p with
  | b0 :: b1 :: p => 256 * b0 + b1 + word_sum p
  | [b] => 256 * b
  | [] => 0
  end.

(** The representative of a sum in [0, 65535]: zero only for zero. *)
Definition oc (s : Z) : Z := if s =? 0 then 0 else (s - 1) mod 65535 + 1.

Lemma oc_spec s : 0 ≤ s → ∃ k, s = oc s + 65535 * k ∧ 0 ≤ k ∧ 0 ≤ oc s ≤ 65535 ∧ (oc s = 0 → s = 0).
Proof.
  intros Hs. unfold oc. destruct (s =? 0) eqn:E; bool_props.
  - exists 0. lia.
  - exists ((s - 1) / 65535). pose proof (Z.div_mod (s - 1) 65535). pose proof (Z.mod_pos_bound (s - 1) 65535). lia.
Qed.

Lemma oc_unique s r k : s = r + 65535 * k → 0 ≤ s → 0 ≤ r ≤ 65535 → (r = 0 ↔ s = 0) → oc s = r.
Proof. intros Hk Hs Hr H0. destruct (oc_spec s Hs) as (j & Hj & Hj0 & Ho & Hz). lia. Qed.

Lemma be16_add b0 b1 : is_byte b1 → be16 b0 b1 = 256 * b0 + b1.
Proof. intros. unfold be16. rewrite lor_shift_add by done. lia. Qed.

Lemma swap16_val x : is_uint 16 x → swap16 x = 256 * (x mod 256) + x / 256.
Proof.
  unfold is_uint. intros Hx. unfold swap16. rewrite land_255.
  replace (Z.land x 65280) with (256 * (x / 256)).
  - rewrite (Z.shiftr_div_pow2 _ 8) by lia. change (2 ^ 8) with 256.
    rewrite (Z.mul_comm 256 (x / 256)), Z.div_mul by lia.
    rewrite lor_shift_add; [change (2 ^ 8) with 256; lia|]. change (2 ^ 8) with 256. change (2 ^ 16) with 65536 in Hx.
    split; [apply Z.div_pos; lia|apply Z.div_lt_upper_bound; lia].
  - change 65280 with (Z.shiftl (Z.ones 8) 8). apply Z.bits_inj'. intros i Hi.
    rewrite Z.land_spec. replace (256 * (x / 256)) with (Z.shiftl (Z.shiftr x 8) 8).
    2:{ rewrite Z.shiftl_mul_pow2, Z.shiftr_div_pow2 by lia. change (2 ^ 8) with 256. lia. }
    destruct (Z.lt_ge_cases i 8).
    + by rewrite !Z.shiftl_spec_low, andb_false_r by lia.
    + rewrite !Z.shiftl_spec_high, Z.shiftr_spec by lia. replace (i - 8 + 8) with i by lia.
      destruct (Z.lt_ge_cases i 16).
      * by rewrite Z.ones_spec_low, andb_true_r by lia.
      * by rewrite (testbit_high_zero 16 x i), andb_false_l by lia.
Qed.

Lemma swap16_spec x : is_uint 16 x → ∃ k, swap16 x = 256 * x - 65535 * k ∧ 0 ≤ k < 256 ∧ is_uint 16 (swap16 x).
Proof.
  intros Hx. rewrite swap16_val by done. exists (x / 256).
  pose proof (Z.div_mod x 256). pose proof (Z.mod_pos_bound x 256).
  assert (0 ≤ x / 256 < 256) by (split; [apply Z.div_pos; uint_lia|apply Z.div_lt_upper_bound; uint_lia]).
  uint_lia.
Qed.

Lemma swap16_involutive x : is_uint 16 x → swap16 (swap16 x) = x.
Proof.
  intros Hx. destruct (swap16_spec x Hx) as (_ & _ & _ & Hs). rewrite (swap16_val (swap16 x)) by done.
  rewrite swap16_val by done.
  assert (0 ≤ x / 256 < 256) by (split; [apply Z.div_pos; uint_lia|apply Z.div_lt_upper_bound; uint_lia]).
  pose proof (Z.mod_pos_bound x 256). pose proof (Z.div_mod x 256).
  rewrite <- (Z.mod_unique (256 * (x mod 256) + x / 256) 256 (x mod 256) (x / 256)) by lia.
  rewrite <- (Z.div_unique (256 * (x mod 256) + x / 256) 256 (x mod 256) (x / 256)) by lia. lia.
Qed.

Lemma swap16_oc s : 0 ≤ s → swap16 (oc s) = oc (256 * s).
Proof.
  intros Hs. destruct (oc_spec s Hs) as (k & Hk & ? & Ho & Hz).
  destruct (swap16_spec (oc s)) as (j & Hj & Hj2 & Hu); [uint_lia|].
  symmetry. apply (oc_unique _ _ (256 * k + j)); uint_lia.
Qed.

(** ** What the code computes *)

Lemma word_sum_range p : bytes_ok p → 0 ≤ word_sum p ≤ 65535 * (Z.of_nat (length p) + 1) / 2.
Proof.
  intros Hp. assert (2 * word_sum p ≤ 65535 * (Z.of_nat (length p) + 1) ∧ 0 ≤ word_sum p) as [H1 H2];
    [|split; [done|apply Z.div_le_lower_bound; lia]].
  remember (length p) as n eqn:Hn. revert p Hn Hp. induction n as [n IH] using lt_wf_ind. intros p -> Hp.
  destruct p as [|b0 [|b1 p]]; cbn [word_sum length] in *; [lia|inversion Hp; uint_lia|].
  inversion_clear Hp as [|?? H0 Hp']. inversion_clear Hp' as [|?? H1 Hp].
  destruct (IH (length p) ltac:(lia) p eq_refl Hp). uint_lia.
Qed.

Lemma wrap_add_l w a b : wrap w (wrap w a + b) = wrap w (a + b).
Proof. unfold wrap. apply Zplus_mod_idemp_l. Qed.

Lemma wrap_add_r w a b : wrap w (a + wrap w b) = wrap w (a + b).
Proof. unfold wrap. apply Zplus_mod_idemp_r. Qed.

Lemma chksum_loop_sum acc p : bytes_ok p → is_uint 32 acc → chksum_loop acc p = wrap 32 (acc + word_sum p).
Proof.
  remember (length p) as n eqn:Hn. revert acc p Hn. induction n as [n IH] using lt_wf_ind. intros acc p -> Hp Ha.
  destruct p as [|b0 [|b1 p]]; cbn [chksum_loop word_sum].
  - by rewrite Z.add_0_r, wrap_small.
  - rewrite Z.shiftl_mul_pow2 by lia. f_equal. lia.
  - inversion_clear Hp as [|?? H0 Hp']. inversion_clear Hp' as [|?? H1 Hp].
    rewrite (IH (length p)) by (cbn; lia || done || by apply wrap_range).
    rewrite wrap_add_l, be16_add by done. f_equal. lia.
Qed.

Lemma land_65535 x : Z.land x 65535 = x mod 65536.
Proof. change 65535 with (Z.ones 16). by rewrite Z.land_ones by lia. Qed.

Lemma fold_value s : is_uint 32 s → FOLD_U32T s = s / 65536 + s mod 65536 ∧ s / 65536 + s mod 65536 ≤ 131070.
Proof.
  intros Hs. unfold FOLD_U32T. rewrite land_65535, Z.shiftr_div_pow2 by lia. change (2 ^ 16) with 65536.
  assert (0 ≤ s / 65536 < 65536) by (split; [apply Z.div_pos; uint_lia|apply Z.div_lt_upper_bound; uint_lia]).
  pose proof (Z.mod_pos_bound s 65536). rewrite wrap_small by uint_lia. lia.
Qed.

(** A fold keeps the sum modulo 65535 and does not make a sum zero. *)
Lemma fold_oc s : is_uint 32 s → 0 ≤ FOLD_U32T s ≤ 131070 ∧ oc (FOLD_U32T s) = oc s ∧ (s ≤ 131070 → FOLD_U32T s = oc s).
Proof.
  intros Hs. destruct (fold_value s Hs) as [-> Hle]. pose proof (Z.div_mod s 65536). pose proof (Z.mod_pos_bound s 65536).
  assert (0 ≤ s / 65536) by (apply Z.div_pos; uint_lia). set (h := s / 65536) in *. set (l := s mod 65536) in *.
  destruct (oc_spec s) as (k & Hk & Hk0 & Ho & Hz); [uint_lia|].
  split_and!; [lia|lia| |].
  - apply (oc_unique _ _ (k - h)); lia.
  - intros Hb. destruct (decide (s = 0)); [lia|]. assert (h ≤ 1) by lia. lia.
Qed.

Lemma land_high s : is_uint 32 s → Z.land s 4294901760 = 65536 * (s / 65536).
Proof.
  intros Hs. change 4294901760 with (Z.lxor (Z.ones 32) (Z.ones 16)). apply Z.bits_inj'. intros i Hi.
  rewrite Z.land_spec, Z.lxor_spec. replace (65536 * (s / 65536)) with (Z.shiftl (Z.shiftr s 16) 16).
  2:{ rewrite Z.shiftl_mul_pow2, Z.shiftr_div_pow2 by lia. change (2 ^ 16) with 65536. lia. }
  destruct (Z.lt_ge_cases i 16).
  - by rewrite Z.shiftl_spec_low, !Z.ones_spec_low, andb_false_r by lia.
  - rewrite Z.shiftl_spec_high, Z.shiftr_spec by lia. replace (i - 16 + 16) with i by lia.
    destruct (Z.lt_ge_cases i 32).
    + by rewrite Z.ones_spec_low, Z.ones_spec_high, andb_true_r by lia.
    + by rewrite (testbit_high_zero 32 s i), andb_false_l by uint_lia.
Qed.

(** The two forms of the test for a second fold. *)
Lemma carry_test s : is_uint 32 s → (65535 <? s) = negb (Z.land s 4294901760 =? 0).
Proof.
  intros Hs. rewrite land_high by done. pose proof (Z.div_mod s 65536). pose proof (Z.mod_pos_bound s 65536).
  assert (0 ≤ s / 65536) by (apply Z.div_pos; uint_lia).
  destruct (65535 <? s) eqn:E1, (65536 * (s / 65536) =? 0) eqn:E2; bool_props; (done || lia).
Qed.

Lemma add_carries_oc s : is_uint 32 s → add_carries s = oc s.
Proof.
  intros Hs. destruct (fold_oc s Hs) as (Hr & Hoc & Hle). unfold add_carries. fold (FOLD_U32T s). cbv zeta.
  destruct (fold_oc (FOLD_U32T s)) as (_ & _ & H2); [uint_lia|].
  rewrite land_high by uint_lia. case_if as E; bool_props.
  - fold (FOLD_U32T (FOLD_U32T s)). rewrite H2 by lia. done.
  - pose proof (Z.div_mod (FOLD_U32T s) 65536). pose proof (Z.mod_pos_bound (FOLD_U32T s) 65536).
    destruct (oc_spec s) as (k & Hk & Hk0 & Ho & Hz); [uint_lia|].
    destruct (fold_value s Hs) as [Hv _]. rewrite <- Hoc. symmetry. apply (oc_unique _ _ 0); lia.
Qed.

(** Buffers short enough for the 32-bit accumulator. *)
Definition chksum_fits (p : list Z) : Prop := Z.of_nat (length p) ≤ 131000.

Lemma word_sum_fits p : bytes_ok p → chksum_fits p → is_uint 32 (word_sum p).
Proof.
  intros Hp Hf. destruct (word_sum_range p Hp) as [H0 H1]. unfold chksum_fits in Hf. unfold is_uint. split; [done|].
  eapply Z.le_lt_trans; [exact H1|]. apply Z.div_lt_upper_bound; [lia|]. change (2 ^ 32) with 4294967296. lia.
Qed.

Lemma ip_chksum_oc p : bytes_ok p → chksum_fits p → ip_standard_chksum p = swap16 (oc (word_sum p)).
Proof.
  intros Hp Hf. pose proof (word_sum_fits p Hp Hf) as Hs. unfold ip_standard_chksum.
  rewrite chksum_loop_sum, Z.add_0_l, (wrap_small 32), add_carries_oc by (done || uint_lia).
  destruct (oc_spec (word_sum p)) as (k & _ & _ & Ho & _); [uint_lia|]. rewrite wrap_small by uint_lia. done.
Qed.

Lemma wrap_lnot16 x : is_uint 16 x → wrap 16 (Z.lnot x) = 65535 - x.
Proof.
  intros Hx. unfold wrap. rewrite <- (Z_mod_plus_full (Z.lnot x) 1 (2 ^ 16)).
  unfold Z.lnot. rewrite Z.mod_small by uint_lia. uint_lia.
Qed.

(** The checksum is the complement of the sum, in host order. *)
Lemma inet_chksum_oc p : bytes_ok p → chksum_fits p → inet_chksum p = 65535 - oc (256 * word_sum p).
Proof.
  intros Hp Hf. pose proof (word_sum_fits p Hp Hf) as Hs. unfold inet_chksum. rewrite ip_chksum_oc by done.
  destruct (oc_spec (256 * word_sum p)) as (k & _ & _ & Ho & _); [uint_lia|].
  rewrite swap16_oc by uint_lia. apply wrap_lnot16. uint_lia.
Qed.

Lemma oc_add a b : 0 ≤ a → 0 ≤ b → oc (a + oc b) = oc (a + b).
Proof.
  intros Ha Hb. destruct (oc_spec b Hb) as (k & Hk & Hk0 & Ho & Hz).
  destruct (oc_spec (a + b)) as (j & Hj & Hj0 & Ho' & Hz'); [lia|].
  apply (oc_unique _ _ (j - k)); lia.
Qed.

Lemma oc_small s : 0 ≤ s ≤ 65535 → oc s = s.
Proof. intros Hs. apply (oc_unique _ _ 0); lia. Qed.

Lemma fold2_oc s : is_uint 32 s → FOLD_U32T (FOLD_U32T s) = oc s.
Proof.
  intros Hs. destruct (fold_oc s Hs) as (Hr & Hoc & _).
  destruct (fold_oc (FOLD_U32T s)) as (_ & _ & H); [uint_lia|]. rewrite H by lia. done.
Qed.

(** Removes the wrap-around of 32-bit sums that fit, innermost first. *)
Ltac unwrap32 :=
  repeat match goal with
  | |- context [wrap 32 ?e] =>
      lazymatch e with context [wrap] => fail | _ => rewrite (wrap_small 32 e) by uint_lia end
  end.

Lemma pseudo_base_oc p proto acc :
  bytes_ok p → Z.of_nat (length p) < 65536 → is_uint 16 proto → is_uint 16 acc →
  inet_cksum_pseudo_base p proto acc =
    65535 - oc (acc + swap16 proto + swap16 (Z.of_nat (length p)) + 256 * word_sum p).
Proof.
  intros Hp Hl Hpr Hacc. assert (chksum_fits p) as Hf by (unfold chksum_fits; lia).
  pose proof (word_sum_fits p Hp Hf) as Hw.
  assert (is_uint 16 (Z.of_nat (length p))) as Hlen by uint_lia.
  destruct (swap16_spec proto Hpr) as (_ & _ & _ & Hsp). destruct (swap16_spec (Z.of_nat (length p)) Hlen) as (_ & _ & _ & Hsl).
  unfold inet_cksum_pseudo_base. cbv zeta. rewrite ip_chksum_oc by done. rewrite swap16_oc by uint_lia.
  destruct (oc_spec (256 * word_sum p)) as (k2 & _ & _ & Ho2 & _); [uint_lia|].
  rewrite (wrap_small 32 (acc + _)) by uint_lia.
  destruct (fold_oc (acc + oc (256 * word_sum p))) as (_ & _ & Hfold); [uint_lia|].
  rewrite Hfold by uint_lia. rewrite oc_add by uint_lia.
  set (t := acc + 256 * word_sum p) in *. destruct (oc_spec t) as (k3 & Hk3 & Hk30 & Ho3 & Hz3); [uint_lia|].
  rewrite !(wrap_small 16 proto), !(wrap_small 16 (Z.of_nat (length p))) by done.
  replace (if negb (Z.of_nat (length p) mod 2 =? 0) then
             swap16 (if negb (Z.of_nat (length p) mod 2 =? 0) then swap16 (oc t) else oc t)
           else if negb (Z.of_nat (length p) mod 2 =? 0) then swap16 (oc t) else oc t) with (oc t)
    by (destruct (negb _); [symmetry; apply swap16_involutive; uint_lia|done]).
  unwrap32. rewrite fold2_oc by uint_lia.
  replace (oc t + swap16 proto + swap16 (Z.of_nat (length p)))
    with (swap16 proto + swap16 (Z.of_nat (length p)) + oc t) by lia.
  rewrite oc_add by uint_lia.
  replace (swap16 proto + swap16 (Z.of_nat (length p)) + t)
    with (acc + swap16 proto + swap16 (Z.of_nat (length p)) + 256 * word_sum p) by (unfold t; lia).
  destruct (oc_spec (acc + swap16 proto + swap16 (Z.of_nat (length p)) + 256 * word_sum p)) as (k4 & _ & _ & Ho4 & _);
    [uint_lia|].
  rewrite land_65535, Z.mod_small by lia. apply wrap_lnot16. uint_lia.
Qed.

(** The address words of the IPv4 pseudo-header, in host order. *)
Definition address_words (src dest : Z) : Z := src mod 65536 + src / 65536 + dest mod 65536 + dest / 65536.

Lemma high_half a : is_uint 32 a → Z.land (Z.shiftr a 16) 65535 = a / 65536 ∧ 0 ≤ a / 65536 < 65536.
Proof.
  intros Ha. rewrite land_65535, Z.shiftr_div_pow2 by lia. change (2 ^ 16) with 65536.
  assert (0 ≤ a / 65536 < 65536) as Hr by (split; [apply Z.div_pos; uint_lia|apply Z.div_lt_upper_bound; uint_lia]).
  split; [by apply Z.mod_small|done].
Qed.

Lemma pseudo_is_base p proto src dest :
  is_uint 32 src → is_uint 32 dest →
  inet_chksum_pseudo p proto src dest = inet_cksum_pseudo_base p proto (oc (address_words src dest)) ∧
  is_uint 16 (oc (address_words src dest)).
Proof.
  intros Hs Hd. unfold inet_chksum_pseudo. rewrite !land_65535.
  destruct (high_half src Hs) as [Es Hsr]. destruct (high_half dest Hd) as [Ed Hdr].
  rewrite land_65535 in Es, Ed. rewrite Es, Ed.
  pose proof (Z.mod_pos_bound src 65536) as Hsm. pose proof (Z.mod_pos_bound dest 65536) as Hdm.
  unwrap32. fold (address_words src dest). rewrite fold2_oc by (unfold address_words; uint_lia).
  destruct (oc_spec (address_words src dest)) as (k1 & _ & _ & Ho1 & _); [unfold address_words; lia|].
  split; [done|uint_lia].
Qed.

(** ** Filling the field *)

Lemma word_sum_app a b : Nat.Even (length a) → word_sum (a ++ b) = word_sum a + word_sum b.
Proof.
  intros [n Hn]. revert a Hn. induction n as [|n IH]; intros a Hn.
  - destruct a; [done|]. cbn in Hn. lia.
  - destruct a as [|b0 [|b1 a]]; cbn in Hn; [lia|lia|]. cbn. rewrite IH by lia. lia.
Qed.

Lemma store16_bytes w : bytes_ok (store16 w).
Proof.
  unfold store16. rewrite !land_255.
  pose proof (Z.mod_pos_bound w 256). pose proof (Z.mod_pos_bound (Z.shiftr w 8) 256).
  repeat constructor; uint_lia.
Qed.

Lemma word_sum_store16 w : is_uint 16 w → word_sum (store16 w) = swap16 w.
Proof.
  intros Hw. rewrite swap16_val by done. unfold store16. cbn. rewrite !land_255, Z.shiftr_div_pow2 by lia.
  change (2 ^ 8) with 256. rewrite (Z.mod_small (w / 256)); [lia|].
  split; [apply Z.div_pos; uint_lia|apply Z.div_lt_upper_bound; uint_lia].
Qed.

(** What the writers store: the checksum, or 0xffff where it is zero. *)
Definition stores_chksum (chk field : Z) : Prop := field = chk ∨ (chk = 0 ∧ field = 65535).

Section fill.
Context (a b : list Z) (Heven : Nat.Even (length a)) (Ha : bytes_ok a) (Hb : bytes_ok b).

(** A buffer whose field holds the checksum computed over it with a zero field. *)
Definition filled (field : Z) : list Z := a ++ store16 field ++ b.

Lemma filled_bytes field : bytes_ok (filled field).
Proof. unfold filled. rewrite !Forall_app. split_and!; [done|apply store16_bytes|done]. Qed.

Lemma filled_length field : length (filled field) = (length a + 2 + length b)%nat.
Proof. unfold filled. rewrite !length_app. cbn. lia. Qed.

Lemma filled_sum field : is_uint 16 field → word_sum (filled field) = word_sum (filled 0) + swap16 field.
Proof.
  intros Hf. unfold filled. rewrite !(word_sum_app a), !(word_sum_app (store16 _)) by (done || by exists 1%nat).
  rewrite !word_sum_store16 by (done || uint_lia). change (swap16 0) with 0. lia.
Qed.

Lemma fill_complement base field :
  0 ≤ base → stores_chksum (65535 - oc (base + 256 * word_sum (filled 0))) field →
  0 ≤ word_sum (filled 0) →
  is_uint 16 field ∧ oc (base + 256 * word_sum (filled field)) = 65535.
Proof.
  intros Hbase Hst H0. destruct (oc_spec (base + 256 * word_sum (filled 0))) as (k & Hk & Hk0 & Ho & Hz); [lia|].
  assert (is_uint 16 field) as Hf by (destruct Hst as [->|[_ ->]]; uint_lia). split; [done|].
  rewrite filled_sum by done. destruct (swap16_spec field Hf) as (j & Hj & Hj2 & Hs).
  destruct Hst as [Hst|[Hst1 Hst2]].
  - apply (oc_unique _ _ (256 * 256 - 1 - oc (base + 256 * word_sum (filled 0)) + k - 256 * j)); uint_lia.
  - apply (oc_unique _ _ (256 * 256 + k - 256 * j)); uint_lia.
Qed.

Lemma chksum_verifies field :
  chksum_fits (filled 0) → stores_chksum (inet_chksum (filled 0)) field → inet_chksum (filled field) = 0.
Proof.
  intros Hf. assert (chksum_fits (filled field)) as Hf' by (unfold chksum_fits in *; rewrite filled_length in *; done).
  rewrite !inet_chksum_oc by (done || apply filled_bytes). intros Hst.
  destruct (word_sum_range _ (filled_bytes 0)) as [H0 _].
  destruct (fill_complement 0 field) as [_ H]; [done..|]. rewrite Z.add_0_l in H. lia.
Qed.

Lemma pseudo_base_verifies field proto acc :
  Z.of_nat (length (filled 0)) < 65536 → is_uint 16 proto → is_uint 16 acc →
  stores_chksum (inet_cksum_pseudo_base (filled 0) proto acc) field →
  inet_cksum_pseudo_base (filled field) proto acc = 0.
Proof.
  intros Hl Hp Hacc. rewrite !pseudo_base_oc; try done; try apply filled_bytes; [|by rewrite filled_length in *].
  rewrite !filled_length in *. intros Hst. destruct (word_sum_range _ (filled_bytes 0)) as [H0 _].
  destruct (swap16_spec proto Hp) as (_ & _ & _ & H1).
  destruct (swap16_spec (Z.of_nat (length a + 2 + length b))) as (_ & _ & _ & H2); [uint_lia|].
  set (w := acc + swap16 proto + swap16 _) in *. assert (0 ≤ w) by (unfold w; uint_lia).
  destruct (fill_complement w field) as [_ H']; [done..|]. lia.
Qed.

Lemma pseudo_verifies field proto src dest :
  Z.of_nat (length (filled 0)) < 65536 → is_uint 16 proto → is_uint 32 src → is_uint 32 dest →
  stores_chksum (inet_chksum_pseudo (filled 0) proto src dest) field →
  inet_chksum_pseudo (filled field) proto src dest = 0.
Proof.
  intros Hl Hp Hs Hd. rewrite !(proj1 (pseudo_is_base _ proto src dest Hs Hd)).
  apply pseudo_base_verifies; [done|done|]. apply (pseudo_is_base [] proto src dest Hs Hd).
Qed.
End fill.

(** ** SSE2 and scalar sums *)

Lemma simd_word_be16 b0 b1 : is_byte b0 → is_byte b1 → simd_word b0 b1 = be16 b0 b1.
Proof.
  intros H0 H1. unfold simd_word. rewrite be16_add by done.
  rewrite (Z.lor_comm b0), lor_shift_add by done. change (2 ^ 8) with 256.
  rewrite Z.shiftr_div_pow2, Z.shiftl_mul_pow2 by lia. change (2 ^ 8) with 256.
  rewrite Z.div_add_l, (Z.div_small b0) by uint_lia. rewrite land_255, Z.add_0_r, Z.mod_small by uint_lia.
  replace (wrap 16 ((b1 * 256 + b0) * 256)) with (Z.shiftl b0 8).
  - replace (Z.land (Z.shiftl b0 8) 65280) with (Z.shiftl b0 8).
    + rewrite lor_shift_add by uint_lia. change (2 ^ 8) with 256. lia.
    + change 65280 with (Z.shiftl 255 8). rewrite <- Z.shiftl_land, land_255, Z.mod_small by uint_lia. done.
  - rewrite Z.shiftl_mul_pow2 by lia. unfold wrap. change (2 ^ 16) with (256 * 256). change (2 ^ 8) with 256.
    replace ((b1 * 256 + b0) * 256) with (b0 * 256 + b1 * (256 * 256)) by ring.
    rewrite Z_mod_plus_full, Z.mod_small by uint_lia. done.
Qed.

Lemma wrap_cong w x : ∃ k, wrap w x = x + k * 2 ^ w.
Proof.
  unfold wrap. destruct (decide (2 ^ w = 0)) as [E|E]; [exists 0; rewrite E, Z.mod_0_r; lia|].
  exists (- (x / 2 ^ w)). rewrite Z.mod_eq by done. lia.
Qed.

Definition lanes_sum (t : lanes) : Z := lane0 t + lane1 t + lane2 t + lane3 t.

Lemma simd_low_sum p : bytes_ok p → (8 ≤ length p)%nat → lanes_sum (simd_low p) = word_sum (take 8 p).
Proof.
  intros Hp Hl. unfold lanes_sum, simd_low. cbn [lane0 lane1 lane2 lane3].
  rewrite !simd_word_be16, !be16_add by (by apply byte_at_range).
  do 8 (destruct p as [|? p]; [cbn in Hl; lia|]). unfold byte_at. cbn. rewrite take_0. cbn.
  lia.
Qed.

Lemma add_epi32_sum a b : wrap 32 (lanes_sum (mm_add_epi32 a b)) = wrap 32 (lanes_sum a + lanes_sum b).
Proof.
  unfold lanes_sum, mm_add_epi32. cbn [lane0 lane1 lane2 lane3].
  destruct (wrap_cong 32 (lane0 a + lane0 b)) as [k0 ->]. destruct (wrap_cong 32 (lane1 a + lane1 b)) as [k1 ->].
  destruct (wrap_cong 32 (lane2 a + lane2 b)) as [k2 ->]. destruct (wrap_cong 32 (lane3 a + lane3 b)) as [k3 ->].
  unfold wrap. rewrite <- (Z_mod_plus_full (_ + (lane0 b + _ + _ + _)) (k0 + k1 + k2 + k3)). f_equal. lia.
Qed.

Lemma simd_blocks_sum n t p :
  bytes_ok p → (16 * n ≤ length p)%nat →
  let r := simd_blocks n t p in
  r.2 = drop (16 * n) p ∧ wrap 32 (lanes_sum r.1) = wrap 32 (lanes_sum t + word_sum (take (16 * n) p)).
Proof.
  revert t p. induction n as [|n IH]; intros t p Hp Hl.
  - cbn. rewrite drop_0, Z.add_0_r. done.
  - cbn [simd_blocks]. edestruct (IH (mm_add_epi32 (mm_add_epi32 t (simd_low p)) (simd_high p)) (drop 16 p))
      as [E1 E2]; [by apply bytes_ok_drop|rewrite length_drop; lia|].
    split; [rewrite E1, drop_drop; f_equal; lia|]. rewrite E2.
    rewrite <- wrap_add_l, add_epi32_sum, wrap_add_l.
    replace (take (16 * S n) p) with (take 16 p ++ take (16 * n) (drop 16 p))
      by (rewrite take_take_drop; f_equal; lia).
    rewrite word_sum_app by (rewrite length_take_le by lia; by exists 8%nat).
    assert (lanes_sum (simd_low p) + lanes_sum (simd_high p) = word_sum (take 16 p)) as Hblk.
    { unfold simd_high. rewrite !simd_low_sum by (try apply bytes_ok_drop; rewrite ?length_drop; done || lia).
      replace (take 16 p) with (take 8 p ++ take 8 (drop 8 p)) by (by rewrite take_take_drop).
      rewrite word_sum_app; [done|]. rewrite length_take_le by lia. by exists 4%nat. }
    rewrite <- !Z.add_assoc, <- wrap_add_l, add_epi32_sum, wrap_add_l. f_equal. lia.
Qed.

Lemma horizontal_sum t :
  0 +[32] (((lane0 t +[32] lane1 t) +[32] lane2 t) +[32] lane3 t) = wrap 32 (lanes_sum t).
Proof.
  rewrite Z.add_0_l, (wrap_small 32 (wrap 32 _)), wrap_add_l by (by apply wrap_range).
  rewrite <- Z.add_assoc, wrap_add_l. unfold lanes_sum. f_equal. lia.
Qed.

(** The SSE2 checksum, which sums sixteen bytes at a time in four 32-bit lanes, returns the
    same word as the scalar loop on every buffer of every length, also where the 32-bit
    accumulators wrap around. *)
Theorem chksum_simd_scalar p : bytes_ok p → ip_standard_chksum_simd p = ip_standard_chksum p.
Proof.
  intros Hp. unfold ip_standard_chksum_simd, ip_standard_chksum. case_decide as H0.
  { apply nil_length_inv in H0 as ->. done. }
  assert (∀ acc p', is_uint 32 acc → bytes_ok p' → wrap 32 (acc + word_sum p') = wrap 32 (word_sum p) →
    chksum_loop acc p' = chksum_loop 0 p) as Hloop.
  { intros acc p' Ha Hp' E. rewrite !chksum_loop_sum by (done || uint_lia). by rewrite E, Z.add_0_l. }
  match goal with |- context [let '(_, _) := ?e in _] => set (st := e) end.
  assert (chksum_loop st.1 st.2 = chksum_loop 0 p) as Hst.
  { subst st. case_decide as Hl; [|done].
    pose proof (Nat.Div0.mul_div_le (length p) 16) as Hle.
    destruct (simd_blocks_sum (length p / 16) (mkLanes 0 0 0 0) p Hp Hle) as [E1 E2].
    destruct (simd_blocks _ _ p) as [t p']. cbn [fst snd] in *. subst p'.
    apply Hloop; [by apply wrap_range|by apply bytes_ok_drop|].
    rewrite horizontal_sum, wrap_add_l, <- wrap_add_l, E2, wrap_add_l. cbn [lanes_sum lane0 lane1 lane2 lane3].
    unfold lanes_sum. cbn [lane0 lane1 lane2 lane3]. rewrite Z.add_0_l, <- word_sum_app, take_drop; [done|].
    rewrite length_take_le by lia. exists (8 * (length p / 16))%nat. lia. }
  destruct st as [acc p']. cbn [fst snd] in Hst. rewrite Hst. unfold add_carries.
  rewrite carry_test by (by apply wrap_range). done.
Qed.

Lemma chksum_simd_scalar_witness :
  bytes_ok (seqZ 0 37) ∧ ip_standard_chksum_simd (seqZ 0 37) = ip_standard_chksum (seqZ 0 37).
Proof.
  assert (bytes_ok (seqZ 0 37)) as H by decide_true. split; [exact H|]. apply (chksum_simd_scalar (seqZ 0 37) H).
Defined.
