(* ===== verification/PacketFrames.v ===== *)
(** IPv4, UDP and ICMP frames ([src/ppp/net/packet/IPFrame.cpp], [UdpFrame.cpp], [IcmpFrame.cpp],
    the header parsers of [src/ppp/net/native/checksum.cpp]).

    A [BufferSegment] is the list of its bytes, a null pointer [None].  Addresses are 32-bit words
    in memory order on a little-endian host.  [flash] is [Socket::IsDefaultFlashTypeOfService()],
    [checks] says whether the program is built with PACKET_CHECKSUM, [default_ttl] is
    [Socket::GetDefaultTTL()]. *)

From S2P Require Import Prelude PacketChecksum.

(** ** Headers *)

Definition store32 (x : Z) : list Z := rev (be_bytes 4 x).
Definition load32 (p : list Z) : Z := be32 (byte_at p 3) (byte_at p 2) (byte_at p 1) (byte_at p 0).
Definition load16 (p : list Z) : Z := be16 (byte_at p 1) (byte_at p 0).

(** Overwrites the bytes at [off]. *)
Definition patch (p : list Z) (off : nat) (bs : list Z) : list Z :=
  take off p ++ bs ++ drop (off + length bs) p.

Definition IP_HLEN : Z := 20.
Definition IP_VER : Z := 4.
Definition IP_ADDR_ANY_VALUE : Z := 0.
Definition IP_ADDR_BROADCAST_VALUE : Z := 4294967295.
Definition IP_PROTO_ICMP : Z := 1.
Definition IP_PROTO_TCP : Z := 6.
Definition IP_PROTO_UDP : Z := 17.
Definition IP_DF : Z := 16384.
Definition IP_MF : Z := 8192.
Definition IP_OFFMASK : Z := 8191.
Definition MTU : Z := 1500.

Definition IPH_V (p : list Z) : Z := Z.shiftr (byte_at p 0) 4.
Definition IPH_HL (p : list Z) : Z := Z.land (byte_at p 0) 15.
Definition IPH_PROTO (p : list Z) : Z := Z.land (byte_at p 9) 255.
Definition IPH_TTL (p : list Z) : Z := Z.land (byte_at p 8) 255.

(** [ip_hdr::Parse]: the accepted length, and the packet, whose length field is corrected when it
    exceeds the buffer. *)
Definition ip_hdr_Parse (checks : bool) (p : list Z) : option Z * list Z :=
  let len := Z.of_nat (length p) in
  if negb (IPH_V p =? IP_VER) then (None, p)
  else
    let iphdr_hlen := Z.shiftl (IPH_HL p) 2 in
    if len <? iphdr_hlen then (None, p)
    else if iphdr_hlen <? IP_HLEN then (None, p)
    else if IPH_TTL p <? 1 then (None, p)
    else
      let reft := get16 (drop 2 p) in
      let '(len, p) :=
        if negb (len =? reft) then
          if len <? reft then (len, patch p 2 (be_bytes 2 len)) else (reft, p)
        else (len, p) in
      let src := load32 (drop 12 p) in
      let dest := load32 (drop 16 p) in
      if dest =? IP_ADDR_ANY_VALUE then (None, p)
      else if (src =? IP_ADDR_ANY_VALUE) || (src =? IP_ADDR_BROADCAST_VALUE) then (None, p)
      else if checks && negb (load16 (drop 10 p) =? 0) && negb (inet_chksum (take (Z.to_nat iphdr_hlen) p) =? 0)
      then (None, p)
      else
        let proto := IPH_PROTO p in
        if (proto =? IP_PROTO_UDP) || (proto =? IP_PROTO_TCP) || (proto =? IP_PROTO_ICMP)
        then (Some len, p) else (None, p).

(** ** IPv4 frames *)

Inductive AddressFamily := InterNetwork | InterNetworkV6.

#[global] Instance AddressFamily_eq_dec : EqDecision AddressFamily.
Proof. solve_decision. Defined.

Record IPFrame := mkIPFrame {
  if_AddressesFamily : AddressFamily;
  if_Destination : Z;
  if_Source : Z;
  if_Ttl : Z;
  if_Id : Z;
  if_Tos : Z;
  if_ProtocolType : Z;
  if_Flags : Z;
  if_Payload : option (list Z);
  if_Options : option (list Z)
}.

Definition DefaultFlashTypeOfService : Z := 104.

Section frames.
Context (flash checks : bool) (default_ttl : Z).

Definition IPFrame_new : IPFrame :=
  mkIPFrame InterNetwork 0 0 default_ttl 0 (if flash then DefaultFlashTypeOfService else 0) 0 IP_DF None None.

Definition GetFragmentOffset (f : IPFrame) : Z :=
  let offset := wrap 16 (if_Flags f) in
  let offset := Z.shiftr (wrap 16 (Z.shiftl offset 3)) 3 in
  Z.shiftl offset 3.

Definition SetFragmentOffset (f : IPFrame) (value : Z) : IPFrame :=
  let flags := Z.shiftr (if_Flags f) 13 in
  let flags := Z.lor (Z.shiftl flags 13) (Z.shiftr value 3) in
  mkIPFrame (if_AddressesFamily f) (if_Destination f) (if_Source f) (if_Ttl f) (if_Id f) (if_Tos f)
    (if_ProtocolType f) flags (if_Payload f) (if_Options f).

Definition segment_bytes (s : option (list Z)) : list Z := default [] s.

Definition IPFrame_SizeOf (f : IPFrame) : Z :=
  let options_size := Z.of_nat (length (segment_bytes (if_Options f))) in
  let payload_offset := IP_HLEN + options_size in
  payload_offset + Z.of_nat (length (segment_bytes (if_Payload f))).

(** The header and the options with a given checksum field. *)
Definition ip_header (f : IPFrame) (chksum : Z) : list Z :=
  let payload_offset := IP_HLEN + Z.of_nat (length (segment_bytes (if_Options f))) in
  [Z.land (Z.lor (Z.shiftl 4 4) (Z.shiftr payload_offset 2)) 255; if_Tos f] ++
  be_bytes 2 (IPFrame_SizeOf f) ++ be_bytes 2 (if_Id f) ++
  be_bytes 2 (if if_Flags f =? 0 then IP_DF else if_Flags f) ++
  [if_Ttl f; if_ProtocolType f] ++ store16 chksum ++ store32 (if_Source f) ++ store32 (if_Destination f) ++
  segment_bytes (if_Options f).

Definition chksum_or_ones (chk : Z) : Z := if chk =? 0 then 65535 else chk.

Definition IPFrame_ToArray (f : IPFrame) : list Z :=
  ip_header f (chksum_or_ones (inet_chksum (ip_header f 0))) ++ segment_bytes (if_Payload f).

(** A segment copied out of the packet, absent when it has no bytes. *)
Definition copied_segment (p : list Z) (off size : Z) : option (list Z) :=
  if 0 <? size then Some (sub p (Z.to_nat off) (Z.to_nat size)) else None.

Definition IPFrame_Parse (p : list Z) : option IPFrame * list Z :=
  let '(size, p) := ip_hdr_Parse checks p in
  match size with
  | None => (None, p)
  | Some size =>
      let tos := byte_at p 1 in
      let iphdr_hlen := Z.shiftl (IPH_HL p) 2 in
      (Some (mkIPFrame InterNetwork (load32 (drop 16 p)) (load32 (drop 12 p)) (byte_at p 8)
               (get16 (drop 4 p)) (if flash then Z.max tos DefaultFlashTypeOfService else tos) (byte_at p 9)
               (get16 (drop 6 p)) (copied_segment p iphdr_hlen (size - iphdr_hlen))
               (copied_segment p IP_HLEN (iphdr_hlen - IP_HLEN))), p)
  end.

(** ** UDP frames *)

Record EndPoint := mkEndPoint { ep_address : Z; ep_port : Z }.

Record UdpFrame := mkUdpFrame {
  uf_Source : EndPoint;
  uf_Destination : EndPoint;
  uf_AddressesFamily : AddressFamily;
  uf_Ttl : Z;
  uf_Payload : option (list Z)
}.

(** A conversion returns a frame, a null pointer, or throws. *)
Inductive ToIpResult := ToIpFrame (f : IPFrame) | ToIpNull | ToIpThrows.

Definition udp_segment (source destination : EndPoint) (payload : list Z) (chksum : Z) : list Z :=
  be_bytes 2 (ep_port source) ++ be_bytes 2 (ep_port destination) ++
  be_bytes 2 (8 + Z.of_nat (length payload)) ++ store16 chksum ++ payload.

Definition udp_message (source destination : EndPoint) (payload : list Z) : list Z :=
  udp_segment source destination payload
    (chksum_or_ones (inet_chksum_pseudo (udp_segment source destination payload 0) IP_PROTO_UDP
                       (ep_address source) (ep_address destination))).

Definition UdpFrame_ToIp (u : UdpFrame) : ToIpResult :=
  if decide (uf_AddressesFamily u ≠ InterNetwork) then ToIpThrows
  else
    match uf_Payload u with
    | None => ToIpNull
    | Some payload =>
        if decide (payload = []) then ToIpNull
        else
          ToIpFrame (mkIPFrame (if_AddressesFamily IPFrame_new) (ep_address (uf_Destination u)) (ep_address (uf_Source u))
            (uf_Ttl u) (if_Id IPFrame_new) (if flash then DefaultFlashTypeOfService else 4) IP_PROTO_UDP 0
            (Some (udp_message (uf_Source u) (uf_Destination u) payload)) (if_Options IPFrame_new))
    end.

Definition UdpFrame_ToIPv4Packet (source destination : EndPoint) (ttl : Z) (payload : list Z) : option (list Z) :=
  if decide (payload = []) then None
  else
    let udp_size := 8 + Z.of_nat (length payload) in
    let max := Z.shiftl (Z.shiftr (MTU - IP_HLEN) 3) 3 in
    if max <? udp_size then None
    else
      let total := IP_HLEN + udp_size in
      let segment := udp_message source destination payload in
      let header chksum :=
        [Z.lor (Z.shiftl 4 4) (Z.shiftr IP_HLEN 2); if flash then DefaultFlashTypeOfService else 4] ++
        be_bytes 2 total ++ be_bytes 2 0 ++ be_bytes 2 IP_DF ++ [ttl; IP_PROTO_UDP] ++ store16 chksum ++
        store32 (ep_address source) ++ store32 (ep_address destination) in
      Some (header (chksum_or_ones (inet_chksum (header 0))) ++ segment).

Definition UdpFrame_Parse (f : IPFrame) : option UdpFrame :=
  match if_Payload f with
  | None => None
  | Some messages =>
      let len := Z.of_nat (length messages) in
      if len <=? 0 then None
      else if len <? 8 then None
      else if negb (len =? get16 (drop 4 messages)) then None
      else
        let payload_len := len - 8 in
        if payload_len <=? 0 then None
        else if checks && negb (load16 (drop 6 messages) =? 0) &&
                negb (inet_chksum_pseudo messages IP_PROTO_UDP (if_Source f) (if_Destination f) =? 0)
        then None
        else Some (mkUdpFrame (mkEndPoint (if_Source f) (get16 messages))
                     (mkEndPoint (if_Destination f) (get16 (drop 2 messages)))
                     InterNetwork (if_Ttl f) (Some (drop 8 messages)))
  end.

(** ** ICMP frames *)

Record IcmpFrame := mkIcmpFrame {
  cf_Type : Z;
  cf_Code : Z;
  cf_Identification : Z;
  cf_Sequence : Z;
  cf_Source : Z;
  cf_Destination : Z;
  cf_Ttl : Z;
  cf_AddressesFamily : AddressFamily;
  cf_Payload : option (list Z)
}.

Definition icmp_packet (c : IcmpFrame) (chksum : Z) : list Z :=
  [Z.land (cf_Type c) 255; cf_Code c] ++ store16 chksum ++ be_bytes 2 (cf_Identification c) ++
  be_bytes 2 (cf_Sequence c) ++ segment_bytes (cf_Payload c).

Definition IcmpFrame_ToIp (c : IcmpFrame) : ToIpResult :=
  if decide (cf_AddressesFamily c ≠ InterNetwork) then ToIpThrows
  else
    let packet := icmp_packet c (chksum_or_ones (inet_chksum (icmp_packet c 0))) in
    ToIpFrame (mkIPFrame (if_AddressesFamily IPFrame_new) (cf_Destination c) (cf_Source c) (cf_Ttl c)
      (if_Id IPFrame_new) (if_Tos IPFrame_new) IP_PROTO_ICMP (if_Flags IPFrame_new) (Some packet)
      (if_Options IPFrame_new)).

Definition IcmpFrame_Parse (f : IPFrame) : option IcmpFrame :=
  if negb (if_ProtocolType f =? IP_PROTO_ICMP) then None
  else
    match if_Payload f with
    | None => None
    | Some messages =>
        let len := Z.of_nat (length messages) in
        if len <=? 0 then None
        else if len <? 8 then None
        else if checks && negb (load16 (drop 2 messages) =? 0) && negb (inet_chksum messages =? 0) then None
        else Some (mkIcmpFrame (byte_at messages 0) (byte_at messages 1) (get16 (drop 4 messages))
                     (get16 (drop 6 messages)) (if_Source f) (if_Destination f) (if_Ttl f)
                     (if_AddressesFamily f) (Some (drop 8 messages)))
    end.
End frames.

(** ** Fields of a written header *)

Lemma length_store32 x : length (store32 x) = 4%nat.
Proof. done. Qed.

Lemma bytes_ok_store32 x : bytes_ok (store32 x).
Proof. unfold store32. apply Forall_rev. apply bytes_ok_be_bytes. Qed.

Lemma load32_store32 x r : is_uint 32 x → load32 (store32 x ++ r) = x.
Proof.
  intros Hx. rewrite <- (get32_be_bytes x [] Hx) at 2. reflexivity.
Qed.

Lemma load16_store16 x r : is_uint 16 x → load16 (store16 x ++ r) = x.
Proof.
  intros Hx. rewrite <- (get16_be_bytes x [] Hx) at 2.
  unfold load16, store16, get16, byte_at, be_bytes. cbn. by rewrite Z.shiftr_0_r.
Qed.

Lemma load32_bytes p : bytes_ok p → is_uint 32 (load32 p).
Proof.
  intros Hp. unfold load32. rewrite be32_value. apply (be_value_range [_; _; _; _]).
  repeat constructor; by apply byte_at_range.
Qed.

Definition stored_flags (f : IPFrame) : Z := if if_Flags f =? 0 then IP_DF else if_Flags f.

Section header.
Context (f : IPFrame) (chk : Z) (r : list Z).
Let p := ip_header f chk ++ r.

Lemma header_size : is_uint 16 (IPFrame_SizeOf f) → get16 (drop 2 p) = IPFrame_SizeOf f.
Proof. apply get16_be_bytes. Qed.

Lemma header_id : is_uint 16 (if_Id f) → get16 (drop 4 p) = if_Id f.
Proof. apply get16_be_bytes. Qed.

Lemma header_flags : is_uint 16 (stored_flags f) → get16 (drop 6 p) = stored_flags f.
Proof. apply get16_be_bytes. Qed.

Lemma header_chksum : is_uint 16 chk → load16 (drop 10 p) = chk.
Proof. apply load16_store16. Qed.

Lemma header_source : is_uint 32 (if_Source f) → load32 (drop 12 p) = if_Source f.
Proof. apply load32_store32. Qed.

Lemma header_dest : is_uint 32 (if_Destination f) → load32 (drop 16 p) = if_Destination f.
Proof. apply load32_store32. Qed.

Lemma header_bytes1 :
  byte_at p 1 = if_Tos f ∧ byte_at p 8 = if_Ttl f ∧ byte_at p 9 = if_ProtocolType f.
Proof. done. Qed.
End header.

(** ** Round trips *)

(** What [IPFrame::Parse] accepts of the frames [ToArray] writes. *)
Record ip_frame_ok (f : IPFrame) : Prop := {
  fo_family : if_AddressesFamily f = InterNetwork;
  fo_addresses : is_uint 32 (if_Source f) ∧ is_uint 32 (if_Destination f);
  fo_unicast : if_Destination f ≠ IP_ADDR_ANY_VALUE ∧ if_Source f ≠ IP_ADDR_ANY_VALUE ∧
    if_Source f ≠ IP_ADDR_BROADCAST_VALUE;
  fo_bytes : is_byte (if_Ttl f) ∧ if_Ttl f ≠ 0 ∧ is_byte (if_Tos f);
  fo_words : is_uint 16 (if_Id f) ∧ is_uint 16 (if_Flags f);
  fo_protocol : if_ProtocolType f ∈ [IP_PROTO_UDP; IP_PROTO_TCP; IP_PROTO_ICMP];
  fo_options : ∃ k, length (segment_bytes (if_Options f)) = (4 * k)%nat ∧ (k ≤ 10)%nat;
  fo_segments : if_Options f ≠ Some [] ∧ if_Payload f ≠ Some [] ∧
    bytes_ok (segment_bytes (if_Options f)) ∧ bytes_ok (segment_bytes (if_Payload f));
  fo_size : IPFrame_SizeOf f < 65536
}.

(** The frame a receiver reads: zero flags were sent as DF, a flash receiver raises the TOS. *)
Definition received (flash : bool) (f : IPFrame) : IPFrame :=
  mkIPFrame (if_AddressesFamily f) (if_Destination f) (if_Source f) (if_Ttl f) (if_Id f)
    (if flash then Z.max (if_Tos f) DefaultFlashTypeOfService else if_Tos f) (if_ProtocolType f)
    (stored_flags f) (if_Payload f) (if_Options f).

Lemma length_ip_header f chk :
  length (ip_header f chk) = (20 + length (segment_bytes (if_Options f)))%nat.
Proof. done. Qed.

Lemma drop_ip_header f chk r : drop 20 (ip_header f chk ++ r) = segment_bytes (if_Options f) ++ r.
Proof. done. Qed.

Lemma version_byte k f chk r :
  length (segment_bytes (if_Options f)) = (4 * k)%nat → (k ≤ 10)%nat →
  let b := byte_at (ip_header f chk ++ r) 0 in
  is_byte b ∧ Z.shiftr b 4 = 4 ∧ Z.shiftl (Z.land b 15) 2 = 20 + Z.of_nat (4 * k).
Proof.
  intros Hk Hle. cbv zeta. unfold ip_header. rewrite Hk. unfold byte_at. cbn [nth app].
  do 11 (destruct k as [|k]; [vm_compute; split_and!; congruence|]). lia.
Qed.

Lemma bytes_ok_header f chk :
  ip_frame_ok f → bytes_ok (ip_header f chk).
Proof.
  intros [_ _ _ (H1 & _ & H2) _ Hp (k & Hk & Hle) (_ & _ & Ho & _) _].
  destruct (version_byte k f chk [] Hk Hle) as (Hb & _). rewrite app_nil_r in Hb.
  unfold ip_header in *. apply Forall_app. split; [apply Forall_cons; split; [exact Hb|by apply Forall_singleton]|].
  rewrite !Forall_app. split_and!; try apply bytes_ok_be_bytes; try apply store16_bytes; try apply bytes_ok_store32; [|done].
  apply Forall_cons; split; [done|]. apply Forall_singleton. rewrite !elem_of_cons, elem_of_nil in Hp.
  destruct Hp as [->|[->|[->|[]]]]; unfold IP_PROTO_UDP, IP_PROTO_TCP, IP_PROTO_ICMP; uint_lia.
Qed.

Lemma stores_chksum_or_ones chk : stores_chksum chk (chksum_or_ones chk).
Proof. unfold stores_chksum, chksum_or_ones. case_if as E; bool_props; auto. Qed.

(** The header as a buffer with a checksum field. *)
Lemma ip_header_filled f :
  ip_frame_ok f → ∃ a b, Nat.Even (length a) ∧ bytes_ok a ∧ bytes_ok b ∧
    (∀ chk, ip_header f chk = filled a b chk).
Proof.
  intros Hf. pose proof (bytes_ok_header f 0 Hf) as Hb.
  exists (take 10 (ip_header f 0)), (drop 12 (ip_header f 0)). split_and!.
  - exists 5%nat. done.
  - by apply bytes_ok_take.
  - by apply bytes_ok_drop.
  - done.
Qed.

Lemma ip_header_verifies f :
  ip_frame_ok f → inet_chksum (ip_header f (chksum_or_ones (inet_chksum (ip_header f 0)))) = 0.
Proof.
  intros Hf. pose proof (length_ip_header f 0) as Hl. destruct (fo_options f Hf) as (k & Hk & Hle).
  destruct (ip_header_filled f Hf) as (a & b & He & Ha & Hb & E). rewrite !E in *.
  apply chksum_verifies; try done; [|apply stores_chksum_or_ones].
  unfold chksum_fits. rewrite Hl. lia.
Qed.

Lemma chksum_or_ones_range p : is_uint 16 (chksum_or_ones (inet_chksum p)).
Proof.
  unfold chksum_or_ones. case_if as E; [uint_lia|]. unfold inet_chksum. by apply wrap_range.
Qed.

Lemma copied_some p off s :
  s ≠ Some [] →
  sub p (Z.to_nat off) (length (segment_bytes s)) = segment_bytes s →
  copied_segment p off (Z.of_nat (length (segment_bytes s))) = s.
Proof.
  intros Hne Hsub. unfold copied_segment. rewrite Nat2Z.id, Hsub.
  destruct s as [[|b s]|]; [done| |done]. by case_if as E; bool_props; cbn in E; [|lia].
Qed.

Lemma ip_hdr_Parse_ok checks q hl :
  IPH_V q = IP_VER → Z.shiftl (IPH_HL q) 2 = hl → 20 ≤ hl ≤ Z.of_nat (length q) → 1 ≤ IPH_TTL q →
  get16 (drop 2 q) = Z.of_nat (length q) → load32 (drop 16 q) ≠ IP_ADDR_ANY_VALUE →
  load32 (drop 12 q) ≠ IP_ADDR_ANY_VALUE ∧ load32 (drop 12 q) ≠ IP_ADDR_BROADCAST_VALUE →
  inet_chksum (take (Z.to_nat hl) q) = 0 →
  IPH_PROTO q = IP_PROTO_UDP ∨ IPH_PROTO q = IP_PROTO_TCP ∨ IPH_PROTO q = IP_PROTO_ICMP →
  ip_hdr_Parse checks q = (Some (Z.of_nat (length q)), q).
Proof.
  intros Hv Hh Hl Ht Hr Hd [Hs Hb] Hc Hp. unfold ip_hdr_Parse. rewrite Hv, Hh, Hr, !Z.eqb_refl. cbn [negb].
  rewrite (proj2 (Z.ltb_ge _ _)) by lia. rewrite (proj2 (Z.ltb_ge _ _)) by (unfold IP_HLEN; lia).
  rewrite (proj2 (Z.ltb_ge _ _)) by lia.
  rewrite (proj2 (Z.eqb_neq _ _) Hd), (proj2 (Z.eqb_neq _ _) Hs), (proj2 (Z.eqb_neq _ _) Hb).
  rewrite Hc, Z.eqb_refl, andb_false_r. cbn [orb].
  destruct Hp as [->|[->| ->]]; done.
Qed.

Lemma ip_parse_array flash checks f :
  ip_frame_ok f →
  IPFrame_Parse flash checks (IPFrame_ToArray f) = (Some (received flash f), IPFrame_ToArray f).
Proof.
  intros Hf. pose proof Hf as [Hfam [Hs Hd] (Hd0 & Hs0 & Hsb) (Ht & Ht0 & Htos) [Hid Hfl] Hp (k & Hk & Hle) (Ho & Hpl & _ & _) Hsz].
  unfold IPFrame_ToArray. set (chk := chksum_or_ones _). pose proof (chksum_or_ones_range (ip_header f 0)) as Hchk. fold chk in Hchk.
  pose proof (ip_header_verifies f Hf) as Hv. fold chk in Hv. set (pl := segment_bytes (if_Payload f)).
  destruct (version_byte k f chk pl Hk Hle) as (_ & Hver & Hhl).
  destruct (header_bytes1 f chk pl) as (B1 & B8 & B9).
  assert (is_uint 16 (stored_flags f)) as Hsf by (unfold stored_flags; case_if as E; unfold IP_DF in *; uint_lia).
  assert (is_uint 16 (IPFrame_SizeOf f)) as Hsz' by (unfold IPFrame_SizeOf, IP_HLEN in *; uint_lia).
  pose proof (header_size f chk pl Hsz') as E2. pose proof (header_id f chk pl Hid) as E4.
  pose proof (header_flags f chk pl Hsf) as E6. pose proof (header_chksum f chk pl Hchk) as E10.
  pose proof (header_source f chk pl Hs) as E12. pose proof (header_dest f chk pl Hd) as E16.
  assert (Z.of_nat (length (ip_header f chk ++ pl)) = IPFrame_SizeOf f) as Hlen.
  { rewrite length_app, length_ip_header. unfold IPFrame_SizeOf, IP_HLEN, pl. lia. }
  assert (take (Z.to_nat (20 + Z.of_nat (4 * k))) (ip_header f chk ++ pl) = ip_header f chk) as Htake.
  { apply take_app_length'. rewrite length_ip_header. lia. }
  unfold IPFrame_Parse.
  assert (IPH_HL (ip_header f chk ++ pl) = Z.land (byte_at (ip_header f chk ++ pl) 0) 15) as Ehl by done.
  rewrite (ip_hdr_Parse_ok checks (ip_header f chk ++ pl) (20 + Z.of_nat (4 * k))).
  - rewrite Ehl, Hhl, Hlen, B1, B8, B9, E4, E6, E12, E16. unfold received. rewrite Hfam. do 2 f_equal. f_equal.
    + replace (IPFrame_SizeOf f - (20 + Z.of_nat (4 * k))) with (Z.of_nat (length pl))
        by (unfold IPFrame_SizeOf, IP_HLEN, pl; lia).
      apply copied_some; [done|]. fold pl. unfold sub. rewrite drop_app_length' by (rewrite length_ip_header; lia).
      by apply take_ge.
    + replace (20 + Z.of_nat (4 * k) - IP_HLEN) with (Z.of_nat (length (segment_bytes (if_Options f))))
        by (unfold IP_HLEN; lia).
      apply copied_some; [done|]. change (Z.to_nat IP_HLEN) with 20%nat. unfold sub.
      rewrite drop_ip_header. apply take_app_length.
  - done.
  - by rewrite Ehl.
  - rewrite Hlen. unfold IPFrame_SizeOf, IP_HLEN. lia.
  - unfold IPH_TTL. rewrite B8, land_255, Z.mod_small by uint_lia. uint_lia.
  - by rewrite E2, Hlen.
  - by rewrite E16.
  - by rewrite E12.
  - by rewrite Htake.
  - unfold IPH_PROTO. rewrite B9. rewrite !elem_of_cons, elem_of_nil in Hp.
    destruct Hp as [->|[->|[->|[]]]]; vm_compute; auto.
Qed.

(** *** Transport frames *)

Definition unicast (a : Z) : Prop := is_uint 32 a ∧ a ≠ IP_ADDR_ANY_VALUE ∧ a ≠ IP_ADDR_BROADCAST_VALUE.

Record udp_ok (u : UdpFrame) (payload : list Z) : Prop := {
  uo_family : uf_AddressesFamily u = InterNetwork;
  uo_addresses : unicast (ep_address (uf_Source u)) ∧ unicast (ep_address (uf_Destination u));
  uo_ports : is_uint 16 (ep_port (uf_Source u)) ∧ is_uint 16 (ep_port (uf_Destination u));
  uo_ttl : 1 ≤ uf_Ttl u < 256;
  uo_payload : uf_Payload u = Some payload ∧ payload ≠ [] ∧ bytes_ok payload;
  uo_size : 28 + Z.of_nat (length payload) < 65536
}.

Lemma length_udp_segment s d pl chk : length (udp_segment s d pl chk) = (8 + length pl)%nat.
Proof. done. Qed.

Lemma udp_segment_filled s d pl :
  bytes_ok pl → ∃ a b, Nat.Even (length a) ∧ bytes_ok a ∧ bytes_ok b ∧
    (∀ chk, udp_segment s d pl chk = filled a b chk).
Proof.
  intros Hp. exists (take 6 (udp_segment s d pl 0)), pl. split_and!.
  - exists 3%nat. done.
  - apply bytes_ok_take. unfold udp_segment. rewrite !Forall_app.
    split_and!; try apply bytes_ok_be_bytes; [apply store16_bytes|done].
  - done.
  - done.
Qed.

Lemma udp_message_bytes s d pl : bytes_ok pl → bytes_ok (udp_message s d pl).
Proof.
  intros Hp. unfold udp_message. destruct (udp_segment_filled s d pl Hp) as (a & b & _ & Ha & Hb & E).
  rewrite E. by apply filled_bytes.
Qed.

Lemma udp_message_verifies s d pl :
  bytes_ok pl → 28 + Z.of_nat (length pl) < 65536 → is_uint 32 (ep_address s) → is_uint 32 (ep_address d) →
  inet_chksum_pseudo (udp_message s d pl) IP_PROTO_UDP (ep_address s) (ep_address d) = 0.
Proof.
  intros Hp Hl Hs Hd. unfold udp_message. pose proof (length_udp_segment s d pl 0) as Hlen.
  destruct (udp_segment_filled s d pl Hp) as (a & b & He & Ha & Hb & E). rewrite !E in *.
  apply pseudo_verifies; try done; [rewrite Hlen; lia|apply stores_chksum_or_ones].
Qed.

Lemma length_udp_message s d pl : length (udp_message s d pl) = (8 + length pl)%nat.
Proof. unfold udp_message. by rewrite length_udp_segment. Qed.

Lemma udp_ports s d pl :
  is_uint 16 (ep_port s) → is_uint 16 (ep_port d) → 28 + Z.of_nat (length pl) < 65536 →
  let m := udp_message s d pl in
  get16 m = ep_port s ∧ get16 (drop 2 m) = ep_port d ∧ get16 (drop 4 m) = Z.of_nat (length m) ∧ drop 8 m = pl.
Proof.
  intros Hs Hd Hl m. split_and!; [by apply get16_be_bytes|by apply get16_be_bytes| |done].
  unfold m. rewrite length_udp_message, Nat2Z.inj_add. apply get16_be_bytes. uint_lia.
Qed.

Lemma udp_parse_message flash checks default_ttl u pl f :
  udp_ok u pl → UdpFrame_ToIp flash default_ttl u = ToIpFrame f → UdpFrame_Parse checks (received flash f) = Some u.
Proof.
  intros [Hfam [[Hs _] [Hd _]] [Hps Hpd] Ht (Hpl & Hne & Hb) Hsz]. unfold UdpFrame_ToIp.
  rewrite Hfam, Hpl. rewrite decide_False by tauto. rewrite decide_False by done. intros [= <-].
  unfold UdpFrame_Parse, received. cbn [if_Payload if_Source if_Destination if_Ttl].
  destruct (udp_ports (uf_Source u) (uf_Destination u) pl Hps Hpd Hsz) as (E0 & E2 & E4 & E8).
  pose proof (udp_message_verifies (uf_Source u) (uf_Destination u) pl Hb Hsz Hs Hd) as Hv.
  set (m := udp_message _ _ _) in *. assert (length m = (8 + length pl)%nat) as Hlen by apply length_udp_message.
  assert (0 < length pl)%nat by (destruct pl; [done|cbn; lia]).
  rewrite E0, E2, E4, E8, Hv, !Z.eqb_refl, andb_false_r. cbn [negb].
  rewrite !(proj2 (Z.leb_gt _ _)), (proj2 (Z.ltb_ge _ _)) by lia.
  clear -Hfam Hpl. destruct u as [[] [] ? ? ?]; cbn in *. by subst.
Qed.

Lemma SizeOf_plain fam d s ttl id tos proto fl m :
  IPFrame_SizeOf (mkIPFrame fam d s ttl id tos proto fl (Some m) None) = 20 + Z.of_nat (length m).
Proof. done. Qed.

Lemma udp_frame_ok flash default_ttl u pl f :
  udp_ok u pl → UdpFrame_ToIp flash default_ttl u = ToIpFrame f → ip_frame_ok f.
Proof.
  intros [Hfam [(Hs & Hs0 & Hsb) (Hd & Hd0 & _)] _ Ht (Hpl & Hne & Hb) Hsz]. unfold UdpFrame_ToIp.
  rewrite Hfam, Hpl. rewrite decide_False by tauto. rewrite decide_False by done. intros [= <-]. cbn in Ht.
  constructor; cbn [if_AddressesFamily if_Source if_Destination if_Ttl if_Tos if_Id if_Flags if_ProtocolType if_Options if_Payload IPFrame_new].
  - done.
  - done.
  - done.
  - unfold DefaultFlashTypeOfService. destruct flash; uint_lia.
  - split; uint_lia.
  - apply elem_of_cons. by left.
  - exists 0%nat. cbn. lia.
  - split_and!; [done|by intros [=]|constructor|by apply udp_message_bytes].
  - rewrite SizeOf_plain, length_udp_message. lia.
Qed.

Record icmp_ok (c : IcmpFrame) (payload : list Z) : Prop := {
  io_family : cf_AddressesFamily c = InterNetwork;
  io_addresses : unicast (cf_Source c) ∧ unicast (cf_Destination c);
  io_bytes : is_byte (cf_Type c) ∧ is_byte (cf_Code c) ∧ 1 ≤ cf_Ttl c < 256;
  io_words : is_uint 16 (cf_Identification c) ∧ is_uint 16 (cf_Sequence c);
  io_payload : cf_Payload c = Some payload ∧ bytes_ok payload;
  io_size : 28 + Z.of_nat (length payload) < 65536
}.

Lemma icmp_packet_ok c pl chk :
  icmp_ok c pl → bytes_ok (icmp_packet c chk) ∧ length (icmp_packet c chk) = (8 + length pl)%nat.
Proof.
  intros [_ _ (H1 & H2 & _) _ (Hp & Hb) _]. split; [|by unfold icmp_packet; rewrite Hp].
  unfold icmp_packet. rewrite Hp, land_255. rewrite !Forall_app.
  split_and!; try apply bytes_ok_be_bytes; [|apply store16_bytes|done].
  apply Forall_cons. split; [rewrite Z.mod_small by uint_lia; done|by apply Forall_singleton].
Qed.

Lemma icmp_packet_verifies c pl :
  icmp_ok c pl → inet_chksum (icmp_packet c (chksum_or_ones (inet_chksum (icmp_packet c 0)))) = 0.
Proof.
  intros Hc. destruct (icmp_packet_ok c pl 0 Hc) as [Hb Hl]. pose proof (io_size c pl Hc).
  assert (∀ chk, icmp_packet c chk = filled (take 2 (icmp_packet c 0)) (drop 4 (icmp_packet c 0)) chk) as E by done.
  rewrite (E 0), (E (chksum_or_ones _)).
  apply chksum_verifies; [by exists 1%nat|by apply bytes_ok_take|by apply bytes_ok_drop| |apply stores_chksum_or_ones].
  rewrite <- E. unfold chksum_fits. lia.
Qed.

Lemma icmp_parse_packet flash checks default_ttl c pl f :
  icmp_ok c pl → IcmpFrame_ToIp flash default_ttl c = ToIpFrame f → IcmpFrame_Parse checks (received flash f) = Some c.
Proof.
  intros Hc. pose proof Hc as [Hfam _ (H1 & H2 & _) [Hi Hs] (Hp & Hb) Hsz]. unfold IcmpFrame_ToIp.
  rewrite Hfam, decide_False by tauto. intros [= <-].
  unfold IcmpFrame_Parse, received. cbn [if_Payload if_Source if_Destination if_Ttl if_ProtocolType if_AddressesFamily].
  pose proof (icmp_packet_verifies c pl Hc) as Hv. set (chk := chksum_or_ones _) in *.
  destruct (icmp_packet_ok c pl chk Hc) as [_ Hl].
  assert (get16 (drop 4 (icmp_packet c chk)) = cf_Identification c) as E4 by by apply get16_be_bytes.
  assert (get16 (drop 6 (icmp_packet c chk)) = cf_Sequence c) as E6 by by apply get16_be_bytes.
  assert (drop 8 (icmp_packet c chk) = pl) as E8 by (unfold icmp_packet; by rewrite Hp).
  assert (byte_at (icmp_packet c chk) 0 = cf_Type c ∧ byte_at (icmp_packet c chk) 1 = cf_Code c) as [E0 E1].
  { split; [|done]. transitivity (Z.land (cf_Type c) 255); [done|]. rewrite land_255. apply Z.mod_small. uint_lia. }
  rewrite E0, E1, E4, E6, E8, Hv, Hl, !Z.eqb_refl, andb_false_r. cbn [negb].
  rewrite (proj2 (Z.leb_gt _ _)), (proj2 (Z.ltb_ge _ _)) by lia.
  clear -Hfam Hp. destruct c; cbn in *. by subst.
Qed.

Lemma icmp_frame_ok flash default_ttl c pl f :
  icmp_ok c pl → IcmpFrame_ToIp flash default_ttl c = ToIpFrame f → ip_frame_ok f.
Proof.
  intros Hc. pose proof Hc as [Hfam [(Hs & Hs0 & Hsb) (Hd & Hd0 & _)] (_ & _ & Ht) _ _ Hsz]. unfold IcmpFrame_ToIp.
  rewrite Hfam, decide_False by tauto. intros [= <-]. set (chk := chksum_or_ones _).
  destruct (icmp_packet_ok c pl chk Hc) as [Hb Hl].
  constructor; cbn [if_AddressesFamily if_Source if_Destination if_Ttl if_Tos if_Id if_Flags if_ProtocolType if_Options if_Payload IPFrame_new].
  - done.
  - done.
  - done.
  - unfold DefaultFlashTypeOfService. destruct flash; uint_lia.
  - unfold IP_DF. split; uint_lia.
  - apply elem_of_cons. right. apply elem_of_cons. right. apply elem_of_cons. by left.
  - exists 0%nat. cbn. lia.
  - split_and!; [done|by intros [=]|constructor|done].
  - rewrite SizeOf_plain, Hl. lia.
Qed.

(** The fast path writes what the two-step path writes, and declines what does not fit the MTU. *)
Lemma udp_fast_path flash default_ttl source destination ttl payload :
  UdpFrame_ToIPv4Packet flash source destination ttl payload =
  match UdpFrame_ToIp flash default_ttl (mkUdpFrame source destination InterNetwork ttl (Some payload)) with
  | ToIpFrame f => if IPFrame_SizeOf f <=? MTU then Some (IPFrame_ToArray f) else None
  | _ => None
  end.
Proof.
  unfold UdpFrame_ToIPv4Packet, UdpFrame_ToIp. cbn [uf_AddressesFamily uf_Payload uf_Source uf_Destination uf_Ttl].
  rewrite (decide_False (P := InterNetwork ≠ InterNetwork)) by tauto. case_decide; [done|].
  rewrite SizeOf_plain, length_udp_message. change (Z.shiftl (Z.shiftr (MTU - IP_HLEN) 3) 3) with 1480.
  unfold MTU. replace (1480 <? 8 + Z.of_nat (length payload)) with (negb (20 + Z.of_nat (8 + length payload) <=? 1500)).
  2:{ destruct (20 + Z.of_nat (8 + length payload) <=? 1500) eqn:E1, (1480 <? 8 + Z.of_nat (length payload)) eqn:E2;
        bool_props; done || lia. }
  destruct (20 + Z.of_nat (8 + length payload) <=? 1500); cbn [negb]; [|done].
  match goal with |- _ = Some (IPFrame_ToArray ?f) => set (g := f) end.
  assert (∀ chk, ip_header g chk =
    [Z.lor (Z.shiftl 4 4) (Z.shiftr IP_HLEN 2); if flash then DefaultFlashTypeOfService else 4] ++
    be_bytes 2 (IP_HLEN + (8 + Z.of_nat (length payload))) ++ be_bytes 2 0 ++ be_bytes 2 IP_DF ++
    [ttl; IP_PROTO_UDP] ++ store16 chk ++ store32 (ep_address source) ++ store32 (ep_address destination)) as Hh.
  { intros chk. unfold ip_header. replace (IPFrame_SizeOf g) with (IP_HLEN + (8 + Z.of_nat (length payload))).
    - reflexivity.
    - unfold g. rewrite SizeOf_plain, length_udp_message. unfold IP_HLEN. lia. }
  unfold IPFrame_ToArray. rewrite !Hh. reflexivity.
Qed.

(** A UDP datagram and an ICMP message survive the trip through an IPv4 packet: what the
    sender builds parses on the receiver back to the same frame, with checksum verification on
    or off (the transport and header checksums it writes verify, with the 0xffff fallback for a
    zero sum); and for UDP the single-buffer fast path produces byte for byte the packet of the
    two-step path when it fits the MTU, and declines exactly when it does not. *)
Theorem transport_roundtrip flash checks default_ttl u upl c cpl :
  udp_ok u upl → icmp_ok c cpl →
  (∃ f, UdpFrame_ToIp flash default_ttl u = ToIpFrame f ∧
     IPFrame_Parse flash checks (IPFrame_ToArray f) = (Some (received flash f), IPFrame_ToArray f) ∧
     UdpFrame_Parse checks (received flash f) = Some u ∧
     UdpFrame_ToIPv4Packet flash (uf_Source u) (uf_Destination u) (uf_Ttl u) upl =
       (if IPFrame_SizeOf f <=? MTU then Some (IPFrame_ToArray f) else None)) ∧
  (∃ f, IcmpFrame_ToIp flash default_ttl c = ToIpFrame f ∧
     IPFrame_Parse flash checks (IPFrame_ToArray f) = (Some (received flash f), IPFrame_ToArray f) ∧
     IcmpFrame_Parse checks (received flash f) = Some c).
Proof.
  intros Hu Hc. split.
  - pose proof Hu as [Hfam _ _ _ (Hpl & Hne & _) _].
    pose proof (udp_fast_path flash default_ttl (uf_Source u) (uf_Destination u) (uf_Ttl u) upl) as Hfast.
    assert (mkUdpFrame (uf_Source u) (uf_Destination u) InterNetwork (uf_Ttl u) (Some upl) = u) as Eu
      by (destruct u; cbn in *; congruence).
    rewrite Eu in Hfast.
    assert (∃ f, UdpFrame_ToIp flash default_ttl u = ToIpFrame f) as [f Hf].
    { unfold UdpFrame_ToIp. rewrite Hfam, Hpl. rewrite decide_False by tauto. rewrite decide_False by done. eauto. }
    exists f. rewrite Hf in Hfast. split_and!; [done| |by eapply udp_parse_message|done].
    by apply ip_parse_array, (udp_frame_ok flash default_ttl u upl).
  - assert (∃ f, IcmpFrame_ToIp flash default_ttl c = ToIpFrame f) as [f Hf].
    { unfold IcmpFrame_ToIp. rewrite (io_family c cpl Hc), decide_False by tauto. eauto. }
    exists f. split_and!; [done| |by eapply icmp_parse_packet].
    by apply ip_parse_array, (icmp_frame_ok flash default_ttl c cpl).
Qed.

(** A frame with legal fields (at most 40 bytes of options in whole words, at most 65535
    bytes in all) survives serialization and parsing: the receiver gets every field back, with
    zero flags read as DF and, on a flash receiver, the TOS raised to flash precedence; the
    buffer is not modified; and the header verifies, so the parser accepts it whether or not it
    is built to check checksums, also when the checksum is the 0xffff fallback. *)
Theorem ip_frame_roundtrip flash checks f :
  ip_frame_ok f →
  IPFrame_Parse flash checks (IPFrame_ToArray f) = (Some (received flash f), IPFrame_ToArray f).
Proof. apply ip_parse_array. Qed.

(** ** Samples *)

Definition sample_frame : IPFrame :=
  mkIPFrame InterNetwork 16843009 33554442 64 7 0 IP_PROTO_TCP 0 (Some [1; 2; 3]) (Some [7; 4; 4; 0]).

Definition sample_udp : UdpFrame :=
  mkUdpFrame (mkEndPoint 33554442 5353) (mkEndPoint 16843009 53) InterNetwork 64 (Some [104; 105; 33]).

Definition sample_icmp : IcmpFrame := mkIcmpFrame 8 0 1 2 33554442 16843009 64 InterNetwork (Some [9]).

Lemma sample_frame_ok : ip_frame_ok sample_frame.
Proof.
  constructor; try (by decide_true || by vm_compute).
  exists 1%nat. cbn. lia.
Qed.

Lemma sample_udp_ok : udp_ok sample_udp [104; 105; 33].
Proof. constructor; unfold unicast; try (by decide_true || by vm_compute). Qed.

Lemma sample_icmp_ok : icmp_ok sample_icmp [9].
Proof. constructor; unfold unicast; try (by decide_true || by vm_compute). Qed.

Lemma ip_frame_roundtrip_witness :
  (IPFrame_Parse false true (IPFrame_ToArray sample_frame)).1 = Some (received false sample_frame).
Proof. rewrite (ip_frame_roundtrip false true sample_frame sample_frame_ok). reflexivity. Defined.

Lemma transport_roundtrip_witness :
  ∃ f, UdpFrame_ToIp true 64 sample_udp = ToIpFrame f ∧ UdpFrame_Parse true (received true f) = Some sample_udp.
Proof.
  destruct (transport_roundtrip true true 64 sample_udp [104; 105; 33] sample_icmp [9] sample_udp_ok sample_icmp_ok)
    as [(f & H1 & _ & H2 & _) _].
  exists f. split; [exact H1|exact H2].
Defined.
