(* ===== verification/PacketFragment.v ===== *)
(** IPv4 fragmentation ([src/ppp/net/packet/IPFrame.cpp]: Subpackages) and reassembly
    ([src/ppp/net/packet/IPFragment.cpp]).

    A reassembly table maps the 128-bit fragment key to the fragments received so far.  The tick
    count read when an entry is created and the identifier counter are arguments. *)

From stdpp Require Import sorting.
From S2P Require Import Prelude PacketChecksum PacketFrames.

#[global] Instance IPFrame_eq_dec : EqDecision IPFrame.
Proof. solve_decision. Defined.

(** ** Fragmentation *)

(** A fragment of [packet]: an [IPFrame] object with the packet's fields. *)
Definition make_fragment (packet : IPFrame) (flags : Z) (options : option (list Z)) (ofs : Z) (payload : list Z) : IPFrame :=
  SetFragmentOffset
    (mkIPFrame InterNetwork (if_Destination packet) (if_Source packet) (if_Ttl packet) (if_Id packet) (if_Tos packet)
       (if_ProtocolType packet) flags (Some payload) options) ofs.

(** The [while] loop and the tail: [rest] are the [szz] bytes not yet cut.  [fuel] bounds the
    iterations; each one cuts [max] bytes. *)
Fixpoint cut_fragments (fuel : nat) (packet : IPFrame) (max : Z) (options : option (list Z)) (ofs : Z) (rest : list Z)
    : list IPFrame :=
  match fuel with
  | O => []
  | S fuel =>
      let szz := Z.of_nat (length rest) in
      if max <? szz then
        make_fragment packet IP_MF options ofs (take (Z.to_nat max) rest) ::
        cut_fragments fuel packet max None (ofs + max) (drop (Z.to_nat max) rest)
      else if 0 <? szz then
        [make_fragment packet (if ofs <=? 0 then if_Flags packet else 0) options ofs rest]
      else []
  end.

Definition fragment_max (packet : IPFrame) : Z :=
  let max := MTU - IP_HLEN in
  let max := match if_Options packet with Some o => max - Z.of_nat (length o) | None => max end in
  Z.shiftl (Z.shiftr max 3) 3.

Definition Subpackages (packet : IPFrame) : list IPFrame :=
  if negb (Z.land (if_Flags packet) IP_MF =? 0) then [packet]
  else
    match if_Payload packet with
    | None => [packet]
    | Some messages =>
        let max := fragment_max packet in
        if Z.of_nat (length messages) <=? max then [packet]
        else cut_fragments (S (length messages)) packet max (if_Options packet) 0 messages
    end.

(** ** Reassembly *)

Definition MAX_FINALIZE_TIME : Z := 1.

Record Subpackage := mkSubpackage { sp_FinalizeTime : Z; sp_Frames : list IPFrame }.

Definition Subpackage_new (tick : Z) : Subpackage := mkSubpackage (tick +[64] MAX_FINALIZE_TIME) [].

Abbreviation SubpackageTable := (gmap Z Subpackage).

Definition FragmentKey (packet : IPFrame) : Z :=
  let low := Z.lor (if_Source packet) (Z.shiftl (if_Destination packet) 32) in
  let high := if_Id packet in
  Z.lor (Z.shiftl high 64) low.

Definition is_fragment (packet : IPFrame) : bool :=
  negb (Z.land (if_Flags packet) IP_MF =? 0) ||
  (negb (Z.land (if_Flags packet) IP_OFFMASK =? 0) && (0 <? GetFragmentOffset packet)).

(** The position of a new fragment, scanning from the end. *)
Fixpoint fragment_index (frames : list IPFrame) (packet : IPFrame) (index : nat) : nat :=
  match index with
  | O => O
  | S i =>
      match frames !! i with
      | Some lf => if GetFragmentOffset lf <=? GetFragmentOffset packet then S i else fragment_index frames packet i
      | None => S i
      end
  end.

Definition insert_fragment (frames : list IPFrame) (packet : IPFrame) : list IPFrame :=
  let index := fragment_index frames packet (length frames) in
  take index frames ++ packet :: drop index frames.

Definition payload_of (f : IPFrame) : list Z := segment_bytes (if_Payload f).

(** The end of the byte range the fragments cover from [next] on, [None] when there is a gap. *)
Fixpoint contiguous (next : Z) (frames : list IPFrame) : option Z :=
  match frames with
  | [] => Some next
  | lf :: frames =>
      if negb (GetFragmentOffset lf =? next) then None
      else contiguous (GetFragmentOffset lf + Z.of_nat (length (payload_of lf))) frames
  end.

Definition is_last_fragment (f : IPFrame) : bool :=
  (Z.land (if_Flags f) IP_MF =? 0) && negb (Z.land (if_Flags f) IP_OFFMASK =? 0) && (0 <? GetFragmentOffset f).

Definition completes (frames : list IPFrame) : bool :=
  match contiguous 0 frames, last frames with
  | Some _, Some l => is_last_fragment l
  | _, _ => false
  end.

Definition reassemble (frames : list IPFrame) : option IPFrame :=
  match frames with
  | [] => None
  | first :: _ =>
      if existsb (λ f, bool_decide (payload_of f = [])) frames then None
      else Some (SetFragmentOffset
        (mkIPFrame (if_AddressesFamily first) (if_Destination first) (if_Source first) (if_Ttl first) (if_Id first)
           (if_Tos first) (if_ProtocolType first) IP_DF (Some (mjoin (payload_of <$> frames))) (if_Options first)) 0)
  end.

(** [IPFragment::Input]: the result, the frame passed to [OnInput], and the table. *)
Definition Fragment_Input (t : SubpackageTable) (tick : Z) (packet : IPFrame) : bool * option IPFrame * SubpackageTable :=
  if is_fragment packet then
    if bool_decide (payload_of packet = []) then (false, None, t)
    else
      let key := FragmentKey packet in
      let subpackage := default (Subpackage_new tick) (t !! key) in
      let frames := insert_fragment (sp_Frames subpackage) packet in
      if completes frames then
        match reassemble frames with
        | Some origin => (true, Some origin, delete key t)
        | None => (false, None, delete key t)
        end
      else (true, None, <[key := mkSubpackage (sp_FinalizeTime subpackage) frames]> t)
  else (false, None, t).

Definition subpackage_expired (now : Z) (s : Subpackage) : bool :=
  (sp_FinalizeTime s <=? now) || ((MAX_FINALIZE_TIME <? sp_FinalizeTime s) && (now <=? MAX_FINALIZE_TIME)).

Definition Fragment_Update (t : SubpackageTable) (now : Z) : Z * SubpackageTable :=
  let t' := filter (λ kv : Z * Subpackage, subpackage_expired now kv.2 = false) t in
  (Z.of_nat (size t) - Z.of_nat (size t'), t').

Definition Fragment_Release (t : SubpackageTable) : SubpackageTable := ∅.

(** [ip_hdr::NewId]: the next non-zero identifier of the 32-bit counter. *)
Definition NewId (aid : Z) : Z * Z :=
  let a1 := aid +[32] 1 in
  if negb (wrap 16 a1 =? 0) then (wrap 16 a1, a1)
  else let a2 := a1 +[32] 1 in (wrap 16 a2, a2).

Definition with_id (packet : IPFrame) (id : Z) : IPFrame :=
  mkIPFrame (if_AddressesFamily packet) (if_Destination packet) (if_Source packet) (if_Ttl packet) id (if_Tos packet)
    (if_ProtocolType packet) (if_Flags packet) (if_Payload packet) (if_Options packet).

(** [IPFragment::Output]: the packets passed to [OnOutput] and the counter. *)
Definition Fragment_Output (aid : Z) (packet : IPFrame) : list (list Z) * Z :=
  let '(packet, aid) :=
    if if_Id packet =? 0 then let '(id, aid) := NewId aid in (with_id packet id, aid) else (packet, aid) in
  (IPFrame_ToArray <$> Subpackages packet, aid).

(** ** Fragment fields *)

Lemma set_get_offset f v :
  if_Flags f = 0 ∨ if_Flags f = IP_MF → 0 ≤ v < 65536 → v mod 8 = 0 → GetFragmentOffset (SetFragmentOffset f v) = v.
Proof.
  intros Hf Hv Hm. unfold GetFragmentOffset, SetFragmentOffset. cbn [if_Flags].
  assert (0 ≤ v / 8 < 8192) as Hq by (split; [apply Z.div_pos; lia|apply Z.div_lt_upper_bound; lia]).
  rewrite (Z.shiftr_div_pow2 v) by lia. change (2 ^ 3) with 8. pose proof (Z.div_mod v 8).
  assert (∀ h, h = 0 ∨ h = 1 →
    Z.shiftl (Z.shiftr (wrap 16 (Z.shiftl (wrap 16 (Z.lor (Z.shiftl h 13) (v / 8))) 3)) 3) 3 = v) as Hh.
  { intros h Hh. rewrite lor_shift_add by (change (2 ^ 13) with 8192; lia). change (2 ^ 13) with 8192.
    rewrite (wrap_small 16 (h * 8192 + _)) by uint_lia. rewrite (Z.shiftl_mul_pow2 (h * 8192 + _)) by lia.
    change (2 ^ 3) with 8. replace ((h * 8192 + v / 8) * 8) with (v + h * 2 ^ 16) by lia.
    unfold wrap. rewrite Z_mod_plus_full, Z.mod_small by uint_lia.
    rewrite Z.shiftr_div_pow2, Z.shiftl_mul_pow2 by lia. change (2 ^ 3) with 8. lia. }
  destruct Hf as [-> | ->]; apply Hh; [left|right]; reflexivity.
Qed.

Lemma land_pow2_small q n : 0 ≤ n → 0 ≤ q < 2 ^ n → Z.land q (2 ^ n) = 0.
Proof.
  intros Hn Hq. apply Z.bits_inj'. intros i Hi. rewrite Z.land_spec, Z.bits_0, Z.pow2_bits_eqb by lia.
  destruct (Z.eqb_spec n i) as [->|]; [|by rewrite andb_false_r]. by rewrite (testbit_high_zero i q i) by lia.
Qed.

Lemma offset_flags f v :
  0 ≤ v < 65536 →
  (if_Flags f = IP_MF → Z.land (if_Flags (SetFragmentOffset f v)) IP_MF ≠ 0) ∧
  (if_Flags f = 0 → Z.land (if_Flags (SetFragmentOffset f v)) IP_MF = 0 ∧
     (8 ≤ v → Z.land (if_Flags (SetFragmentOffset f v)) IP_OFFMASK ≠ 0)).
Proof.
  intros Hv. cbn [SetFragmentOffset if_Flags].
  assert (0 ≤ v / 8 < 2 ^ 13) as Hq.
  { split; [apply Z.div_pos; lia|apply Z.div_lt_upper_bound; [lia|]]. change (2 ^ 13) with 8192. lia. }
  rewrite (Z.shiftr_div_pow2 v) by lia. change (2 ^ 3) with 8. split.
  - intros ->. change (Z.shiftl (Z.shiftr IP_MF 13) 13) with IP_MF. rewrite Z.land_lor_distr_l.
    change IP_MF with (2 ^ 13). rewrite (land_pow2_small (v / 8)) by lia. done.
  - intros ->. change (Z.shiftl (Z.shiftr 0 13) 13) with 0. rewrite Z.lor_0_l. split.
    + change IP_MF with (2 ^ 13). apply land_pow2_small; lia.
    + intros H8. change IP_OFFMASK with (Z.ones 13). rewrite Z.land_ones by lia. rewrite Z.mod_small by lia.
      assert (1 ≤ v / 8) by (apply Z.div_le_lower_bound; lia). lia.
Qed.

(** ** Sorted lists of fragments *)

Definition offset_lt (f g : IPFrame) : Prop := GetFragmentOffset f < GetFragmentOffset g.

Lemma fragment_index_split frames packet n :
  (n ≤ length frames)%nat →
  let i := fragment_index frames packet n in
  (i ≤ n)%nat ∧
  Forall (offset_lt packet) (drop i (take n frames)) ∧
  (∀ f, last (take i frames) = Some f → GetFragmentOffset f ≤ GetFragmentOffset packet).
Proof.
  induction n as [|n IH]; intros Hn; cbn [fragment_index].
  - split_and!; [lia|constructor|done].
  - destruct (lookup_lt_is_Some_2 frames n) as [lf Hl]; [lia|]. rewrite Hl.
    case_if as E; bool_props.
    + split_and!; [lia| |].
      * rewrite drop_ge; [constructor|]. rewrite length_take. lia.
      * intros f. rewrite (take_S_r frames n lf) by done. rewrite last_snoc. by intros [= <-].
    + destruct IH as (H1 & H2 & H3); [lia|]. split_and!; [lia| |done].
      rewrite (take_S_r frames n lf) by done. rewrite drop_app_le by (rewrite length_take_le; lia).
      apply Forall_app. split; [done|]. apply Forall_singleton. unfold offset_lt. lia.
Qed.

Lemma insert_sorted frames packet :
  StronglySorted offset_lt frames → (∀ f, f ∈ frames → GetFragmentOffset f ≠ GetFragmentOffset packet) →
  StronglySorted offset_lt (insert_fragment frames packet) ∧ insert_fragment frames packet ≡ₚ packet :: frames.
Proof.
  intros Hs Hne. unfold insert_fragment.
  destruct (fragment_index_split frames packet (length frames)) as (Hi & Hd & Hl); [lia|].
  set (i := fragment_index _ _ _) in *. rewrite firstn_all in Hd. split.
  2:{ rewrite <- Permutation_middle. by rewrite take_drop. }
  rewrite <- (take_drop i frames) in Hs. apply StronglySorted_app in Hs as (Hc & Hs1 & Hs2).
  apply StronglySorted_app. split_and!; [|done|constructor; done].
  intros x y Hx Hy. apply elem_of_cons in Hy as [->|Hy]; [|by apply Hc].
  destruct (last (take i frames)) as [f|] eqn:El.
  2:{ apply last_None in El. rewrite El in Hx. by apply elem_of_nil in Hx. }
  specialize (Hl f eq_refl).
  assert (GetFragmentOffset f ≠ GetFragmentOffset packet) as Hf.
  { apply Hne. apply last_Some_elem_of in El. apply elem_of_take in El as (j & Hj & _). by eapply list_elem_of_lookup_2. }
  apply last_Some in El as [l' El]. rewrite El in Hx, Hs1. apply StronglySorted_app in Hs1 as (Hc1 & _ & _).
  unfold offset_lt in *. apply elem_of_app in Hx as [Hx|Hx%list_elem_of_singleton]; [|subst; lia].
  specialize (Hc1 x f Hx ltac:(by apply list_elem_of_singleton)). lia.
Qed.

(** ** Reassembly of a complete set *)

Lemma contiguous_prefix pre fs l next e e' :
  (∀ x, x ∈ pre → GetFragmentOffset x < next) → StronglySorted offset_lt fs →
  (∀ x, x ∈ fs → payload_of x ≠ []) → contiguous next fs = Some e → contiguous next l = Some e' →
  (∀ x, x ∈ l → x ∈ pre ++ fs) → l `prefix_of` fs.
Proof.
  revert pre fs next. induction l as [|x l IH]; intros pre fs next Hpre Hs Hne Hc Hl Hin; [apply prefix_nil|].
  cbn [contiguous] in Hl. destruct (GetFragmentOffset x =? next) eqn:Ex; [|done]. cbn [negb] in Hl. bool_props.
  assert (x ∈ fs) as Hx.
  { destruct (proj1 (elem_of_app pre fs x)) as [H|]; [|apply Hpre in H; lia|done]. apply Hin, elem_of_cons. by left. }
  destruct fs as [|y fs]; [by apply elem_of_nil in Hx|].
  cbn [contiguous] in Hc. destruct (GetFragmentOffset y =? next) eqn:Ey; [|done]. cbn [negb] in Hc. bool_props.
  apply StronglySorted_cons in Hs as [Hy Hs].
  assert (x = y) as ->.
  { apply elem_of_cons in Hx as [->|Hx]; [done|]. rewrite Forall_forall in Hy. apply Hy in Hx. unfold offset_lt in Hx. lia. }
  apply prefix_cons. apply (IH (pre ++ [y]) fs (GetFragmentOffset y + Z.of_nat (length (payload_of y)))); try done.
  - assert (0 < length (payload_of y))%nat.
    { destruct (payload_of y) eqn:E; [exfalso; eapply Hne; [apply elem_of_cons; by left|done]|cbn; lia]. }
    intros z [Hz|Hz%list_elem_of_singleton]%elem_of_app; [apply Hpre in Hz; lia|subst; lia].
  - intros z Hz. apply Hne, elem_of_cons. by right.
  - intros z Hz. rewrite <- app_assoc. apply Hin, elem_of_cons. by right.
Qed.

(** A full set of fragments: a contiguous sorted cover in which only the last one ends it. *)
Record full_set (fs : list IPFrame) : Prop := {
  fs_cover : is_Some (contiguous 0 fs);
  fs_sorted : StronglySorted offset_lt fs;
  fs_payload : ∀ x, x ∈ fs → payload_of x ≠ [];
  fs_fragment : ∀ x, x ∈ fs → is_fragment x = true;
  fs_last : ∃ l x, fs = l ++ [x] ∧ is_last_fragment x = true ∧ (∀ y, y ∈ l → is_last_fragment y = false)
}.

Lemma completes_only_full fs l : full_set fs → (∀ x, x ∈ l → x ∈ fs) → completes l = true → l = fs.
Proof.
  intros [[e He] Hs Hp _ (l0 & x & E & Hx & Hl0)] Hin Hc. unfold completes in Hc.
  destruct (contiguous 0 l) as [e'|] eqn:El; [|done].
  destruct (contiguous_prefix [] fs l 0 e e') as [r Hr]; try done; [by intros ? ?%elem_of_nil|].
  destruct (last l) as [y|] eqn:Ey; [|done]. apply last_Some in Ey as [l' ->].
  destruct r as [|z r _] using rev_ind; [by rewrite app_nil_r in Hr|].
  rewrite E, app_assoc in Hr. apply app_inj_tail in Hr as [Hr _]. exfalso.
  rewrite (Hl0 y) in Hc; [done|]. rewrite Hr, !elem_of_app. left. right. by apply list_elem_of_singleton.
Qed.

Lemma full_completes fs : full_set fs → completes fs = true.
Proof.
  intros [[e He] _ _ _ (l0 & x & -> & Hx & _)]. unfold completes. by rewrite He, last_snoc.
Qed.

Lemma sorted_NoDup fs : StronglySorted offset_lt fs → NoDup fs.
Proof.
  induction 1 as [|x l _ IH Hx]; constructor; [|done]. rewrite Forall_forall in Hx. intros H%Hx. unfold offset_lt in H. lia.
Qed.

(** ** Histories

    A fragment given to [Input] with the clock at [tick], or a maintenance run of [Update] at [now]. *)
Inductive FragmentEvent :=
  | FInput (tick : Z) (packet : IPFrame)
  | FUpdate (now : Z).
Definition fragment_step (t : SubpackageTable) (e : FragmentEvent) : option (bool * option IPFrame) * SubpackageTable :=
  match e with
  | FInput tick packet => let '(r, t) := Fragment_Input t tick packet in (Some r, t)
  | FUpdate now => (None, (Fragment_Update t now).2)
  end.
(** The answers of the calls of [Input]. *)
Definition answers (t : SubpackageTable) (es : list FragmentEvent) : list (bool * option IPFrame) := omap id (run fragment_step t es).1.
Definition inputs (es : list FragmentEvent) : list IPFrame := omap (λ e, match e with FInput _ x => Some x | FUpdate _ => None end) es.
Definition update_times (es : list FragmentEvent) : list Z := omap (λ e, match e with FUpdate now => Some now | FInput _ _ => None end) es.
(** The table after the maintenance runs alone. *)
Definition maintained (t : SubpackageTable) (nows : list Z) : SubpackageTable := foldl (λ t now, (Fragment_Update t now).2) t nows.

Lemma inputs_app a b : inputs (a ++ b) = inputs a ++ inputs b.
Proof. apply omap_app. Qed.
Lemma update_times_app a b : update_times (a ++ b) = update_times a ++ update_times b.
Proof. apply omap_app. Qed.
Lemma answers_snoc t es e : answers t (es ++ [e]) = answers t es ++ option_list (fragment_step (exec fragment_step t es) e).1.
Proof. unfold answers. rewrite run_results_snoc, omap_app. cbn. by destruct (fragment_step _ e).1. Qed.

(** A group created at [tick] survives the maintenance runs of its own millisecond and no later one. *)
Lemma group_lifetime tick now l :
  1 ≤ tick < UINT64_MAX →
  (1 < now ≤ tick → subpackage_expired now (mkSubpackage (tick +[64] MAX_FINALIZE_TIME) l) = false) ∧
  (tick < now → subpackage_expired now (mkSubpackage (tick +[64] MAX_FINALIZE_TIME) l) = true).
Proof.
  intros Ht. unfold subpackage_expired, MAX_FINALIZE_TIME, UINT64_MAX in *. cbn [sp_FinalizeTime]. rewrite wrap_small by uint_lia. split; intros H.
  - rewrite (proj2 (Z.leb_gt _ _)), (proj2 (Z.leb_gt now _)), andb_false_r by lia. done.
  - rewrite (proj2 (Z.leb_le _ _)) by lia. done.
Qed.

Section receive.
Context (fs : list IPFrame) (key : Z) (Hfull : full_set fs) (Hkey : ∀ x, x ∈ fs → FragmentKey x = key).

(** The fragments of [fs] held so far are [qs], in a group created at [T]; nothing else changed. *)
Definition holding (T : Z) (t t' : SubpackageTable) (qs : list IPFrame) : Prop :=
  ∃ l, default (Subpackage_new T) (t' !! key) = mkSubpackage (T +[64] MAX_FINALIZE_TIME) l ∧ (qs ≠ [] → is_Some (t' !! key)) ∧
    StronglySorted offset_lt l ∧ l ≡ₚ qs ∧ delete key t' = t.

Lemma distinct_offsets l x rest :
  StronglySorted offset_lt l → l ++ x :: rest ≡ₚ fs → ∀ y, y ∈ l → GetFragmentOffset y ≠ GetFragmentOffset x.
Proof.
  intros Hl Hp y Hy Heq. pose proof (fs_sorted fs Hfull) as Hs.
  assert (∀ a b, a ∈ fs → b ∈ fs → GetFragmentOffset a = GetFragmentOffset b → a = b) as Hinj.
  { clear -Hs. induction Hs as [|z l _ IH Hz]; intros a b Ha Hb E; [by apply elem_of_nil in Ha|].
    rewrite Forall_forall in Hz. unfold offset_lt in Hz.
    apply elem_of_cons in Ha as [Ea|Ha]; apply elem_of_cons in Hb as [Eb|Hb]; subst; [done| | |by apply IH].
    - apply Hz in Hb. lia.
    - apply Hz in Ha. lia. }
  assert (y = x) as ->.
  { apply Hinj; [| |done]; rewrite <- Hp, elem_of_app; [by left|right; apply elem_of_cons; by left]. }
  pose proof (sorted_NoDup fs Hs) as Hn. rewrite <- Hp in Hn. apply NoDup_app in Hn as (_ & Hn & _).
  apply (Hn x Hy), elem_of_cons. by left.
Qed.

Lemma receive_step T t t' qs tick x rest :
  holding T t t' qs → (qs = [] → tick = T) → qs ++ x :: rest ≡ₚ fs →
  let r := Fragment_Input t' tick x in
  (rest ≠ [] → r.1 = (true, None) ∧ holding T t r.2 (qs ++ [x])) ∧
  (rest = [] → r.1 = (match reassemble fs with Some o => (true, Some o) | None => (false, None) end) ∧ r.2 = t).
Proof.
  intros (l & Hl & Hsome & Hs & Hperm & Hdel) HT Hp.
  assert (x ∈ fs) as Hx by (rewrite <- Hp, elem_of_app; right; apply elem_of_cons; by left).
  rewrite <- Hperm in Hp. destruct (insert_sorted l x Hs) as [Hs' Hp']; [by apply (distinct_offsets l x rest)|].
  assert (default (Subpackage_new tick) (t' !! key) = mkSubpackage (T +[64] MAX_FINALIZE_TIME) l) as Hd.
  { destruct qs as [|q qs]; [by rewrite (HT eq_refl)|]. destruct Hsome as [g Hg]; [done|]. rewrite Hg in *. exact Hl. }
  unfold Fragment_Input. rewrite (fs_fragment fs Hfull x Hx), (Hkey x Hx).
  rewrite bool_decide_eq_false_2 by (by apply (fs_payload fs Hfull)). rewrite Hd. cbn [sp_Frames sp_FinalizeTime]. split.
  - intros Hr. destruct (completes (insert_fragment l x)) eqn:Ec.
    { exfalso. apply completes_only_full with (fs := fs) in Ec; [|done|].
      - rewrite Ec in Hp'. rewrite Hp' in Hp. rewrite <- Permutation_middle in Hp. apply Permutation_length in Hp.
        cbn in Hp. rewrite length_app in Hp. destruct rest; [done|cbn in Hp; lia].
      - intros y. rewrite Hp', <- Hp. rewrite elem_of_app, !elem_of_cons. tauto. }
    split; [done|]. cbn [snd]. exists (insert_fragment l x). split_and!.
    + by rewrite lookup_insert_eq.
    + intros _. rewrite lookup_insert_eq. by eexists.
    + done.
    + rewrite Hp', Hperm. apply Permutation_cons_append.
    + by rewrite delete_insert_eq.
  - intros ->. assert (insert_fragment l x = fs) as ->.
    { apply (StronglySorted_unique_strong offset_lt); [|done|by apply (fs_sorted fs)|].
      - unfold offset_lt. intros a b _ _. lia.
      - rewrite Hp', Permutation_cons_append. done. }
    rewrite full_completes by done. destruct (reassemble fs); done.
Qed.

Lemma update_delete t now : delete key (Fragment_Update t now).2 = (Fragment_Update (delete key t) now).2.
Proof. unfold Fragment_Update. cbn [snd]. symmetry. apply map_filter_delete. Qed.

(** A maintenance run keeps the group within its lifetime and drops it afterwards. *)
Lemma update_step T t t' qs now :
  1 ≤ T < UINT64_MAX → holding T t t' qs → 1 < now ≤ T → holding T (Fragment_Update t now).2 (Fragment_Update t' now).2 qs.
Proof.
  intros HT (l & Hl & Hsome & Hs & Hperm & Hdel) Hn. exists l. rewrite update_delete, Hdel.
  assert ((Fragment_Update t' now).2 !! key = t' !! key) as ->; [|done].
  unfold Fragment_Update. cbn [snd]. destruct (t' !! key) as [g|] eqn:E.
  - apply map_lookup_filter_Some_2; [done|]. cbn [snd]. cbn in Hl. subst g. by apply group_lifetime.
  - by apply map_lookup_filter_None_2; left.
Qed.
Lemma update_drops T t t' qs now :
  1 ≤ T < UINT64_MAX → holding T t t' qs → T < now → (Fragment_Update t' now).2 = (Fragment_Update t now).2.
Proof.
  intros HT (l & Hl & _ & _ & _ & <-) Hn. rewrite <- update_delete. symmetry. apply delete_id.
  unfold Fragment_Update. cbn [snd]. apply map_lookup_filter_None_2. right. intros g Hg. cbn [snd]. rewrite Hg in Hl. cbn in Hl. subst g.
  by rewrite (proj2 (group_lifetime T now l HT) Hn).
Qed.

(** The part of the history before the last fragment. *)
Lemma receive_run T t es rest :
  1 ≤ T < UINT64_MAX → t !! key = None → inputs es ++ rest ≡ₚ fs → rest ≠ [] → Forall (λ now, 1 < now ≤ T) (update_times es) →
  match es with FUpdate _ :: _ => False | FInput tick _ :: _ => tick = T | [] => True end →
  answers t es = replicate (length (inputs es)) (true, None) ∧ holding T (maintained t (update_times es)) (exec fragment_step t es) (inputs es).
Proof.
  intros HT Ht. revert rest. induction es as [|e es IH] using rev_ind; intros rest Hp Hr Hu Hfirst.
  - split; [done|]. exists []. rewrite exec_nil, Ht. split_and!; [done|done|constructor|done|]. by apply delete_id.
  - rewrite inputs_app in Hp |- *. rewrite update_times_app in Hu |- *. apply Forall_app in Hu as [Hu1 Hu2].
    assert (match es with FUpdate _ :: _ => False | FInput tick _ :: _ => tick = T | [] => True end) as Hf by (by destruct es).
    rewrite answers_snoc, exec_snoc. unfold maintained. rewrite foldl_app. fold (maintained t (update_times es)).
    destruct e as [tick x|now]; cbn [inputs update_times omap list_omap foldl] in *.
    + rewrite <- app_assoc in Hp. cbn in Hp. destruct (IH (x :: rest)) as [IH1 IH2]; [done|done|done|done|].
      destruct (receive_step T _ _ _ tick x rest IH2) as [[H1 H2] _]; [|done|done|].
      { destruct es as [|[tick' x'|]]; [by intros _|by intros ?|done]. }
      rewrite IH1. cbn [fragment_step foldl]. destruct (Fragment_Input _ tick x) as [r t1]. cbn [fst snd] in *. subst r.
      rewrite length_app, replicate_add. done.
    + apply Forall_inv in Hu2. rewrite app_nil_r in Hp. rewrite app_nil_r. destruct (IH rest) as [IH1 IH2]; [done|done|done|done|].
      rewrite IH1. cbn [fragment_step fst snd option_list foldl]. rewrite app_nil_r. split; [done|]. by apply update_step.
Qed.

Lemma receive_all T t es tick x :
  1 ≤ T < UINT64_MAX → t !! key = None → inputs es ++ [x] ≡ₚ fs → Forall (λ now, 1 < now ≤ T) (update_times es) →
  match es with FUpdate _ :: _ => False | FInput tick _ :: _ => tick = T | [] => False end →
  answers t (es ++ [FInput tick x]) = replicate (length (inputs es)) (true, None) ++
    [match reassemble fs with Some o => (true, Some o) | None => (false, None) end] ∧
  exec fragment_step t (es ++ [FInput tick x]) = maintained t (update_times es).
Proof.
  intros HT Ht Hp Hu Hfirst. destruct (receive_run T t es [x]) as [H1 H2]; [done|done|done|done|done|by destruct es|].
  destruct (receive_step T _ _ _ tick x [] H2) as [_ [H3 H4]]; [|done|done|].
  { by destruct es as [|[tick' x'|]]. }
  rewrite answers_snoc, exec_snoc, H1. cbn [fragment_step]. destruct (Fragment_Input _ tick x) as [r t1]. cbn [fst snd option_list] in *. by subst.
Qed.
End receive.

(** ** What [Subpackages] produces *)

Lemma make_fragment_spec packet flags options ofs payload :
  flags = 0 ∨ flags = IP_MF → 0 ≤ ofs < 65536 → ofs mod 8 = 0 → payload ≠ [] →
  let x := make_fragment packet flags options ofs payload in
  GetFragmentOffset x = ofs ∧ payload_of x = payload ∧ FragmentKey x = FragmentKey packet ∧
  (flags = IP_MF → is_fragment x = true ∧ is_last_fragment x = false) ∧
  (flags = 0 → 8 ≤ ofs → is_fragment x = true ∧ is_last_fragment x = true).
Proof.
  intros Hf Ho Hm Hp. unfold make_fragment. set (g := mkIPFrame _ _ _ _ _ _ _ flags _ _).
  assert (if_Flags g = flags) as Hg by done. pose proof (set_get_offset g ofs) as Hoff. rewrite Hg in Hoff.
  specialize (Hoff Hf Ho Hm). destruct (offset_flags g ofs Ho) as [H1 H2]. rewrite Hg in H1, H2.
  split_and!; try done; unfold is_fragment, is_last_fragment; rewrite Hoff.
  - intros E. rewrite (proj2 (Z.eqb_neq _ _) (H1 E)). done.
  - intros E E8. destruct (H2 E) as [-> H3]. rewrite (proj2 (Z.eqb_neq _ _) (H3 E8)), (proj2 (Z.ltb_lt 0 ofs)) by lia. done.
Qed.

Record cut_ok (packet : IPFrame) (options : option (list Z)) (ofs : Z) (rest : list Z) (l : list IPFrame) : Prop := {
  co_cover : contiguous ofs l = Some (ofs + Z.of_nat (length rest));
  co_sorted : StronglySorted offset_lt l;
  co_from : ∀ x, x ∈ l → ofs ≤ GetFragmentOffset x ∧ payload_of x ≠ [] ∧ is_fragment x = true ∧
    FragmentKey x = FragmentKey packet;
  co_last : ∃ l' x, l = l' ++ [x] ∧ is_last_fragment x = true ∧ (∀ y, y ∈ l' → is_last_fragment y = false);
  co_bytes : mjoin (payload_of <$> l) = rest;
  co_head : ∃ flags payload l', l = make_fragment packet flags options ofs payload :: l'
}.

Lemma cut_tail packet options ofs rest :
  8 ≤ ofs < 65536 → ofs mod 8 = 0 → rest ≠ [] →
  cut_ok packet options ofs rest [make_fragment packet 0 options ofs rest].
Proof.
  intros Ho Hm Hr. destruct (make_fragment_spec packet 0 options ofs rest) as (E1 & E2 & E3 & _ & E4); [auto|lia|done|done|].
  destruct E4 as [E4 E5]; [done|lia|]. set (x := make_fragment _ _ _ _ _) in *. constructor.
  - cbn [contiguous]. rewrite E1, Z.eqb_refl, E2. done.
  - repeat constructor.
  - intros y ->%list_elem_of_singleton. rewrite E1, E2. split_and!; [lia|done..].
  - exists [], x. split_and!; [done|done|]. by intros y ?%elem_of_nil.
  - change (mjoin (payload_of <$> [x])) with (payload_of x ++ []). by rewrite E2, app_nil_r.
  - by eexists _, _, _.
Qed.

Lemma cut_cons packet options ofs max rest l :
  8 ≤ max → max mod 8 = 0 → 0 ≤ ofs → ofs mod 8 = 0 → max < Z.of_nat (length rest) →
  ofs + Z.of_nat (length rest) < 65536 →
  cut_ok packet None (ofs + max) (drop (Z.to_nat max) rest) l →
  cut_ok packet options ofs rest (make_fragment packet IP_MF options ofs (take (Z.to_nat max) rest) :: l).
Proof.
  intros Hmax Hm8 Ho Hm Hr Hb [C1 C2 C3 (l' & z & C4 & C5 & C6) C7 C8].
  assert (length (take (Z.to_nat max) rest) = Z.to_nat max) as Hl by (rewrite length_take; lia).
  assert (take (Z.to_nat max) rest ≠ []) as Hne by (intros E; rewrite E in Hl; cbn in Hl; lia).
  destruct (make_fragment_spec packet IP_MF options ofs (take (Z.to_nat max) rest)) as (E1 & E2 & E3 & E4 & _);
    [auto|lia|done|done|]. destruct E4 as [E4 E5]; [done|].
  set (x := make_fragment _ _ _ _ _) in *. constructor.
  - cbn [contiguous]. rewrite E1, Z.eqb_refl, E2, Hl. cbn [negb]. rewrite Z2Nat.id by lia. rewrite C1.
    f_equal. rewrite length_drop. lia.
  - constructor; [done|]. rewrite Forall_forall. intros y Hy. apply C3 in Hy as [Hy _]. unfold offset_lt. lia.
  - intros y [->|Hy]%elem_of_cons; [rewrite E1, E2; split_and!; [lia|done..]|].
    destruct (C3 y Hy) as (H1 & H2 & H3 & H4). split_and!; [lia|done..].
  - exists (x :: l'), z. rewrite C4. split_and!; [done|done|]. intros y [->|Hy]%elem_of_cons; auto.
  - cbn [fmap list_fmap]. rewrite mjoin_cons, C7, E2. apply take_drop.
  - by eexists _, _, _.
Qed.

Lemma cut_fragments_ok fuel packet max options ofs rest :
  8 ≤ max → max mod 8 = 0 → 0 ≤ ofs → ofs mod 8 = 0 → ofs + Z.of_nat (length rest) < 65536 →
  (length rest < fuel)%nat → rest ≠ [] → (ofs = 0 → max < Z.of_nat (length rest)) →
  cut_ok packet options ofs rest (cut_fragments fuel packet max options ofs rest).
Proof.
  intros Hmax Hm8. revert options ofs rest. induction fuel as [|fuel IH]; intros options ofs rest Ho Hm Hb Hf Hne H0; [lia|].
  cbn [cut_fragments]. case_if as E; bool_props.
  - apply cut_cons; try done. apply IH; try lia.
    + rewrite Z.add_mod, Hm8, Hm by lia. done.
    + rewrite length_drop. lia.
    + rewrite length_drop. lia.
    + intros E'. apply (f_equal length) in E'. rewrite length_drop in E'. cbn in E'. lia.
  - assert (0 < length rest)%nat by (destruct rest; [done|cbn; lia]).
    rewrite (proj2 (Z.ltb_lt _ _)) by lia.
    assert (8 ≤ ofs) by (assert (ofs ≠ 0) by (intros ->; lia); pose proof (Z.div_mod ofs 8); lia).
    rewrite (proj2 (Z.leb_gt _ _)) by lia. apply cut_tail; [lia|done|done].
Qed.

Lemma cut_fits fuel packet max options ofs rest x :
  0 ≤ max → x ∈ cut_fragments fuel packet max options ofs rest →
  IPFrame_SizeOf x ≤ 20 + Z.of_nat (length (segment_bytes options)) + max.
Proof.
  intros Hmax. revert options ofs rest. induction fuel as [|fuel IH]; intros options ofs rest; [by intros ?%elem_of_nil|].
  assert (∀ flags o pl, Z.of_nat (length pl) ≤ max →
    IPFrame_SizeOf (make_fragment packet flags options o pl) ≤ 20 + Z.of_nat (length (segment_bytes options)) + max) as Hx.
  { intros flags o pl Hl. unfold IPFrame_SizeOf, make_fragment. cbn [SetFragmentOffset if_Options if_Payload].
    change (length (segment_bytes (Some pl))) with (length pl). unfold IP_HLEN. lia. }
  cbn [cut_fragments]. case_if as E; [|case_if as E1]; bool_props.
  - intros [->|H]%elem_of_cons; [apply Hx; rewrite length_take; lia|]. apply IH in H. cbn in H. lia.
  - intros ->%list_elem_of_singleton. by apply Hx.
  - by intros ?%elem_of_nil.
Qed.

Lemma fragment_max_spec f :
  (length (segment_bytes (if_Options f)) ≤ 40)%nat →
  8 ≤ fragment_max f ∧ fragment_max f mod 8 = 0 ∧
  fragment_max f ≤ 1480 - Z.of_nat (length (segment_bytes (if_Options f))).
Proof.
  intros Ho. unfold fragment_max.
  assert ((match if_Options f with Some o => MTU - IP_HLEN - Z.of_nat (length o) | None => MTU - IP_HLEN end)
    = 1480 - Z.of_nat (length (segment_bytes (if_Options f)))) as ->.
  { unfold MTU, IP_HLEN, segment_bytes. destruct (if_Options f); cbn; lia. }
  set (n := Z.of_nat _). assert (0 ≤ n ≤ 40) by lia.
  rewrite Z.shiftl_mul_pow2, Z.shiftr_div_pow2 by lia. change (2 ^ 3) with 8.
  pose proof (Z.div_mod (1480 - n) 8). pose proof (Z.mod_pos_bound (1480 - n) 8).
  rewrite Z.mod_mul by lia. lia.
Qed.

Definition reassembled (f : IPFrame) (m : list Z) : IPFrame :=
  mkIPFrame InterNetwork (if_Destination f) (if_Source f) (if_Ttl f) (if_Id f) (if_Tos f) (if_ProtocolType f)
    IP_DF (Some m) (if_Options f).

Lemma subpackages_full f m :
  Z.land (if_Flags f) IP_MF = 0 → if_Payload f = Some m → (length (segment_bytes (if_Options f)) ≤ 40)%nat →
  fragment_max f < Z.of_nat (length m) < 65536 →
  full_set (Subpackages f) ∧ (∀ x, x ∈ Subpackages f → FragmentKey x = FragmentKey f) ∧ (2 ≤ length (Subpackages f))%nat ∧
  Forall (λ x, IPFrame_SizeOf x ≤ MTU) (Subpackages f) ∧ reassemble (Subpackages f) = Some (reassembled f m).
Proof.
  intros Hmf Hpl Ho Hm. destruct (fragment_max_spec f Ho) as (M1 & M2 & M3).
  assert (Subpackages f = cut_fragments (S (length m)) f (fragment_max f) (if_Options f) 0 m) as ->.
  { unfold Subpackages. rewrite Hmf, Hpl. cbn [Z.eqb negb]. by rewrite (proj2 (Z.leb_gt _ _)) by lia. }
  assert (m ≠ []) as Hne by (intros ->; cbn in Hm; lia).
  destruct (cut_fragments_ok (S (length m)) f (fragment_max f) (if_Options f) 0 m) as [C1 C2 C3 C4 C5 (fl & pl & l & C6)];
    try (done || lia).
  assert (Forall (λ x, IPFrame_SizeOf x ≤ MTU) (cut_fragments (S (length m)) f (fragment_max f) (if_Options f) 0 m)) as Hfit.
  { apply Forall_forall. intros x Hx%cut_fits; [|lia]. unfold MTU. lia. }
  set (fs := cut_fragments _ _ _ _ _ _) in *.
  assert (l ≠ []) as Hl.
  { intros ->. destruct C4 as (l' & x & E & Hx & _). rewrite C6 in E. destruct l' as [|? []]; [|done..].
    injection E as E. subst x. rewrite C6 in C5. cbn in C5. rewrite app_nil_r in C5. subst pl.
    unfold is_last_fragment in Hx. apply andb_true_iff in Hx as [_ Hx%Z.ltb_lt].
    rewrite C6 in C1. cbn [contiguous] in C1. destruct (GetFragmentOffset _ =? 0) eqn:E0 in C1; [|done]. bool_props. lia. }
  split_and!; [| |rewrite C6; destruct l; [done|cbn; lia]|done|].
  - constructor; [by rewrite C1|done|..|done]; intros x Hx; by apply C3.
  - intros x Hx. by apply C3.
  - unfold reassemble. rewrite C6 at 1.
    assert (existsb (λ f, bool_decide (payload_of f = [])) fs = false) as ->.
    { apply not_true_is_false. rewrite existsb_exists. intros (x & Hx%list_elem_of_In & Hb%bool_decide_eq_true_1).
      by apply (C3 x Hx). }
    rewrite C5. done.
Qed.

(** C38: Fragmentation and reassembly are inverse within the lifetime of a group: an unfragmented packet
    whose payload exceeds the MTU (options of at most 40 bytes, payload below 64 KiB) is cut into at least
    two fragments that each fit the MTU.  Let a receiver that holds no other fragment of the same key
    get its first one at millisecond [T], and let the maintenance runs that come before the last one all
    run within that millisecond (later ones end the group's lifetime, which is one millisecond).  Then,
    in any order of arrival, every fragment is accepted, nothing is delivered before the last one, and
    with it exactly one packet, with the original header fields, options and payload (its flags DF); the
    table is left as the maintenance runs alone leave it.  A maintenance run at a later millisecond that
    comes before the last fragment drops what was collected, and leaves nothing of it. *)
Theorem fragments_reassemble t T x es f m :
  Z.land (if_Flags f) IP_MF = 0 → if_Payload f = Some m → (length (segment_bytes (if_Options f)) ≤ 40)%nat →
  fragment_max f < Z.of_nat (length m) < 65536 → t !! FragmentKey f = None → 1 ≤ T < UINT64_MAX →
  Forall (λ now, 1 < now ≤ T) (update_times es) →
  (2 ≤ length (Subpackages f))%nat ∧ Forall (λ x, IPFrame_SizeOf x ≤ MTU) (Subpackages f) ∧
  (∀ tick y, x :: inputs es ++ [y] ≡ₚ Subpackages f →
     answers t (FInput T x :: es ++ [FInput tick y]) =
       replicate (length (Subpackages f) - 1) (true, None) ++ [(true, Some (reassembled f m))] ∧
     exec fragment_step t (FInput T x :: es ++ [FInput tick y]) = maintained t (update_times es)) ∧
  (∀ now rest, x :: inputs es ++ rest ≡ₚ Subpackages f → rest ≠ [] → T < now →
     answers t (FInput T x :: es ++ [FUpdate now]) = replicate (S (length (inputs es))) (true, None) ∧
     exec fragment_step t (FInput T x :: es ++ [FUpdate now]) = maintained t (update_times es ++ [now])).
Proof.
  intros Hmf Hpl Ho Hm Ht HT Hu. destruct (subpackages_full f m Hmf Hpl Ho Hm) as (Hfull & Hkey & Hlen & Hfit & Hre).
  split; [done|]. split; [done|]. split.
  - intros tick y Hp. destruct (receive_all (Subpackages f) (FragmentKey f) Hfull Hkey T t (FInput T x :: es) tick y) as [H1 H2]; [done..|].
    rewrite Hre in H1. split; [|done]. apply Permutation_length in Hp. cbn [length] in Hp. rewrite length_app in Hp. cbn [length] in Hp.
    replace (length (Subpackages f) - 1)%nat with (S (length (inputs es))) by lia. done.
  - intros now rest Hp Hr Hn. destruct (receive_run (Subpackages f) (FragmentKey f) Hfull Hkey T t (FInput T x :: es) rest) as [H1 H2]; [done..|].
    rewrite app_comm_cons, answers_snoc, exec_snoc, H1. cbn [fragment_step fst snd option_list]. rewrite app_nil_r. split; [done|].
    rewrite (update_drops (FragmentKey f) T _ _ _ now HT H2 Hn). unfold maintained. by rewrite foldl_app.
Qed.

Definition sample_packet : IPFrame :=
  mkIPFrame InterNetwork 16843009 33554442 64 9 0 IP_PROTO_UDP IP_DF (Some (replicate 3000 5)) None.

(** The fragments in reverse order, with a maintenance run in between. *)
Lemma fragments_reassemble_witness :
  match rev (Subpackages sample_packet) with
  | [x; y; z] =>
      answers ∅ [FInput 100 x; FUpdate 100; FInput 100 y; FInput 103 z] =
        [(true, None); (true, None); (true, Some (reassembled sample_packet (replicate 3000 5)))] ∧
      exec fragment_step ∅ [FInput 100 x; FUpdate 100; FInput 100 y; FUpdate 101] = ∅
  | _ => False
  end.
Proof.
  pose proof (Permutation_rev (Subpackages sample_packet)) as Hp.
  assert (length (rev (Subpackages sample_packet)) = 3%nat) as Hl by (vm_compute; reflexivity).
  assert (length (Subpackages sample_packet) = 3%nat) as Hl' by (vm_compute; reflexivity).
  destruct (rev (Subpackages sample_packet)) as [|x [|y [|z [|]]]]; try discriminate.
  destruct (fragments_reassemble ∅ 100 x [FUpdate 100; FInput 100 y] sample_packet (replicate 3000 5)) as (_ & _ & H1 & H2).
  - vm_compute. reflexivity.
  - reflexivity.
  - cbn. lia.
  - rewrite length_replicate. vm_compute. split; reflexivity.
  - apply lookup_empty.
  - unfold UINT64_MAX. lia.
  - cbn. constructor; [lia|constructor].
  - split.
    + destruct (H1 103 z) as [H3 _]; [symmetry; exact Hp|]. rewrite Hl' in H3. exact H3.
    + destruct (H2 101 [z]) as [_ H3]; [symmetry; exact Hp|done|lia|]. etrans; [exact H3|reflexivity].
Defined.
