(* ===== verification/PacketMss.v ===== *)
(** TCP MSS clamping of tunneled packets ([src/ppp/app/protocol/VirtualEthernetTcpMss.h], with the
    IPv6 header helpers of [src/ppp/ipv6/IPv6Packet.h]).

    The clamps rewrite the packet in place: each returns its result and the packet afterwards. *)

From S2P Require Import Prelude PacketChecksum PacketFrames.

Definition kTcpMssIPv4Min : Z := 1200.
Definition kTcpMssIPv4Max : Z := 1460.
Definition kTcpMssIPv6Min : Z := 1220.
Definition kTcpMssIPv6Max : Z := 1440.
Definition TCP_HLEN : Z := 20.
Definition TCP_SYN : Z := 2.
Definition IPv6_HEADER_MIN_SIZE : Z := 40.
Definition IPv6_VERSION : Z := 6.

Definition ComputeDynamicTcpMss (ipv4 : bool) (tunnel_overhead path_mtu : Z) : Z :=
  let tunnel_overhead := Z.max 0 tunnel_overhead in
  let base_mtu := MTU - tunnel_overhead in
  let base_mtu := if 0 <? path_mtu then Z.min base_mtu path_mtu else base_mtu in
  let ip_header := if ipv4 then IP_HLEN else IPv6_HEADER_MIN_SIZE in
  let mss := base_mtu - ip_header - TCP_HLEN in
  let mss := if ipv4 then Z.max kTcpMssIPv4Min (Z.min kTcpMssIPv4Max mss)
             else Z.max kTcpMssIPv6Min (Z.min kTcpMssIPv6Max mss) in
  wrap 16 mss.

(** ** The option walk *)

Definition TCPH_HDRLEN_BYTES (t : list Z) : Z := Z.land (Z.shiftl (Z.shiftr (get16 (drop 12 t)) 12) 2) 255.
Definition TCPH_FLAGS (t : list Z) : Z := Z.land (get16 (drop 12 t)) 63.

(** The loop over the options from [i]: [None] when [fuel] runs out, otherwise the offset of the
    MSS option if the walk reaches one. *)
Fixpoint walk_options (fuel : nat) (options : list Z) (i : nat) : option (option nat) :=
  match fuel with
  | O => None
  | S fuel =>
      if decide (i < length options)%nat then
        let kind := byte_at options i in
        if kind =? 0 then Some None
        else if kind =? 1 then walk_options fuel options (i + 1)
        else if decide (length options ≤ i + 1)%nat then Some None
        else
          let len := byte_at options (i + 1) in
          if (len <? 2) || (Z.of_nat (length options) <? Z.of_nat i + len) then Some None
          else if (kind =? 2) && (len =? 4) then Some (Some i)
          else walk_options fuel options (i + Z.to_nat len)
      else Some None
  end.

(** The offset of the MSS value to lower, if there is one to lower. *)
Definition mss_to_lower (options : list Z) (mss_value : Z) : option nat :=
  match walk_options (S (length options)) options 0 with
  | Some (Some i) => if mss_value <? get16 (drop (i + 2) options) then Some (i + 2)%nat else None
  | _ => None
  end.

(** Both clamps look for the option in a segment of [tcp_length] bytes at [off]. *)
Definition find_mss (p : list Z) (off : nat) (tcp_length mss_value : Z) : option nat :=
  let t := drop off p in
  let tcp_header_length := TCPH_HDRLEN_BYTES t in
  if (tcp_header_length <=? TCP_HLEN) || (tcp_length <? tcp_header_length) then None
  else if Z.land (TCPH_FLAGS t) TCP_SYN =? 0 then None
  else
    match mss_to_lower (sub t 20 (Z.to_nat (tcp_header_length - TCP_HLEN))) mss_value with
    | Some i => Some (off + 20 + i)%nat
    | None => None
    end.

(** [field = 0; field = chksum(...)] on the 16-bit field at [off]. *)
Definition refill (p : list Z) (off : nat) (chksum : list Z → Z) : list Z :=
  let p := patch p off [0; 0] in patch p off (store16 (chksum p)).

(** ** IPv4 *)

Definition ClampTcpMssIPv4 (checks : bool) (p : list Z) (mss_value : Z) : bool * list Z :=
  if Z.of_nat (length p) <? IP_HLEN then (false, p)
  else
    let '(parsed, p) := ip_hdr_Parse checks p in
    match parsed with
    | None => (false, p)
    | Some ip_length =>
        let ip_header_length := Z.shiftl (IPH_HL p) 2 in
        if (ip_header_length <? IP_HLEN) || negb (byte_at p 9 =? IP_PROTO_TCP) then (false, p)
        else
          let tcp_length := ip_length - ip_header_length in
          if tcp_length <? TCP_HLEN then (false, p)
          else
            let hl := Z.to_nat ip_header_length in
            match find_mss p hl tcp_length mss_value with
            | None => (false, p)
            | Some k =>
                let p := patch p k (be_bytes 2 mss_value) in
                let p := refill p 10 (λ p, inet_chksum (take hl p)) in
                let p := refill p (hl + 16) (λ p, inet_chksum_pseudo (sub p hl (Z.to_nat tcp_length)) IP_PROTO_TCP
                                                     (load32 (drop 12 p)) (load32 (drop 16 p))) in
                (true, p)
            end
    end.

(** ** IPv6 *)

(** [TryParsePacket]: the source and destination addresses. *)
Definition TryParsePacket (p : list Z) : option (list Z * list Z) :=
  let len := Z.of_nat (length p) in
  if len <? IPv6_HEADER_MIN_SIZE then None
  else if negb (Z.shiftr (byte_at p 0) 4 =? IPv6_VERSION) then None
  else
    let body_length := get16 (drop 4 p) in
    if (body_length <? 0) || (len <? IPv6_HEADER_MIN_SIZE + body_length) then None
    else Some (sub p 8 16, sub p 24 16).

Definition ComputePseudoChecksum (payload source destination : list Z) (next_header : Z) : Z :=
  let acc := 0 +[32] ip_standard_chksum source in
  let acc := FOLD_U32T acc in
  let acc := acc +[32] ip_standard_chksum destination in
  let acc := FOLD_U32T acc in
  inet_cksum_pseudo_base payload next_header acc.

Definition ClampTcpMssIPv6 (p : list Z) (mss_value : Z) : bool * list Z :=
  let packet_length := Z.of_nat (length p) in
  if packet_length <? IPv6_HEADER_MIN_SIZE + TCP_HLEN then (false, p)
  else if negb (Z.shiftr (byte_at p 0) 4 =? 6) || negb (byte_at p 6 =? IP_PROTO_TCP) then (false, p)
  else
    match TryParsePacket p with
    | None => (false, p)
    | Some (source, destination) =>
        let tcp_length := packet_length - IPv6_HEADER_MIN_SIZE in
        match find_mss p 40 tcp_length mss_value with
        | None => (false, p)
        | Some k =>
            let p := patch p k (be_bytes 2 mss_value) in
            (true, refill p 56 (λ p, ComputePseudoChecksum (drop 40 p) source destination IP_PROTO_TCP))
        end
    end.

(** ** Termination of the walk *)

Lemma walk_terminates fuel options i :
  bytes_ok options → (length options - i < fuel)%nat → walk_options fuel options i ≠ None.
Proof.
  intros Hb. revert i. induction fuel as [|fuel IH]; intros i Hf; cbn [walk_options].
  - lia.
  - case_decide as Hi; [|done]. case_if as E0; [done|]. case_if as E1; [apply IH; lia|].
    case_decide as Hi1; [done|]. case_if as E2; [done|]. case_if as E3; [done|]. bool_props; apply IH; lia.
Qed.

Lemma walk_more fuel fuel' options i r :
  walk_options fuel options i = Some r → (fuel ≤ fuel')%nat → walk_options fuel' options i = Some r.
Proof.
  revert fuel' i. induction fuel as [|fuel IH]; intros [|fuel'] i; cbn [walk_options]; try done; [lia|].
  intros Hw Hf. repeat case_match; try done; apply IH; done || lia.
Qed.

(** A walk that stops at an option stays inside the options. *)
Lemma walk_inside fuel options i j :
  walk_options fuel options i = Some (Some j) → (i ≤ j)%nat ∧ (j + 4 ≤ length options)%nat ∧
    byte_at options j = 2 ∧ byte_at options (j + 1) = 4.
Proof.
  revert i. induction fuel as [|fuel IH]; intros i; cbn [walk_options]; [done|].
  case_decide as Hi; [|done]. case_if as E0; [done|]. case_if as E1; [intros (? & ? & ? & ?)%IH; split_and!; [lia|done..]|].
  case_decide as Hi1; [done|]. case_if as E2; [done|]. case_if as E3.
  - intros [= <-]. bool_props. split_and!; [lia|lia|done|done].
  - intros (? & ? & ? & ?)%IH. split_and!; [lia|done..].
Qed.

(** What the walk from offset [i] finds, as the options read: the list ends at its end, at the end-of-list option, at a kind
    without a length byte, at a length of 0 or 1, and at an option that does not fit; the no-operation option takes one byte. *)
Inductive walks_to (options : list Z) : nat → option nat → Prop :=
  | walk_at_end i : (length options ≤ i)%nat → walks_to options i None
  | walk_end_of_list i : options !! i = Some 0 → walks_to options i None
  | walk_nop i r : options !! i = Some 1 → walks_to options (S i) r → walks_to options i r
  | walk_no_length i k : options !! i = Some k → 2 ≤ k → options !! S i = None → walks_to options i None
  | walk_bad_length i k len : options !! i = Some k → 2 ≤ k → options !! S i = Some len → len = 0 ∨ len = 1 → walks_to options i None
  | walk_too_long i k len :
      options !! i = Some k → 2 ≤ k → options !! S i = Some len → (length options < i + Z.to_nat len)%nat → walks_to options i None
  | walk_mss i : options !! i = Some 2 → options !! S i = Some 4 → (i + 4 ≤ length options)%nat → walks_to options i (Some i)
  | walk_skip i k len r :
      options !! i = Some k → 2 ≤ k → options !! S i = Some len → 2 ≤ len → ¬ (k = 2 ∧ len = 4) →
      (i + Z.to_nat len ≤ length options)%nat → walks_to options (i + Z.to_nat len) r → walks_to options i r.
Lemma byte_at_Some options i : (i < length options)%nat → options !! i = Some (byte_at options i).
Proof.
  intros H. destruct (lookup_lt_is_Some_2 _ _ H) as [x E]. rewrite E. f_equal. unfold byte_at. by apply nth_lookup_Some with (d := 0) in E.
Qed.
Lemma walk_refines fuel options i r : bytes_ok options → walk_options fuel options i = Some r → walks_to options i r.
Proof.
  intros Hb. revert i. induction fuel as [|fuel IH]; intros i; cbn [walk_options]; [done|].
  case_decide as Hi; [|intros [= <-]; apply walk_at_end; lia]. pose proof (byte_at_Some _ _ Hi) as Ek.
  pose proof (Forall_lookup_1 _ _ _ _ Hb Ek) as Bk. cbv beta in Bk. unfold is_uint in Bk.
  case_if as E0; [intros [= <-]; bool_props; apply walk_end_of_list; congruence|].
  case_if as E1; [intros Hw; bool_props; apply walk_nop; [congruence|]; apply IH; by rewrite <- Nat.add_1_r|].
  bool_props. assert (Hk : 2 ≤ byte_at options i) by lia.
  case_decide as Hi1; [intros [= <-]; eapply walk_no_length; [exact Ek|done|]; apply lookup_ge_None_2; lia|].
  assert (Hi2 : (S i < length options)%nat) by lia. pose proof (byte_at_Some _ _ Hi2) as El. rewrite <- Nat.add_1_r in El at 2.
  pose proof (Forall_lookup_1 _ _ _ _ Hb El) as Bl. cbv beta in Bl. unfold is_uint in Bl.
  case_if as E2.
  - intros [= <-]. apply orb_true_iff in E2 as [E2|E2]; bool_props; [eapply walk_bad_length; [done..|lia]|eapply walk_too_long; [done..|lia]].
  - apply orb_false_iff in E2 as [E2 E2']. bool_props. case_if as E3.
    + intros [= <-]. apply andb_true_iff in E3 as [E3 E3']. bool_props. apply walk_mss; [congruence|congruence|lia].
    + intros Hw. apply walk_skip with (byte_at options i) (byte_at options (i + 1)); [done..|lia| |lia|by apply IH].
      intros [H1 H2]. rewrite H1, H2 in E3. done.
Qed.

(** ** Patches *)

Section patches.
Context (p bs : list Z) (k : nat) (Hk : (k + length bs ≤ length p)%nat).

Lemma length_patch : length (patch p k bs) = length p.
Proof. unfold patch. rewrite !length_app, length_take, length_drop. lia. Qed.

Lemma patch_lookup j : (j < k)%nat ∨ (k + length bs ≤ j)%nat → patch p k bs !! j = p !! j.
Proof.
  unfold patch. intros [Hj|Hj].
  - rewrite lookup_app_l by (rewrite length_take; lia). apply lookup_take_lt. lia.
  - rewrite lookup_app_r by (rewrite length_take; lia). rewrite length_take_le by lia.
    rewrite lookup_app_r by lia. rewrite lookup_drop. f_equal. lia.
Qed.

Lemma sub_patch off n :
  (off ≤ k)%nat → (k + length bs ≤ off + n)%nat → (off + n ≤ length p)%nat →
  sub (patch p k bs) off n = sub p off (k - off) ++ bs ++ sub p (k + length bs) (off + n - k - length bs).
Proof.
  intros H1 H2 H3. unfold sub, patch. rewrite drop_app_le by (rewrite length_take; lia).
  rewrite take_app_ge by (rewrite length_drop, length_take; lia).
  rewrite length_drop, length_take_le by lia. rewrite take_app_ge by lia.
  rewrite skipn_firstn_comm. f_equal. f_equal. f_equal. lia.
Qed.

Lemma sub_patch_out off n :
  (off + n ≤ k)%nat ∨ (k + length bs ≤ off)%nat → sub (patch p k bs) off n = sub p off n.
Proof.
  intros H. apply list_eq. intros j. unfold sub. destruct (decide (j < n)%nat).
  - rewrite !lookup_take_lt, !lookup_drop by done. apply patch_lookup. lia.
  - rewrite !lookup_take_ge by lia. done.
Qed.

Lemma bytes_ok_patch : bytes_ok p → bytes_ok bs → bytes_ok (patch p k bs).
Proof. intros. unfold patch. rewrite !Forall_app. split_and!; [by apply bytes_ok_take|done|by apply bytes_ok_drop]. Qed.
End patches.

Lemma patch_patch p k a b : length a = length b → (k + length a ≤ length p)%nat → patch (patch p k a) k b = patch p k b.
Proof.
  intros Hl Hk. unfold patch. rewrite take_app_le by (rewrite length_take; lia). rewrite take_take, Nat.min_id.
  f_equal. f_equal. rewrite drop_app_ge by (rewrite length_take; lia). rewrite length_take_le by lia.
  rewrite drop_app_ge by lia. rewrite drop_drop. f_equal. lia.
Qed.

(** A refilled field: the field holds the checksum of the packet with a zero field. *)
Lemma refill_patch p k chksum :
  (k + 2 ≤ length p)%nat → refill p k chksum = patch p k (store16 (chksum (patch p k [0; 0]))).
Proof. intros Hk. unfold refill. by rewrite patch_patch. Qed.

Lemma length_refill p k chksum : (k + 2 ≤ length p)%nat → length (refill p k chksum) = length p.
Proof. intros Hk. rewrite refill_patch by done. by apply length_patch. Qed.

Lemma get16_sub p k : get16 (drop k p) = get16 (sub p k 2).
Proof. unfold get16, sub, byte_at. by destruct (drop k p) as [|? [|? ?]]. Qed.

Lemma load32_sub p k : load32 (drop k p) = load32 (sub p k 4).
Proof. unfold load32, sub, byte_at. by destruct (drop k p) as [|? [|? [|? [|? ?]]]]. Qed.

Lemma sub_sub p a n b m : (b + m ≤ n)%nat → sub (sub p a n) b m = sub p (a + b) m.
Proof.
  intros H. unfold sub. rewrite skipn_firstn_comm, take_take, drop_drop. by rewrite Nat.min_l by lia.
Qed.

Lemma drop_sub p k : drop k p = sub p k (length p - k).
Proof. unfold sub. by rewrite take_ge by (rewrite length_drop; lia). Qed.

Lemma mss_to_lower_spec options mss i :
  mss_to_lower options mss = Some i → (2 ≤ i)%nat ∧ (i + 2 ≤ length options)%nat ∧ mss < get16 (drop i options).
Proof.
  unfold mss_to_lower. destruct (walk_options _ _ _) as [[j|]|] eqn:E; try done.
  apply walk_inside in E as (_ & Hl & _). case_if as Em; [|done]. intros [= <-]. bool_props. split_and!; [lia|lia|done].
Qed.

Lemma find_mss_spec p off tl mss k :
  find_mss p off tl mss = Some k →
  (off + 22 ≤ k)%nat ∧ Z.of_nat k + 2 ≤ Z.of_nat off + tl ∧ mss < get16 (drop k p).
Proof.
  unfold find_mss. case_if as E; [done|]. case_if as Es; [done|]. set (hb := TCPH_HDRLEN_BYTES _) in *. bool_props.
  unfold TCP_HLEN in *.
  destruct (mss_to_lower _ _) as [i|] eqn:Ei; [|done]. intros [= <-].
  apply mss_to_lower_spec in Ei as (H2 & Hl & Hm). unfold sub in Hl at 1. rewrite length_take, drop_drop, length_drop in Hl.
  split_and!; [lia|lia|]. rewrite get16_sub in Hm. rewrite sub_sub in Hm by lia.
  rewrite get16_sub. unfold sub in Hm |- *. rewrite drop_drop in Hm.
  by replace (off + 20 + i)%nat with (off + (20 + i))%nat by lia.
Qed.

(** ** The rewritten packet *)

(** Bytes outside the listed 16-bit fields are the same. *)
Definition same_outside (fields : list nat) (p q : list Z) : Prop :=
  length q = length p ∧ ∀ j, (∀ k, k ∈ fields → j ≠ k ∧ j ≠ S k) → q !! j = p !! j.

Lemma same_outside_patch fields p q k bs :
  same_outside fields p q → length bs = 2%nat → (k + 2 ≤ length p)%nat → k ∈ fields → same_outside fields p (patch q k bs).
Proof.
  intros [Hl Hs] Hb Hk Hin. split; [by rewrite length_patch by lia|].
  intros j Hj. destruct (Hj k Hin). rewrite patch_lookup by lia. by apply Hs.
Qed.

Lemma refill_verifies p k off n (verify : list Z → Z) :
  (off + n ≤ length p)%nat → (off ≤ k)%nat → (k + 2 ≤ off + n)%nat → Nat.Even (k - off) → bytes_ok p →
  (∀ a b field, Nat.Even (length a) → bytes_ok a → bytes_ok b → length (a ++ [0; 0] ++ b) = n →
     field = verify (filled a b 0) → verify (filled a b field) = 0) →
  verify (sub (refill p k (λ q, verify (sub q off n))) off n) = 0.
Proof.
  intros Hn Hk Hk2 He Hb Hv. rewrite refill_patch by lia.
  assert (∀ field, sub (patch p k (store16 field)) off n =
    filled (sub p off (k - off)) (sub p (k + 2) (off + n - k - 2)) field) as E.
  { intros field. rewrite sub_patch by (cbn; lia). done. }
  change [0; 0] with (store16 0). rewrite !E. apply Hv; [by rewrite length_sub by lia|by apply bytes_ok_sub..| |done].
  rewrite !length_app, !length_sub by lia. cbn. lia.
Qed.

Ltac patch_side := rewrite ?length_be_bytes; cbn [length store16]; lia.

(** What the header parser guarantees about an accepted packet. *)
Lemma ip_hdr_Parse_some checks p len q :
  bytes_ok p → ip_hdr_Parse checks p = (Some len, q) →
  bytes_ok q ∧ length q = length p ∧ 20 ≤ Z.shiftl (IPH_HL q) 2 ≤ 60 ∧ Z.shiftl (IPH_HL q) 2 ≤ Z.of_nat (length q) ∧
  len ≤ Z.of_nat (length q) ∧ len < 65536.
Proof.
  intros Hb. unfold ip_hdr_Parse. case_if as Ev; [done|]. case_if as E1; [done|]. case_if as E2; [done|].
  case_if as E3; [done|].
  match goal with |- context [let '(_, _) := ?e in _] => set (r := e) end.
  assert (20 ≤ length p)%nat as Hl by (unfold IP_HLEN in *; bool_props; lia).
  assert (bytes_ok r.2 ∧ length r.2 = length p ∧ IPH_HL r.2 = IPH_HL p ∧ r.1 ≤ Z.of_nat (length p) ∧ r.1 < 65536) as (R1 & R2 & R3 & R4 & R5).
  { pose proof (get16_range (drop 2 p) (bytes_ok_drop 2 p Hb)) as Hg. rewrite length_drop in Hg. specialize (Hg ltac:(lia)).
    subst r. case_if as Ea; [case_if as Eb|]; bool_props; cbn [fst snd].
    - split_and!; [apply bytes_ok_patch; [done|apply bytes_ok_be_bytes]|by rewrite length_patch by patch_side| |lia|uint_lia].
      unfold IPH_HL, byte_at. rewrite !nth_lookup, patch_lookup by patch_side. done.
    - split_and!; [done|done|done|lia|uint_lia].
    - split_and!; [done|done|done|lia|uint_lia]. }
  destruct r as [len0 q0]. cbn [fst snd] in *.
  do 3 (case_if as E4; [done|clear E4]). case_if as E7; [clear E7|done]. intros [= <- <-]. rewrite R2, R3.
  assert (0 ≤ IPH_HL p ≤ 15).
  { unfold IPH_HL. rewrite (Z.land_ones _ 4) by lia. pose proof (Z.mod_pos_bound (byte_at p 0) (2 ^ 4) eq_refl). lia. }
  unfold IP_HLEN in *. bool_props. rewrite Z.shiftl_mul_pow2 in * by lia. change (2 ^ 2) with 4 in *.
  split_and!; try done; lia.
Qed.

Definition clamp_v4_rewrites (checks : bool) (p : list Z) (mss_value : Z) (p' : list Z) : Prop :=
  ∃ len q k, ip_hdr_Parse checks p = (Some len, q) ∧
    let hl := Z.to_nat (Z.shiftl (IPH_HL q) 2) in
    (hl + 22 ≤ k)%nat ∧ Z.of_nat k + 2 ≤ len ∧ mss_value < get16 (drop k q) ∧ get16 (drop k p') = mss_value ∧
    same_outside [10%nat; (hl + 16)%nat; k] q p' ∧
    inet_chksum (take hl p') = 0 ∧
    inet_chksum_pseudo (sub p' hl (Z.to_nat (len - Z.of_nat hl))) IP_PROTO_TCP (load32 (drop 12 p')) (load32 (drop 16 p')) = 0.

Lemma clamp_v4_rewrite q hl tl k mss :
  bytes_ok q → (20 ≤ hl ≤ 60)%nat → Nat.Even hl → (hl + tl ≤ length q)%nat → Z.of_nat tl < 65536 →
  (hl + 22 ≤ k)%nat → (k + 2 ≤ hl + tl)%nat → is_uint 16 mss →
  let p1 := patch q k (be_bytes 2 mss) in
  let p2 := refill p1 10 (λ p, inet_chksum (take hl p)) in
  let p3 := refill p2 (hl + 16) (λ p, inet_chksum_pseudo (sub p hl tl) IP_PROTO_TCP (load32 (drop 12 p)) (load32 (drop 16 p))) in
  get16 (drop k p3) = mss ∧ same_outside [10%nat; (hl + 16)%nat; k] q p3 ∧ inet_chksum (take hl p3) = 0 ∧
  inet_chksum_pseudo (sub p3 hl tl) IP_PROTO_TCP (load32 (drop 12 p3)) (load32 (drop 16 p3)) = 0.
Proof.
  intros Hb Hhl He Hl Ht Hk Hk2 Hm p1 p2 p3.
  assert (length p1 = length q) as L1 by (apply length_patch; patch_side).
  assert (bytes_ok p1) as B1 by (apply bytes_ok_patch; [done|apply bytes_ok_be_bytes]).
  assert (p2 = patch p1 10 (store16 (inet_chksum (take hl (patch p1 10 [0; 0]))))) as E2 by (apply refill_patch; lia).
  assert (length p2 = length q) as L2 by (rewrite E2, length_patch; [done|patch_side]).
  assert (bytes_ok p2) as B2 by (rewrite E2; apply bytes_ok_patch; [done|apply store16_bytes]).
  set (f3 := λ p, inet_chksum_pseudo (sub p hl tl) IP_PROTO_TCP (load32 (drop 12 p)) (load32 (drop 16 p))) in *.
  assert (p3 = patch p2 (hl + 16) (store16 (f3 (patch p2 (hl + 16) [0; 0])))) as E3 by (apply refill_patch; lia).
  assert (∀ off n, (off + n ≤ hl + 16)%nat → sub p3 off n = sub p2 off n) as S3.
  { intros off n H. rewrite E3. apply sub_patch_out; [patch_side|]. lia. }
  split_and!.
  - rewrite get16_sub, E3, sub_patch_out by patch_side. rewrite E2, sub_patch_out by patch_side.
    unfold p1. rewrite sub_patch by patch_side. rewrite Nat.sub_diag. unfold sub. cbn [take app].
    by apply get16_be_bytes.
  - rewrite E3, E2. apply same_outside_patch; [apply same_outside_patch; [apply same_outside_patch|..]|..];
      rewrite ?length_be_bytes; try done; try lia; set_solver.
  - change (take hl p3) with (sub p3 0 hl). rewrite S3 by lia. unfold p2.
    apply (refill_verifies p1 10 0 hl inet_chksum); [lia|lia|lia|by exists 5%nat|done|].
    intros a b field Ha Hba Hbb Hn ->. apply chksum_verifies; [done..| |by left].
    unfold chksum_fits, filled. change (store16 0) with [0; 0]. lia.
  - rewrite !load32_sub, (S3 12%nat 4%nat), (S3 16%nat 4%nat) by lia. set (src := load32 (sub p2 12 4)). set (dest := load32 (sub p2 16 4)).
    set (verify := λ s, inet_chksum_pseudo s IP_PROTO_TCP src dest).
    assert (p3 = refill p2 (hl + 16) (λ p, verify (sub p hl tl))) as ->.
    { rewrite E3, refill_patch by lia. do 2 f_equal. unfold f3, verify. 
      by rewrite !load32_sub, !(sub_patch_out p2 [0; 0] (hl + 16) ltac:(patch_side) _ 4) by lia. }
    apply (refill_verifies p2 (hl + 16) hl tl verify); [lia|lia|lia|by replace (hl + 16 - hl)%nat with 16%nat by lia; exists 8%nat|done|].
    assert (is_uint 32 src ∧ is_uint 32 dest) as [? ?] by (split; by apply load32_bytes, bytes_ok_sub).
    clearbody src dest. intros a b field Ha Hba Hbb Hn ->. unfold verify.
    apply pseudo_verifies; [assumption..| |split; [|vm_compute]; easy|assumption|assumption|by left].
    unfold filled. change (store16 0) with [0; 0]. lia.
Qed.

Lemma clamp_v4 checks p mss r p' :
  bytes_ok p → is_uint 16 mss → ClampTcpMssIPv4 checks p mss = (r, p') →
  if r then clamp_v4_rewrites checks p mss p' else p' = p ∨ p' = (ip_hdr_Parse checks p).2.
Proof.
  intros Hb Hm. unfold ClampTcpMssIPv4. case_if as El; [intros [= <- <-]; by left|].
  destruct (ip_hdr_Parse checks p) as [[len|] q] eqn:Ep; cbn [fst snd]; [|intros [= <- <-]; by right].
  case_if as E1; [intros [= <- <-]; by right|]. case_if as E2; [intros [= <- <-]; by right|].
  destruct (find_mss _ _ _ _) as [k|] eqn:Ef; [|intros [= <- <-]; by right]. intros [= <- <-].
  apply ip_hdr_Parse_some in Ep as HP; [|done]. destruct HP as (Hbq & _ & Hhl & Hhq & Hlen & Hlen2).
  apply find_mss_spec in Ef as (Hk & Hk2 & Hlow). unfold TCP_HLEN in *. bool_props.
  set (hlz := Z.shiftl (IPH_HL q) 2) in *.
  assert (Nat.Even (Z.to_nat hlz)) as He.
  { exists (Z.to_nat (2 * IPH_HL q)). unfold hlz in *. rewrite Z.shiftl_mul_pow2 in * by lia. lia. }
  exists len, q, k. split; [done|]. cbv zeta. fold hlz. rewrite Z2Nat.id by lia.
  split_and!; [done|lia|done|..]; eapply clamp_v4_rewrite; done || lia.
Qed.

Definition clamp_v6_rewrites (p : list Z) (mss_value : Z) (p' : list Z) : Prop :=
  ∃ k, (62 ≤ k)%nat ∧ (k + 2 ≤ length p)%nat ∧ mss_value < get16 (drop k p) ∧ get16 (drop k p') = mss_value ∧
    same_outside [56%nat; k] p p' ∧
    ComputePseudoChecksum (drop 40 p') (sub p' 8 16) (sub p' 24 16) IP_PROTO_TCP = 0.

Lemma fold_sum x y : is_uint 16 x → is_uint 16 y → is_uint 16 (FOLD_U32T (x +[32] y)).
Proof.
  intros Hx Hy. rewrite (wrap_small 32 (x + y)) by uint_lia. destruct (fold_oc (x + y)) as (_ & _ & H); [uint_lia|].
  rewrite H by uint_lia.
  destruct (oc_spec (x + y)) as (_ & _ & _ & ? & _); uint_lia.
Qed.

Lemma chksum_word p : is_uint 16 (ip_standard_chksum p).
Proof. unfold ip_standard_chksum. destruct (swap16_spec _ (wrap_range 16 (add_carries (chksum_loop 0 p)) ltac:(lia))) as (_ & _ & _ & H). done. Qed.

Lemma clamp_v6 p mss r p' :
  bytes_ok p → Z.of_nat (length p) < 65536 → is_uint 16 mss → ClampTcpMssIPv6 p mss = (r, p') →
  if r then clamp_v6_rewrites p mss p' else p' = p.
Proof.
  intros Hb Hp Hm. unfold ClampTcpMssIPv6. case_if as El; [intros [= <- <-]; done|].
  case_if as E1; [intros [= <- <-]; done|]. unfold TryParsePacket.
  case_if as E2; [intros [= <- <-]; done|]. case_if as E3; [intros [= <- <-]; done|].
  case_if as E4; [intros [= <- <-]; done|].
  destruct (find_mss _ _ _ _) as [k|] eqn:Ef; [|intros [= <- <-]; done]. intros [= <- <-].
  apply find_mss_spec in Ef as (Hk & Hk2 & Hlow). unfold IPv6_HEADER_MIN_SIZE, TCP_HLEN in *. bool_props.
  set (p1 := patch p k (be_bytes 2 mss)).
  assert (length p1 = length p) as L1 by (apply length_patch; patch_side).
  assert (bytes_ok p1) as B1 by (apply bytes_ok_patch; [done|apply bytes_ok_be_bytes]).
  set (verify := λ s, ComputePseudoChecksum s (sub p 8 16) (sub p 24 16) IP_PROTO_TCP).
  match goal with |- context [refill _ 56 ?f] => change f with (λ q, verify (drop 40 q)) end.
  exists k. split_and!; [lia|lia|done|..].
  - rewrite refill_patch, get16_sub, sub_patch_out by patch_side. unfold p1. rewrite sub_patch by patch_side.
    rewrite Nat.sub_diag. unfold sub. cbn [take app]. by apply get16_be_bytes.
  - rewrite refill_patch by lia. apply same_outside_patch; [apply same_outside_patch|..];
      rewrite ?length_be_bytes; try done; try lia; set_solver.
  - assert (∀ off n, (off + n ≤ 56)%nat → sub (refill p1 56 (λ q, verify (drop 40 q))) off n = sub p off n) as Hs.
    { intros off n Hn. rewrite refill_patch, sub_patch_out by patch_side. unfold p1. apply sub_patch_out; patch_side. }
    rewrite (Hs 8%nat 16%nat), (Hs 24%nat 16%nat) by lia.
    set (n := (length p - 40)%nat).
    assert (refill p1 56 (λ q, verify (drop 40 q)) = refill p1 56 (λ q, verify (sub q 40 n))) as ->.
    { rewrite !refill_patch by lia. by rewrite (drop_sub _ 40), length_patch, L1 by patch_side. }
    rewrite drop_sub, length_refill, L1 by lia.
    apply (refill_verifies p1 56 40 n verify); [lia|lia|lia|by exists 8%nat|done|].
    intros a b field Ha Hba Hbb Hn ->. unfold verify, ComputePseudoChecksum.
    apply pseudo_base_verifies; [assumption..| |split; [|vm_compute]; easy| |by left].
    + unfold filled. change (store16 0) with [0; 0]. lia.
    + apply fold_sum; [|apply chksum_word]. apply fold_sum; [by split|apply chksum_word].
Qed.

(** ** What the packet advertises *)

(** The MSS option of the SYN segment of [tcp_length] bytes at [off]. *)
Definition mss_advertised (p : list Z) (off : nat) (tcp_length : Z) : option Z :=
  let t := drop off p in
  let n := TCPH_HDRLEN_BYTES t in
  if (n <=? TCP_HLEN) || (tcp_length <? n) || (Z.land (TCPH_FLAGS t) TCP_SYN =? 0) then None
  else
    let options := sub t 20 (Z.to_nat (n - TCP_HLEN)) in
    match walk_options (S (length options)) options 0 with
    | Some (Some i) => Some (get16 (drop (i + 2) options))
    | _ => None
    end.

Lemma byte_at_lookup p q j : p !! j = q !! j → byte_at p j = byte_at q j.
Proof. intros Hj. unfold byte_at. rewrite !nth_lookup. by rewrite Hj. Qed.

Lemma sub_lookup p off n j : (j < n)%nat → sub p off n !! j = p !! (off + j)%nat.
Proof. intros Hj. unfold sub. rewrite lookup_take_lt by done. apply lookup_drop. Qed.

(** The walk reads nothing after the kind and length of the option it stops at. *)
Lemma walk_agrees fuel o o' i j :
  length o' = length o → (∀ k, (k < j + 2)%nat → o' !! k = o !! k) →
  walk_options fuel o i = Some (Some j) → walk_options fuel o' i = Some (Some j).
Proof.
  intros Hl Ho. revert i. induction fuel as [|fuel IH]; intros i; [done|]. intros Hw.
  pose proof (walk_inside _ _ _ _ Hw) as (Hij & _). revert Hw. cbn [walk_options]. rewrite Hl.
  rewrite (byte_at_lookup o' o i) by (apply Ho; lia). rewrite (byte_at_lookup o' o (i + 1)) by (apply Ho; lia).
  repeat case_match; try done; apply IH.
Qed.

Lemma find_mss_None p off tl mss v :
  find_mss p off tl mss = None → mss_advertised p off tl = Some v → v ≤ mss.
Proof.
  unfold find_mss, mss_advertised. case_if as E1; [done|]. case_if as E2; [by rewrite orb_true_r|]. rewrite orb_false_l.
  unfold mss_to_lower. destruct (walk_options _ _ _) as [[i|]|]; try done. case_if as E3; [done|].
  intros _ [= <-]. bool_props. lia.
Qed.

(** Lowering the option found lowers what the packet advertises. *)
Lemma find_mss_patched p q off tl mss k v :
  find_mss p off tl mss = Some k → length q = length p → is_uint 16 mss →
  (∀ j, (off ≤ j < k)%nat → j ≠ (off + 16)%nat → j ≠ (off + 17)%nat → q !! j = p !! j) → get16 (drop k q) = mss →
  mss_advertised q off tl = Some v → v = mss.
Proof.
  intros Hf Hl Hm Hq Hv. pose proof (find_mss_spec _ _ _ _ _ Hf) as (Hk & _). revert Hf.
  assert (get16 (drop 12 (drop off q)) = get16 (drop 12 (drop off p))) as H12.
  { rewrite !drop_drop. unfold get16. f_equal; apply byte_at_lookup; rewrite !lookup_drop; apply Hq; lia. }
  unfold find_mss, mss_advertised, TCPH_HDRLEN_BYTES, TCPH_FLAGS. rewrite H12.
  set (n := Z.land (Z.shiftl _ _) _). case_if as E1; [done|]. case_if as E2; [done|]. cbn [orb].
  set (m := Z.to_nat (n - TCP_HLEN)). unfold mss_to_lower.
  destruct (walk_options _ (sub (drop off p) 20 m) 0) as [[i|]|] eqn:Ew; try done. case_if as E3; [|done]. intros [= <-].
  pose proof (walk_inside _ _ _ _ Ew) as (_ & Hi & _).
  assert (length (sub (drop off q) 20 m) = length (sub (drop off p) 20 m)) as Hls by (unfold sub; rewrite !length_take, !length_drop, Hl; done).
  assert (i + 4 ≤ m)%nat as Him by (unfold sub in Hi; rewrite length_take in Hi; lia).
  rewrite Hls, (walk_agrees _ (sub (drop off p) 20 m) _ 0 i); [|done| |done].
  - intros [= <-]. rewrite <- Hv. rewrite !get16_sub, sub_sub by lia. f_equal. unfold sub. rewrite drop_drop. do 2 f_equal. lia.
  - intros j Hj. rewrite !sub_lookup, !lookup_drop by lia. apply Hq; lia.
Qed.

(** The IPv4 clamp leaves a packet whose SYN advertises no MSS above the limit. *)
Lemma clamp_v4_advertised checks p mss len q v :
  bytes_ok p → is_uint 16 mss → IP_HLEN ≤ Z.of_nat (length p) → ip_hdr_Parse checks p = (Some len, q) → byte_at q 9 = IP_PROTO_TCP →
  let hl := Z.shiftl (IPH_HL q) 2 in
  TCP_HLEN ≤ len - hl →
  mss_advertised (ClampTcpMssIPv4 checks p mss).2 (Z.to_nat hl) (len - hl) = Some v → v ≤ mss.
Proof.
  intros Hb Hm Hl Hp Hproto hl Htl.
  pose proof (ip_hdr_Parse_some _ _ _ _ Hb Hp) as (Hbq & _ & Hhl & Hhq & Hlen & Hlen2). fold hl in Hhl, Hhq.
  assert (Nat.Even (Z.to_nat hl)) as He.
  { exists (Z.to_nat (2 * IPH_HL q)). unfold hl in *. rewrite Z.shiftl_mul_pow2 in * by lia. lia. }
  unfold ClampTcpMssIPv4. case_if as E0; [bool_props; lia|]. rewrite Hp. fold hl. cbv zeta. rewrite Hproto.
  case_if as E1; [bool_props; unfold IP_HLEN in *; lia|]. case_if as E2; [bool_props; lia|].
  destruct (find_mss q _ _ _) as [k|] eqn:Ef; [|by apply find_mss_None].
  pose proof (find_mss_spec _ _ _ _ _ Ef) as (Hk & Hk2 & _). cbn [snd].
  match goal with |- mss_advertised ?p3 _ _ = _ → _ => destruct (clamp_v4_rewrite q (Z.to_nat hl) (Z.to_nat (len - hl)) k mss) as (Hg & [Hs1 Hs2] & _); [done|lia|done|lia|lia|done|lia|done|]; intros Ha;
    rewrite (find_mss_patched q p3 (Z.to_nat hl) (len - hl) mss k v) end; [lia|done|exact Hs1|done| |exact Hg|exact Ha].
  intros j Hj Hj1 Hj2. apply Hs2. set_unfold. intros k0 [->|[->|[->|[]]]]; lia.
Qed.

(** The dynamic MSS stays in its family's range and fits the path whenever the path admits the
    family's minimum. *)
Lemma dynamic_mss_fits ipv4 overhead path :
  let mss := ComputeDynamicTcpMss ipv4 overhead path in
  let headers := (if ipv4 then 20 else 40) + 20 in
  (if ipv4 then 1200 ≤ mss ≤ 1460 else 1220 ≤ mss ≤ 1440) ∧
  (0 < path → (if ipv4 then 1200 else 1220) + headers ≤ path → mss + headers ≤ path) ∧
  (0 ≤ overhead ≤ 220 → mss + headers + overhead ≤ MTU).
Proof.
  unfold ComputeDynamicTcpMss, IPv6_HEADER_MIN_SIZE, TCP_HLEN, IP_HLEN, MTU, kTcpMssIPv4Min, kTcpMssIPv4Max,
    kTcpMssIPv6Min, kTcpMssIPv6Max.
  destruct ipv4; (rewrite wrap_small by (case_if as Ew; uint_lia)); case_if as Ep; bool_props; split_and!; lia.
Qed.

(** C39: the TCP option walk of the MSS clamps terminates on every option area: [length options + 1]
    iterations are enough whatever the option bytes are and more change nothing; what it finds is what the
    options say, read one after the other ([walks_to]): an option of length 0 or 1 ends the walk
    instead of making it loop; and an MSS option it reports lies entirely inside the option area. *)
Theorem option_walk_total options :
  bytes_ok options →
  ∃ r, (∀ fuel, (length options < fuel)%nat → walk_options fuel options 0 = Some r) ∧
       walks_to options 0 r ∧
       ∀ j, r = Some j → (j + 4 ≤ length options)%nat ∧ byte_at options j = 2 ∧ byte_at options (j + 1) = 4.
Proof.
  intros Hb. destruct (walk_options (S (length options)) options 0) as [r|] eqn:E.
  - exists r. split; [intros fuel Hf; by apply (walk_more (S (length options)))|].
    split; [by apply walk_refines in E|]. intros j ->. apply walk_inside in E. tauto.
  - exfalso. apply (walk_terminates (S (length options)) options 0 Hb); [lia|done].
Qed.

Definition sample_options : list Z := [1; 1; 4; 2; 2; 4; 5; 180; 3; 0].

Lemma option_walk_total_witness :
  ∃ r, (∀ fuel, (length sample_options < fuel)%nat → walk_options fuel sample_options 0 = Some r) ∧
       walks_to sample_options 0 r ∧ ∀ j, r = Some j → (j + 4 ≤ length sample_options)%nat ∧ byte_at sample_options j = 2 ∧ byte_at sample_options (j + 1) = 4.
Proof. apply option_walk_total. by apply (bool_decide_unpack _). Defined.

Definition sample_syn : list Z :=
  [0; 80; 200; 10; 0; 0; 0; 1; 0; 0; 0; 0; 96; 2; 255; 255; 0; 0; 0; 0; 2; 4; 5; 180].
Definition sample_v4 : list Z := [69; 0; 0; 44; 0; 1; 0; 0; 64; 6; 0; 0; 10; 0; 0; 1; 10; 0; 0; 2] ++ sample_syn.
Definition sample_v6 : list Z :=
  [96; 0; 0; 0; 0; 24; 6; 64] ++ replicate 15 0 ++ [1] ++ replicate 15 0 ++ [2] ++ sample_syn.

(** Clamping the MSS of a tunneled SYN.  IPv4: when the clamp reports a change, the packet had
    an MSS option above the limit inside its TCP header, that option now holds the limit, nothing
    but the option and the two checksum fields differs from the packet as parsed, and both the IP
    header checksum and the TCP checksum of the rewritten packet verify; otherwise the packet is
    left as it was, or as the header parser left it.  IPv6: the same with the TCP checksum alone,
    and an unchanged packet when the result is false. *)
Theorem tcp_mss_clamp checks p mss_value :
  bytes_ok p → Z.of_nat (length p) < 65536 → is_uint 16 mss_value →
  (∀ r p', ClampTcpMssIPv4 checks p mss_value = (r, p') →
     if r then clamp_v4_rewrites checks p mss_value p' else p' = p ∨ p' = (ip_hdr_Parse checks p).2) ∧
  (∀ r p', ClampTcpMssIPv6 p mss_value = (r, p') →
     if r then clamp_v6_rewrites p mss_value p' else p' = p).
Proof. intros. split; intros r p'; [by apply clamp_v4|by apply clamp_v6]. Qed.

Lemma tcp_mss_clamp_witness :
  (∃ p', ClampTcpMssIPv4 true sample_v4 1300 = (true, p') ∧ clamp_v4_rewrites true sample_v4 1300 p') ∧
  (∃ p', ClampTcpMssIPv6 sample_v6 1300 = (true, p') ∧ clamp_v6_rewrites sample_v6 1300 p').
Proof.
  assert (bytes_ok sample_v4) as B4 by (by apply (bool_decide_unpack _)).
  assert (bytes_ok sample_v6) as B6 by (by apply (bool_decide_unpack _)).
  assert (is_uint 16 1300) as Hm by (split; [|vm_compute]; easy).
  split.
  - eexists. split; [vm_compute; reflexivity|]. apply (proj1 (tcp_mss_clamp true sample_v4 1300 B4 ltac:(done) Hm) true).
    vm_compute. reflexivity.
  - eexists. split; [vm_compute; reflexivity|]. apply (proj2 (tcp_mss_clamp true sample_v6 1300 B6 ltac:(done) Hm) true).
    vm_compute. reflexivity.
Defined.

(** The IPv6 clamp takes every byte after the header as the TCP segment.  On a packet followed by
    a byte that its payload length does not count, the checksum it writes does not verify over
    the payload. *)
Lemma clamp_v6_trailing_byte :
  let p := sample_v6 ++ [7] in
  let '(r, p') := ClampTcpMssIPv6 p 1300 in
  r = true ∧
  ComputePseudoChecksum (sub p' 40 (Z.to_nat (get16 (drop 4 p')))) (sub p' 8 16) (sub p' 24 16) IP_PROTO_TCP ≠ 0.
Proof. vm_compute. done. Qed.
