(* ===== verification/PacketPathMtu.v ===== *)
(** Path MTU discovery for tunneled packets: the ICMP error parsers and the bounded caches of
    [src/ppp/app/protocol/VirtualEthernetPathMtu.h], the observation in
    [VEthernetExchanger::OnNat] and the clamp in [ClientPacketDispatchHandler::OnPacketInput].

    The hash order of the unordered maps is a parameter: [begin m] is the key [entries_.begin()]
    points to.  The two address predicates of the address library that the IPv6 policy calls are
    parameters as well. *)

From S2P Require Import Prelude PacketChecksum PacketFrames PacketMss.

(** ** ICMP errors *)

Definition ICMP_HLEN : Z := 8.
Definition ICMP_DUR : Z := 3.
Definition ICMP_TE : Z := 11.
Definition IPPROTO_ICMPV6 : Z := 58.

Record IcmpPathMtuError := mkIcmpPathMtuError {
  OuterSource : Z; OuterDestination : Z; QuotedSource : Z; QuotedDestination : Z;
  QuotedProtocol : Z; NextHopMtu : Z; IsPathMtuUpdate : bool }.

Definition TryParseIcmpPathMtuError (packet : list Z) : option IcmpPathMtuError :=
  let packet_length := Z.of_nat (length packet) in
  if packet_length <? IP_HLEN then None
  else
    let outer_header_length := Z.shiftl (Z.land (byte_at packet 0) 15) 2 in
    let outer_length := get16 (drop 2 packet) in
    if negb (Z.shiftr (byte_at packet 0) 4 =? IP_VER) || (outer_header_length <? IP_HLEN) ||
       (packet_length <? outer_header_length) || (outer_length <? outer_header_length) ||
       (packet_length <? outer_length) || negb (byte_at packet 9 =? IP_PROTO_ICMP) ||
       negb (inet_chksum (take (Z.to_nat outer_header_length) packet) =? 0) then None
    else
      let icmp_length := outer_length - outer_header_length in
      if icmp_length <? ICMP_HLEN + IP_HLEN + 8 then None
      else
        let icmp_bytes := drop (Z.to_nat outer_header_length) packet in
        let is_fragmentation_needed := (byte_at icmp_bytes 0 =? ICMP_DUR) && (byte_at icmp_bytes 1 =? 4) in
        let is_time_exceeded := (byte_at icmp_bytes 0 =? ICMP_TE) && (byte_at icmp_bytes 1 =? 0) in
        if (negb is_fragmentation_needed && negb is_time_exceeded) ||
           negb (inet_chksum (take (Z.to_nat icmp_length) icmp_bytes) =? 0) then None
        else
          let quoted := drop (Z.to_nat ICMP_HLEN) icmp_bytes in
          let quoted_length := icmp_length - ICMP_HLEN in
          let quoted_header_length := Z.shiftl (Z.land (byte_at quoted 0) 15) 2 in
          if negb (Z.shiftr (byte_at quoted 0) 4 =? IP_VER) || (quoted_header_length <? IP_HLEN) ||
             (quoted_length <? quoted_header_length + 8) || (get16 (drop 2 quoted) <? quoted_header_length + 8) then None
          else
            let next_hop_mtu := if is_fragmentation_needed then get16 (drop 6 icmp_bytes) else 0 in
            if is_fragmentation_needed && (next_hop_mtu <? 576) then None
            else Some {| OuterSource := load32 (drop 12 packet); OuterDestination := load32 (drop 16 packet);
                         QuotedSource := load32 (drop 12 quoted); QuotedDestination := load32 (drop 16 quoted);
                         QuotedProtocol := byte_at quoted 9; NextHopMtu := next_hop_mtu;
                         IsPathMtuUpdate := is_fragmentation_needed |}.

Record IcmpIPv6PathMtuError := mkIcmpIPv6PathMtuError {
  OuterSource6 : list Z; OuterDestination6 : list Z; QuotedSource6 : list Z; QuotedDestination6 : list Z;
  QuotedProtocol6 : Z; NextHopMtu6 : Z }.

Definition TryParseIcmpIPv6PathMtuError (packet : list Z) : option IcmpIPv6PathMtuError :=
  let packet_length := Z.of_nat (length packet) in
  if packet_length <? IPv6_HEADER_MIN_SIZE then None
  else
    let payload_length := get16 (drop 4 packet) in
    let outer_length := IPv6_HEADER_MIN_SIZE + payload_length in
    if negb (Z.shiftr (byte_at packet 0) 4 =? IPv6_VERSION) || negb (byte_at packet 6 =? IPPROTO_ICMPV6) ||
       (payload_length <? 8 + IPv6_HEADER_MIN_SIZE) || (packet_length <? outer_length) then None
    else
      let icmp_bytes := drop 40 packet in
      if negb (byte_at icmp_bytes 0 =? 2) || negb (byte_at icmp_bytes 1 =? 0) then None
      else
        match TryParsePacket (take (Z.to_nat outer_length) packet) with
        | None => None
        | Some (source, destination) =>
            if negb (ComputePseudoChecksum (take (Z.to_nat payload_length) icmp_bytes) source destination IPPROTO_ICMPV6 =? 0)
            then None
            else
              let quoted := drop 8 icmp_bytes in
              let quoted_length := payload_length - 8 in
              if (quoted_length <? IPv6_HEADER_MIN_SIZE) || negb (Z.shiftr (byte_at quoted 0) 4 =? IPv6_VERSION) then None
              else
                let next_hop_mtu := get32 (drop 4 icmp_bytes) in
                if next_hop_mtu <? 1280 then None
                else Some {| OuterSource6 := sub packet 8 16; OuterDestination6 := sub packet 24 16;
                             QuotedSource6 := sub quoted 8 16; QuotedDestination6 := sub quoted 24 16;
                             QuotedProtocol6 := byte_at quoted 6; NextHopMtu6 := next_hop_mtu |}
        end.

(** ** The caches *)

Record Entry := mkEntry { Mtu : Z; ExpiresAt : Z }.

Definition kLifetimeMilliseconds : Z := 10 * 60 * 1000.
Definition kMaximumEntries : nat := 256.

Section cache.
Context `{Countable K} (begin : gmap K Entry → K).

Definition PruneExpiredLocked (entries : gmap K Entry) (now : Z) : gmap K Entry :=
  filter (λ kv, ¬ ExpiresAt kv.2 ≤ now) entries.

(** [Observe] after its guards. *)
Definition Observe_locked (entries : gmap K Entry) (destination : K) (mtu now : Z) : bool * gmap K Entry :=
  let entries := PruneExpiredLocked entries now in
  match entries !! destination with
  | None =>
      let entries := if decide (kMaximumEntries ≤ size entries)%nat then delete (begin entries) entries else entries in
      (true, <[destination := mkEntry mtu (now +[64] kLifetimeMilliseconds)]> entries)
  | Some e =>
      let lowered := mtu <? Mtu e in
      (lowered, <[destination := mkEntry (if lowered then mtu else Mtu e) (now +[64] kLifetimeMilliseconds)]> entries)
  end.

Definition Lookup (entries : gmap K Entry) (destination : K) (now : Z) : Z * gmap K Entry :=
  match entries !! destination with
  | None => (0, entries)
  | Some e => if ExpiresAt e <=? now then (0, delete destination entries) else (Mtu e, entries)
  end.
End cache.

Abbreviation Cache4 := (gmap Z Entry).
Abbreviation Cache6 := (gmap (list Z) Entry).

Definition Observe (begin : Cache4 → Z) (entries : Cache4) (destination mtu now : Z) : bool * Cache4 :=
  if (destination =? 0) || (mtu <? 576) then (false, entries)
  else Observe_locked begin entries destination mtu now.

Definition Observe6 (begin : Cache6 → list Z) (entries : Cache6) (destination : list Z) (mtu now : Z) : bool * Cache6 :=
  if mtu <? 1280 then (false, entries) else Observe_locked begin entries destination mtu now.

(** The IPv6 cache stores 32-bit MTUs and reports them as [int]. *)
Definition Lookup6 (entries : Cache6) (destination : list Z) (now : Z) : Z * Cache6 :=
  let '(mtu, entries) := Lookup entries destination now in (if 2147483647 <? mtu then 2147483647 else mtu, entries).

(** ** The client's packet paths *)

Record Tap := mkTap { IPAddress : Z; GatewayServer : Z; SubmaskAddress : Z }.

(** The caches of the process. *)
Record PathMtu := mkPathMtu { cache4 : Cache4; cache6 : Cache6 }.

Definition kVEthernetTunnelOverhead : Z := 80.

Section client.
Context (checks : bool) (begin4 : Cache4 → Z) (begin6 : Cache6 → list Z).

(** [OnNat]: the packet written to the virtual adapter, if any.  [forward] is
    [client.peer_gateway_forward], [assigned_ipv6] the assigned IPv6 address. *)
Definition OnNat (forward : bool) (tap : Tap) (assigned_ipv6 : option (list Z)) (now : Z)
    (s : PathMtu) (packet : list Z) : option (list Z) * PathMtu :=
  if decide (length packet < 1)%nat then (None, s)
  else
    let version := Z.shiftr (byte_at packet 0) 4 in
    let assigned_ipv6 := if version =? IPv6_VERSION then assigned_ipv6 else None in
    let '(destination_matches, packet) :=
      if forward then (true, packet)
      else if version =? IP_VER then
        let '(parsed, packet) := ip_hdr_Parse checks packet in
        (bool_decide (is_Some parsed) && (load32 (drop 16 packet) =? IPAddress tap), packet)
      else if version =? IPv6_VERSION then
        (match assigned_ipv6, TryParsePacket packet with
         | Some assigned, Some (_, destination) => bool_decide (destination = assigned)
         | _, _ => false
         end, packet)
      else (false, packet) in
    if negb destination_matches then (None, s)
    else
      let cache4' :=
        match TryParseIcmpPathMtuError packet with
        | Some error =>
            if IsPathMtuUpdate error && (OuterDestination error =? IPAddress tap) && (QuotedSource error =? IPAddress tap)
            then (Observe begin4 (cache4 s) (QuotedDestination error) (NextHopMtu error) now).2
            else cache4 s
        | None => cache4 s
        end in
      let cache6' :=
        match assigned_ipv6, TryParseIcmpIPv6PathMtuError packet with
        | Some assigned, Some error =>
            if bool_decide (OuterDestination6 error = assigned) && bool_decide (QuotedSource6 error = assigned)
            then (Observe6 begin6 (cache6 s) (QuotedDestination6 error) (NextHopMtu6 error) now).2
            else cache6 s
        | _, _ => cache6 s
        end in
      (Some packet, mkPathMtu cache4' cache6').

Definition ntohl (x : Z) : Z := be_value (store32 x).

Definition IPAddressIsGatewayServer (ip gw mask : Z) : bool :=
  if ip =? gw then true else ntohl (Z.land (ntohl gw) (ntohl mask) +[32] 1) =? ip.

(** [OnPacketInput] for IPv4: the packet handed to the tunnel, if any. *)
Definition OnPacketInput4 (vnet exchanger : bool) (tap : option Tap) (proto now : Z)
    (s : PathMtu) (packet : list Z) : option (list Z) * PathMtu :=
  if negb vnet then (None, s)
  else if negb (proto =? IP_PROTO_TCP) && negb (proto =? IP_PROTO_UDP) && negb (proto =? IP_PROTO_ICMP) then (None, s)
  else if negb exchanger then (None, s)
  else
    match tap with
    | None => (None, s)
    | Some tap =>
        let destination := load32 (drop 16 packet) in
        if (destination =? IPAddress tap) || negb (load32 (drop 12 packet) =? IPAddress tap) then (None, s)
        else
          let gw := GatewayServer tap in
          let mask := SubmaskAddress tap in
          if IPAddressIsGatewayServer destination gw mask then (None, s)
          else if negb (destination =? IP_ADDR_BROADCAST_VALUE) && negb (Z.land destination mask =? Z.land gw mask)
          then (None, s)
          else if proto =? IP_PROTO_TCP then
            let '(path_mtu, entries) := Lookup (cache4 s) destination now in
            let '(_, packet) :=
              ClampTcpMssIPv4 checks packet (ComputeDynamicTcpMss true kVEthernetTunnelOverhead path_mtu) in
            (Some packet, mkPathMtu entries (cache6 s))
          else (Some packet, s)
    end.

(** The information the server assigned: whether IPv6 is applied, whether the mode is NAT66 or
    GUA, the prefix length and the address. *)
Record Approved := mkApproved {
  Ipv6Applied : bool; valid_mode : bool; AssignedIPv6AddressPrefixLength : Z; AssignedIPv6Address : option (list Z) }.

Context (is_special : list Z → bool).

Definition IsApprovedIPv6Packet (approved : Approved) (packet : list Z) : bool :=
  if Z.of_nat (length packet) <? IPv6_HEADER_MIN_SIZE then false
  else
    match TryParsePacket packet with
    | None => false
    | Some (source, destination) =>
        if (byte_at source 0 =? 254) && (Z.land (byte_at source 1) 192 =? 128) then false
        else if is_special destination then false
        else if negb (Ipv6Applied approved) || negb (valid_mode approved) ||
                negb (AssignedIPv6AddressPrefixLength approved =? 128) then false
        else match AssignedIPv6Address approved with
             | None => false
             | Some assigned => bool_decide (source = assigned)
             end
    end.

(** [OnPacketInput] for IPv6. *)
Definition OnPacketInput6 (approved : Approved) (exchanger : bool) (now : Z)
    (s : PathMtu) (packet : list Z) : option (list Z) * PathMtu :=
  if Z.of_nat (length packet) <? IPv6_HEADER_MIN_SIZE then (None, s)
  else if negb (IsApprovedIPv6Packet approved packet) then (None, s)
  else
    match TryParsePacket packet with
    | None => (None, s)
    | Some (_, destination) =>
        let '(path_mtu, entries) := Lookup6 (cache6 s) destination now in
        let '(_, packet) := ClampTcpMssIPv6 packet (ComputeDynamicTcpMss false kVEthernetTunnelOverhead path_mtu) in
        let s := mkPathMtu (cache4 s) entries in
        if negb exchanger then (None, s) else (Some packet, s)
    end.
End client.

(** A parsed update carries a usable MTU. *)
Lemma parsed_update_mtu packet error :
  TryParseIcmpPathMtuError packet = Some error → IsPathMtuUpdate error = true → 576 ≤ NextHopMtu error.
Proof.
  unfold TryParseIcmpPathMtuError. do 5 (case_if as Ex; [done|clear Ex]). case_if as E; [done|].
  intros [= <-] Hu. cbn [IsPathMtuUpdate NextHopMtu] in *. rewrite Hu in *. cbn [andb] in E. bool_props. lia.
Qed.

(** ** What the caches hold *)

Inductive CacheOp (K : Type) :=
| CObserve (destination : K) (mtu now : Z)
| CLookup (destination : K) (now : Z)
| CClear.
Arguments CObserve {_} _ _ _.
Arguments CLookup {_} _ _.
Arguments CClear {_}.

Section cache_facts.
Context `{Countable K} (begin : gmap K Entry → K) (rejects : K → Z → bool).

Definition cache_step (entries : gmap K Entry) (op : CacheOp K) : Z * gmap K Entry :=
  match op with
  | CObserve d mtu now =>
      if rejects d mtu then (0, entries)
      else let '(b, entries) := Observe_locked begin entries d mtu now in (if b : bool then 1 else 0, entries)
  | CLookup d now => Lookup entries d now
  | CClear => (0, ∅)
  end.

(** The accepted observations of [d], newest first. *)
Definition observation (d : K) (op : CacheOp K) : option (Z * Z) :=
  match op with
  | CObserve d' mtu now => if decide (d' = d) then if rejects d' mtu then None else Some (mtu, now) else None
  | _ => None
  end.
Definition observations (ops : list (CacheOp K)) (d : K) : list (Z * Z) := omap (observation d) (rev ops).

Definition is_min (m : Z) (l : list Z) : Prop := m ∈ l ∧ Forall (λ x, m ≤ x) l.

Lemma is_min_cons m x l : is_min m l → is_min (Z.min x m) (x :: l).
Proof.
  intros [Hin Hall]. split.
  - destruct (Z.le_ge_cases x m); [rewrite Z.min_l by done; left|rewrite Z.min_r by done; by right].
  - constructor; [lia|]. eapply Forall_impl; [done|]. cbn. lia.
Qed.

(** An entry is the minimum of the newest observations of its key and lives as long as the last. *)
Definition pmtu_entry_ok (obs : list (Z * Z)) (e : Entry) : Prop :=
  ∃ n mtu t rest, obs = (mtu, t) :: rest ∧ is_min (Mtu e) (mtu :: take n (fst <$> rest)) ∧
    ExpiresAt e = t +[64] kLifetimeMilliseconds.

Definition cache_ok (ops : list (CacheOp K)) (entries : gmap K Entry) : Prop :=
  map_Forall (λ d e, pmtu_entry_ok (observations ops d) e) entries.

Lemma observations_snoc ops op d : observations (ops ++ [op]) d = match observation d op with Some o => [o] | None => [] end ++ observations ops d.
Proof. unfold observations. rewrite rev_app_distr. cbn. by destruct (observation d op). Qed.

Lemma cache_ok_step ops entries op :
  cache_ok ops entries → cache_ok (ops ++ [op]) (cache_step entries op).2.
Proof.
  intros Hok. destruct op as [d mtu now|d now|]; unfold cache_step.
  - destruct (rejects d mtu) eqn:Er.
    { intros d' e Hl. rewrite observations_snoc. cbn. case_decide; subst; rewrite ?Er; by apply Hok. }
    unfold Observe_locked. set (pruned := PruneExpiredLocked entries now).
    assert (cache_ok ops pruned) as Hp by (intros d' e [Hl _]%map_lookup_filter_Some; by apply Hok).
    assert (∀ e' m, pmtu_entry_ok ((mtu, now) :: observations ops d) e' → m ⊆ pruned →
      cache_ok (ops ++ [CObserve d mtu now]) (<[d := e']> m)) as Hins.
    { intros e' m He' Hm d' e Hl. rewrite observations_snoc. cbn. destruct (decide (d = d')) as [<-|Hd].
      - rewrite lookup_insert_eq in Hl. rewrite Er. by simplify_eq.
      - rewrite lookup_insert_ne in Hl by done. apply Hp. by eapply lookup_weaken. }
    destruct (pruned !! d) as [e|] eqn:Ed; cbn [snd]; apply Hins.
    + destruct (Hp _ _ Ed) as (n & m0 & t0 & rest & Ho & Hm & Ht).
      exists (S n), mtu, now, (observations ops d). rewrite Ho. split_and!; [done| |done].
      cbn [Mtu fmap list_fmap take fst]. apply (is_min_cons _ mtu) in Hm.
      replace (if mtu <? Mtu e then mtu else Mtu e) with (Z.min mtu (Mtu e)) by (case_match; bool_props; lia). done.
    + done.
    + exists 0%nat, mtu, now, (observations ops d). split_and!; [done|split; [left|by repeat constructor]|done].
    + case_decide; [apply delete_subseteq|done].
  - intros d' e Hl. rewrite observations_snoc. cbn. apply Hok. cbn in Hl. revert Hl. unfold Lookup.
    destruct (entries !! d) as [e0|] eqn:E; [|done]. case_if as Ex; [|done]. cbn. intros [_ ?]%lookup_delete_Some. done.
  - intros d' e Hl. done.
Qed.

Lemma size_prune (entries : gmap K Entry) now : (size (PruneExpiredLocked entries now) ≤ size entries)%nat.
Proof. apply map_subseteq_size, map_filter_subseteq. Qed.

(** [entries_.begin()] of a non-empty map is one of its keys. *)
Context (Hbegin : ∀ m : gmap K Entry, m ≠ ∅ → is_Some (m !! begin m)).

Lemma cache_size_step entries op :
  (size entries ≤ kMaximumEntries)%nat → (size (cache_step entries op).2 ≤ kMaximumEntries)%nat.
Proof.
  intros Hs. destruct op as [d mtu now|d now|]; unfold cache_step.
  - destruct (rejects d mtu); [done|]. unfold Observe_locked.
    pose proof (size_prune entries now) as Hp. set (pruned := PruneExpiredLocked entries now) in *.
    destruct (pruned !! d) as [e|] eqn:Ed; cbn [snd].
    + rewrite map_size_insert_Some by (by eexists). lia.
    + case_decide as Hfull; [|rewrite map_size_insert_None by done; lia].
      assert (is_Some (pruned !! begin pruned)) as Hb.
      { apply Hbegin. intros ->. rewrite map_size_empty in Hfull. unfold kMaximumEntries in *. lia. }
      rewrite map_size_insert_None by (by rewrite lookup_delete_None; right).
      rewrite map_size_delete_Some by done. unfold kMaximumEntries in *. lia.
  - unfold Lookup. destruct (entries !! d) as [e|] eqn:E; [|done]. case_if as Ex; [|done].
    cbn [snd]. rewrite map_size_delete_Some by (by eexists). lia.
  - cbn. rewrite map_size_empty. unfold kMaximumEntries. lia.
Qed.

Lemma cache_exec ops :
  cache_ok ops (exec cache_step ∅ ops) ∧ (size (exec cache_step ∅ ops) ≤ kMaximumEntries)%nat.
Proof.
  induction ops as [|op ops [IH1 IH2]] using rev_ind.
  - split; [apply map_Forall_empty|]. rewrite exec_nil, map_size_empty. unfold kMaximumEntries. lia.
  - rewrite exec_snoc. split; [by apply cache_ok_step|by apply cache_size_step].
Qed.

(** ** Persistence of an observation *)

(** An observation of [d] not above [m] that is still alive at [now]. *)
Definition holds_mtu (d : K) (m now : Z) (entries : gmap K Entry) : Prop :=
  ∃ e, entries !! d = Some e ∧ 0 < Mtu e ≤ m ∧ now < ExpiresAt e.

Definition positive (entries : gmap K Entry) : Prop := map_Forall (λ _ e, 0 < Mtu e) entries.

Lemma observe_positive entries d mtu t : 0 < mtu → positive entries → positive (Observe_locked begin entries d mtu t).2.
Proof.
  intros Hmtu Hpos. unfold Observe_locked. set (pruned := PruneExpiredLocked entries t).
  assert (positive pruned) as Hp by (intros d' e [Hl _]%map_lookup_filter_Some; by eapply Hpos).
  destruct (pruned !! d) as [e|] eqn:Ed; cbn [snd]; apply map_Forall_insert_2; cbn.
  - pose proof (Hp _ _ Ed : 0 < Mtu e). case_match; lia.
  - done.
  - done.
  - case_decide; [by apply map_Forall_delete|done].
Qed.

Lemma lookup_positive entries d t : positive entries → positive (Lookup entries d t).2.
Proof.
  intros Hpos. unfold Lookup. destruct (entries !! d); [|done]. case_if as E; [|done]. by apply map_Forall_delete.
Qed.

Lemma observe_holds d m now entries d' mtu t :
  0 < mtu → 0 ≤ t ≤ now → now < t + kLifetimeMilliseconds → t + kLifetimeMilliseconds < 2 ^ 64 →
  (size entries < kMaximumEntries)%nat → (d' = d ∧ mtu ≤ m ∧ positive entries ∨ holds_mtu d m now entries) →
  holds_mtu d m now (Observe_locked begin entries d' mtu t).2 ∧
  (size (Observe_locked begin entries d' mtu t).2 ≤ S (size entries))%nat.
Proof.
  intros Hmtu Ht Hn Hw Hs Hor. unfold Observe_locked. pose proof (size_prune entries t) as Hp.
  assert (∀ m0 now', holds_mtu d m0 now' entries → t ≤ now' → holds_mtu d m0 now' (PruneExpiredLocked entries t)) as Hkeep.
  { intros m0 now' (e & He & Hm & Hx) ?. exists e. split; [|done]. apply map_lookup_filter_Some. split; [done|]. cbn. lia. }
  set (pruned := PruneExpiredLocked entries t) in *. rewrite wrap_small by uint_lia.
  destruct (pruned !! d') as [e|] eqn:Ed; cbn [snd].
  - rewrite map_size_insert_Some by (by eexists). split; [|lia].
    destruct (decide (d' = d)) as [->|Hd].
    + eexists. rewrite lookup_insert_eq. split; [done|]. cbn. split; [|done].
      destruct Hor as [(_ & ? & Hpos)|(e0 & He0 & Hm & Hx)%Hkeep]; [|simplify_eq; case_match; bool_props; lia|lia].
      pose proof (Hpos d e ltac:(apply map_lookup_filter_Some in Ed; apply Ed) : 0 < Mtu e). case_match; bool_props; lia.
    + destruct Hor as [(? & _)|(e0 & He0 & Hm & Hx)%Hkeep]; [done| |lia]. exists e0. by rewrite lookup_insert_ne.
  - rewrite decide_False by lia. rewrite map_size_insert_None by done. split; [|lia].
    destruct (decide (d' = d)) as [->|Hd].
    + destruct Hor as [(_ & ? & Hpos)|(e0 & He0 & Hm & Hx)%Hkeep]; [|by simplify_eq|lia].
      eexists. rewrite lookup_insert_eq. split; [done|]. cbn. done.
    + destruct Hor as [(? & _)|(e0 & He0 & Hm & Hx)%Hkeep]; [done| |lia]. exists e0. by rewrite lookup_insert_ne.
Qed.

Lemma lookup_holds d m now entries d' t :
  t ≤ now → holds_mtu d m now entries →
  holds_mtu d m now (Lookup entries d' t).2 ∧ (size (Lookup entries d' t).2 ≤ size entries)%nat.
Proof.
  intros Ht (e & He & Hm & Hx). unfold Lookup. destruct (entries !! d') as [e'|] eqn:E'; [|by split; [exists e|]].
  case_if as Ex; cbn [snd]; [|by split; [exists e|]]. bool_props.
  rewrite map_size_delete_Some by (by eexists). split; [|lia].
  exists e. rewrite lookup_delete_ne; [done|]. intros ->. simplify_eq. lia.
Qed.

Lemma holds_lookup d m now entries :
  holds_mtu d m now entries → ∃ e, (Lookup entries d now).1 = Mtu e ∧ 0 < Mtu e ≤ m ∧ entries !! d = Some e.
Proof.
  intros (e & He & Hm & Hx). exists e. unfold Lookup. rewrite He. case_if as Ex; bool_props; [lia|done].
Qed.
End cache_facts.

(** ** From an ICMP error to the SYN *)

Inductive ClientEvent :=
| EvNat (forward : bool) (tap : Tap) (assigned_ipv6 : option (list Z)) (packet : list Z)
| EvInput4 (vnet exchanger : bool) (tap : option Tap) (proto : Z) (packet : list Z)
| EvInput6 (approved : Approved) (exchanger : bool) (packet : list Z).

Section end_to_end.
Context (checks : bool) (begin4 : Cache4 → Z) (begin6 : Cache6 → list Z) (is_special : list Z → bool).

Definition client_step (s : PathMtu) (e : Z * ClientEvent) : option (list Z) * PathMtu :=
  let '(now, e) := e in
  match e with
  | EvNat forward tap assigned packet => OnNat checks begin4 begin6 forward tap assigned now s packet
  | EvInput4 vnet exchanger tap proto packet => OnPacketInput4 checks vnet exchanger tap proto now s packet
  | EvInput6 approved exchanger packet => OnPacketInput6 is_special approved exchanger now s packet
  end.

(** One event keeps a live observation and adds at most one destination. *)
Lemma client_step_holds d m now s t e :
  0 ≤ t ≤ now → now < t + kLifetimeMilliseconds → t + kLifetimeMilliseconds < 2 ^ 64 →
  (size (cache4 s) < kMaximumEntries)%nat → holds_mtu d m now (cache4 s) →
  holds_mtu d m now (cache4 (client_step s (t, e)).2) ∧ (size (cache4 (client_step s (t, e)).2) ≤ S (size (cache4 s)))%nat.
Proof.
  intros Ht Hn Hw Hs Hh. assert (holds_mtu d m now (cache4 s) ∧ (size (cache4 s) ≤ S (size (cache4 s)))%nat) as Hsame by auto.
  destruct e as [forward tap assigned packet|vnet exchanger tap proto packet|approved exchanger packet]; cbn [client_step].
  - unfold OnNat. case_decide; [done|]. match goal with |- context [let '(_, _) := ?e in _] => destruct e as [dm pk] end.
    case_if as E1; [done|]. cbn [snd cache4]. destruct (TryParseIcmpPathMtuError pk) as [error|]; [|done].
    case_if as E2; [|done]. unfold Observe. case_if as E3; [done|]. bool_props.
    apply observe_holds; [lia|done..|by right].
  - unfold OnPacketInput4. do 3 (case_if as Ex; [done|clear Ex]). destruct tap as [tap|]; [|done].
    do 3 (case_if as Ex; [done|clear Ex]). case_if as Etcp; [|done].
    destruct (lookup_holds d m now (cache4 s) (load32 (drop 16 packet)) t) as [H1 H2]; [lia|done|].
    destruct (Lookup _ _ _) as [mtu entries]. destruct (ClampTcpMssIPv4 _ _ _) as [r pk]. cbn [snd cache4] in *. split; [done|lia].
  - unfold OnPacketInput6. do 2 (case_if as Ex; [done|clear Ex]).
    destruct (TryParsePacket packet) as [[? ?]|]; [|done]. destruct (Lookup6 _ _ _) as [mtu entries].
    destruct (ClampTcpMssIPv6 _ _) as [r pk]. case_if as E; done.
Qed.

Lemma client_exec_holds d m t0 now s es :
  0 ≤ t0 → now < t0 + kLifetimeMilliseconds → now + kLifetimeMilliseconds < 2 ^ 64 →
  Forall (λ e, t0 ≤ e.1 ≤ now) es → (size (cache4 s) + length es ≤ kMaximumEntries)%nat → holds_mtu d m now (cache4 s) →
  holds_mtu d m now (cache4 (exec client_step s es)).
Proof.
  intros H0 Hn Hw Hes. revert s. induction Hes as [|[t e] es Ht Hes IH]; intros s Hs Hh; [done|].
  rewrite exec_cons. cbn [length fst] in *.
  destruct (client_step_holds d m now s t e) as [H1 H2]; [lia|lia|lia|lia|done|]. apply IH; [lia|done].
Qed.

Lemma client_step_positive s e : positive (cache4 s) → positive (cache4 (client_step s e).2).
Proof.
  intros Hp. destruct e as [t [forward tap assigned packet|vnet exchanger tap proto packet|approved exchanger packet]]; cbn [client_step].
  - unfold OnNat. case_decide; [done|]. match goal with |- context [let '(_, _) := ?e in _] => destruct e as [dm pk] end.
    case_if as E1; [done|]. cbn [snd cache4]. destruct (TryParseIcmpPathMtuError pk) as [error|]; [|done].
    case_if as E2; [|done]. unfold Observe. case_if as E3; [done|]. bool_props. apply observe_positive; [lia|done].
  - unfold OnPacketInput4. do 3 (case_if as Ex; [done|clear Ex]). destruct tap as [tap|]; [|done].
    do 3 (case_if as Ex; [done|clear Ex]). case_if as Etcp; [|done].
    pose proof (lookup_positive (cache4 s) (load32 (drop 16 packet)) t Hp).
    destruct (Lookup _ _ _) as [mtu entries]. by destruct (ClampTcpMssIPv4 _ _ _) as [r pk].
  - unfold OnPacketInput6. do 2 (case_if as Ex; [done|clear Ex]).
    destruct (TryParsePacket packet) as [[? ?]|]; [|done]. destruct (Lookup6 _ _ _) as [mtu entries].
    destruct (ClampTcpMssIPv6 _ _) as [r pk]. case_if as E; done.
Qed.

Lemma client_exec_positive es : positive (cache4 (exec client_step (mkPathMtu ∅ ∅) es)).
Proof.
  induction es as [|e es IH] using rev_ind; [apply map_Forall_empty|]. rewrite exec_snoc. by apply client_step_positive.
Qed.

(** What an accepted error establishes. *)
Lemma nat_observes forward tap assigned now t s packet error :
  (OnNat checks begin4 begin6 forward tap assigned t s packet).1 = Some packet →
  TryParseIcmpPathMtuError packet = Some error → IsPathMtuUpdate error = true →
  OuterDestination error = IPAddress tap → QuotedSource error = IPAddress tap → QuotedDestination error ≠ 0 →
  0 ≤ t ≤ now → now < t + kLifetimeMilliseconds → t + kLifetimeMilliseconds < 2 ^ 64 →
  (size (cache4 s) < kMaximumEntries)%nat → positive (cache4 s) →
  let s' := (OnNat checks begin4 begin6 forward tap assigned t s packet).2 in
  holds_mtu (QuotedDestination error) (NextHopMtu error) now (cache4 s') ∧ (size (cache4 s') ≤ S (size (cache4 s)))%nat.
Proof.
  intros Hout He Hu Ho Hq Hd Ht Hn Hw Hs Hpos. revert Hout. unfold OnNat. case_decide; [done|].
  match goal with |- context [let '(_, _) := ?e in _] => destruct e as [dm pk] end.
  case_if as E1; [done|]. cbn [fst snd cache4]. intros [= ->]. rewrite He, Hu, Ho, Hq, !Z.eqb_refl. cbn [andb].
  assert (576 ≤ NextHopMtu error) as Hmtu by (by eapply parsed_update_mtu).
  unfold Observe. case_if as E2; [bool_props; lia|]. apply observe_holds; [lia|done..|left; split_and!; [done|lia|done]].
Qed.
Lemma dynamic_mss_le overhead path :
  0 < path → ComputeDynamicTcpMss true overhead path ≤ Z.max 1200 (path - 40) ∧ is_uint 16 (ComputeDynamicTcpMss true overhead path).
Proof.
  intros Hp. unfold ComputeDynamicTcpMss, TCP_HLEN, IP_HLEN, MTU, kTcpMssIPv4Min, kTcpMssIPv4Max.
  rewrite (proj2 (Z.ltb_lt 0 path) Hp). rewrite wrap_small by uint_lia. uint_lia.
Qed.

(** A TCP packet sent while an observation is held. *)
Lemma input_clamped d m now s tap packet len q p' v :
  holds_mtu d m now (cache4 s) → bytes_ok packet → IP_HLEN ≤ Z.of_nat (length packet) → load32 (drop 16 packet) = d →
  ip_hdr_Parse checks packet = (Some len, q) → byte_at q 9 = IP_PROTO_TCP →
  let hl := Z.shiftl (IPH_HL q) 2 in
  TCP_HLEN ≤ len - hl →
  (OnPacketInput4 checks true true (Some tap) IP_PROTO_TCP now s packet).1 = Some p' →
  mss_advertised p' (Z.to_nat hl) (len - hl) = Some v → v ≤ Z.max 1200 (m - 40).
Proof.
  intros Hh Hb Hl Hd Hp Hproto hl Htl. destruct (holds_lookup _ _ _ _ Hh) as (e & He & Hm & _).
  unfold OnPacketInput4. cbn [negb andb]. rewrite Z.eqb_refl. cbn [negb andb]. rewrite Hd.
  do 3 (case_if as Ex; [done|clear Ex]). destruct (Lookup (cache4 s) d now) as [path entries]. cbn [fst] in He. subst path.
  destruct (dynamic_mss_le kVEthernetTunnelOverhead (Mtu e)) as [Hle Hu]; [lia|].
  set (mss := ComputeDynamicTcpMss _ _ _) in *.
  pose proof (clamp_v4_advertised checks packet mss len q v Hb Hu Hl Hp Hproto Htl) as Hadv.
  destruct (ClampTcpMssIPv4 checks packet mss) as [r p2]. cbn [fst snd] in *. intros [= ->] Hv. specialize (Hadv Hv). lia.
Qed.

(** An ICMP "fragmentation needed" error received through the tunnel governs the SYNs sent
    afterwards.  Suppose [OnNat] delivers, at time [t], a packet that parses as a path-MTU update
    addressed to the adapter and quoting a packet the adapter sent to a destination.  Then, however
    the client handles other packets in between (both directions, both families), as long as fewer
    than 256 destinations can have been learned, every TCP packet that [OnPacketInput] hands to the
    tunnel for that destination within ten minutes advertises an MSS of at most the reported MTU
    less 40 bytes of headers, or 1200 where the reported MTU is smaller than that allows. *)
Theorem pmtu_reaches_syn es0 forward tap assigned t icmp error es now tap' packet len q p' v :
  let s0 := exec client_step (mkPathMtu ∅ ∅) es0 in
  (OnNat checks begin4 begin6 forward tap assigned t s0 icmp).1 = Some icmp →
  TryParseIcmpPathMtuError icmp = Some error → IsPathMtuUpdate error = true →
  OuterDestination error = IPAddress tap → QuotedSource error = IPAddress tap → QuotedDestination error ≠ 0 →
  let s1 := (OnNat checks begin4 begin6 forward tap assigned t s0 icmp).2 in
  0 ≤ t ≤ now → now < t + kLifetimeMilliseconds → now + kLifetimeMilliseconds < 2 ^ 64 →
  Forall (λ e, t ≤ e.1 ≤ now) es → (size (cache4 s0) + S (length es) ≤ kMaximumEntries)%nat →
  let s2 := exec client_step s1 es in
  bytes_ok packet → IP_HLEN ≤ Z.of_nat (length packet) → load32 (drop 16 packet) = QuotedDestination error →
  ip_hdr_Parse checks packet = (Some len, q) → byte_at q 9 = IP_PROTO_TCP →
  let hl := Z.shiftl (IPH_HL q) 2 in
  TCP_HLEN ≤ len - hl →
  (OnPacketInput4 checks true true (Some tap') IP_PROTO_TCP now s2 packet).1 = Some p' →
  mss_advertised p' (Z.to_nat hl) (len - hl) = Some v → v ≤ Z.max 1200 (NextHopMtu error - 40).
Proof.
  intros s0 Hout He Hu Ho Hq Hd s1 Ht Hn Hw Hes Hs s2. intros.
  destruct (nat_observes forward tap assigned now t s0 icmp error) as [Hh1 Hh2]; [done..|lia|done|lia|lia|apply client_exec_positive|].
  fold s1 in Hh1, Hh2. eapply (input_clamped _ _ now s2); try done. apply (client_exec_holds _ _ t); done || lia.
Qed.
End end_to_end.

Definition first_key {K} `{Countable K} (d : K) (m : gmap K Entry) : K :=
  match map_to_list m with kv :: _ => kv.1 | [] => d end.

Lemma first_key_in {K} `{Countable K} (d : K) (m : gmap K Entry) : m ≠ ∅ → is_Some (m !! first_key d m).
Proof.
  intros Hm. unfold first_key. destruct (map_to_list m) as [|[k e] l] eqn:E.
  - by apply map_to_list_empty_iff in E.
  - exists e. apply elem_of_map_to_list. rewrite E. left.
Qed.

(** A router's report to 10.0.0.1 that its packet to 10.0.0.2 needs an MTU of 1280. *)
Definition sample_quoted : list Z := [69; 0; 5; 220; 0; 1; 64; 0; 64; 6; 0; 0; 10; 0; 0; 1; 10; 0; 0; 2] ++ replicate 8 1.
Definition sample_error : list Z :=
  let p := [69; 0; 0; 56; 0; 1; 0; 0; 64; 1; 0; 0; 10; 0; 0; 254; 10; 0; 0; 1] ++ [3; 4; 0; 0; 0; 0; 5; 0] ++ sample_quoted in
  refill (refill p 22 (λ p, inet_chksum (drop 20 p))) 10 (λ p, inet_chksum (take 20 p)).
Definition sample_tap : Tap := mkTap (load32 [10; 0; 0; 1]) (load32 [10; 0; 0; 253]) (load32 [255; 255; 255; 0]).

Lemma pmtu_reaches_syn_witness :
  let s1 := (OnNat true (first_key 0) (first_key []) false sample_tap None 1000 (mkPathMtu ∅ ∅) sample_error).2 in
  ∃ p' v, (OnPacketInput4 true true true (Some sample_tap) IP_PROTO_TCP 500000 s1 sample_v4).1 = Some p' ∧
    mss_advertised p' 20 24 = Some v ∧ v ≤ 1240.
Proof.
  intros s1. set (out := (OnPacketInput4 true true true (Some sample_tap) IP_PROTO_TCP 500000 s1 sample_v4).1).
  set (error := mkIcmpPathMtuError 4261412874 16777226 16777226 33554442 6 1280 true).
  assert (out = Some (default [] out)) as E by (vm_compute; reflexivity).
  assert (mss_advertised (default [] out) 20 24 = Some 1240) as Ha by (vm_compute; reflexivity).
  exists (default [] out), 1240. split_and!; [done|done|].
  apply (pmtu_reaches_syn true (first_key 0) (first_key []) (λ _, false) [] false sample_tap None 1000 sample_error error []
    500000 sample_tap sample_v4 44 sample_v4 (default [] out)).
  - vm_compute. reflexivity.
  - vm_compute. reflexivity.
  - reflexivity.
  - reflexivity.
  - reflexivity.
  - cbn. discriminate.
  - lia.
  - unfold kLifetimeMilliseconds. lia.
  - unfold kLifetimeMilliseconds. lia.
  - by apply Forall_nil_2.
  - apply Nat.leb_le. vm_compute. reflexivity.
  - by apply (bool_decide_unpack _).
  - cbn. unfold IP_HLEN. lia.
  - reflexivity.
  - vm_compute. reflexivity.
  - reflexivity.
  - vm_compute. discriminate.
  - exact E.
  - exact Ha.
Defined.

(** ** Both caches *)

Definition rejects4 (destination mtu : Z) : bool := (destination =? 0) || (mtu <? 576).
Definition rejects6 (_ : list Z) (mtu : Z) : bool := mtu <? 1280.

Lemma observe_steps begin4 begin6 entries4 entries6 d4 d6 mtu now :
  (cache_step begin4 rejects4 entries4 (CObserve d4 mtu now)).2 = (Observe begin4 entries4 d4 mtu now).2 ∧
  (cache_step begin6 rejects6 entries6 (CObserve d6 mtu now)).2 = (Observe6 begin6 entries6 d6 mtu now).2.
Proof.
  unfold cache_step, Observe, Observe6, rejects4, rejects6.
  split; (case_if as E; [done|]); by destruct (Observe_locked _ _ _ _ _).
Qed.

(** The path MTU caches, of either family and whatever the hash order of the map, after any
    sequence of observations, lookups and clears: they hold at most 256 destinations, and a lookup
    that reports an MTU reports the least of the newest observations accepted for that destination
    (in particular one that was observed, and not above the latest), the latest of which is less
    than ten minutes old. *)
Theorem path_mtu_cache {K} `{Countable K} (begin : gmap K Entry → K) (rejects : K → Z → bool) (ops : list (CacheOp K)) :
  (∀ m : gmap K Entry, m ≠ ∅ → is_Some (m !! begin m)) →
  let entries := exec (cache_step begin rejects) ∅ ops in
  (size entries ≤ 256)%nat ∧
  ∀ d now m, (Lookup entries d now).1 = m → m ≠ 0 →
    ∃ n mtu t rest, observations rejects ops d = (mtu, t) :: rest ∧
      is_min m (mtu :: take n (fst <$> rest)) ∧ now < t +[64] kLifetimeMilliseconds.
Proof.
  intros Hb entries. destruct (cache_exec begin rejects Hb ops) as [Hok Hs]. split; [exact Hs|].
  intros d now m. fold entries in Hok. unfold Lookup. destruct (entries !! d) as [e|] eqn:E; [|by intros <-].
  case_if as Ex; cbn [fst]; [by intros <-|]. intros <- _. bool_props.
  destruct (Hok _ _ E) as (n & mtu & t & rest & Ho & Hm & Ht). exists n, mtu, t, rest. rewrite <- Ht. done.
Qed.

Lemma path_mtu_cache_witness :
  let ops := [CObserve 7 1400 10; CObserve 7 1300 20; CObserve 9 1200 25; CObserve 7 1350 30] in
  let entries := exec (cache_step (first_key 0) rejects4) ∅ ops in
  (size entries ≤ 256)%nat ∧ (Lookup entries 7 40).1 = 1300 ∧
  ∃ n mtu t rest, observations rejects4 ops 7 = (mtu, t) :: rest ∧
      is_min 1300 (mtu :: take n (fst <$> rest)) ∧ 40 < t +[64] kLifetimeMilliseconds.
Proof.
  intros ops entries. destruct (path_mtu_cache (first_key 0) rejects4 ops (first_key_in 0)) as [Hs Hl].
  split; [exact Hs|]. assert ((Lookup entries 7 40).1 = 1300) as E by (vm_compute; reflexivity).
  split; [exact E|]. apply (Hl 7 40 1300 E). discriminate.
Defined.
