(* ===== verification/RouteTable.v ===== *)
(** The route information base and the forwarding table ([src/ppp/net/native/rib.h], [rib.cpp]),
    with the text helpers they use ([Tokenize], [ATrim] of [src/ppp/stdafx.h]) and
    [IPEndPoint::PrefixToNetmask].

    Addresses are 32-bit integers in network byte order, as the source keeps them on a
    little-endian host.  The parser of one address, which asks the operating system, is a
    parameter: [None] for an error, [Some None] for an IPv6 address, and an IPv4 address in network
    byte order. *)

From Stdlib Require Import Ascii.
From stdpp Require Import sorting strings.
From S2P Require Import Prelude PacketChecksum PacketFrames PacketPathMtu.

(** ** Addresses and masks *)

Definition AnyAddress : Z := 0.
Definition NoneAddress : Z := 4294967295.
Definition MIN_PREFIX_VALUE : Z := 0.
Definition MAX_PREFIX_VALUE : Z := 32.

(** [~0UL] has 64 bits; the mask keeps the low 32. *)
Definition PrefixToNetmask (prefix : Z) : Z :=
  let mask := if prefix =? 0 then 0 else wrap 32 (wrap 64 (Z.shiftl 18446744073709551615 (32 - prefix))) in
  ntohl mask.

(** ** The route information base *)

Record RouteEntry := mkRouteEntry { Destination : Z; Prefix : Z; NextHop : Z }.

Abbreviation RouteEntries := (list RouteEntry).
Abbreviation RouteEntriesTable := (gmap Z RouteEntries).

#[global] Instance route_entry_dec : EqDecision RouteEntry.
Proof. solve_decision. Defined.

(** The entry of a prefix updated in place, or appended. *)
Fixpoint set_next_hop (entries : RouteEntries) (ip prefix gw : Z) : RouteEntries :=
  match entries with
  | [] => [mkRouteEntry ip prefix gw]
  | e :: entries =>
      if Prefix e =? prefix then mkRouteEntry (Destination e) (Prefix e) gw :: entries
      else e :: set_next_hop entries ip prefix gw
  end.

Definition AddRoute (routes : RouteEntriesTable) (ip prefix gw : Z) : bool * RouteEntriesTable :=
  if (prefix <? MIN_PREFIX_VALUE) || (MAX_PREFIX_VALUE <? prefix) then (false, routes)
  else if NoneAddress =? ip then (false, routes)
  else if (AnyAddress =? gw) || (NoneAddress =? gw) then (false, routes)
  else
    let mask := PrefixToNetmask prefix in
    if negb (Z.land ip mask =? ip) then (false, routes)
    else
      let entries := default [] (routes !! ip) in
      (true, <[ip := set_next_hop entries ip prefix gw]> routes).

(** [DeleteRoute(ip)]. *)
Definition DeleteRoute (routes : RouteEntriesTable) (ip : Z) : bool * RouteEntriesTable :=
  match routes !! ip with
  | None => (false, routes)
  | Some _ => (true, delete ip routes)
  end.

(** The first entry that satisfies [f] erased. *)
Fixpoint erase_first (f : RouteEntry → bool) (entries : RouteEntries) : option RouteEntries :=
  match entries with
  | [] => None
  | e :: entries => if f e then Some entries else cons e <$> erase_first f entries
  end.

(** [DeleteRoute(ip, prefix, gw)]. *)
Definition DeleteRoute_prefix (routes : RouteEntriesTable) (ip prefix gw : Z) : bool * RouteEntriesTable :=
  match routes !! ip with
  | None => (false, routes)
  | Some entries =>
      match erase_first (λ e, (Prefix e =? prefix) && (NextHop e =? gw)) entries with
      | None => (false, routes)
      | Some [] => (true, delete ip routes)
      | Some entries => (true, <[ip := entries]> routes)
      end
  end.

(** [DeleteRoute(ip, gw)]: the prefixes through [gw] first, then each of them. *)
Definition DeleteRoute_gw (routes : RouteEntriesTable) (ip gw : Z) : bool * RouteEntriesTable :=
  match routes !! ip with
  | None => (false, routes)
  | Some entries =>
      let prefixes := Prefix <$> filter (λ e, NextHop e = gw) entries in
      (bool_decide (0 < length prefixes)%nat,
       foldl (λ routes prefix, (DeleteRoute_prefix routes ip prefix gw).2) routes prefixes)
  end.

Definition Rib_Clear (_ : RouteEntriesTable) : RouteEntriesTable := ∅.

Definition IsAvailable (routes : RouteEntriesTable) : bool := negb (bool_decide (routes = ∅)).

(** ** The forwarding table *)

(** [x.Prefix > y.Prefix] orders the bucket; prefixes of a bucket are distinct. *)
Definition prefix_ge (x y : RouteEntry) : Prop := Prefix y ≤ Prefix x.
#[global] Instance prefix_ge_dec x y : Decision (prefix_ge x y).
Proof. unfold prefix_ge. apply _. Defined.

Definition Fill (rib : RouteEntriesTable) : RouteEntriesTable := merge_sort prefix_ge <$> rib.

(** The loop over [n] prefix lengths from [prefix] down. *)
Fixpoint next_hop_loop (n : nat) (ip : Z) (routes : RouteEntriesTable) (prefix : Z) : Z :=
  match n with
  | O => NoneAddress
  | S n =>
      let dest := Z.land ip (PrefixToNetmask prefix) in
      match routes !! dest with
      | None => next_hop_loop n ip routes (prefix - 1)
      | Some entries =>
          match find (λ e, Prefix e <=? prefix) entries with
          | Some e => NextHop e
          | None => next_hop_loop n ip routes (prefix - 1)
          end
      end
  end.

Definition GetNextHop_range (ip min_prefix_value max_prefix_value : Z) (routes : RouteEntriesTable) : Z :=
  next_hop_loop (Z.to_nat (max_prefix_value - min_prefix_value + 1)) ip routes max_prefix_value.

Definition GetNextHop (ip : Z) (routes : RouteEntriesTable) : Z :=
  GetNextHop_range ip MIN_PREFIX_VALUE MAX_PREFIX_VALUE routes.

(** ** Routes from text *)

(** [isspace] of [stdafx.h]: also the null character. *)
Definition isspace (ch : Z) : bool :=
  if ch =? 0 then true else if (-1 <? ch) && (ch <? 128) then ((9 <=? ch) && (ch <=? 13)) || (ch =? 32) else false.

Definition ATrim (s : list Z) : list Z := filter (λ ch, isspace ch = false) s.

(** [seg] is the segment from [last_ptr], in reverse, when there is one. *)
Fixpoint tokenize_loop (delimiters : list Z) (seg : option (list Z)) (s : list Z) : list (list Z) :=
  match s with
  | [] => match seg with Some r => [rev r] | None => [] end
  | ch :: s =>
      if decide (ch ∈ delimiters) then
        match seg with
        | Some r => rev r :: tokenize_loop delimiters None s
        | None => tokenize_loop delimiters None s
        end
      else tokenize_loop delimiters (Some (ch :: default [] seg)) s
  end.

Definition Tokenize (s delimiters : list Z) : list (list Z) :=
  if decide (s = []) then [] else if decide (delimiters = []) then [s] else tokenize_loop delimiters None s.

(** Everything before the first [c]. *)
Fixpoint before (c : Z) (s : list Z) : option (list Z * list Z) :=
  match s with
  | [] => None
  | ch :: s => if ch =? c then Some ([], s) else '(a, b) ← before c s; Some (ch :: a, b)
  end.

Definition LONG_MAX : Z := 9223372036854775807.

Fixpoint strtol_digits (acc : Z) (s : list Z) : Z * list Z :=
  match s with
  | ch :: s' => if (48 <=? ch) && (ch <=? 57) then strtol_digits (10 * acc + (ch - 48)) s' else (acc, s)
  | [] => (acc, s)
  end.

(** [::isspace] in the C locale. *)
Definition c_isspace (ch : Z) : bool := ((9 <=? ch) && (ch <=? 13)) || (ch =? 32).

Fixpoint skip_spaces (s : list Z) : list Z :=
  match s with ch :: s' => if c_isspace ch then skip_spaces s' else s | [] => [] end.

(** [strtol(s, &end, 10)]: the value and the text at [end], or [None] when nothing was converted. *)
Definition strtol (s : list Z) : option (Z * list Z) :=
  let s := skip_spaces s in
  let '(neg, s) := match s with 45 :: s => (true, s) | 43 :: s => (false, s) | _ => (false, s) end in
  let '(v, rest) := strtol_digits 0 s in
  if decide (length rest = length s) then None
  else Some ((if neg then Z.max (- LONG_MAX - 1) (- v) else Z.min LONG_MAX v), rest).

Section text.
Context (StringToAddress : list Z → option (option Z)) {S : Type} (add : S → Z → Z → Z → bool * S).

(** [AddRoute(cidr, gw)], over the insertion [add]. *)
Definition AddRoute_cidr (s : S) (cidr : list Z) (gw : Z) : bool * S :=
  if decide (cidr = []) then (false, s)
  else
    let insert (host : list Z) (prefix : Z) : bool * S :=
      match StringToAddress host with
      | Some (Some ip) => if (prefix <? 0) || (32 <? prefix) then (false, s) else add s ip prefix gw
      | _ => (false, s)
      end in
    match before 47 cidr with
    | None => insert cidr 32
    | Some ([], _) => (false, s)
    | Some (host, rest) =>
        match strtol rest with
        | None => (false, s)
        | Some (parsed_prefix, tail) =>
            if negb (bool_decide (tail = []) || (byte_at tail 0 =? 0)) then (false, s)
            else if (parsed_prefix <? 0) || (128 <? parsed_prefix) then (false, s)
            else insert host parsed_prefix
        end
    end.

Fixpoint add_tokens (s : S) (tokens : list (list Z)) (gw : Z) (any : bool) : bool * S :=
  match tokens with
  | [] => (any, s)
  | route :: tokens =>
      let route := ATrim route in
      if decide (route = []) then add_tokens s tokens gw any
      else let '(ok, s) := AddRoute_cidr s route gw in add_tokens s tokens gw (any || ok)
  end.

Fixpoint add_lines (s : S) (lines : list (list Z)) (gw : Z) (any : bool) : bool * S :=
  match lines with
  | [] => (any, s)
  | line :: lines =>
      let line := match before 35 line with Some (a, _) => a | None => line end in
      let line := ATrim line in
      if decide (line = []) then add_lines s lines gw any
      else
        let routes := Tokenize line [44; 59; 32; 9] in
        if decide (routes = []) then add_lines s lines gw any
        else let '(any, s) := add_tokens s routes gw any in add_lines s lines gw any
  end.

Definition AddAllRoutes (s : S) (cidrs : list Z) (gw : Z) : bool * S :=
  if decide (cidrs = []) then (false, s)
  else
    let lines := Tokenize cidrs [13; 10] in
    if decide (lines = []) then (false, s) else add_lines s lines gw false.
End text.

(** ** Specification

    The routes are a map from a network and a prefix length to a next hop; a lookup takes the
    longest prefix that has a route. *)

Abbreviation Routes := (gmap (Z * Z) Z).

(** Where bit [i] of an address lies, counting in the order in which the address is written: the octets as they lie in
    memory, the most significant bit of an octet first. *)
Definition address_place (i : Z) : Z := 8 * (i / 8) + (7 - i mod 8).

(** The network of an address: its first [prefix] bits, and zeros. *)
Definition network_of (ip prefix : Z) : Z :=
  foldr (λ i net, if (i <? prefix) && Z.testbit ip (address_place i) then Z.setbit net (address_place i) else net) 0 (seqZ 0 32).

Example network_of_example :
  network_of (load32 [192; 168; 77; 13]) 20 = load32 [192; 168; 64; 0] ∧ network_of (load32 [192; 168; 77; 13]) 32 = load32 [192; 168; 77; 13].
Proof. vm_compute. split; reflexivity. Qed.

Definition spec_add (routes : Routes) (ip prefix gw : Z) : bool * Routes :=
  if bool_decide (0 ≤ prefix ≤ 32 ∧ ip ≠ NoneAddress ∧ gw ≠ AnyAddress ∧ gw ≠ NoneAddress ∧
                  network_of ip prefix = ip)
  then (true, <[(ip, prefix) := gw]> routes) else (false, routes).

Definition spec_remove (P : Z * Z → Z → Prop) `{∀ k v, Decision (P k v)} (routes : Routes) : bool * Routes :=
  (negb (bool_decide (filter (λ kv, P kv.1 kv.2) routes = ∅)), filter (λ kv, ¬ P kv.1 kv.2) routes).

(** What the three deletions remove. *)
Definition to_network (ip : Z) (k : Z * Z) (_ : Z) : Prop := k.1 = ip.
Definition the_route (ip prefix gw : Z) (k : Z * Z) (v : Z) : Prop := k = (ip, prefix) ∧ v = gw.
Definition through (ip gw : Z) (k : Z * Z) (v : Z) : Prop := k.1 = ip ∧ v = gw.

#[global] Instance to_network_dec ip k v : Decision (to_network ip k v).
Proof. unfold to_network. apply _. Defined.
#[global] Instance the_route_dec ip prefix gw k v : Decision (the_route ip prefix gw k v).
Proof. unfold the_route. apply _. Defined.
#[global] Instance through_dec ip gw k v : Decision (through ip gw k v).
Proof. unfold through. apply _. Defined.

Fixpoint spec_longest (n : nat) (ip : Z) (routes : Routes) (prefix : Z) : option Z :=
  match n with
  | O => None
  | S n =>
      match routes !! (network_of ip prefix, prefix) with
      | Some gw => Some gw
      | None => spec_longest n ip routes (prefix - 1)
      end
  end.

Definition spec_next_hop (ip : Z) (routes : Routes) : Z := default NoneAddress (spec_longest 33 ip routes 32).

(** *** Text *)

(** The pieces of [s] between the characters of [sep], and those that hold something. *)
Definition split_on (sep : Z → bool) (s : list Z) : list (list Z) :=
  foldr (λ ch pieces, if sep ch then [] :: pieces else (ch :: default [] (head pieces)) :: tail pieces) [[]] s.

Definition text_fields (sep : Z → bool) (s : list Z) : list (list Z) := filter (λ piece, piece ≠ []) (split_on sep s).

(** Digits, after at most one sign; only zero may be negative. *)
Definition decimal_value (s : list Z) : option Z :=
  if bool_decide (s ≠ [] ∧ Forall (λ ch, 48 ≤ ch ≤ 57) s) then Some (foldl (λ v ch, 10 * v + (ch - 48)) 0 s) else None.

Definition signed_value (s : list Z) : option Z :=
  match s with
  | 43 :: s => decimal_value s
  | 45 :: s => if bool_decide (decimal_value s = Some 0) then Some 0 else None
  | _ => decimal_value s
  end.

(** White space, and the null character. *)
Definition blanks : list Z := [0; 9; 10; 11; 12; 13; 32].

(** A line ends at a carriage return or a line feed, a comment starts at a number sign, white space counts for nothing, and
    commas and semicolons separate the routes of a line. *)
Definition text_routes (cidrs : list Z) : list (list Z) :=
  line ← text_fields (λ ch, (ch =? 13) || (ch =? 10)) cidrs;
  text_fields (λ ch, (ch =? 44) || (ch =? 59))
    (filter (λ ch, ch ∉ blanks) (default [] (head (split_on (λ ch, ch =? 35) line)))).

(** A route is the address of a host, or of a network with a slash and the length of its prefix. *)
Definition spec_route (StringToAddress : list Z → option (option Z)) (routes : Routes) (route : list Z) (gw : Z) : bool * Routes :=
  let insert host prefix := match StringToAddress host with Some (Some ip) => spec_add routes ip prefix gw | _ => (false, routes) end in
  match split_on (λ ch, ch =? 47) route with
  | [host] => insert host 32
  | [host; len] => if bool_decide (host = []) then (false, routes)
                   else match signed_value len with Some prefix => insert host prefix | None => (false, routes) end
  | _ => (false, routes)
  end.

(** The routes are added in their order; the load succeeds when one of them did. *)
Definition spec_load (StringToAddress : list Z → option (option Z)) (routes : Routes) (cidrs : list Z) (gw : Z) : bool * Routes :=
  foldl (λ r route, let '(ok, routes) := spec_route StringToAddress r.2 route gw in (r.1 || ok, routes)) (false, routes) (text_routes cidrs).

(** ** Masks *)

Lemma address_place_involutive i : 0 ≤ i < 32 → 0 ≤ address_place i < 32 ∧ address_place (address_place i) = i.
Proof. unfold address_place. intros. split; [|]; Z.div_mod_to_equations; lia. Qed.

Lemma network_of_bit ip prefix n : 0 ≤ n →
  Z.testbit (network_of ip prefix) n = (n <? 32) && (address_place n <? prefix) && Z.testbit ip n.
Proof.
  intros Hn. unfold network_of.
  assert (∀ l, Forall (λ i, 0 ≤ i < 32) l →
    Z.testbit (foldr (λ i net, if (i <? prefix) && Z.testbit ip (address_place i) then Z.setbit net (address_place i) else net) 0 l) n =
    bool_decide (address_place n ∈ l ∧ 0 ≤ n < 32) && (address_place n <? prefix) && Z.testbit ip n) as H.
  { induction 1 as [|i l Hi Hl IH]; [rewrite bool_decide_false by (intros [?%not_elem_of_nil _]; done); apply Z.bits_0|]. cbn.
    destruct (address_place_involutive i Hi) as [Hr Hinv].
    destruct (decide (n = address_place i)) as [->|Hne].
    - rewrite Hinv. rewrite (bool_decide_true (i ∈ i :: l ∧ _)) by (split; [left|done]). cbn.
      destruct (i <? prefix) eqn:Ep; cbn; [|by rewrite IH, Hinv, Ep, andb_false_r].
      destruct (Z.testbit ip (address_place i)); [by apply Z.setbit_eq|]. by rewrite IH, andb_false_r.
    - transitivity (bool_decide (address_place n ∈ l ∧ 0 ≤ n < 32) && (address_place n <? prefix) && Z.testbit ip n).
      + case_match; [|done]. by rewrite Z.setbit_neq by (lia || congruence).
      + do 2 f_equal. apply bool_decide_ext. rewrite elem_of_cons. split; [tauto|]. intros [[E|?] Hn2]; [|done].
        destruct Hne. rewrite <- E. by destruct (address_place_involutive n Hn2). }
  rewrite H by (apply Forall_forall; intros i ?%elem_of_seqZ; lia). do 2 f_equal.
  destruct (n <? 32) eqn:E; bool_props; [|apply bool_decide_false; lia]. apply bool_decide_true. split; [|lia].
  apply elem_of_seqZ. destruct (address_place_involutive n); lia.
Qed.

(** Masking gives the network. *)
Lemma masked_network ip prefix : 0 ≤ prefix ≤ 32 → Z.land ip (PrefixToNetmask prefix) = network_of ip prefix.
Proof.
  intros Hp. apply Z.bits_inj'. intros n Hn. rewrite network_of_bit, Z.land_spec, andb_comm by done. f_equal.
  assert (forallb (λ p, forallb (λ n, eqb (Z.testbit (PrefixToNetmask (Z.of_nat p)) (Z.of_nat n)) (address_place (Z.of_nat n) <? Z.of_nat p)) (seq 0 32) &&
    (PrefixToNetmask (Z.of_nat p) <? 2 ^ 32) && (0 <=? PrefixToNetmask (Z.of_nat p))) (seq 0 33) = true) as H by (vm_compute; reflexivity).
  rewrite forallb_forall in H. specialize (H (Z.to_nat prefix) ltac:(apply in_seq; lia)). rewrite Z2Nat.id in H by lia.
  apply andb_true_iff in H as [[H H1]%andb_true_iff H2]. bool_props. destruct (n <? 32) eqn:E; bool_props; cbn.
  - rewrite forallb_forall in H. specialize (H (Z.to_nat n) ltac:(apply in_seq; lia)). rewrite Z2Nat.id in H by lia. by apply eqb_prop.
  - apply (testbit_high_zero 32); [|lia]. done.
Qed.

Lemma mask_nested a b : 0 ≤ a ≤ b → b ≤ 32 → Z.land (PrefixToNetmask b) (PrefixToNetmask a) = PrefixToNetmask a.
Proof.
  intros Ha Hb.
  assert (forallb (λ a, forallb (λ b, (b <? a)%nat ||
    (Z.land (PrefixToNetmask (Z.of_nat b)) (PrefixToNetmask (Z.of_nat a)) =? PrefixToNetmask (Z.of_nat a))) (seq 0 33)) (seq 0 33) = true) as H
    by (vm_compute; reflexivity).
  rewrite forallb_forall in H. specialize (H (Z.to_nat a)). rewrite forallb_forall in H.
  specialize (H ltac:(apply in_seq; lia) (Z.to_nat b) ltac:(apply in_seq; lia)).
  rewrite !Z2Nat.id in H by lia. apply orb_true_iff in H as [H|H]; [apply Nat.ltb_lt in H; lia|by apply Z.eqb_eq].
Qed.

Lemma land_masks ip a b :
  0 ≤ a ≤ b → b ≤ 32 → Z.land (Z.land ip (PrefixToNetmask b)) (PrefixToNetmask a) = Z.land ip (PrefixToNetmask a).
Proof. intros. by rewrite <- Z.land_assoc, mask_nested. Qed.

(** A network that is also the network of a shorter prefix is the network of all in between. *)
Lemma network_between ip dest q p P :
  0 ≤ q ≤ p → p ≤ P → P ≤ 32 → Z.land ip (PrefixToNetmask P) = dest → Z.land dest (PrefixToNetmask q) = dest →
  Z.land ip (PrefixToNetmask p) = dest.
Proof.
  intros Hq Hp HP Hd Hdq. rewrite <- (land_masks ip p P) by lia. rewrite Hd.
  rewrite <- Hdq at 1. rewrite <- Z.land_assoc, (Z.land_comm (PrefixToNetmask q)), mask_nested by lia. done.
Qed.

(** ** Buckets *)

Definition hop_of (entries : RouteEntries) (p : Z) : option Z := NextHop <$> find (λ e, Prefix e =? p) entries.

Record bucket_ok (d : Z) (entries : RouteEntries) : Prop := {
  bucket_nonempty : entries ≠ [];
  bucket_nodup : NoDup (Prefix <$> entries);
  bucket_entries : Forall (λ e, Destination e = d ∧ 0 ≤ Prefix e ≤ 32 ∧ Z.land d (PrefixToNetmask (Prefix e)) = d) entries }.

Lemma hop_of_Some entries p gw :
  NoDup (Prefix <$> entries) → hop_of entries p = Some gw ↔ ∃ e, e ∈ entries ∧ Prefix e = p ∧ NextHop e = gw.
Proof.
  unfold hop_of. induction entries as [|e entries IH]; cbn.
  - intros _. split; [done|]. intros (e & He & _). by apply elem_of_nil in He.
  - intros [Hnin Hnd]%NoDup_cons. destruct (Prefix e =? p) eqn:E; cbn; bool_props.
    + split; [intros [= <-]; exists e; split_and!; [left|done|done]|].
      intros (e' & He' & Hp & <-). apply elem_of_cons in He' as [->|He']; [done|].
      destruct Hnin. rewrite E, <- Hp. by apply list_elem_of_fmap_2.
    + rewrite IH by done. split; intros (e' & He' & Hp & Hg).
      * exists e'. split_and!; [by right|done|done].
      * apply elem_of_cons in He' as [->|He']; [done|]. by exists e'.
Qed.

Lemma hop_of_None entries p : hop_of entries p = None ↔ p ∉ (Prefix <$> entries).
Proof.
  unfold hop_of. induction entries as [|e entries IH]; cbn; [split; [intros _; apply not_elem_of_nil|done]|].
  rewrite not_elem_of_cons. destruct (Prefix e =? p) eqn:E; cbn; bool_props; [split; [done|intros [? _]; done]|].
  rewrite IH. split; [intros; split; [congruence|done]|by intros [_ ?]].
Qed.

Lemma set_next_hop_hop entries ip p gw p' :
  hop_of (set_next_hop entries ip p gw) p' = if decide (p' = p) then Some gw else hop_of entries p'.
Proof.
  unfold hop_of. induction entries as [|e entries IH]; cbn.
  - case_decide as Hp; [subst; by rewrite Z.eqb_refl|]. by rewrite (proj2 (Z.eqb_neq p p')) by congruence.
  - destruct (Prefix e =? p) eqn:E; cbn; bool_props.
    + case_decide as Hp; [subst; by rewrite Z.eqb_refl|]. by rewrite (proj2 (Z.eqb_neq (Prefix e) p')) by congruence.
    + destruct (Prefix e =? p') eqn:E'; cbn; [|done]. bool_props. case_decide; [congruence|done].
Qed.

Lemma set_next_hop_prefixes entries ip p gw :
  Prefix <$> set_next_hop entries ip p gw = (Prefix <$> entries) ++ (if decide (p ∈ (Prefix <$> entries)) then [] else [p]).
Proof.
  induction entries as [|e entries IH]; cbn.
  - by rewrite decide_False by apply not_elem_of_nil.
  - destruct (Prefix e =? p) eqn:E; cbn; bool_props.
    + by rewrite decide_True, app_nil_r by (subst; left).
    + rewrite IH. f_equal. f_equal. apply decide_ext. rewrite elem_of_cons. split; [by right|intros [?|?]; congruence].
Qed.

Lemma set_next_hop_bucket d entries p gw :
  (entries = [] ∨ bucket_ok d entries) → 0 ≤ p ≤ 32 → Z.land d (PrefixToNetmask p) = d →
  bucket_ok d (set_next_hop entries d p gw).
Proof.
  intros Hok Hp Hd. split.
  - destruct entries as [|e entries]; cbn; [done|]. by destruct (Prefix e =? p).
  - rewrite set_next_hop_prefixes. assert (NoDup (Prefix <$> entries)) as Hnd.
    { destruct Hok as [->|[_ ? _]]; [constructor|done]. }
    case_decide as Hin; [by rewrite app_nil_r|]. apply NoDup_app. split_and!; [done| |apply NoDup_singleton].
    intros x Hx ->%list_elem_of_singleton. done.
  - assert (Forall (λ e, Destination e = d ∧ 0 ≤ Prefix e ≤ 32 ∧ Z.land d (PrefixToNetmask (Prefix e)) = d) entries) as Hall.
    { destruct Hok as [->|[_ _ ?]]; [constructor|done]. }
    clear Hok. induction Hall as [|e entries He Hall IH]; cbn; [by apply Forall_singleton|].
    destruct (Prefix e =? p) eqn:E; apply Forall_cons; done.
Qed.

Lemma erase_first_Some f entries entries' :
  erase_first f entries = Some entries' → ∃ a e b, entries = a ++ e :: b ∧ entries' = a ++ b ∧ f e = true.
Proof.
  revert entries'. induction entries as [|e entries IH]; intros entries'; cbn; [done|].
  destruct (f e) eqn:E.
  - intros [= <-]. by exists [], e, entries.
  - destruct (erase_first f entries) as [r|]; [|done]. intros [= <-].
    destruct (IH r eq_refl) as (a & e0 & b & -> & -> & He). by exists (e :: a), e0, b.
Qed.

Lemma erase_first_None f entries : erase_first f entries = None → Forall (λ e, f e = false) entries.
Proof.
  induction entries as [|e entries IH]; cbn; [by constructor|]. destruct (f e) eqn:E; [done|].
  destruct (erase_first f entries); [done|]. intros _. constructor; [done|by apply IH].
Qed.

(** ** Refinement *)

Definition route_at (routes : RouteEntriesTable) (d p : Z) : option Z := entries ← routes !! d; hop_of entries p.

Record rib_rel (routes : RouteEntriesTable) (spec : Routes) : Prop := {
  rib_buckets : map_Forall bucket_ok routes;
  rib_routes : ∀ d p, route_at routes d p = spec !! (d, p) }.

(** Replacing one bucket. *)
Lemma rib_rel_bucket routes spec ip entries' spec' :
  rib_rel routes spec → (∀ entries, entries' = Some entries → bucket_ok ip entries) →
  (∀ d p, spec' !! (d, p) = if decide (d = ip) then entries ← entries'; hop_of entries p else spec !! (d, p)) →
  rib_rel (partial_alter (λ _, entries') ip routes) spec'.
Proof.
  intros [Hb Hr] He Hs. split.
  - intros d entries Hl. destruct (decide (ip = d)) as [<-|Hd].
    + rewrite lookup_partial_alter_eq in Hl. by apply He.
    + rewrite lookup_partial_alter_ne in Hl by done. by apply Hb.
  - intros d p. rewrite Hs. unfold route_at. case_decide as Hd; [subst; by rewrite lookup_partial_alter_eq|].
    rewrite lookup_partial_alter_ne by done. apply Hr.
Qed.

Lemma rib_empty : rib_rel ∅ ∅.
Proof. split; [apply map_Forall_empty|]. intros d p. unfold route_at. by rewrite !lookup_empty. Qed.

Lemma add_route_refines routes spec ip prefix gw :
  rib_rel routes spec →
  (AddRoute routes ip prefix gw).1 = (spec_add spec ip prefix gw).1 ∧
  rib_rel (AddRoute routes ip prefix gw).2 (spec_add spec ip prefix gw).2.
Proof.
  intros Hrel. pose proof Hrel as [Hb Hr].
  assert ((AddRoute routes ip prefix gw) = if bool_decide (0 ≤ prefix ≤ 32 ∧ ip ≠ NoneAddress ∧ gw ≠ AnyAddress ∧ gw ≠ NoneAddress ∧
                  Z.land ip (PrefixToNetmask prefix) = ip) then (true, <[ip := set_next_hop (default [] (routes !! ip)) ip prefix gw]> routes) else (false, routes)) as ->.
  { unfold AddRoute, MIN_PREFIX_VALUE, MAX_PREFIX_VALUE.
    case_if as E1; [rewrite bool_decide_false; [done|]; bool_props; lia|]. case_if as E2; [rewrite bool_decide_false; [done|]; bool_props; lia|].
    case_if as E3; [rewrite bool_decide_false; [done|]; bool_props; lia|]. case_if as E4; [rewrite bool_decide_false; [done|]; bool_props; lia|].
    bool_props. rewrite bool_decide_true; [done|]. split_and!; lia. }
  unfold spec_add. assert (bool_decide (0 ≤ prefix ≤ 32 ∧ ip ≠ NoneAddress ∧ gw ≠ AnyAddress ∧ gw ≠ NoneAddress ∧
    network_of ip prefix = ip) = bool_decide (0 ≤ prefix ≤ 32 ∧ ip ≠ NoneAddress ∧ gw ≠ AnyAddress ∧ gw ≠ NoneAddress ∧
    Z.land ip (PrefixToNetmask prefix) = ip)) as ->.
  { apply bool_decide_ext. split; intros (Hp & H1 & H2 & H3 & H4); pose proof (masked_network ip prefix ltac:(lia)) as Hm; split_and!; lia || done || congruence. }
  case_bool_decide as Hg; [|done]. destruct Hg as (Hp & _ & _ & _ & Hd). split; [done|]. cbn [snd].
  change (<[ip := ?e]> routes) with (partial_alter (λ _, Some e) ip routes). apply (rib_rel_bucket _ spec); [done| |].
  - intros entries [= <-]. apply set_next_hop_bucket; [|done..].
    destruct (routes !! ip) as [es|] eqn:E; [right; by apply Hb|by left].
  - intros d p. case_decide as Hdi.
    + subst. cbn. rewrite set_next_hop_hop. case_decide as Hpi; [subst; apply lookup_insert_eq|].
      rewrite lookup_insert_ne by congruence. rewrite <- Hr. unfold route_at. by destruct (routes !! ip).
    + by rewrite lookup_insert_ne by congruence.
Qed.

Section removal.
Context (P : Z * Z → Z → Prop) `{∀ k v, Decision (P k v)}.

Lemma spec_remove_true (spec : Routes) k v : spec !! k = Some v → P k v → (spec_remove P spec).1 = true.
Proof.
  intros Hk HP. unfold spec_remove. cbn. rewrite bool_decide_false; [done|]. intros He.
  assert ((∅ : Routes) !! k = Some v) as Hf by (rewrite <- He; by apply map_lookup_filter_Some).
  by rewrite lookup_empty in Hf.
Qed.

Lemma spec_remove_false (spec : Routes) : (∀ k v, spec !! k = Some v → ¬ P k v) → spec_remove P spec = (false, spec).
Proof.
  intros HP. unfold spec_remove. f_equal.
  - rewrite bool_decide_true; [done|]. apply map_empty_filter_2. intros k v Hk. by apply HP.
  - apply map_filter_id. intros k v Hk. by apply HP.
Qed.

Lemma spec_remove_lookup (spec : Routes) k :
  (spec_remove P spec).2 !! k = v ← spec !! k; if decide (P k v) then None else Some v.
Proof.
  unfold spec_remove. cbn. destruct (spec !! k) as [v|] eqn:E; cbn.
  - case_decide as HP; [apply map_lookup_filter_None; right|apply map_lookup_filter_Some; by split].
    intros v' Hv'. cbn. simplify_eq. tauto.
  - apply map_lookup_filter_None. by left.
Qed.
End removal.

Lemma delete_route_refines routes spec ip :
  rib_rel routes spec →
  (DeleteRoute routes ip).1 = (spec_remove (to_network ip) spec).1 ∧
  rib_rel (DeleteRoute routes ip).2 (spec_remove (to_network ip) spec).2.
Proof.
  intros Hrel. pose proof Hrel as [Hb Hr]. unfold DeleteRoute. destruct (routes !! ip) as [entries|] eqn:E.
  - destruct (Hb _ _ E) as [Hne Hnd _]. destruct entries as [|e es]; [done|]. split.
    + symmetry. eapply (spec_remove_true _ _ (ip, Prefix e)); [|done]. rewrite <- Hr. unfold route_at. rewrite E. cbn.
      unfold hop_of. cbn. by rewrite Z.eqb_refl.
    + cbn [snd]. apply (rib_rel_bucket _ spec _ None); [done|done|]. intros d p. rewrite spec_remove_lookup.
      destruct (spec !! (d, p)) as [v|]; cbn; [done|by case_decide].
  - rewrite spec_remove_false; [done|]. intros [d p] v Hk Hn. cbv in Hn. subst d. rewrite <- Hr in Hk. unfold route_at in Hk.
    by rewrite E in Hk.
Qed.

Lemma hop_of_app_ne a e b p : Prefix e ≠ p → hop_of (a ++ e :: b) p = hop_of (a ++ b) p.
Proof.
  intros Hp. unfold hop_of. induction a as [|x a IH]; cbn.
  - by rewrite (proj2 (Z.eqb_neq (Prefix e) p)).
  - destruct (Prefix x =? p); [done|]. apply IH.
Qed.

Lemma erase_nodup a e b :
  NoDup (Prefix <$> (a ++ e :: b)) → (Prefix e ∉ (Prefix <$> (a ++ b))) ∧ NoDup (Prefix <$> (a ++ b)).
Proof. rewrite !fmap_app, fmap_cons, <- Permutation_middle. apply NoDup_cons. Qed.

Lemma delete_prefix_refines routes spec ip prefix gw :
  rib_rel routes spec →
  (DeleteRoute_prefix routes ip prefix gw).1 = (spec_remove (the_route ip prefix gw) spec).1 ∧
  rib_rel (DeleteRoute_prefix routes ip prefix gw).2 (spec_remove (the_route ip prefix gw) spec).2.
Proof.
  intros Hrel. pose proof Hrel as [Hb Hr]. unfold DeleteRoute_prefix. destruct (routes !! ip) as [entries|] eqn:E.
  - destruct (Hb _ _ E) as [Hne Hnd Hall]. destruct (erase_first _ _) as [entries'|] eqn:Ee.
    + apply erase_first_Some in Ee as (a & e & b & -> & -> & He). bool_props.
      pose proof Hnd as [Hn Hnd']%erase_nodup.
      assert (spec !! (ip, prefix) = Some gw) as Hk.
      { rewrite <- Hr. unfold route_at. rewrite E. cbn. apply hop_of_Some; [done|]. exists e. split_and!; [set_solver|done|done]. }
      assert (rib_rel (partial_alter (λ _, if decide (a ++ b = []) then None else Some (a ++ b)) ip routes)
                      (spec_remove (the_route ip prefix gw) spec).2) as Hgoal.
      { apply (rib_rel_bucket _ spec); [done| |].
        - intros es. case_decide as Hab; [done|]. intros [= <-]. rewrite Forall_app, Forall_cons in Hall.
          split; [done|done|apply Forall_app; tauto].
        - intros d p. rewrite spec_remove_lookup. case_decide as Hd.
          + subst d. replace (entries ← (if decide (a ++ b = []) then None else Some (a ++ b)); hop_of entries p) with (hop_of (a ++ b) p)
              by (case_decide as Hab; [by rewrite Hab|done]).
            destruct (decide (p = prefix)) as [->|Hp].
            * rewrite Hk. cbn. rewrite decide_True by done. symmetry. apply hop_of_None. congruence.
            * rewrite <- Hr. unfold route_at. rewrite E. cbn. rewrite hop_of_app_ne by congruence.
              destruct (hop_of (a ++ b) p); cbn; [|done]. rewrite decide_False; [done|]. intros [? _]. congruence.
          + destruct (spec !! (d, p)); cbn; [|done]. rewrite decide_False; [done|]. intros [? _]. congruence. }
      assert ((spec_remove (the_route ip prefix gw) spec).1 = true) as Ht by (by eapply spec_remove_true).
      destruct (a ++ b) as [|e0 es] eqn:Eab; cbn [fst snd]; split; try done; by rewrite ?Ht.
    + apply erase_first_None in Ee. rewrite spec_remove_false; [done|]. intros k v Hk [-> ->].
      rewrite <- Hr in Hk. unfold route_at in Hk. rewrite E in Hk. cbn in Hk.
      apply hop_of_Some in Hk as (e & He & Hp & Hg); [|done]. rewrite Forall_forall in Ee.
      specialize (Ee e He). cbn in Ee. rewrite Hp, Hg, !Z.eqb_refl in Ee. done.
  - rewrite spec_remove_false; [done|]. intros k v Hk [-> ->]. rewrite <- Hr in Hk. unfold route_at in Hk. by rewrite E in Hk.
Qed.

Lemma delete_prefixes_refine routes spec ip gw prefixes :
  rib_rel routes spec →
  rib_rel (foldl (λ routes prefix, (DeleteRoute_prefix routes ip prefix gw).2) routes prefixes)
          (foldl (λ spec prefix, (spec_remove (the_route ip prefix gw) spec).2) spec prefixes).
Proof.
  revert routes spec. induction prefixes as [|p ps IH]; intros routes spec Hrel; [done|]. cbn.
  apply IH. by apply delete_prefix_refines.
Qed.

Lemma spec_remove_list (spec : Routes) ip gw prefixes k :
  foldl (λ spec prefix, (spec_remove (the_route ip prefix gw) spec).2) spec prefixes !! k =
  (v ← spec !! k; if decide (through ip gw k v ∧ k.2 ∈ prefixes) then None else Some v).
Proof.
  revert spec. induction prefixes as [|p ps IH]; intros spec; cbn [foldl].
  - destruct (spec !! k); cbn; [|done]. rewrite decide_False; [done|]. by intros [_ ?%not_elem_of_nil].
  - rewrite IH, spec_remove_lookup. destruct (spec !! k) as [v|]; cbn; [|done].
    destruct k as [d q]. unfold through, the_route. cbn.
    destruct (decide ((d, q) = (ip, p) ∧ v = gw)) as [[[= -> ->] ->]|H1]; cbn.
    + rewrite decide_True; [done|]. split; [done|left].
    + apply decide_ext. rewrite elem_of_cons. naive_solver.
Qed.

Lemma delete_gw_refines routes spec ip gw :
  rib_rel routes spec →
  (DeleteRoute_gw routes ip gw).1 = (spec_remove (through ip gw) spec).1 ∧
  rib_rel (DeleteRoute_gw routes ip gw).2 (spec_remove (through ip gw) spec).2.
Proof.
  intros Hrel. pose proof Hrel as [Hb Hr]. unfold DeleteRoute_gw. destruct (routes !! ip) as [entries|] eqn:E.
  - destruct (Hb _ _ E) as [_ Hnd _]. set (prefixes := Prefix <$> filter (λ e, NextHop e = gw) entries).
    assert (∀ k v, spec !! k = Some v → through ip gw k v → k.2 ∈ prefixes) as Hin.
    { intros [d p] v Hk [Hd Hg]. cbn in Hd. subst d v. rewrite <- Hr in Hk. unfold route_at in Hk. rewrite E in Hk. cbn in Hk.
      apply hop_of_Some in Hk as (e & He & <- & Hg); [|done]. cbn. apply list_elem_of_fmap. exists e. split; [done|].
      by apply list_elem_of_filter. }
    split; cbn [fst snd].
    + destruct prefixes as [|p ps] eqn:Ep; cbn [length].
      * rewrite spec_remove_false; [by rewrite bool_decide_false by lia|]. intros k v Hk HP.
        by apply (Hin _ _ Hk), not_elem_of_nil in HP.
      * rewrite bool_decide_true by lia. symmetry. apply (spec_remove_true _ spec (ip, p) gw); [|done].
        assert (p ∈ prefixes) as Hp by (rewrite Ep; left). apply list_elem_of_fmap in Hp as (e & -> & He).
        apply list_elem_of_filter in He as [Hg He]. rewrite <- Hr. unfold route_at. rewrite E. cbn. apply hop_of_Some; [done|]. by exists e.
    + replace (spec_remove (through ip gw) spec).2 with
        (foldl (λ spec prefix, (spec_remove (the_route ip prefix gw) spec).2) spec prefixes); [by apply delete_prefixes_refine|].
      apply map_eq. intros k. rewrite spec_remove_list, spec_remove_lookup. destruct (spec !! k) as [v|] eqn:Ek; cbn; [|done].
      apply decide_ext. split; [tauto|]. intros HP. split; [done|by eapply Hin].
  - rewrite spec_remove_false; [done|]. intros [d p] v Hk [Hd _]. cbn in Hd. subst d. rewrite <- Hr in Hk. unfold route_at in Hk. by rewrite E in Hk.
Qed.

Lemma available_refines routes spec : rib_rel routes spec → IsAvailable routes = negb (bool_decide (spec = ∅)).
Proof.
  intros [Hb Hr]. unfold IsAvailable. f_equal. apply bool_decide_ext. split; intros ->.
  - apply map_empty. intros [d p]. rewrite <- Hr. unfold route_at. by rewrite lookup_empty.
  - apply map_empty. intros d. apply eq_None_not_Some. intros [entries E]. destruct (Hb _ _ E) as [Hne _ _].
    destruct entries as [|e es]; [done|]. specialize (Hr d (Prefix e)). unfold route_at in Hr. rewrite E in Hr. cbn in Hr.
    unfold hop_of in Hr. cbn in Hr. rewrite Z.eqb_refl, lookup_empty in Hr. done.
Qed.

(** ** The forwarding table *)

#[global] Instance prefix_ge_total : Total prefix_ge.
Proof. intros x y. unfold prefix_ge. lia. Qed.
#[global] Instance prefix_ge_trans : Transitive prefix_ge.
Proof. intros x y z. unfold prefix_ge. lia. Qed.

Lemma bucket_ok_perm d entries entries' : entries ≡ₚ entries' → bucket_ok d entries → bucket_ok d entries'.
Proof.
  intros Hp [Hne Hnd Hall]. split.
  - intros ->. by apply Permutation_nil_r in Hp.
  - by rewrite <- Hp.
  - by rewrite <- Hp.
Qed.

Lemma hop_of_perm d entries entries' p : entries ≡ₚ entries' → bucket_ok d entries → hop_of entries p = hop_of entries' p.
Proof.
  intros Hp Hok. apply option_eq. intros gw. rewrite !hop_of_Some; [|by rewrite <- Hp; apply Hok|apply Hok].
  by setoid_rewrite Hp.
Qed.

Definition fib_rel (fib : RouteEntriesTable) (spec : Routes) : Prop :=
  rib_rel fib spec ∧ map_Forall (λ _, StronglySorted prefix_ge) fib.

Lemma fill_refines rib spec : rib_rel rib spec → fib_rel (Fill rib) spec.
Proof.
  intros [Hb Hr]. unfold Fill. split; [split|].
  - intros d entries. rewrite lookup_fmap. intros (entries0 & E & ->)%fmap_Some. apply (bucket_ok_perm _ entries0); [|by apply Hb].
    symmetry. apply merge_sort_Permutation.
  - intros d p. rewrite <- Hr. unfold route_at. rewrite lookup_fmap. destruct (rib !! d) as [entries|] eqn:E; cbn; [|done].
    symmetry. apply (hop_of_perm d); [symmetry; apply merge_sort_Permutation|by apply Hb].
  - intros d entries. rewrite lookup_fmap. intros (entries0 & E & ->)%fmap_Some. apply (StronglySorted_merge_sort _).
Qed.

Lemma find_longest entries P e :
  StronglySorted prefix_ge entries → find (λ e, Prefix e <=? P) entries = Some e →
  e ∈ entries ∧ Prefix e ≤ P ∧ ∀ e', e' ∈ entries → Prefix e' ≤ P → Prefix e' ≤ Prefix e.
Proof.
  induction 1 as [|x entries Hs IH Hx]; cbn; [done|]. destruct (Prefix x <=? P) eqn:E; bool_props.
  - intros [= ->]. split_and!; [left|done|]. intros e' [->|He']%elem_of_cons _; [done|].
    rewrite Forall_forall in Hx. by apply Hx.
  - intros (He & Hp & Hl)%IH. split_and!; [by right|done|]. intros e' [->|He']%elem_of_cons; [lia|]. by apply Hl.
Qed.

(** Prefix lengths without a route are skipped. *)
Lemma spec_longest_skip n m ip spec P :
  (m ≤ n)%nat → (∀ p, P - Z.of_nat (n - m) < p ≤ P → spec !! (network_of ip p, p) = None) →
  spec_longest n ip spec P = spec_longest m ip spec (P - Z.of_nat (n - m)).
Proof.
  revert P. induction n as [|n IH]; intros P Hm Hnone.
  - replace m with 0%nat by lia. done.
  - destruct (decide (m = S n)) as [->|Hne]; [rewrite Nat.sub_diag; f_equal; lia|].
    cbn [spec_longest]. rewrite Hnone by lia. rewrite IH; [f_equal; lia|lia|]. intros p Hp. apply Hnone. lia.
Qed.

Lemma next_hop_refines fib spec ip n P :
  fib_rel fib spec → Z.of_nat n = P + 1 → P ≤ 32 →
  next_hop_loop n ip fib P = default NoneAddress (spec_longest n ip spec P).
Proof.
  intros [[Hb Hr] Hsort]. revert P. induction n as [|n IH]; intros P Hn HP; [done|].
  cbn [next_hop_loop]. set (dest := Z.land ip (PrefixToNetmask P)).
  assert (∀ p, 0 ≤ p ≤ P → Z.land ip (PrefixToNetmask p) = dest → (entries ← fib !! dest; hop_of entries p) = spec !! (network_of ip p, p)) as Hat
    by (intros p Hp; rewrite masked_network by lia; intros ->; apply Hr).
  assert (spec !! (network_of ip P, P) = None → next_hop_loop n ip fib (P - 1) = default NoneAddress (spec_longest (S n) ip spec P)) as Hnext.
  { intros H0. cbn [spec_longest]. rewrite H0. apply IH; lia. }
  destruct (fib !! dest) as [entries|] eqn:E; [|apply Hnext; symmetry; by apply Hat; [lia|]].
  destruct (Hb _ _ E) as [Hne Hnd Hall]. destruct (find _ entries) as [e|] eqn:Ef.
  - apply find_longest in Ef as (He & Hp & Hl); [|by eapply Hsort]. set (q := Prefix e) in *.
    rewrite Forall_forall in Hall. destruct (Hall e He) as (_ & Hq & Hd). fold q in Hq, Hd.
    rewrite (spec_longest_skip (S n) (Z.to_nat (q + 1))) by (lia || intros p Hpq;
      rewrite <- Hat by (lia || (apply (network_between ip dest q p P); lia || done)); apply hop_of_None; intros (e' & -> & He')%list_elem_of_fmap;
      specialize (Hl e' He'); lia).
    replace (P - Z.of_nat (S n - Z.to_nat (q + 1))) with q by lia.
    replace (Z.to_nat (q + 1)) with (S (Z.to_nat q)) by lia. cbn [spec_longest].
    rewrite <- Hat by (lia || (apply (network_between ip dest q q P); lia || done)).
    cbn. assert (hop_of entries q = Some (NextHop e)) as -> by (apply hop_of_Some; [done|]; by exists e). done.
  - apply Hnext. etrans; [symmetry; refine (Hat P _ eq_refl); lia|]. cbn. apply hop_of_None. intros (e & -> & He)%list_elem_of_fmap.
    eapply find_none in Ef; [|by apply list_elem_of_In]. bool_props. lia.
Qed.

(** ** Lookups in unsorted tables *)

(** Whatever the order of the buckets, a lookup answers with some matching route, and it answers
    whenever there is one. *)
Lemma next_hop_matches routes ip n P :
  map_Forall bucket_ok routes → Z.of_nat n = P + 1 → P ≤ 32 →
  (∃ p, 0 ≤ p ≤ P ∧ route_at routes (Z.land ip (PrefixToNetmask p)) p = Some (next_hop_loop n ip routes P)) ∨
  (next_hop_loop n ip routes P = NoneAddress ∧
   ∀ p, 0 ≤ p ≤ P → route_at routes (Z.land ip (PrefixToNetmask p)) p = None).
Proof.
  intros Hb. revert P. induction n as [|n IH]; intros P Hn HP; cbn [next_hop_loop]; [right; split; [done|]; intros; lia|].
  set (dest := Z.land ip (PrefixToNetmask P)). specialize (IH (P - 1) ltac:(lia) ltac:(lia)).
  assert (route_at routes dest P = None →
    (∃ p, 0 ≤ p ≤ P ∧ route_at routes (Z.land ip (PrefixToNetmask p)) p = Some (next_hop_loop n ip routes (P - 1))) ∨
    (next_hop_loop n ip routes (P - 1) = NoneAddress ∧
     ∀ p, 0 ≤ p ≤ P → route_at routes (Z.land ip (PrefixToNetmask p)) p = None)) as Hnext.
  { intros H0. destruct IH as [(p & Hp & Hr)|[H1 H2]]; [left; exists p; split; [lia|done]|right; split; [done|]].
    intros p Hp. destruct (decide (p = P)) as [->|]; [done|]. apply H2. lia. }
  destruct (routes !! dest) as [entries|] eqn:E; [|apply Hnext; unfold route_at; by rewrite E].
  destruct (Hb _ _ E) as [Hne Hnd Hall]. destruct (find _ entries) as [e|] eqn:Ef.
  - apply find_some in Ef as [He%list_elem_of_In Hp]. bool_props. rewrite Forall_forall in Hall. destruct (Hall e He) as (_ & Hq & Hd).
    left. exists (Prefix e). split; [lia|]. rewrite (network_between ip dest (Prefix e) (Prefix e) P) by (lia || done).
    unfold route_at. rewrite E. cbn. apply hop_of_Some; [done|]. by exists e.
  - apply Hnext. unfold route_at. rewrite E. cbn. apply hop_of_None. intros (e & -> & He)%list_elem_of_fmap.
    eapply find_none in Ef; [|by apply list_elem_of_In]. bool_props. lia.
Qed.

(** ** Routes from text *)

(** Two insertions that agree make the text loaders agree. *)
Section text_agree.
Context (StringToAddress : list Z → option (option Z)) {A B : Type} (R : A → B → Prop).
Context (add : A → Z → Z → Z → bool * A) (add' : B → Z → Z → Z → bool * B).

Definition agree (x : bool * A) (y : bool * B) : Prop := x.1 = y.1 ∧ R x.2 y.2.

Context (Hadd : ∀ a b ip prefix gw, R a b → agree (add a ip prefix gw) (add' b ip prefix gw)).

Lemma cidr_agree a b cidr gw :
  R a b → agree (AddRoute_cidr StringToAddress add a cidr gw) (AddRoute_cidr StringToAddress add' b cidr gw).
Proof.
  intros HR. unfold AddRoute_cidr. case_decide; [done|].
  destruct (before 47 cidr) as [[[|ch host] rest]|]; [done| |].
  - destruct (strtol rest) as [[v tail]|]; [|done]. do 2 (case_if as E; [done|clear E]).
    destruct (StringToAddress _) as [[ip|]|]; [|done|done]. case_if as E; [done|]. by apply Hadd.
  - destruct (StringToAddress _) as [[ip|]|]; [|done|done]. case_if as E; [done|]. by apply Hadd.
Qed.

Lemma tokens_agree a b tokens gw any :
  R a b → agree (add_tokens StringToAddress add a tokens gw any) (add_tokens StringToAddress add' b tokens gw any).
Proof.
  revert a b any. induction tokens as [|route tokens IH]; intros a b any HR; cbn [add_tokens]; [done|].
  case_decide; [by apply IH|]. destruct (cidr_agree a b (ATrim route) gw HR) as [E HR'].
  destruct (AddRoute_cidr _ add a _ _) as [ok a']. destruct (AddRoute_cidr _ add' b _ _) as [ok' b']. cbn in *. subst. by apply IH.
Qed.

Lemma lines_agree a b lines gw any :
  R a b → agree (add_lines StringToAddress add a lines gw any) (add_lines StringToAddress add' b lines gw any).
Proof.
  revert a b any. induction lines as [|line lines IH]; intros a b any HR; cbn [add_lines]; [done|].
  case_decide; [by apply IH|]. case_decide; [by apply IH|].
  match goal with |- context [add_tokens _ add a ?t gw any] => destruct (tokens_agree a b t gw any HR) as [E HR'] end.
  destruct (add_tokens _ add a _ _ _) as [ok a']. destruct (add_tokens _ add' b _ _ _) as [ok' b']. cbn in *. subst. by apply IH.
Qed.

Lemma all_routes_agree a b cidrs gw :
  R a b → agree (AddAllRoutes StringToAddress add a cidrs gw) (AddAllRoutes StringToAddress add' b cidrs gw).
Proof. intros HR. unfold AddAllRoutes. case_decide; [done|]. case_decide; [done|]. by apply lines_agree. Qed.
End text_agree.

(** *** The text as the specification reads it *)

Lemma split_on_cons sep s : ∃ piece pieces, split_on sep s = piece :: pieces.
Proof. destruct s as [|ch s]; cbn; [by eauto|]. case_match; eauto. Qed.

Lemma split_on_ext sep sep' s : Forall (λ ch, sep ch = sep' ch) s → split_on sep s = split_on sep' s.
Proof. induction 1 as [|ch s E _ IH]; [done|]. unfold split_on in *. cbn. by rewrite E, IH. Qed.

Lemma split_on_forall (P : Z → Prop) sep s : Forall P s → Forall (Forall P) (split_on sep s).
Proof.
  induction 1 as [|ch s H Hs IH]; [by repeat constructor|]. destruct (split_on_cons sep s) as (f & fs & E).
  unfold split_on in *. cbn. rewrite E in *. apply Forall_cons in IH as [Hf Hfs]. case_match; cbn; repeat constructor; done.
Qed.

Lemma tokenize_loop_fields delimiters s :
  let sep := λ ch, bool_decide (ch ∈ delimiters) in
  tokenize_loop delimiters None s = text_fields sep s ∧
  ∀ r, r ≠ [] → tokenize_loop delimiters (Some r) s =
    (rev r ++ default [] (head (split_on sep s))) :: filter (λ piece, piece ≠ []) (tail (split_on sep s)).
Proof.
  intros sep. induction s as [|ch s [IH1 IH2]]; [split; [done|]; intros r _; cbn; by rewrite app_nil_r|].
  destruct (split_on_cons sep s) as (f & fs & E). unfold text_fields in *. cbn [tokenize_loop].
  assert (split_on sep (ch :: s) = if sep ch then [] :: f :: fs else (ch :: f) :: fs) as E' by (unfold split_on in *; cbn; by rewrite E).
  rewrite E' in *. rewrite E in *. cbn [head tail default] in *. case_decide as Hd.
  - assert (sep ch = true) as -> by (by apply bool_decide_true). cbn [head tail default]. rewrite IH1. split; [done|].
    intros r Hr. by rewrite app_nil_r.
  - assert (sep ch = false) as -> by (by apply bool_decide_false). cbn [default head tail]. split.
    + rewrite IH2 by done. done.
    + intros r Hr. rewrite IH2 by done. cbn. by rewrite <- app_assoc.
Qed.

Lemma Tokenize_fields s delimiters :
  delimiters ≠ [] → Tokenize s delimiters = text_fields (λ ch, bool_decide (ch ∈ delimiters)) s.
Proof. intros Hd. unfold Tokenize. case_decide as E; [by subst|]. rewrite decide_False by done. by apply tokenize_loop_fields. Qed.

Lemma before_split c s :
  match before c s with
  | Some (a, b) => split_on (λ ch, ch =? c) s = a :: split_on (λ ch, ch =? c) b
  | None => split_on (λ ch, ch =? c) s = [s]
  end.
Proof.
  unfold split_on. induction s as [|ch s IH]; cbn; [done|]. destruct (ch =? c) eqn:E; [done|].
  destruct (before c s) as [[a b]|]; cbn; by rewrite IH.
Qed.

Definition is_digit (ch : Z) : Prop := 48 ≤ ch ≤ 57.

Lemma strtol_digits_spec s acc v rest :
  strtol_digits acc s = (v, rest) →
  ∃ d, s = d ++ rest ∧ Forall is_digit d ∧ v = foldl (λ v ch, 10 * v + (ch - 48)) acc d ∧ ∀ ch, head rest = Some ch → ¬ is_digit ch.
Proof.
  unfold is_digit. revert acc. induction s as [|ch s IH]; intros acc; cbn; [intros [= <- <-]; by exists []|].
  case_if as E; [bool_props|].
  - intros (d & -> & Hd & -> & Hr)%IH. exists (ch :: d). split_and!; [done|by constructor|done|done].
  - intros [= <- <-]. exists []. split_and!; [done..|]. intros ch' [= <-]. apply andb_false_iff in E as [E|E]; bool_props; lia.
Qed.

Lemma decimal_nonneg d acc : Forall is_digit d → 0 ≤ acc → 0 ≤ foldl (λ v ch, 10 * v + (ch - 48)) acc d.
Proof. intros H. revert acc. induction H as [|ch d Hc _ IH]; intros acc Ha; cbn; [done|]. apply IH. unfold is_digit in Hc. lia. Qed.

(** The digits that [strtol] reads, when they are all there is. *)
Lemma strtol_decimal s v rest :
  Forall (λ ch, isspace ch = false) s → strtol_digits 0 s = (v, rest) →
  (if bool_decide (length rest = length s) then None
   else if negb (bool_decide (rest = []) || (byte_at rest 0 =? 0)) then None else Some v) = decimal_value s ∧ 0 ≤ v.
Proof.
  intros Hs (d & -> & Hd & -> & Hr)%strtol_digits_spec. split; [|by apply decimal_nonneg]. unfold decimal_value.
  destruct rest as [|ch rest].
  - rewrite app_nil_r in *. destruct d as [|x d]; [done|]. cbn [length]. rewrite bool_decide_false by (cbn; lia).
    rewrite (bool_decide_true (_ ∧ _)) by done. done.
  - rewrite (bool_decide_false (d ++ ch :: rest ≠ [] ∧ _)).
    + rewrite Forall_app, Forall_cons in Hs. destruct Hs as (_ & Hc & _). case_bool_decide; [done|]. rewrite bool_decide_false by done.
      change (byte_at (ch :: rest) 0) with ch. destruct (ch =? 0) eqn:E; [|done]. bool_props. subst. done.
    + intros [_ Hf]. rewrite Forall_app, Forall_cons in Hf. destruct Hf as (_ & Hc & _). exact (Hr ch eq_refl Hc).
Qed.

(** The prefix length of a route. *)
Definition code_prefix (s : list Z) : option Z :=
  match strtol s with
  | None => None
  | Some (v, tail) =>
      if negb (bool_decide (tail = []) || (byte_at tail 0 =? 0)) then None
      else if (v <? 0) || (128 <? v) then None else Some v
  end.
Definition prefix_in_range (o : option Z) : option Z := v ← o; if bool_decide (0 ≤ v ≤ 32) then Some v else None.

Lemma skip_spaces_none s : Forall (λ ch, isspace ch = false) s → skip_spaces s = s.
Proof.
  destruct 1 as [|ch s H _]; [done|]. cbn. destruct (c_isspace ch) eqn:E; [|done]. revert H E. unfold isspace, c_isspace.
  repeat case_match; bool_props; try done; lia.
Qed.

Lemma prefix_read s :
  Forall (λ ch, isspace ch = false) s → prefix_in_range (code_prefix s) = prefix_in_range (signed_value s).
Proof.
  intros Hs. unfold code_prefix, strtol. rewrite skip_spaces_none by done.
  assert (∀ (neg : bool) s', Forall (λ ch, isspace ch = false) s' →
    prefix_in_range (match (let '(v, rest) := strtol_digits 0 s' in
      if decide (length rest = length s') then None
      else Some ((if neg then Z.max (- LONG_MAX - 1) (- v) else Z.min LONG_MAX v), rest)) with
    | None => None
    | Some (v, tail) => if negb (bool_decide (tail = []) || (byte_at tail 0 =? 0)) then None
                        else if (v <? 0) || (128 <? v) then None else Some v end) =
    prefix_in_range (if neg then if bool_decide (decimal_value s' = Some 0) then Some 0 else None else decimal_value s')) as H.
  { intros neg s' Hs'. destruct (strtol_digits 0 s') as [v rest] eqn:E. destruct (strtol_decimal s' v rest Hs' E) as [<- Hv].
    destruct (decide (length rest = length s')) as [Hl|Hl]; [rewrite !(bool_decide_true (length rest = _)) by done; by destruct neg|].
    rewrite !(bool_decide_false (length rest = _)) by done. destruct (negb _); [by destruct neg|]. unfold LONG_MAX, prefix_in_range.
    destruct neg; cbn.
    - case_bool_decide as Hz; [injection Hz as ->; done|]. assert (0 < v) by (destruct (decide (v = 0)); [subst; done|lia]).
      rewrite (proj2 (Z.ltb_lt (Z.max _ _) 0)) by lia. done.
    - destruct (_ || _) eqn:Er; cbn.
      + rewrite bool_decide_false; [done|]. apply orb_true_iff in Er as [Er|Er]; bool_props; lia.
      + apply orb_false_iff in Er as [E1 E2]. bool_props. by rewrite Z.min_r by lia. }
  destruct s as [|ch s]; [exact (H false [] Hs)|]. apply Forall_cons in Hs as Hs'. destruct Hs' as [_ Hs'].
  destruct (decide (ch = 45)) as [->|H45]; [exact (H true s Hs')|].
  destruct (decide (ch = 43)) as [->|H43]; [exact (H false s Hs')|].
  specialize (H false (ch :: s) Hs). assert (∀ A (a b c : A), match ch with 45 => a | 43 => b | _ => c end = c) as Hm
    by (intros; repeat case_match; congruence).
  rewrite Hm. unfold signed_value. rewrite Hm. exact H.
Qed.

Lemma before_app c s a b : before c s = Some (a, b) → s = a ++ c :: b.
Proof.
  revert a. induction s as [|ch s IH]; intros a; cbn; [done|]. destruct (ch =? c) eqn:E; [bool_props; by intros [= <- <-]; subst|].
  destruct (before c s) as [[a' b']|]; [|done]. cbn. intros [= <- <-]. by rewrite (IH a').
Qed.

Lemma signed_value_none s : 47 ∈ s → signed_value s = None.
Proof.
  assert (∀ s, 47 ∈ s → decimal_value s = None) as H.
  { intros t Ht. unfold decimal_value. rewrite bool_decide_false; [done|]. intros [_ Hf]. rewrite Forall_forall in Hf. specialize (Hf _ Ht). lia. }
  intros Hs. destruct s as [|ch s]; [done|]. apply elem_of_cons in Hs as Hs'. unfold signed_value.
  destruct Hs' as [<-|Hs']; [by apply H|]. rewrite (H s Hs'), (H (ch :: s) Hs). by repeat case_match.
Qed.

Section text_read.
Context (StringToAddress : list Z → option (option Z)).

Lemma route_read (routes : Routes) route gw :
  Forall (λ ch, isspace ch = false) route → route ≠ [] →
  AddRoute_cidr StringToAddress spec_add routes route gw = spec_route StringToAddress routes route gw.
Proof.
  intros Hs Hne. unfold AddRoute_cidr, spec_route. rewrite decide_False by done.
  assert (∀ ip prefix, (if (prefix <? 0) || (32 <? prefix) then (false, routes) else spec_add routes ip prefix gw) =
    spec_add routes ip prefix gw) as Hadd.
  { intros ip prefix. case_if as E; [|done]. unfold spec_add. rewrite bool_decide_false; [done|].
    apply orb_true_iff in E as [E|E]; bool_props; lia. }
  assert (∀ prefix, prefix_in_range (Some prefix) = None → ∀ ip, spec_add routes ip prefix gw = (false, routes)) as Hout.
  { intros prefix Hp ip. unfold spec_add. rewrite bool_decide_false; [done|]. intros [Hr _]. unfold prefix_in_range in Hp. cbn in Hp.
    by rewrite bool_decide_true in Hp. }
  assert (∀ p q (host : list Z), prefix_in_range p = prefix_in_range q →
    match p with Some v => match StringToAddress host with Some (Some ip) => spec_add routes ip v gw | _ => (false, routes) end
               | None => (false, routes) end =
    match q with Some v => match StringToAddress host with Some (Some ip) => spec_add routes ip v gw | _ => (false, routes) end
               | None => (false, routes) end) as Heq.
  { intros p q host. destruct (StringToAddress host) as [[ip|]|]; [|by destruct p, q..]. destruct p as [p|], q as [q|]; intros H; [|..|done].
    - destruct (prefix_in_range (Some p)) eqn:Ep; [|by rewrite !Hout].
      unfold prefix_in_range in *. cbn in *. repeat case_bool_decide; congruence.
    - by rewrite Hout.
    - by rewrite Hout. }
  pose proof (before_split 47 route) as Hb. destruct (before 47 route) as [[host rest]|] eqn:Eb; rewrite Hb;
    [|destruct (StringToAddress route) as [[ip|]|]; [apply Hadd|done..]].
  assert (Forall (λ ch, isspace ch = false) rest) as Hr
    by (apply before_app in Eb as ->; by apply Forall_app in Hs as [_ [_ ?]%Forall_cons]).
  pose proof (prefix_read rest Hr) as Hp.
  assert (match host with
          | [] => (false, routes)
          | _ :: _ => match signed_value rest with
                      | Some prefix => match StringToAddress host with Some (Some ip) => spec_add routes ip prefix gw | _ => (false, routes) end
                      | None => (false, routes) end
          end =
          match split_on (λ ch, ch =? 47) rest with
          | [len] => if bool_decide (host = []) then (false, routes) else
              match signed_value len with
              | Some prefix => match StringToAddress host with Some (Some ip) => spec_add routes ip prefix gw | _ => (false, routes) end
              | None => (false, routes) end
          | _ => (false, routes)
          end) as Hspec.
  { pose proof (before_split 47 rest) as Hb'. destruct (before 47 rest) as [[len rest']|] eqn:Eb'; rewrite Hb'; [|by destruct host].
    destruct (split_on_cons (λ ch, ch =? 47) rest') as (f & fs & ->). rewrite signed_value_none; [by destruct host|].
    apply before_app in Eb' as ->. apply elem_of_app. right. by left. }
  transitivity (match host with
          | [] => (false, routes)
          | _ :: _ => match signed_value rest with
                      | Some prefix => match StringToAddress host with Some (Some ip) => spec_add routes ip prefix gw | _ => (false, routes) end
                      | None => (false, routes) end
          end); [|rewrite Hspec; destruct (split_on_cons (λ ch, ch =? 47) rest) as (f & fs & ->); by destruct fs].
  destruct host as [|h host]; [done|]. rewrite <- (Heq _ _ _ Hp). unfold code_prefix.
  destruct (strtol rest) as [[v tail]|]; [|done]. destruct (negb _); [done|]. destruct ((v <? 0) || (128 <? v)); [done|].
  destruct (StringToAddress _) as [[ip|]|]; [apply Hadd|done..].
Qed.

Definition load_step (gw : Z) (r : bool * Routes) (route : list Z) : bool * Routes :=
  let '(ok, routes) := spec_route StringToAddress r.2 route gw in (r.1 || ok, routes).

Definition no_blanks (ch : Z) : Prop := isspace ch = false.

Lemma ATrim_no_blanks s : Forall no_blanks s → ATrim s = s.
Proof. induction 1 as [|ch s H _ IH]; [done|]. unfold ATrim in *. by rewrite filter_cons_True, IH. Qed.

Lemma isspace_blank ch : isspace ch = false ↔ ch ∉ blanks.
Proof.
  unfold blanks, isspace. rewrite !not_elem_of_cons. pose proof (not_elem_of_nil ch : ch ∉ []).
  destruct (ch =? 0) eqn:E0; bool_props; [subst; split; [done|tauto]|].
  destruct ((-1 <? ch) && (ch <? 128)) eqn:E1.
  - rewrite orb_false_iff, andb_false_iff, !Z.leb_gt, Z.eqb_neq. split; [intros; split_and!; try done; lia|intros; lia].
  - apply andb_false_iff in E1. rewrite !Z.ltb_ge in E1. split; [intros _; split_and!; try done; lia|done].
Qed.

Lemma ATrim_blanks s : ATrim s = filter (λ ch, ch ∉ blanks) s.
Proof. apply list_filter_iff. apply isspace_blank. Qed.

Lemma tokens_read tokens routes gw any :
  Forall (λ route, Forall no_blanks route ∧ route ≠ []) tokens →
  add_tokens StringToAddress spec_add routes tokens gw any = foldl (load_step gw) (any, routes) tokens.
Proof.
  intros H. revert routes any. induction H as [|route tokens [Hp Hne] _ IH]; intros routes any; [done|]. cbn [add_tokens foldl].
  assert (ATrim route = route) as -> by (by apply ATrim_no_blanks). rewrite decide_False by done.
  rewrite route_read by done. unfold load_step at 2. cbn [fst snd]. destruct (spec_route _ routes route gw) as [ok routes']. apply IH.
Qed.

Definition line_routes (line : list Z) : list (list Z) :=
  text_fields (λ ch, (ch =? 44) || (ch =? 59))
    (filter (λ ch, ch ∉ blanks) (default [] (head (split_on (λ ch, ch =? 35) line)))).

Lemma fields_no_blanks sep s : Forall no_blanks s → Forall (λ route, Forall no_blanks route ∧ route ≠ []) (text_fields sep s).
Proof.
  intros H. apply (split_on_forall _ sep) in H. rewrite Forall_forall in *. intros route [Hne Hr]%list_elem_of_filter. auto.
Qed.

Lemma lines_read lines routes gw any :
  add_lines StringToAddress spec_add routes lines gw any = foldl (load_step gw) (any, routes) (lines ≫= line_routes).
Proof.
  revert routes any. induction lines as [|line lines IH]; intros routes any; [done|]. cbn [add_lines].
  assert ((match before 35 line with Some (a, _) => a | None => line end) = default [] (head (split_on (λ ch, ch =? 35) line))) as ->.
  { pose proof (before_split 35 line) as H. destruct (before 35 line) as [[a b]|]; by rewrite H. }
  rewrite bind_cons, foldl_app. set (body := default [] _).
  assert (line_routes line = text_fields (λ ch, (ch =? 44) || (ch =? 59)) (ATrim body)) as -> by (unfold line_routes; by rewrite ATrim_blanks).
  assert (Forall no_blanks (ATrim body)) as Hb by (apply Forall_forall; by intros ch [? _]%list_elem_of_filter).
  destruct (decide (ATrim body = [])) as [->|Hne]; [apply IH|].
  assert (Tokenize (ATrim body) [44; 59; 32; 9] = text_fields (λ ch, (ch =? 44) || (ch =? 59)) (ATrim body)) as ->.
  { rewrite Tokenize_fields by done. unfold text_fields. f_equal. apply split_on_ext. apply (Forall_impl _ _ _ Hb).
    intros ch Hc. destruct (decide (ch = 32)) as [->|]; [done|]. destruct (decide (ch = 9)) as [->|]; [done|].
    apply eq_true_iff_eq. rewrite bool_decide_eq_true, orb_true_iff, !Z.eqb_eq, !elem_of_cons. split; [|tauto].
    intros [?|[?|[?|[?|?%not_elem_of_nil]]]]; tauto. }
  destruct (decide (text_fields _ _ = [])) as [->|Hf]; [apply IH|].
  rewrite tokens_read by (by apply fields_no_blanks). destruct (foldl (load_step gw) (any, routes) _) as [any' routes'].
  apply IH.
Qed.

Lemma load_read routes cidrs gw :
  AddAllRoutes StringToAddress spec_add routes cidrs gw = spec_load StringToAddress routes cidrs gw.
Proof.
  unfold AddAllRoutes. case_decide as E; [by subst|]. rewrite Tokenize_fields by done.
  assert (text_fields (λ ch, bool_decide (ch ∈ [13; 10])) cidrs = text_fields (λ ch, (ch =? 13) || (ch =? 10)) cidrs) as ->.
  { unfold text_fields. f_equal. apply split_on_ext, Forall_true. intros ch.
    apply eq_true_iff_eq. rewrite bool_decide_eq_true, orb_true_iff, !Z.eqb_eq, !elem_of_cons. split; [|tauto].
    intros [?|[?|?%not_elem_of_nil]]; tauto. }
  change (spec_load StringToAddress routes cidrs gw) with
    (foldl (load_step gw) (false, routes) (text_fields (λ ch, (ch =? 13) || (ch =? 10)) cidrs ≫= line_routes)).
  case_decide as El; [by rewrite El|]. apply lines_read.
Qed.
End text_read.

(** ** Sequences of calls *)

Inductive RouteOp :=
| OpAdd (ip prefix gw : Z) | OpAddText (cidrs : list Z) (gw : Z)
| OpDelete (ip : Z) | OpDeleteGw (ip gw : Z) | OpDeletePrefix (ip prefix gw : Z)
| OpClear | OpIsAvailable | OpFill | OpFibClear | OpGetNextHop (ip : Z).

Inductive RouteResult := RBool (b : bool) | RHop (gw : Z) | RUnit.

Section route_machines.
Context (StringToAddress : list Z → option (option Z)).

(** A route information base and a forwarding table filled from it. *)
Record Tables := mkTables { rib : RouteEntriesTable; fib : RouteEntriesTable }.

Definition on_rib (t : Tables) (r : bool * RouteEntriesTable) : RouteResult * Tables := (RBool r.1, mkTables r.2 (fib t)).

Definition route_step (t : Tables) (op : RouteOp) : RouteResult * Tables :=
  match op with
  | OpAdd ip prefix gw => on_rib t (AddRoute (rib t) ip prefix gw)
  | OpAddText cidrs gw => on_rib t (AddAllRoutes StringToAddress AddRoute (rib t) cidrs gw)
  | OpDelete ip => on_rib t (DeleteRoute (rib t) ip)
  | OpDeleteGw ip gw => on_rib t (DeleteRoute_gw (rib t) ip gw)
  | OpDeletePrefix ip prefix gw => on_rib t (DeleteRoute_prefix (rib t) ip prefix gw)
  | OpClear => (RUnit, mkTables (Rib_Clear (rib t)) (fib t))
  | OpIsAvailable => (RBool (IsAvailable (rib t)), t)
  | OpFill => (RUnit, mkTables (rib t) (Fill (rib t)))
  | OpFibClear => (RUnit, mkTables (rib t) ∅)
  | OpGetNextHop ip => (RHop (GetNextHop ip (fib t)), t)
  end.

Definition spec_on (t : Routes * Routes) (r : bool * Routes) : RouteResult * (Routes * Routes) := (RBool r.1, (r.2, t.2)).

Definition spec_step (t : Routes * Routes) (op : RouteOp) : RouteResult * (Routes * Routes) :=
  match op with
  | OpAdd ip prefix gw => spec_on t (spec_add t.1 ip prefix gw)
  | OpAddText cidrs gw => spec_on t (spec_load StringToAddress t.1 cidrs gw)
  | OpDelete ip => spec_on t (spec_remove (to_network ip) t.1)
  | OpDeleteGw ip gw => spec_on t (spec_remove (through ip gw) t.1)
  | OpDeletePrefix ip prefix gw => spec_on t (spec_remove (the_route ip prefix gw) t.1)
  | OpClear => (RUnit, (∅, t.2))
  | OpIsAvailable => (RBool (negb (bool_decide (t.1 = ∅))), t)
  | OpFill => (RUnit, (t.1, t.1))
  | OpFibClear => (RUnit, (t.1, ∅))
  | OpGetNextHop ip => (RHop (spec_next_hop ip t.2), t)
  end.

Definition tables_rel (t : Tables) (s : Routes * Routes) : Prop := rib_rel (rib t) s.1 ∧ fib_rel (fib t) s.2.

Lemma fib_empty : fib_rel ∅ ∅.
Proof. split; [apply rib_empty|apply map_Forall_empty]. Qed.

Lemma route_step_refines t s op :
  tables_rel t s → (route_step t op).1 = (spec_step s op).1 ∧ tables_rel (route_step t op).2 (spec_step s op).2.
Proof.
  intros [Hr Hf].
  assert (∀ r r', r.1 = r'.1 ∧ rib_rel r.2 r'.2 →
    (on_rib t r).1 = (spec_on s r').1 ∧ tables_rel (on_rib t r).2 (spec_on s r').2) as Hon.
  { intros r r' [E H]. unfold on_rib, spec_on. cbn. rewrite E. by split. }
  destruct op; cbn [route_step spec_step]; try (apply Hon).
  - by apply add_route_refines.
  - rewrite <- load_read. apply (all_routes_agree _ rib_rel); [|done]. intros. by apply add_route_refines.
  - by apply delete_route_refines.
  - by apply delete_gw_refines.
  - by apply delete_prefix_refines.
  - split; [done|]. split; [apply rib_empty|done].
  - split; [by rewrite (available_refines _ s.1)|by split].
  - split; [done|]. split; [done|by apply fill_refines].
  - split; [done|]. split; [done|apply fib_empty].
  - split; [|by split]. unfold GetNextHop, GetNextHop_range, spec_next_hop. cbn [fst]. f_equal. by apply next_hop_refines.
Qed.

(** C8: the route tables implement a map from (network, prefix length) to next hop with
    longest-prefix-match lookup.  For every sequence of insertions, loads of route text, the three
    deletions, clears, fills of the forwarding table and lookups, every call returns what the same
    call on the map returns: an insertion accepts exactly the addresses whose bits after the first
    [prefix] ones, counted as the address is written, are zero (with a length from 0 to 32, a next
    hop, and not the none address), and updates in place; a load reads the lines, comments, routes
    and lengths as [text_routes] and [spec_route] describe them, adds the routes in order and
    succeeds when one of them is accepted; a deletion removes exactly the routes it names and
    reports whether there were any; and a lookup in the forwarding table returns the next hop of
    the longest prefix of the destination that has a route in the snapshot it was filled from, or
    the none address.  The specification shares neither the masks nor the text handling of the
    code, only the parser of one address. *)
Theorem route_tables_refine ops :
  (run route_step (mkTables ∅ ∅) ops).1 = (run spec_step (∅, ∅) ops).1.
Proof.
  assert (tables_rel (mkTables ∅ ∅) (∅, ∅)) as Hrel by (split; [apply rib_empty|apply fib_empty]).
  revert Hrel. generalize (mkTables ∅ ∅) ((∅, ∅) : Routes * Routes).
  induction ops as [|op ops IH]; intros t s Hrel; [done|]. rewrite !run_results_cons.
  destruct (route_step_refines t s op Hrel) as [-> Hrel']. f_equal. by apply IH.
Qed.
End route_machines.

(** ** Examples *)

Definition text_of (s : string) : list Z := (λ c, Z.of_N (Ascii.N_of_ascii c)) <$> String.list_ascii_of_string s.

(** 10.0.0.0, 10.0.1.1 and three gateways. *)
Definition net10 : Z := load32 [10; 0; 0; 0].
Definition host10 : Z := load32 [10; 0; 1; 1].
Definition gw1 : Z := load32 [192; 168; 0; 1].
Definition gw2 : Z := load32 [192; 168; 0; 2].

Definition sample_address (s : list Z) : option (option Z) :=
  if bool_decide (s = text_of "10.0.0.0") then Some (Some net10) else None.

Example route_tables_example :
  (run (route_step sample_address) (mkTables ∅ ∅)
     [OpAddText (text_of "10.0.0.0/8") gw1; OpAdd net10 16 gw2; OpFill; OpGetNextHop host10;
      OpDeletePrefix net10 16 gw2; OpGetNextHop host10; OpFill; OpGetNextHop host10; OpDeleteGw net10 gw1; OpIsAvailable]).1 =
  [RBool true; RBool true; RUnit; RHop gw2; RBool true; RHop gw2; RUnit; RHop gw1; RBool true; RBool false].
Proof. vm_compute. reflexivity. Qed.

(** A lookup limited to prefixes of at least 16 bits answers with a route of 8 bits. *)
Lemma range_lookup_shorter :
  GetNextHop_range host10 16 32 (Fill (AddRoute ∅ net10 8 gw1).2) = gw1.
Proof. vm_compute. reflexivity. Qed.

(** Space and tab are listed as separators of the routes of a line, but every space is removed
    from the line before it is split: two routes separated by a space are read as one and refused. *)
Lemma spaces_do_not_separate StringToAddress routes gw :
  AddAllRoutes StringToAddress AddRoute routes (text_of "10.0.0.0/8 10.1.0.0/16") gw = (false, routes).
Proof. vm_compute. reflexivity. Qed.

(** A lookup in the route information base itself, whose buckets are in insertion order, can miss
    the longest prefix. *)
Lemma unsorted_lookup_not_longest :
  let routes := (AddRoute (AddRoute ∅ net10 8 gw1).2 net10 16 gw2).2 in
  GetNextHop host10 routes = gw1 ∧ GetNextHop host10 (Fill routes) = gw2.
Proof. vm_compute. split; reflexivity. Qed.
