(* ===== verification/PeerRouting.v ===== *)
(** Site-to-site peer routing on the server: the announce policy
    ([src/ppp/app/server/PeerRouteAnnouncePolicy.h]), the route entries
    ([src/ppp/app/protocol/PeerPrefixRoute.h]) and the gateway table of
    [src/ppp/app/server/VirtualEthernetSwitcher.cpp].

    Parameters: the two parsers of a dotted address (the address library's, which gives host byte
    order, and the operating system's, network byte order), the printer of an address, the GUID
    of a session, the library's multicast test and the iteration order of the hash maps. *)

From S2P Require Import Prelude PacketChecksum PacketFrames PacketPathMtu RouteTable.

Abbreviation text := (list Z).

(** ** Route entries *)

Record PeerPrefixRouteEntry := mkPeerPrefixRouteEntry { network : text; prefix : Z; via : text }.

Definition HasAny (e : PeerPrefixRouteEntry) : bool := negb (bool_decide (network e = [])) && (0 <? prefix e).

Record PeerRouteAllowEntry := mkPeerRouteAllowEntry { allow_network : text; allow_prefix : Z; allow_guid : text }.

(** ** GUIDs *)

Fixpoint LTrim (s : text) : text := match s with ch :: s' => if isspace ch then LTrim s' else s | [] => [] end.
Definition RTrim (s : text) : text := rev (LTrim (rev s)).

Definition NormalizePeerRouteGuid (guid : text) : text :=
  let out := omap (λ ch, if (ch =? 123) || (ch =? 125) then None
                         else Some (if (65 <=? ch) && (ch <=? 90) then ch - 65 + 97 else ch)) guid in
  LTrim (RTrim out).

(** ** Policy *)

(** Networks of the policy are in host byte order. *)
Definition host_mask (prefix : Z) : Z := ntohl (PrefixToNetmask prefix).

Definition in_range (network prefix base base_prefix : Z) : bool :=
  let base_mask := host_mask base_prefix in
  (base_prefix <=? prefix) && (Z.land network base_mask =? Z.land base base_mask).

Definition IsDangerousPeerPrefix (network prefix : Z) : bool :=
  if (prefix <=? 0) || (MAX_PREFIX_VALUE <? prefix) then true
  else
    let mask := host_mask prefix in
    if Z.land network mask =? 0 then true
    else in_range network prefix 0 8 || in_range network prefix 2130706432 8 || in_range network prefix 2851995648 16 ||
         in_range network prefix 3758096384 4 || in_range network prefix 4026531840 4.

Section peer_routing.
Context (make_address StringToAddress : text → option (option Z)) (ToAddressString : Z → text)
        (guid_of : Z → text) (is_multicast : Z → bool).

Definition ParsePeerPrefixNetwork (network_text : text) (prefix : Z) : option Z :=
  if bool_decide (network_text = []) || (prefix <=? 0) || (MAX_PREFIX_VALUE <? prefix) then None
  else
    match make_address network_text with
    | Some (Some raw) => Some (Z.land raw (host_mask prefix))
    | _ => None
    end.

Definition allow_matches (session_key : text) (requested_network prefix : Z) (allowed : PeerRouteAllowEntry) : bool :=
  let allowed_guid := NormalizePeerRouteGuid (allow_guid allowed) in
  if bool_decide (allowed_guid = []) || negb (bool_decide (allowed_guid = session_key)) then false
  else if negb (allow_prefix allowed =? prefix) then false
  else match ParsePeerPrefixNetwork (allow_network allowed) (allow_prefix allowed) with
       | Some allowed_network => allowed_network =? requested_network
       | None => false
       end.

Definition IsPeerRouteAnnouncementAllowed (allowed_routes : list PeerRouteAllowEntry) (session_guid : text)
    (e : PeerPrefixRouteEntry) : bool :=
  let session_key := NormalizePeerRouteGuid session_guid in
  if bool_decide (session_key = []) || negb (HasAny e) then false
  else
    match ParsePeerPrefixNetwork (network e) (prefix e) with
    | None => false
    | Some requested_network =>
        if IsDangerousPeerPrefix requested_network (prefix e) then false
        else existsb (allow_matches session_key requested_network (prefix e)) allowed_routes
    end.

(** The network of an entry in network byte order; 0 when it has none. *)
Definition NetworkHost (e : PeerPrefixRouteEntry) : Z :=
  if bool_decide (network e = []) then 0
  else match StringToAddress (network e) with
       | Some (Some raw) => Z.land raw (PrefixToNetmask (prefix e))
       | _ => 0
       end.

Definition MatchesDestination (e : PeerPrefixRouteEntry) (destination : Z) : bool :=
  if negb (HasAny e) then false
  else
    let n := NetworkHost e in
    if (n =? 0) || (prefix e <=? 0) || (MAX_PREFIX_VALUE <? prefix e) then false
    else let mask := PrefixToNetmask (prefix e) in Z.land destination mask =? Z.land n mask.

(** ** Configuration and state *)

Record PeerRoutingConfig := mkPeerRoutingConfig {
  peer_routing_enabled : bool; subnet : bool; distribute : bool; allowed_routes : list PeerRouteAllowEntry }.

Context (cfg : PeerRoutingConfig).

Definition IsPeerRoutingEnabled : bool := peer_routing_enabled cfg && subnet cfg.

(** An exchanger: its address, its session and whether it was disposed. *)
Record PeerExchanger := mkPeerExchanger { ex_ptr : Z; ex_id : Z; ex_disposed : bool; ex_transmission : bool }.

Record PeerPrefixGatewayRecord := mkPeerPrefixGatewayRecord { SessionId : Z; VirtualIP : Z; Prefixes : list PeerPrefixRouteEntry }.

Record Switcher := mkSwitcher {
  peer_prefix_gateways : gmap Z PeerPrefixGatewayRecord;
  peer_prefix_rib : RouteEntriesTable }.

(** The iteration order of the gateway table. *)
Context (order : gmap Z PeerPrefixGatewayRecord → list (Z * PeerPrefixGatewayRecord)).

Definition add_prefix (virtual_ip : Z) (rib : RouteEntriesTable) (e : PeerPrefixRouteEntry) : RouteEntriesTable :=
  if (prefix e <=? 0) || (MAX_PREFIX_VALUE <? prefix e) then rib
  else
    let n := NetworkHost e in
    if n =? 0 then rib else (AddRoute rib n (prefix e) virtual_ip).2.

Definition add_record (rib : RouteEntriesTable) (kv : Z * PeerPrefixGatewayRecord) : RouteEntriesTable :=
  let record := kv.2 in
  if VirtualIP record =? 0 then rib else foldl (add_prefix (VirtualIP record)) rib (Prefixes record).

Definition RebuildPeerPrefixRibLocked (gateways : gmap Z PeerPrefixGatewayRecord) : Switcher :=
  mkSwitcher gateways (foldl add_record ∅ (order gateways)).

Definition FindGatewayVirtualIPForDestination (s : Switcher) (destination : Z) : Z :=
  if negb IsPeerRoutingEnabled then 0
  else if negb (IsAvailable (peer_prefix_rib s)) then 0
  else GetNextHop destination (peer_prefix_rib s).

(** ** Snapshots *)

Record PeerRouteTableMessage := mkPeerRouteTableMessage { table_enabled : bool; table_routes : list PeerPrefixRouteEntry }.

Definition BindPeerRouteGateway (route : PeerPrefixRouteEntry) (virtual_ip : Z) : PeerPrefixRouteEntry :=
  mkPeerPrefixRouteEntry (network route) (prefix route) (ToAddressString virtual_ip).

Definition BuildPeerRouteTableSnapshot (s : Switcher) (exclude_session_id : option Z) : PeerRouteTableMessage :=
  if negb IsPeerRoutingEnabled then mkPeerRouteTableMessage false []
  else
    mkPeerRouteTableMessage true
      (mjoin ((λ kv : Z * PeerPrefixGatewayRecord,
         if bool_decide (exclude_session_id = Some kv.1) then []
         else (λ e, BindPeerRouteGateway e (VirtualIP kv.2)) <$> Prefixes kv.2) <$> order (peer_prefix_gateways s))).

(** The tables sent to the live exchangers. *)
Definition BroadcastPeerRouteTable (s : Switcher) (exchangers : list PeerExchanger) : list (Z * PeerRouteTableMessage) :=
  if negb IsPeerRoutingEnabled || negb (distribute cfg) then []
  else
    let targets := filter (λ e, ex_disposed e = false) exchangers in
    omap (λ target, if ex_transmission target then Some (ex_id target, BuildPeerRouteTableSnapshot s (Some (ex_id target))) else None) targets.

(** ** Operations *)

Definition DeletePeerPrefixGateway (s : Switcher) (exchangers : list PeerExchanger) (session_id : Z) :
    bool * list (Z * PeerRouteTableMessage) * Switcher :=
  match peer_prefix_gateways s !! session_id with
  | None => (false, [], s)
  | Some _ =>
      let s := RebuildPeerPrefixRibLocked (delete session_id (peer_prefix_gateways s)) in
      (true, if distribute cfg then BroadcastPeerRouteTable s exchangers else [], s)
  end.

Inductive AnnounceAction := ActionRegister | ActionRegistered | ActionReject | ActionOther.

Record PeerRouteAnnounceMessage := mkPeerRouteAnnounceMessage {
  announce_enabled : bool; announce_action : AnnounceAction; announce_prefixes : list PeerPrefixRouteEntry }.

(** [nats_] in iteration order: an address and the exchanger that owns it. *)
Definition find_virtual_ip (nats : list (Z * Z)) (exchanger : Z) : Z :=
  match find (λ kv, kv.2 =? exchanger) nats with Some kv => kv.1 | None => 0 end.

Record AnnounceOutcome := mkAnnounceOutcome {
  announce_ok : bool; response : PeerRouteAnnounceMessage; response_table : option PeerRouteTableMessage;
  broadcasts : list (Z * PeerRouteTableMessage) }.

Definition UpdatePeerRouteAnnounce (s : Switcher) (nats : list (Z * Z)) (exchangers : list PeerExchanger)
    (exchanger : option PeerExchanger) (request : PeerRouteAnnounceMessage) : AnnounceOutcome * Switcher :=
  if negb IsPeerRoutingEnabled then
    (mkAnnounceOutcome false (mkPeerRouteAnnounceMessage false ActionReject (announce_prefixes request)) None [], s)
  else
    match announce_enabled request, announce_action request, exchanger with
    | true, ActionRegister, Some ex =>
        if ex_disposed ex then (mkAnnounceOutcome false request None [], s)
        else
          let session_id := ex_id ex in
          let virtual_ip := find_virtual_ip nats (ex_ptr ex) in
          if (virtual_ip =? 0) || ((virtual_ip =? NoneAddress) || (virtual_ip =? AnyAddress) || is_multicast virtual_ip) then
            (mkAnnounceOutcome false (mkPeerRouteAnnounceMessage true ActionReject (announce_prefixes request)) None [], s)
          else
            let accepted := filter (λ e, HasAny e && IsPeerRouteAnnouncementAllowed (allowed_routes cfg) (guid_of session_id) e = true)
                                   (announce_prefixes request) in
            if decide (accepted = []) then
              (mkAnnounceOutcome false (mkPeerRouteAnnounceMessage true ActionReject []) None [], s)
            else
              let record := mkPeerPrefixGatewayRecord session_id virtual_ip accepted in
              let s := RebuildPeerPrefixRibLocked (<[session_id := record]> (peer_prefix_gateways s)) in
              (mkAnnounceOutcome true (mkPeerRouteAnnounceMessage true ActionRegistered accepted)
                 (Some (BuildPeerRouteTableSnapshot s (Some session_id)))
                 (if distribute cfg then BroadcastPeerRouteTable s exchangers else []), s)
    | _, _, _ => (mkAnnounceOutcome false request None [], s)
    end.
End peer_routing.

(** ** Byte order *)

Lemma land_horner a b x y :
  is_byte x → is_byte y → Z.land (Z.lor (Z.shiftl a 8) x) (Z.lor (Z.shiftl b 8) y) = Z.lor (Z.shiftl (Z.land a b) 8) (Z.land x y).
Proof.
  intros Hx Hy. apply Z.bits_inj'. intros i Hi. rewrite Z.land_spec, !Z.lor_spec, Z.land_spec.
  destruct (Z.lt_ge_cases i 8).
  - by rewrite !Z.shiftl_spec_low by lia.
  - rewrite !Z.shiftl_spec_high, Z.land_spec by lia. rewrite (testbit_high_zero 8 x), (testbit_high_zero 8 y) by done. by rewrite !orb_false_r.
Qed.

Lemma byte_of_land a b k : 0 ≤ k → Z.land (Z.shiftr (Z.land a b) k) 255 = Z.land (Z.land (Z.shiftr a k) 255) (Z.land (Z.shiftr b k) 255).
Proof.
  intros Hk. apply Z.bits_inj'. intros i Hi. rewrite !Z.land_spec, !Z.shiftr_spec, Z.land_spec by done.
  destruct (Z.testbit a (i + k)), (Z.testbit b (i + k)), (Z.testbit 255 i); done.
Qed.

Lemma low_byte x : is_byte (Z.land x 255).
Proof. rewrite land_255. apply Z.mod_pos_bound. lia. Qed.

(** Reversing the bytes commutes with masking. *)
Lemma ntohl_land a b : ntohl (Z.land a b) = Z.land (ntohl a) (ntohl b).
Proof.
  assert (∀ x, be_bytes 4 x = [Z.land (Z.shiftr x 24) 255; Z.land (Z.shiftr x 16) 255; Z.land (Z.shiftr x 8) 255; Z.land (Z.shiftr x 0) 255]) as Hb by done.
  unfold ntohl, store32, be_value. rewrite !Hb. cbn [rev app fold_left]. rewrite !byte_of_land by lia.
  rewrite !land_horner by apply low_byte. by rewrite Z.land_0_l.
Qed.

Lemma host_mask_swap p : 0 ≤ p ≤ 32 → ntohl (host_mask p) = PrefixToNetmask p.
Proof.
  intros Hp. assert (forallb (λ p, ntohl (host_mask (Z.of_nat p)) =? PrefixToNetmask (Z.of_nat p)) (seq 0 33) = true) as H
    by (vm_compute; reflexivity).
  rewrite forallb_forall in H. specialize (H (Z.to_nat p) ltac:(apply in_seq; lia)). rewrite Z2Nat.id in H by lia. by apply Z.eqb_eq.
Qed.

Lemma is_uint_land w x m : 0 ≤ w → is_uint w x → is_uint w (Z.land x m).
Proof.
  intros Hw Hx. assert (Z.land x m = Z.land x m mod 2 ^ w) as ->; [|apply Z.mod_pos_bound; lia].
  rewrite <- Z.land_ones, <- Z.land_assoc, (Z.land_comm m), Z.land_assoc, Z.land_ones, (Z.mod_small x) by done. done.
Qed.

Lemma ntohl_involutive x : is_uint 32 x → ntohl (ntohl x) = x.
Proof.
  intros Hx. unfold ntohl, store32. rewrite <- (length_be_bytes 4 x) at 1. rewrite <- length_rev, be_bytes_value.
  - rewrite rev_involutive. by apply be_value_bytes.
  - apply Forall_rev, bytes_ok_be_bytes.
Qed.

(** ** Provenance of the installed routes *)

Section provenance.
Context (make_address StringToAddress : text → option (option Z)) (ToAddressString : Z → text)
        (guid_of : Z → text) (is_multicast : Z → bool) (cfg : PeerRoutingConfig)
        (order : gmap Z PeerPrefixGatewayRecord → list (Z * PeerPrefixGatewayRecord)).

(** Both parsers read the same dotted addresses, one into host and one into network byte order. *)
Context (Hparsers : ∀ s raw, make_address s = Some (Some raw) → is_uint 32 raw ∧ StringToAddress s = Some (Some (ntohl raw))).

(** Iterating a table visits each of its entries once. *)
Context (Horder : ∀ m, order m ≡ₚ map_to_list m).

Definition accepted_for (sid : Z) (e : PeerPrefixRouteEntry) : Prop :=
  HasAny e = true ∧ IsPeerRouteAnnouncementAllowed make_address (allowed_routes cfg) (guid_of sid) e = true.

Record gateway_ok (sid : Z) (r : PeerPrefixGatewayRecord) : Prop := {
  gateway_session : SessionId r = sid;
  gateway_address : VirtualIP r ≠ 0;
  gateway_prefixes : Forall (accepted_for sid) (Prefixes r) }.

Definition switcher_ok (s : Switcher) : Prop :=
  map_Forall gateway_ok (peer_prefix_gateways s) ∧
  peer_prefix_rib s = foldl (add_record StringToAddress) ∅ (order (peer_prefix_gateways s)).

(** A route comes from an entry of a record. *)
Definition comes_from (records : list (Z * PeerPrefixGatewayRecord)) (d p gw : Z) : Prop :=
  ∃ sid r e, (sid, r) ∈ records ∧ VirtualIP r = gw ∧ e ∈ Prefixes r ∧ prefix e = p ∧ NetworkHost StringToAddress e = d ∧ d ≠ 0 ∧ 0 < p ≤ 32.

Definition rib_from (records : list (Z * PeerPrefixGatewayRecord)) (rib : RouteEntriesTable) : Prop :=
  ∃ spec, rib_rel rib spec ∧ ∀ d p gw, spec !! (d, p) = Some gw → comes_from records d p gw.

Lemma add_prefix_from records rib sid r e :
  (sid, r) ∈ records → e ∈ Prefixes r → rib_from records rib → rib_from records (add_prefix StringToAddress (VirtualIP r) rib e).
Proof.
  intros Hr He (spec & Hrel & Hs). unfold add_prefix. case_if as E1; [by exists spec|]. case_if as E2; [by exists spec|].
  destruct (add_route_refines rib spec (NetworkHost StringToAddress e) (prefix e) (VirtualIP r) Hrel) as [_ Hrel'].
  eexists. split; [exact Hrel'|]. intros d p gw. unfold spec_add. case_bool_decide; [|apply Hs]. cbn [snd].
  intros [[[= <- <-] <-]|[_ Hl]]%lookup_insert_Some; [|by apply Hs].
  unfold MAX_PREFIX_VALUE in *. bool_props. exists sid, r, e. split_and!; done || lia.
Qed.

Lemma rebuild_from records : rib_from records (foldl (add_record StringToAddress) ∅ records).
Proof.
  assert (∀ l rib, l ⊆ records → rib_from records rib → rib_from records (foldl (add_record StringToAddress) rib l)) as Hgen.
  { intros l. induction l as [|[sid r] l IH]; intros rib Hl Hrib; [done|]. cbn. apply IH; [set_solver|].
    unfold add_record. cbn [snd]. case_if as E; [done|].
    assert (∀ es, es ⊆ Prefixes r → ∀ rib, rib_from records rib → rib_from records (foldl (add_prefix StringToAddress (VirtualIP r)) rib es)) as Hes.
    { induction es as [|e es IHe]; intros Hes rib' Hrib'; [done|]. cbn. apply IHe; [set_solver|].
      apply (add_prefix_from _ _ sid); [set_solver|set_solver|done]. }
    by apply Hes. }
  apply Hgen; [done|]. exists ∅. split; [apply rib_empty|]. intros d p gw Hl. by rewrite lookup_empty in Hl.
Qed.
Lemma allowed_spec allowed guid e :
  IsPeerRouteAnnouncementAllowed make_address allowed guid e = true →
  ∃ req a, ParsePeerPrefixNetwork make_address (network e) (prefix e) = Some req ∧ IsDangerousPeerPrefix req (prefix e) = false ∧
    a ∈ allowed ∧ NormalizePeerRouteGuid (allow_guid a) = NormalizePeerRouteGuid guid ∧ NormalizePeerRouteGuid guid ≠ [] ∧
    allow_prefix a = prefix e ∧ ParsePeerPrefixNetwork make_address (allow_network a) (prefix e) = Some req.
Proof.
  unfold IsPeerRouteAnnouncementAllowed. case_if as E0; [done|].
  destruct (ParsePeerPrefixNetwork make_address (network e) (prefix e)) as [req|] eqn:Ep; [|done].
  destruct (IsDangerousPeerPrefix req (prefix e)) eqn:Ed; [done|].
  intros (a & Ha%list_elem_of_In & Hm)%existsb_exists. exists req, a. revert Hm. unfold allow_matches.
  case_if as E1; [done|]. case_if as E2; [done|]. apply orb_false_iff in E0 as [E0 _]. apply orb_false_iff in E1 as [_ E1].
  bool_props. rewrite E2. destruct (ParsePeerPrefixNetwork make_address (allow_network a) (prefix e)) as [n|]; [|done].
  intros Hn. bool_props. subst. split_and!; done.
Qed.

(** The network of an accepted entry, in both byte orders. *)
Lemma parsed_network e req :
  ParsePeerPrefixNetwork make_address (network e) (prefix e) = Some req →
  0 < prefix e ≤ 32 ∧ is_uint 32 req ∧ NetworkHost StringToAddress e = ntohl req.
Proof.
  unfold ParsePeerPrefixNetwork, NetworkHost, MAX_PREFIX_VALUE. case_if as E; [done|]. apply orb_false_iff in E as [E E3].
  apply orb_false_iff in E as [E1 E2]. rewrite E1. bool_props.
  destruct (make_address (network e)) as [[raw|]|] eqn:Em; [|done|done]. intros [= <-].
  destruct (Hparsers _ _ Em) as [Hr ->]. split_and!; [lia|lia| |].
  - by apply is_uint_land.
  - rewrite ntohl_land, host_mask_swap by lia. done.
Qed.

Inductive PeerEvent :=
| EvAnnounce (nats : list (Z * Z)) (exchangers : list PeerExchanger) (exchanger : option PeerExchanger) (request : PeerRouteAnnounceMessage)
| EvDelete (exchangers : list PeerExchanger) (session_id : Z).

Definition peer_step (s : Switcher) (ev : PeerEvent) : bool * Switcher :=
  match ev with
  | EvAnnounce nats exchangers exchanger request =>
      let '(o, s) := UpdatePeerRouteAnnounce make_address StringToAddress ToAddressString guid_of is_multicast cfg order
                       s nats exchangers exchanger request in (announce_ok o, s)
  | EvDelete exchangers session_id =>
      let '(b, _, s) := DeletePeerPrefixGateway StringToAddress ToAddressString cfg order s exchangers session_id in (b, s)
  end.

Lemma rebuild_ok gateways : map_Forall gateway_ok gateways → switcher_ok (RebuildPeerPrefixRibLocked StringToAddress order gateways).
Proof. intros. by split. Qed.

Lemma peer_step_ok s ev : switcher_ok s → switcher_ok (peer_step s ev).2.
Proof.
  intros Hok. pose proof Hok as [Hg _]. destruct ev as [nats exchangers exchanger request|exchangers sid]; cbn [peer_step].
  - unfold UpdatePeerRouteAnnounce. case_if as E0; [done|].
    destruct (announce_enabled request), (announce_action request), exchanger as [ex|]; try done.
    case_if as E1; [done|]. case_if as E2; [done|]. case_decide as Ea; [done|]. cbn [snd].
    apply rebuild_ok, map_Forall_insert_2; [|done]. apply orb_false_iff in E2 as [E2 _]. bool_props. split; [done|done|].
    apply Forall_forall. intros e [He _]%list_elem_of_filter. unfold accepted_for. by apply andb_true_iff in He.
  - unfold DeletePeerPrefixGateway. destruct (_ !! sid); [|done]. cbn [snd]. by apply rebuild_ok, map_Forall_delete.
Qed.

Definition no_peers : Switcher := mkSwitcher ∅ ∅.

Lemma peer_exec_ok es : switcher_ok (exec peer_step no_peers es).
Proof.
  induction es as [|ev es IH] using rev_ind; [|rewrite exec_snoc; by apply peer_step_ok].
  split; [apply map_Forall_empty|]. cbn. specialize (Horder ∅). rewrite map_to_list_empty in Horder.
  apply Permutation_nil_r in Horder. by rewrite Horder.
Qed.

(** *** Where the gateways come from *)

(** The last announcement of session [sid] that was accepted, and what came before and after it: the record holds the address
    that the NAT table gave the exchanger, and prefixes of the announcement; the session has not been deleted since. *)
Definition announced (es : list PeerEvent) (sid : Z) (r : PeerPrefixGatewayRecord) : Prop :=
  ∃ earlier later nats exchangers ex request,
    es = earlier ++ EvAnnounce nats exchangers (Some ex) request :: later ∧
    ex_id ex = sid ∧ ex_disposed ex = false ∧ announce_enabled request = true ∧ announce_action request = ActionRegister ∧
    (VirtualIP r, ex_ptr ex) ∈ nats ∧ Prefixes r ⊆ announce_prefixes request ∧
    Forall (λ ev, ∀ exchangers', ev ≠ EvDelete exchangers' sid) later.

Lemma announced_snoc es ev sid r :
  announced es sid r → (∀ exchangers, ev ≠ EvDelete exchangers sid) → announced (es ++ [ev]) sid r.
Proof.
  intros (earlier & later & nats & exs & ex & req & -> & H1 & H2 & H3 & H4 & H5 & H6 & H7) Hev.
  exists earlier, (later ++ [ev]), nats, exs, ex, req. split; [by rewrite <- app_assoc|]. split_and!; try done.
  apply Forall_app. split; [done|]. by apply Forall_singleton.
Qed.

Lemma find_virtual_ip_in nats ptr : find_virtual_ip nats ptr ≠ 0 → (find_virtual_ip nats ptr, ptr) ∈ nats.
Proof.
  unfold find_virtual_ip. destruct (find _ nats) as [[ip p]|] eqn:E; [|done]. intros _. apply find_some in E as [Hin Hp].
  cbn in *. bool_props. subst. by apply list_elem_of_In.
Qed.

Lemma peer_exec_announced es sid r : peer_prefix_gateways (exec peer_step no_peers es) !! sid = Some r → announced es sid r.
Proof.
  revert sid r. induction es as [|ev es IH] using rev_ind; intros sid r; [done|]. rewrite exec_snoc.
  set (s := exec peer_step no_peers es) in *. destruct ev as [nats exchangers exchanger request|exchangers sid']; cbn [peer_step].
  - assert (announced es sid r → announced (es ++ [EvAnnounce nats exchangers exchanger request]) sid r) as Hold
      by (intros; by apply announced_snoc).
    unfold UpdatePeerRouteAnnounce. case_if as E0; [by intros ?%IH%Hold|].
    destruct (announce_enabled request) eqn:Een, (announce_action request) eqn:Ea, exchanger as [ex|]; try (by intros ?%IH%Hold).
    case_if as E1; [by intros ?%IH%Hold|]. case_if as E2; [by intros ?%IH%Hold|]. case_decide as Eacc; [by intros ?%IH%Hold|]. cbn.
    intros [[<- <-]|[Hne Hl]]%lookup_insert_Some; [|by apply IH, Hold in Hl].
    apply orb_false_iff in E2 as [E2 _]. bool_props. exists es, [], nats, exchangers, ex, request. cbn.
    split_and!; try done; [by apply find_virtual_ip_in|]. intros e [_ He]%list_elem_of_filter. done.
  - unfold DeletePeerPrefixGateway. destruct (peer_prefix_gateways s !! sid') as [r'|] eqn:E; cbn.
    + intros [Hne Hl]%lookup_delete_Some. apply announced_snoc; [by apply IH|]. congruence.
    + intros Hl. apply announced_snoc; [by apply IH|]. intros exs [= -> ->]. congruence.
Qed.

(** The ranges that no gateway may announce, with everything inside them: this network, loopback, link-local, multicast and
    reserved addresses, and the networks whose address is zero. *)
Definition refused_ranges : list (list Z * Z) :=
  [([0; 0; 0; 0], 8); ([127; 0; 0; 0], 8); ([169; 254; 0; 0], 16); ([224; 0; 0; 0], 4); ([240; 0; 0; 0], 4)].

Definition refused_network (address len : Z) : Prop :=
  network_of address len = 0 ∨ Exists (λ range, range.2 ≤ len ∧ network_of address range.2 = load32 range.1) refused_ranges.

Lemma host_network d q : is_uint 32 d → 0 ≤ q ≤ 32 → Z.land (ntohl d) (host_mask q) = ntohl (network_of d q).
Proof. intros Hd Hq. unfold host_mask. by rewrite <- ntohl_land, masked_network. Qed.

Lemma dangerous_refused d p req :
  is_uint 32 d → 0 < p ≤ 32 → Z.land (ntohl d) (host_mask p) = req → IsDangerousPeerPrefix req p = false → ¬ refused_network d p.
Proof.
  intros Hd Hp <-. unfold IsDangerousPeerPrefix, MAX_PREFIX_VALUE. case_if as E0; [done|]. case_if as E1; [done|].
  rewrite !orb_false_iff. intros ((((H1 & H2) & H3) & H4) & H5).
  assert (∀ q, 0 ≤ q ≤ p → Z.land (Z.land (ntohl d) (host_mask p)) (host_mask q) = ntohl (network_of d q)) as Hq.
  { intros q Hq. rewrite <- host_network by (done || lia). unfold host_mask.
    rewrite <- Z.land_assoc, <- ntohl_land, mask_nested by lia. done. }
  assert (∀ q base host, in_range (Z.land (ntohl d) (host_mask p)) p host q = false → 0 ≤ q → Z.land host (host_mask q) = ntohl base →
    ¬ (q ≤ p ∧ network_of d q = base)) as Hr.
  { intros q base host Hin Hq0 Hh [Hqp Hn]. unfold in_range in Hin. rewrite (proj2 (Z.leb_le q p)), Hq, Hn, Hh in Hin by lia.
    cbn in Hin. by rewrite Z.eqb_refl in Hin. }
  unfold refused_network, refused_ranges. rewrite !Exists_cons, Exists_nil. cbn [fst snd].
  intros [Hz|[H|[H|[H|[H|[H|H]]]]]]; [|revert H..|done];
    [|refine (Hr _ _ _ H1 _ _)|refine (Hr _ _ _ H2 _ _)|refine (Hr _ _ _ H3 _ _)|refine (Hr _ _ _ H4 _ _)|refine (Hr _ _ _ H5 _ _)];
    try done; try (vm_compute; reflexivity).
  bool_props. apply E1. rewrite Hq, Hz by lia. done.
Qed.

(** Where a lookup's answer comes from. *)
Definition authorised (es : list PeerEvent) (destination gw : Z) : Prop :=
  ∃ sid r e a raw allowed_raw,
    announced es sid r ∧ VirtualIP r = gw ∧ e ∈ Prefixes r ∧
    0 < prefix e ≤ 32 ∧ StringToAddress (network e) = Some (Some raw) ∧
    network_of raw (prefix e) = network_of destination (prefix e) ∧ ¬ refused_network destination (prefix e) ∧
    a ∈ allowed_routes cfg ∧ NormalizePeerRouteGuid (allow_guid a) = NormalizePeerRouteGuid (guid_of sid) ∧
    NormalizePeerRouteGuid (guid_of sid) ≠ [] ∧ allow_prefix a = prefix e ∧
    StringToAddress (allow_network a) = Some (Some allowed_raw) ∧
    network_of allowed_raw (prefix e) = network_of destination (prefix e).

Lemma parsed_raw t p req :
  ParsePeerPrefixNetwork make_address t p = Some req →
  ∃ raw, StringToAddress t = Some (Some (ntohl raw)) ∧ is_uint 32 raw ∧ Z.land raw (host_mask p) = req.
Proof.
  unfold ParsePeerPrefixNetwork. case_if as E; [done|]. destruct (make_address t) as [[raw|]|] eqn:Em; [|done|done].
  intros [= <-]. destruct (Hparsers _ _ Em) as [Hr ->]. by exists raw.
Qed.

Lemma network_of_host raw d p :
  is_uint 32 raw → 0 ≤ p ≤ 32 → Z.land raw (host_mask p) = Z.land (ntohl d) (host_mask p) → is_uint 32 d →
  network_of (ntohl raw) p = network_of d p.
Proof.
  intros Hr Hp E Hd. rewrite <- !masked_network, <- (host_mask_swap p), <- ntohl_land, E, ntohl_land, ntohl_involutive by done. done.
Qed.

Lemma find_authorised es destination gw :
  let s := exec peer_step no_peers es in
  is_uint 32 destination →
  FindGatewayVirtualIPForDestination cfg s destination = gw → gw ≠ 0 → gw ≠ NoneAddress → authorised es destination gw.
Proof.
  intros s Hdest. destruct (peer_exec_ok es) as [Hg Hrib]. fold s in Hg, Hrib.
  unfold FindGatewayVirtualIPForDestination. case_if as E0; [by intros <-|]. case_if as E1; [by intros <-|].
  intros <- _ Hnone. destruct (rebuild_from (order (peer_prefix_gateways s))) as (spec & [Hb Hr] & Hs). rewrite <- Hrib in Hb, Hr.
  destruct (next_hop_matches (peer_prefix_rib s) destination 33 32) as [(p & Hp & Hat)|[H1 _]]; [done..| |done].
  rewrite Hr in Hat. apply Hs in Hat as (sid & r & e & Hin & Hv & He & <- & Hnet & _ & Hpp).
  rewrite Horder, elem_of_map_to_list in Hin. destruct (Hg _ _ Hin) as [_ _ Hall]. rewrite Forall_forall in Hall.
  destruct (Hall e He) as [_ Hal]. apply allowed_spec in Hal as (req & a & Hparse & Hdang & Ha & Hguid & Hne & Hpre & Hpa).
  apply parsed_network in Hparse as Hn. destruct Hn as (_ & Hreq & Hn). rewrite Hn in Hnet.
  assert (Z.land (ntohl destination) (host_mask (prefix e)) = req) as Hd
    by (rewrite <- (ntohl_involutive req), Hnet, ntohl_land by done; done).
  apply parsed_raw in Hparse as (raw & Hraw & Hru & Hrn), Hpa as (araw & Haraw & Hau & Han).
  exists sid, r, e, a, (ntohl raw), (ntohl araw).
  split; [by apply peer_exec_announced|]. do 2 (split; [done|]). split; [done|]. split; [done|].
  split; [apply network_of_host; lia || congruence || done|]. split; [by eapply dangerous_refused|].
  split_and!; try done. apply network_of_host; lia || congruence || done.
Qed.

(** C9: peer routing never forwards to a gateway that was not authorised for the destination.
    After any sequence of announcements (with any NAT table, session, request and outcome) and
    session deletions, whenever the switcher names a gateway for a destination, that gateway is the
    address that the NAT table gave a live exchanger when the exchanger's session announced a prefix; the
    session has not been deleted since that announcement; the announced address and the destination
    agree in the first [prefix] bits; and the configuration's allow list has a row with that
    session's GUID, the same prefix length, and an address that also agrees with the destination in
    those bits.  The announced network is not zero and lies in none of the refused ranges
    (this-network, loopback, link-local, multicast, reserved); a network that contains such a range
    is not excluded ([reserved_block_accepted]). *)
Theorem peer_gateway_authorised es destination gw :
  is_uint 32 destination →
  let s := exec peer_step no_peers es in
  FindGatewayVirtualIPForDestination cfg s destination = gw → gw ≠ 0 → gw ≠ NoneAddress → authorised es destination gw.
Proof. intros Hd s. by apply find_authorised. Qed.
End provenance.

(** ** Examples *)

Definition sample_host_parser (s : text) : option (option Z) :=
  if bool_decide (s = text_of "10.0.0.0") then Some (Some 167772160) else None.
Definition sample_net_parser (s : text) : option (option Z) :=
  match sample_host_parser s with Some (Some raw) => Some (Some (ntohl raw)) | x => x end.

Definition sample_guid (sid : Z) : text := text_of (if sid =? 1 then "{00AA}" else "00bb").
Definition sample_allow : list PeerRouteAllowEntry :=
  [mkPeerRouteAllowEntry (text_of "10.0.0.0") 8 (text_of "00BB"); mkPeerRouteAllowEntry (text_of "10.0.0.0") 16 (text_of "00aa")].
Definition sample_cfg : PeerRoutingConfig := mkPeerRoutingConfig true true false sample_allow.
Definition sample_order (m : gmap Z PeerPrefixGatewayRecord) : list (Z * PeerPrefixGatewayRecord) := map_to_list m.

Definition sample_announce (sid ip p : Z) : PeerEvent :=
  EvAnnounce [(ip, sid)] [] (Some (mkPeerExchanger sid sid false true))
    (mkPeerRouteAnnounceMessage true ActionRegister [mkPeerPrefixRouteEntry (text_of "10.0.0.0") p []]).

Definition sample_step : Switcher → PeerEvent → bool * Switcher :=
  peer_step sample_host_parser sample_net_parser (λ _, []) sample_guid (λ _, false) sample_cfg sample_order.

Lemma peer_gateway_authorised_witness :
  let es := [sample_announce 2 gw1 8; sample_announce 1 gw2 8] in
  let s := exec sample_step no_peers es in
  FindGatewayVirtualIPForDestination sample_cfg s host10 = gw1 ∧
  authorised sample_net_parser sample_guid sample_cfg es host10 gw1.
Proof.
  intros es s. assert (FindGatewayVirtualIPForDestination sample_cfg s host10 = gw1) as E by (vm_compute; reflexivity).
  split; [exact E|].
  apply (peer_gateway_authorised sample_host_parser sample_net_parser (λ _, []) sample_guid (λ _, false) sample_cfg sample_order).
  - intros t raw Hm. unfold sample_net_parser. rewrite Hm. split; [|reflexivity]. unfold sample_host_parser in Hm.
    destruct (bool_decide _); [|discriminate]. injection Hm as <-. by apply (bool_decide_unpack _).
  - intros m. reflexivity.
  - by apply (bool_decide_unpack _).
  - exact E.
  - vm_compute. discriminate.
  - vm_compute. discriminate.
Defined.

(** The switcher looks its unsorted table up: with 10.0.0.0/8 announced by one gateway and
    10.0.0.0/16 by another, a destination in the second is sent to the first. *)
Lemma gateway_not_longest :
  let s := exec sample_step no_peers [sample_announce 2 gw1 8; sample_announce 1 gw2 16] in
  (NextHop <$> (default [] (peer_prefix_rib s !! net10))) = [gw1; gw2] ∧
  FindGatewayVirtualIPForDestination sample_cfg s host10 = gw1 ∧ spec_next_hop host10 {[(net10, 8) := gw1; (net10, 16) := gw2]} = gw2.
Proof. vm_compute. split_and!; reflexivity. Qed.

(** A block that holds only multicast and reserved addresses, 224.0.0.0/3, is not refused. *)
Lemma reserved_block_accepted : IsDangerousPeerPrefix 3758096384 3 = false ∧ IsDangerousPeerPrefix 3758096384 4 = true.
Proof. vm_compute. split; reflexivity. Qed.
