(* ===== verification/FakeIp.v ===== *)
(** The fake-IP pool of the DNS interceptor ([src/ppp/app/client/dns/FakeIpPool.h],
    [FakeIpPool.cpp]).

    Host names are lists of character codes and addresses are in host byte order.  The address
    library's parser of a dotted IPv4 address is a parameter.  Every method takes the mutex for its
    whole body, so it is one step. *)

From S2P Require Import Prelude PacketChecksum PacketFrames PacketPathMtu RouteTable.

Inductive RoutingAction := Auto | Direct | Proxy.

(** [Entry] and [EntrySnapshot] have the same members. *)
Record FakeEntry := mkFakeEntry {
  hostname : list Z; fake_ip_host : Z; real_ip_host : Z; action : RoutingAction;
  domain_matched : bool; is_resolving : bool; is_resolved : bool }.

Definition default_entry : FakeEntry := mkFakeEntry [] 0 0 Auto false false false.

Record AllocationResult := mkAllocationResult { entry : FakeEntry; created : bool; should_resolve : bool }.

Record FakeIpPool := mkFakeIpPool {
  enabled : bool; pool_network_host : Z; pool_mask_host : Z; pool_start_host : Z; pool_end_host : Z;
  route_network : Z; route_prefix : Z; cursor_host : Z;
  by_fake_ip : gmap Z FakeEntry; by_hostname : gmap (list Z) Z }.

(** [Clear]. *)
Definition FakeIpPool_Clear (_ : FakeIpPool) : FakeIpPool := mkFakeIpPool false 0 0 0 0 0 0 0 ∅ ∅.

(** [atoi], through the conversion of a [long] to [int]. *)
Definition atoi (s : list Z) : Z :=
  match strtol s with
  | Some (v, _) => let u := wrap 32 v in if 2147483647 <? u then u - 4294967296 else u
  | None => 0
  end.

Section pool.
Context (make_address_v4 : list Z → option Z).

(** [ParseCidr]: the network, the mask and the prefix length. *)
Definition ParseCidr (cidr : list Z) : option (Z * Z * Z) :=
  let text := ATrim cidr in
  if decide (text = []) then None
  else
    match before 47 text with
    | None => None
    | Some (ip_text, prefix_text) =>
        let ip_text := ATrim ip_text in
        let prefix_text := ATrim prefix_text in
        let prefix := atoi prefix_text in
        if (prefix <? 1) || (32 <? prefix) then None
        else
          match make_address_v4 ip_text with
          | None => None
          | Some network_host =>
              let mask_host := if prefix =? 32 then 4294967295 else wrap 32 (Z.shiftl 4294967295 (32 - prefix)) in
              Some (Z.land network_host mask_host, mask_host, prefix)
          end
    end.

Definition Configure (p : FakeIpPool) (cidr : list Z) : bool * FakeIpPool :=
  match ParseCidr cidr with
  | None => (false, FakeIpPool_Clear p)
  | Some (network_host, mask_host, prefix) =>
      let pool_start := network_host +[32] 4 in
      let pool_end := Z.lor network_host (wrap 32 (Z.lnot mask_host)) in
      let pool_start := if pool_end <=? pool_start then network_host +[32] 1 else pool_start in
      (true, mkFakeIpPool true network_host mask_host pool_start pool_end (ntohl network_host) prefix pool_start ∅ ∅)
  end.

Definition IsEnabled (p : FakeIpPool) : bool := enabled p.

Definition ContainsHostOrder (p : FakeIpPool) (ip_host : Z) : bool :=
  if negb (enabled p) then false else Z.land ip_host (pool_mask_host p) =? pool_network_host p.

(** The search for a free address: [n] candidates from [candidate]. *)
Fixpoint find_available (p : FakeIpPool) (n : nat) (candidate : Z) : option Z :=
  match n with
  | O => None
  | S n =>
      let candidate := if pool_end_host p <? candidate then pool_start_host p else candidate in
      match by_fake_ip p !! candidate with
      | None => Some candidate
      | Some _ => find_available p n (candidate +[32] 1)
      end
  end.

(** The entry of a known host name, created empty by [operator[]] where the address has none. *)
Definition entry_at (p : FakeIpPool) (ip : Z) : FakeEntry := default default_entry (by_fake_ip p !! ip).

Definition set_entry (p : FakeIpPool) (ip : Z) (e : FakeEntry) : FakeIpPool :=
  mkFakeIpPool (enabled p) (pool_network_host p) (pool_mask_host p) (pool_start_host p) (pool_end_host p)
    (route_network p) (route_prefix p) (cursor_host p) (<[ip := e]> (by_fake_ip p)) (by_hostname p).

Definition Allocate (p : FakeIpPool) (name : list Z) (a : RoutingAction) (matched : bool) : AllocationResult * FakeIpPool :=
  let result := mkAllocationResult default_entry false false in
  if negb (enabled p) || bool_decide (name = []) then (result, p)
  else
    match by_hostname p !! name with
    | Some ip =>
        let e := entry_at p ip in
        let start := negb (is_resolved e) && negb (is_resolving e) in
        let e := mkFakeEntry (hostname e) (fake_ip_host e) (real_ip_host e) (action e) (domain_matched e)
                   (is_resolving e || start) (is_resolved e) in
        (mkAllocationResult e false start, set_entry p ip e)
    | None =>
        match find_available p (Z.to_nat ((pool_end_host p -[32] pool_start_host p) + 1)) (cursor_host p) with
        | None => (result, p)
        | Some candidate =>
            let cursor := candidate +[32] 1 in
            let cursor := if pool_end_host p <? cursor then pool_start_host p else cursor in
            let e := mkFakeEntry name candidate 0 a matched true false in
            (mkAllocationResult e true true,
             mkFakeIpPool (enabled p) (pool_network_host p) (pool_mask_host p) (pool_start_host p) (pool_end_host p)
               (route_network p) (route_prefix p) cursor (<[candidate := e]> (by_fake_ip p)) (<[name := candidate]> (by_hostname p)))
        end
    end.

(** The legacy overload. *)
Definition Allocate_legacy (p : FakeIpPool) (name : list Z) : Z * FakeIpPool :=
  let '(r, p) := Allocate p name Auto false in (fake_ip_host (entry r), p).

Definition SetResolved (p : FakeIpPool) (name : list Z) (real : Z) (a : RoutingAction) : bool * FakeIpPool :=
  if negb (enabled p) || bool_decide (name = []) || (real =? 0) then (false, p)
  else
    match by_hostname p !! name with
    | None => (false, p)
    | Some ip =>
        let e := entry_at p ip in
        (true, set_entry p ip (mkFakeEntry (hostname e) (fake_ip_host e) real (if domain_matched e then action e else a)
                                 (domain_matched e) false true))
    end.

Definition SetResolveFailed (p : FakeIpPool) (name : list Z) : FakeIpPool :=
  match by_hostname p !! name with
  | None => p
  | Some ip =>
      let e := entry_at p ip in
      set_entry p ip (mkFakeEntry (hostname e) (fake_ip_host e) (real_ip_host e) (action e) (domain_matched e) false (is_resolved e))
  end.

Definition SetRealIp (p : FakeIpPool) (name : list Z) (real : Z) : FakeIpPool :=
  if negb (enabled p) || bool_decide (name = []) || (real =? 0) then p
  else
    match by_hostname p !! name with
    | None => p
    | Some ip =>
        let e := entry_at p ip in
        set_entry p ip (mkFakeEntry (hostname e) (fake_ip_host e) real (action e) (domain_matched e) false true)
    end.

Definition FakeIpPool_Lookup (p : FakeIpPool) (ip : Z) : bool * FakeEntry :=
  match by_fake_ip p !! ip with None => (false, default_entry) | Some e => (true, e) end.

Definition LookupRealIpHostOrder (p : FakeIpPool) (ip : Z) : Z :=
  let '(ok, e) := FakeIpPool_Lookup p ip in if ok && is_resolved e then real_ip_host e else 0.

Definition LookupHostname (p : FakeIpPool) (ip : Z) : list Z :=
  let '(ok, e) := FakeIpPool_Lookup p ip in if ok : bool then hostname e else [].

Definition GetRoute (p : FakeIpPool) : bool * Z * Z :=
  if negb (enabled p) then (false, 0, 0) else (true, route_network p, route_prefix p).
End pool.

(** ** The configured range *)

Lemma masks_of_prefix prefix : 1 ≤ prefix ≤ 31 →
  wrap 32 (Z.shiftl 4294967295 (32 - prefix)) = Z.shiftl (Z.ones prefix) (32 - prefix) ∧
  wrap 32 (Z.lnot (Z.shiftl (Z.ones prefix) (32 - prefix))) = Z.ones (32 - prefix).
Proof.
  intros Hp.
  assert (forallb (λ n, (wrap 32 (Z.shiftl 4294967295 (32 - Z.of_nat n)) =? Z.shiftl (Z.ones (Z.of_nat n)) (32 - Z.of_nat n)) &&
    (wrap 32 (Z.lnot (Z.shiftl (Z.ones (Z.of_nat n)) (32 - Z.of_nat n))) =? Z.ones (32 - Z.of_nat n))) (seq 1 31) = true) as H
    by (vm_compute; reflexivity).
  rewrite forallb_forall in H. specialize (H (Z.to_nat prefix) ltac:(apply in_seq; lia)). rewrite Z2Nat.id in H by lia.
  bool_props. done.
Qed.

Lemma land_prefix x h k : 0 ≤ h → 0 ≤ k → 0 ≤ x < 2 ^ (h + k) → Z.land x (Z.shiftl (Z.ones k) h) = x / 2 ^ h * 2 ^ h.
Proof.
  intros Hh Hk Hx. rewrite <- Z.shiftl_mul_pow2, <- Z.shiftr_div_pow2 by done. apply Z.bits_inj'. intros i Hi. rewrite Z.land_spec.
  destruct (Z.lt_ge_cases i h); [by rewrite !Z.shiftl_spec_low, andb_false_r by done|].
  rewrite !Z.shiftl_spec_high, Z.shiftr_spec by lia. replace (i - h + h) with i by lia.
  destruct (Z.lt_ge_cases (i - h) k); [by rewrite Z.ones_spec_low, andb_true_r by lia|].
  rewrite Z.ones_spec_high, andb_false_r by lia. symmetry. apply (testbit_high_zero (h + k)); lia.
Qed.

(** The shape of a pool whose last address is followed by another. *)
Record pool_shape (p : FakeIpPool) : Prop := {
  shape_range : 0 ≤ pool_start_host p ≤ pool_end_host p;
  shape_end : pool_end_host p < 4294967295;
  shape_cursor : pool_start_host p ≤ cursor_host p ≤ pool_end_host p;
  shape_contains : ∀ ip, pool_start_host p ≤ ip ≤ pool_end_host p → Z.land ip (pool_mask_host p) = pool_network_host p }.

Section configure.
Context (make_address_v4 : list Z → option Z).
Context (Haddr : ∀ s ip, make_address_v4 s = Some ip → is_uint 32 ip).

(** A CIDR with a prefix of at most 31 bits whose block does not reach the last addresses. *)
Definition usable (cidr : list Z) : Prop :=
  ∀ network mask prefix, ParseCidr make_address_v4 cidr = Some (network, mask, prefix) →
    prefix ≤ 31 ∧ network + Z.max 4 (2 ^ (32 - prefix) - 1) < 4294967295.

Lemma configure_shape p cidr :
  usable cidr → (Configure make_address_v4 p cidr).1 = true → pool_shape (Configure make_address_v4 p cidr).2.
Proof.
  intros Hu. unfold Configure. destruct (ParseCidr make_address_v4 cidr) as [[[network mask] prefix]|] eqn:E; [|done]. intros _.
  specialize (Hu _ _ _ E) as [Hp31 Hend]. revert E. unfold ParseCidr. case_decide; [done|].
  destruct (before 47 _) as [[ipt pt]|]; [|done]. case_if as Ep; [done|]. destruct (make_address_v4 _) as [ip|] eqn:Ea; [|done].
  intros [= Hn Hm Hpre]. apply Haddr in Ea. bool_props. rewrite Hpre in *. rewrite (proj2 (Z.eqb_neq prefix 32)) in * by lia.
  destruct (masks_of_prefix prefix) as [M1 M2]; [lia|]. rewrite M1 in Hm, Hn. subst mask. rewrite M2.
  set (h := 32 - prefix) in *. assert (h + prefix = 32) as Hhp by lia.
  rewrite land_prefix in Hn by (rewrite ?Hhp; uint_lia). set (q := ip / 2 ^ h) in *.
  assert (2 ≤ 2 ^ h) by (change 2 with (2 ^ 1) at 1; apply Z.pow_le_mono_r; lia).
  assert (0 ≤ q) by (apply Z.div_pos; uint_lia). assert (0 ≤ network) by (subst network; apply Z.mul_nonneg_nonneg; lia).
  assert (Z.lor network (Z.ones h) = network + 2 ^ h - 1) as Hlor.
  { subst network. rewrite <- (Z.shiftl_mul_pow2 q h), lor_shift_add by (rewrite ?Z.ones_equiv; lia). rewrite Z.shiftl_mul_pow2, Z.ones_equiv by lia. lia. }
  rewrite Hlor. rewrite !wrap_small by uint_lia.
  split; cbn [pool_start_host pool_end_host cursor_host pool_mask_host pool_network_host snd]; try (case_match; bool_props; lia); try lia.
  intros x Hx. assert (network ≤ x < network + 2 ^ h) as Hx' by (case_match; bool_props; lia).
  rewrite land_prefix by (rewrite ?Hhp; lia). subst network. f_equal. symmetry. apply (Z.div_unique x (2 ^ h) q (x - q * 2 ^ h)); lia.
Qed.
End configure.

(** ** The search *)

Section search.
Context (p : FakeIpPool) (Hshape : pool_shape p).

Let N : Z := pool_end_host p - pool_start_host p + 1.

(** The [k]-th candidate from [c]. *)
Definition candidate_at (c k : Z) : Z := pool_start_host p + (c - pool_start_host p + k) mod N.

Lemma candidate_range c k : pool_start_host p ≤ candidate_at c k ≤ pool_end_host p.
Proof.
  destruct Hshape. unfold candidate_at. pose proof (Z.mod_pos_bound (c - pool_start_host p + k) N). unfold N in *. lia.
Qed.

Lemma candidate_first c :
  pool_start_host p ≤ c ≤ pool_end_host p + 1 → candidate_at c 0 = if pool_end_host p <? c then pool_start_host p else c.
Proof.
  destruct Hshape. intros Hc. unfold candidate_at. rewrite Z.add_0_r. case_if as E; bool_props.
  - replace (c - pool_start_host p) with N by (unfold N; lia). rewrite Z.mod_same by (unfold N; lia). lia.
  - rewrite Z.mod_small by (unfold N; lia). lia.
Qed.

Lemma candidate_next c k : candidate_at (candidate_at c 0 + 1) k = candidate_at c (k + 1).
Proof.
  unfold candidate_at. destruct Hshape. assert (0 < N) by (unfold N; lia). f_equal. rewrite Z.add_0_r.
  replace (pool_start_host p + (c - pool_start_host p) mod N + 1 - pool_start_host p + k)
    with ((c - pool_start_host p) mod N + (k + 1)) by lia.
  by rewrite Zplus_mod_idemp_l.
Qed.

Lemma find_available_spec n c :
  pool_start_host p ≤ c ≤ pool_end_host p + 1 →
  match find_available p n c with
  | Some a => pool_start_host p ≤ a ≤ pool_end_host p ∧ by_fake_ip p !! a = None
  | None => ∀ k, 0 ≤ k < Z.of_nat n → is_Some (by_fake_ip p !! candidate_at c k)
  end.
Proof.
  revert c. induction n as [|n IH]; intros c Hc; cbn [find_available]; [lia|].
  rewrite <- candidate_first by done. pose proof (candidate_range c 0) as Hr.
  destruct (by_fake_ip p !! candidate_at c 0) as [e|] eqn:E; [|done].
  assert (candidate_at c 0 +[32] 1 = candidate_at c 0 + 1) as Hw by (destruct Hshape; apply wrap_small; uint_lia).
  rewrite Hw. specialize (IH (candidate_at c 0 + 1) ltac:(lia)). destruct (find_available p n _) as [a|]; [done|].
  intros k Hk. destruct (decide (k = 0)) as [->|Hk0]; [by eexists|].
  specialize (IH (k - 1) ltac:(lia)). rewrite candidate_next in IH. by replace (k - 1 + 1) with k in IH by lia.
Qed.

(** A failed search of the whole range met every address of it. *)
Lemma search_exhaustive ip :
  find_available p (Z.to_nat (pool_end_host p -[32] pool_start_host p + 1)) (cursor_host p) = None →
  pool_start_host p ≤ ip ≤ pool_end_host p → is_Some (by_fake_ip p !! ip).
Proof.
  intros Hf Hip. pose proof Hshape as [Hr He Hc _]. rewrite wrap_small in Hf by uint_lia. fold N in Hf.
  pose proof (find_available_spec (Z.to_nat N) (cursor_host p) ltac:(lia)) as Hs. rewrite Hf in Hs.
  pose proof (Z.mod_pos_bound (ip - cursor_host p) N ltac:(unfold N; lia)) as Hm.
  specialize (Hs ((ip - cursor_host p) mod N) ltac:(lia)). revert Hs. unfold candidate_at.
  rewrite Zplus_mod_idemp_r. replace (cursor_host p - pool_start_host p + (ip - cursor_host p)) with (ip - pool_start_host p) by lia.
  rewrite Z.mod_small by (unfold N; lia). by replace (pool_start_host p + (ip - pool_start_host p)) with ip by lia.
Qed.
End search.

(** ** The two maps *)

Record pool_ok (p : FakeIpPool) : Prop := {
  ok_shape : enabled p = true → pool_shape p;
  ok_names : ∀ name ip, by_hostname p !! name = Some ip ↔ ∃ e, by_fake_ip p !! ip = Some e ∧ hostname e = name;
  ok_entries : ∀ ip e, by_fake_ip p !! ip = Some e →
    fake_ip_host e = ip ∧ hostname e ≠ [] ∧ enabled p = true ∧ pool_start_host p ≤ ip ≤ pool_end_host p }.

Lemma empty_pool_ok p : (enabled p = true → pool_shape p) → by_fake_ip p = ∅ → by_hostname p = ∅ → pool_ok p.
Proof.
  intros Hs Hf Hn. split; [done| |].
  - intros name ip. rewrite Hf, Hn, lookup_empty. setoid_rewrite lookup_empty. naive_solver.
  - intros ip e. by rewrite Hf, lookup_empty.
Qed.

(** A known name has its entry. *)
Lemma known_entry p name ip : pool_ok p → by_hostname p !! name = Some ip → by_fake_ip p !! ip = Some (entry_at p ip) ∧ hostname (entry_at p ip) = name.
Proof. intros [_ Hn _] Hl. apply Hn in Hl as (e & He & Hh). unfold entry_at. rewrite He. done. Qed.

Lemma set_entry_ok p ip e e' :
  pool_ok p → by_fake_ip p !! ip = Some e → hostname e' = hostname e → fake_ip_host e' = fake_ip_host e → pool_ok (set_entry p ip e').
Proof.
  intros [Hs Hn He] Hl Hh Hf. split; [by intros [? ? ? ?]%Hs; split| |]; cbn [set_entry by_hostname by_fake_ip enabled pool_start_host pool_end_host].
  - intros name ip'. rewrite Hn. destruct (decide (ip = ip')) as [<-|Hip].
    + rewrite lookup_insert_eq, Hl. naive_solver congruence.
    + by rewrite lookup_insert_ne.
  - intros ip' e0. destruct (decide (ip = ip')) as [<-|Hip].
    + rewrite lookup_insert_eq. intros [= <-]. rewrite Hh, Hf. by apply He.
    + rewrite lookup_insert_ne by done. apply He.
Qed.

Lemma allocate_ok p name a matched : pool_ok p → pool_ok (Allocate p name a matched).2.
Proof.
  intros Hok. pose proof Hok as [Hs Hn He]. unfold Allocate. case_if as E0; [done|]. apply orb_false_iff in E0 as [Een Ene]. bool_props.
  destruct (by_hostname p !! name) as [ip|] eqn:El.
  - destruct (known_entry p name ip Hok El) as [Hl Hh]. cbn [snd]. eapply set_entry_ok; done.
  - destruct (find_available p _ _) as [c|] eqn:Ef; [|done]. specialize (Hs Een). pose proof Hs as [Hr Hend Hcur Hcont].
    pose proof (find_available_spec p Hs (Z.to_nat (pool_end_host p -[32] pool_start_host p + 1)) (cursor_host p) ltac:(lia)) as Hfree.
    rewrite Ef in Hfree. destruct Hfree as [Hc Hfree]. cbn [snd].
    split; cbn [by_hostname by_fake_ip enabled pool_start_host pool_end_host].
    + intros _. split; cbn; [done|done| |done]. rewrite wrap_small by uint_lia. case_match; bool_props; lia.
    + intros name' ip'. rewrite lookup_insert_Some, Hn. destruct (decide (c = ip')) as [<-|Hip].
      * rewrite lookup_insert_eq, Hfree. naive_solver.
      * rewrite lookup_insert_ne by done. split; [naive_solver|]. intros (e & Hl & Hh). right. split; [|by exists e].
        intros ->. assert (by_hostname p !! name' = Some ip') by (apply Hn; by exists e). congruence.
    + intros ip' e. destruct (decide (c = ip')) as [<-|Hip].
      * rewrite lookup_insert_eq. intros [= <-]. done.
      * rewrite lookup_insert_ne by done. apply He.
Qed.

Inductive PoolOp :=
| OpConfigure (cidr : list Z) | OpPoolClear | OpAllocate (name : list Z) (a : RoutingAction) (matched : bool)
| OpSetResolved (name : list Z) (real : Z) (a : RoutingAction) | OpSetResolveFailed (name : list Z) | OpSetRealIp (name : list Z) (real : Z).

Section pool_machine.
Context (make_address_v4 : list Z → option Z).

Definition pool_step (p : FakeIpPool) (op : PoolOp) : unit * FakeIpPool :=
  (tt, match op with
       | OpConfigure cidr => (Configure make_address_v4 p cidr).2
       | OpPoolClear => FakeIpPool_Clear p
       | OpAllocate name a matched => (Allocate p name a matched).2
       | OpSetResolved name real a => (SetResolved p name real a).2
       | OpSetResolveFailed name => SetResolveFailed p name
       | OpSetRealIp name real => SetRealIp p name real
       end).

Definition pool_init : FakeIpPool := mkFakeIpPool false 0 0 0 0 0 0 0 ∅ ∅.

Definition op_usable (op : PoolOp) : Prop := match op with OpConfigure cidr => usable make_address_v4 cidr | _ => True end.

Context (Haddr : ∀ s ip, make_address_v4 s = Some ip → is_uint 32 ip).

#[local] Instance pool_step_ok : StepInvariant pool_step op_usable pool_ok.
Proof.
  intros p op Hu Hok.
  assert (∀ name ip e, by_hostname p !! name = Some ip → hostname e = hostname (entry_at p ip) →
    fake_ip_host e = fake_ip_host (entry_at p ip) → pool_ok (set_entry p ip e)) as Hset.
  { intros name ip e Hl ? ?. destruct (known_entry p name ip Hok Hl) as [He _]. by eapply set_entry_ok. }
  destruct op as [cidr| |name a matched|name real a|name|name real]; cbn [pool_step snd].
  - pose proof (configure_shape make_address_v4 Haddr p cidr Hu) as Hshape. unfold Configure in *.
    destruct (ParseCidr make_address_v4 cidr) as [[[? ?] ?]|]; (apply empty_pool_ok; [|done|done]); [intros _; by apply Hshape|done].
  - by apply empty_pool_ok.
  - by apply allocate_ok.
  - unfold SetResolved. case_if as E; [done|]. destruct (by_hostname p !! name) as [ip|] eqn:El; [|done]. by apply (Hset name).
  - unfold SetResolveFailed. destruct (by_hostname p !! name) as [ip|] eqn:El; [|done]. by apply (Hset name).
  - unfold SetRealIp. case_if as E; [done|]. destruct (by_hostname p !! name) as [ip|] eqn:El; [|done]. by apply (Hset name).
Qed.

Lemma pool_exec_ok ops : Forall op_usable ops → pool_ok (exec pool_step pool_init ops).
Proof. intros Hops. by apply (exec_invariant pool_step op_usable pool_ok); [apply empty_pool_ok|]. Qed.
End pool_machine.

(** A lookup finds the name of a mapped address and of no other. *)
Lemma lookup_hostname_spec p name ip :
  pool_ok p → by_hostname p !! name = Some ip ↔ name ≠ [] ∧ LookupHostname p ip = name.
Proof.
  intros [_ Hn He]. rewrite Hn. unfold LookupHostname, FakeIpPool_Lookup. split.
  - intros (e & Hl & <-). rewrite Hl. split; [|done]. by apply (He ip).
  - intros [Hne Hl]. destruct (by_fake_ip p !! ip) as [e|] eqn:E; [by exists e|by subst].
Qed.

Section fake_ip_claims.
Context (make_address_v4 : list Z → option Z) (Haddr : ∀ s ip, make_address_v4 s = Some ip → is_uint 32 ip).

(** The fake addresses and the host names stay in bijection.  After any sequence of
    configurations (with CIDR blocks of at most 31 bits that do not reach the last addresses),
    clears, allocations and resolutions: a name is mapped to an address exactly when looking the
    address up gives the name, so no two names share an address and no name has two; and every
    address that has a name lies in the configured range and is recognised as one of the pool. *)
Theorem fake_ip_bijective ops :
  Forall (op_usable make_address_v4) ops →
  let p := exec (pool_step make_address_v4) pool_init ops in
  (∀ name ip, by_hostname p !! name = Some ip ↔ name ≠ [] ∧ LookupHostname p ip = name) ∧
  (∀ ip, LookupHostname p ip ≠ [] → pool_start_host p ≤ ip ≤ pool_end_host p ∧ ContainsHostOrder p ip = true).
Proof.
  intros Hops p. pose proof (pool_exec_ok make_address_v4 Haddr ops Hops) as Hok. fold p in Hok. split.
  - intros name ip. by apply lookup_hostname_spec.
  - intros ip. unfold LookupHostname, FakeIpPool_Lookup. destruct (by_fake_ip p !! ip) as [e|] eqn:E; [|done]. intros _.
    destruct (ok_entries p Hok ip e E) as (_ & _ & Hen & Hr). split; [done|].
    unfold ContainsHostOrder. rewrite Hen. cbn [negb]. apply Z.eqb_eq. by apply (shape_contains p (ok_shape p Hok Hen)).
Qed.

(** What an allocation does in every reachable enabled pool, for a non-empty name.  A name that
    has an address keeps it, and the caller is asked to resolve it exactly when it is neither
    resolved nor being resolved.  A new name gets an address of the range that had no name, the
    caller is asked to resolve it, and every other address keeps its name.  The allocation fails,
    changing nothing, only when every address of the range is taken. *)
Theorem fake_ip_allocate ops name a matched r p' :
  Forall (op_usable make_address_v4) ops →
  let p := exec (pool_step make_address_v4) pool_init ops in
  IsEnabled p = true → name ≠ [] → Allocate p name a matched = (r, p') →
  match by_hostname p !! name with
  | Some ip =>
      fake_ip_host (entry r) = ip ∧ created r = false ∧
      should_resolve r = negb (is_resolved (entry_at p ip)) && negb (is_resolving (entry_at p ip)) ∧
      ∀ ip', LookupHostname p' ip' = LookupHostname p ip'
  | None =>
      if created r then
        let ip := fake_ip_host (entry r) in
        should_resolve r = true ∧ pool_start_host p ≤ ip ≤ pool_end_host p ∧ LookupHostname p ip = [] ∧ LookupHostname p' ip = name ∧
        ∀ ip', ip' ≠ ip → LookupHostname p' ip' = LookupHostname p ip'
      else p' = p ∧ ∀ ip, pool_start_host p ≤ ip ≤ pool_end_host p → LookupHostname p ip ≠ []
  end.
Proof.
  intros Hops p. pose proof (pool_exec_ok make_address_v4 Haddr ops Hops) as Hok. fold p in Hok. clearbody p.
  unfold IsEnabled. intros Hen Hne. unfold Allocate. rewrite Hen, (bool_decide_false (name = [])) by done. cbn [negb orb].
  destruct (by_hostname p !! name) as [ip|] eqn:El.
  - destruct (known_entry p name ip Hok El) as [Hl Hh]. intros [= <- <-]. cbn. split_and!; [by apply (ok_entries p Hok)|done|done|].
    intros ip'. unfold LookupHostname, FakeIpPool_Lookup, set_entry. cbn. destruct (decide (ip = ip')) as [<-|].
    + by rewrite lookup_insert_eq, Hl.
    + by rewrite lookup_insert_ne.
  - pose proof (ok_shape p Hok Hen) as Hshape. pose proof Hshape as [Hr Hend Hcur _].
    destruct (find_available p _ _) as [c|] eqn:Ef; intros [= <- <-]; cbn [created].
    + pose proof (find_available_spec p Hshape (Z.to_nat (pool_end_host p -[32] pool_start_host p + 1)) (cursor_host p) ltac:(lia)) as Hfree.
      rewrite Ef in Hfree. destruct Hfree as [Hc Hfree]. cbn. unfold LookupHostname, FakeIpPool_Lookup. cbn.
      rewrite Hfree, lookup_insert_eq. split_and!; try done; try lia. intros ip' Hip. by rewrite lookup_insert_ne.
    + split; [done|]. intros ip Hip. destruct (search_exhaustive p Hshape ip Ef Hip) as [e He].
      unfold LookupHostname, FakeIpPool_Lookup. rewrite He. by apply (ok_entries p Hok ip).
Qed.
End fake_ip_claims.

(** ** Examples *)

Definition sample_v4_parser (s : list Z) : option Z := if bool_decide (s = text_of "198.18.0.0") then Some 3323068416 else None.

Lemma sample_v4_parser_ok s ip : sample_v4_parser s = Some ip → is_uint 32 ip.
Proof. unfold sample_v4_parser. destruct (bool_decide _); [|discriminate]. intros [= <-]. by apply (bool_decide_unpack _). Qed.

Lemma sample_usable : usable sample_v4_parser (text_of "198.18.0.0/30").
Proof. intros network mask prefix H. vm_compute in H. injection H as <- <- <-. split; vm_compute; [discriminate|reflexivity]. Qed.

Definition sample_pool_ops : list PoolOp :=
  [OpConfigure (text_of "198.18.0.0/30"); OpAllocate (text_of "a.example") Proxy true; OpAllocate (text_of "b.example") Auto false;
   OpSetResolved (text_of "a.example") 16843009 Direct].

Lemma sample_ops_usable : Forall (op_usable sample_v4_parser) sample_pool_ops.
Proof. unfold sample_pool_ops. repeat (apply Forall_cons; split; [first [exact sample_usable|exact I]|]). by apply Forall_nil. Qed.

Lemma fake_ip_bijective_witness :
  let p := exec (pool_step sample_v4_parser) pool_init sample_pool_ops in
  by_hostname p !! text_of "b.example" = Some 3323068418 ∧ LookupHostname p 3323068418 = text_of "b.example" ∧
  ContainsHostOrder p 3323068418 = true.
Proof.
  intros p. destruct (fake_ip_bijective sample_v4_parser sample_v4_parser_ok sample_pool_ops sample_ops_usable) as [H1 H2].
  assert (by_hostname p !! text_of "b.example" = Some 3323068418) as E by (vm_compute; reflexivity).
  split; [exact E|]. apply H1 in E as [Hne Hl]. split; [exact Hl|]. apply H2. rewrite Hl. exact Hne.
Defined.

Lemma fake_ip_allocate_witness :
  let p := exec (pool_step sample_v4_parser) pool_init sample_pool_ops in
  let '(r, p') := Allocate p (text_of "c.example") Auto false in
  fake_ip_host (entry r) = 3323068419 ∧ LookupHostname p (fake_ip_host (entry r)) = [] ∧ LookupHostname p' (fake_ip_host (entry r)) = text_of "c.example".
Proof.
  intros p. destruct (Allocate p (text_of "c.example") Auto false) as [r p'] eqn:E.
  pose proof (fake_ip_allocate sample_v4_parser sample_v4_parser_ok sample_pool_ops (text_of "c.example") Auto false r p'
    sample_ops_usable eq_refl ltac:(discriminate) E) as H. fold p in H.
  assert (by_hostname p !! text_of "c.example" = None) as En by (vm_compute; reflexivity). rewrite En in H.
  assert (created r = true ∧ fake_ip_host (entry r) = 3323068419) as [Ec Ei].
  { replace r with ((Allocate p (text_of "c.example") Auto false).1) by (by rewrite E). vm_compute. split; reflexivity. }
  rewrite Ec in H. destruct H as (_ & _ & H1 & H2 & _). split_and!; assumption.
Defined.

(** A /32 pool hands out the address after its only one. *)
Definition sample_host_pool : FakeIpPool := (Configure sample_v4_parser pool_init (text_of "198.18.0.0/32")).2.

Lemma host_pool_leaves_range :
  pool_end_host sample_host_pool < pool_start_host sample_host_pool ∧
  (pool_end_host sample_host_pool -[32] pool_start_host sample_host_pool) + 1 = 2 ^ 32 ∧
  find_available sample_host_pool 1 (cursor_host sample_host_pool) = Some 3323068417 ∧
  ContainsHostOrder sample_host_pool 3323068417 = false.
Proof. vm_compute. split_and!; reflexivity. Qed.
