(* ===== verification/Ssea.v ===== *)
(** * The byte codecs of the transports

    [ppp/cryptography/ssea.cpp] and its scalar reference [ssea_simd/ssea_scalar_ref.h]: the Base94
    stream codec, delta coding, XOR masking with a fixed and with an evolving key, the keyed byte
    permutation and the Base94 integers.  [ssea_simd/base94_simd.h] holds the SSSE3 kernels of the
    Base94 codec, modelled in [SseaSimd].  A C++ [int32_t] is a [Z] in its signed range; the places
    where the source reinterprets it as unsigned or narrows it to a byte carry the wrap-around. *)

From S2P Require Import Prelude.

(** ** Base94 *)
Definition BASE94_SYMBOL_COUNT : Z := 94.
Definition BASE93_RADIX : Z := BASE94_SYMBOL_COUNT - 1.

(** The second pass of [base94_encode], one input byte after the subtraction of the key. *)
Definition encode_symbol (b : Z) : list Z :=
  if BASE93_RADIX <=? b
  then [wrap 8 (32 + ((b / BASE93_RADIX - 1) + BASE93_RADIX)); wrap 8 (32 + b mod BASE93_RADIX)]
  else [wrap 8 (32 + b)].

Fixpoint encode_symbols (kf : Z) (bytes : list Z) : list Z :=
  match bytes with
  | [] => []
  | c :: t => encode_symbol (wrap 8 (c - kf)) ++ encode_symbols kf t
  end.

(** The first pass: the size of the buffer the second pass fills. *)
Fixpoint encoded_length (kf : Z) (bytes : list Z) : Z :=
  match bytes with
  | [] => 0
  | c :: t => (if BASE93_RADIX <=? wrap 8 (c - kf) then 2 else 1) + encoded_length kf t
  end.

(** [base94_encode]: null for an empty input. *)
Definition base94_encode (kf : Z) (data : list Z) : option (list Z) :=
  match data with
  | [] => None
  | _ => Some (encode_symbols kf data)
  end.

(** The error codes [base94_decode] reports. *)
Inductive Base94Error :=
  | SseaBase94DecodeInvalidInput
  | SseaBase94DecodeCharBelowPrintable
  | SseaBase94DecodeCharOutOfAlphabet
  | SseaBase94DecodeEscapeCharBelowPrintable
  | SseaBase94DecodeEscapeCharOutOfRange
  | SseaBase94DecodeTruncatedEscape
  | SseaBase94DecodeValueOverflow.

#[global] Instance Base94Error_eq_dec : EqDecision Base94Error.
Proof. solve_decision. Defined.

(** The validating pass of [base94_decode], with the output length it computes. *)
Fixpoint decode_validate (bucket_length : Z) (bytes : list Z) : Base94Error + Z :=
  match bytes with
  | [] => inr bucket_length
  | c :: t =>
      if c <? 32 then inl SseaBase94DecodeCharBelowPrintable else
      let b := wrap 8 (c - 32) in
      if BASE94_SYMBOL_COUNT <? b then inl SseaBase94DecodeCharOutOfAlphabet else
      if BASE93_RADIX <=? b then
        match t with
        | [] => inl SseaBase94DecodeTruncatedEscape
        | d :: u =>
            if d <? 32 then inl SseaBase94DecodeEscapeCharBelowPrintable else
            if BASE93_RADIX <? wrap 8 (d - 32) then inl SseaBase94DecodeEscapeCharOutOfRange else
            decode_validate (bucket_length - 1) u
        end
      else decode_validate bucket_length t
  end.

(** The decoding pass.  The escape at the very end cannot occur after the validation; reading
    past the end is an error here. *)
Fixpoint decode_symbols (kf : Z) (bytes : list Z) : Base94Error + list Z :=
  match bytes with
  | [] => inr []
  | c :: t =>
      let b := wrap 8 (c - 32) in
      if BASE93_RADIX <=? b then
        match t with
        | [] => inl SseaBase94DecodeTruncatedEscape
        | d :: u =>
            let v := ((b - BASE93_RADIX) + 1) * BASE93_RADIX + (d - 32) in
            if 255 <? v then inl SseaBase94DecodeValueOverflow else
            match decode_symbols kf u with
            | inl e => inl e
            | inr r => inr (wrap 8 (v + kf) :: r)
            end
        end
      else
        match decode_symbols kf t with
        | inl e => inl e
        | inr r => inr (wrap 8 (b + kf) :: r)
        end
  end.

Definition base94_decode (kf : Z) (data : list Z) : Base94Error + list Z :=
  match data with
  | [] => inl SseaBase94DecodeInvalidInput
  | _ =>
      match decode_validate (Z.of_nat (length data)) data with
      | inl e => inl e
      | inr _ => decode_symbols kf data
      end
  end.

(** ** Base94 integers *)

(** [base94_decimal] of a byte sequence: 0 on any character outside the alphabet, the
    multiplication and addition wrap at 64 bits. *)
Fixpoint decimal_loop (n : Z) (p : list Z) : Z :=
  match p with
  | [] => n
  | c :: t =>
      if c <? 32 then 0 else
      let b := wrap 8 (c - 32) in
      if BASE94_SYMBOL_COUNT <=? b then 0 else decimal_loop (wrap 64 (n * BASE94_SYMBOL_COUNT + b)) t
  end.

Definition base94_decimal_parse (p : list Z) : Z :=
  match p with
  | [] => 0
  | _ => decimal_loop 0 p
  end.

(** [base94_decimal] of an integer.  The loops divide until the value is zero; a 64-bit value has
    at most [BASE94_OUTPUT_BLOCK_SIZE] = 11 digits, the size of the local array. *)
Definition BASE94_OUTPUT_BLOCK_SIZE : nat := 11.

Fixpoint decimal_digits (fuel : nat) (n : Z) (acc : list Z) : list Z :=
  match fuel with
  | O => acc
  | S k =>
      let c := wrap 8 (n mod BASE94_SYMBOL_COUNT + 32) in
      let n := n / BASE94_SYMBOL_COUNT in
      if 0 <? n then decimal_digits k n (c :: acc) else c :: acc
  end.

Definition base94_decimal (v : Z) : list Z := decimal_digits BASE94_OUTPUT_BLOCK_SIZE v [].

(** ** Delta coding *)

(** [prev] is the byte before the current one in the source, [kf] for the first. *)
Fixpoint delta_loop (prev : Z) (bytes : list Z) : list Z :=
  match bytes with
  | [] => []
  | c :: t => wrap 8 (c - prev) :: delta_loop c t
  end.

Definition delta_encode (kf : Z) (data : list Z) : option (list Z) :=
  match data with
  | [] => None
  | _ => Some (delta_loop kf data)
  end.

(** [prev] is the byte written last, [kf] before the first. *)
Fixpoint undelta_loop (prev : Z) (bytes : list Z) : list Z :=
  match bytes with
  | [] => []
  | c :: t => let p := wrap 8 (prev + c) in p :: undelta_loop p t
  end.

Definition delta_decode (kf : Z) (data : list Z) : option (list Z) :=
  match data with
  | [] => None
  | _ => Some (undelta_loop kf data)
  end.

(** ** The generator *)

(** One step of the linear congruential generator. *)
Definition lcg_step (next : Z) : Z := wrap 32 (wrap 32 (next * 1103515245) + 12345).

(** [random_next]: the value and the advanced seed. *)
Definition random_next (seed : Z) : Z * Z :=
  let next := lcg_step seed in
  let result := (next / 65536) mod 2048 in
  let next := lcg_step next in
  let result := Z.lxor (Z.shiftl result 10) ((next / 65536) mod 1024) in
  let next := lcg_step next in
  let result := Z.lxor (Z.shiftl result 10) ((next / 65536) mod 1024) in
  (result, next).

(** [random_next(unsigned int seed)] on a key reinterpreted as unsigned. *)
Definition random_next_from_key (kf : Z) : Z := (random_next (wrap 32 kf)).1.

(** [lcgmod]: a value in the inclusive range [[min, max]]. *)
Definition lcgmod (kf min max : Z) : Z := Z.rem (random_next_from_key kf) (max - min + 1) + min.

(** ** XOR masks *)

(** A little-endian word of memory. *)
Definition le_load (bs : list Z) : Z := be_value (rev bs).
Definition le_store (n : nat) (x : Z) : list Z := rev (be_bytes n x).

(** [*p ^= kf] on a word of [length bs] bytes. *)
Definition xor_word (kf : Z) (bs : list Z) : list Z :=
  le_store (length bs) (Z.lxor (le_load bs) kf).

#[global] Arguments xor_word : simpl never.

(** The 16- and 8-bit tails: at most three bytes. *)
Definition masked_xor_tail (kf : Z) (data : list Z) : list Z :=
  match data with
  | a :: b :: t =>
      xor_word kf [a; b] ++ match t with
                            | c :: r => wrap 8 (Z.lxor c (wrap 8 kf)) :: r
                            | [] => []
                            end
  | c :: r => wrap 8 (Z.lxor c (wrap 8 kf)) :: r
  | [] => []
  end.

(** [masked_xor_fixed_scalar_tail]. *)
Fixpoint masked_xor_fixed (kf : Z) (data : list Z) : list Z :=
  match data with
  | a :: b :: c :: d :: t => xor_word kf [a; b; c; d] ++ masked_xor_fixed kf t
  | _ => masked_xor_tail kf data
  end.

(** [masked_xor_random_next_scalar_tail]: the key evolves after every full word. *)
Fixpoint masked_xor_evolving (kf : Z) (data : list Z) : list Z :=
  match data with
  | a :: b :: c :: d :: t =>
      xor_word kf [a; b; c; d] ++ masked_xor_evolving (random_next_from_key kf) t
  | _ => masked_xor_tail kf data
  end.

Definition masked_xor (kf : Z) (data : list Z) : list Z := masked_xor_fixed kf data.

Definition masked_xor_random_next (kf : Z) (data : list Z) : list Z :=
  match data with
  | [] => []
  | _ => masked_xor_evolving (random_next_from_key kf) data
  end.

(** ** The permutation *)

(** [std::swap(data[i], data[j])]. *)
Definition swap_at (i j : nat) (l : list Z) : list Z :=
  match l !! i, l !! j with
  | Some x, Some y => <[j := x]> (<[i := y]> l)
  | _, _ => l
  end.

(** [(i ^ key) % size] on 32-bit unsigned integers. *)
Definition shuffle_index (key : Z) (size i : nat) : nat :=
  Z.to_nat (Z.lxor (Z.of_nat i) (wrap 32 key) mod Z.of_nat size).

Definition shuffle_step (key : Z) (size : nat) (l : list Z) (i : nat) : list Z :=
  swap_at i (shuffle_index key size i) l.

Definition shuffle_data (key : Z) (l : list Z) : list Z :=
  foldl (shuffle_step key (length l)) l (seq 0 (length l)).

Definition unshuffle_data (key : Z) (l : list Z) : list Z :=
  foldl (shuffle_step key (length l)) l (rev (seq 0 (length l))).

(** [masked_xor_implement<true>] of [ssea.cpp], which the entry points no longer call: here the key
    also evolves after the 16-bit chunk. *)
Fixpoint masked_xor_implement (kf : Z) (data : list Z) : list Z :=
  match data with
  | a :: b :: c :: d :: t =>
      xor_word kf [a; b; c; d] ++ masked_xor_implement (random_next_from_key kf) t
  | [a; b; c] => xor_word kf [a; b] ++ xor_word (random_next_from_key kf) [c]
  | [a; b] => xor_word kf [a; b]
  | [c] => xor_word kf [c]
  | [] => []
  end.

(** * Facts about words and bytes *)

Lemma wrap_idem w x : 0 ≤ w → wrap w (wrap w x) = wrap w x.
Proof. intros ?. apply wrap_small, wrap_range. done. Qed.

Lemma wrap8_byte x : is_byte (wrap 8 x).
Proof. by apply wrap_range. Qed.

Lemma wrap_sub_add w a k : is_uint w a → 0 ≤ w → wrap w (wrap w (a - k) + k) = a.
Proof.
  intros Ha Hw. unfold wrap. rewrite Zplus_mod_idemp_l. replace (a - k + k) with a by lia.
  by apply wrap_small.
Qed.

Lemma wrap_minus_l w a b : wrap w (wrap w a - b) = wrap w (a - b).
Proof. unfold wrap. apply Zminus_mod_idemp_l. Qed.

Lemma wrap_minus_r w a b : wrap w (a - wrap w b) = wrap w (a - b).
Proof. unfold wrap. apply Zminus_mod_idemp_r. Qed.

Lemma wrap_lxor w a b : 0 ≤ w → wrap w (Z.lxor a b) = Z.lxor (wrap w a) (wrap w b).
Proof.
  intros Hw. unfold wrap. rewrite <- !Z.land_ones by done. apply Z.bits_inj'. intros i Hi.
  rewrite !Z.land_spec, !Z.lxor_spec, !Z.land_spec. by destruct (Z.testbit a i), (Z.testbit b i), (Z.testbit _ i).
Qed.

Lemma byte_lxor a b : is_byte a → is_byte b → is_byte (Z.lxor a b).
Proof. intros Ha Hb. rewrite <- (wrap_small 8 a Ha), <- (wrap_small 8 b Hb), <- wrap_lxor by lia. apply wrap8_byte. Qed.

Lemma be_bytes_wrap n x : be_bytes n (wrap (8 * Z.of_nat n) x) = be_bytes n x.
Proof.
  rewrite <- (be_bytes_value (be_bytes n x)) at 1 by apply bytes_ok_be_bytes.
  rewrite length_be_bytes, be_value_bytes_mod. done.
Qed.

Lemma le_load_store n x : le_load (le_store n x) = wrap (8 * Z.of_nat n) x.
Proof. unfold le_load, le_store. by rewrite rev_involutive, be_value_bytes_mod. Qed.

Lemma le_store_load bs : bytes_ok bs → le_store (length bs) (le_load bs) = bs.
Proof.
  intros ?. unfold le_load, le_store. rewrite <- (length_rev bs), be_bytes_value, rev_involutive; [done|].
  by apply Forall_rev.
Qed.

Lemma le_store_wrap n x : le_store n (wrap (8 * Z.of_nat n) x) = le_store n x.
Proof. unfold le_store. by rewrite be_bytes_wrap. Qed.

Lemma bytes_ok_le_store n x : bytes_ok (le_store n x).
Proof. apply Forall_rev, bytes_ok_be_bytes. Qed.

Lemma length_le_store n x : length (le_store n x) = n.
Proof. unfold le_store. by rewrite length_rev, length_be_bytes. Qed.

Lemma length_xor_word kf bs : length (xor_word kf bs) = length bs.
Proof. apply length_le_store. Qed.

Lemma bytes_ok_xor_word kf bs : bytes_ok (xor_word kf bs).
Proof. apply bytes_ok_le_store. Qed.

(** XOR with the same key twice restores the word. *)
Lemma xor_word_involutive kf bs : bytes_ok bs → xor_word kf (xor_word kf bs) = bs.
Proof.
  intros Hb. unfold xor_word at 1. rewrite length_xor_word. unfold xor_word. rewrite le_load_store.
  rewrite <- le_store_wrap, wrap_lxor, wrap_idem, <- wrap_lxor by lia.
  rewrite le_store_wrap, Z.lxor_assoc, Z.lxor_nilpotent, Z.lxor_0_r. by apply le_store_load.
Qed.

Lemma xor_byte kf c : is_byte c → is_byte (wrap 8 (Z.lxor c (wrap 8 kf))) ∧
  wrap 8 (Z.lxor (wrap 8 (Z.lxor c (wrap 8 kf))) (wrap 8 kf)) = c.
Proof.
  intros Hc. split; [apply wrap8_byte|].
  rewrite wrap_lxor, !wrap_idem by lia.
  rewrite wrap_lxor, wrap_idem, Z.lxor_assoc, Z.lxor_nilpotent, Z.lxor_0_r by lia. by apply wrap_small.
Qed.

(** Lists cut into words of four bytes and a tail of at most three. *)
Lemma quad_ind (P : list Z → Prop) :
  (∀ l, (length l < 4)%nat → P l) → (∀ a b c d t, P t → P (a :: b :: c :: d :: t)) → ∀ l, P l.
Proof.
  intros H0 H4. fix IH 1. intros [|a [|b [|c [|d t]]]]; [apply H0; simpl; lia..|]. apply H4, IH.
Qed.

Ltac short l := destruct l as [|? [|? [|? [|? ?]]]]; [..|simpl in *; lia].

Lemma length_masked_xor_tail kf l : (length l < 4)%nat → length (masked_xor_tail kf l) = length l.
Proof. intros. short l; simpl; rewrite ?length_app, ?length_xor_word; done. Qed.

Lemma bytes_ok_masked_xor_tail kf l : bytes_ok l → bytes_ok (masked_xor_tail kf l).
Proof.
  intros Hl. destruct l as [|a [|b [|c t]]]; [done|..]; cbn [masked_xor_tail].
  - apply Forall_singleton, wrap8_byte.
  - rewrite app_nil_r. apply bytes_ok_xor_word.
  - apply Forall_app. split; [apply bytes_ok_xor_word|]. inversion_clear Hl as [|? ? ? Hl']. inversion_clear Hl' as [|? ? ? Hl2].
    inversion_clear Hl2. apply Forall_cons. split; [apply wrap8_byte|done].
Qed.

Lemma masked_xor_tail_involutive kf l :
  bytes_ok l → (length l < 4)%nat → masked_xor_tail kf (masked_xor_tail kf l) = l.
Proof.
  intros Hl Hn. short l; try done; rewrite ?Forall_cons in Hl.
  - cbn [masked_xor_tail app]. by destruct Hl as [Hc _], (xor_byte kf _ Hc) as [_ ->].
  - cbn [masked_xor_tail app]. rewrite app_nil_r. destruct Hl as (Ha & Hb & _).
    pose proof (xor_word_involutive kf [z; z0] ltac:(by repeat apply Forall_cons_2)) as Hx.
    pose proof (length_xor_word kf [z; z0]) as Hk. destruct (xor_word kf [z; z0]) as [|p [|q [|? ?]]]; try done.
  - cbn [masked_xor_tail app]. destruct Hl as (Ha & Hb & Hc & _).
    pose proof (xor_word_involutive kf [z; z0] ltac:(by repeat apply Forall_cons_2)) as Hx.
    pose proof (length_xor_word kf [z; z0]) as Hk. destruct (xor_word kf [z; z0]) as [|p [|q [|? ?]]]; try done.
    cbn [masked_xor_tail app]. destruct (xor_byte kf _ Hc) as [_ ->]. by rewrite Hx.
Qed.

Lemma length_masked_xor_evolving kf l : length (masked_xor_evolving kf l) = length l.
Proof.
  revert l kf. apply (quad_ind (λ l, ∀ kf, length (masked_xor_evolving kf l) = length l)).
  - intros l Hl kf. rewrite <- (length_masked_xor_tail kf l Hl). by short l.
  - intros a b c d t IH kf. cbn [masked_xor_evolving]. rewrite length_app, IH, length_xor_word. done.
Qed.

Lemma bytes_ok_masked_xor_evolving kf l : bytes_ok l → bytes_ok (masked_xor_evolving kf l).
Proof.
  revert l kf. apply (quad_ind (λ l, ∀ kf, bytes_ok l → bytes_ok (masked_xor_evolving kf l))).
  - intros l Hl kf Hb. apply (bytes_ok_masked_xor_tail kf) in Hb. by short l.
  - intros a b c d t IH kf Hb. cbn [masked_xor_evolving]. rewrite !Forall_cons in Hb.
    apply Forall_app. split; [apply bytes_ok_xor_word|]. apply IH; tauto.
Qed.

(** The evolving mask is its own inverse: the key sequence does not depend on the data. *)
Lemma masked_xor_evolving_involutive kf l :
  bytes_ok l → masked_xor_evolving kf (masked_xor_evolving kf l) = l.
Proof.
  revert l kf. apply (quad_ind (λ l, ∀ kf, bytes_ok l → masked_xor_evolving kf (masked_xor_evolving kf l) = l)).
  - intros l Hl kf Hb. transitivity (masked_xor_tail kf (masked_xor_tail kf l)); [|by apply masked_xor_tail_involutive].
    pose proof (length_masked_xor_tail kf l Hl) as Hk.
    assert (masked_xor_evolving kf l = masked_xor_tail kf l) as -> by (by short l).
    set (m := masked_xor_tail kf l) in *. rewrite <- Hk in Hl. clearbody m. clear Hk Hb l. by short m.
  - intros a b c d t IH kf Hb.
    pose proof (xor_word_involutive kf [a; b; c; d]) as Hx. pose proof (length_xor_word kf [a; b; c; d]) as Hk.
    rewrite !Forall_cons in Hb. destruct Hb as (Ha & Hb & Hc & Hd & Ht).
    specialize (Hx ltac:(by repeat apply Forall_cons_2)). cbn [masked_xor_evolving].
    destruct (xor_word kf [a; b; c; d]) as [|? [|? [|? [|? [|? ?]]]]]; try done.
    cbn [app masked_xor_evolving]. rewrite Hx, IH by done. done.
Qed.

Lemma masked_xor_involutive kf l : bytes_ok l → masked_xor kf (masked_xor kf l) = l.
Proof.
  unfold masked_xor. revert l. apply (quad_ind (λ l, bytes_ok l → masked_xor_fixed kf (masked_xor_fixed kf l) = l)).
  - intros l Hl Hb. transitivity (masked_xor_tail kf (masked_xor_tail kf l)); [|by apply masked_xor_tail_involutive].
    pose proof (length_masked_xor_tail kf l Hl) as Hk.
    assert (masked_xor_fixed kf l = masked_xor_tail kf l) as -> by (by short l).
    set (m := masked_xor_tail kf l) in *. rewrite <- Hk in Hl. clearbody m. clear Hk Hb l. by short m.
  - intros a b c d t IH Hb.
    pose proof (xor_word_involutive kf [a; b; c; d]) as Hx. pose proof (length_xor_word kf [a; b; c; d]) as Hk.
    rewrite !Forall_cons in Hb. destruct Hb as (Ha & Hb & Hc & Hd & Ht).
    specialize (Hx ltac:(by repeat apply Forall_cons_2)). cbn [masked_xor_fixed].
    destruct (xor_word kf [a; b; c; d]) as [|? [|? [|? [|? [|? ?]]]]]; try done.
    cbn [app masked_xor_fixed]. rewrite Hx, IH by done. done.
Qed.

Lemma masked_xor_random_next_involutive kf l :
  bytes_ok l → masked_xor_random_next kf (masked_xor_random_next kf l) = l.
Proof.
  intros Hb. unfold masked_xor_random_next. destruct l as [|x t]; [done|].
  pose proof (length_masked_xor_evolving (random_next_from_key kf) (x :: t)) as Hk.
  rewrite <- (masked_xor_evolving_involutive (random_next_from_key kf) (x :: t) Hb) at 2.
  by destruct (masked_xor_evolving _ (x :: t)).
Qed.

Lemma length_masked_xor_random_next kf l : length (masked_xor_random_next kf l) = length l.
Proof. unfold masked_xor_random_next. destruct l; [done|apply length_masked_xor_evolving]. Qed.

Lemma bytes_ok_masked_xor_random_next kf l : bytes_ok l → bytes_ok (masked_xor_random_next kf l).
Proof. intros. unfold masked_xor_random_next. destruct l; [done|by apply bytes_ok_masked_xor_evolving]. Qed.

(** * The permutation *)

Lemma swap_at_length i j l : length (swap_at i j l) = length l.
Proof. unfold swap_at. repeat case_match; by rewrite ?length_insert. Qed.

Lemma swap_at_involutive i j l : swap_at i j (swap_at i j l) = l.
Proof.
  unfold swap_at at 2. destruct (l !! i) as [x|] eqn:Hi; [|unfold swap_at; by rewrite Hi].
  destruct (l !! j) as [y|] eqn:Hj; [|unfold swap_at; by rewrite Hi, Hj].
  assert (i < length l)%nat by (by eapply lookup_lt_Some). assert (j < length l)%nat by (by eapply lookup_lt_Some).
  unfold swap_at. destruct (decide (i = j)) as [->|Hne].
  - simplify_eq. rewrite list_insert_insert_eq.
    rewrite list_lookup_insert_eq by (rewrite ?length_insert; lia).
    rewrite !list_insert_insert_eq. by rewrite list_insert_id.
  - rewrite list_lookup_insert_ne, list_lookup_insert_eq by (try done; lia).
    rewrite list_lookup_insert_eq by (rewrite length_insert; lia).
    rewrite (list_insert_insert_ne _ i j), list_insert_insert_eq by done.
    rewrite list_insert_insert_eq, (list_insert_id l i) by done. by apply list_insert_id.
Qed.

Lemma shuffle_fold_length key n l js : length (foldl (shuffle_step key n) l js) = length l.
Proof. revert l. induction js as [|i js IH]; intros l; cbn [foldl]; [done|]. rewrite IH. apply swap_at_length. Qed.

(** Running the swaps backwards undoes them. *)
Lemma shuffle_fold_undo key n l js :
  foldl (shuffle_step key n) (foldl (shuffle_step key n) l js) (rev js) = l.
Proof.
  revert l. induction js as [|i js IH]; intros l; [done|]. cbn [rev foldl]. rewrite foldl_app, IH. apply swap_at_involutive.
Qed.

Lemma length_shuffle_data key l : length (shuffle_data key l) = length l.
Proof. apply shuffle_fold_length. Qed.

Lemma length_unshuffle_data key l : length (unshuffle_data key l) = length l.
Proof. apply shuffle_fold_length. Qed.

Lemma unshuffle_shuffle key l : unshuffle_data key (shuffle_data key l) = l.
Proof. unfold unshuffle_data. rewrite length_shuffle_data. apply shuffle_fold_undo. Qed.

Lemma shuffle_unshuffle key l : shuffle_data key (unshuffle_data key l) = l.
Proof.
  unfold shuffle_data. rewrite length_unshuffle_data. unfold unshuffle_data.
  rewrite <- (rev_involutive (seq 0 (length l))) at 2. apply shuffle_fold_undo.
Qed.

Lemma Forall_swap_at (P : Z → Prop) i j l : Forall P l → Forall P (swap_at i j l).
Proof.
  intros Hl. unfold swap_at. repeat case_match; [|done..].
  repeat apply Forall_insert; [done|by eapply Forall_lookup_1..].
Qed.

Lemma Forall_shuffle (P : Z → Prop) key l : Forall P l → Forall P (shuffle_data key l).
Proof.
  unfold shuffle_data. generalize (seq 0 (length l)) as js. generalize (length l) as n.
  intros n js. revert l. induction js as [|i js IH]; intros l Hl; [done|]. cbn [foldl]. by apply IH, Forall_swap_at.
Qed.

Lemma insert_swaps_out (l : list Z) i x y : l !! i = Some x → x :: <[i:=y]> l ≡ₚ y :: l.
Proof.
  intros Hi. rewrite insert_take_drop by (by eapply lookup_lt_Some). rewrite <- (take_drop_middle l i x Hi) at 3.
  rewrite <- !Permutation_middle. apply Permutation_swap.
Qed.

(** The swaps stay inside the buffer and lose no byte. *)
Lemma swap_at_perm i j l : swap_at i j l ≡ₚ l.
Proof.
  unfold swap_at. destruct (l !! i) as [x|] eqn:Hi; [|done]. destruct (l !! j) as [y|] eqn:Hj; [|done].
  destruct (decide (i = j)) as [->|Hne]; [simplify_eq; by rewrite list_insert_insert_eq, list_insert_id|].
  apply (Permutation_cons_inv (a := y)).
  rewrite (insert_swaps_out _ j y x); [by apply insert_swaps_out|by rewrite list_lookup_insert_ne].
Qed.

Lemma shuffle_data_perm key l : shuffle_data key l ≡ₚ l.
Proof.
  unfold shuffle_data. generalize (seq 0 (length l)) as js. generalize (length l) as n.
  intros n js. revert l. induction js as [|i js IH]; intros l; [done|]. cbn [foldl]. rewrite IH. apply swap_at_perm.
Qed.

(** * Delta coding *)

Lemma undelta_delta prev q l : bytes_ok l → wrap 8 prev = wrap 8 q → undelta_loop prev (delta_loop q l) = l.
Proof.
  revert prev q. induction l as [|c t IH]; intros prev q Hl Hp; [done|]. cbn [delta_loop undelta_loop].
  apply Forall_cons in Hl as [Hc Ht].
  assert (wrap 8 (prev + wrap 8 (c - q)) = c) as ->; [|by rewrite IH].
  unfold wrap in *. rewrite Zplus_mod_idemp_r, <- Zplus_mod_idemp_l, Hp, Zplus_mod_idemp_l.
  replace (q + (c - q)) with c by lia. by apply wrap_small.
Qed.

Lemma length_delta_loop q l : length (delta_loop q l) = length l.
Proof. revert q. induction l; intros; simpl; auto. Qed.

Lemma length_undelta_loop q l : length (undelta_loop q l) = length l.
Proof. revert q. induction l; intros; simpl; auto. Qed.

Lemma bytes_ok_delta_loop q l : bytes_ok (delta_loop q l).
Proof. revert q. induction l; intros; simpl; [done|]. apply Forall_cons. split; [apply wrap8_byte|done]. Qed.

Lemma bytes_ok_undelta_loop q l : bytes_ok (undelta_loop q l).
Proof. revert q. induction l; intros; simpl; [done|]. apply Forall_cons. split; [apply wrap8_byte|done]. Qed.

Lemma delta_decode_encode kf l c : bytes_ok l → delta_encode kf l = Some c →
  delta_decode kf c = Some l ∧ length c = length l ∧ bytes_ok c.
Proof.
  unfold delta_encode, delta_decode. intros Hl Hc. destruct l as [|x t]; [done|]. simplify_eq.
  split; [|split; [apply length_delta_loop|apply bytes_ok_delta_loop]].
  rewrite <- (undelta_delta kf kf (x :: t)) at 2 by done. by destruct (delta_loop kf (x :: t)) eqn:E.
Qed.

(** * Base94 *)

(** The symbols of the alphabet: space to tilde. *)
Definition printable (c : Z) : Prop := 32 ≤ c ≤ 126.

(** A key-adjusted byte that takes one symbol, and one that takes two. *)
Lemma encode_symbol_spec b : is_byte b →
  (b < 93 ∧ encode_symbol b = [32 + b]) ∨
  (∃ q r, (q = 1 ∨ q = 2) ∧ 0 ≤ r < 93 ∧ b = 93 * q + r ∧ encode_symbol b = [124 + q; 32 + r]).
Proof.
  intros Hb. unfold is_uint in Hb. unfold encode_symbol, BASE93_RADIX, BASE94_SYMBOL_COUNT.
  replace (94 - 1) with 93 by done. destruct (93 <=? b) eqn:E; [right|left].
  - exists (b / 93), (b mod 93).
    assert (1 ≤ b / 93 < 3) by (split; [apply Z.div_le_lower_bound|apply Z.div_lt_upper_bound]; lia).
    pose proof (Z.mod_pos_bound b 93). pose proof (Z.div_mod b 93).
    rewrite !wrap_small by (unfold is_uint; lia). repeat split; try lia. f_equal; lia.
  - rewrite wrap_small by (unfold is_uint; lia). split; [lia|done].
Qed.

Lemma encode_symbol_printable b : is_byte b → Forall printable (encode_symbol b).
Proof.
  intros Hb. pose proof Hb as [? ?]. destruct (encode_symbol_spec b Hb) as [[? ->]|(q & r & ? & ? & ? & ->)];
    repeat (apply Forall_cons_2; [unfold printable; lia|]); apply Forall_nil_2.
Qed.

Lemma encode_symbol_length b : is_byte b →
  Z.of_nat (length (encode_symbol b)) = if BASE93_RADIX <=? b then 2 else 1.
Proof. intros. unfold encode_symbol. by case_match. Qed.

(** The first pass of the encoder computes exactly the bytes the second pass writes. *)
Lemma encoded_length_exact kf data : Z.of_nat (length (encode_symbols kf data)) = encoded_length kf data.
Proof.
  induction data as [|c t IH]; [done|]. cbn [encode_symbols encoded_length].
  rewrite length_app, Nat2Z.inj_add, IH, encode_symbol_length by apply wrap8_byte. done.
Qed.

Lemma encoded_length_bounds kf data :
  Z.of_nat (length data) ≤ encoded_length kf data ≤ 2 * Z.of_nat (length data).
Proof. induction data as [|c t IH]; [done|]. cbn [encoded_length length]. case_match; lia. Qed.

Lemma encode_symbols_printable kf data : Forall printable (encode_symbols kf data).
Proof.
  induction data as [|c t IH]; [done|]. cbn [encode_symbols]. apply Forall_app.
  split; [apply encode_symbol_printable, wrap8_byte|done].
Qed.

Lemma printable_wrap c : printable c → wrap 8 (c - 32) = c - 32.
Proof. intros [? ?]. apply wrap_small. unfold is_uint. lia. Qed.

Ltac symbol_arith :=
  unfold BASE93_RADIX, BASE94_SYMBOL_COUNT in *; rewrite ?printable_wrap by (unfold printable; lia).

Lemma decode_validate_symbol n b t : is_byte b →
  decode_validate n (encode_symbol b ++ t) =
  decode_validate (n + 1 - Z.of_nat (length (encode_symbol b))) t.
Proof.
  intros Hb. pose proof Hb as [? ?]. destruct (encode_symbol_spec b Hb) as [[? ->]|(q & r & ? & ? & ? & ->)]; cbn [app decode_validate length].
  - symbol_arith. rewrite !(proj2 (Z.ltb_ge _ _)), (proj2 (Z.leb_gt _ _)) by lia. f_equal. lia.
  - symbol_arith. rewrite !(proj2 (Z.ltb_ge _ _)), (proj2 (Z.leb_le _ _)) by lia. f_equal. lia.
Qed.

Lemma decode_symbols_symbol kf b t : is_byte b →
  decode_symbols kf (encode_symbol b ++ t) =
  match decode_symbols kf t with inl e => inl e | inr r => inr (wrap 8 (b + kf) :: r) end.
Proof.
  intros Hb. pose proof Hb as [? ?]. destruct (encode_symbol_spec b Hb) as [[? ->]|(q & r & ? & ? & ? & ->)]; cbn [app decode_symbols].
  - symbol_arith. rewrite (proj2 (Z.leb_gt _ _)) by lia. by replace (32 + b - 32) with b by lia.
  - symbol_arith. rewrite (proj2 (Z.leb_le _ _)) by lia.
    replace ((124 + q - 32 - (94 - 1) + 1) * (94 - 1) + (32 + r - 32)) with b by lia.
    rewrite (proj2 (Z.ltb_ge _ _)) by lia. done.
Qed.

Lemma decode_validate_symbols n kf data :
  ∃ m, decode_validate n (encode_symbols kf data) = inr m.
Proof.
  revert n. induction data as [|c t IH]; intros n; [by exists n|]. cbn [encode_symbols].
  rewrite decode_validate_symbol by apply wrap8_byte. apply IH.
Qed.

Lemma decode_encode_symbols kf data : bytes_ok data → decode_symbols kf (encode_symbols kf data) = inr data.
Proof.
  induction 1 as [|c t Hc Ht IH]; [done|]. cbn [encode_symbols].
  rewrite decode_symbols_symbol, IH by apply wrap8_byte. by rewrite wrap_sub_add.
Qed.

Lemma base94_decode_encode kf data p :
  bytes_ok data → base94_encode kf data = Some p → base94_decode kf p = inr data.
Proof.
  unfold base94_encode, base94_decode. intros Hd He. destruct data as [|c t]; [done|]. simplify_eq.
  destruct (decode_validate_symbols (Z.of_nat (length (encode_symbols kf (c :: t)))) kf (c :: t)) as [m Hm].
  rewrite Hm, decode_encode_symbols by done.
  pose proof (encoded_length_exact kf (c :: t)). pose proof (encoded_length_bounds kf (c :: t)).
  destruct (encode_symbols kf (c :: t)); [simpl in *; lia|done].
Qed.

(** * Base94 integers *)

(** The value of a digit string, without the 64-bit wrap-around. *)
Definition digits_value (m : Z) (p : list Z) : Z := foldl (λ n c, n * 94 + (c - 32)) m p.
Abbreviation digit_ok := (λ c : Z, 32 ≤ c < 126).

Lemma digits_value_ge m p : 0 ≤ m → Forall digit_ok p → m ≤ digits_value m p.
Proof.
  revert m. induction p as [|c t IH]; intros m Hm Hp; [done|]. apply Forall_cons in Hp as [Hc Ht].
  unfold digits_value in *. cbn [foldl]. simpl in Hc. pose proof (IH (m * 94 + (c - 32)) ltac:(lia) Ht). lia.
Qed.

(** No wrap-around happens while the value fits in 64 bits. *)
Lemma decimal_loop_value m p :
  0 ≤ m → Forall digit_ok p → digits_value m p < 2 ^ 64 → decimal_loop m p = digits_value m p.
Proof.
  revert m. induction p as [|c t IH]; intros m Hm Hp Hv; [done|]. apply Forall_cons in Hp as [Hc Ht].
  simpl in Hc. cbn [decimal_loop]. rewrite (proj2 (Z.ltb_ge _ _)) by lia.
  rewrite (wrap_small 8) by (unfold is_uint; lia). unfold BASE94_SYMBOL_COUNT. rewrite (proj2 (Z.leb_gt _ _)) by lia.
  change (digits_value m (c :: t)) with (digits_value (m * 94 + (c - 32)) t) in *.
  pose proof (digits_value_ge (m * 94 + (c - 32)) t ltac:(lia) Ht).
  rewrite wrap_small by (unfold is_uint; lia). apply IH; [lia|done|done].
Qed.

Lemma digits_value_app m p q : digits_value m (p ++ q) = digits_value (digits_value m p) q.
Proof. unfold digits_value. apply foldl_app. Qed.

Lemma digit_char n : 0 ≤ n → wrap 8 (n mod BASE94_SYMBOL_COUNT + 32) = n mod 94 + 32.
Proof. intros. apply wrap_small. unfold is_uint, BASE94_SYMBOL_COUNT. pose proof (Z.mod_pos_bound n 94). lia. Qed.

Lemma decimal_digits_acc k n acc : decimal_digits k n acc = decimal_digits k n [] ++ acc.
Proof.
  revert n acc. induction k as [|k IH]; intros n acc; [done|]. cbn [decimal_digits]. case_match; [|done].
  rewrite IH. rewrite (IH _ [_]). by rewrite <- app_assoc.
Qed.

Lemma decimal_digits_S k n : 0 ≤ n →
  decimal_digits (S k) n [] = (if 0 <? n / 94 then decimal_digits k (n / 94) [] else []) ++ [n mod 94 + 32].
Proof.
  intros Hn. cbn [decimal_digits]. rewrite digit_char by done. unfold BASE94_SYMBOL_COUNT.
  case_match; [|done]. by rewrite decimal_digits_acc.
Qed.

(** The digits of [n]: they have the value [n], there are as few as possible, and the first is not
    the zero digit unless [n] is zero. *)
Lemma decimal_digits_spec k n : 0 ≤ n < 94 ^ Z.of_nat (S k) →
  Forall digit_ok (decimal_digits (S k) n []) ∧ digits_value 0 (decimal_digits (S k) n []) = n ∧
  (0 < n → ∃ d t, decimal_digits (S k) n [] = d :: t ∧ 32 < d ∧ 94 ^ Z.of_nat (length t) ≤ n) ∧
  n < 94 ^ Z.of_nat (length (decimal_digits (S k) n [])) ∧ (length (decimal_digits (S k) n []) ≤ S k)%nat.
Proof.
  revert n. induction k as [|k IH]; intros n Hn.
  - rewrite decimal_digits_S by lia. rewrite Nat2Z.inj_succ, Z.pow_succ_r in Hn by lia. change (94 ^ Z.of_nat 0) with 1 in Hn.
    rewrite Z.div_small, Z.mod_small by lia. cbn [Z.ltb Z.compare app length].
    repeat split; [apply Forall_cons_2; [lia|apply Forall_nil_2]|unfold digits_value; simpl; lia| |lia..].
    intros. exists (n + 32), []. split; [done|]. simpl. lia.
  - rewrite decimal_digits_S by lia.
    pose proof (Z.mod_pos_bound n 94 ltac:(lia)). pose proof (Z.div_mod n 94 ltac:(lia)) as Hdm.
    destruct (0 <? n / 94) eqn:E.
    + apply Z.ltb_lt in E. rewrite Nat2Z.inj_succ, Z.pow_succ_r in Hn by lia.
      destruct (IH (n / 94)) as (Hok & Hval & Hlead & Hlt & Hlen).
      { split; [lia|]. apply Z.div_lt_upper_bound; lia. }
      destruct Hlead as (d & t & Hd & Hd32 & Hlow); [done|].
      rewrite digits_value_app, Hval. unfold digits_value. cbn [foldl].
      rewrite length_app, Nat2Z.inj_add. cbn [length]. rewrite Z.add_1_r, Z.pow_succ_r by lia.
      repeat split; [apply Forall_app; split; [done|apply Forall_cons_2; [lia|apply Forall_nil_2]]|lia| |lia..].
      intros _. exists d, (t ++ [n mod 94 + 32]). rewrite Hd. split; [done|]. split; [done|].
      rewrite length_app, Nat2Z.inj_add. cbn [length]. rewrite Z.add_1_r, Z.pow_succ_r by lia. lia.
    + apply Z.ltb_ge in E. assert (n / 94 = 0) by (pose proof (Z.div_pos n 94); lia). cbn [app length].
      repeat split; [apply Forall_cons_2; [lia|apply Forall_nil_2]|unfold digits_value; simpl; lia| |lia..].
      intros. exists (n mod 94 + 32), []. split; [done|]. simpl. lia.
Qed.

Lemma base94_decimal_spec v : is_uint 64 v →
  Forall digit_ok (base94_decimal v) ∧ digits_value 0 (base94_decimal v) = v ∧
  (0 < v → ∃ d t, base94_decimal v = d :: t ∧ 32 < d ∧ 94 ^ Z.of_nat (length t) ≤ v) ∧
  v < 94 ^ Z.of_nat (length (base94_decimal v)) ∧ (1 ≤ length (base94_decimal v) ≤ 11)%nat.
Proof.
  intros Hv. unfold is_uint in Hv. unfold base94_decimal, BASE94_OUTPUT_BLOCK_SIZE.
  destruct (decimal_digits_spec 10 v) as (H1 & H2 & H3 & H4 & H5).
  { split; [lia|]. eapply Z.lt_trans; [apply Hv|]. vm_compute. reflexivity. }
  repeat split; try done. destruct (decimal_digits 11 v []) eqn:E; simpl; [|lia].
  change (94 ^ Z.of_nat (length [])) with 1 in H4. assert (v = 0) as -> by lia. done.
Qed.

(** Leading zero digits do not change the value, and parsing inverts printing. *)
Lemma base94_decimal_parse_pad k v : is_uint 64 v →
  base94_decimal_parse (replicate k 32 ++ base94_decimal v) = v.
Proof.
  intros Hv. destruct (base94_decimal_spec v Hv) as (H1 & H2 & _ & _ & H5).
  unfold base94_decimal_parse. destruct (replicate k 32 ++ base94_decimal v) eqn:E.
  { apply (f_equal length) in E. rewrite length_app in E. simpl in E. lia. }
  rewrite <- E. assert (Forall digit_ok (replicate k 32 ++ base94_decimal v)).
  { apply Forall_app. split; [|done]. apply Forall_replicate. lia. }
  assert (digits_value 0 (replicate k 32 ++ base94_decimal v) = v) as Hval.
  { rewrite digits_value_app. replace (digits_value 0 (replicate k 32)) with 0; [done|]. clear.
    induction k as [|k IH]; [done|]. exact IH. }
  rewrite decimal_loop_value by (rewrite ?Hval; done || unfold is_uint in Hv; lia). done.
Qed.

(** * The decoder's output *)

Definition sum_cons (x : Z) (r : Base94Error + list Z) : Base94Error + list Z :=
  match r with inl e => inl e | inr l => inr (x :: l) end.

(** Both passes advance over the input in the same strides. *)
Lemma decode_stride (P : list Z → Prop) :
  P [] → (∀ c t, wrap 8 (c - 32) < 93 → P t → P (c :: t)) →
  (∀ c, 93 ≤ wrap 8 (c - 32) → P [c]) → (∀ c d u, 93 ≤ wrap 8 (c - 32) → P u → P (c :: d :: u)) → ∀ p, P p.
Proof.
  intros H0 H1 H2 H3. fix IH 1. intros [|c t]; [done|]. destruct (Z_lt_le_dec (wrap 8 (c - 32)) 93).
  - apply H1; [done|]. apply IH.
  - destruct t as [|d u]; [by apply H2|]. apply H3; [done|]. apply IH.
Qed.

Lemma decode_symbols_plain kf c t : wrap 8 (c - 32) < 93 →
  decode_symbols kf (c :: t) = sum_cons (wrap 8 (wrap 8 (c - 32) + kf)) (decode_symbols kf t).
Proof. intros. cbn [decode_symbols]. unfold BASE93_RADIX, BASE94_SYMBOL_COUNT. by rewrite (proj2 (Z.leb_gt _ _)) by lia. Qed.

Lemma decode_symbols_escape kf c d u : 93 ≤ wrap 8 (c - 32) →
  decode_symbols kf (c :: d :: u) =
  let v := (wrap 8 (c - 32) - 92) * 93 + (d - 32) in
  if 255 <? v then inl SseaBase94DecodeValueOverflow else sum_cons (wrap 8 (v + kf)) (decode_symbols kf u).
Proof.
  intros. cbn [decode_symbols]. unfold BASE93_RADIX, BASE94_SYMBOL_COUNT. rewrite (proj2 (Z.leb_le _ _)) by lia.
  replace (wrap 8 (c - 32) - (94 - 1) + 1) with (wrap 8 (c - 32) - 92) by lia. done.
Qed.

(** What the first pass computes is the number of bytes the second pass writes, and the second
    pass writes bytes. *)
Lemma decode_length kf p n m r : decode_validate n p = inr m → decode_symbols kf p = inr r →
  Z.of_nat (length r) = Z.of_nat (length p) + m - n ∧ bytes_ok r.
Proof.
  revert n m r. induction p as [|c t Hc IH|c Hc|c d u Hc IH] using decode_stride; intros n m r Hv Hs.
  - simplify_eq/=. split; [lia|done].
  - rewrite decode_symbols_plain in Hs by done. destruct (decode_symbols kf t) as [|q]; [done|]. simplify_eq/=.
    unfold BASE93_RADIX, BASE94_SYMBOL_COUNT in Hv. rewrite (proj2 (Z.leb_gt _ (wrap 8 _))) in Hv by lia.
    do 2 (case_match; [done|]). destruct (IH n m q) as [??]; [done..|]. split; [lia|]. apply Forall_cons_2; [apply wrap8_byte|done].
  - cbn [decode_symbols] in Hs. by case_match; [|unfold BASE93_RADIX, BASE94_SYMBOL_COUNT in *; rewrite ?Z.leb_gt in *; lia].
  - rewrite decode_symbols_escape in Hs by done. cbn [decode_validate] in Hv. cbv zeta in Hs.
    case_match; [done|]. destruct (decode_symbols kf u) as [|q]; [done|]. simplify_eq/=.
    unfold BASE93_RADIX, BASE94_SYMBOL_COUNT in Hv. rewrite (proj2 (Z.leb_le _ _)) in Hv by lia.
    repeat case_match; try done. destruct (IH (n - 1) m q) as [??]; [done..|].
    split; [lia|]. apply Forall_cons_2; [apply wrap8_byte|done].
Qed.

(** What the first pass lets through is printable. *)
Lemma decode_validate_printable n p m : bytes_ok p → decode_validate n p = inr m → Forall printable p.
Proof.
  revert n. induction p as [|c t Hc IH|c Hc|c d u Hc IH] using decode_stride; intros n Hb Hv; [done|..].
  - apply Forall_cons in Hb as [Hcb Ht]. cbn [decode_validate] in Hv. unfold BASE93_RADIX, BASE94_SYMBOL_COUNT in Hv.
    rewrite (proj2 (Z.leb_gt _ (wrap 8 _))) in Hv by lia. case_match eqn:E; [done|]. apply Z.ltb_ge in E.
    case_match eqn:E1; [done|]. apply Forall_cons_2; [|by eapply IH].
    unfold is_uint in Hcb. rewrite wrap_small in Hc by (unfold is_uint; lia). unfold printable. lia.
  - cbn [decode_validate] in Hv. unfold BASE93_RADIX, BASE94_SYMBOL_COUNT in Hv.
    rewrite (proj2 (Z.leb_le _ (wrap 8 _))) in Hv by lia. by repeat case_match.
  - apply Forall_cons in Hb as [Hcb [Hdb Hu]%Forall_cons]. cbn [decode_validate] in Hv.
    unfold BASE93_RADIX, BASE94_SYMBOL_COUNT in Hv. unfold is_uint in Hcb, Hdb.
    rewrite (proj2 (Z.leb_le _ (wrap 8 _))) in Hv by lia.
    case_match eqn:E; [done|]. case_match eqn:E1; [done|]. case_match eqn:E2; [done|]. case_match eqn:E3; [done|].
    rewrite Z.ltb_ge in *. rewrite wrap_small in E1, E3 by (unfold is_uint; lia).
    apply Forall_cons_2; [unfold printable; lia|]. apply Forall_cons_2; [unfold printable; lia|]. by eapply IH.
Qed.

(** The scalar reference is not the code it replaces: three trailing bytes are masked differently. *)
Example masked_xor_reference_differs :
  masked_xor_random_next 7 [1; 2; 3] ≠ masked_xor_implement (random_next_from_key 7) [1; 2; 3].
Proof. vm_compute. discriminate. Qed.

(** The decoder accepts a second spelling of a byte that the encoder never writes. *)
Example base94_two_spellings :
  base94_decode 0 [125; 125] = inr [186] ∧ base94_encode 0 [186] = Some [126; 32].
Proof. done. Qed.

(** A string of more than 64 bits is not refused: the value wraps. *)
Example base94_decimal_wraps : base94_decimal_parse (replicate 11 125) = wrap 64 (94 ^ 11 - 1).
Proof. done. Qed.

(** Every transform of the module is undone by its counterpart with the same key: the Base94
    decoder inverts the encoder, delta decoding inverts delta encoding (neither encoder refuses a
    non-empty input), both XOR masks are their own inverse, the backward swaps undo the forward ones
    (and the permutation loses no byte), and the integer parser inverts the integer printer, also
    behind leading zero digits. *)
Theorem ssea_transforms_invert kf data v pad :
  bytes_ok data → is_uint 64 v →
  (∀ p, base94_encode kf data = Some p → base94_decode kf p = inr data) ∧
  (∀ p, delta_encode kf data = Some p → delta_decode kf p = Some data ∧ length p = length data) ∧
  (data ≠ [] → is_Some (base94_encode kf data) ∧ is_Some (delta_encode kf data)) ∧
  masked_xor kf (masked_xor kf data) = data ∧ masked_xor_random_next kf (masked_xor_random_next kf data) = data ∧
  unshuffle_data kf (shuffle_data kf data) = data ∧ shuffle_data kf data ≡ₚ data ∧
  base94_decimal_parse (replicate pad 32 ++ base94_decimal v) = v.
Proof.
  intros Hd Hv. split; [intros p; by apply base94_decode_encode|].
  split; [intros p Hp; by destruct (delta_decode_encode kf data p Hd Hp) as (? & ? & _)|].
  split; [by destruct data; [|split; eexists]|].
  split; [by apply masked_xor_involutive|]. split; [by apply masked_xor_random_next_involutive|].
  split; [apply unshuffle_shuffle|]. split; [apply shuffle_data_perm|]. by apply base94_decimal_parse_pad.
Qed.

Lemma ssea_transforms_invert_witness :
  base94_decode 154543927 (encode_symbols 154543927 [0; 93; 200; 255]) = inr [0; 93; 200; 255] ∧
  base94_decimal_parse (replicate 1 32 ++ base94_decimal 8835) = 8835.
Proof.
  destruct (ssea_transforms_invert 154543927 [0; 93; 200; 255] 8835 1) as (H1 & _ & _ & _ & _ & _ & _ & H6).
  - by apply (bool_decide_unpack _).
  - by apply (bool_decide_unpack _).
  - split; [apply H1; reflexivity|apply H6].
Defined.

(** The backslash is one of the symbols: the byte 60 encodes to it, and it decodes. *)
Example base94_uses_backslash : base94_encode 0 [60] = Some [92] ∧ base94_decode 0 [92] = inr [60].
Proof. done. Qed.

(** C40: the types of the Base94 codec.  Its alphabet is the 95 printable ASCII characters, space to
    tilde, the backslash included (the comment in the source speaks of 94 without the backslash).
    Every symbol the encoder emits is in it; the first pass of the encoder sizes the buffer exactly, between one
    and two symbols per byte; what the decoder returns are bytes, as many as its validating pass
    computed; and it refuses every character outside the alphabet. *)
Theorem base94_well_typed kf data :
  (∀ p, base94_encode kf data = Some p →
     Forall printable p ∧ Z.of_nat (length p) = encoded_length kf data ∧
     (length data ≤ length p ≤ 2 * length data)%nat) ∧
  (∀ r, base94_decode kf data = inr r →
     bytes_ok r ∧ decode_validate (Z.of_nat (length data)) data = inr (Z.of_nat (length r)) ∧
     (bytes_ok data → Forall printable data)).
Proof.
  split.
  - unfold base94_encode. intros p Hp. destruct data as [|c t]; [done|]. simplify_eq.
    split; [apply encode_symbols_printable|]. split; [apply encoded_length_exact|].
    pose proof (encoded_length_exact kf (c :: t)). pose proof (encoded_length_bounds kf (c :: t)). lia.
  - unfold base94_decode. intros r Hr. destruct data as [|c t]; [done|].
    destruct (decode_validate _ _) as [|m] eqn:Hm; [done|].
    destruct (decode_length kf _ _ m r Hm Hr) as [Hl Hb]. split; [done|]. split; [f_equal; lia|].
    intros. by eapply decode_validate_printable.
Qed.
