(* ===== verification/SseaSimd.v ===== *)
(** * The SSSE3 kernels of the Base94 codec

    [ppp/cryptography/ssea_simd/base94_simd.h]: the encoder expands eight bytes at a time with a
    byte shuffle indexed by the mask of escaped bytes, the decoder compresses eight characters at a
    time; both store sixteen bytes at a moving position of an over-allocated buffer and finish with
    scalar loops.  A vector register is a list of sixteen lanes; an intrinsic is a map over lanes.
    A store outside the buffer is an outcome of its own, so that a routine that never has it is
    memory safe. *)

From S2P Require Import Prelude Ssea.

(** ** Intrinsics *)
Abbreviation m128 := (list Z).

Definition mm_set1_epi8 (c : Z) : m128 := replicate 16 (wrap 8 c).
(** A 64-bit load into the low half. *)
Definition mm_loadl_epi64 (p : list Z) : m128 := take 8 p ++ replicate 8 0.
Definition mm_cvtsi32_si128 (x : Z) : m128 := x :: replicate 15 0.
Definition mm_slli_si128 (v : m128) (n : nat) : m128 := take 16 (replicate n 0 ++ v).
Definition mm_srli_si128 (v : m128) (n : nat) : m128 := take 16 (drop n v ++ replicate n 0).
Definition mm_sub_epi8 : m128 → m128 → m128 := zip_with (λ a b, wrap 8 (a - b)).
Definition mm_add_epi8 : m128 → m128 → m128 := zip_with (λ a b, wrap 8 (a + b)).
Definition mm_xor_si128 : m128 → m128 → m128 := zip_with Z.lxor.
Definition mm_and_si128 : m128 → m128 → m128 := zip_with Z.land.
Definition mm_or_si128 : m128 → m128 → m128 := zip_with Z.lor.
Definition mm_andnot_si128 : m128 → m128 → m128 := zip_with (λ a b, Z.land (255 - a) b).
Definition int8 (x : Z) : Z := if 128 <=? x then x - 256 else x.
Definition mm_cmpgt_epi8 : m128 → m128 → m128 := zip_with (λ a b, if int8 b <? int8 a then 255 else 0).
Fixpoint interleave (a b : m128) : m128 :=
  match a, b with
  | x :: s, y :: t => x :: y :: interleave s t
  | _, _ => []
  end.
Definition mm_unpacklo_epi8 (a b : m128) : m128 := interleave (take 8 a) (take 8 b).
Definition mm_shuffle_epi8 (v idx : m128) : m128 :=
  map (λ i, if 128 <=? i then 0 else nth (Z.to_nat (Z.land i 15)) v 0) idx.
Fixpoint mm_movemask_epi8 (v : m128) : Z :=
  match v with
  | [] => 0
  | x :: t => Z.b2z (128 <=? x) + 2 * mm_movemask_epi8 t
  end.

(** How a routine ends: with bytes, with the result 0, or with a store outside its buffer. *)
Inductive SimdResult :=
  | SimdBytes (r : list Z)
  | SimdZero
  | SimdOutOfBounds.

(** The results a scalar routine can have. *)
Definition simd_result (r : option (list Z)) : SimdResult :=
  match r with Some r => SimdBytes r | None => SimdZero end.
(** The result of a last store; [None] is a store outside the buffer. *)
Definition simd_stored (outlen : nat) (r : option (list Z)) : SimdResult :=
  match r with Some out => SimdBytes (take outlen out) | None => SimdOutOfBounds end.

(** A store of a few bytes at [op]; [None] outside the buffer. *)
Definition mm_storeu (out : list Z) (op : nat) (v : list Z) : option (list Z) :=
  if (op + length v <=? length out)%nat then Some (take op out ++ v ++ drop (op + length v) out) else None.

(** ** Tables *)
Definition mask_bit (m : Z) (i : nat) : bool := Z.testbit m (Z.of_nat i).

Definition popcount8 (x : Z) : nat := length (filter (mask_bit x) (seq 0 8)).

(** A row of [encode_table]: both positions of an escaped byte, the low one of the others; padded
    with zeros to sixteen entries. *)
Definition encode_row (m : Z) : m128 :=
  let row := flat_map (λ i, if mask_bit m i then [Z.of_nat (2 * i); Z.of_nat (2 * i + 1)] else [Z.of_nat (2 * i + 1)])
               (seq 0 8) in
  row ++ replicate (16 - length row) 0.

(** A row of [decode_table]: the positions that are not deleted. *)
Definition decode_row (m : Z) : m128 :=
  let row := flat_map (λ i, if mask_bit m i then [] else [Z.of_nat (2 * i)]) (seq 0 8) in
  row ++ replicate (16 - length row) 0.

(** ** Encoder *)

(** The body of the encoder's loop: the sixteen bytes to store and the mask of escaped bytes. *)
Definition encode_block (kf : Z) (bytes : list Z) : m128 * Z :=
  let kf8 := mm_set1_epi8 kf in
  let c80 := mm_set1_epi8 128 in
  let c93 := mm_set1_epi8 93 in
  let c20 := mm_set1_epi8 32 in
  let cDC := mm_set1_epi8 (Z.lxor 92 128) in
  let c39 := mm_set1_epi8 (Z.lxor 185 128) in
  let one := mm_set1_epi8 1 in
  let c7D := mm_set1_epi8 125 in
  let b8 := mm_sub_epi8 (mm_loadl_epi64 bytes) kf8 in
  let biased := mm_xor_si128 b8 c80 in
  let L1 := mm_cmpgt_epi8 biased cDC in
  let L2 := mm_cmpgt_epi8 biased c39 in
  let lo := mm_sub_epi8 b8 (mm_and_si128 L1 c93) in
  let lo := mm_sub_epi8 lo (mm_and_si128 L2 c93) in
  let lo := mm_add_epi8 lo c20 in
  let hi := mm_add_epi8 c7D (mm_and_si128 L2 one) in
  let ex := mm_unpacklo_epi8 hi lo in
  let mask := Z.land (mm_movemask_epi8 L1) 255 in
  (mm_shuffle_epi8 ex (encode_row mask), mask).

(** The loop over the full blocks. *)
Fixpoint encode_blocks (n : nat) (kf : Z) (bytes out : list Z) (op : nat) : option (list Z * list Z * nat) :=
  match n with
  | O => Some (bytes, out, op)
  | S n =>
      let '(out16, mask) := encode_block kf bytes in
      match mm_storeu out op out16 with
      | None => None
      | Some out => encode_blocks n kf (drop 8 bytes) out (op + 8 + popcount8 mask)
      end
  end.

(** The scalar tail. *)
Fixpoint encode_tail (kf : Z) (bytes out : list Z) (op : nat) : option (list Z) :=
  match bytes with
  | [] => Some out
  | c :: t =>
      let b := wrap 8 (c - kf) in
      let s := if BASE93_RADIX <=? b
               then [wrap 8 (32 + b / BASE93_RADIX + 92); wrap 8 (32 + b mod BASE93_RADIX)]
               else [wrap 8 (32 + b)] in
      match mm_storeu out op s with
      | None => None
      | Some out => encode_tail kf t out (op + length s)
      end
  end.

(** [base94_encode_sse]: the first [outlen] bytes of the buffer; the buffer has sixteen spare
    bytes. *)
Definition base94_encode_sse (kf : Z) (data : list Z) : SimdResult :=
  match data with
  | [] => SimdZero
  | _ =>
      let outlen := Z.to_nat (encoded_length kf data) in
      match encode_blocks (length data / 8) kf data (replicate (outlen + 16) 0) 0 with
      | None => SimdOutOfBounds
      | Some (bytes, out, op) => simd_stored outlen (encode_tail kf bytes out op)
      end
  end.

(** ** Decoder *)

(** Each escape pair consumes two characters. *)
Fixpoint decoded_length (p : list Z) : nat :=
  match p with
  | [] => 0
  | c :: t => if 125 <=? c then match t with [] => 0 | _ :: u => S (decoded_length u) end
              else S (decoded_length t)
  end.

(** The body of the decoder's loop on nine characters: [None] when the validation fails, otherwise
    the sixteen bytes to store, the mask of deleted characters and the carry. *)
Definition decode_block (kf : Z) (p : list Z) (carry : Z) : option (m128 * Z * Z) :=
  let kf8 := mm_set1_epi8 kf in
  let c80 := mm_set1_epi8 128 in
  let c93 := mm_set1_epi8 93 in
  let c20 := mm_set1_epi8 32 in
  let cA0 := mm_set1_epi8 (Z.lxor 32 128) in
  let cFE := mm_set1_epi8 (Z.lxor 126 128) in
  let cFC := mm_set1_epi8 (Z.lxor 124 128) in
  let cFD := mm_set1_epi8 (Z.lxor 125 128) in
  let cE5 := mm_set1_epi8 (Z.lxor 101 128) in
  let c16 := mm_loadl_epi64 p in
  let next1 := mm_cvtsi32_si128 (byte_at p 8) in
  let c16 := mm_or_si128 c16 (mm_slli_si128 next1 8) in
  let cb := mm_xor_si128 c16 c80 in
  let esc := mm_cmpgt_epi8 cb cFC in
  let tilde := mm_cmpgt_epi8 cb cFD in
  let nxt := mm_srli_si128 c16 1 in
  let nb := mm_xor_si128 nxt c80 in
  let nxt_off := mm_sub_epi8 nxt c20 in
  let bad := mm_or_si128 (mm_cmpgt_epi8 cA0 cb) (mm_cmpgt_epi8 cb cFE) in
  let bad_n := mm_or_si128 (mm_cmpgt_epi8 cA0 nb) (mm_cmpgt_epi8 nb cFE) in
  let next_esc := mm_cmpgt_epi8 nb cFD in
  let next_hi := mm_cmpgt_epi8 nb cE5 in
  let ovf := mm_or_si128 (mm_and_si128 esc next_esc) (mm_and_si128 tilde next_hi) in
  let vbad := Z.land (mm_movemask_epi8 (mm_or_si128 (mm_or_si128 bad bad_n) ovf)) 255 in
  if negb (vbad =? 0) then None else
  let v_esc := mm_add_epi8 (mm_and_si128 tilde c93) c93 in
  let v_esc := mm_add_epi8 v_esc nxt_off in
  let v_norm := mm_sub_epi8 c16 c20 in
  let v := mm_or_si128 (mm_and_si128 esc v_esc) (mm_andnot_si128 esc v_norm) in
  let esc_bits := Z.land (mm_movemask_epi8 esc) 255 in
  let del := Z.lor (Z.land (Z.shiftl esc_bits 1) 255) carry in
  let carry := Z.land (Z.shiftr esc_bits 7) 1 in
  let v16 := mm_unpacklo_epi8 v v in
  let out16 := mm_add_epi8 (mm_shuffle_epi8 v16 (decode_row del)) kf8 in
  Some (out16, del, carry).

(** How the kernel ends: with its own output, by handing the whole input to the scalar decoder, or
    with a store outside its buffer. *)
Inductive KernelResult :=
  | Done (p out : list Z) (op : nat) (carry : Z)
  | Fallback
  | OutOfBounds.

(** The loop: it runs while nine characters are left. *)
Fixpoint decode_blocks (n : nat) (kf : Z) (p out : list Z) (op : nat) (carry : Z) : KernelResult :=
  match n with
  | O => Done p out op carry
  | S n =>
      match decode_block kf p carry with
      | None => Fallback
      | Some (out16, del, carry) =>
          match mm_storeu out op out16 with
          | None => OutOfBounds
          | Some out => decode_blocks n kf (drop 8 p) out (op + 8 - popcount8 del) carry
          end
      end
  end.

(** The validation of the tail. *)
Fixpoint tail_valid (p : list Z) : bool :=
  match p with
  | [] => true
  | c :: t =>
      if (c <? 32) || (126 <? c) then false else
      if 125 <=? c then
        match t with
        | [] => false
        | n :: u =>
            if (n <? 32) || (126 <? n) then false else
            let off := n - 32 in
            if BASE93_RADIX <? off then false else
            if (c =? 126) && (69 <? off) then false else tail_valid u
        end
      else tail_valid t
  end.

(** [base94_decode_scalar]: the reference reports failure as a zero length. *)
Definition base94_decode_scalar (kf : Z) (data : list Z) : option (list Z) :=
  match base94_decode kf data with inr r => Some r | inl _ => None end.

(** [base94_decode_sse].  The tail loop writes what [decode_symbols] computes, one byte per store. *)
Definition base94_decode_sse (kf : Z) (data : list Z) : SimdResult :=
  match data with
  | [] => SimdZero
  | _ =>
      if (length data <? 16)%nat then simd_result (base94_decode_scalar kf data) else
      let outlen := decoded_length data in
      match decode_blocks ((length data - 1) / 8) kf data (replicate (outlen + 16) 0) 0 0 with
      | Fallback => simd_result (base94_decode_scalar kf data)
      | OutOfBounds => SimdOutOfBounds
      | Done p out op carry =>
          let tail := drop (Z.to_nat carry) p in
          if negb (tail_valid tail) then simd_result (base94_decode_scalar kf data) else
          match decode_symbols kf tail with
          | inl _ => SimdZero
          | inr r => simd_stored outlen (mm_storeu out op r)
          end
      end
  end.

(** * Masks and stores *)

Fixpoint mask_of (bs : list bool) : Z :=
  match bs with
  | [] => 0
  | b :: t => Z.b2z b + 2 * mask_of t
  end.

Lemma mask_of_range bs : 0 ≤ mask_of bs < 2 ^ Z.of_nat (length bs).
Proof.
  induction bs as [|b t IH]; [done|]. cbn [mask_of length]. rewrite Nat2Z.inj_succ, Z.pow_succ_r by lia. destruct b; simpl; lia.
Qed.

Lemma movemask_lanes bs v : mm_movemask_epi8 (map (λ b : bool, if b then 255 else 0) bs ++ v) =
  mask_of bs + 2 ^ Z.of_nat (length bs) * mm_movemask_epi8 v.
Proof.
  induction bs as [|b t IH]; [simpl; lia|]. cbn [map app mm_movemask_epi8 mask_of length].
  rewrite IH, Nat2Z.inj_succ, Z.pow_succ_r by lia. destruct b; simpl; lia.
Qed.

Lemma movemask_nonneg v : 0 ≤ mm_movemask_epi8 v.
Proof. induction v as [|x t IH]; [done|]. cbn [mm_movemask_epi8]. destruct (128 <=? x); simpl; lia. Qed.

(** The upper half of a register does not reach the low eight bits of the mask. *)
Lemma movemask_low bs v : length bs = 8%nat →
  Z.land (mm_movemask_epi8 (map (λ b : bool, if b then 255 else 0) bs ++ v)) 255 = mask_of bs.
Proof.
  intros Hl. rewrite movemask_lanes, Hl, land_255. pose proof (mask_of_range bs) as Hr. rewrite Hl in Hr.
  change (2 ^ Z.of_nat 8) with 256 in *. rewrite Z.mul_comm, Z.mod_add by lia. by apply Z.mod_small.
Qed.

(** A store keeps what was written before it and the size of the buffer. *)
Lemma storeu_prefix out op v k : (op + length v ≤ length out)%nat → (k ≤ length v)%nat →
  ∃ out', mm_storeu out op v = Some out' ∧ length out' = length out ∧ take (op + k) out' = take op out ++ take k v.
Proof.
  intros Ho Hk. unfold mm_storeu. rewrite (proj2 (Nat.leb_le _ _)) by done. eexists. split; [done|]. split.
  - rewrite !length_app, length_take, length_drop. lia.
  - rewrite take_app_ge by (rewrite length_take; lia). rewrite length_take, Nat.min_l by lia.
    f_equal. replace (op + k - op)%nat with k by lia. by rewrite take_app_le.
Qed.

(** * The encoder *)

Definition lane_L1 (b : Z) : Z := if int8 (wrap 8 (Z.lxor 92 128)) <? int8 (Z.lxor b (wrap 8 128)) then 255 else 0.
Definition lane_L2 (b : Z) : Z := if int8 (wrap 8 (Z.lxor 185 128)) <? int8 (Z.lxor b (wrap 8 128)) then 255 else 0.
Definition lane_lo (b : Z) : Z :=
  wrap 8 (wrap 8 (wrap 8 (b - Z.land (lane_L1 b) (wrap 8 93)) - Z.land (lane_L2 b) (wrap 8 93)) + wrap 8 32).
Definition lane_hi (b : Z) : Z := wrap 8 (wrap 8 125 + Z.land (lane_L2 b) (wrap 8 1)).

(** A fact of all bytes, by evaluation. *)
Lemma all_bytes (P : Z → bool) : forallb P (seqZ 0 256) = true → ∀ b, is_byte b → P b = true.
Proof.
  intros Hall b Hb. rewrite forallb_forall in Hall. apply Hall. rewrite <- list_elem_of_In, elem_of_seqZ. unfold is_uint in Hb. lia.
Qed.

(** Division by 93 as two comparisons. *)
Lemma encode_lane b : is_byte b →
  lane_L1 b = (if 93 <=? b then 255 else 0) ∧
  encode_symbol b = if 93 <=? b then [lane_hi b; lane_lo b] else [lane_lo b].
Proof.
  intros Hb.
  pose (P := λ b, bool_decide (lane_L1 b = if 93 <=? b then 255 else 0) &&
                  bool_decide (encode_symbol b = if 93 <=? b then [lane_hi b; lane_lo b] else [lane_lo b])).
  assert (P b = true) as HP by (apply all_bytes; [vm_compute; reflexivity|done]).
  apply andb_true_iff in HP as [H1%bool_decide_eq_true_1 H2%bool_decide_eq_true_1]. done.
Qed.

(** The byte shuffle writes both symbols of an escaped byte and one of the others, in order. *)
Lemma expand_shuffle (m0 m1 m2 m3 m4 m5 m6 m7 : bool) (h0 h1 h2 h3 h4 h5 h6 h7 l0 l1 l2 l3 l4 l5 l6 l7 : Z) :
  let sym := λ (m : bool) (h l : Z), if m then [h; l] else [l] in
  let mask := mask_of [m0; m1; m2; m3; m4; m5; m6; m7] in
  let out16 := mm_shuffle_epi8 (interleave [h0; h1; h2; h3; h4; h5; h6; h7] [l0; l1; l2; l3; l4; l5; l6; l7])
                 (encode_row mask) in
  let syms := sym m0 h0 l0 ++ sym m1 h1 l1 ++ sym m2 h2 l2 ++ sym m3 h3 l3 ++ sym m4 h4 l4 ++ sym m5 h5 l5 ++
              sym m6 h6 l6 ++ sym m7 h7 l7 in
  take (8 + popcount8 mask) out16 = syms ∧ length out16 = 16%nat ∧ (8 + popcount8 mask = length syms)%nat.
Proof. destruct m0, m1, m2, m3, m4, m5, m6, m7; repeat split. Qed.

(** Lane-wise reading of the vector operations. *)
Lemma zip_set1_r (f : Z → Z → Z) v c : length v = 16%nat → zip_with f v (mm_set1_epi8 c) = map (λ x, f x (wrap 8 c)) v.
Proof.
  intros Hv. unfold mm_set1_epi8. rewrite zip_with_replicate_r by lia. symmetry. apply map_fmap.
Qed.

Lemma zip_set1_l (f : Z → Z → Z) v c : length v = 16%nat → zip_with f (mm_set1_epi8 c) v = map (λ x, f (wrap 8 c) x) v.
Proof.
  intros Hv. unfold mm_set1_epi8. rewrite zip_with_replicate_l by lia. symmetry. apply map_fmap.
Qed.

Lemma zip_maps {A} (f : Z → Z → Z) (g h : A → Z) v : zip_with f (map g v) (map h v) = map (λ x, f (g x) (h x)) v.
Proof. induction v; simpl; congruence. Qed.

Lemma zip_map_self (f : Z → Z → Z) (h : Z → Z) v : zip_with f v (map h v) = map (λ x, f x (h x)) v.
Proof. induction v; simpl; congruence. Qed.

Lemma zip_self_map (f : Z → Z → Z) (g : Z → Z) v : zip_with f (map g v) v = map (λ x, f (g x) x) v.
Proof. induction v; simpl; congruence. Qed.

Lemma zip_map_set1_r {A} (f : Z → Z → Z) (g : A → Z) v c : length v = 16%nat →
  zip_with f (map g v) (mm_set1_epi8 c) = map (λ x, f (g x) (wrap 8 c)) v.
Proof. intros. by rewrite zip_set1_r, map_map by (by rewrite length_map). Qed.

Lemma zip_set1_map_l {A} (f : Z → Z → Z) (g : A → Z) v c : length v = 16%nat →
  zip_with f (mm_set1_epi8 c) (map g v) = map (λ x, f (wrap 8 c) (g x)) v.
Proof. intros. by rewrite zip_set1_l, map_map by (by rewrite length_map). Qed.

Ltac lanes v H := repeat first
  [ rewrite (zip_set1_r _ v) by exact H | rewrite (zip_map_set1_r _ _ v) by exact H
  | rewrite (zip_set1_l _ v) by exact H | rewrite (zip_set1_map_l _ _ v) by exact H
  | rewrite zip_maps | rewrite zip_map_self | rewrite zip_self_map ].

Lemma encode_block_lanes kf p : (8 ≤ length p)%nat →
  let v := map (λ x, wrap 8 (x - wrap 8 kf)) (take 8 p ++ replicate 8 0) in
  encode_block kf p =
    let mask := Z.land (mm_movemask_epi8 (map lane_L1 v)) 255 in
    (mm_shuffle_epi8 (mm_unpacklo_epi8 (map lane_hi v) (map lane_lo v)) (encode_row mask), mask).
Proof.
  intros Hp. unfold encode_block, mm_loadl_epi64, mm_sub_epi8, mm_add_epi8, mm_xor_si128, mm_and_si128, mm_cmpgt_epi8.
  assert (length (take 8 p ++ replicate 8 0) = 16%nat) as H0 by (rewrite length_app, length_take, length_replicate; lia).
  rewrite (zip_set1_r _ (take 8 p ++ replicate 8 0)) by done. cbv zeta.
  set (v := map _ (take 8 p ++ replicate 8 0)).
  assert (length v = 16%nat) as Hv by (unfold v; by rewrite length_map). clearbody v. clear H0 Hp.
  lanes v Hv. reflexivity.
Qed.

(** One iteration of the vector loop does the work of eight iterations of the scalar one. *)
Lemma encode_block_scalar kf p : (8 ≤ length p)%nat →
  let '(out16, mask) := encode_block kf p in
  take (8 + popcount8 mask) out16 = encode_symbols kf (take 8 p) ∧ length out16 = 16%nat ∧
  (8 + popcount8 mask = length (encode_symbols kf (take 8 p)))%nat.
Proof.
  intros Hl. rewrite encode_block_lanes by done. cbv zeta.
  destruct p as [|c0 [|c1 [|c2 [|c3 [|c4 [|c5 [|c6 [|c7 t]]]]]]]]; try (simpl in Hl; lia).
  unfold mm_unpacklo_epi8. cbn [take app map replicate]. rewrite !(wrap_minus_r 8 _ kf).
  assert (∀ c, lane_L1 (wrap 8 (c - kf)) = if 93 <=? wrap 8 (c - kf) then 255 else 0) as HL
    by (intros; apply encode_lane, wrap8_byte).
  assert (∀ c, encode_symbol (wrap 8 (c - kf)) = if 93 <=? wrap 8 (c - kf)
            then [lane_hi (wrap 8 (c - kf)); lane_lo (wrap 8 (c - kf))] else [lane_lo (wrap 8 (c - kf))]) as HS
    by (intros; apply encode_lane, wrap8_byte).
  cbn [encode_symbols]. rewrite !HS, app_nil_r.
  rewrite (HL c0), (HL c1), (HL c2), (HL c3), (HL c4), (HL c5), (HL c6), (HL c7).
  match goal with |- context [mm_movemask_epi8 (_ :: _ :: _ :: _ :: _ :: _ :: _ :: _ :: ?u)] =>
    pose proof (movemask_low (map (λ c, 93 <=? wrap 8 (c - kf)) [c0; c1; c2; c3; c4; c5; c6; c7]) u eq_refl) as Hm end.
  cbn [map app] in Hm. rewrite Hm. apply expand_shuffle.
Qed.

Lemma encode_symbols_app kf p q : encode_symbols kf (p ++ q) = encode_symbols kf p ++ encode_symbols kf q.
Proof. induction p as [|c t IH]; [done|]. cbn [app encode_symbols]. by rewrite IH, app_assoc. Qed.

(** The vector loop: [written] is what the buffer holds so far. *)
Lemma encode_blocks_scalar n kf p out op total :
  (8 * n ≤ length p)%nat → (op + length (encode_symbols kf p) ≤ total)%nat → length out = (total + 16)%nat →
  ∃ out' op', encode_blocks n kf p out op = Some (drop (8 * n) p, out', op') ∧ length out' = (total + 16)%nat ∧
    op' = (op + length (encode_symbols kf (take (8 * n) p)))%nat ∧
    take op' out' = take op out ++ encode_symbols kf (take (8 * n) p).
Proof.
  revert p out op. induction n as [|n IH]; intros p out op Hp Ht Ho.
  - exists out, op. rewrite Nat.mul_0_r, drop_0, take_0. cbn [encode_blocks encode_symbols length].
    rewrite app_nil_r, Nat.add_0_r. done.
  - cbn [encode_blocks]. pose proof (encode_block_scalar kf p ltac:(lia)) as Hb.
    destruct (encode_block kf p) as [out16 mask]. destruct Hb as (Hs & Hl16 & Hk).
    rewrite <- (take_drop 8 p) in Ht. rewrite encode_symbols_app, length_app in Ht.
    destruct (storeu_prefix out op out16 (8 + popcount8 mask)) as (o1 & -> & Hl1 & Hp1); [lia| |].
    { rewrite Hl16, Hk, <- Hs, length_take. lia. }
    destruct (IH (drop 8 p) o1 (op + 8 + popcount8 mask)%nat) as (o2 & op2 & -> & Hl2 & Hop2 & Hp2).
    { rewrite length_drop. lia. } { lia. } { lia. }
    exists o2, op2. rewrite drop_drop. split; [repeat f_equal; lia|]. split; [done|].
    assert (take (8 * S n) p = take 8 p ++ take (8 * n) (drop 8 p)) as Htk.
    { replace (8 * S n)%nat with (8 + 8 * n)%nat by lia. by rewrite take_take_drop. }
    rewrite Htk, encode_symbols_app, length_app. split; [lia|].
    rewrite Hp2, <- Nat.add_assoc, Hp1, Hs. by rewrite app_assoc.
Qed.

Lemma encode_tail_symbol b :
  (if BASE93_RADIX <=? b then [wrap 8 (32 + b / BASE93_RADIX + 92); wrap 8 (32 + b mod BASE93_RADIX)] else [wrap 8 (32 + b)])
  = encode_symbol b.
Proof. unfold encode_symbol. case_match; [|done]. do 2 f_equal. unfold BASE93_RADIX, BASE94_SYMBOL_COUNT. lia. Qed.

Lemma encode_tail_scalar kf p out op total :
  (op + length (encode_symbols kf p) ≤ total)%nat → length out = (total + 16)%nat →
  ∃ out', encode_tail kf p out op = Some out' ∧
    take (op + length (encode_symbols kf p)) out' = take op out ++ encode_symbols kf p.
Proof.
  revert out op. induction p as [|c t IH]; intros out op Ht Ho.
  - exists out. cbn [encode_symbols length encode_tail]. rewrite app_nil_r, Nat.add_0_r. done.
  - cbn [encode_tail encode_symbols] in *. rewrite encode_tail_symbol. rewrite length_app in *.
    destruct (storeu_prefix out op (encode_symbol (wrap 8 (c - kf))) (length (encode_symbol (wrap 8 (c - kf)))))
      as (o1 & -> & Hl1 & Hp1); [lia..|].
    destruct (IH o1 (op + length (encode_symbol (wrap 8 (c - kf))))%nat) as (o2 & -> & Hp2); [lia..|].
    exists o2. split; [done|]. rewrite Nat.add_assoc, Hp2, Hp1, (take_ge (encode_symbol _)) by done. by rewrite app_assoc.
Qed.

Lemma encode_sse_scalar kf data : base94_encode_sse kf data = simd_result (base94_encode kf data).
Proof.
  unfold base94_encode_sse, base94_encode. destruct data as [|c t]; [done|]. set (p := c :: t).
  rewrite <- encoded_length_exact, Nat2Z.id.
  assert (8 * (length p / 8) ≤ length p)%nat by (apply Nat.Div0.mul_div_le).
  destruct (encode_blocks_scalar (length p / 8) kf p (replicate (length (encode_symbols kf p) + 16) 0) 0
              (length (encode_symbols kf p))) as (out & op & -> & Hl & Hop & Hp); [lia..|by rewrite length_replicate|].
  pose proof (encode_symbols_app kf (take (8 * (length p / 8)) p) (drop (8 * (length p / 8)) p)) as Happ.
  rewrite take_drop in Happ.
  destruct (encode_tail_scalar kf (drop (8 * (length p / 8)) p) out op (length (encode_symbols kf p)))
    as (o2 & -> & Hp2); [rewrite Happ, length_app; lia|done|].
  transitivity (SimdBytes (take (length (encode_symbols kf p)) o2)); [done|]. cbn [simd_result]. f_equal. rewrite take_0 in Hp. rewrite Hp, app_nil_l in Hp2. rewrite <- Happ in Hp2.
  rewrite <- Hp2 at 2. f_equal. rewrite Hop, Happ, length_app. lia.
Qed.

(** * The decoder *)

Definition lane_gt (k c : Z) : Z := if int8 (wrap 8 (Z.lxor k 128)) <? int8 (Z.lxor c (wrap 8 128)) then 255 else 0.
Definition lane_lt (k c : Z) : Z := if int8 (Z.lxor c (wrap 8 128)) <? int8 (wrap 8 (Z.lxor k 128)) then 255 else 0.

(** The lanes of the validation and of the value, for a character and its successor. *)
Definition lane_bad (x : Z * Z) : Z :=
  Z.lor (Z.lor (Z.lor (lane_lt 32 x.1) (lane_gt 126 x.1)) (Z.lor (lane_lt 32 x.2) (lane_gt 126 x.2)))
        (Z.lor (Z.land (lane_gt 124 x.1) (lane_gt 125 x.2)) (Z.land (lane_gt 125 x.1) (lane_gt 101 x.2))).
Definition lane_v (x : Z * Z) : Z :=
  Z.lor (Z.land (lane_gt 124 x.1)
           (wrap 8 (wrap 8 (Z.land (lane_gt 125 x.1) (wrap 8 93) + wrap 8 93) + wrap 8 (x.2 - wrap 8 32))))
        (Z.land (255 - lane_gt 124 x.1) (wrap 8 (x.1 - wrap 8 32))).

(** What they decide. *)
Definition bad_pair (c n : Z) : bool :=
  (c <? 32) || (126 <? c) || (n <? 32) || (126 <? n) || ((125 <=? c) && (126 <=? n)) || ((126 <=? c) && (101 <? n)).
Definition pair_value (c n : Z) : Z := if 125 <=? c then (if 126 <=? c then 186 else 93) + (n - 32) else c - 32.

(** The biased signed comparisons are unsigned ones. *)
Lemma lane_compare k c : is_byte k → is_byte c →
  lane_gt k c = (if k <? c then 255 else 0) ∧ lane_lt k c = (if c <? k then 255 else 0).
Proof.
  assert (∀ x, is_byte x → int8 (Z.lxor x 128) = x - 128) as Hbias.
  { intros x Hx. apply Z.eqb_eq. apply (all_bytes (λ x, int8 (Z.lxor x 128) =? x - 128)); [vm_compute; reflexivity|done]. }
  intros Hk Hc. unfold lane_gt, lane_lt. rewrite (wrap_small 8 (Z.lxor k 128)).
  - change (wrap 8 128) with 128. rewrite !Hbias by done.
    assert (∀ a b, (a - 128 <? b - 128) = (a <? b)) as Hsub by (intros; apply eq_true_iff_eq; rewrite !Z.ltb_lt; lia).
    by rewrite !Hsub.
  - pose proof (all_bytes (λ x, (0 <=? Z.lxor x 128) && (Z.lxor x 128 <? 256)) ltac:(vm_compute; reflexivity) k Hk) as Hr.
    simpl in Hr. unfold is_uint. blia.
Qed.

Lemma decode_lane_tests c n : is_byte c → is_byte n →
  lane_gt 124 c = (if 125 <=? c then 255 else 0) ∧ lane_bad (c, n) = (if bad_pair c n then 255 else 0) ∧
  (bad_pair c n = false → lane_v (c, n) = pair_value c n).
Proof.
  intros Hc Hn. unfold lane_bad, lane_v, bad_pair, pair_value. cbn [fst snd].
  assert (∀ k, (k <? c) = (k + 1 <=? c)) as Hle by (intros; apply eq_true_iff_eq; rewrite Z.ltb_lt, Z.leb_le; lia).
  rewrite (proj1 (lane_compare 124 c ltac:(done) Hc)), (proj1 (lane_compare 125 c ltac:(done) Hc)),
    (proj1 (lane_compare 126 c ltac:(done) Hc)), (proj2 (lane_compare 32 c ltac:(done) Hc)),
    (proj1 (lane_compare 125 n ltac:(done) Hn)), (proj1 (lane_compare 126 n ltac:(done) Hn)),
    (proj1 (lane_compare 101 n ltac:(done) Hn)), (proj2 (lane_compare 32 n ltac:(done) Hn)).
  rewrite (Hle 124), (Hle 125). replace (126 <=? n) with (125 <? n)
    by (apply eq_true_iff_eq; rewrite Z.ltb_lt, Z.leb_le; lia).
  change (124 + 1) with 125. change (125 + 1) with 126. split; [done|]. split.
  - by destruct (c <? 32), (126 <? c), (n <? 32), (126 <? n), (125 <=? c), (126 <=? c), (125 <? n), (101 <? n).
  - intros Hb. change (wrap 8 32) with 32. change (wrap 8 93) with 93.
    destruct (125 <=? c) eqn:E1, (126 <=? c) eqn:E2; cbn [andb] in Hb; bool_props; unfold is_uint in *; try lia.
    + change (Z.land 255 93) with 93. rewrite Z.land_0_l, Z.lor_0_r, Z.land_comm, land_255.
      rewrite (wrap_small 8 (n - 32)), (wrap_small 8 (93 + 93)), wrap_small by (unfold is_uint; lia). rewrite Z.mod_small; lia.
    + rewrite !Z.land_0_l, Z.lor_0_r, Z.land_comm, land_255.
      rewrite (wrap_small 8 (n - 32)), (wrap_small 8 (0 + 93)), wrap_small by (unfold is_uint; lia). rewrite Z.mod_small; lia.
    + rewrite Z.land_0_l, Z.lor_0_l. change (255 - 0) with 255. rewrite Z.land_comm, land_255.
      rewrite wrap_small by (unfold is_uint; lia). rewrite Z.mod_small; lia.
Qed.

(** The byte shuffle keeps the characters that are not deleted, in order. *)
Lemma compress_shuffle (f : Z → Z) (d0 d1 d2 d3 d4 d5 d6 d7 : bool) (v0 v1 v2 v3 v4 v5 v6 v7 : Z) :
  let keep := λ (d : bool) (v : Z), if d then [] else [v] in
  let del := mask_of [d0; d1; d2; d3; d4; d5; d6; d7] in
  let vs := [v0; v1; v2; v3; v4; v5; v6; v7] in
  let out16 := map f (mm_shuffle_epi8 (interleave vs vs) (decode_row del)) in
  let kept := keep d0 v0 ++ keep d1 v1 ++ keep d2 v2 ++ keep d3 v3 ++ keep d4 v4 ++ keep d5 v5 ++ keep d6 v6 ++ keep d7 v7 in
  take (8 - popcount8 del) out16 = map f kept ∧ length out16 = 16%nat ∧ (8 - popcount8 del = length kept)%nat ∧
  (popcount8 del ≤ 8)%nat.
Proof.
  cbv zeta.
  assert (∀ del vs, length (mm_shuffle_epi8 vs (decode_row del)) = length (decode_row del)) as Hlen
    by (intros; apply length_map).
  rewrite length_map, Hlen, firstn_map.
  destruct d0, d1, d2, d3, d4, d5, d6, d7; (split; [f_equal; reflexivity|split; [reflexivity|split; [reflexivity|]]]);
    apply Nat.leb_le; reflexivity.
Qed.

Lemma length_decode_row m : length (decode_row m) = 16%nat.
Proof.
  unfold decode_row. rewrite length_app, length_replicate.
  cut (∀ l, (length (flat_map (λ i, if mask_bit m i then [] else [Z.of_nat (2 * i)]) l) ≤ length l)%nat);
    [intros H; specialize (H (seq 0 8)); change (length (seq 0 8)) with 8%nat in H; lia|].
  induction l as [|i l IH]; [done|]. cbn [flat_map length]. rewrite length_app. case_match; cbn [length]; lia.
Qed.

(** Each character of the register with its successor. *)
Definition lane_pairs (c0 c1 c2 c3 c4 c5 c6 c7 c8 : Z) : list (Z * Z) :=
  [(c0, c1); (c1, c2); (c2, c3); (c3, c4); (c4, c5); (c5, c6); (c6, c7); (c7, c8)].

Lemma decode_block_lanes kf c0 c1 c2 c3 c4 c5 c6 c7 c8 t carry :
  let v := lane_pairs c0 c1 c2 c3 c4 c5 c6 c7 c8 ++ (c8, 0) :: replicate 7 (0, 0) in
  decode_block kf (c0 :: c1 :: c2 :: c3 :: c4 :: c5 :: c6 :: c7 :: c8 :: t) carry =
    if negb (Z.land (mm_movemask_epi8 (map lane_bad v)) 255 =? 0) then None else
    let esc_bits := Z.land (mm_movemask_epi8 (map (λ x, lane_gt 124 x.1) v)) 255 in
    let del := Z.lor (Z.land (Z.shiftl esc_bits 1) 255) carry in
    Some (map (λ x, wrap 8 (x + wrap 8 kf))
            (mm_shuffle_epi8 (interleave (map lane_v (take 8 v)) (map lane_v (take 8 v))) (decode_row del)),
          del, Z.land (Z.shiftr esc_bits 7) 1).
Proof.
  intros v. unfold decode_block.
  assert (mm_or_si128 (mm_loadl_epi64 (c0 :: c1 :: c2 :: c3 :: c4 :: c5 :: c6 :: c7 :: c8 :: t))
            (mm_slli_si128 (mm_cvtsi32_si128 (byte_at (c0 :: c1 :: c2 :: c3 :: c4 :: c5 :: c6 :: c7 :: c8 :: t) 8)) 8)
          = map fst v) as ->.
  { unfold mm_or_si128, mm_loadl_epi64, mm_slli_si128, mm_cvtsi32_si128, byte_at.
    cbn [nth take app replicate zip_with]. by rewrite !Z.lor_0_r, Z.lor_0_l. }
  assert (mm_srli_si128 (map fst v) 1 = map snd v) as -> by done.
  assert (length v = 16%nat) as Hv by done. clearbody v. cbv zeta.
  unfold mm_sub_epi8, mm_add_epi8, mm_xor_si128, mm_and_si128, mm_or_si128, mm_andnot_si128, mm_cmpgt_epi8.
  lanes v Hv. unfold mm_unpacklo_epi8. rewrite !firstn_map.
  rewrite zip_set1_r by (unfold mm_shuffle_epi8; rewrite length_map; apply length_decode_row).
  reflexivity.
Qed.

(** A left-to-right reading of [n] characters: the values of the characters that are not the second
    half of an escape, and whether the last one opens an escape.  Unlike the scalar decoder it does
    not know whether a character that looks like an escape already belongs to one. *)
Fixpoint lane_run (n : nat) (carry : bool) (p : list Z) : list Z * bool :=
  match n, p with
  | S n, c :: t =>
      let r := lane_run n (125 <=? c) t in
      ((if carry then [] else [pair_value c (byte_at t 0)]) ++ r.1, r.2)
  | _, _ => ([], carry)
  end.

Fixpoint lanes_ok (n : nat) (p : list Z) : bool :=
  match n, p with
  | S n, c :: t => negb (bad_pair c (byte_at t 0)) && lanes_ok n t
  | _, _ => true
  end.

Lemma mask_of_zero bs : mask_of bs = 0 → Forall (λ b, b = false) bs.
Proof.
  induction bs as [|b t IH]; [done|]. cbn [mask_of]. pose proof (mask_of_range t). intros. destruct b; simpl in *; [lia|].
  apply Forall_cons_2; [done|]. apply IH. lia.
Qed.

Lemma escape_masks (k e0 e1 e2 e3 e4 e5 e6 e7 : bool) :
  let esc := mask_of [e0; e1; e2; e3; e4; e5; e6; e7] in
  Z.lor (Z.land (Z.shiftl esc 1) 255) (Z.b2z k) = mask_of [k; e0; e1; e2; e3; e4; e5; e6] ∧
  Z.land (Z.shiftr esc 7) 1 = Z.b2z e7.
Proof. by destruct k, e0, e1, e2, e3, e4, e5, e6, e7. Qed.

Lemma movemask_low_tests {A} (f : A → Z) (g : A → bool) v w : length v = 8%nat →
  Forall (λ x, f x = if g x then 255 else 0) v →
  Z.land (mm_movemask_epi8 (map f (v ++ w))) 255 = mask_of (map g v).
Proof.
  intros Hl Hv. rewrite map_app, <- (movemask_low (map g v) (map f w)) by (by rewrite length_map).
  do 3 f_equal. rewrite map_map. apply map_ext_Forall, Hv.
Qed.

Lemma decode_block_run kf p (carry : bool) : bytes_ok p → (9 ≤ length p)%nat →
  match decode_block kf p (Z.b2z carry) with
  | None => True
  | Some (out16, del, k) =>
      lanes_ok 8 p = true ∧ k = Z.b2z (lane_run 8 carry p).2 ∧ length out16 = 16%nat ∧
      take (8 - popcount8 del) out16 = map (λ x, wrap 8 (x + kf)) (lane_run 8 carry p).1 ∧
      (8 - popcount8 del = length (lane_run 8 carry p).1)%nat ∧ (popcount8 del ≤ 8)%nat
  end.
Proof.
  intros Hb Hl. destruct p as [|c0 [|c1 [|c2 [|c3 [|c4 [|c5 [|c6 [|c7 [|c8 t]]]]]]]]]; try (simpl in Hl; lia).
  rewrite decode_block_lanes. cbv zeta. set (v := lane_pairs c0 c1 c2 c3 c4 c5 c6 c7 c8).
  assert (Forall (λ x : Z * Z, is_byte x.1 ∧ is_byte x.2) v) as Hv.
  { rewrite !Forall_cons in Hb. destruct Hb as (?&?&?&?&?&?&?&?&?&_). by repeat apply Forall_cons_2. }
  assert (length v = 8%nat) as Hlv by done.
  rewrite (movemask_low_tests lane_bad (λ x, bad_pair x.1 x.2) v) by
    (first [exact Hlv | apply (Forall_impl _ _ _ Hv); intros [c n] [??]; by apply decode_lane_tests]).
  rewrite (movemask_low_tests (λ x, lane_gt 124 x.1) (λ x, 125 <=? x.1) v) by
    (first [exact Hlv | apply (Forall_impl _ _ _ Hv); intros [c n] [??]; by apply (decode_lane_tests c n)]).
  rewrite take_app_le, take_ge by lia.
  destruct (mask_of (map _ v) =? 0) eqn:Ebad; cbn [negb]; [|done].
  apply Z.eqb_eq, mask_of_zero in Ebad. rewrite Forall_map in Ebad.
  assert (map lane_v v = map (λ x, pair_value x.1 x.2) v) as ->.
  { apply map_ext_Forall. pose proof (proj2 (Forall_and _ _) (conj Hv Ebad)) as Hboth. apply (Forall_impl _ _ _ Hboth).
    intros [c n] [[??]?]. by apply decode_lane_tests. }
  unfold v, lane_pairs in Ebad. rewrite !Forall_cons in Ebad. cbn [fst snd] in Ebad.
  destruct Ebad as (B0 & B1 & B2 & B3 & B4 & B5 & B6 & B7 & _).
  unfold v, lane_pairs. cbn [map fst snd].
  destruct (escape_masks carry (125 <=? c0) (125 <=? c1) (125 <=? c2) (125 <=? c3) (125 <=? c4) (125 <=? c5)
              (125 <=? c6) (125 <=? c7)) as [-> ->].
  cbn [lanes_ok lane_run byte_at nth fst snd]. unfold byte_at. cbn [nth].
  rewrite B0, B1, B2, B3, B4, B5, B6, B7. split; [done|]. split; [done|].
  edestruct (compress_shuffle (λ x, wrap 8 (x + wrap 8 kf))) as (H1 & H2 & H3 & H4).
  split; [apply H2|]. rewrite app_nil_r. split; [|split; [apply H3|apply H4]].
  rewrite H1. apply map_ext. intros x. unfold wrap. apply Zplus_mod_idemp_r.
Qed.

(** * The decoder against the scalar reference *)

(** No escape is completed by a character that itself looks like an escape.  The encoder never
    writes such a pair. *)
Fixpoint canonical (p : list Z) : bool :=
  match p with
  | [] => true
  | c :: t => if 125 <=? c then match t with [] => true | d :: u => (d <? 125) && canonical u end else canonical t
  end.

Definition skip (carry : bool) (p : list Z) : list Z := if carry then drop 1 p else p.
Definition prepend (l : list Z) (r : Base94Error + list Z) : Base94Error + list Z :=
  match r with inl e => inl e | inr x => inr (l ++ x) end.
Definition validates (p : list Z) : Prop := ∀ n, ∃ m, decode_validate n p = inr m.

(** What the kernel relies on between two characters. *)
Definition lane_inv (carry : bool) (p : list Z) : Prop :=
  canonical (skip carry p) = true ∧ (carry = true → ∃ c t, p = c :: t ∧ c < 125).

Definition lane_emits (kf : Z) (carry : bool) (p : list Z) (vs : list Z) (k : bool) (q : list Z) : Prop :=
  lane_inv k q ∧
  decode_symbols kf (skip carry p) = prepend (map (λ x, wrap 8 (x + kf)) vs) (decode_symbols kf (skip k q)) ∧
  (validates (skip k q) → validates (skip carry p)) ∧
  decoded_length (skip carry p) = (length vs + decoded_length (skip k q))%nat.

Lemma bad_pair_false c n : bad_pair c n = false →
  32 ≤ c ≤ 126 ∧ 32 ≤ n ≤ 126 ∧ (125 ≤ c → n ≤ 125) ∧ (c = 126 → n ≤ 101).
Proof. unfold bad_pair. rewrite !orb_false_iff, !andb_false_iff. intros. bool_props; lia. Qed.

Lemma validates_plain c t : 32 ≤ c < 125 → validates t → validates (c :: t).
Proof.
  intros Hc Ht n. cbn [decode_validate]. rewrite wrap_small by (unfold is_uint; lia).
  unfold BASE93_RADIX, BASE94_SYMBOL_COUNT. rewrite !(proj2 (Z.ltb_ge _ _)), (proj2 (Z.leb_gt _ _)) by lia. apply Ht.
Qed.

Lemma validates_escape c d u : 125 ≤ c ≤ 126 → 32 ≤ d ≤ 125 → validates u → validates (c :: d :: u).
Proof.
  intros Hc Hd Hu n. cbn [decode_validate]. rewrite !wrap_small by (unfold is_uint; lia).
  unfold BASE93_RADIX, BASE94_SYMBOL_COUNT. rewrite !(proj2 (Z.ltb_ge _ _)), (proj2 (Z.leb_le _ _)) by lia. apply Hu.
Qed.

Lemma decode_plain kf c t : 32 ≤ c < 125 →
  decode_symbols kf (c :: t) = prepend [wrap 8 (c - 32 + kf)] (decode_symbols kf t).
Proof.
  intros Hc. rewrite decode_symbols_plain by (rewrite wrap_small by (unfold is_uint; lia); lia).
  by rewrite (wrap_small 8 (c - 32)) by (unfold is_uint; lia).
Qed.

Lemma decode_escape kf c d u : 125 ≤ c ≤ 126 → 32 ≤ d ≤ 125 → (c = 126 → d ≤ 101) →
  decode_symbols kf (c :: d :: u) = prepend [wrap 8 (pair_value c d + kf)] (decode_symbols kf u).
Proof.
  intros Hc Hd Ho. rewrite decode_symbols_escape by (rewrite wrap_small by (unfold is_uint; lia); lia).
  rewrite (wrap_small 8 (c - 32)) by (unfold is_uint; lia). cbv zeta. unfold pair_value.
  rewrite (proj2 (Z.leb_le 125 c)) by lia. destruct (126 <=? c) eqn:E; bool_props.
  - replace ((c - 32 - 92) * 93 + (d - 32)) with (186 + (d - 32)) by lia. by rewrite (proj2 (Z.ltb_ge _ _)) by lia.
  - replace ((c - 32 - 92) * 93 + (d - 32)) with (93 + (d - 32)) by lia. by rewrite (proj2 (Z.ltb_ge _ _)) by lia.
Qed.

(** One character. *)
Lemma lane_emits_one kf carry c d t : bad_pair c d = false → lane_inv carry (c :: d :: t) →
  lane_emits kf carry (c :: d :: t) (if carry then [] else [pair_value c d]) (125 <=? c) (d :: t).
Proof.
  intros Hb%bad_pair_false [Hcan Hcarry]. unfold lane_emits, lane_inv. destruct carry.
  - destruct Hcarry as (c' & t' & Heq & Hlt); [done|]. simplify_eq. rewrite (proj2 (Z.leb_gt _ _)) by lia.
    cbn [skip drop map length] in *. split; [done|]. split; [by destruct (decode_symbols kf _)|]. split; [done|lia].
  - cbn [skip canonical] in Hcan. destruct (Z.leb_spec 125 c) as [E|E]; cbn [skip drop].
    + apply andb_true_iff in Hcan as [Hd%Z.ltb_lt Hu]. rewrite decode_escape by lia.
      split; [by split; [|intros _; exists d, t]|]. split; [done|]. split; [intros; apply validates_escape; [lia..|done]|].
      cbn [decoded_length]. rewrite (proj2 (Z.leb_le _ _)) by lia. done.
    + rewrite decode_plain by lia. split; [done|]. unfold pair_value. rewrite (proj2 (Z.leb_gt _ _)) by lia.
      split; [done|]. split; [intros; apply validates_plain; [lia|done]|].
      cbn [decoded_length]. rewrite (proj2 (Z.leb_gt _ _)) by lia. done.
Qed.

Lemma lane_emits_trans kf a p vs b q ws k r :
  lane_emits kf a p vs b q → lane_emits kf b q ws k r → lane_emits kf a p (vs ++ ws) k r.
Proof.
  intros (_ & H2 & H3 & H4) (G1 & G2 & G3 & G4). split; [done|]. split; [|split; [by auto|rewrite length_app; lia]].
  rewrite H2, G2, map_app. destruct (decode_symbols kf (skip k r)); simpl; [done|]. by rewrite app_assoc.
Qed.

(** Several characters: the kernel's reading is the scalar one. *)
Lemma lane_emits_run n kf carry p : (n < length p)%nat → lanes_ok n p = true → lane_inv carry p →
  lane_emits kf carry p (lane_run n carry p).1 (lane_run n carry p).2 (drop n p).
Proof.
  revert carry p. induction n as [|n IH]; intros carry p Hl Hok Hinv.
  - cbn [lane_run fst snd]. rewrite drop_0. split; [done|]. split; [by destruct (decode_symbols kf _)|]. split; [done|done].
  - destruct p as [|c [|d t]]; [simpl in Hl; lia..|]. cbn [lanes_ok lane_run drop] in *. unfold byte_at in *. cbn [nth] in *.
    apply andb_true_iff in Hok as [Hb%negb_true_iff Hok].
    eapply lane_emits_trans; [by apply lane_emits_one|]. apply IH; [simpl in *; lia|done|].
    by apply (lane_emits_one kf carry c d t).
Qed.

(** The vector loop. *)
Lemma decode_blocks_run n kf p out op (carry : bool) total :
  bytes_ok p → (8 * n < length p)%nat → lane_inv carry p →
  (op + decoded_length (skip carry p) ≤ total)%nat → length out = (total + 16)%nat →
  match decode_blocks n kf p out op (Z.b2z carry) with
  | OutOfBounds => False
  | Fallback => True
  | Done q out' op' k =>
      ∃ vs b, k = Z.b2z b ∧ q = drop (8 * n) p ∧ lane_emits kf carry p vs b q ∧ length out' = (total + 16)%nat ∧
        op' = (op + length vs)%nat ∧ take op' out' = take op out ++ map (λ x, wrap 8 (x + kf)) vs
  end.
Proof.
  revert p out op carry. induction n as [|n IH]; intros p out op carry Hb Hp Hinv Ht Ho.
  - cbn [decode_blocks]. exists [], carry. rewrite Nat.mul_0_r, drop_0. cbn [length map]. rewrite app_nil_r, Nat.add_0_r.
    split; [done|]. split; [done|]. split; [|done]. split; [done|].
    split; [by destruct (decode_symbols kf (skip carry p))|done].
  - cbn [decode_blocks]. pose proof (decode_block_run kf p carry Hb ltac:(lia)) as Hblk.
    destruct (decode_block kf p (Z.b2z carry)) as [[[out16 del] k]|]; [|done].
    destruct Hblk as (Hok & -> & Hl16 & Htk & Hk & Hpop).
    pose proof (lane_emits_run 8 kf carry p ltac:(lia) Hok Hinv) as Hem.
    destruct (lane_run 8 carry p) as [vs b]. cbn [fst snd] in *. pose proof Hem as (Hinv' & _ & _ & Hdl).
    destruct (storeu_prefix out op out16 (8 - popcount8 del)) as (o1 & -> & Hl1 & Hp1); [lia|lia|].
    specialize (IH (drop 8 p) o1 (op + 8 - popcount8 del)%nat b).
    destruct (decode_blocks n kf (drop 8 p) o1 (op + 8 - popcount8 del) (Z.b2z b)) as [q o2 op2 k| |];
      [|done|apply IH; try apply bytes_ok_drop; try rewrite length_drop; try done; lia].
    destruct IH as (ws & b2 & -> & -> & Hem2 & Hl2 & Hop2 & Hp2);
      [by apply bytes_ok_drop|rewrite length_drop; lia|done|lia|lia|].
    exists (vs ++ ws), b2. rewrite drop_drop. split; [done|]. split; [f_equal; lia|].
    rewrite drop_drop in Hem2. replace (8 + 8 * n)%nat with (8 * S n)%nat in * by lia.
    split; [by eapply lane_emits_trans|]. split; [done|]. rewrite length_app, map_app. split; [lia|].
    rewrite Hp2. replace (op + 8 - popcount8 del)%nat with (op + (8 - popcount8 del))%nat by lia.
    by rewrite Hp1, Htk, app_assoc.
Qed.

(** The scalar tail accepts only what the reference accepts. *)
Lemma tail_valid_sound kf p : bytes_ok p → tail_valid p = true →
  validates p ∧ ∃ r, decode_symbols kf p = inr r ∧ length r = decoded_length p.
Proof.
  induction p as [|c t Hc IH|c Hc|c d u Hc IH] using decode_stride; intros Hb Hv.
  - split; [intros n; by exists n|]. by exists [].
  - apply Forall_cons in Hb as [Hcb Ht]. unfold is_uint in Hcb. cbn [tail_valid] in Hv.
    destruct ((c <? 32) || (126 <? c)) eqn:E; [done|]. apply orb_false_iff in E as [E1%Z.ltb_ge E2%Z.ltb_ge].
    rewrite wrap_small in Hc by (unfold is_uint; lia). rewrite (proj2 (Z.leb_gt _ _)) in Hv by lia.
    destruct (IH Ht Hv) as (Hval & r & Hr & Hlen). split; [apply validates_plain; [lia|done]|].
    rewrite decode_plain, Hr by lia. eexists. split; [done|]. cbn [decoded_length]. rewrite (proj2 (Z.leb_gt _ _)) by lia. simpl. lia.
  - apply Forall_cons in Hb as [Hcb _]. unfold is_uint in Hcb. cbn [tail_valid] in Hv.
    destruct ((c <? 32) || (126 <? c)) eqn:E; [done|]. apply orb_false_iff in E as [E1%Z.ltb_ge E2%Z.ltb_ge].
    rewrite wrap_small in Hc by (unfold is_uint; lia). by rewrite (proj2 (Z.leb_le _ _)) in Hv by lia.
  - apply Forall_cons in Hb as [Hcb [Hdb Hu]%Forall_cons]. unfold is_uint in Hcb, Hdb. cbn [tail_valid] in Hv.
    destruct ((c <? 32) || (126 <? c)) eqn:E; [done|]. apply orb_false_iff in E as [E1%Z.ltb_ge E2%Z.ltb_ge].
    rewrite wrap_small in Hc by (unfold is_uint; lia). rewrite (proj2 (Z.leb_le _ _)) in Hv by lia.
    destruct ((d <? 32) || (126 <? d)) eqn:E; [done|]. apply orb_false_iff in E as [E3%Z.ltb_ge E4%Z.ltb_ge].
    cbv zeta in Hv. unfold BASE93_RADIX, BASE94_SYMBOL_COUNT in Hv.
    destruct (94 - 1 <? d - 32) eqn:E5; [done|]. apply Z.ltb_ge in E5.
    destruct ((c =? 126) && (69 <? d - 32)) eqn:E6; [done|].
    assert (c = 126 → d ≤ 101) by (intros ->; rewrite Z.eqb_refl in E6; apply Z.ltb_ge in E6; lia).
    destruct (IH Hu Hv) as (Hval & r & Hr & Hlen). split; [apply validates_escape; [lia..|done]|].
    rewrite decode_escape, Hr by (done || lia). eexists. split; [done|]. cbn [decoded_length].
    rewrite (proj2 (Z.leb_le _ _)) by lia. simpl. lia.
Qed.

(** ** Stores on any input *)

(** Dropping a character loses at most one byte and never gains one. *)
Lemma decoded_length_cons p : ∀ c, (decoded_length p ≤ decoded_length (c :: p) ≤ S (decoded_length p))%nat.
Proof.
  induction p as [|d t IH]; intros c; cbn [decoded_length]; [case_match; lia|].
  destruct (125 <=? c); [|lia]. pose proof (IH d) as Hd. cbn [decoded_length] in Hd. lia.
Qed.

(** The characters the kernel keeps begin pairs or single characters of the scalar reading, so it
    never writes more than the buffer was sized for, whether or not the input is canonical. *)
Lemma lane_run_bound n carry p :
  (n < length p)%nat →
  (length (lane_run n carry p).1 + decoded_length (skip (lane_run n carry p).2 (drop n p)) ≤ decoded_length (skip carry p))%nat.
Proof.
  revert carry p. induction n as [|n IH]; intros carry p Hl; [by rewrite drop_0|].
  destruct p as [|c [|d t]]; [simpl in Hl; lia..|]. cbn [lane_run drop]. specialize (IH (125 <=? c) (d :: t) ltac:(simpl in *; lia)).
  cbn [fst snd]. rewrite length_app.
  enough ((length (if carry then [] else [pair_value c (byte_at (d :: t) 0)]) + decoded_length (skip (125 <=? c)%Z (d :: t)) ≤
           decoded_length (skip carry (c :: d :: t)))%nat) by lia.
  pose proof (decoded_length_cons t d) as Hd. destruct carry; cbn [skip drop length].
  - destruct (125 <=? c); cbn [skip drop]; rewrite ?drop_0; lia.
  - destruct (125 <=? c) eqn:E; cbn [skip drop]; rewrite ?drop_0; cbn [decoded_length] in *; rewrite E; lia.
Qed.

(** No store of the vector loop leaves the buffer. *)
Lemma decode_blocks_bound n kf p out op (carry : bool) total :
  bytes_ok p → (8 * n < length p)%nat → (op + decoded_length (skip carry p) ≤ total)%nat → length out = (total + 16)%nat →
  match decode_blocks n kf p out op (Z.b2z carry) with
  | OutOfBounds => False
  | Fallback => True
  | Done q out' op' k => ∃ b, k = Z.b2z b ∧ q = drop (8 * n) p ∧ length out' = (total + 16)%nat ∧
      (op' + decoded_length (skip b q) ≤ total)%nat
  end.
Proof.
  revert p out op carry. induction n as [|n IH]; intros p out op carry Hb Hp Ht Ho.
  - cbn [decode_blocks]. exists carry. by rewrite Nat.mul_0_r, drop_0.
  - cbn [decode_blocks]. pose proof (decode_block_run kf p carry Hb ltac:(lia)) as Hblk.
    destruct (decode_block kf p (Z.b2z carry)) as [[[out16 del] k]|]; [|done].
    destruct Hblk as (Hok & -> & Hl16 & Htk & Hk & Hpop).
    pose proof (lane_run_bound 8 carry p ltac:(lia)) as Hem.
    destruct (lane_run 8 carry p) as [vs b]. cbn [fst snd] in *.
    destruct (storeu_prefix out op out16 (8 - popcount8 del)) as (o1 & -> & Hl1 & Hp1); [lia|lia|].
    specialize (IH (drop 8 p) o1 (op + 8 - popcount8 del)%nat b).
    destruct (decode_blocks n kf (drop 8 p) o1 (op + 8 - popcount8 del) (Z.b2z b)) as [q o2 op2 k| |];
      [|done|apply IH; try apply bytes_ok_drop; try rewrite length_drop; try done; lia].
    destruct IH as (b2 & -> & -> & Hl2 & Hop2); [by apply bytes_ok_drop|rewrite length_drop; lia|lia|lia|].
    exists b2. rewrite drop_drop in *. replace (8 + 8 * n)%nat with (8 * S n)%nat in * by lia. done.
Qed.

Lemma decode_sse_in_bounds kf data : bytes_ok data → base94_decode_sse kf data ≠ SimdOutOfBounds.
Proof.
  intros Hb. unfold base94_decode_sse. destruct data as [|c0 t0]; [done|]. set (p := c0 :: t0) in *.
  assert (∀ r, simd_result r ≠ SimdOutOfBounds) as Hsr by (by intros []).
  destruct (length p <? 16)%nat eqn:E16; [apply Hsr|]. apply Nat.ltb_ge in E16.
  assert (8 * ((length p - 1) / 8) < length p)%nat by (pose proof (Nat.Div0.mul_div_le (length p - 1) 8); lia).
  pose proof (decode_blocks_bound ((length p - 1) / 8) kf p (replicate (decoded_length p + 16) 0) 0 false (decoded_length p)
                Hb ltac:(lia) ltac:(simpl; lia) ltac:(by rewrite length_replicate)) as Hrun.
  change (Z.b2z false) with 0 in Hrun.
  destruct (decode_blocks _ kf p _ 0 0) as [q out op k| |]; [|apply Hsr|done].
  destruct Hrun as (b & -> & -> & Hlo & Hop).
  assert (drop (Z.to_nat (Z.b2z b)) (drop (8 * ((length p - 1) / 8)) p) = skip b (drop (8 * ((length p - 1) / 8)) p)) as ->
    by (destruct b; [done|apply drop_0]).
  set (tl := skip b (drop (8 * ((length p - 1) / 8)) p)) in *.
  assert (bytes_ok tl) as Htl by (unfold tl, skip; destruct b; repeat apply bytes_ok_drop; done).
  cbv zeta. destruct (tail_valid tl) eqn:Etv; [|apply Hsr]. cbn [negb].
  destruct (tail_valid_sound kf tl Htl Etv) as (Hvtl & r & Hr & Hrl). rewrite Hr.
  destruct (storeu_prefix out op r (length r)) as (o2 & -> & _ & _); [lia..|]. done.
Qed.

Lemma decode_sse_scalar kf data : bytes_ok data → canonical data = true →
  base94_decode_sse kf data = simd_result (base94_decode_scalar kf data).
Proof.
  intros Hb Hcan. unfold base94_decode_sse. destruct data as [|c0 t0]; [done|]. set (p := c0 :: t0) in *.
  destruct (length p <? 16)%nat eqn:E16; [done|]. apply Nat.ltb_ge in E16.
  assert (8 * ((length p - 1) / 8) < length p)%nat by (pose proof (Nat.Div0.mul_div_le (length p - 1) 8); lia).
  pose proof (decode_blocks_run ((length p - 1) / 8) kf p (replicate (decoded_length p + 16) 0) 0 false (decoded_length p)
                Hb ltac:(lia) ltac:(by split) ltac:(simpl; lia) ltac:(by rewrite length_replicate)) as Hrun.
  change (Z.b2z false) with 0 in Hrun.
  destruct (decode_blocks _ kf p _ 0 0) as [q out op k| |]; [|done|done].
  destruct Hrun as (vs & b & -> & -> & Hem & Hlo & -> & Hpre). destruct Hem as (_ & Hdec & Hval & Hlen).
  cbn [skip] in Hdec, Hval, Hlen. rewrite take_0, app_nil_l in Hpre.
  assert (drop (Z.to_nat (Z.b2z b)) (drop (8 * ((length p - 1) / 8)) p) = skip b (drop (8 * ((length p - 1) / 8)) p)) as ->
    by (destruct b; [done|apply drop_0]).
  set (tl := skip b (drop (8 * ((length p - 1) / 8)) p)) in *.
  assert (bytes_ok tl) as Htl by (unfold tl, skip; destruct b; repeat apply bytes_ok_drop; done).
  cbv zeta. destruct (tail_valid tl) eqn:Etv; [|done]. cbn [negb].
  destruct (tail_valid_sound kf tl Htl Etv) as (Hvtl & r & Hr & Hrl). rewrite Hr in *.
  destruct (storeu_prefix out (0 + length vs) r (length r)) as (o2 & -> & _ & Hp2); [lia..|].
  rewrite Hpre, (take_ge r) in Hp2 by done.
  transitivity (SimdBytes (take (decoded_length p) o2)); [done|]. rewrite Hlen, <- Hrl. cbn [Nat.add] in Hp2. rewrite Hp2.
  unfold base94_decode_scalar, base94_decode. unfold p in Hdec, Hval |- *.
  destruct (Hval Hvtl (Z.of_nat (length (c0 :: t0)))) as [m ->]. by rewrite Hdec.
Qed.

(** The encoder only writes canonical strings. *)
Lemma encode_canonical kf data : canonical (encode_symbols kf data) = true.
Proof.
  induction data as [|c t IH]; [done|]. cbn [encode_symbols].
  destruct (encode_symbol_spec (wrap 8 (c - kf)) (wrap8_byte _)) as [[Hb ->]|(q & r & Hq & Hr & _ & ->)];
    cbn [app canonical].
  - by rewrite (proj2 (Z.leb_gt _ _)) by lia.
  - rewrite (proj2 (Z.leb_le _ _)), (proj2 (Z.ltb_lt _ _)) by lia. done.
Qed.

(** On other accepted strings the kernel silently drops a byte: after the pair [}}] it deletes the
    next character too. *)
Example decode_sse_drops_byte :
  base94_decode_scalar 0 ([125; 125] ++ seqZ 65 16) = Some (186 :: seqZ 33 16) ∧
  base94_decode_sse 0 ([125; 125] ++ seqZ 65 16) = SimdBytes (186 :: seqZ 34 15 ++ [39]).
Proof. done. Qed.

(** C12: the SSSE3 kernels compute what the scalar reference computes.  The encoder agrees with it
    on every input; the decoder agrees with it, results and failures, on every string in which no
    escape is completed by an escape character, in particular on everything the encoder writes, which
    it decodes to the encoder's input.  On no input at all, malformed or not, does a store of either
    leave the over-allocated buffer. *)
Theorem base94_simd_scalar kf data :
  bytes_ok data →
  base94_encode_sse kf data = simd_result (base94_encode kf data) ∧
  base94_encode_sse kf data ≠ SimdOutOfBounds ∧ base94_decode_sse kf data ≠ SimdOutOfBounds ∧
  (canonical data = true → base94_decode_sse kf data = simd_result (base94_decode_scalar kf data)) ∧
  (∀ p, base94_encode_sse kf data = SimdBytes p → canonical p = true ∧ base94_decode_sse kf p = SimdBytes data).
Proof.
  intros Hb. split; [apply encode_sse_scalar|]. split; [rewrite encode_sse_scalar; by destruct (base94_encode kf data)|].
  split; [by apply decode_sse_in_bounds|]. split; [by apply decode_sse_scalar|].
  intros p. rewrite encode_sse_scalar. intros He'. assert (He : base94_encode kf data = Some p) by (destruct (base94_encode kf data); by simplify_eq/=). pose proof (base94_decode_encode kf data p Hb He) as Hd.
  unfold base94_encode in He. destruct data as [|c t]; [done|]. simplify_eq. split; [apply encode_canonical|].
  rewrite decode_sse_scalar; [|eapply Forall_impl; [apply encode_symbols_printable|unfold printable, is_uint; lia]|apply encode_canonical].
  unfold base94_decode_scalar. by rewrite Hd.
Qed.

Lemma base94_simd_scalar_witness :
  base94_encode_sse 3 (seqZ 85 24) = simd_result (base94_encode 3 (seqZ 85 24)) ∧ canonical (seqZ 85 24) = true.
Proof.
  split; [|reflexivity]. refine (proj1 (base94_simd_scalar 3 (seqZ 85 24) _)). by apply (bool_decide_unpack _).
Defined.
