(* ===== verification/Ciphertext.v ===== *)
(** * Ciphers of a carrier

    [ppp/cryptography/rc4.cpp]: the in-house RC4 variant (255-entry S-box, its own index schedule,
    an additive offset), its key schedule and the stateful [RC4] object, and
    [ppp/cryptography/Ciphertext.cpp], the object the transports encrypt with, which forwards to an
    OpenSSL backend or to RC4.  [CipherOps] and [CipherLaws] are the interface the framing layers
    are verified against; [Ciphertext] discharges it from the RC4 code and from what the EVP
    backend (a parameter) promises.  Every operation takes and returns the cipher's state: an RC4
    object scrambles its S-box with each message. *)

From S2P Require Import Prelude Ssea.

(** ** The interface *)

Class CipherOps (C : Type) := {
  cipher_encrypt : C → list Z → option (list Z) * C;
  (** [EncryptTo] into a buffer of the given capacity. *)
  cipher_encrypt_to : C → nat → list Z → option (list Z) * C;
  cipher_decrypt : C → list Z → option (list Z) * C;
  cipher_can_decrypt_in_place : C → bool;
  cipher_decrypt_in_place : C → list Z → option (list Z) * C;
}.

(** Two ends in the same good state stay in the same good state, and the receiver recovers the
    message; [EncryptTo] and [DecryptInPlace], where they succeed, are the other two. *)
Class CipherLaws (C : Type) `{CipherOps C} := {
  cipher_ok : C → Prop;
  cipher_inverse s m c s' : cipher_ok s → bytes_ok m → cipher_encrypt s m = (Some c, s') →
    cipher_decrypt s c = (Some m, s') ∧ bytes_ok c ∧ cipher_ok s';
  cipher_to_agrees s k m c s' : cipher_ok s → cipher_encrypt_to s k m = (Some c, s') → cipher_encrypt s m = (Some c, s');
  cipher_in_place_agrees s c : cipher_ok s → cipher_can_decrypt_in_place s = true →
    cipher_decrypt_in_place s c = cipher_decrypt s c;
}.

(** ** The S-box *)
Definition RC4_MAXBIT : nat := 255.

(** The initial fill. *)
Definition sbox_fill (sboxlen : nat) (ascending : bool) : list Z :=
  let up := map (λ i, wrap 8 (Z.of_nat i)) (seq 0 sboxlen) in
  if ascending then up else rev up.

(** One step of the key schedule. *)
Definition ksa_step (key : list Z) (st : list Z * nat) (i : nat) : list Z * nat :=
  let '(sbox, j) := st in
  let j := ((j + Z.to_nat (byte_at sbox i) + Z.to_nat (byte_at key (i mod length key))) mod length sbox)%nat in
  (swap_at i j sbox, j).

(** [rc4_sbox_impl]; [None] for an empty key or S-box. *)
Definition rc4_sbox_impl (sboxlen : nat) (key : list Z) (ascending : bool) : option (list Z) :=
  if (length key <? 1)%nat || (sboxlen <? 1)%nat then None else
  Some (foldl (ksa_step key) (sbox_fill sboxlen ascending, O) (seq 0 sboxlen)).1.

(** ** The key stream *)

(** [low], [high], the S-box and the position. *)
Record PrgaState := { prga_low : nat; prga_high : nat; prga_sbox : list Z; prga_i : nat }.

(** One iteration up to the output index; [next_low] is the step of the low index, the only
    difference between [rc4_crypt_sbox] and [rc4_crypt_sbox_c]. *)
Definition prga_step (next_low : nat → nat) (st : PrgaState) : Z * PrgaState :=
  let n := length (prga_sbox st) in
  let low := (next_low (prga_low st) mod n)%nat in
  let high := ((prga_high st + Z.to_nat (byte_at (prga_sbox st) (prga_i st mod n))) mod n)%nat in
  let sbox := swap_at low high (prga_sbox st) in
  let mid := ((Z.to_nat (byte_at sbox low) + Z.to_nat (byte_at sbox high)) mod n)%nat in
  (byte_at sbox mid, {| prga_low := low; prga_high := high; prga_sbox := sbox; prga_i := S (prga_i st) |}).

(** The byte written: encryption or decryption. *)
Definition rc4_byte (E : bool) (x s d : Z) : Z :=
  if E then wrap 8 (Z.lxor d s - x) else wrap 8 (Z.lxor (d - x) s).

Fixpoint rc4_loop (next_low : nat → nat) (E : bool) (x : Z) (st : PrgaState) (data : list Z) : list Z * PrgaState :=
  match data with
  | [] => ([], st)
  | d :: t =>
      let '(s, st) := prga_step next_low st in
      let '(r, st) := rc4_loop next_low E x st t in
      (rc4_byte E x s d :: r, st)
  end.

(** The body both entry points share: the output and the S-box left behind. *)
Definition rc4_run (next_low : nat → nat) (key sbox data : list Z) (subtract : Z) (E : bool) : option (list Z * list Z) :=
  if (length key <? 1)%nat || (length data <? 1)%nat || (length sbox <? 1)%nat then None else
  let x := wrap 8 (if E then subtract else - subtract) in
  let '(r, st) := rc4_loop next_low E x {| prga_low := 0; prga_high := 0; prga_sbox := sbox; prga_i := 0 |} data in
  Some (r, prga_sbox st).

Definition rc4_crypt_sbox (key sbox data : list Z) (subtract : Z) (E : bool) : option (list Z * list Z) :=
  rc4_run (λ low, low) key sbox data subtract E.

Definition rc4_crypt_sbox_c (key sbox data : list Z) (subtract : Z) (E : bool) : option (list Z * list Z) :=
  rc4_run (λ low, low + length key)%nat key sbox data subtract E.

(** [rc4_crypt]: a fresh ascending S-box for each call. *)
Definition rc4_crypt (key data : list Z) (subtract : Z) (E : bool) : option (list Z) :=
  if (length key <? 1)%nat || (length data <? 1)%nat then None else
  match rc4_sbox_impl RC4_MAXBIT key true with
  | None => None
  | Some sbox => fst <$> rc4_crypt_sbox key sbox data subtract E
  end.

(** ** The [RC4] object *)
Record RC4 := { rc4_E : bool; rc4_subtract : Z; rc4_password : list Z; rc4_sbox : list Z }.

(** [RC4::Create] for any of the method names: descending fill, no offset, decryption direction;
    [hash_hmac] gives the key of the schedule. *)
Definition RC4_new (hash_hmac : list Z → list Z) (password : list Z) : RC4 :=
  {| rc4_E := false; rc4_subtract := 0; rc4_password := password;
     rc4_sbox := default [] (rc4_sbox_impl RC4_MAXBIT (hash_hmac password) false) |}.

(** [RC4::EncryptTo]; the S-box is scrambled in place. *)
Definition RC4_EncryptTo (c : RC4) (output_capacity : nat) (data : list Z) : option (list Z) * RC4 :=
  if (length data <? 1)%nat || (output_capacity <? length data)%nat then (None, c) else
  match rc4_password c with
  | [] => (None, c)
  | _ =>
      match rc4_crypt_sbox_c (rc4_password c) (rc4_sbox c) data (rc4_subtract c) (rc4_E c) with
      | None => (None, c)
      | Some (r, sbox) =>
          (Some r, {| rc4_E := rc4_E c; rc4_subtract := rc4_subtract c; rc4_password := rc4_password c; rc4_sbox := sbox |})
      end
  end.

(** [RC4::Encrypt]: nothing for an empty input or password, otherwise [EncryptTo] into a fresh
    buffer of the same size.  [RC4::Decrypt] is the same function. *)
Definition RC4_Encrypt (c : RC4) (data : list Z) : option (list Z) * RC4 :=
  match data, rc4_password c with
  | [], _ | _, [] => (None, c)
  | _, _ => RC4_EncryptTo c (length data) data
  end.
Definition RC4_Decrypt (c : RC4) (data : list Z) : option (list Z) * RC4 := RC4_Encrypt c data.
Definition RC4_DecryptInPlace (c : RC4) (data : list Z) : option (list Z) * RC4 := RC4_EncryptTo c (length data) data.

(** ** [Ciphertext] *)
Section Backend.
Context {EVP : Type} `{CipherOps EVP}.

Record Ciphertext := { evp_ : option EVP; rc4_ : option RC4 }.

(** Run an operation of a backend and put its new state back. *)
Definition on_evp (c : Ciphertext) (r : option (list Z) * EVP) : option (list Z) * Ciphertext :=
  (r.1, {| evp_ := Some r.2; rc4_ := rc4_ c |}).
Definition on_rc4 (c : Ciphertext) (r : option (list Z) * RC4) : option (list Z) * Ciphertext :=
  (r.1, {| evp_ := evp_ c; rc4_ := Some r.2 |}).

Definition Ciphertext_Encrypt (c : Ciphertext) (data : list Z) : option (list Z) * Ciphertext :=
  match evp_ c, rc4_ c with
  | Some e, _ => on_evp c (cipher_encrypt e data)
  | None, Some r => on_rc4 c (RC4_Encrypt r data)
  | None, None => (None, c)
  end.

Definition Ciphertext_EncryptTo (c : Ciphertext) (output_capacity : nat) (data : list Z) : option (list Z) * Ciphertext :=
  match evp_ c, rc4_ c with
  | Some e, _ => on_evp c (cipher_encrypt_to e output_capacity data)
  | None, Some r => on_rc4 c (RC4_EncryptTo r output_capacity data)
  | None, None => (None, c)
  end.

Definition Ciphertext_Decrypt (c : Ciphertext) (data : list Z) : option (list Z) * Ciphertext :=
  match evp_ c, rc4_ c with
  | Some e, _ => on_evp c (cipher_decrypt e data)
  | None, Some r => on_rc4 c (RC4_Decrypt r data)
  | None, None => (None, c)
  end.

Definition Ciphertext_CanDecryptInPlace (c : Ciphertext) : bool :=
  match evp_ c, rc4_ c with
  | Some e, _ => cipher_can_decrypt_in_place e
  | None, r => bool_decide (is_Some r)
  end.

Definition Ciphertext_DecryptInPlace (c : Ciphertext) (data : list Z) : option (list Z) * Ciphertext :=
  match evp_ c, rc4_ c with
  | Some e, _ => on_evp c (cipher_decrypt_in_place e data)
  | None, Some r => on_rc4 c (RC4_DecryptInPlace r data)
  | None, None => (None, c)
  end.

#[global] Instance Ciphertext_ops : CipherOps Ciphertext := {
  cipher_encrypt := Ciphertext_Encrypt;
  cipher_encrypt_to := Ciphertext_EncryptTo;
  cipher_decrypt := Ciphertext_Decrypt;
  cipher_can_decrypt_in_place := Ciphertext_CanDecryptInPlace;
  cipher_decrypt_in_place := Ciphertext_DecryptInPlace;
}.
End Backend.
Arguments Ciphertext : clear implicits.

(** * The key stream *)

Definition good_state (st : PrgaState) : Prop := bytes_ok (prga_sbox st) ∧ prga_sbox st ≠ [].

Lemma bytes_ok_swap i j l : bytes_ok l → bytes_ok (swap_at i j l).
Proof. apply Forall_swap_at. Qed.

Lemma prga_step_good f st : good_state st → is_byte (prga_step f st).1 ∧ good_state (prga_step f st).2.
Proof.
  intros [Hb Hne]. unfold prga_step. cbn [fst snd]. split; [by apply byte_at_range, bytes_ok_swap|].
  split; cbn [prga_sbox]; [by apply bytes_ok_swap|]. intros Heq%(f_equal length). rewrite swap_at_length in Heq.
  by destruct (prga_sbox st).
Qed.

Definition rc4_offset (subtract : Z) (E : bool) : Z := wrap 8 (if E then subtract else - subtract).

(** The byte maps of the two directions are inverse; without an offset each is its own inverse. *)
Lemma rc4_byte_inverse E s d subtract : is_byte d → is_byte s →
  rc4_byte (negb E) (rc4_offset subtract (negb E)) s (rc4_byte E (rc4_offset subtract E) s d) = d.
Proof.
  intros Hd Hs. unfold rc4_byte, rc4_offset. destruct E; cbn [negb].
  - rewrite wrap_lxor, (wrap_small 8 s) by (done || lia).
    rewrite wrap_minus_r, wrap_minus_l. replace (Z.lxor d s - wrap 8 subtract - - subtract)
      with (Z.lxor d s + subtract - wrap 8 subtract) by lia.
    rewrite wrap_minus_r. replace (Z.lxor d s + subtract - subtract) with (Z.lxor d s) by lia.
    rewrite (wrap_small 8 (Z.lxor d s)) by (by apply byte_lxor). by rewrite Z.lxor_assoc, Z.lxor_nilpotent, Z.lxor_0_r.
  - rewrite (wrap_lxor 8 _ s), (wrap_small 8 s), Z.lxor_assoc, Z.lxor_nilpotent, Z.lxor_0_r by (done || lia).
    rewrite (wrap_minus_r 8 d), wrap_minus_r, wrap_minus_l. replace (d - - subtract - subtract) with d by lia. by apply wrap_small.
Qed.

Lemma rc4_byte_involutive E s d : is_byte d → is_byte s → rc4_byte E 0 s (rc4_byte E 0 s d) = d.
Proof.
  intros Hd Hs. pose proof (byte_lxor d s Hd Hs). unfold rc4_byte.
  destruct E; rewrite !Z.sub_0_r, !(wrap_small 8 (Z.lxor d s)) by done;
    rewrite Z.lxor_assoc, Z.lxor_nilpotent, Z.lxor_0_r; by apply wrap_small.
Qed.

Lemma rc4_byte_range E x s d : is_byte (rc4_byte E x s d).
Proof. unfold rc4_byte. destruct E; apply wrap8_byte. Qed.

(** The S-box evolves without looking at the data, so a second run over the output of the first
    sees the same key stream. *)
Lemma rc4_loop_undo f E x E' x' st data :
  good_state st → bytes_ok data →
  (∀ s d, is_byte d → is_byte s → rc4_byte E' x' s (rc4_byte E x s d) = d) →
  let '(c, st') := rc4_loop f E x st data in
  rc4_loop f E' x' st c = (data, st') ∧ length c = length data ∧ bytes_ok c ∧ good_state st'.
Proof.
  intros Hst Hd Hinv. revert st Hst. induction Hd as [|d t Hd Ht IH]; intros st Hst; [done|].
  cbn [rc4_loop]. destruct (prga_step f st) as [s st1] eqn:Es.
  pose proof (prga_step_good f st Hst) as [Hs Hst1]. rewrite Es in Hs, Hst1. cbn [fst snd] in Hs, Hst1.
  specialize (IH st1 Hst1). destruct (rc4_loop f E x st1 t) as [c st2]. destruct IH as (IH1 & IH2 & IH3 & IH4).
  cbn [rc4_loop length]. rewrite Es, IH1, Hinv by done. split; [done|]. split; [lia|].
  split; [|done]. apply Forall_cons_2; [apply rc4_byte_range|done].
Qed.


Lemma rc4_run_undo f key sbox data subtract E c sbox' :
  bytes_ok sbox → bytes_ok data → rc4_run f key sbox data subtract E = Some (c, sbox') →
  rc4_run f key sbox c subtract (negb E) = Some (data, sbox') ∧
  (subtract = 0 → rc4_run f key sbox c subtract E = Some (data, sbox')) ∧
  length c = length data ∧ bytes_ok c ∧ bytes_ok sbox' ∧ sbox' ≠ [].
Proof.
  intros Hs Hd. unfold rc4_run. destruct (length key <? 1)%nat; [done|]. destruct (length data <? 1)%nat eqn:El; [done|].
  destruct (length sbox <? 1)%nat eqn:Es; [done|]. cbn [orb]. cbv zeta. fold (rc4_offset subtract E) (rc4_offset subtract (negb E)).
  set (st := {| prga_low := 0; prga_high := 0; prga_sbox := sbox; prga_i := 0 |}).
  assert (good_state st) as Hst by (split; [done|]; by destruct sbox).
  pose proof (rc4_loop_undo f E (rc4_offset subtract E) (negb E) (rc4_offset subtract (negb E)) st data Hst Hd
                (λ s d, rc4_byte_inverse E s d subtract)) as Hu.
  pose proof (rc4_loop_undo f E 0 E 0 st data Hst Hd (rc4_byte_involutive E)) as Hv.
  destruct (rc4_loop f E (rc4_offset subtract E) st data) as [r st'] eqn:Er. destruct Hu as (Hu1 & Hu2 & Hu3 & Hu4 & Hu5).
  intros Heq. simplify_eq. rewrite Hu2, El, Hu1. split; [done|].
  split; [|done]. intros ->. assert (rc4_offset 0 E = 0) as H0 by (by destruct E). rewrite H0 in *. rewrite Er in Hv.
  destruct Hv as (Hv1 & _). by rewrite Hv1.
Qed.

(** * The key schedule *)

(** The S-box is always a permutation of 0 to 254. *)
Lemma ksa_perm key l j is0 : (foldl (ksa_step key) (l, j) is0).1 ≡ₚ l.
Proof.
  revert l j. induction is0 as [|i t IH]; intros l j; [done|]. cbn [foldl]. unfold ksa_step at 2. rewrite IH. apply swap_at_perm.
Qed.

Lemma rc4_loop_perm f E x st data : prga_sbox (rc4_loop f E x st data).2 ≡ₚ prga_sbox st.
Proof.
  revert st. induction data as [|d t IH]; intros st; [done|]. cbn [rc4_loop].
  destruct (prga_step f st) as [s st1] eqn:Es. specialize (IH st1). destruct (rc4_loop f E x st1 t) as [r st2].
  cbn [snd] in *. rewrite IH. unfold prga_step in Es. simplify_eq. apply swap_at_perm.
Qed.

Lemma sbox_fill_perm n b : sbox_fill n b ≡ₚ sbox_fill n true.
Proof. unfold sbox_fill. destruct b; [done|]. symmetry. apply Permutation_rev. Qed.

Lemma rc4_sbox_perm n key b sbox : rc4_sbox_impl n key b = Some sbox → sbox ≡ₚ sbox_fill n true.
Proof.
  unfold rc4_sbox_impl. destruct (_ || _); [done|]. intros [= <-]. rewrite ksa_perm. apply sbox_fill_perm.
Qed.

Lemma bytes_ok_sbox_fill n b : bytes_ok (sbox_fill n b).
Proof.
  rewrite sbox_fill_perm. unfold sbox_fill. apply Forall_map, Forall_forall. intros i _. apply wrap8_byte.
Qed.

(** * The object *)

(** What [RC4::Create] builds and every operation keeps. *)
Definition rc4_ok (c : RC4) : Prop := rc4_subtract c = 0 ∧ bytes_ok (rc4_sbox c).

Lemma RC4_new_ok hash_hmac password : rc4_ok (RC4_new hash_hmac password).
Proof.
  split; [done|]. cbn [RC4_new rc4_sbox]. destruct (rc4_sbox_impl _ _ _) as [sbox|] eqn:E; [|done].
  simpl. rewrite (rc4_sbox_perm _ _ _ _ E). apply bytes_ok_sbox_fill.
Qed.

Lemma RC4_EncryptTo_sync c k m r c' : rc4_ok c → bytes_ok m → RC4_EncryptTo c k m = (Some r, c') →
  RC4_EncryptTo c (length r) r = (Some m, c') ∧ length r = length m ∧ bytes_ok r ∧ rc4_ok c' ∧
  rc4_password c ≠ [] ∧ m ≠ [].
Proof.
  intros [Hs Hb] Hm. unfold RC4_EncryptTo. destruct (length m <? 1)%nat eqn:El; [done|].
  destruct (k <? length m)%nat; [done|]. cbn [orb]. destruct (rc4_password c) as [|x p] eqn:Ep; [done|].
  destruct (rc4_crypt_sbox_c _ _ _ _ _) as [[q sbox]|] eqn:Ec; [|done]. intros Heq. simplify_eq.
  destruct (rc4_run_undo _ _ _ _ _ _ _ _ Hb Hm Ec) as (_ & Hu & Hl & Hr & Hb' & _).
  rewrite Hl, El, Nat.ltb_irrefl. unfold rc4_crypt_sbox_c in *. rewrite (Hu Hs). cbn [orb].
  split; [done|]. split; [done|]. split; [done|]. split; [done|]. split; [done|]. by destruct m.
Qed.

(** Running [EncryptTo] with a larger buffer changes nothing. *)
Lemma RC4_EncryptTo_capacity c k m r c' : RC4_EncryptTo c k m = (Some r, c') → RC4_Encrypt c m = (Some r, c').
Proof.
  unfold RC4_Encrypt, RC4_EncryptTo. destruct m as [|y m]; [done|]. destruct (k <? length (y :: m))%nat; [by simpl|].
  rewrite Nat.ltb_irrefl. by destruct (rc4_password c).
Qed.

Lemma RC4_Encrypt_sync c m r c' : rc4_ok c → bytes_ok m → RC4_Encrypt c m = (Some r, c') →
  RC4_Decrypt c r = (Some m, c') ∧ length r = length m ∧ bytes_ok r ∧ rc4_ok c'.
Proof.
  intros Hc Hm He. assert (RC4_EncryptTo c (length m) m = (Some r, c')) as Hto.
  { unfold RC4_Encrypt in He. destruct m as [|y m]; [done|]. by destruct (rc4_password c). }
  destruct (RC4_EncryptTo_sync c _ m r c' Hc Hm Hto) as (H1 & H2 & H3 & H4 & H5 & H6).
  split; [|done]. unfold RC4_Decrypt. by eapply RC4_EncryptTo_capacity.
Qed.

#[global] Instance RC4_ops : CipherOps RC4 := {
  cipher_encrypt := RC4_Encrypt;
  cipher_encrypt_to := RC4_EncryptTo;
  cipher_decrypt := RC4_Decrypt;
  cipher_can_decrypt_in_place := λ _, true;
  cipher_decrypt_in_place := RC4_DecryptInPlace;
}.

Lemma RC4_in_place c m : RC4_DecryptInPlace c m = RC4_Decrypt c m.
Proof.
  unfold RC4_DecryptInPlace, RC4_Decrypt, RC4_Encrypt. destruct m as [|y m]; [done|].
  unfold RC4_EncryptTo. rewrite Nat.ltb_irrefl. by destruct (rc4_password c).
Qed.

#[global] Program Instance RC4_laws : CipherLaws RC4 := {| cipher_ok := rc4_ok |}.
Next Obligation.
  intros s m c s' Hs Hm He. by destruct (RC4_Encrypt_sync s m c s' Hs Hm He) as (? & _ & ? & ?).
Qed.
Next Obligation. intros s k m c s' _ He. by eapply RC4_EncryptTo_capacity. Qed.
Next Obligation. intros s c _ _. apply RC4_in_place. Qed.

(** [Ciphertext] keeps the promise when its EVP backend does. *)
Section BackendLaws.
Context {EVP : Type} `{CipherLaws EVP}.

Definition ciphertext_ok (c : Ciphertext EVP) : Prop :=
  match evp_ c, rc4_ c with
  | Some e, _ => cipher_ok e
  | None, Some r => rc4_ok r
  | None, None => True
  end.

#[global] Program Instance Ciphertext_laws : CipherLaws (Ciphertext EVP) := {| cipher_ok := ciphertext_ok |}.
Next Obligation.
  intros [[e|] [r|]] m c s' Hs Hm; cbn; unfold Ciphertext_Encrypt, Ciphertext_Decrypt, on_evp, on_rc4; cbn [evp_ rc4_].
  1, 2: destruct (cipher_encrypt e m) as [o e'] eqn:Ee; intros Heq; simplify_eq/=;
    destruct (cipher_inverse e m c e' Hs Hm Ee) as (-> & ? & ?); done.
  - destruct (RC4_Encrypt r m) as [o r'] eqn:Er; intros Heq; simplify_eq/=.
    destruct (RC4_Encrypt_sync r m c r' Hs Hm Er) as (-> & _ & ? & ?). split; [done|]. split; [done|]. done.
  - done.
Qed.
Next Obligation.
  intros [[e|] [r|]] k m c s' Hs; cbn; unfold Ciphertext_EncryptTo, Ciphertext_Encrypt, on_evp, on_rc4; cbn [evp_ rc4_].
  1, 2: destruct (cipher_encrypt_to e k m) as [o e'] eqn:Ee; intros Heq; simplify_eq/=;
    by rewrite (cipher_to_agrees e k m c e' Hs Ee).
  - destruct (RC4_EncryptTo r k m) as [o r'] eqn:Er; intros Heq; simplify_eq/=. by rewrite (RC4_EncryptTo_capacity r k m c r' Er).
  - done.
Qed.
Next Obligation.
  intros [[e|] [r|]] c Hs Hi; cbn; unfold Ciphertext_DecryptInPlace, Ciphertext_Decrypt; cbn [evp_ rc4_].
  1, 2: by rewrite (cipher_in_place_agrees e c Hs Hi).
  - by rewrite RC4_in_place.
  - done.
Qed.
End BackendLaws.

(** * A channel *)

(** An object that was keyed encrypts every non-empty message. *)
Definition rc4_keyed (c : RC4) : Prop := rc4_password c ≠ [] ∧ rc4_sbox c ≠ [].

Lemma rc4_run_total f key sbox data subtract E :
  key ≠ [] → sbox ≠ [] → data ≠ [] → is_Some (rc4_run f key sbox data subtract E).
Proof.
  intros. unfold rc4_run. destruct key, sbox, data; try done. cbn [length Nat.ltb Nat.leb orb].
  destruct (rc4_loop _ _ _ _ _). by eexists.
Qed.

Lemma RC4_Encrypt_total c m : rc4_ok c → rc4_keyed c → bytes_ok m → m ≠ [] →
  ∃ r c', RC4_Encrypt c m = (Some r, c') ∧ rc4_keyed c' ∧ rc4_sbox c' ≡ₚ rc4_sbox c.
Proof.
  intros [_ Hb] [Hp Hs] Hm Hne. unfold RC4_Encrypt, RC4_EncryptTo. rewrite Nat.ltb_irrefl.
  destruct m as [|y m]; [done|]. destruct (rc4_password c) as [|x p] eqn:Ep; [done|]. cbn [length Nat.ltb Nat.leb orb].
  destruct (rc4_run_total (λ low, low + length (x :: p))%nat (x :: p) (rc4_sbox c) (y :: m) (rc4_subtract c) (rc4_E c))
    as [[r sbox] Hr]; [done..|].
  unfold rc4_crypt_sbox_c. rewrite Hr. eexists _, _. split; [done|].
  destruct (rc4_run_undo _ _ _ _ _ _ _ _ Hb Hm Hr) as (_ & _ & _ & _ & _ & Hn). split; [by split|]. cbn [rc4_sbox].
  unfold rc4_run in Hr. destruct (_ || _); [done|]. cbv zeta in Hr.
  match type of Hr with context [rc4_loop ?f ?E ?x ?st ?d] => pose proof (rc4_loop_perm f E x st d) as Hperm;
    destruct (rc4_loop f E x st d) end. simplify_eq. exact Hperm.
Qed.

(** The deployed object: two directions share one S-box.  Both ends encrypt once before they read;
    the message that arrives is not decrypted to what was sent. *)
Definition duplex_key : RC4 := RC4_new (λ p, p) [1; 2; 3].
Example rc4_duplex_desync :
  ∃ sent a' other b' received b'',
    RC4_Encrypt duplex_key [10; 20; 30; 40; 50; 60] = (Some sent, a') ∧ RC4_Encrypt duplex_key [1; 2; 3] = (Some other, b') ∧
    RC4_Decrypt b' sent = (Some received, b'') ∧ received ≠ [10; 20; 30; 40; 50; 60].
Proof.
  eexists _, _, _, _, _, _. split; [vm_compute; reflexivity|]. split; [vm_compute; reflexivity|].
  split; [vm_compute; reflexivity|]. discriminate.
Qed.

(** An RC4 object built by the factory is a channel in one direction.  Whatever sequence of
    non-empty messages the sender encrypts, no operation fails, the receiver that started from the
    same object decrypts the ciphertexts to the same messages in the same order, both ends are left
    with the same state, and that state's S-box is still a permutation of 0 to 254.  The one-shot
    [rc4_crypt] is inverted by the opposite direction for any offset. *)
Theorem rc4_channel hash_hmac password ms key subtract E data c :
  password ≠ [] → hash_hmac password ≠ [] → Forall (λ m, bytes_ok m ∧ m ≠ []) ms → bytes_ok data →
  (∃ cs c', run RC4_Encrypt (RC4_new hash_hmac password) ms = (Some <$> cs, c') ∧
     run RC4_Decrypt (RC4_new hash_hmac password) cs = (Some <$> ms, c') ∧
     rc4_sbox c' ≡ₚ sbox_fill RC4_MAXBIT true) ∧
  (rc4_crypt key data subtract E = Some c → rc4_crypt key c subtract (negb E) = Some data).
Proof.
  intros Hp Hh Hms Hd. split.
  - set (a := RC4_new hash_hmac password).
    assert (rc4_ok a) as Hok by apply RC4_new_ok.
    assert (rc4_sbox a ≡ₚ sbox_fill RC4_MAXBIT true) as Hperm.
    { unfold a. cbn [RC4_new rc4_sbox]. unfold rc4_sbox_impl. destruct (hash_hmac password) eqn:Eh; [done|].
      cbn [length Nat.ltb Nat.leb orb RC4_MAXBIT]. rewrite default_Some, ksa_perm. apply sbox_fill_perm. }
    assert (rc4_keyed a) as Hk.
    { split; [done|]. intros Hn. rewrite Hn in Hperm. apply Permutation_nil_l in Hperm. done. }
    clearbody a. revert a Hok Hk Hperm. induction Hms as [|m t [Hm Hne] Ht IH]; intros a Hok Hk Hperm.
    + by exists [], a.
    + destruct (RC4_Encrypt_total a m Hok Hk Hm Hne) as (r & a1 & He & Hk1 & Hp1).
      destruct (RC4_Encrypt_sync a m r a1 Hok Hm He) as (Hdec & _ & _ & Hok1).
      destruct (IH a1 Hok1 Hk1 ltac:(by rewrite Hp1)) as (cs & c' & H1 & H2 & H3).
      exists (r :: cs), c'. cbn [run fmap list_fmap]. rewrite He, H1, Hdec, H2. done.
  - unfold rc4_crypt. destruct (length key <? 1)%nat eqn:Ek; [done|]. destruct (length data <? 1)%nat eqn:El; [done|].
    cbn [orb]. destruct (rc4_sbox_impl RC4_MAXBIT key true) as [sbox|] eqn:Es; [|done].
    unfold rc4_crypt_sbox. destruct (rc4_run _ _ _ _ _ _) as [[r sb]|] eqn:Er; [|done]. intros [= <-].
    assert (bytes_ok sbox) as Hb by (rewrite (rc4_sbox_perm _ _ _ _ Es); apply bytes_ok_sbox_fill).
    destruct (rc4_run_undo _ _ _ _ _ _ _ _ Hb Hd Er) as (Hu & _ & Hl & _). cbn [fst]. by rewrite Hl, El, Hu.
Qed.

Lemma rc4_channel_witness :
  ∃ cs c', run RC4_Encrypt duplex_key [[1; 2]; [255]] = (Some <$> cs, c') ∧
    run RC4_Decrypt duplex_key cs = (Some <$> [[1; 2]; [255]], c') ∧ rc4_sbox c' ≡ₚ sbox_fill RC4_MAXBIT true.
Proof.
  apply (rc4_channel (λ p, p) [1; 2; 3] [[1; 2]; [255]] [] 0 true [] []); try done.
  repeat apply Forall_cons_2; try apply Forall_nil_2; (split; [by apply (bool_decide_unpack _)|done]).
Defined.
