(* ===== verification/Transmission.v ===== *)
(** * Framing of a carrier

    [ppp/transmissions/ITransmission.cpp]: how a message becomes bytes on a stream and back.  A
    message is encrypted by the transport cipher, masked, shuffled and delta-coded, and prefixed
    with an encrypted three-byte length header ([Transmission_*]); before the handshake, and in
    plaintext mode after it, the result travels in a Base94 envelope whose first frame carries an
    extended, checksummed header ([base94_*], members of [ITransmissionBridge]).

    Random choices are arguments.  The ciphers are any instance of [CipherOps]; their state is
    threaded through.  A coroutine read of [n] bytes takes them from the front of the stream of
    bytes still to arrive.  [Transmission_Packet_Encrypt] also returns the caller's buffer, which
    some branches overwrite. *)

From S2P Require Import Prelude Ssea Ciphertext PacketChecksum.

(** ** Configuration *)
Record KeyConfig := {
  key_kf : Z;
  key_masked : bool;
  key_plaintext : bool;
  key_delta_encode : bool;
  key_shuffle_data : bool;
}.

Definition EVP_HEADER_MSS_MIN_MOD : Z := 64 * 64 * 64.
Definition EVP_HEADER_MSS_MAX_MOD : Z := 94 * 94 * 94.
(** [configuration->Lcgmod(LCGMOD_TYPE_TRANSMISSION)]. *)
Definition transmission_mod (APP : KeyConfig) : Z := lcgmod (key_kf APP) EVP_HEADER_MSS_MIN_MOD EVP_HEADER_MSS_MAX_MOD.

Definition EVP_HEADER_TSS : nat := 2.
Definition EVP_HEADER_MSS : nat := 3.
Definition EVP_HEADER_XSS : nat := 4.
Definition PPP_BUFFER_SIZE : Z := 65536.
Definition EVP_BASE94_MAX_FRAME : Z := PPP_BUFFER_SIZE * 2 + 64.
Definition EncryptToSlack : nat := 32.

(** The random draws of one frame: the header's seed, the key and the filler of the envelope. *)
Record FrameRandom := { rnd_seed : Z; rnd_k : Z; rnd_f : Z }.

(** ** The Base94 envelope *)

(** [KF_MOD]. *)
Definition kf_mod (kf MOD : Z) : Z := Z.abs (Z.rem kf MOD).

(** The four-byte header [h] for the digits [d]: key, filler or first digit, and the last two
    digits swapped. *)
Definition simple_header (d : list Z) (rk rf : Z) : list Z :=
  match replicate (EVP_HEADER_XSS - length d) 32 ++ d with
  | [_; f; x; y] =>
      if f =? 32 then [if negb (Z.land rk 1 =? 0) then wrap 8 (rk + 1) else rk; rf; y; x]
      else [if Z.land rk 1 =? 0 then (if 126 <? wrap 8 (rk + 1) then 33 else wrap 8 (rk + 1)) else rk; f; y; x]
  | h => h
  end.

(** [base94_encode_length]: the header and the new [frame_tn_]; [None] is the empty string. *)
Definition base94_encode_length (APP : KeyConfig) (frame_tn : bool) (length0 : Z) (kf : Z) (rnd : FrameRandom) :
  option (list Z) * bool :=
  let MOD := transmission_mod APP in
  let KF_MOD := kf_mod kf MOD in
  let N := Z.rem (length0 + KF_MOD) MOD in
  let d := base94_decimal N in
  let dl := length d in
  if (dl <? 1)%nat || (EVP_HEADER_XSS <=? dl)%nat then (None, frame_tn) else
  let h := simple_header d (rnd_k rnd) (rnd_f rnd) in
  if frame_tn then (Some h, true) else
  let K := Z.lxor (inet_chksum h) length0 in
  let N := Z.rem (K + KF_MOD) MOD in
  let d := base94_decimal N in
  if negb (length d =? EVP_HEADER_MSS)%nat then (None, frame_tn) else
  (Some (h ++ shuffle_data kf d), true).

(** [base94_decode_length] of the three digits at [data]. *)
Definition base94_decode_digits (APP : KeyConfig) (data : list Z) (kf : Z) : Z :=
  let MOD := transmission_mod APP in
  let N := base94_decimal_parse (take EVP_HEADER_MSS data) in
  let KF_MOD := kf_mod kf MOD in
  Z.rem (N - KF_MOD + MOD) MOD.

(** [base94_decode_kf]. *)
Definition base94_decode_kf (h : list Z) : list Z :=
  match h with
  | k :: f :: x :: y :: t => 32 :: (if Z.land k 1 =? 0 then 32 else f) :: y :: x :: t
  | _ => h
  end.

(** The member function [base94_encode]: the encoded payload behind its header. *)
Definition base94_envelope (APP : KeyConfig) (frame_tn : bool) (data : list Z) (kf : Z) (rnd : FrameRandom) :
  option (list Z) * bool :=
  match base94_encode kf data with
  | None => (None, frame_tn)
  | Some payload =>
      match base94_encode_length APP frame_tn (Z.of_nat (length payload)) kf rnd with
      | (None, tn) => (None, tn)
      | (Some k, tn) => if (length k <? EVP_HEADER_XSS)%nat then (None, tn) else (Some (k ++ payload), tn)
      end
  end.

(** The in-memory [base94_decode]: always a four-byte header. *)
Definition base94_unwrap (APP : KeyConfig) (data : list Z) (kf : Z) : option (list Z) :=
  if (length data <? EVP_HEADER_XSS)%nat then None else
  let data := base94_decode_kf data in
  let payload_length := base94_decode_digits APP (drop 1 data) kf in
  if payload_length <? 1 then None else
  if EVP_BASE94_MAX_FRAME <? payload_length then None else
  if negb (payload_length + Z.of_nat EVP_HEADER_XSS =? Z.of_nat (length data)) then None else
  match base94_decode kf (sub data EVP_HEADER_XSS (Z.to_nat payload_length)) with
  | inl _ => None
  | inr r => Some r
  end.

(** ** Reading from the stream *)
Definition ReadBytes (stream : list Z) (n : nat) : option (list Z * list Z) :=
  if (n <=? length stream)%nat then Some (take n stream, drop n stream) else None.

(** [base94_decode_length_rn]: the length (or -1) and the rest of the stream. *)
Definition base94_decode_length_rn (APP : KeyConfig) (stream : list Z) : Z * list Z :=
  match ReadBytes stream EVP_HEADER_XSS with
  | None => (-1, stream)
  | Some (data, rest) =>
      let data := base94_decode_kf data in
      let len := base94_decode_digits APP (drop 1 data) (key_kf APP) in
      (if 0 <? len then len else -1, rest)
  end.

(** [base94_decode_length_r1]: also the new [frame_rn_]. *)
Definition base94_decode_length_r1 (APP : KeyConfig) (stream : list Z) : Z * bool * list Z :=
  match ReadBytes stream (EVP_HEADER_XSS + EVP_HEADER_MSS) with
  | None => (-1, false, stream)
  | Some (data, rest) =>
      let K := inet_chksum (take EVP_HEADER_XSS data) in
      let data := base94_decode_kf data in
      let payload_length := base94_decode_digits APP (drop 1 data) (key_kf APP) in
      if payload_length <? 1 then (-1, false, rest) else
      let pbc := unshuffle_data (key_kf APP) (sub data EVP_HEADER_XSS EVP_HEADER_MSS) in
      let N := base94_decode_digits APP pbc (key_kf APP) in
      let K := Z.lxor K payload_length in
      if negb (N =? K) then (-1, false, rest) else (payload_length, true, rest)
  end.

Definition base94_read_length (APP : KeyConfig) (frame_rn : bool) (stream : list Z) : Z * bool * list Z :=
  if frame_rn then let '(len, rest) := base94_decode_length_rn APP stream in (len, true, rest)
  else base94_decode_length_r1 APP stream.

(** [base94_decode] from the transport. *)
Definition base94_read (APP : KeyConfig) (frame_rn : bool) (stream : list Z) : option (list Z) * bool * list Z :=
  let '(payload_length, rn, rest) := base94_read_length APP frame_rn stream in
  if payload_length <? 1 then (None, rn, rest) else
  if EVP_BASE94_MAX_FRAME <? payload_length then (None, rn, rest) else
  match ReadBytes rest (Z.to_nat payload_length) with
  | None => (None, rn, rest)
  | Some (packet, rest) =>
      (match base94_decode (key_kf APP) packet with inl _ => None | inr r => Some r end, rn, rest)
  end.

(** ** Packets *)

Definition Transmission_Payload_Encrypt_Partial (APP : KeyConfig) (kf : Z) (data : list Z) (safest : bool) : list Z :=
  let data := if safest || key_masked APP then masked_xor_random_next kf data else data in
  if safest || key_shuffle_data APP then shuffle_data kf data else data.

Definition Transmission_Payload_Decrypt_Partial (APP : KeyConfig) (kf : Z) (data : list Z) (safest : bool) : list Z :=
  let data := if safest || key_shuffle_data APP then unshuffle_data kf data else data in
  if safest || key_masked APP then masked_xor_random_next kf data else data.

(** The output and the overwritten input. *)
Definition Transmission_Payload_Encrypt (APP : KeyConfig) (kf : Z) (data : list Z) (safest : bool) :
  option (list Z) * list Z :=
  let data := Transmission_Payload_Encrypt_Partial APP kf data safest in
  (if safest || key_delta_encode APP then delta_encode (key_kf APP) data else Some data, data).

Definition Transmission_Payload_Decrypt (APP : KeyConfig) (kf : Z) (data : list Z) (safest : bool) : option (list Z) :=
  if safest || key_delta_encode APP then
    match delta_decode (key_kf APP) data with
    | None => None
    | Some decoded => Some (Transmission_Payload_Decrypt_Partial APP kf decoded safest)
    end
  else Some (Transmission_Payload_Decrypt_Partial APP kf data safest).

Section Ciphers.
Context {C : Type} `{CipherOps C}.

(** The optional protocol cipher on the two length bytes; another length is a failure. *)
Definition protocol_layer (f : C → list Z → option (list Z) * C) (protocol : option C) (d : list Z) :
  option (list Z) * option C :=
  match protocol with
  | None => (Some d, None)
  | Some c =>
      let '(r, c) := f c d in
      (match r with Some x => if (length x =? EVP_HEADER_TSS)%nat then Some x else None | None => None end, Some c)
  end.

Definition xor_bytes (kf : Z) (d : list Z) : list Z := map (λ b, wrap 8 (Z.lxor b kf)) d.

(** [Transmission_Header_Encrypt]: the header and [EVP_header_kf]. *)
Definition Transmission_Header_Encrypt (APP : KeyConfig) (protocol : option C) (payload_length seed : Z) :
  option (list Z * Z) * option C :=
  let payload_length := payload_length - 1 in
  if payload_length <? 0 then (None, protocol) else
  let seed := wrap 8 seed in
  let lengths := [wrap 8 (Z.shiftr payload_length 8); wrap 8 (Z.land payload_length 255)] in
  let header_kf := Z.lxor (key_kf APP) seed in
  match protocol_layer cipher_encrypt protocol lengths with
  | (None, protocol) => (None, protocol)
  | (Some lengths, protocol) =>
      let lengths := shuffle_data header_kf (xor_bytes header_kf lengths) in
      (match delta_encode (key_kf APP) (seed :: lengths) with
       | None => None
       | Some output => Some (output, header_kf)
       end, protocol)
  end.

(** [Transmission_Header_Decrypt]: the payload length (0 on failure) and [EVP_header_kf]. *)
Definition Transmission_Header_Decrypt (APP : KeyConfig) (protocol : option C) (header : list Z) : Z * Z * option C :=
  match delta_decode (key_kf APP) (take EVP_HEADER_MSS header) with
  | Some (seed :: lengths) =>
      let header_kf := Z.lxor (key_kf APP) seed in
      let lengths := xor_bytes header_kf (unshuffle_data header_kf lengths) in
      match protocol_layer cipher_decrypt protocol lengths with
      | (None, protocol) => (0, header_kf, protocol)
      | (Some lengths, protocol) =>
          (Z.lor (Z.shiftl (byte_at lengths 0) 8) (byte_at lengths 1) + 1, header_kf, protocol)
      end
  | _ => (0, 0, protocol)
  end.

(** [Transmission_Packet_Encrypt]: the packet, the caller's buffer after the call, the ciphers.
    The callers pass both ciphers or none. *)
Definition Transmission_Packet_Encrypt (APP : KeyConfig) (ciphers : option (C * C)) (data : list Z) (seed : Z)
    (safest : bool) : option (list Z) * list Z * option (C * C) :=
  match ciphers with
  | Some (protocol, transport) =>
      let '(payload, transport) :=
        if negb (safest || key_delta_encode APP)
        then cipher_encrypt_to transport (length data + EncryptToSlack) data
        else cipher_encrypt transport data in
      match payload with
      | None => (None, data, Some (protocol, transport))
      | Some payload =>
          if negb (length payload =? length data)%nat then (None, data, Some (protocol, transport)) else
          let '(header, protocol') := Transmission_Header_Encrypt APP (Some protocol) (Z.of_nat (length payload)) seed in
          let ciphers := Some (default protocol protocol', transport) in
          match header with
          | None => (None, data, ciphers)
          | Some (header, header_kf) =>
              if negb (safest || key_delta_encode APP)
              then (Some (header ++ Transmission_Payload_Encrypt_Partial APP header_kf payload safest), data, ciphers)
              else
                match (Transmission_Payload_Encrypt APP header_kf payload safest).1 with
                | None => (None, data, ciphers)
                | Some payload => (Some (header ++ payload), data, ciphers)
                end
          end
      end
  | None =>
      match (Transmission_Header_Encrypt APP None (Z.of_nat (length data)) seed).1 with
      | None => (None, data, None)
      | Some (header, header_kf) =>
          match Transmission_Payload_Encrypt APP header_kf data safest with
          | (None, data) => (None, data, None)
          | (Some payload, data) => (Some (header ++ payload), data, None)
          end
      end
  end.

(** [Transmission_Transport_Decrypt]. *)
Definition Transmission_Transport_Decrypt (transport : C) (payload : list Z) : option (list Z) * C :=
  if cipher_can_decrypt_in_place transport then cipher_decrypt_in_place transport payload
  else cipher_decrypt transport payload.

(** The layers below the header, shared by the two readers: [payload] has the announced length. *)
Definition decrypt_layers (APP : KeyConfig) (transport : option C) (header_kf : Z) (payload : list Z) (safest : bool) :
  option (list Z) * option C :=
  match Transmission_Payload_Decrypt APP header_kf payload safest with
  | None => (None, transport)
  | Some plain =>
      match transport with
      | None => (Some plain, None)
      | Some t =>
          let '(r, t) := Transmission_Transport_Decrypt t plain in
          (match r with
           | Some x => if (length x =? length payload)%nat then Some x else None
           | None => None
           end, Some t)
      end
  end.

Definition join_ciphers (protocol transport : option C) : option (C * C) :=
  match protocol, transport with
  | Some p, Some t => Some (p, t)
  | _, _ => None
  end.

(** [Transmission_Packet_Decrypt]. *)
Definition Transmission_Packet_Decrypt (APP : KeyConfig) (ciphers : option (C * C)) (data : list Z) (safest : bool) :
  option (list Z) * option (C * C) :=
  if (length data <=? EVP_HEADER_MSS)%nat then (None, ciphers) else
  let '(payload_len, header_kf, protocol) := Transmission_Header_Decrypt APP (fst <$> ciphers) data in
  let ciphers' := join_ciphers protocol (snd <$> ciphers) in
  if payload_len <? 1 then (None, ciphers') else
  if PPP_BUFFER_SIZE <? payload_len then (None, ciphers') else
  if negb (payload_len + Z.of_nat EVP_HEADER_MSS =? Z.of_nat (length data)) then (None, ciphers') else
  let '(r, transport) := decrypt_layers APP (snd <$> ciphers) header_kf (drop EVP_HEADER_MSS data) safest in
  (r, join_ciphers protocol transport).

(** [Transmission_Packet_Read]: header and payload straight from the transport. *)
Definition Transmission_Packet_Read (APP : KeyConfig) (ciphers : option (C * C)) (stream : list Z) (safest : bool) :
  option (list Z) * option (C * C) * list Z :=
  match ReadBytes stream EVP_HEADER_MSS with
  | None => (None, ciphers, stream)
  | Some (header, stream) =>
      let '(payload_len, header_kf, protocol) := Transmission_Header_Decrypt APP (fst <$> ciphers) header in
      let ciphers' := join_ciphers protocol (snd <$> ciphers) in
      if payload_len <? 1 then (None, ciphers', stream) else
      if PPP_BUFFER_SIZE <? payload_len then (None, ciphers', stream) else
      match ReadBytes stream (Z.to_nat payload_len) with
      | None => (None, ciphers', stream)
      | Some (payload, stream) =>
          let '(r, transport) := decrypt_layers APP (snd <$> ciphers) header_kf payload safest in
          (r, join_ciphers protocol transport, stream)
      end
  end.

(** ** A transmission *)
Record Transmission := {
  configuration_ : KeyConfig;
  ciphers_ : option (C * C);
  handshaked_ : bool;
  frame_tn_ : bool;
  frame_rn_ : bool;
}.

Definition set_ciphers (t : Transmission) (cs : option (C * C)) : Transmission :=
  {| configuration_ := configuration_ t; ciphers_ := cs; handshaked_ := handshaked_ t;
     frame_tn_ := frame_tn_ t; frame_rn_ := frame_rn_ t |}.
Definition set_frame_tn (t : Transmission) (b : bool) : Transmission :=
  {| configuration_ := configuration_ t; ciphers_ := ciphers_ t; handshaked_ := handshaked_ t;
     frame_tn_ := b; frame_rn_ := frame_rn_ t |}.
Definition set_frame_rn (t : Transmission) (b : bool) : Transmission :=
  {| configuration_ := configuration_ t; ciphers_ := ciphers_ t; handshaked_ := handshaked_ t;
     frame_tn_ := frame_tn_ t; frame_rn_ := b |}.

(** Base94 is used before the handshake and in plaintext mode. *)
Definition enveloped (t : Transmission) : bool := negb (handshaked_ t) || key_plaintext (configuration_ t).

(** [ITransmissionBridge::Encrypt], with the caller's buffer after the call. *)
Definition Transmission_Encrypt (t : Transmission) (data : list Z) (rnd : FrameRandom) :
  option (list Z) * list Z * Transmission :=
  let '(packet, buffer, cs) :=
    Transmission_Packet_Encrypt (configuration_ t) (ciphers_ t) data (rnd_seed rnd) (negb (handshaked_ t)) in
  let t := set_ciphers t cs in
  match packet with
  | None => (None, buffer, t)
  | Some packet =>
      if enveloped t then
        let '(r, tn) := base94_envelope (configuration_ t) (frame_tn_ t) packet (key_kf (configuration_ t)) rnd in
        (r, buffer, set_frame_tn t tn)
      else (Some packet, buffer, t)
  end.

(** [DecryptBinary]. *)
Definition DecryptBinary (t : Transmission) (data : list Z) : option (list Z) * Transmission :=
  let '(r, cs) := Transmission_Packet_Decrypt (configuration_ t) (ciphers_ t) data (negb (handshaked_ t)) in
  (r, set_ciphers t cs).

(** [ITransmissionBridge::Decrypt], of a frame in memory. *)
Definition Transmission_Decrypt (t : Transmission) (data : list Z) : option (list Z) * Transmission :=
  if enveloped t then
    match base94_unwrap (configuration_ t) data (key_kf (configuration_ t)) with
    | None | Some [] => (None, t)
    | Some packet => DecryptBinary t packet
    end
  else DecryptBinary t data.

(** [ITransmissionBridge::Read]. *)
Definition Transmission_Read (t : Transmission) (stream : list Z) : option (list Z) * Transmission * list Z :=
  if enveloped t then
    let '(packet, rn, stream) := base94_read (configuration_ t) (frame_rn_ t) stream in
    let t := set_frame_rn t rn in
    match packet with
    | None | Some [] => (None, t, stream)
    | Some packet => let '(r, t) := DecryptBinary t packet in (r, t, stream)
    end
  else
    let '(r, cs, stream) :=
      Transmission_Packet_Read (configuration_ t) (ciphers_ t) stream (negb (handshaked_ t)) in
    (r, set_ciphers t cs, stream).
End Ciphers.
Arguments Transmission : clear implicits.

(** * The modulus *)

Lemma random_next_nonneg seed : 0 ≤ (random_next seed).1.
Proof.
  unfold random_next. cbn [fst]. apply Z.lxor_nonneg. split; intros _; [apply Z.mod_pos_bound; lia|].
  apply Z.shiftl_nonneg, Z.lxor_nonneg. split; intros _; [apply Z.mod_pos_bound; lia|].
  apply Z.shiftl_nonneg, Z.mod_pos_bound. lia.
Qed.

Lemma lcgmod_range kf min max : min ≤ max → min ≤ lcgmod kf min max ≤ max.
Proof.
  intros. unfold lcgmod, random_next_from_key. pose proof (random_next_nonneg (wrap 32 kf)).
  pose proof (Z.rem_bound_pos (random_next (wrap 32 kf)).1 (max - min + 1)). lia.
Qed.

Lemma transmission_mod_range APP : 262144 ≤ transmission_mod APP ≤ 830584.
Proof. apply (lcgmod_range (key_kf APP) 262144 830584). lia. Qed.

Lemma kf_mod_range kf MOD : 0 < MOD → 0 ≤ kf_mod kf MOD < MOD.
Proof. intros. unfold kf_mod. pose proof (Z.rem_bound_abs kf MOD). lia. Qed.

(** Adding the key modulo [MOD] is undone by subtracting it. *)
Lemma key_offset_undo x kf MOD : 0 ≤ x < MOD →
  0 ≤ Z.rem (x + kf_mod kf MOD) MOD < MOD ∧
  Z.rem (Z.rem (x + kf_mod kf MOD) MOD - kf_mod kf MOD + MOD) MOD = x.
Proof.
  intros Hx. pose proof (kf_mod_range kf MOD ltac:(lia)) as Hk. set (k := kf_mod kf MOD) in *.
  rewrite (Z.rem_mod_nonneg (x + k)) by lia. pose proof (Z.mod_pos_bound (x + k) MOD ltac:(lia)).
  split; [done|]. rewrite Z.rem_mod_nonneg by lia.
  replace ((x + k) mod MOD - k + MOD) with ((x + k) mod MOD + (MOD - k)) by lia.
  rewrite Zplus_mod_idemp_l. replace (x + k + (MOD - k)) with (x + 1 * MOD) by lia.
  rewrite Z.mod_add by lia. by apply Z.mod_small.
Qed.

(** * The envelope *)

Lemma land_1 x : Z.land x 1 = x mod 2.
Proof. change 1 with (Z.ones 1). by rewrite Z.land_ones. Qed.

Abbreviation draw r := (32 ≤ r ≤ 126).

(** The key byte tells whether the second byte is a digit. *)
Lemma simple_header_decode d rk rf t : (1 ≤ length d ≤ 3)%nat → draw rk →
  (length d = 3%nat → ∃ c u, d = c :: u ∧ c ≠ 32) →
  length (simple_header d rk rf) = 4%nat ∧
  base94_decode_kf (simple_header d rk rf ++ t) = replicate (4 - length d) 32 ++ d ++ t.
Proof.
  intros Hd Hk Hlead. unfold simple_header, EVP_HEADER_XSS.
  pose proof (Z.mod_pos_bound rk 2 ltac:(lia)). pose proof (Z.div_mod rk 2 ltac:(lia)).
  assert (wrap 8 (rk + 1) = rk + 1) as Hw by (apply wrap_small; unfold is_uint; lia).
  assert (Z.land rk 1 ≠ 0 → Z.land (rk + 1) 1 = 0) as Heven.
  { rewrite !land_1. intros. rewrite Zplus_mod. replace (rk mod 2) with 1 by lia. done. }
  assert (Z.land rk 1 = 0 → Z.land (rk + 1) 1 = 1) as Hodd.
  { rewrite !land_1. intros Hz. rewrite Zplus_mod, Hz. done. }
  assert (∀ f x y, f = 32 → base94_decode_kf
            ([if negb (Z.land rk 1 =? 0) then wrap 8 (rk + 1) else rk; rf; y; x] ++ t) = 32 :: f :: x :: y :: t) as Hfill.
  { intros f x y ->. cbn [app base94_decode_kf]. rewrite Hw. destruct (Z.land rk 1 =? 0) eqn:E; cbn [negb]; [by rewrite E|].
    apply Z.eqb_neq in E. by rewrite (Heven E). }
  destruct d as [|a [|b [|c [|? ?]]]]; cbn [length] in Hd; try lia; cbn [length replicate app Nat.sub].
  - split; [done|]. by apply (Hfill 32 32 a).
  - split; [done|]. by apply (Hfill 32 a b).
  - destruct Hlead as (? & ? & Heq & Hne); [done|]. simplify_eq. rewrite (proj2 (Z.eqb_neq _ _)) by done.
    split; [done|]. cbn [app base94_decode_kf]. rewrite Hw.
    destruct (Z.land rk 1 =? 0) eqn:E; [|by rewrite E]. apply Z.eqb_eq in E.
    destruct (126 <? rk + 1) eqn:E2; [done|]. by rewrite (Hodd E).
Qed.

(** The digits of a number below the modulus. *)
Lemma mod_digits APP N : 0 ≤ N < transmission_mod APP →
  (1 ≤ length (base94_decimal N) ≤ 3)%nat ∧
  (length (base94_decimal N) = 3%nat → ∃ c u, base94_decimal N = c :: u ∧ c ≠ 32) ∧
  (length (base94_decimal N) = 3%nat ↔ 8836 ≤ N).
Proof.
  intros HN. pose proof (transmission_mod_range APP).
  destruct (base94_decimal_spec N) as (_ & Hval & Hlead & Hlt & Hlen); [unfold is_uint; lia|].
  destruct (decide (N = 0)) as [->|Hne].
  { change (base94_decimal 0) with [32]. cbn [length]. split; [lia|]. split; [lia|]. lia. }
  destruct (Hlead ltac:(lia)) as (c & u & Heq & Hc & Hlow).
  assert (length (base94_decimal N) ≤ 3)%nat.
  { rewrite Heq. cbn [length]. assert (length u < 3)%nat; [|lia].
    destruct (decide (length u < 3)%nat); [done|]. pose proof (Z.pow_le_mono_r 94 3 (Z.of_nat (length u)) ltac:(lia) ltac:(lia)).
    change (94 ^ 3) with 830584 in *. lia. }
  split; [lia|]. split; [intros _; exists c, u; split; [done|lia]|].
  split.
  - rewrite Heq. cbn [length]. intros Hl. replace (length u) with 2%nat in Hlow by lia. exact Hlow.
  - intros. destruct (decide (length (base94_decimal N) = 3)%nat); [done|].
    pose proof (Z.pow_le_mono_r 94 (Z.of_nat (length (base94_decimal N))) 2 ltac:(lia) ltac:(lia)).
    change (94 ^ 2) with 8836 in *. lia.
Qed.

Lemma decode_digits_pad APP kf x t : 0 ≤ x < transmission_mod APP →
  let d := base94_decimal (Z.rem (x + kf_mod kf (transmission_mod APP)) (transmission_mod APP)) in
  base94_decode_digits APP (replicate (3 - length d) 32 ++ d ++ t) kf = x.
Proof.
  intros Hx d. pose proof (transmission_mod_range APP).
  destruct (key_offset_undo x kf (transmission_mod APP) Hx) as [HN Hundo].
  destruct (mod_digits APP _ HN) as [Hd _]. fold d in Hd.
  unfold base94_decode_digits, EVP_HEADER_MSS. rewrite app_assoc, take_app_le, take_ge
    by (rewrite length_app, length_replicate; lia).
  unfold d. rewrite base94_decimal_parse_pad by (unfold is_uint; lia). exact Hundo.
Qed.

(** What a call of [base94_encode_length] that succeeds returns. *)
Lemma encode_length_simple APP x kf rnd : 0 ≤ x < transmission_mod APP → draw (rnd_k rnd) →
  let d := base94_decimal (Z.rem (x + kf_mod kf (transmission_mod APP)) (transmission_mod APP)) in
  let h := simple_header d (rnd_k rnd) (rnd_f rnd) in
  length h = 4%nat ∧ (∀ t, base94_decode_digits APP (drop 1 (base94_decode_kf (h ++ t))) kf = x) ∧
  (∀ t, drop 4 (base94_decode_kf (h ++ t)) = t) ∧
  base94_encode_length APP true x kf rnd = (Some h, true).
Proof.
  intros Hx Hk d h. destruct (key_offset_undo x kf (transmission_mod APP) Hx) as [HN _].
  destruct (mod_digits APP _ HN) as (Hd & Hlead & _). fold d in Hd, Hlead.
  pose proof (λ t, simple_header_decode d (rnd_k rnd) (rnd_f rnd) t Hd Hk Hlead) as Hh. fold h in Hh.
  split; [apply (Hh [])|]. split; [|split].
  - intros t. destruct (Hh t) as [_ ->].
    replace (4 - length d)%nat with (S (3 - length d))%nat by lia. cbn [replicate app drop].
    rewrite drop_0. by apply decode_digits_pad.
  - intros t. destruct (Hh t) as [_ ->]. rewrite app_assoc, drop_app_length'; [done|].
    rewrite length_app, length_replicate. lia.
  - unfold base94_encode_length. fold d. unfold EVP_HEADER_XSS.
    rewrite (proj2 (Nat.ltb_ge _ _)), (proj2 (Nat.leb_gt _ _)) by lia. done.
Qed.

(** The checksum of the extended header with the length fits below the modulus. *)
Lemma chksum_key_range h x : 0 ≤ x < 262144 → 0 ≤ Z.lxor (inet_chksum h) x < 262144.
Proof.
  intros Hx. assert (is_uint 16 (inet_chksum h)) as Hc by (apply wrap_range; lia). unfold is_uint in Hc.
  rewrite <- (Z.mod_small (inet_chksum h) (2 ^ 18)), <- (Z.mod_small x (2 ^ 18)) by lia.
  pose proof (wrap_lxor 18 (inet_chksum h) x ltac:(lia)) as Hw. unfold wrap in Hw. rewrite <- Hw.
  apply Z.mod_pos_bound. lia.
Qed.

(** The readers of the two header forms, on any four bytes [h] that decode to [x]. *)
Lemma read_simple APP h x rest : length h = 4%nat → 0 < x →
  base94_decode_digits APP (drop 1 (base94_decode_kf h)) (key_kf APP) = x →
  base94_read_length APP true (h ++ rest) = (x, true, rest).
Proof.
  intros Hl Hx Hdig. unfold base94_read_length, base94_decode_length_rn, ReadBytes, EVP_HEADER_XSS.
  rewrite (proj2 (Nat.leb_le _ _)) by (rewrite length_app; lia).
  rewrite take_app_length', drop_app_length', Hdig by done. by rewrite (proj2 (Z.ltb_lt _ _)) by lia.
Qed.

Lemma read_extended APP h d x rest : length h = 4%nat → length d = 3%nat → 0 < x →
  base94_decode_digits APP (drop 1 (base94_decode_kf (h ++ shuffle_data (key_kf APP) d))) (key_kf APP) = x →
  drop 4 (base94_decode_kf (h ++ shuffle_data (key_kf APP) d)) = shuffle_data (key_kf APP) d →
  base94_decode_digits APP d (key_kf APP) = Z.lxor (inet_chksum h) x →
  base94_read_length APP false ((h ++ shuffle_data (key_kf APP) d) ++ rest) = (x, true, rest).
Proof.
  intros Hl Hd Hx Hdig Hdrop HK.
  unfold base94_read_length, base94_decode_length_r1, ReadBytes, EVP_HEADER_XSS, EVP_HEADER_MSS.
  assert (length (h ++ shuffle_data (key_kf APP) d) = 7%nat) as H7 by (rewrite length_app, length_shuffle_data; lia).
  rewrite (proj2 (Nat.leb_le _ _)) by (rewrite length_app; lia). change (4 + 3)%nat with 7%nat.
  rewrite (take_app_length' _ rest), (drop_app_length' _ rest), (take_app_length' h) by done.
  rewrite Hdig, (proj2 (Z.ltb_ge _ _)) by lia. unfold sub. rewrite Hdrop.
  rewrite take_ge by (rewrite length_shuffle_data; lia). rewrite unshuffle_shuffle, HK. by rewrite Z.eqb_refl.
Qed.

(** The first frame's header: it exists unless the checksummed number has fewer than three digits. *)
Lemma encode_length_extended APP x kf rnd h :
  base94_encode_length APP true x kf rnd = (Some h, true) →
  base94_encode_length APP false x kf rnd =
    let K := Z.lxor (inet_chksum h) x in
    let d := base94_decimal (Z.rem (K + kf_mod kf (transmission_mod APP)) (transmission_mod APP)) in
    if negb (length d =? EVP_HEADER_MSS)%nat then (None, false) else (Some (h ++ shuffle_data kf d), true).
Proof.
  unfold base94_encode_length. destruct (_ || _); [done|]. cbv zeta. intros Heq. by injection Heq as ->.
Qed.

(** The reader recovers the length from what the writer produced, in either frame mode. *)
Lemma read_encode_length APP tn x rnd h tn' rest :
  0 < x < 262144 → draw (rnd_k rnd) →
  base94_encode_length APP tn x (key_kf APP) rnd = (Some h, tn') →
  tn' = true ∧ base94_read_length APP tn (h ++ rest) = (x, true, rest) ∧ (4 ≤ length h)%nat.
Proof.
  intros Hx Hk He. pose proof (transmission_mod_range APP).
  pose proof (encode_length_simple APP x (key_kf APP) rnd ltac:(lia) Hk) as Hs. cbv zeta in Hs.
  revert Hs. generalize (simple_header (base94_decimal (Z.rem (x + kf_mod (key_kf APP) (transmission_mod APP))
    (transmission_mod APP))) (rnd_k rnd) (rnd_f rnd)) as h4. intros h4 (Hl & Hdig & Hdrop & Htrue). destruct tn.
  - rewrite Htrue in He. injection He as <- <-. split; [done|]. split; [|lia]. apply read_simple; [done|lia|].
    rewrite <- (app_nil_r h4) at 1. apply Hdig.
  - rewrite (encode_length_extended _ _ _ _ _ Htrue) in He. cbv zeta in He.
    pose proof (chksum_key_range h4 x ltac:(lia)) as HK0. revert He.
    pose proof (decode_digits_pad APP (key_kf APP) (Z.lxor (inet_chksum h4) x) [] ltac:(lia)) as Hpad. revert Hpad. cbv zeta.
    generalize (base94_decimal (Z.rem (Z.lxor (inet_chksum h4) x + kf_mod (key_kf APP) (transmission_mod APP))
      (transmission_mod APP))) as d. intros d Hpad.
    unfold EVP_HEADER_MSS. destruct (Nat.eqb_spec (length d) 3) as [Hd|]; [|done]. cbn [negb]. intros He. injection He as <- <-.
    rewrite Hd, app_nil_r in Hpad. split; [done|]. split; [|rewrite length_app; lia].
    apply read_extended; [done|done|lia|apply Hdig|apply Hdrop|exact Hpad].
Qed.

(** The envelope round-trips. *)
Lemma read_envelope APP tn data rnd p tn' rest :
  bytes_ok data → Z.of_nat (length data) ≤ 65539 → draw (rnd_k rnd) →
  base94_envelope APP tn data (key_kf APP) rnd = (Some p, tn') →
  tn' = true ∧ base94_read APP tn (p ++ rest) = (Some data, true, rest).
Proof.
  intros Hb Hlen Hk. unfold base94_envelope. destruct (base94_encode (key_kf APP) data) as [payload|] eqn:Ee; [|done].
  pose proof (base94_decode_encode _ _ _ Hb Ee) as Hdec.
  assert (1 ≤ Z.of_nat (length payload) ≤ 131078) as Hpl.
  { unfold base94_encode in Ee. destruct data as [|c t]; [done|]. simplify_eq.
    pose proof (encoded_length_exact (key_kf APP) (c :: t)). pose proof (encoded_length_bounds (key_kf APP) (c :: t)).
    cbn [length] in *. lia. }
  destruct (base94_encode_length APP tn _ _ rnd) as [[h|] t1] eqn:El; [|done].
  destruct (read_encode_length APP tn (Z.of_nat (length payload)) rnd h t1 (payload ++ rest) ltac:(lia) Hk El) as (-> & Hrd & Hh).
  destruct (length h <? EVP_HEADER_XSS)%nat; [done|]. intros Heq. simplify_eq. split; [done|].
  unfold base94_read. rewrite <- app_assoc, Hrd. rewrite !(proj2 (Z.ltb_ge _ _)) by
    (unfold EVP_BASE94_MAX_FRAME, PPP_BUFFER_SIZE; lia).
  unfold ReadBytes. rewrite Nat2Z.id, (proj2 (Nat.leb_le _ _)) by (rewrite length_app; lia).
  rewrite take_app_length', drop_app_length', Hdec by done. done.
Qed.

(** * The payload transforms *)

Lemma partial_length APP kf data safest : length (Transmission_Payload_Encrypt_Partial APP kf data safest) = length data.
Proof.
  unfold Transmission_Payload_Encrypt_Partial.
  destruct (safest || key_shuffle_data APP), (safest || key_masked APP);
    by rewrite ?length_shuffle_data, ?length_masked_xor_random_next.
Qed.

Lemma partial_bytes APP kf data safest : bytes_ok data → bytes_ok (Transmission_Payload_Encrypt_Partial APP kf data safest).
Proof.
  intros Hb. unfold Transmission_Payload_Encrypt_Partial.
  destruct (safest || key_shuffle_data APP), (safest || key_masked APP);
    try apply Forall_shuffle; try apply bytes_ok_masked_xor_random_next; done.
Qed.

Lemma partial_undo APP kf data safest : bytes_ok data →
  Transmission_Payload_Decrypt_Partial APP kf (Transmission_Payload_Encrypt_Partial APP kf data safest) safest = data.
Proof.
  intros Hb. unfold Transmission_Payload_Encrypt_Partial, Transmission_Payload_Decrypt_Partial.
  destruct (safest || key_shuffle_data APP), (safest || key_masked APP);
    rewrite ?unshuffle_shuffle, ?masked_xor_random_next_involutive; done.
Qed.

Lemma payload_undo APP kf data safest p buf : bytes_ok data →
  Transmission_Payload_Encrypt APP kf data safest = (Some p, buf) →
  Transmission_Payload_Decrypt APP kf p safest = Some data ∧ length p = length data ∧ bytes_ok p.
Proof.
  intros Hb. unfold Transmission_Payload_Encrypt, Transmission_Payload_Decrypt.
  pose proof (partial_bytes APP kf data safest Hb) as Hpb. destruct (safest || key_delta_encode APP); intros Heq.
  - injection Heq as He _. destruct (delta_decode_encode _ _ _ Hpb He) as (-> & Hl & Hp).
    rewrite partial_undo by done. by rewrite Hl, partial_length.
  - injection Heq as <- _. rewrite partial_undo by done. by rewrite partial_length.
Qed.

(** The fast path writes the same bytes as the general one. *)
Lemma payload_partial APP kf data safest : (safest || key_delta_encode APP) = false →
  (Transmission_Payload_Encrypt APP kf data safest).1 = Some (Transmission_Payload_Encrypt_Partial APP kf data safest).
Proof. intros E. unfold Transmission_Payload_Encrypt. by rewrite E. Qed.

(** * The header *)

Lemma xor_bytes_involutive kf d : bytes_ok d → xor_bytes kf (xor_bytes kf d) = d.
Proof.
  intros Hd. unfold xor_bytes. rewrite map_map. rewrite <- (map_id d) at 2. apply map_ext_Forall.
  eapply Forall_impl; [exact Hd|]. intros b Hb. cbn beta.
  rewrite wrap_lxor, wrap_idem, <- wrap_lxor, Z.lxor_assoc, Z.lxor_nilpotent, Z.lxor_0_r by lia. by apply wrap_small.
Qed.

Lemma bytes_ok_xor_bytes kf d : bytes_ok (xor_bytes kf d).
Proof. unfold xor_bytes. apply Forall_map, Forall_forall. intros. apply wrap8_byte. Qed.

Section Frames.
Context {C : Type} `{CipherLaws C}.

Definition protocol_good (p : option C) : Prop := match p with Some c => cipher_ok c | None => True end.

Lemma protocol_layer_undo p d r p' : protocol_good p → bytes_ok d → length d = EVP_HEADER_TSS →
  protocol_layer cipher_encrypt p d = (Some r, p') →
  protocol_layer cipher_decrypt p r = (Some d, p') ∧ bytes_ok r ∧ length r = 2%nat ∧ protocol_good p' ∧
  (is_Some p ↔ is_Some p').
Proof.
  intros Hp Hd Hl. unfold protocol_layer. destruct p as [c|]; [|intros Heq; by simplify_eq].
  destruct (cipher_encrypt c d) as [[x|] c'] eqn:Ee; [|done].
  destruct (Nat.eqb_spec (length x) EVP_HEADER_TSS) as [Hx|]; [|done]. intros Heq. simplify_eq.
  destruct (cipher_inverse c d r c' Hp Hd Ee) as (-> & Hr & Hok). rewrite Hl. cbn [Nat.eqb EVP_HEADER_TSS].
  split; [done|]. split; [done|]. split; [done|]. split; [done|]. by split.
Qed.

Lemma length_bytes n : 0 ≤ n < 65536 →
  Z.lor (Z.shiftl (wrap 8 (Z.shiftr n 8)) 8) (wrap 8 (Z.land n 255)) = n.
Proof.
  intros Hn. rewrite land_255, Z.shiftr_div_pow2 by lia. change (2 ^ 8) with 256.
  pose proof (Z.mod_pos_bound n 256 ltac:(lia)). pose proof (Z.div_mod n 256 ltac:(lia)).
  assert (0 ≤ n / 256 < 256) by (split; [apply Z.div_pos; lia|apply Z.div_lt_upper_bound; lia]).
  rewrite !wrap_small by (unfold is_uint; lia). rewrite lor_shift_add by lia. lia.
Qed.

(** The receiver recovers the length and the key of the packet. *)
Lemma header_undo APP p len seed header hkf p' rest : protocol_good p → 1 ≤ len ≤ 65536 →
  Transmission_Header_Encrypt APP p len seed = (Some (header, hkf), p') →
  Transmission_Header_Decrypt APP p (header ++ rest) = (len, hkf, p') ∧ length header = 3%nat ∧ bytes_ok header ∧
  protocol_good p' ∧ (is_Some p ↔ is_Some p').
Proof.
  intros Hp Hlen. unfold Transmission_Header_Encrypt, Transmission_Header_Decrypt.
  rewrite (proj2 (Z.ltb_ge (len - 1) 0)) by lia. cbv zeta.
  set (ls := [wrap 8 (Z.shiftr (len - 1) 8); wrap 8 (Z.land (len - 1) 255)]).
  assert (bytes_ok ls) as Hls by (repeat apply Forall_cons_2; try apply wrap8_byte; apply Forall_nil_2).
  destruct (protocol_layer cipher_encrypt p ls) as [[r|] q] eqn:Ep; [|done].
  destruct (protocol_layer_undo p ls r q Hp Hls eq_refl Ep) as (Hun & Hr & Hl2 & Hq & Hiff).
  set (kf := Z.lxor (key_kf APP) (wrap 8 seed)). set (body := shuffle_data kf (xor_bytes kf r)).
  assert (length body = 2%nat) as Hlb by (unfold body, xor_bytes; by rewrite length_shuffle_data, length_map).
  assert (bytes_ok (wrap 8 seed :: body)) as Hbody.
  { apply Forall_cons_2; [apply wrap8_byte|]. apply Forall_shuffle, bytes_ok_xor_bytes. }
  destruct (delta_encode (key_kf APP) (wrap 8 seed :: body)) as [out|] eqn:Ed; [|done].
  intros Heq. injection Heq as <- <- <-. destruct (delta_decode_encode _ _ _ Hbody Ed) as (Hdd & Hlo & Hob).
  cbn [length] in Hlo. rewrite Hlb in Hlo. unfold EVP_HEADER_MSS. rewrite take_app_length', Hdd by done. cbv zeta.
  fold kf. unfold body. rewrite unshuffle_shuffle, xor_bytes_involutive, Hun by done.
  split; [|done]. unfold ls, byte_at. cbn [nth]. rewrite length_bytes by lia. f_equal. f_equal. lia.
Qed.

(** * Packets *)

Definition ciphers_good (cs : option (C * C)) : Prop :=
  match cs with Some (p, t) => cipher_ok p ∧ cipher_ok t | None => True end.

(** What a packet consists of, whichever branch built it: a header for the payload's length and a
    payload that the lower layers turn back into the data. *)
Definition packet_parts (APP : KeyConfig) (cs cs' : option (C * C)) (data pkt : list Z) (seed : Z) (safest : bool) : Prop :=
  ∃ header hkf payload protocol transport,
    pkt = header ++ payload ∧
    Transmission_Header_Encrypt APP (fst <$> cs) (Z.of_nat (length data)) seed = (Some (header, hkf), protocol) ∧
    length payload = length data ∧ bytes_ok payload ∧
    decrypt_layers APP (snd <$> cs) hkf payload safest = (Some data, transport) ∧
    cs' = join_ciphers protocol transport ∧ ciphers_good cs'.

Lemma transport_undo t m c t' : cipher_ok t → bytes_ok m → cipher_encrypt t m = (Some c, t') →
  Transmission_Transport_Decrypt t c = (Some m, t') ∧ bytes_ok c ∧ cipher_ok t'.
Proof.
  intros Ht Hm He. destruct (cipher_inverse t m c t' Ht Hm He) as (Hd & Hc & Hok). split; [|done].
  unfold Transmission_Transport_Decrypt. destruct (cipher_can_decrypt_in_place t) eqn:Ei; [|done].
  by rewrite cipher_in_place_agrees.
Qed.

Lemma packet_encrypt_parts APP cs data seed safest pkt buf cs' :
  ciphers_good cs → bytes_ok data → 1 ≤ Z.of_nat (length data) ≤ 65536 →
  Transmission_Packet_Encrypt APP cs data seed safest = (Some pkt, buf, cs') →
  packet_parts APP cs cs' data pkt seed safest.
Proof.
  intros Hcs Hb Hlen. unfold Transmission_Packet_Encrypt, packet_parts. destruct cs as [[p t]|].
  - destruct Hcs as [Hp Ht]. destruct (if negb _ then _ else _) as [o t1] eqn:Eo.
    destruct o as [c|]; [|done].
    assert (cipher_encrypt t data = (Some c, t1)) as He.
    { destruct (negb (safest || key_delta_encode APP)); [by eapply cipher_to_agrees|done]. }
    destruct (transport_undo t data c t1 Ht Hb He) as (Htd & Hcb & Ht1).
    destruct (Nat.eqb_spec (length c) (length data)) as [Hcl|]; [|done]. cbn [negb]. rewrite Hcl.
    destruct (Transmission_Header_Encrypt APP (Some p) (Z.of_nat (length data)) seed) as [[[header hkf]|] q] eqn:Eh; [|done].
    destruct (header_undo APP (Some p) _ seed header hkf q [] Hp Hlen Eh) as (_ & _ & _ & Hq & Hiff).
    destruct q as [q|]; [|by destruct (proj1 Hiff (ex_intro _ p eq_refl))]. cbn [default].
    assert (∀ payload, (Transmission_Payload_Encrypt APP hkf c safest).1 = Some payload →
              length payload = length data ∧ bytes_ok payload ∧
              decrypt_layers APP (snd <$> Some (p, t)) hkf payload safest = (Some data, Some t1)) as Hlay.
    { intros payload Hpe. destruct (Transmission_Payload_Encrypt APP hkf c safest) as [o b] eqn:Epe. cbn [fst] in Hpe. subst o.
      destruct (payload_undo APP hkf c safest payload b Hcb Epe) as (Hdec & Hpl & Hpb).
      split; [lia|]. split; [done|]. unfold decrypt_layers. rewrite Hdec. cbn [fmap option_fmap option_map snd]. rewrite Htd.
      rewrite (proj2 (Nat.eqb_eq _ _)) by lia. done. }
    destruct (safest || key_delta_encode APP) eqn:Ef; cbn [negb].
    + destruct ((Transmission_Payload_Encrypt APP hkf c safest).1) as [payload|] eqn:Epe; [|done].
      intros Heq. injection Heq as <- <- <-. destruct (Hlay payload eq_refl) as (? & ? & ?).
      exists header, hkf, payload, (Some q), (Some t1). done.
    + intros Heq. injection Heq as <- <- <-.
      destruct (Hlay (Transmission_Payload_Encrypt_Partial APP hkf c safest)) as (? & ? & ?); [by apply payload_partial|].
      exists header, hkf, (Transmission_Payload_Encrypt_Partial APP hkf c safest), (Some q), (Some t1). done.
  - destruct (Transmission_Header_Encrypt APP None (Z.of_nat (length data)) seed) as [[[header hkf]|] q] eqn:Eh; [|done].
    cbn [fst]. destruct (header_undo APP None _ seed header hkf q [] I Hlen Eh) as (_ & _ & _ & Hq & Hiff).
    destruct q as [q|]; [by destruct (proj2 Hiff (ex_intro _ q eq_refl))|].
    destruct (Transmission_Payload_Encrypt APP hkf data safest) as [[payload|] b] eqn:Epe; [|done].
    intros Heq. injection Heq as <- <- <-. destruct (payload_undo APP hkf data safest payload b Hb Epe) as (Hdec & Hpl & Hpb).
    exists header, hkf, payload, None, None. cbn [fmap option_fmap option_map]. unfold decrypt_layers. rewrite Hdec. done.
Qed.

Lemma parts_header_undo APP cs cs' data pkt seed safest : ciphers_good cs → bytes_ok data → 1 ≤ Z.of_nat (length data) ≤ 65536 →
  packet_parts APP cs cs' data pkt seed safest →
  ∃ header hkf payload protocol transport,
    pkt = header ++ payload ∧ length header = 3%nat ∧ length payload = length data ∧ bytes_ok pkt ∧
    (∀ rest, Transmission_Header_Decrypt APP (fst <$> cs) (header ++ rest) = (Z.of_nat (length data), hkf, protocol)) ∧
    decrypt_layers APP (snd <$> cs) hkf payload safest = (Some data, transport) ∧
    cs' = join_ciphers protocol transport ∧ ciphers_good cs'.
Proof.
  intros Hcs Hb Hlen (header & hkf & payload & protocol & transport & -> & Hh & Hpl & Hpb & Hlay & -> & Hg).
  assert (protocol_good (fst <$> cs)) as Hpg by (destruct cs as [[p t]|]; [apply Hcs|done]).
  exists header, hkf, payload, protocol, transport.
  destruct (header_undo APP _ _ seed header hkf protocol [] Hpg Hlen Hh) as (_ & Hl3 & Hhb & _).
  split; [done|]. split; [done|]. split; [done|]. split; [by apply Forall_app|].
  split; [|done]. intros rest. by destruct (header_undo APP _ _ seed header hkf protocol rest Hpg Hlen Hh).
Qed.

(** A packet in memory decrypts to the data, and a packet on the stream is read as the data. *)
Lemma packet_undo APP cs cs' data pkt seed safest rest : ciphers_good cs → bytes_ok data → 1 ≤ Z.of_nat (length data) ≤ 65536 →
  packet_parts APP cs cs' data pkt seed safest →
  Transmission_Packet_Decrypt APP cs pkt safest = (Some data, cs') ∧
  Transmission_Packet_Read APP cs (pkt ++ rest) safest = (Some data, cs', rest) ∧
  length pkt = (3 + length data)%nat ∧ bytes_ok pkt ∧ ciphers_good cs'.
Proof.
  intros Hcs Hb Hlen Hparts.
  destruct (parts_header_undo _ _ _ _ _ _ _ Hcs Hb Hlen Hparts)
    as (header & hkf & payload & protocol & transport & -> & Hl3 & Hpl & Hpb & Hdec & Hlay & -> & Hg).
  assert (length (header ++ payload) = (3 + length data)%nat) as Hl by (rewrite length_app; lia).
  split; [|split; [|done]].
  - unfold Transmission_Packet_Decrypt, EVP_HEADER_MSS, PPP_BUFFER_SIZE. rewrite Hl, (proj2 (Nat.leb_gt _ _)) by lia.
    rewrite Hdec, !(proj2 (Z.ltb_ge _ _)) by lia.
    rewrite (proj2 (Z.eqb_eq _ _)) by lia. cbn [negb]. rewrite drop_app_length', Hlay by done. done.
  - unfold Transmission_Packet_Read, ReadBytes, EVP_HEADER_MSS, PPP_BUFFER_SIZE.
    rewrite <- app_assoc, (proj2 (Nat.leb_le _ _)) by (rewrite length_app; lia).
    rewrite take_app_length', drop_app_length' by done.
    pose proof (Hdec []) as Hdec0. rewrite app_nil_r in Hdec0. rewrite Hdec0, !(proj2 (Z.ltb_ge _ _)) by lia.
    rewrite Nat2Z.id, (proj2 (Nat.leb_le _ _)) by (rewrite length_app; lia).
    rewrite take_app_length', drop_app_length', Hlay by done. done.
Qed.

(** * Streams *)

(** The receiver [b] is where the sender [a] is: same configuration and keys, same cipher states,
    and it expects the header form the sender will write. *)
Record in_step (a b : Transmission C) : Prop := {
  step_configuration : configuration_ a = configuration_ b;
  step_ciphers : ciphers_ a = ciphers_ b;
  step_handshaked : handshaked_ a = handshaked_ b;
  step_frames : frame_tn_ a = frame_rn_ b;
  step_good : ciphers_good (ciphers_ a);
}.

(** A message the framing layer carries. *)
Definition carried (m : list Z) : Prop := bytes_ok m ∧ 1 ≤ Z.of_nat (length m) ≤ 65536.

Lemma frame_read a b m rnd pkt buf a' rest : in_step a b → carried m → draw (rnd_k rnd) →
  Transmission_Encrypt a m rnd = (Some pkt, buf, a') →
  ∃ b', Transmission_Read b (pkt ++ rest) = (Some m, b', rest) ∧ in_step a' b' ∧
    handshaked_ b' = handshaked_ b ∧ configuration_ b' = configuration_ b ∧
    frame_tn_ b' = frame_tn_ b.
Proof.
  intros [Hcfg Hcs Hhs Hfr Hg] [Hb Hlen] Hk. unfold Transmission_Encrypt, Transmission_Read.
  destruct (Transmission_Packet_Encrypt _ _ _ _ _) as [[[pk|] bf] cs'] eqn:Ep; [|done].
  pose proof (packet_encrypt_parts _ _ _ _ _ _ _ _ Hg Hb Hlen Ep) as Hparts.
  destruct (packet_undo _ _ _ _ _ _ _ rest Hg Hb Hlen Hparts) as (Hdec & Hread & Hpl & Hpb & Hg').
  assert (enveloped (set_ciphers a cs') = enveloped b) as -> by (unfold enveloped; cbn [set_ciphers handshaked_ configuration_]; by rewrite Hhs, Hcfg).
  rewrite Hcfg, Hcs, Hhs in *. destruct (enveloped b).
  - destruct (base94_envelope _ _ pk _ rnd) as [[env|] tn] eqn:Ee; [|done]. cbn [set_ciphers configuration_ frame_tn_] in Ee.
    rewrite Hcfg in Ee. intros Heq. injection Heq as <- <- <-.
    destruct (read_envelope _ _ pk rnd env tn rest Hpb ltac:(lia) Hk Ee) as (-> & Hrd).
    rewrite <- Hfr, Hrd. destruct pk as [|x pk]; [cbn [length] in Hpl; lia|].
    unfold DecryptBinary. cbn [set_frame_rn configuration_ ciphers_ handshaked_]. rewrite Hdec.
    eexists. split; [done|]. split; [|done]. by split.
  - intros Heq. injection Heq as <- <- <-. rewrite Hread. eexists. split; [done|]. split; [|done]. by split.
Qed.

(** A sequence of writes, and the bytes they put on the stream. *)
Fixpoint write_all (t : Transmission C) (ms : list (list Z * FrameRandom)) : option (list Z) * Transmission C :=
  match ms with
  | [] => (Some [], t)
  | (m, rnd) :: ms =>
      match Transmission_Encrypt t m rnd with
      | (None, _, t) => (None, t)
      | (Some p, _, t) =>
          match write_all t ms with
          | (None, t) => (None, t)
          | (Some q, t) => (Some (p ++ q), t)
          end
      end
  end.

(** As many reads. *)
Fixpoint read_all (n : nat) (t : Transmission C) (stream : list Z) : list (option (list Z)) * Transmission C * list Z :=
  match n with
  | O => ([], t, stream)
  | S n =>
      let '(r, t, stream) := Transmission_Read t stream in
      let '(rs, t, stream) := read_all n t stream in
      (r :: rs, t, stream)
  end.

Lemma stream_read a b ms bytes a' rest : in_step a b → Forall (λ x, carried x.1 ∧ draw (rnd_k x.2)) ms →
  write_all a ms = (Some bytes, a') →
  ∃ b', read_all (length ms) b (bytes ++ rest) = (Some <$> ms.*1, b', rest) ∧ in_step a' b'.
Proof.
  intros Hab Hms. revert a b bytes Hab. induction Hms as [|[m rnd] ms [Hm Hk] Hms IH]; intros a b bytes Hab Hw.
  - cbn [write_all] in Hw. simplify_eq. by exists b.
  - cbn [write_all] in Hw. destruct (Transmission_Encrypt a m rnd) as [[[p|] buf] a1] eqn:Ee; [|done].
    destruct (write_all a1 ms) as [[q|] a2] eqn:Ew; [|done]. simplify_eq.
    cbn [fst snd] in Hm, Hk. destruct (frame_read a b m rnd p buf a1 (q ++ rest) Hab Hm Hk Ee) as (b1 & Hr & Hab1 & _).
    destruct (IH a1 b1 q Hab1 Ew) as (b2 & Hrs & Hab2). exists b2. cbn [length read_all fmap list_fmap fst].
    by rewrite <- app_assoc, Hr, Hrs.
Qed.

(** * When writing succeeds *)

Lemma length_eq_3 {A} (l : list A) : length l = 3%nat → ∃ a b c, l = [a; b; c].
Proof. destruct l as [|a [|b [|c [|? ?]]]]; try done. intros _. by exists a, b, c. Qed.

Lemma header_total APP len seed : 1 ≤ len → ∃ header hkf, Transmission_Header_Encrypt APP (None : option C) len seed = (Some (header, hkf), None).
Proof.
  intros. unfold Transmission_Header_Encrypt. rewrite (proj2 (Z.ltb_ge _ _)) by lia. cbn [protocol_layer]. cbv zeta.
  unfold delta_encode. eauto.
Qed.

(** Without ciphers a packet is always built. *)
Lemma packet_total APP data seed safest : data ≠ [] →
  ∃ pkt buf, Transmission_Packet_Encrypt APP (None : option (C * C)) data seed safest = (Some pkt, buf, None).
Proof.
  intros Hne. unfold Transmission_Packet_Encrypt.
  destruct (header_total APP (Z.of_nat (length data)) seed) as (header & hkf & ->); [destruct data; [done|simpl; lia]|].
  cbn [fst]. unfold Transmission_Payload_Encrypt. destruct (safest || key_delta_encode APP); [|eauto].
  unfold delta_encode. pose proof (partial_length APP hkf data safest) as Hl.
  destruct (Transmission_Payload_Encrypt_Partial APP hkf data safest); [by destruct data|]. eauto.
Qed.

(** After the first frame no envelope is refused. *)
Lemma envelope_total APP data rnd : 1 ≤ Z.of_nat (length data) ≤ 65539 → draw (rnd_k rnd) →
  ∃ env, base94_envelope APP true data (key_kf APP) rnd = (Some env, true).
Proof.
  intros Hl Hk. unfold base94_envelope, base94_encode. destruct data as [|x data]; [simpl in Hl; lia|].
  pose proof (encoded_length_exact (key_kf APP) (x :: data)) as He. pose proof (encoded_length_bounds (key_kf APP) (x :: data)) as Hb.
  pose proof (transmission_mod_range APP).
  destruct (encode_length_simple APP (Z.of_nat (length (encode_symbols (key_kf APP) (x :: data)))) (key_kf APP) rnd)
    as (H4 & _ & _ & ->); [lia|done|].
  rewrite H4. eauto.
Qed.

(** Without ciphers, once the extended header has gone out (or when none is used), every message
    of the carried size is written. *)
Lemma write_all_total (a : Transmission C) ms : Forall (λ x, carried x.1 ∧ draw (rnd_k x.2)) ms →
  ciphers_ a = None → (enveloped a = true → frame_tn_ a = true) → ∃ bytes a', write_all a ms = (Some bytes, a').
Proof.
  intros Hms. revert a. induction Hms as [|[m rnd] ms [[Hb Hlen] Hk] Hms IH]; intros a Hc Ht; [by exists [], a|].
  cbn [write_all fst snd] in *. unfold Transmission_Encrypt. rewrite Hc.
  destruct (packet_total (configuration_ a) m (rnd_seed rnd) (negb (handshaked_ a))) as (pkt & buf & Hp);
    [intros ->; simpl in Hlen; lia|]. rewrite Hp.
  assert (Hl : length pkt = (3 + length m)%nat).
  { pose proof (packet_encrypt_parts _ None _ _ _ _ _ _ I Hb Hlen Hp) as Hparts.
    by destruct (packet_undo _ None _ _ _ _ _ [] I Hb Hlen Hparts) as (_ & _ & ? & _). }
  destruct (enveloped (set_ciphers a None)) eqn:Ee.
  - change (enveloped a = true) in Ee. cbn [set_ciphers configuration_ frame_tn_]. rewrite (Ht Ee).
    destruct (envelope_total (configuration_ a) pkt rnd ltac:(lia) Hk) as (env & ->).
    destruct (IH (set_frame_tn (set_ciphers a None) true)) as (q & a' & ->); [done|done|]. eauto.
  - destruct (IH (set_ciphers a None)) as (q & a' & ->); [done|by rewrite Ee|]. eauto.
Qed.
End Frames.

(** The envelope is refused only on the first frame, when the number that carries the checksum has
    fewer than three digits. *)
Lemma encode_length_none APP tn x kf rnd : 0 < x < 262144 → draw (rnd_k rnd) →
  (base94_encode_length APP tn x kf rnd).1 = None ↔
  tn = false ∧ ∃ h, base94_encode_length APP true x kf rnd = (Some h, true) ∧
    (Z.lxor (inet_chksum h) x + kf_mod kf (transmission_mod APP)) mod transmission_mod APP < 8836.
Proof.
  intros Hx Hk. pose proof (transmission_mod_range APP).
  pose proof (encode_length_simple APP x kf rnd ltac:(lia) Hk) as Hs. cbv zeta in Hs. revert Hs.
  generalize (simple_header (base94_decimal (Z.rem (x + kf_mod kf (transmission_mod APP))
    (transmission_mod APP))) (rnd_k rnd) (rnd_f rnd)) as h4. intros h4 (Hl & _ & _ & Htrue).
  destruct tn.
  - rewrite Htrue. split; [done|]. by intros [? _].
  - rewrite (encode_length_extended _ _ _ _ _ Htrue). cbv zeta.
    pose proof (chksum_key_range h4 x ltac:(lia)) as HK0. pose proof (kf_mod_range kf (transmission_mod APP) ltac:(lia)).
    destruct (key_offset_undo (Z.lxor (inet_chksum h4) x) kf (transmission_mod APP) ltac:(lia)) as [HN _].
    destruct (mod_digits APP _ HN) as (_ & _ & H3).
    rewrite Z.rem_mod_nonneg in * by lia.
    revert H3. generalize (base94_decimal ((Z.lxor (inet_chksum h4) x + kf_mod kf (transmission_mod APP)) mod transmission_mod APP)) as d.
    intros d H3. unfold EVP_HEADER_MSS. split.
    + destruct (Nat.eqb_spec (length d) 3) as [Hd|Hd]; [done|]. intros _. split; [done|]. exists h4. split; [done|].
      apply Z.nle_gt. intros Hle. by apply Hd, H3.
    + intros [_ (h & Heq & Hlt)]. rewrite Htrue in Heq. injection Heq as <-.
      destruct (Nat.eqb_spec (length d) 3) as [Hd|Hd]; [apply H3 in Hd; lia|done].
Qed.

(** * Concrete runs *)

Definition sample_key (kf : Z) : KeyConfig :=
  {| key_kf := kf; key_masked := true; key_plaintext := false; key_delta_encode := true; key_shuffle_data := true |}.
Definition sample_end (kf : Z) (ciphers : option (RC4 * RC4)) (handshaked : bool) : Transmission RC4 :=
  {| configuration_ := sample_key kf; ciphers_ := ciphers; handshaked_ := handshaked; frame_tn_ := false; frame_rn_ := false |}.
Definition sample_draws : FrameRandom := {| rnd_seed := 77; rnd_k := 60; rnd_f := 50 |}.

(** With [key.kf] = 154543925 the first frame is refused for every draw of the key byte and every
    length tried, so no handshake packet can be written. *)
Example first_frame_always_refused :
  forallb (λ len, forallb (λ rk,
    bool_decide ((base94_encode_length (sample_key 154543925) false len 154543925
                    {| rnd_seed := 1; rnd_k := rk; rnd_f := 50 |}).1 = None)) (seqZ 32 95)) [6; 50; 99; 250; 700] = true.
Proof. vm_compute. reflexivity. Qed.

(** The in-memory decoder does not know the extended header: it rejects the first frame that the
    encoder of the same object writes, and accepts the second. *)
Example decrypt_rejects_first_frame :
  let a := sample_end 154543927 None false in
  match Transmission_Encrypt a [1; 2; 3] sample_draws with
  | (Some first, _, a1) =>
      match Transmission_Encrypt a1 [4; 5] sample_draws with
      | (Some second, _, _) =>
          (Transmission_Decrypt a first).1 = None ∧ (Transmission_Decrypt a second).1 = Some [4; 5]
      | _ => False
      end
  | _ => False
  end.
Proof. vm_compute. split; reflexivity. Qed.

(** Without ciphers the write overwrites the caller's (const) buffer. *)
Example write_overwrites_buffer :
  (Transmission_Encrypt (sample_end 154543927 None true) [1; 2; 3] sample_draws).1.2 ≠ [1; 2; 3].
Proof. vm_compute. discriminate. Qed.

(** With ciphers the caller's buffer is only read. *)
Lemma cipher_keeps_buffer {C} `{CipherOps C} APP ps data seed safest :
  (Transmission_Packet_Encrypt APP (Some ps : option (C * C)) data seed safest).1.2 = data.
Proof.
  unfold Transmission_Packet_Encrypt. destruct ps as [p t].
  destruct (if negb _ then _ else _) as [[c|] t1]; [|done]. case_match; [done|].
  destruct (Transmission_Header_Encrypt _ _ _ _) as [[[h k]|] q]; [|done]. case_match; [done|]. by case_match.
Qed.

(** C3: what one end writes, the other end reads.  Whatever ciphers keep their promise, whatever
    the transform flags, before the handshake, after it and in plaintext mode, and whatever the
    random draws: when a sender writes a sequence of messages of 1 to 65536 bytes, a receiver that
    is in step with it reads exactly these messages, in order, from the concatenated bytes, consumes
    no byte of what follows, and is in step with the sender again.  Without ciphers, once the
    first, extended header is out or when no envelope is used, every such sequence is written. *)
Theorem transmission_stream {C} `{CipherLaws C} (a b : Transmission C) ms rest :
  in_step a b → Forall (λ x, carried x.1 ∧ 32 ≤ rnd_k x.2 ≤ 126) ms →
  (∀ bytes a', write_all a ms = (Some bytes, a') →
     ∃ b', read_all (length ms) b (bytes ++ rest) = (Some <$> ms.*1, b', rest) ∧ in_step a' b') ∧
  (ciphers_ a = None → (enveloped a = true → frame_tn_ a = true) → ∃ bytes a', write_all a ms = (Some bytes, a')).
Proof. intros Hab Hms. split; [intros bytes a'; by apply stream_read | by apply write_all_total]. Qed.

Lemma transmission_stream_witness :
  ∃ bytes a' b',
    write_all (sample_end 154543927 (Some (duplex_key, duplex_key)) false)
      [([1; 2; 3], sample_draws); ([255], sample_draws)] = (Some bytes, a') ∧
    read_all 2 (sample_end 154543927 (Some (duplex_key, duplex_key)) false) (bytes ++ [9; 9]) =
      ([Some [1; 2; 3]; Some [255]], b', [9; 9]).
Proof.
  destruct (write_all (sample_end 154543927 (Some (duplex_key, duplex_key)) false)
    [([1; 2; 3], sample_draws); ([255], sample_draws)]) as [[bytes|] a'] eqn:E; [|by vm_compute in E].
  destruct (transmission_stream (sample_end 154543927 (Some (duplex_key, duplex_key)) false)
    (sample_end 154543927 (Some (duplex_key, duplex_key)) false) [([1; 2; 3], sample_draws); ([255], sample_draws)]
    [9; 9]) as [Hs _].
  - split; [reflexivity..|]. split; apply RC4_new_ok.
  - repeat apply Forall_cons_2; try apply Forall_nil_2; (split; [split; [by apply (bool_decide_unpack _)|cbn; lia]|cbn; lia]).
  - destruct (Hs bytes a' E) as (b' & Hr & _). exists bytes, a', b'. split; [done|exact Hr].
Defined.

(** When a frame can be written.  Without ciphers every non-empty message becomes a packet, and
    its envelope is refused exactly when it is the first frame of the connection and the number
    that carries the checksum needs fewer than three Base94 digits; every later frame is written. *)
Theorem frame_refused APP data seed safest tn len rnd :
  data ≠ [] → 0 < len < 262144 → 32 ≤ rnd_k rnd ≤ 126 →
  (∃ pkt buf, Transmission_Packet_Encrypt APP (None : option (RC4 * RC4)) data seed safest = (Some pkt, buf, None)) ∧
  ((base94_encode_length APP tn len (key_kf APP) rnd).1 = None ↔
   tn = false ∧ ∃ h, base94_encode_length APP true len (key_kf APP) rnd = (Some h, true) ∧
     (Z.lxor (inet_chksum h) len + kf_mod (key_kf APP) (transmission_mod APP)) mod transmission_mod APP < 8836).
Proof. intros Hne Hlen Hk. split; [by apply packet_total|]. by apply encode_length_none. Qed.

Lemma frame_refused_witness :
  ∃ pkt buf, Transmission_Packet_Encrypt (sample_key 154543927) (None : option (RC4 * RC4)) [7] 3 true = (Some pkt, buf, None).
Proof.
  refine (proj1 (frame_refused (sample_key 154543927) [7] 3 true true 12 sample_draws _ _ _)); [done|lia|cbn; lia].
Defined.
