(* ===== verification/StaticPacket.v ===== *)
(** * Static datagrams

    [ppp/app/protocol/VirtualEthernetPacket.cpp]: the self-contained datagrams of the static UDP
    channel.  A packed 23-byte header (mask, obfuscated header length, session id, checksum and a
    pseudo IP tuple) and a payload are checksummed, encrypted, shuffled, masked and delta-coded with
    a key derived from a random mask.  The sign of the session id tells a UDP datagram from a
    tunnelled IP frame, whose first twelve bytes travel in the pseudo tuple.

    The header is modelled as the bytes the (little-endian) machine lays out.  The ciphers of a
    session are an instance of [CipherOps]; the resolvers answer both or none. *)

From S2P Require Import Prelude Ssea Ciphertext PacketChecksum PacketFrames RouteTable Transmission.

Definition VEP_HEADER_MSS_MIN_MOD : Z := 128.
Definition VEP_HEADER_MSS_MAX_MOD : Z := 256.
(** [configuration->Lcgmod(LCGMOD_TYPE_STATIC)]. *)
Definition static_mod (APP : KeyConfig) : Z := lcgmod (key_kf APP) VEP_HEADER_MSS_MIN_MOD VEP_HEADER_MSS_MAX_MOD.

(** [sizeof(PACKET_HEADER)] and the offsets of its fields. *)
Definition PACKET_HEADER_SIZE : nat := 23.
Definition offset_session_id : nat := 5.
Definition offset_checksum : nat := 9.
Definition POSEDO_SIZE : nat := 12.

(** A signed 32-bit reading. *)
Definition int32 (x : Z) : Z := let u := wrap 32 x in if 2 ^ 31 <=? u then u - 2 ^ 32 else u.

(** The pseudo tuple as the machine stores it: addresses as they are, ports in network order. *)
Record Posedo := { source_ip : Z; source_port : Z; destination_ip : Z; destination_port : Z }.
Definition posedo_bytes (s : Posedo) : list Z :=
  le_store 4 (source_ip s) ++ be_bytes 2 (source_port s) ++ le_store 4 (destination_ip s) ++ be_bytes 2 (destination_port s).
Definition posedo_load (p : list Z) : Posedo :=
  {| source_ip := le_load (sub p 0 4); source_port := get16 (drop 4 p);
     destination_ip := le_load (sub p 6 4); destination_port := get16 (drop 10 p) |}.

(** The header with its session id already obfuscated and in network order. *)
Definition packet_header (mask header_length session checksum : Z) (s : Posedo) : list Z :=
  le_store 4 mask ++ [wrap 8 header_length] ++ be_bytes 4 session ++ store16 checksum ++ posedo_bytes s.

(** The key of a packet: [random_next(kf * mask_id)]. *)
Definition packet_kf (APP : KeyConfig) (mask : Z) : Z := (random_next (wrap 32 (key_kf APP * mask))).1.

(** [STATIC_header_length]. *)
Definition STATIC_header_length (APP : KeyConfig) (N kf : Z) : Z :=
  let MOD := static_mod APP in
  if MOD =? 0 then Z.of_nat PACKET_HEADER_SIZE else Z.rem (N - kf_mod kf MOD + MOD) MOD.

(** The fields of [VirtualEthernetPacket]. *)
Record VirtualEthernetPacket := {
  vep_Payload : list Z;
  vep_Protocol : Z;
  vep_Id : Z;
  vep_tuple : Posedo;
}.

Definition IP_PROTO_IP : Z := 0.
Definition MinPort : Z := 0.
Definition MaxPort : Z := 65535.

(** Overwrite part of a buffer. *)
Definition splice (p : list Z) (off : nat) (q : list Z) : list Z := take off p ++ q ++ drop (off + length q) p.

(** The obfuscation of everything from the session id on, then delta coding. *)
Definition obfuscate (APP : KeyConfig) (kf : Z) (p : list Z) : option (list Z) :=
  delta_encode (key_kf APP)
    (take offset_session_id p ++ masked_xor_random_next kf (shuffle_data kf (drop offset_session_id p))).

Section Static.
Context {C : Type} `{CipherOps C}.

(** [STATIC_Pack]; [protocol] is the cipher of the header's tail. *)
Definition STATIC_Pack (APP : KeyConfig) (protocol : option C) (mask session_id : Z) (tuple : Posedo) (payload : list Z) :
  option (list Z) * option C :=
  let kf := packet_kf APP mask in
  let MOD := static_mod APP in
  if MOD =? 0 then (None, protocol) else
  let KF_MOD := kf_mod kf MOD in
  let hl := Z.rem (Z.of_nat PACKET_HEADER_SIZE + KF_MOD) MOD in
  let session := Z.lxor session_id kf in
  let checksum := inet_chksum (packet_header mask hl session 0 tuple ++ payload) in
  let p := packet_header mask hl session checksum tuple ++ payload in
  match protocol with
  | None => (obfuscate APP kf p, None)
  | Some c =>
      let '(r, c) := cipher_encrypt c (sub p offset_checksum (PACKET_HEADER_SIZE - offset_checksum)) in
      match r with
      | None => (None, Some c)
      | Some body =>
          if (length body =? PACKET_HEADER_SIZE - offset_checksum)%nat
          then (obfuscate APP kf (splice p offset_checksum body), Some c)
          else
            let hl := Z.rem (Z.of_nat (length body + offset_checksum) + KF_MOD) MOD in
            let p := take offset_checksum p ++ body ++ payload in
            (obfuscate APP kf (splice p 4 [wrap 8 hl]), Some c)
      end
  end.

(** [PackBy]: the datagram and the ciphers of the session after it. *)
Definition PackBy (APP : KeyConfig) (ciphers : option (C * C)) (origin_id session_id mask : Z) (tuple : Posedo)
    (payload : list Z) : option (list Z) * option (C * C) :=
  if (origin_id =? 0) || (length payload <? 1)%nat then (None, ciphers) else
  match ciphers with
  | None =>
      let '(r, _) := STATIC_Pack APP None mask session_id tuple payload in (r, None)
  | Some (protocol, transport) =>
      let '(e, transport) := cipher_encrypt transport payload in
      match e with
      | None => (None, Some (protocol, transport))
      | Some payload =>
          let '(r, protocol') := STATIC_Pack APP (Some protocol) mask session_id tuple payload in
          (r, Some (default protocol protocol', transport))
      end
  end.

(** [STATIC_Unpack] of the decoded buffer. *)
Definition STATIC_Unpack (transport : option C) (p : list Z) (proto session_id : Z) :
  option VirtualEthernetPacket * option C :=
  if session_id =? 0 then (None, transport) else
  if (length p <? PACKET_HEADER_SIZE)%nat then (None, transport) else
  let x_checksum := le_load (sub p offset_checksum 2) in
  let y_checksum := inet_chksum (splice p offset_checksum [0; 0]) in
  if negb (x_checksum =? y_checksum) then (None, transport) else
  let '(payload, transport) :=
    match transport with
    | Some c => let '(r, c) := cipher_decrypt c (drop PACKET_HEADER_SIZE p) in (r, Some c)
    | None => (Some (drop PACKET_HEADER_SIZE p), None)
    end in
  match payload with
  | None => (None, transport)
  | Some payload =>
      let tuple := posedo_load (sub p 11 POSEDO_SIZE) in
      let out := {| vep_Payload := payload; vep_Protocol := proto; vep_Id := session_id; vep_tuple := tuple |} in
      if negb (proto =? IP_PROTO_UDP) then (Some out, transport) else
      if (destination_ip tuple =? NoneAddress) || (destination_ip tuple =? AnyAddress) then (None, transport) else
      if (destination_port tuple <=? MinPort) || (MaxPort <? destination_port tuple) then (None, transport) else
      if (source_ip tuple =? NoneAddress) || (source_ip tuple =? AnyAddress) then (None, transport) else
      if (source_port tuple <=? MinPort) || (MaxPort <? source_port tuple) then (None, transport) else
      (Some out, transport)
  end.

(** [UnpackBy]; [resolve] finds the ciphers of a session. *)
Definition UnpackBy (APP : KeyConfig) (resolve : Z → option (C * C)) (packet : list Z) :
  option VirtualEthernetPacket * option (C * C) :=
  if (length packet <=? PACKET_HEADER_SIZE)%nat then (None, None) else
  match delta_decode (key_kf APP) packet with
  | None => (None, None)
  | Some p =>
      let mask := le_load (sub p 0 4) in
      if mask =? 0 then (None, None) else
      let kf := packet_kf APP mask in
      let header_length := wrap 8 (STATIC_header_length APP (byte_at p 4) kf) in
      if header_length <? Z.of_nat PACKET_HEADER_SIZE then (None, None) else
      let p := take offset_session_id p ++
               unshuffle_data kf (masked_xor_random_next kf (drop offset_session_id p)) in
      let session := int32 (Z.lxor (get32 (drop offset_session_id p)) kf) in
      let '(session_id, proto) := if session <? 0 then (Z.lnot session, IP_PROTO_IP) else (session, IP_PROTO_UDP) in
      match resolve session_id with
      | None => let '(r, _) := STATIC_Unpack None p proto session_id in (r, None)
      | Some (protocol, transport) =>
          let raw := (PACKET_HEADER_SIZE - offset_checksum)%nat in
          let '(e, protocol) := cipher_decrypt protocol (sub p offset_checksum raw) in
          match e with
          | None => (None, Some (protocol, transport))
          | Some body =>
              let p :=
                if (length body =? raw)%nat then splice p offset_checksum body
                else
                  let q := take offset_checksum p ++ body ++ drop (Z.to_nat header_length) p in
                  splice q 4 [wrap 8 (STATIC_header_length APP (Z.of_nat PACKET_HEADER_SIZE) kf)] in
              let '(r, transport') := STATIC_Unpack (Some transport) p proto session_id in
              (r, Some (protocol, default transport transport'))
          end
      end
  end.

(** [Pack] of a UDP datagram. *)
Definition Pack_udp (APP : KeyConfig) (ciphers : option (C * C)) (session_id mask : Z) (tuple : Posedo) (payload : list Z) :
  option (list Z) * option (C * C) :=
  if session_id <? 1 then (None, ciphers) else
  if (destination_ip tuple =? NoneAddress) || (destination_ip tuple =? AnyAddress) then (None, ciphers) else
  if (destination_port tuple <=? MinPort) || (MaxPort <? destination_port tuple) then (None, ciphers) else
  if (source_port tuple <=? MinPort) || (MaxPort <? source_port tuple) then (None, ciphers) else
  PackBy APP ciphers session_id session_id mask tuple payload.

(** [Pack] of an IP frame: its first twelve bytes become the tuple.  The ports are read from memory
    in host order and converted again by [PackBy]. *)
Definition Pack_ip (APP : KeyConfig) (ciphers : option (C * C)) (session_id mask : Z) (frame : IPFrame) :
  option (list Z) * option (C * C) :=
  if session_id <? 1 then (None, ciphers) else
  if negb ((if_ProtocolType frame =? IP_PROTO_ICMP) || (if_ProtocolType frame =? IP_PROTO_UDP) ||
           (if_ProtocolType frame =? IP_PROTO_TCP)) then (None, ciphers) else
  let buffers := IPFrame_ToArray frame in
  let tuple := {| source_ip := le_load (sub buffers 0 4); source_port := le_load (sub buffers 4 2);
                  destination_ip := le_load (sub buffers 6 4); destination_port := le_load (sub buffers 10 2) |} in
  PackBy APP ciphers session_id (Z.lnot session_id) mask tuple (drop POSEDO_SIZE buffers).
End Static.

(** [GetIPPacket]: the tuple in memory order and the payload are the frame again. *)
Definition GetIPPacket_bytes (v : VirtualEthernetPacket) : list Z :=
  let s := vep_tuple v in
  le_store 4 (source_ip s) ++ le_store 2 (source_port s) ++ le_store 4 (destination_ip s) ++
  le_store 2 (destination_port s) ++ vep_Payload v.

Definition GetIPPacket (flash checks : bool) (v : VirtualEthernetPacket) : option IPFrame :=
  if negb (vep_Protocol v =? IP_PROTO_IP) then None else (IPFrame_Parse flash checks (GetIPPacket_bytes v)).1.

(** [GetUdpPacket]. *)
Definition GetUdpPacket (ttl : Z) (v : VirtualEthernetPacket) : option UdpFrame :=
  if negb (vep_Protocol v =? IP_PROTO_UDP) then None else
  Some (mkUdpFrame (mkEndPoint (source_ip (vep_tuple v)) (source_port (vep_tuple v)))
          (mkEndPoint (destination_ip (vep_tuple v)) (destination_port (vep_tuple v))) InterNetwork ttl (Some (vep_Payload v))).

(** * Slices of the header *)

Lemma posedo_length s : length (posedo_bytes s) = 12%nat.
Proof. unfold posedo_bytes. by rewrite !length_app, !length_le_store, !length_be_bytes. Qed.

Lemma posedo_bytes_ok s : bytes_ok (posedo_bytes s).
Proof. unfold posedo_bytes. rewrite !Forall_app. repeat split; (apply bytes_ok_le_store || apply bytes_ok_be_bytes). Qed.

Definition tuple_ok (s : Posedo) : Prop :=
  is_uint 32 (source_ip s) ∧ is_uint 16 (source_port s) ∧ is_uint 32 (destination_ip s) ∧ is_uint 16 (destination_port s).

Lemma posedo_load_bytes s : tuple_ok s → posedo_load (posedo_bytes s) = s.
Proof.
  intros (H1 & H2 & H3 & H4). unfold posedo_load, posedo_bytes. destruct s as [a b c d]. cbn in *. f_equal.
  - rewrite sub_here by apply length_le_store. rewrite le_load_store. by apply wrap_small.
  - rewrite drop_app_length' by (by rewrite length_le_store). by apply get16_be_bytes.
  - rewrite sub_skip, length_le_store by (rewrite length_le_store; lia). cbn [Nat.sub].
    rewrite sub_skip, length_be_bytes by (rewrite length_be_bytes; lia). cbn [Nat.sub].
    rewrite sub_here by apply length_le_store. rewrite le_load_store. by apply wrap_small.
  - rewrite !app_assoc, drop_app_length' by (by rewrite !length_app, !length_le_store, length_be_bytes).
    rewrite <- (app_nil_r (be_bytes 2 d)). by apply get16_be_bytes.
Qed.

(** The header before its encrypted part. *)
Definition header_front (mask hl session : Z) : list Z := le_store 4 mask ++ [wrap 8 hl] ++ be_bytes 4 session.

Lemma packet_header_split mask hl session checksum s :
  packet_header mask hl session checksum s = header_front mask hl session ++ store16 checksum ++ posedo_bytes s.
Proof. unfold packet_header, header_front. by rewrite <- !app_assoc. Qed.

Lemma header_front_length mask hl session : length (header_front mask hl session) = 9%nat.
Proof. unfold header_front. by rewrite !length_app, length_le_store, length_be_bytes. Qed.

Lemma header_front_ok mask hl session : bytes_ok (header_front mask hl session).
Proof.
  unfold header_front. rewrite !Forall_app. split; [apply bytes_ok_le_store|]. split; [|apply bytes_ok_be_bytes].
  apply Forall_singleton, wrap8_byte.
Qed.

Lemma splice_middle a b b' c n : length a = n → length b = length b' → splice (a ++ b ++ c) n b' = a ++ b' ++ c.
Proof.
  intros Ha Hb. unfold splice. rewrite take_app_length' by done. do 2 f_equal.
  rewrite app_assoc, drop_app_length'; [done|]. rewrite length_app. lia.
Qed.

(** What is shuffled, masked and delta-coded is recovered. *)
Lemma obfuscate_undo APP kf q o : bytes_ok q → (5 ≤ length q)%nat → obfuscate APP kf q = Some o →
  ∃ p, delta_decode (key_kf APP) o = Some p ∧ length o = length q ∧ take 5 p = take 5 q ∧
    take offset_session_id p ++ unshuffle_data kf (masked_xor_random_next kf (drop offset_session_id p)) = q.
Proof.
  intros Hq Hl. unfold obfuscate, offset_session_id. intros He.
  assert (bytes_ok (shuffle_data kf (drop 5 q))) as Hs by (by apply Forall_shuffle, bytes_ok_drop).
  assert (length (take 5 q) = 5%nat) as H5 by (rewrite length_take; lia).
  eexists. edestruct delta_decode_encode as (Hd & Hlo & _); [|exact He|].
  - apply Forall_app. split; [by apply bytes_ok_take|by apply bytes_ok_masked_xor_random_next].
  - split; [exact Hd|]. split; [|split].
    + rewrite Hlo, length_app, length_masked_xor_random_next, length_shuffle_data, <- length_app, take_drop. done.
    + by apply take_app_length'.
    + rewrite take_app_length', drop_app_length' by done.
      rewrite masked_xor_random_next_involutive, unshuffle_shuffle by done. apply take_drop.
Qed.

Lemma static_mod_range APP : 128 ≤ static_mod APP ≤ 256.
Proof. apply (lcgmod_range (key_kf APP) 128 256). lia. Qed.

(** The header length survives its obfuscation. *)
Lemma header_length_undo APP kf :
  let hl := Z.rem (Z.of_nat PACKET_HEADER_SIZE + kf_mod kf (static_mod APP)) (static_mod APP) in
  wrap 8 (STATIC_header_length APP (wrap 8 hl) kf) = 23.
Proof.
  intros hl. pose proof (static_mod_range APP).
  destruct (key_offset_undo (Z.of_nat PACKET_HEADER_SIZE) kf (static_mod APP)) as [Hr Hu]; [unfold PACKET_HEADER_SIZE; lia|].
  fold hl in Hr, Hu. unfold STATIC_header_length. rewrite (proj2 (Z.eqb_neq _ _)) by lia. cbv zeta.
  rewrite (wrap_small 8 hl) by (unfold is_uint; lia). rewrite Hu. done.
Qed.

Lemma int32_small x : - 2 ^ 31 ≤ x < 2 ^ 31 → int32 x = x.
Proof.
  intros Hx. unfold int32. destruct (Z_lt_le_dec x 0).
  - assert (wrap 32 x = x + 2 ^ 32) as -> by (unfold wrap; rewrite <- (Z_mod_plus_full x 1), Z.mod_small; lia).
    rewrite (proj2 (Z.leb_le _ _)) by lia. lia.
  - rewrite wrap_small by (unfold is_uint; lia). rewrite (proj2 (Z.leb_gt _ _)) by lia. done.
Qed.

Lemma session_undo sid kf : - 2 ^ 31 ≤ sid < 2 ^ 31 →
  int32 (Z.lxor (wrap 32 (Z.lxor sid kf)) kf) = sid.
Proof.
  intros Hs. rewrite <- (int32_small sid Hs) at 2. unfold int32.
  assert (wrap 32 (Z.lxor (wrap 32 (Z.lxor sid kf)) kf) = wrap 32 sid) as ->; [|done].
  rewrite wrap_lxor, wrap_idem, <- wrap_lxor by lia. by rewrite Z.lxor_assoc, Z.lxor_nilpotent, Z.lxor_0_r.
Qed.

(** * Packing and unpacking *)

(** The reader's view of a deobfuscated buffer that starts with a given front. *)
Lemma front_fields mask hl session t : is_uint 32 mask →
  let q := header_front mask hl session ++ t in
  le_load (sub q 0 4) = mask ∧ byte_at q 4 = wrap 8 hl ∧ get32 (drop 5 q) = wrap 32 session.
Proof.
  intros Hm q. unfold q, header_front. rewrite <- !app_assoc. split; [|split].
  - rewrite sub_here by apply length_le_store. rewrite le_load_store. by apply wrap_small.
  - rewrite byte_at_skip, length_le_store by (rewrite length_le_store; lia). apply byte_at_head.
  - rewrite app_assoc, drop_app_length' by (by rewrite length_app, length_le_store).
    rewrite <- (be_bytes_wrap 4 session). apply get32_be_bytes. by apply wrap_range.
Qed.

Lemma take_prefix_fields p q : take 5 p = take 5 q → (5 ≤ length q)%nat →
  sub p 0 4 = sub q 0 4 ∧ byte_at p 4 = byte_at q 4.
Proof.
  intros Heq Hl.
  assert (∀ r : list Z, take 4 r = take 4 (take 5 r)) as Ht by (intros; by rewrite take_take).
  assert (∀ r, byte_at r 4 = byte_at (take 5 r) 4) as Hb.
  { intros r. unfold byte_at. by destruct r as [|? [|? [|? [|? [|? ?]]]]]. }
  split; [unfold sub; rewrite !drop_0; by rewrite (Ht p), Heq, <- Ht|by rewrite (Hb p), Heq, <- Hb].
Qed.

(** The datagram that carries [front ++ body ++ payload]: what [UnpackBy] knows after the outer
    layers. *)
Lemma unpack_outer {C} `{CipherOps C} APP (resolve : Z → option (C * C)) mask sid body payload pkt :
  let kf := packet_kf APP mask in
  let hl := Z.rem (Z.of_nat PACKET_HEADER_SIZE + kf_mod kf (static_mod APP)) (static_mod APP) in
  let q := header_front mask hl (Z.lxor sid kf) ++ body ++ payload in
  0 < mask < 2 ^ 32 → - 2 ^ 31 ≤ sid < 2 ^ 31 → bytes_ok body → length body = 14%nat → bytes_ok payload → payload ≠ [] →
  obfuscate APP kf q = Some pkt →
  UnpackBy APP resolve pkt =
    let '(session_id, proto) := if sid <? 0 then (Z.lnot sid, IP_PROTO_IP) else (sid, IP_PROTO_UDP) in
    match resolve session_id with
    | None => let '(r, _) := STATIC_Unpack None q proto session_id in (r, None)
    | Some (protocol, transport) =>
        let '(e, protocol) := cipher_decrypt protocol body in
        match e with
        | None => (None, Some (protocol, transport))
        | Some b =>
            let p := if (length b =? 14)%nat then splice q offset_checksum b
                     else splice (take offset_checksum q ++ b ++ drop 23 q) 4
                            [wrap 8 (STATIC_header_length APP (Z.of_nat PACKET_HEADER_SIZE) kf)] in
            let '(r, transport') := STATIC_Unpack (Some transport) p proto session_id in
            (r, Some (protocol, default transport transport'))
        end
    end.
Proof.
  intros kf hl q Hm Hs Hb Hbl Hp Hne Ho.
  assert (length q = (23 + length payload)%nat) as Hql
    by (unfold q; rewrite !length_app, header_front_length; lia).
  assert (bytes_ok q) as Hqb by (unfold q; rewrite !Forall_app; split; [apply header_front_ok|done]).
  assert (1 ≤ length payload)%nat as Hpl by (destruct payload; [done|simpl; lia]).
  destruct (obfuscate_undo APP kf q pkt Hqb ltac:(lia) Ho) as (p & Hd & Hlen & Htake & Hq).
  destruct (take_prefix_fields p q Htake ltac:(lia)) as [Hsub Hbyte].
  destruct (front_fields mask hl (Z.lxor sid kf) (body ++ payload)) as (Hmask & Hhl & Hses); [unfold is_uint; lia|].
  fold q in Hmask, Hhl, Hses. unfold UnpackBy. unfold PACKET_HEADER_SIZE at 1.
  rewrite Hlen, (proj2 (Nat.leb_gt _ _)), Hd by lia. cbv zeta. rewrite Hsub, Hmask, (proj2 (Z.eqb_neq mask 0)) by lia.
  fold kf. rewrite Hbyte, Hhl, Hq. pose proof (header_length_undo APP kf) as Hhd. cbv zeta in Hhd. fold hl in Hhd. rewrite Hhd.
  change (23 <? Z.of_nat PACKET_HEADER_SIZE) with false. cbv iota. unfold offset_session_id. rewrite Hses, session_undo by done.
  assert (sub q offset_checksum (PACKET_HEADER_SIZE - offset_checksum) = body) as Hbody.
  { unfold q, offset_checksum, PACKET_HEADER_SIZE. rewrite sub_skip, header_front_length by (rewrite header_front_length; lia).
    by apply sub_here. }
  rewrite Hbody. reflexivity.
Qed.

(** What the inner stage reads from the buffer the packer checksummed. *)
Lemma unpack_inner {C} `{CipherOps C} (transport : option C) mask hl session tuple payload proto sid :
  tuple_ok tuple → sid ≠ 0 → payload ≠ [] →
  let checksum := inet_chksum (packet_header mask hl session 0 tuple ++ payload) in
  STATIC_Unpack transport (packet_header mask hl session checksum tuple ++ payload) proto sid =
    let '(r, transport) := match transport with
                           | Some c => let '(r, c) := cipher_decrypt c payload in (r, Some c)
                           | None => (Some payload, None)
                           end in
    match r with
    | None => (None, transport)
    | Some plain =>
        let out := {| vep_Payload := plain; vep_Protocol := proto; vep_Id := sid; vep_tuple := tuple |} in
        if negb (proto =? IP_PROTO_UDP) then (Some out, transport) else
        if (destination_ip tuple =? NoneAddress) || (destination_ip tuple =? AnyAddress) then (None, transport) else
        if (destination_port tuple <=? MinPort) || (MaxPort <? destination_port tuple) then (None, transport) else
        if (source_ip tuple =? NoneAddress) || (source_ip tuple =? AnyAddress) then (None, transport) else
        if (source_port tuple <=? MinPort) || (MaxPort <? source_port tuple) then (None, transport) else
        (Some out, transport)
    end.
Proof.
  intros Ht Hs Hne checksum. rewrite packet_header_split, <- !app_assoc.
  set (f := header_front mask hl session). pose proof (header_front_length mask hl session) as Hf. fold f in Hf.
  assert (length (f ++ store16 checksum ++ posedo_bytes tuple ++ payload) = (23 + length payload)%nat) as Hl
    by (rewrite !length_app, posedo_length; simpl; lia).
  unfold STATIC_Unpack. rewrite (proj2 (Z.eqb_neq _ _)) by done. unfold PACKET_HEADER_SIZE at 1.
  rewrite Hl, (proj2 (Nat.ltb_ge _ _)) by lia. cbv zeta.
  assert (le_load (sub (f ++ store16 checksum ++ posedo_bytes tuple ++ payload) offset_checksum 2) = checksum) as ->.
  { unfold offset_checksum. rewrite sub_skip, Hf by lia. rewrite sub_here by done.
    assert (is_uint 16 checksum) as Hc by (by apply wrap_range). change (store16 checksum) with
      [Z.land checksum 255; Z.land (Z.shiftr checksum 8) 255]. unfold le_load. cbn [rev app].
    change [Z.land (Z.shiftr checksum 8) 255; Z.land checksum 255] with
      (Z.land (Z.shiftr checksum (8 * Z.of_nat 1)) 255 :: [Z.land (Z.shiftr checksum 0) 255]).
    change (be_value (be_bytes 2 checksum) = checksum). by apply be_value_bytes. }
  assert (splice (f ++ store16 checksum ++ posedo_bytes tuple ++ payload) offset_checksum [0; 0] =
          packet_header mask hl session 0 tuple ++ payload) as ->.
  { rewrite packet_header_split, <- !app_assoc. by apply splice_middle. }
  fold checksum. rewrite Z.eqb_refl. cbn [negb].
  assert (drop PACKET_HEADER_SIZE (f ++ store16 checksum ++ posedo_bytes tuple ++ payload) = payload) as ->.
  { rewrite !app_assoc. apply drop_app_length'. rewrite !length_app, posedo_length, Hf. done. }
  assert (posedo_load (sub (f ++ store16 checksum ++ posedo_bytes tuple ++ payload) 11 POSEDO_SIZE) = tuple) as ->; [|done].
  rewrite sub_skip, Hf by lia. cbn [Nat.sub]. rewrite sub_skip by (simpl; lia). cbn [length store16 Nat.sub].
  rewrite sub_here by apply posedo_length. by apply posedo_load_bytes.
Qed.

Section RoundTrip.
Context {C : Type} `{CipherLaws C}.

(** The ciphers of the session are good and encrypt every non-empty buffer, the header's cipher
    keeps the length and the payload's does not shrink it. *)
Definition session_ciphers_ok (cs : option (C * C)) : Prop :=
  ciphers_good cs ∧ match cs with
                    | Some (p, t) =>
                        (∀ m c p', cipher_encrypt p m = (Some c, p') → length c = length m) ∧
                        (∀ m c t', cipher_encrypt t m = (Some c, t') → (length m ≤ length c)%nat) ∧
                        (∀ m, bytes_ok m → m ≠ [] → is_Some (cipher_encrypt p m).1 ∧ is_Some (cipher_encrypt t m).1)
                    | None => True
                    end.

(** The tuple passes the receiver's checks. *)
Definition accepted_tuple (proto : Z) (s : Posedo) : Prop :=
  proto = IP_PROTO_UDP →
  (destination_ip s ≠ NoneAddress ∧ destination_ip s ≠ AnyAddress) ∧ (source_ip s ≠ NoneAddress ∧ source_ip s ≠ AnyAddress) ∧
  0 < destination_port s ≤ 65535 ∧ 0 < source_port s ≤ 65535.

Lemma accepted_checks {A} proto s (x y : A) : accepted_tuple proto s →
  (if negb (proto =? IP_PROTO_UDP) then x else
   if (destination_ip s =? NoneAddress) || (destination_ip s =? AnyAddress) then y else
   if (destination_port s <=? MinPort) || (MaxPort <? destination_port s) then y else
   if (source_ip s =? NoneAddress) || (source_ip s =? AnyAddress) then y else
   if (source_port s <=? MinPort) || (MaxPort <? source_port s) then y else x) = x.
Proof.
  intros Ha. unfold MinPort, MaxPort. destruct (Z.eqb_spec proto IP_PROTO_UDP) as [Hp|]; [|done]. cbn [negb].
  destruct (Ha Hp) as ((? & ?) & (? & ?) & ? & ?).
  rewrite !(proj2 (Z.eqb_neq _ _)), !(proj2 (Z.leb_gt _ _)), !(proj2 (Z.ltb_ge _ _)) by (done || lia). done.
Qed.

Lemma packby_undo APP (resolve : Z → option (C * C)) origin sid proto mask tuple payload pkt cs' :
  session_ciphers_ok (resolve origin) → 0 < mask < 2 ^ 32 → 0 < origin < 2 ^ 31 →
  (sid = origin ∧ proto = IP_PROTO_UDP ∨ sid = Z.lnot origin ∧ proto = IP_PROTO_IP) →
  tuple_ok tuple → accepted_tuple proto tuple → bytes_ok payload →
  PackBy APP (resolve origin) origin sid mask tuple payload = (Some pkt, cs') →
  UnpackBy APP resolve pkt =
    (Some {| vep_Payload := payload; vep_Protocol := proto; vep_Id := origin; vep_tuple := tuple |}, cs').
Proof.
  intros [Hg Hlp] Hm Ho Hsid Ht Hacc Hb. unfold PackBy.
  rewrite (proj2 (Z.eqb_neq origin 0)) by lia. destruct (Nat.ltb_spec (length payload) 1) as [|Hpl]; [done|]. cbn [orb].
  assert (payload ≠ []) as Hne by (intros ->; simpl in Hpl; lia).
  assert (- 2 ^ 31 ≤ sid < 2 ^ 31 ∧ (if sid <? 0 then (Z.lnot sid, IP_PROTO_IP) else (sid, IP_PROTO_UDP)) = (origin, proto)) as [Hr Hproto].
  { destruct Hsid as [[-> ->]|[-> ->]].
    - split; [lia|]. by rewrite (proj2 (Z.ltb_ge _ _)) by lia.
    - unfold Z.lnot. split; [lia|]. rewrite (proj2 (Z.ltb_lt _ _)) by lia. f_equal. lia. }
  pose proof (static_mod_range APP) as Hmod.
  unfold STATIC_Pack. rewrite (proj2 (Z.eqb_neq (static_mod APP) 0)) by lia. cbv zeta.
  set (kf := packet_kf APP mask). set (hl := Z.rem (Z.of_nat PACKET_HEADER_SIZE + _) _).
  assert (∀ pl, packet_header mask hl (Z.lxor sid kf) (inet_chksum (packet_header mask hl (Z.lxor sid kf) 0 tuple ++ pl)) tuple ++ pl =
    header_front mask hl (Z.lxor sid kf) ++ (store16 (inet_chksum (packet_header mask hl (Z.lxor sid kf) 0 tuple ++ pl)) ++ posedo_bytes tuple) ++ pl)
    as Hshape by (intros; by rewrite packet_header_split, <- !app_assoc).
  assert (∀ c, bytes_ok (store16 c ++ posedo_bytes tuple) ∧ length (store16 c ++ posedo_bytes tuple) = 14%nat) as Hbody.
  { intros c. split; [apply Forall_app; split; [apply store16_bytes|apply posedo_bytes_ok]|].
    rewrite length_app, posedo_length. done. }
  destruct (resolve origin) as [[p t]|] eqn:Eres.
  - destruct Hg as [Hgp Hgt]. destruct (cipher_encrypt t payload) as [[pl|] t1] eqn:Et; [|done].
    destruct (cipher_inverse t payload pl t1 Hgt Hb Et) as (Htd & Hplb & _).
    destruct (Hbody (inet_chksum (packet_header mask hl (Z.lxor sid kf) 0 tuple ++ pl))) as [Hbb Hbl].
    rewrite !Hshape. set (body := store16 _ ++ posedo_bytes tuple) in *.
    assert (sub (header_front mask hl (Z.lxor sid kf) ++ body ++ pl) offset_checksum (PACKET_HEADER_SIZE - offset_checksum) = body) as ->.
    { unfold offset_checksum, PACKET_HEADER_SIZE. rewrite sub_skip, header_front_length by (rewrite header_front_length; lia). by apply sub_here. }
    destruct (cipher_encrypt p body) as [[enc|] p1] eqn:Ep; [|done].
    destruct (cipher_inverse p body enc p1 Hgp Hbb Ep) as (Hpd & Hencb & _). pose proof (proj1 Hlp _ _ _ Ep) as Hencl.
    change (PACKET_HEADER_SIZE - offset_checksum)%nat with 14%nat. rewrite (proj2 (Nat.eqb_eq _ _)) by lia.
    rewrite (splice_middle _ body enc pl offset_checksum) by (done || apply header_front_length).
    cbn [default]. destruct (obfuscate APP kf _) as [o|] eqn:Eo; [|done]. intros Heq. injection Heq as <- <-.
    assert (pl ≠ []) as Hplne by (intros ->; pose proof (proj1 (proj2 Hlp) _ _ _ Et); simpl in *; lia).
    pose proof (unpack_outer APP resolve mask sid enc pl o Hm Hr Hencb ltac:(lia) Hplb Hplne Eo) as Hout.
    cbv zeta in Hout. fold kf in Hout. fold hl in Hout. rewrite Hout, Hproto, Eres, Hpd, Hbl, Nat.eqb_refl.
    rewrite (splice_middle _ enc body pl offset_checksum) by (done || apply header_front_length).
    unfold body. rewrite <- Hshape, unpack_inner by (done || lia). rewrite Htd. cbv zeta iota. rewrite accepted_checks by done. done.
  - destruct (Hbody (inet_chksum (packet_header mask hl (Z.lxor sid kf) 0 tuple ++ payload))) as [Hbb Hbl].
    rewrite Hshape. destruct (obfuscate APP kf _) as [o|] eqn:Eo; [|done]. intros Heq. injection Heq as <- <-.
    pose proof (unpack_outer APP resolve mask sid _ payload o Hm Hr Hbb Hbl Hb Hne Eo) as Hout.
    cbv zeta in Hout. fold kf in Hout. fold hl in Hout. rewrite Hout, Hproto, Eres.
    rewrite <- Hshape, unpack_inner by (done || lia). cbv zeta iota. rewrite accepted_checks by done. done.
Qed.

(** Packing a non-empty payload always gives a datagram. *)
Lemma obfuscate_total APP kf p : p ≠ [] → is_Some (obfuscate APP kf p).
Proof.
  intros Hp. unfold obfuscate, delta_encode. destruct (_ ++ _) eqn:E; [|by eexists].
  apply (f_equal length) in E. rewrite length_app, length_masked_xor_random_next, length_shuffle_data, <- length_app, take_drop in E.
  by destruct p.
Qed.

Lemma splice_cons p off q : q ≠ [] → splice p off q ≠ [].
Proof. unfold splice. intros Hq E. apply app_eq_nil in E as [_ E]. by apply app_eq_nil in E as [? _]. Qed.

Lemma packet_header_cons mask hl session checksum tuple r : packet_header mask hl session checksum tuple ++ r ≠ [].
Proof. intros E. apply (f_equal length) in E. unfold packet_header in E. rewrite !length_app, posedo_length in E. simpl in E. lia. Qed.

Lemma packby_total APP (cs : option (C * C)) origin sid mask tuple payload :
  session_ciphers_ok cs → origin ≠ 0 → bytes_ok payload → payload ≠ [] →
  is_Some (PackBy APP cs origin sid mask tuple payload).1.
Proof.
  intros [Hg Hlp] Ho Hb Hne. unfold PackBy. rewrite (proj2 (Z.eqb_neq origin 0)) by done.
  destruct (Nat.ltb_spec (length payload) 1); [destruct payload; [done|simpl in *; lia]|]. cbn [orb].
  pose proof (static_mod_range APP) as Hmod.
  unfold STATIC_Pack. rewrite (proj2 (Z.eqb_neq (static_mod APP) 0)) by lia. cbv zeta.
  destruct cs as [[p t]|]; [|apply obfuscate_total, packet_header_cons].
  destruct Hlp as (_ & _ & Htot). destruct (proj2 (Htot payload Hb Hne)) as [pl Hpl].
  destruct (cipher_encrypt t payload) as [e t1]. cbn [fst] in Hpl. subst e.
  set (body := sub _ _ _). assert (Hbody : bytes_ok body ∧ body ≠ []).
  { subst body. rewrite packet_header_split, <- !app_assoc. unfold offset_checksum, PACKET_HEADER_SIZE.
    rewrite sub_skip, header_front_length by (rewrite header_front_length; lia).
    rewrite (app_assoc _ (posedo_bytes tuple) pl), sub_here by (rewrite length_app, posedo_length; done).
    split; [apply Forall_app; split; [apply store16_bytes|apply posedo_bytes_ok]|].
    intros E. apply (f_equal length) in E. rewrite length_app, posedo_length in E. simpl in E. lia. }
  destruct (proj1 (Htot body (proj1 Hbody) (proj2 Hbody))) as [enc Henc].
  destruct (cipher_encrypt p body) as [e p1]. cbn [fst] in Henc. subst e.
  destruct (Nat.eqb_spec (length enc) (PACKET_HEADER_SIZE - offset_checksum)) as [El|_]; cbn [fst]; apply obfuscate_total, splice_cons.
  - by destruct enc.
  - done.
Qed.

(** The bytes of a tunnelled frame come back from the tuple and the payload. *)
Lemma frame_bytes_back buffers : bytes_ok buffers → (12 ≤ length buffers)%nat →
  let tuple := {| source_ip := le_load (sub buffers 0 4); source_port := le_load (sub buffers 4 2);
                  destination_ip := le_load (sub buffers 6 4); destination_port := le_load (sub buffers 10 2) |} in
  tuple_ok tuple ∧
  ∀ proto id, GetIPPacket_bytes {| vep_Payload := drop POSEDO_SIZE buffers; vep_Protocol := proto; vep_Id := id; vep_tuple := tuple |}
    = buffers.
Proof.
  intros Hb Hl tuple.
  assert (∀ off n, (off + n ≤ length buffers)%nat → le_store n (le_load (sub buffers off n)) = sub buffers off n) as Hst.
  { intros off n Hn. rewrite <- (length_sub buffers off n Hn) at 1. by apply le_store_load, bytes_ok_sub. }
  assert (∀ off n, (off + n ≤ length buffers)%nat → is_uint (8 * Z.of_nat n) (le_load (sub buffers off n))) as Hrg.
  { intros off n Hn. rewrite <- (length_sub buffers off n Hn) at 1. unfold le_load. rewrite <- length_rev.
    apply be_value_range, Forall_rev. by apply bytes_ok_sub. }
  split.
  - split; [apply (Hrg 0%nat 4%nat); lia|]. split; [apply (Hrg 4%nat 2%nat); lia|]. split; [apply (Hrg 6%nat 4%nat); lia|apply (Hrg 10%nat 2%nat); lia].
  - intros. unfold GetIPPacket_bytes. cbn [vep_tuple vep_Payload tuple source_ip source_port destination_ip destination_port].
    rewrite (Hst 0%nat 4%nat), (Hst 4%nat 2%nat), (Hst 6%nat 4%nat), (Hst 10%nat 2%nat) by lia.
    pose proof (sub_join buffers 0 4 2) as J1. pose proof (sub_join buffers 0 6 4) as J2. pose proof (sub_join buffers 0 10 2) as J3.
    cbn [Nat.add] in J1, J2, J3. rewrite !app_assoc, J1, J2, J3.
    unfold sub, POSEDO_SIZE. rewrite drop_0. apply take_drop.
Qed.
Lemma pack_udp_total APP (cs : option (C * C)) id mask tuple payload :
  session_ciphers_ok cs → 0 < id → bytes_ok payload → accepted_tuple IP_PROTO_UDP tuple → payload ≠ [] →
  is_Some (Pack_udp APP cs id mask tuple payload).1.
Proof.
  intros Hcs Hid Hb Ha Hne. destruct (Ha eq_refl) as ((? & ?) & _ & ? & ?). unfold Pack_udp, MinPort, MaxPort.
  rewrite !(proj2 (Z.ltb_ge _ _)), !(proj2 (Z.eqb_neq _ _)), !(proj2 (Z.leb_gt _ _)) by (done || lia). cbn [orb].
  apply packby_total; (done || lia).
Qed.

Lemma frame_array_ok frame : ip_frame_ok frame → bytes_ok (IPFrame_ToArray frame) ∧ (20 ≤ length (IPFrame_ToArray frame))%nat.
Proof.
  intros Hf. unfold IPFrame_ToArray. split; [|rewrite length_app, length_ip_header; lia].
  apply Forall_app. split; [by apply bytes_ok_header|]. by destruct Hf as [_ _ _ _ _ _ _ (_ & _ & _ & ?) _].
Qed.

Lemma pack_ip_total APP (cs : option (C * C)) id mask frame :
  session_ciphers_ok cs → 0 < id → ip_frame_ok frame → if_ProtocolType frame ∈ [IP_PROTO_ICMP; IP_PROTO_UDP; IP_PROTO_TCP] →
  is_Some (Pack_ip APP cs id mask frame).1.
Proof.
  intros Hcs Hid Hf Hp. destruct (frame_array_ok frame Hf) as [Hb Hl]. unfold Pack_ip.
  rewrite (proj2 (Z.ltb_ge _ _)) by lia.
  assert ((if_ProtocolType frame =? IP_PROTO_ICMP) || (if_ProtocolType frame =? IP_PROTO_UDP) ||
          (if_ProtocolType frame =? IP_PROTO_TCP) = true) as ->.
  { rewrite !elem_of_cons, elem_of_nil in Hp. rewrite !orb_true_iff, !Z.eqb_eq. tauto. }
  cbn [negb]. cbv zeta. apply packby_total; [done|lia|by apply bytes_ok_drop|].
  intros E. apply (f_equal length) in E. rewrite length_drop in E. unfold POSEDO_SIZE in E. simpl in E. lia.
Qed.
End RoundTrip.

(** * Statements *)

(** C13: a static datagram delivers what was packed.  For any configuration, mask, session and
    endpoints, with ciphers that keep their promise or without: the receiver that resolves the same
    session ciphers unpacks a UDP datagram to the same session, tuple and payload (provided the
    source address, which the packer does not check, is one the receiver accepts), and a tunnelled
    IP frame to the frame a direct parse of its bytes gives; both ends are left with the same cipher
    states.  Packing succeeds for every non-empty payload between endpoints the receiver accepts,
    and for every ICMP, UDP or TCP frame. *)
Theorem static_packet_roundtrip {C} `{CipherLaws C} APP (resolve : Z → option (C * C)) id mask tuple payload frame flash checks :
  session_ciphers_ok (resolve id) → 0 < mask < 2 ^ 32 → 0 < id < 2 ^ 31 → tuple_ok tuple → bytes_ok payload →
  source_ip tuple ≠ NoneAddress ∧ source_ip tuple ≠ AnyAddress → ip_frame_ok frame →
  (∀ pkt cs', Pack_udp APP (resolve id) id mask tuple payload = (Some pkt, cs') →
     UnpackBy APP resolve pkt =
       (Some {| vep_Payload := payload; vep_Protocol := IP_PROTO_UDP; vep_Id := id; vep_tuple := tuple |}, cs')) ∧
  (∀ pkt cs', Pack_ip APP (resolve id) id mask frame = (Some pkt, cs') →
     ∃ v, UnpackBy APP resolve pkt = (Some v, cs') ∧ vep_Id v = id ∧ GetIPPacket flash checks v = Some (received flash frame)) ∧
  (accepted_tuple IP_PROTO_UDP tuple → payload ≠ [] → is_Some (Pack_udp APP (resolve id) id mask tuple payload).1) ∧
  (if_ProtocolType frame ∈ [IP_PROTO_ICMP; IP_PROTO_UDP; IP_PROTO_TCP] → is_Some (Pack_ip APP (resolve id) id mask frame).1).
Proof.
  intros Hcs Hm Hid Ht Hb Hsrc Hf.
  split; [|split; [|split; intros; [apply pack_udp_total | apply pack_ip_total]; done || lia]]; intros pkt cs'.
  - unfold Pack_udp. destruct (Z.ltb_spec id 1); [done|].
    destruct (_ || _) eqn:E1; [done|]. apply orb_false_iff in E1 as [?%Z.eqb_neq ?%Z.eqb_neq].
    destruct (_ || _) eqn:E2; [done|]. apply orb_false_iff in E2 as [?%Z.leb_gt ?%Z.ltb_ge].
    destruct (_ || _) eqn:E3; [done|]. apply orb_false_iff in E3 as [?%Z.leb_gt ?%Z.ltb_ge].
    apply packby_undo; [done..|by left|done| |done].
    intros _. unfold MinPort, MaxPort in *. split; [done|]. split; [done|]. lia.
  - unfold Pack_ip. destruct (Z.ltb_spec id 1); [done|]. destruct (negb _); [done|]. cbv zeta. intros He.
    destruct (frame_array_ok frame Hf) as [Hbb Hl]. destruct (frame_bytes_back _ Hbb ltac:(lia)) as [Htu Hback].
    eexists. split; [eapply packby_undo; [done|done|done|by right|exact Htu|by intros|by apply bytes_ok_drop|exact He]|].
    split; [done|]. unfold GetIPPacket. cbn [vep_Protocol]. change (IP_PROTO_IP =? IP_PROTO_IP) with true. cbn [negb].
    rewrite Hback. by rewrite ip_parse_array.
Qed.

(** The packer lets a datagram without a source address through; no receiver accepts it. *)
Definition sample_tuple (source : Z) : Posedo :=
  {| source_ip := source; source_port := 4000; destination_ip := 16843009; destination_port := 53 |}.
Example unreceivable_datagram :
  match (Pack_udp (sample_key 154543927) (None : option (RC4 * RC4)) 7 99 (sample_tuple 0) [1; 2]).1 with
  | Some pkt => (UnpackBy (sample_key 154543927) (λ _, None : option (RC4 * RC4)) pkt).1 = None
  | None => False
  end.
Proof. vm_compute. reflexivity. Qed.

Lemma rc4_loop_length f E x st data : length (rc4_loop f E x st data).1 = length data.
Proof.
  revert st. induction data as [|d t IH]; intros st; [done|]. cbn [rc4_loop]. destruct (prga_step f st) as [s st1].
  specialize (IH st1). destruct (rc4_loop f E x st1 t). cbn [fst length] in *. lia.
Qed.

Lemma RC4_Encrypt_length c m r c' : RC4_Encrypt c m = (Some r, c') → length r = length m.
Proof.
  unfold RC4_Encrypt, RC4_EncryptTo, rc4_crypt_sbox_c, rc4_run. destruct m as [|y m]; [done|].
  destruct (rc4_password c) as [|z p]; [done|]. destruct ((_ <? 1)%nat || (length (y :: m) <? _)%nat); [done|].
  destruct (_ || _); [done|]. cbv zeta.
  match goal with |- context [rc4_loop ?f ?E ?x ?st ?d] => pose proof (rc4_loop_length f E x st d) as Hl;
    destruct (rc4_loop f E x st d) end. intros Heq. by simplify_eq.
Qed.

Lemma sample_ciphers_ok : session_ciphers_ok (Some (duplex_key, duplex_key)).
Proof.
  split; [split; apply RC4_new_ok|]. split; [intros m c c' He; by eapply RC4_Encrypt_length|].
  split; [intros m c c' He; by rewrite (RC4_Encrypt_length _ _ _ _ He)|].
  intros m Hb Hne. destruct (RC4_Encrypt_total duplex_key m) as (r & a1 & He & _); [apply RC4_new_ok| |exact Hb|exact Hne|].
  - split; [discriminate|]. intros E. apply (f_equal length) in E. vm_compute in E. discriminate.
  - change (is_Some (RC4_Encrypt duplex_key m).1 ∧ is_Some (RC4_Encrypt duplex_key m).1). rewrite He. split; by eexists.
Qed.

Lemma static_packet_roundtrip_witness :
  ∃ pkt cs', Pack_udp (sample_key 154543927) (Some (duplex_key, duplex_key)) 7 99 (sample_tuple 33554442) [1; 2] = (Some pkt, cs') ∧
    UnpackBy (sample_key 154543927) (λ _, Some (duplex_key, duplex_key)) pkt =
      (Some {| vep_Payload := [1; 2]; vep_Protocol := IP_PROTO_UDP; vep_Id := 7; vep_tuple := sample_tuple 33554442 |}, cs').
Proof.
  destruct (Pack_udp (sample_key 154543927) (Some (duplex_key, duplex_key)) 7 99 (sample_tuple 33554442) [1; 2])
    as [[pkt|] cs'] eqn:E; [|by vm_compute in E].
  exists pkt, cs'. split; [done|]. revert pkt cs' E.
  refine (proj1 (static_packet_roundtrip (sample_key 154543927) (λ _, Some (duplex_key, duplex_key)) 7 99
    (sample_tuple 33554442) [1; 2] sample_frame false true _ _ _ _ _ _ _)); [exact sample_ciphers_ok|lia|lia| | | |exact sample_frame_ok].
  - by apply (bool_decide_unpack (is_uint 32 _ ∧ is_uint 16 _ ∧ is_uint 32 _ ∧ is_uint 16 _)).
  - by apply (bool_decide_unpack _).
  - split; discriminate.
Defined.
