(* ===== verification/Handshake.v ===== *)
(** * The handshake of a carrier

    The handshake part of [ppp/transmissions/ITransmission.cpp], the capability words of
    [ITransmission.h] and the 128-bit decimal conversions of [ppp/Int128.h].  Both ends exchange
    128-bit numbers as padded, XORed decimal strings, interleaved with dummy packets: the client
    application sends its session id and a word [nmux] (multiplexing bit, capabilities, canary of
    the obfuscation flags), the server application answers with the word [ivv] that salts the
    session's keys.  An [Int128] is a [Z] in the signed 128-bit range; packets are the payloads the
    framing of [Transmission] delivers. *)

From S2P Require Import Prelude Ssea Transmission.

(** ** 128-bit integers *)
Definition is_int128 (x : Z) : Prop := - 2 ^ 127 ≤ x < 2 ^ 127.
Definition int128 (x : Z) : Z := let u := wrap 128 x in if 2 ^ 127 <=? u then u - 2 ^ 128 else u.
Definition MAKE_OWORD (low high : Z) : Z := int128 (Z.lor (Z.shiftl (wrap 64 high) 64) (wrap 64 low)).
Definition low64 (x : Z) : Z := wrap 64 x.
Definition high64 (x : Z) : Z := wrap 64 (Z.shiftr x 64).

Definition clamp_radix (radix : Z) : Z := if radix <? 2 then 10 else if 36 <? radix then 36 else radix.

(** ['0'] to ['9'], then ['A'] to ['Z']. *)
Definition digit_char128 (d : Z) : Z := if d <? 10 then 48 + d else 55 + d.

(** The division loop of [Int128ToString]; at most 128 divisions by a radix of at least two. *)
Fixpoint digits128 (fuel : nat) (base magnitude : Z) (current : list Z) : list Z :=
  match fuel with
  | O => current
  | S k => if magnitude =? 0 then current
           else digits128 k base (magnitude / base) (digit_char128 (magnitude mod base) :: current)
  end.

Definition Int128ToString (value radix : Z) : list Z :=
  let radix := clamp_radix radix in
  if value =? 0 then [48] else
  let bits := wrap 128 value in
  let negative := value <? 0 in
  let magnitude := if negative then wrap 128 (wrap 128 (Z.lnot bits) + 1) else bits in
  let text := digits128 128 radix magnitude [] in
  if negative then 45 :: text else text.

(** The value of a character, if it is a digit of the radix. *)
Definition digit_of (radix ch : Z) : option Z :=
  let digit := if (48 <=? ch) && (ch <=? 57) then Some (ch - 48)
               else if (65 <=? ch) && (ch <=? 90) then Some (ch - 65 + 10)
               else if (97 <=? ch) && (ch <=? 122) then Some (ch - 97 + 10) else None in
  match digit with
  | Some d => if radix <=? d then None else Some d
  | None => None
  end.

(** [parts = parts * radix + carry] on 32-bit limbs, least significant first; the final carry. *)
Fixpoint limb_loop (radix carry : Z) (parts : list Z) : list Z * Z :=
  match parts with
  | [] => ([], carry)
  | x :: t =>
      let value := wrap 64 (wrap 64 (x * radix) + carry) in
      let '(t, c) := limb_loop radix (Z.shiftr value 32) t in
      (wrap 32 value :: t, c)
  end.

(** [compare_parts] on limbs, most significant first. *)
Fixpoint compare_be (left right : list Z) : Z :=
  match left, right with
  | x :: l, y :: r => if negb (x =? y) then (if x <? y then -1 else 1) else compare_be l r
  | _, _ => 0
  end.
Definition compare_parts (left right : list Z) : Z := compare_be (rev left) (rev right).

Definition max_positive : list Z := [4294967295; 4294967295; 4294967295; 2147483647].
Definition min_negative_magnitude : list Z := [0; 0; 0; 2147483648].

(** The digit loop; it saturates at the limit and stops at the first other character. *)
Fixpoint parse_loop (radix : Z) (limit parts : list Z) (v : list Z) : list Z :=
  match v with
  | [] => parts
  | ch :: t =>
      match digit_of radix ch with
      | None => parts
      | Some digit =>
          let '(next, carry) := limb_loop radix digit parts in
          if negb (carry =? 0) || (0 <? compare_parts next limit) then limit else parse_loop radix limit next t
      end
  end.

Definition Int128FromString (v : list Z) (radix : Z) : Z :=
  let radix := clamp_radix radix in
  let '(negative, v') := match v with
                         | [] => (false, [])
                         | ch :: t => if ch =? 45 then (true, t) else if ch =? 43 then (false, t) else (false, v)
                         end in
  match v' with
  | [] => 0
  | _ =>
      let limit := if negative then min_negative_magnitude else max_positive in
      let parts := parse_loop radix limit [0; 0; 0; 0] v' in
      let low := Z.lor (byte_at parts 0) (Z.shiftl (byte_at parts 1) 32) in
      let high := Z.lor (byte_at parts 2) (Z.shiftl (byte_at parts 3) 32) in
      if negb negative then MAKE_OWORD low high else
      if bool_decide (parts = min_negative_magnitude) then MAKE_OWORD 0 (2 ^ 63) else
      int128 (- MAKE_OWORD low high)
  end.

(** ** Session id packets *)

(** The draws of one packet: the four key bytes, the separator and the two runs of padding. *)
Record IdRandom := { id_kfs : list Z; id_separator : Z; id_pad1 : list Z; id_pad2 : list Z; id_dummy : Z }.

(** XOR the bytes with the running key after each of the four key bytes. *)
Fixpoint xor_chain (kf : Z) (kfs raw : list Z) : list Z :=
  match kfs with
  | [] => raw
  | k :: t => let kf := Z.lxor kf k in xor_chain kf t (xor_bytes kf raw)
  end.

(** [Transmission_Handshake_Pack_SessionId].  [kx] is [key.kx]; the first key byte is drawn below
    0x80 for a real id and from 0x80 for a dummy. *)
Definition Transmission_Handshake_Pack_SessionId (APP : KeyConfig) (kx session_id : Z) (rnd : IdRandom) : list Z :=
  let id_str := Int128ToString (if session_id =? 0 then id_dummy rnd else session_id) 10 in
  let id_str := id_str ++ [id_separator rnd] in
  let id_str := if 0 <? Z.rem kx 256 then id_str ++ id_pad1 rnd ++ [47] ++ id_pad2 rnd else id_str in
  id_kfs rnd ++ xor_chain (key_kf APP) (id_kfs rnd) id_str.

(** [Transmission_Handshake_Unpack_SessionId]: the id and [eagin]. *)
Definition Transmission_Handshake_Unpack_SessionId (APP : KeyConfig) (packet : list Z) : Z * bool :=
  if (length packet <? 4)%nat then (0, false) else
  if negb (Z.land (byte_at packet 0) 128 =? 0) then (0, true) else
  let kfs := take 4 packet in
  let p := drop 4 packet in
  if (length p <? 1)%nat then (0, false) else
  (Int128FromString (xor_chain (key_kf APP) kfs p) 10, false).

(** The receiving [Transmission_Handshake_SessionId]: dummies are skipped; 0 when the stream of
    packets ends. *)
Fixpoint Transmission_Handshake_SessionId (APP : KeyConfig) (packets : list (list Z)) : Z * list (list Z) :=
  match packets with
  | [] => (0, [])
  | p :: t =>
      let '(sid, eagin) := Transmission_Handshake_Unpack_SessionId APP p in
      if eagin then Transmission_Handshake_SessionId APP t else (sid, t)
  end.

(** The rounds of [Transmission_Handshake_Nop]: [draw] is [RandomNext(kl, kh)] for the two powers;
    the rounded-up quotient by [175 << 3]. *)
Definition nop_rounds (kl kh : Z) (draw : Z → Z → Z) : Z :=
  let a := Z.max 0 (Z.shiftl 1 kl) in
  let b := Z.max 0 (Z.shiftl 1 kh) in
  let '(lo, hi) := if b <? a then (b, a) else (a, b) in
  let rounds := if lo =? hi then lo else draw lo hi in
  (rounds + 1399) / 1400.

(** [Transmission_Handshake_Nop]: the dummy packets it writes, one draw of [rnd] each. *)
Definition Transmission_Handshake_Nop (APP : KeyConfig) (kx kl kh : Z) (draw : Z → Z → Z) (rnd : nat → IdRandom) :
  list (list Z) :=
  map (λ i, Transmission_Handshake_Pack_SessionId APP kx 0 (rnd i)) (seq 0 (Z.to_nat (nop_rounds kl kh draw))).

(** ** Canary and capabilities *)
Definition canary_magic : Z := 0xC0DEC0DEC0DE.
Definition kMagicMask : Z := 0x0000FFFFFFFFFFFF.

Definition Transmission_Handshake_FlagCanary (APP : KeyConfig) : Z :=
  let flags := Z.lor (Z.lor (Z.lor (Z.shiftl (Z.b2z (key_masked APP)) 0) (Z.shiftl (Z.b2z (key_plaintext APP)) 1))
                        (Z.shiftl (Z.b2z (key_delta_encode APP)) 2)) (Z.shiftl (Z.b2z (key_shuffle_data APP)) 3) in
  let kf_canary := Z.land (wrap 32 (key_kf APP)) 0xFFF in
  Z.lor (Z.lor canary_magic (wrap 64 (Z.shiftl flags 48))) (wrap 64 (Z.shiftl kf_canary 52)).

Definition ClientNmuxMagic : Z := 0x5452414E5331.
Definition ServerIvvMagic : Z := 0x5452414E5332.

Definition EncodeWord (entropy magic : Z) (bit0 policy_enabled : bool) : Z :=
  Z.lor (Z.lor (Z.lor (Z.lor (wrap 64 (Z.shiftl magic 16)) (Z.land entropy 0xFFF8)) (if policy_enabled then 4 else 0)) 2)
        (if bit0 then 1 else 0).

(** [supports_v1] and [policy_enabled]. *)
Definition DecodeWord (value magic : Z) : bool * bool :=
  if negb (Z.shiftr value 16 =? magic) then (false, false)
  else (negb (Z.land value 2 =? 0), negb (Z.land value 4 =? 0)).

Definition EncodeClientNmux (value : Z) (mux policy_enabled : bool) : Z :=
  MAKE_OWORD (EncodeWord (low64 value) ClientNmuxMagic mux policy_enabled) (high64 value).
Definition DecodeClientNmux (value : Z) : bool * bool := DecodeWord (low64 value) ClientNmuxMagic.
Definition EncodeServerIvv (value : Z) (policy_enabled : bool) : Z :=
  MAKE_OWORD (EncodeWord (low64 value) ServerIvvMagic (negb (Z.land (low64 value) 1 =? 0)) policy_enabled) (high64 value).
Definition DecodeServerIvv (value : Z) : bool * bool := DecodeWord (low64 value) ServerIvvMagic.

(** ** The two ends *)

(** What an end knows when its handshake is over; [hs_key_suffix] is appended to both keys. *)
Record HandshakeResult := {
  hs_peer_supports : bool;
  hs_peer_enables : bool;
  hs_key_suffix : list Z;
  hs_session : Z;
  hs_mux : bool;
}.

(** [ivv_str]. *)
Definition key_suffix (ivv : Z) : list Z :=
  let ivv_str := Int128ToString ivv 32 in if 0 <? ivv then 43 :: ivv_str else ivv_str.

(** [InternalHandshakeServer], which runs in the client application: the numbers it sends. *)
Definition client_nmux (APP : KeyConfig) (entropy : Z) (mux policy_enabled : bool) : Z :=
  EncodeClientNmux (MAKE_OWORD entropy (Transmission_Handshake_FlagCanary APP)) mux policy_enabled.

(** The rest of it, on the packets the server sends. *)
Definition InternalHandshakeServer (APP : KeyConfig) (session_id : Z) (mux : bool) (received : list (list Z)) :
  option HandshakeResult :=
  let '(ivv, _) := Transmission_Handshake_SessionId APP received in
  if ivv =? 0 then None else
  let '(supports, enables) := DecodeServerIvv ivv in
  Some {| hs_peer_supports := supports; hs_peer_enables := supports && enables; hs_key_suffix := key_suffix ivv;
          hs_session := session_id; hs_mux := mux |}.

(** [InternalHandshakeClient], which runs in the server application: [guid] is the fresh random
    number, [policy_enabled] the configured policy on a carrier that is not loopback.  The result
    and the [ivv] it sent, if it got that far. *)
Definition InternalHandshakeClient (APP : KeyConfig) (guid : Z) (policy_enabled : bool) (received : list (list Z)) :
  option HandshakeResult * option Z :=
  let '(sid, received) := Transmission_Handshake_SessionId APP received in
  if sid =? 0 then (None, None) else
  let ivv := EncodeServerIvv guid policy_enabled in
  let '(nmux, _) := Transmission_Handshake_SessionId APP received in
  if nmux =? 0 then (None, Some ivv) else
  let '(supports, enables) := DecodeClientNmux nmux in
  let nmux_high := high64 nmux in
  if (Z.land nmux_high kMagicMask =? canary_magic) && negb (nmux_high =? Transmission_Handshake_FlagCanary APP)
  then (None, Some ivv)
  else (Some {| hs_peer_supports := supports; hs_peer_enables := supports && enables; hs_key_suffix := key_suffix ivv;
                hs_session := sid; hs_mux := negb (Z.land nmux 1 =? 0) |}, Some ivv).


(** * Proofs *)

(** ** 128-bit conversions *)
Lemma int128_small x : is_int128 x → int128 x = x.
Proof.
  unfold is_int128, int128, wrap. intros ?. cbv zeta. destruct (decide (0 ≤ x)).
  - rewrite Z.mod_small by lia. destruct (Z.leb_spec (2 ^ 127) x); lia.
  - rewrite <- (Z_mod_plus_full x 1), Z.mod_small by lia.
    destruct (Z.leb_spec (2 ^ 127) (x + 1 * 2 ^ 128)); lia.
Qed.

(** The number the limbs hold, and the number a list of digits continues. *)
Fixpoint limbs_val (l : list Z) : Z := match l with [] => 0 | x :: t => x + 2 ^ 32 * limbs_val t end.
Fixpoint horner (radix v : Z) (ds : list Z) : Z :=
  match ds with [] => v | d :: t => horner radix (v * radix + d) t end.

Lemma limb_loop_spec radix parts : ∀ carry, 2 ≤ radix ≤ 36 → is_uint 32 carry → Forall (is_uint 32) parts →
  let '(next, c) := limb_loop radix carry parts in
  limbs_val next + c * 2 ^ (32 * Z.of_nat (length parts)) = limbs_val parts * radix + carry ∧
  is_uint 32 c ∧ Forall (is_uint 32) next ∧ length next = length parts.
Proof.
  unfold is_uint. induction parts as [|x t IH]; intros carry Hr Hc Hp; [by cbn; split_and!; try lia; constructor|].
  apply Forall_cons in Hp as [Hx Ht]. cbn [limb_loop]. cbv zeta.
  rewrite (wrap_small 64 (x * radix)) by (unfold is_uint; nia).
  rewrite (wrap_small 64 (_ + carry)) by (unfold is_uint; nia).
  rewrite Z.shiftr_div_pow2 by lia.
  assert (Hd : 0 ≤ (x * radix + carry) / 2 ^ 32 < 2 ^ 32).
  { split; [apply Z.div_pos; nia | apply Z.div_lt_upper_bound; nia]. }
  specialize (IH _ Hr Hd Ht). destruct (limb_loop _ _ t) as [next c] eqn:E.
  destruct IH as (Hv & Hc' & Hn & Hl). cbn [limbs_val length]. split_and!; [|lia..| |lia].
  - pose proof (Z.div_mod (x * radix + carry) (2 ^ 32) ltac:(lia)) as Hdm. unfold wrap.
    rewrite Nat2Z.inj_succ, (Z.mul_comm 32), Z.mul_succ_l, Z.pow_add_r by lia.
    rewrite (Z.mul_comm 32) in Hv. nia.
  - constructor; [by apply wrap_range|done].
Qed.

Lemma compare_parts_spec a b c d e f g h :
  Forall (is_uint 32) [a; b; c; d] → Forall (is_uint 32) [e; f; g; h] →
  (0 <? compare_parts [a; b; c; d] [e; f; g; h]) = (limbs_val [e; f; g; h] <? limbs_val [a; b; c; d]).
Proof.
  rewrite !Forall_cons. unfold is_uint. intros ? ?. cbn [compare_parts rev app compare_be limbs_val].
  destruct (Z.eqb_spec d h); [|destruct (Z.ltb_spec d h)]; cbn [negb];
  [destruct (Z.eqb_spec c g); [|destruct (Z.ltb_spec c g)]; cbn [negb]
  |symmetry; first [apply Z.ltb_lt | apply Z.ltb_ge]; lia..].
  all: try (symmetry; first [apply Z.ltb_lt; lia | apply Z.ltb_ge; lia]).
  destruct (Z.eqb_spec b f); [|destruct (Z.ltb_spec b f)]; cbn [negb].
  all: try (symmetry; first [apply Z.ltb_lt; lia | apply Z.ltb_ge; lia]).
  destruct (Z.eqb_spec a e); [|destruct (Z.ltb_spec a e)]; cbn [negb];
  symmetry; first [apply Z.ltb_lt; lia | apply Z.ltb_ge; lia].
Qed.

Lemma horner_ge radix ds : ∀ v, 2 ≤ radix → Forall (λ d, 0 ≤ d) ds → 0 ≤ v → v ≤ horner radix v ds.
Proof.
  induction ds as [|d t IH]; intros v Hr Hd Hv; cbn [horner]; [lia|].
  apply Forall_cons in Hd as [? Ht]. etransitivity; [|apply IH; [done|done|nia]]. nia.
Qed.

Lemma horner_snoc radix ds d : ∀ v, horner radix v (ds ++ [d]) = horner radix v ds * radix + d.
Proof. induction ds as [|e t IH]; intros v; cbn [horner app]; [done|]. apply IH. Qed.

(** Whether the text after a number ends it. *)
Definition ends_number (radix : Z) (rest : list Z) : Prop :=
  match rest with [] => True | ch :: _ => digit_of radix ch = None end.

Lemma digit_of_char radix d : radix ≤ 36 → 0 ≤ d < radix → digit_of radix (digit_char128 d) = Some d.
Proof.
  intros Hr Hd. unfold digit_of, digit_char128.
  destruct (Z.ltb_spec d 10).
  - replace (48 <=? 48 + d) with true by (symmetry; apply Z.leb_le; lia).
    replace (48 + d <=? 57) with true by (symmetry; apply Z.leb_le; lia). cbn [andb].
    destruct (Z.leb_spec radix (48 + d - 48)); [lia|]. f_equal. lia.
  - replace (55 + d <=? 57) with false by (symmetry; apply Z.leb_gt; lia). rewrite andb_false_r.
    replace (65 <=? 55 + d) with true by (symmetry; apply Z.leb_le; lia).
    replace (55 + d <=? 90) with true by (symmetry; apply Z.leb_le; lia). cbn [andb].
    destruct (Z.leb_spec radix (55 + d - 65 + 10)); [lia|]. f_equal. lia.
Qed.

Lemma parse_loop_spec radix limit rest ds : ∀ parts,
  2 ≤ radix ≤ 36 → Forall (is_uint 32) limit → length limit = 4%nat → Forall (is_uint 32) parts → length parts = 4%nat →
  Forall (λ d, 0 ≤ d < radix) ds → ends_number radix rest → horner radix (limbs_val parts) ds ≤ limbs_val limit →
  let r := parse_loop radix limit parts (map digit_char128 ds ++ rest) in
  limbs_val r = horner radix (limbs_val parts) ds ∧ Forall (is_uint 32) r ∧ length r = 4%nat.
Proof.
  induction ds as [|d t IH]; intros parts Hr Hl Hl4 Hp Hp4 Hd He Hh; cbn [map app parse_loop horner].
  { destruct rest as [|ch rest]; cbn in *; [done|]. by rewrite He. }
  apply Forall_cons in Hd as [Hd Ht]. rewrite digit_of_char by lia.
  pose proof (limb_loop_spec radix parts d Hr ltac:(unfold is_uint; lia) Hp) as Hs.
  destruct (limb_loop radix d parts) as [next c]. destruct Hs as (Hv & Hc & Hn & Hn4). rewrite Hp4 in Hv, Hn4.
  assert (Hp0 : 0 ≤ limbs_val parts).
  { clear -Hp. induction Hp; cbn [limbs_val]; unfold is_uint in *; lia. }
  assert (Hge : limbs_val parts * radix + d ≤ limbs_val limit).
  { etransitivity; [apply (horner_ge radix t); [lia| |nia]|exact Hh]. eapply Forall_impl; [exact Ht|]. naive_solver. }
  destruct next as [|n0 [|n1 [|n2 [|n3 [|]]]]]; try done. destruct limit as [|l0 [|l1 [|l2 [|l3 [|]]]]]; try done.
  assert (Hb : 0 ≤ limbs_val [n0; n1; n2; n3] ∧ limbs_val [l0; l1; l2; l3] < 2 ^ 128).
  { revert Hn Hl. rewrite !Forall_cons. unfold is_uint. cbn [limbs_val]. lia. }
  unfold is_uint in Hc. change (32 * Z.of_nat 4) with 128 in Hv.
  assert (c = 0) as -> by nia. rewrite Z.mul_0_l, Z.add_0_r in Hv.
  rewrite compare_parts_spec by done. rewrite Hv. cbn [negb orb].
  replace (limbs_val [l0; l1; l2; l3] <? _) with false by (symmetry; apply Z.ltb_ge; lia). change (0 =? 0) with true. cbn [negb orb].
  specialize (IH [n0; n1; n2; n3] Hr Hl Hl4 Hn eq_refl Ht He). rewrite Hv in IH. by apply IH.
Qed.

Lemma digits128_spec fuel base : ∀ m acc, 2 ≤ base ≤ 36 → 0 ≤ m < 2 ^ Z.of_nat fuel →
  ∃ ds, digits128 fuel base m acc = map digit_char128 ds ++ acc ∧ horner base 0 ds = m ∧
        Forall (λ d, 0 ≤ d < base) ds ∧ (m ≠ 0 → ds ≠ []).
Proof.
  induction fuel as [|k IH]; intros m acc Hb Hm.
  { exists []. cbn [digits128 map app horner]. change (2 ^ Z.of_nat 0) with 1 in Hm. split_and!; try done; lia. }
  cbn [digits128]. destruct (Z.eqb_spec m 0) as [->|Hm0]; [by exists []|].
  rewrite Nat2Z.inj_succ, Z.pow_succ_r in Hm by lia.
  destruct (IH (m / base) (digit_char128 (m mod base) :: acc) Hb) as (ds & -> & Hh & Hd & _).
  { split; [apply Z.div_pos; lia | apply Z.div_lt_upper_bound; nia]. }
  exists (ds ++ [m mod base]). rewrite map_app, <- app_assoc, horner_snoc, Hh. split_and!; try done.
  - pose proof (Z.div_mod m base). lia.
  - apply Forall_app. split; [done|]. constructor; [apply Z.mod_pos_bound; lia|done].
  - intros _ ?%app_eq_nil. naive_solver.
Qed.

Lemma lor_low_high w a b : is_uint w a → 0 ≤ w → Z.lor a (Z.shiftl b w) = a + b * 2 ^ w.
Proof. intros Ha ?. rewrite Z.lor_comm, lor_shift_add by done. lia. Qed.

Lemma MAKE_OWORD_spec low high : is_uint 64 low → is_uint 64 high → MAKE_OWORD low high = int128 (low + high * 2 ^ 64).
Proof. intros. unfold MAKE_OWORD. rewrite !wrap_small by done. rewrite lor_shift_add by done. f_equal. lia. Qed.

(** The word the limbs of a parse give. *)
Lemma limbs_words a b c d : Forall (is_uint 32) [a; b; c; d] →
  MAKE_OWORD (Z.lor a (Z.shiftl b 32)) (Z.lor c (Z.shiftl d 32)) = int128 (limbs_val [a; b; c; d]).
Proof.
  rewrite !Forall_cons. intros (Ha & Hb & Hc & Hd & _). rewrite !lor_low_high by done. unfold is_uint in *.
  rewrite MAKE_OWORD_spec by (unfold is_uint; lia). f_equal. cbn [limbs_val]. lia.
Qed.

Lemma clamp_radix_id radix : 2 ≤ radix ≤ 36 → clamp_radix radix = radix.
Proof. intros. unfold clamp_radix. destruct (Z.ltb_spec radix 2); [lia|]. destruct (Z.ltb_spec 36 radix); lia. Qed.

Definition sign_text (negative : bool) : list Z := if negative then [45] else [].

(** A signed run of digits is read as its value, whatever text follows. *)
Lemma from_digits radix (negative : bool) d ds rest :
  let m := horner radix 0 (d :: ds) in
  2 ≤ radix ≤ 36 → Forall (λ d, 0 ≤ d < radix) (d :: ds) → m ≤ (if negative then 2 ^ 127 else 2 ^ 127 - 1) →
  ends_number radix rest →
  Int128FromString (sign_text negative ++ map digit_char128 (d :: ds) ++ rest) radix = if negative then - m else m.
Proof.
  intros m Hr Hd Hm He. set (limit := if negative then min_negative_magnitude else max_positive).
  destruct (parse_loop_spec radix limit rest (d :: ds) [0; 0; 0; 0]) as (Hv & Hu & H4); [done|..|].
  1, 2: by destruct negative; try (by apply (bool_decide_unpack _)).
  1: by apply (bool_decide_unpack _).
  1, 2, 3: done.
  { change (limbs_val [0; 0; 0; 0]) with 0. fold m. etransitivity; [exact Hm|]. by destruct negative. }
  change (limbs_val [0; 0; 0; 0]) with 0 in Hv. fold m in Hv.
  assert (Hm0 : 0 ≤ m). { apply (horner_ge radix (d :: ds) 0); [lia| |lia]. eapply Forall_impl; [exact Hd|]. naive_solver. }
  assert (Hsign : 48 ≤ digit_char128 d).
  { apply Forall_cons in Hd as [Hd _]. cbn beta in Hd. unfold digit_char128. destruct (Z.ltb_spec d 10); lia. }
  clearbody m. unfold Int128FromString. rewrite clamp_radix_id by done.
  assert (Hpre : match sign_text negative ++ map digit_char128 (d :: ds) ++ rest with
                 | [] => (false, [])
                 | ch :: t => if ch =? 45 then (true, t) else if ch =? 43 then (false, t)
                              else (false, sign_text negative ++ map digit_char128 (d :: ds) ++ rest)
                 end = (negative, map digit_char128 (d :: ds) ++ rest)).
  { destruct negative; [done|]. cbn [map app sign_text].
    destruct (Z.eqb_spec (digit_char128 d) 45); [lia|]. destruct (Z.eqb_spec (digit_char128 d) 43); [lia|done]. }
  rewrite Hpre. clear Hpre. cbn [map app] in *. cbv zeta. fold limit.
  destruct (parse_loop _ limit _ _) as [|a [|b [|c [|e [|]]]]]; try done.
  unfold byte_at. cbn [nth]. rewrite limbs_words by done. rewrite Hv.
  destruct negative; cbn [negb]; [|by rewrite int128_small by (unfold is_int128; lia)].
  case_bool_decide as Hmin.
  - rewrite Hmin in Hv. vm_compute in Hv. rewrite <- Hv. reflexivity.
  - assert (m ≠ 2 ^ 127).
    { intros ->. apply Hmin. revert Hu Hv. rewrite !Forall_cons. unfold is_uint, min_negative_magnitude. cbn [limbs_val].
      intros (? & ? & ? & ? & _) ?. repeat f_equal; lia. }
    rewrite (int128_small m) by (unfold is_int128; lia). apply int128_small. unfold is_int128. lia.
Qed.

Lemma lnot_magnitude x : is_int128 x → x < 0 → wrap 128 (wrap 128 (Z.lnot (wrap 128 x)) + 1) = - x.
Proof.
  unfold is_int128, wrap. intros ? ?. rewrite <- (Z_mod_plus_full x 1), (Z.mod_small (x + _)) by lia.
  rewrite <- (Z_mod_plus_full (Z.lnot _) 1). unfold Z.lnot. rewrite (Z.mod_small (Z.pred _ + _)) by lia.
  rewrite Z.mod_small by lia. lia.
Qed.

(** The printed text of an integer is its sign and the digits of its magnitude. *)
Lemma Int128ToString_spec x radix : is_int128 x → 2 ≤ radix ≤ 36 →
  ∃ d ds, Int128ToString x radix = sign_text (x <? 0) ++ map digit_char128 (d :: ds) ∧
          horner radix 0 (d :: ds) = Z.abs x ∧ Forall (λ d, 0 ≤ d < radix) (d :: ds).
Proof.
  intros Hx Hr. unfold Int128ToString. rewrite clamp_radix_id by done.
  destruct (Z.eqb_spec x 0) as [->|Hx0]; [exists 0, []; split_and!; try done; constructor; [lia|done]|].
  cbv zeta. set (m := if x <? 0 then wrap 128 _ else wrap 128 x).
  assert (Hm : m = Z.abs x).
  { subst m. destruct (Z.ltb_spec x 0); [rewrite lnot_magnitude by done; lia|].
    rewrite wrap_small by (unfold is_uint, is_int128 in *; lia). lia. }
  rewrite Hm. destruct (digits128_spec 128 radix (Z.abs x) [] Hr) as (ds & -> & Hh & Hd & Hne).
  { change (2 ^ Z.of_nat 128) with (2 ^ 128). unfold is_int128 in Hx. lia. }
  destruct ds as [|d ds]; [naive_solver lia|]. rewrite app_nil_r. exists d, ds. split_and!; try done.
  by destruct (x <? 0).
Qed.

Lemma Int128_print_parse x radix rest :
  is_int128 x → 2 ≤ radix ≤ 36 → ends_number radix rest → Int128FromString (Int128ToString x radix ++ rest) radix = x.
Proof.
  intros Hx Hr He. destruct (Int128ToString_spec x radix Hx Hr) as (d & ds & -> & Hh & Hd).
  rewrite <- app_assoc, from_digits; try done.
  - rewrite Hh. destruct (Z.ltb_spec x 0); lia.
  - rewrite Hh. unfold is_int128 in Hx. destruct (Z.ltb_spec x 0); lia.
Qed.

Lemma Int128ToString_bytes x : is_int128 x → bytes_ok (Int128ToString x 10).
Proof.
  intros Hx. destruct (Int128ToString_spec x 10 Hx ltac:(lia)) as (d & ds & -> & _ & Hd). apply Forall_app. split.
  - by destruct (x <? 0); apply (bool_decide_unpack _).
  - apply Forall_map. eapply Forall_impl; [exact Hd|]. intros e He. cbn beta in He |- *. unfold digit_char128, is_uint. destruct (Z.ltb_spec e 10); lia.
Qed.

(** ** Session id packets *)
Lemma length_xor_chain kfs : ∀ kf raw, length (xor_chain kf kfs raw) = length raw.
Proof. induction kfs as [|k t IH]; intros kf raw; cbn [xor_chain]; [done|]. rewrite IH. apply length_map. Qed.

Lemma xor_bytes_comm k1 k2 d : xor_bytes k1 (xor_bytes k2 d) = xor_bytes k2 (xor_bytes k1 d).
Proof.
  unfold xor_bytes. rewrite !map_map. apply map_ext. intros b.
  rewrite (wrap_lxor 8 _ k1), (wrap_lxor 8 (wrap 8 (Z.lxor b k1)) k2), !wrap_idem, <- !wrap_lxor by lia.
  f_equal. rewrite !Z.lxor_assoc. f_equal. apply Z.lxor_comm.
Qed.

Lemma bytes_ok_xor k d : bytes_ok (xor_bytes k d).
Proof. apply Forall_map, Forall_true. intros b. by apply wrap_range. Qed.

(** The XOR passes commute, so the chain undoes itself. *)
Lemma xor_chain_bytes kfs : ∀ kf k raw, xor_chain kf kfs (xor_bytes k raw) = xor_bytes k (xor_chain kf kfs raw).
Proof. induction kfs as [|j t IH]; intros kf k raw; cbn [xor_chain]; [done|]. by rewrite xor_bytes_comm, IH. Qed.

Lemma xor_chain_involutive kfs : ∀ kf raw, bytes_ok raw → xor_chain kf kfs (xor_chain kf kfs raw) = raw.
Proof.
  induction kfs as [|k t IH]; intros kf raw Hr; cbn [xor_chain]; [done|].
  by rewrite !xor_chain_bytes, IH, xor_bytes_involutive.
Qed.

(** What the random source gives for a packet: the ranges of the [RandomNext] calls. *)
Definition id_random_ok (session_id : Z) (rnd : IdRandom) : Prop :=
  bytes_ok (id_kfs rnd) ∧ length (id_kfs rnd) = 4%nat ∧ 0x20 ≤ id_separator rnd ≤ 0x2F ∧ bytes_ok (id_pad1 rnd) ∧
  bytes_ok (id_pad2 rnd) ∧
  if session_id =? 0 then 0x80 ≤ byte_at (id_kfs rnd) 0 ∧ is_int128 (id_dummy rnd) else byte_at (id_kfs rnd) 0 < 0x80.

(** The bytes of a packet after the key bytes, before the XOR passes. *)
Definition id_text (kx number : Z) (rnd : IdRandom) : list Z :=
  Int128ToString number 10 ++ id_separator rnd ::
    (if 0 <? Z.rem kx 256 then id_pad1 rnd ++ [47] ++ id_pad2 rnd else []).

Lemma pack_text APP kx sid rnd : Transmission_Handshake_Pack_SessionId APP kx sid rnd =
  id_kfs rnd ++ xor_chain (key_kf APP) (id_kfs rnd) (id_text kx (if sid =? 0 then id_dummy rnd else sid) rnd).
Proof.
  unfold Transmission_Handshake_Pack_SessionId, id_text. cbv zeta. do 2 f_equal.
  case_match; rewrite <- ?app_assoc; done.
Qed.

Lemma id_text_bytes kx number sid rnd : is_int128 number → id_random_ok sid rnd → bytes_ok (id_text kx number rnd).
Proof.
  intros Hn (_ & _ & Hs & H1 & H2 & _). unfold id_text. apply Forall_app. split; [by apply Int128ToString_bytes|].
  constructor; [unfold is_uint; lia|]. case_match; [|done]. apply Forall_app. split; [done|].
  constructor; [unfold is_uint; lia|done].
Qed.

Lemma land_128 b : is_byte b → (Z.land b 128 =? 0) = (b <? 128).
Proof.
  intros Hb. assert (Hz : Z.of_nat (Z.to_nat b) = b) by (unfold is_uint in Hb; lia).
  rewrite <- Hz. assert (Hlt : (Z.to_nat b < 256)%nat) by (unfold is_uint in Hb; lia). clear Hz Hb. revert Hlt.
  generalize (Z.to_nat b). intros n Hn.
  assert (Forall (λ n, (Z.land (Z.of_nat n) 128 =? 0) = (Z.of_nat n <? 128)) (seq 0 256)) as Hall
    by (by apply (bool_decide_unpack _)).
  rewrite Forall_forall in Hall. apply Hall, elem_of_seq. lia.
Qed.

(** A packed id is unpacked to the same id; a packed zero is a dummy the receiver skips. *)
Lemma unpack_pack APP kx sid rnd : is_int128 sid → id_random_ok sid rnd →
  Transmission_Handshake_Unpack_SessionId APP (Transmission_Handshake_Pack_SessionId APP kx sid rnd) = (sid, sid =? 0).
Proof.
  intros Hsid Hrnd. pose proof Hrnd as (Hk & H4 & Hs & _ & _ & Hkf). rewrite pack_text.
  unfold Transmission_Handshake_Unpack_SessionId. rewrite length_app, H4.
  replace ((4 + _ <? 4)%nat) with false by (symmetry; apply Nat.ltb_ge; lia).
  rewrite byte_at_here by lia. rewrite land_128 by (by apply byte_at_range).
  destruct (Z.eqb_spec sid 0) as [->|H0].
  - replace (byte_at (id_kfs rnd) 0 <? 128) with false by (symmetry; apply Z.ltb_ge; lia). done.
  - replace (byte_at (id_kfs rnd) 0 <? 128) with true by (symmetry; apply Z.ltb_lt; lia). cbn [negb].
    rewrite take_app_length', drop_app_length', length_xor_chain by done.
    replace ((_ <? 1)%nat) with false
      by (symmetry; apply Nat.ltb_ge; unfold id_text; rewrite length_app; cbn [length]; lia).
    rewrite xor_chain_involutive by (by eapply id_text_bytes). unfold id_text. f_equal.
    apply Int128_print_parse; [done|lia|]. cbn [ends_number]. unfold digit_of.
    replace (48 <=? id_separator rnd) with false by (symmetry; apply Z.leb_gt; lia).
    replace (65 <=? id_separator rnd) with false by (symmetry; apply Z.leb_gt; lia).
    replace (97 <=? id_separator rnd) with false by (symmetry; apply Z.leb_gt; lia). done.
Qed.

Lemma receive_skips APP APP' kx kl kh draw rnds sid rnd rest :
  key_kf APP = key_kf APP' → (∀ i, id_random_ok 0 (rnds i)) → is_int128 sid → sid ≠ 0 → id_random_ok sid rnd →
  Transmission_Handshake_SessionId APP
    (Transmission_Handshake_Nop APP' kx kl kh draw rnds ++ Transmission_Handshake_Pack_SessionId APP' kx sid rnd :: rest)
  = (sid, rest).
Proof.
  intros Hkf Hz Hsid H0 Hrnd. unfold Transmission_Handshake_Nop. generalize (seq 0 (Z.to_nat (nop_rounds kl kh draw))).
  assert (Hpk : ∀ z r, Transmission_Handshake_Pack_SessionId APP' kx z r = Transmission_Handshake_Pack_SessionId APP kx z r).
  { intros z r. by rewrite !pack_text, Hkf. }
  intros l. induction l as [|i l IH]; cbn [map app Transmission_Handshake_SessionId]; rewrite Hpk, unpack_pack by done.
  - by destruct (Z.eqb_spec sid 0).
  - exact IH.
Qed.

(** ** The words *)
Lemma int128_range x : is_int128 (int128 x).
Proof.
  unfold is_int128, int128. pose proof (wrap_range 128 x ltac:(lia)) as Hw. unfold is_uint in Hw. cbv zeta.
  destruct (Z.leb_spec (2 ^ 127) (wrap 128 x)); lia.
Qed.

Lemma int128_mod x : ∃ k, int128 x = x + k * 2 ^ 128.
Proof.
  unfold int128, wrap. cbv zeta. pose proof (Z.div_mod x (2 ^ 128) ltac:(lia)) as Hd.
  case_match; [exists (- (x / 2 ^ 128) - 1) | exists (- (x / 2 ^ 128))]; lia.
Qed.

Lemma low64_OWORD low high : is_uint 64 low → is_uint 64 high → low64 (MAKE_OWORD low high) = low.
Proof.
  intros Hl Hh. rewrite MAKE_OWORD_spec by done. destruct (int128_mod (low + high * 2 ^ 64)) as [k ->].
  unfold low64, wrap. replace (low + high * 2 ^ 64 + k * 2 ^ 128) with (low + (high + k * 2 ^ 64) * 2 ^ 64) by lia.
  rewrite Z_mod_plus_full. by apply Z.mod_small.
Qed.

Lemma high64_OWORD low high : is_uint 64 low → is_uint 64 high → high64 (MAKE_OWORD low high) = high.
Proof.
  intros Hl Hh. rewrite MAKE_OWORD_spec by done. destruct (int128_mod (low + high * 2 ^ 64)) as [k ->].
  unfold high64, wrap. rewrite Z.shiftr_div_pow2 by lia.
  replace (low + high * 2 ^ 64 + k * 2 ^ 128) with (low + (high + k * 2 ^ 64) * 2 ^ 64) by lia.
  rewrite Z.div_add, (Z.div_small low), Z.add_0_l, Z_mod_plus_full by (done || lia). by apply Z.mod_small.
Qed.

Lemma wrap64_bound x : is_uint 64 (wrap 64 x).
Proof. by apply wrap_range. Qed.

(** The word as a sum of its fields. *)
Lemma EncodeWord_sum entropy magic bit0 policy : is_uint 48 magic →
  ∃ e, 0 ≤ e < 2 ^ 13 ∧
  EncodeWord entropy magic bit0 policy = magic * 2 ^ 16 + e * 8 + (if policy then 4 else 0) + 2 + Z.b2z bit0.
Proof.
  intros Hm. unfold EncodeWord. set (e := Z.shiftr (Z.land entropy 0xFFF8) 3).
  assert (He : Z.land entropy 0xFFF8 = Z.shiftl e 3).
  { subst e. rewrite <- Z.ldiff_ones_r by lia. apply Z.bits_inj'. intros n Hn.
    rewrite Z.ldiff_spec, !Z.land_spec, Z.testbit_ones_nonneg by lia.
    destruct (Z.ltb_spec n 3); [|by rewrite andb_true_r].
    assert (n = 0 ∨ n = 1 ∨ n = 2) as [->|[->| ->]] by lia; by rewrite !andb_false_r. }
  assert (Hb : 0 ≤ e < 2 ^ 13).
  { subst e. rewrite Z.shiftr_land. change (Z.shiftr 65528 3) with (Z.ones 13). rewrite Z.land_ones by lia.
    apply Z.mod_pos_bound. lia. }
  clearbody e. exists e. split; [done|]. rewrite He, wrap_small by (unfold is_uint in *; rewrite Z.shiftl_mul_pow2 by lia; lia).
  rewrite (lor_shift_add magic) by (rewrite Z.shiftl_mul_pow2 by lia; lia). rewrite Z.shiftl_mul_pow2 by lia.
  replace (magic * 2 ^ 16 + e * 2 ^ 3) with (Z.shiftl (magic * 2 ^ 13 + e) 3) by (rewrite Z.shiftl_mul_pow2 by lia; lia).
  rewrite <- !Z.lor_assoc. rewrite lor_shift_add by (by destruct policy, bit0). 
  replace (Z.lor (if policy then 4 else 0) _) with ((if policy then 4 else 0) + 2 + Z.b2z bit0) by (by destruct policy, bit0).
  lia.
Qed.

Lemma land_low8 q r k : 0 ≤ r < 8 → Z.land 7 k = k → Z.land (q * 8 + r) k = Z.land r k.
Proof.
  intros Hr Hk. rewrite <- Hk at 1. rewrite Z.land_assoc. change 7 with (Z.ones 3). rewrite Z.land_ones by lia.
  change (2 ^ 3) with 8. by rewrite Z.add_comm, Z_mod_plus_full, Z.mod_small by done.
Qed.

Lemma DecodeWord_spec entropy magic bit0 policy : is_uint 48 magic →
  let w := EncodeWord entropy magic bit0 policy in
  DecodeWord w magic = (true, policy) ∧ is_uint 64 w ∧ w mod 2 = Z.b2z bit0 ∧ w ≠ 0.
Proof.
  intros Hm. cbv zeta. destruct (EncodeWord_sum entropy magic bit0 policy Hm) as (e & He & ->). unfold is_uint in *.
  set (r := (if policy then 4 else 0) + 2 + Z.b2z bit0). assert (Hr : 0 ≤ r < 8) by (by destruct policy, bit0).
  set (w := _ + Z.b2z bit0). assert (Hw : w = (magic * 2 ^ 13 + e) * 8 + r) by (subst w r; lia). clearbody w.
  split_and!; [|lia..| |subst r; destruct policy, bit0; cbn in Hw; lia].
  - unfold DecodeWord. rewrite Z.shiftr_div_pow2 by lia.
    replace (w / 2 ^ 16) with magic by (apply (Z.div_unique _ _ _ (e * 8 + r)); lia).
    rewrite Z.eqb_refl. cbn [negb]. rewrite Hw, !land_low8 by done. by destruct policy, bit0.
  - rewrite Hw. replace (_ * 8 + r) with (r + (magic * 2 ^ 13 + e) * 4 * 2) by lia. rewrite Z_mod_plus_full.
    by destruct policy, bit0.
Qed.

(** The flags of a configuration as the number the canary carries. *)
Definition obfuscation_flags (APP : KeyConfig) : Z :=
  Z.b2z (key_masked APP) + 2 * Z.b2z (key_plaintext APP) + 4 * Z.b2z (key_delta_encode APP) +
  8 * Z.b2z (key_shuffle_data APP).

Lemma FlagCanary_sum APP : Transmission_Handshake_FlagCanary APP =
  canary_magic + obfuscation_flags APP * 2 ^ 48 + (key_kf APP mod 2 ^ 12) * 2 ^ 52.
Proof.
  unfold Transmission_Handshake_FlagCanary. cbv zeta.
  set (flags := Z.lor _ (Z.shiftl (Z.b2z (key_shuffle_data APP)) 3)).
  assert (Hf : flags = obfuscation_flags APP ∧ 0 ≤ flags < 16).
  { subst flags. unfold obfuscation_flags.
    by destruct (key_masked APP), (key_plaintext APP), (key_delta_encode APP), (key_shuffle_data APP). }
  destruct Hf as [<- Hf]. clearbody flags. change 0xFFF with (Z.ones 12). rewrite Z.land_ones by lia.
  assert (Hk : wrap 32 (key_kf APP) mod 2 ^ 12 = key_kf APP mod 2 ^ 12).
  { unfold wrap. apply Z.mod_mod_divide. by exists (2 ^ 20). }
  rewrite Hk. pose proof (Z.mod_pos_bound (key_kf APP) (2 ^ 12) ltac:(lia)) as Hb. set (k := key_kf APP mod 2 ^ 12) in *.
  clearbody k. rewrite !wrap_small by (unfold is_uint; rewrite Z.shiftl_mul_pow2 by lia; lia).
  rewrite (lor_low_high 48) by (unfold is_uint, canary_magic; lia).
  rewrite (lor_low_high 52) by (unfold is_uint, canary_magic; lia). lia.
Qed.

Lemma FlagCanary_range APP : is_uint 64 (Transmission_Handshake_FlagCanary APP).
Proof.
  rewrite FlagCanary_sum. pose proof (Z.mod_pos_bound (key_kf APP) (2 ^ 12) ltac:(lia)) as Hb. unfold is_uint, canary_magic.
  assert (0 ≤ obfuscation_flags APP < 16); [|lia]. unfold obfuscation_flags.
  by destruct (key_masked APP), (key_plaintext APP), (key_delta_encode APP), (key_shuffle_data APP).
Qed.

Lemma FlagCanary_magic APP : Z.land (Transmission_Handshake_FlagCanary APP) kMagicMask = canary_magic.
Proof.
  rewrite FlagCanary_sum. change kMagicMask with (Z.ones 48). rewrite Z.land_ones by lia.
  replace (canary_magic + _ + _) with (canary_magic + (obfuscation_flags APP + key_kf APP mod 2 ^ 12 * 16) * 2 ^ 48) by lia.
  by rewrite Z_mod_plus_full.
Qed.

Lemma FlagCanary_inj A B : Transmission_Handshake_FlagCanary A = Transmission_Handshake_FlagCanary B ↔
  obfuscation_flags A = obfuscation_flags B ∧ key_kf A mod 2 ^ 12 = key_kf B mod 2 ^ 12.
Proof.
  rewrite !FlagCanary_sum.
  assert (Hb : ∀ C, 0 ≤ obfuscation_flags C < 16).
  { intros C. unfold obfuscation_flags.
    by destruct (key_masked C), (key_plaintext C), (key_delta_encode C), (key_shuffle_data C). }
  pose proof (Hb A). pose proof (Hb B). lia.
Qed.

Lemma obfuscation_flags_inj A B : obfuscation_flags A = obfuscation_flags B ↔
  (key_masked A, key_plaintext A, key_delta_encode A, key_shuffle_data A) =
  (key_masked B, key_plaintext B, key_delta_encode B, key_shuffle_data B).
Proof.
  unfold obfuscation_flags. split; [|by intros [= -> -> -> ->]].
  destruct (key_masked A), (key_plaintext A), (key_delta_encode A), (key_shuffle_data A),
    (key_masked B), (key_plaintext B), (key_delta_encode B), (key_shuffle_data B); cbn; intros; first [done | lia].
Qed.

Lemma client_nmux_spec APP entropy mux policy :
  let nmux := client_nmux APP entropy mux policy in
  is_int128 nmux ∧ nmux ≠ 0 ∧ DecodeClientNmux nmux = (true, policy) ∧ high64 nmux = Transmission_Handshake_FlagCanary APP ∧
  negb (Z.land nmux 1 =? 0) = mux.
Proof.
  cbv zeta. unfold client_nmux, EncodeClientNmux. pose proof (FlagCanary_range APP) as Hc.
  set (v := MAKE_OWORD entropy _). assert (Hh : high64 v = Transmission_Handshake_FlagCanary APP).
  { subst v. unfold MAKE_OWORD. rewrite <- (wrap_idem 64 entropy) by lia.
    change (int128 _) with (MAKE_OWORD (wrap 64 entropy) (Transmission_Handshake_FlagCanary APP)).
    by apply high64_OWORD; [apply wrap64_bound|]. }
  rewrite Hh. clearbody v. destruct (DecodeWord_spec (low64 v) ClientNmuxMagic mux policy ltac:(by apply (bool_decide_unpack _)))
    as (Hd & Hr & Hb & H0). set (w := EncodeWord _ _ _ _) in *. clearbody w.
  assert (Hlow : low64 (MAKE_OWORD w (Transmission_Handshake_FlagCanary APP)) = w) by (by apply low64_OWORD).
  split_and!.
  - apply int128_range.
  - intros Hz. rewrite Hz in Hlow. by vm_compute in Hlow.
  - unfold DecodeClientNmux. by rewrite Hlow.
  - by apply high64_OWORD.
  - set (n := MAKE_OWORD _ _) in *. unfold low64, wrap in Hlow. change 1 with (Z.ones 1). rewrite Z.land_ones by lia.
    change (2 ^ 1) with 2. rewrite <- (Z.mod_mod_divide n (2 ^ 64) 2), Hlow, Hb by (by exists (2 ^ 63)). by destruct mux.
Qed.

Lemma server_ivv_spec guid policy :
  let ivv := EncodeServerIvv guid policy in is_int128 ivv ∧ ivv ≠ 0 ∧ DecodeServerIvv ivv = (true, policy).
Proof.
  cbv zeta. unfold EncodeServerIvv. set (b := negb _).
  destruct (DecodeWord_spec (low64 guid) ServerIvvMagic b policy ltac:(by apply (bool_decide_unpack _))) as (Hd & Hr & Hb & H0).
  set (w := EncodeWord _ _ _ _) in *. clearbody w.
  assert (Hlow : low64 (MAKE_OWORD w (high64 guid)) = w) by (apply low64_OWORD; [done|apply wrap64_bound]).
  split_and!; [apply int128_range| |].
  - intros Hz. rewrite Hz in Hlow. by vm_compute in Hlow.
  - unfold DecodeServerIvv. by rewrite Hlow.
Qed.

(** Unparseable text is zero and numbers that do not fit saturate. *)
Example Int128_saturates :
  Int128FromString (Int128ToString (2 ^ 127 - 1) 10 ++ [48]) 10 = 2 ^ 127 - 1 ∧
  Int128FromString (Int128ToString (- 2 ^ 127) 10 ++ [48]) 10 = - 2 ^ 127 ∧ Int128FromString [45] 10 = 0 ∧
  Int128FromString [43; 122] 10 = 0.
Proof. by vm_compute. Qed.

(** ** The handshake *)

(** C14: a handshake between two ends with the same [key.kf], over packets delivered in order, with
    any number of dummy packets in front on each side and every draw in the range of its
    [RandomNext] call.  The client application always finishes and knows the server's transport
    authentication policy.  When the four obfuscation flags agree the server application finishes
    too, with the client's session id, multiplexing bit and policy, and both ends derive the same
    suffix for their session keys; when one flag differs the server application refuses. *)
Theorem handshake_agrees APPc APPs kxc kxs klc khc kls khs drawc draws rndc rnds sid entropy guid mux polc pols r1 r2 r3 :
  let nmux := client_nmux APPc entropy mux polc in
  let ivv := EncodeServerIvv guid pols in
  key_kf APPc = key_kf APPs → is_int128 sid → sid ≠ 0 → (∀ i, id_random_ok 0 (rndc i) ∧ id_random_ok 0 (rnds i)) →
  id_random_ok sid r1 → id_random_ok nmux r2 → id_random_ok ivv r3 →
  let from_client := Transmission_Handshake_Nop APPc kxc klc khc drawc rndc ++
    [Transmission_Handshake_Pack_SessionId APPc kxc sid r1; Transmission_Handshake_Pack_SessionId APPc kxc nmux r2] in
  let from_server := Transmission_Handshake_Nop APPs kxs kls khs draws rnds ++
    [Transmission_Handshake_Pack_SessionId APPs kxs ivv r3] in
  let finished enables := Some {| hs_peer_supports := true; hs_peer_enables := enables; hs_key_suffix := key_suffix ivv;
                                  hs_session := sid; hs_mux := mux |} in
  InternalHandshakeServer APPc sid mux from_server = finished pols ∧
  InternalHandshakeClient APPs guid pols from_client =
    (if bool_decide ((key_masked APPc, key_plaintext APPc, key_delta_encode APPc, key_shuffle_data APPc) =
                     (key_masked APPs, key_plaintext APPs, key_delta_encode APPs, key_shuffle_data APPs))
     then finished polc else None, Some ivv).
Proof.
  intros nmux ivv Hkf Hsid H0 Hrnd H1 H2 H3. cbv zeta.
  destruct (client_nmux_spec APPc entropy mux polc) as (Hn & Hn0 & Hnd & Hnh & Hnb). fold nmux in Hn, Hn0, Hnd, Hnh, Hnb.
  destruct (server_ivv_spec guid pols) as (Hi & Hi0 & Hid). fold ivv in Hi, Hi0, Hid.
  clearbody nmux. split.
  - unfold InternalHandshakeServer. rewrite (receive_skips APPc APPs kxs kls khs draws rnds ivv r3 [] Hkf (λ i, proj2 (Hrnd i)) Hi Hi0 H3).
    destruct (Z.eqb_spec ivv 0); [done|]. rewrite Hid. cbn [andb]. done.
  - unfold InternalHandshakeClient. fold ivv. 
    rewrite (receive_skips APPs APPc kxc klc khc drawc rndc sid r1 _ (eq_sym Hkf) (λ i, proj1 (Hrnd i)) Hsid H0 H1).
    destruct (Z.eqb_spec sid 0); [done|]. cbn [Transmission_Handshake_SessionId].
    assert (Transmission_Handshake_Unpack_SessionId APPs (Transmission_Handshake_Pack_SessionId APPc kxc nmux r2) = (nmux, nmux =? 0))
      as ->.
    { rewrite <- (unpack_pack APPs kxc nmux r2 Hn H2). by rewrite !pack_text, Hkf. }
    rewrite (proj2 (Z.eqb_neq nmux 0)) by done. rewrite (proj2 (Z.eqb_neq nmux 0)) by done.
    rewrite Hnd, Hnh, FlagCanary_magic, Z.eqb_refl, Hnb. cbn [andb].
    case_bool_decide as Hf.
    + rewrite (proj2 (FlagCanary_inj APPc APPs)) by (rewrite Hkf; split; [by apply obfuscation_flags_inj|done]).
      by rewrite Z.eqb_refl.
    + destruct (Z.eqb_spec (Transmission_Handshake_FlagCanary APPc) (Transmission_Handshake_FlagCanary APPs)) as [E|]; [|done].
      by apply FlagCanary_inj in E as [E%obfuscation_flags_inj _].
Qed.

Definition example_id (first : Z) : IdRandom :=
  {| id_kfs := [first; 17; 200; 3]; id_separator := 0x2A; id_pad1 := [66; 33]; id_pad2 := [49; 50; 51]; id_dummy := 2 ^ 126 |}.
Definition example_keys (shuffle : bool) : KeyConfig :=
  {| key_kf := 154543927; key_masked := true; key_plaintext := false; key_delta_encode := true; key_shuffle_data := shuffle |}.

Lemma example_id_ok sid first : is_byte first → (if sid =? 0 then 0x80 ≤ first else first < 0x80) → id_random_ok sid (example_id first).
Proof.
  intros Hb Hf. unfold id_random_ok, example_id. cbn [id_kfs id_separator id_pad1 id_pad2 id_dummy].
  assert (∀ l : list Z, bool_decide (bytes_ok l) = true → bytes_ok l) as Hd by (intros l; apply bool_decide_eq_true_1).
  split_and!; try done; try lia; try (by apply Hd).
  - constructor; [done|]. by apply Hd.
  - destruct (sid =? 0); [|done]. split; [done|]. unfold is_int128. lia.
Qed.

Lemma handshake_agrees_witness :
  let nmux := client_nmux (example_keys true) 0x123456789 true false in
  let ivv := EncodeServerIvv (2 ^ 90 + 5) true in
  let sent_to_server := Transmission_Handshake_Nop (example_keys true) 7 10 12 (λ lo _, lo) (λ _, example_id 0x91) ++
    [Transmission_Handshake_Pack_SessionId (example_keys true) 7 (- 42) (example_id 5);
     Transmission_Handshake_Pack_SessionId (example_keys true) 7 nmux (example_id 6)] in
  InternalHandshakeClient (example_keys true) (2 ^ 90 + 5) true sent_to_server =
    (Some {| hs_peer_supports := true; hs_peer_enables := false; hs_key_suffix := key_suffix ivv; hs_session := - 42;
             hs_mux := true |}, Some ivv) ∧
  InternalHandshakeClient (example_keys false) (2 ^ 90 + 5) true sent_to_server = (None, Some ivv).
Proof.
  cbv zeta. split.
  - destruct (handshake_agrees (example_keys true) (example_keys true) 7 0 10 12 3 3 (λ lo _, lo) (λ lo _, lo)
      (λ _, example_id 0x91) (λ _, example_id 0x91) (- 42) 0x123456789 (2 ^ 90 + 5) true false true
      (example_id 5) (example_id 6) (example_id 8) eq_refl) as [_ H];
    [unfold is_int128; lia | lia | intros _; split; apply example_id_ok; by vm_compute | apply example_id_ok; by vm_compute.. |].
    rewrite H. rewrite (bool_decide_eq_true_2 _ eq_refl). reflexivity.
  - destruct (handshake_agrees (example_keys true) (example_keys false) 7 0 10 12 3 3 (λ lo _, lo) (λ lo _, lo)
      (λ _, example_id 0x91) (λ _, example_id 0x91) (- 42) 0x123456789 (2 ^ 90 + 5) true false true
      (example_id 5) (example_id 6) (example_id 8) eq_refl) as [_ H];
    [unfold is_int128; lia | lia | intros _; split; apply example_id_ok; by vm_compute | apply example_id_ok; by vm_compute.. |].
    rewrite H. rewrite bool_decide_eq_false_2 by (intros [=]). reflexivity.
Defined.
