(* ===== verification/NoisePsk.v ===== *)
(** * The Noise handshake of authenticated carriers

    [ppp/cryptography/noise/NoisePsk.cpp]: a two-message Noise_NNpsk0 handshake.  The initiator (the
    client) and the responder (the server) mix the pre-shared key, a canonical prologue and two
    ephemeral keys into a symmetric state, authenticate each message with an empty AEAD payload, and
    export a secret from which confirmations and bindings are derived.  SHA-256, HMAC, ChaCha20-Poly1305
    and X25519 are OpenSSL's: they are the class [NoiseCrypto], and what the handshake relies on of
    them is [NoiseLaws].  A [Secret32] is an [option]: cleansed bytes are [None], and a cleansed array
    is thirty-two zeros. *)

From S2P Require Import Prelude.

(** ** The primitives *)
Class NoiseCrypto := {
  sha256 : list Z → option (list Z);
  hmac_sha256 : list Z → list Z → option (list Z);
  (** The tag of an empty plaintext under a key, a nonce and associated data. *)
  aead_tag : list Z → list Z → list Z → option (list Z);
  aead_open : list Z → list Z → list Z → list Z → bool;
  x25519_public : list Z → option (list Z);
  x25519_derive : list Z → list Z → option (list Z);
}.

Definition NoiseHandshakeMessageSize : nat := 48.
Definition NoiseKeyIdMaxSize : nat := 64.
Definition NoiseSessionIdSize : nat := 16.
Definition cleansed : list Z := replicate 32 0.

Definition IsAllZero (data : list Z) : bool := foldl Z.lor 0 data =? 0.

(** [BuildNoiseNonce]: four zero bytes, then the counter little-endian. *)
Definition BuildNoiseNonce (value : Z) : list Z := [0; 0; 0; 0] ++ rev (be_bytes 8 value).

Inductive NoiseCarrier := CarrierTcp | CarrierWebSocket.
Definition carrier_byte (c : NoiseCarrier) : Z := match c with CarrierTcp => 1 | CarrierWebSocket => 2 end.
Inductive HandshakeRole := NetworkClientInitiator | NetworkServerResponder.
Inductive BindingPurpose := SessionResumeRetainedRootV1 | SessionResumeCandidateV1 | P2PWrapV1 | P2PWrapV2.
Inductive NoiseState :=
  | NoiseInvalid | NoiseInitial | InitiatorAwaitingMessage2 | ResponderReadyForMessage2 | NoiseComplete
  | NoiseResultTaken | NoiseFailed.

#[global] Instance HandshakeRole_eq_dec : EqDecision HandshakeRole.
Proof. solve_decision. Defined.
#[global] Instance NoiseState_eq_dec : EqDecision NoiseState.
Proof. solve_decision. Defined.
#[global] Instance BindingPurpose_eq_dec : EqDecision BindingPurpose.
Proof. solve_decision. Defined.

(** Characters of the labels. *)
Fixpoint ascii_bytes (s : string) : list Z :=
  match s with EmptyString => [] | String a t => Z.of_N (Ascii.N_of_ascii a) :: ascii_bytes t end.

Definition ProtocolName : list Z := ascii_bytes "Noise_NNpsk0_25519_ChaChaPoly_SHA256".
Definition PrologueDomain : list Z := ascii_bytes "openppp2-noise-handshake".
Definition PrologueMethod : list Z := ascii_bytes "noise-psk-v1".
Definition ClientProofDomain : list Z := ascii_bytes "openppp2-noise-client-success-v1".
Definition BindingDomain : list Z := ascii_bytes "openppp2-noise-binding-v1".
Definition PurposeLabel (purpose : BindingPurpose) : list Z :=
  ascii_bytes match purpose with
              | SessionResumeRetainedRootV1 => "SessionResumeRetainedRootV1"
              | SessionResumeCandidateV1 => "SessionResumeCandidateV1"
              | P2PWrapV1 => "P2PWrapV1"
              | P2PWrapV2 => "P2PWrapV2"
              end.

(** [BuildCanonicalPrologue]. *)
Definition BuildCanonicalPrologue (carrier : NoiseCarrier) (session_id key_id : list Z) : option (list Z) :=
  if (length key_id =? 0)%nat || (NoiseKeyIdMaxSize <? length key_id)%nat then None else
  Some ([Z.of_nat (length PrologueDomain)] ++ PrologueDomain ++ [carrier_byte carrier; 0; 1] ++
        [Z.of_nat (length PrologueMethod)] ++ PrologueMethod ++ session_id ++
        [Z.of_nat (length key_id)] ++ key_id).

(** ** The handshake object *)
Record NoisePskHandshake := mkNoise {
  np_role : HandshakeRole;
  np_state : NoiseState;
  np_psk : option (list Z);
  np_deterministic : option (list Z);
  np_chaining_key : list Z;
  np_handshake_hash : list Z;
  np_cipher_key : list Z;
  np_ephemeral_private : list Z;
  np_ephemeral_public : list Z;
  np_remote_ephemeral_public : list Z;
  np_exporter : option (list Z);
  np_nonce : Z;
  np_has_cipher_key : bool;
  np_has_ephemeral : bool;
  np_has_remote_ephemeral : bool;
}.

(** The fields the symmetric operations write. *)
Definition set_symmetric (s : NoisePskHandshake) (ck h k : list Z) (nonce : Z) (has_key : bool) : NoisePskHandshake :=
  mkNoise (np_role s) (np_state s) (np_psk s) (np_deterministic s) ck h k (np_ephemeral_private s)
    (np_ephemeral_public s) (np_remote_ephemeral_public s) (np_exporter s) nonce has_key (np_has_ephemeral s)
    (np_has_remote_ephemeral s).
Definition set_np_state (s : NoisePskHandshake) (st : NoiseState) : NoisePskHandshake :=
  mkNoise (np_role s) st (np_psk s) (np_deterministic s) (np_chaining_key s) (np_handshake_hash s) (np_cipher_key s)
    (np_ephemeral_private s) (np_ephemeral_public s) (np_remote_ephemeral_public s) (np_exporter s) (np_nonce s)
    (np_has_cipher_key s) (np_has_ephemeral s) (np_has_remote_ephemeral s).
Definition set_np_psk (s : NoisePskHandshake) (psk : option (list Z)) : NoisePskHandshake :=
  mkNoise (np_role s) (np_state s) psk (np_deterministic s) (np_chaining_key s) (np_handshake_hash s) (np_cipher_key s)
    (np_ephemeral_private s) (np_ephemeral_public s) (np_remote_ephemeral_public s) (np_exporter s) (np_nonce s)
    (np_has_cipher_key s) (np_has_ephemeral s) (np_has_remote_ephemeral s).
Definition set_ephemeral (s : NoisePskHandshake) (det : option (list Z)) (priv pub : list Z) (has : bool) : NoisePskHandshake :=
  mkNoise (np_role s) (np_state s) (np_psk s) det (np_chaining_key s) (np_handshake_hash s) (np_cipher_key s)
    priv pub (np_remote_ephemeral_public s) (np_exporter s) (np_nonce s) (np_has_cipher_key s) has
    (np_has_remote_ephemeral s).
Definition set_remote (s : NoisePskHandshake) (re : list Z) : NoisePskHandshake :=
  mkNoise (np_role s) (np_state s) (np_psk s) (np_deterministic s) (np_chaining_key s) (np_handshake_hash s)
    (np_cipher_key s) (np_ephemeral_private s) (np_ephemeral_public s) re (np_exporter s) (np_nonce s)
    (np_has_cipher_key s) (np_has_ephemeral s) true.

(** [ClearSecrets], [Fail] and [Clear]. *)
Definition ClearSecrets (s : NoisePskHandshake) : NoisePskHandshake :=
  mkNoise (np_role s) (np_state s) None None cleansed (np_handshake_hash s) cleansed cleansed cleansed cleansed
    (np_exporter s) 0 false false false.
Definition wipe (s : NoisePskHandshake) (st : NoiseState) : NoisePskHandshake :=
  mkNoise (np_role s) st None None cleansed cleansed cleansed cleansed cleansed cleansed None 0 false false false.
Definition Noise_Fail (s : NoisePskHandshake) : NoisePskHandshake := wipe s NoiseFailed.
Definition Noise_Clear (s : NoisePskHandshake) : NoisePskHandshake := wipe s NoiseInvalid.

Definition Noise_IsValid (s : NoisePskHandshake) : bool :=
  match np_state s with NoiseInvalid | NoiseFailed => false | _ => true end.
Definition Noise_IsComplete (s : NoisePskHandshake) : bool := bool_decide (np_state s = NoiseComplete).

(** A step answers whether it succeeded; [f >&& g] is the short-circuit conjunction. *)
Abbreviation noise_step := (NoisePskHandshake → bool * NoisePskHandshake).
Definition and_then (f g : noise_step) : noise_step := λ s, let '(ok, s) := f s in if ok then g s else (false, s).
Notation "f >&& g" := (and_then f g) (at level 65, right associativity).

Section Handshake.
Context `{NoiseCrypto}.

(** [NoiseHkdf] with two or three outputs. *)
Definition NoiseHkdf (chaining_key input : list Z) (output_count : nat) : option (list Z * list Z * list Z) :=
  if negb ((output_count =? 2)%nat || (output_count =? 3)%nat) then None else
  temporary_key ← hmac_sha256 chaining_key input;
  output1 ← hmac_sha256 temporary_key [1];
  output2 ← hmac_sha256 temporary_key (output1 ++ [2]);
  if (output_count =? 2)%nat then Some (output1, output2, cleansed) else
  output3 ← hmac_sha256 temporary_key (output2 ++ [3]);
  Some (output1, output2, output3).

Definition MixHash (data : list Z) : noise_step := λ s,
  match sha256 (np_handshake_hash s ++ data) with
  | None => (false, s)
  | Some mixed => (true, set_symmetric s (np_chaining_key s) mixed (np_cipher_key s) (np_nonce s) (np_has_cipher_key s))
  end.

Definition MixKey (input : list Z) : noise_step := λ s,
  match NoiseHkdf (np_chaining_key s) input 2 with
  | None => (false, s)
  | Some (first, second, _) => (true, set_symmetric s first (np_handshake_hash s) second 0 true)
  end.

Definition MixKeyAndHash (input : list Z) : noise_step := λ s,
  match NoiseHkdf (np_chaining_key s) input 3 with
  | None => (false, s)
  | Some (first, second, third) =>
      let s := set_symmetric s first (np_handshake_hash s) (np_cipher_key s) (np_nonce s) (np_has_cipher_key s) in
      let '(ok, s) := MixHash second s in
      if ok then (true, set_symmetric s (np_chaining_key s) (np_handshake_hash s) third 0 true) else (false, s)
  end.

Definition ProcessPsk : noise_step := λ s,
  match np_psk s with
  | None => (false, s)
  | Some psk => let '(ok, s) := MixKeyAndHash psk s in (ok, set_np_psk s None)
  end.

Definition advance_nonce (s : NoisePskHandshake) : NoisePskHandshake :=
  set_symmetric s (np_chaining_key s) (np_handshake_hash s) (np_cipher_key s) (np_nonce s +[64] 1) (np_has_cipher_key s).

(** [EncryptEmpty]: the tag, when everything succeeded. *)
Definition EncryptEmpty (s : NoisePskHandshake) : option (list Z) * NoisePskHandshake :=
  if negb (np_has_cipher_key s) || (np_nonce s =? UINT64_MAX) then (None, s) else
  match aead_tag (np_cipher_key s) (BuildNoiseNonce (np_nonce s)) (np_handshake_hash s) with
  | None => (None, s)
  | Some tag => let '(ok, s) := MixHash tag (advance_nonce s) in (if ok then Some tag else None, s)
  end.

Definition DecryptEmpty (tag : list Z) : noise_step := λ s,
  if negb (np_has_cipher_key s) || (np_nonce s =? UINT64_MAX) then (false, s) else
  if negb (aead_open (np_cipher_key s) (BuildNoiseNonce (np_nonce s)) (np_handshake_hash s) tag) then (false, s) else
  MixHash tag (advance_nonce s).

(** [GenerateEphemeral]: [draw] is the raw private key of EVP's key generation. *)
Definition GenerateEphemeral (draw : option (list Z)) : noise_step := λ s,
  if np_has_ephemeral s then (false, s) else
  let key := match np_deterministic s with Some d => Some d | None => draw end in
  match key ≫= λ priv, pub ← x25519_public priv; Some (priv, pub) with
  | None => (false, set_ephemeral s None cleansed cleansed false)
  | Some (priv, pub) => (true, set_ephemeral s None priv pub true)
  end.

Definition Dh (remote_public : list Z) (s : NoisePskHandshake) : option (list Z) :=
  if negb (np_has_ephemeral s) || IsAllZero remote_public then None else
  output ← x25519_derive (np_ephemeral_private s) remote_public;
  if IsAllZero output then None else Some output.

(** [Finish]: the third output of the split is the exporter. *)
Definition Noise_Finish : noise_step := λ s,
  match NoiseHkdf (np_chaining_key s) [] 3 with
  | None => (false, s)
  | Some (_, _, exporter) =>
      let s := mkNoise (np_role s) NoiseComplete (np_psk s) (np_deterministic s) (np_chaining_key s) (np_handshake_hash s)
        (np_cipher_key s) (np_ephemeral_private s) (np_ephemeral_public s) (np_remote_ephemeral_public s) (Some exporter)
        (np_nonce s) (np_has_cipher_key s) (np_has_ephemeral s) (np_has_remote_ephemeral s) in
      (true, ClearSecrets s)
  end.

(** [Initialize] and the constructor. *)
Definition Noise_Initialize (prologue : list Z) : noise_step := λ s,
  match sha256 ProtocolName with
  | None => (false, s)
  | Some initialized =>
      let '(ok, s) := MixHash prologue (set_symmetric s initialized initialized (np_cipher_key s) 0 false) in
      if ok then (true, set_np_state s NoiseInitial) else (false, s)
  end.

Definition NoisePskHandshake_new (role : HandshakeRole) (psk : option (list Z)) (prologue : list Z) : NoisePskHandshake :=
  let s := mkNoise role NoiseInvalid psk None cleansed cleansed cleansed cleansed cleansed cleansed None 0 false false false in
  match psk with
  | None => Noise_Fail s
  | Some _ => let '(ok, s) := Noise_Initialize prologue s in if ok then s else Noise_Fail s
  end.

Definition SetDeterministicEphemeralPrivateKeyForTesting (private_key : option (list Z)) : noise_step := λ s,
  match private_key with
  | None => (false, s)
  | Some key =>
      if negb (bool_decide (np_state s = NoiseInitial)) || bool_decide (is_Some (np_deterministic s)) || IsAllZero key
      then (false, s)
      else (true, set_ephemeral s (Some key) (np_ephemeral_private s) (np_ephemeral_public s) (np_has_ephemeral s))
  end.

(** ** The messages *)
Definition WriteMessage1 (draw : option (list Z)) (s : NoisePskHandshake) : option (list Z) * NoisePskHandshake :=
  if negb (bool_decide (np_role s = NetworkClientInitiator)) || negb (bool_decide (np_state s = NoiseInitial)) then (None, s) else
  let '(ok, s) := (ProcessPsk >&& GenerateEphemeral draw >&& (λ s, MixHash (np_ephemeral_public s) s) >&&
                   (λ s, MixKey (np_ephemeral_public s) s)) s in
  if negb ok then (None, Noise_Fail s) else
  match EncryptEmpty s with
  | (None, s) => (None, Noise_Fail s)
  | (Some tag, s) => (Some (np_ephemeral_public s ++ tag), set_np_state s InitiatorAwaitingMessage2)
  end.

Definition ReadMessage1 (message : list Z) : noise_step := λ s,
  if negb (bool_decide (np_role s = NetworkServerResponder)) || negb (bool_decide (np_state s = NoiseInitial)) then (false, s) else
  if negb (length message =? NoiseHandshakeMessageSize)%nat then (false, Noise_Fail s) else
  let re := take 32 message in
  if IsAllZero re then (false, Noise_Fail s) else
  let '(ok, s) := (ProcessPsk >&& MixHash re >&& MixKey re >&& DecryptEmpty (drop 32 message)) (set_remote s re) in
  if negb ok then (false, Noise_Fail s) else (true, set_np_state s ResponderReadyForMessage2).

Definition WriteMessage2 (draw : option (list Z)) (s : NoisePskHandshake) : option (list Z) * NoisePskHandshake :=
  if negb (bool_decide (np_role s = NetworkServerResponder)) || negb (bool_decide (np_state s = ResponderReadyForMessage2)) ||
     negb (np_has_remote_ephemeral s) then (None, s) else
  let '(ok, s) := (GenerateEphemeral draw >&& (λ s, MixHash (np_ephemeral_public s) s) >&&
                   (λ s, MixKey (np_ephemeral_public s) s)) s in
  if negb ok then (None, Noise_Fail s) else
  match Dh (np_remote_ephemeral_public s) s with
  | None => (None, Noise_Fail s)
  | Some shared =>
      let '(ok, s) := MixKey shared s in
      if negb ok then (None, Noise_Fail s) else
      match EncryptEmpty s with
      | (None, s) => (None, Noise_Fail s)
      | (Some tag, s) =>
          let output := np_ephemeral_public s ++ tag in
          let '(ok, s) := Noise_Finish s in
          if ok then (Some output, s) else (None, Noise_Fail s)
      end
  end.

Definition ReadMessage2 (message : list Z) : noise_step := λ s,
  if negb (bool_decide (np_role s = NetworkClientInitiator)) || negb (bool_decide (np_state s = InitiatorAwaitingMessage2))
  then (false, s) else
  if negb (length message =? NoiseHandshakeMessageSize)%nat then (false, Noise_Fail s) else
  let re := take 32 message in
  let '(ok, s) := (MixHash re >&& MixKey re) (set_remote s re) in
  if negb ok then (false, Noise_Fail s) else
  match Dh re s with
  | None => (false, Noise_Fail s)
  | Some shared =>
      let '(ok, s) := (MixKey shared >&& DecryptEmpty (drop 32 message) >&& Noise_Finish) s in
      if ok then (true, s) else (false, Noise_Fail s)
  end.

(** ** The result *)
Record NoisePskHandshakeResult := mkNoiseResult {
  nr_exporter : option (list Z);
  nr_handshake_hash : list Z;
  nr_valid : bool;
}.

Definition TakeResult (s : NoisePskHandshake) (output : NoisePskHandshakeResult) :
  bool * NoisePskHandshakeResult * NoisePskHandshake :=
  match np_state s, np_exporter s with
  | NoiseComplete, Some exporter =>
      if nr_valid output then (false, output, s) else
      (true, mkNoiseResult (Some exporter) (np_handshake_hash s) true,
       mkNoise (np_role s) NoiseResultTaken (np_psk s) (np_deterministic s) (np_chaining_key s) cleansed (np_cipher_key s)
         (np_ephemeral_private s) (np_ephemeral_public s) (np_remote_ephemeral_public s) None (np_nonce s)
         (np_has_cipher_key s) (np_has_ephemeral s) (np_has_remote_ephemeral s))
  | _, _ => (false, output, s)
  end.

Definition GenerateClientSuccessConfirmationProof (r : NoisePskHandshakeResult) : option (list Z) :=
  if negb (nr_valid r) then None else
  exporter ← nr_exporter r; hmac_sha256 exporter (ClientProofDomain ++ nr_handshake_hash r).

Definition VerifyClientSuccessConfirmationProof (r : NoisePskHandshakeResult) (proof : list Z) : bool :=
  match GenerateClientSuccessConfirmationProof r with
  | Some expected => bool_decide (expected = proof)
  | None => false
  end.

Definition required_context_length (purpose : BindingPurpose) : nat :=
  match purpose with P2PWrapV1 => 113 | P2PWrapV2 => 145 | _ => 16 end.

(** The segments [DeriveBinding] feeds to HMAC. *)
Definition binding_input (purpose : BindingPurpose) (context hash : list Z) : list Z :=
  let label := PurposeLabel purpose in
  BindingDomain ++ be_bytes 8 (Z.of_nat (length label)) ++ label ++ be_bytes 8 (Z.of_nat (length context)) ++ context ++
  be_bytes 8 (Z.of_nat (length hash)) ++ hash.

(** [DeriveBinding]; [output_set] is whether the output secret already holds one. *)
Definition DeriveBinding (r : NoisePskHandshakeResult) (purpose : BindingPurpose) (context : list Z) (output_set : bool) :
  option (list Z) :=
  if negb (nr_valid r) || output_set then None else
  exporter ← nr_exporter r;
  if negb (length context =? required_context_length purpose)%nat then None else
  hmac_sha256 exporter (binding_input purpose context (nr_handshake_hash r)).

Definition TakeExporterSecret (r : NoisePskHandshakeResult) (output_set : bool) : option (list Z) * NoisePskHandshakeResult :=
  match nr_exporter r with
  | Some exporter => if negb (nr_valid r) || output_set then (None, r) else
                     (Some exporter, mkNoiseResult None (nr_handshake_hash r) (nr_valid r))
  | None => (None, r)
  end.

Definition Result_Clear (r : NoisePskHandshakeResult) : NoisePskHandshakeResult := mkNoiseResult None cleansed false.
End Handshake.

(** ** What the handshake relies on

    The hash and the MAC always answer with 32 bytes, a tag has 16 bytes and is the only one that
    opens, public keys have 32 bytes, and both ends of a key exchange derive the same secret. *)
Class NoiseLaws `{NoiseCrypto} := {
  sha256_total x : ∃ y, sha256 x = Some y ∧ length y = 32%nat;
  hmac_total k x : ∃ y, hmac_sha256 k x = Some y ∧ length y = 32%nat;
  aead_total k n ad : ∃ t, aead_tag k n ad = Some t ∧ length t = 16%nat;
  aead_open_tag k n ad t : aead_open k n ad t = true ↔ aead_tag k n ad = Some t;
  x25519_length p q : x25519_public p = Some q → length q = 32%nat;
  x25519_commutes a b A B : x25519_public a = Some A → x25519_public b = Some B → x25519_derive a B = x25519_derive b A;
}.

Section Proofs.
Context `{NoiseLaws}.

(** The primitives as total functions. *)
Definition sha (x : list Z) : list Z := default [] (sha256 x).
Definition mac (k x : list Z) : list Z := default [] (hmac_sha256 k x).
Definition tag_of (k n ad : list Z) : list Z := default [] (aead_tag k n ad).

Lemma sha_eq x : sha256 x = Some (sha x).
Proof. unfold sha. by destruct (sha256_total x) as (y & -> & _). Qed.
Lemma mac_eq k x : hmac_sha256 k x = Some (mac k x).
Proof. unfold mac. by destruct (hmac_total k x) as (y & -> & _). Qed.
Lemma tag_eq k n ad : aead_tag k n ad = Some (tag_of k n ad).
Proof. unfold tag_of. by destruct (aead_total k n ad) as (y & -> & _). Qed.
Lemma tag_length k n ad : length (tag_of k n ad) = 16%nat.
Proof. unfold tag_of. by destruct (aead_total k n ad) as (y & -> & ?). Qed.

Lemma open_tag k n ad t : aead_open k n ad t = bool_decide (t = tag_of k n ad).
Proof.
  apply eq_true_iff_eq. rewrite aead_open_tag, bool_decide_eq_true, tag_eq. split; [by intros [= ->]|by intros ->].
Qed.

(** The symmetric state: chaining key, hash, cipher key, nonce, whether there is a key. *)
Record symmetric := mkSym { y_ck : list Z; y_h : list Z; y_k : list Z; y_n : Z; y_has : bool }.
Definition sym (s : NoisePskHandshake) : symmetric :=
  mkSym (np_chaining_key s) (np_handshake_hash s) (np_cipher_key s) (np_nonce s) (np_has_cipher_key s).
Definition put (s : NoisePskHandshake) (y : symmetric) : NoisePskHandshake :=
  set_symmetric s (y_ck y) (y_h y) (y_k y) (y_n y) (y_has y).

(** The operations as functions of it. *)
Definition expand (ck input : list Z) : list Z * list Z * list Z :=
  let t := mac ck input in
  let o1 := mac t [1] in
  let o2 := mac t (o1 ++ [2]) in
  (o1, o2, mac t (o2 ++ [3])).
Definition mix_hash (d : list Z) (y : symmetric) : symmetric := mkSym (y_ck y) (sha (y_h y ++ d)) (y_k y) (y_n y) (y_has y).
Definition mix_key (d : list Z) (y : symmetric) : symmetric :=
  mkSym (expand (y_ck y) d).1.1 (y_h y) (expand (y_ck y) d).1.2 0 true.
Definition mix_psk (psk : list Z) (y : symmetric) : symmetric :=
  mkSym (expand (y_ck y) psk).1.1 (sha (y_h y ++ (expand (y_ck y) psk).1.2)) (expand (y_ck y) psk).2 0 true.
Definition sym_tag (y : symmetric) : list Z := tag_of (y_k y) (BuildNoiseNonce (y_n y)) (y_h y).
Definition next_nonce (y : symmetric) : symmetric := mkSym (y_ck y) (y_h y) (y_k y) (y_n y +[64] 1) (y_has y).

Lemma sym_put s y : sym (put s y) = y.
Proof. by destruct y. Qed.
Lemma put_put s y y' : put (put s y) y' = put s y'.
Proof. done. Qed.

Lemma hkdf3 ck d : NoiseHkdf ck d 3 = Some (expand ck d).
Proof. unfold NoiseHkdf, expand. cbn. by rewrite !mac_eq; cbn; rewrite !mac_eq; cbn; rewrite !mac_eq; cbn; rewrite mac_eq. Qed.
Lemma hkdf2 ck d : NoiseHkdf ck d 2 = Some ((expand ck d).1.1, (expand ck d).1.2, cleansed).
Proof. unfold NoiseHkdf, expand. cbn. by rewrite !mac_eq; cbn; rewrite !mac_eq; cbn; rewrite !mac_eq. Qed.

Lemma MixHash_put d s : MixHash d s = (true, put s (mix_hash d (sym s))).
Proof. unfold MixHash. by rewrite sha_eq. Qed.
Lemma MixKey_put d s : MixKey d s = (true, put s (mix_key d (sym s))).
Proof. unfold MixKey. by rewrite hkdf2. Qed.
Lemma ProcessPsk_put s psk : np_psk s = Some psk → ProcessPsk s = (true, set_np_psk (put s (mix_psk psk (sym s))) None).
Proof.
  intros Hp. unfold ProcessPsk. rewrite Hp. unfold MixKeyAndHash. rewrite hkdf3.
  destruct (expand (np_chaining_key s) psk) as [[o1 o2] o3] eqn:E. rewrite MixHash_put. cbn beta iota zeta.
  unfold mix_psk. cbn [y_ck y_h sym]. by rewrite E.
Qed.

Lemma EncryptEmpty_put s : y_has (sym s) = true → y_n (sym s) = 0 →
  EncryptEmpty s = (Some (sym_tag (sym s)), put s (mix_hash (sym_tag (sym s)) (next_nonce (sym s)))).
Proof. cbn [sym y_has y_n]. intros Hh Hn. unfold EncryptEmpty. rewrite Hh, Hn. cbn [negb orb Z.eqb]. by rewrite tag_eq, MixHash_put, <- Hn. Qed.

Lemma DecryptEmpty_put s tag : y_has (sym s) = true → y_n (sym s) = 0 →
  DecryptEmpty tag s =
    if bool_decide (tag = sym_tag (sym s)) then (true, put s (mix_hash tag (next_nonce (sym s)))) else (false, s).
Proof.
  cbn [sym y_has y_n]. intros Hh Hn. unfold DecryptEmpty. rewrite Hh, Hn. cbn [negb orb Z.eqb]. rewrite open_tag.
  unfold sym_tag. cbn [y_k y_n y_h sym]. rewrite Hn. case_bool_decide; [|done]. cbn [negb]. by rewrite MixHash_put.
Qed.

Lemma GenerateEphemeral_put s a e : np_has_ephemeral s = false → np_deterministic s = None → x25519_public a = Some e →
  GenerateEphemeral (Some a) s = (true, set_ephemeral s None a e true).
Proof. intros Hh Hd He. unfold GenerateEphemeral. rewrite Hh, Hd. cbn. by rewrite He. Qed.

(** ** Transcripts

    The symmetric state after each message, as a function of the inputs. *)
Definition transcript0 (prologue : list Z) : symmetric :=
  mix_hash prologue (mkSym (sha ProtocolName) (sha ProtocolName) cleansed 0 false).
Definition transcript1 (prologue psk e : list Z) : symmetric := mix_key e (mix_hash e (mix_psk psk (transcript0 prologue))).
Definition message1 (prologue psk e : list Z) : list Z := e ++ sym_tag (transcript1 prologue psk e).
Definition seal (y : symmetric) : symmetric := mix_hash (sym_tag y) (next_nonce y).
Definition transcript2 (prologue psk e re shared : list Z) : symmetric :=
  mix_key shared (mix_key re (mix_hash re (seal (transcript1 prologue psk e)))).
Definition message2 (prologue psk e re shared : list Z) : list Z := re ++ sym_tag (transcript2 prologue psk e re shared).
(** The final hash and the exporter. *)
Definition final_hash (prologue psk e re shared : list Z) : list Z := y_h (seal (transcript2 prologue psk e re shared)).
Definition final_exporter (prologue psk e re shared : list Z) : list Z := (expand (y_ck (transcript2 prologue psk e re shared)) []).2.

Lemma new_spec role psk prologue :
  NoisePskHandshake_new role (Some psk) prologue =
    put (mkNoise role NoiseInitial (Some psk) None cleansed cleansed cleansed cleansed cleansed cleansed None 0 false false false)
      (transcript0 prologue).
Proof. unfold NoisePskHandshake_new, Noise_Initialize. rewrite sha_eq, MixHash_put. done. Qed.

(** The initiator after its first message. *)
Definition awaiting (prologue psk a e : list Z) : NoisePskHandshake :=
  put (mkNoise NetworkClientInitiator InitiatorAwaitingMessage2 None None cleansed cleansed cleansed a e cleansed None 0 false
         true false) (seal (transcript1 prologue psk e)).

Lemma WriteMessage1_spec prologue psk a e : x25519_public a = Some e →
  WriteMessage1 (Some a) (NoisePskHandshake_new NetworkClientInitiator (Some psk) prologue) =
    (Some (message1 prologue psk e), awaiting prologue psk a e).
Proof.
  intros He. rewrite new_spec. unfold WriteMessage1. rewrite !bool_decide_eq_true_2 by done. cbn [negb orb].
  unfold and_then. rewrite (ProcessPsk_put _ psk) by done. rewrite sym_put.
  rewrite (GenerateEphemeral_put _ a e) by done. rewrite MixHash_put, MixKey_put. cbn [negb]. rewrite EncryptEmpty_put by done. done.
Qed.

(** The responder after the first message. *)
Definition ready (prologue psk e : list Z) : NoisePskHandshake :=
  put (mkNoise NetworkServerResponder ResponderReadyForMessage2 None None cleansed cleansed cleansed cleansed cleansed e None 0
         false false true) (seal (transcript1 prologue psk e)).

(** It accepts a 48-byte message exactly when the message is the one its own transcript gives for
    the ephemeral key in it. *)
Lemma ReadMessage1_spec prologue psk m :
  ReadMessage1 m (NoisePskHandshake_new NetworkServerResponder (Some psk) prologue) =
    let e := take 32 m in
    if bool_decide (IsAllZero e = false ∧ length m = 48%nat ∧ m = message1 prologue psk e) then (true, ready prologue psk e)
    else (false, Noise_Fail (NoisePskHandshake_new NetworkServerResponder (Some psk) prologue)).
Proof.
  rewrite new_spec. unfold ReadMessage1. rewrite !bool_decide_eq_true_2 by done. cbn [negb orb]. unfold NoiseHandshakeMessageSize.
  cbv zeta. destruct (Nat.eqb_spec (length m) 48) as [Hl|Hl]; cbn [negb].
  2: { by rewrite bool_decide_eq_false_2 by tauto. }
  destruct (IsAllZero (take 32 m)) eqn:Ez; [by rewrite bool_decide_eq_false_2 by (intros [? _]; done)|].
  unfold and_then. rewrite (ProcessPsk_put _ psk) by done. rewrite MixHash_put, MixKey_put. rewrite DecryptEmpty_put by done.
  set (e := take 32 m). assert (Hm : m = e ++ drop 32 m) by (symmetry; apply take_drop).
  match goal with |- context [bool_decide (drop 32 m = sym_tag ?y)] => change y with (transcript1 prologue psk e) end.
  case_bool_decide as Ht; cbn [negb].
  - rewrite bool_decide_eq_true_2; [|split; [done|]; split; [done|]; unfold message1; by rewrite <- Ht].
    by rewrite Ht.
  - rewrite bool_decide_eq_false_2; [done|]. intros (_ & _ & Hm2). apply Ht. rewrite Hm in Hm2. unfold message1 in Hm2.
    by apply app_inv_head in Hm2.
Qed.

(** A finished end: nothing but the hash and the exporter is left. *)
Definition finished (role : HandshakeRole) (h exporter : list Z) : NoisePskHandshake :=
  mkNoise role NoiseComplete None None cleansed h cleansed cleansed cleansed cleansed (Some exporter) 0 false false false.

(** The shared secret, when it is one. *)
Definition agreed (a re : list Z) : option (list Z) :=
  if IsAllZero re then None else
  output ← x25519_derive a re; if IsAllZero output then None else Some output.

Lemma Finish_put s : Noise_Finish s = (true, finished (np_role s) (np_handshake_hash s) (expand (np_chaining_key s) []).2).
Proof. unfold Noise_Finish. rewrite hkdf3. by destruct (expand (np_chaining_key s) []) as [[o1 o2] o3]. Qed.

Lemma Dh_agreed s re : np_has_ephemeral s = true → Dh re s = agreed (np_ephemeral_private s) re.
Proof. intros Hh. unfold Dh, agreed. by rewrite Hh. Qed.

Lemma WriteMessage2_spec prologue psk e b re shared : x25519_public b = Some re → agreed b e = Some shared →
  WriteMessage2 (Some b) (ready prologue psk e) =
    (Some (message2 prologue psk e re shared),
     finished NetworkServerResponder (final_hash prologue psk e re shared) (final_exporter prologue psk e re shared)).
Proof.
  intros Hb Hs. unfold WriteMessage2. rewrite !bool_decide_eq_true_2 by done.
  change (np_has_remote_ephemeral (ready prologue psk e)) with true. cbn [negb orb].
  unfold and_then. rewrite (GenerateEphemeral_put _ b re) by done. rewrite MixHash_put, MixKey_put. cbn [negb].
  rewrite Dh_agreed by done. cbn [np_remote_ephemeral_public np_ephemeral_private put set_symmetric set_ephemeral ready].
  rewrite Hs. rewrite MixKey_put. cbn [negb]. rewrite EncryptEmpty_put by done. rewrite Finish_put. done.
Qed.

(** The initiator accepts exactly the message its own transcript gives for the ephemeral key in it
    and the secret derived from that key. *)
Lemma ReadMessage2_spec prologue psk a e m :
  ReadMessage2 m (awaiting prologue psk a e) =
    let re := take 32 m in
    match agreed a re with
    | Some shared =>
        if bool_decide (length m = 48%nat ∧ m = message2 prologue psk e re shared)
        then (true, finished NetworkClientInitiator (final_hash prologue psk e re shared) (final_exporter prologue psk e re shared))
        else (false, Noise_Fail (awaiting prologue psk a e))
    | None => (false, Noise_Fail (awaiting prologue psk a e))
    end.
Proof.
  unfold ReadMessage2. rewrite !bool_decide_eq_true_2 by done. cbn [negb orb]. unfold NoiseHandshakeMessageSize. cbv zeta.
  destruct (Nat.eqb_spec (length m) 48) as [Hl|Hl]; cbn [negb].
  2: { destruct (agreed a (take 32 m)); [|done]. by rewrite bool_decide_eq_false_2 by tauto. }
  unfold and_then. rewrite MixHash_put, MixKey_put. cbn [negb]. rewrite Dh_agreed by done.
  change (np_ephemeral_private (put _ _)) with a.
  destruct (agreed a (take 32 m)) as [shared|]; [|done].
  rewrite MixKey_put. rewrite DecryptEmpty_put by done.
  set (re := take 32 m). assert (Hm : m = re ++ drop 32 m) by (symmetry; apply take_drop).
  match goal with |- context [bool_decide (drop 32 m = sym_tag ?y)] => change y with (transcript2 prologue psk e re shared) end.
  case_bool_decide as Ht.
  - rewrite bool_decide_eq_true_2; [|split; [done|]; unfold message2; by rewrite <- Ht].
    rewrite Finish_put, Ht. done.
  - rewrite bool_decide_eq_false_2; [done|]. intros (_ & Hm2). apply Ht. rewrite Hm in Hm2. unfold message2 in Hm2.
    by apply app_inv_head in Hm2.
Qed.

(** ** What the transcripts bind *)
Lemma sha_length x : length (sha x) = 32%nat.
Proof. unfold sha. by destruct (sha256_total x) as (y & -> & ?). Qed.

(** The ways two transcripts of the first message can have the same tag although their inputs
    differ: a collision of the AEAD tag, of SHA-256 or of HMAC at inputs the handshakes use. *)
Definition collides {A B} (f : A → B) (x y : A) : Prop := x ≠ y ∧ f x = f y.
Definition transcript_collision (prologue psk prologue' psk' e : list Z) : Prop :=
  let h0 := sha (sha ProtocolName ++ prologue) in
  let h0' := sha (sha ProtocolName ++ prologue') in
  let o := expand (sha ProtocolName) psk in
  let o' := expand (sha ProtocolName) psk' in
  let y := transcript1 prologue psk e in
  let y' := transcript1 prologue' psk' e in
  collides (λ x, tag_of x.1 (BuildNoiseNonce 0) x.2) (y_k y, y_h y) (y_k y', y_h y') ∨
  collides sha (sha (h0 ++ o.1.2) ++ e) (sha (h0' ++ o'.1.2) ++ e) ∨
  collides sha (h0 ++ o.1.2) (h0' ++ o'.1.2) ∨
  collides sha (sha ProtocolName ++ prologue) (sha ProtocolName ++ prologue') ∨
  collides (λ x, mac x.1 x.2) (mac (sha ProtocolName) psk, o.1.1 ++ [2]) (mac (sha ProtocolName) psk', o'.1.1 ++ [2]) ∨
  collides (mac (sha ProtocolName)) psk psk'.

Lemma collides_or {A B} `{!EqDecision A} (f : A → B) x y : f x = f y → x = y ∨ collides f x y.
Proof. intros Hf. destruct (decide (x = y)); [by left|by right]. Qed.

Lemma transcript1_binds prologue psk prologue' psk' e :
  sym_tag (transcript1 prologue psk e) = sym_tag (transcript1 prologue' psk' e) →
  (prologue = prologue' ∧ psk = psk') ∨ transcript_collision prologue psk prologue' psk' e.
Proof.
  intros Ht. unfold transcript_collision. cbv zeta.
  destruct (collides_or (λ x, tag_of x.1 (BuildNoiseNonce 0) x.2)
    (y_k (transcript1 prologue psk e), y_h (transcript1 prologue psk e))
    (y_k (transcript1 prologue' psk' e), y_h (transcript1 prologue' psk' e)) Ht) as [E|]; [|tauto].
  apply (f_equal snd) in E. cbn [snd] in E.
  change (sha (sha (sha (sha ProtocolName ++ prologue) ++ (expand (sha ProtocolName) psk).1.2) ++ e) =
          sha (sha (sha (sha ProtocolName ++ prologue') ++ (expand (sha ProtocolName) psk').1.2) ++ e)) in E.
  apply collides_or in E as [E|]; [|tauto]. apply app_inv_tail in E.
  apply collides_or in E as [E|]; [|tauto].
  apply app_inj_1 in E as [E1 E2]; [|by rewrite !sha_length].
  apply collides_or in E1 as [E1|]; [|tauto]. apply app_inv_head in E1.
  change (mac (mac (sha ProtocolName) psk) ((expand (sha ProtocolName) psk).1.1 ++ [2]) =
          mac (mac (sha ProtocolName) psk') ((expand (sha ProtocolName) psk').1.1 ++ [2])) in E2.
  destruct (collides_or (λ x, mac x.1 x.2) (mac (sha ProtocolName) psk, (expand (sha ProtocolName) psk).1.1 ++ [2])
    (mac (sha ProtocolName) psk', (expand (sha ProtocolName) psk').1.1 ++ [2]) E2) as [E3|]; [|tauto].
  apply (f_equal fst) in E3. cbn [fst] in E3. apply collides_or in E3 as [->|]; tauto.
Qed.

Lemma prologue_injective c sid kid c' sid' kid' p : length sid = 16%nat → length sid' = 16%nat →
  BuildCanonicalPrologue c sid kid = Some p → BuildCanonicalPrologue c' sid' kid' = Some p → c = c' ∧ sid = sid' ∧ kid = kid'.
Proof.
  intros Hs Hs'. unfold BuildCanonicalPrologue. do 2 (case_match; [done|]). intros [= <-] [= Hc Hr].
  apply app_inj_1 in Hr as [-> Hk]; [|by rewrite Hs, Hs']. injection Hk as _ ->. by destruct c, c'.
Qed.

Lemma be8_length_inj (a b : list Z) : Z.of_nat (length a) < 2 ^ 64 → Z.of_nat (length b) < 2 ^ 64 →
  be_bytes 8 (Z.of_nat (length a)) = be_bytes 8 (Z.of_nat (length b)) → length a = length b.
Proof.
  intros Ha Hb E. apply (f_equal be_value) in E. rewrite !be_value_bytes in E by (unfold is_uint; lia). lia.
Qed.

(** Length-prefixed fields are recovered from the concatenation. *)
Lemma field_inj (a b r r' : list Z) : Z.of_nat (length a) < 2 ^ 64 → Z.of_nat (length b) < 2 ^ 64 →
  be_bytes 8 (Z.of_nat (length a)) ++ a ++ r = be_bytes 8 (Z.of_nat (length b)) ++ b ++ r' → a = b ∧ r = r'.
Proof.
  intros Ha Hb E. apply app_inj_1 in E as [E1 E2]; [|by rewrite !length_be_bytes].
  apply app_inj_1 in E2; [done|]. by apply be8_length_inj.
Qed.

Lemma binding_input_injective p c h p' c' h' :
  Z.of_nat (length c) < 2 ^ 64 → Z.of_nat (length c') < 2 ^ 64 → Z.of_nat (length h) < 2 ^ 64 → Z.of_nat (length h') < 2 ^ 64 →
  binding_input p c h = binding_input p' c' h' → p = p' ∧ c = c' ∧ h = h'.
Proof.
  intros Hc Hc' Hh Hh' E. unfold binding_input in E. cbv zeta in E. apply app_inv_head in E.
  apply field_inj in E as [El E]; [|by destruct p|by destruct p'].
  apply field_inj in E as [-> E]; [|done..].
  rewrite <- (app_nil_r h), <- (app_nil_r h') in E. rewrite !length_app, !Nat.add_0_r in E.
  apply field_inj in E as [-> _]; [|done..]. split; [|done]. by destruct p, p'.
Qed.

(** What each end accepts. *)
Lemma ReadMessage1_accepts prologue psk m :
  (ReadMessage1 m (NoisePskHandshake_new NetworkServerResponder (Some psk) prologue)).1 = true ↔
  ∃ key, length key = 32%nat ∧ IsAllZero key = false ∧ m = message1 prologue psk key.
Proof.
  rewrite ReadMessage1_spec. cbv zeta. split.
  - case_bool_decide as Ha; [|done]. intros _. destruct Ha as (Hz & Hl & Hm). exists (take 32 m).
    split; [rewrite length_take; lia|]. split; [done|exact Hm].
  - intros (key & Hl & Hz & ->). assert (Ht : take 32 (message1 prologue psk key) = key) by (apply take_app_length'; by rewrite Hl).
    rewrite Ht, bool_decide_eq_true_2; [done|]. split_and!; [done| |done].
    unfold message1, sym_tag. by rewrite length_app, tag_length, Hl.
Qed.

Lemma ReadMessage2_accepts prologue psk a e m :
  (ReadMessage2 m (awaiting prologue psk a e)).1 = true ↔
  ∃ re shared, length re = 32%nat ∧ agreed a re = Some shared ∧ m = message2 prologue psk e re shared.
Proof.
  rewrite ReadMessage2_spec. cbv zeta. split.
  - destruct (agreed a (take 32 m)) as [shared|] eqn:Ea; [|done]. case_bool_decide as Hm; [|done]. intros _. destruct Hm as [Hl Hm].
    exists (take 32 m), shared. split; [rewrite length_take; lia|]. split; [done|exact Hm].
  - intros (re & shared & Hl & Ha & ->).
    assert (Ht : take 32 (message2 prologue psk e re shared) = re) by (apply take_app_length'; by rewrite Hl).
    rewrite Ht, Ha, bool_decide_eq_true_2; [done|]. split; [|done].
    unfold message2, sym_tag. by rewrite length_app, tag_length, Hl.
Qed.

Lemma DeriveBinding_some r purpose context output_set :
  is_Some (DeriveBinding r purpose context output_set) ↔
  nr_valid r = true ∧ output_set = false ∧ is_Some (nr_exporter r) ∧ length context = required_context_length purpose.
Proof.
  unfold DeriveBinding. destruct (nr_valid r), output_set; cbn [negb orb]; try (split; [by intros [? ?]|by intros (? & ? & _)]).
  destruct (nr_exporter r) as [exporter|]; cbn [mbind option_bind]; [|split; [by intros [? ?]|by intros (_ & _ & [? ?] & _)]].
  destruct (Nat.eqb_spec (length context) (required_context_length purpose)) as [E|E]; cbn [negb];
    [|split; [by intros [? ?]|by intros (_ & _ & _ & ?)]].
  rewrite mac_eq. split; [by eauto|by eexists].
Qed.

Lemma DeriveBinding_eq r p c x :
  DeriveBinding r p c false = Some x →
  ∃ exporter, nr_exporter r = Some exporter ∧ length c = required_context_length p ∧ x = mac exporter (binding_input p c (nr_handshake_hash r)).
Proof.
  intros E. pose proof (proj1 (DeriveBinding_some r p c false) (mk_is_Some _ _ E)) as (Hv & _ & [exporter He] & Hl).
  exists exporter. split_and!; [done..|]. unfold DeriveBinding in E. rewrite Hv, He in E. cbn [negb orb mbind option_bind] in E.
  rewrite Hl, Nat.eqb_refl, mac_eq in E. cbn [negb] in E. by injection E as <-.
Qed.

Lemma DeriveBinding_binds r p c r' p' c' binding :
  length (nr_handshake_hash r) = 32%nat → length (nr_handshake_hash r') = 32%nat →
  DeriveBinding r p c false = Some binding → DeriveBinding r' p' c' false = Some binding →
  (nr_exporter r = nr_exporter r' ∧ p = p' ∧ c = c' ∧ nr_handshake_hash r = nr_handshake_hash r') ∨
  ∃ exporter exporter', nr_exporter r = Some exporter ∧ nr_exporter r' = Some exporter' ∧
    collides (λ x, mac x.1 x.2) (exporter, binding_input p c (nr_handshake_hash r)) (exporter', binding_input p' c' (nr_handshake_hash r')).
Proof.
  intros Hh Hh' (x & Hx & Hc & ->)%DeriveBinding_eq (x' & Hx' & Hc' & E)%DeriveBinding_eq.
  destruct (collides_or (λ x, mac x.1 x.2) (x, binding_input p c (nr_handshake_hash r)) (x', binding_input p' c' (nr_handshake_hash r')) E)
    as [Ei|]; [left|by right; exists x, x'].
  apply pair_eq in Ei as [-> Ei]. split; [congruence|].
  apply binding_input_injective in Ei; [done|..]; [rewrite Hc; by destruct p|rewrite Hc'; by destruct p'|by rewrite Hh|by rewrite Hh'].
Qed.
End Proofs.

(** ** The object over its life *)
Section Life.
Context `{NoiseCrypto}.

Inductive NoiseCall :=
  | CallWriteMessage1 (draw : option (list Z))
  | CallReadMessage1 (message : list Z)
  | CallWriteMessage2 (draw : option (list Z))
  | CallReadMessage2 (message : list Z)
  | CallTakeResult (output : NoisePskHandshakeResult)
  | CallSetDeterministic (key : option (list Z))
  | CallClear.

Definition noise_call (s : NoisePskHandshake) (c : NoiseCall) : bool * NoisePskHandshake :=
  match c with
  | CallWriteMessage1 draw => let '(m, s) := WriteMessage1 draw s in (bool_decide (is_Some m), s)
  | CallReadMessage1 m => ReadMessage1 m s
  | CallWriteMessage2 draw => let '(m, s) := WriteMessage2 draw s in (bool_decide (is_Some m), s)
  | CallReadMessage2 m => ReadMessage2 m s
  | CallTakeResult output => let '(ok, _, s) := TakeResult s output in (ok, s)
  | CallSetDeterministic key => SetDeterministicEphemeralPrivateKeyForTesting key s
  | CallClear => (true, Noise_Clear s)
  end.

(** The state a successful call leads to; [None] when the call is refused in this state. *)
Definition noise_next (role : HandshakeRole) (st : NoiseState) (c : NoiseCall) : option NoiseState :=
  match c, role, st with
  | CallWriteMessage1 _, NetworkClientInitiator, NoiseInitial => Some InitiatorAwaitingMessage2
  | CallReadMessage1 _, NetworkServerResponder, NoiseInitial => Some ResponderReadyForMessage2
  | CallWriteMessage2 _, NetworkServerResponder, ResponderReadyForMessage2 => Some NoiseComplete
  | CallReadMessage2 _, NetworkClientInitiator, InitiatorAwaitingMessage2 => Some NoiseComplete
  | CallTakeResult _, _, NoiseComplete => Some NoiseResultTaken
  | CallSetDeterministic _, _, NoiseInitial => Some NoiseInitial
  | CallClear, _, _ => Some NoiseInvalid
  | _, _, _ => None
  end.

(** What is left in the object in each state. *)
Definition noise_inv (s : NoisePskHandshake) : Prop :=
  match np_state s with
  | NoiseInitial => is_Some (np_psk s) ∧ np_exporter s = None
  | InitiatorAwaitingMessage2 | ResponderReadyForMessage2 => np_psk s = None ∧ np_exporter s = None
  | NoiseComplete => ∃ h exporter, s = finished (np_role s) h exporter
  | _ => s = wipe s (np_state s)
  end.

(** What the steps inside a message leave alone. *)
Record frame (s s' : NoisePskHandshake) : Prop := {
  frame_role : np_role s' = np_role s;
  frame_state : np_state s' = np_state s;
  frame_exporter : np_exporter s' = np_exporter s;
  frame_psk : np_psk s = None → np_psk s' = None;
}.

#[global] Instance frame_preorder : PreOrder frame.
Proof. split; [by split|]. intros a b c [? ? ? ?] [? ? ? ?]. split; [congruence..|auto]. Qed.

Lemma frame_MixHash d s : frame s (MixHash d s).2.
Proof. unfold MixHash. by destruct (sha256 _). Qed.
Lemma frame_MixKey d s : frame s (MixKey d s).2.
Proof. unfold MixKey. by destruct (NoiseHkdf _ _ _) as [[[? ?] ?]|]. Qed.
Lemma frame_GenerateEphemeral d s : frame s (GenerateEphemeral d s).2.
Proof. unfold GenerateEphemeral. repeat case_match; done. Qed.
Lemma frame_EncryptEmpty s : frame s (EncryptEmpty s).2.
Proof.
  unfold EncryptEmpty. case_match; [done|]. destruct (aead_tag _ _ _) as [tag|]; [|done].
  pose proof (frame_MixHash tag (advance_nonce s)) as [? ? ? ?]. destruct (MixHash _ _) as [ok s']. by split.
Qed.
Lemma frame_DecryptEmpty t s : frame s (DecryptEmpty t s).2.
Proof. unfold DecryptEmpty. do 2 (case_match; [done|]).
  destruct (frame_MixHash t (advance_nonce s)) as [? ? ? ?]. by split.
Qed.

Lemma frame_and f g s : frame s (f s).2 → (∀ s', frame s' (g s').2) → frame s ((f >&& g) s).2.
Proof. intros Hf Hg. unfold and_then. destruct (f s) as [[] s']; [|done]. etransitivity; [exact Hf|apply Hg]. Qed.

Lemma ProcessPsk_frame s : let '(ok, s') := ProcessPsk s in frame s s' ∧ (ok = true → np_psk s' = None).
Proof.
  unfold ProcessPsk. destruct (np_psk s) as [psk|] eqn:E; [|by split].
  unfold MixKeyAndHash. destruct (NoiseHkdf _ _ _) as [[[a b] c]|]; [|by split].
  set (s1 := set_symmetric s a _ _ _ _). pose proof (frame_MixHash b s1) as [? ? ? ?].
  destruct (MixHash b s1) as [ok s']. cbn [snd] in *. by destruct ok.
Qed.

Lemma and_psk g s : (∀ s', frame s' (g s').2) →
  let '(ok, s') := (ProcessPsk >&& g) s in frame s s' ∧ (ok = true → np_psk s' = None).
Proof.
  intros Hg. unfold and_then. pose proof (ProcessPsk_frame s) as Hp. destruct (ProcessPsk s) as [[] s1]; [|done].
  destruct Hp as [Hf Hn]. specialize (Hg s1). destruct (g s1) as [ok s2]. cbn [snd] in Hg.
  split; [by etransitivity|]. intros _. by apply Hg, Hn.
Qed.

(** How a call ends: refused and nothing changed, failed and everything wiped, or succeeded. *)
Definition call_outcome (s : NoisePskHandshake) (c : NoiseCall) (r : bool * NoisePskHandshake) : Prop :=
  np_role r.2 = np_role s ∧ noise_inv r.2 ∧
  match r.1 with
  | true => noise_next (np_role s) (np_state s) c = Some (np_state r.2)
  | false => r.2 = s ∨ is_Some (noise_next (np_role s) (np_state s) c) ∧ r.2 = Noise_Fail s
  end.

Lemma fail_outcome s s' c : np_role s' = np_role s → is_Some (noise_next (np_role s) (np_state s) c) →
  call_outcome s c (false, Noise_Fail s').
Proof. intros Hr Hn. unfold Noise_Fail, wipe. rewrite Hr. split; [done|]. split; [done|]. by right. Qed.

Lemma refuse_outcome s c : noise_inv s → call_outcome s c (false, s).
Proof. intros Hi. split; [done|]. split; [done|]. by left. Qed.

Lemma outcome_WriteMessage1 s draw : noise_inv s → call_outcome s (CallWriteMessage1 draw) (noise_call s (CallWriteMessage1 draw)).
Proof.
  intros Hi. cbn [noise_call]. unfold WriteMessage1. destruct (_ || _) eqn:Eg; [by apply refuse_outcome|].
  apply orb_false_iff in Eg as [Hr%negb_false_iff%bool_decide_eq_true Hs%negb_false_iff%bool_decide_eq_true].
  match goal with |- context [and_then ProcessPsk ?g s] =>
    pose proof (and_psk g s) as Hp; destruct (and_then ProcessPsk g s) as [ok s1] end.
  destruct Hp as [[H1 H2 H3 _] Hn].
  { intros s'. apply frame_and; [apply frame_GenerateEphemeral|]. intros s2. apply frame_and; [apply frame_MixHash|].
    intros s3. apply frame_MixKey. }
  assert (Hnx : noise_next (np_role s) (np_state s) (CallWriteMessage1 draw) = Some InitiatorAwaitingMessage2) by (by rewrite Hr, Hs).
  destruct ok; cbn [negb]; [|apply fail_outcome; [done|by rewrite Hnx]]. specialize (Hn eq_refl).
  pose proof (frame_EncryptEmpty s1) as [F1 F2 F3 F4]. destruct (EncryptEmpty s1) as [[tag|] s2]; cbn [snd] in *;
    [|apply fail_outcome; [congruence|by rewrite Hnx]].
  unfold noise_inv in Hi. rewrite Hs in Hi. destruct Hi as [_ Hx].
  split; [cbn; congruence|]. split; [split; cbn; [auto|congruence]|]. cbn. exact Hnx.
Qed.

Lemma outcome_ReadMessage1 s m : noise_inv s → call_outcome s (CallReadMessage1 m) (noise_call s (CallReadMessage1 m)).
Proof.
  intros Hi. cbn [noise_call]. unfold ReadMessage1. destruct (_ || _) eqn:Eg; [by apply refuse_outcome|].
  apply orb_false_iff in Eg as [Hr%negb_false_iff%bool_decide_eq_true Hs%negb_false_iff%bool_decide_eq_true].
  assert (Hnx : noise_next (np_role s) (np_state s) (CallReadMessage1 m) = Some ResponderReadyForMessage2) by (by rewrite Hr, Hs).
  case_match; [apply fail_outcome; [done|by rewrite Hnx]|]. cbv zeta. case_match; [apply fail_outcome; [done|by rewrite Hnx]|].
  match goal with |- context [and_then ProcessPsk ?g ?x] =>
    pose proof (and_psk g x) as Hp; destruct (and_then ProcessPsk g x) as [ok s1] end.
  destruct Hp as [[G1 G2 G3 _] Hn].
  { intros s'. apply frame_and; [apply frame_MixHash|]. intros s2. apply frame_and; [apply frame_MixKey|].
    intros s3. apply frame_DecryptEmpty. }
  cbn [set_remote np_role np_state np_exporter] in G1, G2, G3.
  destruct ok; cbn [negb]; [|apply fail_outcome; [done|by rewrite Hnx]].
  unfold noise_inv in Hi. rewrite Hs in Hi. destruct Hi as [_ Hx].
  split; [cbn; congruence|]. split; [split; cbn; [auto|congruence]|]. cbn. exact Hnx.
Qed.

Lemma finish_outcome s s' c : np_role s' = np_role s → noise_next (np_role s) (np_state s) c = Some NoiseComplete →
  let '(ok, s'') := Noise_Finish s' in
  call_outcome s c (ok, if ok then s'' else Noise_Fail s'').
Proof.
  intros Hr Hn. unfold Noise_Finish. destruct (NoiseHkdf _ _ _) as [[[a b] x]|]; [|apply fail_outcome; [done|by rewrite Hn]].
  split; [done|]. split; [|exact Hn]. unfold noise_inv. cbn. by exists (np_handshake_hash s'), x.
Qed.

Lemma outcome_WriteMessage2 s draw : noise_inv s → call_outcome s (CallWriteMessage2 draw) (noise_call s (CallWriteMessage2 draw)).
Proof.
  intros Hi. cbn [noise_call]. unfold WriteMessage2. destruct (_ || _) eqn:Eg; [by apply refuse_outcome|].
  apply orb_false_iff in Eg as [[Hr%negb_false_iff%bool_decide_eq_true Hs%negb_false_iff%bool_decide_eq_true]%orb_false_iff _].
  assert (Hnx : noise_next (np_role s) (np_state s) (CallWriteMessage2 draw) = Some NoiseComplete) by (by rewrite Hr, Hs).
  match goal with |- context [and_then (GenerateEphemeral draw) ?g s] =>
    pose proof (frame_and (GenerateEphemeral draw) g s (frame_GenerateEphemeral draw s)) as Hp;
    destruct (and_then (GenerateEphemeral draw) g s) as [ok s1] end.
  destruct Hp as [H1 H2 H3 _].
  { intros s'. apply frame_and; [apply frame_MixHash|]. intros s2. apply frame_MixKey. }
  cbn [snd] in *. destruct ok; cbn [negb]; [|apply fail_outcome; [done|by rewrite Hnx]].
  destruct (Dh _ s1) as [shared|]; [|apply fail_outcome; [done|by rewrite Hnx]].
  pose proof (frame_MixKey shared s1) as [K1 _ _ _]. destruct (MixKey shared s1) as [ok s2]. cbn [snd] in *.
  destruct ok; cbn [negb]; [|apply fail_outcome; [congruence|by rewrite Hnx]].
  pose proof (frame_EncryptEmpty s2) as [E1 _ _ _]. destruct (EncryptEmpty s2) as [[tag|] s3]; cbn [snd] in *;
    [|apply fail_outcome; [congruence|by rewrite Hnx]].
  pose proof (finish_outcome s s3 (CallWriteMessage2 draw) ltac:(congruence) Hnx) as Hf.
  destruct (Noise_Finish s3) as [[] s4]; exact Hf.
Qed.

Lemma outcome_ReadMessage2 s m : noise_inv s → call_outcome s (CallReadMessage2 m) (noise_call s (CallReadMessage2 m)).
Proof.
  intros Hi. cbn [noise_call]. unfold ReadMessage2. destruct (_ || _) eqn:Eg; [by apply refuse_outcome|].
  apply orb_false_iff in Eg as [Hr%negb_false_iff%bool_decide_eq_true Hs%negb_false_iff%bool_decide_eq_true].
  assert (Hnx : noise_next (np_role s) (np_state s) (CallReadMessage2 m) = Some NoiseComplete) by (by rewrite Hr, Hs).
  case_match; [apply fail_outcome; [done|by rewrite Hnx]|]. cbv zeta. set (re := take 32 m).
  pose proof (frame_and (MixHash re) (MixKey re) (set_remote s re) (frame_MixHash _ _) (frame_MixKey re)) as [G1 _ _ _].
  destruct ((MixHash re >&& MixKey re) (set_remote s re)) as [ok s1]. cbn [snd set_remote np_role] in *.
  destruct ok; cbn [negb]; [|apply fail_outcome; [done|by rewrite Hnx]].
  destruct (Dh _ s1) as [shared|]; [|apply fail_outcome; [done|by rewrite Hnx]].
  unfold and_then. pose proof (frame_MixKey shared s1) as [K1 _ _ _]. destruct (MixKey shared s1) as [ok s2]. cbn [snd] in *.
  destruct ok; [|apply fail_outcome; [congruence|by rewrite Hnx]].
  pose proof (frame_DecryptEmpty (drop 32 m) s2) as [E1 _ _ _]. destruct (DecryptEmpty _ s2) as [ok s3]. cbn [snd] in *.
  destruct ok; [|apply fail_outcome; [congruence|by rewrite Hnx]].
  pose proof (finish_outcome s s3 (CallReadMessage2 m) ltac:(congruence) Hnx) as Hf.
  destruct (Noise_Finish s3) as [[] s4]; exact Hf.
Qed.

Lemma noise_call_outcome s c : noise_inv s → call_outcome s c (noise_call s c).
Proof.
  intros Hi. destruct c as [draw|m|draw|m|output|key|].
  - by apply outcome_WriteMessage1.
  - by apply outcome_ReadMessage1.
  - by apply outcome_WriteMessage2.
  - by apply outcome_ReadMessage2.
  - cbn [noise_call]. unfold TakeResult. destruct (np_state s) eqn:Es; try by apply refuse_outcome.
    unfold noise_inv in Hi. rewrite Es in Hi. destruct Hi as (h & x & Hs). rewrite Hs. cbn [np_exporter finished].
    destruct (nr_valid output); [apply refuse_outcome; unfold noise_inv; cbn; eauto|]. split; [done|]. by split.
  - cbn [noise_call]. unfold SetDeterministicEphemeralPrivateKeyForTesting. destruct key as [key|]; [|by apply refuse_outcome].
    destruct (_ || _) eqn:Eg; [by apply refuse_outcome|].
    apply orb_false_iff in Eg as [[Hs%negb_false_iff%bool_decide_eq_true _]%orb_false_iff _].
    split; [done|]. split; [|cbn; by rewrite Hs; destruct (np_role s)].
    unfold noise_inv in *. cbn. by rewrite Hs in *.
  - split; [done|]. split; [done|]. done.
Qed.

Lemma new_inv role psk prologue : noise_inv (NoisePskHandshake_new role psk prologue) ∧
  np_role (NoisePskHandshake_new role psk prologue) = role.
Proof.
  unfold NoisePskHandshake_new, Noise_Initialize. destruct psk as [psk|]; [|done]. destruct (sha256 ProtocolName) as [i|]; [|done].
  unfold MixHash. destruct (sha256 _); [|done]. split; [|done]. unfold noise_inv. cbn. split; [by eexists|done].
Qed.

(** The results handed out by a sequence of calls. *)
Definition results_taken (calls : list NoiseCall) (answers : list bool) : nat :=
  length (filter (λ x : NoiseCall * bool, (match x.1 with CallTakeResult _ => x.2 | _ => false end) = true) (zip calls answers)).

(** No result is handed out once one was, or after a failure. *)
Definition spent (st : NoiseState) : bool := match st with NoiseInvalid | NoiseResultTaken | NoiseFailed => true | _ => false end.

Lemma results_cons s c calls : results_taken (c :: calls) (run noise_call s (c :: calls)).1 =
  ((match c with CallTakeResult _ => if (noise_call s c).1 then 1 else 0 | _ => 0 end) +
   results_taken calls (run noise_call (noise_call s c).2 calls).1)%nat.
Proof.
  rewrite run_results_cons. unfold results_taken. cbn [zip zip_with]. rewrite filter_cons. cbn [fst snd].
  destruct c; try (rewrite decide_False by done; done).
  destruct (noise_call s _).1; [rewrite decide_True by done; done|rewrite decide_False by done; done].
Qed.

Lemma results_bound calls : ∀ s, noise_inv s →
  (results_taken calls (run noise_call s calls).1 ≤ if spent (np_state s) then 0 else 1)%nat.
Proof.
  induction calls as [|c calls IH]; intros s Hi; [cbn; case_match; lia|]. rewrite results_cons.
  destruct (noise_call_outcome s c Hi) as (_ & Hi' & Ho). specialize (IH _ Hi').
  destruct (noise_call s c) as [[] s']; cbn [fst snd] in *.
  - destruct c, (np_role s), (np_state s); cbn [noise_next spent] in *; simplify_eq;
      match goal with Hx : _ = np_state s' |- _ => rewrite <- Hx in IH end; cbn [spent] in IH; lia.
  - assert ((match c with CallTakeResult _ => 0 | _ => 0 end) = 0)%nat as -> by (by destruct c).
    destruct Ho as [->|[Hn ->]]; [done|]. cbn [spent np_state Noise_Fail wipe] in IH. case_match; lia.
Qed.
End Life.

(** * Statements *)

(** The handshake object through any sequence of calls, with primitives that may fail.  In
    every reachable state the pre-shared key is held only before the first message and no exporter
    exists before completion; a completed object holds nothing but the transcript hash and the
    exporter, and a failed, cleared or spent one holds no secret at all.  A call succeeds only in
    the state and role made for it and moves to the next state of the protocol; any other call
    changes nothing, and a call that fails in its own state wipes the object.  At most one result
    is ever handed out. *)
Theorem noise_object_single_use `{NoiseCrypto} role psk prologue calls c :
  let s := exec noise_call (NoisePskHandshake_new role psk prologue) calls in
  np_role s = role ∧ noise_inv s ∧ call_outcome s c (noise_call s c) ∧
  (results_taken calls (run noise_call (NoisePskHandshake_new role psk prologue) calls).1 ≤ 1)%nat.
Proof.
  cbv zeta. destruct (new_inv role psk prologue) as [Hi Hr].
  assert (Hall : noise_inv (exec noise_call (NoisePskHandshake_new role psk prologue) calls) ∧
                 np_role (exec noise_call (NoisePskHandshake_new role psk prologue) calls) = role).
  { revert Hi Hr. generalize (NoisePskHandshake_new role psk prologue).
    induction calls as [|c' calls IH]; intros s Hi Hr; [done|]. rewrite exec_cons.
    destruct (noise_call_outcome s c' Hi) as (Hr' & Hi' & _). apply IH; [done|congruence]. }
  destruct Hall as [Hi' Hr']. split; [done|]. split; [done|]. split; [by apply noise_call_outcome|].
  pose proof (results_bound calls _ Hi) as Hb. case_match; lia.
Qed.

(** C16: a handshake between two ends with the same pre-shared key and prologue.  Whatever their
    ephemeral keys, as long as the key exchange is not degenerate: both messages are accepted, both
    ends complete, and both take the same result, from which the server verifies the client's
    confirmation and both derive the same binding for every purpose. *)
Theorem noise_handshake_agrees `{NoiseLaws} psk prologue a b e re shared :
  x25519_public a = Some e → x25519_public b = Some re → IsAllZero e = false → IsAllZero re = false →
  x25519_derive b e = Some shared → IsAllZero shared = false →
  ∃ m1 c1 s1 m2 s2 c2 r c3 s3 proof,
    WriteMessage1 (Some a) (NoisePskHandshake_new NetworkClientInitiator (Some psk) prologue) = (Some m1, c1) ∧
    ReadMessage1 m1 (NoisePskHandshake_new NetworkServerResponder (Some psk) prologue) = (true, s1) ∧
    WriteMessage2 (Some b) s1 = (Some m2, s2) ∧ ReadMessage2 m2 c1 = (true, c2) ∧
    TakeResult c2 (Result_Clear (mkNoiseResult None [] false)) = (true, r, c3) ∧
    TakeResult s2 (Result_Clear (mkNoiseResult None [] false)) = (true, r, s3) ∧
    GenerateClientSuccessConfirmationProof r = Some proof ∧ VerifyClientSuccessConfirmationProof r proof = true ∧
    ∀ purpose context, length context = required_context_length purpose → is_Some (DeriveBinding r purpose context false).
Proof.
  intros Ha Hb He Hre Hd Hz.
  assert (Hs : agreed b e = Some shared) by (unfold agreed; rewrite He; cbn; rewrite Hd; cbn; by rewrite Hz).
  assert (Hc : agreed a re = Some shared).
  { unfold agreed. rewrite Hre, (x25519_commutes a b e re Ha Hb), Hd. cbn. by rewrite Hz. }
  pose proof (x25519_length a e Ha) as Hle. pose proof (x25519_length b re Hb) as Hlre.
  assert (Hl1 : length (message1 prologue psk e) = 48%nat) by (unfold message1, sym_tag; by rewrite length_app, tag_length, Hle).
  assert (Hl2 : length (message2 prologue psk e re shared) = 48%nat)
    by (unfold message2, sym_tag; by rewrite length_app, tag_length, Hlre).
  assert (Ht1 : take 32 (message1 prologue psk e) = e) by (apply take_app_length'; by rewrite Hle).
  assert (Ht2 : take 32 (message2 prologue psk e re shared) = re) by (apply take_app_length'; by rewrite Hlre).
  eexists _, _, _, _, _, _, _, _, _, _. split; [by apply WriteMessage1_spec|].
  split; [rewrite ReadMessage1_spec; cbv zeta; rewrite Ht1; rewrite bool_decide_eq_true_2 by done; reflexivity|].
  split; [by apply WriteMessage2_spec|].
  split; [rewrite ReadMessage2_spec; cbv zeta; rewrite Ht2, Hc, bool_decide_eq_true_2 by done; reflexivity|].
  split; [reflexivity|]. split; [reflexivity|].
  unfold VerifyClientSuccessConfirmationProof, GenerateClientSuccessConfirmationProof, DeriveBinding. cbn - [ClientProofDomain binding_input].
  split; [apply mac_eq|]. split; [rewrite mac_eq; by apply bool_decide_eq_true_2|].
  intros purpose context ->. rewrite Nat.eqb_refl. cbn - [binding_input]. rewrite mac_eq. by eexists.
Qed.

(** C15: what the handshake binds.  A responder accepts a first message, whoever wrote it, exactly
    when it is a non-zero ephemeral key of 32 bytes followed by the tag that the responder's own key
    and prologue give for it.  So when it accepts what a client with another key or another prologue
    wrote, then one of the primitives has collided at inputs the two handshakes use; with canonical
    prologues this means: same carrier, session id, key identifier and pre-shared key.  The initiator
    accepts a second message exactly when it is an ephemeral key from which it derives a shared
    secret, followed by the tag that its own transcript and that secret give.  A binding is derived
    exactly from a valid result that still holds its exporter, into an empty output, with a context
    of the length the purpose asks for; and two equal bindings come from the same exporter, purpose,
    context and transcript hash, unless the MAC collides at the two inputs. *)
Theorem noise_handshake_binds `{NoiseLaws} carrier sid kid prologue psk a e m1 c1 carrier' sid' kid' prologue' psk' :
  BuildCanonicalPrologue carrier sid kid = Some prologue → BuildCanonicalPrologue carrier' sid' kid' = Some prologue' →
  length sid = NoiseSessionIdSize → length sid' = NoiseSessionIdSize → x25519_public a = Some e →
  WriteMessage1 (Some a) (NoisePskHandshake_new NetworkClientInitiator (Some psk) prologue) = (Some m1, c1) →
  (∀ m, (ReadMessage1 m (NoisePskHandshake_new NetworkServerResponder (Some psk') prologue')).1 = true ↔
     ∃ key, length key = 32%nat ∧ IsAllZero key = false ∧ m = message1 prologue' psk' key) ∧
  ((ReadMessage1 m1 (NoisePskHandshake_new NetworkServerResponder (Some psk') prologue')).1 = true →
     (carrier = carrier' ∧ sid = sid' ∧ kid = kid' ∧ psk = psk') ∨ transcript_collision prologue psk prologue' psk' e) ∧
  (∀ m, (ReadMessage2 m c1).1 = true ↔
     ∃ re shared, length re = 32%nat ∧ agreed a re = Some shared ∧ m = message2 prologue psk e re shared) ∧
  (∀ r purpose context output_set, is_Some (DeriveBinding r purpose context output_set) ↔
     nr_valid r = true ∧ output_set = false ∧ is_Some (nr_exporter r) ∧ length context = required_context_length purpose) ∧
  (∀ r p c r' p' c' binding, length (nr_handshake_hash r) = 32%nat → length (nr_handshake_hash r') = 32%nat →
     DeriveBinding r p c false = Some binding → DeriveBinding r' p' c' false = Some binding →
     (nr_exporter r = nr_exporter r' ∧ p = p' ∧ c = c' ∧ nr_handshake_hash r = nr_handshake_hash r') ∨
     ∃ exporter exporter', nr_exporter r = Some exporter ∧ nr_exporter r' = Some exporter' ∧
       collides (λ x, mac x.1 x.2) (exporter, binding_input p c (nr_handshake_hash r))
         (exporter', binding_input p' c' (nr_handshake_hash r'))).
Proof.
  intros Hp Hp' Hs Hs' Ha Hw. rewrite (WriteMessage1_spec prologue psk a e Ha) in Hw.
  assert (m1 = message1 prologue psk e ∧ c1 = awaiting prologue psk a e) as [-> ->] by (by simplify_eq). clear Hw.
  pose proof (x25519_length a e Ha) as He. split; [intros m; apply ReadMessage1_accepts|]. split; [|split; [intros m; apply ReadMessage2_accepts|]].
  - rewrite ReadMessage1_accepts. intros (key & Hk & _ & Hm). unfold message1 in Hm. apply app_inj_1 in Hm as [<- Hm]; [|congruence].
    destruct (transcript1_binds _ _ _ _ _ Hm) as [[-> ->]|]; [|by right]. left.
    destruct (prologue_injective _ _ _ _ _ _ _ Hs Hs' Hp Hp') as (-> & -> & ->). done.
  - split; [apply DeriveBinding_some|]. intros r p c r' p' c' binding. apply DeriveBinding_binds.
Qed.

(** ** A toy instance, for the witnesses *)
Definition toy_digest (n : nat) (x : list Z) : list Z := foldl (λ a b, (a * 31 + b) mod 65521) 7 x :: replicate n 9.
Definition toy_crypto : NoiseCrypto := {|
  sha256 := λ x, Some (toy_digest 31 x);
  hmac_sha256 := λ k x, Some (toy_digest 31 (k ++ x));
  aead_tag := λ k n ad, Some (toy_digest 15 (k ++ n ++ ad));
  aead_open := λ k n ad t, bool_decide (toy_digest 15 (k ++ n ++ ad) = t);
  x25519_public := λ p, if (length p =? 32)%nat then Some (map (λ x, 5 * x) p) else None;
  x25519_derive := λ a q, Some (zip_with Z.mul a q);
|}.

Definition toy_laws : @NoiseLaws toy_crypto.
Proof.
  split.
  - intros x. eexists. split; [reflexivity|]. done.
  - intros k x. eexists. split; [reflexivity|]. done.
  - intros k n ad. eexists. split; [reflexivity|]. done.
  - intros k n ad t. cbn. rewrite bool_decide_eq_true. split; [by intros ->|by intros [= ->]].
  - intros p q. cbn. destruct (Nat.eqb_spec (length p) 32); [|done]. intros [= <-]. by rewrite length_map.
  - intros a b A B. cbn. do 2 (case_match; [|done]). intros [= <-] [= <-]. f_equal. clear. revert b.
    induction a as [|x a IH]; intros [|y b]; cbn; [done..|]. f_equal; [lia|apply IH].
Qed.

Definition toy_key (n : Z) : list Z := n :: replicate 31 1.

Lemma noise_handshake_agrees_witness :
  ∃ m1 c1, @WriteMessage1 toy_crypto (Some (toy_key 3))
             (@NoisePskHandshake_new toy_crypto NetworkClientInitiator (Some (toy_key 8)) [1; 2]) = (Some m1, c1).
Proof.
  destruct (@noise_handshake_agrees toy_crypto toy_laws (toy_key 8) [1; 2] (toy_key 3) (toy_key 4)
    (map (λ x, 5 * x) (toy_key 3)) (map (λ x, 5 * x) (toy_key 4)) (zip_with Z.mul (toy_key 4) (map (λ x, 5 * x) (toy_key 3))))
    as (m1 & c1 & _ & _ & _ & _ & _ & _ & _ & _ & Hw & _); [reflexivity..|]. by exists m1, c1.
Defined.

Definition toy_prologue : list Z := default [] (BuildCanonicalPrologue CarrierTcp (replicate 16 1) [7]).

Lemma noise_handshake_binds_witness :
  ∃ m1 c1, @WriteMessage1 toy_crypto (Some (toy_key 3))
             (@NoisePskHandshake_new toy_crypto NetworkClientInitiator (Some (toy_key 8)) toy_prologue) = (Some m1, c1) ∧
    ((@ReadMessage1 toy_crypto m1 (@NoisePskHandshake_new toy_crypto NetworkServerResponder (Some (toy_key 9)) toy_prologue)).1 = true →
     (CarrierTcp = CarrierTcp ∧ replicate 16 1 = replicate 16 1 ∧ [7] = [7] ∧ toy_key 8 = toy_key 9) ∨
     @transcript_collision toy_crypto toy_prologue (toy_key 8) toy_prologue (toy_key 9) (map (λ x, 5 * x) (toy_key 3))).
Proof.
  destruct (@WriteMessage1 toy_crypto (Some (toy_key 3))
    (@NoisePskHandshake_new toy_crypto NetworkClientInitiator (Some (toy_key 8)) toy_prologue)) as [[m1|] c1] eqn:E;
    [|by vm_compute in E].
  exists m1, c1. split; [done|].
  refine (proj1 (proj2 (@noise_handshake_binds toy_crypto toy_laws CarrierTcp (replicate 16 1) [7] toy_prologue (toy_key 8) (toy_key 3)
    (map (λ x, 5 * x) (toy_key 3)) m1 c1 CarrierTcp (replicate 16 1) [7] toy_prologue (toy_key 9) _ _ _ _ _ E))); reflexivity.
Defined.
