(* ===== verification/SpscHandoff.v ===== *)
(** * The lock-free handoff between the packet readers and a shard

    [ppp/threading/SpscHandoff.h]: a bounded ring with one serialized producer and one serialized
    consumer, and a gate that decides who posts the next drain.  [SerializedSpscHandoff] puts a mutex
    around the producer side.  The consumer is [DrainSpscIngress] of
    [ppp/app/client/xtcp/XtcpRuntime.cpp], which runs on the shard's strand, with [DoStopShard] as the
    terminal consumer.

    The two sides run concurrently: each has a program counter, and a step of the model is one atomic
    access of the code ([load], [store], [exchange], [compare_exchange]) or one construction or
    destruction of a slot.  Accesses are interleaved; an index is loaded together with the side's own
    index, which no other thread writes, and the loads whose answers the caller discards (the two by
    which [TryPop] tells [Empty] from [Closed]) are left out.  A boolean in a step's label stands for
    what the code does not decide: the admission callback, a spurious failure of a weak exchange,
    whether a post succeeds, and where a quantum of the drain ends. *)

From S2P Require Import Prelude.

(** ** The ring *)
Inductive HandoffPush := PushAccepted | PushFull | PushClosed.
Inductive HandoffState := HsRunning | HsWaiting | HsScheduled | HsClosed.
#[global] Instance HandoffPush_eq_dec : EqDecision HandoffPush.
Proof. solve_decision. Defined.
#[global] Instance HandoffState_eq_dec : EqDecision HandoffState.
Proof. solve_decision. Defined.

(** [SpscHandoff]: a slot is [None] when it holds raw storage. *)
Record SpscHandoff (T : Type) := mkHandoff {
  sh_capacity : Z;
  sh_epoch : Z;
  sh_backing : Z;
  sh_slots : list (option T);
  sh_head : Z;
  sh_tail : Z;
  sh_gate : HandoffState;
  sh_closing : bool;
}.
Arguments mkHandoff {T}. Arguments sh_capacity {T}. Arguments sh_epoch {T}. Arguments sh_backing {T}.
Arguments sh_slots {T}. Arguments sh_head {T}. Arguments sh_tail {T}. Arguments sh_gate {T}. Arguments sh_closing {T}.

(** [Backing]: the loop doubles until it covers the capacity. *)
Fixpoint backing_loop (fuel : nat) (backing capacity : Z) : option Z :=
  match fuel with
  | O => None
  | S f => if backing <? capacity then backing_loop f (wrap 64 (backing * 2)) capacity else Some backing
  end.
Definition Backing (capacity : Z) : option Z :=
  if (capacity =? 0) || (SIZE_MAX / 4 <? capacity) then None else backing_loop 64 1 capacity.

Section Ring.
Context {T : Type}.
Implicit Types h : SpscHandoff T.

(** The constructor; it throws on a bad capacity. *)
Definition SpscHandoff_new (capacity epoch initial_index : Z) : option (SpscHandoff T) :=
  backing ← Backing capacity;
  Some (mkHandoff capacity epoch backing (replicate (Z.to_nat backing) None) initial_index initial_index HsWaiting false).

(** [Storage]: the slot of an index. *)
Definition Storage h (index : Z) : nat := Z.to_nat (Z.land index (sh_backing h - 1)).

Definition Handoff_Empty h : bool := sh_head h =? sh_tail h.
Definition CanPush h (count : Z) : bool := count <=? sh_capacity h - (sh_tail h -[64] sh_head h).

Definition set_gate h (g : HandoffState) : SpscHandoff T :=
  mkHandoff (sh_capacity h) (sh_epoch h) (sh_backing h) (sh_slots h) (sh_head h) (sh_tail h) g (sh_closing h).
Definition set_closing h : SpscHandoff T :=
  mkHandoff (sh_capacity h) (sh_epoch h) (sh_backing h) (sh_slots h) (sh_head h) (sh_tail h) (sh_gate h) true.
Definition set_slot h (index : Z) (x : option T) : SpscHandoff T :=
  mkHandoff (sh_capacity h) (sh_epoch h) (sh_backing h) (<[Storage h index := x]> (sh_slots h)) (sh_head h) (sh_tail h)
    (sh_gate h) (sh_closing h).
Definition store_head h (head : Z) : SpscHandoff T :=
  mkHandoff (sh_capacity h) (sh_epoch h) (sh_backing h) (sh_slots h) head (sh_tail h) (sh_gate h) (sh_closing h).
Definition store_tail h (tail : Z) : SpscHandoff T :=
  mkHandoff (sh_capacity h) (sh_epoch h) (sh_backing h) (sh_slots h) (sh_head h) tail (sh_gate h) (sh_closing h).

(** [compare_exchange_strong] on the gate. *)
Definition gate_cas h (expected next : HandoffState) : bool * SpscHandoff T :=
  if decide (sh_gate h = expected) then (true, set_gate h next) else (false, h).

(** [Claim], [ArmWait] and [ScheduleContinuation]. *)
Definition Claim h (epoch : Z) : bool * SpscHandoff T :=
  if negb (epoch =? sh_epoch h) then (false, h) else gate_cas h HsScheduled HsRunning.
Definition ArmWait h : bool * SpscHandoff T := gate_cas h HsRunning HsWaiting.
Definition ScheduleContinuation h : bool * SpscHandoff T := gate_cas h HsRunning HsScheduled.
End Ring.

(** ** The two sides

    An operation of the producer side that wakes the consumer; an abort has none. *)
Inductive ProducerOp (T : Type) := OpPush (items : list T) | OpClose.
Arguments OpPush {T}. Arguments OpClose {T}.

(** Where the thread that holds the producer's mutex is. *)
Inductive ProducerPc (T : Type) :=
  | PIdle
  | PCheckClosing (items : list T) | PCheckGate (items : list T) | PCanPush (items : list T) | PAdmit (items : list T)
  | PTryClosing (items : list T) | PTryGate (items : list T) | PTryRoom (items : list T)
  | PWrite (items : list T) (tail : Z) (i : nat)
  | PCloseStore
  | PWakeLoad (op : ProducerOp T) | PWakeCas (op : ProducerOp T) (state : HandoffState)
  | PPost (op : ProducerOp T)
  | PAbortClosing (op : option (ProducerOp T)) | PAbortGate (op : option (ProducerOp T)).
Arguments PIdle {T}. Arguments PCheckClosing {T}. Arguments PCheckGate {T}. Arguments PCanPush {T}.
Arguments PAdmit {T}. Arguments PTryClosing {T}. Arguments PTryGate {T}. Arguments PTryRoom {T}. Arguments PWrite {T}.
Arguments PCloseStore {T}. Arguments PWakeLoad {T}. Arguments PWakeCas {T}. Arguments PPost {T}.
Arguments PAbortClosing {T}. Arguments PAbortGate {T}.

(** Where the strand is; [terminal] tells the loop of [DoStopShard] from that of the drain, and
    [failed] an abort after a failed post from the one of a requested close. *)
Inductive ConsumerPc (T : Type) :=
  | CIdle
  | CClaim (epoch : Z)
  | CPop (terminal : bool) | CPopMove (terminal : bool) (head : Z) | CPopStore (terminal : bool) (head : Z) (item : T)
  | CCheckClosed | CCheckEmpty | CSchedule | CPost | CCheckClosing
  | CAbortClosing (failed : bool) | CAbortGate (failed : bool)
  | CArm | CRecheckGate | CRecheckEmpty | CRecheckClosing | CRecheckCas
  | CStopClosing | CStopGate.
Arguments CIdle {T}. Arguments CClaim {T}. Arguments CPop {T}. Arguments CPopMove {T}. Arguments CPopStore {T}.
Arguments CCheckClosed {T}. Arguments CCheckEmpty {T}. Arguments CSchedule {T}. Arguments CPost {T}.
Arguments CCheckClosing {T}. Arguments CAbortClosing {T}. Arguments CAbortGate {T}. Arguments CArm {T}.
Arguments CRecheckGate {T}. Arguments CRecheckEmpty {T}. Arguments CRecheckClosing {T}. Arguments CRecheckCas {T}.
Arguments CStopClosing {T}. Arguments CStopGate {T}.

(** The endpoint with its two sides and the strand's queue of posted drains.  The last three fields
    record what happened: the items published and consumed, in order, and each batch with its answer
    and whether it was published. *)
Record HandoffSystem (T : Type) := mkSystem {
  hy_ring : SpscHandoff T;
  hy_producer : ProducerPc T;
  hy_consumer : ConsumerPc T;
  hy_posts : list Z;
  hy_pushed : list T;
  hy_popped : list T;
  hy_batches : list (list T * HandoffPush * bool);
}.
Arguments mkSystem {T}. Arguments hy_ring {T}. Arguments hy_producer {T}. Arguments hy_consumer {T}.
Arguments hy_posts {T}. Arguments hy_pushed {T}. Arguments hy_popped {T}. Arguments hy_batches {T}.

Inductive HandoffLabel (T : Type) :=
  | LPush (items : list T) | LClose | LAbort | LProducer (choice : bool)
  | LHandler | LStop | LConsumer (choice : bool).
Arguments LPush {T}. Arguments LClose {T}. Arguments LAbort {T}. Arguments LProducer {T}. Arguments LHandler {T}.
Arguments LStop {T}. Arguments LConsumer {T}.

Section Steps.
Context {T : Type}.
Implicit Types s : HandoffSystem T.
Implicit Types h : SpscHandoff T.

Definition with_ring s h : HandoffSystem T :=
  mkSystem h (hy_producer s) (hy_consumer s) (hy_posts s) (hy_pushed s) (hy_popped s) (hy_batches s).
Definition at_producer s (p : ProducerPc T) : HandoffSystem T :=
  mkSystem (hy_ring s) p (hy_consumer s) (hy_posts s) (hy_pushed s) (hy_popped s) (hy_batches s).
Definition at_consumer s (c : ConsumerPc T) : HandoffSystem T :=
  mkSystem (hy_ring s) (hy_producer s) c (hy_posts s) (hy_pushed s) (hy_popped s) (hy_batches s).
Definition add_post s : HandoffSystem T :=
  mkSystem (hy_ring s) (hy_producer s) (hy_consumer s) (hy_posts s ++ [sh_epoch (hy_ring s)]) (hy_pushed s) (hy_popped s)
    (hy_batches s).
Definition add_pushed s (items : list T) : HandoffSystem T :=
  mkSystem (hy_ring s) (hy_producer s) (hy_consumer s) (hy_posts s) (hy_pushed s ++ items) (hy_popped s) (hy_batches s).
Definition add_popped s (item : T) : HandoffSystem T :=
  mkSystem (hy_ring s) (hy_producer s) (hy_consumer s) (hy_posts s) (hy_pushed s) (hy_popped s ++ [item]) (hy_batches s).

(** The producer's method returns and the mutex is released. *)
Definition batch_return s (items : list T) (result : HandoffPush) (published : bool) : HandoffSystem T :=
  mkSystem (hy_ring s) PIdle (hy_consumer s) (hy_posts s) (hy_pushed s) (hy_popped s)
    (hy_batches s ++ [(items, result, published)]).
Definition op_return s (op : ProducerOp T) (result : HandoffPush) : HandoffSystem T :=
  match op with OpPush items => batch_return s items result true | _ => at_producer s PIdle end.

Definition closed_gate h : bool := bool_decide (sh_gate h = HsClosed).

(** [PushBatchWithAdmission], up to the call of [TryPushBatch]. *)
Definition PushBatchWithAdmission_step (choice : bool) s (p : ProducerPc T) : HandoffSystem T :=
  let h := hy_ring s in
  match p with
  | PCheckClosing items =>
      if sh_closing h then batch_return s items PushClosed false else at_producer s (PCheckGate items)
  | PCheckGate items =>
      if closed_gate h then batch_return s items PushClosed false else at_producer s (PCanPush items)
  | PCanPush items =>
      if negb (CanPush h (Z.of_nat (length items))) then batch_return s items PushFull false
      else at_producer s (PAdmit items)
  | PAdmit items => if choice then at_producer s (PTryClosing items) else batch_return s items PushFull false
  | _ => s
  end.

(** [TryPushBatch]: both refusals, the writes one slot at a time, and the single publication. *)
Definition TryPushBatch_step s (p : ProducerPc T) : HandoffSystem T :=
  let h := hy_ring s in
  match p with
  | PTryClosing items =>
      if sh_closing h then batch_return s items PushClosed false else at_producer s (PTryGate items)
  | PTryGate items =>
      if closed_gate h then batch_return s items PushClosed false else at_producer s (PTryRoom items)
  | PTryRoom items =>
      if sh_capacity h - (sh_tail h -[64] sh_head h) <? Z.of_nat (length items) then batch_return s items PushFull false
      else at_producer s (PWrite items (sh_tail h) 0)
  | PWrite items tail i =>
      match items !! i with
      | Some x => at_producer (with_ring s (set_slot h (tail +[64] Z.of_nat i) (Some x))) (PWrite items tail (S i))
      | None => add_pushed (at_producer (with_ring s (store_tail h (tail +[64] Z.of_nat (length items))))
                              (PWakeLoad (OpPush items))) items
      end
  | _ => s
  end.

(** [CommitWake]: a failed exchange reloads the gate; a weak one may fail with the same value. *)
Definition CommitWake_step (choice : bool) s (op : ProducerOp T) (loaded : option HandoffState) : HandoffSystem T :=
  let h := hy_ring s in
  match loaded with
  | None => at_producer s (PWakeCas op (sh_gate h))
  | Some HsClosed => op_return s op PushAccepted
  | Some state =>
      let next := match state with HsWaiting => HsScheduled | _ => state end in
      if choice && bool_decide (sh_gate h = state) then
        let s := with_ring s (set_gate h next) in
        match state with HsWaiting => at_producer s (PPost op) | _ => op_return s op PushAccepted end
      else at_producer s (PWakeCas op (sh_gate h))
  end.

(** [PostOrAbort] on the producer side: a failed post aborts the endpoint. *)
Definition PostOrAbort_step (choice : bool) s (op : ProducerOp T) : HandoffSystem T :=
  if choice then op_return (add_post s) op PushAccepted else at_producer s (PAbortClosing (Some op)).

(** The two stores of [Abort], and the store of [RequestClose]. *)
Definition Abort_step s (op : option (ProducerOp T)) (second : bool) : HandoffSystem T :=
  if second then
    match op with
    | Some op => op_return (with_ring s (set_gate (hy_ring s) HsClosed)) op PushClosed
    | None => at_producer (with_ring s (set_gate (hy_ring s) HsClosed)) PIdle
    end
  else at_producer (with_ring s (set_closing (hy_ring s))) (PAbortGate op).
Definition RequestClose_step s : HandoffSystem T :=
  at_producer (with_ring s (set_closing (hy_ring s))) (PWakeLoad OpClose).

Definition producer_step (choice : bool) s : option (HandoffSystem T) :=
  match hy_producer s with
  | PIdle => None
  | (PCheckClosing _ | PCheckGate _ | PCanPush _ | PAdmit _) as p => Some (PushBatchWithAdmission_step choice s p)
  | (PTryClosing _ | PTryGate _ | PTryRoom _ | PWrite _ _ _) as p => Some (TryPushBatch_step s p)
  | PCloseStore => Some (RequestClose_step s)
  | PWakeLoad op => Some (CommitWake_step choice s op None)
  | PWakeCas op state => Some (CommitWake_step choice s op (Some state))
  | PPost op => Some (PostOrAbort_step choice s op)
  | PAbortClosing op => Some (Abort_step s op false)
  | PAbortGate op => Some (Abort_step s op true)
  end.

(** [TryPop]: load the indices, move the item out and destroy the slot, publish the new head. *)
Definition TryPop_step (choice : bool) s (c : ConsumerPc T) : HandoffSystem T :=
  let h := hy_ring s in
  match c with
  | CPop terminal =>
      if Handoff_Empty h then at_consumer s (if terminal then CIdle else CCheckClosed)
      else at_consumer s (CPopMove terminal (sh_head h))
  | CPopMove terminal head =>
      match sh_slots h !! Storage h head with
      | Some (Some item) => at_consumer (with_ring s (set_slot h head None)) (CPopStore terminal head item)
      | _ => s
      end
  | CPopStore terminal head item =>
      add_popped (at_consumer (with_ring s (store_head h (head +[64] 1)))
                    (if terminal || choice then CPop terminal else CCheckClosed)) item
  | _ => s
  end.

(** [RecheckAfterArm]. *)
Definition RecheckAfterArm_step s (c : ConsumerPc T) : HandoffSystem T :=
  let h := hy_ring s in
  match c with
  | CRecheckGate => at_consumer s (if closed_gate h then CIdle else CRecheckEmpty)
  | CRecheckEmpty => at_consumer s (if negb (Handoff_Empty h) then CRecheckCas else CRecheckClosing)
  | CRecheckClosing => at_consumer s (if sh_closing h then CRecheckCas else CIdle)
  | CRecheckCas => let '(ok, h) := gate_cas h HsWaiting HsRunning in at_consumer (with_ring s h) (if ok then CPop false else CIdle)
  | _ => s
  end.

(** The rest of a quantum of [DrainSpscIngress], with [PostIngress] for the continuation. *)
Definition DrainSpscIngress_step (choice : bool) s (c : ConsumerPc T) : HandoffSystem T :=
  let h := hy_ring s in
  match c with
  | CClaim epoch => let '(ok, h) := Claim h epoch in at_consumer (with_ring s h) (if ok then CPop false else CIdle)
  | CCheckClosed => at_consumer s (if closed_gate h then CIdle else CCheckEmpty)
  | CCheckEmpty => at_consumer s (if negb (Handoff_Empty h) then CSchedule else CCheckClosing)
  | CSchedule => let '(ok, h) := ScheduleContinuation h in at_consumer (with_ring s h) (if ok then CPost else CIdle)
  | CPost => if choice then at_consumer (add_post s) CIdle else at_consumer s (CAbortClosing true)
  | CCheckClosing => at_consumer s (if sh_closing h then CAbortClosing false else CArm)
  | CAbortClosing failed => at_consumer (with_ring s (set_closing h)) (CAbortGate failed)
  | CAbortGate _ => at_consumer (with_ring s (set_gate h HsClosed)) CIdle
  | CArm => let '(ok, h) := ArmWait h in at_consumer (with_ring s h) (if ok then CRecheckGate else CIdle)
  | _ => s
  end.

(** [DoStopShard]: [Abort] under the producer's mutex, then the loop that drops what is left. *)
Definition DoStopShard_step s (second : bool) : HandoffSystem T :=
  if second then at_consumer (with_ring s (set_gate (hy_ring s) HsClosed)) (CPop true)
  else at_consumer (with_ring s (set_closing (hy_ring s))) CStopGate.

Definition consumer_step (choice : bool) s : option (HandoffSystem T) :=
  match hy_consumer s with
  | CIdle => None
  | (CPop _ | CPopMove _ _ | CPopStore _ _ _) as c => Some (TryPop_step choice s c)
  | (CRecheckGate | CRecheckEmpty | CRecheckClosing | CRecheckCas) as c => Some (RecheckAfterArm_step s c)
  | CStopClosing => Some (DoStopShard_step s false)
  | CStopGate => Some (DoStopShard_step s true)
  | c => Some (DrainSpscIngress_step choice s c)
  end.

(** The mutex is held by a producer method or by the abort of [DoStopShard]. *)
Definition mutex_free s : bool :=
  match hy_producer s, hy_consumer s with
  | PIdle, (CStopClosing | CStopGate) => false
  | PIdle, _ => true
  | _, _ => false
  end.

(** One step of the system. *)
Definition handoff_step s (l : HandoffLabel T) : option (HandoffSystem T) :=
  match l with
  | LPush items => if mutex_free s then Some (at_producer s (PCheckClosing items)) else None
  | LClose => if mutex_free s then Some (at_producer s PCloseStore) else None
  | LAbort => if mutex_free s then Some (at_producer s (PAbortClosing None)) else None
  | LProducer choice => producer_step choice s
  | LHandler =>
      match hy_consumer s, hy_posts s with
      | CIdle, epoch :: rest =>
          Some (mkSystem (hy_ring s) (hy_producer s) (CClaim epoch) rest (hy_pushed s) (hy_popped s) (hy_batches s))
      | _, _ => None
      end
  | LStop => match hy_consumer s with CIdle => if mutex_free s then Some (at_consumer s CStopClosing) else None | _ => None end
  | LConsumer choice => consumer_step choice s
  end.

Definition handoff_start h : HandoffSystem T := mkSystem h PIdle CIdle [] [] [] [].

(** The states an endpoint reaches. *)
Inductive handoff_reachable h0 : HandoffSystem T → Prop :=
  | handoff_init : handoff_reachable h0 (handoff_start h0)
  | handoff_next s l s' : handoff_reachable h0 s → handoff_step s l = Some s' → handoff_reachable h0 s'.

(** Run a list of labels; the result is [None] when one of them is not enabled. *)
Fixpoint handoff_run s (ls : list (HandoffLabel T)) : option (HandoffSystem T) :=
  match ls with [] => Some s | l :: ls => s ← handoff_step s l; handoff_run s ls end.
End Steps.

(** ** The ring holds what was published and not yet consumed *)
Lemma backing_loop_spec fuel k capacity : 0 ≤ k → (fuel + Z.to_nat k = 64)%nat → k ≤ 62 → capacity ≤ 2 ^ 62 →
  ∃ j, k ≤ j ≤ 62 ∧ backing_loop fuel (2 ^ k) capacity = Some (2 ^ j) ∧ capacity ≤ 2 ^ j.
Proof.
  revert k. induction fuel as [|fuel IH]; intros k Hk Hf Hk62 Hc; [lia|]. cbn [backing_loop].
  destruct (Z.ltb_spec (2 ^ k) capacity) as [Hlt|Hge]; [|exists k; split; [lia|done]].
  assert (Hk61 : k ≤ 61). { destruct (decide (k ≤ 61)) as [|Hn]; [done|]. replace k with 62 in Hlt by lia. lia. }
  assert (E : wrap 64 (2 ^ k * 2) = 2 ^ (k + 1)).
  { rewrite Z.pow_add_r by lia. apply wrap_small. pose proof (Z.pow_le_mono_r 2 k 61). unfold is_uint. lia. }
  rewrite E. destruct (IH (k + 1)) as (j & Hj & Hr & Hle); [lia..|]. exists j. split; [lia|done].
Qed.

Lemma Backing_spec capacity : 1 ≤ capacity ≤ SIZE_MAX / 4 →
  ∃ k, 0 ≤ k ≤ 62 ∧ Backing capacity = Some (2 ^ k) ∧ capacity ≤ 2 ^ k.
Proof.
  intros Hc. unfold Backing. assert (SIZE_MAX / 4 = 2 ^ 62 - 1) as Hm by (vm_compute; reflexivity).
  destruct (Z.eqb_spec capacity 0); [lia|]. destruct (Z.ltb_spec (SIZE_MAX / 4) capacity); [lia|].
  destruct (backing_loop_spec 64 0 capacity) as (k & Hk & He & Hle); [lia..|]. by exists k.
Qed.

Section RingInv.
Context {T : Type}.
Implicit Types h : SpscHandoff T.
Implicit Types live : list T.

Record ring_wf h (k : Z) : Prop := {
  rw_k : 0 ≤ k ≤ 62;
  rw_backing : sh_backing h = 2 ^ k;
  rw_capacity : 1 ≤ sh_capacity h ≤ 2 ^ k;
  rw_slots : length (sh_slots h) = Z.to_nat (2 ^ k);
  rw_head : is_uint 64 (sh_head h);
  rw_tail : is_uint 64 (sh_tail h);
}.

Lemma Storage_mod h k index : ring_wf h k → Storage h index = Z.to_nat (index mod 2 ^ k).
Proof. intros [Hk Hb _ _ _ _]. unfold Storage. rewrite Hb, <-Z.land_ones, Z.ones_equiv by lia. f_equal. Qed.

Lemma wrap_mod_backing k x : 0 ≤ k ≤ 62 → (wrap 64 x) mod 2 ^ k = x mod 2 ^ k.
Proof.
  intros Hk. unfold wrap.
  rewrite (Z.mod_eq x (2 ^ 64)) by lia. replace (2 ^ 64) with (2 ^ (64 - k) * 2 ^ k) by (rewrite <-Z.pow_add_r by lia; f_equal; lia).
  replace (x - 2 ^ (64 - k) * 2 ^ k * (x / (2 ^ (64 - k) * 2 ^ k)))
    with (x + (- (2 ^ (64 - k) * (x / (2 ^ (64 - k) * 2 ^ k)))) * 2 ^ k) by ring.
  rewrite Z.mod_add; [done|]. pose proof (Z.pow_pos_nonneg 2 k). lia.
Qed.

(** The slot at a distance from the head, and that distances below the backing have distinct slots. *)
Definition slot_at h (o : nat) : nat := Storage h (sh_head h +[64] Z.of_nat o).

Lemma slot_at_lt h k o : ring_wf h k → (slot_at h o < length (sh_slots h))%nat.
Proof.
  intros Hw. unfold slot_at. rewrite (Storage_mod _ k) by done. destruct Hw as [Hk _ _ -> _ _].
  pose proof (Z.mod_pos_bound (sh_head h +[64] Z.of_nat o) (2 ^ k)). pose proof (Z.pow_pos_nonneg 2 k). lia.
Qed.

Lemma mod_shift_inj x a b m : 0 < m → 0 ≤ a < m → 0 ≤ b < m → (x + a) mod m = (x + b) mod m → a = b.
Proof.
  intros Hm Ha Hb He. assert (E : (a - b) mod m = 0).
  { replace (a - b) with ((x + a) - (x + b)) by ring. rewrite Zminus_mod, He, Z.sub_diag. by rewrite Z.mod_0_l by lia. }
  apply Z.mod_divide in E as [q Hq]; [|lia]. assert (q = 0) as -> by nia. lia.
Qed.

Lemma slot_at_inj h k a b : ring_wf h k → Z.of_nat a < 2 ^ k → Z.of_nat b < 2 ^ k → slot_at h a = slot_at h b → a = b.
Proof.
  intros Hw Ha Hb. unfold slot_at. rewrite !(Storage_mod _ k) by done. destruct Hw as [Hk _ _ _ _ _].
  pose proof (Z.pow_pos_nonneg 2 k). rewrite !wrap_mod_backing by done. intros He.
  apply Z2Nat.inj in He; [|apply Z.mod_pos_bound; lia..]. apply mod_shift_inj in He; lia.
Qed.

(** [ring_holds h content]: distance [o] from the head holds [content !! o], and raw storage beyond it. *)
Definition ring_holds h (content : list (option T)) : Prop :=
  ∀ o, Z.of_nat o < sh_backing h → sh_slots h !! slot_at h o = Some (default None (content !! o)).

Lemma holds_write h k content o x content' : ring_wf h k → ring_holds h content → Z.of_nat o < sh_backing h →
  (∀ o', default None (content' !! o') = if decide (o' = o) then x else default None (content !! o')) →
  ring_holds (set_slot h (sh_head h +[64] Z.of_nat o) x) content'.
Proof.
  intros Hw Hh Ho Hc o' Ho'. cbn in Ho'. unfold slot_at, set_slot. cbn. fold (slot_at h o') (slot_at h o).
  rewrite Hc. destruct (decide (o' = o)) as [->|Hne].
  - rewrite list_lookup_insert_eq; [done|]. by eapply slot_at_lt.
  - rewrite list_lookup_insert_ne; [by apply Hh|]. intros He. apply Hne. symmetry.
    rewrite (rw_backing _ _ Hw) in Ho, Ho'. by eapply slot_at_inj.
Qed.

Lemma holds_advance h k content : ring_wf h k → ring_holds h (None :: content) → Z.of_nat (length content) < sh_backing h →
  ring_holds (store_head h (sh_head h +[64] 1)) content.
Proof.
  intros Hw Hh Hl o Ho. cbn in Ho. unfold slot_at, store_head. cbn.
  assert (E : Storage h (sh_head h +[64] 1 +[64] Z.of_nat o) = slot_at h (S o)).
  { unfold slot_at. rewrite !(Storage_mod _ k) by done. rewrite !wrap_mod_backing by apply Hw.
    rewrite <-Zplus_mod_idemp_l, wrap_mod_backing, Zplus_mod_idemp_l by apply Hw. do 2 f_equal. lia. }
  change (sh_slots h !! Storage h (sh_head h +[64] 1 +[64] Z.of_nat o) = Some (default None (content !! o))). rewrite E.
  destruct (decide (Z.of_nat (S o) < sh_backing h)) as [Hlt|Hge]; [by rewrite (Hh (S o))|].
  assert (E2 : slot_at h (S o) = slot_at h 0).
  { unfold slot_at. rewrite !(Storage_mod _ k) by done. rewrite !wrap_mod_backing by apply Hw.
    replace (Z.of_nat (S o)) with (2 ^ k) by (rewrite <-(rw_backing _ _ Hw); lia). f_equal.
    replace (sh_head h + 2 ^ k) with (sh_head h + Z.of_nat 0 + 1 * 2 ^ k) by lia. apply Z.mod_add.
    pose proof (rw_k _ _ Hw). lia. }
  pose proof (Z.pow_pos_nonneg 2 k). pose proof (rw_k _ _ Hw).
  rewrite E2, (Hh 0%nat) by (rewrite (rw_backing _ _ Hw); lia). cbn.
  rewrite lookup_ge_None_2 by lia. done.
Qed.
End RingInv.

Section RingProof.
Context {T : Type}.
Implicit Types h : SpscHandoff T.
Implicit Types p : ProducerPc T.
Implicit Types c : ConsumerPc T.

(** The items a push has written and not published, and the slots from the head on. *)
Definition in_flight p : list T := match p with PWrite items _ i => take i items | _ => [] end.
Definition ring_content (live : list T) p c : list (option T) :=
  match c, live with
  | CPopStore _ _ _, _ :: rest => None :: (Some <$> rest)
  | _, _ => Some <$> live
  end ++ (Some <$> in_flight p).

Definition producer_ok h (live : list T) p : Prop :=
  match p with
  | PWrite items tail i => tail = sh_tail h ∧ (i ≤ length items)%nat ∧
                           Z.of_nat (length live + length items) ≤ sh_capacity h
  | _ => True
  end.
Definition consumer_ok h (live : list T) c : Prop :=
  match c with
  | CPopMove _ head => head = sh_head h ∧ live ≠ []
  | CPopStore _ head item => head = sh_head h ∧ ∃ rest, live = item :: rest
  | _ => True
  end.

Record ring_inv h p c (pushed popped live : list T) : Prop := {
  ri_wf : ∃ k, ring_wf h k;
  ri_queue : pushed = popped ++ live;
  ri_tail : sh_tail h = sh_head h +[64] Z.of_nat (length live);
  ri_bound : Z.of_nat (length live) ≤ sh_capacity h;
  ri_holds : ring_holds h (ring_content live p c);
  ri_producer : producer_ok h live p;
  ri_consumer : consumer_ok h live c;
}.

Lemma ring_distance h p c pushed popped live : ring_inv h p c pushed popped live →
  sh_tail h -[64] sh_head h = Z.of_nat (length live).
Proof.
  intros [[k Hw] _ Ht Hb _ _ _]. rewrite Ht. unfold wrap. rewrite Zminus_mod_idemp_l.
  replace (sh_head h + Z.of_nat (length live) - sh_head h) with (Z.of_nat (length live)) by lia.
  pose proof (rw_capacity _ _ Hw). pose proof (Z.pow_le_mono_r 2 k 62). pose proof (rw_k _ _ Hw).
  apply Z.mod_small. lia.
Qed.

Lemma ring_empty h p c pushed popped live : ring_inv h p c pushed popped live →
  Handoff_Empty h = bool_decide (live = []).
Proof.
  intros Hi. pose proof (ring_distance _ _ _ _ _ _ Hi) as Hd. unfold Handoff_Empty.
  destruct (Z.eqb_spec (sh_head h) (sh_tail h)) as [He|Hn].
  - rewrite He, Z.sub_diag in Hd. symmetry. apply bool_decide_eq_true. destruct live; [done|]. cbv in Hd. lia.
  - symmetry. apply bool_decide_eq_false. intros ->. apply Hn. rewrite (ri_tail _ _ _ _ _ _ Hi).
    destruct Hi as [[k Hw] _ _ _ _ _ _]. cbn. rewrite Z.add_0_r. symmetry. apply wrap_small, Hw.
Qed.

(** A step that touches neither the slots nor the indices, from and to points without obligations. *)
Definition plain_p p : bool := match p with PWrite _ _ _ => false | _ => true end.
Definition plain_c c : bool := match c with CPopMove _ _ | CPopStore _ _ _ => false | _ => true end.
Lemma ring_plain_p h p p' c pushed popped live : plain_p p = true → plain_p p' = true →
  ring_inv h p c pushed popped live → ring_inv h p' c pushed popped live.
Proof. intros Hp Hp' [? ? ? ? Hh ? ?]. split; try done; [|by destruct p']. by destruct p, p'. Qed.
Lemma ring_plain_c h p c c' pushed popped live : plain_c c = true → plain_c c' = true →
  ring_inv h p c pushed popped live → ring_inv h p c' pushed popped live.
Proof. intros Hc Hc' [? ? ? ? Hh ? ?]. split; try done; [|by destruct c']. unfold ring_content in *. by destruct c, c'. Qed.
Lemma ring_same h h' p c pushed popped live : sh_capacity h' = sh_capacity h → sh_backing h' = sh_backing h →
  sh_slots h' = sh_slots h → sh_head h' = sh_head h → sh_tail h' = sh_tail h →
  ring_inv h p c pushed popped live → ring_inv h' p c pushed popped live.
Proof. destruct h, h'. cbn. intros -> -> -> -> -> [[k [? ? ? ? ? ?]] ? ? ? ? ? ?]. by split; [exists k; split|..]. Qed.

Lemma length_ring_content live p c : length (ring_content live p c) = (length live + length (in_flight p))%nat.
Proof.
  unfold ring_content. rewrite length_app, !length_fmap. f_equal. destruct c, live; cbn; by rewrite ?length_fmap.
Qed.

Lemma ring_start_write h c items pushed popped live p : plain_p p = true → ring_inv h p c pushed popped live →
  (sh_capacity h - (sh_tail h -[64] sh_head h) <? Z.of_nat (length items)) = false →
  ring_inv h (PWrite items (sh_tail h) 0) c pushed popped live.
Proof.
  intros Hp Hi Hr. rewrite (ring_distance _ _ _ _ _ _ Hi) in Hr. destruct Hi as [? ? ? ? Hh ? ?].
  split; try done; [by destruct p|]. cbn. split; [done|]. split; [lia|]. destruct (Z.ltb_spec (sh_capacity h - Z.of_nat (length live)) (Z.of_nat (length items))); [done|lia].
Qed.

Lemma ring_write_slot h c items tail i x pushed popped live : items !! i = Some x →
  ring_inv h (PWrite items tail i) c pushed popped live →
  ring_inv (set_slot h (tail +[64] Z.of_nat i) (Some x)) (PWrite items tail (S i)) c pushed popped live ∧
  sh_slots h !! Storage h (tail +[64] Z.of_nat i) = Some None.
Proof.
  intros Hx [[k Hw] Hq Ht Hb Hh (-> & Hi & Hroom) Hc]. pose proof (lookup_lt_Some _ _ _ Hx) as Hlt.
  assert (E : sh_tail h +[64] Z.of_nat i = sh_head h +[64] Z.of_nat (length live + i)).
  { rewrite Ht. unfold wrap. rewrite Zplus_mod_idemp_l. f_equal. lia. }
  assert (Hlen : length (ring_content live (PWrite items (sh_tail h) i) c) = (length live + i)%nat).
  { rewrite length_ring_content. cbn. rewrite length_take. lia. }
  pose proof (rw_capacity _ _ Hw) as Hcap. pose proof (rw_backing _ _ Hw) as Hback.
  rewrite E. split.
  - split; try done.
    + exists k. destruct Hw as [? ? ? Hs ? ?]. split; try done. cbn. by rewrite length_insert.
    + eapply holds_write; [done..|lia|]. intros o.
      assert (Es : ring_content live (PWrite items (sh_tail h) (S i)) c =
                   ring_content live (PWrite items (sh_tail h) i) c ++ [Some x]).
      { unfold ring_content. cbn [in_flight]. rewrite (take_S_r _ _ _ Hx), fmap_app, app_assoc. done. }
      rewrite Es. destruct (decide (o = length live + i)%nat) as [->|Hne].
      * rewrite lookup_app_r by lia. rewrite Hlen, Nat.sub_diag. done.
      * destruct (decide (o < length live + i)%nat); [rewrite lookup_app_l by lia; done|].
        rewrite !(lookup_ge_None_2 _ o); [done|lia|]. rewrite length_app, Hlen. cbn. lia.
  - etransitivity; [apply (Hh (length live + i)%nat); lia|]. rewrite lookup_ge_None_2; [done|lia].
Qed.

Lemma ring_publish h c items tail i op pushed popped live : items !! i = None →
  ring_inv h (PWrite items tail i) c pushed popped live →
  ring_inv (store_tail h (tail +[64] Z.of_nat (length items))) (PWakeLoad op) c (pushed ++ items) popped (live ++ items).
Proof.
  intros Hx [[k Hw] Hq Ht Hb Hh (-> & Hi & Hroom) Hc]. apply lookup_ge_None_1 in Hx.
  assert (i = length items) as -> by lia. split.
  - exists k. destruct Hw. split; try done. cbn. apply wrap_range. lia.
  - by rewrite Hq, app_assoc.
  - cbn. rewrite length_app, Ht. unfold wrap. rewrite Zplus_mod_idemp_l. f_equal. lia.
  - cbn. by rewrite length_app.
  - intros o Ho. specialize (Hh o Ho). change (sh_slots h !! slot_at h o = Some (default None (ring_content (live ++ items) (PWakeLoad op) c !! o))).
    rewrite Hh. do 2 f_equal. unfold ring_content. cbn [in_flight]. rewrite firstn_all, fmap_nil, app_nil_r.
    destruct c; try (by rewrite fmap_app). destruct live; cbn; [by destruct Hc as [_ [? ?]]|]. by rewrite fmap_app.
  - done.
  - destruct c; try done; cbn in *.
    + destruct Hc as [-> Hne]. split; [done|]. by destruct live.
    + destruct Hc as [-> [rest ->]]. split; [done|]. by eexists.
Qed.

Lemma ring_move h p terminal head pushed popped live : ring_inv h p (CPopMove terminal head) pushed popped live →
  ∃ item, sh_slots h !! Storage h head = Some (Some item) ∧
    ring_inv (set_slot h head None) p (CPopStore terminal head item) pushed popped live.
Proof.
  intros [[k Hw] Hq Ht Hb Hh Hp [-> Hne]]. destruct live as [|item rest]; [done|].
  assert (E : sh_head h = sh_head h +[64] Z.of_nat 0).
  { rewrite Z.add_0_r. symmetry. apply wrap_small, Hw. }
  pose proof (rw_capacity _ _ Hw) as Hcap. pose proof (rw_backing _ _ Hw) as Hback. cbn [length] in Hb.
  exists item. split.
  { rewrite E at 1. apply (Hh 0%nat). lia. }
  split; try done.
  - exists k. destruct Hw as [? ? ? Hs ? ?]. split; try done. cbn. by rewrite length_insert.
  - rewrite E at 1. eapply holds_write; [done..|lia|]. intros [|o]; done.
  - split; [done|]. by eexists.
Qed.

Lemma ring_pop h p terminal head item c pushed popped live : plain_c c = true →
  ring_inv h p (CPopStore terminal head item) pushed popped live →
  ∃ rest, live = item :: rest ∧ ring_inv (store_head h (head +[64] 1)) p c pushed (popped ++ [item]) rest.
Proof.
  intros Hpc [[k Hw] Hq Ht Hb Hh Hp [-> [rest ->]]]. exists rest. split; [done|]. cbn [length] in *.
  pose proof (rw_capacity _ _ Hw) as Hcap. pose proof (rw_backing _ _ Hw) as Hback. split.
  - exists k. destruct Hw. split; try done. cbn. apply wrap_range. lia.
  - by rewrite <-app_assoc.
  - cbn. rewrite Ht. unfold wrap. rewrite Zplus_mod_idemp_l. f_equal. lia.
  - cbn. lia.
  - assert (Hlen : (length rest + length (in_flight p) < Z.to_nat (2 ^ k))%nat).
    { destruct p; cbn in *; try lia. destruct Hp as (_ & ? & ?). rewrite length_take. lia. }
    assert (Es : ring_content rest p c = (Some <$> rest) ++ (Some <$> in_flight p)).
    { unfold ring_content. destruct c; try done. }
    rewrite Es. eapply holds_advance; [done| |].
    + exact Hh.
    + rewrite length_app, !length_fmap. lia.
  - destruct p; try done. cbn in *. destruct Hp as (-> & ? & ?). split; [done|]. lia.
  - by destruct c.
Qed.
End RingProof.

Section Invariants.
Context {T : Type}.
Implicit Types s : HandoffSystem T.
Implicit Types h : SpscHandoff T.

Definition system_ring s (live : list T) : Prop :=
  ring_inv (hy_ring s) (hy_producer s) (hy_consumer s) (hy_pushed s) (hy_popped s) live.

(** Closes the steps that leave slots and indices alone. *)
Ltac ring_plain H :=
  eexists; unfold system_ring in *; cbn in *;
  first [ eapply ring_same; [..|eapply ring_plain_p; [..|eapply ring_plain_c; [..|exact H]]]; first [reflexivity|done]
        | eapply ring_same; [..|eapply ring_plain_p; [..|exact H]]; first [reflexivity|done]
        | eapply ring_same; [..|eapply ring_plain_c; [..|exact H]]; first [reflexivity|done] ].

Lemma producer_ring choice s s' live : system_ring s live → producer_step choice s = Some s' → ∃ live', system_ring s' live'.
Proof.
  destruct s as [h p c posts pushed popped batches]. unfold system_ring, producer_step. cbn. intros Hi Hs.
  destruct p; cbn in Hs; simplify_eq; unfold Abort_step, PostOrAbort_step, RequestClose_step, CommitWake_step, op_return; cbn;
    try (repeat case_match; ring_plain Hi).
  - destruct (Z.ltb (sh_capacity h - (sh_tail h -[64] sh_head h)) (Z.of_nat (length items))) eqn:E; [ring_plain Hi|].
    exists live. by apply (ring_start_write _ _ _ _ _ _ (PTryRoom items)).
  - destruct (items !! i) as [x|] eqn:E.
    + exists live. by apply ring_write_slot.
    + exists (live ++ items). by eapply ring_publish.
Qed.

Lemma consumer_ring choice s s' live : system_ring s live → consumer_step choice s = Some s' → ∃ live', system_ring s' live'.
Proof.
  destruct s as [h p c posts pushed popped batches]. unfold system_ring, consumer_step. cbn. intros Hi Hs.
  destruct c; cbn in Hs; simplify_eq; unfold DoStopShard_step, DrainSpscIngress_step, Claim, ArmWait, ScheduleContinuation, gate_cas; cbn;
    try (repeat case_match; simplify_eq/=; ring_plain Hi).
  - rewrite (ring_empty _ _ _ _ _ _ Hi). case_bool_decide as E; [repeat case_match; ring_plain Hi|].
    exists live. destruct Hi as [? ? ? ? ? ? ?]. by split.
  - apply ring_move in Hi as (item & -> & Hi). by eexists.
  - apply (ring_pop _ _ _ _ _ (if terminal || choice then CPop terminal else CCheckClosed)) in Hi as (rest & -> & Hi).
    + by eexists.
    + by repeat case_match.
Qed.

Lemma handoff_ring s l s' live : system_ring s live → handoff_step s l = Some s' → ∃ live', system_ring s' live'.
Proof.
  intros Hi Hs. destruct l; cbn in Hs; try solve [by eapply producer_ring|by eapply consumer_ring];
    unfold mutex_free in Hs; destruct s as [h p c posts pushed popped batches]; cbn in *;
    repeat case_match; simplify_eq/=; ring_plain Hi.
Qed.

(** *** The gate

    A token is the right, or the duty, to run the next drain: a posted handler, a handler about to
    claim, a post about to be made, or the abort that follows a failed post. *)
Definition producer_token (p : ProducerPc T) : nat :=
  match p with
  | PPost _ | PAbortClosing (Some _) | PAbortGate (Some _) => 1
  | _ => 0
  end.
Definition consumer_token (c : ConsumerPc T) : nat :=
  match c with CPost | CClaim _ | CAbortClosing true | CAbortGate true => 1 | _ => 0 end.
Definition tokens s : nat := length (hy_posts s) + producer_token (hy_producer s) + consumer_token (hy_consumer s).
Definition draining (c : ConsumerPc T) : bool :=
  match c with
  | CPop false | CPopMove false _ | CPopStore false _ _ | CCheckClosed | CCheckEmpty | CSchedule | CCheckClosing
  | CAbortClosing false | CAbortGate false | CArm => true
  | _ => false
  end.
Definition terminal_pop (c : ConsumerPc T) : bool :=
  match c with CPop true | CPopMove true _ | CPopStore true _ _ => true | _ => false end.
Definition producer_aborting (p : ProducerPc T) : bool := match p with PAbortGate _ => true | _ => false end.
Definition consumer_aborting (c : ConsumerPc T) : bool := match c with CAbortGate _ | CStopGate => true | _ => false end.
Definition loaded_closed (p : ProducerPc T) : bool := match p with PWakeCas _ HsClosed => true | _ => false end.
Definition stop_locked (c : ConsumerPc T) : bool := match c with CStopClosing | CStopGate => true | _ => false end.
Definition claimed_epoch (c : ConsumerPc T) : option Z := match c with CClaim e => Some e | _ => None end.

Record gate_inv s : Prop := {
  gi_gate : match sh_gate (hy_ring s) with
            | HsRunning => draining (hy_consumer s) = true ∧ tokens s = 0%nat
            | HsWaiting => draining (hy_consumer s) = false ∧ tokens s = 0%nat
            | HsScheduled => draining (hy_consumer s) = false ∧ tokens s = 1%nat
            | HsClosed => sh_closing (hy_ring s) = true ∧ (tokens s + (if draining (hy_consumer s) then 1 else 0) ≤ 1)%nat
            end;
  gi_terminal : terminal_pop (hy_consumer s) = true → sh_gate (hy_ring s) = HsClosed;
  gi_closing : producer_aborting (hy_producer s) || consumer_aborting (hy_consumer s) = true → sh_closing (hy_ring s) = true;
  gi_posts : Forall (eq (sh_epoch (hy_ring s))) (hy_posts s);
  gi_claim : ∀ e, claimed_epoch (hy_consumer s) = Some e → e = sh_epoch (hy_ring s);
  gi_stop : stop_locked (hy_consumer s) = true → hy_producer s = PIdle;
  gi_loaded : loaded_closed (hy_producer s) = true → sh_gate (hy_ring s) = HsClosed;
}.

(** Whoever made a parked consumer's queue non-empty, or asked for its close, still has to wake it,
    unless the consumer is about to look again. *)
Definition will_wake (p : ProducerPc T) : bool :=
  match p with PWakeLoad _ | PWakeCas _ _ | PAbortClosing _ | PAbortGate _ => true | _ => false end.
Definition rechecks_items (c : ConsumerPc T) : bool :=
  match c with CRecheckGate | CRecheckEmpty | CRecheckCas => true | _ => false end.
Definition rechecks_close (c : ConsumerPc T) : bool :=
  match c with CRecheckGate | CRecheckEmpty | CRecheckCas | CRecheckClosing | CStopGate => true | _ => false end.
Record wake_inv s : Prop := {
  wi_items : sh_gate (hy_ring s) = HsWaiting → Handoff_Empty (hy_ring s) = false →
    will_wake (hy_producer s) || rechecks_items (hy_consumer s) = true;
  wi_close : sh_gate (hy_ring s) = HsWaiting → sh_closing (hy_ring s) = true →
    will_wake (hy_producer s) || rechecks_close (hy_consumer s) = true;
}.

(** *** The answers of the pushes *)
Definition current_batch (p : ProducerPc T) : list T :=
  match p with
  | PWakeLoad (OpPush items) | PWakeCas (OpPush items) _ | PPost (OpPush items) | PAbortClosing (Some (OpPush items))
  | PAbortGate (Some (OpPush items)) => items
  | _ => []
  end.
Definition published_items (batches : list (list T * HandoffPush * bool)) : list T :=
  mjoin ((λ b : list T * HandoffPush * bool, if b.2 then b.1.1 else []) <$> batches).
Definition batch_ok (g : HandoffState) (b : list T * HandoffPush * bool) : Prop :=
  match b with
  | (_, PushAccepted, published) => published = true
  | (_, PushFull, published) => published = false
  | (_, PushClosed, published) => published = true → g = HsClosed
  end.
Record batch_inv s : Prop := {
  bi_pushed : hy_pushed s = published_items (hy_batches s) ++ current_batch (hy_producer s);
  bi_batches : Forall (batch_ok (sh_gate (hy_ring s))) (hy_batches s);
}.
Definition handoff_inv s : Prop := (∃ live, system_ring s live) ∧ gate_inv s ∧ wake_inv s ∧ batch_inv s.

(** Splits the goal of a control invariant into its fields and leaves them to propositional
    reasoning over the abbreviations above. *)
Ltac control_fields :=
  split; unfold tokens in *; cbn in *; rewrite ?length_app, ?Forall_app, ?Forall_singleton; cbn;
  try done; intros; repeat (case_match; simplify_eq/=); intuition (congruence || lia).

Lemma gate_producer choice s s' : gate_inv s → producer_step choice s = Some s' → gate_inv s'.
Proof.
  destruct s as [[cap ep back slots hd tl g cl] p c posts pushed popped batches]. intros [Hg Ht Hc Hp Hcl Hst Hlc] Hs.
  unfold producer_step, tokens in *. cbn in *.
  assert (Hno : p ≠ PIdle → stop_locked c = false) by (destruct (stop_locked c); naive_solver).
  destruct p; cbn in *; simplify_eq; unfold Abort_step, PostOrAbort_step, RequestClose_step, CommitWake_step, op_return, closed_gate; cbn;
    repeat (case_match; simplify_eq/=).
  all: specialize (Hno ltac:(done)); clear Hst; control_fields.
Qed.

Lemma gate_consumer choice s s' : gate_inv s → consumer_step choice s = Some s' → gate_inv s'.
Proof.
  destruct s as [[cap ep back slots hd tl g cl] p c posts pushed popped batches]. intros [Hg Ht Hc Hp Hcl Hst Hlc] Hs.
  unfold consumer_step, tokens in *. cbn in *.
  destruct c; cbn in *; simplify_eq;
    unfold DoStopShard_step, DrainSpscIngress_step, Claim, ArmWait, ScheduleContinuation, gate_cas, closed_gate; cbn;
    repeat (case_match; simplify_eq/=).
  all: try specialize (Hcl _ eq_refl).
  all: rewrite ?orb_true_r in Hc; control_fields.
Qed.

Lemma gate_step s l s' : gate_inv s → handoff_step s l = Some s' → gate_inv s'.
Proof.
  intros Hi Hs. destruct l; cbn in Hs; try solve [by eapply gate_producer|by eapply gate_consumer];
    destruct s as [[cap ep back slots hd tl g cl] p c posts pushed popped batches]; destruct Hi as [Hg Ht Hc Hp Hcl Hst Hlc];
    unfold mutex_free, tokens in *; cbn in *.
  4: destruct c; try done; destruct posts as [|e posts]; simplify_eq/=; apply Forall_cons in Hp as [-> Hp]; control_fields.
  all: destruct p; try done; destruct c; try done; cbn in *; simplify_eq/=; control_fields.
Qed.

Ltac wake_fields := split; unfold Handoff_Empty in *; cbn in *; intros; simplify_eq/=; rewrite ?orb_true_r, ?orb_false_r in *; intuition (congruence || lia).

Lemma wake_producer choice s s' : gate_inv s → wake_inv s → producer_step choice s = Some s' → wake_inv s'.
Proof.
  destruct s as [[cap ep back slots hd tl g cl] p c posts pushed popped batches]. intros [_ _ Hc _ _ _ Hlc] [Hi Hw] Hs.
  unfold producer_step, Handoff_Empty in *. cbn in *.
  destruct p; cbn in *; simplify_eq; unfold Abort_step, PostOrAbort_step, RequestClose_step, CommitWake_step, op_return, closed_gate; cbn;
    repeat (case_match; simplify_eq/=); wake_fields.
Qed.

Lemma wake_consumer choice s s' : gate_inv s → wake_inv s → consumer_step choice s = Some s' → wake_inv s'.
Proof.
  destruct s as [[cap ep back slots hd tl g cl] p c posts pushed popped batches]. intros [Hg Ht Hc _ _ _ _] [Hi Hw] Hs.
  unfold consumer_step, Handoff_Empty in *. cbn in *.
  destruct c; cbn in *; simplify_eq;
    unfold DoStopShard_step, DrainSpscIngress_step, Claim, ArmWait, ScheduleContinuation, gate_cas, closed_gate, Handoff_Empty; cbn;
    repeat (case_match; simplify_eq/=); wake_fields.
Qed.

Lemma wake_step s l s' : gate_inv s → wake_inv s → handoff_step s l = Some s' → wake_inv s'.
Proof.
  intros Hg Hi Hs. destruct l; cbn in Hs; try solve [by eapply wake_producer|by eapply wake_consumer];
    destruct s as [[cap ep back slots hd tl g cl] p c posts pushed popped batches]; destruct Hi as [Hi Hw];
    unfold mutex_free, Handoff_Empty in *; cbn in *.
  4: destruct c, posts; simplify_eq/=; wake_fields.
  all: destruct p; try done; destruct c; try done; cbn in *; simplify_eq/=; wake_fields.
Qed.

#[local] Arguments published_items : simpl never.
Lemma published_snoc batches b : published_items (batches ++ [b]) = published_items batches ++ (if b.2 then b.1.1 else []).
Proof. unfold published_items. rewrite fmap_app, join_app. cbn. by rewrite app_nil_r. Qed.

Lemma batch_ok_closed g batches : Forall (batch_ok g) batches → Forall (batch_ok HsClosed) batches.
Proof. intros H. eapply Forall_impl; [exact H|]. by intros [[? []] ?]. Qed.
Lemma batch_ok_open g g' batches : g ≠ HsClosed → Forall (batch_ok g) batches → Forall (batch_ok g') batches.
Proof. intros Hg H. eapply Forall_impl; [exact H|]. intros [[? []] ?]; cbn; try done. naive_solver. Qed.

Lemma batch_producer choice s s' : gate_inv s → batch_inv s → producer_step choice s = Some s' → batch_inv s'.
Proof.
  destruct s as [[cap ep back slots hd tl g cl] p c posts pushed popped batches]. intros [_ _ _ _ _ _ Hlc] [Hp Hb] Hs.
  unfold producer_step in Hs. cbn in *.
  destruct p; cbn in *; simplify_eq; unfold Abort_step, PostOrAbort_step, RequestClose_step, CommitWake_step, op_return, closed_gate; cbn;
    repeat (case_match; simplify_eq/=); split; cbn; rewrite ?published_snoc, ?Forall_app, ?Forall_singleton; cbn;
    rewrite ?app_nil_r in *; try done; try split; try done; eauto using batch_ok_closed.
  all: repeat match goal with H : _ && _ = true |- _ => apply andb_prop in H as [_ H%bool_decide_eq_true]; subst end.
  all: by eapply batch_ok_open; [|exact Hb].
Qed.

Lemma batch_consumer choice s s' : gate_inv s → batch_inv s → consumer_step choice s = Some s' → batch_inv s'.
Proof.
  destruct s as [[cap ep back slots hd tl g cl] p c posts pushed popped batches]. intros _ [Hp Hb] Hs.
  unfold consumer_step in Hs. cbn in *.
  destruct c; cbn in *; simplify_eq;
    unfold DoStopShard_step, DrainSpscIngress_step, Claim, ArmWait, ScheduleContinuation, gate_cas; cbn;
    repeat (case_match; simplify_eq/=); split; cbn in *; try done; eauto using batch_ok_closed.
  all: by eapply batch_ok_open; [|exact Hb].
Qed.

Lemma batch_step s l s' : gate_inv s → batch_inv s → handoff_step s l = Some s' → batch_inv s'.
Proof.
  intros Hg Hi Hs. destruct l; cbn in Hs; try solve [by eapply batch_producer|by eapply batch_consumer];
    destruct s as [[cap ep back slots hd tl g cl] p c posts pushed popped batches]; destruct Hi as [Hp Hb];
    unfold mutex_free in *; cbn in *.
  4: destruct c, posts; simplify_eq/=; done.
  all: destruct p; try done; destruct c; try done; cbn in *; simplify_eq/=; done.
Qed.

Lemma handoff_inv_step s l s' : handoff_inv s → handoff_step s l = Some s' → handoff_inv s'.
Proof.
  intros ([live Hr] & Hg & Hw & Hb) Hs. split; [by eapply handoff_ring|].
  split; [by eapply gate_step|]. split; [by eapply wake_step|by eapply batch_step].
Qed.

Lemma handoff_inv_start capacity epoch initial_index h : is_uint 64 initial_index → 1 ≤ capacity ≤ SIZE_MAX / 4 →
  SpscHandoff_new (T:=T) capacity epoch initial_index = Some h → handoff_inv (handoff_start h).
Proof.
  intros Hi Hc. destruct (Backing_spec capacity Hc) as (k & Hk & Hb & Hle). unfold SpscHandoff_new. rewrite Hb. cbn.
  intros [= <-]. split; [|split; [by split|split; [split; unfold Handoff_Empty; cbn; by rewrite ?Z.eqb_refl|by split]]].
  exists []. split; cbn; try done.
  - exists k. split; cbn; try done; [lia|by rewrite length_replicate].
  - rewrite Z.add_0_r. symmetry. by apply wrap_small.
  - lia.
  - intros o Ho. cbn in *. apply lookup_replicate_2. unfold slot_at.
    match goal with |- (Storage ?h _ < _)%nat => pose proof (slot_at_lt h k o) as Hl end.
    cbn in Hl. rewrite length_replicate in Hl. apply Hl. split; cbn; try done; [lia|by rewrite length_replicate].
Qed.

Lemma handoff_reachable_inv capacity epoch initial_index h s : is_uint 64 initial_index →
  SpscHandoff_new capacity epoch initial_index = Some h → 0 ≤ capacity → handoff_reachable h s → handoff_inv s.
Proof.
  intros Hi Hn Hc. assert (1 ≤ capacity ≤ SIZE_MAX / 4) as Hc'.
  { unfold SpscHandoff_new, Backing in Hn. destruct (Z.eqb_spec capacity 0); [done|].
    destruct (Z.ltb_spec (SIZE_MAX / 4) capacity); [done|]. lia. }
  induction 1 as [|s l s' _ IH Hs]; [by eapply handoff_inv_start|by eapply handoff_inv_step].
Qed.

Lemma handoff_run_reachable h s ls s' : handoff_reachable h s → handoff_run s ls = Some s' → handoff_reachable h s'.
Proof.
  revert s. induction ls as [|l ls IH]; intros s Hr Hrun; cbn in Hrun; [by simplify_eq|].
  destruct (handoff_step s l) as [s1|] eqn:E; [|done]. eapply IH; [|exact Hrun]. by eapply handoff_next.
Qed.

(** Neither side is running and no drain is posted. *)
Definition quiescent s : Prop := hy_producer s = PIdle ∧ hy_consumer s = CIdle ∧ hy_posts s = [].

(** Some step of a method or handler already under way, or of a posted drain, is enabled. *)
Lemma handoff_progress s : ¬ quiescent s →
  ∃ l s', (l = LProducer true ∨ l = LConsumer true ∨ l = LHandler) ∧ handoff_step s l = Some s'.
Proof.
  destruct s as [h p c posts pushed popped batches]. intros Hq.
  assert (Hp : p = PIdle ∨ ∃ s', producer_step true (mkSystem h p c posts pushed popped batches) = Some s').
  { destruct p; [by left|right; by eexists..]. }
  destruct Hp as [->|[s' Hp]]; [|exists (LProducer true), s'; split; [by left|exact Hp]].
  assert (Hc : c = CIdle ∨ ∃ s', consumer_step true (mkSystem h PIdle c posts pushed popped batches) = Some s').
  { destruct c; [by left|right; by eexists..]. }
  destruct Hc as [->|[s' Hc]]; [|exists (LConsumer true), s'; split; [by right; left|exact Hc]].
  destruct posts as [|e posts]; [exfalso; by apply Hq|]. eexists LHandler, _. split; [by right; right|done].
Qed.

(** What the invariant says of the queue and of the answers given. *)
Lemma inv_queue s : handoff_inv s → ∃ live,
  hy_pushed s = hy_popped s ++ live ∧
  sh_tail (hy_ring s) -[64] sh_head (hy_ring s) = Z.of_nat (length live) ∧
  Z.of_nat (length live) ≤ sh_capacity (hy_ring s) ∧
  (∀ items tail i x, hy_producer s = PWrite items tail i → items !! i = Some x →
     sh_slots (hy_ring s) !! Storage (hy_ring s) (tail +[64] Z.of_nat i) = Some None) ∧
  (∀ terminal hd, hy_consumer s = CPopMove terminal hd →
     sh_slots (hy_ring s) !! Storage (hy_ring s) hd = Some (head live)).
Proof.
  intros [[live Hr] _]. exists live. split; [apply Hr|]. split; [by eapply ring_distance|]. split; [apply Hr|]. split.
  - intros items tail i x Hp Hx. unfold system_ring in Hr. rewrite Hp in Hr. by eapply ring_write_slot.
  - intros terminal hd Hc. unfold system_ring in Hr. rewrite Hc in Hr.
    destruct (ring_move _ _ _ _ _ _ _ Hr) as (item & Hs & [_ _ _ _ _ _ [_ [rest ->]]]). exact Hs.
Qed.

Lemma inv_quiescent s : handoff_inv s → quiescent s →
  sh_gate (hy_ring s) = HsClosed ∨
  sh_gate (hy_ring s) = HsWaiting ∧ sh_closing (hy_ring s) = false ∧ hy_popped s = hy_pushed s.
Proof.
  intros ([live Hr] & Hg & Hw & _) (Hp & Hc & Hq). destruct Hg as [Hg _ _ _ _ _ _], Hw as [Hi Hcl].
  unfold tokens in Hg. rewrite Hp, Hc, Hq in *. cbn in *.
  destruct (sh_gate (hy_ring s)) eqn:Eg; [naive_solver| |naive_solver|by left]. right. split; [done|].
  split; [destruct (sh_closing (hy_ring s)); [|done]; by specialize (Hcl eq_refl eq_refl)|].
  rewrite (ring_empty _ _ _ _ _ _ Hr) in Hi. rewrite (ri_queue _ _ _ _ _ _ Hr).
  destruct live as [|x live]; [by rewrite app_nil_r|]. by specialize (Hi eq_refl eq_refl).
Qed.

Lemma inv_one_drain s : handoff_inv s → (tokens s + (if draining (hy_consumer s) then 1 else 0) ≤ 1)%nat.
Proof. intros (_ & [Hg _ _ _ _ _ _] & _). repeat case_match; intuition lia. Qed.
End Invariants.

(** C22: the queue between the producer and the consumer, in every state their interleaved accesses
    reach, for any capacity and any starting index.  The items published are exactly those consumed
    followed by those still held, in order, and never more than the capacity, also when the 64-bit
    indices wrap; the producer only ever constructs an item in raw storage, and the consumer only
    ever moves from the oldest item held.  A batch answered [Accepted] was published whole, one
    answered [Full] not at all, and nothing else was published. *)
Theorem handoff_fifo {T} capacity epoch initial_index (h : SpscHandoff T) s :
  is_uint 64 initial_index → 0 ≤ capacity → SpscHandoff_new capacity epoch initial_index = Some h → handoff_reachable h s →
  (∃ live, hy_pushed s = hy_popped s ++ live ∧
     sh_tail (hy_ring s) -[64] sh_head (hy_ring s) = Z.of_nat (length live) ∧
     Z.of_nat (length live) ≤ sh_capacity (hy_ring s) ∧
     (∀ items tail i x, hy_producer s = PWrite items tail i → items !! i = Some x →
        sh_slots (hy_ring s) !! Storage (hy_ring s) (tail +[64] Z.of_nat i) = Some None) ∧
     (∀ terminal hd, hy_consumer s = CPopMove terminal hd →
        sh_slots (hy_ring s) !! Storage (hy_ring s) hd = Some (head live))) ∧
  hy_pushed s = published_items (hy_batches s) ++ current_batch (hy_producer s) ∧
  Forall (batch_ok (sh_gate (hy_ring s))) (hy_batches s).
Proof.
  intros Hi Hc Hn Hr. pose proof (handoff_reachable_inv _ _ _ _ _ Hi Hn Hc Hr) as Hinv.
  split; [by apply inv_queue|]. split; apply Hinv.
Qed.

(** C23: the wake-up protocol.  In every reachable state at most one drain is running, posted or about
    to be posted; as long as a method, a handler or a posted drain is under way some step of it is
    possible; and when nothing is under way, either the endpoint was closed, or the consumer waits,
    no close was requested and every item ever published has been consumed: a push or a close
    never leaves the consumer asleep. *)
Theorem handoff_no_lost_wakeup {T} capacity epoch initial_index (h : SpscHandoff T) s :
  is_uint 64 initial_index → 0 ≤ capacity → SpscHandoff_new capacity epoch initial_index = Some h → handoff_reachable h s →
  (tokens s + (if draining (hy_consumer s) then 1 else 0) ≤ 1)%nat ∧
  (¬ quiescent s → ∃ l s', (l = LProducer true ∨ l = LConsumer true ∨ l = LHandler) ∧ handoff_step s l = Some s') ∧
  (quiescent s → sh_gate (hy_ring s) = HsClosed ∨
     sh_gate (hy_ring s) = HsWaiting ∧ sh_closing (hy_ring s) = false ∧ hy_popped s = hy_pushed s).
Proof.
  intros Hi Hc Hn Hr. pose proof (handoff_reachable_inv _ _ _ _ _ Hi Hn Hc Hr) as Hinv.
  split; [by apply inv_one_drain|]. split; [apply handoff_progress|by apply inv_quiescent].
Qed.

(** ** Witnesses *)
Definition push_labels (item : Z) (steps : nat) : list (HandoffLabel Z) := LPush [item] :: replicate steps (LProducer true).

(** A ring of three whose indices start just below the wrap: two items are pushed, the drain takes
    one while a third push is between its writes and its publication. *)
Definition handoff_example : option (HandoffSystem Z) :=
  h ← SpscHandoff_new 3 7 UINT64_MAX;
  handoff_run (handoff_start h)
    (push_labels 1 12 ++ push_labels 2 11 ++ [LHandler] ++ replicate 4 (LConsumer true) ++ push_labels 3 8 ++ [LConsumer true]).
Definition handoff_ring3 : SpscHandoff Z := default (mkHandoff 0 0 0 [] 0 0 HsClosed true) (SpscHandoff_new 3 7 UINT64_MAX).
Definition handoff_example_state : HandoffSystem Z := default (handoff_start handoff_ring3) handoff_example.

Lemma handoff_example_reachable : handoff_reachable handoff_ring3 handoff_example_state.
Proof.
  eapply (handoff_run_reachable _ (handoff_start handoff_ring3)); [constructor|].
  instantiate (1 := push_labels 1 12 ++ push_labels 2 11 ++ [LHandler] ++ replicate 4 (LConsumer true) ++ push_labels 3 8 ++
                    [LConsumer true]). vm_compute. reflexivity.
Qed.

Lemma handoff_fifo_witness : hy_popped handoff_example_state = [1] ∧ hy_pushed handoff_example_state = [1; 2] ∧
  (∃ live, [1; 2] = [1] ++ live ∧ Z.of_nat (length live) ≤ 3).
Proof.
  split; [vm_compute; reflexivity|]. split; [vm_compute; reflexivity|].
  assert (Hi : is_uint 64 UINT64_MAX) by (apply (bool_decide_unpack _); vm_compute; exact I).
  destruct (handoff_fifo 3 7 UINT64_MAX handoff_ring3 handoff_example_state Hi) as [(live & Hq & _ & Hl & _) _];
    [lia|vm_compute; reflexivity|exact handoff_example_reachable|].
  exists live. split; [exact Hq|exact Hl].
Defined.

Lemma handoff_no_lost_wakeup_witness : ¬ quiescent handoff_example_state ∧
  (tokens handoff_example_state + (if draining (hy_consumer handoff_example_state) then 1 else 0) ≤ 1)%nat.
Proof.
  split; [intros (_ & Hc & _); vm_compute in Hc; discriminate|].
  assert (Hi : is_uint 64 UINT64_MAX) by (apply (bool_decide_unpack _); vm_compute; exact I).
  refine (proj1 (handoff_no_lost_wakeup 3 7 UINT64_MAX handoff_ring3 handoff_example_state Hi _ _ _));
    [lia|vm_compute; reflexivity|exact handoff_example_reachable].
Defined.

(** A close requested between the drain's last look at the queue and its look at the closing flag
    makes the drain abort the endpoint although an accepted item is still queued. *)
Definition close_race_labels : list (HandoffLabel Z) :=
  push_labels 1 12 ++ [LHandler] ++ replicate 7 (LConsumer true) ++ push_labels 2 11 ++ [LClose] ++
  replicate 3 (LProducer true) ++ replicate 3 (LConsumer true).
Lemma close_race_drops_item :
  (λ s, (hy_producer s, hy_consumer s, hy_posts s, sh_gate (hy_ring s), hy_batches s, hy_popped s)) <$>
    handoff_run (handoff_start handoff_ring3) close_race_labels =
  Some (PIdle, CIdle, [], HsClosed, [([1], PushAccepted, true); ([2], PushAccepted, true)], [1]).
Proof. vm_compute. reflexivity. Qed.
