(* ===== verification/TapLane.v ===== *)
(** * Staging of the packets read by the output lanes

    [ppp/tap/TapLaneEnvelopeQueue.h] with its two callers in [linux/ppp/tap/TapLinux.cpp]:
    [StageLaneEnvelope], run by the readers of up to sixteen lanes, and [DrainLaneEnvelopes], the one
    consumer.  Every method of the queue holds its mutex for all it does, so a method is one step; the
    readers and the consumer interleave between methods, and a reader that was told to post the drain
    does so in a later step, which may fail. *)

From S2P Require Import Prelude.

Definition kMaxLanes : nat := 16.
Definition kMaxItems : Z := 1024.
Definition kMaxBytes : Z := 8 * 1024 * 1024.
Definition kDrainBatch : nat := 64.

Inductive LanePush := LaneAccepted | LanePostDrain | LaneFull | LaneClosed.
#[global] Instance LanePush_eq_dec : EqDecision LanePush.
Proof. solve_decision. Defined.

(** [Envelope]; a null [data] pointer is [None]. *)
Record Envelope (A : Type) := mkEnvelope { ev_data : option A; ev_length : Z; ev_lane : Z }.
Arguments mkEnvelope {A}. Arguments ev_data {A}. Arguments ev_length {A}. Arguments ev_lane {A}.

Record LaneQueue (A : Type) := mkLaneQueue {
  lq_lanes : list (list (Envelope A));
  lq_next_lane : Z;
  lq_queued : Z;
  lq_items : Z;
  lq_bytes : Z;
  lq_accepted : Z;
  lq_full_drops : Z;
  lq_closed_drops : Z;
  lq_drain_scheduled : bool;
  lq_closed : bool;
}.
Arguments mkLaneQueue {A}. Arguments lq_lanes {A}. Arguments lq_next_lane {A}. Arguments lq_queued {A}.
Arguments lq_items {A}. Arguments lq_bytes {A}. Arguments lq_accepted {A}. Arguments lq_full_drops {A}.
Arguments lq_closed_drops {A}. Arguments lq_drain_scheduled {A}. Arguments lq_closed {A}.

Section Queue.
Context {A : Type}.
Implicit Types q : LaneQueue A.
Implicit Types e : Envelope A.

Definition LaneQueue_new : LaneQueue A := mkLaneQueue (replicate kMaxLanes []) 0 0 0 0 0 0 0 false false.

Definition count_full q : LaneQueue A :=
  mkLaneQueue (lq_lanes q) (lq_next_lane q) (lq_queued q) (lq_items q) (lq_bytes q) (lq_accepted q) (lq_full_drops q +[64] 1)
    (lq_closed_drops q) (lq_drain_scheduled q) (lq_closed q).
Definition count_closed q : LaneQueue A :=
  mkLaneQueue (lq_lanes q) (lq_next_lane q) (lq_queued q) (lq_items q) (lq_bytes q) (lq_accepted q) (lq_full_drops q)
    (lq_closed_drops q +[64] 1) (lq_drain_scheduled q) (lq_closed q).

(** [Push]; [room] tells whether the deque could grow. *)
Definition Lane_Push (room : bool) (lane : Z) (data : option A) (len : Z) q : LanePush * LaneQueue A :=
  if (lane <? 0) || (Z.of_nat kMaxLanes <=? lane) || negb (bool_decide (is_Some data)) || (len =? 0) then (LaneFull, q) else
  if lq_closed q then (LaneClosed, count_closed q) else
  if (kMaxItems <=? lq_items q) || (kMaxBytes - lq_bytes q <? len) then (LaneFull, count_full q) else
  if negb room then (LaneFull, count_full q) else
  (if lq_drain_scheduled q then LaneAccepted else LanePostDrain,
   mkLaneQueue (<[Z.to_nat lane := default [] (lq_lanes q !! Z.to_nat lane) ++ [mkEnvelope data len lane]]> (lq_lanes q)) (lq_next_lane q)
     (lq_queued q +[64] 1) (lq_items q +[64] 1) (lq_bytes q +[64] len) (lq_accepted q +[64] 1) (lq_full_drops q)
     (lq_closed_drops q) true (lq_closed q)).

(** [Pop]: the first non-empty lane from [next_lane] on, cyclically. *)
Fixpoint pop_scan (fuel i : nat) q : option (Envelope A * LaneQueue A) :=
  match fuel with
  | O => None
  | S f =>
      let lane := Z.to_nat ((lq_next_lane q + Z.of_nat i) mod Z.of_nat kMaxLanes) in
      match default [] (lq_lanes q !! lane) with
      | [] => pop_scan f (S i) q
      | e :: rest =>
          Some (e, mkLaneQueue (<[lane := rest]> (lq_lanes q)) ((ev_lane e + 1) mod Z.of_nat kMaxLanes) (lq_queued q -[64] 1)
                     (lq_items q) (lq_bytes q) (lq_accepted q) (lq_full_drops q) (lq_closed_drops q) (lq_drain_scheduled q)
                     (lq_closed q))
      end
  end.
Definition Lane_Pop q : option (Envelope A * LaneQueue A) := if lq_queued q =? 0 then None else pop_scan kMaxLanes 0 q.

(** [Complete]: an envelope without data holds no credit. *)
Definition Lane_Complete e q : LaneQueue A :=
  match ev_data e with
  | None => q
  | Some _ => mkLaneQueue (lq_lanes q) (lq_next_lane q) (lq_queued q) (lq_items q -[64] 1) (lq_bytes q -[64] ev_length e)
                (lq_accepted q) (lq_full_drops q) (lq_closed_drops q) (lq_drain_scheduled q) (lq_closed q)
  end.

Definition Lane_EndDrain q : bool * LaneQueue A :=
  if negb (lq_queued q =? 0) && negb (lq_closed q) then (true, q) else
  (false, mkLaneQueue (lq_lanes q) (lq_next_lane q) (lq_queued q) (lq_items q) (lq_bytes q) (lq_accepted q) (lq_full_drops q)
            (lq_closed_drops q) false (lq_closed q)).

(** [Close]: the credit of each queued envelope is returned one by one. *)
Definition Lane_Close q : LaneQueue A :=
  let es := mjoin (lq_lanes q) in
  mkLaneQueue (replicate kMaxLanes []) (lq_next_lane q) 0 (foldl (λ n _, n -[64] 1) (lq_items q) es)
    (foldl (λ n e, n -[64] ev_length e) (lq_bytes q) es) (lq_accepted q) (lq_full_drops q) (lq_closed_drops q)
    (lq_drain_scheduled q) true.
End Queue.

(** ** The readers and the drain

    Where [DrainLaneEnvelopes] is: between handlers, at the head of the loop with a number of rounds
    left, in [OnInput] with an envelope, or about to post the continuation. *)
Inductive DrainPc (A : Type) := DIdle | DLoop (rounds : nat) | DInput (rounds : nat) (e : Envelope A) | DRepost.
Arguments DIdle {A}. Arguments DLoop {A}. Arguments DInput {A}. Arguments DRepost {A}.

(** [lt_owed] counts the readers that still have to post a drain, [lt_posted] the posted handlers;
    the last three fields record the envelopes accepted, delivered and dropped by a close. *)
Record LaneSystem (A : Type) := mkLaneSystem {
  lt_queue : LaneQueue A;
  lt_drain : DrainPc A;
  lt_owed : nat;
  lt_posted : nat;
  lt_accepted : list (Envelope A);
  lt_delivered : list (Envelope A);
  lt_dropped : list (Envelope A);
}.
Arguments mkLaneSystem {A}. Arguments lt_queue {A}. Arguments lt_drain {A}. Arguments lt_owed {A}. Arguments lt_posted {A}.
Arguments lt_accepted {A}. Arguments lt_delivered {A}. Arguments lt_dropped {A}.

Inductive LaneLabel (A : Type) :=
  | TStage (room : bool) (lane : Z) (data : A) (len : Z)
  | TPost (posted : bool) | TClose | THandler | TDrain.
Arguments TStage {A}. Arguments TPost {A}. Arguments TClose {A}. Arguments THandler {A}. Arguments TDrain {A}.

Section Steps.
Context {A : Type}.
Implicit Types s : LaneSystem A.

Definition close_system s : LaneSystem A :=
  mkLaneSystem (Lane_Close (lt_queue s)) (lt_drain s) (lt_owed s) (lt_posted s) (lt_accepted s) (lt_delivered s)
    (lt_dropped s ++ mjoin (lq_lanes (lt_queue s))).

(** [StageLaneEnvelope], up to the post: a packet of at least one byte is copied and pushed. *)
Definition StageLaneEnvelope (room : bool) (lane : Z) (data : A) (len : Z) s : LaneSystem A :=
  if len <=? 0 then s else
  let '(r, q) := Lane_Push room lane (Some data) len (lt_queue s) in
  let accepted := match r with LaneAccepted | LanePostDrain => [mkEnvelope (Some data) len lane] | _ => [] end in
  mkLaneSystem q (lt_drain s) (lt_owed s + match r with LanePostDrain => 1 | _ => 0 end) (lt_posted s)
    (lt_accepted s ++ accepted) (lt_delivered s) (lt_dropped s).

(** The post of a reader: when it fails the staging is closed. *)
Definition post_drain (posted : bool) s : option (LaneSystem A) :=
  match lt_owed s with
  | O => None
  | S owed =>
      let s := mkLaneSystem (lt_queue s) (lt_drain s) owed (lt_posted s + if posted then 1 else 0) (lt_accepted s)
                 (lt_delivered s) (lt_dropped s) in
      Some (if posted then s else close_system s)
  end.

(** One step of [DrainLaneEnvelopes]: a round's pop, the return of [OnInput], the end of the batch.  An adapter that has been
    disposed skips [OnInput] for what it pops; such an envelope counts as delivered here. *)
Definition DrainLaneEnvelopes_step s : option (LaneSystem A) :=
  let at_drain q d n dl := mkLaneSystem q d (lt_owed s) (lt_posted s + n) (lt_accepted s) (lt_delivered s ++ dl) (lt_dropped s) in
  let end_batch := let '(more, q) := Lane_EndDrain (lt_queue s) in at_drain q (if more then DRepost else DIdle) 0%nat [] in
  match lt_drain s with
  | DIdle => None
  | DLoop O => Some end_batch
  | DLoop (S r) =>
      match Lane_Pop (lt_queue s) with
      | None => Some end_batch
      | Some (e, q) => Some (at_drain q (DInput r e) 0%nat [e])
      end
  | DInput r e => Some (at_drain (Lane_Complete e (lt_queue s)) (DLoop r) 0%nat [])
  | DRepost => Some (at_drain (lt_queue s) DIdle 1%nat [])
  end.

Definition lane_step s (l : LaneLabel A) : option (LaneSystem A) :=
  match l with
  | TStage room lane data len => Some (StageLaneEnvelope room lane data len s)
  | TPost posted => post_drain posted s
  | TClose => Some (close_system s)
  | THandler =>
      match lt_drain s, lt_posted s with
      | DIdle, S n => Some (mkLaneSystem (lt_queue s) (DLoop kDrainBatch) (lt_owed s) n (lt_accepted s) (lt_delivered s) (lt_dropped s))
      | _, _ => None
      end
  | TDrain => DrainLaneEnvelopes_step s
  end.

Definition lane_start : LaneSystem A := mkLaneSystem LaneQueue_new DIdle 0 0 [] [] [].
Inductive lane_reachable : LaneSystem A → Prop :=
  | lane_init : lane_reachable lane_start
  | lane_next s l s' : lane_reachable s → lane_step s l = Some s' → lane_reachable s'.
Fixpoint tap_run s (ls : list (LaneLabel A)) : option (LaneSystem A) :=
  match ls with [] => Some s | l :: ls => s ← lane_step s l; tap_run s ls end.
End Steps.

(** ** Accounting *)
Section Accounting.
Context {A : Type}.
Implicit Types q : LaneQueue A.
Implicit Types s : LaneSystem A.
Implicit Types e : Envelope A.
Implicit Types es : list (Envelope A).

Definition bytes_of es : Z := foldr (λ e n, ev_length e + n) 0 es.
Definition envelope_ok (lane : nat) e : Prop :=
  ev_lane e = Z.of_nat lane ∧ is_Some (ev_data e) ∧ 0 < ev_length e.
Definition in_input s : list (Envelope A) := match lt_drain s with DInput _ e => [e] | _ => [] end.

Record queue_ok q (held : list (Envelope A)) : Prop := {
  qo_lanes : length (lq_lanes q) = kMaxLanes;
  qo_envelopes : ∀ i l, lq_lanes q !! i = Some l → Forall (envelope_ok i) l;
  qo_held : Forall (λ e, is_Some (ev_data e) ∧ 0 < ev_length e) held;
  qo_next : 0 ≤ lq_next_lane q < Z.of_nat kMaxLanes;
  qo_queued : lq_queued q = Z.of_nat (length (mjoin (lq_lanes q)));
  qo_items : lq_items q = Z.of_nat (length (held ++ mjoin (lq_lanes q)));
  qo_bytes : lq_bytes q = bytes_of (held ++ mjoin (lq_lanes q));
  qo_max_items : lq_items q ≤ kMaxItems;
  qo_max_bytes : lq_bytes q ≤ kMaxBytes;
  qo_closed : lq_closed q = true → mjoin (lq_lanes q) = [];
}.

Lemma bytes_of_app es es' : bytes_of (es ++ es') = bytes_of es + bytes_of es'.
Proof. induction es as [|e es IH]; cbn; [done|]. fold (bytes_of (es ++ es')) (bytes_of es). lia. Qed.

Lemma bytes_of_nonneg es : Forall (λ e, 0 < ev_length e) es → 0 ≤ bytes_of es.
Proof. induction 1 as [|e es He _ IH]; cbn; [lia|]. fold (bytes_of es). lia. Qed.

Lemma bytes_of_perm es es' : es ≡ₚ es' → bytes_of es = bytes_of es'.
Proof. induction 1; cbn; unfold bytes_of in *; lia. Qed.

Lemma join_insert (lanes : list (list (Envelope A))) i l l' : lanes !! i = Some l →
  mjoin (<[i := l']> lanes) = mjoin (take i lanes) ++ l' ++ mjoin (drop (S i) lanes) ∧
  mjoin lanes = mjoin (take i lanes) ++ l ++ mjoin (drop (S i) lanes).
Proof.
  intros Hl. pose proof (lookup_lt_Some _ _ _ Hl) as Hlt. split.
  - rewrite insert_take_drop by done. rewrite join_app. done.
  - rewrite <-(take_drop_middle _ _ _ Hl) at 1. by rewrite join_app.
Qed.

Lemma queue_valid q held : queue_ok q held → Forall (λ e, 0 < ev_length e) (held ++ mjoin (lq_lanes q)).
Proof.
  intros Hq. apply Forall_app. split; [eapply Forall_impl; [apply (qo_held _ _ Hq)|]; by intros e [_ ?]|].
  apply Forall_forall. intros e He. apply list_elem_of_join in He as (l & Hel & Hl).
  apply list_elem_of_lookup in Hl as [i Hi]. pose proof (qo_envelopes _ _ Hq _ _ Hi) as Hf.
  rewrite Forall_forall in Hf. by apply Hf.
Qed.

(** The counters stay within a word, so their arithmetic is exact. *)
Lemma foldl_credit es n : bytes_of es ≤ n < 2 ^ 64 → Forall (λ e, 0 < ev_length e) es →
  foldl (λ n e, n -[64] ev_length e) n es = n - bytes_of es.
Proof.
  revert n. induction es as [|e es IH]; intros n Hn Hf; cbn; [lia|]. apply Forall_cons in Hf as [He Hf].
  pose proof (bytes_of_nonneg es Hf). cbn in Hn. fold (bytes_of es) in *. rewrite wrap_small by (unfold is_uint; lia).
  rewrite IH; [lia|lia|done].
Qed.
Lemma foldl_count es n : Z.of_nat (length es) ≤ n < 2 ^ 64 → foldl (λ n (_ : Envelope A), n -[64] 1) n es = n - Z.of_nat (length es).
Proof.
  revert n. induction es as [|e es IH]; intros n Hn; cbn - [ Z.of_nat ]; [lia|]. cbn [length] in *.
  rewrite wrap_small by (unfold is_uint; lia). rewrite IH; lia.
Qed.

Lemma new_ok : queue_ok LaneQueue_new [].
Proof.
  split; try (vm_compute; done || lia).
  intros i l Hi. apply lookup_replicate in Hi as [-> _]. constructor.
Qed.

Lemma push_ok room lane data len q held r q' : queue_ok q held → 0 < len →
  Lane_Push room lane (Some data) len q = (r, q') →
  queue_ok q' held ∧ lq_closed q' = lq_closed q ∧ lq_next_lane q' = lq_next_lane q ∧
  match r with
  | LaneAccepted | LanePostDrain => lq_closed q = false ∧ lq_drain_scheduled q' = true ∧
      (r = LaneAccepted ↔ lq_drain_scheduled q = true) ∧
      ∃ i l, lane = Z.of_nat i ∧ lq_lanes q !! i = Some l ∧ lq_lanes q' = <[i := l ++ [mkEnvelope (Some data) len lane]]> (lq_lanes q)
  | _ => lq_lanes q' = lq_lanes q ∧ lq_drain_scheduled q' = lq_drain_scheduled q
  end.
Proof.
  intros Hq Hlen. unfold Lane_Push. rewrite bool_decide_true by (by eexists).
  destruct ((lane <? 0) || (Z.of_nat kMaxLanes <=? lane) || negb true || (len =? 0)) eqn:E1; [by intros [= <- <-]|].
  destruct (lq_closed q) eqn:Ecl; [intros [= <- <-]; split; [destruct Hq; by split|done]|].
  destruct ((kMaxItems <=? lq_items q) || (kMaxBytes - lq_bytes q <? len)) eqn:E2; [intros [= <- <-]; split; [destruct Hq; by split|done]|].
  destruct (negb room); [intros [= <- <-]; split; [destruct Hq; by split|done]|].
  intros [= <- <-]. assert (Hlane : 0 ≤ lane < Z.of_nat kMaxLanes) by blia.
  destruct (lookup_lt_is_Some_2 (lq_lanes q) (Z.to_nat lane)) as [l Hl]; [rewrite (qo_lanes _ _ Hq); lia|].
  rewrite Hl. cbn [default].
  pose proof (join_insert _ _ _ (l ++ [mkEnvelope (Some data) len lane]) Hl) as [Ej Ej0].
  assert (Hperm : mjoin (<[Z.to_nat lane := l ++ [mkEnvelope (Some data) len lane]]> (lq_lanes q)) ≡ₚ
                  mkEnvelope (Some data) len lane :: mjoin (lq_lanes q)).
  { rewrite Ej, Ej0. rewrite <-!app_assoc. cbn. by rewrite !app_assoc, <-Permutation_middle. }
  assert (Hb : 0 ≤ lq_bytes q). { rewrite (qo_bytes _ _ Hq). apply bytes_of_nonneg, queue_valid, Hq. }
  assert (Hi : 0 ≤ lq_queued q ∧ lq_queued q ≤ lq_items q ∧ lq_items q < kMaxItems).
  { rewrite (qo_queued _ _ Hq). pose proof (qo_items _ _ Hq) as Hit. rewrite length_app in Hit. blia. }
  assert (Hb2 : lq_bytes q + len ≤ kMaxBytes) by blia. unfold kMaxItems, kMaxBytes in *.
  split; cycle 1.
  { split; [done|]. split; [done|].
    destruct (lq_drain_scheduled q); (split; [done|]); (split; [done|]); (split; [done|]); exists (Z.to_nat lane), l;
      by rewrite Z2Nat.id by lia. }
  destruct Hq as [Hl1 Hl2 Hl3 Hl4 Hl5 Hl6 Hl7 Hl8 Hl9 Hl10].
  split; cbn; try done.
  - by rewrite length_insert.
  - intros i l' Hi'. destruct (decide (i = Z.to_nat lane)) as [->|Hne].
    + rewrite list_lookup_insert_eq in Hi' by (eapply lookup_lt_Some, Hl). simplify_eq. apply Forall_app. split; [by eapply Hl2|].
      apply Forall_singleton. split; cbn; [lia|]. split; [by eexists|lia].
    + rewrite list_lookup_insert_ne in Hi' by done. by eapply Hl2.
  - rewrite Hperm. cbn [length]. rewrite wrap_small by (unfold is_uint; lia). lia.
  - rewrite length_app, Hperm. cbn [length]. rewrite length_app in Hl6. rewrite wrap_small by (unfold is_uint; lia). lia.
  - rewrite bytes_of_app, (bytes_of_perm _ _ Hperm). rewrite bytes_of_app in Hl7. cbn. unfold bytes_of in *.
    rewrite wrap_small by (unfold is_uint; lia). lia.
  - unfold kMaxItems. rewrite wrap_small by (unfold is_uint; lia). lia.
  - unfold kMaxBytes. rewrite wrap_small by (unfold is_uint; lia). lia.
Qed.

(** [Pop] finds the first lane that holds something. *)
Definition lane_at q (o : nat) : nat := Z.to_nat ((lq_next_lane q + Z.of_nat o) mod Z.of_nat kMaxLanes).
Definition lane_of q (i : nat) : list (Envelope A) := default [] (lq_lanes q !! i).

Lemma pop_scan_spec fuel i q :
  match pop_scan fuel i q with
  | None => ∀ o, (i ≤ o < i + fuel)%nat → lane_of q (lane_at q o) = []
  | Some (e, q') => ∃ o rest, (i ≤ o < i + fuel)%nat ∧ lane_of q (lane_at q o) = e :: rest ∧
      (∀ o', (i ≤ o' < o)%nat → lane_of q (lane_at q o') = []) ∧
      q' = mkLaneQueue (<[lane_at q o := rest]> (lq_lanes q)) ((ev_lane e + 1) mod Z.of_nat kMaxLanes) (lq_queued q -[64] 1)
             (lq_items q) (lq_bytes q) (lq_accepted q) (lq_full_drops q) (lq_closed_drops q) (lq_drain_scheduled q) (lq_closed q)
  end.
Proof.
  revert i. induction fuel as [|fuel IH]; intros i; cbn [pop_scan]; [intros o Ho; lia|].
  fold (lane_at q i) (lane_of q (lane_at q i)). destruct (lane_of q (lane_at q i)) as [|e rest] eqn:E.
  - specialize (IH (S i)). destruct (pop_scan fuel (S i) q) as [[e q']|].
    + destruct IH as (o & rest & Ho & Hl & Hb & ->). exists o, rest. split; [lia|]. split; [done|]. split; [|done].
      intros o' Ho'. destruct (decide (o' = i)) as [->|]; [done|]. apply Hb. lia.
    + intros o Ho. destruct (decide (o = i)) as [->|]; [done|]. apply IH. lia.
  - exists i, rest. split; [lia|]. split; [done|]. split; [|done]. intros o' Ho'. lia.
Qed.

(** Sixteen offsets reach every lane. *)
Lemma lane_at_onto q i : 0 ≤ lq_next_lane q < Z.of_nat kMaxLanes → (i < kMaxLanes)%nat →
  lane_at q (Z.to_nat ((Z.of_nat i - lq_next_lane q) mod Z.of_nat kMaxLanes)) = i.
Proof.
  intros Hn Hi. unfold lane_at. rewrite Z2Nat.id by (apply Z.mod_pos_bound; done). rewrite Zplus_mod_idemp_r.
  replace (lq_next_lane q + (Z.of_nat i - lq_next_lane q)) with (Z.of_nat i) by lia. rewrite Z.mod_small by lia. lia.
Qed.

Lemma lane_at_lt q o : (lane_at q o < kMaxLanes)%nat.
Proof. unfold lane_at. pose proof (Z.mod_pos_bound (lq_next_lane q + Z.of_nat o) (Z.of_nat kMaxLanes) ltac:(done)). lia. Qed.

Lemma lane_of_empty q : (∀ i, (i < length (lq_lanes q))%nat → lane_of q i = []) → mjoin (lq_lanes q) = [].
Proof.
  unfold lane_of. generalize (lq_lanes q). intros ls. induction ls as [|l ls IH]; intros H; [done|]. rewrite mjoin_cons.
  pose proof (H 0%nat ltac:(cbn; lia)) as H0. cbn in H0. subst l. apply IH. intros i Hi. apply (H (S i)). cbn. lia.
Qed.

Lemma pop_none q held : queue_ok q held → Lane_Pop q = None → mjoin (lq_lanes q) = [].
Proof.
  intros Hq. unfold Lane_Pop. destruct (Z.eqb_spec (lq_queued q) 0) as [E|_].
  - intros _. rewrite (qo_queued _ _ Hq) in E. apply nil_length_inv. lia.
  - pose proof (pop_scan_spec kMaxLanes 0 q) as Hs. intros Hp. rewrite Hp in Hs. apply lane_of_empty. intros i Hi.
    rewrite (qo_lanes _ _ Hq) in Hi. rewrite <-(lane_at_onto q i (qo_next _ _ Hq) Hi). apply Hs.
    pose proof (Z.mod_pos_bound (Z.of_nat i - lq_next_lane q) (Z.of_nat kMaxLanes) ltac:(done)). lia.
Qed.

Lemma pop_ok q e q' : queue_ok q [] → Lane_Pop q = Some (e, q') →
  queue_ok q' [e] ∧ lq_closed q = false ∧ lq_closed q' = false ∧ lq_drain_scheduled q' = lq_drain_scheduled q ∧
  ∃ o rest, (o < kMaxLanes)%nat ∧ lq_lanes q !! lane_at q o = Some (e :: rest) ∧
    lq_lanes q' = <[lane_at q o := rest]> (lq_lanes q) ∧ ev_lane e = Z.of_nat (lane_at q o) ∧
    lq_next_lane q' = (ev_lane e + 1) mod Z.of_nat kMaxLanes ∧ (∀ o', (o' < o)%nat → lane_of q (lane_at q o') = []).
Proof.
  intros Hq. unfold Lane_Pop. destruct (lq_queued q =? 0); [done|]. pose proof (pop_scan_spec kMaxLanes 0 q) as Hs.
  intros Hp. rewrite Hp in Hs. destruct Hs as (o & rest & Ho & Hl & Hb & ->).
  assert (Hl' : lq_lanes q !! lane_at q o = Some (e :: rest)).
  { unfold lane_of in Hl. destruct (lq_lanes q !! lane_at q o); [|done]. by cbn in Hl; subst. }
  pose proof (join_insert _ _ _ rest Hl') as [Ej Ej0].
  assert (Hperm : mjoin (lq_lanes q) ≡ₚ e :: mjoin (<[lane_at q o := rest]> (lq_lanes q))).
  { rewrite Ej, Ej0. cbn. by rewrite <-Permutation_middle. }
  pose proof (qo_envelopes _ _ Hq _ _ Hl') as Hf. apply Forall_cons in Hf as [(He1 & He2 & He3) Hf].
  destruct Hq as [Hl1 Hl2 Hl3 Hl4 Hl5 Hl6 Hl7 Hl8 Hl9 Hl10]. cbn [app] in Hl6, Hl7. rewrite Hperm in Hl5, Hl6. cbn [length] in Hl5, Hl6.
  assert (Hcl : lq_closed q = false).
  { destruct (lq_closed q); [|done]. specialize (Hl10 eq_refl). rewrite Hl10 in Hperm. by apply Permutation_nil_cons in Hperm. }
  split; [|split; [done|split; [done|split; [done|]]]].
  - split; cbn; try done.
    + by rewrite length_insert.
    + intros i l' Hi'. destruct (decide (i = lane_at q o)) as [->|Hne].
      * rewrite list_lookup_insert_eq in Hi' by (eapply lookup_lt_Some, Hl'). by simplify_eq.
      * rewrite list_lookup_insert_ne in Hi' by done. by eapply Hl2.
    + by apply Forall_singleton.
    + apply Z.mod_pos_bound. done.
    + unfold kMaxItems in *. rewrite wrap_small by (unfold is_uint; lia). lia.
    + by rewrite Hl7, (bytes_of_perm _ _ Hperm).
    + congruence.
  - exists o, rest. split; [lia|]. split; [done|]. split; [done|]. split; [done|]. split; [done|]. intros o' Ho'. apply Hb. lia.
Qed.

Lemma complete_ok q e : queue_ok q [e] → queue_ok (Lane_Complete e q) [] ∧ lq_lanes (Lane_Complete e q) = lq_lanes q ∧
  lq_closed (Lane_Complete e q) = lq_closed q ∧ lq_drain_scheduled (Lane_Complete e q) = lq_drain_scheduled q.
Proof.
  intros Hq. pose proof (queue_valid _ _ Hq) as Hv. destruct Hq as [Hl1 Hl2 Hl3 Hl4 Hl5 Hl6 Hl7 Hl8 Hl9 Hl10].
  apply Forall_singleton in Hl3 as [[d Hd] He]. unfold Lane_Complete. rewrite Hd. cbn in *. fold (bytes_of (mjoin (lq_lanes q))) in *.
  apply Forall_cons in Hv as [_ Hv]. pose proof (bytes_of_nonneg _ Hv). unfold kMaxItems, kMaxBytes in *.
  split; [|done]. split; cbn; try done; unfold kMaxItems, kMaxBytes;
  rewrite ?wrap_small by (unfold is_uint; lia); try lia.
  fold (bytes_of (mjoin (lq_lanes q))). lia.
Qed.

Lemma close_ok q held : queue_ok q held → queue_ok (Lane_Close q) held ∧ lq_closed (Lane_Close q) = true ∧
  lq_drain_scheduled (Lane_Close q) = lq_drain_scheduled q ∧ lq_lanes (Lane_Close q) = replicate kMaxLanes [].
Proof.
  intros Hq. pose proof (queue_valid _ _ Hq) as Hv. destruct Hq as [Hl1 Hl2 Hl3 Hl4 Hl5 Hl6 Hl7 Hl8 Hl9 Hl10].
  apply Forall_app in Hv as [Hvh Hv]. rewrite bytes_of_app in Hl7. rewrite length_app in Hl6.
  pose proof (bytes_of_nonneg _ Hv). pose proof (bytes_of_nonneg _ Hvh). unfold kMaxItems, kMaxBytes in *.
  split; [|done]. unfold Lane_Close. rewrite foldl_count, foldl_credit by (done || lia).
  split; cbn; try done; unfold kMaxItems, kMaxBytes; rewrite ?app_nil_r; try lia.
  intros i l Hi. apply (lookup_replicate 16 []) in Hi as [-> _]. constructor.
Qed.
End Accounting.

(** ** The system *)
Section System.
Context {A : Type}.
Implicit Types q : LaneQueue A.
Implicit Types s : LaneSystem A.
Implicit Types e : Envelope A.

Definition of_lane (i : nat) (es : list (Envelope A)) : list (Envelope A) := filter (λ e, ev_lane e = Z.of_nat i) es.
Definition drain_tokens s : nat := (lt_owed s + lt_posted s + match lt_drain s with DIdle => 0 | _ => 1 end)%nat.

#[local] Arguments of_lane : simpl never.
#[local] Arguments drain_tokens : simpl never.
#[local] Arguments lane_of : simpl never.

Record tap_inv s : Prop := {
  li_queue : queue_ok (lt_queue s) (in_input s);
  li_fifo : ∀ i, (i < kMaxLanes)%nat →
    of_lane i (lt_accepted s) = of_lane i (lt_delivered s) ++ of_lane i (lt_dropped s) ++ lane_of (lt_queue s) i;
  li_dropped : lq_closed (lt_queue s) = false → lt_dropped s = [];
  li_tokens : if lq_closed (lt_queue s) then (drain_tokens s ≤ 1)%nat
              else drain_tokens s = if lq_drain_scheduled (lt_queue s) then 1%nat else 0%nat;
  li_idle : lq_drain_scheduled (lt_queue s) = false → mjoin (lq_lanes (lt_queue s)) = [];
}.

Lemma of_lane_join ls k i : (∀ j l, ls !! j = Some l → Forall (envelope_ok (k + j)) l) →
  of_lane i (mjoin ls) = if decide (k ≤ i)%nat then default [] (ls !! (i - k)%nat) else [].
Proof.
  revert k. induction ls as [|l ls IH]; intros k Hls; [by case_decide|].
  rewrite mjoin_cons. unfold of_lane in *. rewrite filter_app, (IH (S k)).
  2: { intros j l' Hj. rewrite Nat.add_succ_comm. by apply (Hls (S j)). }
  pose proof (Hls 0%nat l eq_refl) as Hl. rewrite Nat.add_0_r in Hl.
  destruct (decide (k = i)) as [->|Hne].
  - rewrite decide_False, decide_True, Nat.sub_diag, app_nil_r by lia. cbn.
    clear -Hl. induction Hl as [|e l [He _] _ IH]; [done|]. rewrite filter_cons, decide_True by done. by f_equal.
  - assert (E : filter (λ e, ev_lane e = Z.of_nat i) l = []).
    { clear -Hl Hne. induction Hl as [|e l [He _] _ IH]; [done|]. rewrite filter_cons, decide_False; [done|lia]. }
    rewrite E. destruct (decide (k ≤ i)%nat); [rewrite decide_True by lia|by rewrite decide_False by lia].
    replace (i - k)%nat with (S (i - S k)) by lia. done.
Qed.

Lemma of_lane_lanes q held i : queue_ok q held → of_lane i (mjoin (lq_lanes q)) = lane_of q i.
Proof. intros Hq. rewrite (of_lane_join _ 0) by apply Hq. by rewrite decide_True, Nat.sub_0_r by lia. Qed.

Lemma of_lane_app i es es' : of_lane i (es ++ es') = of_lane i es ++ of_lane i es'.
Proof. apply filter_app. Qed.

Lemma of_lane_single i e j : ev_lane e = Z.of_nat j → of_lane i [e] = if decide (j = i) then [e] else [].
Proof.
  intros He. unfold of_lane. rewrite filter_cons, filter_nil. destruct (decide (j = i)) as [->|Hne].
  - by rewrite decide_True.
  - rewrite decide_False; [done|]. lia.
Qed.

Lemma lane_of_insert q q' i j l : (j < length (lq_lanes q))%nat → lq_lanes q' = <[j := l]> (lq_lanes q) →
  lane_of q' i = if decide (j = i) then l else lane_of q i.
Proof.
  intros Hj E. unfold lane_of. rewrite E. destruct (decide (j = i)) as [->|Hne].
  - by rewrite list_lookup_insert_eq.
  - by rewrite list_lookup_insert_ne.
Qed.

Lemma close_inv s : tap_inv s → tap_inv (close_system s).
Proof.
  intros [Hq Hf Hd Ht Hi]. destruct (close_ok _ _ Hq) as (Hq' & Hcl & Hsch & Hlanes). split; try done.
  - intros i Hi'. cbn [lt_accepted lt_delivered lt_dropped lt_queue close_system]. rewrite of_lane_app, Hf by done.
    assert (E : lane_of (Lane_Close (lt_queue s)) i = []) by (unfold lane_of; by rewrite Hlanes, lookup_replicate_2).
    by rewrite (of_lane_lanes _ _ _ Hq), E, app_nil_r.
  - change (drain_tokens s ≤ 1)%nat. destruct (lq_closed (lt_queue s)); [done|]. rewrite Ht. case_match; lia.
Qed.

Lemma stage_inv room lane data len s : tap_inv s → tap_inv (StageLaneEnvelope room lane data len s).
Proof.
  intros [Hq Hf Hd Ht Hi]. unfold StageLaneEnvelope. destruct (Z.leb_spec len 0) as [|Hlen]; [done|].
  destruct (Lane_Push room lane (Some data) len (lt_queue s)) as [r q'] eqn:E.
  destruct (push_ok _ _ _ _ _ _ _ _ Hq Hlen E) as (Hq' & Hcl & _ & Hr).
  destruct r.
  1,2: destruct Hr as (Hopen & Hsch & Hiff & i & l & -> & Hl & Hlanes); rewrite Hopen in Ht;
    (split; cbn; [exact Hq'| |by rewrite Hcl| |by rewrite Hsch]);
    [ intros j Hj; rewrite of_lane_app, Hf, <-!app_assoc by done;
      rewrite (of_lane_single _ _ i) by done;
      rewrite (lane_of_insert _ _ j _ _ (lookup_lt_Some _ _ _ Hl) Hlanes);
      destruct (decide (i = j)) as [->|]; [|by rewrite app_nil_r]; unfold lane_of; by rewrite Hl
    | rewrite Hcl, Hopen, Hsch; unfold drain_tokens in *; cbn ].
  - destruct Hiff as [Hiff _]. rewrite Hiff in Ht by done. lia.
  - destruct (lq_drain_scheduled (lt_queue s)); [by destruct Hiff as [_ Hiff]; specialize (Hiff eq_refl)|]. lia.
  - destruct Hr as [Hlanes Hsch].
    split; cbn; rewrite ?app_nil_r, ?Hcl, ?Hsch, ?Hlanes; try done; [unfold lane_of; by rewrite Hlanes|].
    unfold drain_tokens in *. cbn. by rewrite Nat.add_0_r.
  - destruct Hr as [Hlanes Hsch].
    split; cbn; rewrite ?app_nil_r, ?Hcl, ?Hsch, ?Hlanes; try done; [unfold lane_of; by rewrite Hlanes|].
    unfold drain_tokens in *. cbn. by rewrite Nat.add_0_r.
Qed.

Lemma end_drain_inv s q more d : tap_inv s → in_input s = [] → lt_drain s ≠ DIdle → Lane_EndDrain (lt_queue s) = (more, q) →
  d = (if more then DRepost else DIdle) →
  tap_inv (mkLaneSystem q d (lt_owed s) (lt_posted s + 0) (lt_accepted s) (lt_delivered s ++ []) (lt_dropped s)).
Proof.
  intros [Hq Hf Hd Ht Hi] Hin Hdr. unfold Lane_EndDrain. unfold drain_tokens in Ht. rewrite Hin in Hq.
  destruct (negb (lq_queued (lt_queue s) =? 0) && negb (lq_closed (lt_queue s))) eqn:E; intros [= <- <-] ->.
  - split; cbn; rewrite ?app_nil_r; try done. unfold drain_tokens. cbn. destruct (lt_drain s); try done; by rewrite Nat.add_0_r.
  - assert (He : mjoin (lq_lanes (lt_queue s)) = []).
    { apply andb_false_iff in E as [E|E]; [|apply Hq; by destruct (lq_closed (lt_queue s))].
      apply negb_false_iff, Z.eqb_eq in E. rewrite (qo_queued _ _ Hq) in E. apply nil_length_inv. lia. }
    split; cbn; rewrite ?app_nil_r; try done; [by destruct Hq; split|].
    unfold drain_tokens. cbn. rewrite Nat.add_0_r.
    destruct (lt_drain s), (lq_closed (lt_queue s)), (lq_drain_scheduled (lt_queue s)); try done; lia.
Qed.

Lemma pop_inv s r e q : tap_inv s → lt_drain s = DLoop (S r) → Lane_Pop (lt_queue s) = Some (e, q) →
  tap_inv (mkLaneSystem q (DInput r e) (lt_owed s) (lt_posted s + 0) (lt_accepted s) (lt_delivered s ++ [e]) (lt_dropped s)).
Proof.
  intros [Hq Hf Hd Ht Hi] Hdr Hp. unfold in_input in Hq. rewrite Hdr in Hq.
  destruct (pop_ok _ _ _ Hq Hp) as (Hq' & Hopen & Hopen' & Hsch & o & rest & _ & Hl & Hlanes & Hlane & _).
  unfold drain_tokens in Ht. rewrite Hdr in Ht. split; cbn; try done.
  - intros i Hi'. rewrite of_lane_app, (of_lane_single _ _ _ Hlane), Hf, Hd by done.
    rewrite (lane_of_insert _ _ i _ _ (lookup_lt_Some _ _ _ Hl) Hlanes).
    destruct (decide (lane_at (lt_queue s) o = i)) as [<-|]; [|by rewrite app_nil_r].
    unfold lane_of. rewrite Hl. cbn. by rewrite <-app_assoc.
  - intros _. by apply Hd.
  - unfold drain_tokens. cbn. by rewrite Hopen', Hopen, Hsch, Nat.add_0_r in *.
  - rewrite Hsch. intros Hs. rewrite Hlanes. pose proof (Hi Hs) as He.
    destruct (join_insert _ _ _ rest Hl) as [_ Ej]. rewrite Ej in He. apply app_eq_nil in He as [_ He]. done.
Qed.

Lemma tap_inv_step s l s' : tap_inv s → lane_step s l = Some s' → tap_inv s'.
Proof.
  intros Hinv. destruct l as [room lane data len|posted| | |]; cbn.
  - intros [= <-]. by apply stage_inv.
  - unfold post_drain. destruct (lt_owed s) as [|owed] eqn:Eo; [done|].
    assert (Ht : ∀ n, (n ≤ 1)%nat → (owed + (lt_posted s + n) ≤ lt_owed s + lt_posted s)%nat) by lia.
    destruct posted; intros [= <-].
    + destruct Hinv as [Hq Hf Hd Hk Hi]. split; cbn; try done. unfold drain_tokens in *. cbn. rewrite Eo in Hk.
      replace (owed + (lt_posted s + 1))%nat with (S owed + lt_posted s)%nat by lia. done.
    + assert (Hc : tap_inv (close_system s)) by by apply close_inv. destruct Hc as [Hq Hf Hd Hk Hi]. split; cbn in *; try done.
      unfold drain_tokens in *. cbn in *. lia.
  - intros [= <-]. by apply close_inv.
  - destruct (lt_drain s) eqn:Ed; try done. destruct (lt_posted s) as [|n] eqn:Ep; try done. intros [= <-].
    destruct Hinv as [Hq Hf Hd Hk Hi]. unfold in_input in Hq. rewrite Ed in Hq. split; cbn; try done.
    unfold drain_tokens in *. cbn. rewrite Ed, Ep in Hk. by replace (lt_owed s + n + 1)%nat with (lt_owed s + S n + 0)%nat by lia.
  - unfold DrainLaneEnvelopes_step. destruct (lt_drain s) as [|[|r]|r e|] eqn:Ed; [done| | | |].
    + destruct (Lane_EndDrain (lt_queue s)) as [more q] eqn:Ee. intros [= <-].
      by apply (end_drain_inv s _ more); [..|unfold in_input; rewrite Ed|rewrite Ed| |].
    + destruct (Lane_Pop (lt_queue s)) as [[e q]|] eqn:Ep; [intros [= <-]; by eapply pop_inv|].
      destruct (Lane_EndDrain (lt_queue s)) as [more q] eqn:Ee. intros [= <-].
      by apply (end_drain_inv s _ more); [..|unfold in_input; rewrite Ed|rewrite Ed| |].
    + intros [= <-]. destruct Hinv as [Hq Hf Hd Hk Hi]. unfold in_input in Hq. rewrite Ed in Hq.
      destruct (complete_ok _ _ Hq) as (Hq' & Hl & Hc & Hs).
      split; cbn; rewrite ?Hc, ?Hs, ?Hl, ?app_nil_r; try done; [unfold lane_of; by rewrite Hl|].
      unfold drain_tokens in *. cbn. rewrite Ed in Hk. by rewrite Nat.add_0_r.
    + intros [= <-]. destruct Hinv as [Hq Hf Hd Hk Hi]. unfold in_input in Hq. rewrite Ed in Hq.
      split; cbn; rewrite ?app_nil_r; try done. unfold drain_tokens in *. cbn. rewrite Ed in Hk.
      by replace (lt_owed s + (lt_posted s + 1) + 0)%nat with (lt_owed s + lt_posted s + 1)%nat by lia.
Qed.

Lemma tap_inv_start : tap_inv lane_start.
Proof. split; try done; [apply new_ok|]. intros i Hi. cbn. unfold lane_of. cbn [lt_queue lane_start lq_lanes LaneQueue_new]. by rewrite lookup_replicate_2. Qed.

Lemma lane_reachable_inv s : lane_reachable s → tap_inv s.
Proof. induction 1 as [|s l s' _ IH Hs]; [apply tap_inv_start|by eapply tap_inv_step]. Qed.

(** Nothing queued and nothing under way: all counters are back at zero. *)
Lemma idle_empty s : tap_inv s → drain_tokens s = 0%nat →
  lq_items (lt_queue s) = 0 ∧ lq_bytes (lt_queue s) = 0 ∧ lq_queued (lt_queue s) = 0 ∧
  (lq_closed (lt_queue s) = false → ∀ i, (i < kMaxLanes)%nat → of_lane i (lt_accepted s) = of_lane i (lt_delivered s)).
Proof.
  intros [Hq Hf Hd Hk Hi] H0. unfold drain_tokens in H0.
  assert (Hdr : in_input s = []) by (unfold in_input; destruct (lt_drain s); [done|lia..]).
  assert (He : mjoin (lq_lanes (lt_queue s)) = []).
  { unfold drain_tokens in Hk. rewrite H0 in Hk. destruct (lq_closed (lt_queue s)) eqn:Ec; [by apply Hq|].
    apply Hi. by destruct (lq_drain_scheduled (lt_queue s)). }
  rewrite Hdr in Hq. pose proof Hq as [_ _ _ _ Hqd Hit Hby _ _ _]. cbn in Hit, Hby. rewrite He in *. cbn in *.
  do 3 (split; [done|]). intros Hc i Hi'. rewrite Hf, Hd by done. rewrite <-(of_lane_lanes _ _ _ Hq), He. by rewrite app_nil_r.
Qed.

(** ** Fairness *)
Definition lane_distance q (i : nat) : nat := Z.to_nat ((Z.of_nat i - lq_next_lane q) mod Z.of_nat kMaxLanes).

Lemma lane_distance_lt q i : (lane_distance q i < kMaxLanes)%nat.
Proof. unfold lane_distance. pose proof (Z.mod_pos_bound (Z.of_nat i - lq_next_lane q) (Z.of_nat kMaxLanes) ltac:(done)). lia. Qed.

(** A pop either serves the lane or brings it nearer. *)
Lemma pop_distance q e q' i x rest : queue_ok q [] → Lane_Pop q = Some (e, q') → lq_lanes q !! i = Some (x :: rest) →
  e = x ∨ lq_lanes q' !! i = Some (x :: rest) ∧ (lane_distance q' i < lane_distance q i)%nat.
Proof.
  intros Hq Hp Hi. destruct (pop_ok _ _ _ Hq Hp) as (_ & _ & _ & _ & o & rest' & Ho & Hl & Hlanes & Hlane & Hnext & Hb).
  pose proof (lookup_lt_Some _ _ _ Hi) as Hlt. rewrite (qo_lanes _ _ Hq) in Hlt.
  destruct (decide (lane_at q o = i)) as [<-|Hne]; [left; congruence|right].
  split; [by rewrite Hlanes, list_lookup_insert_ne|].
  pose proof (lane_at_onto q i (qo_next _ _ Hq) Hlt) as Hon. fold (lane_distance q i) in Hon.
  assert (Hlo : (o < lane_distance q i)%nat).
  { destruct (decide (o < lane_distance q i)%nat) as [|Hge]; [done|]. destruct (decide (o = lane_distance q i)) as [->|]; [done|].
    specialize (Hb (lane_distance q i) ltac:(lia)). rewrite Hon in Hb. unfold lane_of in Hb. by rewrite Hi in Hb. }
  pose proof (lane_distance_lt q i). pose proof (qo_next _ _ Hq) as Hn. pose proof (lane_at_lt q o).
  unfold lane_distance, lane_at in *. rewrite Hnext, Hlane. unfold kMaxLanes in *. change (Z.of_nat 16) with 16 in *.
  pose proof (Z.mod_pos_bound (lq_next_lane q + Z.of_nat o) 16 ltac:(lia)).
  pose proof (Z.mod_pos_bound (Z.of_nat i - lq_next_lane q) 16 ltac:(lia)).
  rewrite Z2Nat.id by lia. rewrite Zminus_mod_idemp_r, Z.sub_add_distr, <-(Zminus_mod_idemp_l (_ - _) 1).
  rewrite Zminus_mod_idemp_r, Zminus_mod_idemp_l.
  replace (Z.of_nat i - (lq_next_lane q + Z.of_nat o) - 1) with ((Z.of_nat i - lq_next_lane q) - (Z.of_nat o + 1)) by lia.
  rewrite <-Zminus_mod_idemp_l, Z.mod_small by lia. lia.
Qed.

Lemma run_closed s ls s' : tap_run s ls = Some s' → lq_closed (lt_queue s) = true → lq_closed (lt_queue s') = true.
Proof.
  revert s. induction ls as [|l ls IH]; intros s; cbn; [by intros [= <-]|].
  destruct (lane_step s l) as [s1|] eqn:E; [|done]. intros Hr Hc. eapply IH; [exact Hr|]. clear -E Hc.
  destruct l; cbn in E.
  - simplify_eq. unfold StageLaneEnvelope, Lane_Push. by repeat case_match; simplify_eq/=.
  - unfold post_drain in E. by repeat case_match; simplify_eq/=.
  - by simplify_eq.
  - by repeat case_match; simplify_eq/=.
  - unfold DrainLaneEnvelopes_step, Lane_EndDrain, Lane_Complete, Lane_Pop in E.
    destruct (lt_drain s) as [|[]| |]; simplify_eq/=; repeat case_match; simplify_eq/=; try done.
Qed.

(** A step that is not a pop leaves a queued envelope and the round-robin position where they are. *)
Lemma step_keeps s l s1 i x rest : tap_inv s → lane_step s l = Some s1 → lq_closed (lt_queue s1) = false →
  lq_lanes (lt_queue s) !! i = Some (x :: rest) →
  lt_delivered s1 = lt_delivered s ∧ (∃ rest', lq_lanes (lt_queue s1) !! i = Some (x :: rest')) ∧
    lane_distance (lt_queue s1) i = lane_distance (lt_queue s) i
  ∨ ∃ e, lt_delivered s1 = lt_delivered s ++ [e] ∧
    (e = x ∨ (∃ rest', lq_lanes (lt_queue s1) !! i = Some (x :: rest')) ∧
             (lane_distance (lt_queue s1) i < lane_distance (lt_queue s) i)%nat).
Proof.
  intros [Hq Hf Hd Ht Hi] E Hc Hl. destruct l; cbn in E.
  - simplify_eq. left. unfold StageLaneEnvelope in *. destruct (Z.leb_spec len 0) as [|Hlen]; [by eauto|].
    destruct (Lane_Push room lane (Some data) len (lt_queue s)) as [r q'] eqn:Ep.
    destruct (push_ok _ _ _ _ _ _ _ _ Hq Hlen Ep) as (_ & _ & Hn & Hr). cbn. split; [done|].
    split; [|unfold lane_distance; by rewrite Hn].
    destruct r; [| |destruct Hr as [-> _]; by eauto..]; destruct Hr as (_ & _ & _ & j & l & _ & Hj & ->);
      (destruct (decide (j = i)) as [->|Hne];
       [rewrite list_lookup_insert_eq by (by eapply lookup_lt_Some); rewrite Hl in Hj; simplify_eq; by eexists
       |rewrite list_lookup_insert_ne by done; by eauto]).
  - left. unfold post_drain in E. repeat case_match; simplify_eq/=; by eauto.
  - by simplify_eq.
  - left. repeat case_match; simplify_eq/=; by eauto.
  - unfold DrainLaneEnvelopes_step in E. unfold in_input in Hq. destruct (lt_drain s) as [|[|r]|r e|] eqn:Ed; [done| | | |].
    + left. unfold Lane_EndDrain in E. rewrite app_nil_r in E. repeat case_match; simplify_eq/=; by eauto.
    + destruct (Lane_Pop (lt_queue s)) as [[e q]|] eqn:Ep; simplify_eq/=.
      * right. exists e. split; [done|]. destruct (pop_distance _ _ _ _ _ _ Hq Ep Hl) as [->|[H1 H2]]; [by left|right].
        split; [by eexists|done].
      * left. unfold Lane_EndDrain in *. rewrite app_nil_r. repeat case_match; simplify_eq/=; by eauto.
    + simplify_eq/=. left. rewrite app_nil_r. unfold Lane_Complete in *. case_match; cbn; by eauto.
    + simplify_eq/=. left. rewrite app_nil_r. by eauto.
Qed.

Lemma run_delivered s ls s' : tap_run s ls = Some s' → ∃ new, lt_delivered s' = lt_delivered s ++ new.
Proof.
  revert s. induction ls as [|l ls IH]; intros s; cbn; [intros [= <-]; exists []; by rewrite app_nil_r|].
  destruct (lane_step s l) as [s1|] eqn:E; [|done]. intros [new Hn]%IH. rewrite Hn.
  assert (Hs : ∃ n1, lt_delivered s1 = lt_delivered s ++ n1).
  { destruct l; cbn in E.
    1: simplify_eq; unfold StageLaneEnvelope.
    2: unfold post_drain in E.
    5: unfold DrainLaneEnvelopes_step in E.
    all: repeat case_match; simplify_eq/=; first [by eexists|exists []; by rewrite app_nil_r]. }
  destruct Hs as [n1 ->]. exists (n1 ++ new). by rewrite app_assoc.
Qed.

(** The envelope at the front of a lane is among the next deliveries, within its distance. *)
Lemma served_within s ls s' i x rest : tap_inv s → tap_run s ls = Some s' → lq_closed (lt_queue s') = false →
  lq_lanes (lt_queue s) !! i = Some (x :: rest) →
  ∃ new, lt_delivered s' = lt_delivered s ++ new ∧
    ((lane_distance (lt_queue s) i < length new)%nat → x ∈ take (S (lane_distance (lt_queue s) i)) new).
Proof.
  revert s rest. induction ls as [|l ls IH]; intros s rest Hinv Hr Hc Hl; cbn in Hr.
  - simplify_eq. exists []. rewrite app_nil_r. split; [done|]. cbn. lia.
  - destruct (lane_step s l) as [s1|] eqn:E; [|done].
    assert (Hc1 : lq_closed (lt_queue s1) = false).
    { destruct (lq_closed (lt_queue s1)) eqn:Ec; [|done]. by rewrite (run_closed _ _ _ Hr Ec) in Hc. }
    pose proof (tap_inv_step _ _ _ Hinv E) as Hinv1.
    destruct (step_keeps _ _ _ _ _ _ Hinv E Hc1 Hl) as [(Hd & (rest' & Hl') & Hdist)|(e & Hd & Hcase)].
    + destruct (IH s1 rest' Hinv1 Hr Hc Hl') as (new & Hn & Hx). exists new. rewrite Hn, Hd. split; [done|]. by rewrite <-Hdist.
    + destruct Hcase as [->|((rest' & Hl') & Hlt)].
      * assert (Hmono : ∃ new, lt_delivered s' = lt_delivered s1 ++ new) by (eapply run_delivered; exact Hr).
        destruct Hmono as [new Hn]. exists (x :: new). rewrite Hn, Hd, <-app_assoc. split; [done|]. intros _. cbn. by left.
      * destruct (IH s1 rest' Hinv1 Hr Hc Hl') as (new & Hn & Hx). exists (e :: new). rewrite Hn, Hd, <-app_assoc. split; [done|].
        cbn [length]. intros Hlen. cbn [take]. apply list_elem_of_further.
        specialize (Hx ltac:(lia)). apply elem_of_take in Hx as (j & Hj & Hlt'). apply elem_of_take.
        exists j. split; [done|lia].
Qed.
End System.

(** C27: the staging queue under any interleaving of the readers, their posts, a close and the drain.
    In every reachable state the item and byte counters are exactly the envelopes queued or in the
    hands of [OnInput], within the limits; each lane's accepted packets are delivered in order, then
    queued, or dropped by a close; at most one drain is scheduled, posted or running, and while none is,
    the counters are zero and, unless the queue was closed, everything accepted was delivered (what is
    popped once the adapter is disposed counts as delivered). *)
Theorem lane_queue_accounted {A} (s : LaneSystem A) : lane_reachable s →
  (lq_items (lt_queue s) = Z.of_nat (length (in_input s ++ mjoin (lq_lanes (lt_queue s)))) ∧
   lq_bytes (lt_queue s) = bytes_of (in_input s ++ mjoin (lq_lanes (lt_queue s))) ∧
   lq_items (lt_queue s) ≤ kMaxItems ∧ lq_bytes (lt_queue s) ≤ kMaxBytes) ∧
  (∀ i, (i < kMaxLanes)%nat →
     of_lane i (lt_accepted s) = of_lane i (lt_delivered s) ++ of_lane i (lt_dropped s) ++ lane_of (lt_queue s) i) ∧
  (lq_closed (lt_queue s) = false → lt_dropped s = []) ∧ (drain_tokens s ≤ 1)%nat ∧
  (drain_tokens s = 0%nat → lq_items (lt_queue s) = 0 ∧ lq_bytes (lt_queue s) = 0 ∧
     (lq_closed (lt_queue s) = false → ∀ i, (i < kMaxLanes)%nat → of_lane i (lt_accepted s) = of_lane i (lt_delivered s))).
Proof.
  intros Hr. pose proof (lane_reachable_inv _ Hr) as Hinv. pose proof Hinv as [Hq Hf Hd Hk _].
  split; [split; [apply Hq|split; [apply Hq|split; apply Hq]]|]. split; [done|]. split; [done|].
  split; [repeat case_match; lia|]. intros H0. destruct (idle_empty _ Hinv H0) as (H1 & H2 & _ & H3). done.
Qed.

(** Fairness of the lanes.  Whatever the other readers push meanwhile, the packet at the front of a
    lane is among the next sixteen packets the drain delivers, as long as the queue is not closed. *)
Theorem lane_fair {A} (s : LaneSystem A) ls s' i x rest : lane_reachable s → tap_run s ls = Some s' →
  lq_closed (lt_queue s') = false → lq_lanes (lt_queue s) !! i = Some (x :: rest) →
  ∃ new, lt_delivered s' = lt_delivered s ++ new ∧ ((kMaxLanes ≤ length new)%nat → x ∈ take kMaxLanes new).
Proof.
  intros Hr Hrun Hc Hl. destruct (served_within _ _ _ _ _ _ (lane_reachable_inv _ Hr) Hrun Hc Hl) as (new & Hn & Hx).
  exists new. split; [done|]. intros Hlen. pose proof (lane_distance_lt (lt_queue s) i) as Hlt.
  specialize (Hx ltac:(lia)). apply elem_of_take in Hx as (j & Hj & Hlt'). apply elem_of_take. exists j. split; [done|lia].
Qed.

(** ** Witnesses *)
Definition busy_labels : list (LaneLabel Z) :=
  [TStage true 3 30 100; TPost true] ++ ((λ k, TStage true 1 k 10) <$> seqZ 1 20) ++ [TStage true 9 90 20].
Definition drain_labels : list (LaneLabel Z) := THandler :: replicate 45 TDrain.
Definition busy_lanes : LaneSystem Z := default lane_start (tap_run lane_start busy_labels).
Definition drained_lanes : LaneSystem Z := default lane_start (tap_run busy_lanes drain_labels).

Lemma tap_run_reachable {A} (s : LaneSystem A) ls s' : lane_reachable s → tap_run s ls = Some s' → lane_reachable s'.
Proof.
  revert s. induction ls as [|l ls IH]; intros s Hr Hrun; cbn in Hrun; [by simplify_eq|].
  destruct (lane_step s l) as [s1|] eqn:E; [|done]. eapply IH; [|exact Hrun]. by eapply lane_next.
Qed.
Lemma busy_reachable : lane_reachable busy_lanes.
Proof. eapply (tap_run_reachable lane_start busy_labels); [constructor|vm_compute; reflexivity]. Qed.

Lemma lane_queue_accounted_witness : lq_items (lt_queue busy_lanes) = 22 ∧ lq_bytes (lt_queue busy_lanes) = 320 ∧
  (drain_tokens busy_lanes ≤ 1)%nat.
Proof.
  split; [vm_compute; reflexivity|]. split; [vm_compute; reflexivity|].
  exact (proj1 (proj2 (proj2 (proj2 (lane_queue_accounted busy_lanes busy_reachable))))).
Defined.

Lemma lane_fair_witness : ev_data <$> take 5 (lt_delivered drained_lanes) = Some <$> [1; 30; 90; 2; 3] ∧
  ∃ new, lt_delivered drained_lanes = lt_delivered busy_lanes ++ new ∧ mkEnvelope (Some 90) 20 9 ∈ take kMaxLanes new.
Proof.
  split; [vm_compute; reflexivity|].
  destruct (lane_fair busy_lanes drain_labels drained_lanes 9 (mkEnvelope (Some 90) 20 9) [] busy_reachable) as (new & Hn & Hx);
    [vm_compute; reflexivity..|].
  exists new. split; [exact Hn|]. apply Hx. apply (f_equal length) in Hn. rewrite length_app in Hn.
  assert (E1 : length (lt_delivered drained_lanes) = 22%nat) by (vm_compute; reflexivity).
  assert (E2 : length (lt_delivered busy_lanes) = 0%nat) by (vm_compute; reflexivity).
  unfold kMaxLanes. lia.
Defined.
