(* ===== verification/UploadBudget.v ===== *)
(** * Upload credit of the direct bridges

    [XtcpUploadBudget] and its [Reservation] ([ppp/app/protocol/XtcpDirectIo.h]): one runtime-wide
    budget of payload bytes and items.  A reservation returns its credit once, when it is reset or
    destroyed; flows that found no credit wait in a queue of tokens, and a release wakes the runtime,
    which lets the waiters retry.  Every method holds the budget's mutex for all it does to the state,
    except that [Release] calls the wake handler after unlocking; so a method is one step, and the
    handler's call is a later step. *)

From S2P Require Import Prelude.

(** ** The budget *)
Record UploadBudget := mkUploadBudget {
  ub_max_bytes : Z;
  ub_max_items : Z;
  ub_bytes : Z;
  ub_items : Z;
  ub_waiting : bool;
  ub_waiters : list Z;
  ub_last_granted : Z;
  ub_wake_events : Z;
  ub_fairness_switches : Z;
  ub_wake : option bool;  (** [wake_]: [None] when null, else whether the function is non-empty *)
}.

(** [Reservation]: the owner is the budget it was taken from. *)
Record Reservation := mkReservation { rv_owner : option Z; rv_bytes : Z; rv_items : Z }.
Definition no_reservation : Reservation := mkReservation None 0 0.
Definition rv_held (r : Reservation) : bool := bool_decide (is_Some (rv_owner r)).

Definition UploadBudget_new (bytes items : Z) : UploadBudget := mkUploadBudget bytes items 0 0 false [] 0 0 0 None.

Definition Fits (b : UploadBudget) (bytes : Z) : bool :=
  (ub_items b <? ub_max_items b) && (bytes <=? ub_max_bytes b -[64] ub_bytes b).

Definition set_waiting (b : UploadBudget) (w : bool) : UploadBudget :=
  mkUploadBudget (ub_max_bytes b) (ub_max_items b) (ub_bytes b) (ub_items b) w (ub_waiters b) (ub_last_granted b)
    (ub_wake_events b) (ub_fairness_switches b) (ub_wake b).
Definition set_waiters (b : UploadBudget) (ws : list Z) (w : bool) : UploadBudget :=
  mkUploadBudget (ub_max_bytes b) (ub_max_items b) (ub_bytes b) (ub_items b) w ws (ub_last_granted b) (ub_wake_events b)
    (ub_fairness_switches b) (ub_wake b).
Definition take_credit (b : UploadBudget) (bytes : Z) : UploadBudget :=
  mkUploadBudget (ub_max_bytes b) (ub_max_items b) (ub_bytes b +[64] bytes) (ub_items b +[64] 1) (ub_waiting b) (ub_waiters b)
    (ub_last_granted b) (ub_wake_events b) (ub_fairness_switches b) (ub_wake b).
(** The grant bookkeeping of [TryReserveFor] and [AwaitCapacity]. *)
Definition grant_to (b : UploadBudget) (token : Z) : UploadBudget :=
  mkUploadBudget (ub_max_bytes b) (ub_max_items b) (ub_bytes b) (ub_items b) (ub_waiting b) (ub_waiters b) token
    (ub_wake_events b)
    (if negb (ub_last_granted b =? 0) && negb (ub_last_granted b =? token) then ub_fairness_switches b +[64] 1
     else ub_fairness_switches b) (ub_wake b).

Definition front_is (token : Z) (ws : list Z) : bool := match ws with w :: _ => w =? token | [] => false end.
Definition is_nil (ws : list Z) : bool := match ws with [] => true | _ => false end.

(** [TryReserve]; the budget is alive while it is called.  [self] is its identity. *)
Definition Budget_TryReserve (self bytes : Z) (b : UploadBudget) : Reservation * UploadBudget :=
  if (bytes =? 0) || (ub_max_bytes b <? bytes) then (no_reservation, b) else
  if negb (Fits b bytes) then (no_reservation, set_waiting b true) else
  (mkReservation (Some self) bytes 1, take_credit b bytes).

Definition TryReserveFor (self token bytes : Z) (b : UploadBudget) : Reservation * UploadBudget :=
  if (token =? 0) || (bytes =? 0) || (ub_max_bytes b <? bytes) then (no_reservation, b) else
  if negb (Fits b bytes) then (no_reservation, set_waiting b true) else
  if negb (is_nil (ub_waiters b)) && negb (front_is token (ub_waiters b)) then (no_reservation, set_waiting b true) else
  let b := grant_to (set_waiters b (tail (ub_waiters b)) (ub_waiting b)) token in
  (mkReservation (Some self) bytes 1, set_waiting (take_credit b bytes) (negb (is_nil (ub_waiters b)))).

(** [AwaitCapacity(bytes)]. *)
Definition AwaitCapacity (bytes : Z) (b : UploadBudget) : bool * UploadBudget :=
  if (bytes =? 0) || (ub_max_bytes b <? bytes) then (false, b) else
  if Fits b bytes then (true, b) else (false, set_waiting b true).

(** [std::rotate] by one. *)
Definition rotate_one (ws : list Z) : list Z := match ws with [] => [] | w :: ws => ws ++ [w] end.

(** [AwaitCapacity(token, bytes)]. *)
Definition AwaitCapacityFor (token bytes : Z) (b : UploadBudget) : bool * UploadBudget :=
  if (token =? 0) || (bytes =? 0) || (ub_max_bytes b <? bytes) then (false, b) else
  let ws := ub_waiters b in
  if Fits b bytes && (is_nil ws || front_is token ws) then (true, grant_to b token) else
  let ws' := if negb (bool_decide (token ∈ ws)) then ws ++ [token]
             else if front_is token ws && (1 <? length ws)%nat then rotate_one ws else ws in
  (false, set_waiters b ws' true).

(** [erase] of the first occurrence. *)
Fixpoint erase_token (token : Z) (ws : list Z) : list Z :=
  match ws with [] => [] | w :: ws => if w =? token then ws else w :: erase_token token ws end.
Definition CancelWait (token : Z) (b : UploadBudget) : UploadBudget :=
  if token =? 0 then b else
  let ws := erase_token token (ub_waiters b) in set_waiters b ws (negb (is_nil ws)).
Definition RotateWait (token : Z) (b : UploadBudget) : UploadBudget :=
  if token =? 0 then b else
  let ws := if bool_decide (token ∈ ub_waiters b) then erase_token token (ub_waiters b) ++ [token] else ub_waiters b in
  set_waiters b ws (negb (is_nil ws)).

Definition SetWakeHandler (callable : bool) (b : UploadBudget) : UploadBudget :=
  mkUploadBudget (ub_max_bytes b) (ub_max_items b) (ub_bytes b) (ub_items b) (ub_waiting b) (ub_waiters b) (ub_last_granted b)
    (ub_wake_events b) (ub_fairness_switches b) (Some callable).

(** The locked part of [Release]: whether the wake handler is to be called. *)
Definition Budget_Release (bytes items : Z) (b : UploadBudget) : bool * UploadBudget :=
  let wake := ub_waiting b && bool_decide (is_Some (ub_wake b)) in
  (wake && default false (ub_wake b),
   mkUploadBudget (ub_max_bytes b) (ub_max_items b) (ub_bytes b -[64] bytes) (ub_items b -[64] items)
     (if wake then false else ub_waiting b) (ub_waiters b) (ub_last_granted b)
     (if wake then ub_wake_events b +[64] 1 else ub_wake_events b) (ub_fairness_switches b) (ub_wake b)).

(** [Reservation::Merge] of two distinct reservations, and [Reset] as seen by this budget. *)
Definition Merge (r other : Reservation) : bool * Reservation * Reservation :=
  if negb (rv_held other) then (true, r, other) else
  if negb (rv_held r) then (true, other, r) else
  if negb (bool_decide (rv_owner r = rv_owner other)) then (false, r, other) else
  (true, mkReservation (rv_owner r) (rv_bytes r +[64] rv_bytes other) (rv_items r +[64] rv_items other), no_reservation).

Definition Reservation_Reset (self : Z) (r : Reservation) (b : UploadBudget) : bool * Reservation * UploadBudget :=
  match rv_owner r with
  | Some o => if o =? self then let '(w, b) := Budget_Release (rv_bytes r) (rv_items r) b in (w, no_reservation, b)
              else (false, no_reservation, b)
  | None => (false, no_reservation, b)
  end.

(** ** A budget in use: the reservations its clients hold, by slot, and the handler calls under way *)
Record BudgetSystem := mkBudgetSystem {
  us_budget : UploadBudget;
  us_slots : list Reservation;
  us_calls : nat;
  us_wakes : nat;
}.

Inductive BudgetOp :=
  | OpReserve (bytes : Z) | OpReserveFor (token bytes : Z)
  | OpAwait (bytes : Z) | OpAwaitFor (token bytes : Z) | OpCancel (token : Z) | OpRotate (token : Z)
  | OpMerge (i j : nat) | OpReset (i : nat) | OpSetWake (callable : bool) | OpHandler (ok : bool).

Definition self_id : Z := 1.

(** Each operation answers whether it succeeded; [OpHandler] is the end of a wake handler's call, which
    rearms the wait when the handler threw. *)
Definition budget_step (s : BudgetSystem) (op : BudgetOp) : bool * BudgetSystem :=
  let with_b b := mkBudgetSystem b (us_slots s) (us_calls s) (us_wakes s) in
  match op with
  | OpReserve bytes =>
      let '(r, b) := Budget_TryReserve self_id bytes (us_budget s) in
      (rv_held r, mkBudgetSystem b (us_slots s ++ [r]) (us_calls s) (us_wakes s))
  | OpReserveFor token bytes =>
      let '(r, b) := TryReserveFor self_id token bytes (us_budget s) in
      (rv_held r, mkBudgetSystem b (us_slots s ++ [r]) (us_calls s) (us_wakes s))
  | OpAwait bytes => let '(ok, b) := AwaitCapacity bytes (us_budget s) in (ok, with_b b)
  | OpAwaitFor token bytes => let '(ok, b) := AwaitCapacityFor token bytes (us_budget s) in (ok, with_b b)
  | OpCancel token => (true, with_b (CancelWait token (us_budget s)))
  | OpRotate token => (true, with_b (RotateWait token (us_budget s)))
  | OpMerge i j =>
      match us_slots s !! i, us_slots s !! j with
      | Some r, Some other =>
          if decide (i = j) then (false, s) else
          let '(ok, r, other) := Merge r other in
          (ok, mkBudgetSystem (us_budget s) (<[j := other]> (<[i := r]> (us_slots s))) (us_calls s) (us_wakes s))
      | _, _ => (false, s)
      end
  | OpReset i =>
      match us_slots s !! i with
      | Some r =>
          let '(woken, r, b) := Reservation_Reset self_id r (us_budget s) in
          (true, mkBudgetSystem b (<[i := r]> (us_slots s)) (us_calls s + if woken then 1 else 0) (us_wakes s + if woken then 1 else 0))
      | None => (false, s)
      end
  | OpSetWake callable => (true, with_b (SetWakeHandler callable (us_budget s)))
  | OpHandler ok =>
      match us_calls s with
      | O => (false, s)
      | S n => (ok, mkBudgetSystem (if ok then us_budget s else set_waiting (us_budget s) true) (us_slots s) n (us_wakes s))
      end
  end.
Definition budget_start (bytes items : Z) : BudgetSystem := mkBudgetSystem (UploadBudget_new bytes items) [] 0 0.

(** ** Credit is conserved *)
Definition held_bytes (slots : list Reservation) : Z := foldr (λ r n, rv_bytes r + n) 0 slots.
Definition held_items (slots : list Reservation) : Z := foldr (λ r n, rv_items r + n) 0 slots.
Definition slot_ok (r : Reservation) : Prop :=
  r = no_reservation ∨ rv_owner r = Some self_id ∧ 0 < rv_bytes r ∧ 0 < rv_items r.

Record budget_inv (s : BudgetSystem) : Prop := {
  bi_slots : Forall slot_ok (us_slots s);
  bi_bytes : ub_bytes (us_budget s) = held_bytes (us_slots s);
  bi_items : ub_items (us_budget s) = held_items (us_slots s);
  bi_max_bytes : ub_bytes (us_budget s) ≤ ub_max_bytes (us_budget s) < 2 ^ 64;
  bi_max_items : ub_items (us_budget s) ≤ ub_max_items (us_budget s) < 2 ^ 64;
  bi_waiters : NoDup (ub_waiters (us_budget s)) ∧ Forall (λ t, t ≠ 0) (ub_waiters (us_budget s));
}.

Lemma held_cons r l : held_bytes (r :: l) = rv_bytes r + held_bytes l ∧ held_items (r :: l) = rv_items r + held_items l.
Proof. done. Qed.
#[local] Arguments held_bytes : simpl never.
#[local] Arguments held_items : simpl never.
Lemma held_app l l' : held_bytes (l ++ l') = held_bytes l + held_bytes l' ∧ held_items (l ++ l') = held_items l + held_items l'.
Proof.
  induction l as [|r l [IHb IHi]]; [done|]. cbn [app]. destruct (held_cons r l), (held_cons r (l ++ l')). lia.
Qed.
Lemma held_snoc l r : held_bytes (l ++ [r]) = held_bytes l + rv_bytes r ∧ held_items (l ++ [r]) = held_items l + rv_items r.
Proof. destruct (held_app l [r]), (held_cons r []). change (held_bytes []) with 0 in *. change (held_items []) with 0 in *. lia. Qed.
Lemma held_insert l i r r' : l !! i = Some r →
  held_bytes (<[i := r']> l) = held_bytes l - rv_bytes r + rv_bytes r' ∧
  held_items (<[i := r']> l) = held_items l - rv_items r + rv_items r'.
Proof.
  intros Hi. rewrite (insert_take_drop _ _ _ (lookup_lt_Some _ _ _ Hi)). rewrite <-(take_drop_middle _ _ _ Hi) at 3 6.
  destruct (held_app (take i l) (r :: drop (S i) l)), (held_app (take i l) (r' :: drop (S i) l)),
    (held_cons r (drop (S i) l)), (held_cons r' (drop (S i) l)). lia.
Qed.
Lemma slot_ok_nonneg r : slot_ok r → 0 ≤ rv_bytes r ∧ 0 ≤ rv_items r.
Proof. intros [->|(_ & ? & ?)]; cbn; lia. Qed.
Lemma held_nonneg l : Forall slot_ok l → 0 ≤ held_bytes l ∧ 0 ≤ held_items l.
Proof.
  induction 1 as [|r l Hr _ [IHb IHi]]; [done|]. destruct (held_cons r l). apply slot_ok_nonneg in Hr. lia.
Qed.
Lemma held_ge l i r : Forall slot_ok l → l !! i = Some r → rv_bytes r ≤ held_bytes l ∧ rv_items r ≤ held_items l.
Proof.
  intros Hl. revert i. induction Hl as [|x l Hx Hl IH]; [done|]. intros [|i] Hi; destruct (held_cons x l); cbn in Hi.
  - simplify_eq. pose proof (held_nonneg _ Hl). lia.
  - apply slot_ok_nonneg in Hx. specialize (IH _ Hi). lia.
Qed.

Lemma erase_token_sub t ws : erase_token t ws `sublist_of` ws.
Proof. induction ws as [|w ws IH]; cbn; [done|]. case_match; [by apply sublist_cons|by apply sublist_skip]. Qed.
Lemma erase_token_gone t ws : NoDup ws → t ∉ erase_token t ws.
Proof.
  induction 1 as [|w ws Hw _ IH]; cbn; [by apply not_elem_of_nil|]. destruct (Z.eqb_spec w t) as [->|Hne]; [done|].
  apply not_elem_of_cons. by split.
Qed.
Lemma erase_token_keeps t u ws : u ≠ t → u ∈ ws → u ∈ erase_token t ws.
Proof.
  intros Hne. induction ws as [|w ws IH]; cbn; [by intros ?%not_elem_of_nil|].
  intros [->|Hu]%elem_of_cons; destruct (Z.eqb_spec w t) as [->|]; try done; apply elem_of_cons; [by left|right; by apply IH].
Qed.

Definition waiters_ok (ws : list Z) : Prop := NoDup ws ∧ Forall (λ t, t ≠ 0) ws.
Lemma waiters_sub ws ws' : ws' `sublist_of` ws → waiters_ok ws → waiters_ok ws'.
Proof. intros Hs [H1 H2]. split; [by eapply sublist_NoDup|]. rewrite Forall_forall in *. eauto using elem_of_sublist. Qed.
Lemma waiters_snoc t ws : t ≠ 0 → t ∉ ws → waiters_ok ws → waiters_ok (ws ++ [t]).
Proof.
  intros Ht Hn [H1 H2]. split; [|apply Forall_app; split; [done|by apply Forall_singleton]].
  apply NoDup_app. split; [done|]. split; [|apply NoDup_singleton]. intros x Hx ->%list_elem_of_singleton. done.
Qed.
Lemma waiters_rotate ws : waiters_ok ws → waiters_ok (rotate_one ws).
Proof.
  destruct ws as [|w ws]; [done|]. intros [[Hw H1]%NoDup_cons [H0 H2]%Forall_cons]. by apply waiters_snoc.
Qed.

(** Taking credit for a fresh slot. *)
Lemma take_inv s bytes b : budget_inv s → 0 < bytes → Fits (us_budget s) bytes = true →
  ub_bytes b = ub_bytes (us_budget s) +[64] bytes → ub_items b = ub_items (us_budget s) +[64] 1 →
  ub_max_bytes b = ub_max_bytes (us_budget s) → ub_max_items b = ub_max_items (us_budget s) → waiters_ok (ub_waiters b) →
  budget_inv (mkBudgetSystem b (us_slots s ++ [mkReservation (Some self_id) bytes 1]) (us_calls s) (us_wakes s)).
Proof.
  intros [Hs Hb Hi Hmb Hmi _] Hpos Hf Eb Ei Emb Emi Hw. pose proof (held_nonneg _ Hs) as [Hn1 Hn2].
  unfold Fits in Hf. apply andb_prop in Hf as [Hf1%Z.ltb_lt Hf2%Z.leb_le]. rewrite wrap_small in Hf2 by (unfold is_uint; lia).
  rewrite wrap_small in Eb by (unfold is_uint; lia). rewrite wrap_small in Ei by (unfold is_uint; lia).
  split; cbn; try done; try lia.
  - apply Forall_app. split; [done|]. apply Forall_singleton. right. split; [done|]. cbn. lia.
  - destruct (held_snoc (us_slots s) (mkReservation (Some self_id) bytes 1)) as [-> _]. cbn. lia.
  - destruct (held_snoc (us_slots s) (mkReservation (Some self_id) bytes 1)) as [_ ->]. cbn. lia.
Qed.

(** Steps that leave the credit alone. *)
Lemma same_credit s b : budget_inv s → ub_bytes b = ub_bytes (us_budget s) → ub_items b = ub_items (us_budget s) →
  ub_max_bytes b = ub_max_bytes (us_budget s) → ub_max_items b = ub_max_items (us_budget s) → waiters_ok (ub_waiters b) →
  ∀ c w, budget_inv (mkBudgetSystem b (us_slots s) c w) ∧ budget_inv (mkBudgetSystem b (us_slots s ++ [no_reservation]) c w).
Proof.
  intros [Hs Hb Hi Hmb Hmi _] Eb Ei Emb Emi Hw c w.
  destruct (held_snoc (us_slots s) no_reservation) as [E1 E2].
  split; split; cbn; rewrite ?Eb, ?Ei, ?Emb, ?Emi, ?E1, ?E2; cbn; try done; try lia.
  apply Forall_app. split; [done|]. apply Forall_singleton. by left.
Qed.

Definition op_ok (op : BudgetOp) : Prop :=
  match op with OpReserve bytes | OpReserveFor _ bytes => 0 ≤ bytes | _ => True end.

Lemma reserve_inv s bytes : budget_inv s → 0 ≤ bytes → budget_inv (budget_step s (OpReserve bytes)).2.
Proof.
  intros Hinv Hb. pose proof (bi_waiters _ Hinv) as Hw. cbn. unfold Budget_TryReserve.
  destruct (Z.eqb_spec bytes 0); cbn [orb]; [by apply same_credit|]. destruct (ub_max_bytes (us_budget s) <? bytes); [by apply same_credit|].
  destruct (Fits (us_budget s) bytes) eqn:Ef; cbn [negb]; [|by apply same_credit]. apply take_inv; try done. lia.
Qed.

Lemma reserve_for_inv s token bytes : budget_inv s → 0 ≤ bytes → budget_inv (budget_step s (OpReserveFor token bytes)).2.
Proof.
  intros Hinv Hb. pose proof (bi_waiters _ Hinv) as Hw. cbn. unfold TryReserveFor.
  destruct (token =? 0); cbn [orb]; [by apply same_credit|].
  destruct (Z.eqb_spec bytes 0); cbn [orb]; [by apply same_credit|]. destruct (ub_max_bytes (us_budget s) <? bytes); [by apply same_credit|].
  destruct (Fits (us_budget s) bytes) eqn:Ef; cbn [negb]; [|by apply same_credit].
  destruct (negb (is_nil (ub_waiters (us_budget s))) && negb (front_is token (ub_waiters (us_budget s)))); [by apply same_credit|].
  apply take_inv; try done; [lia|]. cbn. apply (waiters_sub (ub_waiters (us_budget s))); [|done].
  destruct (ub_waiters (us_budget s)); cbn; [done|by apply sublist_cons].
Qed.

Lemma await_for_waiters token bytes b : waiters_ok (ub_waiters b) → waiters_ok (ub_waiters (AwaitCapacityFor token bytes b).2).
Proof.
  intros Hw. unfold AwaitCapacityFor. destruct (Z.eqb_spec token 0) as [|Ht]; cbn [orb]; [done|].
  case_match; [done|]. case_match; [done|]. cbn. case_bool_decide; cbn [negb].
  - case_match; [by apply waiters_rotate|done].
  - by apply waiters_snoc.
Qed.
Lemma cancel_waiters token b : waiters_ok (ub_waiters b) → waiters_ok (ub_waiters (CancelWait token b)).
Proof. intros Hw. unfold CancelWait. case_match; [done|]. cbn. eapply waiters_sub; [apply erase_token_sub|done]. Qed.
Lemma rotate_waiters token b : waiters_ok (ub_waiters b) → waiters_ok (ub_waiters (RotateWait token b)).
Proof.
  intros Hw. unfold RotateWait. destruct (Z.eqb_spec token 0) as [|Ht]; [done|]. cbn. case_bool_decide; [|done].
  apply waiters_snoc; [done|apply erase_token_gone, Hw|]. eapply waiters_sub; [apply erase_token_sub|done].
Qed.

Lemma merge_inv s i j : budget_inv s → budget_inv (budget_step s (OpMerge i j)).2.
Proof.
  intros Hinv. cbn. destruct (us_slots s !! i) as [r|] eqn:Hi; [|done]. destruct (us_slots s !! j) as [o|] eqn:Hj; [|done].
  case_decide as Hij; [done|]. destruct (Merge r o) as [[ok r'] o'] eqn:Em. cbn.
  destruct Hinv as [Hs Hb Hit Hmb Hmi Hw].
  pose proof (Forall_lookup_1 _ _ _ _ Hs Hi) as Hr. pose proof (Forall_lookup_1 _ _ _ _ Hs Hj) as Ho.
  assert (Hm : slot_ok r' ∧ slot_ok o' ∧ rv_bytes r' + rv_bytes o' = rv_bytes r + rv_bytes o ∧
               rv_items r' + rv_items o' = rv_items r + rv_items o).
  { destruct (held_insert _ _ _ no_reservation Hi) as [Eb Ei].
    assert (Hj' : <[i := no_reservation]> (us_slots s) !! j = Some o) by by rewrite list_lookup_insert_ne.
    assert (Hs' : Forall slot_ok (<[i := no_reservation]> (us_slots s))) by (apply Forall_insert; [done|by left]).
    pose proof (held_ge _ _ _ Hs' Hj') as [Hge1 Hge2]. cbn in Eb, Ei.
    pose proof (slot_ok_nonneg _ Hr). pose proof (slot_ok_nonneg _ Ho).
    unfold Merge, rv_held in Em. destruct Hr as [->|(Er & ? & ?)]; destruct Ho as [->|(Eo & ? & ?)]; cbn in Em;
      rewrite ?Er, ?Eo in Em; cbn in Em; simplify_eq/=.
    - split; [by left|]. split; [by left|done].
    - split; [by right|]. split; [by left|lia].
    - split; [by right|]. split; [by left|lia].
    - rewrite !wrap_small by (unfold is_uint; lia). split; [right; cbn; split; [done|lia]|]. split; [by left|lia]. }
  destruct Hm as (Hr' & Ho' & Eb & Ei).
  destruct (held_insert _ _ _ r' Hi) as [E1 E2].
  assert (Hj' : <[i := r']> (us_slots s) !! j = Some o) by by rewrite list_lookup_insert_ne.
  destruct (held_insert _ _ _ o' Hj') as [E3 E4].
  split; cbn; try done; [|lia|lia]. apply Forall_insert; [|done]. by apply Forall_insert.
Qed.

Lemma reset_inv s i : budget_inv s → budget_inv (budget_step s (OpReset i)).2.
Proof.
  intros Hinv. cbn. destruct (us_slots s !! i) as [r|] eqn:Hi; [|done].
  destruct Hinv as [Hs Hb Hit Hmb Hmi Hw]. pose proof (Forall_lookup_1 _ _ _ _ Hs Hi) as Hr.
  destruct (held_insert _ _ _ no_reservation Hi) as [E1 E2]. cbn in E1, E2.
  pose proof (held_ge _ _ _ Hs Hi) as [Hg1 Hg2]. unfold Reservation_Reset. destruct Hr as [->|(Er & Hp1 & Hp2)]; cbn.
  - split; cbn in *; try done; [|lia|lia]. apply Forall_insert; [done|by left].
  - rewrite Er. cbn. unfold Budget_Release. cbn.
    split; cbn; try done; rewrite ?wrap_small by (unfold is_uint; lia); try lia. apply Forall_insert; [done|by left].
Qed.

#[export] Instance budget_step_invariant : StepInvariant budget_step op_ok budget_inv.
Proof.
  intros s op Hop Hinv. pose proof (bi_waiters _ Hinv) as Hw.
  destruct op; cbn in Hop; [by apply reserve_inv|by apply reserve_for_inv|..]; cbn.
  - unfold AwaitCapacity. repeat case_match; simplify_eq/=; by apply same_credit.
  - destruct (AwaitCapacityFor token bytes (us_budget s)) as [ok b] eqn:E. cbn.
    pose proof (await_for_waiters token bytes _ Hw) as Hw'. rewrite E in Hw'.
    assert (Hsame : ub_bytes b = ub_bytes (us_budget s) ∧ ub_items b = ub_items (us_budget s) ∧
      ub_max_bytes b = ub_max_bytes (us_budget s) ∧ ub_max_items b = ub_max_items (us_budget s)).
    { unfold AwaitCapacityFor in E. by repeat case_match; simplify_eq/=. }
    destruct Hsame as (? & ? & ? & ?). by apply same_credit.
  - apply same_credit; try done; [..|by apply cancel_waiters]; unfold CancelWait; by case_match.
  - apply same_credit; try done; [..|by apply rotate_waiters]; unfold RotateWait; by case_match.
  - by apply merge_inv.
  - by apply reset_inv.
  - by apply same_credit.
  - destruct (us_calls s); [done|]. cbn. case_match; by apply same_credit.
Qed.

(** ** Waiters are woken *)
Definition no_unset (op : BudgetOp) : Prop := op_ok op ∧ op ≠ OpSetWake false.
Definition armed (t : Z) (wakes0 : nat) (s : BudgetSystem) : Prop :=
  (wakes0 < us_wakes s)%nat ∨ (us_wakes s = wakes0 ∧ (t ∈ ub_waiters (us_budget s) → ub_waiting (us_budget s) = true)).

Lemma is_nil_elem t ws : t ∈ ws → is_nil ws = false.
Proof. destruct ws; [by intros ?%not_elem_of_nil|done]. Qed.

Lemma wakes_mono s op : (us_wakes s ≤ us_wakes (budget_step s op).2)%nat.
Proof.
  destruct op; cbn; repeat (case_match; simplify_eq/=); try lia.
Qed.

Lemma armed_step t n s op : ub_wake (us_budget s) = Some true → no_unset op → armed t n s →
  ub_wake (us_budget (budget_step s op).2) = Some true ∧ armed t n (budget_step s op).2.
Proof.
  intros Hk [_ Hop] Ha. pose proof (wakes_mono s op) as Hm. unfold armed in *.
  destruct op as [bytes|token bytes|bytes|token bytes|token|token|i j|i|callable|ok]; cbn in *.
  - unfold Budget_TryReserve. repeat (case_match; simplify_eq/=); naive_solver.
  - unfold TryReserveFor. repeat (case_match; simplify_eq/=); split; try done; destruct Ha as [|[? Hw]]; auto; right; split; auto.
    all: try naive_solver. intros Ht. by rewrite (is_nil_elem _ _ Ht).
  - unfold AwaitCapacity. repeat (case_match; simplify_eq/=); naive_solver.
  - unfold AwaitCapacityFor. repeat (case_match; simplify_eq/=); naive_solver.
  - unfold CancelWait. case_match; [by split|]. cbn. split; [done|]. destruct Ha as [|[? Hw]]; [by left|right; split; [done|]].
    intros Ht. by rewrite (is_nil_elem _ _ Ht).
  - unfold RotateWait. case_match; [by split|]. cbn. split; [done|]. destruct Ha as [|[? Hw]]; [by left|right; split; [done|]].
    intros Ht. by rewrite (is_nil_elem _ _ Ht).
  - repeat (case_match; simplify_eq/=); by split.
  - destruct (us_slots s !! i) as [r|]; [|by split]. unfold Reservation_Reset. destruct (rv_owner r) as [o|]; cbn.
    + destruct (o =? self_id); cbn; [|rewrite !Nat.add_0_r; by split]. unfold Budget_Release. rewrite Hk. cbn.
      rewrite andb_true_r. destruct (ub_waiting (us_budget s)) eqn:Ew; cbn; (split; [done|]).
      * left. destruct Ha as [|[<- _]]; lia.
      * rewrite Nat.add_0_r. done.
    + rewrite !Nat.add_0_r. by split.
  - destruct callable; [|done]. by split.
  - destruct (us_calls s); [by split|]. destruct ok; cbn; split; try done. destruct Ha as [|[? Hw]]; auto.
Qed.

Lemma armed_exec t n s ops : ub_wake (us_budget s) = Some true → Forall no_unset ops → armed t n s →
  ub_wake (us_budget (exec budget_step s ops)) = Some true ∧ armed t n (exec budget_step s ops).
Proof.
  intros Hk Hops. revert s Hk. induction Hops as [|op ops Hop _ IH]; intros s Hk Ha; [by rewrite exec_nil|].
  rewrite exec_cons. destruct (armed_step _ _ _ _ Hk Hop Ha) as [Hk' Ha']. by apply IH.
Qed.

Lemma exec_max_bytes s ops : ub_max_bytes (us_budget (exec budget_step s ops)) = ub_max_bytes (us_budget s).
Proof.
  revert s. induction ops as [|op ops IH]; intros s; [by rewrite exec_nil|]. rewrite exec_cons, IH.
  destruct op; cbn; unfold Budget_TryReserve, TryReserveFor, AwaitCapacity, AwaitCapacityFor, CancelWait, RotateWait,
    Reservation_Reset, Budget_Release; by repeat (case_match; simplify_eq/=).
Qed.

(** When the two ways to reserve grant. *)
Lemma fits_iff s bytes : budget_inv s → 0 ≤ bytes →
  Fits (us_budget s) bytes = true ↔
  ub_bytes (us_budget s) + bytes ≤ ub_max_bytes (us_budget s) ∧ ub_items (us_budget s) < ub_max_items (us_budget s).
Proof.
  intros [Hs Hb Hi Hmb Hmi _] Hn. pose proof (held_nonneg _ Hs). unfold Fits. rewrite wrap_small by (unfold is_uint; lia).
  rewrite andb_true_iff, Z.ltb_lt, Z.leb_le. lia.
Qed.
Lemma reserve_spec s bytes : budget_inv s → 0 ≤ bytes →
  let b := us_budget s in
  let '(r, b') := Budget_TryReserve self_id bytes b in
  (rv_held r = true ↔ 0 < bytes ∧ ub_bytes b + bytes ≤ ub_max_bytes b ∧ ub_items b < ub_max_items b) ∧ ub_waiters b' = ub_waiters b.
Proof.
  intros Hinv Hn b. pose proof (fits_iff s bytes Hinv Hn) as Hf. pose proof (held_nonneg _ (bi_slots _ Hinv)) as [Hz _].
  rewrite <- (bi_bytes _ Hinv) in Hz. fold b in Hf, Hz. unfold Budget_TryReserve.
  destruct (Z.eqb_spec bytes 0), (Z.ltb_spec (ub_max_bytes b) bytes), (Fits b bytes); cbn; (split; [|done]); (split; [done || lia|]).
  all: intros Hyp; first [done|exfalso; destruct Hf as [Hf1 Hf2]; first [lia|discriminate (Hf2 (proj2 Hyp))]|destruct Hf as [Hf1 _]; specialize (Hf1 eq_refl); lia].
Qed.
Lemma reserve_for_spec s token bytes : budget_inv s → 0 ≤ bytes →
  let b := us_budget s in
  let '(r, b') := TryReserveFor self_id token bytes b in
  (rv_held r = true ↔ token ≠ 0 ∧ 0 < bytes ∧ ub_bytes b + bytes ≤ ub_max_bytes b ∧ ub_items b < ub_max_items b ∧
     (ub_waiters b = [] ∨ head (ub_waiters b) = Some token)) ∧
  (rv_held r = true → r = mkReservation (Some self_id) bytes 1 ∧ ub_waiters b' = tail (ub_waiters b) ∧ token ∉ ub_waiters b') ∧
  (rv_held r = false → r = no_reservation ∧ ub_waiters b' = ub_waiters b).
Proof.
  intros Hinv Hn b. pose proof (fits_iff s bytes Hinv Hn) as Hf. pose proof (bi_waiters _ Hinv) as [Hnd _].
  pose proof (held_nonneg _ (bi_slots _ Hinv)) as [Hz _]. rewrite <- (bi_bytes _ Hinv) in Hz. fold b in Hf, Hnd, Hz. unfold TryReserveFor.
  destruct (Z.eqb_spec token 0); [cbn; naive_solver|]. destruct (Z.eqb_spec bytes 0); [cbn; intuition (done || lia)|].
  destruct (Z.ltb_spec (ub_max_bytes b) bytes); [cbn; intuition (done || lia)|].
  destruct (Fits b bytes); cbn [negb orb]; [|split; [split; [done|]; intros (_ & _ & H1 & H2 & _); by apply Hf|done]].
  destruct Hf as [Hf _]. specialize (Hf eq_refl). destruct (ub_waiters b) as [|w ws] eqn:Ew; cbn; [|destruct (Z.eqb_spec w token) as [->|Hw]; cbn].
  - split; [split; [intros _; split_and!; [done|lia|lia|lia|by left]|done]|]. split; [|done]. intros _. split_and!; [done|done|]. by apply not_elem_of_nil.
  - split; [split; [intros _; split_and!; [done|lia|lia|lia|by right]|done]|]. split; [|done]. intros _. apply NoDup_cons in Hnd as [Hnd _]. done.
  - split; [split; [done|]; intros (_ & _ & _ & _ & [H'|H']); [done|congruence]|done].
Qed.

(** C25: credit is conserved.  Whatever is reserved, merged, reset, awaited, cancelled and rotated, in any
    order: the budget's counters are exactly the bytes and items of the reservations held, never more
    than its limits; a reservation reset or merged away returns its credit once, for a second reset
    changes no counter; [TryReserveFor] grants credit to a flow exactly when it fits and no flow waits or the flow
    is at the head of the queue, which it then leaves; and [TryReserve], which names no flow, grants exactly what fits,
    past the flows that wait. *)
Theorem upload_credit_exact max_bytes max_items ops : 0 ≤ max_bytes < 2 ^ 64 → 0 ≤ max_items < 2 ^ 64 → Forall op_ok ops →
  let s := exec budget_step (budget_start max_bytes max_items) ops in
  let b := us_budget s in
  ub_bytes b = held_bytes (us_slots s) ∧ ub_items b = held_items (us_slots s) ∧
  ub_bytes b ≤ ub_max_bytes b ∧ ub_items b ≤ ub_max_items b ∧
  (∀ i, us_budget (budget_step (budget_step s (OpReset i)).2 (OpReset i)).2 = us_budget (budget_step s (OpReset i)).2) ∧
  (∀ token bytes, 0 ≤ bytes →
     let '(r, b') := TryReserveFor self_id token bytes b in
     (rv_held r = true ↔ token ≠ 0 ∧ 0 < bytes ∧ ub_bytes b + bytes ≤ ub_max_bytes b ∧ ub_items b < ub_max_items b ∧
        (ub_waiters b = [] ∨ head (ub_waiters b) = Some token)) ∧
     (rv_held r = true → r = mkReservation (Some self_id) bytes 1 ∧ ub_waiters b' = tail (ub_waiters b) ∧ token ∉ ub_waiters b') ∧
     (rv_held r = false → r = no_reservation ∧ ub_waiters b' = ub_waiters b)) ∧
  (∀ bytes, 0 ≤ bytes →
     let '(r, b') := Budget_TryReserve self_id bytes b in
     (rv_held r = true ↔ 0 < bytes ∧ ub_bytes b + bytes ≤ ub_max_bytes b ∧ ub_items b < ub_max_items b) ∧ ub_waiters b' = ub_waiters b).
Proof.
  intros Hb Hi Hops. cbv zeta. assert (Hinv : budget_inv (exec budget_step (budget_start max_bytes max_items) ops)).
  { apply (exec_invariant budget_step op_ok budget_inv); [|done]. split; cbn; try done; try lia. split; [apply NoDup_nil_2|constructor]. }
  revert Hinv. generalize (exec budget_step (budget_start max_bytes max_items) ops). intros s Hinv.
  do 2 (split; [apply Hinv|]). do 2 (split; [apply Hinv|]). split.
  - intros i. cbn. destruct (us_slots s !! i) as [r|] eqn:Er; cbn; [|by rewrite Er].
    destruct (Reservation_Reset self_id r (us_budget s)) as [[w r'] b'] eqn:E. cbn.
    assert (r' = no_reservation) as -> by (unfold Reservation_Reset in E; by repeat case_match; simplify_eq).
    rewrite list_lookup_insert_eq by (by eapply lookup_lt_Some). done.
  - split; [intros token bytes Hbytes; by apply reserve_for_spec|]. intros bytes Hbytes. by apply reserve_spec.
Qed.

(** C26: a flow that was told to wait is woken.  From the moment [AwaitCapacity] has refused a flow, through
    any operations of other flows, as long as its token is queued and no wake has been issued, the next
    reservation released issues one. *)
Theorem upload_waiter_woken max_bytes max_items ops0 token bytes ops i r :
  0 ≤ max_bytes < 2 ^ 64 → 0 ≤ max_items < 2 ^ 64 → Forall op_ok ops0 → token ≠ 0 → 0 < bytes ≤ max_bytes →
  let s0 := exec budget_step (budget_start max_bytes max_items) ops0 in
  ub_wake (us_budget s0) = Some true → (budget_step s0 (OpAwaitFor token bytes)).1 = false → Forall no_unset ops →
  let s1 := (budget_step s0 (OpAwaitFor token bytes)).2 in
  let s2 := exec budget_step s1 ops in
  token ∈ ub_waiters (us_budget s1) ∧
  (token ∈ ub_waiters (us_budget s2) → us_wakes s2 = us_wakes s1 → us_slots s2 !! i = Some r → rv_owner r = Some self_id →
   us_wakes (budget_step s2 (OpReset i)).2 = S (us_wakes s2)).
Proof.
  intros Hb Hi Hops0 Ht Hbytes. cbv zeta. intros Hk Hrej Hops.
  assert (Hmax : ub_max_bytes (us_budget (exec budget_step (budget_start max_bytes max_items) ops0)) = max_bytes).
  { by rewrite exec_max_bytes. }
  revert Hk Hrej Hmax. generalize (exec budget_step (budget_start max_bytes max_items) ops0). intros s Hk Hrej Hmax.
  assert (Hreg : token ∈ ub_waiters (us_budget (budget_step s (OpAwaitFor token bytes)).2) ∧
                 ub_waiting (us_budget (budget_step s (OpAwaitFor token bytes)).2) = true ∧
                 ub_wake (us_budget (budget_step s (OpAwaitFor token bytes)).2) = Some true).
  { cbn in *. unfold AwaitCapacityFor in *. destruct (Z.eqb_spec token 0); [done|]. destruct (Z.eqb_spec bytes 0); [lia|].
    destruct (Z.ltb_spec (ub_max_bytes (us_budget s)) bytes); [lia|]. cbn in *.
    destruct (Fits (us_budget s) bytes && (is_nil (ub_waiters (us_budget s)) || front_is token (ub_waiters (us_budget s)))); [done|]. cbn in *.
    case_bool_decide as Hin; cbn; (split; [|done]).
    - case_match; [|done]. destruct (ub_waiters (us_budget s)); [done|]. cbn. set_solver.
    - set_solver. }
  destruct Hreg as (Hin & Hw & Hk1). split; [done|]. intros Hin2 Hno Hr Ho.
  destruct (armed_exec token (us_wakes (budget_step s (OpAwaitFor token bytes)).2) _ ops Hk1 Hops ltac:(by right)) as [Hk2 [Hlt|[_ Harm]]]; [lia|].
  specialize (Harm Hin2). clear Hno. revert Hr Hk2 Harm. generalize (exec budget_step (budget_step s (OpAwaitFor token bytes)).2 ops).
  intros s2 Hr Hk2 Harm. cbn. rewrite Hr. unfold Reservation_Reset. rewrite Ho. cbn. unfold Budget_Release. rewrite Harm, Hk2. cbn. lia.
Qed.

(** ** Witnesses *)
Definition credit_example : list BudgetOp :=
  [OpSetWake true; OpReserveFor 5 60; OpReserveFor 6 30; OpAwaitFor 7 50; OpReserveFor 8 5; OpMerge 0 1; OpRotate 7; OpReset 1].
Lemma credit_example_ok : Forall op_ok credit_example.
Proof. repeat constructor; cbn; lia. Qed.

Lemma upload_credit_exact_witness :
  (λ s, (ub_bytes (us_budget s), ub_items (us_budget s), ub_waiters (us_budget s), us_wakes s))
    (exec budget_step (budget_start 100 10) credit_example) = (90, 2, [7], 0%nat) ∧
  ub_bytes (us_budget (exec budget_step (budget_start 100 10) credit_example)) =
  held_bytes (us_slots (exec budget_step (budget_start 100 10) credit_example)).
Proof.
  split; [vm_compute; reflexivity|].
  refine (proj1 (upload_credit_exact 100 10 credit_example _ _ credit_example_ok)); lia.
Defined.

Lemma upload_waiter_woken_witness :
  us_wakes (exec budget_step (budget_start 100 10) [OpSetWake true; OpReserve 60; OpReserve 30; OpAwaitFor 7 50; OpAwaitFor 8 20]) = 0%nat ∧
  us_wakes (budget_step (exec budget_step (budget_step (exec budget_step (budget_start 100 10) [OpSetWake true; OpReserve 60; OpReserve 30])
    (OpAwaitFor 7 50)).2 [OpAwaitFor 8 20]) (OpReset 0)).2 = 1%nat.
Proof.
  split; [vm_compute; reflexivity|].
  refine (proj2 (upload_waiter_woken 100 10 [OpSetWake true; OpReserve 60; OpReserve 30] 7 50 [OpAwaitFor 8 20] 0
    (mkReservation (Some 1) 60 1) _ _ _ _ _ _ _ _) _ _ _ _);
    try (vm_compute; reflexivity); try lia.
  - repeat constructor; cbn; lia.
  - constructor; [split; [exact I|discriminate]|constructor].
  - apply (bool_decide_unpack _). vm_compute. exact I.
Defined.

(** What the receive path does when it finds no credit: [AwaitCapacity] with its answer ignored, then
    [RotateWait].  When the credit comes back between the refusal and these calls, the flow is not
    queued, the wait is disarmed, and no later release wakes it. *)
Definition receive_refused (token bytes : Z) : list BudgetOp := [OpAwaitFor token bytes; OpRotate token].
Lemma refused_flow_not_queued :
  (λ '(answers, s), (answers, ub_bytes (us_budget s), ub_waiters (us_budget s), ub_waiting (us_budget s)))
    (run budget_step (budget_start 100 10)
       ([OpSetWake true; OpReserveFor 5 60; OpReserveFor 7 50; OpReset 0] ++ receive_refused 7 50)) =
  ([true; true; false; true; true; true], 0, [], false).
Proof. vm_compute. reflexivity. Qed.
