(* ===== verification/UploadQueue.v ===== *)
(** * The upload queue of a direct bridge

    [XtcpDirectUploadQueue] ([ppp/app/protocol/XtcpDirectUploadQueue.h]).  In deque mode every call is
    made under the owner's lock: a call is one function.  In handoff mode the producer pushes without
    that lock while the writer releases, so both run one atomic access at a time; the ring between them
    is used through what [SpscHandoff] proves of it, a bounded queue whose publications and pops are
    single steps, and whose producer sections exclude a close. *)

From S2P Require Import Prelude UploadBudget.

Definition kUploadMaxItems : Z := 4096.
Definition kUploadLowItems : Z := kUploadMaxItems / 2.
Definition kUploadMaxBytes : Z := 32 * 1024 * 1024.
Definition kUploadLowBytes : Z := kUploadMaxBytes / 2.

Inductive XtcpDirectResult := DirectAccepted | DirectBackpressured | DirectClosed.
#[global] Instance XtcpDirectResult_eq_dec : EqDecision XtcpDirectResult.
Proof. solve_decision. Defined.

(** [XtcpUploadChunk] and [PushOutcome]. *)
Record UploadChunk := mkChunk { ck_credit : Reservation; ck_bytes : list Z }.
Definition ck_size (c : UploadChunk) : Z := Z.of_nat (length (ck_bytes c)).
Record PushOutcome := mkOutcome { po_result : XtcpDirectResult; po_raised : bool }.

Definition over_cap (items bytes len : Z) : bool := (kUploadMaxItems <=? items) || (kUploadMaxBytes -[64] bytes <? len).
Definition below_low (items bytes : Z) : bool := (bytes <=? kUploadLowBytes) && (items <=? kUploadLowItems).

(** ** Deque mode *)
Record UploadQueue := mkUploadQueue {
  uq_queue : list UploadChunk;
  uq_bytes : Z;
  uq_items : Z;
  uq_backpressured : bool;
}.

(** [Admit] in deque mode. *)
Definition Admit (len : Z) (q : UploadQueue) : bool * PushOutcome * UploadQueue :=
  if negb (over_cap (uq_items q) (uq_bytes q) len) then (true, mkOutcome DirectClosed false, q) else
  (false, mkOutcome DirectBackpressured (negb (uq_backpressured q)),
   mkUploadQueue (uq_queue q) (uq_bytes q) (uq_items q) true).

(** [Push]; [room] tells whether the chunk could be allocated. *)
Definition Upload_Push (room : bool) (data : list Z) (credit : Reservation) (q : UploadQueue) : PushOutcome * UploadQueue :=
  let len := Z.of_nat (length data) in
  let '(ok, outcome, q) := Admit len q in
  if negb ok then (outcome, q) else
  if negb room then (outcome, q) else
  (mkOutcome DirectAccepted (po_raised outcome),
   mkUploadQueue (uq_queue q ++ [mkChunk credit data]) (uq_bytes q +[64] len) (uq_items q +[64] 1) (uq_backpressured q)).

(** How many chunks after the first join it. *)
Fixpoint gather_more (limit gathered : Z) (credit : Reservation) (rest : list UploadChunk) : nat :=
  match rest with
  | [] => 0
  | c :: rest =>
      if (ck_size c =? 0) || negb (bool_decide (rv_owner credit = rv_owner (ck_credit c))) || (limit - gathered <? ck_size c)
      then 0 else S (gather_more limit (gathered + ck_size c) credit rest)
  end.

(** The merge of the credits of the gathered chunks into an empty reservation. *)
Definition merge_credits (cs : list UploadChunk) : Reservation :=
  foldl (λ r c, (Merge r (ck_credit c)).1.2) no_reservation cs.

(** [DrainGather]: the payload and the number of chunks in it. *)
Definition DrainGather (room : bool) (limit : Z) (q : UploadQueue) : option (UploadChunk * nat * UploadQueue) :=
  match uq_queue q with
  | [] => None
  | payload :: rest =>
      let n := if (1 <? limit) && (ck_size payload <? limit)
               then S (gather_more limit (ck_size payload) (ck_credit payload) rest) else 1%nat in
      if (1 <? n)%nat && room then
        let cs := take n (uq_queue q) in
        Some (mkChunk (merge_credits cs) (mjoin (ck_bytes <$> cs)), n,
              mkUploadQueue (drop n (uq_queue q)) (uq_bytes q) (uq_items q) (uq_backpressured q))
      else Some (payload, 1%nat, mkUploadQueue rest (uq_bytes q) (uq_items q) (uq_backpressured q))
  end.

Definition sub_saturating (value amount : Z) : Z := value - Z.min value amount.

(** [Release]: whether the producer is to be resumed. *)
Definition Upload_Release (bytes items : Z) (sent : bool) (q : UploadQueue) : bool * UploadQueue :=
  let b := sub_saturating (uq_bytes q) bytes in
  let i := sub_saturating (uq_items q) items in
  let resume := sent && below_low i b && uq_backpressured q in
  (resume, mkUploadQueue (uq_queue q) b i (if resume then false else uq_backpressured q)).

Definition Upload_Clear (q : UploadQueue) : bool * UploadQueue := (uq_backpressured q, mkUploadQueue [] 0 0 false).

(** *** The queue with its writer, one payload in flight at a time *)
Record UploadSystem := mkUploadSystem {
  up_queue : UploadQueue;
  up_flight : option (UploadChunk * nat);
  up_pushed : list (list Z);   (** the payloads accepted *)
  up_written : list (list Z);  (** the payloads handed to the carrier *)
  up_raises : nat;
  up_resumes : nat;
  up_failed : bool;            (** a write has failed: the owner disposes of the bridge *)
}.

Inductive UploadOp :=
  | UPush (room : bool) (data : list Z) (credit : Reservation)
  | UDrain (room : bool) (limit : Z)
  | UWritten (sent : bool).

Definition upload_step (s : UploadSystem) (op : UploadOp) : option PushOutcome * UploadSystem :=
  match op with
  | UPush room data credit =>
      let '(o, q) := Upload_Push room data credit (up_queue s) in
      (Some o, mkUploadSystem q (up_flight s)
                 (match po_result o with DirectAccepted => up_pushed s ++ [data] | _ => up_pushed s end) (up_written s)
                 (up_raises s + if po_raised o then 1 else 0) (up_resumes s) (up_failed s))
  | UDrain room limit =>
      match up_flight s, DrainGather room limit (up_queue s) with
      | None, Some (payload, n, q) =>
          (None, mkUploadSystem q (Some (payload, n)) (up_pushed s) (up_written s ++ [ck_bytes payload]) (up_raises s)
                   (up_resumes s) (up_failed s))
      | _, _ => (None, s)
      end
  | UWritten sent =>
      match up_flight s with
      | None => (None, s)
      | Some (payload, n) =>
          let '(resume, q) := Upload_Release (ck_size payload) (Z.of_nat n) sent (up_queue s) in
          (None, mkUploadSystem q None (up_pushed s) (up_written s) (up_raises s) (up_resumes s + if resume then 1 else 0)
                   (up_failed s || negb sent))
      end
  end.
Definition upload_start : UploadSystem := mkUploadSystem (mkUploadQueue [] 0 0 false) None [] [] 0 0 false.

Definition sizes (cs : list UploadChunk) : Z := Z.of_nat (length (mjoin (ck_bytes <$> cs))).
Definition flight_size (s : UploadSystem) : Z := match up_flight s with Some (p, _) => ck_size p | None => 0 end.
Definition flight_items (s : UploadSystem) : Z := match up_flight s with Some (_, n) => Z.of_nat n | None => 0 end.

(** What the bridge checks before it pushes: the credit covers the data; segments are far below the caps. *)
Definition owner_id : Z := 1.
Definition upload_op_ok (op : UploadOp) : Prop :=
  match op with
  | UPush _ data credit => credit = mkReservation (Some owner_id) (Z.of_nat (length data)) 1 ∧
                           0 < Z.of_nat (length data) ≤ kUploadLowBytes
  | _ => True
  end.
Definition chunk_ok (n : nat) (c : UploadChunk) : Prop :=
  ck_credit c = mkReservation (Some owner_id) (ck_size c) (Z.of_nat n).

Record upload_inv (s : UploadSystem) : Prop := {
  vi_chunks : Forall (chunk_ok 1) (uq_queue (up_queue s));
  vi_flight : match up_flight s with Some (p, n) => chunk_ok n p | None => True end;
  vi_items : uq_items (up_queue s) = Z.of_nat (length (uq_queue (up_queue s))) + flight_items s;
  vi_bytes : uq_bytes (up_queue s) = sizes (uq_queue (up_queue s)) + flight_size s;
  vi_max_items : uq_items (up_queue s) ≤ kUploadMaxItems;
  vi_max_bytes : uq_bytes (up_queue s) ≤ kUploadMaxBytes;
  vi_stream : mjoin (up_pushed s) = mjoin (up_written s) ++ mjoin (ck_bytes <$> uq_queue (up_queue s));
  vi_episodes : up_raises s = (up_resumes s + if uq_backpressured (up_queue s) then 1 else 0)%nat;
  vi_low : up_failed s = false → uq_backpressured (up_queue s) = true →
           below_low (uq_items (up_queue s)) (uq_bytes (up_queue s)) = false;
}.

Lemma sizes_app cs cs' : sizes (cs ++ cs') = sizes cs + sizes cs'.
Proof. unfold sizes. rewrite fmap_app, join_app, length_app. lia. Qed.
Lemma sizes_cons c cs : sizes (c :: cs) = ck_size c + sizes cs.
Proof. unfold sizes, ck_size. rewrite fmap_cons, mjoin_cons, length_app. lia. Qed.
Lemma sizes_nonneg cs : 0 ≤ sizes cs.
Proof. unfold sizes. lia. Qed.

Lemma flight_nonneg s : 0 ≤ flight_items s ∧ 0 ≤ flight_size s.
Proof. unfold flight_items, flight_size. destruct (up_flight s) as [[p n]|]; [|done]. unfold ck_size. lia. Qed.

Lemma over_cap_above_low items bytes len : 0 ≤ bytes ≤ kUploadMaxBytes → len ≤ kUploadLowBytes →
  over_cap items bytes len = true → below_low items bytes = false.
Proof.
  unfold over_cap, below_low. change kUploadLowBytes with 16777216. change kUploadLowItems with 2048.
  change kUploadMaxBytes with 33554432. change kUploadMaxItems with 4096.
  intros Hb Hl. rewrite wrap_small by (unfold is_uint; lia). intros Ho. apply orb_prop in Ho as [Ho%Z.leb_le|Ho%Z.ltb_lt].
  - rewrite (proj2 (Z.leb_gt items 2048)) by lia. by rewrite andb_false_r.
  - rewrite (proj2 (Z.leb_gt bytes 16777216)) by lia. done.
Qed.

Lemma not_over_cap items bytes len : 0 ≤ bytes ≤ kUploadMaxBytes → over_cap items bytes len = false →
  items < kUploadMaxItems ∧ bytes + len ≤ kUploadMaxBytes.
Proof.
  unfold over_cap, kUploadMaxBytes, kUploadMaxItems. intros Hb. rewrite wrap_small by (unfold is_uint; lia).
  intros [Hi%Z.leb_gt Hl%Z.ltb_ge]%orb_false_elim. lia.
Qed.

(** Merging credits of one budget adds them up. *)
Lemma merge_credits_spec cs acc k : 0 ≤ k → acc = mkReservation (Some owner_id) (rv_bytes acc) k ∨ acc = no_reservation ∧ k = 0 →
  0 ≤ rv_bytes acc → Forall (chunk_ok 1) cs → cs ≠ [] ∨ k ≠ 0 →
  rv_bytes acc + sizes cs < 2 ^ 64 → k + Z.of_nat (length cs) < 2 ^ 64 →
  foldl (λ r c, (Merge r (ck_credit c)).1.2) acc cs =
  mkReservation (Some owner_id) (rv_bytes acc + sizes cs) (k + Z.of_nat (length cs)).
Proof.
  revert acc k. induction cs as [|c cs IH]; intros acc k Hk Hacc Hnn Hcs Hne Hb Hi; cbn [foldl].
  - destruct Hne as [|Hne]; [done|]. destruct Hacc as [->|[_ ->]]; [|done]. cbn. f_equal; [unfold sizes; cbn; lia|lia].
  - apply Forall_cons in Hcs as [Hc Hcs]. rewrite sizes_cons in Hb. cbn [length] in Hi. pose proof (sizes_nonneg cs).
    assert (Hs : 0 ≤ ck_size c) by (unfold ck_size; lia). unfold chunk_ok in Hc. change (Z.of_nat 1) with 1 in Hc. rewrite Hc.
    assert (E : (Merge acc (mkReservation (Some owner_id) (ck_size c) 1)).1.2 =
                mkReservation (Some owner_id) (rv_bytes acc + ck_size c) (k + 1)).
    { unfold Merge, rv_held. cbn. destruct Hacc as [Ha|[-> ->]]; [|done]. rewrite Ha. cbn.
      rewrite !wrap_small by (unfold is_uint; lia). done. }
    rewrite E, (IH _ (k + 1)); cbn [rv_bytes rv_items rv_owner length]; try lia; try done; [|by left].
    rewrite sizes_cons. f_equal; lia.
Qed.

Lemma gather_more_le limit g credit rest : (gather_more limit g credit rest ≤ length rest)%nat.
Proof. revert g. induction rest as [|c rest IH]; intros g; cbn; [lia|]. case_match; [lia|]. specialize (IH (g + ck_size c)). lia. Qed.
Lemma gather_more_size limit g credit rest : g ≤ limit → g + sizes (take (gather_more limit g credit rest) rest) ≤ limit.
Proof.
  revert g. induction rest as [|c rest IH]; intros g Hg; cbn; [unfold sizes; cbn; lia|].
  destruct ((ck_size c =? 0) || negb (bool_decide (rv_owner credit = rv_owner (ck_credit c))) || (limit - g <? ck_size c)) eqn:E;
    [cbn; unfold sizes; cbn; lia|].
  apply orb_false_elim in E as [_ E%Z.ltb_ge]. cbn [take]. rewrite sizes_cons. specialize (IH (g + ck_size c)). lia.
Qed.

(** What [DrainGather] takes: a non-empty prefix, its bytes in order, and exactly its credit. *)
Lemma drain_spec room limit q payload n q' : Forall (chunk_ok 1) (uq_queue q) → sizes (uq_queue q) < 2 ^ 64 →
  Z.of_nat (length (uq_queue q)) < 2 ^ 64 → DrainGather room limit q = Some (payload, n, q') →
  ∃ cs, uq_queue q = cs ++ uq_queue q' ∧ length cs = n ∧ (1 ≤ n)%nat ∧ ck_bytes payload = mjoin (ck_bytes <$> cs) ∧
    chunk_ok n payload ∧ (n = 1%nat ∨ ck_size payload ≤ limit) ∧
    uq_bytes q' = uq_bytes q ∧ uq_items q' = uq_items q ∧ uq_backpressured q' = uq_backpressured q.
Proof.
  intros Hf Hb Hi. unfold DrainGather. destruct (uq_queue q) as [|c rest] eqn:Eq; [done|].
  set (n0 := if (1 <? limit) && (ck_size c <? limit) then S (gather_more limit (ck_size c) (ck_credit c) rest) else 1%nat).
  assert (Hn0 : (n0 ≤ length (c :: rest))%nat).
  { unfold n0. pose proof (gather_more_le limit (ck_size c) (ck_credit c) rest). cbn [length]. case_match; lia. }
  destruct ((1 <? n0)%nat && room) eqn:E; intros [= <- <- <-].
  - apply andb_prop in E as [E%Nat.ltb_lt _]. exists (take n0 (c :: rest)). cbn [uq_queue]. rewrite take_drop.
    split; [done|]. rewrite length_take. split; [lia|]. split; [lia|]. split; [done|].
    assert (Hlim : sizes (take n0 (c :: rest)) ≤ limit).
    { unfold n0 in *. destruct ((1 <? limit) && (ck_size c <? limit)) eqn:E2; [|lia]. apply andb_prop in E2 as [_ E2%Z.ltb_lt].
      cbn [take]. rewrite sizes_cons. apply gather_more_size. lia. }
    split; [|split; [by right|done]].
    assert (Hs : sizes (take n0 (c :: rest)) ≤ sizes (c :: rest)).
    { rewrite <-(take_drop n0 (c :: rest)) at 2. rewrite sizes_app. pose proof (sizes_nonneg (drop n0 (c :: rest))). lia. }
    unfold chunk_ok, merge_credits. cbn [ck_credit].
    rewrite (merge_credits_spec _ _ 0); [..|by right|done|by apply Forall_take| | |].
    + rewrite length_take. unfold ck_size, sizes. cbn [rv_bytes no_reservation ck_bytes]. f_equal; lia.
    + lia.
    + left. destruct n0; [lia|done].
    + cbn [rv_bytes no_reservation]. lia.
    + rewrite length_take. lia.
  - exists [c]. cbn. rewrite app_nil_r. repeat (split; [done|]). split; [|by split; [left|]]. by apply Forall_cons in Hf as [? _].
Qed.

#[export] Instance upload_step_invariant : StepInvariant upload_step upload_op_ok upload_inv.
Proof.
  intros s op Hop Hinv. pose proof Hinv as [Hc Hfl Hi Hb Hmi Hmb Hst Hep Hlow]. pose proof (flight_nonneg s) as [Hf1 Hf2].
  pose proof (sizes_nonneg (uq_queue (up_queue s))) as Hsz. unfold kUploadMaxItems, kUploadMaxBytes in *.
  destruct op as [room data credit|room limit|sent]; cbn [upload_op_ok upload_step] in *.
  - destruct Hop as [-> Hlen]. unfold Upload_Push, Admit.
    destruct (over_cap (uq_items (up_queue s)) (uq_bytes (up_queue s)) (Z.of_nat (length data))) eqn:Eo; cbn [negb].
    + assert (Hal : below_low (uq_items (up_queue s)) (uq_bytes (up_queue s)) = false).
      { eapply over_cap_above_low; [|apply Hlen|exact Eo]. unfold kUploadMaxBytes. lia. }
      split; cbn; try done. rewrite Hep. destruct (uq_backpressured (up_queue s)); cbn; lia.
    + destruct room; cbn [negb]; [|split; cbn; rewrite ?Nat.add_0_r; done].
      apply not_over_cap in Eo as [Hi' Hb']; [|unfold kUploadMaxBytes; lia]. unfold kUploadMaxItems, kUploadMaxBytes in *.
      assert (Es : sizes (uq_queue (up_queue s) ++ [mkChunk (mkReservation (Some owner_id) (Z.of_nat (length data)) 1) data]) =
                   sizes (uq_queue (up_queue s)) + Z.of_nat (length data)).
      { rewrite sizes_app. f_equal. unfold sizes. cbn. by rewrite app_nil_r. }
      unfold flight_items, flight_size in *.
      split; cbn; unfold flight_items, flight_size, kUploadMaxItems, kUploadMaxBytes; cbn;
        rewrite ?wrap_small by (unfold is_uint; lia); try done; try lia.
      * apply Forall_app. split; [done|]. by apply Forall_singleton.
      * rewrite length_app. cbn. lia.
      * rewrite fmap_app, !join_app, Hst, <-app_assoc. cbn. by rewrite !app_nil_r.
      * intros Hnf Hbp. specialize (Hlow Hnf Hbp). revert Hlow. unfold below_low, kUploadLowBytes, kUploadLowItems. cbn.
        intros [E%Z.leb_gt|E%Z.leb_gt]%andb_false_iff; apply andb_false_iff; [left|right]; apply Z.leb_gt; lia.
  - destruct (up_flight s) as [[p n]|] eqn:Ef; [exact Hinv|].
    unfold flight_items, flight_size in *. rewrite Ef in *.
    destruct (DrainGather room limit (up_queue s)) as [[[payload n] q]|] eqn:Ed; [|exact Hinv].
    destruct (drain_spec _ _ _ _ _ _ Hc ltac:(lia) ltac:(lia) Ed) as (cs & Eq & El & _ & Ebs & Hck & _ & E1 & E2 & E3).
    assert (Ep : ck_size payload = sizes cs) by (unfold ck_size, sizes; by rewrite Ebs).
    split; cbn; unfold flight_items, flight_size; cbn; rewrite ?E1, ?E2, ?E3; try done.
    + rewrite Eq in Hc. by apply Forall_app in Hc as [_ ?].
    + rewrite Hi, Eq, length_app, <-El. lia.
    + rewrite Hb, Eq, sizes_app, Ep. lia.
    + rewrite Hst, Eq, fmap_app, !join_app, Ebs. cbn. by rewrite app_nil_r, <-app_assoc.
  - destruct (up_flight s) as [[p n]|] eqn:Ef; [|exact Hinv].
    unfold flight_items, flight_size in *. rewrite Ef in *. unfold Upload_Release. cbn.
    assert (E1 : sub_saturating (uq_bytes (up_queue s)) (ck_size p) = sizes (uq_queue (up_queue s))) by (unfold sub_saturating; lia).
    assert (E2 : sub_saturating (uq_items (up_queue s)) (Z.of_nat n) = Z.of_nat (length (uq_queue (up_queue s)))) by (unfold sub_saturating; lia).
    rewrite E1, E2. split; cbn; unfold flight_items, flight_size, kUploadMaxItems, kUploadMaxBytes; cbn; try done; try lia.
    + destruct sent, (below_low (Z.of_nat (length (uq_queue (up_queue s)))) (sizes (uq_queue (up_queue s)))), (uq_backpressured (up_queue s));
        cbn in *; lia.
    + intros Hnf. destruct sent; [|by rewrite orb_true_r in Hnf]. cbn.
      destruct (below_low (Z.of_nat (length (uq_queue (up_queue s)))) (sizes (uq_queue (up_queue s)))); [|done].
      by destruct (uq_backpressured (up_queue s)).
Qed.

(** ** Handoff mode

    Where a push is.  [rejected] tells the zero-item section of [AdmitSpscRejected] from the push
    itself.  Between [QEnter] and the return the producer's mutex is held, and since both ways to close
    take it, the closing flag is read once per section. *)
Inductive PushPc :=
  | QIdle
  | QClosing (data : list Z) | QOver1 (data : list Z) | QOver2 (data : list Z)
  | QEnter (data : list Z) (rejected : bool) | QCanPush (data : list Z)
  | QAdmit1 (data : list Z) (rejected : bool) | QAdmit2 (data : list Z) (rejected : bool)
  | QRaise (data : list Z) (rejected : bool) | QLow1 (data : list Z) (rejected : bool) | QLow2 (data : list Z) (rejected : bool)
  | QUnraise (data : list Z) (rejected : bool) | QAgain1 (data : list Z) (rejected : bool) | QAgain2 (data : list Z) (rejected : bool)
  | QCountBytes (data : list Z) | QCountItems (data : list Z) | QPublish (data : list Z).

(** Where a release is. *)
Inductive ReleasePc := WIdle | WSubItems (items : Z) (sent : bool) | WLow1 | WLow2 | WFlag | WExchange.

Record HandoffQueue := mkHandoffQueue {
  hq_items : Z;
  hq_bytes : Z;
  hq_flag : bool;
  hq_closed : bool;
  hq_ring : list (list Z);
  hq_staging : list (list Z);
  hq_flight : option (Z * Z);        (** bytes and items of the write under way *)
  hq_push : PushPc;
  hq_release : ReleasePc;
  hq_full : nat;                     (** [handoff_full] *)
  hq_answers : list PushOutcome;
  hq_accepted : list (list Z);
  hq_taken : list (list Z);
  hq_resumes : nat;
  hq_resets : nat;                   (** flags lowered by [Clear] *)
  hq_failed : bool;
  hq_cleared : bool;
}.

Definition set_push (s : HandoffQueue) (p : PushPc) : HandoffQueue :=
  mkHandoffQueue (hq_items s) (hq_bytes s) (hq_flag s) (hq_closed s) (hq_ring s) (hq_staging s) (hq_flight s) p (hq_release s)
    (hq_full s) (hq_answers s) (hq_accepted s) (hq_taken s) (hq_resumes s) (hq_resets s) (hq_failed s) (hq_cleared s).
Definition answer_push (s : HandoffQueue) (r : XtcpDirectResult) (raised : bool) : HandoffQueue :=
  mkHandoffQueue (hq_items s) (hq_bytes s) (hq_flag s) (hq_closed s) (hq_ring s) (hq_staging s) (hq_flight s) QIdle (hq_release s)
    (hq_full s) (hq_answers s ++ [mkOutcome r raised]) (hq_accepted s) (hq_taken s) (hq_resumes s) (hq_resets s) (hq_failed s) (hq_cleared s).
Definition set_release (s : HandoffQueue) (w : ReleasePc) : HandoffQueue :=
  mkHandoffQueue (hq_items s) (hq_bytes s) (hq_flag s) (hq_closed s) (hq_ring s) (hq_staging s) (hq_flight s) (hq_push s) w
    (hq_full s) (hq_answers s) (hq_accepted s) (hq_taken s) (hq_resumes s) (hq_resets s) (hq_failed s) (hq_cleared s).
Definition set_counters (s : HandoffQueue) (items bytes : Z) : HandoffQueue :=
  mkHandoffQueue items bytes (hq_flag s) (hq_closed s) (hq_ring s) (hq_staging s) (hq_flight s) (hq_push s) (hq_release s)
    (hq_full s) (hq_answers s) (hq_accepted s) (hq_taken s) (hq_resumes s) (hq_resets s) (hq_failed s) (hq_cleared s).
Definition set_flag (s : HandoffQueue) (f : bool) (resumes : nat) : HandoffQueue :=
  mkHandoffQueue (hq_items s) (hq_bytes s) f (hq_closed s) (hq_ring s) (hq_staging s) (hq_flight s) (hq_push s) (hq_release s)
    (hq_full s) (hq_answers s) (hq_accepted s) (hq_taken s) resumes (hq_resets s) (hq_failed s) (hq_cleared s).

Definition data_size (data : list Z) : Z := Z.of_nat (length data).

(** [Admit] has accepted: the rejected section leaves and the push is tried; the push itself counts. *)
Definition admitted_push (data : list Z) (rejected : bool) : PushPc := if rejected then QEnter data false else QCountBytes data.

(** One access of [Push], with [OverCap], [AdmitSpscRejected], [Admit] and [Count]. *)
Definition Push_access (s : HandoffQueue) : option HandoffQueue :=
  let over d := kUploadMaxBytes -[64] hq_bytes s <? data_size d in
  match hq_push s with
  | QIdle => None
  | QClosing d => Some (if hq_closed s then answer_push s DirectClosed false else set_push s (QOver1 d))
  | QOver1 d => Some (set_push s (if kUploadMaxItems <=? hq_items s then QEnter d true else QOver2 d))
  | QOver2 d => Some (set_push s (QEnter d (over d)))
  | QEnter d rejected =>
      Some (if hq_closed s then answer_push s DirectClosed false
            else set_push s (if rejected then QAdmit1 d true else QCanPush d))
  | QCanPush d =>
      Some (if Z.of_nat (length (hq_ring s)) + 1 <=? kUploadMaxItems then set_push s (QAdmit1 d false)
            else let s := answer_push s DirectBackpressured false in
                 mkHandoffQueue (hq_items s) (hq_bytes s) (hq_flag s) (hq_closed s) (hq_ring s) (hq_staging s) (hq_flight s)
                   (hq_push s) (hq_release s) (S (hq_full s)) (hq_answers s) (hq_accepted s) (hq_taken s) (hq_resumes s)
                   (hq_resets s) (hq_failed s) (hq_cleared s))
  | QAdmit1 d rejected => Some (set_push s (if kUploadMaxItems <=? hq_items s then QRaise d rejected else QAdmit2 d rejected))
  | QAdmit2 d rejected => Some (set_push s (if over d then QRaise d rejected else admitted_push d rejected))
  | QRaise d rejected =>
      Some (if hq_flag s then answer_push s DirectBackpressured false
            else set_push (set_flag s true (hq_resumes s)) (QLow1 d rejected))
  | QLow1 d rejected =>
      Some (if hq_bytes s <=? kUploadLowBytes then set_push s (QLow2 d rejected) else answer_push s DirectBackpressured true)
  | QLow2 d rejected =>
      Some (if hq_items s <=? kUploadLowItems then set_push s (QUnraise d rejected) else answer_push s DirectBackpressured true)
  | QUnraise d rejected =>
      Some (if hq_flag s then set_push (set_flag s false (hq_resumes s)) (QAgain1 d rejected)
            else answer_push s DirectBackpressured true)
  | QAgain1 d rejected =>
      Some (if kUploadMaxItems <=? hq_items s then answer_push s DirectBackpressured false else set_push s (QAgain2 d rejected))
  | QAgain2 d rejected =>
      Some (if over d then answer_push s DirectBackpressured false else set_push s (admitted_push d rejected))
  | QCountBytes d => Some (set_push (set_counters s (hq_items s) (hq_bytes s +[64] data_size d)) (QCountItems d))
  | QCountItems d => Some (set_push (set_counters s (hq_items s +[64] 1) (hq_bytes s)) (QPublish d))
  | QPublish d =>
      let s := answer_push s DirectAccepted false in
      Some (mkHandoffQueue (hq_items s) (hq_bytes s) (hq_flag s) (hq_closed s) (hq_ring s ++ [d]) (hq_staging s) (hq_flight s)
              (hq_push s) (hq_release s) (hq_full s) (hq_answers s) (hq_accepted s ++ [d]) (hq_taken s) (hq_resumes s)
              (hq_resets s) (hq_failed s) (hq_cleared s))
  end.

(** One access of [Release] after the subtraction of the bytes. *)
Definition Release_access (s : HandoffQueue) : option HandoffQueue :=
  match hq_release s with
  | WIdle => None
  | WSubItems items sent =>
      Some (set_release (set_counters s (sub_saturating (hq_items s) items) (hq_bytes s)) (if sent then WLow1 else WIdle))
  | WLow1 => Some (set_release s (if hq_bytes s <=? kUploadLowBytes then WLow2 else WIdle))
  | WLow2 => Some (set_release s (if hq_items s <=? kUploadLowItems then WFlag else WIdle))
  | WFlag => Some (set_release s (if hq_flag s then WExchange else WIdle))
  | WExchange => Some (set_release (set_flag s false (hq_resumes s + if hq_flag s then 1 else 0)) WIdle)
  end.

Definition in_section (p : PushPc) : bool :=
  match p with QIdle | QClosing _ | QOver1 _ | QOver2 _ | QEnter _ _ => false | _ => true end.

Inductive HandoffOp :=
  | HPush (data : list Z)
  | HProducer
  | HClose            (** [RequestClose] or [Abort] *)
  | HPull             (** one round of [Pull] *)
  | HTake (n : nat)   (** [DrainGather] of [n] chunks *)
  | HRelease (sent : bool)
  | HConsumer
  | HClear.

Definition handoff_queue_step (s : HandoffQueue) (op : HandoffOp) : option HandoffQueue :=
  match op with
  | HPush data => match hq_push s with QIdle => Some (set_push s (QClosing data)) | _ => None end
  | HProducer => Push_access s
  | HClose => if in_section (hq_push s) then None else
      Some (mkHandoffQueue (hq_items s) (hq_bytes s) (hq_flag s) true (hq_ring s) (hq_staging s) (hq_flight s) (hq_push s)
              (hq_release s) (hq_full s) (hq_answers s) (hq_accepted s) (hq_taken s) (hq_resumes s) (hq_resets s) (hq_failed s)
              (hq_cleared s))
  | HPull =>
      match hq_release s, hq_ring s with
      | WIdle, d :: ring =>
          Some (mkHandoffQueue (hq_items s) (hq_bytes s) (hq_flag s) (hq_closed s) ring (hq_staging s ++ [d]) (hq_flight s)
                  (hq_push s) (hq_release s) (hq_full s) (hq_answers s) (hq_accepted s) (hq_taken s) (hq_resumes s) (hq_resets s)
                  (hq_failed s) (hq_cleared s))
      | _, _ => None
      end
  | HTake n =>
      match hq_release s, hq_flight s with
      | WIdle, None =>
          if (0 <? n)%nat && (n <=? length (hq_staging s))%nat then
            let ds := take n (hq_staging s) in
            Some (mkHandoffQueue (hq_items s) (hq_bytes s) (hq_flag s) (hq_closed s) (hq_ring s) (drop n (hq_staging s))
                    (Some (Z.of_nat (length (mjoin ds)), Z.of_nat n)) (hq_push s) (hq_release s) (hq_full s) (hq_answers s)
                    (hq_accepted s) (hq_taken s ++ ds) (hq_resumes s) (hq_resets s) (hq_failed s) (hq_cleared s))
          else None
      | _, _ => None
      end
  | HRelease sent =>
      match hq_release s, hq_flight s with
      | WIdle, Some (bytes, items) =>
          Some (mkHandoffQueue (hq_items s) (sub_saturating (hq_bytes s) bytes) (hq_flag s) (hq_closed s) (hq_ring s) (hq_staging s)
                  None (hq_push s) (WSubItems items sent) (hq_full s) (hq_answers s) (hq_accepted s) (hq_taken s) (hq_resumes s)
                  (hq_resets s) (hq_failed s || negb sent) (hq_cleared s))
      | _, _ => None
      end
  | HConsumer => Release_access s
  | HClear =>
      match hq_release s with
      | WIdle =>
          if hq_closed s then
            Some (mkHandoffQueue 0 0 false true [] [] (hq_flight s) (hq_push s) WIdle (hq_full s) (hq_answers s) (hq_accepted s)
                    (hq_taken s) (hq_resumes s) (hq_resets s + if hq_flag s then 1 else 0) (hq_failed s) true)
          else None
      | _ => None
      end
  end.

Definition handoff_queue_start : HandoffQueue :=
  mkHandoffQueue 0 0 false false [] [] None QIdle WIdle 0 [] [] [] 0 0 false false.

Inductive handoff_queue_reachable : HandoffQueue → Prop :=
  | hq_init : handoff_queue_reachable handoff_queue_start
  | hq_next s op s' : handoff_queue_reachable s → handoff_queue_step s op = Some s' →
      (∀ data, op = HPush data → 0 < data_size data ≤ kUploadLowBytes) → handoff_queue_reachable s'.
Fixpoint handoff_queue_run (s : HandoffQueue) (ops : list HandoffOp) : option HandoffQueue :=
  match ops with [] => Some s | op :: ops => s ← handoff_queue_step s op; handoff_queue_run s ops end.

(** *** Counters, ring and backpressure *)
Definition total (ds : list (list Z)) : Z := Z.of_nat (length (mjoin ds)).
Definition counted_bytes (p : PushPc) : Z := match p with QCountItems d | QPublish d => data_size d | _ => 0 end.
Definition counted_items (p : PushPc) : Z := match p with QPublish _ => 1 | _ => 0 end.
Definition released_items (w : ReleasePc) : Z := match w with WSubItems n _ => n | _ => 0 end.
Definition hq_flight_bytes (s : HandoffQueue) : Z := match hq_flight s with Some (b, _) => b | None => 0 end.
Definition hq_flight_items (s : HandoffQueue) : Z := match hq_flight s with Some (_, n) => n | None => 0 end.

(** What the producer has learned and the consumer cannot undo, since it only lowers the counters. *)
Definition push_facts (items bytes : Z) (p : PushPc) : Prop :=
  match p with
  | QIdle => True
  | QClosing d | QOver1 d | QEnter d true | QAdmit1 d _ | QRaise d _ | QLow1 d _ | QPublish d => 0 < data_size d ≤ kUploadLowBytes
  | QOver2 d | QEnter d false | QCanPush d | QAdmit2 d _ | QCountItems d => 0 < data_size d ≤ kUploadLowBytes ∧ items < kUploadMaxItems
  | QLow2 d _ => 0 < data_size d ≤ kUploadLowBytes ∧ bytes ≤ kUploadLowBytes
  | QUnraise d _ | QAgain1 d _ | QAgain2 d _ =>
      0 < data_size d ≤ kUploadLowBytes ∧ bytes ≤ kUploadLowBytes ∧ items ≤ kUploadLowItems
  | QCountBytes d => 0 < data_size d ≤ kUploadLowBytes ∧ items < kUploadMaxItems ∧ bytes + data_size d ≤ kUploadMaxBytes
  end.
Definition raise_pending (p : PushPc) : bool := match p with QLow1 _ _ | QLow2 _ _ | QUnraise _ _ => true | _ => false end.
Definition release_checks (w : ReleasePc) : bool := match w with WSubItems _ true | WLow1 | WLow2 | WFlag | WExchange => true | _ => false end.
Definition raises_reported (answers : list PushOutcome) : nat := length (filter (λ o, po_raised o = true) answers).

Record handoff_queue_inv (s : HandoffQueue) : Prop := {
  hi_exact : hq_cleared s = false →
    hq_items s = Z.of_nat (length (hq_ring s) + length (hq_staging s)) + hq_flight_items s + counted_items (hq_push s) +
                 released_items (hq_release s) ∧
    hq_bytes s = total (hq_ring s) + total (hq_staging s) + hq_flight_bytes s + counted_bytes (hq_push s) ∧
    hq_accepted s = hq_taken s ++ hq_staging s ++ hq_ring s;
  hi_cleared : hq_cleared s = true →
    hq_closed s = true ∧ hq_items s = 0 ∧ hq_bytes s = 0 ∧ hq_ring s = [] ∧ hq_staging s = [] ∧ hq_flag s = false;
  hi_closed : hq_closed s = true → in_section (hq_push s) = false;
  hi_range : 0 ≤ hq_items s ≤ kUploadMaxItems ∧ 0 ≤ hq_bytes s ≤ kUploadMaxBytes;
  hi_flight : 0 ≤ hq_flight_items s ∧ 0 ≤ hq_flight_bytes s ∧ 0 ≤ released_items (hq_release s);
  hi_facts : push_facts (hq_items s) (hq_bytes s) (hq_push s);
  hi_full : hq_full s = 0%nat;
  hi_reported : (raises_reported (hq_answers s) + (if raise_pending (hq_push s) then 1 else 0) =
                 hq_resumes s + hq_resets s + if hq_flag s then 1 else 0)%nat;
  hi_low : hq_failed s = false → hq_flag s = true → below_low (hq_items s) (hq_bytes s) = true →
    raise_pending (hq_push s) || release_checks (hq_release s) = true;
  hi_unsent : hq_failed s = false → match hq_release s with WSubItems _ sent => sent = true | _ => True end;
}.

Lemma facts_mono items bytes items' bytes' p : items' ≤ items → bytes' ≤ bytes → push_facts items bytes p → push_facts items' bytes' p.
Proof. intros Hi Hb. destruct p; cbn; repeat case_match; lia. Qed.

#[local] Arguments raises_reported : simpl never.
#[local] Arguments total : simpl never.
#[local] Arguments data_size : simpl never.
Lemma raises_snoc answers r raised : raises_reported (answers ++ [mkOutcome r raised]) =
  (raises_reported answers + if raised then 1 else 0)%nat.
Proof. unfold raises_reported. rewrite filter_app, length_app. f_equal. by destruct raised. Qed.

Lemma total_app ds ds' : total (ds ++ ds') = total ds + total ds'.
Proof. unfold total. rewrite join_app, length_app. lia. Qed.
Lemma total_single d : total [d] = data_size d.
Proof. unfold total, data_size. cbn. by rewrite app_nil_r. Qed.
Lemma total_cons d ds : total (d :: ds) = data_size d + total ds.
Proof. unfold total, data_size. rewrite mjoin_cons, length_app. lia. Qed.
Lemma total_nonneg ds : 0 ≤ total ds.
Proof. unfold total. lia. Qed.

Ltac upload_consts :=
  change kUploadLowBytes with 16777216 in *; change kUploadLowItems with 2048 in *;
  change kUploadMaxBytes with 33554432 in *; change kUploadMaxItems with 4096 in *.

(** The fields of a step that only moves the producer, or answers. *)
Lemma inv_set_push s p : handoff_queue_inv s → push_facts (hq_items s) (hq_bytes s) p →
  counted_items p = counted_items (hq_push s) → counted_bytes p = counted_bytes (hq_push s) →
  (hq_closed s = true → in_section p = false) →
  raise_pending p = raise_pending (hq_push s) → handoff_queue_inv (set_push s p).
Proof.
  intros [Hex Hcl Hc Hr Hf _ Hfu Hre Hl Hu] Hp Ei Eb Hs Er.
  split; cbn; try done; unfold hq_flight_items, hq_flight_bytes in *; rewrite ?Ei, ?Eb, ?Er; done.
Qed.

Lemma inv_answer s r raised : handoff_queue_inv s → counted_items (hq_push s) = 0 → counted_bytes (hq_push s) = 0 →
  raised = raise_pending (hq_push s) →
  (raised = true → hq_flag s = true → below_low (hq_items s) (hq_bytes s) = true → False) →
  handoff_queue_inv (answer_push s r raised).
Proof.
  intros [Hex Hcl Hc Hr Hf _ Hfu Hre Hl Hu] Ei Eb -> Hlow.
  split; cbn; try done; unfold hq_flight_items, hq_flight_bytes in *; rewrite ?raises_snoc; rewrite ?Ei, ?Eb in *; try done.
  - destruct (raise_pending (hq_push s)); cbn in *; lia.
  - intros Hnf Hfl Hbl. specialize (Hl Hnf Hfl Hbl). destruct (raise_pending (hq_push s)) eqn:Ep; [|done].
    exfalso. by apply Hlow.
Qed.

Lemma below_low_spec items bytes : below_low items bytes = true ↔ bytes ≤ kUploadLowBytes ∧ items ≤ kUploadLowItems.
Proof. unfold below_low. by rewrite andb_true_iff, !Z.leb_le. Qed.

Lemma push_access_inv s s' : handoff_queue_inv s → Push_access s = Some s' → handoff_queue_inv s'.
Proof.
  intros Hinv. pose proof (hi_facts _ Hinv) as Hf. pose proof (hi_range _ Hinv) as Hr. pose proof (hi_closed _ Hinv) as Hc.
  unfold Push_access. rewrite wrap_small by (unfold is_uint, kUploadMaxBytes in *; lia).
  destruct (hq_push s) as [|d|d|d|d rej|d|d rej|d rej|d rej|d rej|d rej|d rej|d rej|d rej|d|d|d] eqn:Ep; cbn in Hf, Hc; [done|..]; intros [= <-].
  - destruct (hq_closed s); [apply inv_answer; by rewrite ?Ep|apply inv_set_push; by rewrite ?Ep].
  - apply inv_set_push; rewrite ?Ep; try done; destruct (Z.leb_spec kUploadMaxItems (hq_items s)); cbn; try done; lia.
  - destruct (kUploadMaxBytes - hq_bytes s <? data_size d); apply inv_set_push; rewrite ?Ep; cbn; try done; lia.
  - destruct (hq_closed s) eqn:Ecl; [apply inv_answer; by rewrite ?Ep|].
    apply inv_set_push; rewrite ?Ep; try done; destruct rej; cbn; try done; congruence.
  - assert (Hncl : hq_cleared s = false).
    { destruct (hq_cleared s) eqn:Ecl; [|done]. destruct (hi_cleared _ Hinv Ecl) as [Hcl _]. by specialize (Hc Hcl). }
    destruct (hi_exact _ Hinv Hncl) as (Hi & _ & _). rewrite Ep in Hi. cbn in Hi. pose proof (hi_flight _ Hinv).
    destruct (Z.leb_spec (Z.of_nat (length (hq_ring s)) + 1) kUploadMaxItems); [|lia].
    apply inv_set_push; rewrite ?Ep; try done. cbn. lia.
  - apply inv_set_push; rewrite ?Ep; try done; destruct (Z.leb_spec kUploadMaxItems (hq_items s)); cbn; try done; lia.
  - destruct (Z.ltb_spec (kUploadMaxBytes - hq_bytes s) (data_size d)); apply inv_set_push; rewrite ?Ep; try done; cbn; try lia;
      destruct rej; cbn; try done; lia.
  - destruct (hq_flag s) eqn:Efl; [apply inv_answer; by rewrite ?Ep|].
    destruct Hinv as [Hex Hcl _ _ Hfl _ Hfu Hre Hl Hu]. rewrite Ep in *.
    split; cbn; try done; unfold hq_flight_items, hq_flight_bytes in *; cbn; try done.
    + intros Hcl'. destruct (Hcl Hcl') as [Hcc _]. by specialize (Hc Hcc).
    + rewrite Efl in Hre. cbn in Hre. lia.
  - destruct (Z.leb_spec (hq_bytes s) kUploadLowBytes).
    + apply inv_set_push; rewrite ?Ep; try done.
    + apply inv_answer; rewrite ?Ep; try done. intros _ _ Hb%below_low_spec. lia.
  - destruct (Z.leb_spec (hq_items s) kUploadLowItems).
    + apply inv_set_push; rewrite ?Ep; try done. cbn. lia.
    + apply inv_answer; rewrite ?Ep; try done. intros _ _ Hb%below_low_spec. lia.
  - destruct (hq_flag s) eqn:Efl; [|by apply inv_answer; rewrite ?Ep, ?Efl].
    destruct Hinv as [Hex Hcl _ _ Hfl _ Hfu Hre Hl Hu]. rewrite Ep in *.
    split; cbn; try done; unfold hq_flight_items, hq_flight_bytes in *; cbn; try done.
    + intros Hcl'. destruct (Hcl Hcl') as [Hcc _]. by specialize (Hc Hcc).
    + rewrite Efl in Hre. cbn in Hre. lia.
  - destruct (Z.leb_spec kUploadMaxItems (hq_items s)); [upload_consts; lia|]. by apply inv_set_push; rewrite ?Ep.
  - destruct (Z.ltb_spec (kUploadMaxBytes - hq_bytes s) (data_size d)); [upload_consts; lia|].
    apply inv_set_push; rewrite ?Ep; try done; destruct rej; cbn; try done; upload_consts; lia.
  - pose proof (total_nonneg (hq_ring s)). destruct Hinv as [Hex Hcl _ _ Hfl _ Hfu Hre Hl Hu]. rewrite Ep in *.
    rewrite wrap_small by (unfold is_uint; upload_consts; lia).
    split; cbn; try done; unfold hq_flight_items, hq_flight_bytes in *; cbn in *; try done; try lia.
    + intros Hn. destruct (Hex Hn) as (? & ? & ?). split; [lia|]. split; [lia|done].
    + intros Hcl'. destruct (Hcl Hcl') as [Hcc _]. by specialize (Hc Hcc).
    + intros Hnf Hfl' [Hb1 Hb2]%below_low_spec. apply Hl; [done|done|]. apply below_low_spec. lia.
  - destruct Hinv as [Hex Hcl _ _ Hfl _ Hfu Hre Hl Hu]. rewrite Ep in *.
    rewrite wrap_small by (unfold is_uint; upload_consts; lia).
    split; cbn; try done; unfold hq_flight_items, hq_flight_bytes in *; cbn in *; try done; try lia.
    + intros Hn. destruct (Hex Hn) as (? & ? & ?). split; [lia|]. split; [lia|done].
    + intros Hcl'. destruct (Hcl Hcl') as [Hcc _]. by specialize (Hc Hcc).
    + intros Hnf Hfl' [Hb1 Hb2]%below_low_spec. apply Hl; [done|done|]. apply below_low_spec. lia.
  - destruct Hinv as [Hex Hcl _ _ Hfl _ Hfu Hre Hl Hu]. rewrite Ep in *.
    split; cbn; try done; unfold hq_flight_items, hq_flight_bytes in *; cbn in *; try done.
    + intros Hn. destruct (Hex Hn) as (? & ? & ->). rewrite length_app, total_app, total_single, <-!app_assoc. cbn. split; [lia|]. split; [lia|done].
    + intros Hcl'. destruct (Hcl Hcl') as [Hcc _]. by specialize (Hc Hcc).
    + rewrite raises_snoc. cbn in *. lia.
Qed.

Lemma release_access_inv s s' : handoff_queue_inv s → Release_access s = Some s' → handoff_queue_inv s'.
Proof.
  intros [Hex Hcl Hc Hr Hfl Hf Hfu Hre Hl Hu]. unfold Release_access, hq_flight_items, hq_flight_bytes in *.
  destruct (hq_release s) as [|n sent| | | |] eqn:Er; [done|..]; cbn in Hex, Hfl; intros [= <-].
  - assert (Hle : sub_saturating (hq_items s) n ≤ hq_items s) by (unfold sub_saturating; lia).
    split; cbn; unfold hq_flight_items, hq_flight_bytes; cbn; try done.
    + intros Hn. destruct (Hex Hn) as (Hi & Hb & Ha). assert (Hci : 0 ≤ counted_items (hq_push s)) by (destruct (hq_push s); done).
      split; [|done]. destruct sent; cbn; unfold sub_saturating; lia.
    + intros Hcl'. destruct (Hcl Hcl') as (? & -> & ?). split; [done|]. split; [unfold sub_saturating; lia|done].
    + unfold sub_saturating in *. lia.
    + destruct sent; cbn; lia.
    + by eapply facts_mono; [..|exact Hf].
    + destruct sent; cbn; [by rewrite orb_true_r|]. intros Hnf. by specialize (Hu Hnf).
    + by destruct sent.
  - split; cbn; unfold hq_flight_items, hq_flight_bytes; cbn; try done.
    + destruct (hq_bytes s <=? kUploadLowBytes); cbn; exact Hex.
    + destruct (hq_bytes s <=? kUploadLowBytes); cbn; exact Hfl.
    + intros Hnf Hflag Hbl. pose proof Hbl as [Hb1 Hb2]%below_low_spec. destruct (Z.leb_spec (hq_bytes s) kUploadLowBytes); [|lia]. by rewrite orb_true_r.
    + intros _. by destruct (hq_bytes s <=? kUploadLowBytes).
  - split; cbn; unfold hq_flight_items, hq_flight_bytes; cbn; try done.
    + destruct (hq_items s <=? kUploadLowItems); cbn; exact Hex.
    + destruct (hq_items s <=? kUploadLowItems); cbn; exact Hfl.
    + intros Hnf Hflag Hbl. pose proof Hbl as [Hb1 Hb2]%below_low_spec. destruct (Z.leb_spec (hq_items s) kUploadLowItems); [|lia]. by rewrite orb_true_r.
    + intros _. by destruct (hq_items s <=? kUploadLowItems).
  - split; cbn; unfold hq_flight_items, hq_flight_bytes; cbn; try done.
    + destruct (hq_flag s); cbn; exact Hex.
    + destruct (hq_flag s); cbn; exact Hfl.
    + intros Hnf Hflag Hbl. rewrite Hflag. by rewrite orb_true_r.
    + intros _. by destruct (hq_flag s).
  - split; cbn; unfold hq_flight_items, hq_flight_bytes; cbn; try done.
    + intros Hcl'. destruct (Hcl Hcl') as (? & ? & ? & ? & ? & ?). done.
    + destruct (hq_flag s); lia.
Qed.

Lemma handoff_queue_inv_step s op s' : handoff_queue_inv s → handoff_queue_step s op = Some s' →
  (∀ data, op = HPush data → 0 < data_size data ≤ kUploadLowBytes) → handoff_queue_inv s'.
Proof.
  intros Hinv Hs Hd. destruct op as [data| | | |n|sent| |]; cbn [handoff_queue_step] in Hs.
  - destruct (hq_push s) eqn:Ep; try done. simplify_eq. apply inv_set_push; rewrite ?Ep; try done. by apply Hd.
  - by eapply push_access_inv.
  - destruct (in_section (hq_push s)) eqn:Es; [done|]. simplify_eq. destruct Hinv as [Hex Hcl Hc Hr Hfl Hf Hfu Hre Hl Hu].
    split; try done. cbn. intros Hc'. by destruct (Hcl Hc').
  - destruct Hinv as [Hex Hcl Hc Hr Hfl Hf Hfu Hre Hl Hu]. destruct (hq_release s) eqn:Er; try done.
    destruct (hq_ring s) as [|d ring] eqn:Eg; [done|]. simplify_eq. try rewrite Er in *. cbn in Hex, Hfl. split; try done; cbn; unfold hq_flight_items, hq_flight_bytes in *; cbn; rewrite ?Er; try done.
    + intros Hn. destruct (Hex Hn) as (Hi & Hb & ->). rewrite total_cons in Hb. cbn [length] in Hi.
      rewrite length_app, total_app, total_single, <-!app_assoc. cbn. split; [lia|]. split; [lia|done].
    + intros Hn. by destruct (Hcl Hn) as (_ & _ & _ & ? & _).
  - destruct Hinv as [Hex Hcl Hc Hr Hfl Hf Hfu Hre Hl Hu]. destruct (hq_release s) eqn:Er; try done.
    destruct (hq_flight s) eqn:Ef; [done|]. destruct ((0 <? n)%nat && (n <=? length (hq_staging s))%nat) eqn:En; [|done].
    apply andb_prop in En as [En1%Nat.ltb_lt En2%Nat.leb_le]. simplify_eq.
    unfold hq_flight_items, hq_flight_bytes in *. rewrite ?Ef in *. rewrite ?Er in *. cbn in Hex, Hfl.
    split; try done; cbn; unfold hq_flight_items, hq_flight_bytes; cbn; rewrite ?Er; try done; try lia.
    + intros Hn. destruct (Hex Hn) as (Hi & Hb & Ha). split; [rewrite length_drop; cbn; lia|]. split.
      * rewrite <-(take_drop n (hq_staging s)), total_app in Hb. unfold total in *. lia.
      * rewrite Ha. rewrite <-(take_drop n (hq_staging s)) at 1. by rewrite <-!app_assoc.
    + intros Hn. destruct (Hcl Hn) as (? & ? & ? & ? & Hst & ?). rewrite Hst. by rewrite drop_nil.
  - destruct Hinv as [Hex Hcl Hc Hr Hfl Hf Hfu Hre Hl Hu]. destruct (hq_release s) eqn:Er; try done.
    destruct (hq_flight s) as [[b i]|] eqn:Ef; [|done]. simplify_eq.
    unfold hq_flight_items, hq_flight_bytes in *. rewrite ?Ef in *. rewrite ?Er in *. cbn in Hex, Hfl.
    assert (Hle : sub_saturating (hq_bytes s) b ≤ hq_bytes s) by (unfold sub_saturating; lia).
    split; try done; cbn; unfold hq_flight_items, hq_flight_bytes; cbn; try done; try lia.
    + intros Hn. destruct (Hex Hn) as (Hi & Hb & Ha). split; [lia|]. split; [|done].
      assert (0 ≤ counted_bytes (hq_push s)) by (destruct (hq_push s); cbn; unfold data_size; lia).
      pose proof (total_nonneg (hq_ring s)). pose proof (total_nonneg (hq_staging s)). unfold sub_saturating. lia.
    + intros Hn. destruct (Hcl Hn) as (? & ? & -> & ?). split; [done|]. split; [done|]. split; [unfold sub_saturating; lia|done].
    + unfold sub_saturating in *. lia.
    + by eapply facts_mono; [..|exact Hf].
    + destruct sent; [intros; by rewrite orb_true_r|]. intros Hnf. by rewrite orb_true_r in Hnf.
    + destruct sent; [done|]. intros Hnf. by rewrite orb_true_r in Hnf.
  - by eapply release_access_inv.
  - destruct Hinv as [Hex Hcl Hc Hr Hfl Hf Hfu Hre Hl Hu]. destruct (hq_release s) eqn:Er; try done.
    destruct (hq_closed s) eqn:Ecl; [|done]. simplify_eq.
    split; try done; cbn; unfold hq_flight_items, hq_flight_bytes in *; cbn; try done; try lia.
    by eapply facts_mono; [..|exact Hf]; lia.
Qed.

Lemma handoff_queue_reachable_inv s : handoff_queue_reachable s → handoff_queue_inv s.
Proof.
  induction 1 as [|s op s' _ IH Hs Hd]; [|by eapply handoff_queue_inv_step]. split; try done; cbn; upload_consts; lia.
Qed.

(** The upload queue under its owner's lock.  Whatever is pushed, gathered and written: the byte and
    item counters are exactly what is queued or in flight, within the caps; the bytes handed to the
    carrier, followed by those queued, are the bytes accepted, in order; a gathered write carries
    exactly the credit of its bytes and chunks; every raise of the backpressure is answered by at most
    one resume, and as long as no write has failed, the backpressure is only up above the low marks, so
    that it is down again once everything accepted has been written. *)
Theorem upload_queue_accounted ops : Forall upload_op_ok ops →
  let s := exec upload_step upload_start ops in
  uq_items (up_queue s) = Z.of_nat (length (uq_queue (up_queue s))) + flight_items s ∧
  uq_bytes (up_queue s) = sizes (uq_queue (up_queue s)) + flight_size s ∧
  uq_items (up_queue s) ≤ kUploadMaxItems ∧ uq_bytes (up_queue s) ≤ kUploadMaxBytes ∧
  mjoin (up_pushed s) = mjoin (up_written s) ++ mjoin (ck_bytes <$> uq_queue (up_queue s)) ∧
  match up_flight s with
  | Some (p, n) => ck_credit p = mkReservation (Some owner_id) (ck_size p) (Z.of_nat n)
  | None => True
  end ∧
  up_raises s = (up_resumes s + if uq_backpressured (up_queue s) then 1 else 0)%nat ∧
  (up_failed s = false → up_flight s = None → uq_queue (up_queue s) = [] → uq_backpressured (up_queue s) = false).
Proof.
  intros Hops. cbv zeta. assert (Hinv : upload_inv (exec upload_step upload_start ops)).
  { apply (exec_invariant upload_step upload_op_ok upload_inv); [by split|done]. }
  revert Hinv. generalize (exec upload_step upload_start ops). intros s [Hc Hfl Hi Hb Hmi Hmb Hst Hep Hlow].
  do 4 (split; [done|]). split; [done|]. split; [by destruct (up_flight s) as [[p n]|]|]. split; [done|].
  intros Hnf Hnone Hnil. destruct (uq_backpressured (up_queue s)) eqn:Eb; [|done]. specialize (Hlow Hnf eq_refl).
  unfold flight_items, flight_size in *. rewrite Hnone, Hnil in *. rewrite Hi, Hb in Hlow. done.
Qed.

(** C24: the upload queue without the lock, for chunks of at least one byte and at most the low mark of 16 MiB.  In every
    state the interleaved accesses of a push and of the writer reach: the ring never refuses a chunk the caps admitted; unless
    the queue was cleared the counters are exactly what is queued, staged and in flight, what a push under way has
    counted and not yet queued, and the items of a release under way, and the chunks taken, staged and queued are the chunks
    accepted, in order; the raises reported to the producer, with the one a push under way is about to report, are the resumes
    reported to the writer, the flags a clear has lowered, and the flag if it is up; the flag is up at or below the low
    marks only while a push or a release that looks at it is under way, unless a write has failed; so
    when neither side is in a call and no write has failed, the backpressure is up only above the low
    marks: a resume is never lost. *)
Theorem upload_handoff_resumes s : handoff_queue_reachable s →
  hq_full s = 0%nat ∧
  (hq_cleared s = false → hq_accepted s = hq_taken s ++ hq_staging s ++ hq_ring s) ∧
  0 ≤ hq_items s ≤ kUploadMaxItems ∧ 0 ≤ hq_bytes s ≤ kUploadMaxBytes ∧
  (hq_cleared s = false →
     hq_items s = Z.of_nat (length (hq_ring s) + length (hq_staging s)) + hq_flight_items s + counted_items (hq_push s) +
                  released_items (hq_release s) ∧
     hq_bytes s = total (hq_ring s) + total (hq_staging s) + hq_flight_bytes s + counted_bytes (hq_push s)) ∧
  (raises_reported (hq_answers s) + (if raise_pending (hq_push s) then 1 else 0) =
   hq_resumes s + hq_resets s + if hq_flag s then 1 else 0)%nat ∧
  (hq_failed s = false → hq_flag s = true → below_low (hq_items s) (hq_bytes s) = true →
     raise_pending (hq_push s) || release_checks (hq_release s) = true) ∧
  (hq_push s = QIdle → hq_release s = WIdle →
   (hq_cleared s = false →
      hq_items s = Z.of_nat (length (hq_ring s) + length (hq_staging s)) + hq_flight_items s ∧
      hq_bytes s = total (hq_ring s) + total (hq_staging s) + hq_flight_bytes s) ∧
   raises_reported (hq_answers s) = (hq_resumes s + hq_resets s + if hq_flag s then 1 else 0)%nat ∧
   (hq_failed s = false → hq_flag s = true → below_low (hq_items s) (hq_bytes s) = false)).
Proof.
  intros Hr. destruct (handoff_queue_reachable_inv _ Hr) as [Hex Hcl Hc Hrg Hfl Hf Hfu Hre Hl Hu].
  split; [done|]. split; [intros Hn; by destruct (Hex Hn) as (_ & _ & ?)|]. split; [apply Hrg|]. split; [apply Hrg|].
  split; [intros Hn; by destruct (Hex Hn) as (? & ? & _)|]. split; [done|]. split; [done|].
  intros Hp Hw. rewrite Hp, Hw in *. cbn in *. split; [intros Hn; destruct (Hex Hn) as (? & ? & _); split; lia|].
  split; [lia|]. intros Hnf Hflag. destruct (below_low (hq_items s) (hq_bytes s)) eqn:E; [|done]. by specialize (Hl Hnf Hflag eq_refl).
Qed.

(** ** Witnesses *)
Definition upload_example : list UploadOp :=
  [UPush true [1; 2; 3] (mkReservation (Some 1) 3 1); UPush true [4; 5] (mkReservation (Some 1) 2 1);
   UPush true [6; 7; 8; 9] (mkReservation (Some 1) 4 1); UDrain true 6].
Lemma upload_example_ok : Forall upload_op_ok upload_example.
Proof. repeat constructor; apply (bool_decide_unpack _); vm_compute; exact I. Qed.

Lemma upload_queue_accounted_witness :
  up_flight (exec upload_step upload_start upload_example) = Some (mkChunk (mkReservation (Some 1) 5 2) [1; 2; 3; 4; 5], 2%nat) ∧
  uq_bytes (up_queue (exec upload_step upload_start upload_example)) =
  sizes (uq_queue (up_queue (exec upload_step upload_start upload_example))) + flight_size (exec upload_step upload_start upload_example).
Proof.
  split; [vm_compute; reflexivity|].
  exact (proj1 (proj2 (upload_queue_accounted upload_example upload_example_ok))).
Defined.

Definition handoff_upload_example : list HandoffOp :=
  [HPush [1; 2; 3]] ++ replicate 10 HProducer ++ [HPush [4; 5]; HProducer; HPull; HTake 1; HProducer; HProducer; HProducer] ++
  replicate 3 HProducer ++ [HRelease true] ++ replicate 3 HProducer ++ [HConsumer; HConsumer; HConsumer; HConsumer].
Definition handoff_upload_state : HandoffQueue := default handoff_queue_start (handoff_queue_run handoff_queue_start handoff_upload_example).

Lemma handoff_queue_run_reachable s ops s' : handoff_queue_reachable s → handoff_queue_run s ops = Some s' →
  Forall (λ op, match op with HPush data => 0 < data_size data ≤ kUploadLowBytes | _ => True end) ops → handoff_queue_reachable s'.
Proof.
  revert s. induction ops as [|op ops IH]; intros s Hr Hrun Hd; cbn in Hrun; [by simplify_eq|]. apply Forall_cons in Hd as [Hop Hd].
  destruct (handoff_queue_step s op) as [s1|] eqn:E; [|done]. eapply IH; [|exact Hrun|exact Hd].
  eapply hq_next; [exact Hr|exact E|]. by intros data ->.
Qed.
Lemma handoff_upload_reachable : handoff_queue_reachable handoff_upload_state.
Proof.
  eapply (handoff_queue_run_reachable handoff_queue_start handoff_upload_example); [apply hq_init|vm_compute; reflexivity|].
  unfold handoff_upload_example. cbn [replicate app]. repeat (apply Forall_cons; split; [try exact I|]); try apply Forall_nil_2;
    (vm_compute; split; [reflexivity|discriminate]).
Qed.

Lemma upload_handoff_resumes_witness :
  (hq_items handoff_upload_state, hq_bytes handoff_upload_state, hq_ring handoff_upload_state) = (1, 2, [[4; 5]]) ∧
  hq_full handoff_upload_state = 0%nat.
Proof.
  split; [vm_compute; reflexivity|]. exact (proj1 (upload_handoff_resumes handoff_upload_state handoff_upload_reachable)).
Defined.
