(* ===== verification/DirectRead.v ===== *)
(** * Matching direct reads with their completions

    [BasicDirectReadWaiterState] ([ppp/app/protocol/DirectReadWaiterState.h]) with its two users in
    [VirtualEthernetTcpipConnection.cpp]: the download coroutine, which hands a chunk to the first leg,
    registers the reservation it was given and waits, and [CompleteDirectDownload], called from the
    first leg's strand.  Every call is made under [direct_sync_], so a call is one step; the reader and
    the completions interleave, and a completion may come before the reader has registered. *)

From S2P Require Import Prelude.

Record ReadReservation := mkRead {
  rr_runtime_generation : Z;
  rr_flow_generation : Z;
  rr_token : Z;
  rr_length : Z;
}.
#[global] Instance ReadReservation_eq_dec : EqDecision ReadReservation.
Proof. solve_decision. Defined.

Definition Read_IsValid (r : ReadReservation) : bool :=
  negb (rr_runtime_generation r =? 0) && negb (rr_flow_generation r =? 0) && negb (rr_token r =? 0) && negb (rr_length r =? 0).
Definition IsSame (r other : ReadReservation) : bool :=
  (rr_runtime_generation r =? rr_runtime_generation other) && (rr_flow_generation r =? rr_flow_generation other) &&
  (rr_token r =? rr_token other) && (rr_length r =? rr_length other).

Inductive DirectCompletion := CompletionAccepted | CompletionTerminal.
Inductive WaitOutcome := OutcomePending | OutcomeAccepted | OutcomeTerminal | OutcomeRejected.
#[global] Instance WaitOutcome_eq_dec : EqDecision WaitOutcome.
Proof. solve_decision. Defined.

(** The waiter is the coroutine's anchor; an empty one is [None]. *)
Record WaiterState := mkWaiter {
  ws_invalidated : bool;
  ws_retired_token : Z;
  ws_expected : option ReadReservation;
  ws_pending : option ReadReservation;
  ws_waiter : option Z;
  ws_outcome : WaitOutcome;
  ws_pending_outcome : WaitOutcome;
}.

Definition Waiter_Reset : WaiterState := mkWaiter false 0 None None None OutcomePending OutcomePending.

Definition Register (r : ReadReservation) (waiter : option Z) (s : WaiterState) : WaitOutcome * WaiterState :=
  if ws_invalidated s || negb (Read_IsValid r) || negb (bool_decide (is_Some waiter)) || bool_decide (is_Some (ws_expected s)) ||
     (rr_token r <=? ws_retired_token s) then (OutcomeRejected, s) else
  match ws_pending s with
  | None => (ws_outcome s, mkWaiter false (ws_retired_token s) (Some r) None waiter (ws_outcome s) (ws_pending_outcome s))
  | Some p =>
      if IsSame p r then
        (ws_pending_outcome s, mkWaiter false (ws_retired_token s) (Some r) None None (ws_pending_outcome s) OutcomePending)
      else if rr_token r <? rr_token p then
        (OutcomeRejected, mkWaiter false (ws_retired_token s) None (Some p) None (ws_outcome s) (ws_pending_outcome s))
      else (ws_outcome s, mkWaiter false (ws_retired_token s) (Some r) None waiter (ws_outcome s) OutcomePending)
  end.

Definition outcome_of (c : DirectCompletion) : WaitOutcome :=
  match c with CompletionAccepted => OutcomeAccepted | CompletionTerminal => OutcomeTerminal end.

Definition Complete (r : ReadReservation) (c : DirectCompletion) (s : WaiterState) : option Z * WaiterState :=
  if ws_invalidated s || negb (Read_IsValid r) || (rr_token r <=? ws_retired_token s) then (None, s) else
  match ws_expected s with
  | Some e =>
      if negb (IsSame e r) || negb (bool_decide (ws_outcome s = OutcomePending)) then (None, s) else
      (ws_waiter s, mkWaiter false (ws_retired_token s) (Some e) (ws_pending s) None (outcome_of c) (ws_pending_outcome s))
  | None =>
      if match ws_pending s with None => true | Some p => rr_token p <? rr_token r end then
        (None, mkWaiter false (ws_retired_token s) None (Some r) (ws_waiter s) (ws_outcome s) (outcome_of c))
      else (None, s)
  end.

Definition Consume (r : ReadReservation) (s : WaiterState) : WaitOutcome * WaiterState :=
  match ws_expected s with
  | None => (OutcomeRejected, s)
  | Some e =>
      if negb (IsSame e r) then (OutcomeRejected, s) else
      match ws_outcome s with
      | OutcomePending => (OutcomePending, s)
      | result => (result, mkWaiter (ws_invalidated s) (Z.max (ws_retired_token s) (rr_token r)) None (ws_pending s) None
                             OutcomePending (ws_pending_outcome s))
      end
  end.

Definition Invalidate (s : WaiterState) : option Z * WaiterState :=
  (ws_waiter s, mkWaiter true (ws_retired_token s) (ws_expected s) None None OutcomeTerminal OutcomePending).

(** ** The reader and the completer

    [RIssued]: the first leg took the chunk and named a reservation; [RParked]: suspended at an anchor;
    [RReady]: registered, with the completion already there. *)
Inductive ReaderPc :=
  | RIdle | RIssued (r : ReadReservation) | RParked (r : ReadReservation) (anchor : Z) | RReady (r : ReadReservation) | RDone.
#[global] Instance ReaderPc_eq_dec : EqDecision ReaderPc.
Proof. solve_decision. Defined.

Record ReadSystem := mkReadSystem {
  rs_state : WaiterState;
  rs_reader : ReaderPc;
  rs_issued : list ReadReservation;              (** in order of issue *)
  rs_completions : list (ReadReservation * DirectCompletion);
  rs_resumed : list Z;                           (** anchors resumed *)
  rs_next_anchor : Z;
  rs_accepted : list ReadReservation;            (** chunks the reader counts as delivered *)
}.

Inductive ReadOp :=
  | ROpIssue (r : ReadReservation) | ROpRegister | ROpInactive | ROpResume | ROpConsume
  | ROpComplete (r : ReadReservation) (c : DirectCompletion) | ROpInvalidate.

Definition resume_anchor (resumed : list Z) (w : option Z) : list Z := match w with Some a => resumed ++ [a] | None => resumed end.

(** The reader after [Consume]: the chunk counts as delivered only when it was accepted. *)
Definition after_consume (s : ReadSystem) (r : ReadReservation) : ReadSystem :=
  let '(o, w) := Consume r (rs_state s) in
  if decide (o = OutcomeAccepted)
  then mkReadSystem w RIdle (rs_issued s) (rs_completions s) (rs_resumed s) (rs_next_anchor s) (rs_accepted s ++ [r])
  else mkReadSystem w RDone (rs_issued s) (rs_completions s) (rs_resumed s) (rs_next_anchor s) (rs_accepted s).

Definition read_step (s : ReadSystem) (op : ReadOp) : option ReadSystem :=
  match op, rs_reader s with
  | ROpIssue r, RIdle =>
      Some (mkReadSystem (rs_state s) (RIssued r) (rs_issued s ++ [r]) (rs_completions s) (rs_resumed s) (rs_next_anchor s) (rs_accepted s))
  | ROpRegister, RIssued r =>
      let anchor := rs_next_anchor s in
      let '(o, w) := Register r (Some anchor) (rs_state s) in
      let pc := match o with OutcomePending => RParked r anchor | OutcomeAccepted => RReady r | _ => RDone end in
      Some (mkReadSystem w pc (rs_issued s) (rs_completions s) (rs_resumed s) (anchor + 1) (rs_accepted s))
  (** no anchor, or the bridge is no longer active: the reader ends without [Register] *)
  | ROpInactive, RIssued r =>
      Some (mkReadSystem (rs_state s) RDone (rs_issued s) (rs_completions s) (rs_resumed s) (rs_next_anchor s) (rs_accepted s))
  | ROpResume, RParked r anchor => if bool_decide (anchor ∈ rs_resumed s) then Some (after_consume s r) else None
  | ROpConsume, RReady r => Some (after_consume s r)
  | ROpComplete r c, pc =>
      if bool_decide (r ∈ rs_issued s) then
        let '(a, w) := Complete r c (rs_state s) in
        Some (mkReadSystem w pc (rs_issued s) (rs_completions s ++ [(r, c)]) (resume_anchor (rs_resumed s) a) (rs_next_anchor s) (rs_accepted s))
      else None
  | ROpInvalidate, pc =>
      let '(a, w) := Invalidate (rs_state s) in
      Some (mkReadSystem w pc (rs_issued s) (rs_completions s) (resume_anchor (rs_resumed s) a) (rs_next_anchor s) (rs_accepted s))
  | _, _ => None
  end.

Definition read_start : ReadSystem := mkReadSystem Waiter_Reset RIdle [] [] [] 1 [].

(** The first leg names each read with a fresh, larger token. *)
Definition issue_ok (s : ReadSystem) (op : ReadOp) : Prop :=
  match op with ROpIssue r => Read_IsValid r = true ∧ 0 < rr_token r ∧ Forall (λ r', rr_token r' < rr_token r) (rs_issued s) | _ => True end.
Inductive read_reachable : ReadSystem → Prop :=
  | read_init : read_reachable read_start
  | read_next s op s' : read_reachable s → issue_ok s op → read_step s op = Some s' → read_reachable s'.
Fixpoint read_run (s : ReadSystem) (ops : list ReadOp) : option ReadSystem :=
  match ops with [] => Some s | op :: ops => s ← read_step s op; read_run s ops end.

(** ** Invariant *)
(** The first completion made for a reservation. *)
Definition first_completion (r : ReadReservation) (cs : list (ReadReservation * DirectCompletion)) : option DirectCompletion :=
  match filter (λ x : ReadReservation * DirectCompletion, x.1 = r) cs with [] => None | x :: _ => Some x.2 end.

Definition all_retired (s : ReadSystem) (rs : list ReadReservation) : Prop :=
  Forall (λ r, rr_token r ≤ ws_retired_token (rs_state s)) rs.

(** The waiter state seen from the reader's position, before an invalidation. *)
Definition reader_inv (s : ReadSystem) : Prop :=
  let w := rs_state s in
  match rs_reader s with
  | RIdle => ws_expected w = None ∧ ws_pending w = None ∧ ws_waiter w = None ∧ ws_outcome w = OutcomePending ∧ all_retired s (rs_issued s)
  | RIssued r =>
      Read_IsValid r = true ∧ ws_expected w = None ∧ ws_waiter w = None ∧ ws_outcome w = OutcomePending ∧
      (∃ old, rs_issued s = old ++ [r] ∧ all_retired s old) ∧ ws_retired_token w < rr_token r ∧
      match first_completion r (rs_completions s) with
      | None => ws_pending w = None
      | Some c => ws_pending w = Some r ∧ ws_pending_outcome w = outcome_of c
      end
  | RParked r a =>
      Read_IsValid r = true ∧ ws_expected w = Some r ∧ ws_pending w = None ∧
      (∃ old, rs_issued s = old ++ [r] ∧ all_retired s old) ∧ ws_retired_token w < rr_token r ∧
      match first_completion r (rs_completions s) with
      | None => ws_outcome w = OutcomePending ∧ ws_waiter w = Some a ∧ a ∉ rs_resumed s
      | Some c => ws_outcome w = outcome_of c ∧ ws_waiter w = None ∧ a ∈ rs_resumed s
      end
  | RReady r =>
      Read_IsValid r = true ∧ ws_expected w = Some r ∧ ws_pending w = None ∧
      (∃ old, rs_issued s = old ++ [r] ∧ all_retired s old) ∧ ws_retired_token w < rr_token r ∧
      ws_waiter w = None ∧ first_completion r (rs_completions s) = Some CompletionAccepted ∧ ws_outcome w = OutcomeAccepted
  | RDone => ws_waiter w = None
  end.

Record read_inv (s : ReadSystem) : Prop := {
  ri_open : ws_invalidated (rs_state s) = false → reader_inv s;
  ri_closed : ws_invalidated (rs_state s) = true → ws_waiter (rs_state s) = None ∧
    (ws_expected (rs_state s) = None ∨ ws_outcome (rs_state s) = OutcomeTerminal) ∧
    match rs_reader s with RParked _ a => a ∈ rs_resumed s | _ => True end;
  ri_accepted : Forall (λ r, first_completion r (rs_completions s) = Some CompletionAccepted) (rs_accepted s);
  ri_fresh : Forall (λ r, r ∈ rs_issued s) (rs_accepted s) ∧ Forall (λ x, x.1 ∈ rs_issued s) (rs_completions s);
  ri_retired : ws_invalidated (rs_state s) = false → ws_retired_token (rs_state s) = 0 ∨ ∃ r, r ∈ rs_issued s ∧ rr_token r = ws_retired_token (rs_state s);
  ri_anchors : Forall (λ a, a < rs_next_anchor s) (rs_resumed s) ∧ NoDup (rs_resumed s) ∧
    match rs_reader s with RParked _ a => a < rs_next_anchor s | _ => True end;
}.

Lemma IsSame_spec r r' : IsSame r r' = bool_decide (r = r').
Proof.
  destruct r as [a b c d], r' as [a' b' c' d']. unfold IsSame. cbn.
  destruct (bool_decide (mkRead a b c d = mkRead a' b' c' d')) eqn:E.
  - apply bool_decide_eq_true in E. simplify_eq. by rewrite !Z.eqb_refl.
  - apply bool_decide_eq_false in E. apply not_true_is_false. intros H. apply E.
    repeat (apply andb_prop in H as [H ?%Z.eqb_eq]). apply Z.eqb_eq in H. by subst.
Qed.

Lemma first_snoc r cs r' c : first_completion r (cs ++ [(r', c)]) =
  match first_completion r cs with Some x => Some x | None => if decide (r' = r) then Some c else None end.
Proof.
  unfold first_completion. rewrite filter_app. destruct (filter _ cs) as [|x l]; [|done]. cbn [app].
  rewrite filter_cons, filter_nil. cbn. by case_decide.
Qed.

Lemma first_none r cs : Forall (λ x : ReadReservation * DirectCompletion, x.1 ≠ r) cs → first_completion r cs = None.
Proof.
  intros H. unfold first_completion. assert (E : filter (λ x : ReadReservation * DirectCompletion, x.1 = r) cs = []); [|by rewrite E].
  induction H as [|x l Hx _ IH]; [done|]. by rewrite filter_cons, decide_False.
Qed.

(** A completion of a retired reservation, or after an invalidation, changes nothing. *)
Lemma complete_ignored r c w : ws_invalidated w = true ∨ rr_token r ≤ ws_retired_token w → Complete r c w = (None, w).
Proof.
  intros H. unfold Complete. destruct (ws_invalidated w || negb (Read_IsValid r) || (rr_token r <=? ws_retired_token w)) eqn:E; [done|].
  apply orb_false_elim in E as [[E1 _]%orb_false_elim E2%Z.leb_gt]. destruct H as [H|H]; [by rewrite H in E1|lia].
Qed.

Lemma reader_ignores s r : rs_reader s ≠ RDone → reader_inv s → r ∈ rs_issued s →
  rr_token r ≤ ws_retired_token (rs_state s) ∨
  match rs_reader s with RIssued r0 | RParked r0 _ | RReady r0 => r = r0 ∧ ws_retired_token (rs_state s) < rr_token r0 | _ => False end.
Proof.
  unfold reader_inv. intros Hd H Hr. destruct (rs_reader s) as [|r0|r0 a|r0|]; [..|done].
  1: { destruct H as (_ & _ & _ & _ & Ha). left. unfold all_retired in Ha. rewrite Forall_forall in Ha. by apply Ha. }
  all: assert (Hx : ∃ old, rs_issued s = old ++ [r0] ∧ all_retired s old) by naive_solver.
  all: assert (Hlt : ws_retired_token (rs_state s) < rr_token r0) by naive_solver.
  all: destruct Hx as (old & Ho & Ha); rewrite Ho in Hr; apply elem_of_app in Hr as [Hr|Hr%list_elem_of_singleton]; [left|by right].
  all: unfold all_retired in Ha; rewrite Forall_forall in Ha; by apply Ha.
Qed.

Lemma accepted_mono s r c : Forall (λ x, first_completion x (rs_completions s) = Some CompletionAccepted) (rs_accepted s) →
  Forall (λ x, first_completion x (rs_completions s ++ [(r, c)]) = Some CompletionAccepted) (rs_accepted s).
Proof. intros H. eapply Forall_impl; [exact H|]. intros x Hx. by rewrite first_snoc, Hx. Qed.

Lemma complete_inv s r c s' : read_inv s → read_step s (ROpComplete r c) = Some s' → read_inv s'.
Proof.
  intros [Ho Hc Ha Hf Hrt Hn]. cbn. case_bool_decide as Hr; [|done].
  assert (Hf' : Forall (λ r, r ∈ rs_issued s) (rs_accepted s) ∧ Forall (λ x, x.1 ∈ rs_issued s) (rs_completions s ++ [(r, c)])).
  { split; [apply Hf|]. apply Forall_app. split; [apply Hf|]. by apply Forall_singleton. }
  destruct (ws_invalidated (rs_state s)) eqn:Ei.
  { rewrite complete_ignored by by left. intros [= <-]. split; cbn; rewrite ?Ei; try done; by apply accepted_mono. }
  specialize (Ho eq_refl). destruct (decide (rr_token r ≤ ws_retired_token (rs_state s))) as [Hle|Hgt].
  - rewrite complete_ignored by by right. intros [= <-]. split; cbn; rewrite ?Ei; try done; try by apply accepted_mono.
    intros _.
    unfold reader_inv in *. cbn. destruct (rs_reader s) as [|r0|r0 a|r0|]; try done.
    all: assert (Hlt : ws_retired_token (rs_state s) < rr_token r0) by naive_solver.
    all: rewrite first_snoc; rewrite decide_False by (intros ->; lia).
    all: by destruct (first_completion r0 (rs_completions s)).
  - destruct (decide (rs_reader s = RDone)) as [Ed|Hd].
    { unfold reader_inv in Ho. rewrite Ed in Ho. destruct (Complete r c (rs_state s)) as [a w] eqn:Ec. intros [= <-].
      assert (a = None ∧ ws_waiter w = None ∧ ws_invalidated w = false ∧ ws_retired_token w = ws_retired_token (rs_state s)) as (-> & Hw & Hi & Hrt').
      { unfold Complete in Ec. rewrite Ho, Ei in Ec. by repeat (case_match; simplify_eq/=). }
      rewrite Ed in Hn. split; cbn; rewrite ?Ed, ?Hi, ?Hrt'; try done; try by apply accepted_mono. }
    destruct (reader_ignores s r Hd Ho Hr) as [|Hcase]; [done|].
    destruct (rs_reader s) as [|r0|r0 a|r0|] eqn:Er; try done; destruct Hcase as [-> Hlt]; unfold reader_inv in Ho; rewrite Er in Ho.
    + destruct Ho as (Hv & He & Hw & Hout & Hold & _ & Hp). unfold Complete. rewrite Ei, Hv, He. cbn.
      destruct (Z.leb_spec (rr_token r0) (ws_retired_token (rs_state s))); [lia|].
      destruct (first_completion r0 (rs_completions s)) as [c0|] eqn:Efc.
      * destruct Hp as [Hp Hpo]. rewrite Hp, Z.ltb_irrefl. intros [= <-]. split; cbn; try done; rewrite ?Er, ?Ei; try done; try by apply accepted_mono.
        intros _. unfold reader_inv. cbn. rewrite ?Er, first_snoc, Efc. done.
      * rewrite Hp. intros [= <-]. split; cbn; try done; rewrite ?Er; try done; try by apply accepted_mono.
        intros _. unfold reader_inv. cbn. rewrite ?Er, first_snoc, Efc, decide_True by done. done.
    + destruct Ho as (Hv & He & Hp & Hold & _ & Hfc). unfold Complete. rewrite Ei, Hv, He, IsSame_spec, bool_decide_true by done. cbn.
      destruct (Z.leb_spec (rr_token r0) (ws_retired_token (rs_state s))); [lia|].
      destruct (first_completion r0 (rs_completions s)) as [c0|] eqn:Efc.
      * destruct Hfc as (Hout & Hw & Hin). rewrite Hout. rewrite bool_decide_false by by destruct c0. cbn. intros [= <-].
        split; cbn; try done; rewrite ?Er, ?Ei; try done; try by apply accepted_mono.
        intros _. unfold reader_inv. cbn. rewrite ?Er, first_snoc, Efc. done.
      * destruct Hfc as (Hout & Hw & Hnin). rewrite Hout, bool_decide_true by done. cbn. intros [= <-]. rewrite Hw. cbn.
        destruct Hn as (Hn1 & Hn2 & Hn3). rewrite ?Er in Hn3.
        split; cbn; try done; rewrite ?Er; try done; try by apply accepted_mono.
        -- intros _. unfold reader_inv. cbn. rewrite ?Er, first_snoc, Efc, decide_True by done. cbn.
           repeat (split; [done|]). set_solver.
        -- split; [apply Forall_app; split; [done|]; by apply Forall_singleton|]. split; [|done].
           apply NoDup_app. split; [done|]. split; [|apply NoDup_singleton]. intros x Hx ->%list_elem_of_singleton. done.
    + destruct Ho as (Hv & He & Hp & Hold & _ & Hw & Hfc & Hout). unfold Complete. rewrite Ei, Hv, He, IsSame_spec, bool_decide_true by done. cbn.
      destruct (Z.leb_spec (rr_token r0) (ws_retired_token (rs_state s))); [lia|]. rewrite Hout. cbn. intros [= <-].
      split; cbn; try done; rewrite ?Er, ?Ei; try done; try by apply accepted_mono.
      intros _. unfold reader_inv. cbn. rewrite ?Er, first_snoc, Hfc. done.
Qed.

Lemma invalidate_inv s s' : read_inv s → read_step s ROpInvalidate = Some s' → read_inv s'.
Proof.
  intros [Ho Hc Ha Hf Hrt (Hn1 & Hn2 & Hn3)]. cbn. intros [= <-]. split; cbn; try done.
  - intros _. split; [done|]. split; [by right|]. destruct (rs_reader s) as [|r|r a|r|] eqn:Er; try done.
    destruct (ws_invalidated (rs_state s)) eqn:Ei.
    + destruct (Hc eq_refl) as (Hw & _ & Hin). by rewrite Hw.
    + specialize (Ho eq_refl). unfold reader_inv in Ho. rewrite Er in Ho. destruct Ho as (_ & _ & _ & _ & _ & Hfc).
      destruct (first_completion r (rs_completions s)); [by destruct Hfc as (_ & -> & ?)|]. destruct Hfc as (_ & -> & _). cbn. set_solver.
  - destruct (ws_waiter (rs_state s)) as [w|] eqn:Ew; cbn; [|done].
    assert (Hcase : ∃ r, rs_reader s = RParked r w ∧ w ∉ rs_resumed s).
    { destruct (ws_invalidated (rs_state s)) eqn:Ei; [by destruct (Hc eq_refl) as [? _]|]. specialize (Ho eq_refl).
      unfold reader_inv in Ho. rewrite Ew in Ho. destruct (rs_reader s) as [|r|r a|r|];
        [by destruct Ho as (_ & _ & ? & _)|by destruct Ho as (_ & _ & ? & _)| |by destruct Ho as (_ & _ & _ & _ & _ & ? & _)|done].
      destruct Ho as (_ & _ & _ & _ & _ & Hfc). destruct (first_completion r (rs_completions s)); [by destruct Hfc as (_ & ? & _)|].
      destruct Hfc as (_ & [= ->] & ?). by exists r. }
    destruct Hcase as (r & Hr & Hnin). rewrite Hr in *.
    split; [apply Forall_app; split; [done|]; by apply Forall_singleton|]. split; [|done].
    apply NoDup_app. split; [done|]. split; [|apply NoDup_singleton]. intros x Hx ->%list_elem_of_singleton. done.
Qed.

(** [Consume] at the reader's own reservation. *)
Lemma consume_inv s r : read_inv s → (rs_reader s = RReady r ∨ ∃ a, rs_reader s = RParked r a ∧ a ∈ rs_resumed s) →
  read_inv (after_consume s r).
Proof.
  intros [Ho Hc Ha Hf Hrt (Hn1 & Hn2 & Hn3)] Hr. unfold after_consume.
  destruct (ws_invalidated (rs_state s)) eqn:Ei.
  { destruct (Hc eq_refl) as (Hw & He & _).
    assert (E : ∃ o, (Consume r (rs_state s)).1 = o ∧ o ≠ OutcomeAccepted ∧ ws_invalidated (Consume r (rs_state s)).2 = true ∧
                ws_waiter (Consume r (rs_state s)).2 = None ∧
                (ws_expected (Consume r (rs_state s)).2 = None ∨ ws_outcome (Consume r (rs_state s)).2 = OutcomeTerminal)).
    { unfold Consume. destruct (ws_expected (rs_state s)) as [e|] eqn:Ee; cbn; [|eexists; by rewrite Ei, Hw, Ee; eauto].
      destruct He as [?|He]; [done|]. destruct (IsSame e r); cbn; rewrite ?He; cbn; rewrite ?Ei; eexists; eauto 10. }
    destruct E as (o & Eo & Hne & Hi' & Hw' & He'). destruct (Consume r (rs_state s)) as [o' w']. cbn in *. subst o'.
    rewrite decide_False by done. split; cbn; rewrite ?Hi'; done. }
  specialize (Ho eq_refl). unfold reader_inv in Ho.
  assert (Hp : ws_expected (rs_state s) = Some r ∧ ws_pending (rs_state s) = None ∧ Read_IsValid r = true ∧
               (∃ old, rs_issued s = old ++ [r] ∧ all_retired s old) ∧ ws_retired_token (rs_state s) < rr_token r ∧
               ∃ c, first_completion r (rs_completions s) = Some c ∧ ws_outcome (rs_state s) = outcome_of c).
  { destruct Hr as [Hr|(a & Hr & Hin)]; rewrite Hr in Ho.
    - destruct Ho as (? & ? & ? & ? & ? & ? & ? & ?). repeat (split; [done|]). by exists CompletionAccepted.
    - destruct Ho as (? & ? & ? & ? & ? & Hfc). repeat (split; [done|]).
      destruct (first_completion r (rs_completions s)) as [c|]; [by exists c; destruct Hfc as (? & _)|]. by destruct Hfc as (_ & _ & ?). }
  destruct Hp as (He & Hpd & Hv & (old & Hold & Hret) & Hlt & c & Hfc & Hout).
  unfold Consume. rewrite He, IsSame_spec, bool_decide_true, Hout by done. cbn.
  destruct c; cbn [outcome_of]; [rewrite decide_True by done|rewrite decide_False by done]; rewrite Ei, Hpd.
  - split; cbn; try done.
    + intros _. unfold reader_inv. cbn. repeat (split; [done|]). unfold all_retired in *. cbn. rewrite Hold.
      apply Forall_app. split; [|apply Forall_singleton; lia]. eapply Forall_impl; [exact Hret|]. cbn. lia.
    + apply Forall_app. split; [done|]. by apply Forall_singleton.
    + split; [|apply Hf]. apply Forall_app. split; [apply Hf|]. apply Forall_singleton. rewrite Hold. set_solver.
    + intros _. right. exists r. split; [rewrite Hold; set_solver|lia].
  - split; cbn; try done. intros _. right. exists r. split; [rewrite Hold; set_solver|lia].
Qed.

(** [Register]: an early completion is found, otherwise the reader parks at a fresh anchor. *)
Lemma register_inv s s' : read_inv s → read_step s ROpRegister = Some s' → read_inv s'.
Proof.
  intros [Ho Hc Ha Hf Hrt (Hn1 & Hn2 & Hn3)]. cbn. destruct (rs_reader s) as [|r| | |] eqn:Er; try done.
  assert (Hn1' : Forall (λ a, a < rs_next_anchor s + 1) (rs_resumed s)) by (eapply Forall_impl; [exact Hn1|]; cbn; lia).
  destruct (ws_invalidated (rs_state s)) eqn:Ei.
  { assert (E : Register r (Some (rs_next_anchor s)) (rs_state s) = (OutcomeRejected, rs_state s)) by (unfold Register; by rewrite Ei).
    rewrite E. intros [= <-]. destruct (Hc eq_refl) as (? & ? & _). split; cbn; rewrite ?Ei; done. }
  specialize (Ho eq_refl). unfold reader_inv in Ho. rewrite Er in Ho. destruct Ho as (Hv & He & Hw & Hout & Hold & Hlt & Hp).
  unfold Register. rewrite Ei, Hv, He. cbn. destruct (Z.leb_spec (rr_token r) (ws_retired_token (rs_state s))); [lia|].
  destruct (first_completion r (rs_completions s)) as [c|] eqn:Efc.
  - destruct Hp as [Hp Hpo]. rewrite Hp, IsSame_spec, bool_decide_true, Hpo by done. cbn. intros [= <-].
    destruct c; cbn; split; cbn; try done; intros _; unfold reader_inv; cbn; rewrite ?Efc; done.
  - rewrite Hp, Hout. cbn. intros [= <-].
    assert (Hnin : rs_next_anchor s ∉ rs_resumed s).
    { intros Hin. rewrite Forall_forall in Hn1. specialize (Hn1 _ Hin). cbn in Hn1. lia. }
    split; cbn; try done.
    + intros _. unfold reader_inv. cbn. rewrite Efc. done.
    + split; [done|]. split; [done|]. lia.
Qed.

Lemma read_inv_step s op s' : read_inv s → issue_ok s op → read_step s op = Some s' → read_inv s'.
Proof.
  intros Hinv Hop Hs. destruct op as [r| | | | |r c|].
  - cbn in Hs. destruct (rs_reader s) eqn:Er; try done. simplify_eq. destruct Hop as (Hv & Htok & Hlt).
    destruct Hinv as [Ho Hc Ha [Hf1 Hf2] Hrt (Hn1 & Hn2 & _)].
    assert (Hnew : first_completion r (rs_completions s) = None).
    { apply first_none. eapply Forall_impl; [exact Hf2|]. intros [x y] Hx. cbn in *. intros ->. rewrite Forall_forall in Hlt. specialize (Hlt _ Hx). lia. }
    split; cbn; try done.
    + intros Hi. specialize (Ho Hi). unfold reader_inv in *. rewrite Er in Ho. destruct Ho as (He & Hp & Hw & Hout & Hret).
      cbn. rewrite Hnew. repeat (split; [done|]). split; [by exists (rs_issued s)|]. split; [|done].
      destruct (Hrt Hi) as [->|(r' & Hr' & <-)]; [done|]. rewrite Forall_forall in Hlt. by apply Hlt.
    + intros Hi. destruct (Hc Hi) as (? & ? & _). done.
    + split; [eapply Forall_impl; [exact Hf1|]; intros x Hx; set_solver|eapply Forall_impl; [exact Hf2|]; intros x Hx; set_solver].
    + intros Hi. destruct (Hrt Hi) as [|(r' & Hr' & ?)]; [by left|right]. exists r'. set_solver.
  - by eapply register_inv.
  - cbn in Hs. destruct (rs_reader s) eqn:Er; try done. simplify_eq. destruct Hinv as [Ho Hc Ha Hf Hrt (Hn1 & Hn2 & _)].
    split; cbn; try done; rewrite ?Er in *; try done.
    intros Hi. specialize (Ho Hi). unfold reader_inv in *. rewrite Er in Ho. cbn. apply Ho.
  - cbn in Hs. destruct (rs_reader s) eqn:Er; try done. case_bool_decide; [|done]. simplify_eq. apply consume_inv; [done|]. right. by eexists.
  - cbn in Hs. destruct (rs_reader s) eqn:Er; try done. simplify_eq. apply consume_inv; [done|]. by left.
  - by eapply complete_inv.
  - by eapply invalidate_inv.
Qed.

Lemma read_reachable_inv s : read_reachable s → read_inv s.
Proof.
  induction 1 as [|s op s' _ IH Hop Hs]; [|by eapply read_inv_step].
  split; cbn; try done.
  - intros _. repeat (split; [done|]). constructor.
  - by left.
  - split; [constructor|]. split; [apply NoDup_nil_2|done].
Qed.

(** A registration answers with the first completion the reservation already has. *)
Lemma register_answers s r : read_inv s → ws_invalidated (rs_state s) = false → rs_reader s = RIssued r →
  ∃ s', read_step s ROpRegister = Some s' ∧
    rs_reader s' = match first_completion r (rs_completions s) with
                   | None => RParked r (rs_next_anchor s)
                   | Some CompletionAccepted => RReady r
                   | Some CompletionTerminal => RDone
                   end.
Proof.
  intros [Ho _ _ _ _ _] Hi Er. specialize (Ho Hi). unfold reader_inv in Ho. rewrite Er in Ho.
  destruct Ho as (Hv & He & Hw & Hout & Hold & Hlt & Hp). unfold read_step. rewrite Er. unfold Register. rewrite Hi, Hv, He. cbn.
  destruct (Z.leb_spec (rr_token r) (ws_retired_token (rs_state s))); [lia|].
  destruct (first_completion r (rs_completions s)) as [c|].
  - destruct Hp as [Hp Hpo]. rewrite Hp, IsSame_spec, bool_decide_true, Hpo by done. cbn. eexists. split; [reflexivity|]. by destruct c.
  - rewrite Hp, Hout. cbn. by eexists.
Qed.

(** What the reader's wait ends with: the first completion of its reservation. *)
Lemma consume_answers s r : read_inv s → ws_invalidated (rs_state s) = false →
  (rs_reader s = RReady r ∨ ∃ a, rs_reader s = RParked r a ∧ a ∈ rs_resumed s) →
  ∃ c, first_completion r (rs_completions s) = Some c ∧
    (rs_reader (after_consume s r), rs_accepted (after_consume s r)) =
      match c with CompletionAccepted => (RIdle, rs_accepted s ++ [r]) | CompletionTerminal => (RDone, rs_accepted s) end.
Proof.
  intros [Ho _ _ _ _ _] Hi Hr. specialize (Ho Hi). unfold reader_inv in Ho.
  assert (Hp : ws_expected (rs_state s) = Some r ∧
               ∃ c, first_completion r (rs_completions s) = Some c ∧ ws_outcome (rs_state s) = outcome_of c).
  { destruct Hr as [Hr|(a & Hr & Hin)]; rewrite Hr in Ho.
    - destruct Ho as (? & ? & ? & ? & ? & ? & ? & ?). split; [done|]. by exists CompletionAccepted.
    - destruct Ho as (? & ? & ? & ? & ? & Hfc). split; [done|].
      destruct (first_completion r (rs_completions s)) as [c|]; [by exists c; destruct Hfc as (? & _)|]. by destruct Hfc as (_ & _ & ?). }
  destruct Hp as (He & c & Hfc & Hout). exists c. split; [done|].
  unfold after_consume, Consume. rewrite He, IsSame_spec, bool_decide_true, Hout by done. by destruct c.
Qed.

(** C29: direct reads and their completions.  Assume, as the first leg does, that every read is named by
    a fresh reservation whose token is larger than all earlier ones.  Then however the completions, in
    any number and any order, interleave with the reader, an invalidation included: a chunk counts as
    delivered only if the first completion of its own reservation accepted it; no anchor is resumed
    twice; and a reader parked at an anchor that was not resumed is one whose reservation was neither
    completed nor invalidated.  No completion is lost: until the bridge is invalidated, a registration
    that runs after the first completion answers with it (ready to count the chunk when it accepted, the
    end when it was terminal; it parks only when there was none), and a reader that is ready, or parked
    and resumed, counts the chunk and goes on exactly when the first completion accepted it, and ends
    without counting it when it was terminal.  (A reader that finds the bridge inactive ends without
    registering, and an invalidated one ends.) *)
Theorem direct_read_matched s : read_reachable s →
  Forall (λ r, first_completion r (rs_completions s) = Some CompletionAccepted) (rs_accepted s) ∧
  NoDup (rs_resumed s) ∧
  (∀ r a, rs_reader s = RParked r a → a ∉ rs_resumed s →
     ws_invalidated (rs_state s) = false ∧ first_completion r (rs_completions s) = None) ∧
  (ws_invalidated (rs_state s) = false →
     (∀ r, rs_reader s = RIssued r → ∃ s', read_step s ROpRegister = Some s' ∧
        rs_reader s' = match first_completion r (rs_completions s) with
                       | None => RParked r (rs_next_anchor s)
                       | Some CompletionAccepted => RReady r
                       | Some CompletionTerminal => RDone
                       end) ∧
     (∀ op r, (op = ROpConsume ∧ rs_reader s = RReady r) ∨
              (op = ROpResume ∧ ∃ a, rs_reader s = RParked r a ∧ a ∈ rs_resumed s) →
        ∃ s' c, read_step s op = Some s' ∧ first_completion r (rs_completions s) = Some c ∧
          (rs_reader s', rs_accepted s') =
            match c with CompletionAccepted => (RIdle, rs_accepted s ++ [r]) | CompletionTerminal => (RDone, rs_accepted s) end)).
Proof.
  intros Hr. pose proof (read_reachable_inv _ Hr) as Hinv. destruct Hinv as [Ho Hc Ha Hf Hrt (Hn1 & Hn2 & Hn3)] eqn:E. clear E.
  split; [done|]. split; [done|]. split.
  - intros r a Hp Hnin. destruct (ws_invalidated (rs_state s)) eqn:Ei.
    + destruct (Hc eq_refl) as (_ & _ & Hin). by rewrite Hp in Hin.
    + split; [done|]. specialize (Ho eq_refl). unfold reader_inv in Ho. rewrite Hp in Ho. destruct Ho as (_ & _ & _ & _ & _ & Hfc).
      destruct (first_completion r (rs_completions s)); [by destruct Hfc as (_ & _ & ?)|done].
  - intros Hi. split; [intros r; by apply register_answers|]. intros op r Hop.
    destruct (consume_answers s r Hinv Hi) as (c & Hfc & Hs); [naive_solver|].
    exists (after_consume s r), c. split; [|done]. unfold read_step.
    destruct Hop as [[-> ->]|(-> & a & -> & Hin)]; [done|]. by rewrite bool_decide_true.
Qed.

(** ** Witness: a completion before the registration, one after it, and a stale duplicate. *)
Definition read_one : ReadReservation := mkRead 1 1 1 100.
Definition read_two : ReadReservation := mkRead 1 1 2 50.
Definition read_example : list ReadOp :=
  [ROpIssue read_one; ROpComplete read_one CompletionAccepted; ROpRegister; ROpConsume; ROpIssue read_two; ROpRegister;
   ROpComplete read_one CompletionTerminal; ROpComplete read_two CompletionAccepted; ROpResume].
Definition read_example_state : ReadSystem := default read_start (read_run read_start read_example).

Lemma read_run_reachable s ops s' : read_reachable s → read_run s ops = Some s' →
  (∀ k op s1, read_run s (take k ops) = Some s1 → ops !! k = Some op → issue_ok s1 op) → read_reachable s'.
Proof.
  revert s. induction ops as [|op ops IH]; intros s Hr Hrun Hok; cbn in Hrun; [by simplify_eq|].
  destruct (read_step s op) as [s1|] eqn:E; [|done]. eapply IH; [|exact Hrun|].
  - eapply read_next; [exact Hr| |exact E]. by apply (Hok 0%nat).
  - intros k op' s2 Hk Ho. apply (Hok (S k)); [|exact Ho]. cbn. by rewrite E.
Qed.
Lemma read_example_reachable : read_reachable read_example_state.
Proof.
  eapply (read_run_reachable read_start read_example); [apply read_init|vm_compute; reflexivity|].
  intros k op s1 Hk Ho.
  do 9 (destruct k as [|k];
    [cbn in Ho; injection Ho as <-; vm_compute in Hk; injection Hk as <-; cbn;
     try exact I; repeat split; try reflexivity; repeat constructor|]).
  done.
Qed.
Lemma direct_read_matched_witness : rs_accepted read_example_state = [read_one; read_two] ∧ NoDup (rs_resumed read_example_state).
Proof.
  split; [vm_compute; reflexivity|]. exact (proj1 (proj2 (direct_read_matched read_example_state read_example_reachable))).
Defined.
