(* ===== verification/VnetCodec.v ===== *)
(** * Frames of a TUN device with VNET headers

    [linux/ppp/tap/TapVnetCodec.h], [ppp/tap/TxGsoMetadata.h] and the input path of
    [linux/ppp/tap/TapLinux.cpp]: the virtio header in front of each packet, the completion of a
    checksum, and the segmentation of a TCP super-packet.  Sizes are natural numbers: they are bounded
    by the frame, and the guards of the source precede every subtraction.  A buffer that the source
    overwrites in place is a byte list that the operation returns. *)
From S2P Require Import Prelude PacketChecksum PacketFrames PacketMss.

(** ** Header *)
Record virtio_net_hdr := mkVirtio {
  vh_flags : Z;
  vh_gso_type : Z;
  vh_hdr_len : Z;
  vh_gso_size : Z;
  vh_csum_start : Z;
  vh_csum_offset : Z;
}.
Definition VIRTIO_NET_HDR_F_NEEDS_CSUM : Z := 1.
Definition VIRTIO_NET_HDR_GSO_NONE : Z := 0.
Definition VIRTIO_NET_HDR_GSO_TCPV4 : Z := 1.
Definition kStandardVirtioHeaderSize : nat := 10.
Definition kMaximumIpv4PacketSize : Z := 65535.

(** The header in memory: its 16-bit fields are little-endian. *)
Definition virtio_bytes (h : virtio_net_hdr) : list Z :=
  [vh_flags h; vh_gso_type h] ++ store16 (vh_hdr_len h) ++ store16 (vh_gso_size h) ++ store16 (vh_csum_start h) ++
  store16 (vh_csum_offset h).
Definition virtio_load (p : list Z) : virtio_net_hdr :=
  mkVirtio (byte_at p 0) (byte_at p 1) (load16 (drop 2 p)) (load16 (drop 4 p)) (load16 (drop 6 p)) (load16 (drop 8 p)).

Definition IsStandardHeaderSize (header_size : nat) : bool := (header_size =? kStandardVirtioHeaderSize)%nat.

Definition ReadCapacity (header_size : nat) : option Z :=
  if negb (IsStandardHeaderSize header_size) || (SIZE_MAX - kMaximumIpv4PacketSize <? Z.of_nat header_size) then None
  else Some (Z.of_nat header_size + kMaximumIpv4PacketSize).

Definition ReadHeader (frame : list Z) (header_size : nat) : option virtio_net_hdr :=
  if negb (IsStandardHeaderSize header_size) || (length frame <=? header_size)%nat then None else Some (virtio_load frame).

(** ** Checksums *)
Fixpoint ChecksumSum (bytes : list Z) (sum : Z) : Z :=
  match bytes with
  | b0 :: b1 :: rest => ChecksumSum rest (sum +[32] be16 b0 b1)
  | [b] => sum +[32] wrap 16 (Z.shiftl b 8)
  | [] => sum
  end.

(** [while (sum >> 16) ...]: a 32-bit sum is folded after at most two rounds. *)
Fixpoint fold_carries (fuel : nat) (sum : Z) : Z :=
  match fuel with
  | O => sum
  | S f => if Z.shiftr sum 16 =? 0 then sum else fold_carries f (Z.land sum 65535 +[32] Z.shiftr sum 16)
  end.
Definition FoldChecksum (sum : Z) : Z := wrap 16 (Z.lnot (fold_carries 3 sum)).

(** The big-endian store at an offset, and a checksum field that is cleared and filled. *)
Definition put16 (p : list Z) (off : nat) (v : Z) : list Z := patch p off (be_bytes 2 v).
Definition put32 (p : list Z) (off : nat) (v : Z) : list Z := patch p off (be_bytes 4 v).
Definition fill16 (p : list Z) (off : nat) (chk : list Z → Z) : list Z :=
  let p := patch p off [0; 0] in put16 p off (chk p).

(** ** Packets *)
Record TcpV4GsoFrame := mkGsoFrame {
  gf_ip : list Z;
  gf_packet_size : nat;
  gf_ihl : nat;
  gf_tcp_header_size : nat;
  gf_header_size : nat;
  gf_payload_size : nat;
  gf_gso_size : nat;
  gf_initial_sequence : Z;
}.

(** The two header lengths a packet names. *)
Definition ihl_of (p : list Z) : nat := Z.to_nat (Z.land (byte_at p 0) 15 * 4).
Definition doff_of (p : list Z) (ihl : nat) : nat := Z.to_nat (Z.shiftr (byte_at p (ihl + 12)) 4 * 4).

Definition ParseIPv4Tcp (ip : list Z) : option TcpV4GsoFrame :=
  let packet_size := length ip in
  if (packet_size <? 20)%nat || (kMaximumIpv4PacketSize <? Z.of_nat packet_size) ||
     negb (Z.shiftr (byte_at ip 0) 4 =? 4) || negb (byte_at ip 9 =? IP_PROTO_TCP) then None else
  let ihl := ihl_of ip in
  if (ihl <? 20)%nat || (packet_size <? ihl)%nat || negb (get16 (drop 2 ip) =? Z.of_nat packet_size) ||
     negb (Z.land (get16 (drop 6 ip)) 16383 =? 0) || (packet_size <? ihl + 20)%nat then None else
  let tcp_header_size := doff_of ip ihl in
  if (tcp_header_size <? 20)%nat || (packet_size - ihl <? tcp_header_size)%nat then None else
  Some (mkGsoFrame ip packet_size ihl tcp_header_size (ihl + tcp_header_size) (packet_size - (ihl + tcp_header_size)) 0
          (get32 (drop (ihl + 4) ip))).

Definition HasTcpChecksumMetadata (h : virtio_net_hdr) (f : TcpV4GsoFrame) : bool :=
  let size := Z.of_nat (gf_packet_size f) in
  (vh_csum_start h =? Z.of_nat (gf_ihl f)) && (vh_csum_offset h =? 16) && (vh_csum_start h <=? size) &&
  (vh_csum_offset h <=? size - vh_csum_start h) && (2 <=? size - vh_csum_start h - vh_csum_offset h).

Definition tcp_pseudo (tcp_size : nat) : list Z :=
  [0; IP_PROTO_TCP; Z.land (Z.shiftr (Z.of_nat tcp_size) 8) 255; Z.land (Z.of_nat tcp_size) 255].

(** [TcpChecksum] of the packet [ip] with an IPv4 header of [ihl] bytes. *)
Definition TcpChecksum (ihl : nat) (ip : list Z) : Z :=
  let tcp_size := (length ip - ihl)%nat in
  let sum := ChecksumSum (sub ip 12 8) 0 in
  let sum := ChecksumSum (tcp_pseudo tcp_size) sum in
  FoldChecksum (ChecksumSum (drop ihl ip) sum).

Definition HeaderChecksum (ihl : nat) (ip : list Z) : Z := FoldChecksum (ChecksumSum (take ihl ip) 0).

Definition CompleteChecksumOnlyTcpV4 (frame : list Z) (header_size : nat) : option (list Z) :=
  match ReadHeader frame header_size with
  | None => None
  | Some h =>
      if negb (vh_flags h =? VIRTIO_NET_HDR_F_NEEDS_CSUM) || negb (vh_gso_type h =? VIRTIO_NET_HDR_GSO_NONE) ||
         negb (vh_hdr_len h =? 0) || negb (vh_gso_size h =? 0) then None else
      match ParseIPv4Tcp (drop header_size frame) with
      | None => None
      | Some packet =>
          if negb (HasTcpChecksumMetadata h packet) then None else
          Some (take header_size frame ++ fill16 (gf_ip packet) (gf_ihl packet + 16) (TcpChecksum (gf_ihl packet)))
      end
  end.

Definition ParseTcpV4Gso (frame : list Z) (header_size maximum_segment_size : nat) : option TcpV4GsoFrame :=
  match ReadHeader frame header_size with
  | None => None
  | Some h =>
      if negb (vh_flags h =? VIRTIO_NET_HDR_F_NEEDS_CSUM) || negb (vh_gso_type h =? VIRTIO_NET_HDR_GSO_TCPV4) then None else
      match ParseIPv4Tcp (drop header_size frame) with
      | None => None
      | Some p =>
          if negb (HasTcpChecksumMetadata h p) then None else
          let gso_size := Z.to_nat (vh_gso_size h) in
          if negb (vh_hdr_len h =? Z.of_nat (gf_header_size p)) || (gso_size =? 0)%nat || (gf_payload_size p =? 0)%nat ||
             (maximum_segment_size <? gf_header_size p)%nat || (maximum_segment_size - gf_header_size p <? gso_size)%nat then None
          else Some (mkGsoFrame (gf_ip p) (gf_packet_size p) (gf_ihl p) (gf_tcp_header_size p) (gf_header_size p)
                       (gf_payload_size p) gso_size (gf_initial_sequence p))
      end
  end.

Definition CompleteTcpV4GsoChecksums (f : TcpV4GsoFrame) : option TcpV4GsoFrame :=
  if (gf_packet_size f =? 0)%nat || (gf_ihl f <? 20)%nat || (gf_header_size f <? gf_ihl f + 20)%nat ||
     (gf_packet_size f <? gf_header_size f)%nat then None else
  let ip := fill16 (gf_ip f) 10 (HeaderChecksum (gf_ihl f)) in
  let ip := fill16 ip (gf_ihl f + 16) (TcpChecksum (gf_ihl f)) in
  Some (mkGsoFrame ip (gf_packet_size f) (gf_ihl f) (gf_tcp_header_size f) (gf_header_size f) (gf_payload_size f) (gf_gso_size f)
          (gf_initial_sequence f)).

Definition BuildTcpV4GsoSegment (source : TcpV4GsoFrame) (payload_offset output_capacity : nat) : option (list Z) :=
  if (gf_gso_size source =? 0)%nat || (gf_payload_size source <=? payload_offset)%nat ||
     negb (payload_offset mod gf_gso_size source =? 0)%nat then None else
  let payload_size := if (gf_payload_size source - payload_offset <? gf_gso_size source)%nat
                      then (gf_payload_size source - payload_offset)%nat else gf_gso_size source in
  let output_size := (gf_header_size source + payload_size)%nat in
  if (output_capacity <? output_size)%nat || (kMaximumIpv4PacketSize <? Z.of_nat output_size) then None else
  let output := take (gf_header_size source) (gf_ip source) ++
                sub (gf_ip source) (gf_header_size source + payload_offset) payload_size in
  let output := put16 output 2 (wrap 16 (Z.of_nat output_size)) in
  let output := put32 output (gf_ihl source + 4) (gf_initial_sequence source +[32] Z.of_nat payload_offset) in
  let flags := (gf_ihl source + 13)%nat in
  let output := if negb (payload_offset + payload_size =? gf_payload_size source)%nat
                then patch output flags [Z.land (byte_at output flags) 247] else output in
  let output := fill16 output 10 (HeaderChecksum (gf_ihl source)) in
  match ParseIPv4Tcp output with
  | None => None
  | Some segment => Some (fill16 output (gf_ihl segment + 16) (TcpChecksum (gf_ihl segment)))
  end.

(** ** Input of a frame

    [for (offset = 0; offset < payload_size; offset += gso_size)]: the segments handed to the packet
    path, and whether all of them could be built.  The fuel is the payload size. *)
Fixpoint gso_segments (fuel : nat) (f : TcpV4GsoFrame) (capacity offset : nat) : list (list Z) * bool :=
  if (gf_payload_size f <=? offset)%nat then ([], true) else
  match fuel with
  | O => ([], false)
  | S n =>
      match BuildTcpV4GsoSegment f offset capacity with
      | None => ([], false)
      | Some segment => let '(rest, ok) := gso_segments n f capacity (offset + gf_gso_size f) in (segment :: rest, ok)
      end
  end.

(** What [OnInput] does with a frame: packets for the ordinary path, a super-packet taken whole by the
    handler, or the device closed after the packets already handed out. *)
Inductive VnetInput :=
  | VnetPackets (packets : list (list Z))
  | VnetSuperPacket (packet : list Z)
  | VnetClosed (packets : list (list Z)).

Definition OnInput (header_size : nat) (handler : list Z → bool) (frame : list Z) : VnetInput :=
  if (length frame =? 0)%nat || negb (IsStandardHeaderSize header_size) then VnetClosed [] else
  match ReadHeader frame header_size with
  | None => VnetClosed []
  | Some h =>
      if vh_gso_type h =? VIRTIO_NET_HDR_GSO_NONE then
        if (vh_flags h =? 0) && (vh_hdr_len h =? 0) && (vh_gso_size h =? 0) && (vh_csum_start h =? 0) && (vh_csum_offset h =? 0)
        then VnetPackets [drop header_size frame]
        else match CompleteChecksumOnlyTcpV4 frame header_size with
             | None => VnetClosed []
             | Some frame => VnetPackets [drop header_size frame]
             end
      else
        match ParseTcpV4Gso frame header_size (Z.to_nat MTU) with
        | None => VnetClosed []
        | Some gso =>
            match CompleteTcpV4GsoChecksums gso with
            | None => VnetClosed []
            | Some gso =>
                if handler (gf_ip gso) then VnetSuperPacket (gf_ip gso) else
                let '(segments, ok) := gso_segments (gf_payload_size gso) gso (Z.to_nat MTU) 0 in
                if ok then VnetPackets segments else VnetClosed segments
            end
        end
  end.

(** ** Output metadata *)
Record TxGsoMetadata := mkTxGso { tx_header_length : Z; tx_gso_size : Z; tx_segments : Z }.
Definition MaximumSegments : Z := 128.

Definition TxGso_ParseTcpV4 (packet : list Z) (gso_size segments : Z) : option TxGsoMetadata :=
  let size := Z.of_nat (length packet) in
  if (size <? 40) || (65535 <? size) || (gso_size =? 0) || (65535 <? gso_size) || (segments <? 2) ||
     (MaximumSegments <? segments) || negb (Z.shiftr (byte_at packet 0) 4 =? 4) then None else
  let ihl := ihl_of packet in
  if (ihl <? 20)%nat || (size <? Z.of_nat ihl) || negb (get16 (drop 2 packet) =? size) ||
     negb (Z.land (get16 (drop 6 packet)) 16383 =? 0) || negb (byte_at packet 9 =? IP_PROTO_TCP) || (size <? Z.of_nat ihl + 20)
  then None else
  let tcp_header := doff_of packet ihl in
  if (tcp_header <? 20)%nat || (size - Z.of_nat ihl <? Z.of_nat tcp_header) then None else
  let header_length := Z.of_nat ihl + Z.of_nat tcp_header in
  let payload_length := size - header_length in
  if (payload_length <=? gso_size) || negb ((payload_length + gso_size - 1) / gso_size =? segments) then None else
  Some (mkTxGso header_length gso_size segments).

(** [BuildTcpV4GsoHeader]; a metadata value is always of type TcpV4 with a complete checksum. *)
Definition BuildTcpV4GsoHeader (packet : list Z) (m : TxGsoMetadata) : option virtio_net_hdr :=
  match TxGso_ParseTcpV4 packet (tx_gso_size m) (tx_segments m) with
  | None => None
  | Some validated =>
      if negb (tx_header_length validated =? tx_header_length m) then None else
      Some (mkVirtio 0 VIRTIO_NET_HDR_GSO_TCPV4 (tx_header_length m) (tx_gso_size m) 0 0)
  end.

(** ** The sums *)
Lemma ChecksumSum_sum p s : bytes_ok p → is_uint 32 s → ChecksumSum p s = wrap 32 (s + word_sum p).
Proof.
  revert s. induction p as [p IH] using (induction_ltof1 _ (@length Z)). unfold ltof in IH.
  destruct p as [|b0 [|b1 p]]; intros s Hb Hs; cbn [ChecksumSum word_sum].
  - by rewrite Z.add_0_r, wrap_small.
  - apply Forall_inv in Hb. rewrite (wrap_small 16) by (rewrite Z.shiftl_mul_pow2 by lia; uint_lia).
    rewrite Z.shiftl_mul_pow2 by lia. f_equal. lia.
  - apply Forall_cons in Hb as [H0 Hb]. apply Forall_cons in Hb as [H1 Hb]. rewrite be16_add by done.
    rewrite IH; [|cbn; lia|done|apply wrap_range; lia]. rewrite wrap_add_l. f_equal. lia.
Qed.

Lemma fold_carries_step f s : is_uint 32 s → fold_carries (S f) s = if s <? 65536 then s else fold_carries f (FOLD_U32T s).
Proof.
  intros Hs. cbn [fold_carries]. unfold FOLD_U32T. rewrite (Z.add_comm (Z.shiftr s 16)). rewrite Z.shiftr_div_pow2 by lia.
  change (2 ^ 16) with 65536. pose proof (Z.div_mod s 65536 ltac:(lia)). pose proof (Z.mod_pos_bound s 65536 ltac:(lia)).
  destruct (s / 65536 =? 0) eqn:E1, (s <? 65536) eqn:E2; bool_props; try done; uint_lia.
Qed.

Lemma fold_carries_oc s : is_uint 32 s → fold_carries 3 s = oc s.
Proof.
  assert (∀ x, 0 ≤ x → x < 65536 → x = oc x) as Small by (intros; rewrite oc_small; lia).
  intros Hs. rewrite fold_carries_step by done. case_match eqn:E1; bool_props; [apply Small; uint_lia|].
  destruct (fold_oc s Hs) as (Hr & Ho & _). rewrite fold_carries_step by uint_lia.
  case_match eqn:E2; bool_props; [rewrite <- Ho; apply Small; lia|].
  destruct (fold_oc (FOLD_U32T s)) as (Hr2 & Ho2 & Hs2); [uint_lia|].
  destruct (oc_spec s) as (k & _ & _ & Hb & _); [uint_lia|].
  rewrite (Hs2 ltac:(lia)), Ho, fold_carries_step by uint_lia. by rewrite (proj2 (Z.ltb_lt _ _)) by lia.
Qed.

Lemma FoldChecksum_oc s : is_uint 32 s → FoldChecksum s = 65535 - oc s.
Proof.
  intros Hs. unfold FoldChecksum. rewrite fold_carries_oc by done.
  destruct (oc_spec s) as (k & _ & _ & Hb & _); [uint_lia|]. apply wrap_lnot16. uint_lia.
Qed.
Lemma FoldChecksum_range s : is_uint 16 (FoldChecksum s).
Proof. apply wrap_range. lia. Qed.

(** ** Patched packets *)
Lemma length_put16 p k v : (k + 2 ≤ length p)%nat → length (put16 p k v) = length p.
Proof. intros. by apply length_patch. Qed.
Lemma length_put32 p k v : (k + 4 ≤ length p)%nat → length (put32 p k v) = length p.
Proof. intros. by apply length_patch. Qed.
Lemma fill16_put16 p k chk : (k + 2 ≤ length p)%nat → fill16 p k chk = put16 p k (chk (patch p k [0; 0])).
Proof. intros. unfold fill16, put16. by rewrite patch_patch. Qed.
Lemma length_fill16 p k chk : (k + 2 ≤ length p)%nat → length (fill16 p k chk) = length p.
Proof. intros. rewrite fill16_put16 by done. by apply length_put16. Qed.
Lemma bytes_ok_clear p k : bytes_ok p → bytes_ok (patch p k [0; 0]).
Proof. intros. apply bytes_ok_patch; [done|]. repeat (apply Forall_cons; split; [uint_lia|]). by apply Forall_nil. Qed.
Lemma bytes_ok_put16 p k v : (k + 2 ≤ length p)%nat → bytes_ok p → bytes_ok (put16 p k v).
Proof. intros. apply bytes_ok_patch; auto with openppp2. Qed.
Lemma bytes_ok_fill16 p k chk : (k + 2 ≤ length p)%nat → bytes_ok p → bytes_ok (fill16 p k chk).
Proof. intros. rewrite fill16_put16 by done. by apply bytes_ok_put16. Qed.

Lemma sub_put16_out p k v off n :
  (k + 2 ≤ length p)%nat → (off + n ≤ k)%nat ∨ (k + 2 ≤ off)%nat → sub (put16 p k v) off n = sub p off n.
Proof. intros. by apply sub_patch_out. Qed.
Lemma sub_put32_out p k v off n :
  (k + 4 ≤ length p)%nat → (off + n ≤ k)%nat ∨ (k + 4 ≤ off)%nat → sub (put32 p k v) off n = sub p off n.
Proof. intros. by apply sub_patch_out. Qed.
Lemma sub_fill16_out p k chk off n :
  (k + 2 ≤ length p)%nat → (off + n ≤ k)%nat ∨ (k + 2 ≤ off)%nat → sub (fill16 p k chk) off n = sub p off n.
Proof. intros. rewrite fill16_put16 by done. by apply sub_put16_out. Qed.
Lemma sub_patch_here p k bs : (k + length bs ≤ length p)%nat → sub (patch p k bs) k (length bs) = bs.
Proof.
  intros. rewrite sub_patch by lia. replace (k + length bs - k - length bs)%nat with 0%nat by lia.
  rewrite Nat.sub_diag. unfold sub. by rewrite !take_0, app_nil_r.
Qed.

(** ** Filled checksums verify *)
Lemma put16_sum p off n k v :
  is_uint 16 v → (off ≤ k)%nat → (k + 2 ≤ off + n)%nat → (off + n ≤ length p)%nat → Nat.Even (k - off) →
  word_sum (sub (put16 p k v) off n) = word_sum (sub (patch p k [0; 0]) off n) + v.
Proof.
  intros Hv H1 H2 H3 He. unfold put16. rewrite !sub_patch by (rewrite ?length_be_bytes; cbn; lia).
  rewrite !(word_sum_app (sub p off (k - off))) by (rewrite length_sub; [done|lia]). rewrite length_be_bytes. cbn [length].
  rewrite (word_sum_app (be_bytes 2 v)) by (rewrite length_be_bytes; by exists 1%nat).
  rewrite (word_sum_app [0; 0]) by (by exists 1%nat).
  assert (word_sum (be_bytes 2 v) = v) as ->; [|cbn [word_sum]; lia].
  pose proof (be_value_bytes 2 v Hv) as E. destruct (be_bytes 2 v) as [|b0 [|b1 [|]]] eqn:Eb; try by apply (f_equal length) in Eb.
  rewrite <- E. assert (bytes_ok [b0; b1]) as Hb by (rewrite <- Eb; apply bytes_ok_be_bytes).
  rewrite be_value_cons, be_value_singleton by (by apply Forall_inv_tail in Hb). cbn [word_sum length]. lia.
Qed.

Lemma oc_complement x : 0 ≤ x → oc (x + (65535 - oc x)) = 65535.
Proof. intros Hx. destruct (oc_spec x Hx) as (k & Hk & Hk0 & Ho & _). apply (oc_unique _ _ k); lia. Qed.

Lemma tcp_pseudo_bytes n : bytes_ok (tcp_pseudo n).
Proof.
  unfold tcp_pseudo. rewrite !land_255. pose proof (Z.mod_pos_bound (Z.of_nat n) 256 ltac:(lia)).
  pose proof (Z.mod_pos_bound (Z.shiftr (Z.of_nat n) 8) 256 ltac:(lia)).
  repeat (apply Forall_cons; split; [unfold IP_PROTO_TCP; uint_lia|]). by apply Forall_nil.
Qed.

Definition tcp_words (ihl : nat) (p : list Z) : Z :=
  word_sum (sub p 12 8) + word_sum (tcp_pseudo (length p - ihl)) + word_sum (drop ihl p).

Lemma sum_fits p n : bytes_ok p → (length p ≤ n)%nat → 0 ≤ word_sum p ≤ 65535 * Z.of_nat (n + 1) / 2.
Proof.
  intros Hb Hl. pose proof (word_sum_range p Hb). split; [lia|]. etrans; [apply H|]. apply Z.div_le_mono; lia.
Qed.

Lemma HeaderChecksum_value ihl p :
  bytes_ok p → (ihl ≤ 60)%nat → HeaderChecksum ihl p = 65535 - oc (word_sum (take ihl p)) ∧ 0 ≤ word_sum (take ihl p).
Proof.
  intros Hb Hi. destruct (sum_fits (take ihl p) 60) as [H0 H1]; [by apply bytes_ok_take|rewrite length_take; lia|].
  change (65535 * Z.of_nat (60 + 1) / 2) with 1998817 in H1. unfold HeaderChecksum.
  rewrite ChecksumSum_sum by (first [by apply bytes_ok_take|uint_lia]). rewrite wrap_small by uint_lia.
  rewrite Z.add_0_l. split; [apply FoldChecksum_oc; uint_lia|done].
Qed.

Lemma TcpChecksum_value ihl p :
  bytes_ok p → Z.of_nat (length p) ≤ 65535 → TcpChecksum ihl p = 65535 - oc (tcp_words ihl p) ∧ 0 ≤ tcp_words ihl p.
Proof.
  intros Hb Hl. unfold tcp_words. destruct (word_sum_range (drop ihl p)) as [A1 A2]; [by apply bytes_ok_drop|].
  destruct (sum_fits (sub p 12 8) 8) as [B1 B2]; [by apply bytes_ok_sub|unfold sub; rewrite length_take; lia|].
  destruct (sum_fits (tcp_pseudo (length p - ihl)) 4) as [C1 C2]; [apply tcp_pseudo_bytes|cbn; lia|].
  change (65535 * Z.of_nat (8 + 1) / 2) with 294907 in B2. change (65535 * Z.of_nat (4 + 1) / 2) with 163837 in C2.
  assert (word_sum (drop ihl p) ≤ 2147450880).
  { etrans; [apply A2|]. rewrite length_drop. etrans; [apply Z.div_le_mono with (b := 65535 * 65536)|]; [lia| |done]. lia. }
  unfold TcpChecksum. rewrite (ChecksumSum_sum (sub p 12 8)) by (first [by apply bytes_ok_sub|uint_lia]).
  rewrite (wrap_small 32 (0 + _)) by uint_lia. rewrite (ChecksumSum_sum (tcp_pseudo _)) by (first [apply tcp_pseudo_bytes|uint_lia]).
  rewrite (wrap_small 32) by uint_lia. rewrite ChecksumSum_sum by (first [by apply bytes_ok_drop|uint_lia]).
  rewrite (wrap_small 32) by uint_lia. rewrite Z.add_0_l. split; [apply FoldChecksum_oc; uint_lia|lia].
Qed.

Lemma header_fill_verifies ihl p :
  bytes_ok p → (20 ≤ ihl ≤ 60)%nat → (ihl ≤ length p)%nat →
  HeaderChecksum ihl (fill16 p 10 (HeaderChecksum ihl)) = 0.
Proof.
  intros Hb Hi Hl. set (z := patch p 10 [0; 0]).
  assert (bytes_ok z) as Hz by (by apply bytes_ok_clear).
  destruct (HeaderChecksum_value ihl z Hz) as [Ev Hp]; [lia|].
  destruct (HeaderChecksum_value ihl (fill16 p 10 (HeaderChecksum ihl))) as [-> _]; [by apply bytes_ok_fill16; [lia|]|lia|].
  rewrite fill16_put16 by lia. fold z.
  change (take ihl (put16 p 10 (HeaderChecksum ihl z))) with (sub (put16 p 10 (HeaderChecksum ihl z)) 0 ihl).
  rewrite put16_sum; [|apply FoldChecksum_range|lia|lia|lia|by exists 5%nat]. fold z.
  change (sub z 0 ihl) with (take ihl z). rewrite Ev, oc_complement by done. lia.
Qed.

Lemma tcp_fill_verifies ihl p :
  bytes_ok p → (20 ≤ ihl)%nat → (ihl + 18 ≤ length p)%nat → Z.of_nat (length p) ≤ 65535 →
  TcpChecksum ihl (fill16 p (ihl + 16) (TcpChecksum ihl)) = 0.
Proof.
  intros Hb Hi Hl Hm. set (z := patch p (ihl + 16) [0; 0]).
  assert (length z = length p) as Ez by (apply length_patch; cbn; lia).
  assert (bytes_ok z) as Hz by (by apply bytes_ok_clear).
  destruct (TcpChecksum_value ihl z Hz) as [Ev Hp]; [by rewrite Ez|].
  assert (length (fill16 p (ihl + 16) (TcpChecksum ihl)) = length p) as El by (apply length_fill16; lia).
  destruct (TcpChecksum_value ihl (fill16 p (ihl + 16) (TcpChecksum ihl))) as [-> _]; [by apply bytes_ok_fill16; [lia|]|by rewrite El|].
  assert (tcp_words ihl (fill16 p (ihl + 16) (TcpChecksum ihl)) = tcp_words ihl z + TcpChecksum ihl z) as ->.
  { unfold tcp_words at 1 2. rewrite El, Ez. rewrite sub_fill16_out by lia. unfold z at 1. rewrite (sub_patch_out _ [0; 0]) by (cbn; lia).
    rewrite !drop_sub, El, Ez, fill16_put16 by lia. fold z.
    rewrite put16_sum; [fold z; lia|apply FoldChecksum_range|lia|lia|lia|]. replace (ihl + 16 - ihl)%nat with 16%nat by lia. by exists 8%nat. }
  rewrite Ev, oc_complement by done. lia.
Qed.

(** ** Parsed packets *)

(** Guards on sizes, as propositions. *)
Ltac size_props :=
  bool_props;
  repeat match goal with
    | H : (_ <? _)%nat = false |- _ => apply Nat.ltb_ge in H
    | H : (_ <? _)%nat = true |- _ => apply Nat.ltb_lt in H
    | H : (_ <=? _)%nat = false |- _ => apply Nat.leb_gt in H
    | H : (_ <=? _)%nat = true |- _ => apply Nat.leb_le in H
    | H : (_ =? _)%nat = false |- _ => apply Nat.eqb_neq in H
    | H : (_ =? _)%nat = true |- _ => apply Nat.eqb_eq in H
    end.

Record tcp4_ok (p : list Z) (ihl doff : nat) : Prop := {
  t4_size : Z.of_nat (length p) ≤ 65535;
  t4_version : Z.shiftr (byte_at p 0) 4 = 4;
  t4_protocol : byte_at p 9 = IP_PROTO_TCP;
  t4_ihl : ihl_of p = ihl;
  t4_ihl_min : (20 ≤ ihl)%nat;
  t4_total : get16 (drop 2 p) = Z.of_nat (length p);
  t4_fragment : Z.land (get16 (drop 6 p)) 16383 = 0;
  t4_doff : doff_of p ihl = doff;
  t4_doff_min : (20 ≤ doff)%nat;
  t4_fits : (ihl + doff ≤ length p)%nat;
}.

Definition frame_of (p : list Z) (ihl doff gso : nat) : TcpV4GsoFrame :=
  mkGsoFrame p (length p) ihl doff (ihl + doff) (length p - (ihl + doff)) gso (get32 (drop (ihl + 4) p)).

Lemma parse_tcp4_ok p f : ParseIPv4Tcp p = Some f ↔ ∃ ihl doff, tcp4_ok p ihl doff ∧ f = frame_of p ihl doff 0.
Proof.
  unfold ParseIPv4Tcp, kMaximumIpv4PacketSize. split.
  - case_if as E1; [done|]. case_if as E2; [done|]. case_if as E3; [done|]. intros [= <-]. size_props.
    exists (ihl_of p), (doff_of p (ihl_of p)). split; [constructor; (done || lia)|done].
  - intros (ihl & doff & [H1 H2 H3 H4 H5 H6 H7 H8 H9 H10] & ->). rewrite H2, H3, H4, H6, H7, H8, !Z.eqb_refl. cbn [negb].
    rewrite !orb_false_r, !(proj2 (Nat.ltb_ge _ _)), (proj2 (Z.ltb_ge _ _)) by lia. done.
Qed.

Lemma ihl_of_bound p : bytes_ok p → (ihl_of p ≤ 60)%nat.
Proof.
  intros Hb. unfold ihl_of. assert (Z.land (byte_at p 0) 15 = byte_at p 0 mod 16) as -> by apply (Z.land_ones _ 4 ltac:(lia)).
  pose proof (Z.mod_pos_bound (byte_at p 0) 16). lia.
Qed.
Lemma doff_of_bound p ihl : bytes_ok p → (doff_of p ihl ≤ 60)%nat.
Proof.
  intros Hb. unfold doff_of. pose proof (byte_at_range p (ihl + 12) Hb) as Hr. rewrite Z.shiftr_div_pow2 by lia.
  unfold is_byte, is_uint in Hr. pose proof (Z.div_lt_upper_bound (byte_at p (ihl + 12)) (2 ^ 4) 16). lia.
Qed.

Lemma byte_at_sub p k : byte_at p k = byte_at (sub p k 1) 0.
Proof. unfold byte_at, sub. revert p. induction k as [|k IH]; intros [|b p]; cbn; try done. Qed.
Lemma get32_sub p k : get32 (drop k p) = get32 (sub p k 4).
Proof. unfold get32, sub, byte_at. by destruct (drop k p) as [|? [|? [|? [|? ?]]]]. Qed.

(** Packets that agree on the bytes that are parsed and whose lengths are as named parse alike. *)
Lemma tcp4_ok_agree p q ihl doff :
  tcp4_ok p ihl doff → Z.of_nat (length q) ≤ 65535 → (ihl + doff ≤ length q)%nat → get16 (drop 2 q) = Z.of_nat (length q) →
  sub q 0 1 = sub p 0 1 → sub q 9 1 = sub p 9 1 → sub q 6 2 = sub p 6 2 → sub q (ihl + 12) 1 = sub p (ihl + 12) 1 →
  tcp4_ok q ihl doff.
Proof.
  intros [H1 H2 H3 H4 H5 H6 H7 H8 H9 H10] G1 G2 G3 E0 E9 E6 E12.
  assert (byte_at q 0 = byte_at p 0) as B0 by (by rewrite byte_at_sub, E0, <- byte_at_sub).
  assert (ihl_of q = ihl) as B1 by (by unfold ihl_of; rewrite B0).
  constructor; try done; [by rewrite B0|by rewrite byte_at_sub, E9, <- byte_at_sub|by rewrite get16_sub, E6, <- get16_sub|].
  unfold doff_of. by rewrite byte_at_sub, E12, <- byte_at_sub.
Qed.

(** ** One segment *)

(** Where a byte of a segment is the byte of the super-packet's header. *)
Definition header_kept (ihl hs a m : nat) : Prop :=
  (a + m ≤ 2 ∨ (4 ≤ a ∧ a + m ≤ 10) ∨ (12 ≤ a ∧ a + m ≤ ihl + 4) ∨ (ihl + 8 ≤ a ∧ a + m ≤ ihl + 13) ∨
   (ihl + 14 ≤ a ∧ a + m ≤ ihl + 16) ∨ (ihl + 18 ≤ a ∧ a + m ≤ hs))%nat.

Record segment_of (p : list Z) (ihl doff gso o : nat) (s : list Z) : Prop := {
  sg_length : length s = (ihl + doff + Nat.min gso (length p - (ihl + doff) - o))%nat;
  sg_bytes : bytes_ok s;
  sg_header : ∀ a m, header_kept ihl (ihl + doff) a m → sub s a m = sub p a m;
  sg_total : get16 (drop 2 s) = Z.of_nat (length s);
  sg_sequence : sub s (ihl + 4) 4 = be_bytes 4 (get32 (drop (ihl + 4) p) +[32] Z.of_nat o);
  sg_flags : byte_at s (ihl + 13) =
    if (o + gso <? length p - (ihl + doff))%nat then Z.land (byte_at p (ihl + 13)) 247 else byte_at p (ihl + 13);
  sg_payload : drop (ihl + doff) s = sub p (ihl + doff + o) gso;
  sg_header_sum : HeaderChecksum ihl s = 0;
  sg_tcp_sum : TcpChecksum ihl s = 0;
}.

Section segment.
Context (p : list Z) (ihl doff gso o capacity : nat).
Context (Hp : tcp4_ok p ihl doff) (Hb : bytes_ok p) (Hg : (0 < gso)%nat) (Ho : (o < length p - (ihl + doff))%nat)
  (Hm : (o mod gso)%nat = 0%nat) (Hc : (ihl + doff + gso ≤ capacity)%nat).

Let n : nat := Nat.min gso (length p - (ihl + doff) - o).
Let o0 : list Z := take (ihl + doff) p ++ sub p (ihl + doff + o) n.
Let o1 : list Z := put16 o0 2 (Z.of_nat (ihl + doff + n)).
Let o2 : list Z := put32 o1 (ihl + 4) (get32 (drop (ihl + 4) p) +[32] Z.of_nat o).
Let o3 : list Z :=
  if (o + gso <? length p - (ihl + doff))%nat then patch o2 (ihl + 13) [Z.land (byte_at o2 (ihl + 13)) 247] else o2.
Let o4 : list Z := fill16 o3 10 (HeaderChecksum ihl).
Let o5 : list Z := fill16 o4 (ihl + 16) (TcpChecksum ihl).

Lemma segment_sizes : (20 ≤ ihl)%nat ∧ (20 ≤ doff)%nat ∧ (ihl + doff + n ≤ length p)%nat ∧ Z.of_nat (length p) ≤ 65535 ∧ (0 < n)%nat.
Proof. destruct Hp. unfold n. lia. Qed.

Lemma segment_lengths :
  length o0 = (ihl + doff + n)%nat ∧ length o1 = length o0 ∧ length o2 = length o0 ∧ length o3 = length o0 ∧ length o4 = length o0 ∧
  length o5 = length o0.
Proof.
  pose proof segment_sizes as (S1 & S2 & S3 & S4 & S5).
  assert (length o0 = (ihl + doff + n)%nat) as E0 by (unfold o0; rewrite length_app, length_take, length_sub; lia).
  assert (length o1 = length o0) as E1 by (apply length_put16; lia).
  assert (length o2 = length o0) as E2 by (unfold o2; rewrite length_put32; lia).
  assert (length o3 = length o0) as E3 by (unfold o3; case_match; [rewrite length_patch; [done|cbn; lia]|done]).
  assert (length o4 = length o0) as E4 by (unfold o4; rewrite length_fill16; lia).
  assert (length o5 = length o0) as E5 by (unfold o5; rewrite length_fill16; lia). done.
Qed.

Lemma sub_o0 a m : (a + m ≤ ihl + doff)%nat → sub o0 a m = sub p a m.
Proof.
  intros. pose proof segment_sizes as (S1 & S2 & S3 & S4 & S5). unfold o0. apply list_eq. intros j.
  destruct (decide (j < m)%nat); [|unfold sub; by rewrite !lookup_take_ge by lia].
  rewrite !sub_lookup by done. rewrite lookup_app_l by (rewrite length_take; lia). by rewrite lookup_take_lt by lia.
Qed.

(** What each of the writes leaves alone. *)
Lemma sub_o5 a m :
  (a + m ≤ ihl + 16 ∨ ihl + 18 ≤ a)%nat → (a + m ≤ 10 ∨ 12 ≤ a)%nat → (a + m ≤ ihl + 13 ∨ ihl + 14 ≤ a)%nat →
  sub o5 a m = sub o2 a m.
Proof.
  intros A1 A2 A3. pose proof segment_sizes as (S1 & S2 & S3 & S4 & S5). pose proof segment_lengths as (L0 & L1 & L2 & L3 & L4 & L5).
  unfold o5, o4. rewrite !sub_fill16_out by (first [rewrite length_fill16|idtac]; lia).
  unfold o3. case (o + gso <? length p - (ihl + doff))%nat; [|done]. apply sub_patch_out; cbn; lia.
Qed.
Lemma sub_o2 a m :
  (a + m ≤ ihl + doff)%nat → (a + m ≤ ihl + 4 ∨ ihl + 8 ≤ a)%nat → (a + m ≤ 2 ∨ 4 ≤ a)%nat → sub o2 a m = sub p a m.
Proof.
  intros A0 A1 A2. pose proof segment_sizes as (S1 & S2 & S3 & S4 & S5). pose proof segment_lengths as (L0 & L1 & L2 & L3 & L4 & L5).
  unfold o2. rewrite sub_put32_out by lia. unfold o1. rewrite sub_put16_out by lia. by apply sub_o0.
Qed.

Lemma sub_header a m : header_kept ihl (ihl + doff) a m → sub o5 a m = sub p a m.
Proof.
  pose proof segment_sizes as (S1 & S2 & S3 & S4 & S5). unfold header_kept. intros H. rewrite sub_o5 by lia. apply sub_o2; lia.
Qed.

Lemma total_o5 : get16 (drop 2 o5) = Z.of_nat (length o5) ∧ get16 (drop 2 o4) = Z.of_nat (length o4).
Proof.
  pose proof segment_sizes as (S1 & S2 & S3 & S4 & S5). pose proof segment_lengths as (L0 & L1 & L2 & L3 & L4 & L5).
  assert (get16 (drop 2 o1) = Z.of_nat (length o0)) as E1.
  { rewrite get16_sub. unfold o1, put16. rewrite (sub_patch_here o0 2 (be_bytes 2 _)) by (rewrite length_be_bytes; lia).
    rewrite <- (app_nil_r (be_bytes _ _)), get16_be_bytes by uint_lia. by rewrite L0. }
  assert (get16 (drop 2 o2) = Z.of_nat (length o0)) as E2.
  { rewrite get16_sub. unfold o2. rewrite sub_put32_out, <- get16_sub by lia. done. }
  assert (get16 (drop 2 o3) = Z.of_nat (length o0)) as E3.
  { unfold o3. case (o + gso <? length p - (ihl + doff))%nat; [|done]. rewrite get16_sub, sub_patch_out, <- get16_sub by (cbn; lia). done. }
  assert (get16 (drop 2 o4) = Z.of_nat (length o0)) as E4.
  { rewrite get16_sub. unfold o4. rewrite sub_fill16_out, <- get16_sub by lia. done. }
  rewrite L4, L5. split; [|done]. rewrite get16_sub. unfold o5. by rewrite sub_fill16_out, <- get16_sub by lia.
Qed.

Lemma flags_o2 : byte_at o2 (ihl + 13) = byte_at p (ihl + 13).
Proof. pose proof segment_sizes as (S1 & S2 & S3 & S4 & S5). by rewrite byte_at_sub, sub_o2, <- byte_at_sub by lia. Qed.

Lemma flags_o5 :
  byte_at o5 (ihl + 13) =
    if (o + gso <? length p - (ihl + doff))%nat then Z.land (byte_at p (ihl + 13)) 247 else byte_at p (ihl + 13).
Proof.
  pose proof segment_sizes as (S1 & S2 & S3 & S4 & S5). pose proof segment_lengths as (L0 & L1 & L2 & L3 & L4 & L5).
  rewrite byte_at_sub. unfold o5, o4. rewrite !sub_fill16_out by (first [rewrite length_fill16|idtac]; lia).
  unfold o3. rewrite <- flags_o2. case (o + gso <? length p - (ihl + doff))%nat; [|by rewrite <- byte_at_sub].
  by rewrite (sub_patch_here o2 (ihl + 13) [_]) by (cbn; lia).
Qed.

Lemma bytes_o5 : bytes_ok o5 ∧ bytes_ok o4 ∧ bytes_ok o3.
Proof.
  pose proof segment_sizes as (S1 & S2 & S3 & S4 & S5). pose proof segment_lengths as (L0 & L1 & L2 & L3 & L4 & L5).
  assert (bytes_ok o0) as B0 by (unfold o0; apply Forall_app; split; [by apply bytes_ok_take|by apply bytes_ok_sub]).
  assert (bytes_ok o1) as B1 by (by apply bytes_ok_put16; [lia|]).
  assert (bytes_ok o2) as B2 by (apply bytes_ok_patch; [done|apply bytes_ok_be_bytes]).
  assert (bytes_ok o3) as B3.
  { unfold o3. case (o + gso <? length p - (ihl + doff))%nat; [|done]. apply bytes_ok_patch; [done|]. apply Forall_cons; split; [|by apply Forall_nil].
    change 247 with (Z.land 247 255). rewrite Z.land_assoc, land_255. apply (wrap_range 8). lia. }
  assert (bytes_ok o4) as B4 by (by apply bytes_ok_fill16; [lia|]). split_and!; [apply bytes_ok_fill16; [lia|done]|done|done].
Qed.

Lemma parsed_o4 : tcp4_ok o4 ihl doff.
Proof.
  pose proof segment_sizes as (S1 & S2 & S3 & S4 & S5). pose proof segment_lengths as (L0 & L1 & L2 & L3 & L4 & L5).
  assert (∀ a m, header_kept ihl (ihl + doff) a m → (a + m ≤ ihl + 13)%nat → sub o4 a m = sub p a m) as E.
  { intros a m H Ha. rewrite <- (sub_header a m H). unfold o5. rewrite sub_fill16_out; [done|lia|]. lia. }
  apply (tcp4_ok_agree p); [done|lia|lia|apply total_o5|apply E..]; unfold header_kept; lia.
Qed.

Lemma payload_o5 : drop (ihl + doff) o5 = sub p (ihl + doff + o) gso.
Proof.
  pose proof segment_sizes as (S1 & S2 & S3 & S4 & S5). pose proof segment_lengths as (L0 & L1 & L2 & L3 & L4 & L5).
  rewrite drop_sub, L5, L0, sub_o5 by lia. unfold o2. rewrite sub_put32_out by lia. unfold o1. rewrite sub_put16_out by lia.
  unfold o0. rewrite sub_skip by (rewrite length_take; lia). rewrite length_take_le by lia. rewrite Nat.sub_diag.
  rewrite sub_all by (rewrite length_sub; lia). unfold sub, n. destruct (decide (gso ≤ length p - (ihl + doff) - o)%nat).
  - by rewrite Nat.min_l by lia.
  - rewrite Nat.min_r by lia. rewrite !take_ge by (rewrite length_drop; lia). done.
Qed.

Lemma segment_result : segment_of p ihl doff gso o o5.
Proof.
  pose proof segment_sizes as (S1 & S2 & S3 & S4 & S5). pose proof segment_lengths as (L0 & L1 & L2 & L3 & L4 & L5).
  destruct bytes_o5 as (B5 & B4 & B3).
  assert (ihl ≤ 60)%nat as H60 by (rewrite <- (t4_ihl _ _ _ Hp); by apply ihl_of_bound).
  constructor; [by rewrite L5, L0|done|apply sub_header|apply total_o5| |apply flags_o5|apply payload_o5| |].
  - rewrite sub_o5 by lia. unfold o2, put32. rewrite (sub_patch_here o1 _ (be_bytes 4 _)); [done|rewrite length_be_bytes; lia].
  - unfold HeaderChecksum. change (take ihl o5) with (sub o5 0 ihl). unfold o5. rewrite sub_fill16_out by lia.
    change (sub o4 0 ihl) with (take ihl o4). apply (header_fill_verifies ihl o3); [done|lia|lia].
  - apply (tcp_fill_verifies ihl o4); [done|lia|lia|]. rewrite L4, L0. lia.
Qed.

Lemma segment_built : BuildTcpV4GsoSegment (frame_of p ihl doff gso) o capacity = Some o5.
Proof.
  pose proof segment_sizes as (S1 & S2 & S3 & S4 & S5). pose proof segment_lengths as (L0 & L1 & L2 & L3 & L4 & L5).
  unfold BuildTcpV4GsoSegment, frame_of, kMaximumIpv4PacketSize. cbn [gf_ip gf_ihl gf_header_size gf_payload_size gf_gso_size gf_initial_sequence].
  rewrite (proj2 (Nat.eqb_neq gso 0)), (proj2 (Nat.leb_gt _ _)), Hm by lia. cbn [orb negb Nat.eqb].
  assert ((if (length p - (ihl + doff) - o <? gso)%nat then (length p - (ihl + doff) - o)%nat else gso) = n) as ->.
  { unfold n. destruct (Nat.ltb_spec (length p - (ihl + doff) - o) gso); lia. }
  rewrite (proj2 (Nat.ltb_ge _ _)), (proj2 (Z.ltb_ge _ _)) by (unfold n in *; lia). cbn [orb].
  rewrite (wrap_small 16) by uint_lia. fold o0 o1 o2.
  assert (negb (o + n =? length p - (ihl + doff))%nat = (o + gso <? length p - (ihl + doff))%nat) as ->.
  { unfold n. destruct (Nat.ltb_spec (o + gso) (length p - (ihl + doff))); [apply negb_true_iff, Nat.eqb_neq|apply negb_false_iff, Nat.eqb_eq]; lia. }
  fold o3 o4. assert (ParseIPv4Tcp o4 = Some (frame_of o4 ihl doff 0)) as -> by (apply parse_tcp4_ok; eauto using parsed_o4). done.
Qed.

Lemma segment_ok : ∃ s, BuildTcpV4GsoSegment (frame_of p ihl doff gso) o capacity = Some s ∧ segment_of p ihl doff gso o s.
Proof. exists o5. split; [apply segment_built|apply segment_result]. Qed.
End segment.

(** ** All the segments *)
Definition segments_of (p : list Z) (ihl doff gso : nat) (ss : list (list Z)) : Prop :=
  (∀ i s, ss !! i = Some s → (i * gso < length p - (ihl + doff))%nat ∧ segment_of p ihl doff gso (i * gso) s) ∧
  mjoin (drop (ihl + doff) <$> ss) = drop (ihl + doff) p.

Lemma gso_segments_ok p ihl doff gso capacity fuel k :
  tcp4_ok p ihl doff → bytes_ok p → (0 < gso)%nat → (ihl + doff + gso ≤ capacity)%nat →
  (length p - (ihl + doff) - k * gso ≤ fuel)%nat →
  ∃ ss, gso_segments fuel (frame_of p ihl doff gso) capacity (k * gso) = (ss, true) ∧
    (∀ i s, ss !! i = Some s → ((k + i) * gso < length p - (ihl + doff))%nat ∧ segment_of p ihl doff gso ((k + i) * gso) s) ∧
    mjoin (drop (ihl + doff) <$> ss) = drop (ihl + doff + k * gso) p.
Proof.
  intros Hp Hb Hg Hc. revert k. induction fuel as [|fuel IH]; intros k Hf; cbn [gso_segments frame_of gf_payload_size gf_gso_size].
  - rewrite (proj2 (Nat.leb_le _ _)) by lia. exists []. split_and!; [done|done|]. by rewrite drop_ge by lia.
  - destruct (Nat.leb_spec (length p - (ihl + doff)) (k * gso)) as [Hk|Hk].
    { exists []. split_and!; [done|done|]. by rewrite drop_ge by lia. }
    fold (frame_of p ihl doff gso).
    assert ((k * gso) mod gso = 0)%nat as Hm by (apply Nat.Div0.mod_mul).
    destruct (segment_ok p ihl doff gso (k * gso) capacity Hp Hb Hg Hk Hm Hc) as (s & -> & Hs).
    replace (k * gso + gso)%nat with (S k * gso)%nat by lia. destruct (IH (S k)) as (ss & -> & Hi & Hj); [lia|].
    exists (s :: ss). split_and!; [done| |].
    + intros [|i] x Hx; [injection Hx as <-; by rewrite Nat.add_0_r|]. replace (k + S i)%nat with (S k + i)%nat by lia. by apply Hi.
    + rewrite fmap_cons, mjoin_cons, Hj, (sg_payload _ _ _ _ _ _ Hs). unfold sub.
      replace (ihl + doff + S k * gso)%nat with ((ihl + doff + k * gso) + gso)%nat by lia.
      rewrite <- (drop_drop p gso (ihl + doff + k * gso)). apply take_drop.
Qed.

Lemma same_outside_sub fields p q a m :
  same_outside fields p q → (∀ k, k ∈ fields → a + m ≤ k ∨ k + 2 ≤ a)%nat → sub q a m = sub p a m.
Proof.
  intros [Hl Hs] Hf. apply list_eq. intros j. destruct (decide (j < m)%nat); [|unfold sub; by rewrite !lookup_take_ge by lia].
  rewrite !sub_lookup by done. apply Hs. intros k Hk. specialize (Hf k Hk). lia.
Qed.

(** The fields that the completion of the checksums fills. *)
Definition sum_fields (ihl : nat) : list nat := [10; ihl + 16]%nat.

Section completed.
Context (p q : list Z) (ihl doff : nat).
Context (Hp : tcp4_ok p ihl doff) (Hs : same_outside (sum_fields ihl) p q).

Lemma completed_sub a m : (a + m ≤ 10 ∨ 12 ≤ a)%nat → (a + m ≤ ihl + 16 ∨ ihl + 18 ≤ a)%nat → sub q a m = sub p a m.
Proof. intros H1 H2. apply (same_outside_sub _ _ _ _ _ Hs). intros k [->|[->|[]%not_elem_of_nil]%elem_of_cons]%elem_of_cons; lia. Qed.

Lemma completed_ok : tcp4_ok q ihl doff.
Proof.
  pose proof (proj1 Hs) as Hl. destruct Hp as [H1 H2 H3 H4 H5 H6 H7 H8 H9 H10].
  apply (tcp4_ok_agree p); [done|lia|lia|by rewrite get16_sub, completed_sub, <- get16_sub, H6, Hl by lia|apply completed_sub; lia..].
Qed.

Lemma completed_drop : drop (ihl + doff) q = drop (ihl + doff) p.
Proof. pose proof (proj1 Hs) as Hl. destruct Hp. rewrite !drop_sub, Hl. apply completed_sub; lia. Qed.

Lemma completed_segment gso o s : segment_of q ihl doff gso o s → segment_of p ihl doff gso o s.
Proof.
  pose proof (proj1 Hs) as Hl. pose proof (t4_ihl_min _ _ _ Hp). pose proof (t4_doff_min _ _ _ Hp).
  intros [G1 G2 G3 G4 G5 G6 G7 G8 G9]. rewrite Hl in G1, G6.
  assert (byte_at q (ihl + 13) = byte_at p (ihl + 13)) as Ef by (by rewrite byte_at_sub, completed_sub, <- byte_at_sub by lia).
  constructor; try done.
  - intros a m Hk. rewrite G3 by done. apply completed_sub; unfold header_kept in Hk; lia.
  - rewrite G5. by rewrite get32_sub, completed_sub, <- get32_sub by lia.
  - by rewrite G6, Ef.
  - rewrite G7. apply completed_sub; lia.
Qed.
End completed.

Lemma same_outside_fill fields p q k chk :
  same_outside fields p q → (k + 2 ≤ length p)%nat → k ∈ fields → same_outside fields p (fill16 q k chk).
Proof.
  intros Hs Hk Hin. rewrite fill16_put16 by (rewrite (proj1 Hs); lia). by apply same_outside_patch.
Qed.
Lemma same_outside_refl fields p : same_outside fields p p.
Proof. done. Qed.

Lemma complete_gso p ihl doff gso :
  tcp4_ok p ihl doff → bytes_ok p →
  ∃ q, CompleteTcpV4GsoChecksums (frame_of p ihl doff gso) = Some (frame_of q ihl doff gso) ∧ bytes_ok q ∧
    same_outside (sum_fields ihl) p q ∧ HeaderChecksum ihl q = 0 ∧ TcpChecksum ihl q = 0.
Proof.
  intros Hp Hb. pose proof (t4_ihl_min _ _ _ Hp) as Hi. pose proof (t4_doff_min _ _ _ Hp) as Hd. pose proof (t4_fits _ _ _ Hp) as Hf.
  assert (ihl ≤ 60)%nat as H60 by (rewrite <- (t4_ihl _ _ _ Hp); by apply ihl_of_bound).
  set (q1 := fill16 p 10 (HeaderChecksum ihl)). set (q := fill16 q1 (ihl + 16) (TcpChecksum ihl)).
  assert (length q1 = length p) as E1 by (apply length_fill16; lia).
  assert (length q = length p) as E2 by (unfold q; rewrite length_fill16; lia).
  assert (bytes_ok q1) as B1 by (by apply bytes_ok_fill16; [lia|]).
  assert (same_outside (sum_fields ihl) p q) as Hs.
  { apply same_outside_fill; [apply same_outside_fill; [apply same_outside_refl|lia|]|lia|]; unfold sum_fields; set_solver. }
  exists q. split_and!; [|by apply bytes_ok_fill16; [lia|]|done| |].
  - unfold CompleteTcpV4GsoChecksums, frame_of. cbn [gf_ip gf_packet_size gf_ihl gf_tcp_header_size gf_header_size gf_payload_size gf_gso_size gf_initial_sequence].
    rewrite (proj2 (Nat.eqb_neq (length p) 0)), !(proj2 (Nat.ltb_ge _ _)) by lia. cbn [orb]. fold q1 q. do 2 f_equal; [done|lia|].
    rewrite !get32_sub. rewrite (completed_sub p q ihl Hs); [done|lia..].
  - unfold HeaderChecksum. change (take ihl q) with (sub q 0 ihl). unfold q. rewrite sub_fill16_out by lia.
    change (sub q1 0 ihl) with (take ihl q1). apply (header_fill_verifies ihl p); [done|lia|lia].
  - apply tcp_fill_verifies; [done|lia|lia|]. destruct Hp. lia.
Qed.

(** ** The header in memory *)
Definition virtio_ok (h : virtio_net_hdr) : Prop :=
  is_byte (vh_flags h) ∧ is_byte (vh_gso_type h) ∧ is_uint 16 (vh_hdr_len h) ∧ is_uint 16 (vh_gso_size h) ∧
  is_uint 16 (vh_csum_start h) ∧ is_uint 16 (vh_csum_offset h).

Lemma length_virtio h : length (virtio_bytes h) = 10%nat.
Proof. done. Qed.

Lemma virtio_load_bytes h r : virtio_ok h → virtio_load (virtio_bytes h ++ r) = h.
Proof.
  intros (H1 & H2 & H3 & H4 & H5 & H6). destruct h as [fl ty hl gs cs co]. unfold virtio_load, virtio_bytes. cbn [vh_flags vh_gso_type vh_hdr_len
    vh_gso_size vh_csum_start vh_csum_offset app drop store16] in *.
  f_equal; try done; [apply (load16_store16 hl)|apply (load16_store16 gs)|apply (load16_store16 cs)|apply (load16_store16 co)]; done.
Qed.

Lemma parse_gso_inv frame mss g :
  ParseTcpV4Gso frame 10 mss = Some g → ∃ ihl doff gso, tcp4_ok (drop 10 frame) ihl doff ∧ g = frame_of (drop 10 frame) ihl doff gso ∧
    (0 < gso)%nat ∧ gso = Z.to_nat (vh_gso_size (virtio_load frame)) ∧ (ihl + doff + gso ≤ mss)%nat.
Proof.
  unfold ParseTcpV4Gso, ReadHeader. case_if as E0; [done|]. case_if as E1; [done|].
  destruct (ParseIPv4Tcp _) as [f|] eqn:Ep; [|done]. apply parse_tcp4_ok in Ep as (ihl & doff & Hp & ->).
  case_if as E2; [done|]. cbn [frame_of gf_ip gf_packet_size gf_ihl gf_tcp_header_size gf_header_size gf_payload_size gf_initial_sequence].
  case_if as E3; [done|]. intros [= <-]. size_props. exists ihl, doff, (Z.to_nat (vh_gso_size (virtio_load frame))).
  split_and!; (done || lia).
Qed.

Lemma checksum_only_inv frame frame' :
  bytes_ok frame → CompleteChecksumOnlyTcpV4 frame 10 = Some frame' → ∃ ihl doff, tcp4_ok (drop 10 frame) ihl doff ∧
    same_outside [(ihl + 16)%nat] (drop 10 frame) (drop 10 frame') ∧ TcpChecksum ihl (drop 10 frame') = 0.
Proof.
  intros Hb. unfold CompleteChecksumOnlyTcpV4, ReadHeader. case_if as E0; [done|]. case_if as E1; [done|].
  destruct (ParseIPv4Tcp _) as [f|] eqn:Ep; [|done]. apply parse_tcp4_ok in Ep as (ihl & doff & Hp & ->).
  case_if as E2; [done|]. cbn [frame_of gf_ip gf_ihl]. intros [= <-]. size_props. exists ihl, doff.
  pose proof Hp as [G1 _ _ _ G5 _ _ _ G9 G10]. rewrite length_drop in *.
  rewrite drop_app_length' by (rewrite length_take; lia). split; [done|]. split.
  - apply same_outside_fill; [apply same_outside_refl|rewrite length_drop; lia|set_solver].
  - apply tcp_fill_verifies; [by apply bytes_ok_drop|lia|rewrite length_drop; lia|rewrite length_drop; lia].
Qed.

Lemma cut_completed p q ihl doff gso :
  tcp4_ok p ihl doff → bytes_ok q → same_outside (sum_fields ihl) p q → (0 < gso)%nat → (ihl + doff + gso ≤ Z.to_nat MTU)%nat →
  ∃ ss, gso_segments (gf_payload_size (frame_of q ihl doff gso)) (frame_of q ihl doff gso) (Z.to_nat MTU) 0 = (ss, true) ∧
    segments_of p ihl doff gso ss ∧ Forall (λ s, Z.of_nat (length s) ≤ MTU) ss.
Proof.
  intros Hp Hq Hs Hg Hc. pose proof (completed_ok _ _ _ _ Hp Hs) as Hp'.
  destruct (gso_segments_ok q ihl doff gso (Z.to_nat MTU) (gf_payload_size (frame_of q ihl doff gso)) 0)
    as (ss & Es & Hi & Hj); [done|done|done|done|cbn; lia|]. cbn [Nat.mul] in Es. exists ss. split; [done|]. split.
  - split; [|rewrite Hj, Nat.mul_0_l, Nat.add_0_r; by apply completed_drop].
    intros i s Hx. destruct (Hi i s Hx) as [H1 H2]. rewrite (proj1 Hs) in H1. split; [done|]. by apply (completed_segment _ q).
  - apply Forall_lookup. intros i s Hx. destruct (Hi i s Hx) as [_ H2]. rewrite (sg_length _ _ _ _ _ _ H2). lia.
Qed.

(** A GSO frame that the handler does not take is cut into its segments. *)
Lemma gso_input frame handler h ihl doff gso :
  bytes_ok frame → (∀ q, handler q = false) → virtio_load frame = h → vh_gso_type h ≠ VIRTIO_NET_HDR_GSO_NONE →
  ParseTcpV4Gso frame 10 (Z.to_nat MTU) = Some (frame_of (drop 10 frame) ihl doff gso) →
  ∃ ss, OnInput 10 handler frame = VnetPackets ss ∧ segments_of (drop 10 frame) ihl doff gso ss ∧ (0 < gso)%nat ∧
    Forall (λ s, Z.of_nat (length s) ≤ MTU) ss.
Proof.
  intros Hb Hh Eh Ht Ep. assert (10 < length frame)%nat as Hl.
  { revert Ep. unfold ParseTcpV4Gso, ReadHeader. cbn [IsStandardHeaderSize kStandardVirtioHeaderSize Nat.eqb negb orb].
    destruct (Nat.leb_spec (length frame) 10); [done|lia]. }
  assert (ReadHeader frame 10 = Some h) as Er.
  { unfold ReadHeader. cbn [IsStandardHeaderSize kStandardVirtioHeaderSize Nat.eqb negb orb].
    rewrite (proj2 (Nat.leb_gt _ _)) by lia. by rewrite Eh. }
  unfold OnInput. rewrite (proj2 (Nat.eqb_neq (length frame) 0)), Er by lia. cbn [IsStandardHeaderSize kStandardVirtioHeaderSize Nat.eqb negb orb].
  rewrite (proj2 (Z.eqb_neq _ _) Ht), Ep. apply parse_gso_inv in Ep as (ihl' & doff' & gso' & Hp & Ef & Hg & _ & Hc).
  injection Ef as <- <- _ _ <-.
  destruct (complete_gso (drop 10 frame) ihl doff gso) as (q & -> & Hq & Hs & Hh' & Ht'); [done|by apply bytes_ok_drop|].
  cbn [frame_of gf_ip]. rewrite Hh. fold (frame_of q ihl doff gso).
  destruct (cut_completed (drop 10 frame) q ihl doff gso) as (ss & -> & Hss & Hm); [done..|]. by exists ss.
Qed.

(** ** What the header of a frame announces *)
Definition plain_frame (h : virtio_net_hdr) : Prop :=
  vh_gso_type h = VIRTIO_NET_HDR_GSO_NONE ∧ vh_flags h = 0 ∧ vh_hdr_len h = 0 ∧ vh_gso_size h = 0 ∧ vh_csum_start h = 0 ∧
  vh_csum_offset h = 0.
(** The checksum still to be filled is the one of a TCP header behind [ihl] bytes. *)
Definition tcp_checksum_at (h : virtio_net_hdr) (ihl : nat) : Prop :=
  vh_flags h = VIRTIO_NET_HDR_F_NEEDS_CSUM ∧ vh_csum_start h = Z.of_nat ihl ∧ vh_csum_offset h = 16.
Definition partial_frame (h : virtio_net_hdr) (p : list Z) (ihl doff : nat) : Prop :=
  vh_gso_type h = VIRTIO_NET_HDR_GSO_NONE ∧ vh_hdr_len h = 0 ∧ vh_gso_size h = 0 ∧ tcp_checksum_at h ihl ∧ tcp4_ok p ihl doff.
Definition super_frame (h : virtio_net_hdr) (p : list Z) (ihl doff : nat) : Prop :=
  vh_gso_type h = VIRTIO_NET_HDR_GSO_TCPV4 ∧ vh_hdr_len h = Z.of_nat (ihl + doff) ∧ 0 < vh_gso_size h ∧
  Z.of_nat (ihl + doff) + vh_gso_size h ≤ MTU ∧ (ihl + doff < length p)%nat ∧ tcp_checksum_at h ihl ∧ tcp4_ok p ihl doff.

Lemma metadata_iff h p ihl doff gso :
  tcp4_ok p ihl doff →
  HasTcpChecksumMetadata h (frame_of p ihl doff gso) = true ↔ vh_csum_start h = Z.of_nat ihl ∧ vh_csum_offset h = 16.
Proof.
  intros Hp. pose proof (t4_fits _ _ _ Hp). pose proof (t4_doff_min _ _ _ Hp).
  unfold HasTcpChecksumMetadata. cbn [frame_of gf_packet_size gf_ihl]. rewrite !andb_true_iff, !Z.leb_le, !Z.eqb_eq. lia.
Qed.

Lemma read_header_some frame : (10 < length frame)%nat → ReadHeader frame 10 = Some (virtio_load frame).
Proof. intros H. unfold ReadHeader. cbn [IsStandardHeaderSize kStandardVirtioHeaderSize Nat.eqb negb orb]. by rewrite (proj2 (Nat.leb_gt _ _)). Qed.

(** The checksum of a frame is completed exactly for a partial frame. *)
Lemma checksum_only_partial frame :
  bytes_ok frame → (10 < length frame)%nat →
  match CompleteChecksumOnlyTcpV4 frame 10 with
  | Some frame' => ∃ ihl doff, partial_frame (virtio_load frame) (drop 10 frame) ihl doff ∧
      same_outside [(ihl + 16)%nat] (drop 10 frame) (drop 10 frame') ∧ TcpChecksum ihl (drop 10 frame') = 0
  | None => ∀ ihl doff, ¬ partial_frame (virtio_load frame) (drop 10 frame) ihl doff
  end.
Proof.
  intros Hb Hl. pose proof (checksum_only_inv frame) as Hinv. destruct (CompleteChecksumOnlyTcpV4 frame 10) as [frame'|] eqn:E.
  - destruct (Hinv frame' Hb eq_refl) as (ihl & doff & Hp & Hs & Ht). exists ihl, doff. split; [|done].
    revert E. unfold CompleteChecksumOnlyTcpV4. rewrite read_header_some by done. case_if as E1; [done|].
    rewrite (proj2 (parse_tcp4_ok _ (frame_of (drop 10 frame) ihl doff 0))) by eauto. case_if as E2; [done|]. intros _.
    apply negb_false_iff, metadata_iff in E2; [|done]. unfold partial_frame, tcp_checksum_at. bool_props. destruct E2. split; [done|]. split; [done|]. split; [done|]. split; [|done]. by split.
  - intros ihl doff (H1 & H2 & H3 & (H4 & H5 & H6) & Hp). revert E. unfold CompleteChecksumOnlyTcpV4. rewrite read_header_some by done.
    rewrite H1, H2, H3, H4. cbn [negb Z.eqb VIRTIO_NET_HDR_F_NEEDS_CSUM VIRTIO_NET_HDR_GSO_NONE orb Pos.eqb].
    rewrite (proj2 (parse_tcp4_ok _ (frame_of (drop 10 frame) ihl doff 0))) by eauto.
    by rewrite (proj2 (metadata_iff _ _ ihl doff 0 Hp)).
Qed.

(** A frame is parsed as a super-packet exactly when it announces one. *)
Lemma parse_gso_super frame :
  bytes_ok frame → (10 < length frame)%nat →
  match ParseTcpV4Gso frame 10 (Z.to_nat MTU) with
  | Some g => ∃ ihl doff, super_frame (virtio_load frame) (drop 10 frame) ihl doff ∧
      g = frame_of (drop 10 frame) ihl doff (Z.to_nat (vh_gso_size (virtio_load frame)))
  | None => ∀ ihl doff, ¬ super_frame (virtio_load frame) (drop 10 frame) ihl doff
  end.
Proof.
  intros Hb Hl. pose proof (parse_gso_inv frame (Z.to_nat MTU)) as Hinv. destruct (ParseTcpV4Gso frame 10 _) as [g|] eqn:E.
  - destruct (Hinv g eq_refl) as (ihl & doff & gso & Hp & Eg & Hg & -> & Hm). exists ihl, doff. split; [|done].
    revert E. unfold ParseTcpV4Gso. rewrite read_header_some by done. case_if as E1; [done|].
    rewrite (proj2 (parse_tcp4_ok _ (frame_of (drop 10 frame) ihl doff 0))) by eauto. case_if as E2; [done|].
    cbn [frame_of gf_header_size gf_payload_size]. case_if as E3; [done|]. intros _.
    apply negb_false_iff, metadata_iff in E2; [|done]. unfold super_frame, tcp_checksum_at, MTU in *. size_props. split_and!; (done || lia).
  - intros ihl doff (H1 & H2 & H3 & H4 & H5 & (H6 & H7 & H8) & Hp). revert E. unfold ParseTcpV4Gso. rewrite read_header_some by done.
    rewrite H1, H6. cbn [negb Z.eqb VIRTIO_NET_HDR_F_NEEDS_CSUM VIRTIO_NET_HDR_GSO_TCPV4 orb Pos.eqb].
    rewrite (proj2 (parse_tcp4_ok _ (frame_of (drop 10 frame) ihl doff 0))) by eauto.
    rewrite (proj2 (metadata_iff _ _ ihl doff 0 Hp)) by done. cbn [negb frame_of gf_header_size gf_payload_size].
    rewrite H2, Z.eqb_refl. cbn [negb orb]. unfold MTU in *. rewrite !(proj2 (Nat.eqb_neq _ _)), !(proj2 (Nat.ltb_ge _ _)) by lia. done.
Qed.

(** The three kinds exclude each other, so an input is handled in one way only. *)
Lemma super_not_none h p ihl doff : super_frame h p ihl doff → (vh_gso_type h =? VIRTIO_NET_HDR_GSO_NONE) = false.
Proof. by intros (-> & _). Qed.
Lemma plain_test h :
  (vh_flags h =? 0) && (vh_hdr_len h =? 0) && (vh_gso_size h =? 0) && (vh_csum_start h =? 0) && (vh_csum_offset h =? 0) = true ↔
  vh_flags h = 0 ∧ vh_hdr_len h = 0 ∧ vh_gso_size h = 0 ∧ vh_csum_start h = 0 ∧ vh_csum_offset h = 0.
Proof. rewrite !andb_true_iff, !Z.eqb_eq. tauto. Qed.

(** What is delivered, by the kind of the frame. *)
Definition delivered_as (handler : list Z → bool) (frame : list Z) (input : VnetInput) : Prop :=
  let h := virtio_load frame in
  let packet := drop 10 frame in
  (plain_frame h → input = VnetPackets [packet]) ∧
  (∀ ihl doff, partial_frame h packet ihl doff →
     ∃ q, input = VnetPackets [q] ∧ same_outside [(ihl + 16)%nat] packet q ∧ TcpChecksum ihl q = 0) ∧
  (∀ ihl doff, super_frame h packet ihl doff →
     ∃ q ss, input = (if handler q then VnetSuperPacket q else VnetPackets ss) ∧
       same_outside (sum_fields ihl) packet q ∧ HeaderChecksum ihl q = 0 ∧ TcpChecksum ihl q = 0 ∧
       segments_of packet ihl doff (Z.to_nat (vh_gso_size h)) ss ∧ Forall (λ s, Z.of_nat (length s) ≤ MTU) ss) ∧
  (¬ plain_frame h → (∀ ihl doff, ¬ partial_frame h packet ihl doff ∧ ¬ super_frame h packet ihl doff) → input = VnetClosed []).

Lemma input_delivered handler frame :
  bytes_ok frame → (10 < length frame)%nat → delivered_as handler frame (OnInput 10 handler frame).
Proof.
  intros Hb Hl. unfold delivered_as. cbv zeta.
  unfold OnInput. rewrite (proj2 (Nat.eqb_neq (length frame) 0)), read_header_some by lia.
  cbn [IsStandardHeaderSize kStandardVirtioHeaderSize Nat.eqb negb orb].
  set (h := virtio_load frame). set (p := drop 10 frame). destruct (vh_gso_type h =? _) eqn:Et.
  - assert (∀ ihl doff, ¬ super_frame h p ihl doff) as Hns by (intros ihl doff H; apply super_not_none in H; congruence).
    destruct ((vh_flags h =? 0) && _ && _ && _ && _) eqn:Ez.
    + apply Z.eqb_eq in Et. apply plain_test in Ez. split; [done|]. split; [intros ihl doff (_ & _ & _ & (Hf & _) & _); unfold VIRTIO_NET_HDR_F_NEEDS_CSUM in Hf; lia|].
      split; [by intros ihl doff ?%Hns|]. intros Hn. by destruct Hn.
    + assert (¬ plain_frame h) as Hnp by (intros (_ & H); apply plain_test in H; congruence).
      pose proof (checksum_only_partial frame Hb Hl) as Hc. fold h p in Hc.
      destruct (CompleteChecksumOnlyTcpV4 frame 10) as [frame'|].
      * destruct Hc as (ihl & doff & Hp & Hs & Ht). split; [done|]. split.
        -- intros ihl' doff' Hp'. exists (drop 10 frame'). split; [done|].
           assert (ihl' = ihl) as -> by (destruct Hp as (_ & _ & _ & _ & Hp), Hp' as (_ & _ & _ & _ & Hp'); by rewrite <- (t4_ihl _ _ _ Hp), <- (t4_ihl _ _ _ Hp')).
           done.
        -- split; [by intros ? ? ?%Hns|]. intros _ Hno. by destruct (Hno ihl doff).
      * split; [done|]. split; [by intros ? ? ?%Hc|]. by split; [intros ? ? ?%Hns|].
  - assert (¬ plain_frame h) as Hnp by (intros (H & _); rewrite H in Et; done).
    assert (∀ ihl doff, ¬ partial_frame h p ihl doff) as Hnq by (intros ihl doff (H & _); rewrite H in Et; done).
    split; [done|]. split; [by intros ? ? ?%Hnq|]. pose proof (parse_gso_super frame Hb Hl) as Hc. fold h p in Hc.
    destruct (ParseTcpV4Gso frame 10 _) as [g|]; [|by split; [intros ? ? ?%Hc|]].
    destruct Hc as (ihl & doff & Hp & ->). split; [|intros _ Hno; by destruct (Hno ihl doff)].
    intros ihl' doff' Hp'. pose proof Hp as (_ & _ & Hg & Hm & _ & _ & H4). destruct Hp' as (_ & _ & _ & _ & _ & _ & H4').
    assert (ihl' = ihl) as -> by (by rewrite <- (t4_ihl _ _ _ H4), <- (t4_ihl _ _ _ H4')).
    assert (doff' = doff) as -> by (by rewrite <- (t4_doff _ _ _ H4), <- (t4_doff _ _ _ H4')).
    destruct (complete_gso p ihl doff (Z.to_nat (vh_gso_size h))) as (q & -> & Hq & Hs & Hh & Ht); [done|by apply bytes_ok_drop|].
    destruct (cut_completed p q ihl doff (Z.to_nat (vh_gso_size h))) as (ss & Ess & Hss & Hmm); [done|done|done|lia|lia|].
    exists q, ss. split; [|done]. cbn [frame_of gf_ip]. fold (frame_of q ihl doff (Z.to_nat (vh_gso_size h))). rewrite Ess. by destruct (handler q).
Qed.

(** C32: what becomes of a frame read from the device is settled by what its header announces.  A plain
    frame is handed on as it is; a frame with a partial TCP checksum is handed on with only that checksum
    filled, which then verifies; a GSO frame goes whole to the handler, with only its two checksums filled,
    which verify, or, when the handler does not take it, is cut into segments that carry the header of the
    super-packet, consecutive sequence numbers modulo 2^32, the push flag on the last one only, valid
    checksums and together exactly its payload, each within the MTU.  Every other frame, one without a
    packet behind the header included, closes the device with nothing handed on. *)
Theorem vnet_input_exact handler frame :
  bytes_ok frame →
  ((10 < length frame)%nat → delivered_as handler frame (OnInput 10 handler frame)) ∧
  ((length frame ≤ 10)%nat → OnInput 10 handler frame = VnetClosed []).
Proof.
  intros Hb. split; [by apply input_delivered|]. intros Hl. unfold OnInput, ReadHeader. destruct (_ || _); [done|].
  cbn [IsStandardHeaderSize kStandardVirtioHeaderSize Nat.eqb negb orb]. by rewrite (proj2 (Nat.leb_le _ _)).
Qed.

(** ** Output metadata *)
Lemma segments_count p ihl doff gso ss :
  tcp4_ok p ihl doff → (0 < gso)%nat → segments_of p ihl doff gso ss → (ihl + doff < length p)%nat →
  Z.of_nat (length ss) = (Z.of_nat (length p) - Z.of_nat (ihl + doff) + Z.of_nat gso - 1) / Z.of_nat gso.
Proof.
  intros Hp Hg [Hi Hj] Hl.
  assert (length p - (ihl + doff) ≤ length ss * gso)%nat as Hup.
  { apply (f_equal length) in Hj. rewrite length_drop in Hj. rewrite <- Hj. clear Hj.
    assert (Forall (λ s, length (drop (ihl + doff) s) ≤ gso)%nat ss) as Hs.
    { apply Forall_lookup. intros i s Hx. destruct (Hi i s Hx) as [_ H2]. rewrite (sg_payload _ _ _ _ _ _ H2). unfold sub.
      rewrite length_take. lia. }
    clear Hi. induction Hs as [|s ss H _ IH]; [done|]. rewrite fmap_cons, mjoin_cons, length_app. cbn [length]. lia. }
  assert ((length ss - 1) * gso < length p - (ihl + doff))%nat as Hlow.
  { destruct (lookup_lt_is_Some_2 ss (length ss - 1)) as [s Hx]; [destruct ss; cbn in *; lia|]. by destruct (Hi _ _ Hx). }
  assert (0 < length ss)%nat by (destruct ss; cbn in *; lia).
  apply Z.div_unique with (Z.of_nat (length p) - Z.of_nat (ihl + doff) + Z.of_nat gso - 1 - Z.of_nat gso * Z.of_nat (length ss)); [|lia].
  left. nia.
Qed.

Lemma tx_parse_inv p g n v :
  TxGso_ParseTcpV4 p g n = Some v → g ≠ 0 ∧ tcp4_ok p (ihl_of p) (doff_of p (ihl_of p)) ∧
    tx_header_length v = Z.of_nat (ihl_of p + doff_of p (ihl_of p)) ∧ g < Z.of_nat (length p) - tx_header_length v ∧
    (Z.of_nat (length p) - tx_header_length v + g - 1) / g = n.
Proof.
  unfold TxGso_ParseTcpV4. case_if as E1; [done|]. case_if as E2; [done|]. case_if as E3; [done|]. case_if as E4; [done|].
  intros [= <-]. size_props. cbn [tx_header_length]. split_and!; [done|constructor; (done || lia)|lia|lia|done].
Qed.

(** The header built for an outgoing super-packet names its header length, and its segment count is the
    number of segments the super-packet is cut into. *)
Theorem tx_gso_header p m h capacity :
  bytes_ok p → is_uint 16 (tx_gso_size m) → BuildTcpV4GsoHeader p m = Some h → ∃ ihl doff ss,
    tcp4_ok p ihl doff ∧ vh_hdr_len h = Z.of_nat (ihl + doff) ∧ vh_gso_size h = tx_gso_size m ∧
    (Z.of_nat (ihl + doff) + tx_gso_size m ≤ Z.of_nat capacity →
     gso_segments (length p) (frame_of p ihl doff (Z.to_nat (tx_gso_size m))) capacity 0 = (ss, true) ∧
     Z.of_nat (length ss) = tx_segments m).
Proof.
  intros Hb Hu. unfold BuildTcpV4GsoHeader. destruct (TxGso_ParseTcpV4 _ _ _) as [v|] eqn:Ev; [|done]. case_if as Eh; [done|].
  intros [= <-]. apply tx_parse_inv in Ev as (Hg & Hp & Ehl & Hlt & En). size_props. rewrite Eh in *.
  set (ihl := ihl_of p) in *. set (doff := doff_of p ihl) in *. set (gso := Z.to_nat (tx_gso_size m)).
  exists ihl, doff, (gso_segments (length p) (frame_of p ihl doff gso) capacity 0).1. split_and!; [done|cbn; lia|done|].
  intros Hc. destruct (gso_segments_ok p ihl doff gso capacity (length p) 0) as (ss & Es & Hi & Hj); [done|done|uint_lia|uint_lia|lia|].
  cbn [Nat.mul] in Es. rewrite Es. split; [done|]. cbn [fst].
  rewrite (segments_count p ihl doff gso ss); [|done|uint_lia|split; [done|by rewrite Hj, Nat.mul_0_l, Nat.add_0_r]|uint_lia].
  replace (Z.of_nat gso) with (tx_gso_size m) by uint_lia. by rewrite <- Ehl.
Qed.

Definition sample_super : list Z :=
  [69; 0; 0; 45; 0; 7; 64; 0; 64; 6; 0; 0; 10; 0; 0; 1; 10; 0; 0; 2] ++
  [0; 80; 4; 0; 255; 255; 255; 254; 0; 0; 0; 9; 80; 24; 1; 0; 0; 0; 0; 0] ++ [1; 2; 3; 4; 5].
Definition sample_gso_frame : list Z := virtio_bytes (mkVirtio 1 1 40 2 20 16) ++ sample_super.

(** The segments of a frame whose sequence numbers wrap around. *)
Example sample_segments :
  match OnInput 10 (λ _, false) sample_gso_frame with
  | VnetPackets ss => map (λ s, (get32 (drop 24 s), byte_at s 33, drop 40 s)) ss =
      [(4294967294, 16, [1; 2]); (0, 16, [3; 4]); (2, 24, [5])]
  | _ => False
  end.
Proof. vm_compute. reflexivity. Qed.

Lemma sample_gso_bytes : bytes_ok sample_gso_frame.
Proof. decide_true. Qed.

Lemma vnet_input_exact_witness :
  match OnInput 10 (λ _, false) sample_gso_frame with VnetPackets ss => length ss = 3%nat | _ => False end ∧
  super_frame (virtio_load sample_gso_frame) (drop 10 sample_gso_frame) 20 20 ∧
  delivered_as (λ _, false) sample_gso_frame (OnInput 10 (λ _, false) sample_gso_frame).
Proof.
  split; [vm_compute; reflexivity|]. split.
  - unfold super_frame, tcp_checksum_at.
    assert (tcp4_ok (drop 10 sample_gso_frame) 20 20) by (constructor; try reflexivity; apply Nat.leb_le || apply Z.leb_le; reflexivity).
    do 5 (split; [first [reflexivity|apply Z.ltb_lt; reflexivity|apply Z.leb_le; reflexivity|apply Nat.ltb_lt; reflexivity]|]).
    split; [split; [reflexivity|split; reflexivity]|assumption].
  - refine (proj1 (vnet_input_exact (λ _, false) sample_gso_frame sample_gso_bytes) _). apply Nat.ltb_lt. reflexivity.
Defined.
