(* ===== verification/GsoCoalescer.v ===== *)
(** * The GSO coalescer of the TUN writer

    [linux/ppp/tap/TapGsoCoalescer.h]: consecutive TCP segments of one flow are held and written as one
    super-packet behind a virtio header, or one by one when the kernel refuses the super-packet.  The
    writer is a parameter: the number it returns for a frame may depend on all the frames before.  The
    arrays indexed by segment are one list of the held segments; the buffer of the super-packet is kept
    as bytes.  The events are those an installed observer sees, without the packet shapes, error numbers
    and clocks they carry for the log. *)
From S2P Require Import Prelude PacketChecksum PacketFrames PacketMss VnetCodec.

Definition kSegmentCap : nat := 32.
Definition kMaxSegmentCap : nat := 48.
Definition kMaxPacketBytes : nat := 1500.
Definition kHoldNs : Z := 100000.

(** [SegmentCap]: the number in [OPENPPP2_TAP_GSO_SEGMENTS], when set, and whether the throughput profile is on. *)
Definition SegmentCap (value : option Z) (profile : bool) : nat :=
  let fallback := if profile then kMaxSegmentCap else kSegmentCap in
  match value with
  | Some v => if (1 <=? v) && (v <=? Z.of_nat kMaxSegmentCap) then Z.to_nat v else fallback
  | None => fallback
  end.
(** [HoldNs]: the number in [OPENPPP2_TAP_GSO_HOLD_US], when set and a number. *)
Definition HoldNs (value : option Z) : Z :=
  match value with Some v => if (10 <=? v) && (v <=? 1000) then v * 1000 else kHoldNs | None => kHoldNs end.

Inductive WriteOutcome := WoNone | WoComplete | WoNegativeFailure | WoPartialDelivery.
Inductive RejectionReason := RejNone | RejIncompatible | RejPsh | RejControl | RejMtu.
Inductive FlushReason := FlExplicit | FlCap | FlTimeout | FlIncompatible | FlShortTail | FlPsh | FlControl | FlSsmt | FlTerminate.
Inductive GsoEventKind := EvEligiblePacket | EvRejectedPacket | EvOrdinaryWrite | EvGsoWrite | EvNegativeFallback.
#[global] Instance WriteOutcome_eq_dec : EqDecision WriteOutcome.
Proof. solve_decision. Defined.
#[global] Instance RejectionReason_eq_dec : EqDecision RejectionReason.
Proof. solve_decision. Defined.
#[global] Instance FlushReason_eq_dec : EqDecision FlushReason.
Proof. solve_decision. Defined.
#[global] Instance GsoEventKind_eq_dec : EqDecision GsoEventKind.
Proof. solve_decision. Defined.

Record PacketInfo := mkInfo { pi_ihl : nat; pi_doff : nat; pi_total : nat; pi_payload : nat; pi_seq : Z }.
Record GsoEvent := mkEvent {
  ge_kind : GsoEventKind;
  ge_rejection : RejectionReason;
  ge_reason : FlushReason;
  ge_outcome : WriteOutcome;
  ge_packet_bytes : nat;
  ge_payload_bytes : nat;
  ge_frame_bytes : nat;
  ge_segments : nat;
  ge_hold_ns : Z;
  ge_written_bytes : Z;
}.

(** The constants of an object: the cap, the switches and the writer. *)
Record GsoConfig := mkGsoConfig {
  cf_segment_cap : nat;
  cf_psh_boundary : bool;
  cf_retained_writev : bool;
  cf_vectored : bool;
  cf_hold_ns : Z;
  cf_writer : list (list Z * Z) → list Z → Z;
}.

(** What later segments are compared with. *)
Record MergeKey := mkKey {
  mk_ihl : nat;
  mk_doff : nat;
  mk_gso_size : nat;
  mk_tos : Z;
  mk_ttl : Z;
  mk_df : Z;
  mk_flow : list Z;
  mk_tcp_fixed : list Z;
  mk_ip_options : list Z;
  mk_tcp_options : list Z;
}.

(** A held segment; [ss_payload_ptr] is the payload in the packet that an owner keeps alive. *)
Record StoredSegment := mkStored {
  ss_header : list Z;
  ss_payload_size : nat;
  ss_payload_offset : nat;
  ss_tail : list Z;
  ss_packet_size : nat;
  ss_checksum_partial : bool;
  ss_checksum_start : nat;
  ss_payload_ptr : option (list Z);
}.

Record Coalescer := mkCoalescer {
  gc_enabled : bool;
  gc_key : MergeKey;
  gc_segments : list StoredSegment;
  gc_payload_total : nat;
  gc_pending_psh : bool;
  gc_started_ns : Z;
  gc_next_seq : Z;
  gc_superpacket : list Z;
  gc_last_write_outcome : WriteOutcome;
  gc_log : list (list Z * Z);    (** the frames written, with the writer's answers *)
  gc_events : list GsoEvent;
}.

Definition empty_key : MergeKey := mkKey 0 0 0 0 0 0 [] [] [] [].
Definition Coalescer_new (cf : GsoConfig) : Coalescer :=
  mkCoalescer true empty_key [] 0 false 0 0 (replicate (10 + cf_segment_cap cf * kMaxPacketBytes) 0) WoNone [] [].

Definition gc_count (c : Coalescer) : nat := length (gc_segments c).
Definition has_pending (c : Coalescer) : bool := negb (gc_count c =? 0)%nat.

(** ** Packets *)
Definition ParsePacket (packet : list Z) : option PacketInfo :=
  let size := length packet in
  if (size <? 1)%nat || negb (Z.shiftr (byte_at packet 0) 4 =? 4) then None else
  let ihl := ihl_of packet in
  if (ihl <? 20)%nat || (size <? ihl)%nat then None else
  let total := Z.to_nat (get16 (drop 2 packet)) in
  if (total <? ihl)%nat || (size <? total)%nat then None else
  if negb (Z.land (get16 (drop 6 packet)) 16383 =? 0) || negb (byte_at packet 9 =? 6) || (size <? ihl + 20)%nat then None else
  let doff := doff_of packet ihl in
  if (doff <? 20)%nat || (total - ihl <? doff)%nat then None else
  let payload := (total - ihl - doff)%nat in
  if (payload =? 0)%nat then None else Some (mkInfo ihl doff total payload (get32 (drop (ihl + 4) packet))).

Definition no_info : PacketInfo := mkInfo 0 0 0 0 0.
Definition ClassifyStrictV1 (packet : list Z) : RejectionReason * PacketInfo :=
  match ParsePacket packet with
  | None => (RejIncompatible, no_info)
  | Some info =>
      let flags := byte_at packet (pi_ihl info + 13) in
      if negb (Z.land flags 231 =? 0) then (RejControl, info)
      else (if (kMaxPacketBytes <? length packet)%nat then RejMtu else RejNone, info)
  end.

Definition FlushForRejection (reason : RejectionReason) : FlushReason :=
  match reason with RejPsh => FlPsh | RejControl => FlControl | _ => FlIncompatible end.

(** ** Writing *)
Section operations.
Context (cf : GsoConfig).

Definition Emit (c : Coalescer) (e : GsoEvent) : Coalescer :=
  mkCoalescer (gc_enabled c) (gc_key c) (gc_segments c) (gc_payload_total c) (gc_pending_psh c) (gc_started_ns c) (gc_next_seq c)
    (gc_superpacket c) (gc_last_write_outcome c) (gc_log c) (gc_events c ++ [e]).
Definition set_outcome (c : Coalescer) (o : WriteOutcome) (log : list (list Z * Z)) : Coalescer :=
  mkCoalescer (gc_enabled c) (gc_key c) (gc_segments c) (gc_payload_total c) (gc_pending_psh c) (gc_started_ns c) (gc_next_seq c)
    (gc_superpacket c) o log (gc_events c).
Definition set_buffer (c : Coalescer) (sp : list Z) : Coalescer :=
  mkCoalescer (gc_enabled c) (gc_key c) (gc_segments c) (gc_payload_total c) (gc_pending_psh c) (gc_started_ns c) (gc_next_seq c)
    sp (gc_last_write_outcome c) (gc_log c) (gc_events c).
Definition set_enabled (c : Coalescer) (b : bool) : Coalescer :=
  mkCoalescer b (gc_key c) (gc_segments c) (gc_payload_total c) (gc_pending_psh c) (gc_started_ns c) (gc_next_seq c)
    (gc_superpacket c) (gc_last_write_outcome c) (gc_log c) (gc_events c).
Definition set_psh (c : Coalescer) : Coalescer :=
  mkCoalescer (gc_enabled c) (gc_key c) (gc_segments c) (gc_payload_total c) true (gc_started_ns c) (gc_next_seq c)
    (gc_superpacket c) (gc_last_write_outcome c) (gc_log c) (gc_events c).

Definition write_outcome (written : Z) (size : nat) : WriteOutcome :=
  if written =? Z.of_nat size then WoComplete else if written <? 0 then WoNegativeFailure else WoPartialDelivery.
Definition WriteFrame (frame : list Z) (c : Coalescer) : WriteOutcome * Z * Coalescer :=
  let written := cf_writer cf (gc_log c) frame in
  let outcome := write_outcome written (length frame) in
  (outcome, written, set_outcome c outcome (gc_log c ++ [(frame, written)])).

Definition ordinary_header (partial : bool) (start : nat) : list Z :=
  virtio_bytes (if partial then mkVirtio VIRTIO_NET_HDR_F_NEEDS_CSUM 0 0 0 (wrap 16 (Z.of_nat start)) 16 else mkVirtio 0 0 0 0 0 0).

Definition is_complete (o : WriteOutcome) : bool := match o with WoComplete => true | _ => false end.

Definition WriteOrdinary (packet : list Z) (reason : FlushReason) (hold_ns : Z) (partial : bool) (c : Coalescer) : bool * Coalescer :=
  if (kMaxPacketBytes <? length packet)%nat then
    let c := set_outcome c WoNegativeFailure (gc_log c) in
    (false, Emit c (mkEvent EvOrdinaryWrite RejMtu reason WoNegativeFailure (length packet) 0 0 1 hold_ns 0))
  else
  let start := if partial then option_map pi_ihl (ParsePacket packet) else Some 0%nat in
  match start with
  | None => (false, c)
  | Some start =>
      let frame := ordinary_header partial start ++ packet in
      let '(outcome, written, c) := WriteFrame frame c in
      (is_complete outcome,
       Emit c (mkEvent EvOrdinaryWrite RejNone reason outcome (length packet) 0 (length frame) 1 hold_ns written))
  end.

(** Where the payload of a held segment is. *)
Definition source_payload (c : Coalescer) (s : StoredSegment) : list Z :=
  match ss_payload_ptr s with
  | Some bytes => bytes
  | None => sub (gc_superpacket c) (10 + mk_ihl (gc_key c) + mk_doff (gc_key c) + ss_payload_offset s) (ss_payload_size s)
  end.

Definition WriteOrdinaryStored (s : StoredSegment) (reason : FlushReason) (hold_ns : Z) (c : Coalescer) : bool * Coalescer :=
  let frame := ordinary_header (ss_checksum_partial s) (ss_checksum_start s) ++ ss_header s ++ source_payload c s ++ ss_tail s in
  let '(outcome, written, c) := WriteFrame frame c in
  (is_complete outcome,
   Emit c (mkEvent EvOrdinaryWrite RejNone reason outcome (ss_packet_size s) 0 (10 + ss_packet_size s) 1 hold_ns written)).

(** The loop over the retained originals, up to the first failure. *)
Fixpoint write_stored (ss : list StoredSegment) (reason : FlushReason) (hold_ns : Z) (c : Coalescer) : bool * Coalescer :=
  match ss with
  | [] => (true, c)
  | s :: ss =>
      let '(ok, c) := WriteOrdinaryStored s reason hold_ns c in
      if ok then write_stored ss reason hold_ns c else (false, c)
  end.

Definition HasRetainedOwners (c : Coalescer) : bool :=
  cf_retained_writev cf && cf_vectored cf && existsb (λ s, match ss_payload_ptr s with Some _ => true | None => false end) (gc_segments c).

(** [BuildGso]: the size of the frame and the buffer with its headers filled. *)
Definition BuildGso (c : Coalescer) : nat * list Z :=
  let k := gc_key c in
  let header := mkVirtio VIRTIO_NET_HDR_F_NEEDS_CSUM VIRTIO_NET_HDR_GSO_TCPV4 (wrap 16 (Z.of_nat (mk_ihl k + mk_doff k)))
                  (wrap 16 (Z.of_nat (mk_gso_size k))) (wrap 16 (Z.of_nat (mk_ihl k))) 16 in
  let ip := drop 10 (gc_superpacket c) in
  let flags := (mk_ihl k + 13)%nat in
  let ip := if gc_pending_psh c then patch ip flags [Z.lor (byte_at ip flags) 8] else ip in
  let ip := put16 ip 2 (wrap 16 (Z.of_nat (mk_ihl k + mk_doff k + gc_payload_total c))) in
  let ip := fill16 ip 10 (HeaderChecksum (mk_ihl k)) in
  let ip := put16 ip (mk_ihl k + 16) 0 in
  let partial := ChecksumSum (sub ip 12 8) 0 in
  let partial := ChecksumSum (tcp_pseudo (mk_doff k + gc_payload_total c)) partial in
  let ip := put16 ip (mk_ihl k + 16) (wrap 16 (Z.lnot (FoldChecksum partial))) in
  ((10 + mk_ihl k + mk_doff k + gc_payload_total c)%nat, virtio_bytes header ++ ip).

(** [BuildIovecs]: the headers, then each payload where it lies. *)
Definition BuildIovecs (c : Coalescer) : list (list Z) :=
  take (10 + mk_ihl (gc_key c) + mk_doff (gc_key c)) (gc_superpacket c) :: map (source_payload c) (gc_segments c).

Definition Gso_Reset (c : Coalescer) : Coalescer :=
  mkCoalescer (gc_enabled c) (gc_key c) [] 0 false (gc_started_ns c) (gc_next_seq c) (gc_superpacket c) (gc_last_write_outcome c)
    (gc_log c) (gc_events c).

Definition sum_sizes (f : StoredSegment → nat) (c : Coalescer) : nat := foldr (λ s n, f s + n)%nat 0%nat (gc_segments c).
Definition PendingPacketBytes : Coalescer → nat := sum_sizes ss_packet_size.
Definition PendingPayloadBytes : Coalescer → nat := sum_sizes ss_payload_size.

Definition Gso_Flush (reason : FlushReason) (now_ns : Z) (c : Coalescer) : bool * Coalescer :=
  match gc_segments c with
  | [] => (true, c)
  | first :: rest =>
      let hold_ns := if gc_started_ns c <=? now_ns then now_ns - gc_started_ns c else 0 in
      match rest with
      | [] => let '(ok, c) := WriteOrdinaryStored first reason hold_ns c in (ok, Gso_Reset c)
      | _ :: _ =>
          let '(size, sp) := BuildGso c in
          let c := set_buffer c sp in
          let frame := if HasRetainedOwners c then mjoin (BuildIovecs c) else take size (gc_superpacket c) in
          let '(outcome, written, c) := WriteFrame frame c in
          let c := Emit c (mkEvent EvGsoWrite RejNone reason outcome (PendingPacketBytes c) (PendingPayloadBytes c) size (gc_count c)
                             hold_ns written) in
          match outcome with
          | WoComplete => (true, Gso_Reset c)
          | WoPartialDelivery => (false, Gso_Reset (set_enabled c false))
          | _ =>
              let c := Emit (set_enabled c false) (mkEvent EvNegativeFallback RejNone reason outcome (PendingPacketBytes c)
                         (PendingPayloadBytes c) 0 (gc_count c) hold_ns 0) in
              let '(ok, c) := write_stored (gc_segments c) reason hold_ns c in (ok, Gso_Reset c)
          end
      end
  end.

(** ** Holding *)
Definition key_of (packet : list Z) (p : PacketInfo) : MergeKey :=
  let tcp := drop (pi_ihl p) packet in
  mkKey (pi_ihl p) (pi_doff p) (pi_payload p) (byte_at packet 1) (byte_at packet 8) (Z.land (byte_at packet 6) 64) (sub packet 12 8)
    (sub tcp 0 4 ++ sub tcp 8 4 ++ sub tcp 14 2 ++ sub tcp 18 2) (sub packet 20 (pi_ihl p - 20)) (sub tcp 20 (pi_doff p - 20)).

Definition same_bytes (a b : list Z) : bool := bool_decide (a = b).

Definition CanAppend (c : Coalescer) (packet : list Z) (p : PacketInfo) : bool :=
  let k := gc_key c in
  let tcp := drop (pi_ihl p) packet in
  if negb (same_bytes (sub packet 12 8) (mk_flow k)) || negb (same_bytes (sub tcp 0 4) (sub (mk_tcp_fixed k) 0 4)) then false else
  if negb (pi_seq p -[32] gc_next_seq c =? 0) || negb (same_bytes (sub tcp 8 4) (sub (mk_tcp_fixed k) 4 4)) ||
     negb (same_bytes (sub tcp 14 2) (sub (mk_tcp_fixed k) 8 2)) || negb (same_bytes (sub tcp 18 2) (sub (mk_tcp_fixed k) 10 2))
  then false else
  if negb (byte_at packet 1 =? mk_tos k) || negb (byte_at packet 8 =? mk_ttl k) || negb (Z.land (byte_at packet 6) 64 =? mk_df k) ||
     negb (pi_ihl p =? mk_ihl k)%nat || negb (pi_doff p =? mk_doff k)%nat then false else
  if negb (same_bytes (sub packet 20 (mk_ihl k - 20)) (mk_ip_options k)) ||
     negb (same_bytes (sub tcp 20 (mk_doff k - 20)) (mk_tcp_options k)) then false else
  if (mk_gso_size k <? pi_payload p)%nat then false else
  let aggregate_payload := (gc_count c * mk_gso_size k + pi_payload p)%nat in
  Z.of_nat (mk_ihl k + mk_doff k + aggregate_payload) <=? 65535.

(** [StoreSegment] at the end of the list; [owner] tells whether the packet comes with an owner, and its checksum state. *)
Definition StoreSegment (packet : list Z) (p : PacketInfo) (owner : option bool) (c : Coalescer) : Coalescer :=
  let header_size := (pi_ihl p + pi_doff p)%nat in
  let payload := sub packet header_size (pi_payload p) in
  let retained := match owner with Some _ => cf_retained_writev cf && cf_vectored cf | None => false end in
  let s := mkStored (take header_size packet) (pi_payload p) (gc_payload_total c) (drop (pi_total p) packet) (length packet)
             (default false owner) (pi_ihl p) (if retained then Some payload else None) in
  let sp := gc_superpacket c in
  let sp := if (gc_count c =? 0)%nat then patch sp 10 (take header_size packet) else sp in
  let sp := if retained then sp else patch sp (10 + header_size + gc_payload_total c) payload in
  mkCoalescer (gc_enabled c) (gc_key c) (gc_segments c ++ [s]) (gc_payload_total c + pi_payload p) (gc_pending_psh c) (gc_started_ns c)
    (pi_seq p +[32] Z.of_nat (pi_payload p)) sp (gc_last_write_outcome c) (gc_log c) (gc_events c).

Definition Gso_Start (packet : list Z) (p : PacketInfo) (owner : option bool) (now_ns : Z) (c : Coalescer) : Coalescer :=
  StoreSegment packet p owner
    (mkCoalescer (gc_enabled c) (key_of packet p) (gc_segments c) (gc_payload_total c) false now_ns (gc_next_seq c)
       (gc_superpacket c) (gc_last_write_outcome c) (gc_log c) (gc_events c)).
Definition Gso_Append (packet : list Z) (p : PacketInfo) (owner : option bool) (c : Coalescer) : Coalescer :=
  StoreSegment packet p owner c.

(** ** Operations *)
Definition expired (now_ns : Z) (c : Coalescer) : bool := cf_hold_ns cf <=? now_ns -[64] gc_started_ns c.

(** The part of [PushInternal] after the hold time was checked. *)
Definition push_classified (packet : list Z) (owner : option bool) (now_ns : Z) (c : Coalescer) : bool * Coalescer :=
  let partial := default false owner in
  let '(rejection, p) := ClassifyStrictV1 packet in
  let psh := match rejection with RejNone => negb (Z.land (byte_at packet (pi_ihl p + 13)) 8 =? 0) | _ => false end in
  let rejection := if psh && negb (cf_psh_boundary cf) then RejPsh else rejection in
  match rejection with
  | RejNone =>
      let c := Emit c (mkEvent EvEligiblePacket RejNone FlExplicit WoNone (length packet) (pi_payload p) 0 1 0 0) in
      let '(ok, c) := if has_pending c && negb (CanAppend c packet p) then Gso_Flush FlIncompatible now_ns c else (true, c) in
      if negb ok then (false, c) else
      let c := if has_pending c then Gso_Append packet p owner c else Gso_Start packet p owner now_ns c in
      if psh then Gso_Flush FlPsh now_ns (set_psh c)
      else if (pi_payload p <? mk_gso_size (gc_key c))%nat then Gso_Flush FlShortTail now_ns c
      else if (gc_count c =? cf_segment_cap cf)%nat then Gso_Flush FlCap now_ns c
      else (true, c)
  | _ =>
      let c := Emit c (mkEvent EvRejectedPacket rejection FlExplicit WoNone (length packet) 0 0 0 0 0) in
      let '(ok, c) := Gso_Flush (FlushForRejection rejection) now_ns c in
      if negb ok then (false, c) else WriteOrdinary packet FlExplicit 0 partial c
  end.

Definition PushInternal (packet : list Z) (owner : option bool) (now_ns : Z) (c : Coalescer) : bool * Coalescer :=
  match packet with
  | [] => (false, c)
  | _ =>
      if negb (gc_enabled c) then WriteOrdinary packet FlExplicit 0 (default false owner) c else
      let '(ok, c) := if has_pending c && expired now_ns c then Gso_Flush FlTimeout now_ns c else (true, c) in
      if negb ok then (false, c) else push_classified packet owner now_ns c
  end.

Definition Gso_Push (packet : list Z) (now_ns : Z) (c : Coalescer) : bool * Coalescer := PushInternal packet None now_ns c.
(** [owner]: none for an owner without a value, else its checksum state. *)
Definition Gso_PushOwned (packet : list Z) (owner : option bool) (now_ns : Z) (c : Coalescer) : bool * Coalescer :=
  match owner with None => (false, c) | Some _ => PushInternal packet owner now_ns c end.
Definition WriteOrdinaryFrame (packet : list Z) (partial : bool) (c : Coalescer) : bool * Coalescer :=
  WriteOrdinary packet FlExplicit 0 partial c.
Definition FlushExpired (now_ns : Z) (c : Coalescer) : bool * Coalescer :=
  if negb (has_pending c) || negb (expired now_ns c) then (true, c) else Gso_Flush FlTimeout now_ns c.
Definition DisableAndFlush (reason : FlushReason) (now_ns : Z) (c : Coalescer) : bool * Coalescer :=
  let '(ok, c) := if negb (gc_enabled c) then (true, c) else Gso_Flush reason now_ns c in (ok, set_enabled c false).
End operations.

(** ** Parsed packets *)
Record packet_ok (p : list Z) (i : PacketInfo) : Prop := {
  po_bytes : bytes_ok p;
  po_version : Z.shiftr (byte_at p 0) 4 = 4;
  po_ihl : ihl_of p = pi_ihl i;
  po_ihl_min : (20 ≤ pi_ihl i ≤ 60)%nat;
  po_total : get16 (drop 2 p) = Z.of_nat (pi_total i);
  po_fragment : Z.land (get16 (drop 6 p)) 16383 = 0;
  po_protocol : byte_at p 9 = 6;
  po_doff : doff_of p (pi_ihl i) = pi_doff i;
  po_doff_min : (20 ≤ pi_doff i ≤ 60)%nat;
  po_payload : (0 < pi_payload i)%nat;
  po_sum : pi_total i = (pi_ihl i + pi_doff i + pi_payload i)%nat;
  po_fits : (pi_total i ≤ length p)%nat;
  po_word : Z.of_nat (pi_total i) ≤ 65535;
  po_seq : pi_seq i = get32 (drop (pi_ihl i + 4) p);
}.

Lemma parse_packet_ok p i : bytes_ok p → ParsePacket p = Some i → packet_ok p i.
Proof.
  intros Hb. unfold ParsePacket. case_if as E1; [done|]. case_if as E2; [done|]. case_if as E3; [done|]. case_if as E4; [done|].
  case_if as E5; [done|]. case_if as E6; [done|]. intros [= <-]. size_props. pose proof (ihl_of_bound p Hb). pose proof (doff_of_bound p (ihl_of p) Hb).
  assert (is_uint 16 (get16 (drop 2 p))) as Hu by (apply get16_range; [by apply bytes_ok_drop|rewrite length_drop; lia]).
  constructor; cbn [pi_ihl pi_doff pi_total pi_payload pi_seq]; try done; uint_lia.
Qed.

(** ** What a segment keeps of a packet

    All bytes of the datagram but the identification, the fragment word other than its DF bit, both
    checksums, the reserved bits beside the data offset and the acknowledgement flag; the checksums of
    the segment verify. *)
Definition kept_byte (i : PacketInfo) (j : nat) : Prop :=
  (j < pi_total i)%nat ∧ j ∉ [4; 5; 6; 10; 11; pi_ihl i + 12; pi_ihl i + 13; pi_ihl i + 16; pi_ihl i + 17]%nat.

Record resegmented (p : list Z) (i : PacketInfo) (q : list Z) : Prop := {
  rs_parsed : ParsePacket p = Some i;
  rs_length : length q = pi_total i;
  rs_bytes : ∀ j, kept_byte i j → q !! j = p !! j;
  rs_df : Z.land (byte_at q 6) 64 = Z.land (byte_at p 6) 64;
  rs_offset : Z.shiftr (byte_at q (pi_ihl i + 12)) 4 = Z.shiftr (byte_at p (pi_ihl i + 12)) 4;
  rs_control : Z.land (byte_at q (pi_ihl i + 13)) 231 = Z.land (byte_at p (pi_ihl i + 13)) 231;
  rs_psh : Z.land (byte_at q (pi_ihl i + 13)) 8 = Z.land (byte_at p (pi_ihl i + 13)) 8;
  rs_header_sum : HeaderChecksum (pi_ihl i) q = 0;
  rs_tcp_sum : TcpChecksum (pi_ihl i) q = 0;
}.

(** The packets a frame brings to its reader, each with the place from which the reader has to fill a
    TCP checksum, if any.  A plain header brings the packet behind it; one that only asks for a TCP
    checksum brings it with that request; a super-packet that needs no checksum is taken as it is, and
    one that does is read by the input path of [VnetCodec], which cuts it and fills the checksums; any
    other header brings nothing. *)
Definition frame_packets (frame : list Z) : list (list Z * option Z) :=
  let h := virtio_load frame in
  if vh_gso_type h =? VIRTIO_NET_HDR_GSO_NONE then
    if negb ((vh_hdr_len h =? 0) && (vh_gso_size h =? 0)) then [] else
    if (vh_flags h =? 0) && (vh_csum_start h =? 0) && (vh_csum_offset h =? 0) then [(drop 10 frame, None)] else
    if (vh_flags h =? VIRTIO_NET_HDR_F_NEEDS_CSUM) && (vh_csum_offset h =? 16) then [(drop 10 frame, Some (vh_csum_start h))] else []
  else if vh_flags h =? 0 then [(drop 10 frame, None)] else
  match OnInput 10 (λ _, false) frame with VnetPackets ss => (λ s, (s, None)) <$> ss | _ => [] end.

(** A packet as it was pushed, marked when its TCP checksum is only partial, and what was brought for it:
    the same bytes, with the request to fill the checksum of its TCP header exactly when it was marked;
    or a segment cut from a super-packet, with nothing left to fill. *)
Definition same_segment (p : list Z * bool) (q : list Z * option Z) : Prop :=
  (p.1 = q.1 ∧ if p.2 then ∃ i, ParsePacket p.1 = Some i ∧ q.2 = Some (Z.of_nat (pi_ihl i)) else q.2 = None) ∨
  (∃ i, resegmented p.1 i q.1 ∧ q.2 = None).

(** ** The header of the super-packet *)

(** The writes of [BuildGso], with [v] in the TCP checksum field. *)
Definition merged_header (ihl total : nat) (psh : bool) (ip : list Z) (v : Z) : list Z :=
  let ip := if psh then patch ip (ihl + 13) [Z.lor (byte_at ip (ihl + 13)) 8] else ip in
  let ip := put16 ip 2 (wrap 16 (Z.of_nat total)) in
  let ip := fill16 ip 10 (HeaderChecksum ihl) in
  let ip := put16 ip (ihl + 16) 0 in
  put16 ip (ihl + 16) v.

Lemma BuildGso_merged c :
  let k := gc_key c in
  ∃ v, BuildGso c =
    ((10 + mk_ihl k + mk_doff k + gc_payload_total c)%nat,
     virtio_bytes (mkVirtio VIRTIO_NET_HDR_F_NEEDS_CSUM VIRTIO_NET_HDR_GSO_TCPV4 (wrap 16 (Z.of_nat (mk_ihl k + mk_doff k)))
       (wrap 16 (Z.of_nat (mk_gso_size k))) (wrap 16 (Z.of_nat (mk_ihl k))) 16) ++
     merged_header (mk_ihl k) (mk_ihl k + mk_doff k + gc_payload_total c) (gc_pending_psh c) (drop 10 (gc_superpacket c)) v).
Proof. eexists. reflexivity. Qed.

(** What the super-packet [big] has of the first packet and the payloads. *)
Record super_facts (p : list Z) (i : PacketInfo) (psh : bool) (payloads big : list Z) : Prop := {
  sf_length : length big = (pi_ihl i + pi_doff i + length payloads)%nat;
  sf_bytes : bytes_ok big;
  sf_parsed : tcp4_ok big (pi_ihl i) (pi_doff i);
  sf_header : ∀ a m, (a + m ≤ pi_ihl i + pi_doff i)%nat → (a + m ≤ 2 ∨ 4 ≤ a)%nat → (a + m ≤ 10 ∨ 12 ≤ a)%nat →
    (a + m ≤ pi_ihl i + 13 ∨ pi_ihl i + 14 ≤ a)%nat → (a + m ≤ pi_ihl i + 16 ∨ pi_ihl i + 18 ≤ a)%nat → sub big a m = sub p a m;
  sf_flags : byte_at big (pi_ihl i + 13) = if psh then Z.lor (byte_at p (pi_ihl i + 13)) 8 else byte_at p (pi_ihl i + 13);
  sf_payload : drop (pi_ihl i + pi_doff i) big = payloads;
}.
Section merged.
Context (p : list Z) (i : PacketInfo) (Hp : packet_ok p i).
Context (ip payloads : list Z) (psh : bool).
Let hs : nat := (pi_ihl i + pi_doff i)%nat.
Context (Hip : take hs ip = take hs p) (Hipb : bytes_ok ip) (Hipl : (hs ≤ length ip)%nat) (Hpl : bytes_ok payloads) (Hpl0 : (0 < length payloads)%nat)
  (Hfit : Z.of_nat (hs + length payloads) ≤ 65535).

Let ip1 : list Z := if psh then patch ip (pi_ihl i + 13) [Z.lor (byte_at ip (pi_ihl i + 13)) 8] else ip.
Let ip2 : list Z := put16 ip1 2 (wrap 16 (Z.of_nat (hs + length payloads))).
Let ip3 : list Z := fill16 ip2 10 (HeaderChecksum (pi_ihl i)).
Let ip4 : list Z := put16 ip3 (pi_ihl i + 16) 0.
Let ip5 (v : Z) : list Z := put16 ip4 (pi_ihl i + 16) v.

Lemma merged_sizes : (20 ≤ pi_ihl i ≤ 60)%nat ∧ (20 ≤ pi_doff i ≤ 60)%nat ∧ (hs < length p)%nat ∧ hs = (pi_ihl i + pi_doff i)%nat.
Proof. destruct Hp. unfold hs. lia. Qed.

Lemma merged_lengths v : length ip1 = length ip ∧ length ip2 = length ip ∧ length ip3 = length ip ∧ length ip4 = length ip ∧ length (ip5 v) = length ip.
Proof.
  pose proof merged_sizes as (S1 & S2 & S3 & S4).
  assert (length ip1 = length ip) as E1 by (unfold ip1; case psh; [rewrite length_patch; [done|cbn; lia]|done]).
  assert (length ip2 = length ip) as E2 by (unfold ip2; rewrite length_put16; lia).
  assert (length ip3 = length ip) as E3 by (unfold ip3; rewrite length_fill16; lia).
  assert (length ip4 = length ip) as E4 by (unfold ip4; rewrite length_put16; lia).
  split_and!; [done..|]. unfold ip5. rewrite length_put16; lia.
Qed.

Lemma merged_head a m : (a + m ≤ hs)%nat → sub ip a m = sub p a m.
Proof.
  intros. pose proof merged_sizes as (S1 & S2 & S3 & S4). apply list_eq. intros j.
  destruct (decide (j < m)%nat); [|unfold sub; by rewrite !lookup_take_ge by lia]. rewrite !sub_lookup by done.
  rewrite <- (lookup_take_lt ip hs), <- (lookup_take_lt p hs) by lia. by rewrite Hip.
Qed.

Lemma merged_sub v a m :
  (a + m ≤ hs)%nat → (a + m ≤ 2 ∨ 4 ≤ a)%nat → (a + m ≤ 10 ∨ 12 ≤ a)%nat → (a + m ≤ pi_ihl i + 13 ∨ pi_ihl i + 14 ≤ a)%nat →
  (a + m ≤ pi_ihl i + 16 ∨ pi_ihl i + 18 ≤ a)%nat → sub (ip5 v) a m = sub p a m.
Proof.
  intros. pose proof merged_sizes as (S1 & S2 & S3 & S4). pose proof (merged_lengths v) as (L1 & L2 & L3 & L4 & L5).
  unfold ip5. rewrite sub_put16_out by lia. unfold ip4. rewrite sub_put16_out by lia. unfold ip3. rewrite sub_fill16_out by lia.
  unfold ip2. rewrite sub_put16_out by lia. unfold ip1. case psh; [rewrite sub_patch_out by (cbn; lia)|]; by apply merged_head.
Qed.

Lemma merged_flags v : byte_at (ip5 v) (pi_ihl i + 13) = if psh then Z.lor (byte_at p (pi_ihl i + 13)) 8 else byte_at p (pi_ihl i + 13).
Proof.
  pose proof merged_sizes as (S1 & S2 & S3 & S4). pose proof (merged_lengths v) as (L1 & L2 & L3 & L4 & L5).
  rewrite byte_at_sub. unfold ip5. rewrite sub_put16_out by lia. unfold ip4. rewrite sub_put16_out by lia. unfold ip3. rewrite sub_fill16_out by lia.
  unfold ip2. rewrite sub_put16_out by lia. unfold ip1.
  assert (byte_at ip (pi_ihl i + 13) = byte_at p (pi_ihl i + 13)) as Ef by (by rewrite byte_at_sub, merged_head, <- byte_at_sub by lia).
  case psh; [rewrite (sub_patch_here ip _ [_]) by (cbn; lia); by rewrite Ef|by rewrite <- byte_at_sub].
Qed.

Lemma merged_total v : get16 (drop 2 (ip5 v)) = Z.of_nat (hs + length payloads).
Proof.
  pose proof merged_sizes as (S1 & S2 & S3 & S4). pose proof (merged_lengths v) as (L1 & L2 & L3 & L4 & L5).
  rewrite get16_sub. unfold ip5. rewrite sub_put16_out by lia. unfold ip4. rewrite sub_put16_out by lia. unfold ip3. rewrite sub_fill16_out by lia.
  unfold ip2, put16. rewrite (sub_patch_here ip1 2 (be_bytes 2 _)) by (rewrite length_be_bytes; lia).
  rewrite <- (app_nil_r (be_bytes _ _)), get16_be_bytes; [apply wrap_small; uint_lia|apply wrap_range; lia].
Qed.

Lemma merged_bytes v : bytes_ok (ip5 v).
Proof.
  pose proof merged_sizes as (S1 & S2 & S3 & S4). pose proof (merged_lengths v) as (L1 & L2 & L3 & L4 & L5).
  assert (bytes_ok ip1) as B1.
  { unfold ip1. case psh; [|done]. apply bytes_ok_patch; [done|]. apply Forall_cons; split; [|by apply Forall_nil].
    pose proof (byte_at_range ip (pi_ihl i + 13) Hipb) as [H1 H2]. split; [apply Z.lor_nonneg; lia|].
    change 256 with (2 ^ 8). destruct (Z.eq_dec (Z.lor (byte_at ip (pi_ihl i + 13)) 8) 0) as [->|Hn]; [lia|].
    apply Z.log2_lt_pow2; [|rewrite Z.log2_lor by lia]. { pose proof (Z.lor_nonneg (byte_at ip (pi_ihl i + 13)) 8). lia. }
    apply Z.max_lub_lt; [|done]. destruct (Z.eq_dec (byte_at ip (pi_ihl i + 13)) 0) as [->|]; [done|]. apply Z.log2_lt_pow2; lia. }
  apply bytes_ok_put16; [lia|]. apply bytes_ok_put16; [lia|]. apply bytes_ok_fill16; [lia|]. by apply bytes_ok_put16; [lia|].
Qed.

(** The super-packet: the header so written and the payloads. *)
Let super (v : Z) : list Z := take hs (ip5 v) ++ payloads.

Lemma super_length v : length (super v) = (hs + length payloads)%nat.
Proof. pose proof (merged_lengths v) as (L1 & L2 & L3 & L4 & L5). unfold super. rewrite length_app, length_take. lia. Qed.
Lemma super_sub v a m : (a + m ≤ hs)%nat → sub (super v) a m = sub (ip5 v) a m.
Proof.
  intros. pose proof (merged_lengths v) as (L1 & L2 & L3 & L4 & L5). apply list_eq. intros j.
  destruct (decide (j < m)%nat); [|unfold sub; by rewrite !lookup_take_ge by lia]. rewrite !sub_lookup by done. unfold super.
  rewrite lookup_app_l by (rewrite length_take; lia). by rewrite lookup_take_lt by lia.
Qed.
Lemma super_drop v : drop hs (super v) = payloads.
Proof. pose proof (merged_lengths v) as (L1 & L2 & L3 & L4 & L5). unfold super. rewrite drop_app_length'; [done|rewrite length_take; lia]. Qed.
Lemma super_bytes v : bytes_ok (super v).
Proof. unfold super. apply Forall_app. split; [apply bytes_ok_take, merged_bytes|done]. Qed.

Lemma super_parsed v : tcp4_ok (super v) (pi_ihl i) (pi_doff i).
Proof.
  pose proof merged_sizes as (S1 & S2 & S3 & S4). pose proof (super_length v) as Hl.
  assert (∀ k, (k < 2 ∨ 4 ≤ k < 10 ∨ k = pi_ihl i + 12)%nat → byte_at (super v) k = byte_at p k) as Eb.
  { intros k Hk. rewrite byte_at_sub, super_sub, merged_sub, <- byte_at_sub by lia. done. }
  constructor; try lia.
  - rewrite Eb by lia. apply Hp.
  - rewrite Eb by lia. apply Hp.
  - unfold ihl_of. rewrite Eb by lia. apply Hp.
  - rewrite get16_sub, super_sub, <- get16_sub, merged_total by lia. by rewrite Hl.
  - rewrite get16_sub, super_sub, merged_sub, <- get16_sub by lia. apply Hp.
  - unfold doff_of. rewrite Eb by lia. apply Hp.
Qed.

Lemma super_ok v : super_facts p i psh payloads (take hs (merged_header (pi_ihl i) (hs + length payloads) psh ip v) ++ payloads).
Proof.
  change (super_facts p i psh payloads (super v)). pose proof merged_sizes as (S1 & S2 & S3 & S4).
  constructor; [apply super_length|apply super_bytes|apply super_parsed| | |apply super_drop].
  - intros a m H1 H2 H3 H4 H5. rewrite super_sub by done. by apply merged_sub.
  - rewrite byte_at_sub, super_sub, <- byte_at_sub by lia. apply merged_flags.
Qed.
Lemma merged_tail v a m : (hs ≤ a)%nat → sub (merged_header (pi_ihl i) (hs + length payloads) psh ip v) a m = sub ip a m.
Proof.
  intros. change (sub (ip5 v) a m = sub ip a m). pose proof merged_sizes as (S1 & S2 & S3 & S4). pose proof (merged_lengths v) as (L1 & L2 & L3 & L4 & L5).
  unfold ip5. rewrite sub_put16_out by lia. unfold ip4. rewrite sub_put16_out by lia. unfold ip3. rewrite sub_fill16_out by lia.
  unfold ip2. rewrite sub_put16_out by lia. unfold ip1. case psh; [by rewrite sub_patch_out by (cbn; lia)|done].
Qed.
Lemma merged_length v : length (merged_header (pi_ihl i) (hs + length payloads) psh ip v) = length ip.
Proof. apply (merged_lengths v). Qed.
Lemma merged_header_bytes v : bytes_ok (merged_header (pi_ihl i) (hs + length payloads) psh ip v).
Proof. apply (merged_bytes v). Qed.
End merged.

(** ** Packets with one key *)
Lemma sub_eq_lookup p q a m j : sub p a m = sub q a m → (a ≤ j < a + m)%nat → p !! j = q !! j.
Proof.
  intros E Hj. replace j with (a + (j - a))%nat by lia. rewrite <- !(sub_lookup _ a m (j - a)) by lia. by rewrite E.
Qed.
Lemma byte_eq_lookup p q j : (j < length p)%nat → (j < length q)%nat → byte_at p j = byte_at q j → p !! j = q !! j.
Proof.
  intros Hp Hq. unfold byte_at. rewrite !nth_lookup. destruct (lookup_lt_is_Some_2 p j Hp) as [x Ex]. destruct (lookup_lt_is_Some_2 q j Hq) as [y Ey].
  rewrite Ex, Ey. cbn. by intros ->.
Qed.
Lemma lookup_eq_byte p q j : p !! j = q !! j → byte_at p j = byte_at q j.
Proof. intros E. unfold byte_at. by rewrite !nth_lookup, E. Qed.

Lemma byte0_value p i : packet_ok p i → byte_at p 0 = 64 + Z.of_nat (pi_ihl i) / 4.
Proof.
  intros Hp. pose proof (po_version _ _ Hp) as Hv. pose proof (po_ihl _ _ Hp) as Hi. unfold ihl_of in Hi. rewrite Z.shiftr_div_pow2 in Hv by lia.
  assert (Z.land (byte_at p 0) 15 = byte_at p 0 mod 16) as E by apply (Z.land_ones _ 4 ltac:(lia)). rewrite E in Hi.
  pose proof (Z.mod_pos_bound (byte_at p 0) 16 ltac:(lia)). pose proof (Z.div_mod (byte_at p 0) 16 ltac:(lia)). change (2 ^ 4) with 16 in Hv.
  rewrite <- Hi, Z2Nat.id, Z.div_mul by lia. lia.
Qed.

Lemma byte7_value p i : packet_ok p i → byte_at p 7 = 0.
Proof.
  intros Hp. pose proof (po_fragment _ _ Hp) as Hf. pose proof (po_bytes _ _ Hp) as Hb.
  assert (∀ x, Z.land x 16383 = x mod 16384) as E by (intros x; apply (Z.land_ones _ 14 ltac:(lia))). rewrite E in Hf.
  unfold get16 in Hf. rewrite (byte_at_sub (drop 6 p) 1) in Hf. unfold sub in Hf. rewrite drop_drop in Hf.
  change (take 1 (drop (6 + 1) p)) with (sub p 7 1) in Hf. rewrite <- byte_at_sub in Hf.
  pose proof (byte_at_range p 7 Hb) as H7. rewrite be16_add in Hf by done. set (b := byte_at (drop 6 p) 0) in *.
  pose proof (Z.div_mod (256 * b + byte_at p 7) 16384 ltac:(lia)) as D. unfold is_byte, is_uint in H7. lia.
Qed.

Definition key_with (k : MergeKey) (g : nat) : MergeKey :=
  mkKey (mk_ihl k) (mk_doff k) g (mk_tos k) (mk_ttl k) (mk_df k) (mk_flow k) (mk_tcp_fixed k) (mk_ip_options k) (mk_tcp_options k).

(** The header bytes that the key fixes. *)
Definition keyed_byte (ihl doff j : nat) : Prop :=
  (j < ihl + doff)%nat ∧
  j ∉ [2; 3; 4; 5; 6; 10; 11; ihl + 4; ihl + 5; ihl + 6; ihl + 7; ihl + 12; ihl + 13; ihl + 16; ihl + 17]%nat.

Section keyed.
Context (p p0 : list Z) (i i0 : PacketInfo) (Hp : packet_ok p i) (Hp0 : packet_ok p0 i0).
Context (g : nat) (Hk : key_with (key_of p i) g = key_with (key_of p0 i0) g).

Lemma keyed_sizes : pi_ihl i = pi_ihl i0 ∧ pi_doff i = pi_doff i0.
Proof. by injection Hk as -> ->. Qed.
Lemma keyed_df : Z.land (byte_at p 6) 64 = Z.land (byte_at p0 6) 64.
Proof. injection Hk; intros; done. Qed.
Lemma keyed_doff : Z.shiftr (byte_at p (pi_ihl i + 12)) 4 = Z.shiftr (byte_at p0 (pi_ihl i + 12)) 4.
Proof.
  destruct keyed_sizes as [Ei Ed]. pose proof (po_doff _ _ Hp) as D. pose proof (po_doff _ _ Hp0) as D0. rewrite Ed, <- D0, <- Ei in D.
  unfold doff_of in D.
  assert (∀ q, bytes_ok q → 0 ≤ Z.shiftr (byte_at q (pi_ihl i + 12)) 4) as Hn
    by (intros q Hq; pose proof (byte_at_range q (pi_ihl i + 12) Hq) as [H1 H2]; by apply Z.shiftr_nonneg).
  pose proof (Hn p (po_bytes _ _ Hp)). pose proof (Hn p0 (po_bytes _ _ Hp0)). lia.
Qed.

Lemma keyed_fields :
  sub p 12 8 = sub p0 12 8 ∧ sub p (pi_ihl i) 4 = sub p0 (pi_ihl i) 4 ∧ sub p (pi_ihl i + 8) 4 = sub p0 (pi_ihl i + 8) 4 ∧
  sub p (pi_ihl i + 14) 2 = sub p0 (pi_ihl i + 14) 2 ∧ sub p (pi_ihl i + 18) 2 = sub p0 (pi_ihl i + 18) 2 ∧
  sub p 20 (pi_ihl i - 20) = sub p0 20 (pi_ihl i - 20) ∧ sub p (pi_ihl i + 20) (pi_doff i - 20) = sub p0 (pi_ihl i + 20) (pi_doff i - 20).
Proof.
  destruct keyed_sizes as [Ei Ed]. pose proof Hk as Hk'. unfold key_with, key_of in Hk'. cbn in Hk'. rewrite <- Ei, <- Ed in Hk'.
  injection Hk' as _ _ _ Hf Ht Hio Hto.
  pose proof (po_ihl_min _ _ Hp). pose proof (po_doff_min _ _ Hp). pose proof (po_sum _ _ Hp). pose proof (po_sum _ _ Hp0).
  pose proof (po_fits _ _ Hp). pose proof (po_fits _ _ Hp0).
  assert (∀ q a m, sub (drop (pi_ihl i) q) a m = sub q (pi_ihl i + a) m) as Es by (intros; unfold sub; by rewrite drop_drop).
  rewrite !Es, Nat.add_0_r in *.
  apply app_inj_1 in Ht as [T1 Ht]; [|rewrite !length_sub; lia]. apply app_inj_1 in Ht as [T2 Ht]; [|rewrite !length_sub; lia].
  apply app_inj_1 in Ht as [T3 T4]; [|rewrite !length_sub; lia]. done.
Qed.

Lemma keyed_bytes j : keyed_byte (pi_ihl i) (pi_doff i) j → p !! j = p0 !! j.
Proof.
  intros [Hj Hn]. destruct keyed_sizes as [Ei Ed]. destruct keyed_fields as (F1 & F2 & F3 & F4 & F5 & F6 & F7).
  pose proof (po_ihl_min _ _ Hp). pose proof (po_doff_min _ _ Hp). pose proof (po_sum _ _ Hp). pose proof (po_sum _ _ Hp0).
  pose proof (po_fits _ _ Hp). pose proof (po_fits _ _ Hp0).
  rewrite !not_elem_of_cons in Hn. destruct_and! Hn.
  assert (j = 0 ∨ j = 1 ∨ j = 7 ∨ j = 8 ∨ j = 9 ∨ (12 ≤ j < 12 + 8) ∨ (20 ≤ j < 20 + (pi_ihl i - 20)) ∨ (pi_ihl i ≤ j < pi_ihl i + 4) ∨
    (pi_ihl i + 8 ≤ j < pi_ihl i + 8 + 4) ∨ (pi_ihl i + 14 ≤ j < pi_ihl i + 14 + 2) ∨ (pi_ihl i + 18 ≤ j < pi_ihl i + 18 + 2) ∨
    (pi_ihl i + 20 ≤ j < pi_ihl i + 20 + (pi_doff i - 20)))%nat as C by lia.
  destruct C as [->|[->|[->|[->|[->|C]]]]].
  1-5: apply byte_eq_lookup; [lia|lia|].
  - by rewrite (byte0_value p i), (byte0_value p0 i0), Ei.
  - by injection Hk.
  - by rewrite (byte7_value p i), (byte7_value p0 i0).
  - by injection Hk.
  - by rewrite (po_protocol _ _ Hp), (po_protocol _ _ Hp0).
  - destruct C as [C|[C|[C|[C|[C|[C|C]]]]]];
      [exact (sub_eq_lookup _ _ _ _ _ F1 C)|exact (sub_eq_lookup _ _ _ _ _ F6 C)|exact (sub_eq_lookup _ _ _ _ _ F2 C)|
       exact (sub_eq_lookup _ _ _ _ _ F3 C)|exact (sub_eq_lookup _ _ _ _ _ F4 C)|exact (sub_eq_lookup _ _ _ _ _ F5 C)|
       exact (sub_eq_lookup _ _ _ _ _ F7 C)].
Qed.
End keyed.

Lemma land_lor_8 x : Z.land (Z.lor x 8) 8 = 8.
Proof.
  rewrite Z.land_lor_distr_l. change (Z.land 8 8) with 8. apply Z.bits_inj'. intros k _. rewrite Z.lor_spec, Z.land_spec. destruct (Z.testbit 8 k), (Z.testbit x k); done.
Qed.

(** ** A segment of the super-packet is the packet it came from *)
Section resegment.
Context (p p0 : list Z) (i i0 : PacketInfo) (Hparse : ParsePacket p = Some i) (Hp : packet_ok p i) (Hp0 : packet_ok p0 i0).
Context (g : nat) (Hk : key_with (key_of p i) g = key_with (key_of p0 i0) g).
Let ihl : nat := pi_ihl i0.
Let doff : nat := pi_doff i0.
Context (big : list Z) (psh : bool) (Hbl : (ihl + doff < length big)%nat).
Context (Hbig : ∀ a m, (a + m ≤ ihl + doff)%nat → (a + m ≤ 2 ∨ 4 ≤ a)%nat → (a + m ≤ 10 ∨ 12 ≤ a)%nat → (a + m ≤ ihl + 13 ∨ ihl + 14 ≤ a)%nat →
  (a + m ≤ ihl + 16 ∨ ihl + 18 ≤ a)%nat → sub big a m = sub p0 a m).
Context (Hflags : byte_at big (ihl + 13) = if psh then Z.lor (byte_at p0 (ihl + 13)) 8 else byte_at p0 (ihl + 13)).
Context (Hpsh0 : Z.land (byte_at p0 (ihl + 13)) 8 = 0).
Context (Hctl0 : Z.land (byte_at p0 (ihl + 13)) 231 = 0) (Hctl : Z.land (byte_at p (ihl + 13)) 231 = 0).
Context (o : nat) (s : list Z) (Hs : segment_of big ihl doff g o s) (Ho : (o < length big - (ihl + doff))%nat).
Context (Hpay : sub big (ihl + doff + o) g = sub p (ihl + doff) (pi_payload i)).
Context (Hsize : Nat.min g (length big - (ihl + doff) - o) = pi_payload i).
Context (Hseq : pi_seq i = pi_seq i0 +[32] Z.of_nat o).
Context (Hpsh : Z.land (byte_at p (ihl + 13)) 8 = if (o + g <? length big - (ihl + doff))%nat then 0 else if psh then 8 else 0).

Lemma reseg_sizes : pi_ihl i = ihl ∧ pi_doff i = doff ∧ (20 ≤ ihl ≤ 60)%nat ∧ (20 ≤ doff ≤ 60)%nat ∧
  pi_total i = (ihl + doff + pi_payload i)%nat ∧ (pi_total i ≤ length p)%nat ∧ (ihl + doff < length p0)%nat ∧ length s = pi_total i.
Proof.
  destruct (keyed_sizes p p0 i i0 g Hk) as [Ei Ed]. pose proof (sg_length _ _ _ _ _ _ Hs) as Hl. rewrite Hsize in Hl.
  destruct Hp, Hp0. fold ihl in Ei. fold doff in Ed. unfold ihl, doff in *. lia.
Qed.

Lemma reseg_header a m : header_kept ihl (ihl + doff) a m → sub s a m = sub p0 a m.
Proof.
  intros H. pose proof reseg_sizes as (S1 & S2 & S3 & S4 & S5 & S6 & S7 & S8). rewrite (sg_header _ _ _ _ _ _ Hs a m H).
  unfold header_kept in H. apply Hbig; lia.
Qed.

Lemma reseg_total : sub s 2 2 = sub p 2 2.
Proof.
  pose proof reseg_sizes as (S1 & S2 & S3 & S4 & S5 & S6 & S7 & S8).
  rewrite <- !be_bytes_get16_sub; [|apply Hp|lia|apply (sg_bytes _ _ _ _ _ _ Hs)|lia].
  rewrite (sg_total _ _ _ _ _ _ Hs), (po_total _ _ Hp). by rewrite S8.
Qed.
Lemma reseg_seq : sub s (ihl + 4) 4 = sub p (ihl + 4) 4.
Proof.
  pose proof reseg_sizes as (S1 & S2 & S3 & S4 & S5 & S6 & S7 & S8).
  rewrite (sg_sequence _ _ _ _ _ _ Hs). rewrite <- (be_bytes_get32_sub p); [|apply Hp|lia]. rewrite <- S1 at 2. rewrite <- (po_seq _ _ Hp), Hseq.
  rewrite get32_sub, Hbig, <- get32_sub by lia. by rewrite (po_seq _ _ Hp0).
Qed.

Lemma reseg_bytes j : kept_byte i j → s !! j = p !! j.
Proof.
  intros [Hj Hn]. pose proof reseg_sizes as (S1 & S2 & S3 & S4 & S5 & S6 & S7 & S8). rewrite S1 in Hn. rewrite !not_elem_of_cons in Hn.
  destruct_and! Hn.
  destruct (decide (ihl + doff ≤ j)%nat) as [Hpj|Hpj].
  { replace j with (ihl + doff + (j - (ihl + doff)))%nat by lia. rewrite <- lookup_drop, (sg_payload _ _ _ _ _ _ Hs), Hpay.
    rewrite sub_lookup by lia. done. }
  destruct (decide (2 ≤ j < 4)%nat) as [A2|A2]; [apply (sub_eq_lookup _ _ 2 2); [apply reseg_total|lia]|].
  destruct (decide (ihl + 4 ≤ j < ihl + 8)%nat) as [A4|A4]; [apply (sub_eq_lookup _ _ (ihl + 4) 4); [apply reseg_seq|lia]|].
  rewrite (keyed_bytes p p0 i i0 Hp Hp0 g Hk j).
  - apply (sub_eq_lookup _ _ j 1); [|lia]. apply reseg_header. unfold header_kept. lia.
  - rewrite S1, S2. split; [lia|]. rewrite !not_elem_of_cons. split_and!; try lia. apply not_elem_of_nil.
Qed.

Lemma reseg_psh : Z.land (byte_at s (ihl + 13)) 8 = Z.land (byte_at p (ihl + 13)) 8.
Proof.
  rewrite Hpsh, (sg_flags _ _ _ _ _ _ Hs). destruct (o + g <? _)%nat.
  - rewrite <- Z.land_assoc. change (Z.land 247 8) with 0. apply Z.land_0_r.
  - rewrite Hflags. destruct psh; [apply land_lor_8|done].
Qed.

Lemma reseg_control : Z.land (byte_at s (ihl + 13)) 231 = Z.land (byte_at p (ihl + 13)) 231.
Proof.
  rewrite Hctl, (sg_flags _ _ _ _ _ _ Hs).
  assert (Z.land (byte_at big (ihl + 13)) 231 = 0) as Hb.
  { rewrite Hflags. destruct psh; [|done]. by rewrite Z.land_lor_distr_l, Hctl0. }
  destruct (o + g <? _)%nat; [|done]. by rewrite <- Z.land_assoc.
Qed.

Lemma resegment_ok : resegmented p i s.
Proof.
  pose proof reseg_sizes as (S1 & S2 & S3 & S4 & S5 & S6 & S7 & S8). constructor; try done.
  - apply reseg_bytes.
  - rewrite (keyed_df p p0 i i0 g Hk). rewrite byte_at_sub, reseg_header, <- byte_at_sub; [done|]. unfold header_kept. lia.
  - rewrite (keyed_doff p p0 i i0 Hp Hp0 g Hk). rewrite S1.
    rewrite byte_at_sub, reseg_header, <- byte_at_sub; [done|]. unfold header_kept. lia.
  - rewrite S1. apply reseg_control.
  - rewrite S1. apply reseg_psh.
  - rewrite S1. apply (sg_header_sum _ _ _ _ _ _ Hs).
  - rewrite S1. apply (sg_tcp_sum _ _ _ _ _ _ Hs).
Qed.
End resegment.
