(* ===== verification/GsoDelivery.v ===== *)
(** * What the coalescer delivers

    The frames that [GsoCoalescer] writes, read by the input path of [VnetCodec], bring the packets that
    were pushed, in their order, none twice, and all of them as long as every call succeeds. *)
From S2P Require Import Prelude PacketChecksum PacketFrames PacketMss VnetCodec GsoCoalescer.

(** ** Chunks of one size *)
Section chunks.
Context (g : nat).
Definition chunked (pls : list (list Z)) : Prop :=
  (∀ k x, pls !! k = Some x → (S k < length pls)%nat → length x = g) ∧ Forall (λ x, 0 < length x ≤ g)%nat pls.

Lemma chunked_tail x pls : chunked (x :: pls) → chunked pls.
Proof.
  intros [H1 H2]. split; [|by apply Forall_inv_tail in H2]. intros k y Hk Hl. apply (H1 (S k) y Hk). cbn. lia.
Qed.

Lemma chunk_lookup pls j x :
  chunked pls → pls !! j = Some x →
  sub (mjoin pls) (j * g) g = x ∧ Nat.min g (length (mjoin pls) - j * g) = length x ∧ (j * g < length (mjoin pls))%nat ∧
  ((j * g + g <? length (mjoin pls))%nat = (S j <? length pls)%nat).
Proof.
  revert j. induction pls as [|y pls IH]; intros j Hc Hj; [done|]. pose proof Hc as [H1 H2]. apply Forall_cons in H2 as [Hy H2].
  rewrite mjoin_cons, length_app. destruct j as [|j].
  - injection Hj as ->. rewrite Nat.mul_0_l, Nat.add_0_l. unfold sub. rewrite drop_0.
    destruct pls as [|z pls].
    + change (mjoin []) with (@nil Z). rewrite app_nil_r. cbn [length]. split_and!; [by rewrite take_ge by lia|lia|lia|].
      destruct (Nat.ltb_spec g (length x + 0)); [lia|done].
    + assert (length x = g) as Hx by (apply (H1 0%nat); [done|cbn; lia]). apply Forall_cons in H2 as [Hz _].
      rewrite mjoin_cons, length_app. rewrite take_app_length' by done. split_and!; [done|lia|lia|].
      rewrite !(proj2 (Nat.ltb_lt _ _)); [done|cbn; lia|lia].
  - cbn [lookup list_lookup] in Hj. assert (length y = g) as Hg.
    { apply (H1 0%nat); [done|]. apply lookup_lt_Some in Hj. cbn. lia. }
    destruct (IH j (chunked_tail _ _ Hc) Hj) as (E1 & E2 & E3 & E4).
    replace (S j * g)%nat with (length y + j * g)%nat by lia. split_and!.
    + unfold sub. rewrite <- drop_drop, drop_app_length. exact E1.
    + rewrite <- E2. f_equal. lia.
    + lia.
    + cbn [length]. replace (S (S j) <? S (length pls))%nat with (S j <? length pls)%nat by done. rewrite <- E4.
      destruct (Nat.ltb_spec (j * g + g) (length (mjoin pls))), (Nat.ltb_spec (length y + j * g + g) (length y + length (mjoin pls))); lia || done.
Qed.
End chunks.

(** ** The held packets *)
Record eligible (p : list Z) (i : PacketInfo) : Prop := {
  el_parsed : ParsePacket p = Some i;
  el_ok : packet_ok p i;
  el_size : (length p ≤ kMaxPacketBytes)%nat;
  el_control : Z.land (byte_at p (pi_ihl i + 13)) 231 = 0;
}.
Definition psh_of (p : list Z) (i : PacketInfo) : bool := negb (Z.land (byte_at p (pi_ihl i + 13)) 8 =? 0).
Definition tcp_payload (p : list Z) (i : PacketInfo) : list Z := sub p (pi_ihl i + pi_doff i) (pi_payload i).

Lemma length_payload p i : packet_ok p i → length (tcp_payload p i) = pi_payload i.
Proof. intros [? ? ? ? ? ? ? ? ? ? Hs Hf ? ?]. unfold tcp_payload. apply length_sub. lia. Qed.
Lemma datagram_parts p i : packet_ok p i → take (pi_ihl i + pi_doff i) p ++ tcp_payload p i ++ drop (pi_total i) p = p.
Proof.
  intros [? ? ? ? ? ? ? ? ? ? Hs Hf ? ?]. unfold tcp_payload, sub. rewrite Hs, <- (drop_drop p (pi_payload i) (pi_ihl i + pi_doff i)), take_drop. apply take_drop.
Qed.

Fixpoint offsets_from (n : nat) (ss : list StoredSegment) : Prop :=
  match ss with [] => True | s :: ss => ss_payload_offset s = n ∧ offsets_from (n + ss_payload_size s) ss end.

Lemma offsets_app n ss s :
  offsets_from n ss → ss_payload_offset s = (n + foldr (λ s n, ss_payload_size s + n) 0 ss)%nat → offsets_from n (ss ++ [s]).
Proof.
  revert n. induction ss as [|t ss IH]; intros n; cbn [offsets_from app foldr].
  - intros _ ->. split; [lia|done].
  - intros [H1 H2] H3. split; [done|]. apply IH; [done|lia].
Qed.

Section held.
Context (cf : GsoConfig).
(** A packet with its mark and what was parsed of it. *)
Abbreviation pkt := (list Z * bool * PacketInfo)%type.

Record stored (sp : list Z) (hs : nat) (pk : pkt) (s : StoredSegment) : Prop := {
  st_header : ss_header s = take (pi_ihl pk.2 + pi_doff pk.2) pk.1.1;
  st_payload_size : ss_payload_size s = pi_payload pk.2;
  st_tail : ss_tail s = drop (pi_total pk.2) pk.1.1;
  st_packet_size : ss_packet_size s = length pk.1.1;
  st_source : match ss_payload_ptr s with Some b => b | None => sub sp (10 + hs + ss_payload_offset s) (ss_payload_size s) end =
    tcp_payload pk.1.1 pk.2;
  st_partial : ss_checksum_partial s = pk.1.2;
  st_start : ss_checksum_start s = pi_ihl pk.2;
  st_retained : is_Some (ss_payload_ptr s) → cf_retained_writev cf && cf_vectored cf = true;
}.

Definition held_header (c : Coalescer) : nat := (mk_ihl (gc_key c) + mk_doff (gc_key c))%nat.
Definition buffer_ok (c : Coalescer) : Prop :=
  length (gc_superpacket c) = (10 + cf_segment_cap cf * kMaxPacketBytes)%nat ∧ bytes_ok (gc_superpacket c).
Definition total_payload (ps : list pkt) : nat := foldr (λ pk n, pi_payload pk.2 + n)%nat 0%nat ps.

Record held (c : Coalescer) (ps : list pkt) : Prop := {
  hd_eligible : Forall (λ pk, eligible pk.1.1 pk.2) ps;
  hd_stored : Forall2 (stored (gc_superpacket c) (held_header c)) ps (gc_segments c);
  hd_key : Forall (λ pk, key_with (key_of pk.1.1 pk.2) (mk_gso_size (gc_key c)) = gc_key c ∧ pi_payload pk.2 ≤ mk_gso_size (gc_key c))%nat ps;
  hd_head : ∀ p i, ps !! 0%nat = Some (p, i) →
    take (held_header c) (drop 10 (gc_superpacket c)) = take (held_header c) p.1 ∧ mk_gso_size (gc_key c) = pi_payload i;
  hd_full : ∀ j p i, ps !! j = Some (p, i) → (S j < length ps)%nat → pi_payload i = mk_gso_size (gc_key c) ∧ psh_of p.1 i = false;
  hd_offsets : offsets_from 0 (gc_segments c);
  hd_seq : ∀ j p i p0 i0, ps !! j = Some (p, i) → ps !! 0%nat = Some (p0, i0) →
    pi_seq i = pi_seq i0 +[32] Z.of_nat (j * mk_gso_size (gc_key c));
  hd_next : ∀ p i, last ps = Some (p, i) → gc_next_seq c = pi_seq i +[32] Z.of_nat (pi_payload i);
  hd_total : gc_payload_total c = total_payload ps;
  hd_count : (length ps ≤ cf_segment_cap cf)%nat;
  hd_fit : ps ≠ [] → Z.of_nat (held_header c + gc_payload_total c) ≤ 65535;
  hd_buffer : buffer_ok c;
}.

(** Between two calls every held segment is full and has no push flag. *)
Record stable (c : Coalescer) (ps : list pkt) : Prop := {
  sb_held : held c ps;
  sb_full : Forall (λ pk, pi_payload pk.2 = mk_gso_size (gc_key c) ∧ psh_of pk.1.1 pk.2 = false) ps;
  sb_room : (length ps < cf_segment_cap cf)%nat;
  sb_psh : gc_pending_psh c = false;
}.

Lemma key_sizes (k : MergeKey) g p i : key_with (key_of p i) g = k → pi_ihl i = mk_ihl k ∧ pi_doff i = mk_doff k.
Proof. by intros <-. Qed.

Lemma offsets_inside n ss s j :
  offsets_from n ss → ss !! j = Some s →
  (n ≤ ss_payload_offset s ∧ ss_payload_offset s + ss_payload_size s ≤ n + foldr (λ s n, ss_payload_size s + n) 0 ss)%nat.
Proof.
  revert n j. induction ss as [|t ss IH]; intros n j; [done|]. cbn [offsets_from foldr]. intros [H1 H2] Hj. destruct j as [|j].
  - injection Hj as ->. lia.
  - destruct (IH _ _ H2 Hj). lia.
Qed.

Lemma stored_total sp hs ps ss :
  Forall2 (stored sp hs) ps ss → foldr (λ s n, ss_payload_size s + n)%nat 0%nat ss = total_payload ps.
Proof. induction 1 as [|pk s ps ss H _ IH]; [done|]. cbn [foldr total_payload]. rewrite (st_payload_size _ _ _ _ H). by rewrite IH. Qed.

Lemma full_total g ps : Forall (λ pk : pkt, pi_payload pk.2 = g ∧ psh_of pk.1.1 pk.2 = false) ps → total_payload ps = (length ps * g)%nat.
Proof. induction 1 as [|pk ps [H _] _ IH]; [done|]. cbn [total_payload foldr length]. unfold total_payload in IH. rewrite IH, H. lia. Qed.

Lemma total_payload_app ps pk : total_payload (ps ++ [pk]) = (total_payload ps + pi_payload pk.2)%nat.
Proof. induction ps as [|q ps IH]; cbn [app total_payload foldr]; [lia|]. unfold total_payload in IH. rewrite IH. lia. Qed.

(** A buffer that keeps the payload regions keeps the stored segments. *)
Lemma stored_buffer sp sp' hs n ps ss :
  (∀ a m, (10 + hs ≤ a)%nat → (a + m ≤ 10 + hs + n)%nat → sub sp' a m = sub sp a m) →
  Forall2 (stored sp hs) ps ss → offsets_from 0 ss → (foldr (λ s n, ss_payload_size s + n) 0 ss ≤ n)%nat → Forall2 (stored sp' hs) ps ss.
Proof.
  intros He Hs Ho Hn. apply Forall2_same_length_lookup_2; [by eapply Forall2_length|]. intros j pk s Hp Hj.
  pose proof (Forall2_lookup_lr _ _ _ _ _ _ Hs Hp Hj) as [H1 H2 H3 H4 H5 H6 H7 H8]. destruct (offsets_inside _ _ _ _ Ho Hj) as [_ Hi].
  constructor; try done. destruct (ss_payload_ptr s); [done|]. rewrite He; [done|lia|lia].
Qed.

Section store.
Context (c : Coalescer) (ps : list pkt) (p : list Z) (i : PacketInfo) (owner : option bool).
Context (Hh : held c ps) (Hfull : Forall (λ pk, pi_payload pk.2 = mk_gso_size (gc_key c) ∧ psh_of pk.1.1 pk.2 = false) ps).
Context (Hroom : (length ps < cf_segment_cap cf)%nat) (He : eligible p i).
Context (Hkey : key_with (key_of p i) (mk_gso_size (gc_key c)) = gc_key c) (Hle : (pi_payload i ≤ mk_gso_size (gc_key c))%nat).
Context (Hfirst : ps = [] → mk_gso_size (gc_key c) = pi_payload i) (Hseq : ps ≠ [] → pi_seq i = gc_next_seq c).
Context (Hfit : Z.of_nat (held_header c + (length ps * mk_gso_size (gc_key c) + pi_payload i)) ≤ 65535).
Let c' : Coalescer := StoreSegment cf p i owner c.
Let g : nat := mk_gso_size (gc_key c).

Lemma store_sizes :
  (pi_ihl i + pi_doff i = held_header c ∧ held_header c + g ≤ kMaxPacketBytes ∧ held_header c + pi_payload i ≤ kMaxPacketBytes ∧
   gc_payload_total c = length ps * g ∧
   10 + held_header c + gc_payload_total c + pi_payload i ≤ length (gc_superpacket c) ∧ gc_count c = length ps)%nat.
Proof.
  destruct (key_sizes _ _ _ _ Hkey) as [Ei Ed]. pose proof (po_sum _ _ (el_ok _ _ He)) as Hs. pose proof (po_fits _ _ (el_ok _ _ He)) as Hf.
  pose proof (el_size _ _ He) as Hz. assert (pi_ihl i + pi_doff i = held_header c)%nat as E by (unfold held_header; lia).
  assert (held_header c + g ≤ kMaxPacketBytes)%nat as E2.
  { destruct ps as [|[p0 i0] ps'] eqn:Eps; [rewrite Hfirst in * by done; unfold g; rewrite Hfirst by done; lia|].
    pose proof (hd_head _ _ Hh p0 i0 eq_refl) as [_ Eg]. pose proof (hd_eligible _ _ Hh) as Hel. apply Forall_cons in Hel as [[_ Hok Hsz] _].
    pose proof (hd_key _ _ Hh) as Hks. apply Forall_cons in Hks as [[Hk0 _] _]. destruct (key_sizes _ _ _ _ Hk0) as [Ei0 Ed0]. cbn in *.
    unfold g. rewrite Eg. unfold held_header. rewrite <- Ei0, <- Ed0. pose proof (po_sum _ _ Hok). pose proof (po_fits _ _ Hok). lia. }
  assert (gc_payload_total c = length ps * g)%nat as E3 by (rewrite (hd_total _ _ Hh); by apply full_total).
  split_and!; [done|done|lia|done| |].
  - rewrite (proj1 (hd_buffer _ _ Hh)), E3. fold g in Hle. clear -E2 Hroom Hle. nia.
  - unfold gc_count. symmetry. eapply Forall2_length, (hd_stored _ _ Hh).
Qed.

Lemma store_payload_length : length (tcp_payload p i) = pi_payload i.
Proof. apply length_payload, He. Qed.
Lemma store_header_length : length (take (pi_ihl i + pi_doff i) p) = held_header c.
Proof.
  destruct store_sizes as (S1 & _). rewrite length_take, S1. pose proof (po_sum _ _ (el_ok _ _ He)). pose proof (po_fits _ _ (el_ok _ _ He)). lia.
Qed.

(** The buffer with the header of a first segment. *)
Let sp1 : list Z := if (gc_count c =? 0)%nat then patch (gc_superpacket c) 10 (take (pi_ihl i + pi_doff i) p) else gc_superpacket c.
Lemma store_buffer1 : length sp1 = length (gc_superpacket c) ∧ bytes_ok sp1 ∧
  sub sp1 10 (held_header c) = sub (if (gc_count c =? 0)%nat then replicate 10 0 ++ p else gc_superpacket c) 10 (held_header c) ∧
  (ps ≠ [] → sp1 = gc_superpacket c).
Proof.
  destruct store_sizes as (S1 & S2 & S3 & S4 & S5 & S6). pose proof store_header_length as Lh. pose proof (hd_buffer _ _ Hh) as [Hl Hb].
  unfold sp1. destruct (Nat.eqb_spec (gc_count c) 0) as [E|E].
  - split_and!; [apply length_patch; lia|apply bytes_ok_patch; [done|apply bytes_ok_take, (el_ok _ _ He)]| |].
    + rewrite <- Lh at 1. rewrite sub_patch_here by lia. rewrite sub_skip by (rewrite length_replicate; lia). rewrite length_replicate, Nat.sub_diag.
      unfold sub. by rewrite S1, drop_0.
    + intros Hn. destruct ps; [done|cbn in *; lia].
  - done.
Qed.

Lemma store_buffer :
  let sp' := gc_superpacket c' in
  length sp' = length (gc_superpacket c) ∧ bytes_ok sp' ∧ sub sp' 10 (held_header c) = sub sp1 10 (held_header c) ∧
  (∀ a m, (10 + held_header c ≤ a)%nat → (a + m ≤ 10 + held_header c + gc_payload_total c)%nat → sub sp' a m = sub sp1 a m).
Proof.
  destruct store_sizes as (S1 & S2 & S3 & S4 & S5 & S6). pose proof store_payload_length as Lp. destruct store_buffer1 as (L1 & B1 & _).
  cbv zeta. unfold c', StoreSegment. cbn [gc_superpacket]. fold sp1. fold (tcp_payload p i).
  case_match; [done|]. rewrite S1. split_and!.
  - rewrite <- L1. apply length_patch. lia.
  - apply bytes_ok_patch; [done|]. apply bytes_ok_sub, (el_ok _ _ He).
  - apply sub_patch_out; lia.
  - intros a m Ha Hm. apply sub_patch_out; lia.
Qed.

Lemma store_segment_stored :
  stored (gc_superpacket c') (held_header c) (p, default false owner, i)
    (mkStored (take (pi_ihl i + pi_doff i) p) (pi_payload i) (gc_payload_total c) (drop (pi_total i) p) (length p) (default false owner) (pi_ihl i)
       (if match owner with Some _ => cf_retained_writev cf && cf_vectored cf | None => false end then Some (tcp_payload p i) else None)).
Proof.
  destruct store_sizes as (S1 & S2 & S3 & S4 & S5 & S6). pose proof store_payload_length as Lp. destruct store_buffer1 as (L1 & _).
  constructor; try done; cbn [fst snd ss_payload_ptr ss_payload_offset ss_payload_size].
  - unfold c', StoreSegment. cbn [gc_superpacket]. fold sp1. fold (tcp_payload p i). set (retained := match owner with Some _ => _ | None => _ end).
    destruct retained; [done|]. rewrite S1. rewrite <- Lp. apply sub_patch_here. lia.
  - intros [b Hb]. destruct owner; [|done]. by destruct (cf_retained_writev cf && cf_vectored cf).
Qed.

Lemma store_held : held c' (ps ++ [(p, default false owner, i)]).
Proof.
  destruct store_sizes as (S1 & S2 & S3 & S4 & S5 & S6). destruct store_buffer1 as (L1 & B1 & H1 & U1).
  destruct store_buffer as (L2 & B2 & H2 & U2).
  assert (gc_key c' = gc_key c ∧ held_header c' = held_header c ∧ gc_payload_total c' = (gc_payload_total c + pi_payload i)%nat) as (K1 & K2 & K3) by done.
  constructor; rewrite ?K1, ?K2.
  - apply Forall_app. split; [apply (hd_eligible _ _ Hh)|by apply Forall_singleton].
  - unfold c' at 2. unfold StoreSegment. cbn [gc_segments]. apply Forall2_app; [|constructor; [apply store_segment_stored|constructor]].
    destruct (decide (ps = [])) as [->|Hn].
    { pose proof (hd_stored _ _ Hh) as Hst. apply Forall2_nil_inv_l in Hst. rewrite Hst. constructor. }
    apply (stored_buffer (gc_superpacket c) _ _ (gc_payload_total c)); [|apply (hd_stored _ _ Hh)|apply (hd_offsets _ _ Hh)|].
    { intros a m Ha Hm. rewrite U2 by lia. by rewrite U1. }
    rewrite (stored_total _ _ _ _ (hd_stored _ _ Hh)), (hd_total _ _ Hh). done.
  - apply Forall_app. split; [apply (hd_key _ _ Hh)|by apply Forall_singleton].
  - intros p0 i0. change (take (held_header c) (drop 10 (gc_superpacket c'))) with (sub (gc_superpacket c') 10 (held_header c)).
    rewrite H2, H1, S6. destruct ps as [|pk ps'] eqn:Eps.
    + intros [= <- <-]. cbn [length Nat.eqb]. rewrite sub_skip by (rewrite length_replicate; lia). rewrite length_replicate, Nat.sub_diag.
      unfold sub. rewrite drop_0. split; [done|by apply Hfirst].
    + cbn [length Nat.eqb]. intros Hx. cbn in Hx. apply (hd_head _ _ Hh). exact Hx.
  - intros j q k Hj Hl. rewrite length_app in Hl. cbn in Hl. rewrite lookup_app_l in Hj by lia.
    by apply (Forall_lookup_1 _ _ _ _ Hfull) in Hj.
  - unfold c', StoreSegment. cbn [gc_segments]. apply offsets_app; [apply (hd_offsets _ _ Hh)|]. cbn [ss_payload_offset].
    rewrite (stored_total _ _ _ _ (hd_stored _ _ Hh)), (hd_total _ _ Hh). lia.
  - intros j q k p0 i0 Hj H0. destruct (decide (j < length ps)%nat) as [Hlt|Hge].
    + rewrite lookup_app_l in Hj by done. rewrite lookup_app_l in H0 by lia. by apply (hd_seq _ _ Hh j q k p0).
    + rewrite lookup_app_r in Hj by lia. destruct (j - length ps)%nat as [|n] eqn:En; [|by destruct n]. injection Hj as <- <-.
      assert (j = length ps) as -> by lia. destruct (decide (ps = [])) as [Hn|Hn].
      { subst ps. injection H0 as <- <-. cbn [length Nat.mul]. rewrite Z.add_0_r, wrap_small; [done|]. rewrite (po_seq _ _ (el_ok _ _ He)).
        pose proof (el_ok _ _ He) as [Hb ? ? Hi ? ? ? ? Hd ? Hs Hf ? ?]. apply get32_range; [by apply bytes_ok_drop|rewrite length_drop; lia]. }
      rewrite lookup_app_l in H0 by (destruct ps; [done|cbn; lia]). destruct (last ps) as [[pl il]|] eqn:El; [|by apply last_None in El].
      rewrite Hseq by done. rewrite (hd_next _ _ Hh _ _ El). rewrite last_lookup in El.
      rewrite (hd_seq _ _ Hh _ _ _ _ _ El H0). rewrite wrap_add_l. apply (Forall_lookup_1 _ _ _ _ Hfull) in El as [El _]. cbn [snd] in El.
      rewrite El. f_equal. destruct ps; [done|]. cbn [length Nat.pred]. lia.
  - intros q k. rewrite last_snoc. intros [= <- <-]. done.
  - rewrite K3, total_payload_app, (hd_total _ _ Hh). done.
  - rewrite length_app. cbn. lia.
  - intros _. rewrite K3, S4. exact Hfit.
  - split; [rewrite L2; apply (hd_buffer _ _ Hh)|done].
Qed.
End store.

(** ** The frame of a super-packet *)
Definition payloads_of (ps : list pkt) : list (list Z) := (λ pk, tcp_payload pk.1.1 pk.2) <$> ps.
Definition last_psh (ps : list pkt) : bool := match last ps with Some pk => psh_of pk.1.1 pk.2 | None => false end.

Lemma payloads_cons pk ps : mjoin (payloads_of (pk :: ps)) = tcp_payload pk.1.1 pk.2 ++ mjoin (payloads_of ps).
Proof. apply mjoin_cons. Qed.

Lemma joined_buffer sp hs n ps ss :
  Forall2 (stored sp hs) ps ss → offsets_from n ss → Forall (λ s, ss_payload_ptr s = None) ss →
  sub sp (10 + hs + n) (total_payload ps) = mjoin (payloads_of ps).
Proof.
  intros Hs. revert n. induction Hs as [|pk s ps ss H _ IH]; intros n Ho Hn; [unfold sub; by rewrite take_0|].
  destruct Ho as [Ho1 Ho2]. apply Forall_cons in Hn as [Hn1 Hn2]. rewrite payloads_cons.
  destruct H as [_ Hsz _ _ Hsrc _]. rewrite Hn1, Ho1 in Hsrc. rewrite <- Hsrc. cbn [total_payload foldr]. rewrite <- Hsz.
  rewrite <- sub_join. f_equal. rewrite <- (IH _ Ho2 Hn2). f_equal. lia.
Qed.

Lemma joined_sources sp hs ps ss :
  Forall2 (stored sp hs) ps ss →
  mjoin (map (λ s, match ss_payload_ptr s with Some b => b | None => sub sp (10 + hs + ss_payload_offset s) (ss_payload_size s) end) ss) =
  mjoin (payloads_of ps).
Proof.
  induction 1 as [|pk s ps ss H _ IH]; [done|]. cbn [map]. rewrite payloads_cons, mjoin_cons.
  by rewrite (st_source _ _ _ _ H), IH.
Qed.

Lemma payloads_length ps : Forall (λ pk, eligible pk.1.1 pk.2) ps → length (mjoin (payloads_of ps)) = total_payload ps.
Proof.
  induction 1 as [|pk ps H _ IH]; [done|]. rewrite payloads_cons, length_app, length_payload by apply H.
  by rewrite IH.
Qed.
Lemma payloads_bytes ps : Forall (λ pk, eligible pk.1.1 pk.2) ps → bytes_ok (mjoin (payloads_of ps)).
Proof.
  induction 1 as [|pk ps H _ IH]; [by apply Forall_nil|]. rewrite payloads_cons. apply Forall_app.
  split; [apply bytes_ok_sub, (el_ok _ _ H)|done].
Qed.

Section gso.
Context (c : Coalescer) (p0 : list Z) (b0 : bool) (i0 : PacketInfo) (pk1 : pkt) (rest : list pkt).
Let ps : list pkt := (p0, b0, i0) :: pk1 :: rest.
Context (Hh : held c ps) (Hpsh : gc_pending_psh c = last_psh ps).
Let k : MergeKey := gc_key c.
Let g : nat := mk_gso_size k.
Let h : virtio_net_hdr :=
  mkVirtio VIRTIO_NET_HDR_F_NEEDS_CSUM VIRTIO_NET_HDR_GSO_TCPV4 (wrap 16 (Z.of_nat (mk_ihl k + mk_doff k)))
    (wrap 16 (Z.of_nat (mk_gso_size k))) (wrap 16 (Z.of_nat (mk_ihl k))) 16.
Let payloads : list Z := mjoin (payloads_of ps).

Lemma gso_sizes :
  (pi_ihl i0 = mk_ihl k ∧ pi_doff i0 = mk_doff k ∧ 20 ≤ mk_ihl k ≤ 60 ∧ 20 ≤ mk_doff k ≤ 60 ∧ g = pi_payload i0 ∧ 0 < g ∧
   mk_ihl k + mk_doff k + g ≤ 1500 ∧ length payloads = gc_payload_total c ∧ psh_of p0 i0 = false)%nat ∧
  Z.of_nat (mk_ihl k + mk_doff k + length payloads) ≤ 65535 ∧
  (10 + (mk_ihl k + mk_doff k) + gc_payload_total c ≤ length (gc_superpacket c))%nat.
Proof.
  pose proof (hd_eligible _ _ Hh) as Hel. pose proof (payloads_length _ Hel) as Hlp. fold payloads in Hlp.
  pose proof (hd_key _ _ Hh) as Hks. apply Forall_cons in Hks as [[Hk0 _] _]. destruct (key_sizes _ _ _ _ Hk0) as [Ei Ed]. cbn [snd fst] in *.
  destruct (hd_head _ _ Hh (p0, b0) i0 eq_refl) as [_ Eg]. destruct (hd_full _ _ Hh 0 (p0, b0) i0 eq_refl) as [_ Ep]; [cbn; lia|].
  assert (eligible p0 i0) as [_ Hok Hsz] by (by apply Forall_cons in Hel as [? _]). unfold kMaxPacketBytes in Hsz.
  pose proof Hok as [_ _ _ Hi _ _ _ _ Hd Hp0 Hsum Hft _ _]. fold k in Ei, Ed, Eg. fold g in Eg.
  pose proof (hd_fit _ _ Hh ltac:(done)) as Hfit. unfold held_header in Hfit. fold k in Hfit.
  pose proof (hd_total _ _ Hh) as Ht. split_and!; try lia; try done.
  rewrite (proj1 (hd_buffer _ _ Hh)). rewrite Ht. pose proof (hd_count _ _ Hh) as Hc. unfold kMaxPacketBytes.
  assert (total_payload ps ≤ length ps * g)%nat as Hle.
  { pose proof (hd_key _ _ Hh) as Hks. fold k in Hks. fold g in Hks. clear -Hks. induction Hks as [|pk l [_ H] _ IH]; [done|].
    unfold total_payload in *. cbn [foldr length]. lia. }
  assert (1 ≤ length ps)%nat by (cbn; lia). assert (mk_ihl k + mk_doff k + g ≤ 1500)%nat by lia. clear -Hle Hc H H0. nia.
Qed.

Lemma gso_chunked : chunked g (payloads_of ps).
Proof.
  pose proof (hd_eligible _ _ Hh) as Hel. split.
  - intros j x Hx Hj. unfold payloads_of in Hx, Hj. rewrite length_fmap in Hj. rewrite list_lookup_fmap_Some in Hx.
    destruct Hx as ([[p b] i] & -> & Hx). cbn [fst snd]. destruct (hd_full _ _ Hh _ _ _ Hx Hj) as [E _].
    rewrite length_payload; [done|]. apply (Forall_lookup_1 _ _ _ _ Hel Hx).
  - apply Forall_fmap, Forall_lookup. intros j [[p b] i] Hx. cbn. pose proof (Forall_lookup_1 _ _ _ _ Hel Hx) as He.
    pose proof (Forall_lookup_1 _ _ _ _ (hd_key _ _ Hh) Hx) as [_ Hle]. cbn in He, Hle. rewrite length_payload by apply He.
    pose proof (po_payload _ _ (el_ok _ _ He)). unfold g, k. lia.
Qed.

Lemma gso_virtio_bytes : bytes_ok (virtio_bytes h).
Proof.
  unfold virtio_bytes, h. cbn [vh_flags vh_gso_type vh_hdr_len vh_gso_size vh_csum_start vh_csum_offset]. rewrite !Forall_app.
  split_and!; try apply store16_bytes. repeat (apply Forall_cons; split; [done|]). by apply Forall_nil.
Qed.

(** The bytes handed to the writer. *)
Lemma gso_frame_bytes :
  ∃ big, super_facts p0 i0 (last_psh ps) payloads big ∧
    let c1 := set_buffer c (BuildGso c).2 in
    (if HasRetainedOwners cf c1 then mjoin (BuildIovecs c1) else take (BuildGso c).1 (gc_superpacket c1)) = virtio_bytes h ++ big ∧
    Forall2 (stored (gc_superpacket c1) (held_header c)) ps (gc_segments c) ∧ buffer_ok c1.
Proof.
  destruct gso_sizes as ((Ei & Ed & Hi & Hd & Eg & Hg & Hm & Hl & _) & Hfit & Hbuf).
  destruct (BuildGso_merged c) as [v Eb]. rewrite Eb. cbn [fst snd]. fold k h. rewrite Hpsh, <- Hl.
  set (ip := drop 10 (gc_superpacket c)). set (mh := merged_header _ _ _ _ _).
  pose proof (hd_eligible _ _ Hh) as Hel. assert (packet_ok p0 i0) as Hok by (apply Forall_cons in Hel as [[_ Hok _] _]; exact Hok).
  assert (take (pi_ihl i0 + pi_doff i0) ip = take (pi_ihl i0 + pi_doff i0) p0) as Hip.
  { destruct (hd_head _ _ Hh (p0, b0) i0 eq_refl) as [E _]. unfold held_header in E. fold k in E. by rewrite Ei, Ed. }
  assert (bytes_ok ip) as Hbip by (apply bytes_ok_drop, (hd_buffer _ _ Hh)).
  assert (length ip = length (gc_superpacket c) - 10)%nat as Hlip by apply length_drop.
  assert (bytes_ok payloads) as Hbp by (by apply payloads_bytes).
  assert (0 < length payloads)%nat as Hp0.
  { rewrite Hl, (hd_total _ _ Hh). cbn [total_payload foldr snd ps]. lia. }
  assert (mh = merged_header (pi_ihl i0) (pi_ihl i0 + pi_doff i0 + length payloads) (last_psh ps) ip v) as Emh by (by unfold mh; rewrite Ei, Ed).
  assert (length mh = length ip) as Lm by (rewrite Emh; apply (merged_length p0 i0 Hok ip payloads (last_psh ps)); lia).
  assert (∀ a m, (mk_ihl k + mk_doff k ≤ a)%nat → sub mh a m = sub ip a m) as Tm.
  { intros a m Ha. rewrite Emh. apply (merged_tail p0 i0 Hok ip payloads (last_psh ps)); lia. }
  exists (take (pi_ihl i0 + pi_doff i0) mh ++ payloads). split.
  { rewrite Emh. apply super_ok; try done; lia. }
  cbv zeta. cbn [gc_superpacket set_buffer]. rewrite Ei, Ed.
  assert (∀ a m, (10 + (mk_ihl k + mk_doff k) ≤ a)%nat → sub (virtio_bytes h ++ mh) a m = sub (gc_superpacket c) a m) as Ts.
  { intros a m Ha. rewrite sub_skip by (rewrite length_virtio; lia). rewrite length_virtio, Tm by lia. unfold sub, ip. rewrite drop_drop.
    by replace (10 + (a - 10))%nat with a by lia. }
  assert (Forall2 (stored (virtio_bytes h ++ mh) (held_header c)) ps (gc_segments c)) as Hst.
  { apply (stored_buffer (gc_superpacket c) _ _ (total_payload ps)); [|apply (hd_stored _ _ Hh)|apply (hd_offsets _ _ Hh)|].
    - intros a m Ha _. apply Ts. exact Ha.
    - by rewrite (stored_total _ _ _ _ (hd_stored _ _ Hh)). }
  assert (length (virtio_bytes h) = 10%nat) as Lv by apply length_virtio.
  split; [|split; [exact Hst|]]; cycle 1.
  { split; cbn [gc_superpacket set_buffer]; [rewrite length_app, Lm, Lv, Hlip, <- (proj1 (hd_buffer _ _ Hh)); lia|].
    apply Forall_app. split; [apply gso_virtio_bytes|]. rewrite Emh. apply (merged_header_bytes p0); try done; lia. }
  destruct (HasRetainedOwners cf (set_buffer c (virtio_bytes h ++ mh))) eqn:Er.
  - unfold BuildIovecs. cbn [set_buffer gc_key gc_superpacket gc_segments]. fold k. rewrite mjoin_cons.
    replace (10 + mk_ihl k + mk_doff k)%nat with (length (virtio_bytes h) + (mk_ihl k + mk_doff k))%nat by lia.
    rewrite take_app_add, <- app_assoc. f_equal. f_equal. unfold payloads. rewrite <- (joined_sources _ _ _ _ Hst). done.
  - replace (10 + mk_ihl k + mk_doff k + length payloads)%nat with (length (virtio_bytes h) + ((mk_ihl k + mk_doff k) + length payloads))%nat by lia.
    rewrite take_app_add. f_equal.
    assert (take (mk_ihl k + mk_doff k + length payloads) mh = take (mk_ihl k + mk_doff k) mh ++ sub mh (mk_ihl k + mk_doff k) (length payloads)) as ->.
    { change (take (mk_ihl k + mk_doff k) mh) with (sub mh 0 (mk_ihl k + mk_doff k)).
      pose proof (sub_join mh 0 (mk_ihl k + mk_doff k) (length payloads)) as E. rewrite Nat.add_0_l in E. by rewrite E. }
    f_equal. rewrite Tm by lia. unfold ip, sub. rewrite drop_drop. fold (sub (gc_superpacket c) (10 + (mk_ihl k + mk_doff k)) (length payloads)).
    rewrite Hl, (hd_total _ _ Hh). unfold payloads.
    pose proof (joined_buffer _ _ 0 _ _ (hd_stored _ _ Hh) (hd_offsets _ _ Hh)) as E. unfold held_header in E. fold k in E.
    rewrite Nat.add_0_r in E. apply E. apply Forall_lookup. intros j t Ht. destruct (ss_payload_ptr t) as [b|] eqn:Et; [exfalso|done].
    destruct (Forall2_lookup_r _ _ _ _ _ Hst Ht) as (pk & _ & Hpk). pose proof (st_retained _ _ _ _ Hpk) as Hr. rewrite Et in Hr.
    unfold HasRetainedOwners in Er. rewrite Hr in Er by done. cbn [andb set_buffer gc_segments] in Er.
    apply not_true_iff_false in Er. apply Er, existsb_exists. exists t. split; [by apply list_elem_of_In, (list_elem_of_lookup_2 _ j)|by rewrite Et].
Qed.

Lemma gso_parsed big :
  super_facts p0 i0 (last_psh ps) payloads big →
  virtio_load (virtio_bytes h ++ big) = h ∧
  ParseTcpV4Gso (virtio_bytes h ++ big) 10 (Z.to_nat MTU) = Some (frame_of big (mk_ihl k) (mk_doff k) g).
Proof.
  intros [F1 F2 F3 F4 F5 F6]. destruct gso_sizes as ((Ei & Ed & Hi & Hd & Eg & Hg & Hm & Hl & _) & Hfit & _). rewrite Ei, Ed in *.
  assert (virtio_load (virtio_bytes h ++ big) = h) as El.
  { apply virtio_load_bytes. unfold h, virtio_ok. cbn [vh_flags vh_gso_type vh_hdr_len vh_gso_size vh_csum_start vh_csum_offset].
    split_and!; first [apply wrap_range; lia|done]. }
  assert (0 < length payloads)%nat as Hp0 by (rewrite Hl, (hd_total _ _ Hh); cbn [total_payload foldr snd ps]; lia).
  assert (ParseIPv4Tcp big = Some (frame_of big (mk_ihl k) (mk_doff k) 0)) as Ep by (apply parse_tcp4_ok; eauto).
  split; [done|]. unfold ParseTcpV4Gso, ReadHeader. rewrite length_app, length_virtio, El.
  cbn [IsStandardHeaderSize kStandardVirtioHeaderSize Nat.eqb negb orb]. rewrite (proj2 (Nat.leb_gt _ _)) by lia.
  change (drop 10 (virtio_bytes h ++ big)) with big. rewrite Ep.
  assert (HasTcpChecksumMetadata h (frame_of big (mk_ihl k) (mk_doff k) 0) = true) as ->.
  { unfold HasTcpChecksumMetadata, frame_of, h. cbn [vh_csum_start vh_csum_offset gf_packet_size gf_ihl]. rewrite !(wrap_small 16) by uint_lia.
    rewrite !andb_true_iff, !Z.leb_le, !Z.eqb_eq. lia. }
  unfold h. cbn [negb vh_flags vh_gso_type vh_hdr_len vh_gso_size frame_of gf_ip gf_packet_size gf_ihl gf_tcp_header_size gf_header_size gf_payload_size
    gf_initial_sequence Z.eqb orb VIRTIO_NET_HDR_F_NEEDS_CSUM VIRTIO_NET_HDR_GSO_TCPV4 Pos.eqb].
  fold g. rewrite !(wrap_small 16), Nat2Z.id, Z.eqb_refl by uint_lia. cbn [negb orb].
  rewrite !(proj2 (Nat.eqb_neq _ _)), !(proj2 (Nat.ltb_ge _ _)) by (unfold MTU; lia). done.
Qed.

Lemma psh_bit p i : Z.land (byte_at p (pi_ihl i + 13)) 8 = if psh_of p i then 8 else 0.
Proof.
  unfold psh_of. destruct (Z.eqb_spec (Z.land (byte_at p (pi_ihl i + 13)) 8) 0) as [E|E]; [done|]. cbn [negb].
  assert (∀ x, Z.land x 8 = if Z.testbit x 3 then 8 else 0) as B.
  { intros x. apply Z.bits_inj'. intros n Hn. rewrite Z.land_spec. destruct (decide (n = 3)) as [->|Hne].
    - destruct (Z.testbit x 3); [done|]. by rewrite Z.bits_0.
    - assert (Z.testbit 8 n = false) as -> by (change 8 with (2 ^ 3); by rewrite Z.pow2_bits_false).
      rewrite andb_false_r. destruct (Z.testbit x 3); [|by rewrite Z.bits_0].
      change 8 with (2 ^ 3). by rewrite Z.pow2_bits_false. }
  rewrite B in *. by destruct (Z.testbit _ _).
Qed.

Lemma last_lookup_psh j p b i : ps !! j = Some (p, b, i) → S j = length ps → last_psh ps = psh_of p i.
Proof. intros Hj Hl. unfold last_psh. rewrite last_lookup. rewrite <- Hl. cbn [Nat.pred]. by rewrite Hj. Qed.

(** Reading the frame back. *)
Lemma gso_frame_packets big :
  super_facts p0 i0 (last_psh ps) payloads big → Forall2 same_segment (fst <$> ps) (frame_packets (virtio_bytes h ++ big)).
Proof.
  intros Hf. destruct (gso_parsed big Hf) as [El Ep]. pose proof Hf as [F1 F2 F3 F4 F5 F6].
  destruct gso_sizes as ((Ei & Ed & Hi & Hd & Eg & Hg & Hm & Hl & Hpsh0) & Hfit & _).
  assert (bytes_ok (virtio_bytes h ++ big)) as Hb.
  { apply Forall_app. split; [apply gso_virtio_bytes|done]. }
  destruct (gso_input (virtio_bytes h ++ big) (λ _, false) h (mk_ihl k) (mk_doff k) g) as (ss & Eo & Hss & _); [done|done|done|done|exact Ep|].
  change (drop 10 (virtio_bytes h ++ big)) with big in Hss.
  unfold frame_packets. rewrite El, Eo. cbn [vh_gso_type vh_flags h VIRTIO_NET_HDR_GSO_TCPV4 VIRTIO_NET_HDR_GSO_NONE VIRTIO_NET_HDR_F_NEEDS_CSUM Z.eqb].
  pose proof gso_chunked as Hc. assert (length (payloads_of ps) = length ps) as Hlp by (unfold payloads_of; by rewrite length_fmap).
  assert (length ss = length ps) as Hls.
  { destruct (lookup_lt_is_Some_2 (payloads_of ps) (length ps - 1)) as [x Hx]; [rewrite Hlp; cbn; lia|].
    destruct (chunk_lookup g _ _ _ Hc Hx) as (_ & C2 & C3 & _). fold payloads in C2, C3.
    assert (length x ≤ g)%nat by (apply (Forall_lookup_1 _ _ _ _ (proj2 Hc) Hx)).
    pose proof (segments_count big (mk_ihl k) (mk_doff k) g ss) as Hn. rewrite <- Ei, <- Ed in Hn. specialize (Hn F3 Hg).
    rewrite Ei, Ed in Hn. specialize (Hn Hss). rewrite F1, Ei, Ed in Hn.
    pose proof (Nat.le_lt_trans _ _ _ (Nat.le_0_l _) C3) as Hpos. specialize (Hn ltac:(lia)).
    assert (1 ≤ length ps)%nat by (cbn; lia). set (n := length ps) in *. set (T := length payloads) in *.
    assert (T ≤ n * g)%nat as Hup.
    { replace (n * g)%nat with ((n - 1) * g + g)%nat by nia. pose proof (chunk_lookup g _ _ _ Hc Hx) as (_ & _ & _ & C4). fold payloads in C4. fold T in C4.
      rewrite Hlp in C4. fold n in C4. replace (S (n - 1) <? n)%nat with false in C4 by (symmetry; apply Nat.ltb_ge; lia).
      apply Nat.ltb_ge in C4. lia. }
    enough (Z.of_nat (length ss) = Z.of_nat n) by lia. rewrite Hn. symmetry. apply Z.div_unique with (Z.of_nat T + Z.of_nat g - 1 - Z.of_nat g * Z.of_nat n); [left; nia|lia]. }
  apply Forall2_same_length_lookup_2; [by rewrite !length_fmap|]. intros j q qs Hq Hs. rewrite list_lookup_fmap_Some in Hq. rewrite list_lookup_fmap_Some in Hs.
  destruct Hq as ([[p b] i] & -> & Hj), Hs as (s & -> & Hs). cbn [fst]. right. exists i. split; [|done]. cbn [fst].
  pose proof (Forall_lookup_1 _ _ _ _ (hd_eligible _ _ Hh) Hj) as [Hpa Hok _]. cbn [fst snd] in Hpa, Hok.
  pose proof (hd_eligible _ _ Hh) as Hel. assert (packet_ok p0 i0) as Hok0 by (apply Forall_cons in Hel as [[_ ? _] _]; done).
  pose proof (Forall_lookup_1 _ _ _ _ (hd_key _ _ Hh) Hj) as [Hk _]. cbn [fst snd] in Hk. fold k in Hk. fold g in Hk.
  pose proof (hd_key _ _ Hh) as Hks. apply Forall_cons in Hks as [[Hk0 _] _]. cbn [fst snd] in Hk0. fold k in Hk0. fold g in Hk0.
  assert (payloads_of ps !! j = Some (tcp_payload p i)) as Hpl by (unfold payloads_of; by rewrite list_lookup_fmap, Hj).
  destruct (chunk_lookup g _ _ _ Hc Hpl) as (C1 & C2 & C3 & C4). fold payloads in C1, C2, C3, C4. rewrite length_payload in C2 by done.
  destruct (proj1 Hss j s Hs) as [Hjl Hseg]. destruct (key_sizes _ _ _ _ Hk) as [Ei1 Ed1].
  assert (length big - (pi_ihl i0 + pi_doff i0) = length payloads)%nat as Hlb by lia.
  apply (resegment_ok p p0 i i0 Hpa Hok Hok0 g ltac:(by rewrite Hk, Hk0) big (last_psh ps)) with (o := (j * g)%nat).
  - lia.
  - exact F4.
  - exact F5.
  - by rewrite psh_bit, Hpsh0.
  - apply Forall_cons in Hel as [Hel0 _]. apply (el_control _ _ Hel0).
  - rewrite Ei, <- Ei1. apply (el_control _ _ (Forall_lookup_1 _ _ _ _ (hd_eligible _ _ Hh) Hj)).
  - by rewrite Ei, Ed.
  - lia.
  - rewrite Ei, Ed. unfold tcp_payload in C1. rewrite Ei1, Ed1 in C1. rewrite <- C1. unfold payloads in *. rewrite <- F6.
    unfold sub. rewrite Ei, Ed, drop_drop. done.
  - by rewrite Hlb.
  - apply (hd_seq _ _ Hh j (p, b) i (p0, b0) i0 Hj). done.
  - rewrite Hlb, C4, Hlp. rewrite <- Ei1 in Ei. rewrite Ei, psh_bit. destruct (Nat.ltb_spec (S j) (length ps)) as [Hlt|Hge].
    + destruct (hd_full _ _ Hh _ _ _ Hj Hlt) as [_ Hf0]. cbn [fst] in Hf0. by rewrite Hf0.
    + rewrite (last_lookup_psh j p b i Hj); [done|]. apply lookup_lt_Some in Hj. lia.
Qed.
End gso.

(** ** What the log brings to the reader

    A frame whose write was cut short may have reached the reader; one whose write failed did not. *)
Definition brought (log : list (list Z * Z)) : list (list Z * option Z) :=
  mjoin ((λ e, if 0 <=? e.2 then frame_packets e.1 else []) <$> log).
Definition all_complete (log : list (list Z * Z)) : Prop := Forall (λ e, 0 ≤ e.2 → e.2 = Z.of_nat (length e.1)) log.

Lemma brought_app a b : brought (a ++ b) = brought a ++ brought b.
Proof. unfold brought. rewrite fmap_app. apply join_app. Qed.
Lemma brought_one frame w : brought [(frame, w)] = if 0 <=? w then frame_packets frame else [].
Proof. unfold brought. cbn [fmap list_fmap fst snd]. rewrite mjoin_cons. apply app_nil_r. Qed.

(** From [c] holding [ps], the packets [qs] were pushed: [k] of them were brought to the reader and [ps'] are held. *)
Definition progress (c : Coalescer) (ps : list pkt) (qs : list (list Z * bool)) (c' : Coalescer) (ps' : list pkt) (ok : bool) : Prop :=
  ∃ new k, gc_log c' = gc_log c ++ new ∧ (k ++ (fst <$> ps')) `sublist_of` ((fst <$> ps) ++ qs) ∧ Forall2 same_segment k (brought new) ∧
    (ok = true → k ++ (fst <$> ps') = (fst <$> ps) ++ qs ∧ all_complete new).

Lemma progress_trans c ps a c1 ps1 ok1 b c2 ps2 ok2 :
  progress c ps a c1 ps1 ok1 → progress c1 ps1 b c2 ps2 ok2 → progress c ps (a ++ b) c2 ps2 (ok1 && ok2).
Proof.
  intros (n1 & k1 & L1 & S1 & F1 & T1) (n2 & k2 & L2 & S2 & F2 & T2). exists (n1 ++ n2), (k1 ++ k2).
  split_and!.
  - by rewrite L2, L1, app_assoc.
  - rewrite <- app_assoc. etrans; [apply sublist_app; [reflexivity|exact S2]|]. rewrite app_assoc, (app_assoc (fst <$> ps)). by apply sublist_app.
  - rewrite brought_app. by apply Forall2_app.
  - intros [Ho1 Ho2]%andb_true_iff. destruct (T1 Ho1) as [E1 A1], (T2 Ho2) as [E2 A2]. split; [|by apply Forall_app].
    by rewrite <- app_assoc, E2, app_assoc, E1, app_assoc.
Qed.
Lemma progress_fail c ps a c1 ps1 ok b : progress c ps a c1 ps1 ok → progress c ps (a ++ b) c1 ps1 false.
Proof.
  intros (n1 & k1 & L1 & S1 & F1 & T1). exists n1, k1. split_and!; [done| |done|done].
  rewrite app_assoc. by apply sublist_inserts_r.
Qed.
Lemma progress_log c ps a c1 ps1 ok c0 c2 : progress c ps a c1 ps1 ok → gc_log c0 = gc_log c → gc_log c2 = gc_log c1 → progress c0 ps a c2 ps1 ok.
Proof. intros (n1 & k1 & L1 & H) E0 E2. exists n1, k1. by rewrite E2, E0. Qed.
Lemma progress_refl c ps : progress c ps [] c ps true.
Proof. exists [], []. rewrite !app_nil_r. split_and!; [done|done|constructor|]. intros _. split; [done|by apply Forall_nil]. Qed.
Lemma progress_hold c ps (q : list Z * bool) i c' : gc_log c' = gc_log c → progress c ps [q] c' (ps ++ [(q, i)]) true.
Proof. intros E. exists [], []. rewrite E, app_nil_r, fmap_app. split_and!; [done|done|constructor|]. intros _. split; [done|by apply Forall_nil]. Qed.
Lemma progress_drop c ps q c' : gc_log c' = gc_log c → progress c ps [q] c' ps false.
Proof. intros E. exists [], []. rewrite E, app_nil_r. split_and!; [done|by apply sublist_inserts_r|constructor|done]. Qed.

Lemma write_outcome_inv w n :
  match write_outcome w n with
  | WoComplete => w = Z.of_nat n | WoNegativeFailure => w < 0 | WoPartialDelivery => 0 ≤ w | WoNone => False
  end.
Proof.
  unfold write_outcome. destruct (Z.eqb_spec w (Z.of_nat n)); [done|]. destruct (Z.ltb_spec w 0); lia.
Qed.

(** One frame that carries the held packets [ps]. *)
Lemma frame_progress c ps frame w :
  Forall2 same_segment (fst <$> ps) (frame_packets frame) → ∀ c', gc_log c' = gc_log c ++ [(frame, w)] →
  match write_outcome w (length frame) with
  | WoComplete => progress c ps [] c' [] true
  | WoNegativeFailure => progress c ps [] c' ps true
  | _ => progress c ps [] c' [] false
  end.
Proof.
  intros Hf c' Hl. pose proof (write_outcome_inv w (length frame)) as Ho.
  pose proof (brought_one frame w) as Eb.
  assert (0 ≤ w → progress c ps [] c' [] false) as Hpart.
  { intros Hw. exists [(frame, w)], (fst <$> ps). rewrite Eb, (proj2 (Z.leb_le _ _) Hw). split_and!; [done|done|done|done]. }
  destruct (write_outcome w (length frame)) eqn:Eo; [done| | |auto].
  - destruct Hpart as (n1 & k1 & L1 & S1 & F1 & _); [lia|]. exists [(frame, w)], (fst <$> ps). rewrite Eb, (proj2 (Z.leb_le _ _)) by lia.
    split_and!; [done|done|done|]. intros _. split; [by rewrite !app_nil_r|]. apply Forall_singleton. by intros _.
  - exists [(frame, w)], []. rewrite Eb, (proj2 (Z.leb_gt _ _)) by lia. split_and!; [done|by rewrite app_nil_r|constructor|].
    intros _. split; [by rewrite app_nil_r|]. apply Forall_singleton. cbn. lia.
Qed.

Lemma ordinary_packets (partial : bool) start p : Z.of_nat start < 65536 →
  frame_packets (ordinary_header partial start ++ p) = [(p, if partial then Some (Z.of_nat start) else None)].
Proof.
  intros Hs. unfold frame_packets, ordinary_header. rewrite virtio_load_bytes by (destruct partial; unfold virtio_ok;
    cbn [vh_flags vh_gso_type vh_hdr_len vh_gso_size vh_csum_start vh_csum_offset]; split_and!; first [done|apply wrap_range; lia]).
  destruct partial; cbn [vh_flags vh_gso_type vh_hdr_len vh_gso_size vh_csum_start vh_csum_offset]; [|done].
  rewrite wrap_small by uint_lia. done.
Qed.
Lemma same_whole p b i : (b = true → ParsePacket p = Some i) → same_segment (p, b) (p, if b then Some (Z.of_nat (pi_ihl i)) else None).
Proof. intros H. left. split; [done|]. cbn [fst snd]. destruct b; [|done]. exists i. split; [by apply H|done]. Qed.

(** What the input path of this library would make of such frames: the same packet, with its TCP checksum
    filled when the frame asks for it.  (It refuses a marked packet with bytes behind the datagram.) *)
Lemma ordinary_on_input handler p ihl doff :
  bytes_ok p → tcp4_ok p ihl doff →
  OnInput 10 handler (ordinary_header false 0 ++ p) = VnetPackets [p] ∧
  ∃ q, OnInput 10 handler (ordinary_header true ihl ++ p) = VnetPackets [q] ∧ same_outside [(ihl + 16)%nat] p q ∧ TcpChecksum ihl q = 0.
Proof.
  intros Hb Hp. pose proof (t4_size _ _ _ Hp). pose proof (t4_fits _ _ _ Hp). pose proof (t4_ihl_min _ _ _ Hp).
  assert (∀ b start, Z.of_nat start < 65536 → virtio_load (ordinary_header b start ++ p) =
    if b then mkVirtio VIRTIO_NET_HDR_F_NEEDS_CSUM 0 0 0 (Z.of_nat start) 16 else mkVirtio 0 0 0 0 0 0) as Hv.
  { intros b start Hs. unfold ordinary_header. rewrite virtio_load_bytes by (destruct b; unfold virtio_ok;
      cbn [vh_flags vh_gso_type vh_hdr_len vh_gso_size vh_csum_start vh_csum_offset]; split_and!; first [done|apply wrap_range; lia]).
    destruct b; [|done]. by rewrite wrap_small by uint_lia. }
  assert (∀ b start, bytes_ok (ordinary_header b start ++ p) ∧ (10 < length (ordinary_header b start ++ p))%nat) as Hf.
  { intros b start. unfold ordinary_header. rewrite length_app, length_virtio. split; [|lia]. apply Forall_app. split; [|done].
    unfold virtio_bytes. rewrite !Forall_app. split_and!; try apply store16_bytes. destruct b; repeat (apply Forall_cons; split; [done|]); by apply Forall_nil. }
  split.
  - destruct (Hf false 0%nat) as [F1 F2]. apply (proj1 (input_delivered handler _ F1 F2)). by rewrite Hv.
  - destruct (Hf true ihl) as [F1 F2]. apply (proj1 (proj2 (input_delivered handler _ F1 F2)) ihl doff). rewrite Hv by lia. done.
Qed.

(** ** Writing the held packets one by one *)
Definition same_buffer (c c' : Coalescer) : Prop := gc_superpacket c' = gc_superpacket c ∧ gc_key c' = gc_key c ∧ gc_enabled c' = gc_enabled c.

Lemma stored_frame c pk s :
  eligible pk.1.1 pk.2 → stored (gc_superpacket c) (held_header c) pk s → ss_header s ++ source_payload c s ++ ss_tail s = pk.1.1.
Proof.
  intros He [H1 H2 H3 H4 H5 _ _ _]. rewrite H1, H3. assert (source_payload c s = tcp_payload pk.1.1 pk.2) as -> by exact H5.
  apply datagram_parts, He.
Qed.

Lemma write_stored_one s reason hold c pk :
  eligible pk.1.1 pk.2 → stored (gc_superpacket c) (held_header c) pk s →
  let r := WriteOrdinaryStored cf s reason hold c in
  (if r.1 then progress c [pk] [] r.2 [] true else ∃ ps', progress c [pk] [] r.2 ps' false) ∧ same_buffer c r.2.
Proof.
  intros He Hs. unfold WriteOrdinaryStored, WriteFrame. cbv zeta. rewrite (stored_frame c pk s He Hs).
  set (frame := ordinary_header _ _ ++ pk.1.1). set (w := cf_writer cf (gc_log c) frame).
  assert (frame_packets frame = [(pk.1.1, if pk.1.2 then Some (Z.of_nat (pi_ihl pk.2)) else None)]) as Efp.
  { unfold frame. rewrite (st_partial _ _ _ _ Hs), (st_start _ _ _ _ Hs). apply ordinary_packets.
    pose proof (po_word _ _ (el_ok _ _ He)). pose proof (po_sum _ _ (el_ok _ _ He)). lia. }
  pose proof (frame_progress c [pk] frame w) as Hf. cbn [fst snd]. split; [|done].
  set (c2 := Emit _ _). specialize (Hf ltac:(rewrite Efp; constructor; [rewrite (surjective_pairing pk.1); apply (same_whole pk.1.1 pk.1.2 pk.2); intros _; apply He|constructor]) c2 eq_refl).
  clear Efp.
  clearbody c2.
  destruct (write_outcome w (length frame)); cbn [is_complete].
  - exists []. exact Hf.
  - exact Hf.
  - exists []. rewrite <- (app_nil_r []) at 1. destruct Hf as (n1 & k1 & L1 & S1 & F1 & T1). exists n1, []. destruct (T1 eq_refl) as [E A].
    split_and!; [done|apply sublist_nil_l| |done]. apply (f_equal length) in E. rewrite length_app in E. cbn in E. destruct k1; [done|cbn in E; lia].
  - exists []. exact Hf.
Qed.

Lemma write_stored_spec reason hold ss ps c :
  Forall (λ pk, eligible pk.1.1 pk.2) ps → Forall2 (stored (gc_superpacket c) (held_header c)) ps ss →
  let r := write_stored cf ss reason hold c in progress c ps [] r.2 [] r.1 ∧ same_buffer c r.2.
Proof.
  intros Hel Hst. revert c Hst. induction Hel as [|pk ps He _ IH] in ss |- *; intros c Hst; [apply Forall2_nil_inv_l in Hst as ->; split; [apply progress_refl|done]|].
  apply Forall2_cons_inv_l in Hst as (s & ss' & Hs & Hst & ->). cbn [write_stored].
  pose proof (write_stored_one s reason hold c pk He Hs) as H1. destruct (WriteOrdinaryStored cf s reason hold c) as [ok c1]. cbv zeta in *. cbn [fst snd] in H1.
  destruct H1 as [H1 (B1 & B2 & B3)]. destruct ok.
  - destruct (IH ss' c1) as [H2 (B4 & B5 & B6)]; [unfold held_header; rewrite B1, B2; exact Hst|]. destruct (write_stored cf ss' reason hold c1) as [ok2 c2].
    cbn [fst snd] in *. split; [|unfold same_buffer in *; by rewrite B4, B5, B6].
    destruct H1 as (n1 & k1 & L1 & S1 & F1 & T1), H2 as (n2 & k2 & L2 & S2 & F2 & T2). destruct (T1 eq_refl) as [E1 A1]. cbn in E1. rewrite app_nil_r in E1. subst k1.
    exists (n1 ++ n2), (pk.1 :: k2). split_and!; [by rewrite L2, L1, app_assoc|by apply sublist_skip|rewrite brought_app; change (pk.1 :: k2) with ([pk.1] ++ k2); by apply Forall2_app|].
    intros Ho. destruct (T2 Ho) as [E2 A2]. split; [exact (f_equal (cons pk.1) E2)|by apply Forall_app].
  - cbn [fst snd]. split; [|done]. destruct H1 as (ps' & n1 & k1 & L1 & S1 & F1 & _). exists n1, k1. split_and!; [done| |done|done].
    assert (k1 `sublist_of` [pk.1]) as Hk by (etrans; [apply sublist_inserts_r; reflexivity|exact S1]).
    rewrite !app_nil_r. etrans; [exact Hk|]. apply (sublist_skip pk.1 []), sublist_nil_l.
Qed.

(** ** Flushing *)
Lemma empty_stable c : (0 < cf_segment_cap cf)%nat → buffer_ok c → gc_segments c = [] → gc_payload_total c = 0%nat → gc_pending_psh c = false → stable c [].
Proof.
  intros Hc Hb Hs Ht Hp. constructor; [|by apply Forall_nil|cbn; lia|done]. constructor; try done; try (by apply Forall_nil).
  - rewrite Hs. constructor.
  - by rewrite Hs.
  - cbn. lia.
Qed.
Lemma reset_stable c : (0 < cf_segment_cap cf)%nat → buffer_ok c → stable (Gso_Reset c) [].
Proof. intros Hc Hb. by apply empty_stable. Qed.

Lemma buffer_same c c' : same_buffer c c' → buffer_ok c → buffer_ok c'.
Proof. intros (E & _ & _). unfold buffer_ok. by rewrite E. Qed.

Lemma flush_gso reason now c p0 b0 i0 pk1 rest :
  let ps := (p0, b0, i0) :: pk1 :: rest in
  held c ps → gc_pending_psh c = last_psh ps → (0 < cf_segment_cap cf)%nat →
  let r := Gso_Flush cf reason now c in
  progress c ps [] r.2 [] r.1 ∧ stable r.2 [] ∧ (gc_enabled r.2 = true → gc_enabled c = true).
Proof.
  intros ps Hh Hpsh Hc. cbv zeta. destruct (gso_frame_bytes c p0 b0 i0 pk1 rest Hh Hpsh) as (big & Hsf & Hfr). cbv zeta in Hfr.
  pose proof (gso_frame_packets c p0 b0 i0 pk1 rest Hh big Hsf) as Hpk.
  pose proof (hd_stored _ _ Hh) as Hst0. apply Forall2_cons_inv_l in Hst0 as (s0 & ss0 & _ & Hst0 & Es). apply Forall2_cons_inv_l in Hst0 as (s1 & ss1 & _ & _ & Es1).
  unfold Gso_Flush. rewrite Es, Es1. destruct (BuildGso c) as [size sp]. cbn [fst snd] in Hfr. set (c1 := set_buffer c sp) in *.
  destruct Hfr as (Efr & Hst & Hbuf). rewrite Efr. set (frame := virtio_bytes _ ++ big) in *. unfold WriteFrame. cbv zeta.
  set (w := cf_writer cf (gc_log c1) frame). pose proof (frame_progress c ps frame w Hpk) as Hf.
  destruct (write_outcome w (length frame)) eqn:Eo.
  - exfalso. pose proof (write_outcome_inv w (length frame)) as H. by rewrite Eo in H.
  - split; [|split; [by apply reset_stable|done]]. apply Hf. done.
  - set (c2 := Emit (set_enabled _ false) _). change (gc_segments c2) with (gc_segments c).
    assert (progress c ps [] c2 ps true) as H1 by (apply Hf; done).
    destruct (write_stored_spec reason (if gc_started_ns c <=? now then now - gc_started_ns c else 0) (gc_segments c) ps c2) as [H2 HB];
      [apply (hd_eligible _ _ Hh)|exact Hst|].
    change (gc_started_ns c1) with (gc_started_ns c).
    destruct (write_stored cf (gc_segments c) reason _ c2) as [ok c3]. cbn [fst snd] in *.
    assert (same_buffer c2 c3) as (HB1 & HB2 & HB3) by exact HB.
    split; [|split; [apply reset_stable; [done|by apply (buffer_same c2 c3)]|]].
    + apply (progress_log c ps [] c3 [] ok c); [|done|done]. exact (progress_trans _ _ [] _ _ true [] _ _ ok H1 H2).
    + cbn. rewrite HB3. done.
  - split; [|split; [by apply reset_stable|done]]. apply Hf. done.
Qed.

Lemma flush_spec reason now c ps :
  held c ps → gc_pending_psh c = last_psh ps → (0 < cf_segment_cap cf)%nat →
  let r := Gso_Flush cf reason now c in
  progress c ps [] r.2 [] r.1 ∧ stable r.2 [] ∧ (gc_enabled r.2 = true → gc_enabled c = true).
Proof.
  intros Hh Hpsh Hc. destruct ps as [|[[p0 b0] i0] [|pk1 rest]]; [| |by apply flush_gso].
  - pose proof (hd_stored _ _ Hh) as Hst. apply Forall2_nil_inv_l in Hst. unfold Gso_Flush. rewrite Hst. cbn [fst snd].
    split; [apply progress_refl|]. split; [|done]. apply empty_stable; [done|apply (hd_buffer _ _ Hh)|done|apply (hd_total _ _ Hh)|done].
  - pose proof (hd_stored _ _ Hh) as Hst. apply Forall2_cons_inv_l in Hst as (s & ss & Hs & Hst & Es). apply Forall2_nil_inv_l in Hst as ->.
    pose proof (hd_eligible _ _ Hh) as Hel. apply Forall_cons in Hel as [He _].
    unfold Gso_Flush. rewrite Es. cbv zeta. set (hold := if gc_started_ns c <=? now then now - gc_started_ns c else 0).
    destruct (write_stored_one s reason hold c (p0, b0, i0) He Hs) as [H1 HB]. destruct (WriteOrdinaryStored cf s reason hold c) as [ok c1]. cbn [fst snd] in *.
    split; [|split; [apply reset_stable; [done|by apply (buffer_same c c1), (hd_buffer _ _ Hh)]|]].
    + apply (progress_log c _ _ c1 _ ok c); [|done|done]. destruct ok; [done|]. destruct H1 as (ps' & n1 & k1 & L1 & S1 & F1 & _).
      exists n1, k1. split_and!; [done| |done|done]. rewrite app_nil_r. etrans; [apply sublist_inserts_r; reflexivity|exact S1].
    + cbn. destruct HB as (_ & _ & ->). done.
Qed.

(** ** Operations *)
Lemma stable_last c ps : stable c ps → gc_pending_psh c = last_psh ps.
Proof.
  intros [_ Hf _ ->]. unfold last_psh. destruct (last ps) as [pk|] eqn:E; [|done]. rewrite last_lookup in E.
  by apply (Forall_lookup_1 _ _ _ _ Hf) in E as [_ ->].
Qed.
Lemma stable_cap c ps : stable c ps → (0 < cf_segment_cap cf)%nat.
Proof. intros [_ _ H _]. lia. Qed.
Lemma stable_flush reason now c ps :
  stable c ps → let r := Gso_Flush cf reason now c in
  progress c ps [] r.2 [] r.1 ∧ stable r.2 [] ∧ (gc_enabled r.2 = true → gc_enabled c = true).
Proof. intros H. apply flush_spec; [apply H|by apply stable_last|by eapply stable_cap]. Qed.
Lemma stable_count c ps : stable c ps → gc_count c = length ps ∧ (has_pending c = false ↔ ps = []).
Proof.
  intros [H _ _ _]. assert (gc_count c = length ps) as E by (unfold gc_count; symmetry; eapply Forall2_length, (hd_stored _ _ H)).
  split; [done|]. unfold has_pending. rewrite E. destruct ps; cbn; naive_solver.
Qed.
Lemma stable_same c c' ps :
  stable c ps → gc_key c' = gc_key c → gc_segments c' = gc_segments c → gc_payload_total c' = gc_payload_total c →
  gc_pending_psh c' = gc_pending_psh c → gc_next_seq c' = gc_next_seq c → gc_superpacket c' = gc_superpacket c → stable c' ps.
Proof.
  intros [[H1 H2 H3 H4 H5 H6 H7 H8 H9 H10 H11 H12] F R P] E1 E2 E3 E4 E5 E6. unfold held_header, buffer_ok in *.
  constructor; [|by rewrite E1|done|by rewrite E4]. constructor; unfold held_header, buffer_ok; rewrite ?E1, ?E2, ?E3, ?E5, ?E6; done.
Qed.

(** [WriteOrdinary] leaves what is held alone; the new packet goes out first. *)
Lemma ordinary_spec reason hold partial packet c ps :
  stable c ps → bytes_ok packet → let r := WriteOrdinary cf packet reason hold partial c in
  stable r.2 ps ∧ gc_enabled r.2 = gc_enabled c ∧
  ∃ new, gc_log r.2 = gc_log c ++ new ∧
    ((Forall2 same_segment [(packet, partial)] (brought new) ∧ (r.1 = true → all_complete new)) ∨ (brought new = [] ∧ r.1 = false)).
Proof.
  intros Hs Hbp. unfold WriteOrdinary. cbv zeta. case_if as E1.
  { cbn [fst snd]. split; [by apply (stable_same c)|]. split; [done|]. exists []. rewrite app_nil_r. split; [done|]. right. done. }
  destruct (if partial then option_map pi_ihl (ParsePacket packet) else Some 0%nat) as [start|] eqn:Est; cbn [fst snd]; cycle 1.
  { split; [done|]. split; [done|]. exists []. rewrite app_nil_r. split; [done|]. right. done. }
  unfold WriteFrame. set (frame := ordinary_header partial start ++ packet). set (w := cf_writer cf (gc_log c) frame). cbn [fst snd].
  split; [by apply (stable_same c)|]. split; [done|]. exists [(frame, w)]. split; [done|].
  assert (Forall2 same_segment [(packet, partial)] (frame_packets frame)) as Efp.
  { unfold frame. destruct partial.
    - destruct (ParsePacket packet) as [i|] eqn:Ep; [|done]. injection Est as <-. pose proof (parse_packet_ok packet i Hbp Ep) as Hok.
      rewrite ordinary_packets by (pose proof (po_word _ _ Hok); pose proof (po_sum _ _ Hok); lia).
      constructor; [by apply (same_whole packet true i)|constructor].
    - rewrite ordinary_packets by (injection Est as <-; lia). constructor; [|constructor]. by left. }
  rewrite brought_one. pose proof (write_outcome_inv w (length frame)) as Ho.
  destruct (write_outcome w (length frame)); [done| | |]; cbn [is_complete].
  - left. rewrite (proj2 (Z.leb_le _ _)) by lia. split; [done|]. intros _. apply Forall_singleton. by intros _.
  - right. rewrite (proj2 (Z.leb_gt _ _)) by lia. done.
  - left. rewrite (proj2 (Z.leb_le _ _)) by lia. done.
Qed.

(** Packets in any order: nothing twice, and nothing missing when the call succeeds. *)
Definition accounted (c : Coalescer) (ps : list pkt) (qs : list (list Z * bool)) (c' : Coalescer) (ps' : list pkt) (ok : bool) : Prop :=
  ∃ new k, gc_log c' = gc_log c ++ new ∧ (k ++ (fst <$> ps')) ⊆+ ((fst <$> ps) ++ qs) ∧ Forall2 same_segment k (brought new) ∧
    (ok = true → k ++ (fst <$> ps') ≡ₚ (fst <$> ps) ++ qs ∧ all_complete new).
Lemma progress_accounted c ps qs c' ps' ok : progress c ps qs c' ps' ok → accounted c ps qs c' ps' ok.
Proof.
  intros (n & k & L & S & F & T). exists n, k. split_and!; [done|by apply sublist_submseteq|done|]. intros Ho. destruct (T Ho) as [-> A]. done.
Qed.

Lemma ordinary_accounted packet reason hold partial c ps :
  stable c ps → bytes_ok packet → let r := WriteOrdinary cf packet reason hold partial c in
  stable r.2 ps ∧ gc_enabled r.2 = gc_enabled c ∧ accounted c ps [(packet, partial)] r.2 ps r.1 ∧
  (ps = [] → progress c ps [(packet, partial)] r.2 ps r.1).
Proof.
  intros Hs Hbp. destruct (ordinary_spec reason hold partial packet c ps Hs Hbp) as (H1 & H2 & new & L & H). cbv zeta in *.
  split; [done|]. split; [done|]. destruct H as [[Eb Hok]|[Eb Hok]].
  - split.
    + exists new, [(packet, partial)]. split_and!; [done|rewrite Permutation_app_comm; reflexivity|exact Eb|].
      intros Ho. split; [by rewrite Permutation_app_comm|by apply Hok].
    + intros ->. exists new, [(packet, partial)]. split_and!; [done|done|exact Eb|]. intros Ho. split; [done|by apply Hok].
  - rewrite Hok. split.
    + exists new, []. rewrite Eb. split_and!; [done|by apply submseteq_inserts_r|constructor|done].
    + intros ->. exists new, []. rewrite Eb. split_and!; [done|apply sublist_nil_l|constructor|done].
Qed.

(** ** Holding a packet *)
Lemma wrap_sub_zero a b : is_uint 32 a → is_uint 32 b → a -[32] b = 0 → a = b.
Proof.
  intros Ha Hb E. destruct (decide (b ≤ a)).
  - rewrite wrap_sub_ge in E by done. lia.
  - rewrite wrap_sub_lt in E by (done || lia). uint_lia.
Qed.

Lemma can_append_spec c ps p i :
  stable c ps → ps ≠ [] → eligible p i → CanAppend c p i = true →
  key_with (key_of p i) (mk_gso_size (gc_key c)) = gc_key c ∧ (pi_payload i ≤ mk_gso_size (gc_key c))%nat ∧ pi_seq i = gc_next_seq c ∧
  Z.of_nat (held_header c + (length ps * mk_gso_size (gc_key c) + pi_payload i)) ≤ 65535.
Proof.
  intros Hs Hn He Hc. destruct (stable_count c ps Hs) as [Ec _]. pose proof (sb_held _ _ Hs) as Hh. destruct ps as [|[p0 i0] ps']; [done|].
  pose proof (hd_key _ _ Hh) as Hks. apply Forall_cons in Hks as [[Hk0 _] _]. cbn [fst snd] in Hk0.
  pose proof (hd_eligible _ _ Hh) as Hel. apply Forall_cons in Hel as [[_ Hok0 _] _]. cbn [fst snd] in Hok0.
  assert (is_uint 32 (gc_next_seq c)) as Hu.
  { destruct (last ((p0, i0) :: ps')) as [[pl il]|] eqn:El; [|by apply last_None in El]. rewrite (hd_next _ _ Hh _ _ El). apply wrap_range. lia. }
  revert Hc. unfold CanAppend. cbv zeta. case_if as E1; [done|]. case_if as E2; [done|]. case_if as E3; [done|]. case_if as E4; [done|]. case_if as E5; [done|].
  intros E6. unfold same_bytes in *. size_props. rewrite Ec in E6.
  assert (mk_tcp_fixed (gc_key c) = sub (mk_tcp_fixed (gc_key c)) 0 4 ++ sub (mk_tcp_fixed (gc_key c)) 4 4 ++ sub (mk_tcp_fixed (gc_key c)) 8 2 ++
    sub (mk_tcp_fixed (gc_key c)) 10 2) as Ef.
  { rewrite <- Hk0. cbn [key_with key_of mk_tcp_fixed]. set (f := sub _ 0 4 ++ _). assert (length f = 12%nat) as Lf.
    { unfold f. pose proof (po_ihl_min _ _ Hok0). pose proof (po_doff_min _ _ Hok0). pose proof (po_sum _ _ Hok0). pose proof (po_fits _ _ Hok0).
      rewrite !length_app, !length_sub by (rewrite length_drop; lia). done. }
    pose proof (sub_join f 8 2 2) as J1. pose proof (sub_join f 4 4 4) as J2. pose proof (sub_join f 0 4 8) as J3. cbn [Nat.add] in J1, J2, J3.
    rewrite J1, J2, J3. by rewrite sub_all. }
  split_and!.
  - destruct (gc_key c) as [ihl doff gso tos ttl df flow fixed ipo tco]. cbn [key_with mk_ihl mk_doff mk_gso_size mk_tos mk_ttl mk_df mk_flow mk_tcp_fixed mk_ip_options mk_tcp_options] in *.
    unfold key_of, key_with. cbn [mk_ihl mk_doff mk_tos mk_ttl mk_df mk_flow mk_tcp_fixed mk_ip_options mk_tcp_options]. rewrite Ef. f_equal; congruence.
  - lia.
  - apply wrap_sub_zero; [|done|done]. rewrite (po_seq _ _ (el_ok _ _ He)). pose proof (el_ok _ _ He) as [Hb ? ? Hi ? ? ? ? Hd ? Hsum Hf ? ?].
    apply get32_range; [by apply bytes_ok_drop|rewrite length_drop; lia].
  - unfold held_header. lia.
Qed.

Lemma store_spec c ps p i owner now :
  stable c ps → eligible p i → ps = [] ∨ CanAppend c p i = true →
  let c' := if has_pending c then Gso_Append cf p i owner c else Gso_Start cf p i owner now c in
  held c' (ps ++ [(p, default false owner, i)]) ∧ gc_log c' = gc_log c ∧ gc_pending_psh c' = false ∧ gc_enabled c' = gc_enabled c.
Proof.
  intros Hs He Hor. cbv zeta. destruct (stable_count c ps Hs) as [Ec Ep]. destruct (has_pending c) eqn:Eh.
  - assert (ps ≠ []) as Hn by (intros ->; by destruct Ep as [_ Ep]; specialize (Ep eq_refl)).
    destruct Hor as [->|Hca]; [done|]. destruct (can_append_spec c ps p i Hs Hn He Hca) as (K1 & K2 & K3 & K4).
    split_and!; [|done|apply (sb_psh _ _ Hs)|done]. apply store_held; try done; apply Hs.
  - assert (ps = []) as -> by (by apply Ep). split_and!; [|done|done|done]. unfold Gso_Start. set (c1 := mkCoalescer _ _ _ _ _ _ _ _ _ _ _).
    assert (gc_segments c = []) as Eg by (unfold gc_count in Ec; cbn in Ec; by apply nil_length_inv).
    assert (stable c1 []) as Hs1.
    { apply empty_stable; [by eapply stable_cap|apply (hd_buffer _ _ (sb_held _ _ Hs))|done|apply (hd_total _ _ (sb_held _ _ Hs))|done]. }
    apply (store_held c1 [] p i owner (sb_held _ _ Hs1)); try done; [apply Hs1|].
    cbn [length Nat.mul Nat.add c1 held_header gc_key key_of mk_ihl mk_doff]. pose proof (po_word _ _ (el_ok _ _ He)). pose proof (po_sum _ _ (el_ok _ _ He)).
    unfold held_header. cbn [gc_key c1 key_of mk_ihl mk_doff]. lia.
Qed.

Lemma held_set_psh c ps : held c ps → held (set_psh c) ps.
Proof. intros [H1 H2 H3 H4 H5 H6 H7 H8 H9 H10 H11 H12]. by constructor. Qed.

(** The end of a push: the boundaries at which the held packets leave at once. *)
Lemma finish_spec c ps p b i now :
  held c (ps ++ [(p, b, i)]) → gc_pending_psh c = false →
  let r := if psh_of p i then Gso_Flush cf FlPsh now (set_psh c)
           else if (pi_payload i <? mk_gso_size (gc_key c))%nat then Gso_Flush cf FlShortTail now c
           else if (gc_count c =? cf_segment_cap cf)%nat then Gso_Flush cf FlCap now c
           else (true, c) in
  ∃ ps', progress c (ps ++ [(p, b, i)]) [] r.2 ps' r.1 ∧ stable r.2 ps' ∧ (gc_enabled r.2 = true → gc_enabled c = true).
Proof.
  intros Hh Hp. cbv zeta. assert (last_psh (ps ++ [(p, b, i)]) = psh_of p i) as El by (unfold last_psh; by rewrite last_snoc).
  assert (0 < cf_segment_cap cf)%nat as Hcap by (pose proof (hd_count _ _ Hh) as H; rewrite length_app in H; cbn in H; lia).
  assert (gc_count c = length (ps ++ [(p, b, i)])) as Ec by (unfold gc_count; symmetry; eapply Forall2_length, (hd_stored _ _ Hh)).
  destruct (psh_of p i) eqn:Epsh.
  { exists []. destruct (flush_spec FlPsh now (set_psh c) (ps ++ [(p, b, i)])) as (H1 & H2 & H3); [by apply held_set_psh|by rewrite El|done|].
    split; [by apply (progress_log (set_psh c) _ _ _ _ _ c _ H1)|done]. }
  destruct (Nat.ltb_spec (pi_payload i) (mk_gso_size (gc_key c))) as [Hlt|Hge].
  { exists []. apply flush_spec; [done|by rewrite El|done]. }
  destruct (Nat.eqb_spec (gc_count c) (cf_segment_cap cf)) as [Hcc|Hcc].
  { exists []. apply flush_spec; [done|by rewrite El|done]. }
  exists (ps ++ [(p, b, i)]). cbn [fst snd]. split; [apply progress_refl|]. split; [|done]. constructor; [done| | |done].
  - pose proof (hd_key _ _ Hh) as Hks. apply Forall_app. split.
    + apply Forall_lookup. intros j [q k] Hj. apply (hd_full _ _ Hh j q k); [rewrite lookup_app_l; [done|by eapply lookup_lt_Some]|].
      apply lookup_lt_Some in Hj. rewrite length_app. cbn. lia.
    + apply Forall_singleton. cbn [fst snd]. split; [|done]. apply Forall_app in Hks as [_ Hk]. apply Forall_singleton in Hk as [_ Hle]. cbn in Hle. lia.
  - pose proof (hd_count _ _ Hh). lia.
Qed.

Lemma classify_none packet i :
  bytes_ok packet → ClassifyStrictV1 packet = (RejNone, i) → eligible packet i.
Proof.
  intros Hb. unfold ClassifyStrictV1. destruct (ParsePacket packet) as [j|] eqn:Ep; [|done]. case_if as E1; [done|].
  destruct (Nat.ltb_spec kMaxPacketBytes (length packet)); [done|]. intros [= <-]. constructor; [done|by apply parse_packet_ok|lia|]. by apply negb_false_iff, Z.eqb_eq in E1.
Qed.

(** A push while nothing is expired. *)
Definition push_result (c : Coalescer) (ps : list pkt) (packet : list Z * bool) (r : bool * Coalescer) : Prop :=
  ∃ ps', stable r.2 ps' ∧ progress c ps [packet] r.2 ps' r.1 ∧ (gc_enabled r.2 = true → gc_enabled c = true).

Lemma push_rejected packet owner now rejection c ps :
  stable c ps → bytes_ok packet →
  push_result c ps (packet, default false owner)
    (let '(ok, c) := Gso_Flush cf (FlushForRejection rejection) now
       (Emit c (mkEvent EvRejectedPacket rejection FlExplicit WoNone (length packet) 0 0 0 0 0)) in
     if negb ok then (false, c) else WriteOrdinary cf packet FlExplicit 0 (default false owner) c).
Proof.
  intros Hs Hbp. set (c0 := Emit c _). assert (stable c0 ps) as Hs0 by (by apply (stable_same c)).
  destruct (stable_flush (FlushForRejection rejection) now c0 ps Hs0) as (H1 & H2 & H3). cbv zeta in *.
  destruct (Gso_Flush cf _ now c0) as [ok c1]. cbn [fst snd] in *. exists []. destruct ok; cbn [negb].
  - destruct (ordinary_accounted packet FlExplicit 0 (default false owner) c1 [] H2 Hbp) as (G1 & G2 & _ & G4). cbv zeta in *.
    split; [done|]. split; [|rewrite G2; exact H3].
    exact (progress_log c0 ps [(packet, default false owner)] _ [] _ c _ (progress_trans c0 ps [] c1 [] true [(packet, default false owner)] _ [] _ H1 (G4 eq_refl)) eq_refl eq_refl).
  - cbn [fst snd]. split; [done|]. split; [|exact H3]. exact (progress_log c0 ps [(packet, default false owner)] c1 [] false c c1 (progress_fail c0 ps [] c1 [] false [(packet, default false owner)] H1) eq_refl eq_refl).
Qed.

Lemma push_admitted packet i owner now c ps :
  stable c ps → eligible packet i →
  push_result c ps (packet, default false owner)
    (let c := Emit c (mkEvent EvEligiblePacket RejNone FlExplicit WoNone (length packet) (pi_payload i) 0 1 0 0) in
     let '(ok, c) := if has_pending c && negb (CanAppend c packet i) then Gso_Flush cf FlIncompatible now c else (true, c) in
     if negb ok then (false, c) else
     let c := if has_pending c then Gso_Append cf packet i owner c else Gso_Start cf packet i owner now c in
     if psh_of packet i then Gso_Flush cf FlPsh now (set_psh c)
     else if (pi_payload i <? mk_gso_size (gc_key c))%nat then Gso_Flush cf FlShortTail now c
     else if (gc_count c =? cf_segment_cap cf)%nat then Gso_Flush cf FlCap now c
     else (true, c)).
Proof.
  intros Hs He. cbv zeta. set (c0 := Emit c _). assert (stable c0 ps) as Hs0 by (by apply (stable_same c)).
  assert (∃ ok c1 ps1, (if has_pending c0 && negb (CanAppend c0 packet i) then Gso_Flush cf FlIncompatible now c0 else (true, c0)) = (ok, c1) ∧
    stable c1 ps1 ∧ progress c0 ps [] c1 ps1 ok ∧ (ps1 = [] ∨ CanAppend c1 packet i = true) ∧ (gc_enabled c1 = true → gc_enabled c0 = true))
    as (ok & c1 & ps1 & -> & H1 & H2 & H3 & H4).
  { destruct (has_pending c0) eqn:Eh, (CanAppend c0 packet i) eqn:Ec; cbn [andb negb].
    - exists true, c0, ps. split_and!; [done|done|apply progress_refl|by right|done].
    - destruct (stable_flush FlIncompatible now c0 ps Hs0) as (G1 & G2 & G3). destruct (Gso_Flush cf FlIncompatible now c0) as [ok c1]. exists ok, c1, [].
      split_and!; [done|done|done|by left|done].
    - exists true, c0, ps. split_and!; [done|done|apply progress_refl|by right|done].
    - exists true, c0, ps. split_and!; [done|done|apply progress_refl|left; by apply (stable_count c0 ps Hs0)|done]. }
  destruct ok; cbn [negb]; cycle 1.
  { exists ps1. cbn [fst snd]. split; [done|]. split; [|done]. exact (progress_log c0 ps [(packet, default false owner)] c1 ps1 false c c1 (progress_fail c0 ps [] c1 ps1 false [(packet, default false owner)] H2) eq_refl eq_refl). }
  destruct (store_spec c1 ps1 packet i owner now H1 He H3) as (G1 & G2 & G3 & G4). cbv zeta in *.
  set (c2 := if has_pending c1 then _ else _) in *. destruct (finish_spec c2 ps1 packet (default false owner) i now G1 G3) as (ps' & F1 & F2 & F3). cbv zeta in *.
  exists ps'. split; [done|]. split; [|intros E; apply H4; rewrite <- G4; by apply F3].
  pose proof (progress_trans _ _ _ _ _ _ _ _ _ _ (progress_hold c1 ps1 (packet, default false owner) i c2 G2) F1) as P1. rewrite app_nil_r in P1.
  exact (progress_log _ _ _ _ _ _ c _ (progress_trans _ _ _ _ _ _ _ _ _ _ H2 P1) eq_refl eq_refl).
Qed.

Lemma push_classified_spec packet owner now c ps :
  stable c ps → bytes_ok packet → push_result c ps (packet, default false owner) (push_classified cf packet owner now c).
Proof.
  intros Hs Hb. unfold push_classified. destruct (ClassifyStrictV1 packet) as [rej i] eqn:Ec. cbv zeta.
  destruct rej; try by (apply (push_rejected packet owner now _ c ps Hs)).
  fold (psh_of packet i). destruct (psh_of packet i && negb (cf_psh_boundary cf)); [by apply push_rejected|].
  by apply push_admitted, (classify_none packet i Hb Ec).
Qed.

Lemma push_spec packet owner now c ps :
  stable c ps → bytes_ok packet → let r := PushInternal cf packet owner now c in
  ∃ ps', stable r.2 ps' ∧ accounted c ps [(packet, default false owner)] r.2 ps' r.1 ∧ (gc_enabled c = true → progress c ps [(packet, default false owner)] r.2 ps' r.1) ∧
    (gc_enabled r.2 = true → gc_enabled c = true).
Proof.
  intros Hs Hb. cbv zeta. unfold PushInternal. destruct packet as [|b packet'].
  { exists ps. cbn [fst snd]. assert (progress c ps [([], default false owner)] c ps false) as P by (by apply progress_drop).
    split; [done|]. split; [by apply progress_accounted|done]. }
  set (packet := b :: packet') in *. destruct (gc_enabled c) eqn:Een; cbn [negb]; cycle 1.
  { destruct (ordinary_accounted packet FlExplicit 0 (default false owner) c ps Hs Hb) as (G1 & G2 & G3 & _). cbv zeta in *.
    exists ps. split_and!; [done|done|done|]. rewrite G2, Een. done. }
  assert (∃ ok c1 ps1, (if has_pending c && expired cf now c then Gso_Flush cf FlTimeout now c else (true, c)) = (ok, c1) ∧
    stable c1 ps1 ∧ progress c ps [] c1 ps1 ok) as (ok & c1 & ps1 & -> & H1 & H2).
  { destruct (has_pending c && expired cf now c); [|exists true, c, ps; split_and!; [done|done|apply progress_refl]].
    destruct (stable_flush FlTimeout now c ps Hs) as (G1 & G2 & _). destruct (Gso_Flush cf FlTimeout now c) as [ok c1]. by exists ok, c1, []. }
  destruct ok; cbn [negb].
  - destruct (push_classified_spec packet owner now c1 ps1 H1 Hb) as (ps' & G1 & G2 & _). exists ps'.
    pose proof (progress_trans _ _ _ _ _ _ _ _ _ _ H2 G2) as P. split_and!; [done|by apply progress_accounted|by intros _|done].
  - exists ps1. pose proof (progress_fail c ps [] c1 ps1 false [(packet, default false owner)] H2) as P. split_and!; [done|by apply progress_accounted|by intros _|done].
Qed.

Lemma accounted_trans c ps a c1 ps1 ok1 b c2 ps2 ok2 :
  accounted c ps a c1 ps1 ok1 → accounted c1 ps1 b c2 ps2 ok2 → accounted c ps (a ++ b) c2 ps2 (ok1 && ok2).
Proof.
  intros (n1 & k1 & L1 & S1 & F1 & T1) (n2 & k2 & L2 & S2 & F2 & T2). exists (n1 ++ n2), (k1 ++ k2). split_and!.
  - by rewrite L2, L1, app_assoc.
  - rewrite <- app_assoc. etrans; [apply submseteq_app; [reflexivity|exact S2]|]. rewrite app_assoc, (app_assoc (fst <$> ps)). by apply submseteq_app.
  - rewrite brought_app. by apply Forall2_app.
  - intros [E1 E2]%andb_prop. destruct (T1 E1) as [P1 A1], (T2 E2) as [P2 A2]. split; [|by apply Forall_app].
    by rewrite <- app_assoc, P2, app_assoc, P1, app_assoc.
Qed.

(** What the coalescer still holds. *)
Definition pending_packets (c : Coalescer) : list (list Z * bool) :=
  map (λ s, (ss_header s ++ source_payload c s ++ ss_tail s, ss_checksum_partial s)) (gc_segments c).
Lemma pending_held c ps : held c ps → pending_packets c = fst <$> ps.
Proof.
  intros H. pose proof (hd_eligible _ _ H) as He. pose proof (hd_stored _ _ H) as Hs. clear H. unfold pending_packets.
  induction Hs as [|pk s ps' ss Hst _ IH]; [done|]. apply Forall_cons in He as [He Hes].
  cbn [map]. rewrite fmap_cons, (IH Hes), (stored_frame c pk s He Hst), (st_partial _ _ _ _ Hst). by rewrite <- surjective_pairing.
Qed.

(** ** Histories *)
Inductive GsoOp :=
  | GPush (packet : list Z) (now : Z)
  | GPushOwned (packet : list Z) (owner : option bool) (now : Z)
  | GWriteOrdinary (packet : list Z) (partial : bool)
  | GFlush (reason : FlushReason) (now : Z)
  | GFlushExpired (now : Z)
  | GDisable (reason : FlushReason) (now : Z).
Definition gso_step (c : Coalescer) (op : GsoOp) : bool * Coalescer :=
  match op with
  | GPush packet now => Gso_Push cf packet now c
  | GPushOwned packet owner now => Gso_PushOwned cf packet owner now c
  | GWriteOrdinary packet partial => WriteOrdinaryFrame cf packet partial c
  | GFlush reason now => Gso_Flush cf reason now c
  | GFlushExpired now => FlushExpired cf now c
  | GDisable reason now => DisableAndFlush cf reason now c
  end.
(** The packet of a call, with the mark it is given; a null owner gives none. *)
Definition op_packets (op : GsoOp) : list (list Z * bool) :=
  match op with
  | GPush p _ => [(p, false)]
  | GPushOwned p owner _ => [(p, default false owner)]
  | GWriteOrdinary p partial => [(p, partial)]
  | _ => []
  end.
Definition packet_bytes_ok (p : list Z * bool) : Prop := bytes_ok p.1.
Definition is_direct (op : GsoOp) : bool := match op with GWriteOrdinary _ _ => true | _ => false end.

Lemma step_spec c ps op :
  stable c ps → Forall packet_bytes_ok (op_packets op) → let r := gso_step c op in
  ∃ ps', stable r.2 ps' ∧ accounted c ps (op_packets op) r.2 ps' r.1 ∧
    (gc_enabled r.2 = true → is_direct op = false → progress c ps (op_packets op) r.2 ps' r.1) ∧ (gc_enabled r.2 = true → gc_enabled c = true).
Proof.
  intros Hs Hb. cbv zeta.
  assert (∀ reason now, let r := Gso_Flush cf reason now c in ∃ ps', stable r.2 ps' ∧ accounted c ps [] r.2 ps' r.1 ∧
    progress c ps [] r.2 ps' r.1 ∧ (gc_enabled r.2 = true → gc_enabled c = true)) as Hfl.
  { intros reason now. destruct (stable_flush reason now c ps Hs) as (G1 & G2 & G3). exists []. split_and!; [done|by apply progress_accounted|done|done]. }
  assert (∀ packet owner now, Forall packet_bytes_ok [(packet, default false owner)] → let r := PushInternal cf packet owner now c in ∃ ps', stable r.2 ps' ∧
    accounted c ps [(packet, default false owner)] r.2 ps' r.1 ∧ (gc_enabled r.2 = true → false = false → progress c ps [(packet, default false owner)] r.2 ps' r.1) ∧
    (gc_enabled r.2 = true → gc_enabled c = true)) as Hpu.
  { intros packet owner now [Hp _]%Forall_cons. destruct (push_spec packet owner now c ps Hs Hp) as (ps' & G1 & G2 & G3 & G4).
    exists ps'. split_and!; [done|done|by auto|done]. }
  destruct op as [packet now|packet owner now|packet partial|reason now|now|reason now]; cbn [gso_step op_packets is_direct].
  - by apply (Hpu packet None now).
  - unfold Gso_PushOwned. destruct owner as [o|]; [by apply (Hpu packet (Some o) now)|]. exists ps. cbn [fst snd].
    assert (progress c ps [(packet, default false None)] c ps false) as P by (by apply progress_drop). split_and!; [done|by apply progress_accounted|done|done].
  - destruct (ordinary_accounted packet FlExplicit 0 partial c ps Hs ltac:(by apply Forall_inv in Hb)) as (G1 & G2 & G3 & _). exists ps. split_and!; [done|done|done|intros H; by rewrite <- G2].
  - destruct (Hfl reason now) as (ps' & G1 & G2 & G3 & G4). by exists ps'.
  - unfold FlushExpired. case_if as E; [|destruct (Hfl FlTimeout now) as (ps' & G1 & G2 & G3 & G4); by exists ps'].
    exists ps. cbn [fst snd]. split_and!; [done|apply progress_accounted, progress_refl|intros _ _; apply progress_refl|done].
  - unfold DisableAndFlush. destruct (gc_enabled c) eqn:Een; cbn [negb].
    + destruct (Hfl reason now) as (ps' & G1 & G2 & _). destruct (Gso_Flush cf reason now c) as [ok c1]. cbn [fst snd] in *.
      exists ps'. split_and!; [by apply (stable_same c1)|exact G2|done|done].
    + exists ps. cbn [fst snd]. split_and!; [by apply (stable_same c)| |done|done].
      apply progress_accounted. exact (progress_log c ps [] c ps true c (set_enabled c false) (progress_refl c ps) eq_refl eq_refl).
Qed.

Definition pushed (ops : list GsoOp) : list (list Z * bool) := mjoin (op_packets <$> ops).
Definition all_true (answers : list bool) : bool := forallb (λ b, b) answers.

Lemma run_spec ops c ps :
  stable c ps → Forall packet_bytes_ok (pushed ops) → let r := run gso_step c ops in
  ∃ ps', stable r.2 ps' ∧ accounted c ps (pushed ops) r.2 ps' (all_true r.1) ∧
    (gc_enabled r.2 = true → Forall (λ op, is_direct op = false) ops → progress c ps (pushed ops) r.2 ps' (all_true r.1)) ∧
    (gc_enabled r.2 = true → gc_enabled c = true).
Proof.
  revert c ps. induction ops as [|op ops IH]; intros c ps Hs Hb; cbv zeta.
  { exists ps. split_and!; [done|apply progress_accounted, progress_refl|intros _ _; apply progress_refl|done]. }
  unfold pushed in *. rewrite fmap_cons, mjoin_cons in *. apply Forall_app in Hb as [Hb1 Hb2].
  destruct (step_spec c ps op Hs Hb1) as (ps1 & G1 & G2 & G3 & G4). cbn [run]. destruct (gso_step c op) as [ok c1]. cbn [fst snd] in *.
  destruct (IH c1 ps1 G1 Hb2) as (ps2 & F1 & F2 & F3 & F4). destruct (run gso_step c1 ops) as [oks c2]. cbn [fst snd] in *.
  exists ps2. change (all_true (ok :: oks)) with (ok && all_true oks). split_and!; [done|by eapply accounted_trans| |by auto].
  intros He [Hd Hds]%Forall_cons. eapply progress_trans; [apply G3|apply F3]; auto.
Qed.

Lemma new_stable : (0 < cf_segment_cap cf)%nat → stable (Coalescer_new cf) [].
Proof.
  intros Hc. apply empty_stable; try done. split; [by cbn [Coalescer_new gc_superpacket]; rewrite length_replicate|].
  cbn [Coalescer_new gc_superpacket]. apply Forall_replicate. unfold is_byte. uint_lia.
Qed.
End held.

(** C31: Whatever the writer answers, the frames that a history of calls writes bring, for each packet of
    a list [k] of packets that were pushed, either the very same bytes, with the request to fill the TCP
    checksum at its TCP header exactly when the packet was pushed marked as partially checksummed, or a
    segment that the input path cuts from a super-packet: with its checksums valid, nothing left to fill, and
    every byte of the datagram but the identification, the fragment word other than its DF bit, the
    checksums, the reserved bits beside the data offset and the acknowledgement flag.  (Ordinary frames are read by their header; super-packets through the input
    path.)  No packet is brought or kept twice and none is invented.  When every call answers true nothing
    is missing either: every pushed packet was brought by a fully written frame or is still held, marked as it
    was.  As long as the coalescer is enabled and the caller does not write around it, the packets leave in
    the order in which they were pushed. *)
Theorem gso_delivery cf ops :
  (0 < cf_segment_cap cf)%nat → Forall packet_bytes_ok (pushed ops) →
  let '(answers, c) := run (gso_step cf) (Coalescer_new cf) ops in
  ∃ k, Forall2 same_segment k (brought (gc_log c)) ∧ k ++ pending_packets c ⊆+ pushed ops ∧
    (all_true answers = true → k ++ pending_packets c ≡ₚ pushed ops ∧ all_complete (gc_log c)) ∧
    (gc_enabled c = true → Forall (λ op, is_direct op = false) ops →
      k ++ pending_packets c `sublist_of` pushed ops ∧ (all_true answers = true → k ++ pending_packets c = pushed ops)).
Proof.
  intros Hc Hb. destruct (run_spec cf ops (Coalescer_new cf) [] (new_stable cf Hc) Hb) as (ps & H1 & H2 & H3 & _).
  destruct (run (gso_step cf) (Coalescer_new cf) ops) as [answers c]. cbn [fst snd] in *. rewrite (pending_held cf c ps (sb_held _ _ _ H1)).
  destruct (decide (gc_enabled c = true ∧ Forall (λ op, is_direct op = false) ops)) as [[He Hd]|Hn].
  - destruct (H3 He Hd) as (n & k & L & S & F & T). cbn [Coalescer_new gc_log app] in L. subst n. exists k.
    split_and!; [done|by apply sublist_submseteq| |]; [intros Ht; destruct (T Ht) as [-> A]; done|].
    intros _ _. split; [exact S|]. intros Ht. by destruct (T Ht).
  - destruct H2 as (n & k & L & S & F & T). cbn [Coalescer_new gc_log app] in L. subst n. exists k. split_and!; [done|done|done|].
    intros He Hd. by destruct Hn.
Qed.

(** ** Concrete histories *)
Definition demo_packet (port seq flags : Z) (payload : list Z) : list Z :=
  [69; 0; 0; 40 + Z.of_nat (length payload); 0; 0; 64; 0; 64; 6; 0; 0; 10; 0; 0; 1; 10; 0; 0; 2;
   0; port; 0; 80; 0; 0; 0; seq; 0; 0; 0; 1; 80; flags; 1; 0; 0; 0; 0; 0] ++ payload.
(** A writer that takes every frame, and one that refuses super-packets. *)
Definition willing (_ : list (list Z * Z)) (frame : list Z) : Z := Z.of_nat (length frame).
Definition refusing (_ : list (list Z * Z)) (frame : list Z) : Z :=
  if vh_gso_type (virtio_load frame) =? VIRTIO_NET_HDR_GSO_NONE then Z.of_nat (length frame) else -1.
Definition demo_config (w : list (list Z * Z) → list Z → Z) : GsoConfig := mkGsoConfig 4 true false false kHoldNs w.
Definition seg_a : list Z := demo_packet 7 0 16 [1; 2; 3].
Definition seg_b : list Z := demo_packet 7 3 16 [4; 5; 6].
Definition seg_c : list Z := demo_packet 7 6 24 [7; 8].
Definition seg_d : list Z := demo_packet 9 0 16 [9; 9].
Definition demo_ops : list GsoOp := [GPush seg_a 0; GPush seg_b 10; GPushOwned seg_c (Some true) 20; GPushOwned seg_d (Some true) 30].

Lemma demo_bytes : Forall packet_bytes_ok (pushed demo_ops).
Proof. unfold demo_ops, pushed. cbn [fmap list_fmap op_packets mjoin list_join app]. repeat (apply Forall_cons; split; [decide_true|]). apply Forall_nil. done. Qed.

Lemma gso_delivery_witness :
  let '(answers, c) := run (gso_step (demo_config willing)) (Coalescer_new (demo_config willing)) demo_ops in
  answers = [true; true; true; true] ∧ length (gc_log c) = 1%nat ∧ length (brought (gc_log c)) = 3%nat ∧ pending_packets c = [(seg_d, true)] ∧
  ∃ k, Forall2 same_segment k (brought (gc_log c)) ∧ k ++ pending_packets c ⊆+ pushed demo_ops ∧
    (all_true answers = true → k ++ pending_packets c ≡ₚ pushed demo_ops ∧ all_complete (gc_log c)) ∧
    (gc_enabled c = true → Forall (λ op, is_direct op = false) demo_ops →
      k ++ pending_packets c `sublist_of` pushed demo_ops ∧ (all_true answers = true → k ++ pending_packets c = pushed demo_ops)).
Proof.
  pose proof (gso_delivery (demo_config willing) demo_ops ltac:(cbn; lia) demo_bytes) as H.
  assert (let '(answers, c) := run (gso_step (demo_config willing)) (Coalescer_new (demo_config willing)) demo_ops in
    answers = [true; true; true; true] ∧ length (gc_log c) = 1%nat ∧ length (brought (gc_log c)) = 3%nat ∧ pending_packets c = [(seg_d, true)]) as G
    by (vm_compute; split_and!; reflexivity).
  destruct (run (gso_step (demo_config willing)) (Coalescer_new (demo_config willing)) demo_ops) as [answers c].
  destruct G as (G1 & G2 & G3 & G4). split_and!; assumption.
Defined.

(** A marked packet that leaves alone asks its reader for the checksum of its TCP header. *)
Example marked_leaves_marked :
  let '(_, c) := run (gso_step (demo_config willing)) (Coalescer_new (demo_config willing))
    [GPushOwned seg_a (Some true) 0; GFlush FlExplicit 20; GWriteOrdinary seg_b false] in
  brought (gc_log c) = [(seg_a, Some 20); (seg_b, None)].
Proof. vm_compute. reflexivity. Qed.

(** A packet that arrives when the flush before it falls back is held although merging is off from then on. *)
Lemma held_after_fallback :
  let '(answers, c) := run (gso_step (demo_config refusing)) (Coalescer_new (demo_config refusing)) [GPush seg_a 0; GPush seg_b 10; GPush seg_d 20] in
  answers = [true; true; true] ∧ gc_enabled c = false ∧ pending_packets c = [(seg_d, false)].
Proof. vm_compute. split_and!; reflexivity. Qed.

(** From then on no push, ordinary write or [DisableAndFlush] writes it, and what is pushed later overtakes it. *)
Lemma held_while_disabled cf ops c :
  gc_enabled c = false → Forall (λ op, match op with GFlush _ _ | GFlushExpired _ => False | _ => True end) ops →
  gc_segments (exec (gso_step cf) c ops) = gc_segments c ∧ gc_enabled (exec (gso_step cf) c ops) = false.
Proof.
  intros He Hf. revert c He. induction Hf as [|op ops Ho _ IH]; intros c He; [done|]. rewrite exec_cons.
  assert (∀ packet reason hold partial, gc_segments (WriteOrdinary cf packet reason hold partial c).2 = gc_segments c ∧
    gc_enabled (WriteOrdinary cf packet reason hold partial c).2 = gc_enabled c) as Hw.
  { intros packet reason hold partial. unfold WriteOrdinary. cbv zeta. case_if as E; [done|].
    by destruct (if partial then option_map pi_ihl (ParsePacket packet) else Some 0%nat). }
  assert (∀ packet owner now, gc_segments (PushInternal cf packet owner now c).2 = gc_segments c ∧
    gc_enabled (PushInternal cf packet owner now c).2 = gc_enabled c) as Hp.
  { intros [|b packet] owner now; [done|]. unfold PushInternal. rewrite He. cbn [negb]. rewrite <- He. apply Hw. }
  assert (gc_segments (gso_step cf c op).2 = gc_segments c ∧ gc_enabled (gso_step cf c op).2 = gc_enabled c) as [E1 E2].
  { destruct op as [packet now|packet owner now|packet partial|reason now|now|reason now]; try done; [apply Hp|destruct owner; [apply Hp|done]|apply Hw|].
    cbn [gso_step]. unfold DisableAndFlush. by rewrite He. }
  rewrite <- E1. apply IH. by rewrite E2.
Qed.

(** A segment without the acknowledgement flag is merged behind one with it and comes out with the flag set. *)
Lemma ack_flag_not_compared :
  let '(answers, c) := run (gso_step (demo_config willing)) (Coalescer_new (demo_config willing))
    [GPush seg_a 0; GPush (demo_packet 7 3 0 [4; 5; 6]) 10; GFlush FlExplicit 20] in
  answers = [true; true; true] ∧ map (λ p, byte_at p.1 33) (brought (gc_log c)) = [16; 16].
Proof. vm_compute. split_and!; reflexivity. Qed.
