(* ===== verification/TunOutput.v ===== *)
(** * The output side of the Linux TUN device

    [linux/ppp/tap/TapLinux.cpp]: [OutputInternal], [OutputGso], the per-slot output lanes, the hold
    timers and the ways in which merging is switched off, over the coalescer of [GsoCoalescer].  A call
    is one step: it runs under the mutex of the lane or of the shared path.  The descriptors are known
    by what their writers answer ([write] and [writev] repeated while interrupted); the clock is read
    once per call.  A timer handler may run at any time with any generation.  [FailTunWrite] latches a
    failed write; the finalization that it posts is a later step of its own. *)
From S2P Require Import Prelude PacketFrames VnetCodec GsoCoalescer GsoDelivery.

(** ** Policies *)
Definition kMaxTapOutputLanes : Z := 16.
Definition SelectTapOutputLane (slot : Z) (lanes_enabled : bool) : Z :=
  if negb lanes_enabled || (slot <? 0) || (kMaxTapOutputLanes <=? slot) then -1 else slot.

Inductive WriteErrno := EINTR | EAGAIN | ENOBUFS | ENOMEM | EINVAL | EMSGSIZE | EOther.
Inductive TunWriteErrorKind := TwRetry | TwDropPacket | TwFatal.
Definition ClassifyTunWriteErrno (error : WriteErrno) : TunWriteErrorKind :=
  match error with EINTR => TwRetry | EAGAIN | ENOBUFS | ENOMEM | EINVAL | EMSGSIZE => TwDropPacket | EOther => TwFatal end.

(** ** State *)
Record GsoLane := mkGsoLane {
  gl_open : bool;             (** [fd >= 0] *)
  gl_merge_active : bool;
  gl_timer_armed : bool;
  gl_generation : Z;
  gl_coalescer : Coalescer;
}.
Record GsoShared := mkGsoShared {
  gs_merge_active : bool;
  gs_ssmt_disabled : bool;
  gs_timer_armed : bool;
  gs_generation : Z;
  gs_coalescer : Coalescer;
}.
Record TapDev := mkTap {
  tp_vnet_header : bool;
  tp_tx_gso : bool;
  tp_lanes_enabled : bool;
  tp_handle : bool;           (** [GetHandle() >= 0] *)
  tp_disposed : bool;
  tp_write_failed : bool;
  tp_ssmt_fds : nat;
  tp_lanes_disabled : bool;
  tp_lanes_failed : Z;
  tp_lanes : list (option GsoLane);
  tp_shared : GsoShared;
  tp_bare : list (list Z * Z);    (** the frames written without a VNET header *)
}.

Section tap.
Context (merge_disable_requested : bool) (shared_cf : GsoConfig) (lane_cf : nat → GsoConfig).
Context (bare_writer : list (list Z * Z) → list Z → Z * WriteErrno).

(** [TapLinux::Create]: the flags of a new device, from what its driver and the environment say. *)
Definition Tap_new (vnet_header merge_requested lanes_requested : bool) : TapDev :=
  let merge := vnet_header && (negb merge_disable_requested && merge_requested) in
  mkTap vnet_header vnet_header (merge && lanes_requested) true false false 0 false 0 (replicate (Z.to_nat kMaxTapOutputLanes) None)
    (mkGsoShared merge false false 0 (Coalescer_new shared_cf)) [].
Definition GsoOutputLane_new (i : nat) : GsoLane := mkGsoLane true true false 0 (Coalescer_new (lane_cf i)).

Definition FailTunWrite (failed : bool) (t : TapDev) : TapDev :=
  mkTap (tp_vnet_header t) (tp_tx_gso t) (tp_lanes_enabled t) (tp_handle t) (tp_disposed t) (tp_write_failed t || failed) (tp_ssmt_fds t)
    (tp_lanes_disabled t) (tp_lanes_failed t) (tp_lanes t) (tp_shared t) (tp_bare t).
Definition set_lanes (t : TapDev) (lanes : list (option GsoLane)) : TapDev :=
  mkTap (tp_vnet_header t) (tp_tx_gso t) (tp_lanes_enabled t) (tp_handle t) (tp_disposed t) (tp_write_failed t) (tp_ssmt_fds t)
    (tp_lanes_disabled t) (tp_lanes_failed t) lanes (tp_shared t) (tp_bare t).
Definition set_lane_failed (t : TapDev) (i : nat) : TapDev :=
  mkTap (tp_vnet_header t) (tp_tx_gso t) (tp_lanes_enabled t) (tp_handle t) (tp_disposed t) (tp_write_failed t) (tp_ssmt_fds t)
    (tp_lanes_disabled t) (Z.lor (tp_lanes_failed t) (Z.shiftl 1 (Z.of_nat i))) (tp_lanes t) (tp_shared t) (tp_bare t).
Definition set_shared (t : TapDev) (s : GsoShared) : TapDev :=
  mkTap (tp_vnet_header t) (tp_tx_gso t) (tp_lanes_enabled t) (tp_handle t) (tp_disposed t) (tp_write_failed t) (tp_ssmt_fds t)
    (tp_lanes_disabled t) (tp_lanes_failed t) (tp_lanes t) s (tp_bare t).
Definition set_bare (t : TapDev) (log : list (list Z * Z)) : TapDev :=
  mkTap (tp_vnet_header t) (tp_tx_gso t) (tp_lanes_enabled t) (tp_handle t) (tp_disposed t) (tp_write_failed t) (tp_ssmt_fds t)
    (tp_lanes_disabled t) (tp_lanes_failed t) (tp_lanes t) (tp_shared t) log.
Definition tap_set_disposed (t : TapDev) : TapDev :=
  mkTap (tp_vnet_header t) (tp_tx_gso t) (tp_lanes_enabled t) (tp_handle t) true (tp_write_failed t) (tp_ssmt_fds t)
    (tp_lanes_disabled t) (tp_lanes_failed t) (tp_lanes t) (tp_shared t) (tp_bare t).
Definition set_ssmt_fds (t : TapDev) (n : nat) : TapDev :=
  mkTap (tp_vnet_header t) (tp_tx_gso t) (tp_lanes_enabled t) (tp_handle t) (tp_disposed t) (tp_write_failed t) n
    (tp_lanes_disabled t) (tp_lanes_failed t) (tp_lanes t) (tp_shared t) (tp_bare t).
Definition set_lanes_disabled (t : TapDev) : TapDev :=
  mkTap (tp_vnet_header t) (tp_tx_gso t) (tp_lanes_enabled t) (tp_handle t) (tp_disposed t) (tp_write_failed t) (tp_ssmt_fds t)
    true (tp_lanes_failed t) (tp_lanes t) (tp_shared t) (tp_bare t).
Definition Ssmt (t : TapDev) : bool := negb (tp_ssmt_fds t =? 0)%nat.

(** ** A lane *)
Definition ArmLaneHoldTimerLocked (l : GsoLane) : GsoLane :=
  if gl_timer_armed l || negb (gl_merge_active l) then l else
  mkGsoLane (gl_open l) (gl_merge_active l) true (wrap 64 (gl_generation l + 1)) (gl_coalescer l).
Definition CancelLaneHoldTimerLocked (l : GsoLane) : GsoLane :=
  if negb (gl_timer_armed l) then l else
  mkGsoLane (gl_open l) (gl_merge_active l) false (wrap 64 (gl_generation l + 1)) (gl_coalescer l).
Definition lane_with (l : GsoLane) (merge : bool) (c : Coalescer) : GsoLane :=
  mkGsoLane (gl_open l) merge (gl_timer_armed l) (gl_generation l) c.

(** The handler of the timer armed with [generation]: whether the write failed, and the lane. *)
Definition LaneHoldTimer (cf : GsoConfig) (disposed : bool) (generation : Z) (ec : bool) (now : Z) (l : GsoLane) : bool * GsoLane :=
  if negb (generation =? gl_generation l) then (false, l) else
  let l := mkGsoLane (gl_open l) (gl_merge_active l) false (gl_generation l) (gl_coalescer l) in
  if ec || negb (gl_merge_active l) || negb (gl_open l) || disposed then (false, l) else
  let '(ok, c) := FlushExpired cf now (gl_coalescer l) in
  (negb ok, lane_with l (if ok then gl_merge_active l else false) c).

(** The body of the loop of [DisableGsoOutputLanes]. *)
Definition DisableGsoOutputLane (cf : GsoConfig) (reason : FlushReason) (close : bool) (now : Z) (l : GsoLane) : bool * GsoLane :=
  let l := CancelLaneHoldTimerLocked l in
  let '(failed, l) :=
    if gl_merge_active l then
      if gl_open l then let '(ok, c) := DisableAndFlush cf reason now (gl_coalescer l) in (negb ok, lane_with l false c)
      else (false, lane_with l false (gl_coalescer l))
    else (false, l) in
  (failed, if close && gl_open l then mkGsoLane false (gl_merge_active l) (gl_timer_armed l) (gl_generation l) (gl_coalescer l) else l).

(** The tail of [OutputLane], once merging was found active or not. *)
Definition lane_write (cf : GsoConfig) (packet : list Z) (owner : option (option bool)) (now : Z) (l : GsoLane) : bool * bool * GsoLane :=
  if negb (gl_merge_active l) then
    let '(ok, c) := WriteOrdinaryFrame cf packet (default false (mjoin owner)) (gl_coalescer l) in
    (ok, negb ok, lane_with l false c)
  else
  let was_pending := has_pending (gl_coalescer l) in
  let '(ok, c) := match owner with
                  | Some o => Gso_PushOwned cf packet o now (gl_coalescer l)
                  | None => Gso_Push cf packet now (gl_coalescer l)
                  end in
  let l := lane_with l (gl_merge_active l) c in
  let l := if ok && negb was_pending && has_pending c then ArmLaneHoldTimerLocked l else l in
  let l := if negb (has_pending c) then CancelLaneHoldTimerLocked l else l in
  let l := if negb (gc_enabled c) then lane_with l false c else l in
  (ok, negb ok, l).

(** [OutputLane]: the answer, whether the device failed, and the lane; [owner] is none for a null pointer. *)
Definition OutputLane (cf : GsoConfig) (disposed write_failed lanes_disabled : bool) (packet : list Z) (owner : option (option bool))
    (now : Z) (l : GsoLane) : bool * bool * GsoLane :=
  if negb (gl_open l) || disposed then (false, false, l) else
  if write_failed then (false, false, l) else
  let '(ok, l) :=
    if gl_merge_active l && (merge_disable_requested || lanes_disabled) then
      let l := CancelLaneHoldTimerLocked l in
      let '(ok, c) := DisableAndFlush cf FlTerminate now (gl_coalescer l) in (ok, lane_with l false c)
    else (true, l) in
  if negb ok then (false, true, l) else lane_write cf packet owner now l.

(** One frame written around the coalescer. *)
Definition direct_write (cf : GsoConfig) (frame : list Z) (c : Coalescer) : bool * Coalescer :=
  let written := cf_writer cf (gc_log c) frame in
  (written =? Z.of_nat (length frame), set_outcome c (gc_last_write_outcome c) (gc_log c ++ [(frame, written)])).

Definition OutputGsoLane (cf : GsoConfig) (tx_gso lanes_disabled : bool) (packet : list Z) (header : virtio_net_hdr) (now : Z) (l : GsoLane)
    : bool * bool * GsoLane :=
  if negb tx_gso || negb (gl_open l) || lanes_disabled then (false, false, l) else
  let '(ok, c) := Gso_Flush cf FlExplicit now (gl_coalescer l) in
  if negb ok then (false, true, lane_with l (gl_merge_active l) c) else
  let l := CancelLaneHoldTimerLocked (lane_with l (gl_merge_active l) c) in
  let '(ok, c) := direct_write cf (virtio_bytes header ++ packet) c in
  (ok, negb ok, lane_with l (gl_merge_active l) c).

(** ** The shared path *)
Definition ArmGsoHoldTimerLocked (s : GsoShared) : GsoShared :=
  if gs_timer_armed s || negb (gs_merge_active s) || gs_ssmt_disabled s then s else
  mkGsoShared (gs_merge_active s) (gs_ssmt_disabled s) true (wrap 64 (gs_generation s + 1)) (gs_coalescer s).
Definition CancelGsoHoldTimerLocked (s : GsoShared) : GsoShared :=
  if negb (gs_timer_armed s) then s else
  mkGsoShared (gs_merge_active s) (gs_ssmt_disabled s) false (wrap 64 (gs_generation s + 1)) (gs_coalescer s).
Definition shared_with (s : GsoShared) (merge : bool) (c : Coalescer) : GsoShared :=
  mkGsoShared merge (gs_ssmt_disabled s) (gs_timer_armed s) (gs_generation s) c.

Definition GsoHoldTimer (disposed : bool) (generation : Z) (ec : bool) (now : Z) (s : GsoShared) : bool * GsoShared :=
  if negb (generation =? gs_generation s) then (false, s) else
  let s := mkGsoShared (gs_merge_active s) (gs_ssmt_disabled s) false (gs_generation s) (gs_coalescer s) in
  if ec || negb (gs_merge_active s) || gs_ssmt_disabled s || disposed then (false, s) else
  let '(ok, c) := FlushExpired shared_cf now (gs_coalescer s) in
  (negb ok, shared_with s (if ok then gs_merge_active s else false) c).

Definition DisableGsoMergeLocked (reason : FlushReason) (now : Z) (s : GsoShared) : bool * GsoShared :=
  let s := CancelGsoHoldTimerLocked s in
  let '(flushed, c) := DisableAndFlush shared_cf reason now (gs_coalescer s) in
  (negb flushed, shared_with s false c).

(** The part of [OutputInternal] under [gso_mutex_]. *)
Definition shared_write (packet : list Z) (owner : option (option bool)) (now : Z) (s : GsoShared) : bool * bool * GsoShared :=
  if negb (gs_merge_active s) then
    let '(ok, c) := WriteOrdinaryFrame shared_cf packet (default false (mjoin owner)) (gs_coalescer s) in
    (ok, negb ok, shared_with s false c)
  else
  let was_pending := has_pending (gs_coalescer s) in
  let '(ok, c) := match owner with
                  | Some o => Gso_PushOwned shared_cf packet o now (gs_coalescer s)
                  | None => Gso_Push shared_cf packet now (gs_coalescer s)
                  end in
  let s := shared_with s (gs_merge_active s) c in
  let s := if ok && negb was_pending && has_pending c then ArmGsoHoldTimerLocked s else s in
  let s := if negb (has_pending c) then CancelGsoHoldTimerLocked s else s in
  let s := if negb (gc_enabled c) then shared_with s false c else s in
  (ok, negb ok, s).
Definition OutputShared (packet : list Z) (owner : option (option bool)) (now : Z) (s : GsoShared) : bool * bool * GsoShared :=
  let '(failed, s) := if gs_merge_active s && merge_disable_requested then DisableGsoMergeLocked FlTerminate now s else (false, s) in
  if failed then (false, true, s) else shared_write packet owner now s.

Definition OutputGsoShared (vnet_header tx_gso handle : bool) (packet : list Z) (header : virtio_net_hdr) (now : Z) (s : GsoShared)
    : bool * bool * GsoShared :=
  if negb vnet_header || negb tx_gso || gs_ssmt_disabled s || negb handle then (false, false, s) else
  let '(ok, c) := Gso_Flush shared_cf FlExplicit now (gs_coalescer s) in
  if negb ok then (false, true, shared_with s (gs_merge_active s) c) else
  let s := CancelGsoHoldTimerLocked (shared_with s (gs_merge_active s) c) in
  let '(ok, c) := direct_write shared_cf (virtio_bytes header ++ packet) c in
  (ok, negb ok, shared_with s (gs_merge_active s) c).

(** ** The device *)
Definition CreateGsoOutputLane (i : nat) (created : bool) (t : TapDev) : option nat * TapDev :=
  match tp_lanes t !! i with
  | Some (Some _) => (Some i, t)
  | _ =>
      if tp_lanes_disabled t || tp_disposed t then (None, t) else
      if negb (gs_merge_active (tp_shared t)) || gs_ssmt_disabled (tp_shared t) then (None, set_lane_failed t i) else
      if negb created then (None, set_lane_failed t i) else (Some i, set_lanes t (<[i := Some (GsoOutputLane_new i)]> (tp_lanes t)))
  end.
(** [created] tells whether the context, the second queue and the buffers of a new lane are there. *)
Definition CurrentGsoOutputLane (slot : Z) (created : bool) (t : TapDev) : option nat * TapDev :=
  let index := SelectTapOutputLane slot (tp_lanes_enabled t) in
  if index <? 0 then (None, t) else
  let i := Z.to_nat index in
  match tp_lanes t !! i with
  | Some (Some _) => (Some i, t)
  | _ =>
      if tp_lanes_disabled t || negb (Z.land (tp_lanes_failed t) (Z.shiftl 1 index) =? 0) then (None, t)
      else CreateGsoOutputLane i created t
  end.

(** Where a packet went. *)
Inductive Route := RNone | RBare | RShared | RLane (i : nat).
#[global] Instance Route_eq_dec : EqDecision Route.
Proof. solve_decision. Defined.

Definition output_bare (packet : list Z) (t : TapDev) : bool * TapDev :=
  let '(written, errno) := bare_writer (tp_bare t) packet in
  let t := set_bare t (tp_bare t ++ [(packet, written)]) in
  if written =? Z.of_nat (length packet) then (true, t) else
  match ClassifyTunWriteErrno errno with
  | TwDropPacket => if written <? 0 then (false, t) else (false, FailTunWrite true t)
  | _ => (false, FailTunWrite true t)
  end.
Definition output_lane (i : nat) (out : GsoLane → bool * bool * GsoLane) (t : TapDev) : bool * Route * TapDev :=
  match tp_lanes t !! i with
  | Some (Some l) =>
      let '(ok, failed, l) := out l in (ok, RLane i, FailTunWrite failed (set_lanes t (<[i := Some l]> (tp_lanes t))))
  | _ => (false, RNone, t)
  end.
Definition output_shared (out : GsoShared → bool * bool * GsoShared) (t : TapDev) : bool * Route * TapDev :=
  let '(ok, failed, s) := out (tp_shared t) in (ok, RShared, FailTunWrite failed (set_shared t s)).

Definition OutputInternal (slot : Z) (packet : list Z) (owner : option (option bool)) (created : bool) (now : Z) (t : TapDev)
    : bool * Route * TapDev :=
  if (length packet =? 0)%nat then (false, RNone, t) else
  if tp_disposed t then (false, RNone, t) else
  if tp_write_failed t then (false, RNone, t) else
  if negb (tp_vnet_header t) then let '(ok, t) := output_bare packet t in (ok, RBare, t) else
  let '(lane, t) := if Ssmt t then (None, t) else CurrentGsoOutputLane slot created t in
  match lane with
  | Some i => output_lane i (OutputLane (lane_cf i) (tp_disposed t) (tp_write_failed t) (tp_lanes_disabled t) packet owner now) t
  | None => output_shared (OutputShared packet owner now) t
  end.

Definition OutputGso (slot : Z) (packet : list Z) (metadata : TxGsoMetadata) (created : bool) (now : Z) (t : TapDev) : bool * Route * TapDev :=
  match BuildTcpV4GsoHeader packet metadata with
  | None => (false, RNone, t)
  | Some header =>
      if tp_disposed t || tp_write_failed t then (false, RNone, t) else
      let '(lane, t) := if Ssmt t then (None, t) else CurrentGsoOutputLane slot created t in
      match lane with
      | Some i => output_lane i (OutputGsoLane (lane_cf i) (tp_tx_gso t) (tp_lanes_disabled t) packet header now) t
      | None => output_shared (OutputGsoShared (tp_vnet_header t) (tp_tx_gso t) (tp_handle t) packet header now) t
      end
  end.

Fixpoint disable_lanes (reason : FlushReason) (close : bool) (now : Z) (i : nat) (lanes : list (option GsoLane)) : bool * list (option GsoLane) :=
  match lanes with
  | [] => (false, [])
  | o :: lanes =>
      let '(failed, o) := match o with
                          | Some l => let '(failed, l) := DisableGsoOutputLane (lane_cf i) reason close now l in (failed, Some l)
                          | None => (false, None)
                          end in
      let '(failed', lanes) := disable_lanes reason close now (S i) lanes in (failed || failed', o :: lanes)
  end.
Definition DisableGsoOutputLanes (reason : FlushReason) (close : bool) (now : Z) (t : TapDev) : TapDev :=
  let t := set_lanes_disabled t in
  let '(failed, lanes) := disable_lanes reason close now 0 (tp_lanes t) in FailTunWrite failed (set_lanes t lanes).

(** The common start of [Ssmt] and [Finalize]: merging on the shared path ends. *)
Definition disable_shared (reason : FlushReason) (now : Z) (t : TapDev) : TapDev :=
  let s := tp_shared t in
  let s := mkGsoShared (gs_merge_active s) true (gs_timer_armed s) (gs_generation s) (gs_coalescer s) in
  if gs_merge_active s then let '(failed, s) := DisableGsoMergeLocked reason now s in FailTunWrite failed (set_shared t s)
  else set_shared t (CancelGsoHoldTimerLocked s).

(** [fail_vnet_input] of [OnInput]: merging ends everywhere before the device is disposed of. *)
Definition fail_vnet_input (now : Z) (t : TapDev) : TapDev :=
  let '(failed, s) := DisableGsoMergeLocked FlTerminate now (tp_shared t) in
  DisableGsoOutputLanes FlTerminate false now (FailTunWrite failed (set_shared t s)).

(** [Ssmt]: another queue, when it can be opened. *)
Definition Tap_Ssmt (opened : bool) (now : Z) (t : TapDev) : bool * TapDev :=
  if tp_disposed t then (false, t) else
  let t := DisableGsoOutputLanes FlSsmt false now (disable_shared FlSsmt now t) in
  if opened then (true, set_ssmt_fds t (S (tp_ssmt_fds t))) else (false, t).

Definition Tap_Finalize (now : Z) (t : TapDev) : TapDev :=
  let t := if tp_disposed t then t else disable_shared FlTerminate now (tap_set_disposed t) in
  let t := DisableGsoOutputLanes FlTerminate true now t in set_ssmt_fds t 0.

Inductive TapOp :=
  | OOutput (slot : Z) (packet : list Z) (owner : option (option bool)) (created : bool) (now : Z)
  | OOutputGso (slot : Z) (packet : list Z) (metadata : TxGsoMetadata) (created : bool) (now : Z)
  | OSharedTimer (generation : Z) (ec : bool) (now : Z)
  | OLaneTimer (i : nat) (generation : Z) (ec : bool) (now : Z)
  | OInput (handler : list Z → bool) (frame : list Z) (now : Z)
  | OSsmt (opened : bool) (now : Z)
  | OFinalize (now : Z).
Definition tap_step (t : TapDev) (op : TapOp) : (bool * Route) * TapDev :=
  match op with
  | OOutput slot packet owner created now => OutputInternal slot packet owner created now t
  | OOutputGso slot packet metadata created now => OutputGso slot packet metadata created now t
  | OSharedTimer generation ec now =>
      let '(failed, s) := GsoHoldTimer (tp_disposed t) generation ec now (tp_shared t) in (false, RNone, FailTunWrite failed (set_shared t s))
  | OLaneTimer i generation ec now =>
      match tp_lanes t !! i with
      | Some (Some l) =>
          let '(failed, l) := LaneHoldTimer (lane_cf i) (tp_disposed t) generation ec now l in
          (false, RNone, FailTunWrite failed (set_lanes t (<[i := Some l]> (tp_lanes t))))
      | _ => (false, RNone, t)
      end
  | OInput handler frame now =>
      if negb (tp_vnet_header t) then (true, RNone, t) else
      match OnInput kStandardVirtioHeaderSize handler frame with
      | VnetClosed _ => (false, RNone, fail_vnet_input now t)
      | _ => (true, RNone, t)
      end
  | OSsmt opened now => let '(ok, t) := Tap_Ssmt opened now t in (ok, RNone, t)
  | OFinalize now => (true, RNone, Tap_Finalize now t)
  end.
End tap.

(** ** What an endpoint has accepted *)
Definition endpoint_ok (cf : GsoConfig) (c : Coalescer) (acc : list (list Z * bool)) (merging : bool) : Prop :=
  ∃ ps k, stable cf c ps ∧ Forall2 same_segment k (brought (gc_log c)) ∧ k ++ (fst <$> ps) ≡ₚ acc ∧ all_complete (gc_log c) ∧
    (merging = true → k ++ (fst <$> ps) = acc ∧ (gc_enabled c = true ∨ ps = [])).

Section endpoint.
Context (cf : GsoConfig).

Lemma endpoint_extend c acc m qs c' m' :
  endpoint_ok cf c acc m →
  (∀ ps, stable cf c ps → (m = true → gc_enabled c = true ∨ ps = []) → ∃ ps', stable cf c' ps' ∧ accounted c ps qs c' ps' true ∧
    (m' = true → m = true ∧ progress c ps qs c' ps' true ∧ (gc_enabled c' = true ∨ ps' = []))) →
  endpoint_ok cf c' (acc ++ qs) m'.
Proof.
  intros (ps & k & H1 & H2 & H3 & H4 & H5) Hstep. destruct (Hstep ps H1) as (ps' & G1 & G2 & G3); [intros Hm; by apply H5|].
  destruct m'.
  - destruct (G3 eq_refl) as (Hm & (n & j & L & S & F & T) & E). destruct (T eq_refl) as [T1 T2], (H5 Hm) as [H6 _].
    assert ((k ++ j) ++ (fst <$> ps') = acc ++ qs) as Ek by (by rewrite <- app_assoc, T1, app_assoc, H6).
    exists ps', (k ++ j). rewrite L, brought_app. split_and!; [done|by apply Forall2_app|by rewrite Ek|by apply Forall_app|done].
  - destruct G2 as (n & j & L & S & F & T). destruct (T eq_refl) as [T1 T2]. exists ps', (k ++ j). rewrite L, brought_app.
    split_and!; [done|by apply Forall2_app|by rewrite <- app_assoc, T1, app_assoc, H3|by apply Forall_app|done].
Qed.

Lemma endpoint_new : (0 < cf_segment_cap cf)%nat → ∀ m, endpoint_ok cf (Coalescer_new cf) [] m.
Proof.
  intros Hc m. exists [], []. split_and!; [by apply new_stable|constructor|done|by apply Forall_nil|]. by auto.
Qed.
Lemma endpoint_weaken c acc m : endpoint_ok cf c acc m → endpoint_ok cf c acc false.
Proof. intros (ps & k & H1 & H2 & H3 & H4 & _). by exists ps, k. Qed.
Lemma endpoint_iff c acc m m' : endpoint_ok cf c acc m → (m' = true → m = true) → endpoint_ok cf c acc m'.
Proof. intros H E. destruct m'; [by rewrite <- (E eq_refl)|by eapply endpoint_weaken]. Qed.

Lemma endpoint_push c acc m packet owner now c' :
  endpoint_ok cf c acc m → bytes_ok packet → PushInternal cf packet owner now c = (true, c') →
  endpoint_ok cf c' (acc ++ [(packet, default false owner)]) (m && gc_enabled c').
Proof.
  intros He Hb Ep. apply (endpoint_extend c acc m); [done|]. intros ps Hs _.
  destruct (push_spec cf packet owner now c ps Hs Hb) as (ps' & G1 & G2 & G3 & G4). rewrite Ep in *. cbn [fst snd] in *.
  exists ps'. split_and!; [done|done|]. intros [-> E]%andb_prop. split_and!; [done|by auto|by left].
Qed.

Lemma endpoint_flush c acc m reason now c' :
  endpoint_ok cf c acc m → Gso_Flush cf reason now c = (true, c') → endpoint_ok cf c' acc m ∧ stable cf c' [].
Proof.
  intros He Ep. assert (stable cf c' []) as Hs'.
  { destruct He as (ps & k & Hs & _). destruct (stable_flush cf reason now c ps Hs) as (_ & G & _). by rewrite Ep in G. }
  split; [|done]. rewrite <- (app_nil_r acc). apply (endpoint_extend c acc m); [done|]. intros ps Hs _.
  destruct (stable_flush cf reason now c ps Hs) as (G1 & G2 & G3). rewrite Ep in *. cbn [fst snd] in *.
  exists []. split_and!; [done|by apply progress_accounted|]. intros ->. split_and!; [done|done|by right].
Qed.

Lemma endpoint_flush_expired c acc m now c' :
  endpoint_ok cf c acc m → FlushExpired cf now c = (true, c') → endpoint_ok cf c' acc m.
Proof.
  intros He. unfold FlushExpired. case_if as E; [by intros [= <-]|]. intros Ep. by eapply endpoint_flush.
Qed.

Lemma endpoint_same c acc m m' c' :
  endpoint_ok cf c acc m → gc_key c' = gc_key c → gc_segments c' = gc_segments c → gc_payload_total c' = gc_payload_total c →
  gc_pending_psh c' = gc_pending_psh c → gc_next_seq c' = gc_next_seq c → gc_superpacket c' = gc_superpacket c → gc_log c' = gc_log c →
  (m' = true → m = true ∧ gc_enabled c' = gc_enabled c) → endpoint_ok cf c' acc m'.
Proof.
  intros (ps & k & H1 & H2 & H3 & H4 & H5) E1 E2 E3 E4 E5 E6 E7 E8. exists ps, k. rewrite E7.
  split_and!; [by apply (stable_same cf c)|done|done|done|]. intros Hm. destruct (E8 Hm) as [Em ->]. by apply H5.
Qed.

Lemma endpoint_disable c acc m reason now c' :
  endpoint_ok cf c acc m → DisableAndFlush cf reason now c = (true, c') → endpoint_ok cf c' acc false.
Proof.
  intros He. unfold DisableAndFlush. destruct (gc_enabled c) eqn:Een; cbn [negb].
  - destruct (Gso_Flush cf reason now c) as [ok c1] eqn:Ef. intros [= -> <-]. destruct (endpoint_flush _ _ _ _ _ _ He Ef) as [G _].
    by eapply endpoint_same.
  - intros [= <-]. by eapply endpoint_same.
Qed.

Lemma endpoint_ordinary c acc m packet partial c' :
  endpoint_ok cf c acc m → bytes_ok packet → WriteOrdinaryFrame cf packet partial c = (true, c') →
  endpoint_ok cf c' (acc ++ [(packet, partial)]) false.
Proof.
  intros He Hb Ep. apply (endpoint_extend c acc m); [done|]. intros ps Hs _.
  destruct (ordinary_accounted cf packet FlExplicit 0 partial c ps Hs Hb) as (G1 & G2 & G3 & _). unfold WriteOrdinaryFrame in Ep. rewrite Ep in *.
  by exists ps.
Qed.

(** A super-packet written around the coalescer, once nothing is held; its header asks for no checksum. *)
Definition super_header (h : virtio_net_hdr) : Prop := vh_flags h = 0 ∧ vh_gso_type h = VIRTIO_NET_HDR_GSO_TCPV4.
Lemma endpoint_direct c acc m h packet c' :
  endpoint_ok cf c acc m → stable cf c [] → super_header h → direct_write cf (virtio_bytes h ++ packet) c = (true, c') →
  endpoint_ok cf c' (acc ++ [(packet, false)]) m.
Proof.
  intros He Hs Hf. unfold direct_write. set (frame := virtio_bytes h ++ packet). intros [= Ew <-]. apply Z.eqb_eq in Ew.
  apply (endpoint_extend c acc m); [done|]. intros ps Hs' _.
  assert (ps = []) as ->.
  { destruct (stable_count cf c ps Hs') as [E _], (stable_count cf c [] Hs) as [E' _]. rewrite E' in E. destruct ps; [done|]. by cbn in E. }
  assert (brought [(frame, cf_writer cf (gc_log c) frame)] = [(packet, None)]) as Eb.
  { rewrite brought_one, (proj2 (Z.leb_le _ _)) by lia. unfold frame_packets. destruct Hf as [Hf Hg].
    assert (vh_flags (virtio_load frame) = 0) as -> by done. by assert (vh_gso_type (virtio_load frame) = VIRTIO_NET_HDR_GSO_TCPV4) as -> by done. }
  exists []. assert (progress c [] [(packet, false)] (set_outcome c (gc_last_write_outcome c) (gc_log c ++ [(frame, cf_writer cf (gc_log c) frame)])) [] true) as P.
  { exists [(frame, cf_writer cf (gc_log c) frame)], [(packet, false)]. rewrite Eb. split_and!; [done|done|constructor; [by left|constructor]|].
    intros _. split; [done|]. by apply Forall_singleton. }
  split_and!; [by apply (stable_same cf c)|by apply progress_accounted|]. intros ->. split_and!; [done|done|by right].
Qed.
End endpoint.

(** ** Lanes and the shared path *)
Definition lane_ok (cf : GsoConfig) (l : GsoLane) (acc : list (list Z * bool)) : Prop := endpoint_ok cf (gl_coalescer l) acc (gl_merge_active l).
Definition shared_ok (cf : GsoConfig) (s : GsoShared) (acc : list (list Z * bool)) : Prop := endpoint_ok cf (gs_coalescer s) acc (gs_merge_active s).
Definition taken (ok : bool) (packet : list Z * bool) : list (list Z * bool) := if ok then [packet] else [].
(** The mark that the owner of a packet gives it. *)
Definition mark (owner : option (option bool)) : bool := default false (mjoin owner).

Lemma arm_lane (b : bool) l : gl_coalescer (if b then ArmLaneHoldTimerLocked l else l) = gl_coalescer l ∧
  gl_merge_active (if b then ArmLaneHoldTimerLocked l else l) = gl_merge_active l.
Proof. unfold ArmLaneHoldTimerLocked. destruct b; [by case_if as E|done]. Qed.
Lemma cancel_lane (b : bool) l : gl_coalescer (if b then CancelLaneHoldTimerLocked l else l) = gl_coalescer l ∧
  gl_merge_active (if b then CancelLaneHoldTimerLocked l else l) = gl_merge_active l.
Proof. unfold CancelLaneHoldTimerLocked. destruct b; [by case_if as E|done]. Qed.
Lemma arm_shared (b : bool) s : gs_coalescer (if b then ArmGsoHoldTimerLocked s else s) = gs_coalescer s ∧
  gs_merge_active (if b then ArmGsoHoldTimerLocked s else s) = gs_merge_active s.
Proof. unfold ArmGsoHoldTimerLocked. destruct b; [by case_if as E|done]. Qed.
Lemma cancel_shared (b : bool) s : gs_coalescer (if b then CancelGsoHoldTimerLocked s else s) = gs_coalescer s ∧
  gs_merge_active (if b then CancelGsoHoldTimerLocked s else s) = gs_merge_active s.
Proof. unfold CancelGsoHoldTimerLocked. destruct b; [by case_if as E|done]. Qed.

Section lane.
Context (cf : GsoConfig).

(** Both forms of a push. *)
Lemma endpoint_output c acc m packet owner now ok c' :
  endpoint_ok cf c acc m → bytes_ok packet →
  match owner with Some o => Gso_PushOwned cf packet o now c | None => Gso_Push cf packet now c end = (ok, c') → ok = true →
  endpoint_ok cf c' (acc ++ [(packet, mark owner)]) (m && gc_enabled c').
Proof.
  intros He Hb Ep ->. destruct owner as [[o|]|]; [|done|]; by eapply endpoint_push.
Qed.

Lemma lane_write_ok packet owner now l acc :
  lane_ok cf l acc → bytes_ok packet → let '(ok, failed, l') := lane_write cf packet owner now l in
  failed = negb ok ∧ (failed = false → lane_ok cf l' (acc ++ taken ok (packet, mark owner))).
Proof.
  intros Hl Hb. unfold lane_write. destruct (gl_merge_active l) eqn:Em; cbn [negb]; cycle 1.
  { destruct (WriteOrdinaryFrame cf packet (default false (mjoin owner)) (gl_coalescer l)) as [ok c] eqn:Ew. split; [done|].
    destruct ok; [|done]. intros _. by eapply endpoint_ordinary. }
  cbv zeta. destruct (match owner with Some o => Gso_PushOwned cf packet o now (gl_coalescer l) | None => Gso_Push cf packet now (gl_coalescer l) end)
    as [ok c] eqn:Ep. split; [done|]. destruct ok; [|done]. intros _.
  unfold lane_ok in Hl. pose proof (endpoint_output _ _ _ _ _ _ _ _ Hl Hb Ep eq_refl) as G. rewrite Em in G. cbn [andb] in G. cbn [taken].
  set (l1 := lane_with l true c). destruct (arm_lane (true && negb (has_pending (gl_coalescer l)) && has_pending c) l1) as [A1 A2].
  set (l2 := if true && negb (has_pending (gl_coalescer l)) && has_pending c then ArmLaneHoldTimerLocked l1 else l1) in *. destruct (cancel_lane (negb (has_pending c)) l2) as [C1 C2].
  set (l3 := if negb (has_pending c) then CancelLaneHoldTimerLocked l2 else l2) in *.
  assert (gl_coalescer l3 = c ∧ gl_merge_active l3 = true) as [E1 E2] by (by rewrite C1, C2, A1, A2).
  unfold lane_ok. destruct (gc_enabled c); cbn [negb]; [by rewrite E1, E2|exact G].
Qed.

Lemma output_lane_ok dr disposed write_failed lanes_disabled packet owner now l acc :
  lane_ok cf l acc → bytes_ok packet → let '(ok, failed, l') := OutputLane dr cf disposed write_failed lanes_disabled packet owner now l in
  failed = false → lane_ok cf l' (acc ++ taken ok (packet, mark owner)).
Proof.
  intros Hl Hb. unfold OutputLane. case_if as E1; [by rewrite app_nil_r|]. case_if as E2; [by rewrite app_nil_r|].
  destruct (gl_merge_active l && (dr || lanes_disabled)) eqn:Ed.
  - destruct (cancel_lane true l) as [C1 C2]. rewrite C1. destruct (DisableAndFlush cf FlTerminate now (gl_coalescer l)) as [ok c] eqn:Ef.
    destruct ok; cbn [negb]; [|done].
    pose proof (lane_write_ok packet owner now (lane_with (CancelLaneHoldTimerLocked l) false c) acc) as G.
    destruct (lane_write cf packet owner now (lane_with (CancelLaneHoldTimerLocked l) false c)) as [[ok failed] l'].
    apply G; [|done]. by apply (endpoint_disable cf _ _ _ _ _ _ Hl Ef).
  - cbn [negb]. pose proof (lane_write_ok packet owner now l acc Hl Hb) as G. destruct (lane_write cf packet owner now l) as [[ok failed] l']. apply G.
Qed.

Lemma output_gso_lane_ok tx_gso lanes_disabled packet h now l acc :
  lane_ok cf l acc → super_header h → let '(ok, failed, l') := OutputGsoLane cf tx_gso lanes_disabled packet h now l in
  failed = false → lane_ok cf l' (acc ++ taken ok (packet, false)).
Proof.
  intros Hl Hh. unfold OutputGsoLane. case_if as E1; [by rewrite app_nil_r|].
  destruct (Gso_Flush cf FlExplicit now (gl_coalescer l)) as [ok c] eqn:Ef. destruct ok; cbn [negb]; [|done]. cbv zeta.
  destruct (endpoint_flush cf _ _ _ _ _ _ Hl Ef) as [G1 G2]. destruct (direct_write cf (virtio_bytes h ++ packet) c) as [ok c'] eqn:Ed.
  destruct (cancel_lane true (lane_with l (gl_merge_active l) c)) as [_ C2]. destruct ok; [|done]. intros _. unfold lane_ok.
  change (endpoint_ok cf c' (acc ++ [(packet, false)]) (gl_merge_active (CancelLaneHoldTimerLocked (lane_with l (gl_merge_active l) c)))).
  rewrite C2. by eapply endpoint_direct.
Qed.

Lemma lane_timer_ok disposed generation ec now l acc :
  lane_ok cf l acc → let '(failed, l') := LaneHoldTimer cf disposed generation ec now l in failed = false → lane_ok cf l' acc.
Proof.
  intros Hl. unfold LaneHoldTimer. case_if as E1; [done|]. cbv zeta. cbn [gl_merge_active gl_open gl_coalescer]. case_if as E2; [done|].
  destruct (FlushExpired cf now (gl_coalescer l)) as [ok c] eqn:Ef. destruct ok; [|done]. intros _. by apply (endpoint_flush_expired cf _ _ _ _ _ Hl Ef).
Qed.

Lemma disable_lane_ok reason close now l acc :
  lane_ok cf l acc → let '(failed, l') := DisableGsoOutputLane cf reason close now l in failed = false → lane_ok cf l' acc.
Proof.
  intros Hl. unfold DisableGsoOutputLane. destruct (cancel_lane true l) as [C1 C2]. set (l1 := CancelLaneHoldTimerLocked l) in *.
  assert (lane_ok cf l1 acc) as H1 by (unfold lane_ok; by rewrite C1, C2).
  assert (∀ l2, lane_ok cf l2 acc → lane_ok cf (if close && gl_open l2
    then mkGsoLane false (gl_merge_active l2) (gl_timer_armed l2) (gl_generation l2) (gl_coalescer l2) else l2) acc) as Hc by (intros l2 H; by case_if as E).
  destruct (gl_merge_active l1) eqn:Em; [|intros _; by apply Hc]. destruct (gl_open l1).
  - destruct (DisableAndFlush cf reason now (gl_coalescer l1)) as [ok c] eqn:Ef. destruct ok; cbn [negb]; [|done]. intros _. apply Hc.
    by apply (endpoint_disable cf _ _ _ _ _ _ H1 Ef).
  - intros _. apply Hc. unfold lane_ok. by eapply endpoint_weaken.
Qed.
End lane.

Section shared.
Context (cf : GsoConfig).

Lemma shared_write_ok packet owner now s acc :
  shared_ok cf s acc → bytes_ok packet → let '(ok, failed, s') := shared_write cf packet owner now s in
  failed = false → shared_ok cf s' (acc ++ taken ok (packet, mark owner)).
Proof.
  intros Hl Hb. unfold shared_write. destruct (gs_merge_active s) eqn:Em; cbn [negb]; cycle 1.
  { destruct (WriteOrdinaryFrame cf packet (default false (mjoin owner)) (gs_coalescer s)) as [ok c] eqn:Ew.
    destruct ok; [|done]. intros _. by eapply endpoint_ordinary. }
  cbv zeta. destruct (match owner with Some o => Gso_PushOwned cf packet o now (gs_coalescer s) | None => Gso_Push cf packet now (gs_coalescer s) end)
    as [ok c] eqn:Ep. destruct ok; [|done]. intros _.
  unfold shared_ok in Hl. pose proof (endpoint_output cf _ _ _ _ _ _ _ _ Hl Hb Ep eq_refl) as G. rewrite Em in G. cbn [andb] in G. cbn [taken].
  set (s1 := shared_with s true c). destruct (arm_shared (true && negb (has_pending (gs_coalescer s)) && has_pending c) s1) as [A1 A2].
  set (s2 := if true && negb (has_pending (gs_coalescer s)) && has_pending c then ArmGsoHoldTimerLocked s1 else s1) in *.
  destruct (cancel_shared (negb (has_pending c)) s2) as [C1 C2].
  set (s3 := if negb (has_pending c) then CancelGsoHoldTimerLocked s2 else s2) in *.
  assert (gs_coalescer s3 = c ∧ gs_merge_active s3 = true) as [E1 E2] by (by rewrite C1, C2, A1, A2).
  unfold shared_ok. destruct (gc_enabled c); cbn [negb]; [by rewrite E1, E2|exact G].
Qed.

Lemma disable_merge_ok reason now s acc :
  shared_ok cf s acc → let '(failed, s') := DisableGsoMergeLocked cf reason now s in failed = false → shared_ok cf s' acc.
Proof.
  intros Hs. unfold DisableGsoMergeLocked. destruct (cancel_shared true s) as [C1 C2]. rewrite C1.
  destruct (DisableAndFlush cf reason now (gs_coalescer s)) as [ok c] eqn:Ef. destruct ok; [|done]. intros _.
  by apply (endpoint_disable cf _ _ _ _ _ _ Hs Ef).
Qed.

Lemma output_shared_ok dr packet owner now s acc :
  shared_ok cf s acc → bytes_ok packet → let '(ok, failed, s') := OutputShared dr cf packet owner now s in
  failed = false → shared_ok cf s' (acc ++ taken ok (packet, mark owner)).
Proof.
  intros Hs Hb. unfold OutputShared. destruct (gs_merge_active s && dr).
  - pose proof (disable_merge_ok FlTerminate now s acc Hs) as G. destruct (DisableGsoMergeLocked cf FlTerminate now s) as [[] s1]; [done|].
    by apply shared_write_ok; [apply G|].
  - by apply shared_write_ok.
Qed.

Lemma output_gso_shared_ok vnet tx_gso handle packet h now s acc :
  shared_ok cf s acc → super_header h → let '(ok, failed, s') := OutputGsoShared cf vnet tx_gso handle packet h now s in
  failed = false → shared_ok cf s' (acc ++ taken ok (packet, false)).
Proof.
  intros Hs Hh. unfold OutputGsoShared. case_if as E1; [by rewrite app_nil_r|].
  destruct (Gso_Flush cf FlExplicit now (gs_coalescer s)) as [ok c] eqn:Ef. destruct ok; cbn [negb]; [|done]. cbv zeta.
  destruct (endpoint_flush cf _ _ _ _ _ _ Hs Ef) as [G1 G2]. destruct (direct_write cf (virtio_bytes h ++ packet) c) as [ok c'] eqn:Ed.
  destruct (cancel_shared true (shared_with s (gs_merge_active s) c)) as [_ C2]. destruct ok; [|done]. intros _. unfold shared_ok.
  change (endpoint_ok cf c' (acc ++ [(packet, false)]) (gs_merge_active (CancelGsoHoldTimerLocked (shared_with s (gs_merge_active s) c)))).
  rewrite C2. by eapply endpoint_direct.
Qed.

Lemma shared_timer_ok disposed generation ec now s acc :
  shared_ok cf s acc → let '(failed, s') := GsoHoldTimer cf disposed generation ec now s in failed = false → shared_ok cf s' acc.
Proof.
  intros Hs. unfold GsoHoldTimer. case_if as E1; [done|]. cbv zeta. cbn [gs_merge_active gs_ssmt_disabled gs_coalescer]. case_if as E2; [done|].
  destruct (FlushExpired cf now (gs_coalescer s)) as [ok c] eqn:Ef. destruct ok; [|done]. intros _. by apply (endpoint_flush_expired cf _ _ _ _ _ Hs Ef).
Qed.
End shared.

(** ** The device *)
Definition tap_packets (op : TapOp) : list (list Z * bool) :=
  match op with
  | OOutput _ packet owner _ _ => [(packet, mark owner)]
  | OOutputGso _ packet _ _ _ => [(packet, false)]
  | _ => []
  end.
(** The packets of the calls that answered true on one route. *)
Definition share (op : TapOp) (res : bool * Route) (r : Route) : list (list Z * bool) :=
  if res.1 && bool_decide (res.2 = r) then tap_packets op else [].
Fixpoint accepted (ops : list TapOp) (results : list (bool * Route)) (r : Route) : list (list Z * bool) :=
  match ops, results with
  | op :: ops, res :: results => share op res r ++ accepted ops results r
  | _, _ => []
  end.

Section device.
Context (dr : bool) (shared_cf : GsoConfig) (lane_cf : nat → GsoConfig) (bare_writer : list (list Z * Z) → list Z → Z * WriteErrno).
Context (Hshared : (0 < cf_segment_cap shared_cf)%nat) (Hlanes : ∀ i, (0 < cf_segment_cap (lane_cf i))%nat).
Let step : TapDev → TapOp → (bool * Route) * TapDev := tap_step dr shared_cf lane_cf bare_writer.

Definition lane_slot_ok (i : nat) (o : option (option GsoLane)) (acc : list (list Z * bool)) : Prop :=
  match o with Some (Some l) => lane_ok (lane_cf i) l acc | _ => acc = [] end.
Definition slots_ok (lanes : list (option GsoLane)) (acc : Route → list (list Z * bool)) : Prop := ∀ i, lane_slot_ok i (lanes !! i) (acc (RLane i)).
Definition written_bare (log : list (list Z * Z)) : list (list Z) := fst <$> filter (λ e, e.2 = Z.of_nat (length e.1)) log.
Record tap_ok (t : TapDev) (acc : Route → list (list Z * bool)) : Prop := {
  tk_shared : shared_ok shared_cf (tp_shared t) (acc RShared);
  tk_lanes : slots_ok (tp_lanes t) acc;
  tk_bare : written_bare (tp_bare t) = (acc RBare).*1;
}.
Lemma tap_ok_ext t acc acc' : tap_ok t acc → (∀ r, acc r = acc' r) → tap_ok t acc'.
Proof.
  intros [H1 H2 H3] E. constructor; [by rewrite <- E| |by rewrite <- E]. intros i. unfold slots_ok in H2. by rewrite <- E.
Qed.
Lemma tap_ok_same t t' acc : tap_ok t acc → tp_shared t' = tp_shared t → tp_lanes t' = tp_lanes t → tp_bare t' = tp_bare t → tap_ok t' acc.
Proof. intros [H1 H2 H3] E1 E2 E3. constructor; by rewrite ?E1, ?E2, ?E3. Qed.
Lemma lanes_insert lanes acc acc' i l :
  slots_ok lanes acc → lane_ok (lane_cf i) l (acc' (RLane i)) → is_Some (lanes !! i) → (∀ j, j ≠ i → acc' (RLane j) = acc (RLane j)) →
  slots_ok (<[i := Some l]> lanes) acc'.
Proof.
  intros H Hl Hi Hj j. destruct (decide (j = i)) as [->|Hn].
  - rewrite list_lookup_insert_eq by (by apply lookup_lt_is_Some). done.
  - rewrite list_lookup_insert_ne by done. rewrite Hj by done. apply H.
Qed.

Definition grown (acc : Route → list (list Z * bool)) (op : TapOp) (res : bool * Route) : Route → list (list Z * bool) := λ r, acc r ++ share op res r.
Lemma grown_idle t acc op ok : tap_ok t acc → tap_ok t (grown acc op (ok, RNone)).
Proof.
  intros [H1 H2 H3]. unfold grown, share. cbn [fst snd]. constructor.
  - rewrite bool_decide_eq_false_2, andb_false_r, app_nil_r by done. done.
  - intros i. rewrite bool_decide_eq_false_2, andb_false_r, app_nil_r by done. apply H2.
  - rewrite bool_decide_eq_false_2, andb_false_r, app_nil_r by done. done.
Qed.

Lemma output_lane_step op i out t acc packet :
  tap_ok t acc → tap_packets op = [packet] →
  (∀ l a, lane_ok (lane_cf i) l a → let '(ok, failed, l') := out l in failed = false → lane_ok (lane_cf i) l' (a ++ taken ok packet)) →
  let '(ok, r, t') := output_lane i out t in tp_write_failed t' = false → tap_ok t' (grown acc op (ok, r)).
Proof.
  intros Ht Ep Ho. unfold output_lane. destruct (tp_lanes t !! i) as [[l|]|] eqn:El; [|intros _; by apply grown_idle|intros _; by apply grown_idle].
  destruct Ht as [H1 H2 H3]. pose proof (H2 i) as Hl. rewrite El in Hl. specialize (Ho l _ Hl). destruct (out l) as [[ok failed] l'].
  cbn [FailTunWrite set_lanes tp_write_failed]. intros [_ ->]%orb_false_elim. specialize (Ho eq_refl).
  constructor; cbn [FailTunWrite set_lanes tp_shared tp_lanes tp_bare].
  - unfold grown, share. cbn [fst snd]. by rewrite bool_decide_eq_false_2, andb_false_r, app_nil_r by done.
  - apply (lanes_insert _ acc); [done| |by rewrite El|].
    + unfold grown, share. cbn [fst snd]. rewrite bool_decide_eq_true_2, andb_true_r, Ep by done. exact Ho.
    + intros j Hj. unfold grown, share. cbn [fst snd]. rewrite bool_decide_eq_false_2 by naive_solver. by rewrite andb_false_r, app_nil_r.
  - unfold grown, share. cbn [fst snd]. by rewrite bool_decide_eq_false_2, andb_false_r, app_nil_r by done.
Qed.

Lemma output_shared_step op out t acc packet :
  tap_ok t acc → tap_packets op = [packet] →
  (∀ s a, shared_ok shared_cf s a → let '(ok, failed, s') := out s in failed = false → shared_ok shared_cf s' (a ++ taken ok packet)) →
  let '(ok, r, t') := output_shared out t in tp_write_failed t' = false → tap_ok t' (grown acc op (ok, r)).
Proof.
  intros [H1 H2 H3] Ep Ho. unfold output_shared. specialize (Ho _ _ H1). destruct (out (tp_shared t)) as [[ok failed] s'].
  cbn [FailTunWrite set_shared tp_write_failed]. intros [_ ->]%orb_false_elim. specialize (Ho eq_refl).
  constructor; cbn [FailTunWrite set_shared tp_shared tp_lanes tp_bare]; unfold grown, share; cbn [fst snd].
  - rewrite bool_decide_eq_true_2, andb_true_r, Ep by done. exact Ho.
  - intros i. rewrite bool_decide_eq_false_2, andb_false_r, app_nil_r by done. apply H2.
  - by rewrite bool_decide_eq_false_2, andb_false_r, app_nil_r by done.
Qed.

Lemma output_bare_step op t acc packet b :
  tap_ok t acc → tap_packets op = [(packet, b)] →
  let '(ok, t') := output_bare bare_writer packet t in tp_write_failed t' = false → tap_ok t' (grown acc op (ok, RBare)).
Proof.
  intros [H1 H2 H3] Ep. unfold output_bare. destruct (bare_writer (tp_bare t) packet) as [w e].
  set (t1 := set_bare t (tp_bare t ++ [(packet, w)])).
  assert (tap_ok t1 (grown acc op (w =? Z.of_nat (length packet), RBare))) as H.
  { constructor; cbn [t1 set_bare tp_shared tp_lanes tp_bare]; unfold grown, share; cbn [fst snd].
    - by rewrite bool_decide_eq_false_2, andb_false_r, app_nil_r by done.
    - intros i. rewrite bool_decide_eq_false_2, andb_false_r, app_nil_r by done. apply H2.
    - unfold written_bare. rewrite filter_app, fmap_app. fold (written_bare (tp_bare t)). rewrite H3, bool_decide_eq_true_2, andb_true_r, fmap_app, Ep by done.
      f_equal. destruct (Z.eqb_spec w (Z.of_nat (length packet))) as [Ew|Ew]; [by rewrite filter_cons_True|by rewrite filter_cons_False]. }
  destruct (w =? Z.of_nat (length packet)); [done|]. destruct (ClassifyTunWriteErrno e); [| |];
    try by (cbn [FailTunWrite tp_write_failed]; rewrite orb_true_r).
  case_if as E; [done|]. by cbn [FailTunWrite tp_write_failed]; rewrite orb_true_r.
Qed.

Lemma current_lane_step slot created t acc :
  tap_ok t acc → let '(_, t') := CurrentGsoOutputLane lane_cf slot created t in
  tap_ok t' acc ∧ tp_write_failed t' = tp_write_failed t ∧ tp_disposed t' = tp_disposed t.
Proof.
  intros Ht. unfold CurrentGsoOutputLane. cbv zeta. case_if as E1; [done|]. set (i := Z.to_nat (SelectTapOutputLane slot (tp_lanes_enabled t))).
  destruct (tp_lanes t !! i) as [[l|]|] eqn:El; [done| |].
  all: case_if as E2; [done|]; unfold CreateGsoOutputLane; rewrite El; case_if as E3; [done|]; case_if as E4;
    [by split; [apply (tap_ok_same t)|]|]; case_if as E5; [by split; [apply (tap_ok_same t)|]|].
  - split; [|done]. destruct Ht as [H1 H2 H3]. constructor; [done| |done]. apply (lanes_insert _ acc); [done| |by rewrite El|done].
    pose proof (H2 i) as Hi. rewrite El in Hi. cbn in Hi. rewrite Hi. by apply endpoint_new.
  - split; [|done]. destruct Ht as [H1 H2 H3]. constructor; [done| |done]. cbn [set_lanes tp_lanes].
    rewrite list_insert_ge by (by apply lookup_ge_None). done.
Qed.

(** As long as the device has not failed. *)
Definition live (t : TapDev) (acc : Route → list (list Z * bool)) : Prop := tp_write_failed t = false → tap_ok t acc.
Lemma live_idle t acc op ok : live t acc → live t (grown acc op (ok, RNone)).
Proof. intros H E. by apply grown_idle, H. Qed.

Lemma disable_lanes_ok reason close now lanes i acc :
  (∀ j, lane_slot_ok (i + j) (lanes !! j) (acc (RLane (i + j)))) →
  let '(failed, lanes') := disable_lanes lane_cf reason close now i lanes in
  failed = false → ∀ j, lane_slot_ok (i + j) (lanes' !! j) (acc (RLane (i + j))).
Proof.
  revert i. induction lanes as [|o lanes IH]; intros i H; [by intros _|]. cbn [disable_lanes].
  set (r := match o with Some l => _ | None => _ end).
  assert (let '(failed, o') := r in failed = false → lane_slot_ok i (Some o') (acc (RLane i))) as H0.
  { pose proof (H 0%nat) as H0. rewrite Nat.add_0_r in H0. unfold r. destruct o as [l|]; [|done]. pose proof (disable_lane_ok (lane_cf i) reason close now l _ H0) as G.
    by destruct (DisableGsoOutputLane (lane_cf i) reason close now l). }
  destruct r as [failed o']. specialize (IH (S i)). destruct (disable_lanes lane_cf reason close now (S i) lanes) as [failed' lanes'].
  intros [-> ->]%orb_false_elim j. destruct j as [|j]; [rewrite Nat.add_0_r; by apply H0|].
  replace (i + S j)%nat with (S i + j)%nat by lia. apply IH; [|done]. intros k. specialize (H (S k)). by replace (i + S k)%nat with (S i + k)%nat in H by lia.
Qed.

Lemma disable_outputs_live reason close now t acc : live t acc → live (DisableGsoOutputLanes lane_cf reason close now t) acc.
Proof.
  intros Ht. unfold DisableGsoOutputLanes, live. cbn [set_lanes_disabled tp_lanes].
  pose proof (disable_lanes_ok reason close now (tp_lanes t) 0 acc) as G. destruct (disable_lanes lane_cf reason close now 0 (tp_lanes t)) as [failed lanes].
  cbn [FailTunWrite set_lanes set_lanes_disabled tp_write_failed]. intros [E ->]%orb_false_elim. destruct (Ht E) as [H1 H2 H3].
  constructor; [done| |done]. intros j. by apply (G (λ j, H2 j) eq_refl).
Qed.

Lemma disable_shared_live reason now t acc : live t acc → live (disable_shared shared_cf reason now t) acc.
Proof.
  intros Ht. unfold disable_shared. cbv zeta. set (s := mkGsoShared _ _ _ _ _).
  destruct (gs_merge_active s) eqn:Em.
  - pose proof (disable_merge_ok shared_cf reason now s (acc RShared)) as G. destruct (DisableGsoMergeLocked shared_cf reason now s) as [failed s'].
    unfold live. cbn [FailTunWrite set_shared tp_write_failed]. intros [E ->]%orb_false_elim. destruct (Ht E) as [H1 H2 H3]. constructor; [|done|done].
    by apply G.
  - intros E. destruct (Ht E) as [H1 H2 H3]. constructor; [|done|done].
    cbn [set_shared tp_shared]. destruct (cancel_shared true s) as [C1 C2]. unfold shared_ok. rewrite C1, C2. exact H1.
Qed.

Lemma fail_input_live now t acc : live t acc → live (fail_vnet_input shared_cf lane_cf now t) acc.
Proof.
  intros Ht. unfold fail_vnet_input. pose proof (disable_merge_ok shared_cf FlTerminate now (tp_shared t) (acc RShared)) as G.
  destruct (DisableGsoMergeLocked shared_cf FlTerminate now (tp_shared t)) as [failed s]. apply disable_outputs_live. unfold live.
  cbn [FailTunWrite set_shared tp_write_failed]. intros [E ->]%orb_false_elim. destruct (Ht E) as [H1 H2 H3]. constructor; [by apply G|done|done].
Qed.
Lemma ssmt_live opened now t acc : live t acc → live (Tap_Ssmt shared_cf lane_cf opened now t).2 acc.
Proof.
  intros Ht. unfold Tap_Ssmt. case_if as E; [done|]. cbv zeta. pose proof (disable_outputs_live FlSsmt false now _ acc (disable_shared_live FlSsmt now t acc Ht)) as G.
  destruct opened; [|exact G]. intros E1. by apply (tap_ok_same (DisableGsoOutputLanes lane_cf FlSsmt false now (disable_shared shared_cf FlSsmt now t))); [apply G|..].
Qed.
Lemma finalize_live now t acc : live t acc → live (Tap_Finalize shared_cf lane_cf now t) acc.
Proof.
  intros Ht. unfold Tap_Finalize. cbv zeta. set (t1 := if tp_disposed t then t else _).
  assert (live t1 acc) as H1.
  { unfold t1. case_if as E; [done|]. apply disable_shared_live. intros E1. by apply (tap_ok_same t); [apply Ht|..]. }
  pose proof (disable_outputs_live FlTerminate true now t1 acc H1) as G. intros E1.
  by apply (tap_ok_same (DisableGsoOutputLanes lane_cf FlTerminate true now t1)); [apply G|..].
Qed.

(** A call that writes, on the lane of its slot or on the shared path. *)
Lemma route_live op packet slot created t acc lane_out shared_out :
  tap_ok t acc → tap_packets op = [packet] →
  (∀ i t1 l a, lane_ok (lane_cf i) l a → let '(ok, failed, l') := lane_out i t1 l in failed = false → lane_ok (lane_cf i) l' (a ++ taken ok packet)) →
  (∀ t1 s a, shared_ok shared_cf s a → let '(ok, failed, s') := shared_out t1 s in failed = false → shared_ok shared_cf s' (a ++ taken ok packet)) →
  let '(lane, t1) := if Ssmt t then (None, t) else CurrentGsoOutputLane lane_cf slot created t in
  let '(ok, r, t') := match lane with Some i => output_lane i (lane_out i t1) t1 | None => output_shared (shared_out t1) t1 end in
  live t' (grown acc op (ok, r)).
Proof.
  intros Ht Ep Hl Hs.
  assert (let '(_, t1) := if Ssmt t then (None, t) else CurrentGsoOutputLane lane_cf slot created t in tap_ok t1 acc) as G.
  { destruct (Ssmt t); [done|]. pose proof (current_lane_step slot created t acc Ht) as G. destruct (CurrentGsoOutputLane lane_cf slot created t). apply G. }
  destruct (if Ssmt t then (None, t) else CurrentGsoOutputLane lane_cf slot created t) as [[i|] t1].
  - pose proof (output_lane_step op i (lane_out i t1) t1 acc packet G Ep (Hl i t1)) as G1. by destruct (output_lane i (lane_out i t1) t1) as [[ok r] t'].
  - pose proof (output_shared_step op (shared_out t1) t1 acc packet G Ep (Hs t1)) as G1. by destruct (output_shared (shared_out t1) t1) as [[ok r] t'].
Qed.

Lemma output_live slot packet owner created now t acc :
  live t acc → bytes_ok packet →
  let '(res, t') := OutputInternal dr shared_cf lane_cf bare_writer slot packet owner created now t in
  live t' (grown acc (OOutput slot packet owner created now) res).
Proof.
  intros Ht Hb. set (op := OOutput slot packet owner created now). unfold OutputInternal.
  case_if as E1; [by apply live_idle|]. case_if as E2; [by apply live_idle|]. case_if as E3; [by apply live_idle|].
  specialize (Ht E3). case_if as E4.
  { pose proof (output_bare_step op t acc packet (mark owner) Ht eq_refl) as G. by destruct (output_bare bare_writer packet t) as [ok t']. }
  pose proof (route_live op (packet, mark owner) slot created t acc
    (λ i t1, OutputLane dr (lane_cf i) (tp_disposed t1) (tp_write_failed t1) (tp_lanes_disabled t1) packet owner now)
    (λ _, OutputShared dr shared_cf packet owner now) Ht eq_refl) as G.
  destruct (if Ssmt t then (None, t) else CurrentGsoOutputLane lane_cf slot created t) as [lane t1].
  destruct (match lane with Some i => _ | None => _ end) as [[ok r] t'].
  apply G; [intros i t2 l a H; by apply output_lane_ok|intros _ s a H; by apply output_shared_ok].
Qed.

Lemma output_gso_live slot packet m created now t acc :
  live t acc → let '(res, t') := OutputGso shared_cf lane_cf slot packet m created now t in
  live t' (grown acc (OOutputGso slot packet m created now) res).
Proof.
  intros Ht. set (op := OOutputGso slot packet m created now). unfold OutputGso. destruct (BuildTcpV4GsoHeader packet m) as [h|] eqn:Eh; [|by apply live_idle].
  assert (super_header h) as Hh.
  { revert Eh. unfold BuildTcpV4GsoHeader. destruct (TxGso_ParseTcpV4 _ _ _); [|done]. case_if as E; [done|]. by intros [= <-]. }
  case_if as E1; [by apply live_idle|]. apply orb_false_elim in E1 as [_ E1]. specialize (Ht E1).
  pose proof (route_live op (packet, false) slot created t acc
    (λ i t1, OutputGsoLane (lane_cf i) (tp_tx_gso t1) (tp_lanes_disabled t1) packet h now)
    (λ t1, OutputGsoShared shared_cf (tp_vnet_header t1) (tp_tx_gso t1) (tp_handle t1) packet h now) Ht eq_refl) as G.
  destruct (if Ssmt t then (None, t) else CurrentGsoOutputLane lane_cf slot created t) as [lane t1].
  destruct (match lane with Some i => _ | None => _ end) as [[ok r] t'].
  apply G; [intros i t2 l a H; by apply output_gso_lane_ok|intros t2 s a H; by apply output_gso_shared_ok].
Qed.

Lemma step_live t op acc : live t acc → Forall packet_bytes_ok (tap_packets op) → let '(res, t') := step t op in live t' (grown acc op res).
Proof.
  intros Ht Hb. unfold step. destruct op as [slot packet owner created now|slot packet m created now|generation ec now|i generation ec now|handler frame now|opened now|now];
    cbn [tap_step].
  - apply output_live; [done|]. by apply Forall_cons in Hb as [Hb _].
  - by apply output_gso_live.
  - pose proof (shared_timer_ok shared_cf (tp_disposed t) generation ec now (tp_shared t) (acc RShared)) as G.
    destruct (GsoHoldTimer shared_cf (tp_disposed t) generation ec now (tp_shared t)) as [failed s]. apply live_idle.
    unfold live. cbn [FailTunWrite set_shared tp_write_failed]. intros [E ->]%orb_false_elim. destruct (Ht E) as [H1 H2 H3]. constructor; [by apply G|done|done].
  - destruct (tp_lanes t !! i) as [[l|]|] eqn:El; [|by apply live_idle|by apply live_idle].
    pose proof (lane_timer_ok (lane_cf i) (tp_disposed t) generation ec now l (acc (RLane i))) as G.
    destruct (LaneHoldTimer (lane_cf i) (tp_disposed t) generation ec now l) as [failed l']. apply live_idle.
    unfold live. cbn [FailTunWrite set_lanes tp_write_failed]. intros [E ->]%orb_false_elim. destruct (Ht E) as [H1 H2 H3]. constructor; [done| |done].
    apply (lanes_insert _ acc); [done| |by rewrite El|done]. apply G; [|done]. pose proof (H2 i) as Hi. by rewrite El in Hi.
  - case_if as E; [by apply live_idle|]. destruct (OnInput _ handler frame); apply live_idle; [done|done|by apply fail_input_live].
  - pose proof (ssmt_live opened now t acc Ht) as G. destruct (Tap_Ssmt shared_cf lane_cf opened now t) as [ok t']. by apply live_idle.
  - by apply live_idle, finalize_live.
Qed.

Lemma run_live ops t acc :
  live t acc → Forall packet_bytes_ok (mjoin (tap_packets <$> ops)) →
  let '(results, t') := run step t ops in live t' (λ r, acc r ++ accepted ops results r).
Proof.
  revert t acc. induction ops as [|op ops IH]; intros t acc Ht Hb; cbn [run].
  { intros E. apply (tap_ok_ext t acc); [by apply Ht|]. intros r. by rewrite app_nil_r. }
  rewrite fmap_cons, mjoin_cons in Hb. apply Forall_app in Hb as [Hb1 Hb2].
  pose proof (step_live t op acc Ht Hb1) as G. destruct (step t op) as [res t1]. specialize (IH t1 _ G Hb2). destruct (run step t1 ops) as [results t'].
  intros E. eapply tap_ok_ext; [by apply IH|]. intros r. unfold grown. cbn [accepted]. by rewrite app_assoc.
Qed.

Lemma new_live vnet mr lr : live (Tap_new dr shared_cf vnet mr lr) (λ _, []).
Proof.
  intros _. constructor; [by apply endpoint_new| |done]. intros i. cbn [Tap_new tp_lanes].
  destruct (replicate (Z.to_nat kMaxTapOutputLanes) None !! i) as [[l|]|] eqn:E; [|done|done]. by apply lookup_replicate in E as [? _].
Qed.
End device.

(** The packets [acc], with their marks, are those that the frames of [c] brought ([same_segment]: the same
    bytes with the checksum request of the mark, or a segment of a super-packet) and those it still
    holds; all its writes were whole; in the order of [acc] when [ordered]. *)
Definition accounts_for (c : Coalescer) (acc : list (list Z * bool)) (ordered : bool) : Prop :=
  ∃ k, Forall2 same_segment k (brought (gc_log c)) ∧ k ++ pending_packets c ≡ₚ acc ∧ all_complete (gc_log c) ∧
    (ordered = true → k ++ pending_packets c = acc).
Lemma endpoint_accounts cf c acc m : endpoint_ok cf c acc m → accounts_for c acc m.
Proof.
  intros (ps & k & H1 & H2 & H3 & H4 & H5). exists k. rewrite (pending_held cf c ps (sb_held _ _ _ H1)). split_and!; [done|done|done|].
  intros Hm. by destruct (H5 Hm).
Qed.

(** C30: After any history of outputs, super-packet outputs, timer handlers, input frames, queue
    additions and finalization, as long as no write has failed the device: on the shared path and on every lane the
    packets whose output answered true are those the written frames bring and those still held, none lost,
    none twice, and in the order of the calls as long as merging is active there.  A packet is brought in one
    of two ways: with the very same bytes, in a frame that asks its reader to fill the checksum of its TCP
    header exactly when the packet's owner had marked it as partially checksummed; or as a segment cut from a
    super-packet, with valid checksums, that equals it but for the identification, the fragment word other than
    its DF bit, the checksums, the reserved bits beside the data offset and the acknowledgement flag.  Without a
    VNET header, where no mark can be carried, they are the frames written whole. *)
Theorem tun_output_accounted dr shared_cf lane_cf bare_writer vnet merge_requested lanes_requested ops :
  (0 < cf_segment_cap shared_cf)%nat → (∀ i, 0 < cf_segment_cap (lane_cf i))%nat → Forall packet_bytes_ok (mjoin (tap_packets <$> ops)) →
  let '(results, t) := run (tap_step dr shared_cf lane_cf bare_writer) (Tap_new dr shared_cf vnet merge_requested lanes_requested) ops in
  tp_write_failed t = false →
  accounts_for (gs_coalescer (tp_shared t)) (accepted ops results RShared) (gs_merge_active (tp_shared t)) ∧
  (∀ i, match tp_lanes t !! i with
        | Some (Some l) => accounts_for (gl_coalescer l) (accepted ops results (RLane i)) (gl_merge_active l)
        | _ => accepted ops results (RLane i) = []
        end) ∧
  written_bare (tp_bare t) = (accepted ops results RBare).*1.
Proof.
  intros Hs Hl Hb. pose proof (run_live dr shared_cf lane_cf bare_writer Hs Hl ops _ _ (new_live dr shared_cf lane_cf Hs vnet merge_requested lanes_requested) Hb) as G.
  destruct (run _ _ ops) as [results t]. intros E. destruct (G E) as [H1 H2 H3]. split_and!; [by eapply endpoint_accounts| |done].
  intros i. pose proof (H2 i) as Hi. destruct (tp_lanes t !! i) as [[l|]|]; [by eapply endpoint_accounts|done|done].
Qed.

(** ** Concrete histories *)
Definition demo_bare (_ : list (list Z * Z)) (frame : list Z) : Z * WriteErrno := (Z.of_nat (length frame), EOther).
Definition demo_tap (w : list (list Z * Z) → list Z → Z) : TapDev → TapOp → (bool * Route) * TapDev :=
  tap_step false (demo_config w) (λ _, demo_config w) demo_bare.
Definition demo_start (w : list (list Z * Z) → list Z → Z) : TapDev := Tap_new false (demo_config w) true true true.
(** Two segments on lane 2, one on the shared path; then the timer of the lane and a super-packet. *)
Definition demo_calls : list TapOp :=
  [OOutput 2 seg_a None true 0; OOutput 2 seg_b (Some (Some true)) true 10; OOutput (-1) seg_d None true 20;
   OLaneTimer 2 1 false 100000; OOutputGso (-1) sample_super (mkTxGso 40 2 3) true 100010].
Lemma demo_calls_bytes : Forall packet_bytes_ok (mjoin (tap_packets <$> demo_calls)).
Proof. unfold demo_calls. cbn [fmap list_fmap tap_packets mjoin list_join app]. repeat (apply Forall_cons; split; [decide_true|]). done. Qed.

Lemma tun_output_accounted_witness :
  let '(results, t) := run (demo_tap willing) (demo_start willing) demo_calls in
  results = [(true, RLane 2); (true, RLane 2); (true, RShared); (false, RNone); (true, RShared)] ∧ tp_write_failed t = false ∧
  accounts_for (gs_coalescer (tp_shared t)) (accepted demo_calls results RShared) (gs_merge_active (tp_shared t)) ∧
  (∀ i, match tp_lanes t !! i with
        | Some (Some l) => accounts_for (gl_coalescer l) (accepted demo_calls results (RLane i)) (gl_merge_active l)
        | _ => accepted demo_calls results (RLane i) = []
        end) ∧
  written_bare (tp_bare t) = (accepted demo_calls results RBare).*1.
Proof.
  pose proof (tun_output_accounted false (demo_config willing) (λ _, demo_config willing) demo_bare true true true demo_calls
    ltac:(cbn; lia) ltac:(cbn; lia) demo_calls_bytes) as H.
  assert (let '(results, t) := run (demo_tap willing) (demo_start willing) demo_calls in
    results = [(true, RLane 2); (true, RLane 2); (true, RShared); (false, RNone); (true, RShared)] ∧ tp_write_failed t = false) as G
    by (vm_compute; split; reflexivity).
  unfold demo_tap, demo_start in *. destruct (run _ _ demo_calls) as [results t]. destruct G as [G1 G2]. destruct (H G2) as (H1 & H2 & H3).
  split_and!; assumption.
Defined.

(** The lane of slot 2. *)
Definition lane_two (t : TapDev) : option GsoLane := mjoin (tp_lanes t !! 2%nat).

(** The hold timer is armed once: a packet that takes the place of an older one has no timer when the
    older one's runs, too early for the new packet. *)
Lemma held_without_timer :
  let t := exec (demo_tap willing) (demo_start willing)
    [OOutput 2 seg_a None true 0; OOutput 2 seg_d None true 50000; OLaneTimer 2 1 false 100000] in
  match lane_two t with
  | Some l => pending_packets (gl_coalescer l) = [(seg_d, false)] ∧ gl_timer_armed l = false ∧ gl_merge_active l = true
  | None => False
  end.
Proof. vm_compute. split_and!; reflexivity. Qed.

(** After a fallback the held packet stays through later outputs, the timer and finalization. *)
Lemma held_until_closed :
  let t := exec (demo_tap refusing) (demo_start refusing)
    [OOutput 2 seg_a None true 0; OOutput 2 seg_b None true 10; OOutput 2 seg_d None true 20; OOutput 2 seg_c None true 30;
     OLaneTimer 2 1 false 100000; OFinalize 200000] in
  match lane_two t with
  | Some l => pending_packets (gl_coalescer l) = [(seg_d, false)] ∧ brought (gc_log (gl_coalescer l)) = [(seg_a, None); (seg_b, None); (seg_c, None)] ∧ gl_open l = false
  | None => False
  end ∧ tp_write_failed t = false.
Proof. vm_compute. split_and!; reflexivity. Qed.

(** With a VNET header a single packet that is too large fails the device; without one it does not. *)
Lemma oversized_fails_device vnet :
  tp_write_failed (exec (tap_step false (demo_config willing) (λ _, demo_config willing) (λ _ _, (-1, EMSGSIZE)))
    (Tap_new false (demo_config willing) vnet false false) [OOutput (-1) (replicate 1501 0) None true 0]) = vnet.
Proof. by destruct vnet; vm_compute. Qed.
