(* ===== verification/P2PV2Codec.v ===== *)
(** * Version 2 of the peer-to-peer packets

    [p2p/P2PV2ControlCodec.cpp] and [p2p/P2PV2DataCodec.cpp]: control packets with their tags and
    transcript hashes, and data datagrams.  The primitives of OpenSSL are the class [P2PCrypto]; what
    the packets rely on is [P2PCryptoLaws].  Fixed arrays are byte lists of the declared length. *)
From S2P Require Import Prelude P2PControl.

(** ** Primitives *)
Class P2PCrypto := {
  p2p_sha256 : list Z → option (list Z);
  p2p_hmac : list Z → list Z → option (list Z);
  (** HKDF-SHA256 of a key, a salt and an info string, to so many bytes. *)
  p2p_hkdf : list Z → list Z → list Z → nat → option (list Z);
  (** ChaCha20-Poly1305 with key, nonce, associated data and plaintext: the ciphertext and the tag. *)
  p2p_seal : list Z → list Z → list Z → list Z → option (list Z * list Z);
  p2p_open : list Z → list Z → list Z → list Z → list Z → option (list Z);
}.

(** ** Control packets *)
Inductive P2PV2ControlType := V2Probe | V2ProbeAck | V2MigrateChallenge | V2MigrateAck | V2KeyCommit | V2KeyCommitAck.
#[global] Instance P2PV2ControlType_eq_dec : EqDecision P2PV2ControlType.
Proof. solve_decision. Defined.

Definition v2_type_byte (t : P2PV2ControlType) : Z :=
  match t with V2Probe => 1 | V2ProbeAck => 2 | V2MigrateChallenge => 3 | V2MigrateAck => 4 | V2KeyCommit => 6 | V2KeyCommitAck => 7 end.
Definition v2_type_of_byte (b : Z) : option P2PV2ControlType :=
  if b =? 1 then Some V2Probe else if b =? 2 then Some V2ProbeAck else if b =? 3 then Some V2MigrateChallenge
  else if b =? 4 then Some V2MigrateAck else if b =? 6 then Some V2KeyCommit else if b =? 7 then Some V2KeyCommitAck else None.
Definition P2PV2ControlWireSize (t : P2PV2ControlType) : nat :=
  match t with V2Probe | V2ProbeAck => 158 | V2KeyCommit | V2KeyCommitAck => 190 | V2MigrateChallenge | V2MigrateAck => 126 end.

Definition zero_hash : list Z := replicate 32 0.

Record P2PV2ControlPacket := mkV2Control {
  vc_type : P2PV2ControlType;
  vc_offer_hash : list Z;
  vc_previous_offer_hash : list Z;
  vc_probe_transcript_hash : list Z;
  vc_commit_transcript_hash : list Z;
  vc_sender_role : Z;
  vc_receiver_role : Z;
  vc_direction : Z;
  vc_connection_epoch : list Z;
  vc_source : P2PCandidateEndpoint;
  vc_destination : P2PCandidateEndpoint;
  vc_sequence : Z;
  vc_nonce : list Z;
  vc_setup_ttl_seconds : Z;
  vc_token : list Z;
}.

Definition set_token (p : P2PV2ControlPacket) (token : list Z) : P2PV2ControlPacket :=
  mkV2Control (vc_type p) (vc_offer_hash p) (vc_previous_offer_hash p) (vc_probe_transcript_hash p) (vc_commit_transcript_hash p)
    (vc_sender_role p) (vc_receiver_role p) (vc_direction p) (vc_connection_epoch p) (vc_source p) (vc_destination p) (vc_sequence p)
    (vc_nonce p) (vc_setup_ttl_seconds p) token.

Definition V2_Valid (p : P2PV2ControlPacket) : bool :=
  (vc_sender_role p <=? 1) && (vc_receiver_role p <=? 1) && negb (vc_sender_role p =? vc_receiver_role p) &&
  (vc_direction p =? vc_sender_role p) && (vc_setup_ttl_seconds p =? 10) && negb (vc_sequence p =? 4294967295) &&
  negb (bool_decide (vc_offer_hash p = zero_hash)) && negb (bool_decide (vc_connection_epoch p = replicate 16 0)) &&
  IsCanonicalP2PCandidate (vc_source p) && IsCanonicalP2PCandidate (vc_destination p).

(** The bytes behind the token. *)
Definition v2_trailer (p : P2PV2ControlPacket) : list Z :=
  match vc_type p with
  | V2Probe => zero_hash
  | V2ProbeAck => vc_probe_transcript_hash p
  | V2KeyCommit => vc_previous_offer_hash p ++ vc_probe_transcript_hash p
  | V2KeyCommitAck => vc_commit_transcript_hash p ++ vc_probe_transcript_hash p
  | _ => []
  end.
Definition SerializeP2PV2Control (p : P2PV2ControlPacket) : option (list Z) :=
  if negb (V2_Valid p) then None else
  Some ([2] ++ [v2_type_byte (vc_type p)] ++ [0; 0] ++ vc_offer_hash p ++ [vc_sender_role p] ++ [vc_receiver_role p] ++
    [vc_direction p] ++ vc_connection_epoch p ++ write_candidate (vc_source p) ++ write_candidate (vc_destination p) ++
    be_bytes 4 (vc_sequence p) ++ vc_nonce p ++ [vc_setup_ttl_seconds p] ++ vc_token p ++ v2_trailer p).

Definition ParseP2PV2Control (b : list Z) : option P2PV2ControlPacket :=
  if (length b <? 126)%nat || negb (byte_at b 0 =? 2) || negb (byte_at b 2 =? 0) || negb (byte_at b 3 =? 0) then None else
  type ← v2_type_of_byte (byte_at b 1);
  if negb (length b =? P2PV2ControlWireSize type)%nat then None else
  source ← ParseCandidate b 55;
  destination ← ParseCandidate b 74;
  if match type with V2Probe => negb (all_zero (drop 126 b)) | _ => false end then None else
  let p := mkV2Control type (sub b 4 32)
    (match type with V2KeyCommit => sub b 126 32 | _ => zero_hash end)
    (match type with V2ProbeAck => sub b 126 32 | V2KeyCommit | V2KeyCommitAck => sub b 158 32 | _ => zero_hash end)
    (match type with V2KeyCommitAck => sub b 126 32 | _ => zero_hash end)
    (byte_at b 36) (byte_at b 37) (byte_at b 38) (sub b 39 16) source destination (get32 (drop 93 b)) (sub b 97 12) (byte_at b 109)
    (sub b 110 16) in
  if V2_Valid p then Some p else None.

(** ** Tags and hashes *)
Section tags.
Context `{P2PCrypto}.

Definition V2_Tag (p : P2PV2ControlPacket) (key : list Z) (binding : option (list Z)) : option (list Z) :=
  bytes ← SerializeP2PV2Control (set_token p (replicate 16 0));
  full ← p2p_hmac key (bytes ++ default [] binding);
  if (length full =? 32)%nat then Some (take 16 full) else None.
Definition SignP2PV2Control (p : P2PV2ControlPacket) (key : list Z) (binding : option (list Z)) : option P2PV2ControlPacket :=
  token ← V2_Tag p key binding; Some (set_token p token).
Definition VerifyP2PV2Control (p : P2PV2ControlPacket) (key : list Z) (binding : option (list Z)) : bool :=
  match V2_Tag p key binding with Some token => bool_decide (token = vc_token p) | None => false end.
Definition HashP2PV2Control (p : P2PV2ControlPacket) : option (list Z) :=
  bytes ← SerializeP2PV2Control p;
  hash ← p2p_sha256 bytes;
  if (length hash =? 32)%nat then Some hash else None.
End tags.

(** ** Data datagrams *)
Definition DataHeaderSize : nat := 62.
Definition DataTagSize : nat := 16.
Definition MaxPayloadSize : nat := 1514.

Record P2PDataPacketHeader := mkDataHeader {
  dh_offer_hash : list Z;
  dh_sender_role : Z;
  dh_receiver_role : Z;
  dh_direction : Z;
  dh_connection_epoch : list Z;
  dh_sequence : Z;
  dh_payload_length : Z;
}.
Definition V2_ValidHeader (h : P2PDataPacketHeader) : bool :=
  negb (dh_sequence h =? 4294967295) && (dh_sender_role h <=? 1) && (dh_receiver_role h <=? 1) &&
  negb (dh_sender_role h =? dh_receiver_role h) && (dh_direction h =? dh_sender_role h) && (1 <=? dh_payload_length h) &&
  (dh_payload_length h <=? Z.of_nat MaxPayloadSize) && negb (bool_decide (dh_offer_hash h = zero_hash)) &&
  negb (bool_decide (dh_connection_epoch h = replicate 16 0)).
Definition V2_SerializeHeader (h : P2PDataPacketHeader) : list Z :=
  [2; 5; 0; 0] ++ dh_offer_hash h ++ [dh_sender_role h] ++ [dh_receiver_role h] ++ [dh_direction h] ++ [0] ++ dh_connection_epoch h ++
  be_bytes 4 (dh_sequence h) ++ be_bytes 2 (dh_payload_length h).
Definition MatchesExpected (actual expected : P2PDataPacketHeader) : bool :=
  bool_decide (dh_offer_hash actual = dh_offer_hash expected) && (dh_sender_role actual =? dh_sender_role expected) &&
  (dh_receiver_role actual =? dh_receiver_role expected) && (dh_direction actual =? dh_direction expected) &&
  bool_decide (dh_connection_epoch actual = dh_connection_epoch expected) && (dh_sequence actual =? dh_sequence expected).
Definition ParseP2PV2DataPacketHeader (d : list Z) : option P2PDataPacketHeader :=
  if (length d <? DataHeaderSize + DataTagSize)%nat || negb (byte_at d 0 =? 2) || negb (byte_at d 1 =? 5) || negb (byte_at d 2 =? 0) ||
     negb (byte_at d 3 =? 0) || negb (byte_at d 39 =? 0) then None else
  let h := mkDataHeader (sub d 4 32) (byte_at d 36) (byte_at d 37) (byte_at d 38) (sub d 40 16) (get32 (drop 56 d)) (get16 (drop 60 d)) in
  let expected_size := Z.of_nat DataHeaderSize + dh_payload_length h + Z.of_nat DataTagSize in
  if negb (V2_ValidHeader h) || negb (Z.of_nat (length d) =? expected_size) then None else Some h.

Definition set_payload_length (h : P2PDataPacketHeader) (n : Z) : P2PDataPacketHeader :=
  mkDataHeader (dh_offer_hash h) (dh_sender_role h) (dh_receiver_role h) (dh_direction h) (dh_connection_epoch h) (dh_sequence h) n.

Section data.
Context `{P2PCrypto}.

Definition SealP2PV2DataDatagram (h : P2PDataPacketHeader) (key nonce payload : list Z) : option (list Z) :=
  if (length payload =? 0)%nat || (MaxPayloadSize <? length payload)%nat then None else
  let h := set_payload_length h (Z.of_nat (length payload)) in
  if negb (V2_ValidHeader h) then None else
  let header := V2_SerializeHeader h in
  '(ciphertext, tag) ← p2p_seal key nonce header payload;
  if (length ciphertext =? length payload)%nat then Some (header ++ ciphertext ++ tag) else None.
Definition OpenP2PV2DataDatagram (d : list Z) (expected : P2PDataPacketHeader) (key nonce : list Z) : option (list Z) :=
  parsed ← ParseP2PV2DataPacketHeader d;
  if negb (MatchesExpected parsed expected) then None else
  let n := Z.to_nat (dh_payload_length parsed) in
  plaintext ← p2p_open key nonce (take DataHeaderSize d) (sub d DataHeaderSize n) (sub d (DataHeaderSize + n) DataTagSize);
  if (length plaintext =? n)%nat then Some plaintext else None.
End data.

(** ** What the packets rely on *)
Class P2PCryptoLaws `{P2PCrypto} := {
  p2p_sha_bytes x y : p2p_sha256 x = Some y → byte_array 32 y;
  p2p_hmac_bytes k x y : p2p_hmac k x = Some y → byte_array 32 y;
  p2p_hkdf_bytes k s i n y : p2p_hkdf k s i n = Some y → byte_array n y;
  p2p_seal_bytes k n a p c t : p2p_seal k n a p = Some (c, t) → length c = length p ∧ bytes_ok c ∧ byte_array 16 t;
  p2p_open_length k n a c t p : p2p_open k n a c t = Some p → length p = length c;
  (** Opening undoes sealing, and only what sealing makes is opened. *)
  p2p_open_sealed k n a p c t : p2p_seal k n a p = Some (c, t) → p2p_open k n a c t = Some p;
  p2p_opened_sealed k n a c t p : p2p_open k n a c t = Some p → p2p_seal k n a p = Some (c, t);
}.

(** ** Control packets on the wire *)
Record v2_typed (p : P2PV2ControlPacket) : Prop := {
  vt_offer_hash : byte_array 32 (vc_offer_hash p);
  vt_previous : byte_array 32 (vc_previous_offer_hash p);
  vt_probe : byte_array 32 (vc_probe_transcript_hash p);
  vt_commit : byte_array 32 (vc_commit_transcript_hash p);
  vt_sender : is_byte (vc_sender_role p);
  vt_receiver : is_byte (vc_receiver_role p);
  vt_direction : is_byte (vc_direction p);
  vt_epoch : byte_array 16 (vc_connection_epoch p);
  vt_source : candidate_typed (vc_source p);
  vt_destination : candidate_typed (vc_destination p);
  vt_sequence : is_uint 32 (vc_sequence p);
  vt_nonce : byte_array 12 (vc_nonce p);
  vt_ttl : is_byte (vc_setup_ttl_seconds p);
  vt_token : byte_array 16 (vc_token p);
}.
(** The hashes that a type does not carry are zero. *)
Definition v2_normal (p : P2PV2ControlPacket) : Prop :=
  match vc_type p with
  | V2ProbeAck => vc_previous_offer_hash p = zero_hash ∧ vc_commit_transcript_hash p = zero_hash
  | V2KeyCommit => vc_commit_transcript_hash p = zero_hash
  | V2KeyCommitAck => vc_previous_offer_hash p = zero_hash
  | _ => vc_previous_offer_hash p = zero_hash ∧ vc_probe_transcript_hash p = zero_hash ∧ vc_commit_transcript_hash p = zero_hash
  end.

Lemma v2_type_roundtrip t : v2_type_of_byte (v2_type_byte t) = Some t.
Proof. by destruct t. Qed.
Lemma v2_type_byte_inv b t : v2_type_of_byte b = Some t → v2_type_byte t = b.
Proof. unfold v2_type_of_byte. repeat case_match; intros; simplify_eq; cbn [v2_type_byte]; blia. Qed.
Lemma length_trailer p : v2_typed p → (126 + length (v2_trailer p) = P2PV2ControlWireSize (vc_type p))%nat.
Proof.
  intros [_ [H1 _] [H2 _] [H3 _] _ _ _ _ _ _ _ _ _ _]. unfold v2_trailer, zero_hash. destruct (vc_type p); cbn [P2PV2ControlWireSize];
    rewrite ?length_app, ?length_replicate, ?H1, ?H2, ?H3; done.
Qed.
Lemma all_zero_replicate l : all_zero l = true → l = replicate (length l) 0.
Proof. induction l as [|b l IH]; cbn [all_zero forallb length replicate]; [done|]. intros [Hb Hl]%andb_prop. bool_props. subst b. f_equal. by apply IH. Qed.

Lemma v2_parse_serialize p bytes : v2_typed p → v2_normal p → SerializeP2PV2Control p = Some bytes → ParseP2PV2Control bytes = Some p.
Proof.
  intros Hok Hn Hs. pose proof (length_trailer p Hok) as Htl.
  destruct Hok as [[H1 _] [Hp1 _] [Hp2 _] [Hp3 _] ? ? ? [H2 _] H3 H4 Hq [H5 _] ? [H6 _]].
  unfold SerializeP2PV2Control in Hs. destruct (V2_Valid p) eqn:Hv; [|done]. cbn [negb] in Hs. apply (inj Some) in Hs.
  pose proof (length_write_candidate _ H3) as Hw1. pose proof (length_write_candidate _ H4) as Hw2.
  assert (length bytes = P2PV2ControlWireSize (vc_type p)) as Hlen.
  { rewrite <- Htl, <- Hs. rewrite !length_app, H1, H2, H5, H6, Hw1, Hw2, length_be_bytes. cbn [length]. lia. }
  assert (126 ≤ P2PV2ControlWireSize (vc_type p))%nat as Hge by lia.
  unfold ParseP2PV2Control. rewrite (proj2 (Nat.ltb_ge _ _)) by lia.
  assert (byte_at bytes 0 = 2 ∧ byte_at bytes 1 = v2_type_byte (vc_type p) ∧ byte_at bytes 2 = 0 ∧ byte_at bytes 3 = 0) as (->&->&->&->)
    by (rewrite <- Hs; seg; done).
  cbn [Z.eqb Pos.eqb negb orb]. rewrite v2_type_roundtrip. cbn [mbind option_bind]. rewrite Hlen, Nat.eqb_refl. cbn [negb].
  assert (parse_candidate bytes 55 = vc_source p) as Hpc1.
  { eapply parse_write_candidate; [done|]. rewrite <- Hs. seg. rewrite !H1, !H2. cbn [Nat.sub]. by rewrite drop_0. }
  assert (parse_candidate bytes 74 = vc_destination p) as Hpc2.
  { eapply parse_write_candidate; [done|]. rewrite <- Hs. seg. rewrite !H1, !H2, !Hw1. cbn [Nat.sub]. by rewrite drop_0. }
  pose proof Hv as Hf. unfold V2_Valid in Hf. rewrite !andb_true_iff in Hf. destruct Hf as [[_ Hsrc] Hdst].
  unfold ParseCandidate. rewrite Hpc1, Hpc2, Hsrc, Hdst. cbn [mbind option_bind].
  assert (drop 126 bytes = v2_trailer p) as Hdrop.
  { rewrite <- Hs. seg. rewrite !H1, !H2, !Hw1, !Hw2, !H5, !H6. cbn [Nat.sub]. apply drop_0. }
  assert (sub bytes 126 32 = take 32 (v2_trailer p)) as Ht1 by (unfold sub; by rewrite Hdrop).
  assert (sub bytes 158 32 = take 32 (drop 32 (v2_trailer p))) as Ht2 by (unfold sub; rewrite <- Hdrop, drop_drop; done).
  rewrite Hdrop, Ht1, Ht2.
  assert (sub bytes 4 32 = vc_offer_hash p ∧ byte_at bytes 36 = vc_sender_role p ∧ byte_at bytes 37 = vc_receiver_role p ∧
    byte_at bytes 38 = vc_direction p ∧ sub bytes 39 16 = vc_connection_epoch p ∧ get32 (drop 93 bytes) = vc_sequence p ∧
    sub bytes 97 12 = vc_nonce p ∧ byte_at bytes 109 = vc_setup_ttl_seconds p ∧ sub bytes 110 16 = vc_token p)
    as (-> & -> & -> & -> & -> & -> & -> & -> & ->).
  { rewrite <- Hs. seg. rewrite !H1, !H2, !Hw1, !Hw2, !H5. cbn [Nat.sub]. rewrite !drop_0, !sub_here by done. rewrite get32_be_bytes by done. done. }
  clear Hs Hdrop Ht1 Ht2 Hpc1 Hpc2. destruct p as [ty oh po pt ct sr rr di ep so de sq no tt tk]. unfold v2_trailer, v2_normal in *. cbn in *.
  destruct ty; unfold zero_hash in *; destruct_and?; subst; rewrite ?take_app_length', ?drop_app_length', ?take_ge by (rewrite ?Hp1, ?Hp2, ?Hp3; done || lia);
    cbn; rewrite ?Hv; try done.
Qed.

Lemma v2_parsed_typed b p : bytes_ok b → ParseP2PV2Control b = Some p → v2_typed p ∧ v2_normal p ∧ V2_Valid p = true.
Proof.
  intros Hb. unfold ParseP2PV2Control. case_if as E1; [done|]. intros (t & Ht & H)%bind_Some. revert H. case_if as E2; [done|].
  intros (src & Hsrc & (dst & Hdst & H)%bind_Some)%bind_Some. revert H. set (probe := match t with V2Probe => _ | _ => _ end). destruct probe; [done|].
  cbv zeta. case_if as Hv; [|done]. intros [= <-]. split_and!; [|unfold v2_normal; cbn; by destruct t|done].
  apply negb_false_iff, Nat.eqb_eq in E2. rewrite !orb_false_iff in E1. destruct E1 as [[[E1 _] _] _]. apply Nat.ltb_ge in E1.
  assert (∀ k n, (k + n ≤ length b)%nat → byte_array n (sub b k n)) as Hs by (intros k n Hk; split; [by apply length_sub|by apply bytes_ok_sub]).
  assert (byte_array 32 zero_hash) as Hz by (split; [done|apply Forall_replicate; unfold is_byte; uint_lia]).
  assert (∀ k, is_byte (byte_at b k)) as Hby by (intros k; by apply byte_at_range).
  assert (∀ k, (k + 19 ≤ length b)%nat → candidate_typed (parse_candidate b k)) as Hc.
  { intros k Hk. split_and!; [apply Hby|apply Hs; lia|apply get16_range; [by apply bytes_ok_drop|rewrite length_drop; lia]]. }
  unfold ParseCandidate in Hsrc, Hdst. destruct (IsCanonicalP2PCandidate (parse_candidate b 55)); [|done].
  destruct (IsCanonicalP2PCandidate (parse_candidate b 74)); [|done]. apply (inj Some) in Hsrc, Hdst. subst src dst.
  constructor; cbn; try done; try (by apply Hs; lia); try (by apply Hc; lia).
  - destruct t; try done. apply Hs. cbn in E2. lia.
  - destruct t; try done; apply Hs; cbn in E2; lia.
  - destruct t; try done. apply Hs. cbn in E2. lia.
  - apply get32_range; [by apply bytes_ok_drop|rewrite length_drop; lia].
Qed.

Lemma v2_serialize_parse bytes p : bytes_ok bytes → ParseP2PV2Control bytes = Some p → SerializeP2PV2Control p = Some bytes.
Proof.
  intros Hb Hp. destruct (v2_parsed_typed bytes p Hb Hp) as (_ & _ & Hv). revert Hp. unfold ParseP2PV2Control. case_if as E1; [done|].
  intros (t & Ht & H)%bind_Some. revert H. case_if as E2; [done|]. intros (src & Hsrc & (dst & Hdst & H)%bind_Some)%bind_Some. revert H.
  set (probe := match t with V2Probe => _ | _ => _ end). destruct probe eqn:Ez; [done|]. cbv zeta. case_if as Hv'; [|done]. intros [= <-].
  unfold SerializeP2PV2Control. rewrite Hv'. cbn [negb]. f_equal. clear Hv Hv'.
  unfold ParseCandidate in Hsrc, Hdst. destruct (IsCanonicalP2PCandidate (parse_candidate bytes 55)); [|done].
  destruct (IsCanonicalP2PCandidate (parse_candidate bytes 74)); [|done]. apply (inj Some) in Hsrc, Hdst. subst src dst.
  apply v2_type_byte_inv in Ht as Htb. apply negb_false_iff, Nat.eqb_eq in E2. rewrite !orb_false_iff, !negb_false_iff in E1.
  destruct E1 as [[[E1 E3] E4] E5]. apply Nat.ltb_ge in E1. apply Z.eqb_eq in E3, E4, E5.
  cbn [vc_type vc_offer_hash vc_sender_role vc_receiver_role vc_direction vc_connection_epoch vc_source vc_destination vc_sequence vc_nonce
    vc_setup_ttl_seconds vc_token]. rewrite Htb, <- E3.
  assert ([0; 0] = [byte_at bytes 2] ++ [byte_at bytes 3]) as -> by (cbn; congruence).
  match goal with |- context [v2_trailer ?q] => assert (v2_trailer q = sub bytes 126 (length bytes - 126)) as -> end.
  { unfold v2_trailer. cbn. rewrite E2. destruct t; cbn [P2PV2ControlWireSize Nat.sub].
    - apply negb_false_iff, all_zero_replicate in Ez. unfold sub. rewrite Ez, length_drop, E2. done.
    - done.
    - unfold sub. by rewrite take_0.
    - unfold sub. by rewrite take_0.
    - by rewrite (sub_join bytes 126 32).
    - by rewrite (sub_join bytes 126 32). }
  rewrite !write_parse_candidate by (done || lia). rewrite be_bytes_get32_sub by (done || lia).
  rewrite !sub_byte by lia. rewrite <- !(assoc_L (++)).
  rewrite (sub_join bytes 110 16), (sub_join bytes 109 1), (sub_join bytes 97 12), (sub_join bytes 93 4), (sub_join bytes 74 19),
    (sub_join bytes 55 19), (sub_join bytes 39 16), (sub_join bytes 38 1), (sub_join bytes 37 1), (sub_join bytes 36 1),
    (sub_join bytes 4 32), (sub_join bytes 3 1), (sub_join bytes 2 1), (sub_join bytes 1 1), (sub_join bytes 0 1).
  apply sub_all. lia.
Qed.

Section signed.
Context `{P2PCryptoLaws}.

(** A signed packet verifies; a packet that verifies is the signature of itself. *)
Lemma v2_tag_token p key binding token : V2_Tag (set_token p token) key binding = V2_Tag p key binding.
Proof. done. Qed.
Lemma v2_sign_verify p key binding q : SignP2PV2Control p key binding = Some q → VerifyP2PV2Control q key binding = true.
Proof.
  unfold SignP2PV2Control. intros (token & Ht & [= <-])%bind_Some. unfold VerifyP2PV2Control. rewrite v2_tag_token, Ht.
  by apply bool_decide_eq_true_2.
Qed.
Lemma v2_verify_sign p key binding : VerifyP2PV2Control p key binding = true → SignP2PV2Control p key binding = Some p.
Proof.
  unfold VerifyP2PV2Control, SignP2PV2Control. destruct (V2_Tag p key binding) as [token|]; [|done]. intros ->%bool_decide_eq_true_1. by destruct p.
Qed.
Lemma v2_signed_typed p key binding q : v2_typed p → SignP2PV2Control p key binding = Some q → v2_typed q.
Proof.
  intros [? ? ? ? ? ? ? ? ? ? ? ? ? ?]. unfold SignP2PV2Control, V2_Tag.
  intros (token & (bytes & _ & (full & Hf & Ht)%bind_Some)%bind_Some & [= <-])%bind_Some. apply p2p_hmac_bytes in Hf as [Hl Hb].
  rewrite Hl in Ht. injection Ht as <-. constructor; cbn; try done. split; [rewrite length_take, Hl; done|by apply bytes_ok_take].
Qed.
End signed.

(** ** Datagrams *)
Record header_typed (h : P2PDataPacketHeader) : Prop := {
  ht_offer_hash : byte_array 32 (dh_offer_hash h);
  ht_sender : is_byte (dh_sender_role h);
  ht_receiver : is_byte (dh_receiver_role h);
  ht_direction : is_byte (dh_direction h);
  ht_epoch : byte_array 16 (dh_connection_epoch h);
  ht_sequence : is_uint 32 (dh_sequence h);
}.
Lemma length_data_header h : header_typed h → length (V2_SerializeHeader h) = DataHeaderSize.
Proof. intros [[H1 _] _ _ _ [H2 _] _]. unfold V2_SerializeHeader. by rewrite !length_app, H1, H2, !length_be_bytes. Qed.

Lemma data_header_parse h r :
  header_typed h → is_uint 16 (dh_payload_length h) → V2_ValidHeader h = true →
  Z.of_nat (length r) = dh_payload_length h + Z.of_nat DataTagSize →
  ParseP2PV2DataPacketHeader (V2_SerializeHeader h ++ r) = Some h.
Proof.
  intros Ht Hp Hv Hr. pose proof (length_data_header h Ht) as Hl. destruct Ht as [[H1 _] _ _ _ [H2 _] H3].
  unfold ParseP2PV2DataPacketHeader. rewrite length_app, Hl.
  rewrite (proj2 (Nat.ltb_ge _ _)) by (unfold DataTagSize in *; uint_lia).
  unfold V2_SerializeHeader. rewrite <- !(assoc_L (++)).
  set (d := [2; 5; 0; 0] ++ _).
  assert (byte_at d 0 = 2 ∧ byte_at d 1 = 5 ∧ byte_at d 2 = 0 ∧ byte_at d 3 = 0) as (-> & -> & -> & ->) by (unfold d; seg; done).
  assert (byte_at d 39 = 0 ∧ sub d 4 32 = dh_offer_hash h ∧ byte_at d 36 = dh_sender_role h ∧ byte_at d 37 = dh_receiver_role h ∧
    byte_at d 38 = dh_direction h ∧ sub d 40 16 = dh_connection_epoch h ∧ get32 (drop 56 d) = dh_sequence h ∧
    get16 (drop 60 d) = dh_payload_length h) as (-> & -> & -> & -> & -> & -> & -> & ->).
  { unfold d. seg. rewrite !H1, ?H2. cbn [Nat.sub]. rewrite !drop_0, !sub_here by done. rewrite get32_be_bytes, get16_be_bytes by done. done. }
  cbn [Z.eqb Pos.eqb negb orb]. replace (mkDataHeader _ _ _ _ _ _ _) with h by (by destruct h). rewrite Hv. cbn [negb orb].
  rewrite (proj2 (Z.eqb_eq _ _)) by (unfold DataHeaderSize; lia). done.
Qed.

Lemma data_header_serialize d h :
  bytes_ok d → ParseP2PV2DataPacketHeader d = Some h →
  V2_SerializeHeader h = take DataHeaderSize d ∧ header_typed h ∧ V2_ValidHeader h = true ∧ is_uint 16 (dh_payload_length h) ∧
  Z.of_nat (length d) = Z.of_nat DataHeaderSize + dh_payload_length h + Z.of_nat DataTagSize.
Proof.
  intros Hb. unfold ParseP2PV2DataPacketHeader. case_if as E1; [done|]. cbv zeta. case_if as E2; [done|]. intros [= <-].
  rewrite !orb_false_iff, !negb_false_iff in E1. destruct E1 as [[[[[E1 E3] E4] E5] E6] E7]. apply Nat.ltb_ge in E1. apply Z.eqb_eq in E3, E4, E5, E6, E7.
  rewrite orb_false_iff, !negb_false_iff in E2. destruct E2 as [Ev E2]. apply Z.eqb_eq in E2. unfold DataHeaderSize, DataTagSize in *.
  split_and!; [| |done|apply get16_range; [by apply bytes_ok_drop|rewrite length_drop; lia]|done].
  - unfold V2_SerializeHeader. cbn [dh_offer_hash dh_sender_role dh_receiver_role dh_direction dh_connection_epoch dh_sequence dh_payload_length].
    assert ([2; 5; 0; 0] = [byte_at d 0] ++ [byte_at d 1] ++ [byte_at d 2] ++ [byte_at d 3]) as -> by (cbn; congruence).
    assert ([0] = [byte_at d 39]) as -> by congruence.
    rewrite be_bytes_get32_sub, be_bytes_get16_sub by (done || lia). rewrite !sub_byte by lia. rewrite <- !(assoc_L (++)).
    rewrite (sub_join d 56 4), (sub_join d 40 16), (sub_join d 39 1), (sub_join d 38 1), (sub_join d 37 1), (sub_join d 36 1), (sub_join d 4 32),
      (sub_join d 3 1), (sub_join d 2 1), (sub_join d 1 1), (sub_join d 0 1). done.
  - assert (∀ k, is_byte (byte_at d k)) as Hby by (intros k; by apply byte_at_range).
    constructor; cbn; try apply Hby; [split; [apply length_sub; lia|by apply bytes_ok_sub]|split; [apply length_sub; lia|by apply bytes_ok_sub]|].
    apply get32_range; [by apply bytes_ok_drop|rewrite length_drop; lia].
Qed.

Section datagrams.
Context `{P2PCryptoLaws}.

Lemma expected_parsed h g : header_typed h → MatchesExpected g h = true → g = set_payload_length h (dh_payload_length g).
Proof.
  intros _. unfold MatchesExpected. rewrite !andb_true_iff. intros [[[[[E1 E2] E3] E4] E5] E6]. apply bool_decide_eq_true_1 in E1, E5.
  apply Z.eqb_eq in E2, E3, E4, E6. destruct g, h. cbn in *. by subst.
Qed.
Lemma matches_payload h n : MatchesExpected (set_payload_length h n) h = true.
Proof. unfold MatchesExpected. cbn. rewrite !bool_decide_eq_true_2, !Z.eqb_refl by done. done. Qed.

Lemma v2_opened_sealed h key nonce d p :
  header_typed h → bytes_ok d → OpenP2PV2DataDatagram d h key nonce = Some p → SealP2PV2DataDatagram h key nonce p = Some d.
Proof.
  intros Ht Hb. intros (g & Hg & Ho)%bind_Some. revert Ho. case_if as Em; [done|]. apply negb_false_iff in Em. cbv zeta.
  intros (q & Hq & Hl)%bind_Some. destruct (length q =? Z.to_nat (dh_payload_length g))%nat eqn:El; [|done]. injection Hl as ->.
  apply Nat.eqb_eq in El. destruct (data_header_serialize d g Hb Hg) as (Hs & Htg & Hv & Hu & Hd).
  apply (expected_parsed h g Ht) in Em. unfold SealP2PV2DataDatagram.
  pose proof Hv as Hv'. unfold V2_ValidHeader in Hv'. rewrite !andb_true_iff in Hv'. destruct_and!. bool_props.
  assert (Z.of_nat (length p) = dh_payload_length g) as Epl by uint_lia. unfold MaxPayloadSize in *.
  replace ((length p =? 0)%nat) with false by (symmetry; apply Nat.eqb_neq; lia).
  replace ((1514 <? length p)%nat) with false by (symmetry; apply Nat.ltb_ge; lia). cbn [orb].
  rewrite Epl, <- Em, Hv. cbn [negb]. rewrite Hs, (p2p_opened_sealed _ _ _ _ _ _ Hq). cbn [mbind option_bind].
  unfold DataHeaderSize, DataTagSize in *. rewrite length_sub by uint_lia. rewrite <- El, Nat.eqb_refl. f_equal.
  rewrite (sub_join d 62 (length p)). change (take 62 d) with (sub d 0 62). rewrite (sub_join d 0 62). apply sub_all. uint_lia.
Qed.
Lemma v2_open_sealed h key nonce d p :
  header_typed h → SealP2PV2DataDatagram h key nonce p = Some d → OpenP2PV2DataDatagram d h key nonce = Some p.
Proof.
  intros Ht. unfold SealP2PV2DataDatagram. case_if as E1; [done|]. apply orb_false_iff in E1 as [E1 E2]. apply Nat.eqb_neq in E1. apply Nat.ltb_ge in E2.
  set (g := set_payload_length h (Z.of_nat (length p))). cbv zeta. case_if as Ev; [done|]. apply negb_false_iff in Ev.
  intros ([c t] & Hs & Hd)%bind_Some. destruct (length c =? length p)%nat eqn:El; [|done]. apply Nat.eqb_eq in El. apply (inj Some) in Hd as <-.
  assert (header_typed g) as Htg by (by destruct Ht). destruct (p2p_seal_bytes _ _ _ _ _ _ Hs) as (_ & _ & Lt & _).
  unfold MaxPayloadSize in *. unfold OpenP2PV2DataDatagram.
  rewrite (data_header_parse g (c ++ t)); [|done|cbn; uint_lia|done|rewrite length_app, El, Lt; unfold g, DataTagSize; cbn [set_payload_length dh_payload_length]; lia].
  cbn [mbind option_bind]. rewrite (matches_payload h (Z.of_nat (length p)) : MatchesExpected g h = true). cbn [negb].
  assert (Z.to_nat (dh_payload_length g) = length p) as -> by apply Nat2Z.id.
  pose proof (length_data_header g Htg) as Lh. rewrite take_app_length' by done.
  unfold sub. rewrite drop_app_length' by done. rewrite take_app_length' by done.
  rewrite <- (drop_drop _ (length p) DataHeaderSize), drop_app_length', drop_app_length' by done. rewrite take_ge by (rewrite Lt; done).
  rewrite (p2p_open_sealed _ _ _ _ _ _ Hs). cbn [mbind option_bind]. by rewrite Nat.eqb_refl.
Qed.

(** A datagram is opened to a payload exactly when sealing that payload under the same header, key
    and nonce gives that datagram: what is sealed is opened, and every accepted datagram is, byte for
    byte, the one that sealing makes, with the length field, the reserved bytes and the tag of the source. *)
Theorem v2_datagram_exact h key nonce d p :
  header_typed h → bytes_ok d → OpenP2PV2DataDatagram d h key nonce = Some p ↔ SealP2PV2DataDatagram h key nonce p = Some d.
Proof. intros Ht Hb. split; [by apply v2_opened_sealed|by apply v2_open_sealed]. Qed.
End datagrams.

(** ** A cipher that satisfies the laws *)
Definition p2p_toy_sum (parts : list (list Z)) : Z := wrap 8 (foldr Z.add 0 (mjoin parts)).
Definition p2p_toy_crypto : P2PCrypto := {|
  p2p_sha256 x := Some (replicate 32 (p2p_toy_sum [x]));
  p2p_hmac k x := Some (replicate 32 (p2p_toy_sum [k; x]));
  p2p_hkdf k s i n := Some (replicate n (p2p_toy_sum [k; s; i]));
  p2p_seal k n a p := if bool_decide (bytes_ok p) then Some (p, replicate 16 (p2p_toy_sum [k; n; a; p])) else None;
  p2p_open k n a c t := if bool_decide (bytes_ok c ∧ t = replicate 16 (p2p_toy_sum [k; n; a; c])) then Some c else None;
|}.
Lemma p2p_toy_laws : @P2PCryptoLaws p2p_toy_crypto.
Proof.
  assert (∀ n l, byte_array n (replicate n (p2p_toy_sum l))) as Ht.
  { intros n l. split; [apply length_replicate|]. apply Forall_replicate. unfold is_byte, p2p_toy_sum. apply wrap_range. lia. }
  constructor; cbn [p2p_toy_crypto p2p_sha256 p2p_hmac p2p_hkdf p2p_seal p2p_open].
  - intros x y <-%(inj Some). apply Ht.
  - intros k x y <-%(inj Some). apply Ht.
  - intros k s i n y <-%(inj Some). apply Ht.
  - intros k n a p c t. destruct (bool_decide (bytes_ok p)) eqn:E; [|done]. intros [<- <-]%(inj Some)%pair_equal_spec. apply bool_decide_eq_true_1 in E. split_and!; [done|done|apply Ht].
  - intros k n a c t p. by destruct (bool_decide _); intros [= <-].
  - intros k n a p c t. destruct (bool_decide (bytes_ok p)) eqn:E; [|done]. apply bool_decide_eq_true_1 in E. intros [<- <-]%(inj Some)%pair_equal_spec. by rewrite bool_decide_eq_true_2.
  - intros k n a c t p. destruct (bool_decide _) eqn:E; [|done]. apply bool_decide_eq_true_1 in E as [E ->]. intros <-%(inj Some). by rewrite bool_decide_eq_true_2.
Qed.

Definition demo_header : P2PDataPacketHeader := mkDataHeader (replicate 32 7) 0 1 0 (replicate 16 9) 66051 0.
Definition demo_datagram : list Z := default [] (@SealP2PV2DataDatagram p2p_toy_crypto demo_header [1; 2] [3] [65; 66; 67]).
Lemma v2_datagram_exact_witness :
  length demo_datagram = 81%nat ∧
  (@OpenP2PV2DataDatagram p2p_toy_crypto demo_datagram demo_header [1; 2] [3] = Some [65; 66; 67] ↔
   @SealP2PV2DataDatagram p2p_toy_crypto demo_header [1; 2] [3] [65; 66; 67] = Some demo_datagram).
Proof.
  split; [vm_compute; reflexivity|]. apply (@v2_datagram_exact p2p_toy_crypto p2p_toy_laws); [|decide_true].
  split; unfold byte_array; decide_true.
Defined.
