(* ===== verification/P2POffer.v ===== *)
(** * Relay offers, version 2

    [p2p/P2PRelayOfferV2.cpp], the key envelopes of [p2p/P2PRelayOffer.cpp] and the directions of
    [p2p/P2PKeyDerivation.cpp]: a server that shares a session with each of two peers makes an offer,
    seals one random seed for either of them, and each opens its own text.  The primitives are those of
    [P2PCrypto]; a session's exporter is a function of label and context ([None]: failed, threw or
    empty), the random generator's output is an argument. *)
From S2P Require Import Prelude SessionControl P2PControl P2PV2Codec.
From Stdlib Require Import Ascii.
From stdpp Require Import sorting.
Local Open Scope Z_scope.

(** ** Data *)
Inductive P2PPeerRole := Initiator | Responder.
#[global] Instance P2PPeerRole_eq_dec : EqDecision P2PPeerRole.
Proof. solve_decision. Defined.
Definition role_byte (r : P2PPeerRole) : Z := match r with Initiator => 0 | Responder => 1 end.
Definition role_of_byte (b : Z) : option P2PPeerRole := if b =? 0 then Some Initiator else if b =? 1 then Some Responder else None.

Record P2PV1KeyMaterial := mkKeys {
  km_initiator_to_responder_key : list Z;
  km_responder_to_initiator_key : list Z;
  km_initiator_to_responder_nonce : list Z;
  km_responder_to_initiator_nonce : list Z;
  km_offer_token_key : list Z;
}.
Record P2PV1DirectionalKeys := mkDirection {
  dk_tx_key : list Z;
  dk_rx_key : list Z;
  dk_tx_nonce_prefix : list Z;
  dk_rx_nonce_prefix : list Z;
}.
Record P2PWrappedPairSeed := mkWrapped {
  ws_recipient_peer_id : list Z;
  ws_recipient_role : P2PPeerRole;
  ws_wrap_nonce : list Z;
  ws_ciphertext : list Z;
  ws_auth_tag : list Z;
}.
Record P2PRelayOfferV2 := mkOffer {
  ro_version : Z;
  ro_offer_id : list Z;
  ro_initiator_session_id : list Z;
  ro_responder_session_id : list Z;
  ro_initiator_peer_id : list Z;
  ro_responder_peer_id : list Z;
  ro_connection_epoch : list Z;
  ro_key_generation : Z;
  ro_previous_offer_hash : list Z;
  ro_setup_ttl_seconds : Z;
  ro_key_lifetime_seconds : Z;
  ro_refresh_after_seconds : Z;
  ro_previous_receive_grace_ms : Z;
  ro_cipher : Z;
  ro_initiator_candidate_revision : Z;
  ro_responder_candidate_revision : Z;
  ro_candidate_set_hash : list Z;
}.
Record P2PRelayOfferV2Input := mkOfferInput {
  oi_initiator_session_id : list Z;
  oi_responder_session_id : list Z;
  oi_initiator_peer_id : list Z;
  oi_responder_peer_id : list Z;
  oi_key_generation : Z;
  oi_previous_offer_hash : list Z;
  oi_initiator_candidate_revision : Z;
  oi_responder_candidate_revision : Z;
  oi_candidate_set_hash : list Z;
}.
Record P2PRelayOfferSecrets := mkSecrets {
  os_offer_id : list Z;
  os_connection_epoch : list Z;
  os_pair_seed : list Z;
  os_initiator_wrap_nonce : list Z;
  os_responder_wrap_nonce : list Z;
}.
Record P2PRelayOfferV2Bundle := mkBundle {
  ob_offer : P2PRelayOfferV2;
  ob_initiator_envelope : P2PWrappedPairSeed;
  ob_responder_envelope : P2PWrappedPairSeed;
}.

(** ** Validity and bytes *)
(** [operator<] of byte arrays. *)
Fixpoint bytes_lt (a b : list Z) : bool :=
  match a, b with
  | [], [] => false
  | [], _ => true
  | _, [] => false
  | x :: a, y :: b => if x <? y then true else if y <? x then false else bytes_lt a b
  end.
Definition Offer_Valid (o : P2PRelayOfferV2) : bool :=
  (ro_version o =? 2) && (ro_setup_ttl_seconds o =? 10) && (ro_key_lifetime_seconds o =? 60) && (ro_refresh_after_seconds o =? 40) &&
  (ro_previous_receive_grace_ms o =? 5000) && (ro_cipher o =? 1) && negb (ro_key_generation o =? 0) &&
  negb (ro_initiator_candidate_revision o =? 0) && negb (ro_responder_candidate_revision o =? 0) &&
  negb (all_zero (ro_offer_id o)) && negb (all_zero (ro_connection_epoch o)) && negb (all_zero (ro_initiator_session_id o)) &&
  negb (all_zero (ro_responder_session_id o)) && negb (all_zero (ro_initiator_peer_id o)) && negb (all_zero (ro_responder_peer_id o)) &&
  negb (all_zero (ro_candidate_set_hash o)) && negb (bool_decide (ro_initiator_session_id o = ro_responder_session_id o)) &&
  bytes_lt (ro_initiator_peer_id o) (ro_responder_peer_id o).

Definition Make (i : P2PRelayOfferV2Input) (s : P2PRelayOfferSecrets) : P2PRelayOfferV2 :=
  mkOffer 2 (os_offer_id s) (oi_initiator_session_id i) (oi_responder_session_id i) (oi_initiator_peer_id i) (oi_responder_peer_id i)
    (os_connection_epoch s) (oi_key_generation i) (oi_previous_offer_hash i) 10 60 40 5000 1 (oi_initiator_candidate_revision i)
    (oi_responder_candidate_revision i) (oi_candidate_set_hash i).

Definition offer_bytes (o : P2PRelayOfferV2) : list Z :=
  [2] ++ ro_offer_id o ++ ro_initiator_session_id o ++ ro_responder_session_id o ++ ro_initiator_peer_id o ++ ro_responder_peer_id o ++
  ro_connection_epoch o ++ be_bytes 8 (ro_key_generation o) ++ ro_previous_offer_hash o ++ [ro_setup_ttl_seconds o] ++
  be_bytes 2 (ro_key_lifetime_seconds o) ++ be_bytes 2 (ro_refresh_after_seconds o) ++ be_bytes 2 (ro_previous_receive_grace_ms o) ++
  [ro_cipher o] ++ be_bytes 8 (ro_initiator_candidate_revision o) ++ be_bytes 8 (ro_responder_candidate_revision o) ++
  ro_candidate_set_hash o.
Definition SerializeP2PRelayOfferV2 (o : P2PRelayOfferV2) : option (list Z) :=
  if Offer_Valid o then Some (offer_bytes o) else None.

Definition for_role {A} (r : P2PPeerRole) (i s : A) : A := match r with Initiator => i | Responder => s end.

(** ** Reading with a cursor *)
Definition Get (n : nat) (p : list Z) : list Z * list Z := (take n p, drop n p).
Definition ReadNumber (width : nat) (p : list Z) : Z * list Z := (be_value (take width p), drop width p).
Definition ReadByte (p : list Z) : Z * list Z := (byte_at p 0, drop 1 p).

(** ** Hexadecimal text, of either case *)
Definition Hex (c : ascii) : option Z :=
  if (48 <=? ascii_code c) && (ascii_code c <=? 57) then Some (ascii_code c - 48)
  else if (97 <=? ascii_code c) && (ascii_code c <=? 102) then Some (ascii_code c - 97 + 10)
  else if (65 <=? ascii_code c) && (ascii_code c <=? 70) then Some (ascii_code c - 65 + 10) else None.
Fixpoint hex_pairs (text : string) : option (list Z) :=
  match text with
  | EmptyString => Some []
  | String h (String l text) =>
      high ← Hex h; low ← Hex l; rest ← hex_pairs text; Some (Z.lor (Z.shiftl high 4) low :: rest)
  | String _ EmptyString => None
  end.

Definition EncodeP2PRelayOfferRecipientV2Hex (o : P2PRelayOfferV2) (e : P2PWrappedPairSeed) : option string :=
  common ← SerializeP2PRelayOfferV2 o;
  if negb (bool_decide (ws_recipient_peer_id e = for_role (ws_recipient_role e) (ro_initiator_peer_id o) (ro_responder_peer_id o)))
  then None else
  Some (EncodeLowerHex (common ++ ws_recipient_peer_id e ++ [role_byte (ws_recipient_role e)] ++ ws_wrap_nonce e ++ ws_ciphertext e ++
    ws_auth_tag e)).

Definition ParseP2PRelayOfferRecipientV2Hex (encoded : string) : option (P2PRelayOfferV2 * P2PWrappedPairSeed) :=
  if negb (String.length encoded =? 540)%nat then None else
  p ← hex_pairs encoded;
  let '(version, p) := ReadByte p in
  let '(offer_id, p) := Get 16 p in
  let '(initiator_session_id, p) := Get 16 p in
  let '(responder_session_id, p) := Get 16 p in
  let '(initiator_peer_id, p) := Get 16 p in
  let '(responder_peer_id, p) := Get 16 p in
  let '(connection_epoch, p) := Get 16 p in
  let '(key_generation, p) := ReadNumber 8 p in
  let '(previous_offer_hash, p) := Get 32 p in
  let '(setup_ttl_seconds, p) := ReadByte p in
  let '(key_lifetime_seconds, p) := ReadNumber 2 p in
  let '(refresh_after_seconds, p) := ReadNumber 2 p in
  let '(previous_receive_grace_ms, p) := ReadNumber 2 p in
  let '(cipher, p) := ReadByte p in
  let '(initiator_candidate_revision, p) := ReadNumber 8 p in
  let '(responder_candidate_revision, p) := ReadNumber 8 p in
  let '(candidate_set_hash, p) := Get 32 p in
  let o := mkOffer version offer_id initiator_session_id responder_session_id initiator_peer_id responder_peer_id connection_epoch
    key_generation previous_offer_hash setup_ttl_seconds key_lifetime_seconds refresh_after_seconds previous_receive_grace_ms cipher
    initiator_candidate_revision responder_candidate_revision candidate_set_hash in
  let '(recipient_peer_id, p) := Get 16 p in
  let '(recipient_role, p) := ReadByte p in
  let '(wrap_nonce, p) := Get 12 p in
  let '(ciphertext, p) := Get 32 p in
  let '(auth_tag, p) := Get 16 p in
  if negb (Offer_Valid o) then None else
  role ← role_of_byte recipient_role;
  if bool_decide (recipient_peer_id = for_role role (ro_initiator_peer_id o) (ro_responder_peer_id o))
  then Some (o, mkWrapped recipient_peer_id role wrap_nonce ciphertext auth_tag) else None.

(** ** Keys *)
(** A session's exporter. *)
Abbreviation P2PSessionExporter := (string → list Z → option (list Z)).
Definition P2PWrapExporterLabelV2 : string := "EXPORTER-OPENPPP2-P2P-WRAP-v2".
Definition label_bytes (s : string) : list Z := ascii_code <$> String.list_ascii_of_string s.

Definition BuildP2PV1Nonce (prefix : list Z) (sequence : Z) : list Z := prefix ++ be_bytes 4 sequence.
Definition SelectP2PV1Direction (m : P2PV1KeyMaterial) (local_role : P2PPeerRole) : P2PV1DirectionalKeys :=
  match local_role with
  | Initiator => mkDirection (km_initiator_to_responder_key m) (km_responder_to_initiator_key m) (km_initiator_to_responder_nonce m)
      (km_responder_to_initiator_nonce m)
  | Responder => mkDirection (km_responder_to_initiator_key m) (km_initiator_to_responder_key m) (km_responder_to_initiator_nonce m)
      (km_initiator_to_responder_nonce m)
  end.
Definition BuildWrapAad (offer_hash recipient_peer_id : list Z) : list Z := offer_hash ++ recipient_peer_id.

Section offers.
Context `{P2PCrypto}.

Definition Digest (data : list Z) : option (list Z) :=
  hash ← p2p_sha256 data; if (length hash =? 32)%nat then Some hash else None.
Definition HashP2PRelayOfferV2 (o : P2PRelayOfferV2) : option (list Z) :=
  bytes ← SerializeP2PRelayOfferV2 o; Digest bytes.
Definition BuildP2PExporterContextV2 (o : P2PRelayOfferV2) (role : P2PPeerRole) : option (list Z) :=
  hash ← HashP2PRelayOfferV2 o;
  Some (for_role role (ro_initiator_session_id o) (ro_responder_session_id o) ++ ro_initiator_peer_id o ++ ro_responder_peer_id o ++
    ro_initiator_session_id o ++ ro_responder_session_id o ++ ro_connection_epoch o ++ ro_offer_id o ++ [2] ++ hash).

Definition Kdf (key salt info : list Z) (size : nat) : option (list Z) :=
  out ← p2p_hkdf key salt info size; if (length out =? size)%nat then Some out else None.
Definition WrapKey (exporter hash : list Z) (role : P2PPeerRole) : option (list Z) :=
  if all_zero exporter then None else Kdf exporter hash (label_bytes "openppp2 p2p v2 wrap key" ++ [role_byte role]) 32.
Definition DeriveP2PV2KeyMaterial (seed hash : list Z) : option P2PV1KeyMaterial :=
  if all_zero seed || all_zero hash then None else
  i2r_key ← Kdf seed hash (label_bytes "openppp2 p2p v2 initiator to responder key") 32;
  r2i_key ← Kdf seed hash (label_bytes "openppp2 p2p v2 responder to initiator key") 32;
  i2r_nonce ← Kdf seed hash (label_bytes "openppp2 p2p v2 initiator to responder nonce") 8;
  r2i_nonce ← Kdf seed hash (label_bytes "openppp2 p2p v2 responder to initiator nonce") 8;
  token_key ← Kdf seed hash (label_bytes "openppp2 p2p v2 offer token") 32;
  Some (mkKeys i2r_key r2i_key i2r_nonce r2i_nonce token_key).

(** The envelope of the seed. *)
Definition WrapP2PPairSeed (wrap_key offer_hash recipient_peer_id : list Z) (role : P2PPeerRole) (nonce seed : list Z) :
    option P2PWrappedPairSeed :=
  if all_zero wrap_key || all_zero offer_hash || all_zero recipient_peer_id || all_zero nonce || all_zero seed then None else
  '(ciphertext, tag) ← p2p_seal wrap_key nonce (BuildWrapAad offer_hash recipient_peer_id) seed;
  if (length ciphertext =? 32)%nat then Some (mkWrapped recipient_peer_id role nonce ciphertext tag) else None.
Definition UnwrapP2PPairSeed (wrap_key offer_hash recipient_peer_id : list Z) (role : P2PPeerRole) (envelope : P2PWrappedPairSeed) :
    option (list Z) :=
  if all_zero wrap_key || all_zero offer_hash || all_zero recipient_peer_id ||
     negb (bool_decide (ws_recipient_peer_id envelope = recipient_peer_id)) ||
     negb (bool_decide (ws_recipient_role envelope = role)) || all_zero (ws_wrap_nonce envelope) then None else
  seed ← p2p_open wrap_key (ws_wrap_nonce envelope) (BuildWrapAad offer_hash recipient_peer_id) (ws_ciphertext envelope)
    (ws_auth_tag envelope);
  if (length seed =? 32)%nat then Some seed else None.

(** ** Making and opening offers *)
Definition BuildP2PRelayOfferV2Bundle (i : P2PRelayOfferV2Input) (ei er : list Z) (s : P2PRelayOfferSecrets) :
    option P2PRelayOfferV2Bundle :=
  let offer := Make i s in
  if all_zero (os_pair_seed s) then None else
  hash ← HashP2PRelayOfferV2 offer;
  ki ← WrapKey ei hash Initiator;
  kr ← WrapKey er hash Responder;
  initiator_envelope ← WrapP2PPairSeed ki hash (oi_initiator_peer_id i) Initiator (os_initiator_wrap_nonce s) (os_pair_seed s);
  responder_envelope ← WrapP2PPairSeed kr hash (oi_responder_peer_id i) Responder (os_responder_wrap_nonce s) (os_pair_seed s);
  Some (mkBundle offer initiator_envelope responder_envelope).
Definition CreateP2PRelayOfferV2Bundle (i : P2PRelayOfferV2Input) (ei er : P2PSessionExporter) (random : option P2PRelayOfferSecrets) :
    option P2PRelayOfferV2Bundle :=
  secrets ← random;
  let offer := Make i secrets in
  ci ← BuildP2PExporterContextV2 offer Initiator;
  cr ← BuildP2PExporterContextV2 offer Responder;
  ki ← ei P2PWrapExporterLabelV2 ci;
  kr ← er P2PWrapExporterLabelV2 cr;
  BuildP2PRelayOfferV2Bundle i ki kr secrets.
Definition OpenP2PRelayOfferRecipientV2 (encoded : string) (session peer : list Z) (exporter : P2PSessionExporter) :
    option (P2PRelayOfferV2 * P2PPeerRole * list Z) :=
  '(o, e) ← ParseP2PRelayOfferRecipientV2Hex encoded;
  let local := ws_recipient_role e in
  if negb (bool_decide (peer = ws_recipient_peer_id e)) ||
     negb (bool_decide (session = for_role local (ro_initiator_session_id o) (ro_responder_session_id o))) then None else
  context ← BuildP2PExporterContextV2 o local;
  hash ← HashP2PRelayOfferV2 o;
  key ← exporter P2PWrapExporterLabelV2 context;
  wrap ← WrapKey key hash local;
  seed ← UnwrapP2PPairSeed wrap hash peer local e;
  Some (o, local, seed).

(** ** The candidate set *)
Definition bytes_le (a b : list Z) : Prop := bytes_lt b a = false.
#[global] Instance bytes_le_dec a b : Decision (bytes_le a b).
Proof. unfold bytes_le. apply _. Defined.

Definition hash_side (role : P2PPeerRole) (session : list Z) (revision : Z) (input : list P2PCandidateEndpoint) : option (list Z) :=
  if negb (forallb (λ c, ((ce_address_family c =? 4) || (ce_address_family c =? 6)) && IsCanonicalP2PCandidate c) input) then None else
  let sorted := merge_sort bytes_le (write_candidate <$> input) in
  if match sorted with [a; b] => bool_decide (a = b) | _ => false end then None else
  Some ([role_byte role] ++ session ++ be_bytes 8 revision ++ [Z.of_nat (length input)] ++ mjoin sorted).
Definition HashP2PV2CandidateSet (si sr : list Z) (ri rr : Z) (ci cr : list P2PCandidateEndpoint) : option (list Z) :=
  if all_zero si || all_zero sr || bool_decide (si = sr) || (ri =? 0) || (rr =? 0) || (length ci =? 0)%nat || (length cr =? 0)%nat ||
     (2 <? length ci)%nat || (2 <? length cr)%nat then None else
  first ← hash_side Initiator si ri ci;
  second ← hash_side Responder sr rr cr;
  Digest (first ++ second).
End offers.

(** ** Types *)
Record offer_typed (o : P2PRelayOfferV2) : Prop := {
  ot_offer_id : byte_array 16 (ro_offer_id o);
  ot_si : byte_array 16 (ro_initiator_session_id o);
  ot_sr : byte_array 16 (ro_responder_session_id o);
  ot_pi : byte_array 16 (ro_initiator_peer_id o);
  ot_pr : byte_array 16 (ro_responder_peer_id o);
  ot_epoch : byte_array 16 (ro_connection_epoch o);
  ot_generation : is_uint 64 (ro_key_generation o);
  ot_previous : byte_array 32 (ro_previous_offer_hash o);
  ot_ri : is_uint 64 (ro_initiator_candidate_revision o);
  ot_rr : is_uint 64 (ro_responder_candidate_revision o);
  ot_candidates : byte_array 32 (ro_candidate_set_hash o);
}.
Record envelope_typed (e : P2PWrappedPairSeed) : Prop := {
  et_peer : byte_array 16 (ws_recipient_peer_id e);
  et_nonce : byte_array 12 (ws_wrap_nonce e);
  et_ciphertext : byte_array 32 (ws_ciphertext e);
  et_tag : byte_array 16 (ws_auth_tag e);
}.

(** ** The text of an offer *)
Lemma hex_of_nibble c v : nibble c = Some v → Hex c = Some v.
Proof. unfold nibble, Hex. repeat case_match; intros; simplify_eq; done. Qed.
Lemma hex_pairs_encode bs : bytes_ok bs → hex_pairs (EncodeLowerHex bs) = Some bs.
Proof.
  induction 1 as [|b bs Hb _ IH]; [done|]. cbn [EncodeLowerHex hex_pairs]. destruct (byte_nibbles b Hb) as [Hh Hl].
  rewrite (hex_of_nibble _ _ (proj1 (nibble_hex_digit _ Hh))), (hex_of_nibble _ _ (proj1 (nibble_hex_digit _ Hl))). cbn [mbind option_bind].
  rewrite IH. cbn [mbind option_bind]. by rewrite byte_join.
Qed.

Lemma get_app n a r : length a = n → Get n (a ++ r) = (a, r).
Proof. intros. unfold Get. by rewrite take_app_length', drop_app_length'. Qed.
Lemma get_all n a : length a = n → Get n a = (a, []).
Proof. intros. unfold Get. by rewrite take_ge, drop_ge by lia. Qed.
Lemma read_number_app n x r : is_uint (8 * Z.of_nat n) x → ReadNumber n (be_bytes n x ++ r) = (x, r).
Proof. intros. unfold ReadNumber. rewrite take_app_length', drop_app_length' by (by rewrite length_be_bytes). by rewrite be_value_bytes. Qed.
Lemma read_byte_app b r : ReadByte ([b] ++ r) = (b, r).
Proof. done. Qed.
Lemma role_roundtrip r : role_of_byte (role_byte r) = Some r.
Proof. by destruct r. Qed.

Lemma valid_constants o :
  Offer_Valid o = true →
  ro_version o = 2 ∧ ro_setup_ttl_seconds o = 10 ∧ ro_key_lifetime_seconds o = 60 ∧ ro_refresh_after_seconds o = 40 ∧
  ro_previous_receive_grace_ms o = 5000 ∧ ro_cipher o = 1 ∧ ro_initiator_peer_id o ≠ ro_responder_peer_id o.
Proof.
  unfold Offer_Valid. rewrite !andb_true_iff. intros H. destruct_and!. bool_props. split_and!; try done.
  intros E. rewrite E in *. assert (∀ l, bytes_lt l l = false) as Hlt. { induction l as [|x l IH]; cbn; [done|]. by rewrite Z.ltb_irrefl. }
  rewrite Hlt in *. done.
Qed.

Lemma offer_text_parse o e text :
  offer_typed o → envelope_typed e → EncodeP2PRelayOfferRecipientV2Hex o e = Some text → ParseP2PRelayOfferRecipientV2Hex text = Some (o, e).
Proof.
  intros [[L1 B1] [L2 B2] [L3 B3] [L4 B4] [L5 B5] [L6 B6] U1 [L7 B7] U2 U3 [L8 B8]] [[L9 B9] [L10 B10] [L11 B11] [L12 B12]].
  unfold EncodeP2PRelayOfferRecipientV2Hex, SerializeP2PRelayOfferV2. destruct (Offer_Valid o) eqn:Hv; [|done]. cbn [mbind option_bind].
  case_if as Ep; [done|]. apply negb_false_iff in Ep. intros <-%(inj Some). unfold ParseP2PRelayOfferRecipientV2Hex.
  destruct (valid_constants o Hv) as (C1 & C2 & C3 & C4 & C5 & C6 & _).
  set (bytes := _ ++ _). assert (length bytes = 270%nat) as Hl.
  { unfold bytes, offer_bytes. rewrite !length_app, !length_be_bytes, L1, L2, L3, L4, L5, L6, L7, L8, L9, L10, L11, L12. done. }
  rewrite length_EncodeLowerHex, Hl. cbn [Nat.mul Nat.add Nat.eqb negb].
  rewrite hex_pairs_encode.
  2: { unfold bytes, offer_bytes. rewrite !Forall_app. destruct (ws_recipient_role e); rewrite C2, C6;
       split_and!; try done; try apply bytes_ok_be_bytes; decide_true. }
  cbn [mbind option_bind]. unfold bytes, offer_bytes. rewrite <- !(assoc_L (++)). rewrite read_byte_app.
  do 6 (rewrite get_app by done). rewrite read_number_app by done. rewrite get_app, read_byte_app by done.
  rewrite !read_number_app by (rewrite ?C3, ?C4, ?C5; done || (unfold is_uint; lia)).
  rewrite read_byte_app. rewrite !read_number_app by done. do 2 (rewrite get_app by done). rewrite read_byte_app.
  do 2 (rewrite get_app by done). rewrite get_all by done. rewrite <- C1.
  replace (mkOffer _ _ _ _ _ _ _ _ _ _ _ _ _ _ _ _ _) with o by (by destruct o). rewrite Hv. cbn [negb]. rewrite role_roundtrip.
  cbn [mbind option_bind]. rewrite Ep. by destruct e.
Qed.

(** A parsed offer is typed and valid. *)
Lemma hex_range c v : Hex c = Some v → 0 ≤ v < 16.
Proof. unfold Hex. repeat case_match; intros; simplify_eq; blia. Qed.
Lemma hex_pairs_ok n text bs : (String.length text ≤ n)%nat → hex_pairs text = Some bs → bytes_ok bs ∧ String.length text = (length bs * 2)%nat.
Proof.
  revert text bs. induction n as [|n IH]; intros [|h [|l text]] bs Hn; cbn [String.length hex_pairs] in *; try lia; try done;
    try (intros <-%(inj Some); split; [constructor|done]).
  intros (vh & Hh & (vl & Hl & (rest & Hr & <-%(inj Some))%bind_Some)%bind_Some)%bind_Some. apply hex_range in Hh, Hl.
  destruct (IH text rest ltac:(lia) Hr) as [IH1 IH2]. split; [|cbn [length]; lia]. constructor; [|done].
  by destruct (nibbles_byte vh vl Hh Hl).
Qed.
Lemma offer_parse_typed text o e :
  ParseP2PRelayOfferRecipientV2Hex text = Some (o, e) → offer_typed o ∧ envelope_typed e ∧ Offer_Valid o = true.
Proof.
  unfold ParseP2PRelayOfferRecipientV2Hex. case_if as E1; [done|]. apply negb_false_iff, Nat.eqb_eq in E1.
  intros (p & Hp & H)%bind_Some. destruct (hex_pairs_ok _ _ _ (le_n _) Hp) as [Hb Hl]. rewrite E1 in Hl. clear E1 Hp.
  assert (length p = 270)%nat as Hlen by lia. clear Hl. unfold Get, ReadNumber, ReadByte in H. revert H. rewrite !drop_drop. cbn [Nat.add].
  case_if as Ev; [done|]. apply negb_false_iff in Ev. intros (r & Hr & H)%bind_Some. revert H. case_if as Ez; [|done]. intros H.
  apply (inj Some) in H. apply pair_equal_spec in H as [<- <-].
  assert (∀ k n, (k + n ≤ 270)%nat → byte_array n (take n (drop k p))) as Ha.
  { intros k n Hk. split; [rewrite length_take, length_drop; lia|by apply bytes_ok_take, bytes_ok_drop]. }
  assert (∀ k, (k + 8 ≤ 270)%nat → is_uint 64 (be_value (take 8 (drop k p)))) as Hn.
  { intros k Hk. apply get64_range; [by apply bytes_ok_drop|rewrite length_drop; lia]. }
  split_and!; [constructor; cbn; (apply Ha || apply Hn); lia|constructor; cbn; apply Ha; lia|done].
Qed.

(** ** Agreement *)
Section agreement.
Context `{P2PCryptoLaws}.

Record input_typed (i : P2PRelayOfferV2Input) (s : P2PRelayOfferSecrets) : Prop := {
  it_offer : offer_typed (Make i s);
  it_seed : byte_array 32 (os_pair_seed s);
  it_ni : byte_array 12 (os_initiator_wrap_nonce s);
  it_nr : byte_array 12 (os_responder_wrap_nonce s);
}.

Lemma wrap_unwrap key hash peer role nonce seed e :
  byte_array 16 peer → byte_array 12 nonce → byte_array 32 seed → WrapP2PPairSeed key hash peer role nonce seed = Some e →
  UnwrapP2PPairSeed key hash peer role e = Some seed ∧ envelope_typed e ∧ ws_recipient_peer_id e = peer ∧ ws_recipient_role e = role.
Proof.
  intros Hp Hn [Hs _]. unfold WrapP2PPairSeed, UnwrapP2PPairSeed. case_if as E1; [done|]. rewrite !orb_false_iff in E1. destruct_and!.
  intros ([c t] & Hc & Ht)%bind_Some. destruct (length c =? 32)%nat eqn:El; [|done]. apply (inj Some) in Ht as <-.
  cbn [ws_recipient_peer_id ws_recipient_role ws_wrap_nonce ws_ciphertext ws_auth_tag].
  destruct (p2p_seal_bytes _ _ _ _ _ _ Hc) as (Hl & Hb & Ht). apply Nat.eqb_eq in El. split_and!; [|by constructor|done..].
  repeat (match goal with E : all_zero _ = false |- _ => rewrite E; clear E end). rewrite !bool_decide_eq_true_2 by done. cbn [negb orb].
  rewrite (p2p_open_sealed _ _ _ _ _ _ Hc). cbn [mbind option_bind]. by rewrite Hs.
Qed.

Definition other_role (r : P2PPeerRole) : P2PPeerRole := match r with Initiator => Responder | Responder => Initiator end.
Lemma mirrored m r :
  dk_rx_key (SelectP2PV1Direction m (other_role r)) = dk_tx_key (SelectP2PV1Direction m r) ∧
  dk_rx_nonce_prefix (SelectP2PV1Direction m (other_role r)) = dk_tx_nonce_prefix (SelectP2PV1Direction m r).
Proof. by destruct r. Qed.

(** The bundle's envelope for a role. *)
Lemma bundle_envelopes i s ei er b :
  input_typed i s → CreateP2PRelayOfferV2Bundle i ei er (Some s) = Some b →
  ob_offer b = Make i s ∧ Offer_Valid (Make i s) = true ∧ ∀ role, ∃ context hash key wrap,
    BuildP2PExporterContextV2 (Make i s) role = Some context ∧ HashP2PRelayOfferV2 (Make i s) = Some hash ∧
    for_role role ei er P2PWrapExporterLabelV2 context = Some key ∧ WrapKey key hash role = Some wrap ∧
    let e := for_role role (ob_initiator_envelope b) (ob_responder_envelope b) in
    let peer := for_role role (oi_initiator_peer_id i) (oi_responder_peer_id i) in
    UnwrapP2PPairSeed wrap hash peer role e = Some (os_pair_seed s) ∧
    envelope_typed e ∧ ws_recipient_peer_id e = peer ∧ ws_recipient_role e = role.
Proof.
  intros [[_ _ _ Hpi Hpr _ _ _ _ _ _] Hs Hni Hnr]. unfold CreateP2PRelayOfferV2Bundle, BuildP2PRelayOfferV2Bundle. cbn [mbind option_bind].
  intros (ci & Hci & (cr & Hcr & (ki & Hki & (kr & Hkr & H1)%bind_Some)%bind_Some)%bind_Some)%bind_Some. revert H1. case_if as Ez; [done|].
  intros (hash & Hh & (wi & Hwi & (wr & Hwr & (e1 & He1 & (e2 & He2 & Hb)%bind_Some)%bind_Some)%bind_Some)%bind_Some)%bind_Some.
  apply (inj Some) in Hb as <-. split; [done|]. split.
  { unfold HashP2PRelayOfferV2, SerializeP2PRelayOfferV2 in Hh. by destruct (Offer_Valid (Make i s)). }
  intros []; [exists ci, hash, ki, wi|exists cr, hash, kr, wr]; cbn [for_role ob_initiator_envelope ob_responder_envelope]; split_and!; try done;
    first [by apply (wrap_unwrap _ _ _ _ _ _ _ Hpi Hni Hs He1)|by apply (wrap_unwrap _ _ _ _ _ _ _ Hpr Hnr Hs He2)].
Qed.

(** C20: An offer made with the exporters of two sessions has a text for each of its peers.  The peer that
    holds the session opens its text to the offer, its role and the seed; the text opens for no other
    session or peer, and to no other offer or role, whatever exporter is tried; and with the keys each
    side derives from what it opened, what one side seals the other opens. *)
Theorem relay_offer_agrees i s ei er b role :
  input_typed i s → CreateP2PRelayOfferV2Bundle i ei er (Some s) = Some b →
  let session := for_role role (oi_initiator_session_id i) (oi_responder_session_id i) in
  let peer := for_role role (oi_initiator_peer_id i) (oi_responder_peer_id i) in
  ∃ text, EncodeP2PRelayOfferRecipientV2Hex (ob_offer b) (for_role role (ob_initiator_envelope b) (ob_responder_envelope b)) = Some text ∧
    OpenP2PRelayOfferRecipientV2 text session peer (for_role role ei er) = Some (ob_offer b, role, os_pair_seed s) ∧
    (∀ session' peer' exporter o r seed, OpenP2PRelayOfferRecipientV2 text session' peer' exporter = Some (o, r, seed) →
       session' = session ∧ peer' = peer ∧ o = ob_offer b ∧ r = role) ∧
    (∀ hash m h p d, HashP2PRelayOfferV2 (ob_offer b) = Some hash → DeriveP2PV2KeyMaterial (os_pair_seed s) hash = Some m → header_typed h →
       let mine := SelectP2PV1Direction m role in
       let theirs := SelectP2PV1Direction m (other_role role) in
       SealP2PV2DataDatagram h (dk_tx_key mine) (BuildP2PV1Nonce (dk_tx_nonce_prefix mine) (dh_sequence h)) p = Some d →
       OpenP2PV2DataDatagram d h (dk_rx_key theirs) (BuildP2PV1Nonce (dk_rx_nonce_prefix theirs) (dh_sequence h)) = Some p).
Proof.
  intros Hi Hb session peer. destruct (bundle_envelopes i s ei er b Hi Hb) as (Ho & Hv & He).
  destruct (He role) as (context & hash & key & wrap & Hc & Hh & Hk & Hw & Hu & Hte & Ep & Er). cbv zeta in *.
  set (e := for_role role (ob_initiator_envelope b) _) in *. rewrite Ho. destruct Hi as [Hto _ _ _].
  assert (∃ text, EncodeP2PRelayOfferRecipientV2Hex (Make i s) e = Some text) as [text Ht].
  { unfold EncodeP2PRelayOfferRecipientV2Hex, SerializeP2PRelayOfferV2. rewrite Hv. cbn [mbind option_bind].
    rewrite bool_decide_eq_true_2 by (rewrite Ep, Er; by destruct role). eexists. done. }
  pose proof (offer_text_parse _ _ _ Hto Hte Ht) as Hp. exists text. split_and!; [done|..].
  - unfold OpenP2PRelayOfferRecipientV2. rewrite Hp. cbn [mbind option_bind]. rewrite Er, Ep, !bool_decide_eq_true_2 by (done || by destruct role).
    cbn [negb orb]. rewrite Hc. cbn [mbind option_bind]. rewrite Hh. cbn [mbind option_bind]. rewrite Hk. cbn [mbind option_bind].
    rewrite Hw. cbn [mbind option_bind]. fold peer in Hu. by rewrite Hu.
  - intros session' peer' exporter o r seed. unfold OpenP2PRelayOfferRecipientV2. rewrite Hp. cbn [mbind option_bind]. rewrite Er, Ep.
    case_if as E; [done|]. apply orb_false_iff in E as [E1 E2]. apply negb_false_iff, bool_decide_eq_true_1 in E1, E2.
    intros (? & _ & (? & _ & (? & _ & (? & _ & (? & _ & E)%bind_Some)%bind_Some)%bind_Some)%bind_Some)%bind_Some. simplify_eq.
    split_and!; [by destruct role|done..].
  - intros hash' m h p d _ _ Hth Hs. destruct (mirrored m role) as [-> ->]. by apply v2_open_sealed.
Qed.
End agreement.

(** ** An offer *)
Definition demo_input : P2PRelayOfferV2Input :=
  mkOfferInput (replicate 16 1) (replicate 16 2) (replicate 16 3) (replicate 16 4) 1 zero_hash 5 6 (replicate 32 7).
Definition demo_secrets : P2PRelayOfferSecrets :=
  mkSecrets (replicate 16 8) (replicate 16 9) (replicate 32 10) (replicate 12 11) (replicate 12 12).
Definition demo_exporter (k : Z) : P2PSessionExporter := λ _ context, Some (replicate 32 (Z.land (k + foldr Z.add 0 context) 255)).
Definition demo_offer : P2PRelayOfferV2 := Make demo_input demo_secrets.
Definition demo_envelope : P2PWrappedPairSeed := mkWrapped [] Initiator [] [] [].
Definition demo_bundle : P2PRelayOfferV2Bundle :=
  default (mkBundle demo_offer demo_envelope demo_envelope)
    (@CreateP2PRelayOfferV2Bundle p2p_toy_crypto demo_input (demo_exporter 20) (demo_exporter 21) (Some demo_secrets)).
Lemma relay_offer_agrees_witness :
  @CreateP2PRelayOfferV2Bundle p2p_toy_crypto demo_input (demo_exporter 20) (demo_exporter 21) (Some demo_secrets) = Some demo_bundle ∧
  ∃ text, EncodeP2PRelayOfferRecipientV2Hex demo_offer (ob_responder_envelope demo_bundle) = Some text ∧
    @OpenP2PRelayOfferRecipientV2 p2p_toy_crypto text (replicate 16 2) (replicate 16 4) (demo_exporter 21) =
      Some (demo_offer, Responder, replicate 32 10).
Proof.
  assert (@CreateP2PRelayOfferV2Bundle p2p_toy_crypto demo_input (demo_exporter 20) (demo_exporter 21) (Some demo_secrets) = Some demo_bundle)
    as Hb by (vm_compute; reflexivity).
  split; [exact Hb|].
  destruct (@relay_offer_agrees p2p_toy_crypto p2p_toy_laws demo_input demo_secrets (demo_exporter 20) (demo_exporter 21) demo_bundle Responder)
    as (text & Ht & Ho & _); [|exact Hb|].
  - split; [|unfold byte_array; decide_true..]. constructor; unfold byte_array; decide_true.
  - exists text. split; [exact Ht|exact Ho].
Defined.

(** ** The order of the candidates does not matter *)
Lemma bytes_lt_total a b : bytes_lt a b = false → bytes_lt b a = false → a = b.
Proof.
  revert b. induction a as [|x a IH]; intros [|y b]; cbn; try done. destruct (Z.ltb_spec x y), (Z.ltb_spec y x); try done; try lia.
  intros. f_equal; [lia|by apply IH].
Qed.
Lemma bytes_lt_asym a b : bytes_lt a b = true → bytes_lt b a = false.
Proof.
  revert b. induction a as [|x a IH]; intros [|y b]; cbn; try done. destruct (Z.ltb_spec x y), (Z.ltb_spec y x); try done; try lia. apply IH.
Qed.
Lemma bytes_lt_trans a b c : bytes_lt a b = true → bytes_lt b c = true → bytes_lt a c = true.
Proof.
  revert b c. induction a as [|x a IH]; intros [|y b] [|z c]; cbn; try done.
  destruct (Z.ltb_spec x y), (Z.ltb_spec y x), (Z.ltb_spec y z), (Z.ltb_spec z y), (Z.ltb_spec x z), (Z.ltb_spec z x); try done; try lia. apply IH.
Qed.
#[global] Instance bytes_le_order : TotalOrder bytes_le.
Proof.
  unfold bytes_le. split; [split; [split|]|].
  - intros a. destruct (bytes_lt a a) eqn:E; [|done]. by rewrite (bytes_lt_asym _ _ E) in E.
  - intros a b c Hab Hbc. destruct (bytes_lt c a) eqn:E; [|done]. destruct (bytes_lt a b) eqn:E2.
    + by rewrite (bytes_lt_trans _ _ _ E E2) in Hbc.
    + by rewrite (bytes_lt_total a b E2 Hab), Hbc in E.
  - intros a b Hab Hba. by apply bytes_lt_total.
  - intros a b. unfold strict. destruct (bytes_lt b a) eqn:E1, (bytes_lt a b) eqn:E2.
    + by rewrite (bytes_lt_asym _ _ E1) in E2.
    + by right; right.
    + by left.
    + right; left. by apply bytes_lt_total.
Qed.
Lemma hash_side_perm role session revision l l' : l ≡ₚ l' → hash_side role session revision l = hash_side role session revision l'.
Proof.
  intros Hp. unfold hash_side.
  assert (∀ f : P2PCandidateEndpoint → bool, forallb f l = forallb f l') as ->.
  { intros f. induction Hp as [|x l l' _ IH|x y l|l1 l2 l3 _ IH1 _ IH2]; cbn; [done|by rewrite IH| |by rewrite IH1].
    by rewrite !andb_assoc, (andb_comm (f y)). }
  assert (merge_sort bytes_le (write_candidate <$> l) = merge_sort bytes_le (write_candidate <$> l')) as ->.
  { apply (StronglySorted_unique bytes_le); [apply StronglySorted_merge_sort; apply _..|]. by rewrite !merge_sort_Permutation, Hp. }
  by rewrite (Permutation_length Hp).
Qed.
(** Both sides hash the candidates they know, in whatever order: the hash is the same. *)
Lemma candidate_set_order `{P2PCrypto} si sr ri rr ci ci' cr cr' :
  ci ≡ₚ ci' → cr ≡ₚ cr' → HashP2PV2CandidateSet si sr ri rr ci cr = HashP2PV2CandidateSet si sr ri rr ci' cr'.
Proof.
  intros Hi Hr. unfold HashP2PV2CandidateSet.
  by rewrite (Permutation_length Hi), (Permutation_length Hr), (hash_side_perm _ _ _ _ _ Hi), (hash_side_perm _ _ _ _ _ Hr).
Qed.

(** ** The asynchronous form *)
(** [Async]: the stages and the results given to the completion, oldest first. *)
Record OfferAsync := mkAsync {
  oa_input : P2PRelayOfferV2Input;
  oa_secrets : option P2PRelayOfferSecrets;
  oa_first_key : list Z;
  oa_stage : Z;
  oa_completed : list (option P2PRelayOfferV2Bundle);
}.
(** An exporter's completion: with the key it wrote, or [None] when it failed or threw. *)
Inductive AsyncEvent := FirstReady (key : option (list Z)) | SecondReady (key : option (list Z)).

Section asynchronous.
Context `{P2PCrypto}.

Definition Async_Finish (a : OfferAsync) (result : option P2PRelayOfferV2Bundle) : OfferAsync :=
  if oa_stage a =? 3 then a else mkAsync (oa_input a) None [] 3 (oa_completed a ++ [result]).
Definition Async_Start (i : P2PRelayOfferV2Input) (random : option P2PRelayOfferSecrets) : OfferAsync :=
  let a := mkAsync i random [] 0 [] in
  match random with
  | None => Async_Finish a None
  | Some s =>
      match BuildP2PExporterContextV2 (Make i s) Initiator, BuildP2PExporterContextV2 (Make i s) Responder with
      | Some _, Some _ => a
      | _, _ => Async_Finish a None
      end
  end.
Definition OnFirst (a : OfferAsync) (key : option (list Z)) : OfferAsync :=
  if negb (oa_stage a =? 0) then a else
  match key with
  | None => Async_Finish (mkAsync (oa_input a) (oa_secrets a) (oa_first_key a) 1 (oa_completed a)) None
  | Some k => mkAsync (oa_input a) (oa_secrets a) k 1 (oa_completed a)
  end.
Definition OnSecond (a : OfferAsync) (key : option (list Z)) : OfferAsync :=
  if negb (oa_stage a =? 1) then a else
  Async_Finish (mkAsync (oa_input a) (oa_secrets a) (oa_first_key a) 2 (oa_completed a))
    (k ← key; s ← oa_secrets a; BuildP2PRelayOfferV2Bundle (oa_input a) (oa_first_key a) k s).
Definition async_step (a : OfferAsync) (e : AsyncEvent) : OfferAsync :=
  match e with FirstReady k => OnFirst a k | SecondReady k => OnSecond a k end.

(** Whatever the exporters answer and however often, the completion runs at most once; and when each
    answers as the synchronous form would have called it, with the result of that form. *)
Lemma async_completes_once i random es : (length (oa_completed (foldl async_step (Async_Start i random) es)) ≤ 1)%nat.
Proof.
  assert (∀ a, (oa_stage a = 3 ∧ length (oa_completed a) = 1%nat) ∨ (oa_stage a ≠ 3 ∧ oa_completed a = []) →
    ∀ es, (length (oa_completed (foldl async_step a es)) ≤ 1)%nat) as Hinv.
  { intros a Ha es'. revert a Ha. induction es' as [|e es' IH]; intros a Ha; cbn [foldl].
    - destruct Ha as [[_ ->]|[_ ->]]; cbn [length]; lia.
    - apply IH. unfold async_step, OnFirst, OnSecond, Async_Finish. destruct e as [[k|]|k]; destruct Ha as [[E H1]|[E H1]];
        repeat case_match; cbn [oa_stage oa_completed] in *; rewrite ?H1; try (by left); try (by right); bool_props; try lia; tauto. }
  apply Hinv. unfold Async_Start, Async_Finish. repeat case_match; cbn; (by left) || (by right).
Qed.
Lemma async_create i s ei er ci cr :
  BuildP2PExporterContextV2 (Make i s) Initiator = Some ci → BuildP2PExporterContextV2 (Make i s) Responder = Some cr →
  oa_completed (foldl async_step (Async_Start i (Some s))
    [FirstReady (ei P2PWrapExporterLabelV2 ci); SecondReady (er P2PWrapExporterLabelV2 cr)]) = [CreateP2PRelayOfferV2Bundle i ei er (Some s)].
Proof.
  intros Hi Hr. unfold Async_Start, CreateP2PRelayOfferV2Bundle. cbn [mbind option_bind]. rewrite Hi, Hr. cbn [mbind option_bind foldl async_step].
  unfold OnFirst. cbn [oa_stage Z.eqb negb]. destruct (ei _ ci) as [ki|]; [|done]. unfold OnSecond. cbn. by destruct (er _ cr).
Qed.
End asynchronous.
