(* ===== verification/P2PV2Channel.v ===== *)
(** * The peer-to-peer channel, version 2

    [p2p/P2PV2Channel.cpp]: a channel holds up to three key slots (pending, current, previous), probes
    candidate pairs, commits a pair, promotes the pending slot, migrates and renews.  Every public
    method is one critical section.  Fields of a slot that only change together are sub-records, and
    those fixed by [AcceptOffer] are [SlotFixed]; packets kept but never read again ([commit],
    [migration.challenge]) are left out.  Moving a [unique_ptr] moves the slot; dereferencing a null
    one is the outcome [None]. *)
From S2P Require Import Prelude P2PControl P2PReplay P2PState P2PV2Codec P2POffer.
Local Open Scope Z_scope.

(** ** Data *)
Definition MaxSequence : Z := 4294967295.
Definition RefreshSequence : Z := MaxSequence - 4096.
Definition RetryMs : Z := 2000.

Record Transaction := mkTransaction {
  tr_request : P2PV2ControlPacket;
  tr_hash : list Z;
  tr_request_bytes : list Z;
  tr_ack_bytes : list Z;
  tr_first_ms : Z;
  tr_sends : Z;
  tr_acked : bool;
}.
(** An active migration. *)
Record Migration := mkMigration {
  mg_peer : P2PCandidateEndpoint;
  mg_hash : list Z;
  mg_bytes : list Z;
  mg_started_ms : Z;
  mg_deadline_ms : Z;
  mg_sends : Z;
}.
Record P2PV2RecipientContext := mkContext {
  rc_local_session_id : list Z;
  rc_local_peer_id : list Z;
  rc_local_candidate_revision : Z;
  rc_peer_candidate_revision : Z;
  rc_local_candidates : list P2PCandidateEndpoint;
  rc_peer_candidates : list P2PCandidateEndpoint;
}.
Record SlotFixed := mkFixed {
  sf_offer : P2PRelayOfferV2;
  sf_hash : list Z;
  sf_keys : P2PV1KeyMaterial;
  sf_role : P2PPeerRole;
  sf_context : P2PV2RecipientContext;
  sf_received_ms : Z;
  sf_setup_ms : Z;
  sf_key_ms : Z;
  sf_refresh_ms : Z;
}.
Record SlotTimes := mkTimes { ti_previous_ms : Z; ti_last_rx_ms : Z; ti_last_heartbeat_ms : Z }.
Record SlotRenew := mkRenew { rn_last_renew_ms : Z; rn_renew_attempts : Z; rn_renew_requested : bool }.
Record SlotNomination := mkNomination { nm_nominated : bool; nm_local : P2PCandidateEndpoint; nm_peer : P2PCandidateEndpoint }.
Record SlotCommit := mkCommit {
  cm_sent : bool;
  cm_received : bool;
  cm_hash : list Z;
  cm_bytes : list Z;
  cm_ack_bytes : list Z;
  cm_started_ms : Z;
  cm_sends : Z;
}.
Record SlotMoves := mkMoves {
  mv_migration_attempts : Z;
  mv_received_migrations : Z;
  mv_received_migration_hash : list Z;
  mv_migration_ack_bytes : list Z;
}.
Record Slot := mkSlot {
  sl_fixed : SlotFixed;
  sl_times : SlotTimes;
  sl_renew : SlotRenew;
  sl_next_sequence : Z;
  sl_replay : P2PReplayWindow;
  sl_tx : list Transaction;
  sl_rx : list Transaction;
  sl_nomination : SlotNomination;
  sl_commit : SlotCommit;
  sl_migration : option Migration;
  sl_moves : SlotMoves;
}.

Definition set_sl_times (v : SlotTimes) (s : Slot) : Slot :=
  mkSlot (sl_fixed s) v (sl_renew s) (sl_next_sequence s) (sl_replay s) (sl_tx s) (sl_rx s) (sl_nomination s) (sl_commit s) (sl_migration s) (sl_moves s).
Definition set_sl_renew (v : SlotRenew) (s : Slot) : Slot :=
  mkSlot (sl_fixed s) (sl_times s) v (sl_next_sequence s) (sl_replay s) (sl_tx s) (sl_rx s) (sl_nomination s) (sl_commit s) (sl_migration s) (sl_moves s).
Definition set_sl_next_sequence (v : Z) (s : Slot) : Slot :=
  mkSlot (sl_fixed s) (sl_times s) (sl_renew s) v (sl_replay s) (sl_tx s) (sl_rx s) (sl_nomination s) (sl_commit s) (sl_migration s) (sl_moves s).
Definition set_sl_replay (v : P2PReplayWindow) (s : Slot) : Slot :=
  mkSlot (sl_fixed s) (sl_times s) (sl_renew s) (sl_next_sequence s) v (sl_tx s) (sl_rx s) (sl_nomination s) (sl_commit s) (sl_migration s) (sl_moves s).
Definition set_sl_tx (v : list Transaction) (s : Slot) : Slot :=
  mkSlot (sl_fixed s) (sl_times s) (sl_renew s) (sl_next_sequence s) (sl_replay s) v (sl_rx s) (sl_nomination s) (sl_commit s) (sl_migration s) (sl_moves s).
Definition set_sl_rx (v : list Transaction) (s : Slot) : Slot :=
  mkSlot (sl_fixed s) (sl_times s) (sl_renew s) (sl_next_sequence s) (sl_replay s) (sl_tx s) v (sl_nomination s) (sl_commit s) (sl_migration s) (sl_moves s).
Definition set_sl_nomination (v : SlotNomination) (s : Slot) : Slot :=
  mkSlot (sl_fixed s) (sl_times s) (sl_renew s) (sl_next_sequence s) (sl_replay s) (sl_tx s) (sl_rx s) v (sl_commit s) (sl_migration s) (sl_moves s).
Definition set_sl_commit (v : SlotCommit) (s : Slot) : Slot :=
  mkSlot (sl_fixed s) (sl_times s) (sl_renew s) (sl_next_sequence s) (sl_replay s) (sl_tx s) (sl_rx s) (sl_nomination s) v (sl_migration s) (sl_moves s).
Definition set_sl_migration (v : option Migration) (s : Slot) : Slot :=
  mkSlot (sl_fixed s) (sl_times s) (sl_renew s) (sl_next_sequence s) (sl_replay s) (sl_tx s) (sl_rx s) (sl_nomination s) (sl_commit s) v (sl_moves s).
Definition set_sl_moves (v : SlotMoves) (s : Slot) : Slot :=
  mkSlot (sl_fixed s) (sl_times s) (sl_renew s) (sl_next_sequence s) (sl_replay s) (sl_tx s) (sl_rx s) (sl_nomination s) (sl_commit s) (sl_migration s) v.

Definition no_candidate : P2PCandidateEndpoint := mkCandidate 0 (replicate 16 0) 0.
Definition Slot_new (f : SlotFixed) : Slot :=
  mkSlot f (mkTimes 0 0 0) (mkRenew 0 0 false) 0 Replay_Reset [] [] (mkNomination false no_candidate no_candidate)
    (mkCommit false false zero_hash [] [] 0 0) None (mkMoves 0 0 zero_hash []).

Definition sl_offer (s : Slot) : P2PRelayOfferV2 := sf_offer (sl_fixed s).
Definition sl_hash (s : Slot) : list Z := sf_hash (sl_fixed s).
Definition sl_keys (s : Slot) : P2PV1KeyMaterial := sf_keys (sl_fixed s).
Definition sl_role (s : Slot) : P2PPeerRole := sf_role (sl_fixed s).
Definition sl_local (s : Slot) : P2PCandidateEndpoint := nm_local (sl_nomination s).
Definition sl_peer (s : Slot) : P2PCandidateEndpoint := nm_peer (sl_nomination s).
Definition commit_started (s : Slot) : bool := cm_sent (sl_commit s) || cm_received (sl_commit s).
Definition set_last_rx (now : Z) (s : Slot) : Slot := set_sl_times (mkTimes (ti_previous_ms (sl_times s)) now (ti_last_heartbeat_ms (sl_times s))) s.

(** ** The replay window without wrap-around *)
Definition V2_Replay (r : P2PReplayWindow) (sequence : Z) : bool * P2PReplayWindow :=
  if sequence =? MaxSequence then (false, r) else
  let base := wrap 32 (rw_base r) in
  if rw_initialized r && (sequence <? base) && (REPLAY_WINDOW_SIZE <=? base - sequence) then (false, r) else
  let r := if rw_initialized r && (base <? sequence) && (REPLAY_WINDOW_SIZE <=? sequence - base) then Replay_Reset else r in
  Replay_Accept r sequence.

(** ** Slots *)
Definition Member (values : list P2PCandidateEndpoint) (e : P2PCandidateEndpoint) : bool := bool_decide (e ∈ values).
Definition find_transaction (l : list Transaction) (source destination : P2PCandidateEndpoint) : option (nat * Transaction) :=
  list_find (λ t, vc_source (tr_request t) = source ∧ vc_destination (tr_request t) = destination) l.
Definition Tx (s : Slot) (local peer : P2PCandidateEndpoint) : option (nat * Transaction) := find_transaction (sl_tx s) local peer.
Definition Rx (s : Slot) (peer local : P2PCandidateEndpoint) : option (nat * Transaction) := find_transaction (sl_rx s) peer local.
Definition Ready (s : Slot) : bool :=
  nm_nominated (sl_nomination s) &&
  match Tx s (sl_local s) (sl_peer s), Rx s (sl_peer s) (sl_local s) with
  | Some (_, tx), Some (_, rx) => tr_acked tx && negb (length (tr_ack_bytes rx) =? 0)%nat
  | _, _ => false
  end.
Definition Alive (s : Slot) (now : Z) : bool := (sf_received_ms (sl_fixed s) <=? now) && (now <? sf_key_ms (sl_fixed s)).
Definition Setup (s : Slot) (now : Z) : bool := Alive s now && (now <? sf_setup_ms (sl_fixed s)).

Definition MakeControl (s : Slot) (type : P2PV2ControlType) (local peer : P2PCandidateEndpoint) (previous probe commit : list Z) :
    option P2PV2ControlPacket :=
  if sl_next_sequence s =? MaxSequence then None else
  let role := role_byte (sl_role s) in
  let prefix := for_role (sl_role s) (km_initiator_to_responder_nonce (sl_keys s)) (km_responder_to_initiator_nonce (sl_keys s)) in
  Some (mkV2Control type (sl_hash s) previous probe commit role (1 - role) role (ro_connection_epoch (sl_offer s)) local peer
    (sl_next_sequence s) (BuildP2PV1Nonce prefix (sl_next_sequence s)) 10 (replicate 16 0)).

(** ** The channel *)
Record Liveness := mkLiveness { lv_heartbeat_ms : Z; lv_suspect_after_ms : Z; lv_failure_after_ms : Z; lv_migration_grace_ms : Z }.
Record Impl := mkImpl {
  im_current : option Slot;
  im_pending : option Slot;
  im_previous : option Slot;
  im_generation : Z;
  im_high_water : Z;
  im_state : P2PState;
  im_cancelled : list Z;
  im_needs_renew : bool;
  im_fallback_event : bool;
  im_activation_event : bool;
  im_relay_only : bool;
  im_liveness : Liveness;
}.

Definition set_im_current (v : option Slot) (s : Impl) : Impl :=
  mkImpl v (im_pending s) (im_previous s) (im_generation s) (im_high_water s) (im_state s) (im_cancelled s) (im_needs_renew s) (im_fallback_event s) (im_activation_event s) (im_relay_only s) (im_liveness s).
Definition set_im_pending (v : option Slot) (s : Impl) : Impl :=
  mkImpl (im_current s) v (im_previous s) (im_generation s) (im_high_water s) (im_state s) (im_cancelled s) (im_needs_renew s) (im_fallback_event s) (im_activation_event s) (im_relay_only s) (im_liveness s).
Definition set_im_previous (v : option Slot) (s : Impl) : Impl :=
  mkImpl (im_current s) (im_pending s) v (im_generation s) (im_high_water s) (im_state s) (im_cancelled s) (im_needs_renew s) (im_fallback_event s) (im_activation_event s) (im_relay_only s) (im_liveness s).
Definition set_im_generation (v : Z) (s : Impl) : Impl :=
  mkImpl (im_current s) (im_pending s) (im_previous s) v (im_high_water s) (im_state s) (im_cancelled s) (im_needs_renew s) (im_fallback_event s) (im_activation_event s) (im_relay_only s) (im_liveness s).
Definition set_im_high_water (v : Z) (s : Impl) : Impl :=
  mkImpl (im_current s) (im_pending s) (im_previous s) (im_generation s) v (im_state s) (im_cancelled s) (im_needs_renew s) (im_fallback_event s) (im_activation_event s) (im_relay_only s) (im_liveness s).
Definition set_im_state (v : P2PState) (s : Impl) : Impl :=
  mkImpl (im_current s) (im_pending s) (im_previous s) (im_generation s) (im_high_water s) v (im_cancelled s) (im_needs_renew s) (im_fallback_event s) (im_activation_event s) (im_relay_only s) (im_liveness s).
Definition set_im_cancelled (v : list Z) (s : Impl) : Impl :=
  mkImpl (im_current s) (im_pending s) (im_previous s) (im_generation s) (im_high_water s) (im_state s) v (im_needs_renew s) (im_fallback_event s) (im_activation_event s) (im_relay_only s) (im_liveness s).
Definition set_im_needs_renew (v : bool) (s : Impl) : Impl :=
  mkImpl (im_current s) (im_pending s) (im_previous s) (im_generation s) (im_high_water s) (im_state s) (im_cancelled s) v (im_fallback_event s) (im_activation_event s) (im_relay_only s) (im_liveness s).
Definition set_im_fallback_event (v : bool) (s : Impl) : Impl :=
  mkImpl (im_current s) (im_pending s) (im_previous s) (im_generation s) (im_high_water s) (im_state s) (im_cancelled s) (im_needs_renew s) v (im_activation_event s) (im_relay_only s) (im_liveness s).
Definition set_im_activation_event (v : bool) (s : Impl) : Impl :=
  mkImpl (im_current s) (im_pending s) (im_previous s) (im_generation s) (im_high_water s) (im_state s) (im_cancelled s) (im_needs_renew s) (im_fallback_event s) v (im_relay_only s) (im_liveness s).
Definition set_im_relay_only (v : bool) (s : Impl) : Impl :=
  mkImpl (im_current s) (im_pending s) (im_previous s) (im_generation s) (im_high_water s) (im_state s) (im_cancelled s) (im_needs_renew s) (im_fallback_event s) (im_activation_event s) v (im_liveness s).
Definition set_im_liveness (v : Liveness) (s : Impl) : Impl :=
  mkImpl (im_current s) (im_pending s) (im_previous s) (im_generation s) (im_high_water s) (im_state s) (im_cancelled s) (im_needs_renew s) (im_fallback_event s) (im_activation_event s) (im_relay_only s) v.

Definition Impl_new : Impl := mkImpl None None None 0 0 P2PRelay zero_hash false false false false (mkLiveness 1000 2000 4000 5000).

Record P2PV2Outbound := mkOutbound { ou_datagram : list Z; ou_destination : P2PCandidateEndpoint }.
Inductive P2PV2ControlEvent := EvNone | EvProbeAck | EvReverseProbeNeeded | EvActivated | EvMigrated | EvFallback.
Record P2PV2ControlResult := mkControlResult {
  cr_event : P2PV2ControlEvent;
  cr_outbound : list P2PV2Outbound;
  cr_local_candidate : P2PCandidateEndpoint;
  cr_peer_candidate : P2PCandidateEndpoint;
  cr_offer_hash : list Z;
  cr_cancelled_offer_hash : list Z;
  cr_probe_sequence : Z;
}.

Definition no_result : P2PV2ControlResult := mkControlResult EvNone [] no_candidate no_candidate zero_hash zero_hash 0.
Definition with_event (e : P2PV2ControlEvent) (r : P2PV2ControlResult) : P2PV2ControlResult :=
  mkControlResult e (cr_outbound r) (cr_local_candidate r) (cr_peer_candidate r) (cr_offer_hash r) (cr_cancelled_offer_hash r) (cr_probe_sequence r).
Definition push_outbound (bytes : list Z) (to : P2PCandidateEndpoint) (r : P2PV2ControlResult) : P2PV2ControlResult :=
  mkControlResult (cr_event r) (cr_outbound r ++ [mkOutbound bytes to]) (cr_local_candidate r) (cr_peer_candidate r) (cr_offer_hash r)
    (cr_cancelled_offer_hash r) (cr_probe_sequence r).
Definition with_cancelled (h : list Z) (r : P2PV2ControlResult) : P2PV2ControlResult :=
  mkControlResult (cr_event r) (cr_outbound r) (cr_local_candidate r) (cr_peer_candidate r) (cr_offer_hash r) h (cr_probe_sequence r).
Definition Details (slot : Slot) (r : P2PV2ControlResult) : P2PV2ControlResult :=
  mkControlResult (cr_event r) (cr_outbound r) (sl_local slot) (sl_peer slot) (sl_hash slot) (cr_cancelled_offer_hash r) (cr_probe_sequence r).

Definition Impl_Clear (c : Impl) : Impl :=
  set_im_activation_event false (set_im_needs_renew false (set_im_state P2PRelay
    (set_im_previous None (set_im_pending None (set_im_current None c))))).
Definition Impl_Fallback (c : Impl) : Impl := set_im_fallback_event true (Impl_Clear c).
Definition renew_afresh (s : Slot) : Slot := set_sl_renew (mkRenew (rn_last_renew_ms (sl_renew s)) 0 false) s.
Definition CancelPending (c : Impl) : Impl :=
  let c := match im_pending c with Some p => set_im_cancelled (sl_hash p) c | None => c end in
  let c := set_im_needs_renew (bool_decide (is_Some (im_current c))) (set_im_pending None c) in
  set_im_current (renew_afresh <$> im_current c) c.
(** [None]: [pending] is dereferenced while it is null. *)
Definition Promote (c : Impl) (now : Z) : option Impl :=
  pending ← im_pending c;
  let retired := (λ cur, set_sl_times (mkTimes (Z.min (sf_key_ms (sl_fixed cur)) (now +[64] ro_previous_receive_grace_ms (sl_offer pending)))
    (ti_last_rx_ms (sl_times cur)) (ti_last_heartbeat_ms (sl_times cur))) cur) <$> im_current c in
  let promoted := set_sl_times (mkTimes (ti_previous_ms (sl_times pending)) now 0) pending in
  let state := if im_relay_only c then P2PRelay else P2PDirect in
  Some (set_im_needs_renew false (set_im_activation_event true (set_im_state state
    (set_im_pending None (set_im_current (Some promoted) (set_im_previous retired c)))))).

(** The slot a packet is for. *)
Inductive Place := AtPending | AtCurrent.
#[global] Instance Place_eq_dec : EqDecision Place.
Proof. solve_decision. Defined.
Definition put_slot (w : Place) (s : Slot) (c : Impl) : Impl :=
  match w with AtPending => set_im_pending (Some s) c | AtCurrent => set_im_current (Some s) c end.

(** The state afterwards, and the result when the method returns true; [None]: undefined behaviour. *)
Abbreviation outcome := (option (Impl * option P2PV2ControlResult)).
Definition rejected (c : Impl) : outcome := Some (c, None).
Definition replied (c : Impl) (r : P2PV2ControlResult) : outcome := Some (c, Some r).

(** ** Packets of a slot *)
Section channel.
Context `{P2PCrypto}.

Definition FinishControl (s : Slot) (p : P2PV2ControlPacket) (binding : option (list Z)) : option (Slot * P2PV2ControlPacket * list Z) :=
  p ← SignP2PV2Control p (km_offer_token_key (sl_keys s)) binding;
  bytes ← SerializeP2PV2Control p;
  Some (set_sl_next_sequence (sl_next_sequence s + 1) s, p, bytes).
Definition Authenticate (s : Slot) (p : P2PV2ControlPacket) (sender : P2PCandidateEndpoint) (binding : option (list Z)) : bool :=
  let prefix := for_role (sl_role s) (km_responder_to_initiator_nonce (sl_keys s)) (km_initiator_to_responder_nonce (sl_keys s)) in
  bool_decide (vc_offer_hash p = sl_hash s) && bool_decide (vc_connection_epoch p = ro_connection_epoch (sl_offer s)) &&
  (vc_receiver_role p =? role_byte (sl_role s)) && (vc_sender_role p =? 1 - vc_receiver_role p) && bool_decide (vc_source p = sender) &&
  bool_decide (vc_nonce p = BuildP2PV1Nonce prefix (vc_sequence p)) && VerifyP2PV2Control p (km_offer_token_key (sl_keys s)) binding.
(** The plaintext, and the window with the sequence marked. *)
Definition Slot_Open (s : Slot) (bytes : list Z) (replay : P2PReplayWindow) : option (list Z * P2PReplayWindow) :=
  p ← ParseP2PV2DataPacketHeader bytes;
  if negb (bool_decide (dh_offer_hash p = sl_hash s)) || negb (bool_decide (dh_connection_epoch p = ro_connection_epoch (sl_offer s))) ||
     negb (dh_receiver_role p =? role_byte (sl_role s)) || negb (dh_sender_role p =? 1 - dh_receiver_role p) then None else
  let '(fresh, replay) := V2_Replay replay (dh_sequence p) in
  if negb fresh then None else
  let direction := SelectP2PV1Direction (sl_keys s) (sl_role s) in
  out ← OpenP2PV2DataDatagram bytes p (dk_rx_key direction) (BuildP2PV1Nonce (dk_rx_nonce_prefix direction) (dh_sequence p));
  Some (out, replay).
Definition Slot_Seal (s : Slot) (data : list Z) : option (Slot * list Z) :=
  if sl_next_sequence s =? MaxSequence then None else
  let direction := SelectP2PV1Direction (sl_keys s) (sl_role s) in
  let role := role_byte (sl_role s) in
  let p := mkDataHeader (sl_hash s) role (1 - role) role (ro_connection_epoch (sl_offer s)) (sl_next_sequence s) 0 in
  out ← SealP2PV2DataDatagram p (dk_tx_key direction) (BuildP2PV1Nonce (dk_tx_nonce_prefix direction) (sl_next_sequence s)) data;
  Some (set_sl_next_sequence (sl_next_sequence s + 1) s, out).

(** ** Methods *)
Definition CommitAck (c : Impl) (w : Place) (slot : Slot) (now : Z) (result : P2PV2ControlResult) : outcome :=
  if negb (cm_received (sl_commit slot)) || negb (Ready slot) || negb (Setup slot now) then rejected (put_slot w slot c) else
  match Tx slot (sl_local slot) (sl_peer slot) with
  | None => None
  | Some (_, tx) =>
      match MakeControl slot V2KeyCommitAck (sl_local slot) (sl_peer slot) zero_hash (tr_hash tx) (cm_hash (sl_commit slot)) with
      | None => rejected (put_slot w slot c)
      | Some ack =>
          match FinishControl slot ack None with
          | None => rejected (put_slot w slot c)
          | Some (slot, _, bytes) =>
              if (length (cm_bytes (sl_commit slot)) <? length bytes)%nat then rejected (put_slot w slot c) else
              let k := sl_commit slot in
              let slot := set_sl_commit (mkCommit (cm_sent k) (cm_received k) (cm_hash k) (cm_bytes k) bytes (cm_started_ms k) (cm_sends k)) slot in
              c ← Promote (put_slot w slot c) now;
              current ← im_current c;
              replied c (Details current (with_event EvActivated (push_outbound bytes (sl_peer slot) result)))
          end
      end
  end.

(** The branches of [Handle] after authentication, with the packet's hash and the advanced window. *)
Definition handle_probe (c : Impl) (w : Place) (s : Slot) (p : P2PV2ControlPacket) (bytes request_hash : list Z) (replay : P2PReplayWindow) :
    outcome :=
  if (length (sl_rx s) =? 4)%nat then rejected c else
  match MakeControl s V2ProbeAck (vc_destination p) (vc_source p) zero_hash request_hash zero_hash with
  | None => rejected c
  | Some ack =>
      match FinishControl s ack None with
      | None => rejected c
      | Some (s, _, reply) =>
          if (length bytes <? length reply)%nat then rejected (put_slot w s c) else
          let s := set_sl_replay replay (set_sl_rx (sl_rx s ++ [mkTransaction p request_hash bytes reply 0 0 false]) s) in
          replied (put_slot w s c) (push_outbound reply (vc_source p) no_result)
      end
  end.
Definition handle_probe_ack (c : Impl) (w : Place) (s : Slot) (p : P2PV2ControlPacket) (now : Z) (replay : P2PReplayWindow) : outcome :=
  match Tx s (vc_destination p) (vc_source p) with
  | None => rejected c
  | Some (n, tx) =>
      if tr_acked tx || negb (bool_decide (tr_hash tx = vc_probe_transcript_hash p)) ||
         negb (Member (rc_local_candidates (sf_context (sl_fixed s))) (vc_destination p)) ||
         negb (Member (rc_peer_candidates (sf_context (sl_fixed s))) (vc_source p)) then rejected c else
      let tx' := mkTransaction (tr_request tx) (tr_hash tx) (tr_request_bytes tx) (tr_ack_bytes tx) (tr_first_ms tx) (tr_sends tx) true in
      let s := set_sl_replay replay (set_sl_tx (<[n := tx']> (sl_tx s)) s) in
      let result := mkControlResult EvProbeAck [] (vc_destination p) (vc_source p) (sl_hash s) zero_hash (vc_sequence (tr_request tx)) in
      if bool_decide (sl_role s = Initiator) && negb (nm_nominated (sl_nomination s)) then
        let s := set_sl_nomination (mkNomination true (vc_destination p) (vc_source p)) s in
        match MakeControl s V2KeyCommit (sl_local s) (sl_peer s) (ro_previous_offer_hash (sl_offer s)) (tr_hash tx) zero_hash with
        | None => rejected (put_slot w s c)
        | Some commit =>
            match FinishControl s commit None with
            | None => rejected (put_slot w s c)
            | Some (s, commit, packet) =>
                match HashP2PV2Control commit with
                | None => rejected (put_slot w s c)
                | Some commit_hash =>
                    let k := sl_commit s in
                    let s := set_sl_commit (mkCommit true (cm_received k) commit_hash packet (cm_ack_bytes k) now 1) s in
                    replied (put_slot w s c) (push_outbound packet (sl_peer s) result)
                end
            end
        end
      else if bool_decide (sl_role s = Responder) && nm_nominated (sl_nomination s) && bool_decide (vc_destination p = sl_local s) &&
              bool_decide (vc_source p = sl_peer s) then CommitAck c w s now result
      else replied (put_slot w s c) result
  end.
Definition handle_key_commit (c : Impl) (w : Place) (s : Slot) (p : P2PV2ControlPacket) (bytes request_hash : list Z) (now : Z)
    (replay : P2PReplayWindow) : outcome :=
  if negb (bool_decide (w = AtPending)) || negb (bool_decide (sl_role s = Responder)) ||
     negb (bool_decide (vc_previous_offer_hash p = ro_previous_offer_hash (sl_offer s))) ||
     negb (Member (rc_peer_candidates (sf_context (sl_fixed s))) (vc_source p)) ||
     negb (Member (rc_local_candidates (sf_context (sl_fixed s))) (vc_destination p)) then rejected c else
  match Rx s (vc_source p) (vc_destination p) with
  | None => rejected c
  | Some (_, rx) =>
      if negb (bool_decide (tr_hash rx = vc_probe_transcript_hash p)) then rejected c else
      let k := sl_commit s in
      let s := set_sl_replay replay (set_sl_commit (mkCommit (cm_sent k) true request_hash bytes (cm_ack_bytes k) (cm_started_ms k) (cm_sends k))
        (set_sl_nomination (mkNomination true (vc_destination p) (vc_source p)) s)) in
      let result := Details s no_result in
      if Ready s then CommitAck c w s now result else replied (put_slot w s c) (with_event EvReverseProbeNeeded result)
  end.
Definition handle_key_commit_ack (c : Impl) (w : Place) (s : Slot) (p : P2PV2ControlPacket) (now : Z) (replay : P2PReplayWindow) : outcome :=
  if negb (bool_decide (w = AtPending)) || negb (bool_decide (sl_role s = Initiator)) || negb (cm_sent (sl_commit s)) || negb (Ready s) ||
     negb (bool_decide (vc_source p = sl_peer s)) || negb (bool_decide (vc_destination p = sl_local s)) ||
     negb (bool_decide (vc_commit_transcript_hash p = cm_hash (sl_commit s))) then rejected c else
  match Rx s (sl_peer s) (sl_local s) with
  | None => rejected c
  | Some (_, rx) =>
      if negb (bool_decide (tr_hash rx = vc_probe_transcript_hash p)) then rejected c else
      c ← Promote (put_slot w (set_sl_replay replay s) c) now;
      current ← im_current c;
      replied c (Details current (with_event EvActivated no_result))
  end.
Definition handle_migrate_challenge (c : Impl) (w : Place) (s : Slot) (p : P2PV2ControlPacket) (bytes request_hash : list Z) (now : Z)
    (replay : P2PReplayWindow) : outcome :=
  if negb (bool_decide (w = AtCurrent)) || negb (bool_decide (vc_source p = sl_peer s)) || (2 <=? mv_received_migrations (sl_moves s)) ||
     bool_decide (is_Some (sl_migration s)) then rejected c else
  if match im_pending c with Some q => commit_started q | None => false end then replied (Impl_Fallback c) (with_event EvFallback no_result) else
  match MakeControl s V2MigrateAck (vc_destination p) (vc_source p) zero_hash zero_hash zero_hash with
  | None => rejected c
  | Some ack =>
      match FinishControl s ack (Some request_hash) with
      | None => rejected c
      | Some (s, _, packet) =>
          if (length bytes <? length packet)%nat then rejected (put_slot w s c) else
          let had_pending := bool_decide (is_Some (im_pending c)) in
          let c := put_slot w s c in
          let c := if had_pending then CancelPending c else c in
          let result := if had_pending then with_cancelled (im_cancelled c) no_result else no_result in
          s ← im_current c;
          let s := set_last_rx now (set_sl_replay replay (set_sl_nomination (mkNomination (nm_nominated (sl_nomination s)) (vc_destination p)
            (sl_peer s)) (set_sl_moves (mkMoves (mv_migration_attempts (sl_moves s)) (mv_received_migrations (sl_moves s) + 1) request_hash packet)
            s))) in
          replied (set_im_needs_renew true (put_slot w s c)) (Details s (with_event EvMigrated (push_outbound packet (vc_source p) result)))
      end
  end.
Definition handle_migrate_ack (c : Impl) (w : Place) (s : Slot) (m : Migration) (now : Z) (replay : P2PReplayWindow) : outcome :=
  let s := set_last_rx now (set_sl_replay replay (set_sl_migration None (set_sl_nomination
    (mkNomination (nm_nominated (sl_nomination s)) (sl_local s) (mg_peer m)) s))) in
  replied (set_im_needs_renew true (set_im_state P2PDirect (put_slot w s c))) (Details s (with_event EvMigrated no_result)).

Definition is_migration (t : P2PV2ControlType) : bool := match t with V2MigrateChallenge | V2MigrateAck => true | _ => false end.
(** Exact duplicates of a request get the reply they got the first time. *)
Definition handle_cached (s : Slot) (p : P2PV2ControlPacket) (request_hash : list Z) : option (option P2PV2ControlResult) :=
  match vc_type p with
  | V2Probe =>
      if negb (Member (rc_peer_candidates (sf_context (sl_fixed s))) (vc_source p)) ||
         negb (Member (rc_local_candidates (sf_context (sl_fixed s))) (vc_destination p)) then Some None else
      match Rx s (vc_source p) (vc_destination p) with
      | Some (_, cached) =>
          Some (if bool_decide (tr_hash cached = request_hash) then Some (push_outbound (tr_ack_bytes cached) (vc_source p) no_result) else None)
      | None => None
      end
  | V2KeyCommit =>
      if negb (cm_received (sl_commit s)) then None else
      Some (if negb (bool_decide (cm_hash (sl_commit s) = request_hash)) then None else
        if (length (cm_ack_bytes (sl_commit s)) =? 0)%nat then Some no_result
        else Some (push_outbound (cm_ack_bytes (sl_commit s)) (vc_source p) no_result))
  | V2MigrateChallenge =>
      if negb (length (mv_migration_ack_bytes (sl_moves s)) =? 0)%nat && bool_decide (mv_received_migration_hash (sl_moves s) = request_hash)
      then Some (Some (push_outbound (mv_migration_ack_bytes (sl_moves s)) (vc_source p) no_result)) else None
  | _ => None
  end.

(** The pending slot first, then the current one. *)
Definition select_slot (c : Impl) (hash : list Z) : option (Place * Slot) :=
  let current := q ← im_current c; if bool_decide (hash = sl_hash q) then Some (AtCurrent, q) else None in
  match im_pending c with
  | Some q => if bool_decide (hash = sl_hash q) then Some (AtPending, q) else current
  | None => current
  end.
(** The migration a packet answers, for [MigrateAck]; [None]: refused. *)
Definition answered_migration (w : Place) (s : Slot) (p : P2PV2ControlPacket) (sender : P2PCandidateEndpoint) (now : Z) : option (option Migration) :=
  match vc_type p with
  | V2MigrateAck =>
      match w, sl_migration s with
      | AtCurrent, Some m =>
          if (mg_deadline_ms m <=? now) || negb (bool_decide (sender = mg_peer m)) || negb (bool_decide (vc_destination p = sl_local s))
          then None else Some (Some m)
      | _, _ => None
      end
  | _ => Some None
  end.
(** A packet that is neither a duplicate nor a replay. *)
Definition handle_fresh (c : Impl) (w : Place) (s : Slot) (p : P2PV2ControlPacket) (m : option Migration) (bytes request_hash : list Z) (now : Z)
    (replay : P2PReplayWindow) : outcome :=
  match vc_type p, m with
  | V2Probe, _ => handle_probe c w s p bytes request_hash replay
  | V2ProbeAck, _ => handle_probe_ack c w s p now replay
  | V2KeyCommit, _ => handle_key_commit c w s p bytes request_hash now replay
  | V2KeyCommitAck, _ => handle_key_commit_ack c w s p now replay
  | V2MigrateChallenge, _ => handle_migrate_challenge c w s p bytes request_hash now replay
  | V2MigrateAck, Some m => handle_migrate_ack c w s m now replay
  | V2MigrateAck, None => rejected c
  end.

Definition Handle (c : Impl) (bytes : list Z) (sender : P2PCandidateEndpoint) (now : Z) : outcome :=
  match ParseP2PV2Control bytes with
  | None => rejected c
  | Some p =>
      match select_slot c (vc_offer_hash p) with
      | None => rejected c
      | Some (w, s) =>
          if negb (Alive s now) then rejected c else
          if negb (is_migration (vc_type p)) && negb (Setup s now) then rejected c else
          match answered_migration w s p sender now with
          | None => rejected c
          | Some m =>
              if negb (Authenticate s p sender (mg_hash <$> m)) then rejected c else
              match HashP2PV2Control p with
              | None => rejected c
              | Some request_hash =>
                  match handle_cached s p request_hash with
                  | Some answer => Some (c, answer)
                  | None =>
                      let '(fresh, replay) := V2_Replay (sl_replay s) (vc_sequence p) in
                      if negb fresh then rejected c else handle_fresh c w s p m bytes request_hash now replay
                  end
              end
          end
      end
  end.

Definition AcceptOffer (c : Impl) (encoded : string) (context : P2PV2RecipientContext) (exporter : P2PSessionExporter) (now generation : Z) :
    bool * Impl :=
  if 18446744073709551615 - 60000 <? now then (false, c) else
  match OpenP2PRelayOfferRecipientV2 encoded (rc_local_session_id context) (rc_local_peer_id context) exporter with
  | None => (false, c)
  | Some (offer, role, seed) =>
      match DeriveP2PV2KeyMaterial seed (default zero_hash (HashP2PRelayOfferV2 offer)), HashP2PRelayOfferV2 offer with
      | Some keys, Some hash =>
          let ri := ro_initiator_candidate_revision offer in
          let rr := ro_responder_candidate_revision offer in
          let local := rc_local_candidates context in
          let peer := rc_peer_candidates context in
          if negb (rc_local_candidate_revision context =? for_role role ri rr) || negb (rc_peer_candidate_revision context =? for_role role rr ri) ||
             negb (bool_decide (HashP2PV2CandidateSet (ro_initiator_session_id offer) (ro_responder_session_id offer) ri rr
               (for_role role local peer) (for_role role peer local) = Some (ro_candidate_set_hash offer))) then (false, c) else
          let slot := Slot_new (mkFixed offer hash keys role context now (now + 10000) (now + 60000) (now + 40000)) in
          if generation <? im_generation c then (false, c) else
          let c := if im_generation c <? generation
            then set_im_fallback_event false (set_im_cancelled zero_hash (set_im_generation generation (set_im_high_water 0 (Impl_Clear c))))
            else c in
          if match im_pending c with Some p => bool_decide (sl_hash p = hash) | None => false end then (true, c) else
          if (ro_key_generation offer <=? im_high_water c) || bool_decide (is_Some (im_pending c)) ||
             match im_current c with Some s => negb (Alive s now) || bool_decide (is_Some (sl_migration s)) | None => false end ||
             negb (bool_decide (ro_previous_offer_hash offer = match im_current c with Some s => sl_hash s | None => zero_hash end))
          then (false, c) else
          let c := set_im_pending (Some slot) (set_im_high_water (ro_key_generation offer) c) in
          (true, if negb (bool_decide (is_Some (im_current c))) && negb (im_relay_only c) then set_im_state P2PProbing c else c)
      | _, _ => (false, c)
      end
  end.

(** The request sent, when the method returns true. *)
Definition CreateProbe (c : Impl) (local peer : P2PCandidateEndpoint) (now generation : Z) : Impl * option (list Z) :=
  if negb (im_generation c =? generation) then (c, None) else
  match im_pending c with
  | None => (c, None)
  | Some s =>
      if negb (Setup s now) || (4000 <=? now -[64] sf_received_ms (sl_fixed s)) ||
         negb (Member (rc_local_candidates (sf_context (sl_fixed s))) local) ||
         negb (Member (rc_peer_candidates (sf_context (sl_fixed s))) peer) ||
         nm_nominated (sl_nomination s) && (negb (bool_decide (sl_local s = local)) || negb (bool_decide (sl_peer s = peer))) then (c, None) else
      match Tx s local peer with
      | Some (n, t) =>
          if tr_acked t || (2 <=? tr_sends t) || (now -[64] tr_first_ms t <? RetryMs) then (c, None) else
          let t' := mkTransaction (tr_request t) (tr_hash t) (tr_request_bytes t) (tr_ack_bytes t) (tr_first_ms t) (tr_sends t + 1) (tr_acked t) in
          (set_im_pending (Some (set_sl_tx (<[n := t']> (sl_tx s)) s)) c, Some (tr_request_bytes t))
      | None =>
          if (length (sl_tx s) =? 4)%nat then (c, None) else
          match MakeControl s V2Probe local peer zero_hash zero_hash zero_hash with
          | None => (c, None)
          | Some packet =>
              match FinishControl s packet None with
              | None => (c, None)
              | Some (s, packet, bytes) =>
                  match HashP2PV2Control packet with
                  | None => (set_im_pending (Some s) c, None)
                  | Some hash => (set_im_pending (Some (set_sl_tx (sl_tx s ++ [mkTransaction packet hash bytes [] now 1 false]) s)) c, Some bytes)
                  end
              end
          end
      end
  end.

Definition HandleControl (c : Impl) (packet : list Z) (sender : P2PCandidateEndpoint) (now generation : Z) : outcome :=
  if negb (im_generation c =? generation) then rejected c else Handle c packet sender now.

Definition SealData (c : Impl) (data : list Z) (now generation : Z) : Impl * option (list Z) :=
  if negb (im_generation c =? generation) then (c, None) else
  match im_current c with
  | None => (c, None)
  | Some s =>
      if negb (bool_decide (im_state c = P2PDirect)) || im_relay_only c then (c, None) else
      if negb (Alive s now) || (sl_next_sequence s =? MaxSequence) then (Impl_Fallback c, None) else
      match Slot_Seal s data with
      | Some (s, out) => (set_im_current (Some s) c, Some out)
      | None => (c, None)
      end
  end.

(** The plaintext delivered. *)
Definition OpenData (c : Impl) (packet : list Z) (sender : P2PCandidateEndpoint) (now generation : Z) : option (Impl * option (list Z)) :=
  if negb (im_generation c =? generation) then Some (c, None) else
  match ParseP2PV2DataPacketHeader packet with
  | None => Some (c, None)
  | Some header =>
      let ours o := match o with Some s => if bool_decide (sl_hash s = dh_offer_hash header) then Some s else None | None => None end in
      match ours (im_current c), ours (im_previous c), ours (im_pending c) with
      | Some s, _, _ =>
          if negb (Alive s now) || negb (bool_decide (sender = sl_peer s)) then Some (c, None) else
          match Slot_Open s packet (sl_replay s) with
          | None => Some (c, None)
          | Some (plaintext, replay) =>
              let c := set_im_current (Some (set_last_rx now (set_sl_replay replay s))) c in
              let c := if bool_decide (im_state c = P2PSuspect) && negb (bool_decide (is_Some (sl_migration s))) then set_im_state P2PDirect c else c in
              Some (c, Some plaintext)
          end
      | None, Some s, _ =>
          if negb (Alive s now) || negb (bool_decide (sender = sl_peer s)) || (ti_previous_ms (sl_times s) <=? now) then Some (c, None) else
          match Slot_Open s packet (sl_replay s) with
          | None => Some (c, None)
          | Some (plaintext, replay) => Some (set_im_previous (Some (set_sl_replay replay s)) c, Some plaintext)
          end
      | None, None, Some s =>
          if negb (Setup s now) || negb (bool_decide (sl_role s = Initiator)) || negb (cm_sent (sl_commit s)) || negb (Ready s) then Some (c, None) else
          if negb (Alive s now) || negb (bool_decide (sender = sl_peer s)) then Some (c, None) else
          match Slot_Open s packet (sl_replay s) with
          | None => Some (c, None)
          | Some (plaintext, replay) =>
              c ← Promote (set_im_pending (Some (set_last_rx now (set_sl_replay replay s))) c) now;
              Some (c, Some plaintext)
          end
      | None, None, None => Some (c, None)
      end
  end.

Definition HandleNewEndpointData (c : Impl) (packet : list Z) (sender : P2PCandidateEndpoint) (now generation : Z) :
    Impl * option P2PV2ControlResult :=
  if negb (im_generation c =? generation) then (c, None) else
  match im_current c with
  | None => (c, None)
  | Some s =>
      if negb (Alive s now) || negb (IsCanonicalP2PCandidate sender) || bool_decide (sender = sl_peer s) ||
         bool_decide (is_Some (sl_migration s)) || (2 <=? mv_migration_attempts (sl_moves s)) then (c, None) else
      match Slot_Open s packet (sl_replay s) with
      | None => (c, None)
      | Some _ =>
          if match im_pending c with Some q => commit_started q | None => false end
          then (Impl_Fallback c, Some (with_event EvFallback no_result)) else
          match MakeControl s V2MigrateChallenge (sl_local s) sender zero_hash zero_hash zero_hash with
          | None => (c, None)
          | Some challenge =>
              match FinishControl s challenge None with
              | None => (c, None)
              | Some (s, challenge, bytes) =>
                  match HashP2PV2Control challenge with
                  | None => (set_im_current (Some s) c, None)
                  | Some hash =>
                      let m := mkMigration sender hash bytes now
                        (Z.min (sf_key_ms (sl_fixed s)) (now +[64] lv_migration_grace_ms (im_liveness c))) 1 in
                      let had_pending := bool_decide (is_Some (im_pending c)) in
                      let c := set_im_current (Some s) c in
                      let c := if had_pending then CancelPending c else c in
                      let result := push_outbound bytes sender no_result in
                      let result := if had_pending then with_cancelled (im_cancelled c) result else result in
                      let s := if had_pending then renew_afresh s else s in
                      let v := sl_moves s in
                      let s := set_sl_moves (mkMoves (mv_migration_attempts v + 1) (mv_received_migrations v) (mv_received_migration_hash v)
                        (mv_migration_ack_bytes v)) (set_sl_migration (Some m) s) in
                      (set_im_state P2PSuspect (set_im_current (Some s) c), Some (Details s result))
                  end
              end
          end
      end
  end.

Record P2PV2TickResult := mkTickResult {
  tk_outbound : list P2PV2Outbound;
  tk_renew : bool;
  tk_activated : bool;
  tk_fallback : bool;
  tk_current_offer_hash : list Z;
  tk_cancelled_offer_hash : list Z;
}.
(** The expiry of the three slots. *)
Definition tick_expire (c : Impl) (now : Z) : Impl :=
  let c := match im_previous c with
    | Some s => if negb (Alive s now) || (ti_previous_ms (sl_times s) <=? now) then set_im_previous None c else c
    | None => c
    end in
  let c := match im_current c with
    | Some s => if negb (Alive s now) || (sl_next_sequence s =? MaxSequence) then Impl_Fallback c else c
    | None => c
    end in
  match im_pending c with
  | Some s =>
      if Setup s now then c else
      if commit_started s || negb (bool_decide (is_Some (im_current c))) then Impl_Fallback c else CancelPending c
  | None => c
  end.
Definition tick_commit (c : Impl) (now : Z) : Impl * list P2PV2Outbound :=
  match im_pending c with
  | Some s =>
      let k := sl_commit s in
      if cm_sent k && (cm_sends k <? 2) && (RetryMs <=? now -[64] cm_started_ms k) then
        (set_im_pending (Some (set_sl_commit (mkCommit (cm_sent k) (cm_received k) (cm_hash k) (cm_bytes k) (cm_ack_bytes k) (cm_started_ms k)
           (cm_sends k + 1)) s)) c, [mkOutbound (cm_bytes k) (sl_peer s)])
      else (c, [])
  | None => (c, [])
  end.
Definition tick_migration (s : Slot) (now : Z) : Slot * list P2PV2Outbound :=
  match sl_migration s with
  | Some m =>
      if (mg_sends m <? 2) && (RetryMs <=? now -[64] mg_started_ms m) then
        (set_sl_migration (Some (mkMigration (mg_peer m) (mg_hash m) (mg_bytes m) (mg_started_ms m) (mg_deadline_ms m) (mg_sends m + 1))) s,
         [mkOutbound (mg_bytes m) (mg_peer m)])
      else (s, [])
  | None => (s, [])
  end.
(** [None]: the heartbeat could not be sealed. *)
Definition tick_heartbeat (l : Liveness) (s : Slot) (now : Z) : option (Slot * list P2PV2Outbound) :=
  let last := ti_last_heartbeat_ms (sl_times s) in
  if (last =? 0) || (last <=? now) && (lv_heartbeat_ms l <=? now - last) then
    '(s, bytes) ← Slot_Seal s [0];
    Some (set_sl_times (mkTimes (ti_previous_ms (sl_times s)) (ti_last_rx_ms (sl_times s)) now) s, [mkOutbound bytes (sl_peer s)])
  else Some (s, []).
Definition retry_delays : list Z := [1000; 2000; 4000; 8000; 10000].
Definition tick_renew (c : Impl) (s : Slot) (now : Z) : bool :=
  let r := sl_renew s in
  negb (bool_decide (is_Some (im_pending c))) && negb (bool_decide (is_Some (sl_migration s))) &&
  ((sf_refresh_ms (sl_fixed s) <=? now) || (RefreshSequence <=? sl_next_sequence s) || im_needs_renew c || rn_renew_requested r) &&
  (negb (rn_renew_requested r) || (rn_last_renew_ms r <=? now) &&
    (default 0 (retry_delays !! Z.to_nat (Z.min (rn_renew_attempts r -[32] 1) 4)) <=? now - rn_last_renew_ms r)).
Definition tick_current (c : Impl) (now : Z) : Impl * list P2PV2Outbound * bool :=
  match im_current c with
  | None => (c, [], false)
  | Some s =>
      let last := ti_last_rx_ms (sl_times s) in
      if match sl_migration s with Some m => mg_deadline_ms m <=? now | None => false end then (Impl_Fallback c, [], false) else
      if (last <=? now) && (lv_failure_after_ms (im_liveness c) <=? now - last) then (Impl_Fallback c, [], false) else
      let c := if negb (bool_decide (is_Some (sl_migration s))) && (last <=? now) && (lv_suspect_after_ms (im_liveness c) <=? now - last)
        then set_im_state P2PSuspect c else c in
      let '(s, resent) := tick_migration s now in
      match tick_heartbeat (im_liveness c) s now with
      | None => (Impl_Fallback c, resent, false)
      | Some (s, beat) =>
          if tick_renew c s now then
            let r := mkRenew now (Z.min (rn_renew_attempts (sl_renew s) + 1) 5) true in
            (set_im_needs_renew false (set_im_current (Some (set_sl_renew r s)) c), resent ++ beat, true)
          else (set_im_current (Some s) c, resent ++ beat, false)
      end
  end.
Definition Tick (c : Impl) (now generation : Z) : Impl * P2PV2TickResult :=
  if negb (im_generation c =? generation) then (c, mkTickResult [] false false false zero_hash zero_hash) else
  let c := tick_expire c now in
  let '(c, committed) := tick_commit c now in
  let current_offer_hash := match im_current c with Some s => sl_hash s | None => zero_hash end in
  let '(c, sent, renew) := tick_current c now in
  let result := mkTickResult (if im_fallback_event c then [] else committed ++ sent) (if im_fallback_event c then false else renew)
    (im_activation_event c) (im_fallback_event c) current_offer_hash (im_cancelled c) in
  (set_im_cancelled zero_hash (set_im_fallback_event false (set_im_activation_event false c)), result).

Definition RequestRenew_in (c : Impl) (generation : Z) : Impl :=
  if negb (im_generation c =? generation) then c else
  let c := match im_pending c with Some p => set_im_pending None (set_im_cancelled (sl_hash p) c) | None => c end in
  let c := set_im_needs_renew true (set_im_current (renew_afresh <$> im_current c) c) in
  if bool_decide (is_Some (im_current c)) then c else set_im_state P2PRelay c.
Definition RequestRenew (c : Impl) : Impl := set_im_current (renew_afresh <$> im_current c) (set_im_needs_renew true c).
Definition Channel_Reset (c : Impl) (generation : Z) : Impl :=
  if generation <? im_generation c then c else
  set_im_generation generation (set_im_high_water 0 (set_im_cancelled zero_hash (set_im_fallback_event false (Impl_Clear c)))).
Definition SetRelayOnly (c : Impl) (enabled : bool) : Impl :=
  let c := set_im_relay_only enabled c in
  if enabled then set_im_state P2PRelay c else
  if negb (bool_decide (is_Some (im_current c))) && bool_decide (is_Some (im_pending c)) then set_im_state P2PProbing c else c.
Definition clamp (x low high : Z) : Z := if x <? low then low else if high <? x then high else x.
Definition ConfigureLiveness (c : Impl) (interval misses suspect migration : Z) : Impl :=
  let heartbeat := clamp interval 500 5000 in
  let suspect_after := heartbeat * clamp misses 1 10 in
  set_im_liveness (mkLiveness heartbeat suspect_after (suspect_after + clamp suspect 500 10000) (clamp migration 1 5000)) c.
Definition AdvanceTxSequenceForTesting (c : Impl) (next : Z) : bool * Impl :=
  match im_current c with
  | Some s => if next <? sl_next_sequence s then (false, c) else (true, set_im_current (Some (set_sl_next_sequence next s)) c)
  | None => (false, c)
  end.

(** ** Runs *)
Inductive ChannelCall :=
  | CallAcceptOffer (encoded : string) (context : P2PV2RecipientContext) (exporter : P2PSessionExporter) (now generation : Z)
  | CallCreateProbe (local peer : P2PCandidateEndpoint) (now generation : Z)
  | CallHandleControl (packet : list Z) (sender : P2PCandidateEndpoint) (now generation : Z)
  | CallSealData (data : list Z) (now generation : Z)
  | CallOpenData (packet : list Z) (sender : P2PCandidateEndpoint) (now generation : Z)
  | CallNewEndpointData (packet : list Z) (sender : P2PCandidateEndpoint) (now generation : Z)
  | CallTick (now generation : Z)
  | CallRequestRenewIn (generation : Z)
  | CallRequestRenew
  | CallSetRelayOnly (enabled : bool)
  | CallReset (generation : Z)
  | CallConfigureLiveness (interval misses suspect migration : Z)
  | CallAdvanceTxSequence (next : Z).
(** What a call shows: the datagrams it hands out for sending, and the datagram whose payload it delivers. *)
Record ChannelOutput := mkOutput { out_sent : list (list Z); out_delivered : option (list Z) }.

Definition result_sent (r : option P2PV2ControlResult) : list (list Z) :=
  match r with Some r => ou_datagram <$> cr_outbound r | None => [] end.
Definition channel_step (c : Impl) (call : ChannelCall) : option (Impl * ChannelOutput) :=
  match call with
  | CallAcceptOffer encoded context exporter now g => Some ((AcceptOffer c encoded context exporter now g).2, mkOutput [] None)
  | CallCreateProbe local peer now g =>
      let '(c, out) := CreateProbe c local peer now g in Some (c, mkOutput (option_list out) None)
  | CallHandleControl packet sender now g =>
      '(c, r) ← HandleControl c packet sender now g; Some (c, mkOutput (result_sent r) None)
  | CallSealData data now g => let '(c, out) := SealData c data now g in Some (c, mkOutput (option_list out) None)
  | CallOpenData packet sender now g =>
      '(c, r) ← OpenData c packet sender now g; Some (c, mkOutput [] (if bool_decide (is_Some r) then Some packet else None))
  | CallNewEndpointData packet sender now g =>
      let '(c, r) := HandleNewEndpointData c packet sender now g in Some (c, mkOutput (result_sent r) None)
  | CallTick now g => let '(c, r) := Tick c now g in Some (c, mkOutput (ou_datagram <$> tk_outbound r) None)
  | CallRequestRenewIn g => Some (RequestRenew_in c g, mkOutput [] None)
  | CallRequestRenew => Some (RequestRenew c, mkOutput [] None)
  | CallSetRelayOnly b => Some (SetRelayOnly c b, mkOutput [] None)
  | CallReset g => Some (Channel_Reset c g, mkOutput [] None)
  | CallConfigureLiveness a b d e => Some (ConfigureLiveness c a b d e, mkOutput [] None)
  | CallAdvanceTxSequence n => Some ((AdvanceTxSequenceForTesting c n).2, mkOutput [] None)
  end.
End channel.
