(* ===== verification/P2PV2Run.v ===== *)
(** * Runs of the version 2 channel

    What holds of [P2PV2Channel] over every sequence of calls within one registration: a sequence number
    is used for one packet only, and the payload of a sequence number is delivered once. *)
From S2P Require Import Prelude P2PControl P2PReplay P2PState P2PV2Codec P2POffer P2PV2Channel.
Local Open Scope Z_scope.

(** ** Sequence numbers taken once *)
(** The window remembers the set of all numbers it accepted, as far as they matter. *)
Definition v2_seen (w : P2PReplayWindow) (seen : gset Z) : Prop :=
  (w = Replay_Reset ∧ seen = ∅) ∨
  ∃ sp, replay_rel w (Some sp) ∧ is_uint 32 (sp_base sp) ∧ (∀ x, x ∈ seen → x ≤ sp_base sp) ∧
    ∀ x, sp_base sp - REPLAY_WINDOW_SIZE < x → x ∈ seen ↔ x ∈ sp_seen sp.

Lemma extend_near base q : is_uint 32 base → is_uint 32 q → - REPLAY_WINDOW_SIZE < q - base < REPLAY_WINDOW_SIZE → extend base q = q.
Proof.
  unfold REPLAY_WINDOW_SIZE. intros Hb Hq Hn. unfold extend, SequenceHalfRange. destruct (Z.lt_trichotomy q base) as [Hlt|[->|Hgt]].
  - assert ((q - base) mod 2 ^ 32 = q - base + 2 ^ 32) as -> by (symmetry; apply (Z.mod_unique _ _ (-1)); uint_lia).
    rewrite (Z.mod_small (base - q)) by uint_lia. rewrite (proj2 (Z.ltb_ge _ _)) by uint_lia. rewrite andb_false_r. lia.
  - rewrite Z.sub_diag, Z.mod_0_l by done. cbn. lia.
  - rewrite (Z.mod_small (q - base)) by uint_lia. rewrite (proj2 (Z.eqb_neq _ _)), (proj2 (Z.ltb_lt _ _)) by uint_lia. cbn. lia.
Qed.

Lemma v2_replay_first q : is_uint 32 q → v2_seen (Replay_Accept Replay_Reset q).2 {[q]}.
Proof.
  intros Hq. destruct (replay_step Replay_Reset None q eq_refl Hq) as (_ & Hr & _). cbn [spec_accept snd] in Hr. right.
  exists (mkSpec q {[q]}). split_and!; [done|done|set_solver|done].
Qed.
Lemma v2_replay_step w seen q w' :
  v2_seen w seen → is_uint 32 q → V2_Replay w q = (true, w') → (q ∉ seen) ∧ v2_seen w' ({[q]} ∪ seen).
Proof.
  intros Hw Hq. unfold V2_Replay. case_if as E0; [done|]. destruct Hw as [[-> ->]|(sp & Hr & Hb & Hle & Hs)].
  { cbn [rw_initialized Replay_Reset andb]. intros E. assert (w' = (Replay_Accept Replay_Reset q).2) as -> by (by rewrite E).
    split; [set_solver|]. rewrite right_id_L by apply _. by apply v2_replay_first. }
  pose proof Hr as (Hi & Hbase & _). rewrite Hi, Hbase, base_mod, Z.mod_small by done. cbn [andb]. cbv zeta.
  case_if as E1; [done|]. destruct ((sp_base sp <? q) && (REPLAY_WINDOW_SIZE <=? q - sp_base sp)) eqn:E2.
  - intros E. assert (w' = (Replay_Accept Replay_Reset q).2) as -> by (by rewrite E). unfold REPLAY_WINDOW_SIZE in *. clear E0 E1. bool_props.
    split; [intros Hx; specialize (Hle _ Hx); lia|]. destruct (v2_replay_first q Hq) as [[_ Hx]|(sp' & Hr' & Hb' & Hle' & Hs')].
    { exfalso. assert (q ∈ ({[q]} : gset Z)) by set_solver. rewrite Hx in *. set_solver. }
    assert (sp_base sp' = q) as Eb.
    { destruct (replay_step Replay_Reset None q eq_refl Hq) as (_ & (_ & E3 & _) & _). destruct Hr' as (_ & E4 & _). rewrite E4 in E3.
      cbn [sp_base] in E3. rewrite !Z.mod_small in E3 by uint_lia. done. }
    right. exists sp'. split_and!; [done|done| |].
    + intros x [->%elem_of_singleton|Hx]%elem_of_union; [lia|]. specialize (Hle _ Hx). lia.
    + intros x Hx. rewrite <- (Hs' x Hx), elem_of_union. split; [|by left]. intros [?|Hin]; [done|]. specialize (Hle _ Hin). unfold REPLAY_WINDOW_SIZE in *. lia.
  - assert (- REPLAY_WINDOW_SIZE < q - sp_base sp < REPLAY_WINDOW_SIZE) as Hn.
    { unfold REPLAY_WINDOW_SIZE in *. apply andb_false_iff in E1, E2. destruct E1, E2; bool_props; lia. }
    destruct (replay_step w (Some sp) q Hr Hq) as (Hv & Hr' & _). intros E. rewrite E in Hv, Hr'. cbn [fst snd] in Hv, Hr'.
    revert Hv Hr'. unfold spec_accept. rewrite extend_near by done. case_decide as Hin; [done|]. case_if as Eo; [done|]. intros _.
    cbn [snd]. intros Hr'. unfold REPLAY_WINDOW_SIZE in *. clear E0 E1 E2. bool_props. split; [by rewrite Hs by lia|]. right. eexists. split; [exact Hr'|].
    cbn [sp_base sp_seen]. split_and!; [uint_lia| |].
    + intros x [->%elem_of_singleton|Hx]%elem_of_union; [lia|]. specialize (Hle _ Hx). lia.
    + intros x Hx. unfold REPLAY_WINDOW_SIZE in *. rewrite !elem_of_union, Hs by lia. done.
Qed.

(** ** The identity of a packet *)
(** The offer hash and the sequence number, where the receivers read them. *)
Definition packet_id (b : list Z) : list Z * Z := (sub b 4 32, if byte_at b 1 =? 5 then get32 (drop 56 b) else get32 (drop 93 b)).

Lemma control_packet_id p bytes :
  length (vc_offer_hash p) = 32%nat → length (vc_connection_epoch p) = 16%nat → candidate_typed (vc_source p) →
  candidate_typed (vc_destination p) → is_uint 32 (vc_sequence p) → SerializeP2PV2Control p = Some bytes →
  packet_id bytes = (vc_offer_hash p, vc_sequence p).
Proof.
  intros H1 H2 H3 H4 Hq. unfold SerializeP2PV2Control. case_if as E; [done|]. intros <-%(inj Some).
  pose proof (length_write_candidate _ H3) as Hw1. pose proof (length_write_candidate _ H4) as Hw2. unfold packet_id. seg.
  replace (byte_at [v2_type_byte (vc_type p)] 0 =? 5) with false by (by destruct (vc_type p)).
  rewrite ?H1, ?H2, ?Hw1, ?Hw2. cbn [Nat.sub]. rewrite ?drop_0, sub_here by done. by rewrite get32_be_bytes.
Qed.
Lemma data_packet_id h r :
  length (dh_offer_hash h) = 32%nat → length (dh_connection_epoch h) = 16%nat → is_uint 32 (dh_sequence h) →
  packet_id (V2_SerializeHeader h ++ r) = (dh_offer_hash h, dh_sequence h).
Proof.
  intros H1 H2 Hq. unfold V2_SerializeHeader, packet_id. rewrite <- !(assoc_L (++)). seg. rewrite ?H1, ?H2. cbn [Nat.sub].
  rewrite ?drop_0, sub_here by done. cbn [byte_at]. rewrite get32_be_bytes by done. done.
Qed.
Lemma parsed_packet_id d h : ParseP2PV2DataPacketHeader d = Some h → packet_id d = (dh_offer_hash h, dh_sequence h).
Proof.
  unfold ParseP2PV2DataPacketHeader. case_if as E1; [done|]. cbv zeta. case_if as E2; [done|]. intros <-%(inj Some).
  rewrite !orb_false_iff, !negb_false_iff in E1. destruct E1 as [[[[[_ _] E] _] _] _]. unfold packet_id. by rewrite E.
Qed.

(** ** The invariant of a slot *)
(** Against the packets made so far and the (offer hash, sequence) pairs delivered so far. *)
Record slot_inv (made : list (list Z)) (taken : list (list Z * Z)) (s : Slot) : Prop := {
  si_hash : length (sl_hash s) = 32%nat;
  si_epoch : length (ro_connection_epoch (sl_offer s)) = 16%nat;
  si_local : candidate_typed (sl_local s);
  si_peer : candidate_typed (sl_peer s);
  si_next : 0 ≤ sl_next_sequence s ≤ MaxSequence;
  si_tx : Forall (λ t, tr_request_bytes t ∈ made) (sl_tx s);
  si_rx : Forall (λ t, tr_ack_bytes t ∈ made) (sl_rx s);
  si_commit : cm_sent (sl_commit s) = true → sl_role s = Initiator ∧ cm_bytes (sl_commit s) ∈ made;
  si_commit_ack : cm_ack_bytes (sl_commit s) = [] ∨ cm_ack_bytes (sl_commit s) ∈ made;
  si_migration : ∀ m, sl_migration s = Some m → candidate_typed (mg_peer m) ∧ mg_bytes m ∈ made;
  si_moves : mv_migration_ack_bytes (sl_moves s) = [] ∨ mv_migration_ack_bytes (sl_moves s) ∈ made;
  si_seq : ∀ b, b ∈ made → (packet_id b).1 = sl_hash s → (packet_id b).2 < sl_next_sequence s;
  si_replay : ∃ seen, v2_seen (sl_replay s) seen ∧ ∀ q, (sl_hash s, q) ∈ taken → q ∈ seen;
}.
(** What other slots make and take does not matter. *)
Lemma slot_inv_grow made taken s b :
  slot_inv made taken s → (packet_id b).1 ≠ sl_hash s → slot_inv (b :: made) taken s.
Proof.
  intros [H1 H2 H3 H4 H5 H6 H7 H8 H9 H10 H11 H12 H13] Hb. constructor; try done.
  - eapply Forall_impl; [exact H6|]. intros t Ht. by right.
  - eapply Forall_impl; [exact H7|]. intros t Ht. by right.
  - intros E. destruct (H8 E). split; [done|by right].
  - destruct H9; [by left|right; by right].
  - intros m Hm. destruct (H10 m Hm). split; [done|by right].
  - destruct H11; [by left|right; by right].
  - intros b' [->|Hb']%elem_of_cons Hh; [done|by apply H12].
Qed.
Lemma slot_inv_take made taken s h q : slot_inv made taken s → h ≠ sl_hash s → slot_inv made ((h, q) :: taken) s.
Proof.
  intros [H1 H2 H3 H4 H5 H6 H7 H8 H9 H10 H11 H12 (seen & Hs & Ht)] Hh. constructor; try done. exists seen. split; [done|].
  intros q' [E|Hq]%elem_of_cons; [by simplify_eq|by apply Ht].
Qed.
Lemma slot_inv_new made taken f :
  length (sf_hash f) = 32%nat → length (ro_connection_epoch (sf_offer f)) = 16%nat →
  (∀ b, b ∈ made → (packet_id b).1 ≠ sf_hash f) → (∀ q, (sf_hash f, q) ∉ taken) → slot_inv made taken (Slot_new f).
Proof.
  intros Hh He Hm Ht. assert (candidate_typed no_candidate) as Hc by (split_and!; unfold byte_array; decide_true).
  constructor; cbn; try done; try by left.
  - intros b Hb E. by destruct (Hm b Hb).
  - exists ∅. split; [by left|]. intros q Hq. by destruct (Ht q).
Qed.

(** *** Updates *)
Ltac slot_update H := destruct H; constructor; try done.
Lemma slot_inv_times made taken s v : slot_inv made taken s → slot_inv made taken (set_sl_times v s).
Proof. intros H. slot_update H. Qed.
Lemma slot_inv_renew made taken s v : slot_inv made taken s → slot_inv made taken (set_sl_renew v s).
Proof. intros H. slot_update H. Qed.
Lemma slot_inv_last_rx made taken s now : slot_inv made taken s → slot_inv made taken (set_last_rx now s).
Proof. apply slot_inv_times. Qed.
Lemma slot_inv_nomination made taken s b l p :
  slot_inv made taken s → candidate_typed l → candidate_typed p → slot_inv made taken (set_sl_nomination (mkNomination b l p) s).
Proof. intros H Hl Hp. slot_update H. Qed.
Lemma slot_inv_tx made taken s l :
  slot_inv made taken s → Forall (λ t, tr_request_bytes t ∈ made) l → slot_inv made taken (set_sl_tx l s).
Proof. intros H Hl. slot_update H. Qed.
Lemma slot_inv_rx made taken s l : slot_inv made taken s → Forall (λ t, tr_ack_bytes t ∈ made) l → slot_inv made taken (set_sl_rx l s).
Proof. intros H Hl. slot_update H. Qed.
Lemma slot_inv_migration made taken s o :
  slot_inv made taken s → (∀ m, o = Some m → candidate_typed (mg_peer m) ∧ mg_bytes m ∈ made) → slot_inv made taken (set_sl_migration o s).
Proof. intros H Ho. slot_update H. Qed.
Lemma slot_inv_moves made taken s v :
  slot_inv made taken s → mv_migration_ack_bytes v = [] ∨ mv_migration_ack_bytes v ∈ made → slot_inv made taken (set_sl_moves v s).
Proof. intros H Ho. slot_update H. Qed.
Lemma slot_inv_commit made taken s v :
  slot_inv made taken s → (cm_sent v = true → sl_role s = Initiator ∧ cm_bytes v ∈ made) →
  cm_ack_bytes v = [] ∨ cm_ack_bytes v ∈ made → slot_inv made taken (set_sl_commit v s).
Proof. intros H H1 H2. slot_update H. Qed.
Lemma slot_inv_advance made taken s n : slot_inv made taken s → sl_next_sequence s ≤ n ≤ MaxSequence → slot_inv made taken (set_sl_next_sequence n s).
Proof.
  intros H Hn. slot_update H; cbn [set_sl_next_sequence sl_next_sequence]; [lia|]. intros b Hb E. specialize (si_seq0 b Hb E). lia.
Qed.
Lemma slot_inv_replay made taken s q r :
  slot_inv made taken s → is_uint 32 q → V2_Replay (sl_replay s) q = (true, r) → slot_inv made taken (set_sl_replay r s).
Proof.
  intros H Hq Hr. slot_update H. destruct si_replay0 as (seen & Hs & Ht). destruct (v2_replay_step _ _ _ _ Hs Hq Hr) as [_ Hs'].
  exists ({[q]} ∪ seen). split; [done|]. intros q' Hq'. apply elem_of_union_r, Ht, Hq'.
Qed.
(** Taking a sequence number for delivery. *)
Lemma slot_inv_deliver made taken s q r :
  slot_inv made taken s → is_uint 32 q → V2_Replay (sl_replay s) q = (true, r) →
  ((sl_hash s, q) ∉ taken) ∧ slot_inv made ((sl_hash s, q) :: taken) (set_sl_replay r s).
Proof.
  intros H Hq Hr. destruct (si_replay _ _ _ H) as (seen & Hs & Ht). destruct (v2_replay_step _ _ _ _ Hs Hq Hr) as [Hn Hs'].
  split; [intros Hx; by apply Hn, Ht|]. slot_update H. exists ({[q]} ∪ seen). split; [done|].
  intros q' [E|Hx]%elem_of_cons; [|by apply elem_of_union_r, Ht]. injection E as ->. by apply elem_of_union_l, elem_of_singleton.
Qed.
Lemma tx_acks (made : list (list Z)) l n t t' :
  Forall (λ t, tr_request_bytes t ∈ made) l → l !! n = Some t → tr_request_bytes t' = tr_request_bytes t →
  Forall (λ t, tr_request_bytes t ∈ made) (<[n := t']> l).
Proof. intros Hl Hn E. apply Forall_insert; [done|]. cbn. rewrite E. by apply (Forall_lookup_1 _ _ _ _ Hl Hn). Qed.
Lemma find_lookup l a b n t : find_transaction l a b = Some (n, t) → l !! n = Some t.
Proof. unfold find_transaction. by intros (H & _)%list_find_Some. Qed.

(** *** Making packets *)
(** A packet with the next sequence number, and the slot afterwards. *)
Definition makes (s s' : Slot) (b : list Z) : Prop := packet_id b = (sl_hash s, sl_next_sequence s) ∧ sl_fixed s' = sl_fixed s.
Lemma slot_inv_made made taken s b :
  slot_inv made taken s → packet_id b = (sl_hash s, sl_next_sequence s) → sl_next_sequence s ≠ MaxSequence →
  slot_inv (b :: made) taken (set_sl_next_sequence (sl_next_sequence s + 1) s).
Proof.
  intros [H1 H2 H3 H4 H5 H6 H7 H8 H9 H10 H11 H12 H13] Hb Hn. constructor; try done.
  - cbn. lia.
  - eapply Forall_impl; [exact H6|]. intros t Ht. by right.
  - eapply Forall_impl; [exact H7|]. intros t Ht. by right.
  - intros E. destruct (H8 E). split; [done|by right].
  - destruct H9; [by left|right; by right].
  - intros m Hm. destruct (H10 m Hm). split; [done|by right].
  - destruct H11; [by left|right; by right].
  - cbn [set_sl_next_sequence sl_next_sequence]. intros b' [->|Hb']%elem_of_cons Hh; [rewrite Hb; cbn; lia|]. specialize (H12 b' Hb' Hh). lia.
Qed.

Section production.
Context `{P2PCrypto}.

Lemma finish_makes made taken s type l p h1 h2 h3 packet binding s' packet' b :
  slot_inv made taken s → candidate_typed l → candidate_typed p → MakeControl s type l p h1 h2 h3 = Some packet →
  FinishControl s packet binding = Some (s', packet', b) →
  makes s s' b ∧ s' = set_sl_next_sequence (sl_next_sequence s + 1) s ∧ slot_inv (b :: made) taken s'.
Proof.
  intros Hs Hl Hp. unfold MakeControl. case_if as En; [done|]. apply Z.eqb_neq in En. intros <-%(inj Some). unfold FinishControl, SignP2PV2Control.
  intros (q & (token & _ & <-%(inj Some))%bind_Some & (bytes & Hb & E)%bind_Some)%bind_Some. simplify_eq.
  assert (packet_id b = (sl_hash s, sl_next_sequence s)) as Hid.
  { pose proof (si_next _ _ _ Hs) as Hx. unfold MaxSequence in *. refine (control_packet_id _ _ _ _ _ _ _ Hb); cbn; [apply Hs|apply Hs|done|done|uint_lia]. }
  split; [done|]. split; [done|]. by apply slot_inv_made.
Qed.
Lemma seal_makes made taken s data s' b :
  slot_inv made taken s → Slot_Seal s data = Some (s', b) →
  makes s s' b ∧ s' = set_sl_next_sequence (sl_next_sequence s + 1) s ∧ slot_inv (b :: made) taken s'.
Proof.
  intros Hs. unfold Slot_Seal. case_if as En; [done|]. apply Z.eqb_neq in En. cbv zeta. intros (out & Ho & E)%bind_Some. simplify_eq.
  assert (packet_id b = (sl_hash s, sl_next_sequence s)) as Hid.
  { pose proof (si_next _ _ _ Hs) as Hx. unfold MaxSequence in *. revert Ho. unfold SealP2PV2DataDatagram. case_if as E1; [done|]. cbv zeta. case_if as E2; [done|].
    intros ([c t] & _ & Hd)%bind_Some. revert Hd. case_if as E3; [|done]. intros <-%(inj Some). apply data_packet_id; cbn; [apply Hs|apply Hs|uint_lia]. }
  split; [done|]. split; [done|]. by apply slot_inv_made.
Qed.
Lemma open_takes made taken s d out replay :
  slot_inv made taken s → bytes_ok d → Slot_Open s d (sl_replay s) = Some (out, replay) →
  ∃ q, packet_id d = (sl_hash s, q) ∧ is_uint 32 q ∧ V2_Replay (sl_replay s) q = (true, replay).
Proof.
  intros Hs Hd. unfold Slot_Open. intros (h & Hh & Ho)%bind_Some. revert Ho. case_if as E1; [done|]. rewrite !orb_false_iff, !negb_false_iff in E1.
  destruct E1 as [[[E1 _] _] _]. apply bool_decide_eq_true_1 in E1. destruct (V2_Replay (sl_replay s) (dh_sequence h)) as [[] w] eqn:Er; [|done]. cbn [negb].
  cbv zeta. intros (x & _ & E)%bind_Some. simplify_eq. exists (dh_sequence h). rewrite (parsed_packet_id _ _ Hh), E1. split_and!; try done.
  by apply (ht_sequence _ (proj1 (proj2 (data_header_serialize d h Hd Hh)))).
Qed.
End production.

(** ** The invariant of the channel *)
Definition slots (c : Impl) : list (option Slot) := [im_previous c; im_current c; im_pending c].
Definition sl_generation (s : Slot) : Z := ro_key_generation (sl_offer s).
(** One key generation for each offer hash. *)
Definition consistent (offers : list (list Z * Z)) : Prop := ∀ h g g', (h, g) ∈ offers → (h, g') ∈ offers → g = g'.

Record chan_inv (offers : list (list Z * Z)) (made : list (list Z)) (taken : list (list Z * Z)) (l : list (option Slot)) (high_water : Z) : Prop := {
  ci_slot : ∀ i s, l !! i = Some (Some s) → slot_inv made taken s ∧ (sl_hash s, sl_generation s) ∈ offers;
  ci_order : ∀ i j a b, (i < j)%nat → l !! i = Some (Some a) → l !! j = Some (Some b) → sl_generation a < sl_generation b;
  ci_high : ∀ h g, (h, g) ∈ offers → g ≤ high_water;
  ci_made : ∀ b, b ∈ made → ∃ g, ((packet_id b).1, g) ∈ offers;
  ci_taken : ∀ h q, (h, q) ∈ taken → ∃ g, (h, g) ∈ offers;
  ci_one : ∀ b b', b ∈ made → b' ∈ made → packet_id b = packet_id b' → b = b';
  ci_once : NoDup taken;
}.

(** Slots may go, move to an earlier place, and change in what the invariant does not name. *)
Lemma chan_inv_update k offers made taken l l' hw :
  chan_inv offers made taken l hw →
  (∀ i s', l' !! i = Some (Some s') → ∃ s, l !! (k + i)%nat = Some (Some s) ∧ sl_fixed s' = sl_fixed s ∧ slot_inv made taken s') →
  chan_inv offers made taken l' hw.
Proof.
  intros [H1 H2 H3 H4 H5 H6 H7] Hl. constructor; try done.
  - intros i s' Hi. destruct (Hl i s' Hi) as (s & Hs & E & Hok). split; [done|]. unfold sl_generation, sl_hash, sl_offer. rewrite E. by apply (H1 (k + i)%nat s).
  - intros i j a b Hij Ha Hb. destruct (Hl i a Ha) as (a' & Ha' & Ea & _), (Hl j b Hb) as (b' & Hb' & Eb & _).
    unfold sl_generation, sl_offer. rewrite Ea, Eb. eapply H2; [|done..]. lia.
Qed.
Lemma other_hash offers made taken l hw i j s s' :
  consistent offers → chan_inv offers made taken l hw → i ≠ j → l !! i = Some (Some s) → l !! j = Some (Some s') → sl_hash s ≠ sl_hash s'.
Proof.
  intros Hc H Hij Hi Hj E. destruct (ci_slot _ _ _ _ _ H _ _ Hi) as [_ Hgi], (ci_slot _ _ _ _ _ H _ _ Hj) as [_ Hgj]. rewrite E in Hgi.
  pose proof (Hc _ _ _ Hgi Hgj). destruct (Nat.lt_total i j) as [Hlt|[?|Hlt]]; [|done|].
  - pose proof (ci_order _ _ _ _ _ H _ _ _ _ Hlt Hi Hj). lia.
  - pose proof (ci_order _ _ _ _ _ H _ _ _ _ Hlt Hj Hi). lia.
Qed.
(** A slot is replaced by one for the same offer. *)
Lemma replaced (l : list (option Slot)) i s s' j x :
  l !! i = Some (Some s) → <[i := Some s']> l !! j = Some (Some x) → (j = i ∧ x = s') ∨ (i ≠ j ∧ l !! j = Some (Some x)).
Proof.
  intros Hi. destruct (decide (i = j)) as [<-|Hne].
  - rewrite list_lookup_insert_eq by (by eapply lookup_lt_Some). intros E. simplify_eq. by left.
  - rewrite list_lookup_insert_ne by done. by right.
Qed.
Lemma replaced_order (l : list (option Slot)) i s s' :
  l !! i = Some (Some s) → sl_fixed s' = sl_fixed s →
  (∀ i j a b, (i < j)%nat → l !! i = Some (Some a) → l !! j = Some (Some b) → sl_generation a < sl_generation b) →
  ∀ j k a b, (j < k)%nat → <[i := Some s']> l !! j = Some (Some a) → <[i := Some s']> l !! k = Some (Some b) → sl_generation a < sl_generation b.
Proof.
  intros Hi Ef Ho j k a b Hjk Ha Hb.
  assert (∀ j x, <[i := Some s']> l !! j = Some (Some x) → ∃ y, l !! j = Some (Some y) ∧ sl_generation x = sl_generation y) as Hl.
  { intros n x [[-> ->]|[_ Hx]]%(replaced l i s s' n x Hi); [|by exists x]. exists s. split; [done|]. unfold sl_generation, sl_offer. by rewrite Ef. }
  destruct (Hl _ _ Ha) as (a' & Ha' & ->), (Hl _ _ Hb) as (b' & Hb' & ->). by apply (Ho j k).
Qed.
(** It makes a packet. *)
Lemma chan_inv_make offers made taken l hw i s s' b :
  consistent offers → chan_inv offers made taken l hw → l !! i = Some (Some s) → makes s s' b → slot_inv (b :: made) taken s' →
  chan_inv offers (b :: made) taken (<[i := Some s']> l) hw.
Proof.
  intros Hc H Hi [Hb Ef] Hs'. pose proof H as [H1 H2 H3 H4 H5 H6 H7]. pose proof (H1 _ _ Hi) as [Hs Hg]. constructor; try done.
  - intros j x [[-> ->]|[Hne Hx]]%(replaced l i s s' j x Hi).
    + split; [done|]. unfold sl_generation, sl_hash, sl_offer. by rewrite Ef.
    + destruct (H1 _ _ Hx). split; [|done]. apply slot_inv_grow; [done|]. rewrite Hb. by apply (other_hash _ _ _ _ _ i j s x Hc H).
  - by apply (replaced_order l i s).
  - intros b' [->|Hb']%elem_of_cons; [rewrite Hb; by eexists|by apply H4].
  - assert (∀ b', b' ∈ made → packet_id b' ≠ packet_id b) as Hnew.
    { intros b' Hb' E. pose proof (si_seq _ _ _ Hs b' Hb') as Hlt. rewrite E, Hb in Hlt. cbn in Hlt. specialize (Hlt eq_refl). lia. }
    intros b1 b2 [->|E1]%elem_of_cons [->|E2]%elem_of_cons E; [done|by destruct (Hnew b2)|by destruct (Hnew b1)|by apply H6].
Qed.
(** It delivers a payload. *)
Lemma chan_inv_deliver offers made taken l hw i s s' q :
  consistent offers → chan_inv offers made taken l hw → l !! i = Some (Some s) → sl_fixed s' = sl_fixed s → (sl_hash s, q) ∉ taken →
  slot_inv made ((sl_hash s, q) :: taken) s' → chan_inv offers made ((sl_hash s, q) :: taken) (<[i := Some s']> l) hw.
Proof.
  intros Hc H Hi Ef Hq Hs'. pose proof H as [H1 H2 H3 H4 H5 H6 H7]. pose proof (H1 _ _ Hi) as [Hs Hg]. constructor; try done.
  - intros j x [[-> ->]|[Hne Hx]]%(replaced l i s s' j x Hi).
    + split; [done|]. unfold sl_generation, sl_hash, sl_offer. by rewrite Ef.
    + destruct (H1 _ _ Hx). split; [|done]. apply slot_inv_take; [done|]. by apply (other_hash _ _ _ _ _ i j s x Hc H).
  - by apply (replaced_order l i s).
  - intros h q' [E|Hx]%elem_of_cons; [|by eapply H5]. injection E as -> ->. by eexists.
  - by constructor.
Qed.
(** It changes in what the invariant does not name. *)
Lemma chan_inv_put offers made taken l hw i s s' :
  chan_inv offers made taken l hw → l !! i = Some (Some s) → sl_fixed s' = sl_fixed s → slot_inv made taken s' →
  chan_inv offers made taken (<[i := Some s']> l) hw.
Proof.
  intros H Hi Ef Hs'. apply (chan_inv_update 0 _ _ _ l); [done|]. intros j x [[-> ->]|[Hne Hx]]%(replaced l i s s' j x Hi); [by exists s|].
  exists x. split_and!; [done|done|]. by apply (ci_slot _ _ _ _ _ H j).
Qed.
(** A new offer. *)
Lemma chan_inv_accept offers made taken p c hw f :
  consistent ((sf_hash f, ro_key_generation (sf_offer f)) :: offers) → chan_inv offers made taken [p; c; None] hw →
  hw < ro_key_generation (sf_offer f) → length (sf_hash f) = 32%nat → length (ro_connection_epoch (sf_offer f)) = 16%nat →
  chan_inv ((sf_hash f, ro_key_generation (sf_offer f)) :: offers) made taken [p; c; Some (Slot_new f)] (ro_key_generation (sf_offer f)).
Proof.
  intros Hc [H1 H2 H3 H4 H5 H6 H7] Hg Hh He.
  assert (∀ g, (sf_hash f, g) ∉ offers) as Hnew.
  { intros g Hx. pose proof (H3 _ _ Hx). assert (g = ro_key_generation (sf_offer f)) as E; [|lia]. apply (Hc (sf_hash f)); [by right|by left]. }
  assert (slot_inv made taken (Slot_new f)) as Hf.
  { apply slot_inv_new; [done|done| |].
    - intros b Hb E. destruct (H4 b Hb) as [g Hx]. rewrite E in Hx. by apply (Hnew g).
    - intros q Hq. destruct (H5 _ _ Hq) as [g Hx]. by apply (Hnew g). }
  assert (∀ i s, [p; c; Some (Slot_new f)] !! i = Some (Some s) → (i = 2%nat ∧ s = Slot_new f) ∨ ([p; c; None] !! i = Some (Some s) ∧ (i < 2)%nat)) as Hl.
  { intros [|[|[|i]]] s Hs; cbn in Hs; simplify_eq; cbn; [right; split; [done|lia]..|by left]. }
  constructor; try done.
  - intros i s [[-> ->]|[Hs _]]%Hl; [split; [done|by left]|]. destruct (H1 i s Hs). split; [done|by right].
  - intros i j a b Hij [[-> ->]|[Ha Hi]]%Hl [[-> ->]|[Hb Hj]]%Hl; try lia; [|by apply (H2 i j)].
    destruct (H1 i a Ha) as [_ Hx]. pose proof (H3 _ _ Hx). change (sl_generation (Slot_new f)) with (ro_key_generation (sf_offer f)). lia.
  - intros h g [E|Hx]%elem_of_cons; [by injection E as -> ->|]. pose proof (H3 _ _ Hx). lia.
  - intros b Hb. destruct (H4 b Hb) as [g Hx]. exists g. by right.
  - intros h q Hq. destruct (H5 h q Hq) as [g Hx]. exists g. by right.
Qed.

(** ** Calls keep the invariant *)
Definition place_index (w : Place) : nat := match w with AtPending => 2 | AtCurrent => 1 end.
(** From the packets [made] to more, among them those [sent]. *)
Definition ok_step (offers taken : list (list Z * Z)) (made : list (list Z)) (c c' : Impl) (sent : list (list Z)) : Prop :=
  ∃ made', (∀ b, b ∈ made → b ∈ made') ∧ (∀ b, b ∈ sent → b ∈ made') ∧ chan_inv offers made' taken (slots c') (im_high_water c') ∧
    im_generation c' = im_generation c.

Section steps.
Context (offers taken : list (list Z * Z)) (Hcons : consistent offers).

Lemma ok_keep made c c' sent :
  chan_inv offers made taken (slots c') (im_high_water c') → im_generation c' = im_generation c → (∀ b, b ∈ sent → b ∈ made) →
  ok_step offers taken made c c' sent.
Proof. intros H Hg Hs. exists made. split_and!; try done. Qed.
Lemma ok_make made c c' i s s' b sent :
  chan_inv offers made taken (slots c) (im_high_water c) → slots c !! i = Some (Some s) → makes s s' b → slot_inv (b :: made) taken s' →
  slots c' = <[i := Some s']> (slots c) → im_high_water c' = im_high_water c → im_generation c' = im_generation c →
  (∀ x, x ∈ sent → x ∈ b :: made) → ok_step offers taken made c c' sent.
Proof.
  intros H Hi Hm Hs' El Eh Eg Hsent. exists (b :: made). split_and!; [by right|done| |done]. rewrite El, Eh. by apply (chan_inv_make _ _ _ _ _ i s).
Qed.
Lemma ok_put made c c' i s s' sent :
  chan_inv offers made taken (slots c) (im_high_water c) → slots c !! i = Some (Some s) → sl_fixed s' = sl_fixed s → slot_inv made taken s' →
  slots c' = <[i := Some s']> (slots c) → im_high_water c' = im_high_water c → im_generation c' = im_generation c →
  (∀ x, x ∈ sent → x ∈ made) → ok_step offers taken made c c' sent.
Proof. intros H Hi Hf Hs' El Eh Eg Hsent. apply ok_keep; [|done|done]. rewrite El, Eh. by apply (chan_inv_put _ _ _ _ _ i s). Qed.
Lemma ok_trans made c c1 c2 sent sent' :
  ok_step offers taken made c c1 sent → (∀ made', (∀ b, b ∈ made → b ∈ made') → (∀ b, b ∈ sent → b ∈ made') →
    chan_inv offers made' taken (slots c1) (im_high_water c1) → ok_step offers taken made' c1 c2 sent') → ok_step offers taken made c c2 sent'.
Proof.
  intros (m1 & Hm1 & Hs1 & H1 & Hg1) H2. destruct (H2 m1 Hm1 Hs1 H1) as (m2 & Hm2 & Hs2 & H2' & Hg2). exists m2. split_and!; [|done|done|congruence].
  intros b Hb. by apply Hm2, Hm1.
Qed.
Lemma put_slots w s c : slots (put_slot w s c) = <[place_index w := Some s]> (slots c).
Proof. by destruct w. Qed.
Lemma put_high w s c : im_high_water (put_slot w s c) = im_high_water c ∧ im_generation (put_slot w s c) = im_generation c.
Proof. by destruct w. Qed.

Lemma clear_inv made c c' : slots c' = [None; None; None] → chan_inv offers made taken (slots c) (im_high_water c) →
  chan_inv offers made taken (slots c') (im_high_water c).
Proof. intros -> H. apply (chan_inv_update 0 _ _ _ (slots c)); [done|]. by intros [|[|[|i]]] s E. Qed.
Lemma fallback_ok made c sent :
  chan_inv offers made taken (slots c) (im_high_water c) → (∀ b, b ∈ sent → b ∈ made) → ok_step offers taken made c (Impl_Fallback c) sent.
Proof. intros H Hs. apply ok_keep; [|done|done]. by apply (clear_inv made c). Qed.
Lemma cancel_pending_inv made c :
  chan_inv offers made taken (slots c) (im_high_water c) →
  chan_inv offers made taken (slots (CancelPending c)) (im_high_water (CancelPending c)) ∧ im_generation (CancelPending c) = im_generation c.
Proof.
  intros H. assert (slots (CancelPending c) = [im_previous c; renew_afresh <$> im_current c; None] ∧ im_high_water (CancelPending c) = im_high_water c ∧
    im_generation (CancelPending c) = im_generation c) as (-> & -> & ->) by (unfold CancelPending; by destruct (im_pending c)).
  split; [|done]. apply (chan_inv_update 0 _ _ _ (slots c)); [done|]. intros [|[|[|i]]] s E; cbn in E; simplify_eq.
  - exists s. split_and!; [cbn; by rewrite E|done|]. apply (ci_slot _ _ _ _ _ H 0). cbn. congruence.
  - destruct (im_current c) as [s0|] eqn:E0; [|done]. cbn in E. simplify_eq. exists s0. split_and!; [cbn; congruence|done|]. apply slot_inv_renew.
    apply (ci_slot _ _ _ _ _ H 1). cbn. congruence.
Qed.
Lemma promote_inv made c now c' :
  chan_inv offers made taken (slots c) (im_high_water c) → Promote c now = Some c' →
  chan_inv offers made taken (slots c') (im_high_water c') ∧ im_generation c' = im_generation c.
Proof.
  intros H. unfold Promote. intros (q & Hq & <-%(inj Some))%bind_Some. split; [|done].
  apply (chan_inv_update 1 _ _ _ (slots c)); [done|]. intros [|[|[|i]]] s E; cbn in E; simplify_eq.
  - destruct (im_current c) as [s0|] eqn:E0; [|done]. cbn in E. simplify_eq. exists s0. split_and!; [cbn; congruence|done|]. apply slot_inv_times.
    apply (ci_slot _ _ _ _ _ H 1). cbn. congruence.
  - exists q. split_and!; [cbn; congruence|done|]. apply slot_inv_times. apply (ci_slot _ _ _ _ _ H 2). cbn. congruence.
Qed.
End steps.

Ltac sent_solve := intros ?x;
  try match goal with |- context [option_list (Some ?b)] => change (option_list (Some b)) with [b] end;
  try match goal with |- context [@option_list ?A None] => change (@option_list A None) with (@nil A) end;
  cbn [result_sent push_outbound with_event with_cancelled Details no_result cr_outbound app fmap list_fmap ou_datagram];
  rewrite ?elem_of_cons, ?elem_of_nil; try tauto.

Ltac settle := unfold rejected, replied; intros [<- <-]%(inj Some)%pair_equal_spec.

Section handle.
Context `{P2PCrypto} (offers taken : list (list Z * Z)) (Hcons : consistent offers).
Context (made : list (list Z)) (c : Impl) (Hinv : chan_inv offers made taken (slots c) (im_high_water c)).

(** A slot that differs from the one in place, but is for the same offer and has used the same numbers. *)
Definition same_use (s0 s : Slot) : Prop := sl_fixed s = sl_fixed s0 ∧ sl_next_sequence s = sl_next_sequence s0.
Lemma rejected_ok w s0 s : slots c !! place_index w = Some (Some s0) → sl_fixed s = sl_fixed s0 → slot_inv made taken s →
  ok_step offers taken made c (put_slot w s c) [].
Proof. intros Hi Hf Hs. destruct (put_high w s c). eapply ok_put; try done; [by apply put_slots|sent_solve]. Qed.
Lemma unchanged_ok sent : (∀ b, b ∈ sent → b ∈ made) → ok_step offers taken made c c sent.
Proof. intros. by apply ok_keep. Qed.
Lemma made_ok w s0 s type l p h1 h2 h3 packet binding s1 p1 b :
  slots c !! place_index w = Some (Some s0) → same_use s0 s → slot_inv made taken s → candidate_typed l → candidate_typed p →
  MakeControl s type l p h1 h2 h3 = Some packet → FinishControl s packet binding = Some (s1, p1, b) →
  s1 = set_sl_next_sequence (sl_next_sequence s + 1) s ∧ slot_inv (b :: made) taken s1 ∧
  ∀ s2 sent, sl_fixed s2 = sl_fixed s1 → slot_inv (b :: made) taken s2 → (∀ x, x ∈ sent → x ∈ b :: made) →
    ok_step offers taken made c (put_slot w s2 c) sent.
Proof.
  intros Hi [Hf Hn] Hs Hl Hp Hm Hfin. destruct (finish_makes _ _ _ _ _ _ _ _ _ _ _ _ _ _ Hs Hl Hp Hm Hfin) as ([Hb Hfx] & E & Hs1).
  split_and!; [done|done|]. intros s2 sent E2 Hs2 Hsent. destruct (put_high w s2 c). eapply ok_make; try done; [|by apply put_slots].
  split; [|congruence]. unfold sl_hash in *. by rewrite Hb, Hf, Hn.
Qed.

Lemma commit_ack_ok w s0 slot now result c' r :
  slots c !! place_index w = Some (Some s0) → same_use s0 slot → slot_inv made taken slot → cr_outbound result = [] →
  CommitAck c w slot now result = Some (c', r) → ok_step offers taken made c c' (result_sent r).
Proof.
  intros Hi Hu Hs Hr. pose proof (rejected_ok w s0 slot Hi (proj1 Hu) Hs) as Hrej.
  unfold CommitAck. case_if as E1; [by settle|].
  destruct (Tx slot (sl_local slot) (sl_peer slot)) as [[n tx]|]; [|done].
  destruct (MakeControl _ _ _ _ _ _ _) as [ack|] eqn:Em; [|by settle].
  destruct (FinishControl slot ack None) as [[[s1 p1] b]|] eqn:Ef; [|by settle].
  destruct (made_ok w s0 slot _ _ _ _ _ _ _ _ _ _ _ Hi Hu Hs (si_local _ _ _ Hs) (si_peer _ _ _ Hs) Em Ef) as (Es1 & Hs1 & Hput).
  case_if as E2; [settle; apply Hput; [done|done|sent_solve]|]. cbv zeta.
  intros (c2 & Hpr & (cur & Hcur & E)%bind_Some)%bind_Some. revert E. settle.
  set (s2 := set_sl_commit _ _) in *.
  assert (slot_inv (b :: made) taken s2) as Hs2.
  { apply slot_inv_commit; [done|apply Hs1|]. cbn. right. by left. }
  assert (ok_step offers taken made c (put_slot w s2 c) [b]) as Hok by (apply Hput; [done|done|sent_solve]).
  eapply ok_trans; [exact Hok|]. intros made' Hsub Hsent H1. destruct (promote_inv _ _ _ _ _ _ H1 Hpr) as [H2 Hg2]. apply ok_keep; [done|done|].
  cbn [result_sent Details with_event push_outbound cr_outbound]. rewrite Hr. cbn. done.
Qed.

(** A packet that was parsed, for a slot in place, with the window that took its number. *)
Context (w : Place) (s : Slot) (Hi : slots c !! place_index w = Some (Some s)).
Context (p : P2PV2ControlPacket) (Hsrc : candidate_typed (vc_source p)) (Hdst : candidate_typed (vc_destination p)).
Context (replay : P2PReplayWindow) (Hseq : is_uint 32 (vc_sequence p)) (Hrep : V2_Replay (sl_replay s) (vc_sequence p) = (true, replay)).

Let Hs : slot_inv made taken s := proj1 (ci_slot _ _ _ _ _ Hinv _ _ Hi).
Let Hself : same_use s s := conj eq_refl eq_refl.

Lemma replay_made b s1 : slot_inv (b :: made) taken s1 → sl_replay s1 = sl_replay s → slot_inv (b :: made) taken (set_sl_replay replay s1).
Proof. intros H1 E. apply (slot_inv_replay _ _ _ (vc_sequence p)); [done|done|by rewrite E]. Qed.
Lemma replay_kept s1 : slot_inv made taken s1 → sl_replay s1 = sl_replay s → slot_inv made taken (set_sl_replay replay s1).
Proof. intros H1 E. apply (slot_inv_replay _ _ _ (vc_sequence p)); [done|done|by rewrite E]. Qed.

Lemma handle_probe_ok bytes request_hash c' r :
  handle_probe c w s p bytes request_hash replay = Some (c', r) → ok_step offers taken made c c' (result_sent r).
Proof.
  unfold handle_probe. case_if as E1; [settle; by apply unchanged_ok; sent_solve|].
  destruct (MakeControl _ _ _ _ _ _ _) as [ack|] eqn:Em; [|settle; by apply unchanged_ok; sent_solve].
  destruct (FinishControl s ack None) as [[[s1 p1] b]|] eqn:Ef; [|settle; by apply unchanged_ok; sent_solve].
  destruct (made_ok w s s _ _ _ _ _ _ _ _ _ _ _ Hi Hself Hs Hdst Hsrc Em Ef) as (-> & Hs1 & Hput).
  case_if as E2; [settle; apply Hput; [done|done|sent_solve]|]. settle. apply Hput; [done| |sent_solve].
  apply replay_made; [|done]. apply slot_inv_rx; [done|]. apply Forall_app. split; [apply Hs1|]. constructor; [by left|done].
Qed.
Lemma handle_probe_ack_ok now c' r : handle_probe_ack c w s p now replay = Some (c', r) → ok_step offers taken made c c' (result_sent r).
Proof.
  unfold handle_probe_ack. destruct (Tx s (vc_destination p) (vc_source p)) as [[n tx]|] eqn:Etx; [|settle; by apply unchanged_ok; sent_solve].
  case_if as E1; [settle; by apply unchanged_ok; sent_solve|]. cbv zeta. set (s1 := set_sl_replay replay _).
  assert (slot_inv made taken s1) as Hs1.
  { apply replay_kept; [|done]. apply slot_inv_tx; [done|]. eapply tx_acks; [apply Hs|by eapply find_lookup|done]. }
  assert (same_use s s1) as Hu1 by done. case_if as E2.
  - set (s2 := set_sl_nomination _ s1). assert (slot_inv made taken s2) as Hs2 by (by apply slot_inv_nomination).
    assert (same_use s s2) as Hu2 by done. pose proof (rejected_ok w s s2 Hi eq_refl Hs2) as Hrej.
    destruct (MakeControl _ _ _ _ _ _ _) as [commit|] eqn:Em; [|by settle].
    destruct (FinishControl s2 commit None) as [[[s3 p3] b]|] eqn:Ef; [|by settle].
    destruct (made_ok w s s2 _ _ _ _ _ _ _ _ _ _ _ Hi Hu2 Hs2 Hdst Hsrc Em Ef) as (-> & Hs3 & Hput).
    destruct (HashP2PV2Control p3) as [commit_hash|]; [|settle; apply Hput; [done|done|sent_solve]].
    settle. apply Hput; [done| |sent_solve]. apply andb_true_iff in E2 as [Er _]. apply bool_decide_eq_true_1 in Er.
    apply slot_inv_commit; [done|intros _; split; [done|by left]|cbn; apply Hs3].
  - case_if as E3; [apply commit_ack_ok with s; done|]. settle. destruct (put_high w s1 c).
    apply (ok_put offers taken made c _ (place_index w) s s1); try done; [by apply put_slots|sent_solve].
Qed.
Lemma handle_key_commit_ok bytes request_hash now c' r :
  handle_key_commit c w s p bytes request_hash now replay = Some (c', r) → ok_step offers taken made c c' (result_sent r).
Proof.
  unfold handle_key_commit. case_if as E1; [settle; by apply unchanged_ok; sent_solve|].
  destruct (Rx s (vc_source p) (vc_destination p)) as [[n rx]|]; [|settle; by apply unchanged_ok; sent_solve].
  case_if as E2; [settle; by apply unchanged_ok; sent_solve|]. cbv zeta. set (s1 := set_sl_replay replay _).
  rewrite !orb_false_iff, !negb_false_iff in E1. destruct E1 as [[[[_ Er] _] _] _]. apply bool_decide_eq_true_1 in Er.
  assert (slot_inv made taken s1) as Hs1.
  { apply replay_kept; [|done]. apply slot_inv_commit; [by apply slot_inv_nomination| |cbn; apply Hs]. cbn. intros E.
    destruct (si_commit _ _ _ Hs E) as [E' _]. congruence. }
  case_if as E3; [apply commit_ack_ok with s; done|]. settle. destruct (put_high w s1 c). apply (ok_put offers taken made c _ (place_index w) s s1); try done; [by apply put_slots|sent_solve].
Qed.
Lemma handle_key_commit_ack_ok now c' r :
  handle_key_commit_ack c w s p now replay = Some (c', r) → ok_step offers taken made c c' (result_sent r).
Proof.
  unfold handle_key_commit_ack. case_if as E1; [settle; by apply unchanged_ok; sent_solve|].
  destruct (Rx s (sl_peer s) (sl_local s)) as [[n rx]|]; [|settle; by apply unchanged_ok; sent_solve].
  case_if as E2; [settle; by apply unchanged_ok; sent_solve|].
  intros (c2 & Hpr & (cur & Hcur & E)%bind_Some)%bind_Some. revert E. settle.
  pose proof (rejected_ok w s (set_sl_replay replay s) Hi eq_refl (replay_kept s Hs eq_refl)) as Hput. eapply ok_trans; [exact Hput|]. intros made' Hsub _ H1.
  destruct (promote_inv _ _ _ _ _ _ H1 Hpr) as [H2 Hg2]. apply ok_keep; [done|done|sent_solve].
Qed.
Lemma handle_migrate_ack_ok m now c' r :
  sl_migration s = Some m → handle_migrate_ack c w s m now replay = Some (c', r) → ok_step offers taken made c c' (result_sent r).
Proof.
  intros Hm. unfold handle_migrate_ack. settle. set (s1 := set_last_rx now _).
  assert (slot_inv made taken s1) as Hs1.
  { apply slot_inv_last_rx, replay_kept; [|done]. apply slot_inv_migration; [|done].
    apply slot_inv_nomination; [done|apply Hs|by apply (si_migration _ _ _ Hs)]. }
  destruct (put_high w s1 c). apply (ok_put offers taken made c _ (place_index w) s s1); try done; [by destruct w|sent_solve].
Qed.

Lemma handle_migrate_challenge_ok bytes request_hash now c' r :
  handle_migrate_challenge c w s p bytes request_hash now replay = Some (c', r) → ok_step offers taken made c c' (result_sent r).
Proof.
  unfold handle_migrate_challenge. case_if as E1; [settle; by apply unchanged_ok; sent_solve|].
  rewrite !orb_false_iff, !negb_false_iff in E1. destruct E1 as [[[Ew Ep] _] _]. apply bool_decide_eq_true_1 in Ew, Ep.
  case_if as E2; [settle; apply fallback_ok; [done|sent_solve]|].
  destruct (MakeControl _ _ _ _ _ _ _) as [ack|] eqn:Em; [|settle; by apply unchanged_ok; sent_solve].
  destruct (FinishControl s ack (Some request_hash)) as [[[s1 p1] b]|] eqn:Ef; [|settle; by apply unchanged_ok; sent_solve].
  destruct (made_ok w s s _ _ _ _ _ _ _ _ _ _ _ Hi Hself Hs Hdst Hsrc Em Ef) as (E & Hs1 & Hput).
  case_if as E3; [settle; apply Hput; [by subst s1|done|sent_solve]|]. cbv zeta. set (had := bool_decide (is_Some (im_pending c))).
  set (c2 := if had then CancelPending (put_slot w s1 c) else put_slot w s1 c).
  intros (s2 & Hcur & Eo)%bind_Some. revert Eo. settle. set (s3 := set_last_rx now _).
  eapply ok_trans; [apply (Hput s1 [b]); [done|done|sent_solve]|]. intros made' Hsub Hsent H1.
  assert (chan_inv offers made' taken (slots c2) (im_high_water c2) ∧ im_generation c2 = im_generation (put_slot w s1 c)) as [H2 Hg].
  { unfold c2. destruct had; [by apply cancel_pending_inv|done]. }
  assert (sl_replay s2 = sl_replay s) as Erep.
  { revert Hcur. unfold c2. rewrite Ew, E. destruct had; cbn; [unfold CancelPending; destruct (im_pending c); cbn|]; by intros <-%(inj Some). }
  assert (slots c2 !! 1%nat = Some (Some s2)) as H3 by (cbn; by rewrite Hcur). pose proof (proj1 (ci_slot _ _ _ _ _ H2 _ _ H3)) as Hs2.
  assert (slot_inv made' taken s3) as Hs3.
  { apply slot_inv_last_rx, (slot_inv_replay _ _ _ (vc_sequence p)); [|done|by rewrite <- Hrep, <- Erep]. apply slot_inv_nomination; [|done|apply Hs2].
    apply slot_inv_moves; [done|]. right. apply Hsent. by left. }
  rewrite Ew. assert (∀ x, x ∈ [b] → x ∈ made') as Hb by done.
  destruct (ok_put offers taken made' c2 (set_im_needs_renew true (put_slot AtCurrent s3 c2)) 1 s2 s3 [b]) as (m2 & Hm2 & Hse2 & Hi2 & Hg2); try done.
  exists m2. split_and!; [done| |done|rewrite Hg2; by rewrite Hg, Ew]. intros x Hx. apply Hse2. destruct had; exact Hx.
Qed.
Lemma handle_cached_ok request_hash answer b : handle_cached s p request_hash = Some answer → b ∈ result_sent answer → b ∈ made.
Proof.
  unfold handle_cached. destruct (vc_type p); try done.
  - case_if as E1; [by intros <-%(inj Some) ?%elem_of_nil|]. destruct (Rx s (vc_source p) (vc_destination p)) as [[n t]|] eqn:Er; [|done].
    intros <-%(inj Some). case_if as E2; [|by intros ?%elem_of_nil]. intros [->|?%elem_of_nil]%elem_of_cons; [|done].
    apply (Forall_lookup_1 _ _ n t (si_rx _ _ _ Hs)). by eapply find_lookup.
  - case_if as E1; [|done]. intros <-%(inj Some). intros [->|?%elem_of_nil]%elem_of_cons; [|done]. apply andb_true_iff in E1 as [E1 _].
    destruct (si_moves _ _ _ Hs) as [E|E]; [by rewrite E in E1|done].
  - case_if as E1; [done|]. intros <-%(inj Some). case_if as E2; [by intros ?%elem_of_nil|]. case_if as E3; [by intros ?%elem_of_nil|]. intros [->|?%elem_of_nil]%elem_of_cons; [|done].
    destruct (si_commit_ack _ _ _ Hs) as [E|E]; [by rewrite E in E3|done].
Qed.
End handle.

Section calls.
Context `{P2PCrypto} (offers taken : list (list Z * Z)) (Hcons : consistent offers).
Context (made : list (list Z)) (c : Impl) (Hinv : chan_inv offers made taken (slots c) (im_high_water c)).

Lemma handle_ok bytes sender now c' r :
  bytes_ok bytes → Handle c bytes sender now = Some (c', r) → ok_step offers taken made c c' (result_sent r).
Proof.
  intros Hb. assert (ok_step offers taken made c c []) as Hrej by (apply unchanged_ok; [done|sent_solve]).
  unfold Handle. destruct (ParseP2PV2Control bytes) as [p|] eqn:Hp; [|by settle]. destruct (v2_parsed_typed bytes p Hb Hp) as (Ht & _ & _).
  destruct (select_slot c (vc_offer_hash p)) as [[w s]|] eqn:Esel; [|by settle].
  assert (slots c !! place_index w = Some (Some s)) as Hi.
  { revert Esel. unfold select_slot. cbv zeta. intros Esel.
    assert (∀ o, (q ← im_current c; if bool_decide (vc_offer_hash p = sl_hash q) then Some (AtCurrent, q) else None) = Some (w, s) → o = Some (w, s) →
      slots c !! place_index w = Some (Some s)) as Hcur.
    { intros o (q & Hq & E)%bind_Some _. revert E. case_if as Eq; [|done]. intros [<- <-]%(inj Some)%pair_equal_spec. cbn. by rewrite Hq. }
    destruct (im_pending c) as [q|] eqn:Eq; [|by eapply Hcur]. revert Esel. case_if as E; [|intros; by eapply Hcur].
    intros [<- <-]%(inj Some)%pair_equal_spec. cbn. by rewrite Eq. }
  case_if as E1; [by settle|]. case_if as E2; [by settle|]. destruct (answered_migration w s p sender now) as [m|] eqn:Em; [|by settle].
  case_if as E3; [by settle|]. destruct (HashP2PV2Control p) as [request_hash|]; [|by settle].
  destruct (handle_cached s p request_hash) as [answer|] eqn:Ec.
  { intros [<- <-]%(inj Some)%pair_equal_spec. apply unchanged_ok; [done|]. intros b Hx. by eapply handle_cached_ok. }
  destruct (V2_Replay (sl_replay s) (vc_sequence p)) as [[] replay] eqn:Er; cbn [negb]; [|by settle].
  unfold handle_fresh. destruct Ht. destruct (vc_type p) eqn:Ety.
  - by eapply handle_probe_ok.
  - by eapply handle_probe_ack_ok.
  - by eapply handle_migrate_challenge_ok.
  - revert Em. unfold answered_migration. rewrite Ety. destruct w, (sl_migration s) as [m'|] eqn:Em'; try done. case_if as E4; [done|].
    intros <-%(inj Some). by eapply handle_migrate_ack_ok.
  - by eapply handle_key_commit_ok.
  - by eapply handle_key_commit_ack_ok.
Qed.

Let unchanged : ok_step offers taken made c c [].
Proof. apply unchanged_ok; [done|]. sent_solve. Qed.

Lemma create_probe_ok local peer now g c' out :
  candidate_typed local → candidate_typed peer → CreateProbe c local peer now g = (c', out) → ok_step offers taken made c c' (option_list out).
Proof.
  intros Hl Hp. unfold CreateProbe. case_if as E1; [by intros [= <- <-]|]. destruct (im_pending c) as [s|] eqn:Epend; [|by intros [= <- <-]].
  assert (slots c !! 2%nat = Some (Some s)) as Hi by (cbn; by rewrite Epend). pose proof (proj1 (ci_slot _ _ _ _ _ Hinv _ _ Hi)) as Hs.
  case_if as E2; [by intros [= <- <-]|]. destruct (Tx s local peer) as [[n t]|] eqn:Et.
  - case_if as E3; [by intros [= <- <-]|]. intros [<- <-]%pair_equal_spec. set (s1 := set_sl_tx _ s).
    apply (ok_put offers taken made c _ 2 s s1); try done.
    + apply slot_inv_tx; [done|]. eapply tx_acks; [apply Hs|by eapply find_lookup|done].
    + intros b [->|?%elem_of_nil]%elem_of_cons; [|done]. apply (Forall_lookup_1 _ _ n t (si_tx _ _ _ Hs)). by eapply find_lookup.
  - case_if as E3; [by intros [= <- <-]|]. destruct (MakeControl _ _ _ _ _ _ _) as [packet|] eqn:Em; [|by intros [= <- <-]].
    destruct (FinishControl s packet None) as [[[s1 p1] b]|] eqn:Ef; [|by intros [= <- <-]].
    destruct (made_ok offers taken Hcons made c Hinv AtPending s s _ _ _ _ _ _ _ _ _ _ _ Hi (conj eq_refl eq_refl) Hs Hl Hp Em Ef) as (-> & Hs1 & Hput).
    destruct (HashP2PV2Control p1) as [hash|]; intros [<- <-]%pair_equal_spec; match goal with |- context [set_im_pending (Some ?x) c] =>
      change (set_im_pending (Some x) c) with (put_slot AtPending x c); apply (Hput x) end.
    + done.
    + apply slot_inv_tx; [done|]. apply Forall_app. split; [apply Hs1|]. constructor; [by left|done].
    + sent_solve.
    + done.
    + done.
    + sent_solve.
Qed.
Lemma seal_data_ok data now g c' out : SealData c data now g = (c', out) → ok_step offers taken made c c' (option_list out).
Proof.
  unfold SealData. case_if as E1; [by intros [= <- <-]|]. destruct (im_current c) as [s|] eqn:Ecur; [|by intros [= <- <-]].
  assert (slots c !! 1%nat = Some (Some s)) as Hi by (cbn; by rewrite Ecur). pose proof (proj1 (ci_slot _ _ _ _ _ Hinv _ _ Hi)) as Hs.
  case_if as E2; [by intros [= <- <-]|]. case_if as E3; [intros [<- <-]%pair_equal_spec; apply fallback_ok; [done|sent_solve]|].
  destruct (Slot_Seal s data) as [[s1 b]|] eqn:Eb; [|by intros [= <- <-]]. intros [<- <-]%pair_equal_spec.
  destruct (seal_makes _ _ _ _ _ _ Hs Eb) as (Hm & _ & Hs1). apply (ok_make offers taken Hcons made c _ 1 s s1 b); try done. sent_solve.
Qed.

(** The migration a datagram from a new endpoint starts. *)
Lemma new_endpoint_ok packet sender now g c' r :
  candidate_typed sender → HandleNewEndpointData c packet sender now g = (c', r) → ok_step offers taken made c c' (result_sent r).
Proof.
  intros Hsend. unfold HandleNewEndpointData. case_if as E1; [by intros [= <- <-]|]. destruct (im_current c) as [s|] eqn:Ecur; [|by intros [= <- <-]].
  assert (slots c !! 1%nat = Some (Some s)) as Hi by (cbn; by rewrite Ecur). pose proof (proj1 (ci_slot _ _ _ _ _ Hinv _ _ Hi)) as Hs.
  case_if as E2; [by intros [= <- <-]|]. destruct (Slot_Open s packet (sl_replay s)); [|by intros [= <- <-]].
  case_if as E3; [intros [<- <-]%pair_equal_spec; apply fallback_ok; [done|sent_solve]|].
  destruct (MakeControl _ _ _ _ _ _ _) as [challenge|] eqn:Em; [|by intros [= <- <-]].
  destruct (FinishControl s challenge None) as [[[s1 p1] b]|] eqn:Ef; [|by intros [= <- <-]].
  destruct (made_ok offers taken Hcons made c Hinv AtCurrent s s _ _ _ _ _ _ _ _ _ _ _ Hi (conj eq_refl eq_refl) Hs (si_local _ _ _ Hs) Hsend Em Ef)
    as (E & Hs1 & Hput).
  destruct (HashP2PV2Control p1) as [hash|]; [|intros [<- <-]%pair_equal_spec; apply Hput; [done|done|sent_solve]]. cbv zeta.
  set (had := bool_decide (is_Some (im_pending c))). set (c2 := if had then CancelPending _ else _).
  set (s2 := if had then renew_afresh s1 else s1). set (m := mkMigration _ _ _ _ _ _). set (s3 := set_sl_moves _ _). intros [<- <-]%pair_equal_spec.
  eapply ok_trans; [apply (Hput s1 [b]); [done|done|sent_solve]|]. intros made' Hsub Hsent H1.
  assert (chan_inv offers made' taken (slots c2) (im_high_water c2) ∧ im_generation c2 = im_generation c) as [H2 Hg].
  { unfold c2. destruct had; [exact (cancel_pending_inv offers taken made' (set_im_current (Some s1) c) H1)|done]. }
  assert (im_current c2 = Some s2) as Hcur by (unfold c2, s2; destruct had; [unfold CancelPending; cbn; by destruct (im_pending c)|done]).
  assert (slots c2 !! 1%nat = Some (Some s2)) as H3 by (cbn; by rewrite Hcur). pose proof (proj1 (ci_slot _ _ _ _ _ H2 _ _ H3)) as Hs2.
  assert (slot_inv made' taken s3) as Hs3.
  { apply slot_inv_moves; [|apply Hs2]. apply slot_inv_migration; [done|]. intros m' <-%(inj Some). split; [done|]. apply Hsent. by left. }
  destruct (ok_put offers taken made' c2 (set_im_state P2PSuspect (set_im_current (Some s3) c2)) 1 s2 s3 [b] H2 H3) as (m2 & Hm2 & Hse2 & Hi2 & Hg2); try done.
  exists m2. split_and!; [done| |exact Hi2|exact Hg]. intros x Hx. apply Hse2. destruct had; exact Hx.
Qed.

(** *** Ticks *)
Lemma subset_ok c' : (∀ i s, slots c' !! i = Some (Some s) → slots c !! i = Some (Some s)) → im_high_water c' = im_high_water c →
  im_generation c' = im_generation c → ok_step offers taken made c c' [].
Proof.
  intros Hl Eh Eg. apply ok_keep; [|done|sent_solve]. rewrite Eh. apply (chan_inv_update 0 _ _ _ (slots c)); [done|]. intros i s Hi.
  exists s. split_and!; [by apply Hl|done|]. by apply (ci_slot _ _ _ _ _ Hinv i), Hl.
Qed.
End calls.

Section ticks.
Context `{P2PCrypto} (offers taken : list (list Z * Z)) (Hcons : consistent offers).
Implicit Types (made : list (list Z)) (c : Impl).

Lemma tick_expire_ok made c now :
  chan_inv offers made taken (slots c) (im_high_water c) → ok_step offers taken made c (tick_expire c now) [].
Proof.
  intros Hinv. unfold tick_expire. set (c1 := match im_previous c with Some s => _ | None => _ end).
  assert (ok_step offers taken made c c1 []) as H1.
  { unfold c1. destruct (im_previous c) as [s|] eqn:E; [|by apply unchanged_ok; [|sent_solve]]. case_if as E1; [|by apply unchanged_ok; [|sent_solve]].
    apply subset_ok; [done| |done|done]. by intros [|[|[|i]]] x; cbn. }
  eapply ok_trans; [exact H1|]. intros m1 _ _ I1. cbv zeta. set (c2 := match im_current c1 with Some s => _ | None => _ end).
  assert (ok_step offers taken m1 c1 c2 []) as H2.
  { unfold c2. destruct (im_current c1) as [s|]; [|by apply unchanged_ok; [|sent_solve]]. case_if as E1; [|by apply unchanged_ok; [|sent_solve]].
    apply fallback_ok; [done|sent_solve]. }
  eapply ok_trans; [exact H2|]. intros m2 _ _ I2. destruct (im_pending c2) as [s|]; [|by apply unchanged_ok; [|sent_solve]].
  case_if as E1; [by apply unchanged_ok; [|sent_solve]|]. case_if as E2; [apply fallback_ok; [done|sent_solve]|].
  destruct (cancel_pending_inv offers taken m2 c2 I2). apply ok_keep; [done|done|sent_solve].
Qed.
Lemma tick_commit_ok made c now :
  chan_inv offers made taken (slots c) (im_high_water c) → ok_step offers taken made c (tick_commit c now).1 (ou_datagram <$> (tick_commit c now).2).
Proof.
  intros Hinv. unfold tick_commit. destruct (im_pending c) as [s|] eqn:Ep; [|by apply unchanged_ok; [|sent_solve]].
  assert (slots c !! 2%nat = Some (Some s)) as Hi by (cbn; by rewrite Ep). pose proof (proj1 (ci_slot _ _ _ _ _ Hinv _ _ Hi)) as Hs.
  case_if as E1; [|by apply unchanged_ok; [|sent_solve]]. apply andb_true_iff in E1 as [[E1 _]%andb_true_iff _].
  destruct (si_commit _ _ _ Hs E1) as [_ Hb]. cbn [fst snd]. set (s1 := set_sl_commit _ s). apply (ok_put offers taken made c _ 2 s s1); try done.
  - apply slot_inv_commit; [done|cbn; apply Hs|cbn; apply Hs].
  - intros b [->|?%elem_of_nil]%elem_of_cons; [|done]. exact Hb.
Qed.
Lemma tick_migration_ok made s now s' out :
  slot_inv made taken s → tick_migration s now = (s', out) →
  slot_inv made taken s' ∧ same_use s s' ∧ ∀ b, b ∈ ou_datagram <$> out → b ∈ made.
Proof.
  intros Hs. unfold tick_migration. destruct (sl_migration s) as [m|] eqn:Em.
  2: { intros [<- <-]%pair_equal_spec. split_and!; [done|done|sent_solve]. }
  destruct (si_migration _ _ _ Hs m Em) as [Hp Hb]. case_if as E1; intros [<- <-]%pair_equal_spec; [|split_and!; [done|done|sent_solve]].
  split_and!; [|done|]; [apply slot_inv_migration; [done|by intros m' <-%(inj Some)]|]. intros b [->|?%elem_of_nil]%elem_of_cons; done.
Qed.
Lemma tick_current_ok made c now c' out renew :
  chan_inv offers made taken (slots c) (im_high_water c) → tick_current c now = (c', out, renew) →
  ok_step offers taken made c c' (if im_fallback_event c' then [] else ou_datagram <$> out).
Proof.
  intros Hinv. unfold tick_current. destruct (im_current c) as [s|] eqn:Ec.
  2: { intros [= <- <- <-]. apply unchanged_ok; [done|]. destruct (im_fallback_event c); sent_solve. }
  assert (slots c !! 1%nat = Some (Some s)) as Hi by (cbn; by rewrite Ec). pose proof (proj1 (ci_slot _ _ _ _ _ Hinv _ _ Hi)) as Hs.
  case_if as E1; [intros [= <- <- <-]; apply fallback_ok; [done|sent_solve]|].
  case_if as E2; [intros [= <- <- <-]; apply fallback_ok; [done|sent_solve]|]. cbv zeta.
  set (c1 := if negb _ && _ && _ then set_im_state P2PSuspect c else c).
  assert (slots c1 = slots c ∧ im_high_water c1 = im_high_water c ∧ im_generation c1 = im_generation c) as (El & Eh & Eg).
  { unfold c1. by destruct (negb _ && _ && _). }
  destruct (tick_migration s now) as [s1 resent] eqn:Emig. destruct (tick_migration_ok made s now s1 resent Hs Emig) as (Hs1 & [Hf Hn] & Hres).
  destruct (tick_heartbeat (im_liveness c1) s1 now) as [[s2 beat]|] eqn:Eb.
  2: { intros [= <- <- <-]. assert (chan_inv offers made taken (slots c1) (im_high_water c1)) as I1 by (by rewrite El, Eh).
       destruct (fallback_ok offers taken made c1 [] I1) as (m & Hm & Hse & Hi' & Hg'); [sent_solve|]. exists m. by split_and!; [| | |congruence]. }
  assert (∃ bs, beat = (λ b, mkOutbound b (sl_peer s2)) <$> bs ∧ ((bs = [] ∧ slot_inv made taken s2 ∧ sl_fixed s2 = sl_fixed s) ∨
    ∃ b, bs = [b] ∧ makes s s2 b ∧ slot_inv (b :: made) taken s2)) as (bs & -> & Hbeat).
  { revert Eb. unfold tick_heartbeat. case_if as E3.
    - intros ([s3 b] & Hb & E)%bind_Some. apply (inj Some), pair_equal_spec in E as [<- <-]. destruct (seal_makes _ _ _ _ _ _ Hs1 Hb) as ([Hid Hfx] & _ & Hs3).
      exists [b]. split; [done|]. right. exists b. split_and!; [done| |by apply slot_inv_times]. split; [|cbn; congruence]. unfold sl_hash in *. by rewrite Hid, Hf, Hn.
    - intros [<- <-]%(inj Some)%pair_equal_spec. exists []. split; [done|]. by left. }
  assert (∀ s3 c3, sl_fixed s3 = sl_fixed s2 → (∀ made, slot_inv made taken s2 → slot_inv made taken s3) → slots c3 = <[1%nat := Some s3]> (slots c) →
    im_high_water c3 = im_high_water c → im_generation c3 = im_generation c →
    ok_step offers taken made c c3 (if im_fallback_event c3 then [] else ou_datagram <$> (resent ++ ((λ b, mkOutbound b (sl_peer s2)) <$> bs)))) as Hfin.
  { intros s3 c3 F3 I3 L3 W3 G3. destruct Hbeat as [(-> & I2 & F2)|(b & -> & [Hm F2] & I2)].
    - apply (ok_put offers taken made c c3 1 s s3); try done; [congruence|by apply I3|]. destruct (im_fallback_event c3); [sent_solve|].
      rewrite fmap_app. intros x [Hx|Hx]%elem_of_app; [by apply Hres|by apply elem_of_nil in Hx].
    - apply (ok_make offers taken Hcons made c c3 1 s s3 b); try done; [split; [done|congruence]|by apply I3|].
      destruct (im_fallback_event c3); [sent_solve|]. rewrite fmap_app. intros x [Hx|Hx]%elem_of_app; [right; by apply Hres|].
      apply elem_of_cons in Hx as [->|Hx%elem_of_nil]; [by left|done]. }
  case_if as E4; intros [[<- <-]%pair_equal_spec <-]%pair_equal_spec; cbv zeta.
  - apply (Hfin (set_sl_renew (mkRenew now (Z.min (rn_renew_attempts (sl_renew s2) + 1) 5) true) s2)); [done|intros; by apply slot_inv_renew|..].
    + by unfold slots; cbn [set_im_needs_renew set_im_current im_previous im_pending im_current]; injection El as -> _ ->.
    + exact Eh.
    + exact Eg.
  - apply (Hfin s2); [done|done|..].
    + by unfold slots; cbn [set_im_current im_previous im_pending im_current]; injection El as -> _ ->.
    + exact Eh.
    + exact Eg.
Qed.
Lemma tick_ok made c now g :
  chan_inv offers made taken (slots c) (im_high_water c) →
  ok_step offers taken made c (Tick c now g).1 (ou_datagram <$> tk_outbound (Tick c now g).2).
Proof.
  intros Hinv. unfold Tick. case_if as E; [by apply unchanged_ok; [|sent_solve]|]. cbv zeta. set (c1 := tick_expire c now).
  destruct (tick_commit c1 now) as [c2 committed] eqn:E2. destruct (tick_current c2 now) as [[c3 sent] renew] eqn:E3. cbn [fst snd tk_outbound].
  eapply ok_trans; [apply tick_expire_ok; exact Hinv|]. intros m1 _ _ I1.
  pose proof (tick_commit_ok m1 c1 now I1) as H2. rewrite E2 in H2. cbn [fst snd] in H2.
  eapply ok_trans; [exact H2|]. intros m2 _ Hcom I2. destruct (tick_current_ok m2 c2 now c3 sent renew I2 E3) as (m3 & Hm3 & Hs3 & I3 & G3).
  exists m3. split_and!; [done| |exact I3|exact G3]. destruct (im_fallback_event c3); [sent_solve|]. rewrite fmap_app.
  intros b [Hb|Hb]%elem_of_app; [by apply Hm3, Hcom|by apply Hs3].
Qed.

(** *** Opening data *)
Lemma open_data_ok made c packet sender now g c' r :
  chan_inv offers made taken (slots c) (im_high_water c) → bytes_ok packet → OpenData c packet sender now g = Some (c', r) →
  (r = None ∧ ok_step offers taken made c c' []) ∨
  (∃ out, r = Some out ∧ chan_inv offers made (packet_id packet :: taken) (slots c') (im_high_water c') ∧
    im_generation c' = im_generation c).
Proof.
  intros Hinv Hb. assert (ok_step offers taken made c c []) as Hnone by (apply unchanged_ok; [done|sent_solve]).
  unfold OpenData. case_if as E1; [intros [<- <-]%(inj Some)%pair_equal_spec; by left|].
  destruct (ParseP2PV2DataPacketHeader packet) as [h|] eqn:Hh; [|intros [<- <-]%(inj Some)%pair_equal_spec; by left]. cbv zeta.
  assert (∀ i s s' plaintext replay c1, slots c !! i = Some (Some s) → Slot_Open s packet (sl_replay s) = Some (plaintext, replay) →
    sl_fixed s' = sl_fixed s → (∀ t, slot_inv made t (set_sl_replay replay s) → slot_inv made t s') → slots c1 = <[i := Some s']> (slots c) →
    im_high_water c1 = im_high_water c → chan_inv offers made (packet_id packet :: taken) (slots c1) (im_high_water c1)) as Htake.
  { intros i s s' plaintext replay c1 Hi Ho Hf Hs' El Eh. pose proof (proj1 (ci_slot _ _ _ _ _ Hinv _ _ Hi)) as Hs.
    destruct (open_takes _ _ _ _ _ _ Hs Hb Ho) as (q & -> & Hq & Hr). destruct (slot_inv_deliver _ _ _ _ _ Hs Hq Hr) as [Hn Hs1].
    rewrite El, Eh. apply (chan_inv_deliver _ _ _ _ _ i s); try done. by apply Hs'. }
  assert (∀ o s, (match o with Some s => if bool_decide (sl_hash s = dh_offer_hash h) then Some s else None | None => None end) = Some s → o = Some s) as Hours.
  { intros [x|] s; [|done]. by case_if as E; [intros <-%(inj Some)|]. }
  destruct (match im_current c with Some s => _ | None => _ end) as [s|] eqn:Ec;
    [|destruct (match im_previous c with Some s => _ | None => _ end) as [s|] eqn:Ev;
      [|destruct (match im_pending c with Some s => _ | None => _ end) as [s|] eqn:Ep;
        [|intros [<- <-]%(inj Some)%pair_equal_spec; by left]]].
  - apply Hours in Ec. case_if as E2; [intros [<- <-]%(inj Some)%pair_equal_spec; by left|].
    destruct (Slot_Open s packet (sl_replay s)) as [[plaintext replay]|] eqn:Eo; [|intros [<- <-]%(inj Some)%pair_equal_spec; by left].
    intros [<- <-]%(inj Some)%pair_equal_spec. right. exists plaintext. split; [done|].
    assert (slots c !! 1%nat = Some (Some s)) as Hi by (cbn; by rewrite Ec).
    split; [apply (Htake 1%nat s (set_last_rx now (set_sl_replay replay s)) plaintext replay); try done; [intros; by apply slot_inv_last_rx|by case_if as E3..]|by case_if as E3].
  - apply Hours in Ev. case_if as E2; [intros [<- <-]%(inj Some)%pair_equal_spec; by left|].
    destruct (Slot_Open s packet (sl_replay s)) as [[plaintext replay]|] eqn:Eo; [|intros [<- <-]%(inj Some)%pair_equal_spec; by left].
    intros [<- <-]%(inj Some)%pair_equal_spec. right. exists plaintext. split; [done|].
    assert (slots c !! 0%nat = Some (Some s)) as Hi by (cbn; by rewrite Ev).
    split; [by apply (Htake 0%nat s (set_sl_replay replay s) plaintext replay)|done].
  - apply Hours in Ep. case_if as E2; [intros [<- <-]%(inj Some)%pair_equal_spec; by left|].
    case_if as E3; [intros [<- <-]%(inj Some)%pair_equal_spec; by left|].
    destruct (Slot_Open s packet (sl_replay s)) as [[plaintext replay]|] eqn:Eo; [|intros [<- <-]%(inj Some)%pair_equal_spec; by left].
    set (c1 := set_im_pending _ c). intros (c2 & Hpr & [<- <-]%(inj Some)%pair_equal_spec)%bind_Some. right. exists plaintext. split; [done|].
    assert (slots c !! 2%nat = Some (Some s)) as Hi by (cbn; by rewrite Ep).
    assert (chan_inv offers made (packet_id packet :: taken) (slots c1) (im_high_water c1)) as H1.
    { apply (Htake 2%nat s (set_last_rx now (set_sl_replay replay s)) plaintext replay); try done. intros t Ht. by apply slot_inv_last_rx. }
    destruct (promote_inv _ _ _ _ _ _ H1 Hpr). done.
Qed.
End ticks.

(** *** Accepting offers *)
Section accepting.
Context `{P2PCrypto}.
(** The offer in a text: its hash and its key generation. *)
Definition offer_of (encoded : string) (context : P2PV2RecipientContext) (exporter : P2PSessionExporter) : option (list Z * Z) :=
  '(o, _, _) ← OpenP2PRelayOfferRecipientV2 encoded (rc_local_session_id context) (rc_local_peer_id context) exporter;
  hash ← HashP2PRelayOfferV2 o;
  Some (hash, ro_key_generation o).

Lemma accept_ok offers made taken c encoded context exporter now g c' :
  chan_inv offers made taken (slots c) (im_high_water c) → consistent (option_list (offer_of encoded context exporter) ++ offers) →
  g ≤ im_generation c → (AcceptOffer c encoded context exporter now g).2 = c' →
  ∃ offers', (∀ x, x ∈ offers' → x ∈ option_list (offer_of encoded context exporter) ++ offers) ∧
    chan_inv offers' made taken (slots c') (im_high_water c') ∧ im_generation c' = im_generation c.
Proof.
  intros Hinv Hcons Hg. assert (∀ x, c = x → ∃ offers', (∀ y, y ∈ offers' → y ∈ option_list (offer_of encoded context exporter) ++ offers) ∧
    chan_inv offers' made taken (slots x) (im_high_water x) ∧ im_generation x = im_generation c) as Hsame.
  { intros x <-. exists offers. split_and!; [intros y Hy; by apply elem_of_app; right|done|done]. }
  unfold AcceptOffer. case_if as E1; [by apply Hsame|].
  destruct (OpenP2PRelayOfferRecipientV2 _ _ _ _) as [[[o role] seed]|] eqn:Eo; [|by apply Hsame].
  destruct (DeriveP2PV2KeyMaterial _ _) as [keys|]; [|by apply Hsame].
  destruct (HashP2PRelayOfferV2 o) as [hash|] eqn:Eh; [|by apply Hsame]. cbv zeta.
  case_if as E2; [by apply Hsame|]. case_if as E3; [by apply Hsame|]. rewrite (proj2 (Z.ltb_ge _ _) Hg).
  case_if as E4; [by apply Hsame|]. case_if as E5; [by apply Hsame|]. rewrite !orb_false_iff in E5. destruct E5 as [[[E5 E6] _] _].
  apply Z.leb_gt in E5. apply bool_decide_eq_false_1 in E6. set (f := mkFixed _ _ _ _ _ _ _ _ _).
  assert (offer_of encoded context exporter = Some (sf_hash f, ro_key_generation (sf_offer f))) as Hof.
  { unfold offer_of. rewrite Eo. cbn [mbind option_bind]. by rewrite Eh. }
  rewrite Hof in *. change (option_list (Some ?x) ++ offers) with (x :: offers) in *.
  assert (slots c = [im_previous c; im_current c; None]) as El by (unfold slots; destruct (im_pending c); [by destruct E6|done]). rewrite El in Hinv.
  assert (chan_inv ((sf_hash f, ro_key_generation (sf_offer f)) :: offers) made taken [im_previous c; im_current c; Some (Slot_new f)]
    (ro_key_generation (sf_offer f))) as Hnew.
  { apply (chan_inv_accept offers made taken _ _ (im_high_water c)); [done|done|exact E5| |].
    - revert Eh. unfold HashP2PRelayOfferV2, Digest. intros (bs & _ & (h & Hh & E)%bind_Some)%bind_Some.
      revert E. case_if as E; [|done]. intros <-%(inj Some). by apply Nat.eqb_eq in E.
    - unfold OpenP2PRelayOfferRecipientV2 in Eo. apply bind_Some in Eo as ([o' e] & Hparse & Eo).
      destruct (offer_parse_typed _ _ _ Hparse) as (Hto & _ & _). revert Eo. case_if as E7; [done|].
      intros (? & _ & (? & _ & (? & _ & (? & _ & (? & _ & E)%bind_Some)%bind_Some)%bind_Some)%bind_Some)%bind_Some. simplify_eq. apply Hto. }
  intros <-. exists ((sf_hash f, ro_key_generation (sf_offer f)) :: offers). split; [done|]. by case_if as E7.
Qed.
End accepting.

(** ** Runs *)
Section runs.
Context `{P2PCrypto}.

(** What the types of the arguments say. *)
Definition call_typed (call : ChannelCall) : Prop :=
  match call with
  | CallCreateProbe local peer _ _ => candidate_typed local ∧ candidate_typed peer
  | CallHandleControl packet _ _ _ | CallOpenData packet _ _ _ => bytes_ok packet
  | CallNewEndpointData _ sender _ _ => candidate_typed sender
  | CallAdvanceTxSequence next => is_uint 32 next
  | _ => True
  end.
(** The registration [g] is neither left nor started afresh. *)
Definition call_within (g : Z) (call : ChannelCall) : Prop :=
  match call with CallAcceptOffer _ _ _ _ g' => g' ≤ g | CallReset g' => g' < g | _ => True end.
Definition call_offers (call : ChannelCall) : list (list Z * Z) :=
  match call with CallAcceptOffer encoded context exporter _ _ => option_list (offer_of encoded context exporter) | _ => [] end.
Fixpoint channel_run (c : Impl) (calls : list ChannelCall) : list ChannelOutput :=
  match calls with
  | [] => []
  | call :: calls => match channel_step c call with Some (c, out) => out :: channel_run c calls | None => [] end
  end.
Definition run_sent (outs : list ChannelOutput) : list (list Z) := mjoin (out_sent <$> outs).
Definition delivered_in (outs : list ChannelOutput) : list (list Z) := omap out_delivered outs.

Lemma kept_step offers made taken c c' :
  slots c' = slots c → im_high_water c' = im_high_water c → im_generation c' = im_generation c →
  chan_inv offers made taken (slots c) (im_high_water c) → ok_step offers taken made c c' [].
Proof. intros El Eh Eg Hi. apply ok_keep; [by rewrite El, Eh|done|]. by intros b ?%elem_of_nil. Qed.
Lemma renewed_ok offers made taken c c' p :
  slots c' = [im_previous c; renew_afresh <$> im_current c; p] → p = im_pending c ∨ p = None → im_high_water c' = im_high_water c →
  im_generation c' = im_generation c → chan_inv offers made taken (slots c) (im_high_water c) → ok_step offers taken made c c' [].
Proof.
  intros El Hp Eh Eg Hi. apply ok_keep; [|done|by intros b ?%elem_of_nil]. rewrite El, Eh. apply (chan_inv_update 0 _ _ _ (slots c)); [done|].
  intros [|[|[|i]]] s E; cbn in E; simplify_eq.
  - exists s. split_and!; [cbn; by rewrite E|done|]. apply (ci_slot _ _ _ _ _ Hi 0). cbn. congruence.
  - destruct (im_current c) as [s0|] eqn:E0; [|done]. cbn in E. simplify_eq. exists s0. split_and!; [cbn; congruence|done|]. apply slot_inv_renew.
    apply (ci_slot _ _ _ _ _ Hi 1). cbn. congruence.
  - destruct Hp as [Hp|?]; [|done]. exists s. split_and!; [cbn; congruence|done|]. apply (ci_slot _ _ _ _ _ Hi 2). cbn. congruence.
Qed.
Lemma advance_ok offers made taken c next :
  is_uint 32 next → chan_inv offers made taken (slots c) (im_high_water c) →
  ok_step offers taken made c (AdvanceTxSequenceForTesting c next).2 [].
Proof.
  intros Hn Hi. unfold AdvanceTxSequenceForTesting. destruct (im_current c) as [s|] eqn:Ec; [|by apply kept_step]. case_if as E; [by apply kept_step|].
  assert (slots c !! 1%nat = Some (Some s)) as Hs by (cbn; by rewrite Ec). cbn [snd].
  apply (ok_put offers taken made c _ 1 s (set_sl_next_sequence next s)); try done; [|by intros b ?%elem_of_nil].
  apply slot_inv_advance; [by apply (ci_slot _ _ _ _ _ Hi 1)|]. apply Z.ltb_ge in E. unfold MaxSequence. uint_lia.
Qed.

Lemma step_inv offers made taken g c call c' out :
  chan_inv offers made taken (slots c) (im_high_water c) → im_generation c = g → call_typed call → call_within g call →
  consistent (call_offers call ++ offers) → channel_step c call = Some (c', out) →
  ∃ offers' made', (∀ x, x ∈ offers' → x ∈ call_offers call ++ offers) ∧ (∀ b, b ∈ made → b ∈ made') ∧ (∀ b, b ∈ out_sent out → b ∈ made') ∧
    chan_inv offers' made' (option_list (packet_id <$> out_delivered out) ++ taken) (slots c') (im_high_water c') ∧ im_generation c' = g.
Proof.
  intros Hi Hg Ht Hw Hc Hst.
  assert (consistent offers) as Hc0 by (intros h a b Ha Hb; apply (Hc h); apply elem_of_app; by right).
  assert (∀ c' sent, ok_step offers taken made c c' sent → ∃ offers' made', (∀ x, x ∈ offers' → x ∈ call_offers call ++ offers) ∧
    (∀ b, b ∈ made → b ∈ made') ∧ (∀ b, b ∈ sent → b ∈ made') ∧ chan_inv offers' made' taken (slots c') (im_high_water c') ∧ im_generation c' = g) as Hok.
  { intros c1 sent (m & H1 & H2 & H3 & H4). exists offers, m. split_and!; try done; [|congruence]. intros x Hx. apply elem_of_app. by right. }
  destruct call as [encoded context exporter now g'|local peer now g'|packet sender now g'|data now g'|packet sender now g'|packet sender now g'|now g'|g'| |b|g'|x1 x2 x3 x4|next];
    cbn [channel_step] in Hst.
  - apply (inj Some), pair_equal_spec in Hst as [<- <-]. cbn [out_sent out_delivered]. cbn in Hw. rewrite <- Hg in Hw.
    destruct (accept_ok offers made taken c encoded context exporter now g' _ Hi Hc Hw eq_refl) as (offers' & H1 & H2 & H3).
    exists offers', made. split_and!; try done; [by intros b ?%elem_of_nil|congruence].
  - destruct (CreateProbe c local peer now g') as [c1 o] eqn:E. apply (inj Some), pair_equal_spec in Hst as [<- <-]. destruct Ht.
    by apply (Hok c1 (option_list o)), (create_probe_ok offers taken Hc0 made c Hi local peer now g').
  - apply bind_Some in Hst as ([c1 r] & E & Hst). apply (inj Some), pair_equal_spec in Hst as [<- <-]. revert E. unfold HandleControl. case_if as E1.
    + intros [<- <-]%(inj Some)%pair_equal_spec. apply Hok. by apply kept_step.
    + intros E. by apply (Hok c1 (result_sent r)), (handle_ok offers taken Hc0 made c Hi packet sender now).
  - destruct (SealData c data now g') as [c1 o] eqn:E. apply (inj Some), pair_equal_spec in Hst as [<- <-]. by apply (Hok c1 (option_list o)), (seal_data_ok offers taken Hc0 made c Hi data now g').
  - apply bind_Some in Hst as ([c1 r] & E & Hst). apply (inj Some), pair_equal_spec in Hst as [<- <-].
    destruct (open_data_ok offers taken Hc0 made c packet sender now g' c1 r Hi Ht E) as [[-> H1]|(o & -> & H1 & H2)].
    + by apply Hok.
    + cbn [out_sent out_delivered]. rewrite bool_decide_eq_true_2 by done. exists offers, made.
      split_and!; [intros x Hx; apply elem_of_app; by right|done|by intros b ?%elem_of_nil|exact H1|congruence].
  - destruct (HandleNewEndpointData c packet sender now g') as [c1 r] eqn:E. apply (inj Some), pair_equal_spec in Hst as [<- <-].
    by apply (Hok c1 (result_sent r)), (new_endpoint_ok offers taken Hc0 made c Hi packet sender now g').
  - destruct (Tick c now g') as [c1 r] eqn:E. apply (inj Some), pair_equal_spec in Hst as [<- <-].
    pose proof (tick_ok offers taken Hc0 made c now g' Hi) as H1. rewrite E in H1. by apply Hok.
  - apply (inj Some), pair_equal_spec in Hst as [<- <-]. apply Hok. unfold RequestRenew_in. case_if as E1; [by apply kept_step|]. cbv zeta.
    apply (renewed_ok _ _ _ _ _ None); try done; try (by right); destruct (im_pending c) eqn:Ep; try (by case_if as E2);
      case_if as E2; unfold slots; cbn; by rewrite ?Ep.
  - apply (inj Some), pair_equal_spec in Hst as [<- <-]. apply Hok. by apply (renewed_ok _ _ _ _ _ (im_pending c)); try done; left.
  - apply (inj Some), pair_equal_spec in Hst as [<- <-]. apply Hok. unfold SetRelayOnly. destruct b; [by apply kept_step|]. case_if as E; by apply kept_step.
  - apply (inj Some), pair_equal_spec in Hst as [<- <-]. apply Hok. unfold Channel_Reset. cbn in Hw.
    rewrite (proj2 (Z.ltb_lt _ _)) by lia. by apply kept_step.
  - apply (inj Some), pair_equal_spec in Hst as [<- <-]. apply Hok. by apply kept_step.
  - apply (inj Some), pair_equal_spec in Hst as [<- <-]. apply Hok. by apply advance_ok.
Qed.

Lemma run_inv g calls offers made taken c :
  chan_inv offers made taken (slots c) (im_high_water c) → im_generation c = g → Forall call_typed calls → Forall (call_within g) calls →
  consistent (mjoin (call_offers <$> calls) ++ offers) →
  ∃ (made' : list (list Z)) (taken' : list (list Z * Z)), (∀ b, b ∈ made → b ∈ made') ∧ (∀ b, b ∈ run_sent (channel_run c calls) → b ∈ made') ∧
    (∀ b b', b ∈ made' → b' ∈ made' → packet_id b = packet_id b' → b = b') ∧
    taken' ≡ₚ (packet_id <$> delivered_in (channel_run c calls)) ++ taken ∧ NoDup taken'.
Proof.
  revert offers made taken c. induction calls as [|call calls IH]; intros offers made taken c Hi Hg Ht Hw Hc.
  - exists made, taken. split_and!; try done; [by intros b ?%elem_of_nil|apply Hi..].
  - apply Forall_cons in Ht as [Ht1 Ht], Hw as [Hw1 Hw]. cbn [channel_run]. destruct (channel_step c call) as [[c1 out]|] eqn:Est.
    2: { exists made, taken. split_and!; try done; [by intros b ?%elem_of_nil|apply Hi..]. }
    cbn [fmap list_fmap mjoin list_join] in Hc. rewrite <- (assoc_L (++)) in Hc.
    assert (∀ x, x ∈ call_offers call ++ offers → x ∈ call_offers call ++ mjoin (call_offers <$> calls) ++ offers) as Hsub.
    { intros x [Hx|Hx]%elem_of_app; apply elem_of_app; [by left|right; apply elem_of_app; by right]. }
    destruct (step_inv offers made taken g c call c1 out Hi Hg Ht1 Hw1) as (offers' & made1 & Ho & Hm1 & Hs1 & Hi1 & Hg1); [|done|].
    { intros h a b Ha Hb. apply (Hc h); by apply Hsub. }
    destruct (IH offers' made1 _ c1 Hi1 Hg1 Ht Hw) as (made2 & taken2 & Hm2 & Hs2 & Hone & Hperm & Hnd).
    { intros h a b Ha Hb.
      assert (∀ x, x ∈ mjoin (call_offers <$> calls) ++ offers' → x ∈ call_offers call ++ mjoin (call_offers <$> calls) ++ offers) as Hsub'.
      { intros x [Hx|Hx]%elem_of_app; [apply elem_of_app; right; apply elem_of_app; by left|by apply Hsub, Ho]. }
      apply (Hc h); by apply Hsub'. }
    exists made2, taken2. split_and!; [by auto| |done| |done].
    + unfold run_sent. cbn [fmap list_fmap mjoin list_join]. intros b [Hb|Hb]%elem_of_app; [by apply Hm2, Hs1|by apply Hs2].
    + rewrite Hperm. unfold delivered_in. cbn [omap list_omap]. destruct (out_delivered out) as [d|]; cbn; [|done].
      by rewrite <- Permutation_middle.
Qed.
Lemma start_inv g c : chan_inv [] [] [] (slots (Impl_Clear c)) g.
Proof. constructor; try (by intros * ?%elem_of_nil); [by intros [|[|[|i]]] s|by intros [|[|[|i]]] j a b _ E|constructor]. Qed.

(** C18: Within one registration of a channel, however its methods are called, two datagrams that it ever hands
    out for sending with the same offer hash and the same sequence number are the same bytes: no number is used
    for a second packet, control or data, so no nonce of a key is used twice; what is sent again is sent
    unchanged.  (The offers accepted in the run are assumed to differ in hash when they differ in key
    generation.) *)
Theorem channel_sequence_unique c g calls b b' :
  im_generation c ≤ g → Forall call_typed calls → Forall (call_within g) calls → consistent (mjoin (call_offers <$> calls)) →
  let outs := channel_run (Channel_Reset c g) calls in
  b ∈ run_sent outs → b' ∈ run_sent outs → packet_id b = packet_id b' → b = b'.
Proof.
  intros Hg Ht Hw Hc outs Hb Hb' E. assert (Channel_Reset c g = set_im_generation g (set_im_high_water 0 (set_im_cancelled zero_hash
    (set_im_fallback_event false (Impl_Clear c))))) as Er by (unfold Channel_Reset; by rewrite (proj2 (Z.ltb_ge _ _) Hg)).
  destruct (run_inv g calls [] [] [] (Channel_Reset c g)) as (made & taken & _ & Hs & Hone & _); try done.
  - rewrite Er. apply start_inv.
  - by rewrite Er.
  - by rewrite app_nil_r.
  - apply Hone; [by apply Hs|by apply Hs|done].
Qed.

(** C19: Within one registration, however the methods are called and whatever the peer or the network repeats,
    [OpenData] delivers the payload of one datagram at most for each offer hash and sequence number, also when
    the slot has become the previous one in between. *)
Theorem channel_delivers_once c g calls :
  im_generation c ≤ g → Forall call_typed calls → Forall (call_within g) calls → consistent (mjoin (call_offers <$> calls)) →
  NoDup (packet_id <$> delivered_in (channel_run (Channel_Reset c g) calls)).
Proof.
  intros Hg Ht Hw Hc. assert (Channel_Reset c g = set_im_generation g (set_im_high_water 0 (set_im_cancelled zero_hash
    (set_im_fallback_event false (Impl_Clear c))))) as Er by (unfold Channel_Reset; by rewrite (proj2 (Z.ltb_ge _ _) Hg)).
  destruct (run_inv g calls [] [] [] (Channel_Reset c g)) as (made & taken & _ & _ & _ & Hp & Hn); try done.
  - rewrite Er. apply start_inv.
  - by rewrite Er.
  - by rewrite app_nil_r.
  - by rewrite Hp, app_nil_r in Hn.
Qed.
End runs.

(** ** Two channels *)
(** An initiator with one candidate and a responder with two. *)
Definition at_p : P2PCandidateEndpoint := mkCandidate 4 (mapped_v4 203 0 113 1) 4000.
Definition at_l1 : P2PCandidateEndpoint := mkCandidate 4 (mapped_v4 198 51 100 1) 5001.
Definition at_l2 : P2PCandidateEndpoint := mkCandidate 4 (mapped_v4 198 51 100 1) 5002.
Definition demo_set_hash : list Z :=
  default [] (@HashP2PV2CandidateSet p2p_toy_crypto (replicate 16 1) (replicate 16 2) 5 6 [at_p] [at_l1; at_l2]).
Definition pair_input : P2PRelayOfferV2Input :=
  mkOfferInput (replicate 16 1) (replicate 16 2) (replicate 16 3) (replicate 16 4) 1 zero_hash 5 6 demo_set_hash.
Definition pair_text (role : P2PPeerRole) : string :=
  match @CreateP2PRelayOfferV2Bundle p2p_toy_crypto pair_input (demo_exporter 20) (demo_exporter 21) (Some demo_secrets) with
  | Some b => default EmptyString (EncodeP2PRelayOfferRecipientV2Hex (ob_offer b) (for_role role (ob_initiator_envelope b) (ob_responder_envelope b)))
  | None => EmptyString
  end.
Definition pair_accept (role : P2PPeerRole) : ChannelCall :=
  match role with
  | Initiator => CallAcceptOffer (pair_text Initiator) (mkContext (replicate 16 1) (replicate 16 3) 5 6 [at_p] [at_l1; at_l2]) (demo_exporter 20) 1000 0
  | Responder => CallAcceptOffer (pair_text Responder) (mkContext (replicate 16 2) (replicate 16 4) 6 5 [at_l1; at_l2] [at_p]) (demo_exporter 21) 1000 0
  end.
Definition demo_run : list ChannelCall → list ChannelOutput := @channel_run p2p_toy_crypto Impl_new.
(** The datagrams a call handed out, by the position of the call. *)
Definition sent_by (calls : list ChannelCall) (n : nat) : list Z :=
  default [] (head (default [] (out_sent <$> demo_run calls !! n))).

(** Both probe both pairs, the pair of the first address is committed and data flows; then the responder's
    datagrams leave from its second address, the initiator migrates it, and the acknowledgement of the
    responder's second probe arrives late. *)
Definition initiator_1 : list ChannelCall := [pair_accept Initiator; CallCreateProbe at_p at_l1 1000 0; CallCreateProbe at_p at_l2 1000 0].
Definition responder_1 : list ChannelCall :=
  [pair_accept Responder; CallCreateProbe at_l1 at_p 1000 0; CallCreateProbe at_l2 at_p 1000 0;
   CallHandleControl (sent_by initiator_1 1) at_p 1100 0; CallHandleControl (sent_by initiator_1 2) at_p 1100 0].
Definition initiator_2 : list ChannelCall :=
  initiator_1 ++ [CallHandleControl (sent_by responder_1 1) at_l1 1100 0; CallHandleControl (sent_by responder_1 2) at_l2 1100 0;
    CallHandleControl (sent_by responder_1 3) at_l1 1200 0].
Definition responder_2 : list ChannelCall :=
  responder_1 ++ [CallHandleControl (sent_by initiator_2 3) at_p 1200 0; CallHandleControl (sent_by initiator_2 5) at_p 1300 0;
    CallSealData [69; 70] 1400 0; CallSealData [71] 1500 0].
Definition initiator_3 : list ChannelCall :=
  initiator_2 ++ [CallHandleControl (sent_by responder_2 6) at_l1 1400 0; CallOpenData (sent_by responder_2 7) at_l1 1450 0;
    CallOpenData (sent_by responder_2 7) at_l1 1450 0; CallNewEndpointData (sent_by responder_2 8) at_l2 1550 0; CallTick 3600 0].
Definition responder_3 : list ChannelCall := responder_2 ++ [CallHandleControl (sent_by initiator_3 9) at_p 1600 0].
Definition late_ack : ChannelCall := CallHandleControl (sent_by initiator_2 4) at_p 1700 0.

#[global] Instance candidate_typed_dec e : Decision (candidate_typed e).
Proof. unfold candidate_typed, byte_array. apply _. Defined.
#[global] Instance call_typed_dec call : Decision (call_typed call).
Proof. destruct call; cbn; apply _. Defined.
#[global] Instance call_within_dec g call : Decision (call_within g call).
Proof. destruct call; cbn; apply _. Defined.
Lemma consistent_one x : consistent [x].
Proof. intros h a b [E1|?%elem_of_nil]%elem_of_cons [E2|?%elem_of_nil]%elem_of_cons; by simplify_eq. Qed.

(** The migration challenge is sent again by the tick; the repeated datagram is delivered once. *)
Definition demo_offers : list (list Z * Z) := mjoin (@call_offers p2p_toy_crypto <$> initiator_3).
Lemma demo_offers_consistent : length demo_offers = 1%nat ∧ consistent demo_offers.
Proof.
  assert (demo_offers = [(replicate 32 136, 1)]) as -> by (vm_compute; reflexivity). split; [done|apply consistent_one].
Qed.
Lemma channel_sequence_unique_witness :
  packet_id (sent_by initiator_3 9) = packet_id (sent_by initiator_3 10) ∧ sent_by initiator_3 9 = sent_by initiator_3 10.
Proof.
  assert (packet_id (sent_by initiator_3 9) = packet_id (sent_by initiator_3 10)) as E by (vm_compute; reflexivity).
  split; [exact E|]. apply (@channel_sequence_unique p2p_toy_crypto Impl_new 0 initiator_3);
    [decide_true|decide_true|decide_true|apply demo_offers_consistent|decide_true|decide_true|exact E].
Defined.
Lemma channel_delivers_once_witness :
  length (delivered_in (@channel_run p2p_toy_crypto (Channel_Reset Impl_new 0) initiator_3)) = 1%nat ∧
  NoDup (packet_id <$> delivered_in (@channel_run p2p_toy_crypto (Channel_Reset Impl_new 0) initiator_3)).
Proof.
  split; [vm_compute; reflexivity|].
  apply (@channel_delivers_once p2p_toy_crypto Impl_new 0 initiator_3); [decide_true|decide_true|decide_true|apply demo_offers_consistent].
Defined.

(** The late acknowledgement, which the initiator did send, makes the responder promote a pending slot that is
    not there: the run ends in undefined behaviour. *)
Lemma late_probe_ack_null :
  length (demo_run responder_3) = length responder_3 ∧ sent_by initiator_2 4 ∈ run_sent (demo_run initiator_2) ∧
  length (demo_run (responder_3 ++ [late_ack])) = length responder_3.
Proof. split_and!; [vm_compute; reflexivity|decide_true|vm_compute; reflexivity]. Qed.
