(* ===== verification/WriteQueue.v ===== *)
(** * The asynchronous write queue

    [net/asio/IAsynchronousWriteIoQueue.cpp], through which every stream transport writes: one write is with
    the transport at a time, the others wait in order, and consecutive waiting packets may go out as one
    gathered write.  The queue is shared by the callers of [WriteBytes], the transport's completions and
    [Finalize]; each critical section is one operation here, and [queue_step] runs them in any order, with
    what happens between two sections of the same call as a task.  Handing a context to the transport is one
    step with the section that selects it.  Contexts live in a store and are named by numbers; a packet is named
    by the context that was made for it.  The counters are unbounded integers.  Not modelled: [Copy], the
    coroutine form of [WriteBytes], and the destructor, which drops what waits without a callback. *)
From stdpp Require Import sorting.
From S2P Require Import Prelude.
Local Open Scope Z_scope.

(** ** Contexts *)
Record WriteContext := mkContext {
  cx_packet : option nat;
  cx_length : Z;
  cx_segments : list (option nat * Z);
  (** The writes whose callbacks [cb] runs; [None]: claimed. *)
  cx_cb : option (list nat);
}.
Definition Context_Claim (c : WriteContext) : option (list nat * Z) * WriteContext :=
  match cx_cb c with
  | None => (None, c)
  | Some callbacks => (Some (callbacks, cx_length c), mkContext None 0 [] None)
  end.
(** What is handed to the transport, in order. *)
Definition payload (c : WriteContext) : list nat :=
  match cx_segments c with [] => option_list (cx_packet c) | segments => omap fst segments end.

Record WriteQueue := mkWriteQueue {
  wq_contexts : gmap nat WriteContext;
  wq_fresh : nat;
  wq_in_flight : option nat;
  wq_queues : list nat;
  wq_sending : bool;
  wq_disposed : bool;
  wq_pending_items : Z;
  wq_pending_bytes : Z;
  wq_max_pending_items : Z;
  wq_max_pending_bytes : Z;
}.
Definition WriteQueue_new : WriteQueue := mkWriteQueue ∅ 0 None [] false false 0 0 4096 16777216.
Definition SetMaxPendingItems (q : WriteQueue) (value : Z) : WriteQueue :=
  mkWriteQueue (wq_contexts q) (wq_fresh q) (wq_in_flight q) (wq_queues q) (wq_sending q) (wq_disposed q) (wq_pending_items q)
    (wq_pending_bytes q) (if value <? 0 then 0 else value) (wq_max_pending_bytes q).
Definition SetMaxPendingBytes (q : WriteQueue) (value : Z) : WriteQueue :=
  mkWriteQueue (wq_contexts q) (wq_fresh q) (wq_in_flight q) (wq_queues q) (wq_sending q) (wq_disposed q) (wq_pending_items q)
    (wq_pending_bytes q) (wq_max_pending_items q) (if value <? 0 then 0 else value).

(** Updates of what the critical sections change. *)
Definition set_contexts (m : gmap nat WriteContext) (q : WriteQueue) : WriteQueue :=
  mkWriteQueue m (wq_fresh q) (wq_in_flight q) (wq_queues q) (wq_sending q) (wq_disposed q) (wq_pending_items q) (wq_pending_bytes q)
    (wq_max_pending_items q) (wq_max_pending_bytes q).
Definition set_active (in_flight : option nat) (queues : list nat) (q : WriteQueue) : WriteQueue :=
  mkWriteQueue (wq_contexts q) (wq_fresh q) in_flight queues (wq_sending q) (wq_disposed q) (wq_pending_items q) (wq_pending_bytes q)
    (wq_max_pending_items q) (wq_max_pending_bytes q).
Definition set_pending_counters (items bytes : Z) (q : WriteQueue) : WriteQueue :=
  mkWriteQueue (wq_contexts q) (wq_fresh q) (wq_in_flight q) (wq_queues q) (wq_sending q) (wq_disposed q) items bytes
    (wq_max_pending_items q) (wq_max_pending_bytes q).
Definition set_flags (sending disposed : bool) (q : WriteQueue) : WriteQueue :=
  mkWriteQueue (wq_contexts q) (wq_fresh q) (wq_in_flight q) (wq_queues q) sending disposed (wq_pending_items q) (wq_pending_bytes q)
    (wq_max_pending_items q) (wq_max_pending_bytes q).
Definition new_context (c : WriteContext) (q : WriteQueue) : nat * WriteQueue :=
  (wq_fresh q, mkWriteQueue (<[wq_fresh q := c]> (wq_contexts q)) (S (wq_fresh q)) (wq_in_flight q) (wq_queues q) (wq_sending q)
    (wq_disposed q) (wq_pending_items q) (wq_pending_bytes q) (wq_max_pending_items q) (wq_max_pending_bytes q)).

(** ** Claims *)
Definition claim (m : gmap nat WriteContext) (id : nat) : option (list nat * Z) * gmap nat WriteContext :=
  match m !! id with
  | None => (None, m)
  | Some c => let '(won, c) := Context_Claim c in (won, <[id := c]> m)
  end.
(** The waiting contexts of a queue that is given up, with the callbacks that are run. *)
Fixpoint claim_all (m : gmap nat WriteContext) (l : list nat) : list nat * gmap nat WriteContext :=
  match l with
  | [] => ([], m)
  | id :: l =>
      let '(won, m) := claim m id in
      let '(callbacks, m) := claim_all m l in
      (match won with Some (cb, _) => cb ++ callbacks | None => callbacks end, m)
  end.

(** ** Gathering *)
Definition kMaxGatherItems : nat := 64.
Definition kMaxGatherBytes : Z := 256 * 1024.
Fixpoint gather_count (m : gmap nat WriteContext) (count : nat) (bytes : Z) (l : list nat) : nat :=
  match l with
  | [] => count
  | id :: l =>
      match m !! id with
      | Some c =>
          if (kMaxGatherItems <=? count)%nat || bool_decide (cx_packet c = None) || (kMaxGatherBytes <? bytes + cx_length c) then count
          else gather_count m (S count) (bytes + cx_length c) l
      | None => count
      end
  end.
(** The merged segments, their length and the callbacks. *)
Fixpoint merge_contexts (m : gmap nat WriteContext) (l : list nat) : list (option nat * Z) * Z * list nat * gmap nat WriteContext :=
  match l with
  | [] => ([], 0, [], m)
  | id :: l =>
      let packet := c ← m !! id; cx_packet c in
      let '(won, m) := claim m id in
      let '(segments, bytes, callbacks, m) := merge_contexts m l in
      let '(cb, length) := default ([], 0) won in
      ((packet, length) :: segments, length + bytes, cb ++ callbacks, m)
  end.
(** [gather]: the transport can gather and the batch could be allocated.  [None]: the queue is empty. *)
Definition TakeNextLocked (q : WriteQueue) (gather : bool) : option (nat * WriteQueue) :=
  match wq_queues q with
  | [] => None
  | next :: rest =>
      let q := set_active (Some next) rest q in
      let single := Some (next, q) in
      match wq_contexts q !! next with
      | None => single
      | Some c =>
          if bool_decide (rest = []) || negb gather then single else
          let count := gather_count (wq_contexts q) 1 (cx_length c) rest in
          if (count <? 2)%nat || bool_decide (cx_packet c = None) then single else
          let '(segments, bytes, callbacks, m) := merge_contexts (wq_contexts q) (next :: take (count - 1) rest) in
          let q := set_pending_counters (wq_pending_items q - (Z.of_nat count - 1)) (wq_pending_bytes q) (set_contexts m q) in
          let '(batch, q) := new_context (mkContext None bytes segments (Some callbacks)) q in
          Some (batch, set_active (Some batch) (drop (count - 1) rest) q)
      end
  end.

(** ** Critical sections *)
Inductive Admission := WriteRejected | WriteQueued (id : nat) | WriteSelected (id : nat).
Definition WriteBytes_lock (q : WriteQueue) (packet_length : Z) : Admission * WriteQueue :=
  if wq_disposed q || (packet_length <? 1) then (WriteRejected, q) else
  if (0 <? wq_max_pending_items q) && (wq_max_pending_items q <=? wq_pending_items q) ||
     (0 <? wq_max_pending_bytes q) && (wq_max_pending_bytes q <? wq_pending_bytes q + packet_length) then (WriteRejected, q) else
  let '(id, q) := new_context (mkContext (Some (wq_fresh q)) packet_length [] (Some [wq_fresh q])) q in
  let q := set_pending_counters (wq_pending_items q + 1) (wq_pending_bytes q + packet_length) q in
  match wq_in_flight q with
  | Some _ => (WriteQueued id, set_flags true (wq_disposed q) (set_active (wq_in_flight q) (wq_queues q ++ [id]) q))
  | None => (WriteSelected id, set_flags true (wq_disposed q) (set_active (Some id) (wq_queues q) q))
  end.

(** What [DoTryWriteBytesUnsafe] hands to the transport. *)
Definition Dispatch_lock (q : WriteQueue) (id : nat) : option (list nat) :=
  if wq_disposed q || negb (bool_decide (wq_in_flight q = Some id)) then None else
  Some (match wq_contexts q !! id with Some c => payload c | None => [] end).

Record Settled := mkSettled { st_callbacks : list nat; st_failed : list nat; st_next : option nat }.
(** A completion: the callbacks of the write, those of the waiting writes it fails, and the next context. *)
Definition Complete_lock (q : WriteQueue) (id : nat) (ok gather : bool) : option Settled * WriteQueue :=
  if negb (bool_decide (wq_in_flight q = Some id)) then (None, q) else
  match claim (wq_contexts q) id with
  | (None, _) => (None, q)
  | (Some (callbacks, length), m) =>
      let q := set_pending_counters (wq_pending_items q - 1) (wq_pending_bytes q - length) (set_active None (wq_queues q) (set_contexts m q)) in
      if negb ok then
        let '(failed, m) := claim_all (wq_contexts q) (wq_queues q) in
        (Some (mkSettled callbacks failed None), set_flags false true (set_pending_counters 0 0 (set_active None [] (set_contexts m q))))
      else if negb (wq_disposed q) then
        match TakeNextLocked q gather with
        | Some (next, q) => (Some (mkSettled callbacks [] (Some next)), set_flags true (wq_disposed q) q)
        | None => (Some (mkSettled callbacks [] None), set_flags false (wq_disposed q) q)
        end
      else (Some (mkSettled callbacks [] None), set_flags false (wq_disposed q) q)
  end.
(** The transport did not start the write; [None]: its context had been settled already. *)
Definition StartFailed_lock (q : WriteQueue) (id : nat) (callback_on_start_failure gather : bool) : option Settled * WriteQueue :=
  match claim (wq_contexts q) id with
  | (None, _) => (None, q)
  | (Some (callbacks, length), m) =>
      let in_flight := if bool_decide (wq_in_flight q = Some id) then None else wq_in_flight q in
      let q := set_pending_counters (wq_pending_items q - 1) (wq_pending_bytes q - length) (set_active in_flight (wq_queues q) (set_contexts m q)) in
      if callback_on_start_failure then
        let '(failed, m) := claim_all (wq_contexts q) (wq_queues q) in
        (Some (mkSettled callbacks failed None),
         set_flags (bool_decide (is_Some in_flight)) true (set_pending_counters 0 0 (set_active in_flight [] (set_contexts m q))))
      else if negb (wq_disposed q) then
        match TakeNextLocked q gather with
        | Some (next, q) => (Some (mkSettled [] [] (Some next)), set_flags true (wq_disposed q) q)
        | None => (Some (mkSettled [] [] None), set_flags (bool_decide (is_Some in_flight)) (wq_disposed q) q)
        end
      else (Some (mkSettled [] [] None), set_flags (bool_decide (is_Some in_flight)) (wq_disposed q) q)
  end.
(** The callbacks that are run with false. *)
Definition Finalize_lock (q : WriteQueue) : list nat * WriteQueue :=
  if wq_disposed q then ([], q) else
  let '(active, m) := match wq_in_flight q with
    | Some id => let '(won, m) := claim (wq_contexts q) id in (match won with Some (cb, _) => cb | None => [] end, m)
    | None => ([], wq_contexts q)
    end in
  let '(waiting, m) := claim_all m (wq_queues q) in
  (active ++ waiting, set_flags false true (set_pending_counters 0 0 (set_active None [] (set_contexts m q)))).

(** ** Runs *)
(** Between its sections a call of [DoTryWriteBytesUnsafe] has a context to hand over, or one whose start failed. *)
Inductive WriteTask := Dispatch (id : nat) (callback_on_start_failure : bool) | StartFailed (id : nat) (callback_on_start_failure : bool).
Record QueueMachine := mkQueueMachine {
  qm_queue : WriteQueue;
  qm_tasks : list WriteTask;
  (** The contexts with the transport, whose completions may come; and the packets it was handed, in order. *)
  qm_started : list nat;
  qm_wire : list nat;
  (** The writes admitted, the answers of [WriteBytes] and the callbacks run. *)
  qm_admitted : list nat;
  qm_returned : list (nat * bool);
  qm_called : list (nat * bool);
}.
Inductive QueueEvent :=
  | EvWrite (packet_length : Z)
  | EvDispatch (n : nat) (started : bool)
  | EvStartFailed (n : nat) (gather : bool)
  | EvComplete (id : nat) (ok gather : bool)
  | EvFinalize.
Definition QueueMachine_new (q : WriteQueue) : QueueMachine := mkQueueMachine q [] [] [] [] [] [].

Definition next_task (next : option nat) : list WriteTask := match next with Some id => [Dispatch id true] | None => [] end.
(** The answer of [WriteBytes], when the task is its own. *)
Definition answer (id : nat) (queued : bool) (b : bool) : list (nat * bool) := if queued then [] else [(id, b)].
Definition with_result (b : bool) (ids : list nat) : list (nat * bool) := (λ id, (id, b)) <$> ids.

Definition queue_step (s : QueueMachine) (e : QueueEvent) : QueueMachine :=
  match e with
  | EvWrite len =>
      match WriteBytes_lock (qm_queue s) len with
      | (WriteRejected, q) => mkQueueMachine q (qm_tasks s) (qm_started s) (qm_wire s) (qm_admitted s) (qm_returned s) (qm_called s)
      | (WriteQueued id, q) =>
          mkQueueMachine q (qm_tasks s) (qm_started s) (qm_wire s) (qm_admitted s ++ [id]) (qm_returned s ++ [(id, true)]) (qm_called s)
      | (WriteSelected id, q) =>
          mkQueueMachine q (qm_tasks s ++ [Dispatch id false]) (qm_started s) (qm_wire s) (qm_admitted s ++ [id]) (qm_returned s) (qm_called s)
      end
  | EvDispatch n started =>
      match qm_tasks s !! n with
      | Some (Dispatch id flag) =>
          match Dispatch_lock (qm_queue s) id with
          | None => mkQueueMachine (qm_queue s) (delete n (qm_tasks s)) (qm_started s) (qm_wire s) (qm_admitted s)
              (qm_returned s ++ answer id flag false) (qm_called s)
          | Some packets =>
              if started then mkQueueMachine (qm_queue s) (delete n (qm_tasks s)) (qm_started s ++ [id]) (qm_wire s ++ packets) (qm_admitted s)
                (qm_returned s ++ answer id flag true) (qm_called s)
              else mkQueueMachine (qm_queue s) (<[n := StartFailed id flag]> (qm_tasks s)) (qm_started s) (qm_wire s) (qm_admitted s)
                (qm_returned s) (qm_called s)
          end
      | _ => s
      end
  | EvStartFailed n gather =>
      match qm_tasks s !! n with
      | Some (StartFailed id flag) =>
          let tasks := delete n (qm_tasks s) in
          match StartFailed_lock (qm_queue s) id flag gather with
          | (None, q) => mkQueueMachine q tasks (qm_started s) (qm_wire s) (qm_admitted s) (qm_returned s ++ answer id flag true) (qm_called s)
          | (Some t, q) => mkQueueMachine q (tasks ++ next_task (st_next t)) (qm_started s) (qm_wire s) (qm_admitted s)
              (qm_returned s ++ answer id flag false) (qm_called s ++ with_result false (st_callbacks t ++ st_failed t))
          end
      | _ => s
      end
  | EvComplete id ok gather =>
      if negb (bool_decide (id ∈ qm_started s)) then s else
      match Complete_lock (qm_queue s) id ok gather with
      | (None, q) => mkQueueMachine q (qm_tasks s) (qm_started s) (qm_wire s) (qm_admitted s) (qm_returned s) (qm_called s)
      | (Some t, q) => mkQueueMachine q (qm_tasks s ++ next_task (st_next t)) (qm_started s) (qm_wire s) (qm_admitted s) (qm_returned s)
          (qm_called s ++ with_result ok (st_callbacks t) ++ with_result false (st_failed t))
      end
  | EvFinalize =>
      let '(failed, q) := Finalize_lock (qm_queue s) in
      mkQueueMachine q (qm_tasks s) (qm_started s) (qm_wire s) (qm_admitted s) (qm_returned s) (qm_called s ++ with_result false failed)
  end.

(** ** Claiming *)
Definition single_context (m : gmap nat WriteContext) (id : nat) : Prop :=
  ∃ len, m !! id = Some (mkContext (Some id) len [] (Some [id])).
Definition claimed_context : WriteContext := mkContext None 0 [] None.
Definition context_length (m : gmap nat WriteContext) (id : nat) : Z := from_option cx_length 0 (m !! id).
(** [m'] is [m] with the contexts of [l] claimed. *)
Definition claims (m m' : gmap nat WriteContext) (l : list nat) : Prop :=
  ∀ i, m' !! i = if decide (i ∈ l) then Some claimed_context else m !! i.

Lemma claim_single m id : single_context m id → claim m id = (Some ([id], context_length m id), <[id := claimed_context]> m).
Proof. intros [len E]. unfold claim, context_length. by rewrite E. Qed.
Lemma claim_open m id c cb :
  m !! id = Some c → cx_cb c = Some cb → claim m id = (Some (cb, context_length m id), <[id := claimed_context]> m).
Proof. intros E Ec. unfold claim, context_length, Context_Claim. by rewrite E, Ec. Qed.
Lemma claims_one m id : claims m (<[id := claimed_context]> m) [id].
Proof.
  intros i. case_decide as D; rewrite list_elem_of_singleton in D; [subst; apply lookup_insert_eq|]. by rewrite lookup_insert_ne.
Qed.
Lemma claims_nil m : claims m m [].
Proof. intros i. rewrite decide_False; [done|apply not_elem_of_nil]. Qed.
Lemma claims_app m m1 m2 l k : claims m m1 l → claims m1 m2 k → claims m m2 (l ++ k).
Proof. intros H1 H2 i. rewrite H2, H1. repeat case_decide; set_solver. Qed.
Lemma claims_single m m' l i : claims m m' l → i ∉ l → single_context m i → single_context m' i.
Proof. intros H Hi [len E]. exists len. by rewrite H, decide_False. Qed.
Lemma claims_Forall m m' l k :
  claims m m' l → (∀ i, i ∈ k → i ∉ l) → Forall (single_context m) k → Forall (single_context m') k.
Proof. intros H Hk. rewrite !Forall_forall. intros F i Hi. eapply claims_single; eauto. Qed.
Lemma claims_length m m' l i : claims m m' l → i ∉ l → context_length m' i = context_length m i.
Proof. intros H Hi. unfold context_length. by rewrite H, decide_False. Qed.
Lemma claims_open m m' l i c : claims m m' l → m' !! i = Some c → is_Some (cx_cb c) → (i ∉ l) ∧ m !! i = Some c.
Proof. intros H E Hc. rewrite H in E. case_decide; [|done]. injection E as <-. by destruct Hc. Qed.

Lemma claim_all_singles l : ∀ m, NoDup l → Forall (single_context m) l →
  ∃ m', claim_all m l = (l, m') ∧ claims m m' l.
Proof.
  induction l as [|id l IH]; intros m ND F; [exists m; split; [done|apply claims_nil]|].
  inversion ND as [|?? Hid ND']; subst. inversion F as [|?? F1 F2]; subst.
  destruct (IH (<[id := claimed_context]> m) ND') as (m' & E & Hm).
  { eapply claims_Forall; [apply claims_one| |done]. set_solver. }
  exists m'. simpl. rewrite (claim_single _ _ F1), E. split; [done|].
  apply (claims_app _ (<[id := claimed_context]> m) _ [id] l); [apply claims_one|done].
Qed.


Definition total_length (m : gmap nat WriteContext) (l : list nat) : Z := foldr (λ id n, context_length m id + n) 0 l.
Lemma total_length_app m l k : total_length m (l ++ k) = total_length m l + total_length m k.
Proof. unfold total_length. induction l; simpl; lia. Qed.
Lemma total_length_eq m m' l : (∀ i, i ∈ l → context_length m' i = context_length m i) → total_length m' l = total_length m l.
Proof.
  intros H. induction l as [|i l IH]; simpl; [done|]. rewrite IH by (intros j Hj; apply H; set_solver). f_equal. apply H. set_solver.
Qed.
Lemma claims_total m m' l k : claims m m' l → (∀ i, i ∈ k → i ∉ l) → total_length m' k = total_length m k.
Proof. intros H Hk. apply total_length_eq. intros i Hi. eapply claims_length; eauto. Qed.

Lemma merge_singles l : ∀ m, NoDup l → Forall (single_context m) l →
  ∃ segments m', merge_contexts m l = (segments, total_length m l, l, m') ∧ claims m m' l ∧ omap fst segments = l.
Proof.
  induction l as [|id l IH]; intros m ND F; [exists [], m; repeat split; apply claims_nil|].
  inversion ND as [|?? Hid ND']; subst. inversion F as [|?? F1 F2]; subst.
  pose proof (claims_one m id) as H1.
  destruct (IH (<[id := claimed_context]> m) ND') as (segments & m' & E & Hm & Es).
  { eapply claims_Forall; [exact H1| |done]. set_solver. }
  rewrite (claims_total _ _ _ l H1) in E by set_solver.
  exists ((Some id, context_length m id) :: segments), m'. simpl. rewrite (claim_single _ _ F1), E.
  destruct F1 as [len E1]. rewrite E1. simpl. repeat split; [|by f_equal].
  apply (claims_app _ (<[id := claimed_context]> m) _ [id] l); done.
Qed.

Lemma gather_count_range m l : ∀ count bytes, (count ≤ gather_count m count bytes l ≤ count + length l)%nat.
Proof.
  induction l as [|id l IH]; intros count bytes; simpl; [lia|]. destruct (m !! id) as [c|]; [|lia].
  case_match; [lia|]. pose proof (IH (S count) (bytes + cx_length c)). lia.
Qed.

(** ** The shape of the queue *)
(** The writes of the context in flight, in order. *)
Definition active_writes (q : WriteQueue) : list nat :=
  match wq_in_flight q with Some f => default [] (c ← wq_contexts q !! f; cx_cb c) | None => [] end.
(** The writes that were admitted and not settled, in order. *)
Definition live_writes (q : WriteQueue) : list nat := active_writes q ++ wq_queues q.
Definition pending_contexts (q : WriteQueue) : list nat := option_list (wq_in_flight q) ++ wq_queues q.

Record queue_wf (q : WriteQueue) : Prop := {
  wf_fresh : ∀ i c, wq_contexts q !! i = Some c → (i < wq_fresh q)%nat;
  wf_queued : Forall (single_context (wq_contexts q)) (wq_queues q);
  wf_active : ∀ f, wq_in_flight q = Some f →
    ∃ c, wq_contexts q !! f = Some c ∧ cx_cb c = Some (payload c) ∧ payload c ≠ [] ∧ f ∉ wq_queues q;
  wf_open : ∀ i c, wq_contexts q !! i = Some c → is_Some (cx_cb c) → wq_in_flight q = Some i ∨ i ∈ wq_queues q;
  wf_sorted : StronglySorted lt (live_writes q);
  wf_bound : Forall (λ w, w < wq_fresh q)%nat (live_writes q);
  wf_items : wq_pending_items q = Z.of_nat (length (pending_contexts q));
  wf_bytes : wq_pending_bytes q = total_length (wq_contexts q) (pending_contexts q);
}.
(** Outside the critical sections. *)
Record wq_ok (q : WriteQueue) : Prop := {
  ok_wf : queue_wf q;
  ok_idle : wq_in_flight q = None → wq_queues q = [];
  ok_disposed : wq_disposed q = true → wq_in_flight q = None;
  ok_sending : wq_sending q = bool_decide (is_Some (wq_in_flight q));
}.
(** Contexts are only made fresh or claimed. *)
Definition only_claims (q q' : WriteQueue) : Prop :=
  (wq_fresh q ≤ wq_fresh q')%nat ∧
  ∀ i c, (i < wq_fresh q)%nat → wq_contexts q' !! i = Some c → is_Some (cx_cb c) → wq_contexts q !! i = Some c.

Lemma wf_nodup q : queue_wf q → NoDup (live_writes q).
Proof.
  intros W. pose proof (wf_sorted _ W) as S. induction S as [|x l ? IH F]; constructor; [|done].
  intros Hx. rewrite Forall_forall in F. specialize (F x Hx). lia.
Qed.
Lemma queues_nodup q : queue_wf q → NoDup (wq_queues q).
Proof. intros W. apply wf_nodup in W. unfold live_writes in W. apply NoDup_app in W. naive_solver. Qed.
Lemma active_some q f c : wq_in_flight q = Some f → wq_contexts q !! f = Some c → active_writes q = default [] (cx_cb c).
Proof. intros E Ec. unfold active_writes. by rewrite E, Ec. Qed.
Lemma active_none q : wq_in_flight q = None → active_writes q = [].
Proof. intros E. unfold active_writes. by rewrite E. Qed.
Lemma only_claims_refl q : only_claims q q.
Proof. split; [lia|done]. Qed.
Lemma only_claims_trans q1 q2 q3 : only_claims q1 q2 → only_claims q2 q3 → only_claims q1 q3.
Proof. intros [L1 H1] [L2 H2]. split; [lia|]. intros i c Hi E Hc. apply H1; [done| |done]. apply H2; [lia|done..]. Qed.
Lemma claims_only q q' l : claims (wq_contexts q) (wq_contexts q') l → wq_fresh q' = wq_fresh q → only_claims q q'.
Proof. intros H E. split; [lia|]. intros i c _ E' Hc. by destruct (claims_open _ _ _ _ _ H E' Hc). Qed.

(** The active context is claimed, its writes leave the queue. *)
Lemma claim_active q id :
  queue_wf q → wq_in_flight q = Some id →
  ∃ m, claim (wq_contexts q) id = (Some (active_writes q, context_length (wq_contexts q) id), m) ∧
    let q' := set_pending_counters (wq_pending_items q - 1) (wq_pending_bytes q - context_length (wq_contexts q) id)
      (set_active None (wq_queues q) (set_contexts m q)) in
    queue_wf q' ∧ only_claims q q'.
Proof.
  intros W E. destruct (wf_active _ W _ E) as (c & Ec & Ecb & Hne & Hq).
  exists (<[id := claimed_context]> (wq_contexts q)). rewrite (claim_open _ _ _ _ Ec Ecb), (active_some _ _ _ E Ec), Ecb. split; [done|].
  intros q'. pose proof (claims_one (wq_contexts q) id) as H. split; [|apply (claims_only _ _ [id]); done].
  pose proof (wf_sorted _ W) as S. pose proof (wf_bound _ W) as B. unfold live_writes in S, B.
  apply StronglySorted_app in S as (_ & _ & S). apply Forall_app in B as [_ B].
  split; simpl; try done.
  - intros i c' Ei. destruct (decide (i = id)) as [->|Hi]; [by apply (wf_fresh _ W _ _ Ec)|].
    rewrite lookup_insert_ne in Ei by done. by apply (wf_fresh _ W _ _ Ei).
  - eapply claims_Forall; [exact H| |apply (wf_queued _ W)]. set_solver.
  - intros i c' Ei Hc. destruct (claims_open _ _ _ _ _ H Ei Hc) as [Hi Ei']. destruct (wf_open _ W _ _ Ei' Hc); [|auto]. set_solver.
  - rewrite (wf_items _ W). unfold pending_contexts. rewrite E. simpl. lia.
  - rewrite (wf_bytes _ W). unfold pending_contexts. rewrite E. simpl. rewrite (claims_total _ _ _ (wq_queues q) H) by set_solver. lia.
Qed.

(** The waiting contexts are given up. *)
Lemma abandon_waiting q :
  queue_wf q → wq_in_flight q = None →
  ∃ m, claim_all (wq_contexts q) (wq_queues q) = (wq_queues q, m) ∧
    let q' := set_flags false true (set_pending_counters 0 0 (set_active None [] (set_contexts m q))) in wq_ok q' ∧ only_claims q q'.
Proof.
  intros W E. destruct (claim_all_singles (wq_queues q) (wq_contexts q)) as (m & Ec & H);
    [by apply queues_nodup|apply (wf_queued _ W)|]. exists m. split; [done|]. intros q'.
  split; [|apply (claims_only _ _ (wq_queues q)); done]. split; [|done..].
  split; simpl; try done; [|constructor..| | ].
  - intros i c Ei. rewrite H in Ei. case_decide as D; [|by apply (wf_fresh _ W _ _ Ei)].
    pose proof (wf_queued _ W) as F. rewrite Forall_forall in F. destruct (F i D) as [len E']. by apply (wf_fresh _ W _ _ E').
  - intros i c Ei Hc. destruct (claims_open _ _ _ _ _ H Ei Hc) as [Hi Ei']. destruct (wf_open _ W _ _ Ei' Hc); [|done]. congruence.
  - constructor.
Qed.

(** A waiting context, made the one in flight. *)
Lemma select_single q next rest :
  queue_wf q → wq_in_flight q = None → wq_queues q = next :: rest →
  let q' := set_active (Some next) rest q in
  queue_wf q' ∧ only_claims q q' ∧ active_writes q' = [next].
Proof.
  intros W E Eq q'. pose proof (queues_nodup _ W) as ND. rewrite Eq in ND. apply NoDup_cons in ND as [Hn _].
  pose proof (wf_queued _ W) as F. rewrite Eq in F. apply Forall_cons in F as [[len En] F].
  assert (A : active_writes q' = [next]) by (rewrite (active_some q' next _ eq_refl En); done).
  pose proof (wf_sorted _ W) as S. pose proof (wf_bound _ W) as B. unfold live_writes in S, B. rewrite (active_none _ E), Eq in S, B.
  split; [|split; [apply (only_claims_refl q)|done]].
  split; unfold live_writes; rewrite ?A; simpl; try done; [apply (wf_fresh _ W)| | | |].
  - intros f [= <-]. eexists. split; [exact En|]. simpl. done.
  - intros i c Ei Hc. destruct (wf_open _ W _ _ Ei Hc) as [|Hi]; [congruence|]. rewrite Eq in Hi. set_solver.
  - rewrite (wf_items _ W). unfold pending_contexts. rewrite E, Eq. done.
  - rewrite (wf_bytes _ W). unfold pending_contexts. rewrite E, Eq. done.
Qed.

(** Waiting contexts, merged into a fresh one. *)
Lemma select_batch q l rest :
  queue_wf q → wq_in_flight q = None → wq_queues q = l ++ rest → l ≠ [] →
  ∃ segments m, merge_contexts (wq_contexts q) l = (segments, total_length (wq_contexts q) l, l, m) ∧
    let c := mkContext None (total_length (wq_contexts q) l) segments (Some l) in
    let q1 := set_pending_counters (wq_pending_items q - (Z.of_nat (length l) - 1)) (wq_pending_bytes q) (set_contexts m q) in
    let q' := set_active (Some (wq_fresh q)) rest (new_context c q1).2 in
    queue_wf q' ∧ only_claims q q' ∧ active_writes q' = l.
Proof.
  intros W E Eq Hl. pose proof (queues_nodup _ W) as ND. rewrite Eq in ND. apply NoDup_app in ND as (ND & Hlr & _).
  pose proof (wf_queued _ W) as F. rewrite Eq in F. apply Forall_app in F as [F1 F2].
  destruct (merge_singles l (wq_contexts q) ND F1) as (segments & m & Em & H & Es). exists segments, m. split; [done|]. intros c q1 q'.
  assert (Ec : wq_contexts q' !! wq_fresh q = Some c) by apply lookup_insert_eq.
  assert (A : active_writes q' = l) by (rewrite (active_some q' _ _ eq_refl Ec); done).
  pose proof (wf_sorted _ W) as S. pose proof (wf_bound _ W) as B. unfold live_writes in S, B. rewrite (active_none _ E), Eq in S, B.
  simpl in S, B. assert (Hf : ∀ i, i ∈ l ++ rest → i ≠ wq_fresh q).
  { intros i Hi ->. rewrite Forall_forall in B. specialize (B _ Hi). lia. }
  assert (Hm : ∀ i c', m !! i = Some c' → (i < wq_fresh q)%nat).
  { intros i c' Ei. rewrite H in Ei. case_decide as D; [|by apply (wf_fresh _ W _ _ Ei)].
    rewrite Forall_forall in B. apply B. set_solver. }
  assert (Hnew : ∀ i, i ≠ wq_fresh q → wq_contexts q' !! i = m !! i) by (intros i Hi; by apply lookup_insert_ne).
  assert (Hlen : ∀ i, i ∈ rest → context_length (wq_contexts q') i = context_length (wq_contexts q) i).
  { intros i Hi. unfold context_length. rewrite Hnew by set_solver. fold (context_length m i). apply (claims_length _ _ _ _ H).
    intros Hi'. by apply (Hlr i). }
  split; [|split; [|done]].
  - split; unfold live_writes; rewrite ?A.
    + intros i c' Ei. destruct (decide (i = wq_fresh q)) as [->|Hi]; simpl; [lia|]. rewrite Hnew in Ei by done. specialize (Hm _ _ Ei). lia.
    + simpl. rewrite Forall_forall in F2 |- *. intros i Hi. destruct (F2 i Hi) as [len Ei]. exists len.
      change (wq_contexts q' !! i = Some (mkContext (Some i) len [] (Some [i]))). rewrite Hnew by set_solver.
      rewrite H, decide_False; [done|]. intros Hi'. by apply (Hlr i).
    + intros f [= <-]. exists c. split; [done|]. assert (payload c = l) as ->.
      { unfold payload. simpl. destruct segments; [|exact Es]. by subst l. }
      split; [done|]. split; [done|]. simpl. intros Hi. apply (Hf (wq_fresh q)); set_solver.
    + intros i c' Ei Hc. destruct (decide (i = wq_fresh q)) as [->|Hi]; [by left|]. right. rewrite Hnew in Ei by done.
      destruct (claims_open _ _ _ _ _ H Ei Hc) as [Hil Ei']. destruct (wf_open _ W _ _ Ei' Hc) as [|Hq]; [congruence|].
      rewrite Eq in Hq. simpl. set_solver.
    + done.
    + eapply Forall_impl; [exact B|]. simpl. lia.
    + simpl. rewrite (wf_items _ W). unfold pending_contexts. rewrite E, Eq. simpl. rewrite length_app. lia.
    + change (wq_pending_bytes q = total_length (wq_contexts q') (wq_fresh q :: rest)). rewrite (wf_bytes _ W). unfold pending_contexts.
      rewrite E, Eq.
      change (option_list None ++ l ++ rest) with (l ++ rest). rewrite total_length_app, <- (total_length_eq _ _ rest Hlen).
      change (total_length (wq_contexts q') (wq_fresh q :: rest))
        with (context_length (wq_contexts q') (wq_fresh q) + total_length (wq_contexts q') rest).
      unfold context_length. by rewrite Ec.
  - split; [simpl; lia|]. intros i c' Hi Ei Hc. rewrite Hnew in Ei by lia. by destruct (claims_open _ _ _ _ _ H Ei Hc).
Qed.

Lemma take_next q gather :
  queue_wf q → wq_in_flight q = None → wq_queues q ≠ [] →
  ∃ next q', TakeNextLocked q gather = Some (next, q') ∧ queue_wf q' ∧ only_claims q q' ∧ wq_in_flight q' = Some next ∧
    (next ∈ wq_queues q ∨ next = wq_fresh q) ∧ live_writes q' = wq_queues q ∧ wq_disposed q' = wq_disposed q.
Proof.
  intros W E Hq. unfold TakeNextLocked. destruct (wq_queues q) as [|next rest] eqn:Eq; [done|].
  destruct (select_single _ _ _ W E Eq) as (W1 & O1 & A1).
  assert (single : ∃ n q', Some (next, set_active (Some next) rest q) = Some (n, q') ∧ queue_wf q' ∧ only_claims q q' ∧
    wq_in_flight q' = Some n ∧ (n ∈ next :: rest ∨ n = wq_fresh q) ∧ live_writes q' = next :: rest ∧ wq_disposed q' = wq_disposed q).
  { eexists _, _. split; [done|]. split; [done|]. split; [done|]. split; [done|]. split; [set_solver|]. split; [|done].
    unfold live_writes. by rewrite A1. }
  cbv zeta. change (wq_contexts (set_active (Some next) rest q)) with (wq_contexts q).
  destruct (wq_contexts q !! next) as [c|] eqn:En; [|done]. case_match; [done|].
  set (count := gather_count (wq_contexts q) 1 (cx_length c) rest). destruct (count <? 2)%nat eqn:E2; [done|].
  destruct (bool_decide (cx_packet c = None)); [done|]. apply Nat.ltb_ge in E2.
  pose proof (gather_count_range (wq_contexts q) rest 1 (cx_length c)) as R. fold count in R.
  destruct (select_batch q (next :: take (count - 1) rest) (drop (count - 1) rest) W E) as (segments & m & Em & W2 & O2 & A2);
    [simpl; rewrite take_drop; done|done|]. rewrite Em.
  simpl length in W2, O2, A2. rewrite length_take_le in W2, O2, A2 by lia.
  replace (Z.of_nat (S (count - 1))) with (Z.of_nat count) in W2, O2, A2 by lia.
  eexists _, _. split; [reflexivity|]. split; [exact W2|]. split; [exact O2|]. split; [done|]. split; [by right|]. split; [|done].
  unfold live_writes. setoid_rewrite A2. simpl. by rewrite take_drop.
Qed.

(** ** What each critical section does *)
Lemma ok_live_nil q : wq_ok q → wq_in_flight q = None → live_writes q = [].
Proof. intros K E. unfold live_writes. by rewrite (active_none _ E), (ok_idle _ K E). Qed.
Lemma wf_flags q sending disposed : queue_wf q → queue_wf (set_flags sending disposed q).
Proof. intros [? ? ? ? ? ? ? ?]. by split. Qed.

Definition admits (q q' : WriteQueue) (id : nat) : Prop :=
  id = wq_fresh q ∧ wq_ok q' ∧ only_claims q q' ∧ wq_fresh q' = S (wq_fresh q) ∧ live_writes q' = live_writes q ++ [id] ∧
  single_context (wq_contexts q') id.
Definition with_packet (q : WriteQueue) (len : Z) : WriteQueue :=
  set_pending_counters (wq_pending_items q + 1) (wq_pending_bytes q + len)
    (new_context (mkContext (Some (wq_fresh q)) len [] (Some [wq_fresh q])) q).2.
Lemma with_packet_wf q len :
  queue_wf q →
  let q' := with_packet q len in
  only_claims q q' ∧ single_context (wq_contexts q') (wq_fresh q) ∧
  (∀ i, i ≠ wq_fresh q → wq_contexts q' !! i = wq_contexts q !! i) ∧
  active_writes q' = active_writes q ∧ total_length (wq_contexts q') (pending_contexts q) = total_length (wq_contexts q) (pending_contexts q).
Proof.
  intros W q'. assert (Hnew : ∀ i, i ≠ wq_fresh q → wq_contexts q' !! i = wq_contexts q !! i).
  { intros i Hi. by apply lookup_insert_ne. }
  assert (Hact : ∀ f, wq_in_flight q = Some f → f ≠ wq_fresh q).
  { intros f E. destruct (wf_active _ W _ E) as (c & Ec & _). pose proof (wf_fresh _ W _ _ Ec). lia. }
  split; [split; [simpl; lia|intros i c Hi; by rewrite Hnew by lia]|]. split; [exists len; apply lookup_insert_eq|]. split; [done|]. split.
  - unfold active_writes. simpl. destruct (wq_in_flight q) as [f|] eqn:E; [|done].
    change (<[wq_fresh q := _]> (wq_contexts q)) with (wq_contexts q'). rewrite Hnew by auto. done.
  - apply total_length_eq. intros i Hi. unfold context_length. rewrite Hnew; [done|]. unfold pending_contexts in Hi.
    apply elem_of_app in Hi as [Hi|Hi]; [destruct (wq_in_flight q) eqn:E; simpl in Hi; set_solver|].
    intros ->.
    pose proof (wf_bound _ W) as B. rewrite Forall_forall in B. apply (Nat.lt_irrefl (wq_fresh q)), B. unfold live_writes. set_solver.
Qed.


(** Its context, waiting behind the one in flight or in flight itself. *)
Definition placed (q : WriteQueue) (active : option nat) (queues : list nat) : Prop :=
  (active, queues) = match wq_in_flight q with Some f => (Some f, wq_queues q ++ [wq_fresh q]) | None => (Some (wq_fresh q), wq_queues q) end.
Lemma placed_last q len active queues :
  wq_ok q → placed q active queues →
  let q' := set_flags true (wq_disposed q) (set_active active queues (with_packet q len)) in
  live_writes q' = live_writes q ++ [wq_fresh q] ∧ pending_contexts q' = pending_contexts q ++ [wq_fresh q].
Proof.
  intros K Ea q'. pose proof (ok_wf _ K) as W. destruct (with_packet_wf q len W) as (_ & _ & _ & A & _). unfold placed in Ea.
  unfold pending_contexts. simpl. destruct (wq_in_flight q) as [f|] eqn:Ei; injection Ea as -> ->.
  - assert (active_writes q' = active_writes q) as A' by (rewrite <- A; unfold active_writes; simpl; by rewrite Ei).
    split; [|done]. unfold live_writes. rewrite A', <- (assoc_L (++)). done.
  - rewrite (ok_live_nil _ K Ei), (ok_idle _ K Ei). split; [|done]. unfold live_writes. simpl. rewrite (ok_idle _ K Ei), app_nil_r.
    unfold active_writes. simpl. by rewrite lookup_insert_eq.
Qed.
Lemma admit_packet q len active queues :
  wq_ok q → wq_disposed q = false → placed q active queues →
  admits q (set_flags true (wq_disposed q) (set_active active queues (with_packet q len))) (wq_fresh q).
Proof.
  intros K Ed Ea. pose proof (ok_wf _ K) as W. destruct (with_packet_wf q len W) as (O & Sg & Hnew & _ & T).
  destruct (placed_last _ len _ _ K Ea) as [L P]. unfold placed in Ea.
  set (q' := set_flags _ _ _) in *. change (wq_contexts (with_packet q len)) with (wq_contexts q') in *.
  assert (Hlt : ∀ i, i ∈ live_writes q → (i < wq_fresh q)%nat).
  { pose proof (wf_bound _ W) as B. by rewrite Forall_forall in B. }
  assert (F : ∀ f, wq_in_flight q = Some f → f ≠ wq_fresh q).
  { intros f E. destruct (wf_active _ W _ E) as (c & Ec & _). pose proof (wf_fresh _ W _ _ Ec). lia. }
  split; [done|]. split; [|done]. split; [|simpl; destruct (wq_in_flight q) eqn:Ei; injection Ea as -> ->; try done..].
  2:{ by rewrite Ed. }
  2:{ by rewrite Ed. }
  split; rewrite ?L, ?P.
  - intros i c Ei. destruct (decide (i = wq_fresh q)) as [->|Hi]; [simpl; lia|]. rewrite Hnew in Ei by done.
    pose proof (wf_fresh _ W _ _ Ei). simpl. lia.
  - assert (Q : Forall (single_context (wq_contexts q')) (wq_queues q)).
    { eapply Forall_impl; [apply Forall_and; split; [apply (wf_queued _ W)|]|].
      - rewrite Forall_forall. intros i Hi. apply (Hlt i). unfold live_writes. set_solver.
      - simpl. intros i [[l El] Hi]. exists l. rewrite Hnew by lia. done. }
    destruct (wq_in_flight q); injection Ea as -> ->; simpl; [|done]. apply Forall_app. by rewrite Forall_singleton.
  - intros f Ef. simpl in Ef. destruct (wq_in_flight q) as [f0|] eqn:Ei; injection Ea as -> ->; injection Ef as <-.
    + destruct (wf_active _ W _ Ei) as (c & Ec & Ecb & Hp & Hq). exists c. rewrite Hnew by auto. repeat split; try done.
      simpl. pose proof (F _ eq_refl). set_solver.
    + destruct Sg as [l Sg]. eexists. split; [exact Sg|]. simpl. rewrite (ok_idle _ K Ei). repeat split; try done. set_solver.
  - intros i c Ei Hc. destruct (decide (i = wq_fresh q)) as [->|Hi].
    + simpl. destruct (wq_in_flight q); injection Ea as -> ->; set_solver.
    + rewrite Hnew in Ei by done. destruct (wf_open _ W _ _ Ei Hc) as [E|Hq]; simpl.
      * left. rewrite E in Ea. by injection Ea as -> ->.
      * right. destruct (wq_in_flight q); injection Ea as -> ->; set_solver.
  - apply StronglySorted_app. split; [|split; [apply (wf_sorted _ W)|repeat constructor]]. intros x y Hx Hy. specialize (Hlt _ Hx). set_solver.
  - apply Forall_app. split; [|repeat constructor]. rewrite Forall_forall. intros i Hi. specialize (Hlt _ Hi). simpl. lia.
  - simpl. rewrite (wf_items _ W), length_app. simpl. lia.
  - change (wq_pending_bytes q + len = total_length (wq_contexts q') (pending_contexts q ++ [wq_fresh q])).
    rewrite total_length_app, T, (wf_bytes _ W). f_equal. simpl. unfold context_length.
    change (wq_contexts q') with (<[wq_fresh q := mkContext (Some (wq_fresh q)) len [] (Some [wq_fresh q])]> (wq_contexts q)).
    rewrite lookup_insert_eq. simpl. lia.
Qed.

Lemma write_lock q len :
  wq_ok q →
  match WriteBytes_lock q len with
  | (WriteRejected, q') => q' = q
  | (WriteQueued id, q') =>
      admits q q' id ∧ wq_in_flight q' = wq_in_flight q ∧ is_Some (wq_in_flight q) ∧ wq_queues q' = wq_queues q ++ [id]
  | (WriteSelected id, q') => admits q q' id ∧ wq_in_flight q' = Some id ∧ wq_in_flight q = None ∧ wq_queues q' = []
  end.
Proof.
  intros K. unfold WriteBytes_lock. destruct (wq_disposed q) eqn:Ed; [done|]. simpl. destruct (len <? 1); [done|].
  match goal with |- context [if ?b then _ else _] => destruct b end; [done|]. destruct (wq_in_flight q) as [f|] eqn:Ei.
  - split; [apply (admit_packet q len (Some f) (wq_queues q ++ [wq_fresh q]) K Ed); unfold placed; by rewrite Ei|].
    by split_and!.
  - split; [apply (admit_packet q len (Some (wq_fresh q)) (wq_queues q) K Ed); unfold placed; by rewrite Ei|].
    split_and!; try done. by apply (ok_idle _ K).
Qed.

Lemma dispatch_lock q id :
  wq_ok q →
  match Dispatch_lock q id with
  | Some packets => wq_in_flight q = Some id ∧ packets = active_writes q
  | None => wq_in_flight q ≠ Some id
  end.
Proof.
  intros K. unfold Dispatch_lock. destruct (wq_disposed q) eqn:Ed; simpl; [rewrite (ok_disposed _ K Ed); done|].
  case_bool_decide as E; simpl; [|done]. split; [done|]. destruct (wf_active _ (ok_wf _ K) _ E) as (c & Ec & Ecb & _).
  by rewrite (active_some _ _ _ E Ec), Ec, Ecb.
Qed.

(** A context was settled: its writes leave, those of [st_failed] are given up or the next context is selected. *)
Record settles (q q' : WriteQueue) (t : Settled) : Prop := {
  se_ok : wq_ok q';
  se_claims : only_claims q q';
  se_rest : st_failed t ++ live_writes q' = wq_queues q;
  se_next : wq_in_flight q' = st_next t;
  se_from : ∀ n, st_next t = Some n → n ∈ wq_queues q ∨ n = wq_fresh q;
}.
Lemma settle_next q0 q gather (dispose : bool) callbacks :
  queue_wf q → wq_in_flight q = None → only_claims q0 q → wq_queues q = wq_queues q0 → wq_fresh q = wq_fresh q0 →
  (wq_disposed q = true → wq_queues q = []) →
  match (if negb (wq_disposed q) then
      match TakeNextLocked q gather with
      | Some (next, q) => (Some (mkSettled callbacks [] (Some next)), set_flags true (wq_disposed q) q)
      | None => (Some (mkSettled callbacks [] None), set_flags false (wq_disposed q) q)
      end else (Some (mkSettled callbacks [] None), set_flags false (wq_disposed q) q)) with
  | (Some t, q') => st_callbacks t = callbacks ∧ settles q0 q' t
  | (None, _) => False
  end.
Proof.
  intros W E O Eq Ef Hd. destruct (decide (wq_queues q = [])) as [En|En].
  - assert (TakeNextLocked q gather = None) as -> by (unfold TakeNextLocked; by rewrite En).
    destruct (wq_disposed q) eqn:Ed; (split; [done|]); (split; [split; [by apply wf_flags|done..|]| | | |]); try done; simpl.
    all: try by rewrite E.
    all: unfold live_writes, active_writes; simpl; by rewrite E, <- Eq, En.
  - destruct (wq_disposed q) eqn:Ed; [by destruct En; auto|]. simpl.
    destruct (take_next q gather W E En) as (next & q' & -> & W' & O' & E' & Hn & L & D). split; [done|]. split; simpl.
    + split; [by apply wf_flags|simpl; by rewrite E'|simpl; congruence|simpl; by rewrite E'].
    + by eapply only_claims_trans.
    + by rewrite <- Eq.
    + done.
    + intros n [= <-]. rewrite <- Eq, <- Ef. done.
Qed.

Lemma settle_failed q0 q callbacks :
  queue_wf q → wq_in_flight q = None → only_claims q0 q → wq_queues q = wq_queues q0 →
  ∃ m, claim_all (wq_contexts q) (wq_queues q) = (wq_queues q, m) ∧
    settles q0 (set_flags false true (set_pending_counters 0 0 (set_active None [] (set_contexts m q)))) (mkSettled callbacks (wq_queues q) None).
Proof.
  intros W E O Eq. destruct (abandon_waiting q W E) as (m & Em & K & O'). exists m. split; [done|]. split; simpl; try done.
  - by eapply only_claims_trans.
  - by rewrite (ok_live_nil _ K), app_nil_r.
Qed.

Lemma complete_lock q id ok gather :
  wq_ok q →
  match Complete_lock q id ok gather with
  | (Some t, q') => wq_in_flight q = Some id ∧ st_callbacks t = active_writes q ∧ settles q q' t
  | (None, q') => q' = q
  end.
Proof.
  intros K. unfold Complete_lock. case_bool_decide as E; [|done]. simpl.
  destruct (claim_active q id (ok_wf _ K) E) as (m & -> & W & O). destruct ok; simpl.
  - epose proof (settle_next q _ gather true (active_writes q) W eq_refl O eq_refl eq_refl) as H. simpl in H. case_match.
    destruct o; [|destruct H; intros Hd; by rewrite (ok_disposed _ K Hd) in E].
    split; [done|]. apply H. intros Hd. by rewrite (ok_disposed _ K Hd) in E.
  - destruct (settle_failed q _ (active_writes q) W eq_refl O eq_refl) as (m' & Em & S). simpl in Em, S. rewrite Em. done.
Qed.

Lemma start_failed_lock q id flag gather :
  wq_ok q → id ∉ wq_queues q →
  match StartFailed_lock q id flag gather with
  | (Some t, q') => wq_in_flight q = Some id ∧ st_callbacks t = (if flag then active_writes q else []) ∧ settles q q' t
  | (None, q') => q' = q ∧ wq_in_flight q ≠ Some id
  end.
Proof.
  intros K Hid. unfold StartFailed_lock. destruct (decide (wq_in_flight q = Some id)) as [E|E].
  - destruct (claim_active q id (ok_wf _ K) E) as (m & -> & W & O). rewrite bool_decide_eq_true_2 by done. destruct flag; simpl.
    + destruct (settle_failed q _ (active_writes q) W eq_refl O eq_refl) as (m' & Em & S). simpl in Em, S. rewrite Em. done.
    + epose proof (settle_next q _ gather true [] W eq_refl O eq_refl eq_refl) as H. simpl in H.
      case_match.
      destruct o; [|destruct H; intros Hd; by rewrite (ok_disposed _ K Hd) in E].
      split; [done|]. apply H. intros Hd. by rewrite (ok_disposed _ K Hd) in E.
  - assert ((claim (wq_contexts q) id).1 = None) as Ec.
    { unfold claim, Context_Claim. destruct (wq_contexts q !! id) as [c|] eqn:Ei; [|done].
      destruct (cx_cb c) as [cb|] eqn:Ecb; [|done]. destruct (wf_open _ (ok_wf _ K) _ _ Ei); [rewrite Ecb; eauto|done|done]. }
    destruct (claim (wq_contexts q) id) as [[] ?]; [done|]. done.
Qed.

Lemma finalize_lock q :
  wq_ok q →
  (Finalize_lock q).1 = live_writes q ∧ wq_ok (Finalize_lock q).2 ∧ only_claims q (Finalize_lock q).2 ∧
  wq_in_flight (Finalize_lock q).2 = None.
Proof.
  intros K. pose proof (ok_wf _ K) as W. unfold Finalize_lock. destruct (wq_disposed q) eqn:Ed.
  { pose proof (ok_disposed _ K Ed) as E. rewrite (ok_live_nil _ K E). by split_and!; [|apply K|apply only_claims_refl|]. }
  destruct (wq_in_flight q) as [f|] eqn:E.
  - destruct (claim_active q f W E) as (m & -> & W' & O). destruct (abandon_waiting _ W' eq_refl) as (m' & Em & K' & O').
    simpl in Em. rewrite Em. split_and!; [done|apply K'| |done]. by eapply only_claims_trans.
  - destruct (abandon_waiting _ W E) as (m & -> & K' & O'). split_and!; [|apply K'|apply O'|done]. unfold live_writes.
    by rewrite (active_none _ E).
Qed.

(** ** Invariant of the runs *)
Definition write_task_id (t : WriteTask) : nat := match t with Dispatch id _ | StartFailed id _ => id end.
Definition task_queued (t : WriteTask) : bool := match t with Dispatch _ flag | StartFailed _ flag => flag end.
(** The contexts some caller or the transport holds. *)
Definition write_tokens (s : QueueMachine) : list nat := (write_task_id <$> qm_tasks s) ++ qm_started s.
(** The writes that can still go out, in order. *)
Definition unstarted (s : QueueMachine) : list nat :=
  match wq_in_flight (qm_queue s) with
  | Some f => if decide (f ∈ qm_started s) then wq_queues (qm_queue s) else live_writes (qm_queue s)
  | None => live_writes (qm_queue s)
  end.

(** Who holds which context. *)
Record tokens_ok (s : QueueMachine) : Prop := {
  to_once : NoDup (write_tokens s);
  to_old : ∀ i, i ∈ write_tokens s → (i < wq_fresh (qm_queue s))%nat ∧ (i ∉ wq_queues (qm_queue s));
  to_held : ∀ f, wq_in_flight (qm_queue s) = Some f → f ∈ write_tokens s;
  to_own : ∀ t c, t ∈ qm_tasks s → task_queued t = false → wq_contexts (qm_queue s) !! write_task_id t = Some c → is_Some (cx_cb c) →
    cx_cb c = Some [write_task_id t];
}.
(** What became of the writes. *)
Record writes_ok (s : QueueMachine) : Prop := {
  wo_wire : StronglySorted lt (qm_wire s ++ unstarted s);
  wo_old : Forall (λ w, w < wq_fresh (qm_queue s))%nat (qm_wire s);
  wo_sent : ∀ f, wq_in_flight (qm_queue s) = Some f → f ∈ qm_started s → active_writes (qm_queue s) ⊆ qm_wire s;
  wo_admitted : qm_wire s ++ live_writes (qm_queue s) ⊆ qm_admitted s;
  wo_once : NoDup ((qm_called s).*1);
  wo_called : ∀ w b, (w, b) ∈ qm_called s →
    (w < wq_fresh (qm_queue s))%nat ∧ (w ∉ live_writes (qm_queue s)) ∧ (b = true → w ∈ qm_wire s);
  wo_settled : ∀ w, w ∈ qm_admitted s → (∃ b, (w, b) ∈ qm_called s) ∨ (w, false) ∈ qm_returned s ∨ w ∈ live_writes (qm_queue s);
}.
Definition machine_ok (s : QueueMachine) : Prop := wq_ok (qm_queue s) ∧ tokens_ok s ∧ writes_ok s.

Lemma sorted_sublist (l k : list nat) : sublist l k → StronglySorted lt k → StronglySorted lt l.
Proof.
  induction 1 as [|x l k H IH|x l k H IH]; intros S; [done| |]; apply StronglySorted_cons in S as [F S]; [|auto].
  apply StronglySorted_cons. split; [|auto]. rewrite Forall_forall in F |- *. intros y Hy. eapply F, elem_of_sublist; eauto.
Qed.
Lemma with_result_elem w b' b ids : (w, b') ∈ with_result b ids ↔ w ∈ ids ∧ b' = b.
Proof. unfold with_result. set_solver. Qed.
Lemma with_result_fst b ids : (with_result b ids).*1 = ids.
Proof. unfold with_result. rewrite <- list_fmap_compose. apply list_fmap_id. Qed.
Lemma live_bound q w : wq_ok q → w ∈ live_writes q → (w < wq_fresh q)%nat.
Proof. intros K. pose proof (wf_bound _ (ok_wf _ K)) as B. rewrite Forall_forall in B. apply B. Qed.

Lemma machine_start q : wq_ok q → live_writes q = [] → machine_ok (QueueMachine_new q).
Proof.
  intros K L. assert (wq_in_flight q = None) as E.
  { destruct (wq_in_flight q) as [f|] eqn:E; [|done]. destruct (wf_active _ (ok_wf _ K) _ E) as (c & Ec & Ecb & Hp & _).
    unfold live_writes in L. rewrite (active_some _ _ _ E Ec), Ecb in L. apply app_nil in L as [L _]. done. }
  split; [done|]. split; split; simpl; rewrite ?L; unfold unstarted; simpl; rewrite ?E, ?L; try done; try constructor; set_solver.
Qed.

(** A write is admitted: behind the context in flight, or in flight and held by its caller. *)
Definition admit_place (q q' : WriteQueue) (id : nat) (new : list WriteTask) : Prop :=
  (new = [] ∧ wq_in_flight q' = wq_in_flight q ∧ is_Some (wq_in_flight q) ∧ wq_queues q' = wq_queues q ++ [id]) ∨
  (new = [Dispatch id false] ∧ wq_in_flight q' = Some id ∧ wq_in_flight q = None ∧ wq_queues q' = []).
Definition admit_machine (s : QueueMachine) (q' : WriteQueue) (id : nat) (new : list WriteTask) (returned : list (nat * bool)) : QueueMachine :=
  mkQueueMachine q' (qm_tasks s ++ new) (qm_started s) (qm_wire s) (qm_admitted s ++ [id]) (qm_returned s ++ returned) (qm_called s).
Lemma admit_tokens s q' id new returned :
  tokens_ok s → admits (qm_queue s) q' id → admit_place (qm_queue s) q' id new → tokens_ok (admit_machine s q' id new returned).
Proof.
  intros I (Hid & K & O & Ef & L & Sg) Hn. set (s' := admit_machine _ _ _ _ _).
  assert (Hold : ∀ i, i ∈ write_tokens s → i ≠ id) by (intros i Hi ->; destruct (to_old _ I _ Hi); lia).
  assert (Htok : ∀ i, i ∈ write_tokens s' → i ∈ write_tokens s ∨ (i = id ∧ new ≠ [])).
  { intros i. unfold write_tokens. simpl. rewrite fmap_app. destruct Hn as [(-> & _)|(-> & _)]; set_solver. }
  split; simpl; try done.
  - unfold write_tokens. simpl. rewrite fmap_app. destruct Hn as [(-> & _)|(-> & _)]; simpl; [rewrite app_nil_r; apply (to_once _ I)|].
    rewrite <- (assoc_L (++)). simpl. rewrite <- Permutation_middle. apply NoDup_cons. split; [|apply (to_once _ I)].
    intros Hi. by apply (Hold id).
  - intros i Hi. destruct (Htok i Hi) as [Ho|[-> Hne]].
    + destruct (to_old _ I _ Ho). pose proof (Hold i Ho). split; [lia|]. destruct Hn as [(_ & _ & _ & ->)|(_ & _ & _ & ->)]; set_solver.
    + split; [lia|]. destruct Hn as [(-> & _)|(_ & _ & _ & ->)]; [done|set_solver].
  - intros f. unfold write_tokens. simpl. rewrite fmap_app. destruct Hn as [(_ & -> & _)|(-> & -> & _)].
    + intros E. pose proof (to_held _ I _ E) as H. unfold write_tokens in H. set_solver.
    + intros [= <-]. set_solver.
  - intros t c Ht Hf Ec Hc. apply elem_of_app in Ht as [Ht|Ht].
    + apply (to_own _ I t c Ht Hf); [|done]. apply O; [|done..].
      apply (to_old _ I). unfold write_tokens. apply elem_of_app. left. by apply list_elem_of_fmap_2.
    + destruct Hn as [(-> & _)|(-> & _)]; [set_solver|]. apply list_elem_of_singleton in Ht as ->. destruct Sg as [len E]. simpl in Ec.
      rewrite E in Ec. by injection Ec as <-.
Qed.
Lemma unstarted_live s : wq_ok (qm_queue s) → unstarted s ⊆ live_writes (qm_queue s).
Proof. intros K. unfold unstarted, live_writes. repeat case_match; set_solver. Qed.
Lemma admit_writes s q' id new returned :
  machine_ok s → admits (qm_queue s) q' id → admit_place (qm_queue s) q' id new → writes_ok (admit_machine s q' id new returned).
Proof.
  intros (K0 & T & I) (Hid & K & O & Ef & L & Sg) Hn. set (s' := admit_machine _ _ _ _ _).
  assert (Hlive : ∀ w, w ∈ live_writes (qm_queue s) → (w < id)%nat) by (intros w Hw; rewrite Hid; by apply live_bound).
  assert (Hwire : ∀ w, w ∈ qm_wire s → (w < id)%nat).
  { pose proof (wo_old _ I) as B. rewrite Forall_forall in B. rewrite Hid. apply B. }
  assert (Hst : id ∉ qm_started s).
  { intros Hi. destruct (to_old _ T id); [unfold write_tokens; set_solver|lia]. }
  assert (U : unstarted s' = unstarted s ++ [id]).
  { unfold unstarted. simpl. destruct Hn as [(_ & -> & [f ->] & Eq)|(_ & -> & E & Eq)]; [by case_decide|].
    rewrite E. by rewrite decide_False. }
  split; simpl; try done.
  - rewrite U, (assoc_L (++)). apply StronglySorted_app. split; [|split; [apply (wo_wire _ I)|repeat constructor]].
    intros x y Hx Hy. apply list_elem_of_singleton in Hy as ->. apply elem_of_app in Hx as [Hx|Hx]; [auto|].
    by apply Hlive, unstarted_live.
  - eapply Forall_impl; [apply (wo_old _ I)|]. simpl. lia.
  - intros f E Hf. destruct Hn as [(_ & E' & _ & Eq)|(_ & E' & _)]; [|congruence].
    rewrite E' in E. pose proof (wo_sent _ I _ E Hf) as H. unfold live_writes in L. rewrite Eq, (assoc_L (++)) in L.
    apply app_inj_2 in L as [L _]; [|done]. apply app_inv_tail in L. by rewrite L.
  - rewrite L. pose proof (wo_admitted _ I). set_solver.
  - apply (wo_once _ I).
  - intros w b Hw. destruct (wo_called _ I _ _ Hw) as (H1 & H2 & H3). split; [lia|]. split; [|done]. rewrite L.
    assert (w ≠ id) by lia. set_solver.
  - intros w Hw. rewrite L. apply elem_of_app in Hw as [Hw|Hw]; [|set_solver]. destruct (wo_settled _ I _ Hw) as [|[|]]; set_solver.
Qed.

(** A context is settled: by a completion, or by its holder, whose task ends. *)
Definition settle_machine (s : QueueMachine) (q' : WriteQueue) (t : Settled) (tasks : list WriteTask) (returned called : list (nat * bool)) :=
  mkQueueMachine q' (tasks ++ next_task (st_next t)) (qm_started s) (qm_wire s) (qm_admitted s) (qm_returned s ++ returned)
    (qm_called s ++ called).
Lemma tokens_sublist s tasks : sublist tasks (qm_tasks s) → sublist ((write_task_id <$> tasks) ++ qm_started s) (write_tokens s).
Proof. intros H. apply sublist_app; [|done]. induction H; simpl; by constructor. Qed.
Lemma settled_next s q' t n :
  tokens_ok s → settles (qm_queue s) q' t → st_next t = Some n → n ∉ write_tokens s.
Proof.
  intros T S E Hi. destruct (to_old _ T _ Hi) as [Hlt Hq]. destruct (se_from _ _ _ S _ E); [done|lia].
Qed.
Lemma settle_tokens s q' t tasks returned called :
  tokens_ok s → settles (qm_queue s) q' t → sublist tasks (qm_tasks s) → tokens_ok (settle_machine s q' t tasks returned called).
Proof.
  intros T S Hsub. set (s' := settle_machine _ _ _ _ _ _). pose proof (tokens_sublist _ _ Hsub) as Htok.
  assert (Hn : ∀ n, st_next t = Some n → n ∉ write_tokens s) by (intros n; by apply (settled_next _ q')).
  assert (Hperm : write_tokens s' ≡ₚ option_list (st_next t) ++ (write_task_id <$> tasks) ++ qm_started s).
  { unfold write_tokens. simpl. rewrite fmap_app, (assoc_L (++)). f_equiv. rewrite (comm (++)). f_equiv. by destruct (st_next t). }
  assert (Hin : ∀ i, i ∈ write_tokens s' → st_next t = Some i ∨ i ∈ write_tokens s).
  { intros i. rewrite Hperm, elem_of_app. intros [Hi|Hi]; [|right; by eapply elem_of_sublist].
    destruct (st_next t); simpl in Hi; set_solver. }
  pose proof (se_ok _ _ _ S) as K. pose proof (se_rest _ _ _ S) as R. destruct (se_claims _ _ _ S) as [Hle O].
  split; simpl.
  - rewrite Hperm. apply NoDup_app. split; [destruct (st_next t); [apply NoDup_singleton|constructor]|].
    split; [|by apply (sublist_NoDup _ _ (to_once _ T))]. intros i Hi Hi'. destruct (st_next t) as [n|] eqn:E; simpl in Hi; [|set_solver].
    apply list_elem_of_singleton in Hi as ->. apply (Hn _ eq_refl). by eapply elem_of_sublist.
  - intros i Hi. destruct (Hin i Hi) as [E|Hi'].
    + rewrite <- (se_next _ _ _ S) in E. destruct (wf_active _ (ok_wf _ K) _ E) as (c & Ec & _ & _ & Hq). split; [|done].
      by apply (wf_fresh _ (ok_wf _ K) _ _ Ec).
    + destruct (to_old _ T _ Hi') as [Hlt Hq]. split; [lia|]. intros Hq'. apply Hq. rewrite <- R. unfold live_writes. set_solver.
  - intros f E. rewrite (se_next _ _ _ S) in E. rewrite Hperm, E. set_solver.
  - intros x c Hx Hf Ec Hc. apply elem_of_app in Hx as [Hx|Hx]; [|destruct (st_next t); simpl in Hx; set_solver].
    eapply elem_of_sublist in Hx; [|exact Hsub]. apply (to_own _ T x c Hx Hf); [|done]. apply O; [|done..].
    apply (to_old _ T). unfold write_tokens. apply elem_of_app. left. by apply list_elem_of_fmap_2.
Qed.

(** The callbacks of the settled context are run, or its only write is refused to its caller. *)
Definition settled_writes (s : QueueMachine) (b : bool) (callbacks : list nat) (returned : list (nat * bool)) : Prop :=
  (callbacks = active_writes (qm_queue s) ∧ (b = true → callbacks ⊆ qm_wire s)) ∨
  (callbacks = [] ∧ ∀ w, w ∈ active_writes (qm_queue s) → (w, false) ∈ returned).
Lemma settle_writes s q' t tasks returned b callbacks :
  machine_ok s → settles (qm_queue s) q' t → settled_writes s b callbacks returned →
  writes_ok (settle_machine s q' t tasks returned (with_result b callbacks ++ with_result false (st_failed t))).
Proof.
  intros (K0 & T & I) S Hset. set (s' := settle_machine _ _ _ _ _ _).
  pose proof (se_rest _ _ _ S) as R. destruct (se_claims _ _ _ S) as [Hle _].
  assert (Hst : ∀ f, wq_in_flight q' = Some f → f ∉ qm_started s).
  { intros f E Hf. rewrite (se_next _ _ _ S) in E. apply (settled_next _ _ _ _ T S E). unfold write_tokens. set_solver. }
  assert (U : unstarted s' = live_writes q').
  { unfold unstarted. simpl. destruct (wq_in_flight q') as [f|]; [|done]. rewrite decide_False by auto. done. }
  pose proof (wf_nodup _ (ok_wf _ K0)) as ND. unfold live_writes at 1 in ND. rewrite <- R in ND.
  apply NoDup_app in ND as (ND1 & D1 & ND2). pose proof ND2 as (ND3 & D2 & _)%NoDup_app.
  assert (Hcb : callbacks ⊆ active_writes (qm_queue s)) by (destruct Hset as [[-> _]|[-> _]]; set_solver).
  assert (Hcl : ∀ w, w ∈ callbacks ++ st_failed t → w ∈ live_writes (qm_queue s) ∧ (w ∉ live_writes q')).
  { intros w. unfold live_writes at 1. rewrite <- R. set_solver. }
  split; simpl.
  - rewrite U. eapply sorted_sublist; [|apply (wo_wire _ I)]. apply sublist_app; [done|]. transitivity (wq_queues (qm_queue s)).
    + rewrite <- R. by apply sublist_inserts_l.
    + unfold unstarted, live_writes. repeat case_match; by try apply sublist_inserts_l.
  - eapply Forall_impl; [apply (wo_old _ I)|]. simpl. lia.
  - intros f E Hf. by destruct (Hst f).
  - pose proof (wo_admitted _ I) as H. unfold live_writes at 1 in H. rewrite <- R in H. set_solver.
  - rewrite !fmap_app, !with_result_fst. apply NoDup_app. split; [apply (wo_once _ I)|]. split.
    + intros w Hw Hw'. apply list_elem_of_fmap_1 in Hw as ([w0 b0] & -> & Hw). destruct (wo_called _ I _ _ Hw) as (_ & Hl & _).
      by destruct (Hcl _ Hw').
    + apply NoDup_app. split; [|set_solver]. destruct Hset as [[-> _]|[-> _]]; [done|constructor].
  - intros w b0 Hw. apply elem_of_app in Hw as [Hw|Hw].
    + destruct (wo_called _ I _ _ Hw) as (H1 & H2 & H3). split; [lia|]. split; [|done]. unfold live_writes at 1 in H2. rewrite <- R in H2. set_solver.
    + assert (w ∈ callbacks ++ st_failed t) as [Hl Hl']%Hcl by (rewrite elem_of_app, !with_result_elem in Hw; set_solver).
      split; [pose proof (live_bound _ _ K0 Hl); lia|]. split; [done|]. rewrite elem_of_app, !with_result_elem in Hw. intros ->.
      destruct Hw as [[Hw Hb]|[_ ?]]; [|done]. destruct Hset as [[_ Hs]|[-> _]]; [by apply Hs|set_solver].
  - intros w Hw. destruct (wo_settled _ I _ Hw) as [[b0 Hb]|[Hr|Hl]]; [left; exists b0; set_solver|set_solver|].
    unfold live_writes in Hl. rewrite <- R in Hl. apply elem_of_app in Hl as [Hl|Hl]; [|apply elem_of_app in Hl as [Hl|Hl]].
    + destruct Hset as [[-> _]|[_ Hr]]; [left; exists b|right; left; apply elem_of_app; right; auto].
      apply elem_of_app. right. apply elem_of_app. left. by apply with_result_elem.
    + left. exists false. apply elem_of_app. right. apply elem_of_app. right. by apply with_result_elem.
    + by right; right.
Qed.

Lemma settle_ok s q' t tasks returned b callbacks :
  machine_ok s → settles (qm_queue s) q' t → sublist tasks (qm_tasks s) → settled_writes s b callbacks returned →
  machine_ok (settle_machine s q' t tasks returned (with_result b callbacks ++ with_result false (st_failed t))).
Proof.
  intros I S Hsub Hset. split; [apply (se_ok _ _ _ S)|]. split; [apply settle_tokens; [apply I|done..]|by apply settle_writes].
Qed.
Lemma finalize_ok s : machine_ok s → machine_ok (queue_step s EvFinalize).
Proof.
  intros I. destruct (finalize_lock (qm_queue s)) as (El & K & O & E); [apply I|]. simpl.
  destruct (Finalize_lock (qm_queue s)) as [failed q'] eqn:Ef. simpl in El, K, O, E. subst failed.
  epose proof (settle_ok s q' (mkSettled [] (wq_queues (qm_queue s)) None) (qm_tasks s) [] false (active_writes (qm_queue s)) I) as H.
  unfold settle_machine in H. simpl in H. rewrite !app_nil_r in H. unfold with_result in *. unfold live_writes. rewrite fmap_app.
  apply H; [|done|by left]. split; simpl; try done. by rewrite (ok_live_nil _ K E), app_nil_r.
Qed.

(** A task ends without its context being settled. *)
Lemma task_perm s n t : qm_tasks s !! n = Some t → write_tokens s ≡ₚ write_task_id t :: (write_task_id <$> delete n (qm_tasks s)) ++ qm_started s.
Proof. intros E. unfold write_tokens. by rewrite (delete_Permutation _ _ _ E) at 1. Qed.
Lemma drop_ok s n t returned :
  machine_ok s → qm_tasks s !! n = Some t → wq_in_flight (qm_queue s) ≠ Some (write_task_id t) →
  machine_ok (mkQueueMachine (qm_queue s) (delete n (qm_tasks s)) (qm_started s) (qm_wire s) (qm_admitted s)
    (qm_returned s ++ returned) (qm_called s)).
Proof.
  intros (K & T & I) E Hne. pose proof (task_perm _ _ _ E) as P. split; [done|]. set (s' := mkQueueMachine _ _ _ _ _ _ _).
  change (write_tokens s ≡ₚ write_task_id t :: write_tokens s') in P. split; split; simpl; try apply I; try done.
  - pose proof (to_once _ T) as ND. rewrite P in ND. by apply NoDup_cons in ND as [_ ND].
  - intros i Hi. apply (to_old _ T). rewrite P. set_solver.
  - intros f Ef. pose proof (to_held _ T _ Ef) as H. rewrite P in H. apply elem_of_cons in H as [->|H]; done.
  - intros x c Hx. apply (to_own _ T). rewrite (delete_Permutation _ _ _ E). by apply list_elem_of_further.
  - intros w Hw. destruct (wo_settled _ I _ Hw) as [|[|]]; set_solver.
Qed.
Lemma dispatched_ok s n id flag returned :
  machine_ok s → qm_tasks s !! n = Some (Dispatch id flag) → wq_in_flight (qm_queue s) = Some id →
  machine_ok (mkQueueMachine (qm_queue s) (delete n (qm_tasks s)) (qm_started s ++ [id]) (qm_wire s ++ active_writes (qm_queue s))
    (qm_admitted s) (qm_returned s ++ returned) (qm_called s)).
Proof.
  intros (K & T & I) E Ef. pose proof (task_perm _ _ _ E) as P. simpl in P. split; [done|]. set (s' := mkQueueMachine _ _ _ _ _ _ _).
  assert (P' : write_tokens s ≡ₚ write_tokens s').
  { rewrite P. unfold write_tokens. simpl. rewrite (assoc_L (++)), (comm (++) _ [id]). done. }
  assert (Hid : id ∉ qm_started s).
  { pose proof (to_once _ T) as ND. rewrite P in ND. apply NoDup_cons in ND as [ND _]. set_solver. }
  assert (U : unstarted s = active_writes (qm_queue s) ++ unstarted s').
  { unfold unstarted. simpl. rewrite Ef, decide_False, decide_True by set_solver. done. }
  split; split; simpl; try apply I; try done.
  - rewrite <- P'. apply (to_once _ T).
  - intros i Hi. apply (to_old _ T). by rewrite P'.
  - intros f Ef'. rewrite <- P'. by apply (to_held _ T).
  - intros x c Hx. apply (to_own _ T). rewrite (delete_Permutation _ _ _ E). by apply list_elem_of_further.
  - rewrite <- (assoc_L (++)), <- U. apply (wo_wire _ I).
  - apply Forall_app. split; [apply (wo_old _ I)|]. rewrite Forall_forall. intros w Hw. apply live_bound; [done|].
    unfold live_writes. set_solver.
  - intros f Ef' Hf. set_solver.
  - pose proof (wo_admitted _ I) as H. unfold live_writes in H |- *. set_solver.
  - intros w b Hw. destruct (wo_called _ I _ _ Hw) as (H1 & H2 & H3). split; [done|]. split; [done|]. set_solver.
  - intros w Hw. destruct (wo_settled _ I _ Hw) as [|[|]]; set_solver.
Qed.
Lemma not_started_ok s n id flag :
  machine_ok s → qm_tasks s !! n = Some (Dispatch id flag) →
  machine_ok (mkQueueMachine (qm_queue s) (<[n := StartFailed id flag]> (qm_tasks s)) (qm_started s) (qm_wire s) (qm_admitted s)
    (qm_returned s) (qm_called s)).
Proof.
  intros (K & T & I) E. split; [done|]. set (s' := mkQueueMachine _ _ _ _ _ _ _). assert (P : write_tokens s' = write_tokens s).
  { unfold write_tokens. simpl. rewrite list_fmap_insert. simpl. rewrite list_insert_id; [done|]. by rewrite list_lookup_fmap, E. }
  split; [|split; apply I]. split; rewrite ?P; try apply T. intros x c Hx. simpl in Hx.
  apply list_elem_of_lookup in Hx as [j Hj]. apply list_lookup_insert_Some in Hj as [(_ & <- & _)|[_ Hj]].
  - apply (to_own _ T (Dispatch id flag)). by apply list_elem_of_lookup_2 in E.
  - apply (to_own _ T). by apply list_elem_of_lookup_2 in Hj.
Qed.

Lemma write_ok s len : machine_ok s → machine_ok (queue_step s (EvWrite len)).
Proof.
  intros I. pose proof (write_lock (qm_queue s) len (proj1 I)) as H. simpl. destruct (WriteBytes_lock _ len) as [[|id|id] q'].
  - subst q'. by destruct s.
  - destruct H as (A & Hp).
    pose proof (admit_tokens s q' id [] [(id, true)] (proj1 (proj2 I)) A (or_introl (conj eq_refl Hp))) as T.
    pose proof (admit_writes s q' id [] [(id, true)] I A (or_introl (conj eq_refl Hp))) as W.
    unfold admit_machine in T, W. rewrite app_nil_r in T, W. split; [apply A|]. by split.
  - destruct H as (A & Hp).
    pose proof (admit_tokens s q' id [Dispatch id false] [] (proj1 (proj2 I)) A (or_intror (conj eq_refl Hp))) as T.
    pose proof (admit_writes s q' id [Dispatch id false] [] I A (or_intror (conj eq_refl Hp))) as W.
    unfold admit_machine in T, W. rewrite app_nil_r in T, W. split; [apply A|]. by split.
Qed.
Lemma dispatch_ok s n started : machine_ok s → machine_ok (queue_step s (EvDispatch n started)).
Proof.
  intros I. simpl. destruct (qm_tasks s !! n) as [[id flag|]|] eqn:E; [|done..].
  pose proof (dispatch_lock (qm_queue s) id (proj1 I)) as H. destruct (Dispatch_lock _ id) as [packets|].
  - destruct H as [Ef ->]. destruct started; [by eapply dispatched_ok|by apply not_started_ok].
  - by apply (drop_ok _ _ _ _ I E).
Qed.
Lemma start_failed_ok s n gather : machine_ok s → machine_ok (queue_step s (EvStartFailed n gather)).
Proof.
  intros I. simpl. destruct (qm_tasks s !! n) as [[|id flag]|] eqn:E; [done| |done].
  assert (Ht : StartFailed id flag ∈ qm_tasks s) by (by apply list_elem_of_lookup_2 in E).
  destruct I as (K & T & W). pose proof (conj K (conj T W)) as I.
  assert (Hid : id ∉ wq_queues (qm_queue s)).
  { apply (to_old _ T). unfold write_tokens. apply elem_of_app. left. by apply (list_elem_of_fmap_2 write_task_id) in Ht. }
  pose proof (start_failed_lock (qm_queue s) id flag gather K Hid) as H. destruct (StartFailed_lock _ _ _ _) as [[t|] q'].
  - destruct H as (Ef & Ec & S). unfold with_result at 1. rewrite fmap_app.
    apply (settle_ok s q' t (delete n (qm_tasks s)) (answer id flag false) false (st_callbacks t) I S); [apply sublist_delete|].
    rewrite Ec. destruct flag; [left; done|]. right. split; [done|]. intros w Hw.
    destruct (wf_active _ (ok_wf _ K) _ Ef) as (c & Ecx & Ecb & _). rewrite (active_some _ _ _ Ef Ecx) in Hw.
    rewrite (to_own _ T _ c Ht eq_refl Ecx) in Hw by (rewrite Ecb; eauto). simpl in Hw. set_solver.
  - destruct H as [-> Hne]. by apply (drop_ok _ _ _ _ I E).
Qed.
Lemma completion_ok s id ok gather : machine_ok s → machine_ok (queue_step s (EvComplete id ok gather)).
Proof.
  intros I. simpl. case_bool_decide as Hs; [|done]. simpl. pose proof (complete_lock (qm_queue s) id ok gather (proj1 I)) as H.
  destruct (Complete_lock _ _ _ _) as [[t|] q']; [|subst q'; by destruct s]. destruct H as (Ef & Ec & S).
  pose proof (settle_ok s q' t (qm_tasks s) [] ok (st_callbacks t) I S) as H. unfold settle_machine in H. rewrite app_nil_r in H.
  apply H; [done|]. left. split; [done|]. intros _. rewrite Ec. by apply (wo_sent _ (proj2 (proj2 I)) id).
Qed.
Lemma queue_step_ok s e : machine_ok s → machine_ok (queue_step s e).
Proof. destruct e; eauto using write_ok, dispatch_ok, start_failed_ok, completion_ok, finalize_ok. Qed.
Lemma queue_run_ok es : ∀ s, machine_ok s → machine_ok (fold_left queue_step es s).
Proof. induction es as [|e es IH]; intros s I; [done|]. by apply IH, queue_step_ok. Qed.

Definition WriteQueue_with (items bytes : Z) : WriteQueue := SetMaxPendingBytes (SetMaxPendingItems WriteQueue_new items) bytes.
Lemma queue_new_ok items bytes : wq_ok (WriteQueue_with items bytes).
Proof. split; [split|..]; try done; simpl; try constructor; set_solver. Qed.

(** C28: whatever writes, dispatches, start failures, completions and disposal come, in any order and with any limits: the transport
    is handed packets of admitted writes only, each at most once and in the order of admission; no callback runs twice, and one that
    reports success belongs to a packet that was handed over; every admitted write was called back, or refused to its caller, or is
    still in the queue, and then the queue is not stuck: one context is in flight, held by a caller that is about to dispatch it or
    by the transport, and [sending_] says so; the counters are what the queue holds. *)
Theorem write_queue_serial items bytes es :
  let s := fold_left queue_step es (QueueMachine_new (WriteQueue_with items bytes)) in
  let q := qm_queue s in
  (StronglySorted lt (qm_wire s) ∧ qm_wire s ⊆ qm_admitted s) ∧
  (NoDup (qm_called s).*1 ∧ (∀ w, (w, true) ∈ qm_called s → w ∈ qm_wire s)) ∧
  (∀ w, w ∈ qm_admitted s → (∃ b, (w, b) ∈ qm_called s) ∨ (w, false) ∈ qm_returned s ∨ w ∈ live_writes q) ∧
  (live_writes q ≠ [] → wq_sending q = true ∧ ∃ f, wq_in_flight q = Some f ∧ (f ∈ write_task_id <$> qm_tasks s ∨ f ∈ qm_started s)) ∧
  (∀ w b, w ∈ live_writes q → (w, b) ∉ qm_called s) ∧
  (wq_pending_items q = Z.of_nat (length (pending_contexts q)) ∧ wq_pending_bytes q = total_length (wq_contexts q) (pending_contexts q)).
Proof.
  assert (H : machine_ok (fold_left queue_step es (QueueMachine_new (WriteQueue_with items bytes)))).
  { apply queue_run_ok, machine_start; [apply queue_new_ok|done]. }
  destruct (fold_left _ _ _) as [q tasks started wire admitted returned called]. destruct H as (K & T & W). simpl in K |- *.
  split_and!; try apply W.
  - pose proof (wo_wire _ W) as S. by apply StronglySorted_app in S as (_ & S & _).
  - pose proof (wo_admitted _ W) as A. simpl in A. set_solver.
  - intros w Hw. by apply (wo_called _ W _ _ Hw).
  - intros Hl. rewrite (ok_sending _ K). simpl in *. destruct (wq_in_flight q) as [f|] eqn:E; [|by rewrite (ok_live_nil _ K E) in Hl].
    split; [done|]. exists f. split; [done|]. pose proof (to_held _ T _ E) as H. unfold write_tokens in H. by apply elem_of_app in H.
  - intros w b Hl Hw. by destruct (wo_called _ W _ _ Hw) as (_ & Hn & _).
  - apply (wf_items _ (ok_wf _ K)).
  - apply (wf_bytes _ (ok_wf _ K)).
Qed.
