(* ===== verification/IPv6Routes.v ===== *)
(** * Ownership of IPv6 routes

    [ppp/ipv6/IPv6RouteTransaction.cpp] installs the routes of an IPv6 takeover (a pin to the server and the two
    halves of the address space) over an [IRouteMutator] and remembers which of them it created;
    [windows/ppp/ipv6/WindowsIPv6RouteOwner.cpp] is that mutator over the IP Helper functions, with the policy of
    which routes to install.  The class [RouteMutator] is the interface and [RouteMutatorLaws] what the transaction
    relies on; the Windows owner is proved an instance.  The IP Helper functions are the class [WindowsRouteApi],
    with no laws: they may answer anything.  An address is the list of its bytes. *)
From S2P Require Import Prelude.
Local Open Scope Z_scope.

(** ** Routes *)
Inductive OwnershipMutation := MutationChanged | MutationUnchanged | MutationFailed.
#[global] Instance OwnershipMutation_eq_dec : EqDecision OwnershipMutation.
Proof. solve_decision. Defined.
Inductive RouteKind := EgressPin | LowerHalf | UpperHalf.
#[global] Instance RouteKind_eq_dec : EqDecision RouteKind.
Proof. solve_decision. Defined.
Inductive PairMode := PairNone | PairSink | PairManaged.
#[global] Instance PairMode_eq_dec : EqDecision PairMode.
Proof. solve_decision. Defined.
Record RouteIdentity := mkRouteIdentity {
  rt_Kind : RouteKind;
  rt_Destination : list Z;
  rt_PrefixLength : Z;
  rt_InterfaceLuid : Z;
  rt_InterfaceIndex : Z;
  rt_NextHop : list Z;
  rt_NextHopScopeId : Z;
  rt_Metric : Z;
  rt_Protocol : Z;
  rt_Origin : Z;
  rt_SitePrefixLength : Z;
  rt_Loopback : bool;
  rt_AutoconfigureAddress : bool;
  rt_Publish : bool;
  rt_Immortal : bool;
}.
#[global] Instance RouteIdentity_eq_dec : EqDecision RouteIdentity.
Proof. solve_decision. Defined.
Definition RouteIdentity_new : RouteIdentity :=
  mkRouteIdentity EgressPin (replicate 16 0) 0 0 0 (replicate 16 0) 0 0 0 0 0 false false false false.
Definition IsExactRouteMatch (existing expected : RouteIdentity) : bool :=
  bool_decide (rt_Kind existing = rt_Kind expected) &&
  bool_decide (rt_Destination existing = rt_Destination expected) &&
  (rt_PrefixLength existing =? rt_PrefixLength expected) &&
  (rt_InterfaceLuid existing =? rt_InterfaceLuid expected) &&
  (rt_InterfaceIndex existing =? rt_InterfaceIndex expected) &&
  bool_decide (rt_NextHop existing = rt_NextHop expected) &&
  (rt_NextHopScopeId existing =? rt_NextHopScopeId expected) &&
  (rt_Metric existing =? rt_Metric expected) &&
  (rt_Protocol existing =? rt_Protocol expected) &&
  (rt_Origin existing =? rt_Origin expected) &&
  (rt_SitePrefixLength existing =? rt_SitePrefixLength expected) &&
  Bool.eqb (rt_Loopback existing) (rt_Loopback expected) &&
  Bool.eqb (rt_AutoconfigureAddress existing) (rt_AutoconfigureAddress expected) &&
  Bool.eqb (rt_Publish existing) (rt_Publish expected) &&
  Bool.eqb (rt_Immortal existing) (rt_Immortal expected).

(** ** The transaction *)
Class RouteMutator (W : Type) := {
  Mutator_Create : RouteIdentity → W → OwnershipMutation * W;
  Mutator_Delete : RouteIdentity → W → bool * W;
}.
Record RouteSlot := mkRouteSlot { rs_Identity : RouteIdentity; rs_Present : bool; rs_Owned : bool }.
Definition RouteSlot_new : RouteSlot := mkRouteSlot RouteIdentity_new false false.
Record RouteTransaction := mkRouteTransaction {
  tx_mode : PairMode;
  tx_lower : RouteSlot;
  tx_upper : RouteSlot;
  tx_staged_pin : RouteSlot;
  tx_committed_pin : RouteSlot;
  tx_pending_cleanup : list RouteSlot;
}.
Definition RouteTransaction_new : RouteTransaction :=
  mkRouteTransaction PairNone RouteSlot_new RouteSlot_new RouteSlot_new RouteSlot_new [].
Definition set_tx_mode (m : PairMode) (t : RouteTransaction) : RouteTransaction :=
  mkRouteTransaction m (tx_lower t) (tx_upper t) (tx_staged_pin t) (tx_committed_pin t) (tx_pending_cleanup t).
Definition set_tx_lower (s : RouteSlot) (t : RouteTransaction) : RouteTransaction :=
  mkRouteTransaction (tx_mode t) s (tx_upper t) (tx_staged_pin t) (tx_committed_pin t) (tx_pending_cleanup t).
Definition set_tx_upper (s : RouteSlot) (t : RouteTransaction) : RouteTransaction :=
  mkRouteTransaction (tx_mode t) (tx_lower t) s (tx_staged_pin t) (tx_committed_pin t) (tx_pending_cleanup t).
Definition set_tx_staged (s : RouteSlot) (t : RouteTransaction) : RouteTransaction :=
  mkRouteTransaction (tx_mode t) (tx_lower t) (tx_upper t) s (tx_committed_pin t) (tx_pending_cleanup t).
Definition set_tx_committed (s : RouteSlot) (t : RouteTransaction) : RouteTransaction :=
  mkRouteTransaction (tx_mode t) (tx_lower t) (tx_upper t) (tx_staged_pin t) s (tx_pending_cleanup t).
Definition set_tx_pending (l : list RouteSlot) (t : RouteTransaction) : RouteTransaction :=
  mkRouteTransaction (tx_mode t) (tx_lower t) (tx_upper t) (tx_staged_pin t) (tx_committed_pin t) l.

Definition HasStagedPin (t : RouteTransaction) : bool := rs_Present (tx_staged_pin t).
Definition HasEgress (t : RouteTransaction) : bool := rs_Present (tx_staged_pin t) || rs_Present (tx_committed_pin t).
Definition slot_owned (s : RouteSlot) : bool := rs_Present s && rs_Owned s.
Definition Transaction_HasPendingCleanup (t : RouteTransaction) : bool :=
  negb (bool_decide (tx_pending_cleanup t = [])) ||
  (slot_owned (tx_lower t) || slot_owned (tx_upper t) || slot_owned (tx_staged_pin t) || slot_owned (tx_committed_pin t)).
(** What [QueueOwned] adds to [pending_cleanup_]; the slot becomes empty. *)
Definition QueueOwned (s : RouteSlot) (t : RouteTransaction) : RouteTransaction :=
  if slot_owned s then set_tx_pending (tx_pending_cleanup t ++ [s]) t else t.

Section Transaction.
Context `{RouteMutator W}.

(** The answer, and what the slot becomes. *)
Definition DeleteSlot (s : RouteSlot) (w : W) : bool * RouteSlot * W :=
  if negb (slot_owned s) then (true, RouteSlot_new, w) else
  let '(ok, w) := Mutator_Delete (rs_Identity s) w in
  (ok, (if ok then RouteSlot_new else s), w).
Fixpoint retry_pending (kind : RouteKind) (l : list RouteSlot) (w : W) : bool * list RouteSlot * W :=
  match l with
  | [] => (true, [], w)
  | s :: l =>
      if bool_decide (rt_Kind (rs_Identity s) ≠ kind) then
        let '(clean, l, w) := retry_pending kind l w in (clean, s :: l, w)
      else
        let '(ok, w) := Mutator_Delete (rs_Identity s) w in
        let '(clean, l, w) := retry_pending kind l w in
        if ok : bool then (clean, l, w) else (false, s :: l, w)
  end.
Definition RetryPending (kind : RouteKind) (t : RouteTransaction) (w : W) : bool * RouteTransaction * W :=
  let '(clean, l, w) := retry_pending kind (tx_pending_cleanup t) w in (clean, set_tx_pending l t, w).
Definition RollbackStagedPin (t : RouteTransaction) (w : W) : bool * RouteTransaction * W :=
  let '(ok, s, w) := DeleteSlot (tx_staged_pin t) w in (ok, set_tx_staged s t, w).

Definition is_changed (m : OwnershipMutation) : bool := match m with MutationChanged => true | _ => false end.
Definition StagePin (pin : RouteIdentity) (t : RouteTransaction) (w : W) : bool * RouteTransaction * W :=
  if bool_decide (rt_Kind pin ≠ EgressPin) then (false, t, w) else
  let '(ok, t, w) := RollbackStagedPin t w in
  if negb ok then (false, t, w) else
  let '(mutation, w) := Mutator_Create pin w in
  match mutation with
  | MutationFailed => (false, t, w)
  | _ => (true, set_tx_staged (mkRouteSlot pin true (is_changed mutation)) t, w)
  end.
Definition StageNoPin (t : RouteTransaction) (w : W) : bool * RouteTransaction * W :=
  let '(ok, t, w) := RollbackStagedPin t w in
  if negb ok then (false, t, w) else
  (true, set_tx_staged (mkRouteSlot RouteIdentity_new true false) t, w).
Definition Transaction_CommitStagedPin (t : RouteTransaction) (w : W) : bool * RouteTransaction * W :=
  let staged := tx_staged_pin t in
  if negb (rs_Present staged) then (false, t, w) else
  let t :=
    if rs_Present (tx_committed_pin t) && IsExactRouteMatch (rs_Identity (tx_committed_pin t)) (rs_Identity staged) then
      if rs_Owned staged then set_tx_staged RouteSlot_new (QueueOwned staged t) else set_tx_staged RouteSlot_new t
    else set_tx_staged RouteSlot_new (set_tx_committed staged (QueueOwned (tx_committed_pin t) t)) in
  let '(_, t, w) := RetryPending EgressPin t w in (true, t, w).

Definition ApplyPair (mode : PairMode) (lower upper : RouteIdentity) (t : RouteTransaction) (w : W) : bool * RouteTransaction * W :=
  if bool_decide (rt_Kind lower ≠ LowerHalf) || bool_decide (rt_Kind upper ≠ UpperHalf) then (false, t, w) else
  if rs_Present (tx_lower t) && rs_Present (tx_upper t) && IsExactRouteMatch (rs_Identity (tx_lower t)) lower &&
     IsExactRouteMatch (rs_Identity (tx_upper t)) upper then (true, set_tx_mode mode t, w) else
  let '(lower_result, w) := Mutator_Create lower w in
  match lower_result with
  | MutationFailed => (false, t, w)
  | _ =>
      let next_lower := mkRouteSlot lower true (is_changed lower_result) in
      let '(upper_result, w) := Mutator_Create upper w in
      match upper_result with
      | MutationFailed =>
          let '(ok, s, w) := DeleteSlot next_lower w in
          (false, if ok then t else QueueOwned s t, w)
      | _ =>
          let next_upper := mkRouteSlot upper true (is_changed upper_result) in
          let t := QueueOwned (tx_lower t) (QueueOwned (tx_upper t) t) in
          let t := set_tx_mode mode (set_tx_upper next_upper (set_tx_lower next_lower t)) in
          let '(_, t, w) := RetryPending UpperHalf t w in
          let '(_, t, w) := RetryPending LowerHalf t w in
          (true, t, w)
      end
  end.
Definition Transaction_EnsureSinkMode := ApplyPair PairSink.
Definition Transaction_ActivateManagedMode := ApplyPair PairManaged.

Definition Transaction_Stop (t : RouteTransaction) (w : W) : bool * RouteTransaction * W :=
  let '(c1, s, w) := DeleteSlot (tx_upper t) w in let t := set_tx_upper s t in
  let '(c2, s, w) := DeleteSlot (tx_lower t) w in let t := set_tx_lower s t in
  let '(c3, t, w) := RetryPending UpperHalf t w in
  let '(c4, t, w) := RetryPending LowerHalf t w in
  let t := set_tx_mode PairNone t in
  let '(c5, s, w) := DeleteSlot (tx_staged_pin t) w in let t := set_tx_staged s t in
  let '(c6, t, w) := RetryPending EgressPin t w in
  let '(c7, s, w) := DeleteSlot (tx_committed_pin t) w in let t := set_tx_committed s t in
  let '(c8, t, w) := RetryPending EgressPin t w in
  (c1 && c2 && c3 && c4 && c5 && c6 && c7 && c8 && bool_decide (tx_pending_cleanup t = []), t, w).
End Transaction.

(** ** The IP Helper functions *)
Definition NO_ERROR : Z := 0.
Definition ERROR_NOT_FOUND : Z := 1168.
Definition ERROR_OBJECT_ALREADY_EXISTS : Z := 5010.
Definition AF_INET6 : Z := 23.
Definition MIB_IPPROTO_NETMGMT : Z := 3.
Definition NlroManual : Z := 0.
Definition IF_TYPE_SOFTWARE_LOOPBACK : Z := 24.
Record Sockaddr := mkSockaddr { sa_family : Z; sa_addr : list Z; sa_scope_id : Z }.
(** [MIB_IPFORWARD_ROW2], without its age. *)
Record RouteRow := mkRouteRow {
  row_InterfaceLuid : Z;
  row_InterfaceIndex : Z;
  row_Prefix : Sockaddr;
  row_PrefixLength : Z;
  row_NextHop : Sockaddr;
  row_SitePrefixLength : Z;
  row_ValidLifetime : Z;
  row_PreferredLifetime : Z;
  row_Metric : Z;
  row_Protocol : Z;
  row_Loopback : bool;
  row_AutoconfigureAddress : bool;
  row_Publish : bool;
  row_Immortal : bool;
  row_Origin : Z;
}.
Record InterfaceRow := mkInterfaceRow { if_Luid : Z; if_Index : Z; if_Type : Z }.
Definition InterfaceRow_new : InterfaceRow := mkInterfaceRow 0 0 0.
(** Over the state [os] of the system; a status, and the row that was filled in. *)
Class WindowsRouteApi (os : Type) := {
  InitializeIpForwardEntry : RouteRow;
  GetBestRoute2 : Z → Z → Sockaddr → os → Z * RouteRow * os;
  GetIpForwardEntry2 : RouteRow → os → Z * RouteRow * os;
  CreateIpForwardEntry2 : RouteRow → os → Z * os;
  DeleteIpForwardEntry2 : RouteRow → os → Z * os;
  GetIfEntry2 : InterfaceRow → os → Z * InterfaceRow * os;
}.

Definition ToIdentity (row : RouteRow) (kind : RouteKind) : RouteIdentity :=
  mkRouteIdentity kind
    (if sa_family (row_Prefix row) =? AF_INET6 then sa_addr (row_Prefix row) else replicate 16 0)
    (row_PrefixLength row) (row_InterfaceLuid row) (row_InterfaceIndex row)
    (if sa_family (row_NextHop row) =? AF_INET6 then sa_addr (row_NextHop row) else replicate 16 0)
    (if sa_family (row_NextHop row) =? AF_INET6 then sa_scope_id (row_NextHop row) else 0)
    (row_Metric row) (row_Protocol row) (row_Origin row) (row_SitePrefixLength row) (row_Loopback row)
    (row_AutoconfigureAddress row) (row_Publish row) (row_Immortal row).
Definition ToRow `{WindowsRouteApi os} (route : RouteIdentity) : RouteRow :=
  mkRouteRow (rt_InterfaceLuid route) (rt_InterfaceIndex route)
    (mkSockaddr AF_INET6 (rt_Destination route) (sa_scope_id (row_Prefix InitializeIpForwardEntry)))
    (rt_PrefixLength route) (mkSockaddr AF_INET6 (rt_NextHop route) (rt_NextHopScopeId route))
    (rt_SitePrefixLength route) 4294967295 4294967295 (rt_Metric route) (rt_Protocol route) (rt_Loopback route)
    (rt_AutoconfigureAddress route) (rt_Publish route) (rt_Immortal route) (rt_Origin route).
Definition IsExactRouteRowMatch (existing expected : RouteRow) (kind : RouteKind) : bool :=
  if negb (sa_family (row_Prefix existing) =? AF_INET6) || negb (sa_family (row_Prefix expected) =? AF_INET6) ||
     negb (sa_family (row_NextHop existing) =? AF_INET6) || negb (sa_family (row_NextHop expected) =? AF_INET6) then false
  else IsExactRouteMatch (ToIdentity existing kind) (ToIdentity expected kind).

(** ** The mutator of the owner *)
Record RouteRecord := mkRouteRecord { rr_Row : RouteRow; rr_Created : bool; rr_CleanupPending : bool }.
(** What the owner did to the routing table, in order, which the model records. *)
Inductive RouteEvent := RouteCreated (row : RouteRow) | RouteDelete (row : RouteRow) (status : Z) | RouteGone (row : RouteRow).
Record RouteWorld (os : Type) := mkRouteWorld { rw_records : list RouteRecord; rw_os : os; rw_events : list RouteEvent }.
Arguments mkRouteWorld {os}.
Arguments rw_records {os}.
Arguments rw_os {os}.
Arguments rw_events {os}.

Section Owner.
Context `{WindowsRouteApi os}.

Definition Owner_Create (route : RouteIdentity) (w : RouteWorld os) : OwnershipMutation * RouteWorld os :=
  let expected := ToRow route in
  let '(status, o) := CreateIpForwardEntry2 expected (rw_os w) in
  if status =? NO_ERROR then
    (MutationChanged, mkRouteWorld (rw_records w ++ [mkRouteRecord expected true false]) o (rw_events w ++ [RouteCreated expected]))
  else if negb (status =? ERROR_OBJECT_ALREADY_EXISTS) then (MutationFailed, mkRouteWorld (rw_records w) o (rw_events w))
  else
    let '(status, existing, o) := GetIpForwardEntry2 expected o in
    (if negb (status =? NO_ERROR) || negb (IsExactRouteRowMatch existing expected (rt_Kind route)) then MutationFailed
     else MutationUnchanged, mkRouteWorld (rw_records w) o (rw_events w)).
Definition RevalidateInterface (row : RouteRow) (o : os) : bool * os :=
  let '(status, current, o) := GetIfEntry2 (mkInterfaceRow 0 (row_InterfaceIndex row) 0) o in
  ((status =? NO_ERROR) && (if_Index current =? row_InterfaceIndex row) && (if_Luid current =? row_InterfaceLuid row), o).
Definition record_matches (route : RouteIdentity) (candidate : RouteRecord) : Prop :=
  rr_Created candidate ∧ IsExactRouteMatch (ToIdentity (rr_Row candidate) (rt_Kind route)) route.
#[global] Instance record_matches_dec route candidate : Decision (record_matches route candidate).
Proof. apply _. Defined.
Definition cleanup_pending (w : RouteWorld os) (i : nat) (r : RouteRecord) (o : os) (events : list RouteEvent) : bool * RouteWorld os :=
  (false, mkRouteWorld (<[i := mkRouteRecord (rr_Row r) (rr_Created r) true]> (rw_records w)) o events).
Definition Owner_Delete (route : RouteIdentity) (w : RouteWorld os) : bool * RouteWorld os :=
  match list_find (record_matches route) (rw_records w) with
  | None => (false, w)
  | Some (i, r) =>
      let '(valid, o) := RevalidateInterface (rr_Row r) (rw_os w) in
      if negb valid then cleanup_pending w i r o (rw_events w) else
      let '(status, existing, o) := GetIpForwardEntry2 (rr_Row r) o in
      if status =? ERROR_NOT_FOUND then (true, mkRouteWorld (delete i (rw_records w)) o (rw_events w ++ [RouteGone (rr_Row r)])) else
      if negb (status =? NO_ERROR) || negb (IsExactRouteRowMatch existing (rr_Row r) (rt_Kind route)) then
        cleanup_pending w i r o (rw_events w) else
      let '(status, o) := DeleteIpForwardEntry2 existing o in
      let events := rw_events w ++ [RouteDelete existing status] in
      if (status =? NO_ERROR) || (status =? ERROR_NOT_FOUND) then (true, mkRouteWorld (delete i (rw_records w)) o events)
      else cleanup_pending w i r o events
  end.
#[global] Instance Owner_mutator : RouteMutator (RouteWorld os) := {
  Mutator_Create := Owner_Create;
  Mutator_Delete := Owner_Delete;
}.

(** ** The owner *)
Record RouteOwner := mkRouteOwner {
  ow_transaction : RouteTransaction;
  ow_tap : InterfaceRow;
  ow_physical : InterfaceRow;
  ow_bound : bool;
  ow_world : RouteWorld os;
}.
Definition RouteOwner_new (o : os) : RouteOwner :=
  mkRouteOwner RouteTransaction_new InterfaceRow_new InterfaceRow_new false (mkRouteWorld [] o []).
Definition set_ow_os (o : os) (ow : RouteOwner) : RouteOwner :=
  mkRouteOwner (ow_transaction ow) (ow_tap ow) (ow_physical ow) (ow_bound ow) (mkRouteWorld (rw_records (ow_world ow)) o (rw_events (ow_world ow))).
Definition with_transaction (ow : RouteOwner) (r : bool * RouteTransaction * RouteWorld os) : bool * RouteOwner :=
  let '(ok, t, w) := r in (ok, mkRouteOwner t (ow_tap ow) (ow_physical ow) (ow_bound ow) w).

Definition BindInterfaces (tap_interface_index physical_interface_index : Z) (ow : RouteOwner) : bool * RouteOwner :=
  if (tap_interface_index <? 0) || (physical_interface_index <? 0) || (tap_interface_index =? physical_interface_index) then (false, ow) else
  let '(s1, tap, o) := GetIfEntry2 (mkInterfaceRow 0 tap_interface_index 0) (rw_os (ow_world ow)) in
  if negb (s1 =? NO_ERROR) then (false, set_ow_os o ow) else
  let '(s2, physical, o) := GetIfEntry2 (mkInterfaceRow 0 physical_interface_index 0) o in
  let ow := set_ow_os o ow in
  if negb (s2 =? NO_ERROR) || (if_Luid tap =? 0) || (if_Luid physical =? 0) || (if_Luid tap =? if_Luid physical) ||
     (if_Type physical =? IF_TYPE_SOFTWARE_LOOPBACK) then (false, ow)
  else (true, mkRouteOwner (ow_transaction ow) tap physical true (ow_world ow)).

(** Addresses, with the predicates of the address library on their bytes. *)
Inductive Address := AddressV4 (bytes : list Z) | AddressV6 (bytes : list Z) (scope_id : Z).
Definition is_unspecified (a : Address) : bool :=
  match a with AddressV4 b => bool_decide (b = replicate 4 0) | AddressV6 b _ => bool_decide (b = replicate 16 0) end.
Definition is_loopback (a : Address) : bool :=
  match a with AddressV4 b => byte_at b 0 =? 127 | AddressV6 b _ => bool_decide (b = replicate 15 0 ++ [1]) end.
Definition is_multicast (a : Address) : bool :=
  match a with AddressV4 b => Z.land (byte_at b 0) 240 =? 224 | AddressV6 b _ => byte_at b 0 =? 255 end.
Definition v6_is_link_local (b : list Z) : bool := (byte_at b 0 =? 254) && (Z.land (byte_at b 1) 192 =? 128).
Definition IsUnsafeExternalAddress (b : list Z) (scope_id : Z) : bool :=
  let a := AddressV6 b scope_id in is_unspecified a || is_multicast a || is_loopback a || v6_is_link_local b.

Definition pin_of (best_route : RouteRow) (destination : Sockaddr) : RouteIdentity :=
  ToIdentity (mkRouteRow (row_InterfaceLuid best_route) (row_InterfaceIndex best_route) destination 128 (row_NextHop best_route)
    (row_SitePrefixLength best_route) (row_ValidLifetime best_route) (row_PreferredLifetime best_route) (row_Metric best_route)
    MIB_IPPROTO_NETMGMT false false false true NlroManual) EgressPin.
Definition StageEgressEndpoint (endpoint : Address) (proven_external : bool) (ow : RouteOwner) : bool * RouteOwner :=
  let reject (ow : RouteOwner) := (false, (with_transaction ow (RollbackStagedPin (ow_transaction ow) (ow_world ow))).2) in
  if negb (ow_bound ow) then (false, ow) else
  if negb proven_external || is_unspecified endpoint || is_multicast endpoint || is_loopback endpoint then reject ow else
  match endpoint with
  | AddressV4 _ => with_transaction ow (StageNoPin (ow_transaction ow) (ow_world ow))
  | AddressV6 bytes scope_id =>
      if IsUnsafeExternalAddress bytes scope_id then reject ow else
      let destination := mkSockaddr AF_INET6 bytes scope_id in
      let physical := ow_physical ow in
      let '(status, best_route, o) := GetBestRoute2 (if_Luid physical) (if_Index physical) destination (rw_os (ow_world ow)) in
      let ow := set_ow_os o ow in
      if negb (status =? NO_ERROR) || negb (row_InterfaceLuid best_route =? if_Luid physical) ||
         negb (row_InterfaceIndex best_route =? if_Index physical) || (row_InterfaceLuid best_route =? if_Luid (ow_tap ow)) then reject ow
      else with_transaction ow (StagePin (pin_of best_route destination) (ow_transaction ow) (ow_world ow))
  end.

Definition half_route (ow : RouteOwner) (kind : RouteKind) (first : Z) (next_hop : list Z) (scope_id : Z) : RouteIdentity :=
  mkRouteIdentity kind (first :: replicate 15 0) 1 (if_Luid (ow_tap ow)) (if_Index (ow_tap ow)) next_hop scope_id 0
    MIB_IPPROTO_NETMGMT NlroManual 0 false false false true.
Definition BuildPair (gateway : option (list Z * Z)) (ow : RouteOwner) : option (RouteIdentity * RouteIdentity) :=
  if negb (ow_bound ow) then None else
  match gateway with
  | None => Some (half_route ow LowerHalf 0 (replicate 16 0) 0, half_route ow UpperHalf 128 (replicate 16 0) 0)
  | Some (bytes, scope_id) =>
      let a := AddressV6 bytes scope_id in
      if is_unspecified a || is_multicast a || is_loopback a then None else
      let scope_id := if v6_is_link_local bytes && (scope_id =? 0) then if_Index (ow_tap ow) else scope_id in
      Some (half_route ow LowerHalf 0 bytes scope_id, half_route ow UpperHalf 128 bytes scope_id)
  end.
Definition Owner_EnsureSinkMode (ow : RouteOwner) : bool * RouteOwner :=
  if negb (HasEgress (ow_transaction ow)) then (false, ow) else
  match BuildPair None ow with
  | None => (false, ow)
  | Some (lower, upper) => with_transaction ow (Transaction_EnsureSinkMode lower upper (ow_transaction ow) (ow_world ow))
  end.
Definition Owner_ActivateManagedMode (gateway : Address) (nat_mode : bool) (ow : RouteOwner) : bool * RouteOwner :=
  if bool_decide (tx_mode (ow_transaction ow) = PairNone) || negb (HasEgress (ow_transaction ow)) then (false, ow) else
  let activate next_hop :=
    match BuildPair next_hop ow with
    | None => (false, ow)
    | Some (lower, upper) => with_transaction ow (Transaction_ActivateManagedMode lower upper (ow_transaction ow) (ow_world ow))
    end in
  if nat_mode then activate None else
  match gateway with AddressV4 _ => (false, ow) | AddressV6 bytes scope_id => activate (Some (bytes, scope_id)) end.
Definition Owner_CommitStagedPin (ow : RouteOwner) : bool * RouteOwner :=
  if negb (HasStagedPin (ow_transaction ow)) then (true, ow) else
  with_transaction ow (Transaction_CommitStagedPin (ow_transaction ow) (ow_world ow)).
Definition Owner_RollbackStagedPin (ow : RouteOwner) : bool * RouteOwner :=
  with_transaction ow (RollbackStagedPin (ow_transaction ow) (ow_world ow)).
Definition Owner_Stop (ow : RouteOwner) : bool * RouteOwner :=
  let '(result, ow) := with_transaction ow (Transaction_Stop (ow_transaction ow) (ow_world ow)) in
  if negb result || negb (bool_decide (rw_records (ow_world ow) = [])) then (false, ow) else
  (true, mkRouteOwner (ow_transaction ow) InterfaceRow_new InterfaceRow_new false (ow_world ow)).
Definition HasActiveTakeover (ow : RouteOwner) : bool := negb (bool_decide (tx_mode (ow_transaction ow) = PairNone)).
Definition Owner_HasPendingCleanup (ow : RouteOwner) : bool :=
  Transaction_HasPendingCleanup (ow_transaction ow) || negb (bool_decide (rw_records (ow_world ow) = [])).

Inductive OwnerCall :=
  | CallBind (tap physical : Z)
  | CallStage (endpoint : Address) (proven_external : bool)
  | CallSink
  | CallManaged (gateway : Address) (nat_mode : bool)
  | CallCommit
  | CallRollback
  | CallStop.
Definition owner_step (ow : RouteOwner) (c : OwnerCall) : bool * RouteOwner :=
  match c with
  | CallBind tap physical => BindInterfaces tap physical ow
  | CallStage endpoint proven_external => StageEgressEndpoint endpoint proven_external ow
  | CallSink => Owner_EnsureSinkMode ow
  | CallManaged gateway nat_mode => Owner_ActivateManagedMode gateway nat_mode ow
  | CallCommit => Owner_CommitStagedPin ow
  | CallRollback => Owner_RollbackStagedPin ow
  | CallStop => Owner_Stop ow
  end.
Definition owner_run (o : os) (calls : list OwnerCall) : RouteOwner :=
  fold_left (λ ow c, (owner_step ow c).2) calls (RouteOwner_new o).
End Owner.

(** ** Bookkeeping *)
Lemma IsExactRouteMatch_eq a b : IsExactRouteMatch a b = true ↔ a = b.
Proof.
  unfold IsExactRouteMatch. rewrite !andb_true_iff, !bool_decide_eq_true, !Z.eqb_eq, !Bool.eqb_true_iff.
  split; [|by intros ->]. destruct a, b; simpl. intros H. by repeat match goal with H : _ ∧ _ |- _ => destruct H end; subst.
Qed.
(** A route, without the part the transaction gives it: what the system knows of it. *)
Definition route_key (r : RouteIdentity) : RouteIdentity :=
  mkRouteIdentity EgressPin (rt_Destination r) (rt_PrefixLength r) (rt_InterfaceLuid r) (rt_InterfaceIndex r) (rt_NextHop r)
    (rt_NextHopScopeId r) (rt_Metric r) (rt_Protocol r) (rt_Origin r) (rt_SitePrefixLength r) (rt_Loopback r)
    (rt_AutoconfigureAddress r) (rt_Publish r) (rt_Immortal r).
Definition slot_keys (s : RouteSlot) : list RouteIdentity := if slot_owned s then [route_key (rs_Identity s)] else [].
Definition pending_keys (l : list RouteSlot) : list RouteIdentity := l ≫= slot_keys.
(** The routes the transaction answers for. *)
Definition owned_keys (t : RouteTransaction) : list RouteIdentity :=
  slot_keys (tx_lower t) ++ slot_keys (tx_upper t) ++ slot_keys (tx_staged_pin t) ++ slot_keys (tx_committed_pin t) ++
  pending_keys (tx_pending_cleanup t).

(** What the transaction relies on: the mutator holds the routes it created, each until it says that it removed it. *)
Class RouteMutatorLaws (W : Type) `{RouteMutator W} := {
  mutator_ok : W → Prop;
  mutator_held : W → list RouteIdentity;
  law_create r w : mutator_ok w →
    mutator_ok (Mutator_Create r w).2 ∧
    mutator_held (Mutator_Create r w).2 ≡ₚ (if is_changed (Mutator_Create r w).1 then [route_key r] else []) ++ mutator_held w;
  law_delete r w : mutator_ok w →
    mutator_ok (Mutator_Delete r w).2 ∧
    mutator_held w ≡ₚ (if (Mutator_Delete r w).1 then [route_key r] else []) ++ mutator_held (Mutator_Delete r w).2;
}.

Definition occ (k : RouteIdentity) (l : list RouteIdentity) : nat := count_occ RouteIdentity_eq_dec l k.
Lemma occ_perm l l' : l ≡ₚ l' ↔ ∀ k, occ k l = occ k l'.
Proof. apply Permutation_count_occ. Qed.
Lemma occ_app k l l' : occ k (l ++ l') = (occ k l + occ k l')%nat.
Proof. apply count_occ_app. Qed.
Lemma occ_nil k : occ k [] = 0%nat.
Proof. done. Qed.
Definition hit (k r : RouteIdentity) : nat := if RouteIdentity_eq_dec r k then 1 else 0.
Lemma occ_cons k r l : occ k (r :: l) = (hit k r + occ k l)%nat.
Proof. unfold occ, hit. simpl. by destruct (RouteIdentity_eq_dec r k). Qed.
#[local] Arguments occ : simpl never.
#[local] Arguments hit : simpl never.
Lemma slot_keys_new : slot_keys RouteSlot_new = [].
Proof. done. Qed.
Lemma pending_keys_cons s l : pending_keys (s :: l) = slot_keys s ++ pending_keys l.
Proof. done. Qed.
Lemma pending_keys_app l l' : pending_keys (l ++ l') = pending_keys l ++ pending_keys l'.
Proof. apply bind_app. Qed.
Lemma pending_keys_nil : pending_keys [] = [].
Proof. done. Qed.
#[local] Arguments pending_keys : simpl never.
#[local] Arguments slot_keys : simpl never.
(** Equations between lists of routes, by counting. *)
Ltac count_routes :=
  apply occ_perm; let k := fresh "k" in intros k;
  repeat match goal with H : _ ≡ₚ _ |- _ => apply occ_perm with (k := k) in H end;
  unfold owned_keys in *; simpl in *;
  rewrite ?pending_keys_app, ?pending_keys_cons, ?pending_keys_nil, ?slot_keys_new, ?occ_app, ?occ_cons, ?occ_app, ?occ_nil in *; lia.

Section Laws.
Context `{RouteMutatorLaws W}.

Lemma DeleteSlot_spec s w :
  mutator_ok w →
  let '(b, s', w') := DeleteSlot s w in
  mutator_ok w' ∧ mutator_held w ++ slot_keys s' ≡ₚ mutator_held w' ++ slot_keys s ∧ s' = (if b : bool then RouteSlot_new else s).
Proof.
  intros I. unfold DeleteSlot. destruct (slot_owned s) eqn:E; simpl.
  - destruct (law_delete (rs_Identity s) w I) as [I' P]. destruct (Mutator_Delete _ w) as [b w']. simpl in I', P.
    split; [done|]. split; [|done]. destruct b; [|by rewrite P]. assert (slot_keys s = [route_key (rs_Identity s)]) as -> by (unfold slot_keys; by rewrite E). count_routes.
  - split; [done|]. split; [|done]. unfold slot_keys at 2. by rewrite E.
Qed.
Lemma retry_spec kind l : ∀ w,
  mutator_ok w → Forall slot_owned l →
  let '(b, l', w') := retry_pending kind l w in
  mutator_ok w' ∧ mutator_held w ++ pending_keys l' ≡ₚ mutator_held w' ++ pending_keys l ∧ Forall slot_owned l'.
Proof.
  induction l as [|s l IH]; intros w I F; simpl; [done|]. apply Forall_cons in F as [Fs F]. case_bool_decide.
  - specialize (IH w I F). destruct (retry_pending kind l w) as [[b l'] w']. destruct IH as (I' & P & F'). split; [done|].
    split; [count_routes|by constructor].
  - destruct (law_delete (rs_Identity s) w I) as [I1 P1]. destruct (Mutator_Delete _ w) as [ok w1]. simpl in I1, P1.
    specialize (IH w1 I1 F). destruct (retry_pending kind l w1) as [[b l'] w']. destruct IH as (I' & P & F').
    assert (slot_keys s = [route_key (rs_Identity s)]) as K by (unfold slot_keys; by destruct (slot_owned s)).
    destruct ok; (split; [done|]); (split; [|by repeat constructor]); rewrite ?pending_keys_cons, ?K; count_routes.
Qed.

(** Between two calls: the mutator holds what the transaction owns, once. *)
Record balanced (t : RouteTransaction) (w : W) : Prop := {
  bal_mutator : mutator_ok w;
  bal_pending : Forall slot_owned (tx_pending_cleanup t);
  bal_owned : mutator_held w ≡ₚ owned_keys t;
  bal_pair : tx_mode t ≠ PairNone → rs_Present (tx_lower t) ∧ rs_Present (tx_upper t);
}.
Lemma QueueOwned_keys s t : pending_keys (tx_pending_cleanup (QueueOwned s t)) ≡ₚ slot_keys s ++ pending_keys (tx_pending_cleanup t).
Proof.
  unfold QueueOwned. destruct (slot_owned s) eqn:E; simpl; [count_routes|]. unfold slot_keys. by rewrite E.
Qed.
Lemma QueueOwned_fields s t :
  tx_mode (QueueOwned s t) = tx_mode t ∧ tx_lower (QueueOwned s t) = tx_lower t ∧ tx_upper (QueueOwned s t) = tx_upper t ∧
  tx_staged_pin (QueueOwned s t) = tx_staged_pin t ∧ tx_committed_pin (QueueOwned s t) = tx_committed_pin t.
Proof. unfold QueueOwned. by destruct (slot_owned s). Qed.
Lemma QueueOwned_forall s t : Forall slot_owned (tx_pending_cleanup t) → Forall slot_owned (tx_pending_cleanup (QueueOwned s t)).
Proof.
  intros F. unfold QueueOwned. destruct (slot_owned s) eqn:E; simpl; [|done]. apply Forall_app. split; [done|]. by rewrite Forall_singleton, E.
Qed.
Lemma slot_keys_owned i p o : slot_keys (mkRouteSlot i p o) = if p && o then [route_key i] else [].
Proof. done. Qed.

Lemma RetryPending_ok kind t w :
  balanced t w →
  let '(b, t', w') := RetryPending kind t w in balanced t' w' ∧ t' = set_tx_pending (tx_pending_cleanup t') t.
Proof.
  intros [I F P M]. unfold RetryPending. pose proof (retry_spec kind _ w I F) as R.
  destruct (retry_pending _ _ _) as [[b l'] w']. destruct R as (I' & P' & F'). split; [|done]. split; simpl; try done. count_routes.
Qed.
Lemma Rollback_ok t w :
  balanced t w →
  let '(b, t', w') := RollbackStagedPin t w in balanced t' w' ∧ (b = true → tx_staged_pin t' = RouteSlot_new).
Proof.
  intros [I F P M]. unfold RollbackStagedPin. pose proof (DeleteSlot_spec (tx_staged_pin t) w I) as R.
  destruct (DeleteSlot _ _) as [[b s] w']. destruct R as (I' & P' & ->). split; [|by intros ->]. split; simpl; try done. count_routes.
Qed.
Lemma StagePin_ok pin t w : balanced t w → let '(b, t', w') := StagePin pin t w in balanced t' w'.
Proof.
  intros B. unfold StagePin. case_bool_decide; [done|]. pose proof (Rollback_ok t w B) as R.
  destruct (RollbackStagedPin t w) as [[b t1] w1]. destruct R as [[I F P M] R]. destruct b; simpl; [|by split]. specialize (R eq_refl).
  destruct (law_create pin w1 I) as [I' P']. destruct (Mutator_Create pin w1) as [m w2]. simpl in I', P'. destruct m; simpl in P'; split; simpl; try done.
  all: unfold owned_keys in *; simpl; rewrite ?R, ?slot_keys_owned in *; simpl; count_routes.
Qed.
Lemma StageNoPin_ok t w : balanced t w → let '(b, t', w') := StageNoPin t w in balanced t' w'.
Proof.
  intros B. unfold StageNoPin. pose proof (Rollback_ok t w B) as R. destruct (RollbackStagedPin t w) as [[b t1] w1].
  destruct R as [[I F P M] R]. destruct b; simpl; [|by split]. specialize (R eq_refl). split; simpl; try done.
  unfold owned_keys in *; simpl; rewrite R in P. rewrite ?slot_keys_owned. count_routes.
Qed.
Lemma Commit_ok t w : balanced t w → let '(b, t', w') := Transaction_CommitStagedPin t w in balanced t' w'.
Proof.
  intros [I F P M]. unfold Transaction_CommitStagedPin. destruct (rs_Present (tx_staged_pin t)) eqn:Es; simpl; [|by split].
  match goal with |- context [RetryPending EgressPin ?t1 w] => assert (B : balanced t1 w) end.
  { pose proof (QueueOwned_keys (tx_staged_pin t) t) as K1. pose proof (QueueOwned_keys (tx_committed_pin t) t) as K2.
    destruct (QueueOwned_fields (tx_staged_pin t) t) as (E1 & E2 & E3 & E4 & E5).
    destruct (QueueOwned_fields (tx_committed_pin t) t) as (G1 & G2 & G3 & G4 & G5).
    case_match; [destruct (rs_Owned (tx_staged_pin t)) eqn:Eo|]; split; simpl; rewrite ?E1, ?E2, ?E3, ?G1, ?G2, ?G3; try done.
    - by apply QueueOwned_forall.
    - unfold owned_keys in *. simpl. rewrite E2, E3, E5. count_routes.
    - unfold owned_keys in *. assert (slot_keys (tx_staged_pin t) = []) as En by (unfold slot_keys, slot_owned; by rewrite Eo, andb_false_r).
      rewrite En in P. count_routes.
    - by apply QueueOwned_forall.
    - unfold owned_keys in *. simpl. rewrite G2, G3. count_routes. }
  pose proof (RetryPending_ok EgressPin _ _ B) as R. destruct (RetryPending _ _ _) as [[b t'] w']. apply R.
Qed.

(** The pair that replaces the old one, whose routes are queued. *)
Definition replace_pair (mode : PairMode) (next_lower next_upper : RouteSlot) (t : RouteTransaction) : RouteTransaction :=
  set_tx_mode mode (set_tx_upper next_upper (set_tx_lower next_lower (QueueOwned (tx_lower t) (QueueOwned (tx_upper t) t)))).
Lemma replace_pair_ok mode next_lower next_upper t w :
  mutator_ok w → Forall slot_owned (tx_pending_cleanup t) → rs_Present next_lower → rs_Present next_upper →
  mutator_held w ≡ₚ slot_keys next_lower ++ slot_keys next_upper ++ owned_keys t →
  balanced (replace_pair mode next_lower next_upper t) w.
Proof.
  intros I F E1 E2 P. unfold replace_pair. set (t1 := QueueOwned (tx_upper t) t).
  pose proof (QueueOwned_keys (tx_upper t) t) as K1. pose proof (QueueOwned_keys (tx_lower t) t1) as K2.
  destruct (QueueOwned_fields (tx_upper t) t) as (_ & _ & _ & G4 & G5). destruct (QueueOwned_fields (tx_lower t) t1) as (_ & _ & _ & H4 & H5).
  split; simpl; try done.
  - by apply QueueOwned_forall, QueueOwned_forall.
  - unfold owned_keys in *. simpl. rewrite H4, H5. unfold t1. rewrite G4, G5. fold t1. fold t1 in K1. count_routes.
Qed.
Lemma ApplyPair_ok mode lower upper t w :
  mode ≠ PairNone → balanced t w → let '(b, t', w') := ApplyPair mode lower upper t w in balanced t' w'.
Proof.
  intros Hm [I F P M]. unfold ApplyPair.
  match goal with |- context [if ?b then (false, t, w) else _] => destruct b; [by split|] end.
  match goal with |- context [if ?b then (true, _, _) else _] => destruct b eqn:E end.
  { apply andb_true_iff in E as [E _]. apply andb_true_iff in E as [E _]. apply andb_true_iff in E as [E1 E2].
    split; simpl; [done..|]. intros _. by rewrite E1, E2. }
  destruct (law_create lower w I) as [I1 P1]. destruct (Mutator_Create lower w) as [m1 w1]. simpl in I1, P1.
  destruct (decide (m1 = MutationFailed)) as [->|Hm1]; [simpl in P1; by split; [..|rewrite P1|]|].
  destruct (law_create upper w1 I1) as [I2 P2].
  assert (K : ∀ r m, slot_keys (mkRouteSlot r true (is_changed m)) = if is_changed m then [route_key r] else []) by done.
  assert (Hgoal : let '(b, t', w') := let '(upper_result, w2) := Mutator_Create upper w1 in
    match upper_result with
    | MutationFailed =>
        let '(ok, s, w3) := DeleteSlot (mkRouteSlot lower true (is_changed m1)) w2 in (false, if ok : bool then t else QueueOwned s t, w3)
    | _ =>
        let '(_, t1, w3) := RetryPending UpperHalf
          (replace_pair mode (mkRouteSlot lower true (is_changed m1)) (mkRouteSlot upper true (is_changed upper_result)) t) w2 in
        let '(_, t2, w4) := RetryPending LowerHalf t1 w3 in (true, t2, w4)
    end in balanced t' w').
  2: { by destruct m1. }
  destruct (Mutator_Create upper w1) as [m2 w2]. simpl in I2, P2. destruct (decide (m2 = MutationFailed)) as [->|Hm2].
  - pose proof (DeleteSlot_spec (mkRouteSlot lower true (is_changed m1)) w2 I2) as R. destruct (DeleteSlot _ _) as [[b s] w3].
    destruct R as (I3 & P3 & ->). rewrite K in P3. simpl in P2. destruct b; [split; try done; count_routes|].
    pose proof (QueueOwned_keys (mkRouteSlot lower true (is_changed m1)) t) as Kq. rewrite K in Kq, P3.
    destruct (QueueOwned_fields (mkRouteSlot lower true (is_changed m1)) t) as (G1 & G2 & G3 & G4 & G5). split; rewrite ?G1, ?G2, ?G3; try done.
    + by apply QueueOwned_forall.
    + unfold owned_keys in *. rewrite G2, G3, G4, G5. count_routes.
  - assert (B : balanced (replace_pair mode (mkRouteSlot lower true (is_changed m1)) (mkRouteSlot upper true (is_changed m2)) t) w2).
    { apply replace_pair_ok; try done. rewrite !K. count_routes. }
    pose proof (RetryPending_ok UpperHalf _ _ B) as R1.
    destruct m2; [| |done]; (destruct (RetryPending UpperHalf _ _) as [[b1 t1] w3]; destruct R1 as [B1 _];
      pose proof (RetryPending_ok LowerHalf _ _ B1) as R2; destruct (RetryPending LowerHalf _ _) as [[b2 t2] w4]; apply R2).
Qed.

(** Deleting the route of one slot, without a pair to keep. *)
Definition deletes_slot (get : RouteTransaction → RouteSlot) (set : RouteSlot → RouteTransaction → RouteTransaction) : Prop :=
  ∀ t w, balanced t w → tx_mode t = PairNone →
  let '(b, s, w') := DeleteSlot (get t) w in
  balanced (set s t) w' ∧ tx_mode (set s t) = PairNone ∧ (b = true → get (set s t) = RouteSlot_new) .
Ltac delete_slot get :=
  let t := fresh "t" in let w := fresh "w" in let I := fresh "I" in let F := fresh "F" in let P := fresh "P" in let M := fresh "M" in
  let E := fresh "E" in let R := fresh "R" in
  intros t w [I F P M] E; pose proof (DeleteSlot_spec (get t) w I) as R; destruct (DeleteSlot (get t) w) as [[? ?] ?];
  destruct R as (? & ? & ->); split; [split; simpl; try done; count_routes|split; [done|by intros ->]].
Lemma delete_upper : deletes_slot tx_upper set_tx_upper.
Proof. delete_slot tx_upper. Qed.
Lemma delete_lower : deletes_slot tx_lower set_tx_lower.
Proof. delete_slot tx_lower. Qed.
Lemma delete_staged : deletes_slot tx_staged_pin set_tx_staged.
Proof. delete_slot tx_staged_pin. Qed.
Lemma delete_committed : deletes_slot tx_committed_pin set_tx_committed.
Proof. delete_slot tx_committed_pin. Qed.
Lemma Stop_mode t w : Transaction_Stop t w = Transaction_Stop (set_tx_mode PairNone t) w.
Proof.
  unfold Transaction_Stop, RetryPending. simpl. destruct (DeleteSlot (tx_upper t) w) as [[b1 s1] w1].
  destruct (DeleteSlot (tx_lower t) w1) as [[b2 s2] w2]. destruct (retry_pending _ _ w2) as [[b3 l3] w3]. simpl.
  by destruct (retry_pending _ _ w3) as [[b4 l4] w4].
Qed.
Lemma Stop_ok t w :
  balanced t w → let '(b, t', w') := Transaction_Stop t w in balanced t' w' ∧ (b = true → t' = RouteTransaction_new).
Proof.
  intros [I F P M]. rewrite Stop_mode. assert (B : balanced (set_tx_mode PairNone t) w) by (split; done). revert B.
  assert (E : tx_mode (set_tx_mode PairNone t) = PairNone) by done. revert E. generalize (set_tx_mode PairNone t). clear. intros t E B.
  unfold Transaction_Stop.
  pose proof (delete_upper _ _ B E) as R. destruct (DeleteSlot _ _) as [[b1 s1] w1]. destruct R as (B1 & E1 & Z1).
  pose proof (delete_lower _ _ B1 E1) as R. destruct (DeleteSlot _ _) as [[b2 s2] w2]. destruct R as (B2 & E2 & Z2).
  pose proof (RetryPending_ok UpperHalf _ _ B2) as R. destruct (RetryPending _ _ _) as [[b3 t3] w3]. destruct R as [B3 T3].
  pose proof (RetryPending_ok LowerHalf _ _ B3) as R. destruct (RetryPending _ _ _) as [[b4 t4] w4]. destruct R as [B4 T4].
  assert (E4 : set_tx_mode PairNone t4 = t4) by (rewrite T4, T3; simpl; rewrite <- E2; done). rewrite E4.
  assert (E5 : tx_mode t4 = PairNone) by (rewrite <- E4; done).
  pose proof (delete_staged _ _ B4 E5) as R. destruct (DeleteSlot _ _) as [[b5 s5] w5]. destruct R as (B5 & E6 & Z5).
  pose proof (RetryPending_ok EgressPin _ _ B5) as R. destruct (RetryPending _ _ _) as [[b6 t6] w6]. destruct R as [B6 T6].
  assert (E7 : tx_mode t6 = PairNone) by (rewrite T6; done).
  pose proof (delete_committed _ _ B6 E7) as R. destruct (DeleteSlot _ _) as [[b7 s7] w7]. destruct R as (B7 & E8 & Z7).
  pose proof (RetryPending_ok EgressPin _ _ B7) as R. destruct (RetryPending _ _ _) as [[b8 t8] w8]. destruct R as [B8 T8].
  split; [done|]. rewrite !andb_true_iff, bool_decide_eq_true. intros H8. destruct_and!. subst b1 b2 b5 b7.
  specialize (Z1 eq_refl). specialize (Z2 eq_refl). specialize (Z5 eq_refl). specialize (Z7 eq_refl). simpl in *. subst s1 s2 s5 s7.
  assert (tx_mode t8 = PairNone) as F1 by (rewrite T8; done).
  assert (tx_lower t8 = RouteSlot_new) as F2 by (rewrite T8; simpl; rewrite T6; simpl; rewrite T4; simpl; rewrite T3; done).
  assert (tx_upper t8 = RouteSlot_new) as F3 by (rewrite T8; simpl; rewrite T6; simpl; rewrite T4; simpl; rewrite T3; done).
  assert (tx_staged_pin t8 = RouteSlot_new) as F4 by (rewrite T8; simpl; rewrite T6; done).
  assert (tx_committed_pin t8 = RouteSlot_new) as F5 by (rewrite T8; done).
  destruct t8; simpl in *. unfold RouteTransaction_new. congruence.
Qed.
End Laws.

(** ** The Windows owner keeps the laws *)
Definition row_key (row : RouteRow) : RouteIdentity := ToIdentity row EgressPin.
Fixpoint remove_route (k : RouteIdentity) (l : list RouteIdentity) : option (list RouteIdentity) :=
  match l with
  | [] => None
  | r :: l => if decide (r = k) then Some l else (r ::.) <$> remove_route k l
  end.
Lemma remove_route_perm k l m : l ≡ₚ k :: m → ∃ l', remove_route k l = Some l' ∧ l' ≡ₚ m.
Proof.
  intros P. assert (Hk : k ∈ l) by (rewrite P; left). revert m P. induction l as [|r l IH]; intros m P; [set_solver|]. simpl.
  case_decide as D; [subst; exists l; split; [done|by apply Permutation_cons_inv in P]|].
  apply elem_of_cons in Hk as [Hk|Hk]; [by destruct D|]. destruct (elem_of_Permutation l k) as [Hp _]. destruct (Hp Hk) as [m' Pm].
  destruct (IH Hk m' Pm) as (l' & -> & P'). exists (r :: l'). split; [done|]. apply (Permutation_cons_inv (a := k)). rewrite <- P, Pm, P'.
  constructor.
Qed.
(** The routes the events leave behind; [None]: one was deleted that the owner had not created, or had deleted before. *)
Definition event_step (l : list RouteIdentity) (e : RouteEvent) : option (list RouteIdentity) :=
  match e with
  | RouteCreated row => Some (row_key row :: l)
  | RouteGone row => remove_route (row_key row) l
  | RouteDelete row status =>
      if (status =? NO_ERROR) || (status =? ERROR_NOT_FOUND) then remove_route (row_key row) l
      else if bool_decide (row_key row ∈ l) then Some l else None
  end.
Definition outstanding (events : list RouteEvent) : option (list RouteIdentity) :=
  fold_left (λ acc e, acc ≫= λ l, event_step l e) events (Some []).
Lemma outstanding_snoc events e : outstanding (events ++ [e]) = outstanding events ≫= λ l, event_step l e.
Proof. unfold outstanding. by rewrite fold_left_app. Qed.
Definition record_keys (records : list RouteRecord) : list RouteIdentity := (λ r, row_key (rr_Row r)) <$> records.

Section OwnerLaws.
Context `{WindowsRouteApi os}.

Definition world_ok (w : RouteWorld os) : Prop :=
  ∃ l, outstanding (rw_events w) = Some l ∧ l ≡ₚ record_keys (rw_records w).
Lemma row_key_ToRow r : row_key (ToRow r) = route_key r.
Proof. done. Qed.
Lemma ToIdentity_key row k r : ToIdentity row k = r → row_key row = route_key r.
Proof. by intros <-. Qed.
Lemma exact_row_key a b k : IsExactRouteRowMatch a b k = true → row_key a = row_key b.
Proof.
  unfold IsExactRouteRowMatch. case_match; [done|]. rewrite IsExactRouteMatch_eq. intros E. apply ToIdentity_key in E. by rewrite E.
Qed.

Lemma Owner_Create_ok r (w : RouteWorld os) :
  world_ok w →
  world_ok (Owner_Create r w).2 ∧
  record_keys (rw_records (Owner_Create r w).2) ≡ₚ (if is_changed (Owner_Create r w).1 then [route_key r] else []) ++ record_keys (rw_records w).
Proof.
  intros (l & E & P). unfold Owner_Create. destruct (CreateIpForwardEntry2 _ _) as [status o]. case_match.
  - simpl. unfold record_keys. rewrite fmap_app. simpl. rewrite row_key_ToRow. split; [|by rewrite (comm (++))].
    exists (route_key r :: l). simpl. rewrite outstanding_snoc, E. split; [done|]. unfold record_keys in *. rewrite fmap_app, P. simpl.
    by rewrite row_key_ToRow, <- Permutation_cons_append.
  - case_match; [split; [by exists l|done]|]. destruct (GetIpForwardEntry2 _ _) as [[s2 existing] o2]. case_match; (split; [by exists l|done]).
Qed.
Lemma cleanup_pending_ok w i r o events l :
  rw_records w !! i = Some r → outstanding events = Some l → l ≡ₚ record_keys (rw_records w) →
  world_ok (cleanup_pending w i r o events).2 ∧ record_keys (rw_records w) ≡ₚ record_keys (rw_records (cleanup_pending w i r o events).2).
Proof.
  intros Ei E P. unfold cleanup_pending, world_ok, record_keys in *. simpl. rewrite list_fmap_insert. simpl. rewrite list_insert_id.
  - split; [by exists l|done].
  - by rewrite list_lookup_fmap, Ei.
Qed.
Lemma delete_record_ok (w : RouteWorld os) i r o e l :
  rw_records w !! i = Some r → outstanding (rw_events w) = Some l → l ≡ₚ record_keys (rw_records w) →
  (∀ l, event_step l e = remove_route (row_key (rr_Row r)) l) →
  let w' := mkRouteWorld (delete i (rw_records w)) o (rw_events w ++ [e]) in
  world_ok w' ∧ record_keys (rw_records w) ≡ₚ row_key (rr_Row r) :: record_keys (rw_records w').
Proof.
  intros Ei E P He w'. assert (K : record_keys (rw_records w) ≡ₚ row_key (rr_Row r) :: record_keys (rw_records w')).
  { unfold record_keys. by rewrite (delete_Permutation _ _ _ Ei) at 1. }
  split; [|done]. rewrite K in P. apply remove_route_perm in P as (k & Ek & Pk). exists k. simpl. rewrite outstanding_snoc, E. simpl.
  by rewrite He.
Qed.
Lemma Owner_Delete_ok r (w : RouteWorld os) :
  world_ok w →
  world_ok (Owner_Delete r w).2 ∧
  record_keys (rw_records w) ≡ₚ (if (Owner_Delete r w).1 then [route_key r] else []) ++ record_keys (rw_records (Owner_Delete r w).2).
Proof.
  intros W. pose proof W as (l & E & P). unfold Owner_Delete. destruct (list_find _ _) as [[i rec]|] eqn:Ef; [|done].
  apply list_find_Some in Ef as (Ei & [_ Em] & _). apply Is_true_true, IsExactRouteMatch_eq, ToIdentity_key in Em.
  destruct (RevalidateInterface _ _) as [valid o1]. destruct valid; simpl; [|by apply cleanup_pending_ok with (l := l)].
  destruct (GetIpForwardEntry2 _ _) as [[s2 existing] o2]. case_match eqn:E1.
  { rewrite <- Em. apply (delete_record_ok w i rec _ _ l); [done..|]. done. }
  case_match eqn:E2; [by apply cleanup_pending_ok with (l := l)|]. apply orb_false_iff in E2 as [_ E2]. apply negb_false_iff, exact_row_key in E2.
  destruct (DeleteIpForwardEntry2 _ _) as [s3 o3]. case_match eqn:E3.
  - rewrite <- Em. apply (delete_record_ok w i rec _ _ l); [done..|]. intros k. simpl. by rewrite E3, E2.
  - apply cleanup_pending_ok with (l := l); [done| |done]. rewrite outstanding_snoc, E. simpl. rewrite E3, bool_decide_eq_true_2; [done|].
    rewrite E2, P. unfold record_keys. apply list_elem_of_fmap.
    exists rec. split; [done|]. by apply list_elem_of_lookup_2 in Ei.
Qed.
#[global] Instance Owner_laws : RouteMutatorLaws (RouteWorld os) := {
  mutator_ok := world_ok;
  mutator_held w := record_keys (rw_records w);
  law_create := Owner_Create_ok;
  law_delete := Owner_Delete_ok;
}.

Definition owner_ok (ow : RouteOwner) : Prop := balanced (ow_transaction ow) (ow_world ow).
Lemma owner_new_ok o : owner_ok (RouteOwner_new o).
Proof. split; simpl; [by exists []|constructor|done|done]. Qed.
Lemma set_ow_os_ok o ow : owner_ok ow → owner_ok (set_ow_os o ow).
Proof. intros [(l & I) F P M]. split; [by exists l|done..]. Qed.
Lemma with_transaction_ok ow r :
  (let '(_, t, w) := r in balanced t w) → owner_ok (with_transaction ow r).2.
Proof. by destruct r as [[ok t] w]. Qed.
Lemma rollback_owner_ok ow : owner_ok ow → owner_ok (Owner_RollbackStagedPin ow).2.
Proof.
  intros I. apply with_transaction_ok. pose proof (Rollback_ok _ _ I) as R. destruct (RollbackStagedPin _ _) as [[b t] w]. apply R.
Qed.
Lemma stage_owner_ok endpoint proven_external ow : owner_ok ow → owner_ok (StageEgressEndpoint endpoint proven_external ow).2.
Proof.
  intros I. unfold StageEgressEndpoint. case_match; [done|]. case_match; [by apply rollback_owner_ok|]. destruct endpoint as [b|b s].
  - by apply with_transaction_ok, StageNoPin_ok.
  - case_match; [by apply rollback_owner_ok|]. destruct (GetBestRoute2 _ _ _ _) as [[status best_route] o].
    pose proof (set_ow_os_ok o _ I) as I'. case_match; [by apply rollback_owner_ok|]. by apply with_transaction_ok, StagePin_ok.
Qed.
Lemma pair_owner_ok mode gateway ow :
  mode ≠ PairNone → owner_ok ow →
  owner_ok (match BuildPair gateway ow with
    | None => (false, ow)
    | Some (lower, upper) => with_transaction ow (ApplyPair mode lower upper (ow_transaction ow) (ow_world ow))
    end).2.
Proof. intros Hm I. destruct (BuildPair gateway ow) as [[lower upper]|]; [|done]. by apply with_transaction_ok, ApplyPair_ok. Qed.
Lemma bind_owner_ok tap physical ow : owner_ok ow → owner_ok (BindInterfaces tap physical ow).2.
Proof.
  intros I. unfold BindInterfaces. case_match; [done|]. destruct (GetIfEntry2 _ _) as [[s1 r1] o1]. case_match; [by apply set_ow_os_ok|].
  destruct (GetIfEntry2 _ _) as [[s2 r2] o2]. case_match; [by apply set_ow_os_ok|]. by apply (set_ow_os_ok o2).
Qed.
Lemma stop_owner ow :
  owner_ok ow →
  owner_ok (Owner_Stop ow).2 ∧
  ((Owner_Stop ow).1 = true → (Owner_Stop ow).2 = mkRouteOwner RouteTransaction_new InterfaceRow_new InterfaceRow_new false
    (mkRouteWorld [] (rw_os (ow_world (Owner_Stop ow).2)) (rw_events (ow_world (Owner_Stop ow).2)))).
Proof.
  intros I. pose proof (Stop_ok _ _ I) as R. unfold Owner_Stop. destruct (Transaction_Stop _ _) as [[b t] w]. destruct R as [B Et]. simpl.
  case_match eqn:E; [done|]. apply orb_false_iff in E as [E1 E2]. apply negb_false_iff in E1, E2. subst b. rewrite bool_decide_eq_true in E2.
  rewrite Et in B |- * by done. simpl. destruct w as [records o events]. simpl in *. subst. by split.
Qed.
Lemma owner_step_ok ow c : owner_ok ow → owner_ok (owner_step ow c).2.
Proof.
  intros I. destruct c as [tap physical|endpoint proven_external| |gateway nat_mode| | |]; simpl.
  - by apply bind_owner_ok.
  - by apply stage_owner_ok.
  - unfold Owner_EnsureSinkMode. case_match; [done|]. by apply (pair_owner_ok PairSink None).
  - unfold Owner_ActivateManagedMode. case_match; [done|]. case_match; [by apply (pair_owner_ok PairManaged None)|].
    destruct gateway as [b|b s]; [done|]. by apply (pair_owner_ok PairManaged (Some (b, s))).
  - unfold Owner_CommitStagedPin. case_match; [done|]. by apply with_transaction_ok, Commit_ok.
  - by apply rollback_owner_ok.
  - by apply stop_owner.
Qed.
Lemma owner_run_ok o calls : owner_ok (owner_run o calls).
Proof.
  unfold owner_run. assert (H0 : owner_ok (RouteOwner_new o)) by apply owner_new_ok. revert H0. generalize (RouteOwner_new o).
  induction calls as [|c calls IH]; intros ow I; simpl; [done|]. by apply IH, owner_step_ok.
Qed.
Lemma owned_keys_nil t : Forall slot_owned (tx_pending_cleanup t) → owned_keys t = [] → Transaction_HasPendingCleanup t = false.
Proof.
  intros F E. unfold Transaction_HasPendingCleanup, owned_keys, slot_keys in *. destruct (tx_pending_cleanup t) as [|s l].
  - repeat case_match; naive_solver.
  - apply Forall_cons in F as [F _]. rewrite pending_keys_cons in E. unfold slot_keys in E. destruct (slot_owned s); [|done].
    do 4 (apply app_nil in E as [_ E]). done.
Qed.
End OwnerLaws.

(** C7: accounting of the routes, whatever the system answers and in whatever order the owner is called.  The routes it created and
    did not delete are, each once, the records of the mutator and the routes the transaction owns: none is forgotten, and no delete
    is ever tried for a route that the owner did not create or that it deleted already.  Cleanup is reported pending exactly when such
    a route is left; and when [Stop] answers true nothing is left of any kind.  While a mode is reported active, the transaction has
    both halves of its pair on record, and a half that it created is among those routes, not deleted by the owner since.  (A half
    that was found in place is not among them, and nothing keeps it: a cleanup that is retried can delete it, see
    [retried_cleanup_removes_halves], so an active mode does not mean that both halves are in the routing table.) *)
Theorem ipv6_routes_accounted {os} `{WindowsRouteApi os} (o : os) calls :
  let ow := owner_run o calls in
  ∃ routes, outstanding (rw_events (ow_world ow)) = Some routes ∧
    routes ≡ₚ owned_keys (ow_transaction ow) ∧ routes ≡ₚ record_keys (rw_records (ow_world ow)) ∧
    (Owner_HasPendingCleanup ow = false ↔ routes = []) ∧
    (HasActiveTakeover ow = true → Forall (λ half, rs_Present half ∧ (rs_Owned half → route_key (rs_Identity half) ∈ routes))
       [tx_lower (ow_transaction ow); tx_upper (ow_transaction ow)]) ∧
    ((Owner_Stop ow).1 = true →
      let stopped := (Owner_Stop ow).2 in
      outstanding (rw_events (ow_world stopped)) = Some [] ∧ rw_records (ow_world stopped) = [] ∧
      ow_transaction stopped = RouteTransaction_new ∧ ow_bound stopped = false).
Proof.
  intros ow. pose proof (owner_run_ok o calls : owner_ok ow) as I. pose proof I as [(l & E & P) F B M]. simpl in B. exists l.
  assert (P' : l ≡ₚ owned_keys (ow_transaction ow)) by (by rewrite P).
  split_and!; [done..| | |].
  - unfold Owner_HasPendingCleanup. rewrite orb_false_iff, negb_false_iff, bool_decide_eq_true. split.
    + intros [_ Er]. rewrite Er in P. by apply Permutation_nil_r in P.
    + intros ->. apply symmetry in P, P'. apply Permutation_nil_r in P, P'. split; [by apply owned_keys_nil|].
      unfold record_keys in P. by apply fmap_nil_inv in P.
  - unfold HasActiveTakeover. rewrite negb_true_iff, bool_decide_eq_false. intros [M1 M2]%M.
    assert (∀ s, s ∈ [tx_lower (ow_transaction ow); tx_upper (ow_transaction ow)] → rs_Present s → rs_Owned s →
      route_key (rs_Identity s) ∈ l) as K.
    { intros s Hs Hp Ho. rewrite P'. unfold owned_keys. rewrite !elem_of_app.
      assert (route_key (rs_Identity s) ∈ slot_keys s) as Hk.
      { unfold slot_keys, slot_owned. apply Is_true_true in Hp, Ho. rewrite Hp, Ho. apply elem_of_cons. by left. }
      apply elem_of_cons in Hs as [E1|Hs]; [|apply list_elem_of_singleton in Hs]; subst s; auto. }
    rewrite !Forall_cons. split_and!; [done| |done| |done]; apply K; set_solver.
  - intros Es stopped. destruct (stop_owner ow I) as [[(l' & E' & P'') _ _ _] Hs]. specialize (Hs Es). fold stopped in E', P'', Hs.
    rewrite Hs in P''. simpl in P''. apply Permutation_nil_r in P''. subst l'. split; [done|]. rewrite Hs. done.
Qed.

(** ** A routing table *)
(** Two interfaces and a table of routes, whose next [ts_locked] deletes are refused. *)
Record TableSystem := mkTableSystem { ts_rows : list RouteRow; ts_locked : nat }.
Definition in_table (row : RouteRow) (rows : list RouteRow) : bool :=
  existsb (λ r, bool_decide (row_key r = row_key row)) rows.
Definition physical_gateway : Sockaddr := mkSockaddr AF_INET6 (254 :: 128 :: replicate 13 0 ++ [1]) 2.
#[global] Instance TableSystem_api : WindowsRouteApi TableSystem := {
  InitializeIpForwardEntry :=
    mkRouteRow 0 0 (mkSockaddr AF_INET6 (replicate 16 0) 0) 0 (mkSockaddr AF_INET6 (replicate 16 0) 0) 0 0 0 0 0 false false false false 0;
  GetBestRoute2 luid index destination o :=
    (NO_ERROR, mkRouteRow luid index (mkSockaddr AF_INET6 (replicate 16 0) 0) 0 physical_gateway 0 0 0 25 3 false false false false 0, o);
  GetIpForwardEntry2 row o := (if in_table row (ts_rows o) then NO_ERROR else ERROR_NOT_FOUND, row, o);
  CreateIpForwardEntry2 row o :=
    if in_table row (ts_rows o) then (ERROR_OBJECT_ALREADY_EXISTS, o) else (NO_ERROR, mkTableSystem (row :: ts_rows o) (ts_locked o));
  DeleteIpForwardEntry2 row o :=
    match ts_locked o with
    | S n => (5, mkTableSystem (ts_rows o) n)
    | O => (NO_ERROR, mkTableSystem (filter (λ r, row_key r ≠ row_key row) (ts_rows o)) 0)
    end;
  GetIfEntry2 row o := (NO_ERROR, mkInterfaceRow (100 + if_Index row) (if_Index row) 6, o);
}.
Definition server_a : Address := AddressV6 (32 :: 1 :: replicate 13 0 ++ [10]) 0.
Definition server_b : Address := AddressV6 (32 :: 1 :: replicate 13 0 ++ [11]) 0.
Definition reconnect_calls : list OwnerCall :=
  [CallBind 1 2; CallStage server_a true; CallSink; CallCommit; CallStage server_b true; CallCommit; CallStage server_a true; CallCommit].

(** A reconnection from one server to another and back, where the delete of the first pin is refused once: the second pin to the
    first server is the old route, found in place and hence not owned; the retried cleanup then deletes it.  The transaction goes on
    to report a committed pin, and the takeover stays active, without a pin in the table. *)
Lemma retried_cleanup_removes_pin :
  let ow := owner_run (mkTableSystem [] 1) reconnect_calls in
  HasEgress (ow_transaction ow) = true ∧ HasActiveTakeover ow = true ∧
  rt_Destination (rs_Identity (tx_committed_pin (ow_transaction ow))) = 32 :: 1 :: replicate 13 0 ++ [10] ∧
  rs_Present (tx_committed_pin (ow_transaction ow)) = true ∧
  existsb (λ r, row_PrefixLength r =? 128) (ts_rows (rw_os (ow_world ow))) = false.
Proof. vm_compute. repeat split. Qed.
(** The same with the halves: the sink pair replaced by a managed one while the deletes of its halves are refused, then put in place
    again; the halves are found in place, not owned, and the retried cleanup deletes them.  The mode is active with only the pin
    left in the table. *)
Definition managed_gateway : Address := AddressV6 (32 :: 1 :: replicate 13 0 ++ [254]) 0.
Definition repaired_calls : list OwnerCall :=
  [CallBind 1 2; CallStage server_a true; CallSink; CallCommit; CallManaged managed_gateway false; CallSink].
Lemma retried_cleanup_removes_halves :
  let ow := owner_run (mkTableSystem [] 2) repaired_calls in
  HasActiveTakeover ow = true ∧ rs_Present (tx_lower (ow_transaction ow)) = true ∧ rs_Present (tx_upper (ow_transaction ow)) = true ∧
  map row_PrefixLength (ts_rows (rw_os (ow_world ow))) = [128].
Proof. vm_compute. repeat split. Qed.
(** With no refusal the pin stays, the rest is deleted by [Stop], and the table is as it was. *)
Lemma reconnect_accounted :
  let ow := owner_run (mkTableSystem [] 0) reconnect_calls in
  existsb (λ r, row_PrefixLength r =? 128) (ts_rows (rw_os (ow_world ow))) = true ∧ length (rw_records (ow_world ow)) = 3%nat ∧
  (Owner_Stop ow).1 = true ∧ ts_rows (rw_os (ow_world (Owner_Stop ow).2)) = [].
Proof. vm_compute. repeat split. Qed.
