(* ===== verification/MuxDrr.v ===== *)
(** * The deficit round robin of the multiplexer

    The transmit queues of [app/mux/vmux_net.cpp]: one queue of frames per connection, the ring of active flows
    that [drr_pop_next] serves by byte deficit, and the flows parked on the retransmit window.  A frame is known by
    the number of its post; [peek_connection_id] is what the code reads back from its header.  Deficits and counters
    are unbounded integers; a frame is at most 65535 bytes and a queue at most a megabyte. *)
From S2P Require Import Prelude.
Local Open Scope Z_scope.

Definition sizeof_vmux_hdr : Z := 9.
Record TxPacket := mkTxPacket {
  tp_post : nat;
  tp_cid : Z;
  tp_cmd : Z;
  tp_seq : Z;
  tp_length : Z;
  tp_assign_seq : bool;
  tp_completion : bool;
}.
#[global] Instance TxPacket_eq_dec : EqDecision TxPacket.
Proof. solve_decision. Defined.
Definition peek_connection_id (p : TxPacket) : Z := if tp_length p <? sizeof_vmux_hdr then 0 else tp_cid p.
Definition frame_bytes (p : TxPacket) : Z := if 0 <? tp_length p then tp_length p else 0.

Record FlowTx := mkFlowTx {
  fx_queue : list TxPacket;
  fx_bytes : Z;
  fx_deficit : Z;
  fx_quantum_due : bool;
  fx_active : bool;
  fx_visit_count : Z;
  fx_rtx_parked : bool;
}.
Definition FlowTx_new : FlowTx := mkFlowTx [] 0 0 true false 0 false.
Record Drr := mkDrr {
  dr_flows : gmap Z FlowTx;
  dr_active : list Z;
  dr_parked : list Z;
  dr_frames : Z;
  dr_bytes : Z;
}.
Definition PPP_MUX_TX_FLOW_QUANTUM_BYTES : Z := 16384.
Definition PPP_MUX_TX_FLOW_MAX_VISIT_FRAMES : Z := 8.
Definition PPP_MUX_TX_FLOW_MAX_FRAMES : Z := 256.
Definition PPP_MUX_TX_FLOW_MAX_BYTES : Z := 1048576.

(** ** Operations *)
Definition clear_flow_tx : Drr := mkDrr ∅ [] [] 0 0.
(** [tx_flows_[cid]], which makes the flow. *)
Definition flow_of (cid : Z) (s : Drr) : FlowTx := default FlowTx_new (dr_flows s !! cid).
Definition set_flow (cid : Z) (fx : FlowTx) (s : Drr) : Drr :=
  mkDrr (<[cid := fx]> (dr_flows s)) (dr_active s) (dr_parked s) (dr_frames s) (dr_bytes s).
Definition set_ring (l : list Z) (s : Drr) : Drr := mkDrr (dr_flows s) l (dr_parked s) (dr_frames s) (dr_bytes s).
Definition set_parked (l : list Z) (s : Drr) : Drr := mkDrr (dr_flows s) (dr_active s) l (dr_frames s) (dr_bytes s).
Definition set_totals (frames bytes : Z) (s : Drr) : Drr := mkDrr (dr_flows s) (dr_active s) (dr_parked s) frames bytes.
Definition remove_cid (cid : Z) (l : list Z) : list Z := filter (λ c, c ≠ cid) l.
Definition sat_sub (a b : Z) : Z := if b <=? a then a - b else 0.

(** The part of [fail_flow] that concerns the queues. *)
Definition drop_flow_tx (cid : Z) (s : Drr) : Drr :=
  match dr_flows s !! cid with
  | None => s
  | Some fx =>
      mkDrr (delete cid (dr_flows s))
        (if fx_active fx then remove_cid cid (dr_active s) else dr_active s)
        (if fx_rtx_parked fx then remove_cid cid (dr_parked s) else dr_parked s)
        (sat_sub (dr_frames s) (Z.of_nat (length (fx_queue fx)))) (sat_sub (dr_bytes s) (fx_bytes fx))
  end.
(** Without the call of [fail_flow], which is its caller's business. *)
Definition enqueue_flow_tx (cid : Z) (p : TxPacket) (s : Drr) : bool * Drr :=
  let fx := flow_of cid s in
  let nbytes := frame_bytes p in
  if (PPP_MUX_TX_FLOW_MAX_FRAMES <=? Z.of_nat (length (fx_queue fx))) || (PPP_MUX_TX_FLOW_MAX_BYTES <? fx_bytes fx + nbytes)
  then (false, set_flow cid fx s)
  else
    let due := if fx_active fx then fx_quantum_due fx else true in
    let deficit := if fx_active fx then fx_deficit fx else 0 in
    let fx' := mkFlowTx (fx_queue fx ++ [p]) (fx_bytes fx + nbytes) deficit due true (fx_visit_count fx) (fx_rtx_parked fx) in
    let s := set_totals (dr_frames s + 1) (dr_bytes s + nbytes) (set_flow cid fx' s) in
    (true, if fx_active fx then s else set_ring (dr_active s ++ [cid]) s).
Definition drr_requeue_front (p : TxPacket) (s : Drr) : Drr :=
  let cid := peek_connection_id p in
  let fx := flow_of cid s in
  let nbytes := frame_bytes p in
  let fx' := mkFlowTx (p :: fx_queue fx) (fx_bytes fx + nbytes) (fx_deficit fx + nbytes) false true 0 (fx_rtx_parked fx) in
  let s := set_totals (dr_frames s + 1) (dr_bytes s + nbytes) (set_flow cid fx' s) in
  if fx_active fx then s else set_ring (cid :: dr_active s) s.
Definition drr_park_front (p : TxPacket) (s : Drr) : Drr :=
  let cid := peek_connection_id p in
  let s := drr_requeue_front p s in
  let fx := flow_of cid s in
  let s := set_ring (remove_cid cid (dr_active s)) s in
  let s := set_flow cid (mkFlowTx (fx_queue fx) (fx_bytes fx) (fx_deficit fx) (fx_quantum_due fx) true (fx_visit_count fx) true) s in
  if fx_rtx_parked fx then s else set_parked (dr_parked s ++ [cid]) s.
Definition unpark_flow (s : Drr) (cid : Z) : Drr :=
  match dr_flows s !! cid with
  | None => s
  | Some fx =>
      if negb (fx_rtx_parked fx) then s else
      match fx_queue fx with
      | [] => set_flow cid (mkFlowTx [] (fx_bytes fx) 0 true false (fx_visit_count fx) false) s
      | _ :: _ => set_ring (dr_active s ++ [cid])
          (set_flow cid (mkFlowTx (fx_queue fx) (fx_bytes fx) (fx_deficit fx) (fx_quantum_due fx) (fx_active fx) (fx_visit_count fx) false) s)
      end
  end.
Definition drr_unpark_all (s : Drr) : bool * Drr :=
  if bool_decide (dr_parked s = []) then (false, s) else (true, set_parked [] (fold_left unpark_flow (dr_parked s) s)).
Definition tx_flow_parked (cid : Z) (s : Drr) : bool :=
  match dr_flows s !! cid with Some fx => fx_rtx_parked fx | None => false end.

(** One turn of the loop of [drr_pop_next], for the flow taken from the front of the ring. *)
Definition drr_visit (cid : Z) (s : Drr) : option TxPacket * Drr :=
  match dr_flows s !! cid with
  | None => (None, s)
  | Some fx =>
      match fx_queue fx with
      | [] =>
          if fx_bytes fx =? 0 then (None, mkDrr (delete cid (dr_flows s)) (dr_active s) (dr_parked s) (dr_frames s) (dr_bytes s))
          else (None, set_flow cid (mkFlowTx [] (fx_bytes fx) 0 true false (fx_visit_count fx) (fx_rtx_parked fx)) s)
      | out :: queue =>
          let deficit := if fx_quantum_due fx then fx_deficit fx + PPP_MUX_TX_FLOW_QUANTUM_BYTES else fx_deficit fx in
          let next_turn := set_ring (dr_active s ++ [cid])
            (set_flow cid (mkFlowTx (fx_queue fx) (fx_bytes fx) deficit true (fx_active fx) 0 (fx_rtx_parked fx)) s) in
          if PPP_MUX_TX_FLOW_MAX_VISIT_FRAMES <=? fx_visit_count fx then (None, next_turn)
          else if (0 <? tp_length out) && (deficit <? tp_length out) then (None, next_turn)
          else
            let nbytes := frame_bytes out in
            let bytes := sat_sub (fx_bytes fx) nbytes in
            let deficit := Z.max 0 (deficit - nbytes) in
            let s := set_totals (if 0 <? dr_frames s then dr_frames s - 1 else dr_frames s) (sat_sub (dr_bytes s) nbytes) s in
            (Some out,
             match queue with
             | [] => set_flow cid (mkFlowTx [] bytes 0 true false 0 (fx_rtx_parked fx)) s
             | head :: _ =>
                 if (tp_length head <=? 0) || (tp_length head <=? deficit) then
                   set_ring (cid :: dr_active s)
                     (set_flow cid (mkFlowTx queue bytes deficit false (fx_active fx) (fx_visit_count fx + 1) (fx_rtx_parked fx)) s)
                 else
                   set_ring (dr_active s ++ [cid]) (set_flow cid (mkFlowTx queue bytes deficit true (fx_active fx) 0 (fx_rtx_parked fx)) s)
             end)
      end
  end.
Fixpoint drr_scan (budget : nat) (s : Drr) : option TxPacket * Drr :=
  match budget with
  | O => (None, s)
  | S budget =>
      match dr_active s with
      | [] => (None, s)
      | cid :: ring =>
          match drr_visit cid (set_ring ring s) with
          | (Some out, s) => (Some out, s)
          | (None, s) => drr_scan budget s
          end
      end
  end.
Definition max_rounds : Z := (65535 + PPP_MUX_TX_FLOW_QUANTUM_BYTES - 1) / PPP_MUX_TX_FLOW_QUANTUM_BYTES + 1.
Definition drr_pop_next (s : Drr) : option TxPacket * Drr := drr_scan (length (dr_active s) * Z.to_nat max_rounds) s.

(** ** Sums over the flows *)
Definition flow_sum (f : FlowTx → Z) (m : gmap Z FlowTx) : Z := map_sum (λ _, true) (f <$> m).
Lemma flow_sum_empty f : flow_sum f ∅ = 0.
Proof. unfold flow_sum. by rewrite fmap_empty, map_sum_empty. Qed.
Lemma flow_sum_delete f m c : f FlowTx_new = 0 → flow_sum f (delete c m) = flow_sum f m - f (default FlowTx_new (m !! c)).
Proof.
  intros Hf. unfold flow_sum. rewrite fmap_delete. destruct (m !! c) as [fx|] eqn:E; simpl.
  - rewrite (map_sum_delete (λ _, true) (f <$> m) c (f fx)); [lia|]. by rewrite lookup_fmap, E.
  - rewrite delete_id; [lia|]. by rewrite lookup_fmap, E.
Qed.
Lemma flow_sum_insert f m c fx :
  f FlowTx_new = 0 → flow_sum f (<[c := fx]> m) = flow_sum f m - f (default FlowTx_new (m !! c)) + f fx.
Proof.
  intros Hf. rewrite <- flow_sum_delete by done. rewrite <- insert_delete_eq. unfold flow_sum. rewrite fmap_insert, map_sum_insert; [lia|].
  by rewrite lookup_fmap, lookup_delete_eq.
Qed.
Definition queue_bytes (l : list TxPacket) : Z := foldr (λ p n, frame_bytes p + n) 0 l.
Lemma queue_bytes_app l k : queue_bytes (l ++ k) = queue_bytes l + queue_bytes k.
Proof. unfold queue_bytes. induction l; simpl; lia. Qed.
Lemma frame_bytes_nonneg p : 0 ≤ frame_bytes p.
Proof. unfold frame_bytes. case_match; lia. Qed.
Lemma queue_bytes_nonneg l : 0 ≤ queue_bytes l.
Proof. unfold queue_bytes. induction l as [|p l IH]; simpl; [lia|]. pose proof (frame_bytes_nonneg p). lia. Qed.
Definition flow_frames (fx : FlowTx) : Z := Z.of_nat (length (fx_queue fx)).
Lemma flow_sum_nonneg f m : (∀ fx, 0 ≤ f fx) → 0 ≤ flow_sum f m.
Proof. intros Hf. apply map_sum_nonneg. intros c v. rewrite lookup_fmap. intros (fx & _ & ->)%fmap_Some. apply Hf. Qed.
Lemma flow_sum_ge f m c : (∀ fx, 0 ≤ f fx) → f FlowTx_new = 0 → f (default FlowTx_new (m !! c)) ≤ flow_sum f m.
Proof. intros Hf H0. pose proof (flow_sum_delete f m c H0). pose proof (flow_sum_nonneg f (delete c m) Hf). lia. Qed.

(** ** Well-formed queues *)
Definition tx_frame_ok (c : Z) (p : TxPacket) : Prop := peek_connection_id p = c ∧ sizeof_vmux_hdr ≤ tp_length p ≤ 65535.
Definition in_ring (fx : FlowTx) : bool := fx_active fx && negb (fx_rtx_parked fx).
Record flow_ok (c : Z) (fx : FlowTx) : Prop := {
  fk_bytes : fx_bytes fx = queue_bytes (fx_queue fx);
  fk_frames : Forall (tx_frame_ok c) (fx_queue fx);
  fk_deficit : 0 ≤ fx_deficit fx;
  fk_visit : 0 ≤ fx_visit_count fx;
  fk_due : fx_quantum_due fx = true → fx_visit_count fx = 0;
  fk_active : fx_active fx = true ↔ fx_queue fx ≠ [];
  fk_parked : fx_rtx_parked fx = true → fx_active fx = true;
  fk_idle : fx_active fx = false → fx_visit_count fx = 0;
}.
Record drr_ok (s : Drr) : Prop := {
  do_flow : ∀ c, flow_ok c (flow_of c s);
  do_ring : ∀ c, c ∈ dr_active s ↔ in_ring (flow_of c s) = true;
  do_parked : ∀ c, c ∈ dr_parked s ↔ fx_rtx_parked (flow_of c s) = true;
  do_ring_once : NoDup (dr_active s);
  do_parked_once : NoDup (dr_parked s);
  do_frames : dr_frames s = flow_sum flow_frames (dr_flows s);
  do_bytes : dr_bytes s = flow_sum fx_bytes (dr_flows s);
}.
(** [s'] differs from [s] in one flow, the ring, the parked flows and the totals. *)
Definition updates (c : Z) (fx : FlowTx) (s s' : Drr) : Prop :=
  dr_flows s' = <[c := fx]> (dr_flows s) ∨ (fx = FlowTx_new ∧ dr_flows s' = delete c (dr_flows s)).

Lemma flow_of_updates c fx s s' c' : updates c fx s s' → flow_of c' s' = if decide (c' = c) then fx else flow_of c' s.
Proof.
  unfold flow_of. intros [->|[-> ->]]; case_decide as E; subst.
  - by rewrite lookup_insert_eq.
  - by rewrite lookup_insert_ne.
  - by rewrite lookup_delete_eq.
  - by rewrite lookup_delete_ne.
Qed.
Lemma flow_sum_updates f c fx s s' :
  f FlowTx_new = 0 → updates c fx s s' → flow_sum f (dr_flows s') = flow_sum f (dr_flows s) - f (flow_of c s) + f fx.
Proof.
  intros Hf [->|[-> ->]]; unfold flow_of; [by apply flow_sum_insert|]. rewrite flow_sum_delete by done. lia.
Qed.
(** The ring or the parked list, where only [c] may come or go. *)
Definition moves (c : Z) (l l' : list Z) : Prop := ∀ c', c' ≠ c → c' ∈ l' ↔ c' ∈ l.
Lemma drr_ok_update c fx s s' :
  drr_ok s → updates c fx s s' → flow_ok c fx →
  moves c (dr_active s) (dr_active s') → (c ∈ dr_active s' ↔ in_ring fx = true) → NoDup (dr_active s') →
  moves c (dr_parked s) (dr_parked s') → (c ∈ dr_parked s' ↔ fx_rtx_parked fx = true) → NoDup (dr_parked s') →
  dr_frames s' = dr_frames s - flow_frames (flow_of c s) + flow_frames fx →
  dr_bytes s' = dr_bytes s - fx_bytes (flow_of c s) + fx_bytes fx →
  drr_ok s'.
Proof.
  intros I U F M1 R1 N1 M2 R2 N2 Ef Eb. split; try done.
  - intros c'. rewrite (flow_of_updates _ _ _ _ _ U). case_decide as E; [by subst|apply (do_flow _ I)].
  - intros c'. rewrite (flow_of_updates _ _ _ _ _ U). case_decide as E; [by subst|]. rewrite (M1 _ E). apply (do_ring _ I).
  - intros c'. rewrite (flow_of_updates _ _ _ _ _ U). case_decide as E; [by subst|]. rewrite (M2 _ E). apply (do_parked _ I).
  - rewrite Ef, (do_frames _ I). by rewrite (flow_sum_updates flow_frames _ _ _ _ eq_refl U).
  - rewrite Eb, (do_bytes _ I). by rewrite (flow_sum_updates fx_bytes _ _ _ _ eq_refl U).
Qed.
Lemma moves_refl c l : moves c l l.
Proof. done. Qed.
Lemma moves_snoc c l : moves c l (l ++ [c]).
Proof. intros c' E. set_solver. Qed.
Lemma moves_cons c l : moves c l (c :: l).
Proof. intros c' E. set_solver. Qed.
Lemma moves_remove c l : moves c l (remove_cid c l).
Proof. intros c' E. unfold remove_cid. rewrite list_elem_of_filter. naive_solver. Qed.
Lemma moves_trans c l1 l2 l3 : moves c l1 l2 → moves c l2 l3 → moves c l1 l3.
Proof. intros M1 M2 c' E. by rewrite (M2 _ E), (M1 _ E). Qed.
Lemma not_in_removed c l : c ∉ remove_cid c l.
Proof. unfold remove_cid. rewrite list_elem_of_filter. naive_solver. Qed.
Lemma NoDup_snoc_new (c : Z) l : NoDup l → c ∉ l → NoDup (l ++ [c]).
Proof. intros N E. apply NoDup_app. split; [done|]. split; [set_solver|apply NoDup_singleton]. Qed.
Lemma flow_new_ok c : flow_ok c FlowTx_new.
Proof. by split; simpl. Qed.
Lemma drr_clear_ok : drr_ok clear_flow_tx.
Proof.
  assert (E : ∀ c, flow_of c clear_flow_tx = FlowTx_new) by (intros c; unfold flow_of; simpl; by rewrite lookup_empty).
  split; intros; rewrite ?E; simpl; rewrite ?flow_sum_empty; first [done|apply flow_new_ok|by apply NoDup_nil|split; [by intros ?%not_elem_of_nil|done]].
Qed.

(** ** Every operation keeps the queues well formed *)
Lemma flow_total (f : FlowTx → Z) c s :
  (∀ fx, 0 ≤ f fx) → f FlowTx_new = 0 → f (flow_of c s) ≤ flow_sum f (dr_flows s).
Proof. intros Hf H0. by apply flow_sum_ge. Qed.
Lemma flow_bytes_le c s : drr_ok s → fx_bytes (flow_of c s) ≤ dr_bytes s.
Proof.
  intros I. rewrite (do_bytes _ I). assert (E : ∀ c', fx_bytes (flow_of c' s) = queue_bytes (fx_queue (flow_of c' s))) by (intros c'; apply (do_flow _ I)).
  assert (H : flow_sum fx_bytes (dr_flows s) = flow_sum (λ fx, queue_bytes (fx_queue fx)) (dr_flows s)).
  { unfold flow_sum. f_equal. apply map_fmap_ext. intros c' fx Efx. specialize (E c'). unfold flow_of in E. by rewrite Efx in E. }
  rewrite H, E. apply (flow_total (λ fx, queue_bytes (fx_queue fx))); [intros; apply queue_bytes_nonneg|done].
Qed.
Lemma flow_frames_le c s : drr_ok s → flow_frames (flow_of c s) ≤ dr_frames s.
Proof. intros I. rewrite (do_frames _ I). apply (flow_total flow_frames); [unfold flow_frames; lia|done]. Qed.
Lemma sat_sub_le a b : b ≤ a → sat_sub a b = a - b.
Proof. intros H. unfold sat_sub. case_match; lia. Qed.

Lemma drop_flow_ok c s : drr_ok s → drr_ok (drop_flow_tx c s).
Proof.
  intros I. unfold drop_flow_tx. destruct (dr_flows s !! c) as [fx|] eqn:E; [|done].
  assert (Ef : flow_of c s = fx) by (unfold flow_of; by rewrite E).
  pose proof (flow_bytes_le c s I) as Lb. pose proof (flow_frames_le c s I) as Lf. rewrite Ef in Lb, Lf. unfold flow_frames in Lf.
  pose proof (do_ring _ I c) as R. pose proof (do_parked _ I c) as P. rewrite Ef in R, P. unfold in_ring in R.
  eapply (drr_ok_update c FlowTx_new); [exact I|by right|apply flow_new_ok|..]; simpl; rewrite ?Ef.
  - case_match; [apply moves_remove|apply moves_refl].
  - unfold in_ring. simpl. split; [|done]. case_match; [by intros ?%not_in_removed|]. by intros ?%R.
  - case_match; [|apply (do_ring_once _ I)]. apply NoDup_filter, (do_ring_once _ I).
  - case_match; [apply moves_remove|apply moves_refl].
  - split; [|done]. case_match; [by intros ?%not_in_removed|]. by intros ?%P.
  - case_match; [|apply (do_parked_once _ I)]. apply NoDup_filter, (do_parked_once _ I).
  - rewrite sat_sub_le by done. unfold flow_frames. simpl. lia.
  - rewrite sat_sub_le by done. lia.
Qed.
Lemma enqueue_ok c p s : drr_ok s → tx_frame_ok c p → drr_ok (enqueue_flow_tx c p s).2.
Proof.
  intros I Hp. unfold enqueue_flow_tx. pose proof (do_flow _ I c) as F. pose proof (do_ring _ I c) as R. pose proof (do_parked _ I c) as P.
  case_match.
  - eapply (drr_ok_update c (flow_of c s)); [exact I|by left|done|..]; simpl; try done; try apply I; lia.
  - set (fx' := mkFlowTx _ _ _ _ _ _ _). assert (F' : flow_ok c fx').
    { destruct F as [F1 F2 F3 F4 F5 F6 F7 F8]. split; simpl; try done.
      - rewrite queue_bytes_app, F1. simpl. lia.
      - apply Forall_app. by rewrite Forall_singleton.
      - case_match; lia.
      - destruct (fx_active (flow_of c s)); [done|auto].
      - split; [|done]. intros _. destruct (fx_queue (flow_of c s)); done. }
    destruct (fx_active (flow_of c s)) eqn:Ea; eapply (drr_ok_update c fx'); try exact I; try done; simpl; try apply I; try by left.
    all: unfold in_ring in *; simpl; rewrite ?Ea in *; unfold flow_frames; simpl; rewrite ?length_app; simpl; try lia; try done.
    all: try apply moves_refl; try apply moves_snoc.
    + assert (fx_rtx_parked (flow_of c s) = false) as -> by (destruct (fx_rtx_parked (flow_of c s)) eqn:Ep; [|done]; by rewrite (fk_parked _ _ F Ep) in Ea).
      split; [done|]. intros _. set_solver.
    + apply NoDup_snoc_new; [apply (do_ring_once _ I)|]. by intros ?%R.
Qed.

(** A frame in hand goes back to the front of its flow, which is not parked. *)
Lemma requeue_ok p s :
  drr_ok s → tx_frame_ok (peek_connection_id p) p → fx_rtx_parked (flow_of (peek_connection_id p) s) = false → drr_ok (drr_requeue_front p s).
Proof.
  intros I Hp Ep. unfold drr_requeue_front. set (c := peek_connection_id p) in *.
  pose proof (do_flow _ I c) as F. pose proof (do_ring _ I c) as R. pose proof (do_parked _ I c) as P.
  set (fx' := mkFlowTx _ _ _ _ _ _ _). pose proof (frame_bytes_nonneg p) as Hn. assert (F' : flow_ok c fx').
  { destruct F as [F1 F2 F3 F4 F5 F6 F7 F8]. split; simpl; try done; [lia|by constructor|lia]. }
  destruct (fx_active (flow_of c s)) eqn:Ea; eapply (drr_ok_update c fx'); try exact I; try done; simpl; try apply I; try by left.
  all: unfold in_ring in *; simpl; rewrite ?Ea, ?Ep in *; unfold flow_frames; simpl; try lia; try done.
  all: try apply moves_refl; try apply moves_cons.
  - split; [done|]. intros _. left.
  - apply NoDup_cons. split; [by intros ?%R|apply (do_ring_once _ I)].
Qed.
Lemma flow_of_set c fx s c' : flow_of c' (set_flow c fx s) = if decide (c' = c) then fx else flow_of c' s.
Proof. apply flow_of_updates. by left. Qed.
Lemma requeue_flow p s :
  let c := peek_connection_id p in
  flow_of c (drr_requeue_front p s) = mkFlowTx (p :: fx_queue (flow_of c s)) (fx_bytes (flow_of c s) + frame_bytes p)
    (fx_deficit (flow_of c s) + frame_bytes p) false true 0 (fx_rtx_parked (flow_of c s)).
Proof.
  intros c. unfold drr_requeue_front. fold c. destruct (fx_active (flow_of c s)); unfold flow_of at 1; simpl; by rewrite lookup_insert_eq.
Qed.
Lemma park_ok p s :
  drr_ok s → tx_frame_ok (peek_connection_id p) p → fx_rtx_parked (flow_of (peek_connection_id p) s) = false → drr_ok (drr_park_front p s).
Proof.
  intros I Hp Ep. pose proof (requeue_ok p s I Hp Ep) as I1. pose proof (requeue_flow p s) as E1. unfold drr_park_front.
  set (c := peek_connection_id p) in *. set (s1 := drr_requeue_front p s) in *. simpl in E1. rewrite E1, Ep. simpl.
  pose proof (do_flow _ I1 c) as F. pose proof (do_parked _ I1 c) as P. rewrite E1, Ep in F, P. simpl in P.
  eapply (drr_ok_update c); [exact I1|by left|..]; simpl; rewrite ?E1, ?Ep; simpl.
  - destruct F as [F1 F2 F3 F4 F5 F6 F7 F8]. by split.
  - apply moves_remove.
  - unfold in_ring. simpl. split; [by intros ?%not_in_removed|done].
  - apply NoDup_filter, (do_ring_once _ I1).
  - apply moves_snoc.
  - split; [done|]. set_solver.
  - apply NoDup_snoc_new; [apply (do_parked_once _ I1)|]. by intros ?%P.
  - unfold flow_frames. simpl. lia.
  - lia.
Qed.
Lemma unpark_step_ok c l s : drr_ok (set_parked (c :: l) s) → drr_ok (set_parked l (unpark_flow s c)).
Proof.
  intros I. pose proof (do_flow _ I c) as F. pose proof (do_ring _ I c) as R. pose proof (do_parked _ I c) as P.
  pose proof (do_parked_once _ I) as N. simpl in N. apply NoDup_cons in N as [Nc N].
  change (flow_of c (set_parked (c :: l) s)) with (flow_of c s) in *. simpl in R, P.
  assert (Ep : fx_rtx_parked (flow_of c s) = true) by (apply P; left). pose proof (fk_parked _ _ F Ep) as Ea.
  unfold unpark_flow. unfold flow_of in Ep at 1. destruct (dr_flows s !! c) as [fx|] eqn:E; simpl in Ep; [|done].
  assert (Ef : flow_of c s = fx) by (unfold flow_of; by rewrite E). rewrite Ef in *. rewrite Ep. simpl.
  destruct (fx_queue fx) as [|q0 q] eqn:Eq; [by apply (fk_active _ _ F) in Ea|].
  assert (Mv : moves c (c :: l) l) by (intros c' Hc; set_solver).
  eapply (drr_ok_update c _ (set_parked (c :: l) s)); [exact I|by left|..]; simpl;
    change (flow_of c (set_parked (c :: l) s)) with (flow_of c s); rewrite ?Ef.
  - destruct F as [F1 F2 F3 F4 F5 F6 F7 F8]. rewrite Eq in *. by split.
  - apply moves_snoc.
  - unfold in_ring. simpl. rewrite Ea. split; [done|]. set_solver.
  - apply NoDup_snoc_new; [apply (do_ring_once _ I)|]. rewrite R. unfold in_ring. by rewrite Ep, andb_false_r.
  - done.
  - split; [done|by intros].
  - done.
  - unfold flow_frames. simpl. rewrite Eq. simpl. lia.
  - simpl. lia.
Qed.
Lemma unpark_all_ok s : drr_ok s → drr_ok (drr_unpark_all s).2.
Proof.
  intros I. unfold drr_unpark_all. case_bool_decide; [done|]. simpl. assert (I' : drr_ok (set_parked (dr_parked s) s)) by (by destruct s).
  revert I'. generalize (dr_parked s). clear. intros l. revert s. induction l as [|c l IH]; intros s I; simpl; [done|].
  by apply IH, unpark_step_ok.
Qed.

(** What a turn of the ring does to its flow. *)
Definition turn_flow (fx : FlowTx) (deficit : Z) : FlowTx := mkFlowTx (fx_queue fx) (fx_bytes fx) deficit true (fx_active fx) 0 (fx_rtx_parked fx).
Definition visit_deficit (fx : FlowTx) : Z := if fx_quantum_due fx then fx_deficit fx + PPP_MUX_TX_FLOW_QUANTUM_BYTES else fx_deficit fx.
Definition visit_passes (fx : FlowTx) : bool :=
  (PPP_MUX_TX_FLOW_MAX_VISIT_FRAMES <=? fx_visit_count fx) ||
  match fx_queue fx with out :: _ => visit_deficit fx <? tp_length out | [] => true end.
Record popped (s s' : Drr) (p : TxPacket) : Prop := {
  pp_queue : fx_queue (flow_of (peek_connection_id p) s) = p :: fx_queue (flow_of (peek_connection_id p) s');
  pp_parked : fx_rtx_parked (flow_of (peek_connection_id p) s') = false;
  pp_other : ∀ c, c ≠ peek_connection_id p →
    fx_queue (flow_of c s') = fx_queue (flow_of c s) ∧ fx_rtx_parked (flow_of c s') = fx_rtx_parked (flow_of c s);
  pp_list : dr_parked s' = dr_parked s;
}.
(** A flow at the front of the ring gives its first frame. *)
Lemma serve_ok cid ring s out q deficit due active visit ring' :
  drr_ok s → dr_active s = cid :: ring → fx_queue (flow_of cid s) = out :: q →
  0 ≤ deficit → 0 ≤ visit → (due = true → visit = 0) → (active = true ↔ q ≠ []) → (active = false → visit = 0) →
  moves cid (cid :: ring) ring' → (cid ∈ ring' ↔ active = true) → NoDup ring' →
  let s' := set_ring ring' (set_flow cid (mkFlowTx q (fx_bytes (flow_of cid s) - tp_length out) deficit due active visit (fx_rtx_parked (flow_of cid s)))
    (set_totals (dr_frames s - 1) (dr_bytes s - tp_length out) s)) in
  drr_ok s' ∧ popped s s' out ∧ peek_connection_id out = cid.
Proof.
  intros I Er Eq Hd Hv Hdue Ha Hi Mv Hr N s'. pose proof (do_flow _ I cid) as [F1 F2 F3 F4 F5 F6 F7 F8].
  assert (Hin : in_ring (flow_of cid s) = true) by (apply (do_ring _ I); rewrite Er; left).
  apply andb_true_iff in Hin as [Ea Ep]. apply negb_true_iff in Ep. rewrite Eq in F2. apply Forall_cons in F2 as [[Fp Fl] F2].
  unfold sizeof_vmux_hdr in Fl. assert (En : frame_bytes out = tp_length out) by (unfold frame_bytes; case_match; lia).
  pose proof (do_parked _ I cid) as P.
  assert (Es : ∀ c, flow_of c s' = if decide (c = cid) then
    mkFlowTx q (fx_bytes (flow_of cid s) - tp_length out) deficit due active visit (fx_rtx_parked (flow_of cid s)) else flow_of c s).
  { intros c. apply flow_of_updates. by left. }
  split; [|split; [|done]].
  - eapply (drr_ok_update cid); [exact I|by left|..]; simpl; rewrite ?Er, ?Ep in *; try done.
    + split; simpl; try done. rewrite F1, Eq. simpl. lia.
    + unfold in_ring. simpl. by rewrite andb_true_r.
    + apply (do_parked_once _ I).
    + unfold flow_frames. simpl. rewrite Eq. simpl. lia.
    + lia.
  - split; rewrite ?Fp, ?Es, ?decide_True by done; simpl; try done. intros c Hc. by rewrite Es, decide_False.
Qed.
Lemma visit_spec cid ring s :
  drr_ok s → dr_active s = cid :: ring →
  if visit_passes (flow_of cid s) then
    drr_visit cid (set_ring ring s) = (None, set_ring (ring ++ [cid]) (set_flow cid (turn_flow (flow_of cid s) (visit_deficit (flow_of cid s))) s))
  else ∃ p s', drr_visit cid (set_ring ring s) = (Some p, s') ∧ drr_ok s' ∧ popped s s' p ∧ peek_connection_id p = cid.
Proof.
  intros I Er. pose proof (do_flow _ I cid) as F. pose proof (do_ring _ I cid) as R. pose proof (do_parked _ I cid) as P.
  pose proof (do_ring_once _ I) as N. rewrite Er in N. apply NoDup_cons in N as [Nc N].
  assert (Hr : in_ring (flow_of cid s) = true) by (apply R; rewrite Er; left). apply andb_true_iff in Hr as [Ea Ep]. apply negb_true_iff in Ep.
  pose proof (flow_bytes_le cid s I) as Lb. pose proof (flow_frames_le cid s I) as Lf.
  unfold drr_visit. simpl. pose proof Ea as Hq. apply (fk_active _ _ F) in Hq. unfold flow_of in Hq at 1.
  destruct (dr_flows s !! cid) as [fx|] eqn:E; [|done]. simpl in Hq.
  assert (Ef : flow_of cid s = fx) by (unfold flow_of; by rewrite E). rewrite Ef in *.
  unfold visit_passes. fold (visit_deficit fx). destruct (fx_queue fx) as [|out q] eqn:Eq; [done|].
  destruct (PPP_MUX_TX_FLOW_MAX_VISIT_FRAMES <=? fx_visit_count fx) eqn:E1; [simpl; unfold turn_flow; by rewrite Eq|]. simpl.
  destruct F as [F1 F2 F3 F4 F5 F6 F7 F8]. rewrite Eq in *. apply Forall_cons in F2 as [[Fp Fl] F2]. unfold sizeof_vmux_hdr in Fl.
  assert (Ez : (0 <? tp_length out) = true) by lia. rewrite Ez. simpl.
  destruct (visit_deficit fx <? tp_length out) eqn:E2; [unfold turn_flow; by rewrite Eq|].
  assert (En : frame_bytes out = tp_length out) by (unfold frame_bytes; by rewrite Ez). simpl in F1. rewrite En in F1 |- *.
  pose proof (queue_bytes_nonneg q) as Hqn. unfold flow_frames in Lf. rewrite Eq in Lf. simpl in Lf.
  rewrite !sat_sub_le by (simpl in *; lia). assert (Efr : (0 <? dr_frames s) = true) by lia. rewrite Efr.
  exists out. eexists. split; [reflexivity|]. unfold PPP_MUX_TX_FLOW_MAX_VISIT_FRAMES in E1.
  assert (Hmv : ∀ l, l = cid :: ring ∨ l = ring ++ [cid] → moves cid (cid :: ring) l) by (intros l [->| ->] c Hc; set_solver).
  pose proof (serve_ok cid ring s out q) as S. rewrite Ef, Eq in S. destruct q as [|head q'].
  - apply (S 0 true false 0 ring); try done. intros c Hc. set_solver.
  - destruct ((tp_length head <=? 0) || (tp_length head <=? Z.max 0 (visit_deficit fx - tp_length out))).
    + apply (S (Z.max 0 (visit_deficit fx - tp_length out)) false (fx_active fx) (fx_visit_count fx + 1) (cid :: ring)); rewrite ?Ea; try done; try lia.
      * split; [done|by left].
      * by apply NoDup_cons.
    + apply (S (Z.max 0 (visit_deficit fx - tp_length out)) true (fx_active fx) 0 (ring ++ [cid])); rewrite ?Ea; try done; try lia.
      * auto.
      * split; [done|set_solver].
      * by apply NoDup_snoc_new.
Qed.

(** The turns a flow of the ring takes until it gives a frame. *)
Definition quanta (size deficit : Z) : Z := Z.max 1 ((size - deficit + PPP_MUX_TX_FLOW_QUANTUM_BYTES - 1) / PPP_MUX_TX_FLOW_QUANTUM_BYTES).
Definition turns (fx : FlowTx) : Z :=
  match fx_queue fx with
  | [] => 1
  | out :: _ =>
      if fx_quantum_due fx then quanta (tp_length out) (fx_deficit fx)
      else if visit_passes fx then 1 + quanta (tp_length out) (fx_deficit fx) else 1
  end.
Definition ring_turns (s : Drr) : Z := foldr (λ c n, turns (flow_of c s) + n) 0 (dr_active s).
Lemma quanta_range size deficit : size ≤ 65535 → 0 ≤ deficit → 1 ≤ quanta size deficit ≤ 4.
Proof. intros H1 H2. unfold quanta, PPP_MUX_TX_FLOW_QUANTUM_BYTES. Z.to_euclidean_division_equations; lia. Qed.
Lemma turns_range c fx : flow_ok c fx → 1 ≤ turns fx ≤ max_rounds.
Proof.
  intros [_ F Hd _ _ _ _ _]. change max_rounds with 5. unfold turns. destruct (fx_queue fx) as [|out q]; [lia|].
  apply Forall_cons in F as [[_ Hl] _]. pose proof (quanta_range (tp_length out) (fx_deficit fx)). repeat case_match; lia.
Qed.
Lemma turns_pass c fx :
  flow_ok c fx → fx_queue fx ≠ [] → visit_passes fx = true → turns (turn_flow fx (visit_deficit fx)) = turns fx - 1.
Proof.
  intros F Hq Hp. unfold turns, turn_flow, visit_passes, visit_deficit in *. simpl. pose proof (fk_due _ _ F) as Hdue.
  destruct (fx_queue fx) as [|out q]; [done|]. destruct (fx_quantum_due fx); [|rewrite Hp; lia].
  rewrite Hdue in Hp by done. simpl in Hp. unfold quanta, PPP_MUX_TX_FLOW_QUANTUM_BYTES in *. Z.to_euclidean_division_equations; lia.
Qed.
Lemma turn_ok cid ring s :
  drr_ok s → dr_active s = cid :: ring →
  let s' := set_ring (ring ++ [cid]) (set_flow cid (turn_flow (flow_of cid s) (visit_deficit (flow_of cid s))) s) in
  drr_ok s' ∧ (∀ c, fx_queue (flow_of c s') = fx_queue (flow_of c s) ∧ fx_rtx_parked (flow_of c s') = fx_rtx_parked (flow_of c s)).
Proof.
  intros I Er s'. pose proof (do_flow _ I cid) as F. pose proof (do_ring _ I cid) as R. pose proof (do_parked _ I cid) as P.
  pose proof (do_ring_once _ I) as N. rewrite Er in N, R. apply NoDup_cons in N as [Nc N]. split.
  - eapply (drr_ok_update cid); [exact I|by left|..]; simpl; try done; try apply I.
    + destruct F as [F1 F2 F3 F4 F5 F6 F7 F8]. split; simpl; try done. unfold visit_deficit, PPP_MUX_TX_FLOW_QUANTUM_BYTES. case_match; lia.
    + intros c Hc. rewrite Er. set_solver.
    + unfold in_ring in *. simpl. rewrite <- R. set_solver.
    + by apply NoDup_snoc_new.
    + unfold flow_frames. simpl. lia.
    + lia.
  - intros c. unfold s'. change (flow_of c (set_ring ?l ?x)) with (flow_of c x). rewrite flow_of_set. by case_decide; subst.
Qed.
Lemma ring_turns_turn cid ring s :
  drr_ok s → dr_active s = cid :: ring → visit_passes (flow_of cid s) = true →
  ring_turns (set_ring (ring ++ [cid]) (set_flow cid (turn_flow (flow_of cid s) (visit_deficit (flow_of cid s))) s)) = ring_turns s - 1.
Proof.
  intros I Er Hp. pose proof (do_ring_once _ I) as N. rewrite Er in N. apply NoDup_cons in N as [Nc _].
  pose proof (do_flow _ I cid) as F. assert (Hq : fx_queue (flow_of cid s) ≠ []).
  { apply (fk_active _ _ F). assert (Hr : in_ring (flow_of cid s) = true) by (apply (do_ring _ I); rewrite Er; left).
    apply andb_true_iff in Hr as [Ha _]. done. }
  unfold ring_turns. rewrite Er. simpl. rewrite foldr_app. simpl. set (s' := set_ring _ _).
  assert (E : flow_of cid s' = turn_flow (flow_of cid s) (visit_deficit (flow_of cid s))).
  { unfold s'. change (flow_of cid (set_ring ?l ?x)) with (flow_of cid x). by rewrite flow_of_set, decide_True. }
  rewrite E, (turns_pass _ _ F Hq Hp). assert (H : ∀ l n, cid ∉ l →
    foldr (λ c n, turns (flow_of c s') + n) n l = foldr (λ c n, turns (flow_of c s) + n) 0 l + n).
  { intros l n. induction l as [|c l IH]; intros Hl; simpl; [lia|]. rewrite IH by set_solver.
    assert (flow_of c s' = flow_of c s) as ->; [|lia]. unfold s'. change (flow_of c (set_ring ?l ?x)) with (flow_of c x).
    rewrite flow_of_set, decide_False; set_solver. }
  rewrite H by done. lia.
Qed.
Lemma scan_spec b : ∀ s, drr_ok s →
  match drr_scan b s with
  | (Some p, s') => drr_ok s' ∧ popped s s' p
  | (None, s') => drr_ok s' ∧ (∀ c, fx_queue (flow_of c s') = fx_queue (flow_of c s) ∧ fx_rtx_parked (flow_of c s') = fx_rtx_parked (flow_of c s)) ∧
      dr_parked s' = dr_parked s ∧ (dr_active s = [] ∨ Z.of_nat b < ring_turns s)
  end.
Proof.
  induction b as [|b IH]; intros s I; simpl.
  - split_and!; [done|done|done|]. destruct (dr_active s) as [|c l] eqn:Er; [by left|right]. unfold ring_turns. rewrite Er. simpl.
    pose proof (turns_range c _ (do_flow _ I c)). assert (0 ≤ foldr (λ c n, turns (flow_of c s) + n) 0 l); [|lia].
    clear Er. induction l as [|c' l IH]; simpl; [lia|]. pose proof (turns_range c' _ (do_flow _ I c')). lia.
  - destruct (dr_active s) as [|cid ring] eqn:Er; [split_and!; [done|done|done|by left]|].
    pose proof (visit_spec cid ring s I Er) as V. destruct (visit_passes (flow_of cid s)) eqn:Ep.
    + rewrite V. destruct (turn_ok cid ring s I Er) as [I1 Q1]. specialize (IH _ I1). pose proof (ring_turns_turn cid ring s I Er Ep) as T.
      set (s1 := set_ring _ _) in *. destruct (drr_scan b s1) as [[p|] s'].
      * destruct IH as [I' [P1 P2 P3 P4]]. split; [done|]. split; [by rewrite <- (proj1 (Q1 _))|done| |by rewrite P4].
        intros c Hc. destruct (P3 c Hc) as [-> ->]. apply Q1.
      * destruct IH as (I' & Q & El & H). split_and!; [done| |by rewrite El|].
        -- intros c. destruct (Q c) as [-> ->]. apply Q1.
        -- right. destruct H as [H|H]; [simpl in H; by destruct ring|]. lia.
    + destruct V as (p & s' & -> & I' & Pp & _). done.
Qed.

(** The scan always finds a frame when there is a flow on the ring. *)
Lemma ring_turns_bound s : drr_ok s → ring_turns s ≤ Z.of_nat (length (dr_active s)) * max_rounds.
Proof.
  intros I. unfold ring_turns. induction (dr_active s) as [|c l IH]; simpl; [lia|]. pose proof (turns_range c _ (do_flow _ I c)). lia.
Qed.
Lemma pop_spec s : drr_ok s →
  match drr_pop_next s with
  | (Some p, s') => drr_ok s' ∧ popped s s' p
  | (None, s') => s' = s ∧ dr_active s = []
  end.
Proof.
  intros I. unfold drr_pop_next. destruct (dr_active s) as [|cid ring] eqn:Er; [done|]. rewrite <- Er.
  pose proof (scan_spec (length (dr_active s) * Z.to_nat max_rounds) s I) as S. destruct (drr_scan _ s) as [[p|] s']; [done|].
  destruct S as (_ & _ & _ & [H|H]); [by rewrite Er in H|]. pose proof (ring_turns_bound s I). change max_rounds with 5 in *. lia.
Qed.

(** ** Runs *)
Inductive DrrOp :=
  | DrrEnqueue (p : TxPacket)
  | DrrSend
  | DrrRequeue
  | DrrPark
  | DrrUnpark
  | DrrFail (cid : Z)
  | DrrClear.
(** The queues, and the frames accepted and given out since their flow was last dropped. *)
Record DrrMachine := mkDrrMachine { dm_drr : Drr; dm_accepted : list TxPacket; dm_sent : list TxPacket }.
Definition DrrMachine_new : DrrMachine := mkDrrMachine clear_flow_tx [] [].
Definition drr_step (s : DrrMachine) (op : DrrOp) : DrrMachine :=
  let pop f := match drr_pop_next (dm_drr s) with
    | (Some p, q) => f p q
    | (None, q) => mkDrrMachine q (dm_accepted s) (dm_sent s)
    end in
  let other c l := filter (λ p, peek_connection_id p ≠ c) l in
  match op with
  | DrrEnqueue p =>
      let '(ok, q) := enqueue_flow_tx (peek_connection_id p) p (dm_drr s) in
      mkDrrMachine q (if ok then dm_accepted s ++ [p] else dm_accepted s) (dm_sent s)
  | DrrSend => pop (λ p q, mkDrrMachine q (dm_accepted s) (dm_sent s ++ [p]))
  | DrrRequeue => pop (λ p q, mkDrrMachine (drr_requeue_front p q) (dm_accepted s) (dm_sent s))
  | DrrPark => pop (λ p q, mkDrrMachine (drr_park_front p q) (dm_accepted s) (dm_sent s))
  | DrrUnpark => mkDrrMachine (drr_unpark_all (dm_drr s)).2 (dm_accepted s) (dm_sent s)
  | DrrFail c => mkDrrMachine (drop_flow_tx c (dm_drr s)) (other c (dm_accepted s)) (other c (dm_sent s))
  | DrrClear => DrrMachine_new
  end.
Definition drr_op_ok (op : DrrOp) : Prop :=
  match op with DrrEnqueue p => sizeof_vmux_hdr ≤ tp_length p ≤ 65535 | _ => True end.
Definition queue_of (c : Z) (s : Drr) : list TxPacket := fx_queue (flow_of c s).
Definition of_flow (c : Z) (l : list TxPacket) : list TxPacket := filter (λ p, peek_connection_id p = c) l.

Lemma of_flow_app c l k : of_flow c (l ++ k) = of_flow c l ++ of_flow c k.
Proof. apply filter_app. Qed.
Lemma of_flow_one c p : of_flow c [p] = if decide (peek_connection_id p = c) then [p] else [].
Proof. unfold of_flow. rewrite filter_cons. by case_decide. Qed.
Lemma enqueue_queue c p s c' :
  queue_of c' (enqueue_flow_tx c p s).2 =
    queue_of c' s ++ (if decide (c' = c) then if (enqueue_flow_tx c p s).1 then [p] else [] else []).
Proof.
  unfold enqueue_flow_tx, queue_of. case_match; simpl.
  - rewrite flow_of_set. case_decide; subst; by rewrite app_nil_r.
  - set (fx' := mkFlowTx _ _ _ _ _ _ _).
    assert (E : ∀ l, flow_of c' (set_ring l (set_totals (dr_frames s + 1) (dr_bytes s + frame_bytes p) (set_flow c fx' s))) =
      if decide (c' = c) then fx' else flow_of c' s) by (intros; apply flow_of_set).
    destruct (fx_active (flow_of c s)); [pose proof (E (dr_active s)) as E1|pose proof (E (dr_active s ++ [c])) as E1];
      (etransitivity; [apply (f_equal fx_queue), E1|]); case_decide; subst; by rewrite ?app_nil_r.
Qed.
Lemma requeue_queue p s c' :
  queue_of c' (drr_requeue_front p s) = (if decide (c' = peek_connection_id p) then [p] else []) ++ queue_of c' s.
Proof.
  unfold queue_of. case_decide as E; [subst; by rewrite requeue_flow|]. simpl. unfold drr_requeue_front.
  destruct (fx_active _); unfold flow_of; simpl; by rewrite lookup_insert_ne.
Qed.
Lemma park_queue p s c' :
  queue_of c' (drr_park_front p s) = (if decide (c' = peek_connection_id p) then [p] else []) ++ queue_of c' s.
Proof.
  rewrite <- requeue_queue. unfold drr_park_front, queue_of. set (c := peek_connection_id p).
  set (s1 := drr_requeue_front p s). set (fx := flow_of c s1).
  assert (E : fx_queue (flow_of c' (set_flow c (mkFlowTx (fx_queue fx) (fx_bytes fx) (fx_deficit fx) (fx_quantum_due fx) true (fx_visit_count fx) true)
    (set_ring (remove_cid c (dr_active s1)) s1))) = fx_queue (flow_of c' s1)).
  { rewrite flow_of_set. case_decide; by subst. }
  by destruct (fx_rtx_parked fx).
Qed.
Lemma unpark_flow_queue s c c' : queue_of c' (unpark_flow s c) = queue_of c' s.
Proof.
  unfold unpark_flow, queue_of. destruct (dr_flows s !! c) as [fx|] eqn:E; [|done]. case_match; [done|].
  assert (Ef : flow_of c s = fx) by (unfold flow_of; by rewrite E).
  case_match eqn:Eq; [rewrite flow_of_set; case_decide; by subst|].
  change (flow_of c' (set_ring ?l ?x)) with (flow_of c' x). rewrite flow_of_set. case_decide; [subst; simpl; congruence|done].
Qed.
Lemma unpark_queue s c : queue_of c (drr_unpark_all s).2 = queue_of c s.
Proof.
  unfold drr_unpark_all. case_bool_decide as H; [done|]. clear H. simpl. change (queue_of c (set_parked [] ?x)) with (queue_of c x).
  generalize (dr_parked s). intros l. revert s. induction l as [|c' l IH]; intros s; simpl; [done|]. by rewrite IH, unpark_flow_queue.
Qed.
Lemma drop_queue c s c' : queue_of c' (drop_flow_tx c s) = if decide (c' = c) then [] else queue_of c' s.
Proof.
  unfold drop_flow_tx, queue_of. destruct (dr_flows s !! c) as [fx|] eqn:E.
  - unfold flow_of. simpl. case_decide; subst; [by rewrite lookup_delete_eq|by rewrite lookup_delete_ne].
  - case_decide; subst; [|done]. unfold flow_of. by rewrite E.
Qed.
Lemma popped_queue s s' p c : popped s s' p → queue_of c s = (if decide (c = peek_connection_id p) then [p] else []) ++ queue_of c s'.
Proof.
  intros [P1 P2 P3 P4]. unfold queue_of. case_decide as E; [subst; by rewrite P1|]. by destruct (P3 c E) as [-> _].
Qed.

Record machine_inv (s : DrrMachine) : Prop := {
  mi_drr : drr_ok (dm_drr s);
  mi_order : ∀ c, of_flow c (dm_accepted s) = of_flow c (dm_sent s) ++ queue_of c (dm_drr s);
}.
Lemma of_flow_other c c' l :
  of_flow c' (filter (λ p, peek_connection_id p ≠ c) l) = if decide (c' = c) then [] else of_flow c' l.
Proof.
  unfold of_flow. rewrite list_filter_filter. case_decide as E.
  - subst. apply list_filter_none. intros p. naive_solver.
  - apply list_filter_agree. intros p _. naive_solver.
Qed.
Lemma drr_step_inv s op : machine_inv s → drr_op_ok op → machine_inv (drr_step s op).
Proof.
  intros [I O] V. assert (Hin : ∀ p q, drr_pop_next (dm_drr s) = (Some p, q) → drr_ok q ∧ popped (dm_drr s) q p ∧ tx_frame_ok (peek_connection_id p) p).
  { intros p q E. pose proof (pop_spec _ I) as S. rewrite E in S. destruct S as [Iq P]. split; [done|]. split; [done|].
    pose proof (fk_frames _ _ (do_flow _ I (peek_connection_id p))) as F. rewrite (pp_queue _ _ _ P) in F. by apply Forall_cons in F as [F _]. }
  assert (Hpop : ∀ f, (∀ p q, drr_pop_next (dm_drr s) = (Some p, q) → machine_inv (f p q)) →
    machine_inv match drr_pop_next (dm_drr s) with (Some p, q) => f p q | (None, q) => mkDrrMachine q (dm_accepted s) (dm_sent s) end).
  { intros f Hf. pose proof (pop_spec _ I) as S. destruct (drr_pop_next (dm_drr s)) as [[p|] q]; [by apply Hf|]. destruct S as [-> _]. by split. }
  destruct op as [p| | | | |c|]; simpl.
  - pose proof (enqueue_ok (peek_connection_id p) p _ I (conj eq_refl V)) as I'. pose proof (enqueue_queue (peek_connection_id p) p (dm_drr s)) as Q.
    destruct (enqueue_flow_tx _ _ _) as [ok q]. simpl in I', Q. split; [done|]. intros c. simpl. rewrite Q, (assoc_L (++)), <- O.
    destruct ok; [|by case_decide; rewrite app_nil_r]. rewrite of_flow_app, of_flow_one. f_equal. repeat case_decide; congruence.
  - apply Hpop. intros p q E. destruct (Hin _ _ E) as (Iq & P & _). split; [done|]. intros c. simpl.
    rewrite O, (popped_queue _ _ _ c P), of_flow_app, of_flow_one.
    rewrite <- (assoc_L (++)). f_equal. f_equal. repeat case_decide; congruence.
  - apply Hpop. intros p q E. destruct (Hin _ _ E) as (Iq & P & F). split; simpl; [apply requeue_ok; [done..|apply P]|].
    intros c. by rewrite O, requeue_queue, <- (popped_queue _ _ _ c P).
  - apply Hpop. intros p q E. destruct (Hin _ _ E) as (Iq & P & F). split; simpl; [apply park_ok; [done..|apply P]|].
    intros c. by rewrite O, park_queue, <- (popped_queue _ _ _ c P).
  - split; simpl; [by apply unpark_all_ok|]. intros c. by rewrite unpark_queue.
  - split; simpl; [by apply drop_flow_ok|]. intros c'. rewrite !of_flow_other, drop_queue. by case_decide.
  - split; simpl; [apply drr_clear_ok|]. intros c. unfold queue_of, flow_of. simpl. by rewrite lookup_empty.
Qed.
Definition drr_run (ops : list DrrOp) : DrrMachine := fold_left drr_step ops DrrMachine_new.
Lemma drr_run_inv ops : Forall drr_op_ok ops → machine_inv (drr_run ops).
Proof.
  unfold drr_run. assert (I0 : machine_inv DrrMachine_new).
  { split; [apply drr_clear_ok|]. intros c. unfold queue_of, flow_of. simpl. by rewrite lookup_empty. }
  revert I0. generalize DrrMachine_new. induction ops as [|op ops IH]; intros s I V; simpl; [done|]. apply Forall_cons in V as [V1 V].
  apply IH; [by apply drr_step_inv|done].
Qed.

(** C6: the transmit queues, over any sequence of operations on frames of legal size.  The frames accepted for a connection come out
    in the order they came in, whatever was put back or parked meanwhile; the counters are the sums of the queues; a connection that
    has frames is on the ring or parked, on one of the two and once, and one without frames is on neither; and as long as the ring is
    not empty, the scan finds a frame within its budget of turns, whatever the deficits and visit counts are. *)
Theorem drr_serves ops :
  Forall drr_op_ok ops →
  let s := drr_run ops in
  let q := dm_drr s in
  (∀ c, of_flow c (dm_accepted s) = of_flow c (dm_sent s) ++ queue_of c q) ∧
  (dr_frames q = flow_sum flow_frames (dr_flows q) ∧ dr_bytes q = flow_sum (λ fx, queue_bytes (fx_queue fx)) (dr_flows q)) ∧
  (NoDup (dr_active q ++ dr_parked q) ∧ ∀ c, queue_of c q ≠ [] ↔ c ∈ dr_active q ++ dr_parked q) ∧
  ((drr_pop_next q).1 = None ↔ dr_active q = []).
Proof.
  intros V s q. destruct (drr_run_inv ops V : machine_inv s) as [I O]. fold q in I, O. split; [done|].
  assert (K : ∀ c, queue_of c q ≠ [] ↔ c ∈ dr_active q ++ dr_parked q).
  { intros c. rewrite elem_of_app, (do_ring _ I), (do_parked _ I). pose proof (do_flow _ I c) as F. unfold queue_of, in_ring.
    rewrite <- (fk_active _ _ F). pose proof (fk_parked _ _ F). destruct (fx_active (flow_of c q)), (fx_rtx_parked (flow_of c q)); naive_solver. }
  split_and!.
  - apply (do_frames _ I).
  - rewrite (do_bytes _ I). unfold flow_sum. f_equal. apply map_fmap_ext. intros c fx E. pose proof (fk_bytes _ _ (do_flow _ I c)) as F.
    unfold flow_of in F. by rewrite E in F.
  - apply NoDup_app. split; [apply (do_ring_once _ I)|]. split; [|apply (do_parked_once _ I)]. intros c Ha Hp.
    apply (do_ring _ I) in Ha. apply (do_parked _ I) in Hp. unfold in_ring in Ha. by rewrite Hp, andb_false_r in Ha.
  - done.
  - split; [|intros Er; unfold drr_pop_next; by rewrite Er]. pose proof (pop_spec q I) as S. destruct (drr_pop_next q) as [[p|] q']; [done|].
    by destruct S.
Qed.
Definition tx_frame (post : nat) (cid len : Z) : TxPacket := mkTxPacket post cid 71 0 len false false.
Definition drr_demo : list DrrOp :=
  [DrrEnqueue (tx_frame 0 1 60000); DrrEnqueue (tx_frame 1 1 100); DrrEnqueue (tx_frame 2 2 900); DrrPark; DrrSend; DrrRequeue; DrrUnpark; DrrSend; DrrSend;
   DrrEnqueue (tx_frame 3 2 65535); DrrEnqueue (tx_frame 4 3 9); DrrFail 3].
Lemma drr_serves_witness :
  tp_post <$> dm_sent (drr_run drr_demo) = [0; 1; 2]%nat ∧ dr_active (dm_drr (drr_run drr_demo)) = [2] ∧
  (drr_pop_next (dm_drr (drr_run drr_demo))).1 = Some (tx_frame 3 2 65535) ∧
  ((drr_pop_next (dm_drr (drr_run drr_demo))).1 = None ↔ dr_active (dm_drr (drr_run drr_demo)) = []).
Proof.
  split; [vm_compute; reflexivity|]. split; [vm_compute; reflexivity|]. split; [vm_compute; reflexivity|].
  apply (drr_serves drr_demo). repeat constructor; simpl; vm_compute; congruence.
Defined.

(** The cap on frames per visit ends a visit with the unused deficit kept and another quantum due: a connection of small frames saves
    up credit for as long as it is backlogged.  After two hundred small frames the first connection sends six frames of 60000 bytes in one
    visit, while the second, backlogged too, gets nothing. *)
Definition small_then_large : list DrrOp :=
  ((λ n, DrrEnqueue (tx_frame n 1 100)) <$> seq 0 200) ++ ((λ n, DrrEnqueue (tx_frame n 1 60000)) <$> seq 200 7) ++
  ((λ n, DrrEnqueue (tx_frame n 2 100)) <$> seq 300 250) ++ repeat DrrSend 406.
Lemma visit_cap_saves_credit :
  let s := drr_run small_then_large in
  (λ p, (tp_cid p, tp_length p)) <$> drop 400 (dm_sent s) = replicate 6 (1, 60000) ∧
  Forall (λ p, tp_length p = 100) (take 400 (dm_sent s)) ∧ length (queue_of 2 (dm_drr s)) = 50%nat.
Proof. vm_compute. repeat split; repeat constructor. Qed.
