(* ===== verification/MuxSend.v ===== *)
(** * The transmit side of the multiplexer session

    How [app/mux/vmux_net.cpp] numbers frames and places them on carriers: [post_internal], the drain loops over the
    transmit queues of [MuxDrr], the choice of a carrier by its bytes in flight, and what a write completion, an
    acknowledgement and the exit of a carrier do.  All of it runs on one strand, so an event is one step.  Carriers are
    numbers into a map; whether the transport takes a write is the next element of [sn_env], [true] when there is none;
    [sn_wire] records what was taken, each frame with a mark when it is sent again.  A frame is known by the number of its
    post, and [sn_retained] holds the frame whose bytes an entry of the retransmit buffer retains.  An acknowledgement is its
    decoded blocks; the time threshold and the probe timeout, which the code computes from its round trip samples, are
    arguments of the events.  Acknowledgements and parity frames that this side emits are posts ([SndFeedback]); what goes into
    a parity frame ([fec_note_sent]) is in [MuxFec].  Completions are outside but for whether a frame carries one; so are the
    release of one connection and the pool that adds and retires carriers. *)
From S2P Require Import Prelude MuxAck MuxFlow MuxRetransmit MuxNegotiation MuxDrr.
Local Open Scope Z_scope.

Definition cmd_none : Z := 68.
Definition cmd_syn : Z := 69.
Definition cmd_syn_ok : Z := 70.
Definition cmd_push : Z := 71.
Definition cmd_fin : Z := 72.
Definition cmd_keep_alived : Z := 73.
Definition cmd_acceleration : Z := 74.
Definition cmd_mux_mode_set : Z := 75.
Definition cmd_ack : Z := 76.
Definition cmd_fec : Z := 77.
Definition is_session_control (cmd : Z) : bool := (cmd =? cmd_keep_alived) || (cmd =? cmd_mux_mode_set).
Definition is_connection_control (cmd : Z) : bool := (cmd =? cmd_syn) || (cmd =? cmd_syn_ok) || (cmd =? cmd_acceleration).
Definition is_reliability_control (cmd : Z) : bool := (cmd =? cmd_ack) || (cmd =? cmd_fec).
Definition is_per_flow_data (cmd : Z) : bool := (cmd =? cmd_push) || (cmd =? cmd_fin).
Definition PPP_MUX_LINK_BYTE_HIGH_WATER : Z := 262144.
Definition PPP_MUX_TX_CTRL_BUDGET_FRAMES : Z := 32.
Definition PPP_MUX_TX_CTRL_MAX_FRAMES : Z := 256.
Definition PPP_MUX_RTX_HARD_FACTOR : Z := 2.
Definition PPP_MUX_RELIABILITY_RXT_BURST : nat := 32.
Definition PPP_MUX_RELIABILITY_PTO_MAX : Z := 3000.
Definition PPP_MUX_FAST_RETX_THRESHOLD : Z := 3.

Record CarrierLink := mkCarrierLink {
  ca_id : Z;
  ca_queued_bytes : Z;
  ca_retiring : bool;
  ca_handshake_complete : bool;
  ca_in_tx_links : bool;
  ca_exited : bool;
  ca_srtt_ms : Z;
  ca_has_rtt_sample : bool;
  ca_last_active : Z;
  ca_linked : bool;
}.
Definition schedulable (ca : CarrierLink) : bool := ca_handshake_complete ca && negb (ca_retiring ca).
Record TxConfig := mkTxConfig {
  cf_mode : mux_mode;
  cf_flow_v2 : bool;
  cf_reliability : bool;
  cf_turbo : bool;
  cf_acceleration : bool;
  cf_rtx_cap_bytes : Z;
  cf_rtx_flow_window_bytes : Z;
  cf_queue_high_water : Z;
  cf_ctrl_budget : Z;
  cf_pool_hard_max : Z;
  cf_rtx_fast : bool;
  cf_rtx_pto : bool;
  cf_rtx_max_attempts : Z;
}.
Record Sender := mkSender {
  sn_carriers : gmap nat CarrierLink;
  sn_rx_links : list nat;
  sn_tx_links : list nat;
  sn_drr : Drr;
  sn_ctrl : list TxPacket;
  sn_tx_seq : Z;
  sn_flow_seq : gmap Z Z;
  sn_rtx : MuxRetransmitBuffer;
  sn_stripe_cursor : nat;
  sn_now : Z;
  sn_closed : bool;
  sn_env : list bool;
  sn_wire : list (nat * TxPacket * bool);
  sn_pending : list Z;
  sn_retained : gmap Z TxPacket;
}.
Definition Sender_new (tx_seq : Z) : Sender :=
  mkSender ∅ [] [] clear_flow_tx [] tx_seq ∅ Rtx_Clear 0 0 false [] [] [] ∅.

Definition set_carriers (m : gmap nat CarrierLink) (s : Sender) : Sender :=
  mkSender m (sn_rx_links s) (sn_tx_links s) (sn_drr s) (sn_ctrl s) (sn_tx_seq s) (sn_flow_seq s) (sn_rtx s) (sn_stripe_cursor s)
    (sn_now s) (sn_closed s) (sn_env s) (sn_wire s) (sn_pending s) (sn_retained s).
Definition set_links (rx tx : list nat) (s : Sender) : Sender :=
  mkSender (sn_carriers s) rx tx (sn_drr s) (sn_ctrl s) (sn_tx_seq s) (sn_flow_seq s) (sn_rtx s) (sn_stripe_cursor s)
    (sn_now s) (sn_closed s) (sn_env s) (sn_wire s) (sn_pending s) (sn_retained s).
Definition set_drr (q : Drr) (s : Sender) : Sender :=
  mkSender (sn_carriers s) (sn_rx_links s) (sn_tx_links s) q (sn_ctrl s) (sn_tx_seq s) (sn_flow_seq s) (sn_rtx s) (sn_stripe_cursor s)
    (sn_now s) (sn_closed s) (sn_env s) (sn_wire s) (sn_pending s) (sn_retained s).
Definition set_ctrl (l : list TxPacket) (s : Sender) : Sender :=
  mkSender (sn_carriers s) (sn_rx_links s) (sn_tx_links s) (sn_drr s) l (sn_tx_seq s) (sn_flow_seq s) (sn_rtx s) (sn_stripe_cursor s)
    (sn_now s) (sn_closed s) (sn_env s) (sn_wire s) (sn_pending s) (sn_retained s).
Definition set_numbers (tx_seq : Z) (flow_seq : gmap Z Z) (s : Sender) : Sender :=
  mkSender (sn_carriers s) (sn_rx_links s) (sn_tx_links s) (sn_drr s) (sn_ctrl s) tx_seq flow_seq (sn_rtx s) (sn_stripe_cursor s)
    (sn_now s) (sn_closed s) (sn_env s) (sn_wire s) (sn_pending s) (sn_retained s).
Definition set_rtx (rtx : MuxRetransmitBuffer) (s : Sender) : Sender :=
  mkSender (sn_carriers s) (sn_rx_links s) (sn_tx_links s) (sn_drr s) (sn_ctrl s) (sn_tx_seq s) (sn_flow_seq s) rtx (sn_stripe_cursor s)
    (sn_now s) (sn_closed s) (sn_env s) (sn_wire s) (sn_pending s) (sn_retained s).
Definition set_cursor (n : nat) (s : Sender) : Sender :=
  mkSender (sn_carriers s) (sn_rx_links s) (sn_tx_links s) (sn_drr s) (sn_ctrl s) (sn_tx_seq s) (sn_flow_seq s) (sn_rtx s) n
    (sn_now s) (sn_closed s) (sn_env s) (sn_wire s) (sn_pending s) (sn_retained s).
Definition set_now (now : Z) (s : Sender) : Sender :=
  mkSender (sn_carriers s) (sn_rx_links s) (sn_tx_links s) (sn_drr s) (sn_ctrl s) (sn_tx_seq s) (sn_flow_seq s) (sn_rtx s) (sn_stripe_cursor s)
    now (sn_closed s) (sn_env s) (sn_wire s) (sn_pending s) (sn_retained s).
Definition set_io (closed : bool) (env : list bool) (wire : list (nat * TxPacket * bool)) (s : Sender) : Sender :=
  mkSender (sn_carriers s) (sn_rx_links s) (sn_tx_links s) (sn_drr s) (sn_ctrl s) (sn_tx_seq s) (sn_flow_seq s) (sn_rtx s) (sn_stripe_cursor s)
    (sn_now s) closed env wire (sn_pending s) (sn_retained s).
Definition set_rtx_pending (keys : list Z) (s : Sender) : Sender :=
  mkSender (sn_carriers s) (sn_rx_links s) (sn_tx_links s) (sn_drr s) (sn_ctrl s) (sn_tx_seq s) (sn_flow_seq s) (sn_rtx s) (sn_stripe_cursor s)
    (sn_now s) (sn_closed s) (sn_env s) (sn_wire s) keys (sn_retained s).
Definition set_retained (m : gmap Z TxPacket) (s : Sender) : Sender :=
  mkSender (sn_carriers s) (sn_rx_links s) (sn_tx_links s) (sn_drr s) (sn_ctrl s) (sn_tx_seq s) (sn_flow_seq s) (sn_rtx s) (sn_stripe_cursor s)
    (sn_now s) (sn_closed s) (sn_env s) (sn_wire s) (sn_pending s) m.
(** [close_exec] on the strand, where [finalize] runs at once. *)
Definition sender_close (s : Sender) : Sender :=
  mkSender (sn_carriers s) [] [] clear_flow_tx [] (sn_tx_seq s) ∅ Rtx_Clear 0 (sn_now s) true (sn_env s) (sn_wire s) [] ∅.

(** ** Carriers *)
Definition upd_carrier (k : nat) (f : CarrierLink → CarrierLink) (s : Sender) : Sender := set_carriers (alter f k (sn_carriers s)) s.
Definition ca_set_queued (n : Z) (ca : CarrierLink) : CarrierLink :=
  mkCarrierLink (ca_id ca) n (ca_retiring ca) (ca_handshake_complete ca) (ca_in_tx_links ca) (ca_exited ca) (ca_srtt_ms ca)
    (ca_has_rtt_sample ca) (ca_last_active ca) (ca_linked ca).
Definition ca_set_listed (b : bool) (ca : CarrierLink) : CarrierLink :=
  mkCarrierLink (ca_id ca) (ca_queued_bytes ca) (ca_retiring ca) (ca_handshake_complete ca) b (ca_exited ca) (ca_srtt_ms ca)
    (ca_has_rtt_sample ca) (ca_last_active ca) (ca_linked ca).
Definition ca_set_retiring (exited : bool) (ca : CarrierLink) : CarrierLink :=
  mkCarrierLink (ca_id ca) (ca_queued_bytes ca) true (ca_handshake_complete ca) (ca_in_tx_links ca) exited (ca_srtt_ms ca)
    (ca_has_rtt_sample ca) (ca_last_active ca) (ca_linked ca).
Definition ca_set_linked (b : bool) (ca : CarrierLink) : CarrierLink :=
  mkCarrierLink (ca_id ca) (ca_queued_bytes ca) (ca_retiring ca) (ca_handshake_complete ca) (ca_in_tx_links ca) (ca_exited ca) (ca_srtt_ms ca)
    (ca_has_rtt_sample ca) (ca_last_active ca) b.
Definition ca_sampled (linked has_rtt : bool) (srtt_ms last_active : Z) (ca : CarrierLink) : CarrierLink :=
  mkCarrierLink (ca_id ca) (ca_queued_bytes ca) (ca_retiring ca) (ca_handshake_complete ca) (ca_in_tx_links ca) (ca_exited ca) srtt_ms
    has_rtt last_active linked.
Definition remove_link (k : nat) (l : list nat) : list nat := filter (λ i, i ≠ k) l.

Definition link_has_byte_credit (ca : CarrierLink) (packet_length : Z) : bool :=
  if packet_length <? 0 then false
  else if PPP_MUX_LINK_BYTE_HIGH_WATER <? packet_length then ca_queued_bytes ca =? 0
  else ca_queued_bytes ca + packet_length <=? PPP_MUX_LINK_BYTE_HIGH_WATER.
Definition tx_link_offer (k : nat) (s : Sender) : Sender :=
  match sn_carriers s !! k with
  | None => s
  | Some ca =>
      if ca_in_tx_links ca || ca_retiring ca || (PPP_MUX_LINK_BYTE_HIGH_WATER <=? ca_queued_bytes ca) then s
      else upd_carrier k (ca_set_listed true) (set_links (sn_rx_links s) (sn_tx_links s ++ [k]) s)
  end.
Definition tx_link_withdraw (k : nat) (s : Sender) : Sender :=
  match sn_carriers s !! k with
  | None => s
  | Some ca =>
      if negb (ca_in_tx_links ca) then s
      else upd_carrier k (ca_set_listed false) (set_links (sn_rx_links s) (remove_link k (sn_tx_links s)) s)
  end.
Definition link_load (length : Z) (ca : CarrierLink) : MuxLinkLoad :=
  mkLinkLoad (ca_queued_bytes ca) (ca_srtt_ms ca) (ca_has_rtt_sample ca) (negb (ca_retiring ca) && link_has_byte_credit ca length).
Definition tx_link_pick (length : Z) (s : Sender) : option nat * Sender :=
  let links := filter (λ k, is_Some (sn_carriers s !! k)) (sn_tx_links s) in
  let index := MuxPickLeastLoaded (link_load length <$> omap (λ k, sn_carriers s !! k) links) in
  if index <? 0 then (None, s) else
  match links !! Z.to_nat index with
  | None => (None, s)
  | Some chosen => (Some chosen, set_links (sn_rx_links s) (remove_link chosen (sn_tx_links s) ++ [chosen]) s)
  end.
Definition is_linklayer_active (ca : CarrierLink) : bool := schedulable ca && ca_linked ca.
Fixpoint select_striped (count n : nat) (s : Sender) : option nat * Sender :=
  match n with
  | O => (None, s)
  | S n =>
      let k := sn_rx_links s !! (sn_stripe_cursor s mod count)%nat in
      let s := set_cursor (S (sn_stripe_cursor s)) s in
      match ca ← k ≫= (sn_carriers s !!.); if is_linklayer_active ca then k else None with
      | Some k => (Some k, s)
      | None => select_striped count n s
      end
  end.
Definition select_striped_linklayer (s : Sender) : option nat * Sender :=
  select_striped (length (sn_rx_links s)) (length (sn_rx_links s)) s.
(** The best carrier for the first frame of a connection. *)
Definition turbo_better (ca best : CarrierLink) : bool :=
  (ca_queued_bytes ca <? ca_queued_bytes best) ||
  ((ca_queued_bytes ca =? ca_queued_bytes best) && (ca_last_active best <=? ca_last_active ca)).
Definition select_turbo_linklayer (s : Sender) : option nat :=
  fst <$> fold_left (λ best k,
    match sn_carriers s !! k with
    | None => best
    | Some ca =>
        if negb (is_linklayer_active ca) || negb (link_has_byte_credit ca sizeof_vmux_hdr) then best else
        match best with
        | None => Some (k, ca)
        | Some (_, b) => if turbo_better ca b then Some (k, ca) else best
        end
    end) (sn_rx_links s) None.

Section Send.
Context (cf : TxConfig) (content : nat → list Z) (iter : gmap Z MuxRtxEntry → list (Z * MuxRtxEntry)).

(** ** The retransmit window *)
Definition key_cid (p : TxPacket) : Z := if cf_flow_v2 cf then tp_cid p else 0.
Definition rtx_charge_bytes (p : TxPacket) (s : Sender) : Z :=
  if negb (cf_reliability cf) || (tp_length p <? sizeof_vmux_hdr) || is_reliability_control (tp_cmd p) then 0 else
  if cf_flow_v2 cf && negb (is_per_flow_data (tp_cmd p)) then 0 else
  match rb_entries (sn_rtx s) !! Rtx_Key (key_cid p) (tp_seq p) with Some _ => 0 | None => tp_length p end.
(** Whether [tx_rtx_window_hold] parks the flow of the frame. *)
Definition window_holds (p : TxPacket) (s : Sender) : bool :=
  let charge := if tp_assign_seq p then (if cf_reliability cf then tp_length p else 0) else rtx_charge_bytes p s in
  if charge =? 0 then false else
  let cid := peek_connection_id p in
  match AdmitTxFrame (rb_bytes (sn_rtx s)) (if cf_flow_v2 cf then Rtx_CidBytes (sn_rtx s) cid else 0) charge (cf_rtx_cap_bytes cf)
      (if cf_flow_v2 cf then cf_rtx_flow_window_bytes cf else 0) with TxSend => false | _ => true end.
(** What the failure of a flow does on this side. *)
Definition fail_flow_tx (cid : Z) (s : Sender) : Sender :=
  let s := set_numbers (sn_tx_seq s) (delete cid (sn_flow_seq s)) s in
  let s := if cf_flow_v2 cf then set_rtx (Rtx_EraseCid iter (sn_rtx s) cid) s else s in
  set_drr (drop_flow_tx cid (sn_drr s)) s.
Definition track_sent_frame (p : TxPacket) (link_id : Z) (s : Sender) : Sender :=
  if rtx_charge_bytes p s =? 0 then s else
  if cf_flow_v2 cf && MuxTxOverHardCap (Rtx_CidBytes (sn_rtx s) (tp_cid p)) (tp_length p) (cf_rtx_flow_window_bytes cf) PPP_MUX_RTX_HARD_FACTOR
  then fail_flow_tx (tp_cid p) s
  else
    let '(ok, rtx) := Rtx_Track (sn_rtx s) (key_cid p) (tp_seq p) (content (tp_post p)) (tp_length p) (sn_now s)
      (MuxTxHardCap (cf_rtx_cap_bytes cf) PPP_MUX_RTX_HARD_FACTOR) link_id in
    if ok then set_retained (<[Rtx_Key (key_cid p) (tp_seq p) := p]> (sn_retained s)) (set_rtx rtx s) else if cf_flow_v2 cf then fail_flow_tx (tp_cid p) s else sender_close s.

(** ** Handing a frame to a carrier *)
Definition tx_assign_seq (p : TxPacket) (s : Sender) : TxPacket * Sender :=
  if negb (tp_assign_seq p) || (tp_length p <? sizeof_vmux_hdr) then (p, s) else
  (mkTxPacket (tp_post p) (tp_cid p) (tp_cmd p) (sn_tx_seq s) (tp_length p) false (tp_completion p),
   set_numbers (sn_tx_seq s +[32] 1) (sn_flow_seq s) s).
Definition next_answer (s : Sender) : bool * Sender :=
  match sn_env s with
  | [] => (true, s)
  | b :: env => (b, set_io (sn_closed s) env (sn_wire s) s)
  end.
(** [again] marks the frame in the log as one sent before; nothing else depends on it. *)
Definition underlyin_sent (again : bool) (k : nat) (p : TxPacket) (s : Sender) : bool * Sender :=
  match sn_carriers s !! k with
  | None => (false, s)
  | Some ca =>
      if (tp_length p <? sizeof_vmux_hdr) || sn_closed s || negb (ca_linked ca) || negb (link_has_byte_credit ca (tp_length p)) ||
         ca_retiring ca then (false, s) else
      let '(ok, s) := next_answer s in
      if negb ok then (false, s) else
      let s := upd_carrier k (ca_set_queued (ca_queued_bytes ca + tp_length p)) s in
      (true, track_sent_frame p (ca_id ca) (set_io (sn_closed s) (sn_env s) (sn_wire s ++ [(k, p, again)]) s))
  end.
(** A carrier whose budget is used up takes no more frames until a write completes. *)
Definition withdraw_full (k : nat) (s : Sender) : Sender :=
  match sn_carriers s !! k with
  | Some ca => if PPP_MUX_LINK_BYTE_HIGH_WATER <=? ca_queued_bytes ca then tx_link_withdraw k s else s
  | None => s
  end.
(** The frame as it is after the call, too: its number stays. *)
Definition tx_send_on (k : nat) (p : TxPacket) (s : Sender) : bool * TxPacket * Sender :=
  let '(p, s) := tx_assign_seq p s in
  let '(ok, s) := underlyin_sent false k p s in
  if negb ok then (false, p, tx_link_withdraw k s) else
  (true, p,
   withdraw_full k s).

(** ** Drain loops; [None] when the fuel is out *)
Definition pick_carrier (stripe : bool) (length : Z) (s : Sender) : option nat * Sender :=
  if negb stripe then tx_link_pick length s else
  let '(striped, s) := select_striped_linklayer s in
  match ca ← striped ≫= (sn_carriers s !!.); if ca_in_tx_links ca && link_has_byte_credit ca length then striped else None with
  | Some k => (Some k, s)
  | None => tx_link_pick length s
  end.
Fixpoint drain_data (stripe : bool) (fuel : nat) (s : Sender) : option Sender :=
  match fuel with
  | O => None
  | S fuel =>
      if bool_decide (sn_tx_links s = []) || negb (0 <? dr_frames (sn_drr s)) then Some s else
      match drr_pop_next (sn_drr s) with
      | (None, q) => Some (set_drr q s)
      | (Some p, q) =>
          let s := set_drr q s in
          if window_holds p s then drain_data stripe fuel (set_drr (drr_park_front p (sn_drr s)) s) else
          match pick_carrier stripe (tp_length p) s with
          | (None, s) => Some (set_drr (drr_requeue_front p (sn_drr s)) s)
          | (Some k, s) =>
              match tx_send_on k p s with
              | (true, _, s) => drain_data stripe fuel s
              | (false, p, s) => drain_data stripe fuel (set_drr (drr_requeue_front p (sn_drr s)) s)
              end
          end
      end
  end.
Fixpoint drain_ctrl (budget : nat) (fuel : nat) (s : Sender) : option Sender :=
  match fuel with
  | O => None
  | S fuel =>
      match budget, sn_ctrl s with
      | O, _ | _, [] => Some s
      | S n, p :: rest =>
          match tx_link_pick (tp_length p) s with
          | (None, s) => Some s
          | (Some k, s) =>
              match tx_send_on k p (set_ctrl rest s) with
              | (true, _, s) => drain_ctrl n fuel s
              | (false, p, s) => drain_ctrl budget fuel (set_ctrl (p :: sn_ctrl s) s)
              end
          end
      end
  end.
Definition ctrl_fuel (s : Sender) : nat := S (length (sn_ctrl s) + length (sn_tx_links s)).
Definition data_fuel (s : Sender) : nat := S (Z.to_nat (dr_frames (sn_drr s)) + length (dr_active (sn_drr s)) + length (sn_tx_links s)).
Definition is_stripe : bool := match cf_mode cf with mux_mode_stripe => true | _ => false end.
Definition ctrl_budget : nat :=
  Z.to_nat (if 0 <? cf_ctrl_budget cf then cf_ctrl_budget cf else PPP_MUX_TX_CTRL_BUDGET_FRAMES).
Definition process_tx_all (s : Sender) : option Sender :=
  s ← drain_ctrl ctrl_budget (ctrl_fuel s) s; drain_data is_stripe (data_fuel s) s.
Definition process_tx_all_packets (s : Sender) : Sender := default s (process_tx_all s).

(** ** Posting a frame *)
Definition set_completion (b : bool) (p : TxPacket) : TxPacket :=
  mkTxPacket (tp_post p) (tp_cid p) (tp_cmd p) (tp_seq p) (tp_length p) (tp_assign_seq p) b.
(** The number a frame gets when it is posted, and whether it goes to the priority queue. *)
Definition stamp (post : nat) (cid cmd len : Z) (completion : bool) (s : Sender) : TxPacket * bool * Sender :=
  let frame seq assign := mkTxPacket post cid cmd seq len assign completion in
  if is_reliability_control cmd then (frame 0 false, true, s)
  else if cf_flow_v2 cf then
    if is_per_flow_data cmd then
      let dsn := default 0 (sn_flow_seq s !! cid) in
      let dsn := if dsn =? 0 then 1 else dsn in
      (frame dsn false, false, set_numbers (sn_tx_seq s) (<[cid := dsn +[32] 1]> (sn_flow_seq s)) s)
    else (frame 0 false, is_session_control cmd || is_connection_control cmd, s)
  else (frame 0 true, false, s).
Definition droppable (p : TxPacket) : bool := (tp_cmd p =? cmd_ack) || (tp_cmd p =? cmd_keep_alived).
Fixpoint drop_oldest (l : list TxPacket) : option (list TxPacket) :=
  match l with
  | [] => None
  | p :: l => if droppable p then Some l else (p ::.) <$> drop_oldest l
  end.
Definition make_room (l : list TxPacket) : option (list TxPacket) :=
  if PPP_MUX_TX_CTRL_MAX_FRAMES <=? Z.of_nat (length l) then drop_oldest l else Some l.
Definition post_ctrl (p : TxPacket) (s : Sender) : bool * Sender :=
  match make_room (sn_ctrl s) with
  | None => (false, s)
  | Some l => (true, process_tx_all_packets (set_ctrl (l ++ [p]) s))
  end.
Definition turbo_syn (p : TxPacket) (s : Sender) : bool * Sender :=
  if negb (cf_turbo cf && (tp_cmd p =? cmd_syn)) then (false, s) else
  match ca ← select_turbo_linklayer s ≫= (sn_carriers s !!.);
        if ca_in_tx_links ca && link_has_byte_credit ca (tp_length p) then select_turbo_linklayer s else None with
  | None => (false, s)
  | Some k => let '(ok, _, s) := tx_send_on k p s in (ok, s)
  end.
Definition enqueue_flow (p : TxPacket) (s : Sender) : bool * Sender :=
  let cid := peek_connection_id p in
  let '(ok, q) := enqueue_flow_tx cid p (sn_drr s) in
  (ok, if ok || negb (cf_flow_v2 cf) then set_drr q s else fail_flow_tx cid (set_drr q s)).
Definition couples_completion (cid : Z) (s : Sender) : bool :=
  let fx := flow_of cid (sn_drr s) in
  MuxTxShouldCoupleCompletion (dr_frames (sn_drr s)) (cf_queue_high_water cf) (tx_flow_parked cid (sn_drr s))
    (Z.of_nat (length (fx_queue fx))) (fx_bytes fx) PPP_MUX_TX_FLOW_MAX_FRAMES PPP_MUX_TX_FLOW_MAX_BYTES.
Definition post_data (p : TxPacket) (acceleration : bool) (s : Sender) : bool * Sender :=
  let early := acceleration && cf_acceleration cf && negb (bool_decide (sn_tx_links s = [])) && negb (couples_completion (peek_connection_id p) s) in
  let '(ok, s) := enqueue_flow (if early then set_completion false p else p) s in
  if ok then (true, process_tx_all_packets s) else (cf_flow_v2 cf, s).
Definition post_internal (post : nat) (cid cmd len : Z) (acceleration completion : bool) (s : Sender) : bool * Sender :=
  if (len <? sizeof_vmux_hdr) || sn_closed s then (false, s) else
  let '(p, prioritize_ctrl, s) := stamp post cid cmd len completion s in
  if prioritize_ctrl then post_ctrl p s else
  match turbo_syn p s with
  | (true, s) => (true, s)
  | (false, s) => post_data p acceleration s
  end.
(** [post_frame]: a refused frame ends the session. *)
Definition post_frame (post : nat) (cid cmd len : Z) (acceleration completion : bool) (s : Sender) : bool * Sender :=
  let '(ok, s) := post_internal post cid cmd len acceleration completion s in
  if ok || sn_closed s then (ok, s) else (false, sender_close s).

(** ** Frames sent again *)
(** The loop over the keys that are due: those that are left, and the state.  [burst] is what is left of the burst. *)
Fixpoint retransmit_keys (keys : list Z) (burst : nat) (s : Sender) : list Z * Sender :=
  match keys with
  | [] => ([], s)
  | key :: keys =>
      let left_over burst s := let '(l, s) := retransmit_keys keys burst s in (key :: l, s) in
      match rb_entries (sn_rtx s) !! key, sn_retained s !! key with
      | Some e, Some p =>
          match burst with
          | O => left_over O s
          | S rest =>
              if (re_last_sent_tick e =? sn_now s) && negb (re_last_link_id e =? 0) then retransmit_keys keys burst s
              else if cf_rtx_max_attempts cf <=? re_attempts e then
                if cf_flow_v2 cf then retransmit_keys keys burst (fail_flow_tx (Rtx_KeyCid key) s) else ([], sender_close s)
              else
                match tx_link_pick (re_length e) s with
                | (None, s) => left_over burst s
                | (Some k, s) =>
                    match sn_carriers s !! k with
                    | Some ca =>
                        if negb (schedulable ca) then left_over burst s else
                        let '(ok, s) := underlyin_sent true k p s in
                        if negb ok then left_over burst (tx_link_withdraw k s) else
                        let s := withdraw_full k s in
                        retransmit_keys keys rest (set_rtx (Rtx_MarkRetransmitted (sn_rtx s) key (sn_now s) (ca_id ca)) s)
                    | None => left_over burst s
                    end
                end
          end
      | _, _ => retransmit_keys keys burst s
      end
  end.
Definition retransmit_pending (s : Sender) : Sender :=
  if bool_decide (sn_pending s = []) || sn_closed s then s else
  let '(leftover, s) := retransmit_keys (sn_pending s) PPP_MUX_RELIABILITY_RXT_BURST s in
  if sn_closed s then s else set_rtx_pending leftover s.
Definition reinject_link_inflight (k : nat) (s : Sender) : Sender :=
  match sn_carriers s !! k with
  | None => s
  | Some ca =>
      if negb (cf_reliability cf) || (ca_id ca =? 0) then s else
      let '(keys, rtx) := Rtx_TakeLinkInflight (sn_rtx s) (ca_id ca) in
      let s := set_rtx_pending (sn_pending s ++ keys) (set_rtx rtx s) in
      if bool_decide (keys = []) then s else retransmit_pending s
  end.

(** ** Carriers come, write and go *)
Definition attach_linklayer (k : nat) (s : Sender) : Sender :=
  set_carriers (<[k := mkCarrierLink 0 0 false false true false 0 false 0 true]> (sn_carriers s))
    (set_links (sn_rx_links s ++ [k]) (sn_tx_links s ++ [k]) s).
(** Up to the handshake, which runs on its own. *)
Definition add_linklayer (k : nat) (linked established : bool) (s : Sender) : Sender :=
  match sn_carriers s !! k with
  | Some _ => s
  | None =>
      if sn_closed s || negb linked || (cf_pool_hard_max cf <=? Z.of_nat (length (sn_rx_links s))) then s else
      let s := attach_linklayer k s in
      if established then tx_link_withdraw k s else s
  end.
Definition ca_handshake (id : Z) (ca : CarrierLink) : CarrierLink :=
  mkCarrierLink id (ca_queued_bytes ca) (ca_retiring ca) true (ca_in_tx_links ca) (ca_exited ca) (ca_srtt_ms ca)
    (ca_has_rtt_sample ca) (ca_last_active ca) (ca_linked ca).
(** A carrier added to the running session is listed only once its handshake is over. *)
Definition carrier_ready (k : nat) (s : Sender) : Sender :=
  match sn_carriers s !! k with
  | None => s
  | Some ca => if sn_closed s || ca_retiring ca then s else process_tx_all_packets (tx_link_offer k s)
  end.
Definition count_live_carriers (except : nat) (s : Sender) : nat :=
  length (filter (λ k, k ≠ except ∧ (schedulable <$> sn_carriers s !! k) = Some true) (sn_rx_links s)).
Definition remove_linklayer (k : nat) (s : Sender) : Sender :=
  tx_link_withdraw k (set_links (remove_link k (sn_rx_links s)) (sn_tx_links s) s).
Definition on_link_exit (k : nat) (s : Sender) : Sender :=
  match sn_carriers s !! k with
  | None => s
  | Some ca =>
      if sn_closed s || ca_exited ca then s else
      let s := upd_carrier k (ca_set_retiring true) s in
      let remaining := count_live_carriers k s in
      let s := upd_carrier k (ca_set_linked false) (remove_linklayer k s) in
      if (remaining =? 0)%nat then sender_close s else process_tx_all_packets (reinject_link_inflight k s)
  end.
(** A write is over: its bytes are given back, then, after the completion of the frame, the carrier takes frames again. *)
Definition write_accounted (k : nat) (len : Z) (s : Sender) : Sender :=
  upd_carrier k (λ ca, ca_set_queued (if len <=? ca_queued_bytes ca then ca_queued_bytes ca - len else 0) ca) s.
Definition write_completed (k : nat) (ok : bool) (s : Sender) : Sender :=
  match sn_carriers s !! k with
  | None => s
  | Some ca =>
      if sn_closed s then s
      else if ca_retiring ca then process_tx_all_packets s
      else if negb ok then on_link_exit k s
      else process_tx_all_packets (tx_link_offer k s)
  end.
(** One block of an acknowledgement; [threshold] is the age below which a gap is not taken for a loss. *)
Definition ack_block (s : Sender) (b : MuxAckBlock * Z) : Sender :=
  let '(block, threshold) := b in
  let '(_, _, candidates, rtx) := Rtx_Ack iter (sn_rtx s) (if cf_flow_v2 cf then ab_connection_id block else 0) (ab_largest block)
    (ab_ranges block) (sn_now s) PPP_MUX_FAST_RETX_THRESHOLD threshold in
  let s := set_rtx rtx s in
  if cf_rtx_fast cf then set_rtx_pending (sn_pending s ++ candidates) s else s.
(** The connections that were parked on the window may send again. *)
Definition resume_parked (s : Sender) : Sender :=
  match drr_unpark_all (sn_drr s) with
  | (true, q) => process_tx_all_packets (set_drr q s)
  | (false, q) => set_drr q s
  end.
(** The blocks of a decoded acknowledgement. *)
Definition packet_input_ack (blocks : list (MuxAckBlock * Z)) (s : Sender) : Sender :=
  if sn_closed s || negb (cf_reliability cf) then s else
  let before := rb_bytes (sn_rtx s) in
  let s := retransmit_pending (fold_left ack_block blocks s) in
  if rb_bytes (sn_rtx s) <? before then resume_parked s else s.
(** The periodic work on the retransmit buffer; [pto] is the probe timeout. *)
Definition reliability_tick (pto : Z) (s : Sender) : Sender :=
  if sn_closed s || negb (cf_reliability cf) then s else
  let s := if cf_rtx_pto cf then
      set_rtx_pending (Rtx_CollectExpired iter (sn_rtx s) (sn_now s) pto PPP_MUX_RELIABILITY_PTO_MAX PPP_MUX_RELIABILITY_RXT_BURST (sn_pending s)) s
    else s in
  resume_parked (retransmit_pending s).

(** ** Runs *)
Inductive SendEvent :=
  | SndPost (cid cmd len : Z) (acceleration completion : bool)
  | SndAttach (k : nat) (linked established : bool)
  | SndHandshake (k : nat) (id : Z)
  | SndReady (k : nat)
  | SndSample (k : nat) (linked has_rtt : bool) (srtt_ms last_active : Z)
  | SndRetire (k : nat)
  | SndWritten (k : nat) (len : Z)
  | SndWriteDone (k : nat) (ok : bool)
  | SndExit (k : nat)
  | SndFeedback (cmd len : Z)
  | SndAck (blocks : list (MuxAckBlock * Z))
  | SndReliabilityTick (pto : Z)
  | SndTransport (env : list bool)
  | SndTick (now : Z)
  | SndClose.
Record SendRun := mkSendRun { sr_sender : Sender; sr_posts : nat }.
Definition send_event (n : nat) (e : SendEvent) (s : Sender) : Sender :=
  match e with
  | SndPost cid cmd len acceleration completion => (post_frame n cid cmd len acceleration completion s).2
  | SndAttach k linked established => add_linklayer k linked established s
  | SndHandshake k id => upd_carrier k (ca_handshake id) s
  | SndReady k => carrier_ready k s
  | SndSample k linked has_rtt srtt_ms last_active => upd_carrier k (ca_sampled linked has_rtt srtt_ms last_active) s
  | SndRetire k => tx_link_withdraw k (upd_carrier k (λ ca, ca_set_retiring (ca_exited ca) ca) s)
  | SndWritten k len => write_accounted k len s
  | SndWriteDone k ok => write_completed k ok s
  | SndExit k => on_link_exit k s
  | SndFeedback cmd len => (post_internal n 0 cmd len false false s).2
  | SndAck blocks => packet_input_ack blocks s
  | SndReliabilityTick pto => reliability_tick pto s
  | SndTransport env => set_io (sn_closed s) env (sn_wire s) s
  | SndTick now => set_now now s
  | SndClose => if sn_closed s then s else sender_close s
  end.
Definition is_post (e : SendEvent) : bool := match e with SndPost _ _ _ _ _ | SndFeedback _ _ => true | _ => false end.
Definition send_step (m : SendRun) (e : SendEvent) : SendRun :=
  mkSendRun (send_event (sr_posts m) e (sr_sender m)) (if is_post e then S (sr_posts m) else sr_posts m).
Definition send_run (tx_seq : Z) (es : list SendEvent) : SendRun := fold_left send_step es (mkSendRun (Sender_new tx_seq) 0).
Definition send_event_ok (e : SendEvent) : Prop :=
  match e with
  | SndPost _ _ len _ _ | SndFeedback _ len => sizeof_vmux_hdr ≤ len ≤ 65535
  | SndWritten _ len => 0 ≤ len
  | _ => True
  end.
End Send.
