(* ===== verification/MuxSendRun.v ===== *)
(** * Runs of the multiplexer's transmit side

    The invariant of [MuxSend] over every sequence of events: the carriers offered for frames, the order in which the
    frames of a connection reach the carriers, the global numbers of the compatible ordering, and the progress of the
    drain loops, whose fuel is shown to be enough. *)
From stdpp Require Import sorting.
From S2P Require Import Prelude MuxAck MuxFlow MuxRetransmit MuxNegotiation MuxDrr MuxSend.
Local Open Scope Z_scope.

(** ** The carriers that take frames *)
Record links_ok (s : Sender) : Prop := {
  lo_listed : ∀ k, k ∈ sn_tx_links s → ∃ ca, sn_carriers s !! k = Some ca ∧ ca_in_tx_links ca = true;
  lo_flag : sn_closed s = true ∨ ∀ k ca, sn_carriers s !! k = Some ca → ca_in_tx_links ca = true → k ∈ sn_tx_links s;
  lo_once : NoDup (sn_tx_links s);
  lo_bytes : ∀ k ca, sn_carriers s !! k = Some ca → 0 ≤ ca_queued_bytes ca ≤ PPP_MUX_LINK_BYTE_HIGH_WATER;
  lo_retained : map_Forall (λ _ p, sizeof_vmux_hdr ≤ tp_length p ≤ 65535) (sn_retained s);
}.
(** The carrier [k] takes a frame of [n] bytes. *)
Definition takes (n : Z) (s : Sender) (k : nat) : bool :=
  match sn_carriers s !! k with Some ca => negb (ca_retiring ca) && link_has_byte_credit ca n | None => false end.
(** The two states have the same queues and numbers. *)
Definition same_frames (s s' : Sender) : Prop :=
  sn_drr s' = sn_drr s ∧ sn_ctrl s' = sn_ctrl s ∧ sn_tx_seq s' = sn_tx_seq s ∧ sn_closed s' = sn_closed s.
Lemma same_frames_refl s : same_frames s s.
Proof. done. Qed.
Lemma same_frames_trans s1 s2 s3 : same_frames s1 s2 → same_frames s2 s3 → same_frames s1 s3.
Proof. unfold same_frames. intuition congruence. Qed.

Lemma omap_listed s l :
  (∀ k, k ∈ l → ∃ ca, sn_carriers s !! k = Some ca ∧ ca_in_tx_links ca = true) →
  Forall2 (λ k ca, sn_carriers s !! k = Some ca) l (omap (λ k, sn_carriers s !! k) l).
Proof.
  induction l as [|k l IH]; intros H; csimpl; [constructor|]. destruct (H k) as (ca & E & _); [left|]. rewrite E.
  constructor; [done|]. apply IH. intros k' Hk'. apply H. by right.
Qed.
Lemma list_filter_id {A} (P : A → Prop) `{∀ x, Decision (P x)} (l : list A) : (∀ x, x ∈ l → P x) → filter P l = l.
Proof. induction l as [|x l IH]; intros H1; [done|]. rewrite filter_cons_True by (apply H1; left). f_equal. apply IH. intros y Hy. apply H1. by right. Qed.
Lemma remove_link_id k l : k ∉ l → remove_link k l = l.
Proof. intros H. unfold remove_link. apply list_filter_id. intros i Hi ->. done. Qed.
Lemma remove_link_perm k l : NoDup l → k ∈ l → remove_link k l ++ [k] ≡ₚ l.
Proof.
  intros N Hk. apply list_elem_of_split in Hk as (l1 & l2 & ->). apply NoDup_app in N as (N1 & N12 & N2). apply NoDup_cons in N2 as [Nk N2].
  unfold remove_link. rewrite filter_app, filter_cons_False by naive_solver.
  change (filter (λ i, i ≠ k) ?l) with (remove_link k l). rewrite !remove_link_id; [|done|intros ?; by eapply N12; [|left]].
  by rewrite <- Permutation_cons_append, Permutation_middle.
Qed.
Lemma elem_of_remove_link i k l : i ∈ remove_link k l ↔ i ∈ l ∧ i ≠ k.
Proof. unfold remove_link. rewrite list_elem_of_filter. naive_solver. Qed.
Lemma remove_link_shorter k l : k ∈ l → (length (remove_link k l) < length l)%nat.
Proof. intros H. apply (length_filter_lt _ _ k); [done|]. naive_solver. Qed.

Lemma pick_spec n s :
  links_ok s →
  match tx_link_pick n s with
  | (None, s') => s' = s ∧ ∀ k, k ∈ sn_tx_links s → takes n s k = false
  | (Some k, s') => k ∈ sn_tx_links s ∧ takes n s k = true ∧ ∃ l, l ≡ₚ sn_tx_links s ∧ s' = set_links (sn_rx_links s) l s
  end.
Proof.
  intros [L _ N B _]. unfold tx_link_pick. rewrite list_filter_id by (intros k Hk; destruct (L k Hk) as (ca & -> & _); by eexists).
  pose proof (omap_listed s _ L) as F. set (cas := omap _ _) in *.
  pose proof (pick_least_loaded_best (link_load n <$> cas)) as [P1 P2]. destruct (MuxPickLeastLoaded _ <? 0) eqn:E.
  - split; [done|]. intros k Hk. destruct (decide (MuxPickLeastLoaded (link_load n <$> cas) = -1)) as [E1|E1].
    + apply list_elem_of_lookup_1 in Hk as [i Hi]. destruct (Forall2_lookup_l _ _ _ _ _ F Hi) as (ca & Hca & Eca).
      unfold takes. rewrite Eca. pose proof (proj1 P1 E1 (link_load n ca)) as H. apply H. apply list_elem_of_fmap_2. by eapply list_elem_of_lookup_2.
    + destruct (P2 E1) as (b & _ & H & _). lia.
  - destruct P2 as (b & Hb & _ & Hc & _); [lia|]. rewrite list_lookup_fmap in Hb. apply fmap_Some in Hb as (ca & Hca & ->).
    destruct (Forall2_lookup_r _ _ _ _ _ F Hca) as (k & Hk & Ek). rewrite Hk. pose proof (list_elem_of_lookup_2 _ _ _ Hk) as Hin.
    split; [done|]. split; [unfold takes; by rewrite Ek|]. eexists. split; [|done]. by apply remove_link_perm.
Qed.
Lemma set_links_perm_ok l s : links_ok s → l ≡ₚ sn_tx_links s → links_ok (set_links (sn_rx_links s) l s).
Proof.
  intros [L G N B A] P. split; simpl; [| |by rewrite P|done|done].
  - intros k. rewrite P. apply L.
  - destruct G as [G|G]; [by left|right]. intros k ca. rewrite P. apply G.
Qed.
Lemma links_ok_eq s s' :
  sn_carriers s' = sn_carriers s → sn_tx_links s' = sn_tx_links s → sn_closed s' = sn_closed s → sn_retained s' = sn_retained s → links_ok s → links_ok s'.
Proof. intros Ec Et Es Er [L G N B A]. split; rewrite ?Ec, ?Et, ?Es, ?Er; done. Qed.
Lemma upd_ok k f s :
  links_ok s →
  (∀ ca, sn_carriers s !! k = Some ca → ca_in_tx_links (f ca) = ca_in_tx_links ca ∧ 0 ≤ ca_queued_bytes (f ca) ≤ PPP_MUX_LINK_BYTE_HIGH_WATER) →
  links_ok (upd_carrier k f s).
Proof.
  intros [L G N B A] H. split; simpl; [| |done| |done].
  2:{ destruct G as [G|G]; [by left|right]. intros i ca. destruct (decide (i = k)) as [->|Hne]; [|rewrite lookup_alter_ne by done; apply G].
    rewrite lookup_alter_eq. intros (ca0 & E & ->)%fmap_Some. destruct (H ca0 E) as [-> _]. by apply G. }
  - intros i Hi. destruct (L i Hi) as (ca & E & El). destruct (decide (i = k)) as [->|Hne].
    + exists (f ca). rewrite lookup_alter_eq, E. split; [done|]. destruct (H ca E) as [-> _]. done.
    + exists ca. by rewrite lookup_alter_ne.
  - intros i ca. destruct (decide (i = k)) as [->|Hne]; [|rewrite lookup_alter_ne by done; apply B].
    rewrite lookup_alter_eq. intros (ca0 & E & ->)%fmap_Some. by apply H.
Qed.
Lemma not_listed k ca s : links_ok s → sn_carriers s !! k = Some ca → ca_in_tx_links ca = false → k ∉ sn_tx_links s.
Proof. intros [L _ _ _ _] E El Hk. destruct (L k Hk) as (ca' & E' & El'). congruence. Qed.
Lemma withdraw_ok k s :
  links_ok s → links_ok (tx_link_withdraw k s) ∧ sn_tx_links (tx_link_withdraw k s) = remove_link k (sn_tx_links s) ∧ same_frames s (tx_link_withdraw k s) ∧
  sn_wire (tx_link_withdraw k s) = sn_wire s.
Proof.
  intros I. pose proof I as [L G N B A]. unfold tx_link_withdraw. destruct (sn_carriers s !! k) as [ca|] eqn:E.
  - destruct (ca_in_tx_links ca) eqn:El; simpl.
    + split; [|done]. split; simpl.
      * intros i [Hi Hne]%elem_of_remove_link. rewrite lookup_alter_ne by done. by apply L.
      * destruct G as [G|G]; [by left|right]. intros i ca'. rewrite elem_of_remove_link. destruct (decide (i = k)) as [->|Hne].
        -- rewrite lookup_alter_eq, E. simpl. by intros [= <-].
        -- rewrite lookup_alter_ne by done. eauto.
      * by apply NoDup_filter.
      * intros i ca'. destruct (decide (i = k)) as [->|Hne]; [|rewrite lookup_alter_ne by done; apply B].
        rewrite lookup_alter_eq, E. simpl. intros [= <-]. simpl. by eapply B.
      * done.
    + split; [done|]. split; [|done]. by rewrite remove_link_id by (by eapply not_listed).
  - split; [done|]. split; [|done]. rewrite remove_link_id; [done|]. intros Hk. destruct (L k Hk) as (ca & E' & _). congruence.
Qed.
Lemma offer_ok k s : links_ok s → links_ok (tx_link_offer k s) ∧ same_frames s (tx_link_offer k s) ∧ sn_wire (tx_link_offer k s) = sn_wire s.
Proof.
  intros I. pose proof I as [L G N B A]. unfold tx_link_offer. destruct (sn_carriers s !! k) as [ca|] eqn:E; [|done].
  destruct (ca_in_tx_links ca) eqn:El; [done|]. destruct (ca_retiring ca); [done|]. destruct (_ <=? _); [done|]. simpl. split; [|done].
  pose proof (not_listed k ca s I E El) as Hk. split; simpl.
  - intros i [Hi|Hi]%elem_of_app.
    + rewrite lookup_alter_ne by (by intros ->). by apply L.
    + apply list_elem_of_singleton in Hi as ->. rewrite lookup_alter_eq, E. by eexists.
  - destruct G as [G|G]; [by left|right]. intros i ca'. rewrite elem_of_app, list_elem_of_singleton. destruct (decide (i = k)) as [->|Hne]; [auto|].
    rewrite lookup_alter_ne by done. eauto.
  - apply NoDup_app. split; [done|]. split; [|apply NoDup_singleton]. intros i Hi Hi'. by apply list_elem_of_singleton in Hi' as ->.
  - intros i ca'. destruct (decide (i = k)) as [->|Hne]; [|rewrite lookup_alter_ne by done; apply B].
    rewrite lookup_alter_eq, E. simpl. intros [= <-]. simpl. by eapply B.
  - done.
Qed.

(** ** Sums over the queued frames *)
Lemma flow_sum_ext f m m' :
  f FlowTx_new = 0 → (∀ c, f (default FlowTx_new (m !! c)) = f (default FlowTx_new (m' !! c))) → flow_sum f m = flow_sum f m'.
Proof.
  intros Hf. revert m'. induction m as [|c fx m Hc IH] using map_ind; intros m' H.
  - induction m' as [|c fx m' Hc IH] using map_ind; [done|]. rewrite flow_sum_insert, Hc by done. simpl.
    pose proof (H c) as H1. rewrite lookup_insert_eq, lookup_empty in H1. simpl in H1. rewrite <- H1, <- IH; [lia|].
    intros c'. pose proof (H c') as H2. destruct (decide (c' = c)) as [->|Hne]; [by rewrite Hc|]. by rewrite lookup_insert_ne in H2.
  - rewrite flow_sum_insert, Hc by done. simpl. rewrite (IH (delete c m')).
    + rewrite flow_sum_delete by done. pose proof (H c) as H1. rewrite lookup_insert_eq in H1. simpl in H1. lia.
    + intros c'. destruct (decide (c' = c)) as [->|Hne]; [by rewrite Hc, lookup_delete_eq|].
      rewrite lookup_delete_ne by done. rewrite <- H, lookup_insert_ne by done. done.
Qed.
(** A number for every queued frame, summed. *)
Definition queued_sum (g : list TxPacket → Z) (q : Drr) : Z := flow_sum (λ fx, g (fx_queue fx)) (dr_flows q).
Lemma queued_sum_ext g q q' : g [] = 0 → (∀ c, g (queue_of c q') = g (queue_of c q)) → queued_sum g q' = queued_sum g q.
Proof.
  intros Hg H. apply flow_sum_ext; [done|]. intros c. apply H.
Qed.
Lemma queued_sum_one g c q q' :
  g [] = 0 → (∀ c', c' ≠ c → queue_of c' q' = queue_of c' q) → queued_sum g q' = queued_sum g q - g (queue_of c q) + g (queue_of c q').
Proof.
  intros Hg H. pose proof (flow_sum_delete (λ fx, g (fx_queue fx)) (dr_flows q) c Hg) as E1.
  pose proof (flow_sum_delete (λ fx, g (fx_queue fx)) (dr_flows q') c Hg) as E2.
  assert (E : flow_sum (λ fx, g (fx_queue fx)) (delete c (dr_flows q')) = flow_sum (λ fx, g (fx_queue fx)) (delete c (dr_flows q))).
  { apply flow_sum_ext; [done|]. intros c'. destruct (decide (c' = c)) as [->|Hne]; [by rewrite !lookup_delete_eq|].
    rewrite !lookup_delete_ne by done. change (g (queue_of c' q') = g (queue_of c' q)). by rewrite H. }
  cbv beta in *. unfold queued_sum, queue_of, flow_of. lia.
Qed.

(** ** The frames of a session *)
Section Runs.
Context (cf : TxConfig) (content : nat → list Z) (iter : gmap Z MuxRtxEntry → list (Z * MuxRtxEntry)).

(** Whether a frame takes the priority queue. *)
Definition via_ctrl (p : TxPacket) : bool :=
  is_reliability_control (tp_cmd p) ||
  (cf_flow_v2 cf && negb (is_per_flow_data (tp_cmd p)) && (is_session_control (tp_cmd p) || is_connection_control (tp_cmd p))).
Definition data_of (l : list TxPacket) : list TxPacket := filter (λ p, via_ctrl p = false) l.
Definition ctrl_of (l : list TxPacket) : list TxPacket := filter (λ p, via_ctrl p = true) l.
(** The compatible ordering has given the frame the number [v]. *)
Definition numbered (v : Z) (p : TxPacket) : bool := negb (tp_assign_seq p) && negb (via_ctrl p) && (tp_seq p =? v).
Definition frames_numbered (v : Z) (l : list TxPacket) : Z := Z.of_nat (length (filter (λ p, numbered v p = true) l)).
Definition compat : bool := negb (cf_flow_v2 cf) && negb (cf_turbo cf).
Definition in_order : bool := cf_flow_v2 cf || negb (cf_turbo cf).
Definition next_number (a : Z) : Z := a +[32] 1.
Definition numbers (init : Z) (m : nat) : list Z := (λ i, Nat.iter i next_number init) <$> seq 0 m.
Definition times (v : Z) (l : list Z) : Z := Z.of_nat (length (filter (λ x, x = v) l)).
Definition posts (l : list TxPacket) : list nat := tp_post <$> l.

Definition data_ok (p : TxPacket) : Prop := tx_frame_ok (peek_connection_id p) p ∧ via_ctrl p = false.
Definition ctrl_ok (p : TxPacket) : Prop := via_ctrl p = true ∧ sizeof_vmux_hdr ≤ tp_length p ≤ 65535 ∧ tp_assign_seq p = false.
Definition sendable (p : TxPacket) : Prop := data_ok p ∨ ctrl_ok p.
(** [out] holds the frames on the wire, and the frame in hand if there is one. *)
Record frames_ok (init : Z) (n : nat) (out : list TxPacket) (s : Sender) : Prop := {
  fo_drr : drr_ok (sn_drr s);
  fo_data : ∀ c, Forall (λ p, via_ctrl p = false) (queue_of c (sn_drr s));
  fo_ctrl : Forall ctrl_ok (sn_ctrl s);
  fo_order : in_order = true → ∀ c, StronglySorted lt (posts (of_flow c (data_of out) ++ queue_of c (sn_drr s)));
  fo_ctrl_order : StronglySorted lt (posts (ctrl_of out ++ sn_ctrl s));
  fo_new : (∀ p, p ∈ out → (tp_post p < n)%nat) ∧ (∀ p, p ∈ sn_ctrl s → (tp_post p < n)%nat) ∧
    ∀ c p, p ∈ queue_of c (sn_drr s) → (tp_post p < n)%nat;
  fo_numbers : compat = true → sn_closed s = false →
    ∃ m, sn_tx_seq s = Nat.iter m next_number init ∧ ∀ v, frames_numbered v out + queued_sum (frames_numbered v) (sn_drr s) = times v (numbers init m);
  fo_closed : sn_closed s = true → sn_drr s = clear_flow_tx ∧ sn_ctrl s = [] ∧ sn_tx_links s = [];
}.
(** The frames sent for the first time, in order. *)
Definition first_sends (wire : list (nat * TxPacket * bool)) : list TxPacket := omap (λ x, if x.2 : bool then None else Some x.1.2) wire.
Definition on_wire (s : Sender) : list TxPacket := first_sends (sn_wire s).
(** A data frame taken out of its queue. *)
Definition in_hand (p : TxPacket) (s : Sender) : Prop :=
  data_ok p ∧ fx_rtx_parked (flow_of (peek_connection_id p) (sn_drr s)) = false.

Lemma frames_numbered_app v l k : frames_numbered v (l ++ k) = frames_numbered v l + frames_numbered v k.
Proof. unfold frames_numbered. rewrite filter_app, length_app. lia. Qed.
Lemma frames_numbered_one v p : frames_numbered v [p] = if numbered v p then 1 else 0.
Proof. unfold frames_numbered. rewrite filter_cons. case_decide as E; [by rewrite E|]. apply not_true_iff_false in E. by rewrite E. Qed.
Lemma data_of_app l k : data_of (l ++ k) = data_of l ++ data_of k.
Proof. apply filter_app. Qed.
Lemma ctrl_of_app l k : ctrl_of (l ++ k) = ctrl_of l ++ ctrl_of k.
Proof. apply filter_app. Qed.
Lemma data_of_one p : via_ctrl p = false → data_of [p] = [p].
Proof. intros H. unfold data_of. by rewrite filter_cons_True. Qed.
Lemma data_of_none p : via_ctrl p = true → data_of [p] = [].
Proof. intros H. unfold data_of. rewrite filter_cons_False; [done|congruence]. Qed.
Lemma ctrl_of_one p : via_ctrl p = true → ctrl_of [p] = [p].
Proof. intros H. unfold ctrl_of. by rewrite filter_cons_True. Qed.
Lemma ctrl_of_none p : via_ctrl p = false → ctrl_of [p] = [].
Proof. intros H. unfold ctrl_of. rewrite filter_cons_False; [done|congruence]. Qed.
Lemma posts_app l k : posts (l ++ k) = posts l ++ posts k.
Proof. apply fmap_app. Qed.
Lemma numbers_S init m : numbers init (S m) = numbers init m ++ [Nat.iter m next_number init].
Proof. unfold numbers. by rewrite seq_S, fmap_app. Qed.
Lemma times_app v l k : times v (l ++ k) = times v l + times v k.
Proof. unfold times. rewrite filter_app, length_app. lia. Qed.

(** Changes that leave the frames alone. *)
Lemma frames_same init n out s s' : same_frames s s' → (sn_closed s = true → sn_tx_links s' = []) → frames_ok init n out s → frames_ok init n out s'.
Proof.
  intros (E1 & E2 & E4 & E5) Ht [F1 F2 F3 F4 F5 F6 F7 F8]. split; rewrite ?E1, ?E2, ?E4, ?E5; try done.
  intros Hc. destruct (F8 Hc) as (? & ? & _). auto.
Qed.
Lemma frames_more init n n' out s : (n ≤ n')%nat → frames_ok init n out s → frames_ok init n' out s.
Proof.
  intros Hn [F1 F2 F3 F4 F5 F6 F7 F8]. split; try done. destruct F6 as (F6a & F6b & F6c).
  split_and!; [intros p Hp; specialize (F6a p Hp); lia|intros p Hp; specialize (F6b p Hp); lia|intros c p Hp; specialize (F6c c p Hp); lia].
Qed.
Lemma frames_close init n out s : frames_ok init n out s → frames_ok init n out (sender_close s).
Proof.
  intros [F1 F2 F3 F4 F5 F6 F7 F8]. assert (E : ∀ c, queue_of c clear_flow_tx = []) by (intros c; unfold queue_of, flow_of; simpl; by rewrite lookup_empty).
  split; simpl; try done.
  - apply drr_clear_ok.
  - intros Ho c. rewrite E, app_nil_r. specialize (F4 Ho c). rewrite posts_app in F4. by apply StronglySorted_app in F4 as (_ & ? & _).
  - rewrite app_nil_r. rewrite posts_app in F5. by apply StronglySorted_app in F5 as (_ & ? & _).
  - destruct F6 as (F6 & _). split_and!; [done|by intros p ?%not_elem_of_nil|]. intros c p. rewrite E. by intros ?%not_elem_of_nil.
Qed.

(** ** A frame leaves its queue, and comes back or is sent *)
Lemma frames_pop init n out s p q :
  frames_ok init n out s → drr_pop_next (sn_drr s) = (Some p, q) → frames_ok init n (out ++ [p]) (set_drr q s) ∧ in_hand p (set_drr q s).
Proof.
  intros [F1 F2 F3 F4 F5 F6 F7 F8] E. pose proof (pop_spec _ F1) as S. rewrite E in S. destruct S as [Iq P].
  pose proof (λ c, popped_queue _ _ _ c P) as Q. set (cid := peek_connection_id p) in *.
  pose proof (Q cid) as Qc. rewrite decide_True in Qc by done.
  assert (Hp : via_ctrl p = false) by (specialize (F2 cid); rewrite Qc in F2; by apply Forall_cons in F2 as [? _]).
  split.
  - split; simpl; try done.
    + intros c. specialize (F2 c). rewrite Q in F2. by apply Forall_app in F2 as [_ ?].
    + intros Ho c. specialize (F4 Ho c). rewrite Q in F4. rewrite data_of_app, data_of_one, of_flow_app, of_flow_one by done.
      rewrite <- (assoc_L (++)). fold cid. repeat case_decide; first [done|congruence].
    + by rewrite ctrl_of_app, ctrl_of_none, app_nil_r.
    + destruct F6 as (F6a & F6b & F6c). split_and!; [|done|].
      * intros p' [Hp'|Hp']%elem_of_app; [by apply F6a|]. apply list_elem_of_singleton in Hp' as ->. apply (F6c cid). rewrite Qc. left.
      * intros c p' Hp'. apply (F6c c). rewrite Q. apply elem_of_app. by right.
    + intros Hc Hs. destruct (F7 Hc Hs) as (m & Em & Hm). exists m. split; [done|]. intros v. rewrite <- Hm, frames_numbered_app.
      rewrite (queued_sum_one (frames_numbered v) cid (sn_drr s) q eq_refl) by (intros c' Hne; by rewrite (Q c'), decide_False).
      rewrite Qc, frames_numbered_app. lia.
    + intros Hc. destruct (F8 Hc) as (Ed & _ & _). rewrite Ed in Qc. unfold queue_of, flow_of in Qc. simpl in Qc.
      by rewrite lookup_empty in Qc.
  - split; [split; [|done]|apply P]. pose proof (fk_frames _ _ (do_flow _ F1 cid)) as Ff. change (fx_queue (flow_of cid (sn_drr s))) with (queue_of cid (sn_drr s)) in Ff.
    rewrite Qc in Ff. by apply Forall_cons in Ff as [? _].
Qed.
(** The queues [q] hold the frame in hand at the front of its flow again. *)
Lemma frames_back init n out s p q :
  frames_ok init n (out ++ [p]) s → in_hand p s → drr_ok q →
  (∀ c, queue_of c q = (if decide (c = peek_connection_id p) then [p] else []) ++ queue_of c (sn_drr s)) → sn_closed s = false →
  frames_ok init n out (set_drr q s).
Proof.
  intros [F1 F2 F3 F4 F5 F6 F7 F8] [[Hf Hp] _] Iq Q Hs. set (cid := peek_connection_id p) in *. split; simpl; try done.
  - intros c. rewrite Q. apply Forall_app. split; [|done]. case_decide; [|constructor]. by constructor.
  - intros Ho c. specialize (F4 Ho c). rewrite Q. rewrite data_of_app, data_of_one, of_flow_app, of_flow_one, <- (assoc_L (++)) in F4 by done.
    fold cid in F4. repeat case_decide; first [done|congruence].
  - by rewrite ctrl_of_app, ctrl_of_none, app_nil_r in F5.
  - destruct F6 as (F6a & F6b & F6c). split_and!; [|done|].
    + intros p' Hp'. apply F6a, elem_of_app. by left.
    + intros c p'. rewrite Q. intros [Hp'|Hp']%elem_of_app; [|by eapply F6c]. apply F6a, elem_of_app. right. by case_decide; [|apply not_elem_of_nil in Hp'].
  - intros Hc _. destruct (F7 Hc Hs) as (m & Em & Hm). exists m. split; [done|]. intros v. rewrite <- Hm, frames_numbered_app.
    rewrite (queued_sum_one (frames_numbered v) cid (sn_drr s) q eq_refl) by (intros c' Hne; by rewrite (Q c'), decide_False).
    rewrite (Q cid), decide_True, frames_numbered_app by done. lia.
  - congruence.
Qed.
Lemma frames_requeue init n out s p :
  frames_ok init n (out ++ [p]) s → in_hand p s → sn_closed s = false → frames_ok init n out (set_drr (drr_requeue_front p (sn_drr s)) s).
Proof.
  intros F H Hs. apply (frames_back init n out s p); try done; [|intros c; apply requeue_queue].
  destruct H as [[Hf _] Hk]. apply requeue_ok; [apply F|done..].
Qed.
Lemma frames_park init n out s p :
  frames_ok init n (out ++ [p]) s → in_hand p s → sn_closed s = false → frames_ok init n out (set_drr (drr_park_front p (sn_drr s)) s).
Proof.
  intros F H Hs. apply (frames_back init n out s p); try done; [|intros c; apply park_queue].
  destruct H as [[Hf _] Hk]. apply park_ok; [apply F|done..].
Qed.
(** The number given when the frame is handed to a carrier is the next one. *)
Lemma frames_assign init n out s p :
  frames_ok init n (out ++ [p]) s → (data_ok p ∨ tp_assign_seq p = false) →
  frames_ok init n (out ++ [(tx_assign_seq p s).1]) (tx_assign_seq p s).2.
Proof.
  intros F H. unfold tx_assign_seq. destruct (tp_assign_seq p) eqn:Ea; [|done]. destruct H as [[Hf Hp]|?]; [|done]. simpl.
  assert ((tp_length p <? sizeof_vmux_hdr) = false) as -> by (destruct Hf; lia). simpl.
  set (p' := mkTxPacket _ _ _ _ _ _ _). destruct F as [F1 F2 F3 F4 F5 F6 F7 F8].
  assert (Ev : via_ctrl p' = false) by done. assert (Ec : peek_connection_id p' = peek_connection_id p) by done.
  split; simpl; try done.
  - intros Ho c. specialize (F4 Ho c). rewrite data_of_app, data_of_one, of_flow_app, of_flow_one in F4 |- * by done.
    rewrite Ec. case_decide; [|done]. rewrite !posts_app in F4 |- *. exact F4.
  - rewrite ctrl_of_app, ctrl_of_none in F5 |- * by done. done.
  - destruct F6 as (F6a & F6b & F6c). split_and!; [|done..]. intros x [Hx|Hx]%elem_of_app; [apply F6a, elem_of_app; by left|].
    apply list_elem_of_singleton in Hx as ->. apply (F6a p), elem_of_app. right. by apply list_elem_of_singleton.
  - intros Hc Hs. destruct (F7 Hc Hs) as (m & Em & Hm). exists (S m). split; [by rewrite Em|]. intros v.
    rewrite numbers_S, times_app, <- Hm, !frames_numbered_app, !frames_numbered_one.
    assert (numbered v p = false) as -> by (unfold numbered; by rewrite Ea).
    assert (numbered v p' = (sn_tx_seq s =? v)) as -> by (unfold numbered; by rewrite Ev).
    unfold times. rewrite filter_cons, <- Em. case_decide; case_match; simpl; lia.
Qed.

Lemma clear_queue c : queue_of c clear_flow_tx = [].
Proof. unfold queue_of, flow_of. simpl. by rewrite lookup_empty. Qed.
(** The work left for the drain loops. *)
Definition data_work (q : Drr) : nat := (Z.to_nat (dr_frames q) + length (dr_active q))%nat.
Lemma drop_work c q : drr_ok q → (data_work (drop_flow_tx c q) ≤ data_work q)%nat.
Proof.
  intros I. unfold data_work, drop_flow_tx. destruct (dr_flows q !! c) as [fx|]; [|lia]. simpl.
  assert (Hs : sat_sub (dr_frames q) (Z.of_nat (length (fx_queue fx))) ≤ Z.max 0 (dr_frames q)) by (unfold sat_sub; case_match; lia).
  assert (Hr : (length (if fx_active fx then remove_cid c (dr_active q) else dr_active q) ≤ length (dr_active q))%nat) by (case_match; [apply length_filter|lia]).
  lia.
Qed.
Lemma frames_fail init n out s cid : cf_flow_v2 cf = true → frames_ok init n out s → frames_ok init n out (fail_flow_tx cf iter cid s).
Proof.
  intros Hv [F1 F2 F3 F4 F5 F6 F7 F8]. unfold fail_flow_tx. rewrite Hv.
  split; simpl; try done.
  - by apply drop_flow_ok.
  - intros c. rewrite drop_queue. by case_decide.
  - intros Ho c. rewrite drop_queue. case_decide; [|by apply F4]. specialize (F4 Ho c). rewrite posts_app in F4.
    rewrite app_nil_r. by apply StronglySorted_app in F4 as (_ & ? & _).
  - destruct F6 as (F6a & F6b & F6c). split_and!; [done..|]. intros c p. rewrite drop_queue. case_decide; [by intros ?%not_elem_of_nil|apply F6c].
  - unfold compat. by rewrite Hv.
  - intros Hc. destruct (F8 Hc) as (-> & ? & ?). split; [|done]. unfold drop_flow_tx. simpl. by rewrite lookup_empty.
Qed.
(** What tracking a sent frame may do. *)
Record tracked (s s' : Sender) : Prop := {
  tk_carriers : sn_carriers s' = sn_carriers s;
  tk_links : (sn_tx_links s' = sn_tx_links s ∧ sn_closed s' = sn_closed s) ∨ (sn_tx_links s' = [] ∧ sn_closed s' = true);
  tk_wire : sn_wire s' = sn_wire s;
  tk_work : drr_ok (sn_drr s) → (data_work (sn_drr s') ≤ data_work (sn_drr s))%nat;
  tk_ctrl : (length (sn_ctrl s') ≤ length (sn_ctrl s))%nat;
  tk_retained : sn_retained s' ⊆ sn_retained s ∨ ∃ key p, sn_retained s' = <[key := p]> (sn_retained s) ∧ sizeof_vmux_hdr ≤ tp_length p ≤ 65535;
}.
Lemma fail_tracked cid s : tracked s (fail_flow_tx cf iter cid s).
Proof.
  unfold fail_flow_tx. destruct (cf_flow_v2 cf); split; simpl; try done; try lia; try (by left); intros; by apply drop_work.
Qed.
Lemma track_ok init n out p l s :
  sizeof_vmux_hdr ≤ tp_length p ≤ 65535 → frames_ok init n out s → frames_ok init n out (track_sent_frame cf content iter p l s) ∧ tracked s (track_sent_frame cf content iter p l s).
Proof.
  intros Hl F. assert (R : tracked s s) by (split; auto with lia). unfold track_sent_frame. destruct (rtx_charge_bytes cf p s =? 0); [done|].
  destruct (cf_flow_v2 cf) eqn:Hv; simpl.
  - destruct (MuxTxOverHardCap _ _ _ _); [split; [by apply frames_fail|apply fail_tracked]|].
    destruct (Rtx_Track _ _ _ _ _ _ _ _) as [[] rtx]; [|split; [by apply frames_fail|apply fail_tracked]].
    split; [by apply (frames_same init n out s); [|intros ?; apply F|]|by split; eauto with lia].
  - destruct (Rtx_Track _ _ _ _ _ _ _ _) as [[] rtx].
    + split; [by apply (frames_same init n out s); [|intros ?; apply F|]|by split; eauto with lia].
    + split; [by apply frames_close|]. split; simpl; try done; try lia; [by right| |left; apply map_empty_subseteq].
      intros _. unfold data_work, clear_flow_tx. simpl. lia.
Qed.

(** ** Handing a frame to a carrier *)
Lemma sendable_length p : sendable p → sizeof_vmux_hdr ≤ tp_length p ≤ 65535.
Proof. intros [[[_ H] _]|(_ & H & _)]; done. Qed.
(** The frame after an attempt: the same but for its number. *)
Definition same_frame (p p' : TxPacket) : Prop :=
  tp_post p' = tp_post p ∧ tp_cid p' = tp_cid p ∧ tp_cmd p' = tp_cmd p ∧ tp_length p' = tp_length p ∧
  (tp_assign_seq p = false → p' = p) ∧ tp_assign_seq p' = false.
Lemma same_data p p' : same_frame p p' → data_ok p → data_ok p'.
Proof.
  intros (E1 & E2 & E3 & E4 & E5 & E6) [Hf Hv]. unfold data_ok, via_ctrl, tx_frame_ok, peek_connection_id in *. by rewrite E2, E3, E4.
Qed.
Lemma assign_spec p s :
  sizeof_vmux_hdr ≤ tp_length p → same_frame p (tx_assign_seq p s).1 ∧
  ∃ a, (tx_assign_seq p s).2 = set_numbers a (sn_flow_seq s) s.
Proof.
  intros H. unfold tx_assign_seq. assert ((tp_length p <? sizeof_vmux_hdr) = false) as -> by lia.
  destruct (tp_assign_seq p) eqn:E; simpl; unfold same_frame; simpl; [rewrite E; split_and!; try done; by eexists|].
  split_and!; try done. exists (sn_tx_seq s). by destruct s.
Qed.
(** A frame the carrier refused stays in hand, and the carrier leaves the list. *)
Record refused (k : nat) (s s' : Sender) : Prop := {
  rf_drr : sn_drr s' = sn_drr s;
  rf_ctrl : sn_ctrl s' = sn_ctrl s;
  rf_wire : sn_wire s' = sn_wire s;
  rf_closed : sn_closed s' = sn_closed s;
  rf_links : sn_tx_links s' = remove_link k (sn_tx_links s);
}.
Record handed_over (s s' : Sender) : Prop := {
  ac_work : drr_ok (sn_drr s) → (data_work (sn_drr s') ≤ data_work (sn_drr s))%nat;
  ac_ctrl : (length (sn_ctrl s') ≤ length (sn_ctrl s))%nat;
  ac_links : (length (sn_tx_links s') ≤ length (sn_tx_links s))%nat;
}.
Lemma remove_link_le k l : (length (remove_link k l) ≤ length l)%nat.
Proof. apply length_filter. Qed.

Lemma on_wire_snoc w k p again : first_sends (w ++ [(k, p, again)]) = first_sends w ++ (if again : bool then [] else [p]).
Proof. unfold first_sends. rewrite omap_app. by destruct again. Qed.
Lemma underlyin_spec init n again k p s :
  links_ok s → frames_ok init n (on_wire s ++ (if again : bool then [] else [p])) s → sizeof_vmux_hdr ≤ tp_length p ≤ 65535 →
  match underlyin_sent cf content iter again k p s with
  | (true, s') => links_ok s' ∧ frames_ok init n (on_wire s') s' ∧ handed_over s s'
  | (false, s') => ∃ env, s' = set_io (sn_closed s) env (sn_wire s) s
  end.
Proof.
  intros L F Hl. unfold underlyin_sent. destruct (sn_carriers s !! k) as [ca|] eqn:Ek; [|exists (sn_env s); by destruct s].
  destruct (_ || _ || _ || _ || _) eqn:Eg; [exists (sn_env s); by destruct s|].
  apply orb_false_iff in Eg as [Eg _]. apply orb_false_iff in Eg as [_ Ec]. apply negb_false_iff in Ec.
  assert (En : ∃ env, (next_answer s).2 = set_io (sn_closed s) env (sn_wire s) s).
  { unfold next_answer. destruct (sn_env s) as [|b env] eqn:Ee; [exists []; destruct s; simpl in *; by subst|by eexists]. }
  destruct (next_answer s) as [ok s0]. simpl in En. destruct En as [env ->]. destruct ok; simpl; [|by eexists].
  set (s1 := set_io _ _ _ _). set (s2 := upd_carrier _ _ _) in s1. assert (Lq : links_ok s2).
  { apply upd_ok; [by eapply links_ok_eq; [..|exact L]|]. simpl. intros ca'. rewrite Ek. intros [= <-]. split; [done|].
    pose proof (lo_bytes _ L _ _ Ek) as B. unfold link_has_byte_credit, PPP_MUX_LINK_BYTE_HIGH_WATER, sizeof_vmux_hdr in *. simpl.
    case_match; [done|]. case_match; lia. }
  assert (F1 : frames_ok init n (on_wire s ++ (if again then [] else [p])) s1).
  { eapply (frames_same init n _ s); [done|intros ?; by apply F|done]. }
  destruct (track_ok init n _ p (ca_id ca) s1 Hl F1) as [F2 [T1 T2 T3 T4 T5 T6]]. set (s3 := track_sent_frame _ _ _ _ _ _) in *.
  assert (A3 : map_Forall (λ _ p, sizeof_vmux_hdr ≤ tp_length p ≤ 65535) (sn_retained s3)).
  { destruct T6 as [T6|(key & q & -> & Hq)]; [exact (λ i x E, lo_retained _ Lq i x (lookup_weaken _ _ _ _ E T6))|].
    by apply map_Forall_insert_2; [|apply (lo_retained _ Lq)]. }
  assert (L3 : links_ok s3).
  { destruct T2 as [[T2 T2']|[T2 T2']]; [|split; [rewrite T2; by intros k0 ?%not_elem_of_nil|by left|rewrite T2; constructor|rewrite T1; apply Lq|done]].
    destruct Lq as [Q1 Q2 Q3 Q4 Q5]. split; rewrite ?T1, ?T2, ?T2'; done. }
  split; [exact L3|]. split; [|split].
  - unfold on_wire. rewrite T3. simpl. rewrite on_wire_snoc. exact F2.
  - exact T4.
  - exact T5.
  - destruct T2 as [[-> _]|[-> _]]; simpl; lia.
Qed.
Lemma withdraw_full_spec init n k s :
  links_ok s → frames_ok init n (on_wire s) s →
  links_ok (withdraw_full k s) ∧ frames_ok init n (on_wire (withdraw_full k s)) (withdraw_full k s) ∧ same_frames s (withdraw_full k s) ∧
  (length (sn_tx_links (withdraw_full k s)) ≤ length (sn_tx_links s))%nat.
Proof.
  intros L F. unfold withdraw_full. destruct (sn_carriers s !! k) as [ca|]; [|done]. destruct (_ <=? _); [|done].
  destruct (withdraw_ok k s L) as (L2 & E2 & S2 & E5). split_and!; [done| |done|rewrite E2; apply remove_link_le].
  unfold on_wire. rewrite E5. eapply frames_same; [exact S2| |exact F]. intros Hc. rewrite E2. by rewrite (proj2 (proj2 (fo_closed _ _ _ _ F Hc))).
Qed.
Lemma send_on_spec init n k p s :
  links_ok s → frames_ok init n (on_wire s ++ [p]) s → sendable p →
  match tx_send_on cf content iter k p s with
  | (true, _, s') => links_ok s' ∧ frames_ok init n (on_wire s') s' ∧ handed_over s s'
  | (false, p', s') => links_ok s' ∧ frames_ok init n (on_wire s' ++ [p']) s' ∧ refused k s s' ∧ same_frame p p'
  end.
Proof.
  intros L F H. pose proof (sendable_length _ H) as Hl. unfold tx_send_on.
  pose proof (frames_assign init n (on_wire s) s p F) as Fa. destruct (assign_spec p s) as [Hp [a Hs]]; [lia|].
  destruct (tx_assign_seq p s) as [p' s0]. simpl in Fa, Hp, Hs. subst s0. set (s0 := set_numbers _ _ s) in *.
  assert (F0 : frames_ok init n (on_wire s0 ++ [p']) s0) by (apply Fa; destruct H as [?|(_ & _ & ?)]; auto). clear Fa.
  assert (L0 : links_ok s0) by (by eapply links_ok_eq; [..|exact L]).
  pose proof (underlyin_spec init n false k p' s0 L0 F0) as U. destruct (underlyin_sent _ _ _ _ _ _ _) as [[] s1]; simpl.
  - destruct U as (L1 & F1 & [A1 A2 A3]); [destruct Hp as (_ & _ & _ & -> & _); done|].
    destruct (withdraw_full_spec init n k s1 L1 F1) as (L2 & F2 & (E3 & E4 & _) & E5). split; [done|]. split; [done|].
    split; rewrite ?E3, ?E4; try done. change (sn_tx_links s0) with (sn_tx_links s) in A3. lia.
  - destruct U as [env ->]; [destruct Hp as (_ & _ & _ & -> & _); done|]. set (s1 := set_io _ _ _ _).
    assert (L1 : links_ok s1) by (by eapply links_ok_eq; [..|exact L0]).
    destruct (withdraw_ok k s1 L1) as (L2 & E2 & S2 & E5). pose proof S2 as (E3 & E4 & E6 & E7). split; [done|]. split; [|split].
    + unfold on_wire. rewrite E5. eapply (frames_same init n _ s0); [by eapply same_frames_trans; [|exact S2]| |exact F0].
      intros Hc. rewrite E2. simpl. by rewrite (proj2 (proj2 (fo_closed _ _ _ _ F Hc))).
    + by split.
    + done.
Qed.

(** ** The ring, before and after a frame is taken out *)
Lemma ring_iff q c : drr_ok q → c ∈ dr_active q ↔ queue_of c q ≠ [] ∧ c ∉ dr_parked q.
Proof.
  intros I. rewrite (do_ring _ I), (do_parked _ I). pose proof (do_flow _ I c) as F. unfold queue_of, in_ring. rewrite <- (fk_active _ _ F).
  destruct (fx_active _), (fx_rtx_parked _); naive_solver.
Qed.
Lemma frames_count q : drr_ok q → dr_frames q = queued_sum (λ l, Z.of_nat (length l)) q.
Proof. intros I. apply (do_frames _ I). Qed.
Lemma idle_ring q : drr_ok q → dr_frames q ≤ 0 → dr_active q = [].
Proof.
  intros I H. destruct (dr_active q) as [|c ring] eqn:E; [done|]. assert (Hc : c ∈ dr_active q) by (rewrite E; left).
  apply (ring_iff q c I) in Hc as [Hq _]. pose proof (flow_frames_le c q I) as Hl. unfold flow_frames in Hl. fold (queue_of c q) in Hl.
  destruct (queue_of c q); [done|]. simpl in Hl. lia.
Qed.
Lemma shorter_ring (l k : list Z) : NoDup l → (∀ c, c ∈ l → c ∈ k) → (length l ≤ length k)%nat.
Proof. intros N H. by apply submseteq_length, NoDup_submseteq. Qed.
Lemma work_same q q' :
  drr_ok q → drr_ok q' → (∀ c, length (queue_of c q') = length (queue_of c q)) → (∀ c, c ∈ dr_parked q → c ∈ dr_parked q') → (data_work q' ≤ data_work q)%nat.
Proof.
  intros I I' Q P. unfold data_work. rewrite (frames_count _ I), (frames_count _ I'), (queued_sum_ext _ q q') by (intros; by rewrite ?Q).
  assert (length (dr_active q') ≤ length (dr_active q))%nat; [|lia]. apply shorter_ring; [apply (do_ring_once _ I')|].
  intros c. rewrite !ring_iff by done. specialize (Q c). destruct (queue_of c q), (queue_of c q'); naive_solver.
Qed.
Lemma work_pop q q' p : drr_ok q → drr_pop_next q = (Some p, q') → (data_work q' < data_work q)%nat.
Proof.
  intros I E. pose proof (pop_spec _ I) as S. rewrite E in S. destruct S as [I' P]. set (c := peek_connection_id p).
  pose proof (λ c', popped_queue _ _ _ c' P) as Q. fold c in Q. pose proof (Q c) as Qc. rewrite decide_True in Qc by done.
  assert (Ef : dr_frames q' = dr_frames q - 1).
  { rewrite (frames_count _ I), (frames_count _ I'). rewrite (queued_sum_one _ c q q' eq_refl) by (intros c' Hne; by rewrite (Q c'), decide_False).
    rewrite Qc. simpl. lia. }
  assert (Hp : 0 ≤ dr_frames q') by (rewrite (frames_count _ I'); apply flow_sum_nonneg; intros; lia).
  assert (length (dr_active q') ≤ length (dr_active q))%nat; [|unfold data_work; lia]. apply shorter_ring; [apply (do_ring_once _ I')|].
  intros c'. rewrite !ring_iff, Q, (pp_list _ _ _ P) by done. intros [H1 H2]. split; [|done]. by destruct (decide _).
Qed.
Lemma restored_queue q q' p c :
  drr_ok q → drr_pop_next q = (Some p, q') → queue_of c q = (if decide (c = peek_connection_id p) then [p] else []) ++ queue_of c q'.
Proof. intros I E. pose proof (pop_spec _ I) as S. rewrite E in S. destruct S as [_ P]. by apply popped_queue. Qed.
Lemma popped_parked q q' p : drr_ok q → drr_pop_next q = (Some p, q') → dr_parked q' = dr_parked q.
Proof. intros I E. pose proof (pop_spec _ I) as S. rewrite E in S. destruct S as [_ P]. apply P. Qed.
Lemma requeue_parked p q : dr_parked (drr_requeue_front p q) = dr_parked q.
Proof. unfold drr_requeue_front. by case_match. Qed.
Lemma park_work q q' p :
  drr_ok q → drr_pop_next q = (Some p, q') → drr_ok (drr_park_front p q') → (data_work (drr_park_front p q') < data_work q)%nat.
Proof.
  intros I E I2. set (c := peek_connection_id p). set (q2 := drr_park_front p q') in *.
  assert (Q : ∀ c', queue_of c' q2 = queue_of c' q) by (intros c'; unfold q2; by rewrite park_queue, (restored_queue q q' p c' I E)).
  assert (Hin : ∀ c', c' ∈ dr_parked q → c' ∈ dr_parked q2).
  { intros c'. rewrite <- (popped_parked q q' p I E). unfold q2, drr_park_front. set (q1 := drr_requeue_front p q'). case_match; simpl; unfold q1;
      rewrite requeue_parked; [done|]. set_solver. }
  assert (Hc : c ∈ dr_active q).
  { rewrite ring_iff by done. rewrite (restored_queue q q' p c I E), decide_True by done. split; [done|].
    pose proof (pop_spec _ I) as S. rewrite E in S. destruct S as [I' P]. rewrite <- (pp_list _ _ _ P), (do_parked _ I').
    fold c in P. pose proof (pp_parked _ _ _ P) as H. unfold c. by rewrite H. }
  assert (Hc2 : c ∉ dr_active q2) by (unfold q2, drr_park_front; case_match; simpl; apply not_in_removed).
  unfold data_work. rewrite (frames_count _ I), (frames_count _ I2), (queued_sum_ext _ q q2) by (intros; by rewrite ?Q).
  assert (length (c :: dr_active q2) ≤ length (dr_active q))%nat; [|simpl in *; lia]. apply shorter_ring.
  - constructor; [done|apply (do_ring_once _ I2)].
  - intros c' [->|H]%elem_of_cons; [done|]. revert H. rewrite !ring_iff, Q by done. naive_solver.
Qed.

(** ** The drain loops *)
(** Nothing is left to do now: no connection is on the ring, no carrier is offered, or a frame waits for which no offered carrier has
    room. *)
Definition settled (s : Sender) : Prop :=
  dr_active (sn_drr s) = [] ∨ sn_tx_links s = [] ∨
  ∃ c p, c ∈ dr_active (sn_drr s) ∧ head (queue_of c (sn_drr s)) = Some p ∧ ∀ k, k ∈ sn_tx_links s → takes (tp_length p) s k = false.
Lemma striped_cursor count n s : ∃ i, (select_striped count n s).2 = set_cursor i s.
Proof.
  revert s. induction n as [|n IH]; intros s; simpl; [exists (sn_stripe_cursor s); by destruct s|].
  case_match; [by eexists|]. destruct (IH (set_cursor (S (sn_stripe_cursor s)) s)) as [i ->]. by exists i.
Qed.
(** What choosing a carrier may change. *)
Definition rotated (s s' : Sender) : Prop :=
  links_ok s' ∧ same_frames s s' ∧ sn_wire s' = sn_wire s ∧ sn_tx_links s' ≡ₚ sn_tx_links s ∧ sn_carriers s' = sn_carriers s.
Lemma pick_carrier_spec stripe n s :
  links_ok s → sn_closed s = false →
  match pick_carrier stripe n s with
  | (None, s') => rotated s s' ∧ ∀ k, k ∈ sn_tx_links s' → takes n s' k = false
  | (Some k, s') => rotated s s' ∧ k ∈ sn_tx_links s'
  end.
Proof.
  intros L Hs. assert (P : ∀ s0, links_ok s0 → rotated s s0 →
    match tx_link_pick n s0 with
    | (None, s') => rotated s s' ∧ ∀ k, k ∈ sn_tx_links s' → takes n s' k = false
    | (Some k, s') => rotated s s' ∧ k ∈ sn_tx_links s'
    end).
  { intros s0 L0 (_ & R2 & R3 & R4 & R5). pose proof (pick_spec n s0 L0) as S. destruct (tx_link_pick n s0) as [[k|] s'].
    - destruct S as (Hk & _ & l & Hl & ->). split; [|simpl; by rewrite Hl]. split; [by apply set_links_perm_ok|].
      split_and!; try done. simpl. by rewrite Hl.
    - destruct S as [-> S]. done. }
  unfold pick_carrier. destruct stripe; simpl; [|apply P; [done|]; split_and!; done].
  unfold select_striped_linklayer. destruct (striped_cursor (length (sn_rx_links s)) (length (sn_rx_links s)) s) as [i Ei].
  destruct (select_striped _ _ s) as [r s0]. simpl in Ei. subst s0. assert (L0 : links_ok (set_cursor i s)) by (by eapply links_ok_eq; [..|exact L]).
  destruct (ca ← r ≫= _; _) as [k|] eqn:Er; [|apply P; [done|]; split_and!; done].
  apply bind_Some in Er as (ca & (k' & -> & Ek)%bind_Some & H). destruct (ca_in_tx_links ca) eqn:El; [|done]. simpl in H.
  destruct (link_has_byte_credit ca n); [|done]. injection H as ->. split; [split_and!; done|]. simpl.
  destruct (lo_flag _ L) as [?|G]; [congruence|]. by eapply G.
Qed.
Definition sender_ok (init : Z) (n : nat) (s : Sender) : Prop := links_ok s ∧ frames_ok init n (on_wire s) s.
Lemma rotated_frames init n out s s' : rotated s s' → frames_ok init n out s → frames_ok init n out s'.
Proof.
  intros (_ & R2 & _ & R4 & _) F. eapply frames_same; [exact R2| |exact F]. intros Hc. destruct (fo_closed _ _ _ _ F Hc) as (_ & _ & E).
  rewrite E in R4. by apply Permutation_nil_r in R4.
Qed.
Lemma set_drr_links q s : links_ok s → links_ok (set_drr q s).
Proof. by apply links_ok_eq. Qed.
Lemma requeue_in_ring q p : drr_ok q → drr_ok (drr_requeue_front p q) → fx_rtx_parked (flow_of (peek_connection_id p) q) = false →
  peek_connection_id p ∈ dr_active (drr_requeue_front p q).
Proof.
  intros I I' Hk. rewrite ring_iff, requeue_queue, decide_True, requeue_parked by done. split; [done|]. rewrite (do_parked _ I). congruence.
Qed.
(** The data loop ends within its fuel, with nothing left to do. *)
Lemma drain_data_spec init n stripe fuel : ∀ s,
  sender_ok init n s → (data_work (sn_drr s) + length (sn_tx_links s) < fuel)%nat →
  ∃ s', drain_data cf content iter stripe fuel s = Some s' ∧ sender_ok init n s' ∧ settled s'.
Proof.
  induction fuel as [|fuel IH]; intros s [L F] Hm; [lia|]. simpl. case_bool_decide as Et.
  { exists s. split; [done|]. split; [done|]. right. by left. }
  assert (Hs : sn_closed s = false) by (destruct (sn_closed s) eqn:E; [by destruct (fo_closed _ _ _ _ F E) as (_ & _ & ?)|done]).
  pose proof (fo_drr _ _ _ _ F) as I. destruct (0 <? dr_frames (sn_drr s)) eqn:Ef; simpl.
  2:{ exists s. split; [done|]. split; [done|]. left. apply idle_ring; [done|lia]. }
  pose proof (pop_spec _ I) as P. destruct (drr_pop_next (sn_drr s)) as [[p|] q] eqn:E.
  2:{ destruct P as [-> Er]. exists (set_drr (sn_drr s) s). split; [done|]. split; [by destruct s|by left]. }
  destruct (frames_pop _ _ _ _ _ _ F E) as [F1 H1]. pose proof (work_pop _ _ _ I E) as W. set (s1 := set_drr q s) in *.
  assert (L1 : links_ok s1) by (by apply set_drr_links). assert (Hs1 : sn_closed s1 = false) by done. destruct (window_holds cf p s1).
  { apply IH.
    - split; [by apply set_drr_links|]. by apply frames_park.
    - simpl. pose proof (park_work _ _ _ I E (fo_drr _ _ _ _ (frames_park _ _ _ _ _ F1 H1 Hs))). lia. }
  pose proof (pick_carrier_spec stripe (tp_length p) s1 L1 Hs) as C. destruct (pick_carrier stripe (tp_length p) s1) as [[k|] s2].
  - destruct C as [R Hk]. pose proof (rotated_frames _ _ _ _ _ R F1) as F2. pose proof R as (L2 & (E1 & E2 & E3 & E4) & R3 & R4 & R5).
    assert (Ew : on_wire s2 = on_wire s) by (unfold on_wire; by rewrite R3). rewrite <- Ew in F2.
    assert (H2 : sendable p) by (left; apply H1). pose proof (send_on_spec init n k p s2 L2 F2 H2) as S.
    destruct (tx_send_on _ _ _ k p s2) as [[[] p'] s3].
    + destruct S as (L3 & F3 & [A1 A2 A3]). apply IH; [done|]. rewrite E1 in A1. pose proof (A1 (fo_drr _ _ _ _ F1)).
      apply Permutation_length in R4. simpl in *. lia.
    + destruct S as (L3 & F3 & [B1 B2 B3 B4 B5] & G). pose proof G as (G1 & G2 & G3 & G4 & G5 & G6).
      assert (Ep : peek_connection_id p' = peek_connection_id p) by (unfold peek_connection_id; by rewrite G2, G4).
      assert (Hh : in_hand p' s3) by (split; [apply (same_data _ _ G), H1|rewrite Ep, B1, E1; apply H1]).
      assert (Hs3 : sn_closed s3 = false) by congruence. pose proof (frames_requeue _ _ _ _ _ F3 Hh Hs3) as F4. apply IH; [split; [by apply set_drr_links|done]|].
      simpl. rewrite B1, E1 in F4 |- *. simpl in F4 |- *. pose proof (remove_link_shorter k _ Hk) as Hsh. rewrite <- B5 in Hsh. apply Permutation_length in R4.
      assert (data_work (drr_requeue_front p' q) ≤ data_work (sn_drr s))%nat; [|simpl in *; lia].
      apply work_same; [done|exact (fo_drr _ _ _ _ F4)|..].
      * intros c. rewrite requeue_queue, (restored_queue _ _ _ c I E), Ep, !length_app. by case_decide.
      * intros c. by rewrite requeue_parked, (popped_parked _ _ _ I E).
  - destruct C as [R C]. pose proof (rotated_frames _ _ _ _ _ R F1) as F2. pose proof R as (L2 & (E1 & E2 & E3 & E4) & R3 & R4 & R5).
    assert (H2 : in_hand p s2) by (unfold in_hand; rewrite E1; exact H1). assert (Hs2 : sn_closed s2 = false) by congruence.
    pose proof (frames_requeue _ _ _ _ _ F2 H2 Hs2) as F3. eexists. split; [done|]. split; [split; [by apply set_drr_links|]|].
    + unfold on_wire. simpl. by rewrite R3.
    + right; right. exists (peek_connection_id p), p. simpl. rewrite requeue_queue, decide_True by done. split_and!; [|done|exact C].
      apply requeue_in_ring; [apply F2|apply F3|apply H2].
Qed.
(** A priority frame leaves the control queue, and may come back. *)
Lemma frames_numbered_ctrl v p : via_ctrl p = true → frames_numbered v [p] = 0.
Proof. intros H. rewrite frames_numbered_one. unfold numbered. by rewrite H, andb_false_r. Qed.
Lemma frames_ctrl_iff init n out s p rest :
  ctrl_ok p → sn_closed s = false → frames_ok init n out (set_ctrl (p :: rest) s) ↔ frames_ok init n (out ++ [p]) (set_ctrl rest s).
Proof.
  intros Hk Hs. pose proof Hk as (Hv & Hl & Ha). split; intros [F1 F2 F3 F4 F5 F6 F7 F8]; simpl in *; split; simpl; try done; try congruence.
  - by apply Forall_cons in F3 as [_ ?].
  - intros Ho c. specialize (F4 Ho c). by rewrite data_of_app, data_of_none, app_nil_r.
  - by rewrite ctrl_of_app, ctrl_of_one, <- (assoc_L (++)).
  - destruct F6 as (F6a & F6b & F6c). split_and!; [|intros; apply F6b; by right|done]. intros x [Hx|Hx]%elem_of_app; [by apply F6a|].
    apply list_elem_of_singleton in Hx as ->. apply F6b. left.
  - intros Hc _. destruct (F7 Hc Hs) as (m & Em & Hm). exists m. split; [done|]. intros v. rewrite <- Hm, frames_numbered_app, frames_numbered_ctrl by done. lia.
  - by constructor.
  - intros Ho c. specialize (F4 Ho c). by rewrite data_of_app, data_of_none, app_nil_r in F4.
  - by rewrite ctrl_of_app, ctrl_of_one, <- (assoc_L (++)) in F5.
  - destruct F6 as (F6a & F6b & F6c). split_and!; [|intros x [->|Hx]%elem_of_cons|done].
    + intros x Hx. apply F6a, elem_of_app. by left.
    + apply F6a, elem_of_app. right. by apply list_elem_of_singleton.
    + by apply F6b.
  - intros Hc _. destruct (F7 Hc Hs) as (m & Em & Hm). exists m. split; [done|]. intros v. rewrite <- Hm, frames_numbered_app, frames_numbered_ctrl by done. lia.
Qed.
Lemma set_ctrl_links l s : links_ok s → links_ok (set_ctrl l s).
Proof. by apply links_ok_eq. Qed.
Lemma set_ctrl_id s : set_ctrl (sn_ctrl s) s = s.
Proof. by destruct s. Qed.
Lemma drain_ctrl_spec init n fuel : ∀ budget s,
  sender_ok init n s → (length (sn_ctrl s) + length (sn_tx_links s) < fuel)%nat →
  ∃ s', drain_ctrl cf content iter budget fuel s = Some s' ∧ sender_ok init n s'.
Proof.
  induction fuel as [|fuel IH]; intros budget s [L F] Hm; [lia|]. simpl. destruct budget as [|budget]; [by exists s|].
  destruct (sn_ctrl s) as [|p rest] eqn:Ec; [by exists s|].
  assert (Hs : sn_closed s = false) by (destruct (sn_closed s) eqn:E; [destruct (fo_closed _ _ _ _ F E) as (_ & ? & _); congruence|done]).
  assert (Hp : ctrl_ok p) by (pose proof (fo_ctrl _ _ _ _ F) as Fc; rewrite Ec in Fc; by apply Forall_cons in Fc as [? _]).
  pose proof (pick_carrier_spec false (tp_length p) s L Hs) as C. unfold pick_carrier in C. simpl in C.
  destruct (tx_link_pick (tp_length p) s) as [[k|] s2].
  - destruct C as [R Hk]. pose proof (rotated_frames _ _ _ _ _ R F) as F2. pose proof R as (L2 & (E1 & E2 & E3 & E4) & R3 & R4 & R5).
    assert (Ew : on_wire s2 = on_wire s) by (unfold on_wire; by rewrite R3). rewrite <- Ew in F2. assert (Hs2 : sn_closed s2 = false) by congruence.
    assert (F3 : frames_ok init n (on_wire s2 ++ [p]) (set_ctrl rest s2)).
    { apply frames_ctrl_iff; [done..|]. rewrite <- Ec, <- E2, set_ctrl_id. done. }
    pose proof (send_on_spec init n k p (set_ctrl rest s2) (set_ctrl_links rest s2 L2) F3 (or_intror Hp)) as S.
    apply Permutation_length in R4. destruct (tx_send_on _ _ _ k p _) as [[[] p'] s3].
    + destruct S as (L3 & F4 & [A1 A2 A3]). apply IH; [done|]. simpl in *. lia.
    + destruct S as (L3 & F4 & [B1 B2 B3 B4 B5] & (_ & _ & _ & _ & G5 & _)). rewrite G5 in F4 |- * by apply Hp.
      apply IH.
      * split; [by apply set_ctrl_links|]. apply frames_ctrl_iff; [done|by rewrite B4|]. unfold on_wire. by rewrite set_ctrl_id.
      * pose proof (remove_link_shorter k _ Hk) as Hsh. simpl in *. rewrite B5, B2. simpl. lia.
  - destruct C as [R _]. exists s2. split; [done|]. pose proof (rotated_frames _ _ _ _ _ R F) as F2. destruct R as (L2 & _ & R3 & _).
    split; [done|]. unfold on_wire. by rewrite R3.
Qed.
Lemma process_spec init n s :
  sender_ok init n s → ∃ s', process_tx_all cf content iter s = Some s' ∧ sender_ok init n s' ∧ settled s'.
Proof.
  intros H. unfold process_tx_all. destruct (drain_ctrl_spec init n (ctrl_fuel s) (ctrl_budget cf) s H) as (s1 & -> & H1); [unfold ctrl_fuel; lia|].
  cbn [mbind option_bind]. apply (drain_data_spec init n); [done|]. unfold data_fuel, data_work. lia.
Qed.
Lemma process_ok init n s : sender_ok init n s → sender_ok init n (process_tx_all_packets cf content iter s).
Proof. intros H. unfold process_tx_all_packets. by destruct (process_spec init n s H) as (s' & -> & ? & _). Qed.

(** ** Posting a frame *)
Lemma frames_stamp init n out s a m : a = sn_tx_seq s → frames_ok init n out s → frames_ok init n out (set_numbers a m s).
Proof. intros -> F. apply (frames_same init n out s); [done|intros ?; by apply F|done]. Qed.
Lemma drop_oldest_split l l' : drop_oldest l = Some l' → ∃ l1 p l2, l = l1 ++ p :: l2 ∧ l' = l1 ++ l2.
Proof.
  revert l'. induction l as [|p l IH]; intros l'; simpl; [done|]. destruct (droppable p); [intros [= <-]; by exists [], p, l|].
  intros (l0 & E & ->)%fmap_Some. destruct (IH _ E) as (l1 & p' & l2 & -> & ->). by exists (p :: l1), p', l2.
Qed.
Lemma frames_ctrl_drop init n out s l1 p l2 : sn_ctrl s = l1 ++ p :: l2 → frames_ok init n out s → frames_ok init n out (set_ctrl (l1 ++ l2) s).
Proof.
  intros E [F1 F2 F3 F4 F5 F6 F7 F8]. rewrite E in *. split; simpl; try done.
  - apply Forall_app in F3 as [? F3]. apply Forall_cons in F3 as [_ ?]. by apply Forall_app.
  - rewrite (assoc_L (++)), posts_app in F5 |- *. rewrite StronglySorted_app in F5 |- *. simpl in F5. destruct F5 as (H1 & H2 & H3).
    split_and!; [|done|by apply StronglySorted_inv in H3 as [? _]]. intros x y Hx Hy. apply H1; [done|by right].
  - destruct F6 as (F6a & F6b & F6c). split_and!; [done| |done]. intros x Hx. apply F6b. set_solver.
  - intros Hc. destruct (F8 Hc) as (_ & ? & _). by destruct l1.
Qed.
Lemma make_room_ok init n out s l : make_room (sn_ctrl s) = Some l → frames_ok init n out s → frames_ok init n out (set_ctrl l s).
Proof.
  unfold make_room. case_match; [|intros [= <-]; by rewrite set_ctrl_id].
  intros (l1 & x & l2 & E & ->)%drop_oldest_split. by eapply frames_ctrl_drop.
Qed.
Lemma posts_snoc_sorted l p (n : nat) :
  (∀ q, q ∈ l → (tp_post q < n)%nat) → tp_post p = n → StronglySorted lt (posts l) → StronglySorted lt (posts (l ++ [p])).
Proof.
  intros H E S. rewrite posts_app, StronglySorted_app. split_and!; [|done|repeat constructor].
  intros x y Hx Hy. apply list_elem_of_singleton in Hy as ->. apply list_elem_of_fmap in Hx as (q & -> & Hq). rewrite E. by apply H.
Qed.
Lemma ctrl_of_subset l p : p ∈ ctrl_of l → p ∈ l.
Proof. by intros [_ ?]%list_elem_of_filter. Qed.
Lemma flow_data_subset c l p : p ∈ of_flow c (data_of l) → p ∈ l.
Proof. by intros [_ [_ ?]%list_elem_of_filter]%list_elem_of_filter. Qed.
Lemma frames_ctrl_post init n out s p :
  sn_closed s = false → ctrl_ok p → tp_post p = n → frames_ok init n out s → frames_ok init (S n) out (set_ctrl (sn_ctrl s ++ [p]) s).
Proof.
  intros Hs Hp En F. destruct F as [F1 F2 F3 F4 F5 F6 F7 F8]. pose proof F6 as (F6a & F6b & F6c). split; simpl; try done; try congruence.
  - apply Forall_app. split; [done|by constructor].
  - rewrite (assoc_L (++)). apply (posts_snoc_sorted _ _ n); [|done|done]. intros x [Hx%ctrl_of_subset|Hx]%elem_of_app; auto.
  - split_and!; [intros x Hx; specialize (F6a _ Hx); lia| |intros c x Hx; specialize (F6c _ _ Hx); lia].
    intros x [Hx|Hx]%elem_of_app; [specialize (F6b _ Hx); lia|]. apply list_elem_of_singleton in Hx as ->. lia.
Qed.
(** A new frame at the end of its flow. *)
Lemma frames_enqueue init n n0 out s p q :
  sn_closed s = false → data_ok p → tp_post p = n → (compat = true → tp_assign_seq p = true) →
  (in_order = true → n0 = n) → (n0 ≤ S n)%nat → frames_ok init n0 out s →
  drr_ok q → (∀ c, queue_of c q = queue_of c (sn_drr s) ++ (if decide (c = peek_connection_id p) then [p] else [])) →
  frames_ok init (S n) out (set_drr q s).
Proof.
  intros Hs [Hf Hv] En Ha Hn0 Hn [F1 F2 F3 F4 F5 F6 F7 F8] Iq Q. pose proof F6 as (F6a & F6b & F6c). set (cid := peek_connection_id p) in *.
  split; simpl; try done; try congruence.
  - intros c. rewrite Q. apply Forall_app. split; [done|]. case_decide; [by constructor|constructor].
  - intros Ho c. rewrite Q. case_decide; [|rewrite app_nil_r; by apply F4]. rewrite (assoc_L (++)). apply (posts_snoc_sorted _ _ n); [|done|by apply F4].
    rewrite <- (Hn0 Ho). intros x [Hx%flow_data_subset|Hx]%elem_of_app; eauto.
  - split_and!; [intros x Hx; specialize (F6a _ Hx); lia|intros x Hx; specialize (F6b _ Hx); lia|]. intros c x. rewrite Q.
    intros [Hx|Hx]%elem_of_app; [specialize (F6c _ _ Hx); lia|]. case_decide; [|by apply not_elem_of_nil in Hx]. apply list_elem_of_singleton in Hx as ->. lia.
  - intros Hc _. destruct (F7 Hc Hs) as (m & Em & Hm). exists m. split; [done|]. intros v. rewrite <- Hm.
    rewrite (queued_sum_one (frames_numbered v) cid (sn_drr s) q eq_refl) by (intros c' Hne; by rewrite (Q c'), decide_False, app_nil_r).
    rewrite (Q cid), decide_True, frames_numbered_app, frames_numbered_one by done. unfold numbered. rewrite Ha by done. simpl. lia.
Qed.
Lemma frames_drr_same init n out s q :
  sn_closed s = false → drr_ok q → (∀ c, queue_of c q = queue_of c (sn_drr s)) → frames_ok init n out s → frames_ok init n out (set_drr q s).
Proof.
  intros Hs Iq Q [F1 F2 F3 F4 F5 F6 F7 F8]. split; simpl; try done; try congruence; try (setoid_rewrite Q; done).
  intros Hc _. destruct (F7 Hc Hs) as (m & Em & Hm). exists m. split; [done|]. intros v. rewrite <- Hm. f_equal. apply queued_sum_ext; [done|].
  intros c. by rewrite Q.
Qed.
Lemma sender_close_ok init n s : sender_ok init n s → sender_ok init n (sender_close s).
Proof.
  intros [[L G N B A] F]. split; [|by apply frames_close]. split; simpl; [by intros k ?%not_elem_of_nil|by left|constructor|done|apply map_Forall_empty].
Qed.
Lemma enqueue_spec init n n0 s p :
  sn_closed s = false → data_ok p → tp_post p = n → (compat = true → tp_assign_seq p = true) →
  (in_order = true → n0 = n) → (n0 ≤ S n)%nat → sender_ok init n0 s →
  sender_ok init (S n) (enqueue_flow cf iter p s).2.
Proof.
  intros Hs Hp En Ha Hn0 Hn [L F]. unfold enqueue_flow. pose proof (fo_drr _ _ _ _ F) as I. set (cid := peek_connection_id p) in *.
  pose proof (enqueue_ok cid p _ I (proj1 Hp)) as Iq. pose proof (enqueue_queue cid p (sn_drr s)) as Q.
  destruct (enqueue_flow_tx cid p (sn_drr s)) as [ok q]. simpl in Iq, Q. simpl.
  assert (L' : links_ok (set_drr q s)) by (by apply set_drr_links). destruct ok; simpl.
  - split; [done|]. by apply (frames_enqueue init n n0 _ s p q).
  - assert (F' : frames_ok init (S n) (on_wire s) (set_drr q s)).
    { apply (frames_more _ n0); [done|]. apply frames_drr_same; [done|done| |done]. intros c. rewrite Q. case_decide; by rewrite app_nil_r. }
    destruct (cf_flow_v2 cf) eqn:Hv; simpl; [|done].
    pose proof (fail_tracked cid (set_drr q s)) as [_ _ T _ _]. split; [|unfold on_wire; rewrite T; by apply frames_fail].
    unfold fail_flow_tx. rewrite Hv. by eapply links_ok_eq; [..|exact L'].
Qed.
(** A frame that goes out of turn, where the order of the frames is not kept. *)
Lemma frames_aside init n out s p :
  in_order = false → via_ctrl p = false → (tp_post p < n)%nat → frames_ok init n out s ↔ frames_ok init n (out ++ [p]) s.
Proof.
  intros Ho Hv Hn. assert (Hc : compat = false).
  { unfold in_order, compat in *. destruct (cf_flow_v2 cf), (cf_turbo cf); done. }
  split; intros [F1 F2 F3 F4 F5 F6 F7 F8]; split; try done; try congruence.
  - by rewrite ctrl_of_app, ctrl_of_none, app_nil_r.
  - destruct F6 as (F6a & F6b & F6c). split_and!; [|done..]. intros x [Hx|Hx]%elem_of_app; [auto|]. by apply list_elem_of_singleton in Hx as ->.
  - by rewrite ctrl_of_app, ctrl_of_none, app_nil_r in F5.
  - destruct F6 as (F6a & F6b & F6c). split_and!; [|done..]. intros x Hx. apply F6a, elem_of_app. by left.
Qed.
Lemma turbo_spec init n s p :
  sn_closed s = false → data_ok p → tp_post p = n → sender_ok init n s →
  match turbo_syn cf content iter p s with
  | (true, s') => sender_ok init (S n) s'
  | (false, s') => ∃ n0, (in_order = true → n0 = n) ∧ (n0 ≤ S n)%nat ∧ sender_ok init n0 s' ∧ sn_closed s' = false
  end.
Proof.
  intros Hs Hp En H. assert (R : ∃ n0, (in_order = true → n0 = n) ∧ (n0 ≤ S n)%nat ∧ sender_ok init n0 s ∧ sn_closed s = false).
  { exists n. split; [done|]. split; [lia|done]. }
  unfold turbo_syn. destruct (cf_turbo cf && _) eqn:Et; simpl; [|done]. apply andb_true_iff in Et as [Et Ec].
  destruct (ca ← _; _) as [k|]; [|done]. assert (Ho : in_order = false).
  { destruct Hp as [_ Hv]. unfold via_ctrl, is_connection_control, is_per_flow_data, is_reliability_control, is_session_control in Hv.
    apply Z.eqb_eq in Ec. rewrite Ec in Hv. unfold in_order. rewrite Et. by destruct (cf_flow_v2 cf). }
  destruct H as [L F]. apply (frames_more _ _ (S n)) in F; [|lia]. apply (frames_aside _ _ _ _ p) in F; [|done|apply Hp|lia].
  pose proof (send_on_spec init (S n) k p s L F (or_introl Hp)) as S. destruct (tx_send_on _ _ _ k p s) as [[[] p'] s']; simpl.
  - by destruct S as (? & ? & _).
  - destruct S as (L' & F' & [_ _ _ B4 _] & G). exists (S n). split; [congruence|]. split; [lia|]. split; [split; [done|]|congruence].
    apply (frames_aside _ _ _ _ p') in F'; [done|done|apply (same_data p p' G Hp)|]. destruct G as (-> & _). lia.
Qed.
Lemma stamp_spec post cid cmd len completion s :
  sizeof_vmux_hdr ≤ len ≤ 65535 →
  let '(p, prioritize, s') := stamp cf post cid cmd len completion s in
  tp_post p = post ∧ (∃ m, s' = set_numbers (sn_tx_seq s) m s) ∧
  if prioritize then ctrl_ok p else data_ok p ∧ (compat = true → tp_assign_seq p = true).
Proof.
  intros Hl. unfold stamp. assert (Hm : ∃ m, s = set_numbers (sn_tx_seq s) m s) by (exists (sn_flow_seq s); by destruct s).
  assert (Hf : ∀ seq assign, tx_frame_ok (peek_connection_id (mkTxPacket post cid cmd seq len assign completion)) (mkTxPacket post cid cmd seq len assign completion)) by done.
  unfold ctrl_ok, data_ok, via_ctrl, compat. simpl. destruct (is_reliability_control cmd) eqn:Er; simpl; [rewrite Er; done|].
  destruct (cf_flow_v2 cf) eqn:Hv; simpl; [|rewrite Er; simpl; split_and!; try done].
  destruct (is_per_flow_data cmd) eqn:Ed; simpl; rewrite ?Er, ?Ed; simpl; [split; [done|]; split; [by eexists|done]|].
  destruct (is_session_control cmd || is_connection_control cmd) eqn:Es; simpl; rewrite ?Er, ?Ed, ?Es; done.
Qed.
Lemma post_internal_ok init n cid cmd len acceleration completion s :
  sizeof_vmux_hdr ≤ len ≤ 65535 → sender_ok init n s →
  sender_ok init (S n) (post_internal cf content iter n cid cmd len acceleration completion s).2.
Proof.
  intros Hl H. assert (M : ∀ s, sender_ok init n s → sender_ok init (S n) s) by (intros s0 [L F]; split; [done|]; by eapply frames_more; [|done]; lia).
  unfold post_internal. assert ((len <? sizeof_vmux_hdr) = false) as -> by lia. destruct (sn_closed s) eqn:Hs; [by apply M|]. simpl.
  pose proof (stamp_spec n cid cmd len completion s Hl) as S. destruct (stamp _ _ _ _ _ _ _) as [[p prio] s1]. destruct S as (En & (m & ->) & Hp).
  set (s1 := set_numbers _ m s). assert (H1 : sender_ok init n s1).
  { destruct H as [L F]. split; [by eapply links_ok_eq; [..|exact L]|]. by apply frames_stamp. }
  assert (Hs1 : sn_closed s1 = false) by done. clearbody s1. destruct prio.
  - unfold post_ctrl. destruct (make_room (sn_ctrl s1)) as [l|] eqn:El; [|by apply M].
    apply process_ok. destruct H1 as [L F]. split; [by apply set_ctrl_links|].
    apply (frames_ctrl_post init n (on_wire s1) (set_ctrl l s1) p); [done..|]. by apply make_room_ok.
  - destruct Hp as [Hp Ha]. pose proof (turbo_spec init n s1 p Hs1 Hp En H1) as T. destruct (turbo_syn _ _ _ p s1) as [[] s2]; [done|].
    destruct T as (n0 & Hn0 & Hn & H2 & Hs2). unfold post_data. set (p' := if _ : bool then set_completion false p else p).
    assert (Hp' : data_ok p' ∧ tp_post p' = n ∧ tp_assign_seq p' = tp_assign_seq p) by (unfold p'; by destruct (_ && _)).
    destruct Hp' as (Hp' & En' & Ea'). pose proof (enqueue_spec init n n0 s2 p' Hs2 Hp' En') as Q. rewrite Ea' in Q.
    specialize (Q Ha Hn0 Hn H2). destruct (enqueue_flow _ _ p' s2) as [[] s3]; simpl in *; [by apply process_ok|done].
Qed.
Lemma post_ok init n cid cmd len acceleration completion s :
  sizeof_vmux_hdr ≤ len ≤ 65535 → sender_ok init n s →
  sender_ok init (S n) (post_frame cf content iter n cid cmd len acceleration completion s).2.
Proof.
  intros Hl H. pose proof (post_internal_ok init n cid cmd len acceleration completion s Hl H) as P.
  unfold post_frame. destruct (post_internal _ _ _ _ _ _ _ _ _ _) as [ok s']. simpl in P. case_match; [done|]. by apply sender_close_ok.
Qed.

(** ** Every event keeps the invariant *)
Lemma closed_unlisted init n s : sender_ok init n s → sn_closed s = true → sn_tx_links s = [].
Proof. intros [_ F] Hc. apply (fo_closed _ _ _ _ F Hc). Qed.
Lemma sender_same init n s s' :
  sender_ok init n s → links_ok s' → same_frames s s' → sn_wire s' = sn_wire s → (sn_closed s = true → sn_tx_links s' = []) → sender_ok init n s'.
Proof. intros [L F] L' E Ew Hc. split; [done|]. unfold on_wire. rewrite Ew. by eapply frames_same. Qed.
Lemma upd_sender init n k f s :
  sender_ok init n s →
  (∀ ca, sn_carriers s !! k = Some ca → ca_in_tx_links (f ca) = ca_in_tx_links ca ∧ 0 ≤ ca_queued_bytes (f ca) ≤ PPP_MUX_LINK_BYTE_HIGH_WATER) →
  sender_ok init n (upd_carrier k f s).
Proof. intros H Hf. apply (sender_same init n s); [done|by apply upd_ok; [apply H|]|done|done|exact (closed_unlisted init n s H)]. Qed.
(** Changes of a carrier that leave its bytes and its place. *)
Lemma upd_quiet init n k f s :
  sender_ok init n s → (∀ ca, ca_in_tx_links (f ca) = ca_in_tx_links ca ∧ ca_queued_bytes (f ca) = ca_queued_bytes ca) → sender_ok init n (upd_carrier k f s).
Proof. intros H Hf. apply upd_sender; [done|]. intros ca E. destruct (Hf ca) as [-> ->]. split; [done|]. by apply (lo_bytes _ (proj1 H) k). Qed.
Lemma withdraw_sender init n k s : sender_ok init n s → sender_ok init n (tx_link_withdraw k s).
Proof.
  intros H. destruct (withdraw_ok k s (proj1 H)) as (L & E & S & W). apply (sender_same init n s); [done..|].
  intros Hc. by rewrite E, (closed_unlisted _ _ _ H Hc).
Qed.
Lemma offer_sender init n k s : sender_ok init n s → sn_closed s = false → sender_ok init n (tx_link_offer k s).
Proof. intros H Hs. destruct (offer_ok k s (proj1 H)) as (L & S & W). apply (sender_same init n s); [done..|]. congruence. Qed.
Lemma attach_ok init n k s : sn_carriers s !! k = None → sn_closed s = false → sender_ok init n s → sender_ok init n (attach_linklayer k s).
Proof.
  intros Ek Hs H. pose proof H as [[L G N B A] F]. assert (Hk : k ∉ sn_tx_links s) by (intros Hk; destruct (L k Hk) as (ca & E & _); congruence).
  apply (sender_same init n s); [done| |done|done|simpl; congruence]. split; simpl.
  - intros i [Hi|Hi]%elem_of_app.
    + rewrite lookup_insert_ne by (by intros ->). by apply L.
    + apply list_elem_of_singleton in Hi as ->. rewrite lookup_insert_eq. by eexists.
  - destruct G as [G|G]; [by left|right]. intros i ca. rewrite elem_of_app, list_elem_of_singleton. destruct (decide (i = k)) as [->|Hne]; [auto|].
    rewrite lookup_insert_ne by done. eauto.
  - apply NoDup_app. split; [done|]. split; [|apply NoDup_singleton]. intros i Hi Hi'. by apply list_elem_of_singleton in Hi' as ->.
  - intros i ca. destruct (decide (i = k)) as [->|Hne]; [|rewrite lookup_insert_ne by done; apply B].
    rewrite lookup_insert_eq. intros [= <-]. simpl. unfold PPP_MUX_LINK_BYTE_HIGH_WATER. lia.
  - done.
Qed.
(** *** Frames sent again *)
Lemma fail_sender init n cid s : cf_flow_v2 cf = true → sender_ok init n s → sender_ok init n (fail_flow_tx cf iter cid s).
Proof.
  intros Hv [L F]. pose proof (tk_wire _ _ (fail_tracked cid s)) as T. split; [|unfold on_wire; rewrite T; by apply frames_fail].
  unfold fail_flow_tx. rewrite Hv. by apply (links_ok_eq s).
Qed.
Lemma pick_sender init n len s : sender_ok init n s → sender_ok init n (tx_link_pick len s).2.
Proof.
  intros [L F]. pose proof (pick_spec len s L) as S. destruct (tx_link_pick len s) as [[k|] s']; [|by destruct S as [-> _]].
  destruct S as (_ & _ & l & Hl & ->). split; [by apply set_links_perm_ok|]. apply (frames_same init n _ s); [done| |done].
  intros Hc. destruct (fo_closed _ _ _ _ F Hc) as (_ & _ & E). rewrite E in Hl. by apply Permutation_nil_r in Hl.
Qed.
Lemma rtx_sender init n rtx s : sender_ok init n s → sender_ok init n (set_rtx rtx s).
Proof. intros H. apply (sender_same init n s); [exact H|by eapply links_ok_eq; [..|apply H]|done|done|exact (closed_unlisted init n s H)]. Qed.
Lemma pending_sender init n keys s : sender_ok init n s → sender_ok init n (set_rtx_pending keys s).
Proof. intros H. apply (sender_same init n s); [exact H|by eapply links_ok_eq; [..|apply H]|done|done|exact (closed_unlisted init n s H)]. Qed.
Lemma retransmit_keys_ok init n keys : ∀ burst s, sender_ok init n s → sender_ok init n (retransmit_keys cf content iter keys burst s).2.
Proof.
  induction keys as [|key keys IH]; intros burst s H; [done|]. cbn [retransmit_keys].
  assert (IHl : ∀ burst s, sender_ok init n s →
    sender_ok init n (let '(l, s) := retransmit_keys cf content iter keys burst s in (key :: l, s)).2).
  { intros b0 s0 H0. specialize (IH b0 s0 H0). by destruct (retransmit_keys _ _ _ keys b0 s0). }
  destruct (rb_entries (sn_rtx s) !! key) as [e|]; [|by apply IH]. destruct (sn_retained s !! key) as [p|] eqn:Ep; [|by apply IH].
  destruct burst as [|rest]; [by apply IHl|]. destruct (_ && _); [by apply IH|]. destruct (_ <=? _).
  { destruct (cf_flow_v2 cf) eqn:Hv; [by apply IH, fail_sender|by apply sender_close_ok]. }
  pose proof (lo_retained _ (proj1 H) _ _ Ep) as Hl. apply (pick_sender init n (re_length e)) in H.
  destruct (tx_link_pick (re_length e) s) as [[k|] s2]; simpl in H; [|by apply IHl].
  destruct (sn_carriers s2 !! k) as [ca|]; [|by apply IHl]. destruct (negb (schedulable ca)); [by apply IHl|].
  pose proof (underlyin_spec init n true k p s2 (proj1 H)) as U. rewrite app_nil_r in U. specialize (U (proj2 H) Hl).
  destruct (underlyin_sent _ _ _ _ _ _ _) as [[] s3]; cbn [negb].
  - destruct U as (L3 & F4 & _). destruct (withdraw_full_spec init n k s3 L3 F4) as (L4 & F5 & _). by apply IH, rtx_sender.
  - destruct U as [env ->]. apply IHl, withdraw_sender.
    apply (sender_same init n s2); [exact H|by eapply links_ok_eq; [..|apply H]|done|done|exact (closed_unlisted init n s2 H)].
Qed.
Lemma retransmit_ok init n s : sender_ok init n s → sender_ok init n (retransmit_pending cf content iter s).
Proof.
  intros H. unfold retransmit_pending. case_match; [done|].
  pose proof (retransmit_keys_ok init n (sn_pending s) PPP_MUX_RELIABILITY_RXT_BURST s H) as R.
  destruct (retransmit_keys _ _ _ _ _ _) as [l s']. simpl in R. destruct (sn_closed s'); [done|by apply pending_sender].
Qed.
Lemma reinject_ok init n k s : sender_ok init n s → sender_ok init n (reinject_link_inflight cf content iter k s).
Proof.
  intros H. unfold reinject_link_inflight. destruct (sn_carriers s !! k) as [ca|]; [|done]. case_match; [done|].
  destruct (Rtx_TakeLinkInflight _ _) as [keys rtx]. case_bool_decide; [by apply pending_sender, rtx_sender|].
  by apply retransmit_ok, pending_sender, rtx_sender.
Qed.
Lemma unpark_clear : drr_unpark_all clear_flow_tx = (false, clear_flow_tx).
Proof. done. Qed.
Lemma resume_ok init n s : sender_ok init n s → sender_ok init n (resume_parked cf content iter s).
Proof.
  intros H. unfold resume_parked. destruct (sn_closed s) eqn:Hs.
  - destruct (fo_closed _ _ _ _ (proj2 H) Hs) as (E & _). rewrite E, unpark_clear, <- E. by destruct s.
  - pose proof (fo_drr _ _ _ _ (proj2 H)) as I. pose proof (unpark_all_ok (sn_drr s) I) as Iq.
    pose proof (unpark_queue (sn_drr s)) as Q. destruct (drr_unpark_all (sn_drr s)) as [b q]. simpl in Iq, Q.
    assert (H2 : sender_ok init n (set_drr q s)) by (destruct H as [L F]; split; [by apply set_drr_links|by apply frames_drr_same]).
    destruct b; [by apply process_ok|done].
Qed.
Lemma ack_blocks_ok init n blocks : ∀ s, sender_ok init n s → sender_ok init n (fold_left (ack_block cf iter) blocks s).
Proof.
  induction blocks as [|[block threshold] blocks IH]; intros s H; [done|]. apply IH. unfold ack_block.
  destruct (Rtx_Ack _ _ _ _ _ _ _ _) as [[[sample link] candidates] rtx]. destruct (cf_rtx_fast cf); [by apply pending_sender, rtx_sender|by apply rtx_sender].
Qed.
Lemma ack_ok init n blocks s : sender_ok init n s → sender_ok init n (packet_input_ack cf content iter blocks s).
Proof.
  intros H. unfold packet_input_ack. case_match; [done|]. pose proof (retransmit_ok init n _ (ack_blocks_ok init n blocks s H)) as R.
  case_match; [by apply resume_ok|done].
Qed.
Lemma reliability_tick_ok init n pto s : sender_ok init n s → sender_ok init n (reliability_tick cf content iter pto s).
Proof.
  intros H. unfold reliability_tick. case_match; [done|]. apply resume_ok, retransmit_ok. destruct (cf_rtx_pto cf); [by apply pending_sender|done].
Qed.
Lemma add_ok init n k linked established s : sender_ok init n s → sender_ok init n (add_linklayer cf k linked established s).
Proof.
  intros H. unfold add_linklayer. destruct (sn_carriers s !! k) as [ca|] eqn:Ek; [done|]. destruct (sn_closed s) eqn:Hs; [done|].
  destruct linked; simpl; [|done]. destruct (_ <=? _); [done|]. pose proof (attach_ok init n k s Ek Hs H).
  destruct established; [by apply withdraw_sender|done].
Qed.
Lemma exit_ok init n k s : sender_ok init n s → sender_ok init n (on_link_exit cf content iter k s).
Proof.
  intros H. unfold on_link_exit. destruct (sn_carriers s !! k) as [ca|]; [|done]. destruct (sn_closed s) eqn:Hs; [done|].
  destruct (ca_exited ca); [done|]. cbn [orb]. set (s1 := upd_carrier k _ s). assert (H1 : sender_ok init n s1) by (by apply upd_quiet).
  assert (H2 : sender_ok init n (upd_carrier k (ca_set_linked false) (remove_linklayer k s1))).
  { apply upd_quiet; [|done]. unfold remove_linklayer. apply withdraw_sender. apply (sender_same init n s1); [exact H1| |done|done|].
    - by eapply links_ok_eq; [..|apply H1].
    - intros Hc. by apply (closed_unlisted _ _ _ H1). }
  case_match; [by apply sender_close_ok|by apply process_ok, reinject_ok].
Qed.
Lemma event_ok init n e s :
  send_event_ok e → sender_ok init n s →
  sender_ok init (if is_post e then S n else n) (send_event cf content iter n e s).
Proof.
  intros V H. destruct e as [cid cmd len acc comp|k linked runtime|k id|k|k linked has srtt la|k|k len|k ok|k|cmd len|blocks|pto|env|now|]; simpl.
  - by apply post_ok.
  - by apply add_ok.
  - by apply upd_quiet.
  - unfold carrier_ready. destruct (sn_carriers s !! k); [|done]. destruct (sn_closed s) eqn:Hs; [done|]. simpl. case_match; [done|].
    by apply process_ok, offer_sender.
  - by apply upd_quiet.
  - by apply withdraw_sender, upd_quiet.
  - apply upd_sender; [done|]. intros ca E. simpl. pose proof (lo_bytes _ (proj1 H) k ca E). split; [done|]. simpl in V. case_match; lia.
  - unfold write_completed. destruct (sn_carriers s !! k); [|done]. destruct (sn_closed s) eqn:Hs; [done|]. case_match; [by apply process_ok|].
    destruct ok; simpl; [by apply process_ok, offer_sender|by apply exit_ok].
  - by apply exit_ok.
  - by apply post_internal_ok.
  - by apply ack_ok.
  - by apply reliability_tick_ok.
  - apply (sender_same init n s); [exact H|by eapply links_ok_eq; [..|apply H]|done|done|exact (closed_unlisted init n s H)].
  - apply (sender_same init n s); [exact H|by eapply links_ok_eq; [..|apply H]|done|done|exact (closed_unlisted init n s H)].
  - case_match; [done|by apply sender_close_ok].
Qed.
Lemma run_ok init es : Forall send_event_ok es → sender_ok init (sr_posts (send_run cf content iter init es)) (sr_sender (send_run cf content iter init es)).
Proof.
  unfold send_run. assert (H0 : sender_ok init 0 (Sender_new init)).
  { split; split; simpl; try done; try by intros k ?%not_elem_of_nil.
    - right. intros k ca. by rewrite lookup_empty.
    - constructor.
    - apply drr_clear_ok.
    - intros Ho c. rewrite clear_queue. constructor.
    - constructor.
    - split_and!; [by intros p ?%not_elem_of_nil..|]. intros c p. rewrite clear_queue. by intros ?%not_elem_of_nil.
    - intros _ _. by exists 0%nat. }
  assert (G : ∀ m, sender_ok init (sr_posts m) (sr_sender m) → Forall send_event_ok es →
    sender_ok init (sr_posts (fold_left (send_step cf content iter) es m)) (sr_sender (fold_left (send_step cf content iter) es m))).
  { induction es as [|e es IH]; intros m H V; simpl; [done|]. apply Forall_cons in V as [V1 V]. apply IH; [|done].
    pose proof (event_ok init (sr_posts m) e (sr_sender m) V1 H) as E. by destruct e. }
  by apply G.
Qed.

(** ** What is sent again *)
(** Every frame retained, and every frame sent again, was sent before; without reliability there are none. *)
Record log_ok (s : Sender) : Prop := {
  lg_retained : ∀ key p, sn_retained s !! key = Some p → p ∈ on_wire s;
  lg_again : ∀ earlier k p later, sn_wire s = earlier ++ (k, p, true) :: later → cf_reliability cf = true ∧ p ∈ first_sends earlier;
  lg_reliable : cf_reliability cf = false → sn_retained s = ∅;
}.
Definition quiet (s s' : Sender) : Prop := sn_wire s' = sn_wire s ∧ sn_retained s' ⊆ sn_retained s.
Lemma log_quiet s s' : quiet s s' → log_ok s → log_ok s'.
Proof.
  intros [Ew Er] [L1 L2 L3]. split.
  - intros key p E. unfold on_wire. rewrite Ew. by apply (L1 key), (lookup_weaken _ _ _ _ E Er).
  - rewrite Ew. exact L2.
  - intros Hr. apply map_empty. intros key. destruct (sn_retained s' !! key) as [p|] eqn:E; [|done].
    pose proof (lookup_weaken _ _ _ _ E Er) as E'. by rewrite (L3 Hr), lookup_empty in E'.
Qed.
Lemma same_log s s' : log_ok s → sn_wire s' = sn_wire s → sn_retained s' = sn_retained s → log_ok s'.
Proof. intros L Ew Er. apply (log_quiet s); [|done]. split; [done|by rewrite Er]. Qed.
Lemma withdraw_quiet k s : quiet s (tx_link_withdraw k s).
Proof. unfold tx_link_withdraw. repeat case_match; done. Qed.
Lemma offer_quiet k s : quiet s (tx_link_offer k s).
Proof. unfold tx_link_offer. repeat case_match; done. Qed.
Lemma withdraw_full_quiet k s : quiet s (withdraw_full k s).
Proof. unfold withdraw_full. repeat case_match; try done. apply withdraw_quiet. Qed.
Lemma pick_quiet len s : quiet s (tx_link_pick len s).2.
Proof. unfold tx_link_pick. repeat case_match; done. Qed.
Lemma pick_carrier_quiet stripe len s : quiet s (pick_carrier stripe len s).2.
Proof.
  unfold pick_carrier, select_striped_linklayer. destruct stripe; simpl; [|apply pick_quiet].
  destruct (striped_cursor (length (sn_rx_links s)) (length (sn_rx_links s)) s) as [i E]. destruct (select_striped _ _ s) as [o s0].
  simpl in E. subst s0. case_match; [done|]. apply (pick_quiet len (set_cursor i s)).
Qed.
Lemma close_quiet s : quiet s (sender_close s).
Proof. split; [done|apply map_empty_subseteq]. Qed.
Lemma fail_quiet cid s : quiet s (fail_flow_tx cf iter cid s).
Proof. unfold fail_flow_tx. by destruct (cf_flow_v2 cf). Qed.

Lemma track_log p l s : p ∈ on_wire s → log_ok s → log_ok (track_sent_frame cf content iter p l s).
Proof.
  intros Hp L. unfold track_sent_frame. destruct (rtx_charge_bytes cf p s =? 0) eqn:Ec; [done|].
  case_match; [exact (log_quiet _ _ (fail_quiet _ s) L)|]. destruct (Rtx_Track _ _ _ _ _ _ _ _) as [[] rtx].
  - destruct L as [L1 L2 L3]. split; [|done|].
    + simpl. intros key q [[_ <-]|[_ E]]%lookup_insert_Some; [done|by eapply L1].
    + intros Hr. unfold rtx_charge_bytes in Ec. rewrite Hr in Ec. done.
  - destruct (cf_flow_v2 cf); [exact (log_quiet _ _ (fail_quiet _ s) L)|exact (log_quiet _ _ (close_quiet s) L)].
Qed.
Lemma underlyin_log again k p s :
  (again = true → cf_reliability cf = true ∧ p ∈ on_wire s) → log_ok s → log_ok (underlyin_sent cf content iter again k p s).2.
Proof.
  intros Ha L. unfold underlyin_sent. destruct (sn_carriers s !! k) as [ca|]; [|done]. case_match; [done|].
  assert (Q : quiet s (next_answer s).2) by (unfold next_answer; by destruct (sn_env s)).
  assert (Qw : sn_wire (next_answer s).2 = sn_wire s) by apply Q. assert (Qr : sn_retained (next_answer s).2 = sn_retained s).
  { unfold next_answer. by destruct (sn_env s). }
  destruct (next_answer s) as [ok s0]. simpl in Q, Qw, Qr. destruct ok; [|exact (log_quiet _ _ Q L)]. cbn [negb]. apply track_log.
  - unfold on_wire. simpl. rewrite Qw, on_wire_snoc. destruct again; [|apply elem_of_app; right; by apply list_elem_of_singleton].
    apply elem_of_app. left. by apply Ha.
  - destruct L as [L1 L2 L3]. split.
    + intros key q. unfold on_wire. simpl. rewrite Qw, Qr, on_wire_snoc. intros E. apply elem_of_app. left. by eapply L1.
    + simpl. rewrite Qw. intros earlier k' p' later E. destruct later as [|z later _] using rev_ind.
      * apply app_inj_tail in E as [<- [= -> -> ->]]. by apply Ha.
      * rewrite app_comm_cons, (assoc_L (++)) in E. apply app_inj_tail in E as [E _]. by eapply L2.
    + simpl. rewrite Qr. done.
Qed.
Lemma send_on_log k p s : log_ok s → log_ok (tx_send_on cf content iter k p s).2.
Proof.
  intros L. unfold tx_send_on. assert (La : log_ok (tx_assign_seq p s).2) by (unfold tx_assign_seq; case_match; [done|by apply (same_log _ _ L)]).
  destruct (tx_assign_seq p s) as [p' s0]. pose proof (underlyin_log false k p' s0 ltac:(done) La) as U.
  destruct (underlyin_sent _ _ _ _ _ _ _) as [[] s1]; simpl in *; [by eapply log_quiet, U; apply withdraw_full_quiet|].
  by eapply log_quiet, U; apply withdraw_quiet.
Qed.
Lemma data_log stripe fuel : ∀ s s', log_ok s → drain_data cf content iter stripe fuel s = Some s' → log_ok s'.
Proof.
  induction fuel as [|fuel IH]; intros s s' L; [done|]. cbn [drain_data]. case_match; [by intros [= <-]|].
  destruct (drr_pop_next (sn_drr s)) as [[p|] q]; [|by intros [= <-]; by apply (same_log _ _ L)].
  assert (L1 : log_ok (set_drr q s)) by (by apply (same_log _ _ L)).
  case_match; [by apply IH, (same_log _ _ L1)|]. apply (log_quiet _ _ (pick_carrier_quiet stripe (tp_length p) _)) in L1.
  destruct (pick_carrier _ _ _) as [[k|] s2]; simpl in L1; [|by intros [= <-]; apply (same_log _ _ L1)].
  apply (send_on_log k p) in L1. destruct (tx_send_on _ _ _ _ _ _) as [[[] p'] s3]; by apply IH, (same_log _ _ L1).
Qed.
Lemma ctrl_log fuel : ∀ budget s s', log_ok s → drain_ctrl cf content iter budget fuel s = Some s' → log_ok s'.
Proof.
  induction fuel as [|fuel IH]; intros budget s s' L; [done|]. cbn [drain_ctrl]. destruct budget as [|budget]; [by intros [= <-]|].
  destruct (sn_ctrl s) as [|p rest]; [by intros [= <-]|]. apply (log_quiet _ _ (pick_quiet (tp_length p) s)) in L.
  destruct (tx_link_pick _ _) as [[k|] s2]; simpl in L; [|by intros [= <-]].
  assert (L1 : log_ok (set_ctrl rest s2)) by (by apply (same_log _ _ L)).
  apply (send_on_log k p) in L1. destruct (tx_send_on _ _ _ _ _ _) as [[[] p'] s3]; by apply IH, (same_log _ _ L1).
Qed.
Lemma process_log s : log_ok s → log_ok (process_tx_all_packets cf content iter s).
Proof.
  intros L. unfold process_tx_all_packets, process_tx_all. destruct (drain_ctrl _ _ _ _ _ s) as [s1|] eqn:E; [|done]. cbn [mbind option_bind].
  apply ctrl_log in E; [|done]. destruct (drain_data _ _ _ _ _ s1) as [s2|] eqn:E2; [|done]. by eapply data_log.
Qed.
Lemma resume_log s : log_ok s → log_ok (resume_parked cf content iter s).
Proof. intros L. unfold resume_parked. destruct (drr_unpark_all _) as [[] q]; [by apply process_log, (same_log _ _ L)|by apply (same_log _ _ L)]. Qed.
Lemma retransmit_keys_log keys : ∀ burst s, log_ok s → log_ok (retransmit_keys cf content iter keys burst s).2.
Proof.
  induction keys as [|key keys IH]; intros burst s L; [done|]. cbn [retransmit_keys].
  assert (IHl : ∀ burst s, log_ok s → log_ok (let '(l, s) := retransmit_keys cf content iter keys burst s in (key :: l, s)).2).
  { intros b0 s0 L0. specialize (IH b0 s0 L0). by destruct (retransmit_keys _ _ _ keys b0 s0). }
  destruct (rb_entries (sn_rtx s) !! key) as [e|]; [|by apply IH]. destruct (sn_retained s !! key) as [p|] eqn:Ep; [|by apply IH].
  destruct burst as [|rest]; [by apply IHl|]. destruct (_ && _); [by apply IH|]. destruct (_ <=? _).
  { destruct (cf_flow_v2 cf); [apply IH; exact (log_quiet _ _ (fail_quiet _ s) L)|exact (log_quiet _ _ (close_quiet s) L)]. }
  assert (Hp : cf_reliability cf = true ∧ p ∈ on_wire s).
  { split; [|by eapply (lg_retained _ L)]. destruct (cf_reliability cf) eqn:Hr; [done|]. by rewrite (lg_reliable _ L Hr), lookup_empty in Ep. }
  pose proof (pick_quiet (re_length e) s) as Q. pose proof (log_quiet _ _ Q L) as L2. destruct (tx_link_pick (re_length e) s) as [[k|] s2]; simpl in Q, L2; [|by apply IHl].
  destruct (sn_carriers s2 !! k) as [ca|]; [|by apply IHl]. destruct (negb (schedulable ca)); [by apply IHl|].
  assert (Hp2 : true = true → cf_reliability cf = true ∧ p ∈ on_wire s2) by (intros _; unfold on_wire; rewrite (proj1 Q); exact Hp).
  pose proof (underlyin_log true k p s2 Hp2 L2) as U. destruct (underlyin_sent _ _ _ _ _ _ _) as [[] s3]; cbn [negb]; simpl in U.
  - apply IH, (same_log (withdraw_full k s3)); [|done..]. exact (log_quiet _ _ (withdraw_full_quiet k s3) U).
  - apply IHl. exact (log_quiet _ _ (withdraw_quiet k s3) U).
Qed.
Lemma retransmit_log s : log_ok s → log_ok (retransmit_pending cf content iter s).
Proof.
  intros L. unfold retransmit_pending. case_match; [done|].
  pose proof (retransmit_keys_log (sn_pending s) PPP_MUX_RELIABILITY_RXT_BURST s L) as R.
  destruct (retransmit_keys _ _ _ _ _ _) as [l s']. destruct (sn_closed s'); [done|by apply (same_log _ _ R)].
Qed.
Lemma reinject_log k s : log_ok s → log_ok (reinject_link_inflight cf content iter k s).
Proof.
  intros L. unfold reinject_link_inflight. destruct (sn_carriers s !! k) as [ca|]; [|done]. case_match; [done|].
  destruct (Rtx_TakeLinkInflight _ _) as [keys rtx]. case_bool_decide; [by apply (same_log _ _ L)|].
  apply retransmit_log. by apply (same_log _ _ L).
Qed.
Lemma exit_log k s : log_ok s → log_ok (on_link_exit cf content iter k s).
Proof.
  intros L. unfold on_link_exit. destruct (sn_carriers s !! k) as [ca|]; [|done]. case_match; [done|].
  set (s1 := upd_carrier k (ca_set_linked false) _). assert (L1 : log_ok s1).
  { apply (log_quiet s); [|done]. unfold s1, remove_linklayer. exact (withdraw_quiet k (set_links (remove_link k (sn_rx_links s)) (sn_tx_links s) (upd_carrier k (ca_set_retiring true) s))). }
  case_match; [exact (log_quiet _ _ (close_quiet s1) L1)|by apply process_log, reinject_log].
Qed.
Lemma post_internal_log n cid cmd len acceleration completion s :
  log_ok s → log_ok (post_internal cf content iter n cid cmd len acceleration completion s).2.
Proof.
  intros L. unfold post_internal. case_match; [done|]. assert (L1 : log_ok (stamp cf n cid cmd len completion s).2).
  { unfold stamp. repeat case_match; try done; by apply (same_log _ _ L). }
  destruct (stamp _ _ _ _ _ _ _) as [[p prio] s1]. simpl in L1. destruct prio.
  - unfold post_ctrl. destruct (make_room _); [|done]. apply process_log. by apply (same_log _ _ L1).
  - assert (L2 : log_ok (turbo_syn cf content iter p s1).2).
    { unfold turbo_syn. case_match; [done|]. case_match; [|done]. pose proof (send_on_log n0 p s1 L1) as S. by destruct (tx_send_on _ _ _ _ _ _) as [[? ?] ?]. }
    destruct (turbo_syn _ _ _ _ s1) as [[] s2]; [done|]. unfold post_data, enqueue_flow. simpl in L2. destruct (enqueue_flow_tx _ _ _) as [ok q].
    assert (L3 : log_ok (set_drr q s2)) by (by apply (same_log _ _ L2)). destruct ok; simpl; [by apply process_log|].
    destruct (negb (cf_flow_v2 cf)); [done|]. exact (log_quiet _ _ (fail_quiet _ _) L3).
Qed.
Lemma ack_blocks_log blocks : ∀ s, log_ok s → log_ok (fold_left (ack_block cf iter) blocks s).
Proof.
  induction blocks as [|[block threshold] blocks IH]; intros s L; [done|]. apply IH. unfold ack_block.
  destruct (Rtx_Ack _ _ _ _ _ _ _ _) as [[[sample link] candidates] rtx]. destruct (cf_rtx_fast cf); by apply (same_log _ _ L).
Qed.
Lemma event_log n e s : log_ok s → log_ok (send_event cf content iter n e s).
Proof.
  intros L. destruct e as [cid cmd len acc comp|k linked runtime|k id|k|k linked has srtt la|k|k len|k ok|k|cmd len|blocks|pto|env|now|]; simpl;
    try by apply (same_log _ _ L).
  - unfold post_frame. pose proof (post_internal_log n cid cmd len acc comp s L) as P. destruct (post_internal _ _ _ _ _ _ _ _ _ _) as [ok s'].
    case_match; [done|]. exact (log_quiet _ _ (close_quiet s') P).
  - unfold add_linklayer. case_match; [done|]. case_match; [done|]. case_match; [|by apply (same_log _ _ L)]. apply (log_quiet s); [|done].
    exact (withdraw_quiet k (attach_linklayer k s)).
  - unfold carrier_ready. case_match; [|done]. case_match; [done|]. apply process_log. exact (log_quiet _ _ (offer_quiet k s) L).
  - apply (log_quiet s); [|done]. exact (withdraw_quiet k (upd_carrier k (λ ca, ca_set_retiring (ca_exited ca) ca) s)).
  - unfold write_completed. case_match; [|done]. case_match; [done|]. case_match; [by apply process_log|]. case_match; [by apply exit_log|].
    apply process_log. exact (log_quiet _ _ (offer_quiet k s) L).
  - by apply exit_log.
  - by apply post_internal_log.
  - unfold packet_input_ack. case_match; [done|]. pose proof (retransmit_log _ (ack_blocks_log blocks s L)). case_match; [by apply resume_log|done].
  - unfold reliability_tick. case_match; [done|]. apply resume_log, retransmit_log. destruct (cf_rtx_pto cf); [|done].
    by apply (same_log _ _ L).
  - case_match; [done|]. exact (log_quiet _ _ (close_quiet s) L).
Qed.
Lemma run_log init es : log_ok (sr_sender (send_run cf content iter init es)).
Proof.
  unfold send_run. assert (G : ∀ m, log_ok (sr_sender m) → log_ok (sr_sender (fold_left (send_step cf content iter) es m))).
  { induction es as [|e es IH]; intros m L; [done|]. apply IH. by apply event_log. }
  apply G. split; [by intros key p|by intros [|? ?]|done].
Qed.
End Runs.

Lemma next_numbers init m : 0 ≤ init < 2 ^ 32 → Nat.iter m next_number init = (init + Z.of_nat m) mod 2 ^ 32.
Proof.
  intros H. induction m as [|m IH]; [simpl; rewrite Z.mod_small; lia|]. cbn [Nat.iter nat_rect]. fold (Nat.iter m next_number init). rewrite IH. unfold next_number, wrap.
  rewrite Zplus_mod_idemp_l. f_equal. lia.
Qed.
Lemma times_numbers v init m :
  0 ≤ init < 2 ^ 32 → times v (numbers init m) = Z.of_nat (length (filter (λ i, (init + Z.of_nat i) mod 2 ^ 32 = v) (seq 0 m))).
Proof.
  intros H. unfold times, numbers. f_equal. induction (seq 0 m) as [|i l IH]; [done|]. csimpl.
  rewrite !filter_cons, next_numbers by done. by case_decide; simpl; rewrite IH.
Qed.

(** C5: draining the transmit queues, after any sequence of posts of frames of legal size, carriers attached, ready, refusing,
    completing, failing and retiring, acknowledgements, and retransmissions: the loops end within the fuel of the model, and they end only when no
    connection is on the ring, or no carrier is offered, or the first frame of a connection of the ring does not fit any offered
    carrier, each of which is retiring or has more bytes in flight than the budget leaves; and no carrier's bytes in flight ever
    pass the budget. *)
Theorem send_drains cf content iter init es :
  Forall send_event_ok es →
  let s := sr_sender (send_run cf content iter init es) in
  ∃ s', process_tx_all cf content iter s = Some s' ∧
    (dr_active (sn_drr s') = [] ∨ sn_tx_links s' = [] ∨
     ∃ c p, c ∈ dr_active (sn_drr s') ∧ head (queue_of c (sn_drr s')) = Some p ∧
       ∀ k, k ∈ sn_tx_links s' → ∃ ca, sn_carriers s' !! k = Some ca ∧
         (ca_retiring ca = true ∨ PPP_MUX_LINK_BYTE_HIGH_WATER < ca_queued_bytes ca + tp_length p)) ∧
    (∀ k ca, sn_carriers s !! k = Some ca ∨ sn_carriers s' !! k = Some ca → 0 ≤ ca_queued_bytes ca ≤ PPP_MUX_LINK_BYTE_HIGH_WATER).
Proof.
  intros V s. pose proof (run_ok cf content iter init es V) as H. fold s in H.
  destruct (process_spec cf content iter _ _ s H) as (s' & E & [L F] & D). exists s'. split; [done|]. split.
  - destruct D as [D|[D|(c & p & Hc & Hp & D)]]; [by left|right; by left|right; right]. exists c, p. split; [done|]. split; [done|].
    intros k Hk. destruct (lo_listed _ L k Hk) as (ca & Ek & _). exists ca. split; [done|]. specialize (D k Hk). unfold takes in D. rewrite Ek in D.
    destruct (ca_retiring ca); [by left|right]. simpl in D. unfold link_has_byte_credit in D.
    assert (Hl : sizeof_vmux_hdr ≤ tp_length p ≤ 65535).
    { pose proof (fk_frames _ _ (do_flow _ (fo_drr _ _ _ _ _ F) c)) as Ff. change (fx_queue (flow_of c (sn_drr s'))) with (queue_of c (sn_drr s')) in Ff.
      destruct (queue_of c (sn_drr s')); [done|]. injection Hp as ->. by apply Forall_cons in Ff as [[_ ?] _]. }
    unfold sizeof_vmux_hdr, PPP_MUX_LINK_BYTE_HIGH_WATER in *. repeat case_match; lia.
  - intros k ca [Ek|Ek]; [by apply (lo_bytes _ (proj1 H) k)|by apply (lo_bytes _ L k)].
Qed.

(** C4: the frames of a session, over the same events, which include acknowledgements, the exits of carriers and the ticks that make
    frames go out again.  Of the frames sent for the first time: unless the first frames of connections go out of turn, the data
    frames of a connection that were sent and those still queued are in the order of their posts, each once; so are the priority
    frames; and in the compatible ordering, without such out of turn frames, the numbers on the frames sent and queued are the numbers
    given since the start, each on one frame: the receiver, which waits for every number, waits for none that was dropped.  Of the
    frames sent again: each is a frame that was sent before, unchanged, with its number; and there are none unless the session is
    reliable. *)
Theorem send_order cf content iter init es :
  Forall send_event_ok es → 0 ≤ init < 2 ^ 32 →
  let s := sr_sender (send_run cf content iter init es) in
  (cf_flow_v2 cf = true ∨ cf_turbo cf = false →
   ∀ c, StronglySorted lt (posts (of_flow c (data_of cf (on_wire s)) ++ queue_of c (sn_drr s)))) ∧
  StronglySorted lt (posts (ctrl_of cf (on_wire s) ++ sn_ctrl s)) ∧
  (cf_flow_v2 cf = false → cf_turbo cf = false → sn_closed s = false →
   ∃ m, sn_tx_seq s = (init + Z.of_nat m) mod 2 ^ 32 ∧
     ∀ v, frames_numbered cf v (on_wire s) + queued_sum (frames_numbered cf v) (sn_drr s) =
       Z.of_nat (length (filter (λ i, (init + Z.of_nat i) mod 2 ^ 32 = v) (seq 0 m)))) ∧
  (∀ earlier k p later, sn_wire s = earlier ++ (k, p, true) :: later → cf_reliability cf = true ∧ p ∈ first_sends earlier).
Proof.
  intros V Hi s. destruct (run_ok cf content iter init es V) as [_ F]. fold s in F. split_and!.
  - intros Ht. apply (fo_order _ _ _ _ _ F). unfold in_order. destruct (cf_flow_v2 cf), (cf_turbo cf); naive_solver.
  - apply (fo_ctrl_order _ _ _ _ _ F).
  - intros Hv Ht Hc. destruct (fo_numbers _ _ _ _ _ F) as (m & Em & Hm); [unfold compat; by rewrite Hv, Ht|done|].
    exists m. rewrite Em, next_numbers by done. split; [done|]. intros v. by rewrite Hm, times_numbers.
  - apply (lg_again _ _ (run_log cf content iter init es)).
Qed.

Definition send_config (v2 turbo : bool) : TxConfig := mkTxConfig mux_mode_compat v2 false turbo false 0 0 0 0 8 false false 8.
Definition send_demo (cf : TxConfig) (es : list SendEvent) : Sender := sr_sender (send_run cf (λ _, []) map_to_list 7 es).
Definition two_carriers : list SendEvent :=
  [SndAttach 0 true false; SndAttach 1 true false; SndHandshake 0 1; SndHandshake 1 2].
(** Six frames of 60000 bytes are posted on two connections; the first carrier refuses the first, and the other takes four. *)
Definition demo_posts : list SendEvent :=
  two_carriers ++ SndTransport [false] :: flat_map (λ c, [SndPost c 71 60000 false true; SndPost c 71 60000 false true]) [1; 2; 1].
Lemma send_drains_witness :
  length (sn_wire (send_demo (send_config false false) demo_posts)) = 4%nat ∧ sn_tx_links (send_demo (send_config false false) demo_posts) = [1%nat] ∧
  ∃ s', process_tx_all (send_config false false) (λ _, []) map_to_list (send_demo (send_config false false) demo_posts) = Some s'.
Proof.
  split; [vm_compute; reflexivity|]. split; [vm_compute; reflexivity|].
  destruct (send_drains (send_config false false) (λ _, []) map_to_list 7 demo_posts) as (s' & E & _); [|by exists s'].
  repeat constructor; simpl; vm_compute; congruence.
Defined.
(** In a reliable session the carrier of the first of two frames goes, and the frame is sent again on the other. *)
Definition reliable_config : TxConfig := mkTxConfig mux_mode_compat false true false false 1000000 1000000 0 0 8 true true 8.
Definition demo_exit : list SendEvent := two_carriers ++ [SndTick 5; SndPost 1 71 100 false true; SndPost 1 71 100 false true; SndTick 9; SndExit 0].
Lemma send_order_witness :
  (λ x, (x.1.1, tp_post x.1.2, tp_seq x.1.2, x.2)) <$> sn_wire (send_demo reliable_config demo_exit) =
    [(0%nat, 0%nat, 7, false); (1%nat, 1%nat, 8, false); (1%nat, 0%nat, 7, true)] ∧
  (λ p, (tp_post p, tp_seq p)) <$> on_wire (send_demo (send_config false false) demo_posts) = [(0%nat, 7); (1%nat, 8); (2%nat, 9); (3%nat, 10)] ∧
  StronglySorted lt (posts (of_flow 1 (data_of (send_config false false) (on_wire (send_demo (send_config false false) demo_posts))) ++
    queue_of 1 (sn_drr (send_demo (send_config false false) demo_posts)))).
Proof.
  split; [vm_compute; reflexivity|]. split; [vm_compute; reflexivity|].
  destruct (send_order (send_config false false) (λ _, []) map_to_list 7 demo_posts) as [H _]; [repeat constructor; simpl; vm_compute; congruence|lia|].
  apply H. by right.
Defined.

(** With the out of turn first frames, a carrier that refuses one loses a number: the frame has been numbered, and falls through to the
    queue, where it gets the next number.  The session goes on with nothing queued and no frame numbered 7. *)
Lemma turbo_refusal_skips_number :
  let s := send_demo (send_config false true) (two_carriers ++ [SndTransport [false]; SndPost 1 cmd_syn 9 false true]) in
  sn_closed s = false ∧ sn_tx_seq s = 9 ∧ tp_seq <$> on_wire s = [8] ∧ dr_frames (sn_drr s) = 0.
Proof. vm_compute. repeat split. Qed.
